(* ===== verification/_CoqProject ===== *)
-Q . S2P
Prelude.v
Resp.v
RingBuffer.v
ReactorParser.v
Reactor.v
SetDs.v
HashDs.v
ListDs.v
Stream.v
Glob.v
Keyspace.v
SkipList.v
Float.v
Heap.v
Hnsw.v
HnswLaws.v
Vector.v
VectorExact.v
Commands.v
Acl.v
CommandLaws.v
Crc.v
Rebalance.v
Bus.v
Node.v
Cluster.v
Election.v
Topology.v
Rdb.v
Aof.v
Snapshot.v
Session.v
ClusterCommands.v
Scope.v
SessionLaws.v
Access.v
Transactions.v
StreamCommands.v
StreamLaws.v
VectorCommands.v
VectorSnapshot.v
FullSync.v
Replication.v
ReactorServer.v
Durability.v
PubSub.v
TcpServer.v
TcpInvariant.v
WebSocket.v
Operator.v
Telemetry.v
FallbackReactor.v
