(* ===== verification/Prelude.v ===== *)
(** * VortexKV: a verification development

    VortexKV is an in-memory key-value server in Go that speaks the Redis protocol,
    with streams, vector search, transactions, access control, persistence,
    replication and a cluster.  This library models its own logic as executable
    functions and proves what makes it correct.  This first file documents the whole
    and then holds the shared vocabulary.

    ** How the program is put together

    Bytes of a client arrive at one of two front ends: the connection server
    (internal/server) with the buffered reader of internal/resp, or the event reactor
    (internal/reactor) with a ring buffer, an incremental parser and fast paths for
    common commands.  Both hand a command to [ExecuteCommandWithSession] of the engine
    (internal/engine/engine.go): guards for authentication, access lists, read-only
    replicas and cluster routing, then MULTI queueing or [dispatch] on the sharded
    keyspace, whose values are the structures of internal/datastruct.  A command that
    wrote is noted for WATCH, logged (internal/persistence) and forwarded to replicas
    (internal/replication).  Cluster nodes gossip over a binary bus and fail over
    (internal/cluster).

    ** Files and what they model

    Wire: [Resp] (internal/resp: values, reader, writer), [RingBuffer],
    [ReactorParser], [Reactor] (internal/reactor: ring_buffer.go, parser.go,
    serializer.go, cmd_fast.go and [handleRead]), [ReactorServer] (connections, fast
    paths and [flushWrite] of reactor_linux.go), [FallbackReactor]
    (reactor_fallback.go), [TcpServer], [TcpInvariant]
    (internal/server/tcp.go on bufio), [PubSub] (internal/pubsub, as goroutines under
    a read-write lock), [WebSocket] (internal/web/websocket.go).

    Data: [SetDs], [HashDs], [ListDs], [Stream], [SkipList] (set.go, hash.go, list.go,
    stream.go, skiplist.go; the skip list with its nodes and pointers in a heap),
    [Float], [Heap], [Hnsw], [HnswLaws], [Vector], [VectorExact] (hnsw.go, vector.go),
    [Glob] (path/filepath.Match), [Keyspace] (keyspace.go: shards, expiry, eviction).

    Engine: [Commands], [CommandLaws] (data commands of dispatch), [StreamCommands],
    [StreamLaws], [VectorCommands], [ClusterCommands] (with KEYS and the listings),
    [Acl] (acl.go), [Session], [SessionLaws], [Access], [Transactions] (sessions,
    guards, WATCH and MULTI), [Scope] (the keys a command touches), [Telemetry]
    (internal/telemetry, INFO, SLOWLOG, CONFIG, TIME).

    Persistence and replication: [Aof], [Rdb] (internal/persistence), [Snapshot],
    [VectorSnapshot] (keyspace to snapshot and back), [Durability] (log and replay),
    [FullSync] (DumpAllCommands), [Replication] (replication.go).

    Cluster: [Crc] (crc16.go, crc64.go), [Bus], [Node], [Cluster], [Election],
    [Topology] (bus.go, node.go, cluster.go, gossip.go), [Rebalance] (rebalancer.go),
    [Operator] (internal/operator).

    ** How code becomes definitions

    A definition has the name of the function it translates; a loop or a block of a
    long function that is a definition of its own is called after what it does.  A Go
    string or byte slice is [list byte]; integers are [Z] with [int64], [uint64],
    [uint16], ... where the code can wrap; a map is a [gmap]; a struct is a [Record].
    Pointers that are shared (sessions, skip-list nodes, pending entries, cluster
    nodes, channels) are keys of an explicit store.  State is passed explicitly;
    errors are values of [res]; a run-time panic is a value of [panic] or [fault], and
    the theorems that commands are sound prove that it does not occur.  Goroutines are
    step functions or step relations whose interleavings the theorems quantify over
    (PSYNC handlers, publications, connections, blocked readers).  What the program
    takes from outside (clock, random draws, the order of a map range, an unstable
    sort, memory statistics, decimal conversion of floats, what the network returns)
    is an argument, with what the code relies on as a hypothesis where needed; the
    witness of the theorem instantiates it.  In the replies that list a hash or a set
    (HGETALL, HKEYS, HVALS, SMEMBERS) the random order of the map is fixed.

    ** What is proved

    - Types and safety of commands: every data, stream and vector command keeps the
      keyspace well typed and never panics; a command reads and writes only the keys
      that access control and routing see (DBSIZE, FLUSHDB and FLUSHALL aside); a stream
      command that does not block ends.
    - Refinement: the keyspace with expiry refines a map; the skip list refines a
      sorted set; the vector index refines a map (named vectors), with exact search
      while small and without deletions; the ring buffer and [handleRead] refine a byte stream whatever the packets; a
      pipeline on the connection server is answered like sequential execution; EXEC is
      sequential execution without a memory limit; the fast paths agree with the slow
      path for clients the guards admit.
    - Isolation: WATCH aborts a transaction whose keys changed; a client without
      password gets nothing, a user with a key pattern stays within it (on the path
      through the engine); connections leave no session and no subscription behind;
      subscribers receive each message once, in order.
    - Durability: replay of the log rebuilds the keyspace (of commands without expiry
      times); after a crash the replayed commands are a prefix that contains everything
      synchronised; snapshots round-trip and corruption is detected; a replica converges
      to its master (without streams, vectors and expiry times); a replica is read-only
      whatever flags and commands configured it.
    - Cluster: one vote per epoch; slot ownership and that failover takes over all
      slots of the failed master, for nodes without nodes.conf and MEET ([reachable]);
      and for all histories, MEET and nodes.conf included ([Topology.table_consistent]):
      failure detection, topology learned from CLUSTER NODES, answers of CLUSTER;
      plans of the rebalancer and the operator partition the slots evenly.
    - Round trips of RESP, snapshots, cluster packets, node lines, WebSocket frames.

    The comment of each theorem lists its side conditions; where the code leaves a
    case out, a theorem or a finding shows what it does there.  Theorems at the end of a
    file named after a deviation (for example
    [reply_withheld], [tenant_becomes_replica], [resync_loses_expiry]) show, on the
    same definitions, behaviour that contradicts a comment or the evident intent.

    ** Fuel and bounds

    The parsers recurse with fuel that is the length of the input: every step consumes
    a byte, and it is proved that the fuel never runs out ([Resp], [ReactorParser],
    [Rdb], [Aof]).  The graph search of [Hnsw] has fuel by the number of nodes, proved
    enough in [HnswLaws]; the skip list walks have the number of nodes.  Blocking reads
    have as fuel the number of polls; fuel that ends is the result "still waiting",
    proved to be possible only before the deadline.  Theorems about counters assume fewer events than the type
    can count (2^31 or 2^63).

    ** Not modelled

    HTTP handlers and the dashboard, the programs under cmd/ (but for the replication
    flags of the server, in [Replication]), sockets, epoll, kqueue,
    TLS, timers, logging: input and output around the modelled parts.  Lua and
    WebAssembly are interpreters of third parties.  reactor_darwin.go repeats
    reactor_linux.go.  The execution of a rebalancing plan is network traffic.
    Commands of different connections interleave whole: the locks of the data
    structures make single operations atomic, and a race inside one command that locks
    twice is outside the model. *)

From Stdlib Require Export Strings.Byte ZArith Lia Sorting.Sorted.
From stdpp Require Export base gmap strings numbers list.

Open Scope Z_scope.

(** ** Bytes and Go strings

    A Go [string] or [[]byte] is a sequence of bytes; both are [bytes] here.
    [str "..."] is a Go string literal. *)

Abbreviation bytes := (list byte).

Definition str (s : string) : bytes := String.list_byte_of_string s.

#[global] Instance byte_eq_dec : EqDecision byte.
Proof. intros x y. apply Byte.byte_eq_dec. Defined.

#[global] Program Instance byte_countable : Countable byte :=
  inj_countable Byte.to_N Byte.of_N _.
Next Obligation. intros b. apply Byte.of_to_N. Qed.

(** [byte] to integer and the truncating conversion [byte(z)]. *)
Definition b2z (b : byte) : Z := Z.of_N (Byte.to_N b).

Definition z2b (z : Z) : byte :=
  default x00 (Byte.of_N (Z.to_N (z mod 256))).

(** ** Fixed-width integers

    A Go integer is a [Z]; [int64], [uint64], [uint32] and [uint16] are the
    conversions that truncate a result to the width of the type. *)

Definition uint64 (z : Z) : Z := z mod 2 ^ 64.
Definition uint32 (z : Z) : Z := z mod 2 ^ 32.
Definition uint16 (z : Z) : Z := z mod 2 ^ 16.
Definition int64 (z : Z) : Z := (z + 2 ^ 63) mod 2 ^ 64 - 2 ^ 63.

Definition is_int64 (z : Z) : Prop := - 2 ^ 63 <= z < 2 ^ 63.
Definition is_uint64 (z : Z) : Prop := 0 <= z < 2 ^ 64.

(** ** Results

    A Go function that returns [(T, error)] returns [Ok v] or [Err e]. *)

Inductive res (E A : Type) : Type :=
| Ok (a : A)
| Err (e : E).
Arguments Ok {E A} a.
Arguments Err {E A} e.

#[global] Instance res_ret {E} : MRet (res E) := fun A a => Ok a.
#[global] Instance res_bind {E} : MBind (res E) :=
  fun A B f r => match r with Ok a => f a | Err e => Err e end.

#[global] Instance res_eq_dec {E A} `{EqDecision E, EqDecision A} :
  EqDecision (res E A).
Proof. solve_decision. Defined.

Lemma Ok_inj {E A} (a b : A) : @Ok E A a = Ok b -> a = b.
Proof. by intros [= ->]. Qed.

Lemma bind_Ok {E A B} (r : res E A) (f : A -> res E B) b :
  (r ≫= f) = Ok b -> exists a, r = Ok a /\ f a = Ok b.
Proof. destruct r as [a|e]; [by exists a|discriminate]. Qed.

(** Run-time panics of Go, as errors of operations that can raise them. *)
Inductive panic :=
| PanicMakeSlice   (** makeslice: len out of range *)
| PanicBounds      (** index or slice bounds out of range *)
| PanicNil         (** nil pointer dereference *)
| PanicClose       (** close of a closed channel *)
| PanicConversion  (** failed type assertion *).

#[global] Instance panic_eq_dec : EqDecision panic.
Proof. solve_decision. Defined.

(** ** Byte search: [bytes.IndexByte] and [strings.IndexByte] *)

Fixpoint IndexByte (s : bytes) (c : byte) : option nat :=
  match s with
  | [] => None
  | b :: s' =>
      if decide (b = c) then Some O else S <$> IndexByte s' c
  end.

(** ** Comparison of Go strings: bytewise lexicographic *)

Fixpoint bytes_compare (s t : bytes) : comparison :=
  match s, t with
  | [], [] => Eq
  | [], _ :: _ => Lt
  | _ :: _, [] => Gt
  | a :: s', b :: t' =>
      match b2z a ?= b2z b with
      | Eq => bytes_compare s' t'
      | c => c
      end
  end.

Definition bytes_ltb (s t : bytes) : bool :=
  match bytes_compare s t with Lt => true | _ => false end.

Definition bytes_leb (s t : bytes) : bool :=
  match bytes_compare s t with Gt => false | _ => true end.

(** ** Decimal text: [strconv.FormatInt], [strconv.ParseUint], [strconv.ParseInt]

    Only base 10 and bit size 64 are used by the program.  The fuel of
    [udigits] is the bit length of the number, an upper bound of its number of
    decimal digits. *)

Inductive num_error := ErrSyntax | ErrRange.

#[global] Instance num_error_eq_dec : EqDecision num_error.
Proof. solve_decision. Defined.

Definition digit (d : Z) : byte := z2b (48 + d).

Definition is_digit (c : byte) : bool := (48 <=? b2z c) && (b2z c <=? 57).

Fixpoint udigits (fuel : nat) (n : Z) (acc : bytes) : bytes :=
  match fuel with
  | O => acc
  | S f =>
      let acc' := digit (n mod 10) :: acc in
      if n / 10 =? 0 then acc' else udigits f (n / 10) acc'
  end.

Definition FormatUint (n : Z) : bytes :=
  udigits (S (Z.to_nat (Z.log2 n))) n [].

Definition FormatInt (n : Z) : bytes :=
  if n <? 0 then "-"%byte :: FormatUint (- n) else FormatUint n.

Definition maxUint64 : Z := 2 ^ 64 - 1.

Fixpoint parse_digits (s : bytes) (n : Z) : res num_error Z :=
  match s with
  | [] => Ok n
  | c :: s' =>
      if is_digit c then
        if maxUint64 / 10 + 1 <=? n then Err ErrRange
        else
          let n1 := n * 10 + (b2z c - 48) in
          if maxUint64 <? n1 then Err ErrRange else parse_digits s' n1
      else Err ErrSyntax
  end.

Definition ParseUint (s : bytes) : res num_error Z :=
  match s with
  | [] => Err ErrSyntax
  | _ => parse_digits s 0
  end.

Definition ParseInt (s : bytes) : res num_error Z :=
  let signed (neg : bool) (body : bytes) : res num_error Z :=
    match ParseUint body with
    | Err ErrSyntax => Err ErrSyntax
    | Err ErrRange => Err ErrRange
    | Ok un =>
        if neg then (if 2 ^ 63 <? un then Err ErrRange else Ok (- un))
        else (if 2 ^ 63 <=? un then Err ErrRange else Ok un)
    end in
  match s with
  | [] => Err ErrSyntax
  | c :: s' =>
      if decide (c = "+"%byte) then signed false s'
      else if decide (c = "-"%byte) then signed true s'
      else signed false s
  end.

(** The value a run of decimal digits denotes, read after the prefix [n]. *)
Definition decval (n : Z) (s : bytes) : Z :=
  foldl (fun a c => a * 10 + (b2z c - 48)) n s.

(** ** Automation

    [vkv] collects the facts about bytes, widths and decimal text that close
    the routine side conditions. *)

Create HintDb vkv.
Create Rewrite HintDb vkv.

Ltac simplify_res :=
  repeat match goal with
  | H : Ok _ = Ok _ |- _ => injection H as H; subst
  | H : Err _ = Err _ |- _ => injection H as H; subst
  | H : Ok _ = Err _ |- _ => discriminate H
  | H : Err _ = Ok _ |- _ => discriminate H
  | H : mbind _ _ = _ |- _ => progress (cbn [mbind res_bind] in H)
  end.

(** Case analysis on the tests of a definition, keeping the decided facts. *)
Ltac case_test :=
  match goal with
  | |- context [if decide ?P then _ else _] => destruct (decide P)
  | |- context [if ?a <? ?b then _ else _] => destruct (Z.ltb_spec a b)
  | |- context [if ?a <=? ?b then _ else _] => destruct (Z.leb_spec a b)
  | |- context [if ?a =? ?b then _ else _] => destruct (Z.eqb_spec a b)
  | |- context [if ?b then _ else _] => destruct b eqn:?
  end.

(** ** Bytes *)

Lemma b2z_range b : 0 <= b2z b < 256.
Proof. unfold b2z. pose proof (Byte.to_N_bounded b). lia. Qed.

Lemma b2z_z2b z : b2z (z2b z) = z mod 256.
Proof.
  unfold b2z, z2b.
  pose proof (Z.mod_pos_bound z 256 ltac:(lia)) as Hb.
  destruct (Byte.of_N (Z.to_N (z mod 256))) as [b|] eqn:E; cbn.
  - apply Byte.to_of_N in E. lia.
  - pose proof (Byte.to_of_N_option_map (Z.to_N (z mod 256))) as H.
    rewrite E in H. cbn in H. case_match eqn:Hle; [discriminate|].
    apply N.leb_gt in Hle. lia.
Qed.

Lemma b2z_inj a b : b2z a = b2z b -> a = b.
Proof.
  unfold b2z. intros H. apply (inj Some).
  rewrite <- !Byte.of_to_N. f_equal. lia.
Qed.

Lemma z2b_b2z b : z2b (b2z b) = b.
Proof.
  apply b2z_inj. rewrite b2z_z2b. apply Z.mod_small, b2z_range.
Qed.

#[export] Hint Resolve b2z_range : vkv.
#[export] Hint Rewrite b2z_z2b z2b_b2z : vkv.

(** ** Widths *)

Lemma int64_range z : is_int64 (int64 z).
Proof. unfold is_int64, int64. pose proof (Z.mod_pos_bound (z + 2^63) (2^64)). lia. Qed.

Lemma int64_id z : is_int64 z -> int64 z = z.
Proof. unfold is_int64, int64. intros. rewrite Z.mod_small; lia. Qed.

Lemma uint64_range z : is_uint64 (uint64 z).
Proof. unfold is_uint64, uint64. apply Z.mod_pos_bound. lia. Qed.

Lemma uint64_id z : is_uint64 z -> uint64 z = z.
Proof. unfold is_uint64, uint64. intros. apply Z.mod_small. lia. Qed.

#[export] Hint Resolve int64_range uint64_range : vkv.

(** ** Byte search *)

Lemma IndexByte_app s t c :
  c ∉ s -> IndexByte (s ++ c :: t) c = Some (length s).
Proof.
  induction s as [|b s IH]; cbn; intros H.
  - by rewrite decide_True.
  - rewrite decide_False by set_solver. by rewrite IH by set_solver.
Qed.

Lemma IndexByte_None s c : IndexByte s c = None <-> c ∉ s.
Proof.
  induction s as [|b s IH]; cbn; [set_solver|].
  case_decide; [set_solver|]. rewrite fmap_None, IH. set_solver.
Qed.

Lemma IndexByte_Some s c i :
  IndexByte s c = Some i ->
  s = take i s ++ (c :: drop (S i) s) /\ (c ∉ take i s) /\ (i < length s)%nat.
Proof.
  revert i; induction s as [|b s IH]; cbn; intros i H; [done|].
  case_decide as Hd.
  - simplify_eq. cbn. rewrite drop_0. repeat split; [set_solver|lia].
  - apply fmap_Some in H as (j & Hj & ->). destruct (IH _ Hj) as (E & Hn & Hl).
    cbn. split; [by rewrite <- E|]. split; [set_solver|lia].
Qed.

Lemma IndexByte_app_l s t c i :
  IndexByte s c = Some i -> IndexByte (s ++ t) c = Some i.
Proof.
  revert i; induction s as [|b s IH]; cbn; intros i H; [done|].
  case_decide; [done|]. apply fmap_Some in H as (j & Hj & ->). by rewrite (IH _ Hj).
Qed.

(** ** The order on Go strings *)

Lemma bytes_compare_eq s t : bytes_compare s t = Eq <-> s = t.
Proof.
  revert t; induction s as [|a s IH]; intros [|b t]; cbn; try done.
  destruct (Z.compare_spec (b2z a) (b2z b)) as [E|E|E].
  - rewrite IH. apply b2z_inj in E as ->. split; [by intros ->|by intros [= ->]].
  - split; [done|]. intros [= -> _]. lia.
  - split; [done|]. intros [= -> _]. lia.
Qed.

Lemma bytes_compare_antisym s t : bytes_compare t s = CompOpp (bytes_compare s t).
Proof.
  revert t; induction s as [|a s IH]; intros [|b t]; cbn; try done.
  rewrite (Z.compare_antisym (b2z a) (b2z b)).
  destruct (b2z a ?= b2z b)%Z; cbn; auto.
Qed.

Lemma bytes_compare_lt_trans s t u :
  bytes_compare s t = Lt -> bytes_compare t u = Lt -> bytes_compare s u = Lt.
Proof.
  revert t u; induction s as [|a s IH]; intros [|b t] [|c u]; cbn; try done.
  destruct (Z.compare_spec (b2z a) (b2z b)), (Z.compare_spec (b2z b) (b2z c));
    intros; try done;
    destruct (Z.compare_spec (b2z a) (b2z c)); try lia; try done.
  by eapply IH.
Qed.

(** ** Decimal text *)

Lemma b2z_digit d : 0 <= d < 10 -> b2z (digit d) = 48 + d.
Proof. intros. unfold digit. rewrite b2z_z2b. apply Z.mod_small. lia. Qed.

Lemma is_digit_digit d : 0 <= d < 10 -> is_digit (digit d) = true.
Proof. intros. unfold is_digit. rewrite b2z_digit by done. lia. Qed.

Lemma is_digit_spec c : is_digit c = true <-> 48 <= b2z c <= 57.
Proof. unfold is_digit. lia. Qed.

Lemma decval_nonneg s n :
  0 <= n -> Forall (fun c => is_digit c = true) s -> n <= decval n s.
Proof.
  intros Hn Hs; revert n Hn; induction Hs as [|c s Hc Hs IH]; cbn; intros n Hn; [lia|].
  apply is_digit_spec in Hc.
  etrans; [|apply IH]; lia.
Qed.

Lemma udigits_decval fuel n acc :
  0 <= n < 2 ^ Z.of_nat fuel -> decval 0 (udigits fuel n acc) = decval n acc.
Proof.
  revert n acc; induction fuel as [|f IH]; intros n acc Hn.
  - cbn in *. by replace n with 0 by lia.
  - cbn [udigits]. rewrite Nat2Z.inj_succ, Z.pow_succ_r in Hn by lia.
    assert (Hm : 0 <= n mod 10 < 10) by (apply Z.mod_pos_bound; lia).
    pose proof (Z.div_mod n 10 ltac:(lia)) as Hdm.
    case_test.
    + change (decval 0 (?c :: ?a)) with (decval (0 * 10 + (b2z c - 48)) a).
      rewrite b2z_digit by done. f_equal. lia.
    + rewrite IH by (split; [apply Z.div_pos; lia | apply Z.div_lt_upper_bound; lia]).
      change (decval ?m (?c :: ?a)) with (decval (m * 10 + (b2z c - 48)) a).
      rewrite b2z_digit by done. f_equal. lia.
Qed.

Lemma udigits_digits fuel n acc :
  0 <= n -> Forall (fun c => is_digit c = true) acc ->
  Forall (fun c => is_digit c = true) (udigits fuel n acc).
Proof.
  revert n acc; induction fuel as [|f IH]; intros n acc Hn Ha; [done|].
  cbn [udigits].
  assert (Hd : is_digit (digit (n mod 10)) = true)
    by (apply is_digit_digit, Z.mod_pos_bound; lia).
  case_test; [by constructor|]. apply IH; [apply Z.div_pos; lia|by constructor].
Qed.

Lemma udigits_nonempty fuel n acc : fuel <> O -> udigits fuel n acc <> [].
Proof.
  intros H; destruct fuel as [|f]; [done|]. clear H.
  revert n acc; induction f as [|f IH]; intros n acc; cbn [udigits].
  - by case_test.
  - case_test; [done|]. apply IH.
Qed.

Lemma FormatUint_digits n :
  0 <= n -> Forall (fun c => is_digit c = true) (FormatUint n).
Proof. intros. unfold FormatUint. by apply udigits_digits. Qed.

Lemma FormatUint_nonempty n : FormatUint n <> [].
Proof. by apply udigits_nonempty. Qed.

Lemma FormatUint_decval n : 0 <= n -> decval 0 (FormatUint n) = n.
Proof.
  intros Hn. unfold FormatUint. rewrite udigits_decval; [done|].
  split; [done|]. rewrite Nat2Z.inj_succ, Z2Nat.id by apply Z.log2_nonneg.
  destruct (Z.eq_dec n 0) as [->|]; [done|]. apply Z.log2_spec. lia.
Qed.

Lemma parse_digits_decval s n :
  0 <= n -> Forall (fun c => is_digit c = true) s -> decval n s <= maxUint64 ->
  parse_digits s n = Ok (decval n s).
Proof.
  intros Hn Hs; revert n Hn.
  induction Hs as [|c s Hc Hs IH]; cbn; intros n Hn Hmax; [done|].
  pose proof (proj1 (is_digit_spec c) Hc) as Hr. rewrite Hc.
  assert (n * 10 + (b2z c - 48) <= maxUint64) as Hle.
  { etrans; [apply (decval_nonneg s)|exact Hmax]; [lia|done]. }
  change (maxUint64 / 10 + 1) with 1844674407370955162. unfold maxUint64 in *.
  rewrite (proj2 (Z.leb_gt _ _)) by lia. rewrite (proj2 (Z.ltb_ge _ _)) by lia.
  apply IH; [lia|done].
Qed.

Lemma ParseUint_FormatUint n : is_uint64 n -> ParseUint (FormatUint n) = Ok n.
Proof.
  intros [Hn Hm]. unfold ParseUint.
  destruct (FormatUint n) eqn:E; [by apply FormatUint_nonempty in E|].
  rewrite <- E. rewrite parse_digits_decval; rewrite ?FormatUint_decval by lia;
    [done|lia|by apply FormatUint_digits|unfold maxUint64; lia].
Qed.

Lemma parse_digits_range s n v :
  0 <= n <= maxUint64 -> parse_digits s n = Ok v -> is_uint64 v.
Proof.
  revert n; induction s as [|c s IH]; cbn [parse_digits]; intros n Hn H.
  - injection H as <-. unfold is_uint64, maxUint64 in *. lia.
  - destruct (is_digit c) eqn:Hc; [|done]. apply is_digit_spec in Hc.
    destruct (Z.leb_spec (maxUint64 / 10 + 1) n); [done|].
    destruct (Z.ltb_spec maxUint64 (n * 10 + (b2z c - 48))); [done|].
    eapply IH; [|exact H]. lia.
Qed.

Lemma ParseUint_range s v : ParseUint s = Ok v -> is_uint64 v.
Proof.
  unfold ParseUint. destruct s; [done|]. apply parse_digits_range.
  unfold maxUint64. lia.
Qed.

Lemma FormatUint_no_byte n c : 0 <= n -> is_digit c = false -> c ∉ FormatUint n.
Proof.
  intros Hn Hc Hin. pose proof (FormatUint_digits n Hn) as HF.
  rewrite list.Forall_forall in HF. specialize (HF _ Hin). congruence.
Qed.

Lemma digit_not_sign c : is_digit c = true -> c <> "+"%byte /\ c <> "-"%byte.
Proof. intros H. split; intros ->; discriminate H. Qed.

Lemma ParseInt_FormatInt n : is_int64 n -> ParseInt (FormatInt n) = Ok n.
Proof.
  intros [Hn Hm]. unfold FormatInt. case_test.
  - unfold ParseInt. rewrite decide_False by done. rewrite decide_True by done.
    rewrite ParseUint_FormatUint by (unfold is_uint64; lia).
    rewrite (proj2 (Z.ltb_ge _ _)) by lia. f_equal. lia.
  - pose proof (FormatUint_digits n ltac:(lia)) as Hd.
    pose proof (ParseUint_FormatUint n ltac:(unfold is_uint64; lia)) as HP.
    destruct (FormatUint n) as [|c s] eqn:E; [by apply FormatUint_nonempty in E|].
    inversion Hd as [|?? Hc]; subst. apply digit_not_sign in Hc as [H1 H2].
    unfold ParseInt. rewrite !decide_False by done. rewrite HP.
    rewrite (proj2 (Z.leb_gt _ _)) by lia. done.
Qed.

Lemma ParseInt_range s v : ParseInt s = Ok v -> is_int64 v.
Proof.
  assert (forall neg body, match ParseUint body with
    | Err ErrSyntax => Err ErrSyntax
    | Err ErrRange => Err ErrRange
    | Ok un => if (neg : bool) then (if 2 ^ 63 <? un then Err ErrRange else Ok (- un))
               else (if 2 ^ 63 <=? un then Err ErrRange else Ok un)
    end = Ok v -> is_int64 v) as H.
  { intros neg body. destruct (ParseUint body) as [un|[]] eqn:E; [|done|done]. apply ParseUint_range in E. unfold is_uint64, is_int64 in *.
    destruct neg; [destruct (Z.ltb_spec (2 ^ 63) un)|destruct (Z.leb_spec (2 ^ 63) un)]; intros Hv; try done; apply Ok_inj in Hv; lia. }
  unfold ParseInt. destruct s as [|c s']; [done|]. case_decide; [apply (H false)|]. case_decide; [apply (H true)|apply (H false)].
Qed.

Lemma FormatInt_nonneg n : 0 <= n -> FormatInt n = FormatUint n.
Proof. intros. unfold FormatInt. by rewrite (proj2 (Z.ltb_ge _ _)) by lia. Qed.

(** Decimal text holds no line terminator. *)
Lemma FormatInt_no_byte n c :
  is_digit c = false -> c <> "-"%byte -> c ∉ FormatInt n.
Proof.
  intros Hc Hm Hin. unfold FormatInt in Hin.
  assert (forall m, 0 <= m -> c ∉ FormatUint m) as Hu.
  { intros m Hp Hi. pose proof (FormatUint_digits m Hp) as HF.
    rewrite list.Forall_forall in HF. specialize (HF _ Hi). congruence. }
  destruct (Z.ltb_spec n 0).
  - apply elem_of_cons in Hin as [->|Hin]; [done|]. by apply (Hu (- n)); [lia|].
  - by apply (Hu n).
Qed.

#[export] Hint Resolve ParseUint_FormatUint ParseInt_FormatInt FormatInt_no_byte : vkv.

(** ** Lists *)

Lemma take_app_length' {A} (l k : list A) n : n = length l -> take n (l ++ k) = l.
Proof. intros ->. apply take_app_length. Qed.

Lemma drop_app_length' {A} (l k : list A) n : n = length l -> drop n (l ++ k) = k.
Proof. intros ->. apply drop_app_length. Qed.

(** ** Finite sets of strings *)

Lemma gset_size_insert {A} `{Countable A} (x : A) (X : gset A) :
  x ∉ X -> size ({[x]} ∪ X) = S (size X).
Proof.
  intros. rewrite size_union, size_singleton by set_solver. done.
Qed.

(** ** Go's [strings.Split] on a one-byte separator, [HasSuffix], [TrimSuffix] *)

Fixpoint Split (s : bytes) (c : byte) : list bytes :=
  match s with
  | [] => [[]]
  | b :: s' =>
      if decide (b = c) then [] :: Split s' c
      else match Split s' c with
           | [] => [[b]]
           | p :: ps => (b :: p) :: ps
           end
  end.

Definition HasPrefix (s p : bytes) : bool := bool_decide (take (length p) s = p).

Definition HasSuffix (s p : bytes) : bool :=
  (length p <=? length s)%nat && bool_decide (drop (length s - length p) s = p).

Definition TrimSuffix (s p : bytes) : bytes :=
  if HasSuffix s p then take (length s - length p) s else s.

Lemma Split_no_sep s c : c ∉ s -> Split s c = [s].
Proof.
  induction s as [|b s IH]; cbn [Split]; intros H; [done|].
  rewrite decide_False by set_solver. by rewrite IH by set_solver.
Qed.

Lemma Split_app s t c : c ∉ s -> Split (s ++ c :: t) c = s :: Split t c.
Proof.
  induction s as [|b s IH]; cbn [Split app]; intros H.
  - by rewrite decide_True.
  - rewrite decide_False by set_solver. by rewrite IH by set_solver.
Qed.

(** ** [sort.Slice]

    Go's sort returns a permutation ordered by [less]; where no two elements are
    equivalent under [less] that permutation is unique, and insertion computes
    it. *)

Section sort_slice.
Context {A : Type} (less : A -> A -> bool).

Fixpoint insert_sorted (x : A) (l : list A) : list A :=
  match l with
  | [] => [x]
  | y :: l' => if less x y then x :: l else y :: insert_sorted x l'
  end.

Definition sort_slice (l : list A) : list A := foldr insert_sorted [] l.

Lemma insert_sorted_perm x l : insert_sorted x l ≡ₚ x :: l.
Proof.
  induction l as [|y l IH]; cbn; [done|]. case_match; [done|].
  rewrite IH. apply Permutation_swap.
Qed.

Lemma sort_slice_perm l : sort_slice l ≡ₚ l.
Proof. induction l as [|x l IH]; cbn; [done|]. by rewrite insert_sorted_perm, IH. Qed.

Hypothesis less_trans : forall x y z, less x y = false -> less y z = false -> less x z = false.
Hypothesis less_total : forall x y, less x y = true -> less y x = false.

(** The order that sorting establishes: no later element is less. *)
Abbreviation sorted_by := (StronglySorted (fun x y => less y x = false)).

Lemma insert_sorted_sorted x l : sorted_by l -> sorted_by (insert_sorted x l).
Proof.
  induction 1 as [|y l Hl IH Hy]; cbn; [repeat constructor|].
  case_match eqn:E.
  - constructor; [by constructor|]. constructor; [by apply less_total|].
    eapply list.Forall_impl; [exact Hy|]. cbn. intros z Hz.
    eapply less_trans; [exact Hz|]. by apply less_total.
  - constructor; [done|]. rewrite insert_sorted_perm. by constructor.
Qed.

Lemma sort_slice_sorted l : sorted_by (sort_slice l).
Proof. induction l; cbn; [constructor|]. by apply insert_sorted_sorted. Qed.
End sort_slice.

Lemma filter_none {A} (P : A -> Prop) `{!forall x, Decision (P x)} (l : list A) :
  Forall (fun x => ~ P x) l -> filter P l = [].
Proof. induction 1; [done|]. rewrite filter_cons, decide_False; done. Qed.

Lemma filter_all {A} (P : A -> Prop) `{!forall x, Decision (P x)} (l : list A) :
  Forall P l -> filter P l = l.
Proof. induction 1; [done|]. rewrite filter_cons, decide_True by done. by f_equal. Qed.

Lemma filter_fmap {A B} (f : A -> B) (P : B -> Prop) `{!forall x, Decision (P x)} (l : list A) :
  filter P (f <$> l) = f <$> filter (fun x => P (f x)) l.
Proof.
  induction l as [|x l IH]; [done|]. rewrite fmap_cons, !filter_cons, IH. by case_decide.
Qed.

(** ** Sorted lists *)

Lemma StronglySorted_app_elem {A} (R : A -> A -> Prop) l k x y :
  StronglySorted R (l ++ k) -> x ∈ l -> y ∈ k -> R x y.
Proof.
  induction l as [|z l IH]; intros Hs Hx Hy; [by apply elem_of_nil in Hx|].
  apply StronglySorted_inv in Hs as [Hs Hz]. apply elem_of_cons in Hx as [->|Hx]; [|by apply IH].
  rewrite Forall_forall in Hz. apply Hz, elem_of_app. by right.
Qed.

Lemma StronglySorted_snoc {A} (R : A -> A -> Prop) l x :
  StronglySorted R l -> Forall (fun y => R y x) l -> StronglySorted R (l ++ [x]).
Proof.
  induction 1 as [|y l Hl IH Hy]; intros Hx; cbn; [repeat constructor|].
  apply Forall_cons in Hx as [Hyx Hx]. constructor; [by apply IH|].
  apply Forall_app. split; [done|]. by constructor.
Qed.

Lemma StronglySorted_reverse {A} (R : A -> A -> Prop) l :
  StronglySorted R l -> StronglySorted (fun x y => R y x) (reverse l).
Proof.
  induction 1 as [|x l Hl IH Hx]; [constructor|]. rewrite reverse_cons.
  apply StronglySorted_snoc; [done|]. by rewrite reverse_Permutation.
Qed.

Lemma StronglySorted_filter {A} (R : A -> A -> Prop) (P : A -> Prop)
    `{!forall x, Decision (P x)} l :
  StronglySorted R l -> StronglySorted R (filter P l).
Proof.
  induction 1 as [|x l Hl IH Hx]; [constructor|]. rewrite filter_cons. case_decide; [|done].
  constructor; [done|]. rewrite Forall_forall in *. intros y [_ Hy]%list_elem_of_filter. auto.
Qed.

Lemma StronglySorted_drop {A} (R : A -> A -> Prop) n l :
  StronglySorted R l -> StronglySorted R (drop n l).
Proof.
  revert n; induction l as [|x l IH]; intros [|n] H; cbn; try done.
  apply IH. by apply StronglySorted_inv in H as [? _].
Qed.

Lemma filter_reverse {A} (P : A -> Prop) `{!forall x, Decision (P x)} (l : list A) :
  filter P (reverse l) = reverse (filter P l).
Proof.
  induction l as [|x l IH]; [done|]. rewrite reverse_cons, filter_app, IH, !filter_cons.
  case_decide; [by rewrite reverse_cons|]. cbn. by rewrite app_nil_r.
Qed.

(** ** Concatenations *)

Lemma elem_of_concat_fmap {A B} (g : A -> list B) l x :
  x ∈ concat (g <$> l) <-> exists m, m ∈ l /\ x ∈ g m.
Proof.
  induction l as [|m l IH]; [set_solver|]. rewrite fmap_cons. cbn [concat].
  rewrite elem_of_app, IH. set_solver.
Qed.

Lemma fmap_concat_fmap {A B C} (f : B -> C) (g : A -> list B) l :
  f <$> concat (g <$> l) = concat ((fun m => f <$> g m) <$> l).
Proof.
  induction l as [|m l IH]; [done|]. rewrite !fmap_cons. cbn [concat].
  by rewrite fmap_app, IH.
Qed.

(** ** [bytes.Fields] and [strings.Fields]

    The width of a white-space character at the head of the text, 0 if there is
    none ([unicode.IsSpace] in UTF-8). *)

Definition space_width (s : bytes) : nat :=
  match s with
  | x09 :: _ | x0a :: _ | x0b :: _ | x0c :: _ | x0d :: _ | x20 :: _ => 1%nat
  | xc2 :: x85 :: _ | xc2 :: xa0 :: _ => 2%nat
  | xe1 :: x9a :: x80 :: _ => 3%nat
  | xe2 :: x80 :: b :: _ =>
      if ((128 <=? b2z b) && (b2z b <=? 138)) || (b2z b =? 168) || (b2z b =? 169)
         || (b2z b =? 175)
      then 3%nat else 0%nat
  | xe2 :: x81 :: x9f :: _ => 3%nat
  | xe3 :: x80 :: x80 :: _ => 3%nat
  | _ => 0%nat
  end.

Fixpoint Fields_loop (s : bytes) (skip : nat) (cur : bytes) (acc : list bytes)
    : list bytes :=
  match s with
  | [] => if decide (cur = []) then acc else acc ++ [cur]
  | c :: s' =>
      match skip with
      | S k => Fields_loop s' k cur acc
      | O =>
          match space_width s with
          | O => Fields_loop s' O (cur ++ [c]) acc
          | S k => Fields_loop s' k [] (if decide (cur = []) then acc else acc ++ [cur])
          end
      end
  end.

Definition Fields (s : bytes) : list bytes := Fields_loop s O [] [].

(** [strings.Join]. *)
Fixpoint Join (ws : list bytes) (sep : bytes) : bytes :=
  match ws with
  | [] => []
  | [w] => w
  | w :: ws' => w ++ sep ++ Join ws' sep
  end.

(** A word: printable ASCII. *)
Definition word_byte (c : byte) : Prop := 33 <= b2z c <= 126.

Lemma word_byte_width c s : word_byte c -> space_width (c :: s) = O.
Proof.
  intros [H1 H2]. destruct c;
    first [reflexivity | exfalso; first [exact (H1 eq_refl) | exact (H2 eq_refl)]].
Qed.

Lemma Fields_loop_word w s cur acc :
  Forall word_byte w -> Fields_loop (w ++ s) O cur acc = Fields_loop s O (cur ++ w) acc.
Proof.
  intros Hw; revert cur; induction Hw as [|c w Hc Hw IH]; intros cur; [by rewrite app_nil_r|].
  cbn [app Fields_loop]. rewrite word_byte_width by done. rewrite IH. by rewrite <- app_assoc.
Qed.

(** Words joined by a blank are found again. *)
Lemma Fields_Join ws :
  Forall (fun w => w <> [] /\ Forall word_byte w) ws -> Fields (Join ws (str " ")) = ws.
Proof.
  intros H. unfold Fields. change ws with ([] ++ ws) at 2. generalize (@nil bytes) as acc.
  induction H as [|w ws [Hne Hw] Hws IH]; intros acc; [cbn; by rewrite app_nil_r|].
  destruct ws as [|w' ws].
  - cbn [Join]. rewrite <- (app_nil_r w) at 1. rewrite Fields_loop_word by done.
    cbn [Fields_loop app]. by rewrite decide_False.
  - change (Join (w :: w' :: ws) (str " ")) with (w ++ str " " ++ Join (w' :: ws) (str " ")).
    rewrite Fields_loop_word by done. change (str " " ++ ?l) with (x20 :: l).
    cbn [Fields_loop app space_width]. rewrite decide_False by done. rewrite IH.
    by rewrite <- app_assoc.
Qed.

(** ** [strings.ToUpper]

    ASCII letters, and the two other characters whose upper case is ASCII
    (dotless i and long s).  Other non-ASCII text is left alone: the program only
    compares the result with ASCII words, which such text never equals. *)

Definition upper_byte (c : byte) : byte :=
  if (97 <=? b2z c) && (b2z c <=? 122) then z2b (b2z c - 32) else c.

Fixpoint ToUpper (s : bytes) : bytes :=
  match s with
  | xc4 :: xb1 :: s' => "I"%byte :: ToUpper s'
  | xc5 :: xbf :: s' => "S"%byte :: ToUpper s'
  | c :: s' => upper_byte c :: ToUpper s'
  | [] => []
  end.

(** ** [encoding/binary] *)

(** [binary.BigEndian.PutUint16/64] and [Uint16/64], for [n] bytes. *)
Fixpoint put_be (n : nat) (z : Z) : bytes :=
  match n with
  | O => []
  | S n' => z2b (Z.shiftr z (8 * Z.of_nat n')) :: put_be n' z
  end.

Definition get_be (s : bytes) : Z := foldl (fun a b => a * 256 + b2z b) 0 s.

(** [binary.LittleEndian]. *)
Definition put_le (n : nat) (z : Z) : bytes := reverse (put_be n z).
Definition get_le (s : bytes) : Z := get_be (reverse s).

Lemma length_put_be n z : length (put_be n z) = n.
Proof. induction n; cbn; lia. Qed.

Lemma get_be_acc a n z :
  0 <= z -> 0 <= a ->
  foldl (fun a b => a * 256 + b2z b) a (put_be n z) = a * 2 ^ (8 * Z.of_nat n) + z mod 2 ^ (8 * Z.of_nat n).
Proof.
  intros Hz; revert a; induction n as [|n IH]; intros a Ha; cbn [put_be foldl].
  { change (8 * Z.of_nat 0) with 0. rewrite Z.mod_1_r. lia. }
  rewrite IH by (pose proof (b2z_range (z2b (Z.shiftr z (8 * Z.of_nat n)))); lia).
  rewrite b2z_z2b, Z.shiftr_div_pow2 by lia.
  replace (8 * Z.of_nat (S n)) with (8 * Z.of_nat n + 8) by lia.
  rewrite Z.pow_add_r by lia. set (P := 2 ^ (8 * Z.of_nat n)). change (2 ^ 8) with 256.
  assert (0 < P) by (apply Z.pow_pos_nonneg; lia).
  rewrite Z.rem_mul_r by lia. lia.
Qed.

Lemma get_put_be n z : 0 <= z < 2 ^ (8 * Z.of_nat n) -> get_be (put_be n z) = z.
Proof. intros Hz. unfold get_be. rewrite get_be_acc by lia. rewrite Z.mod_small; lia. Qed.

Lemma length_put_le n z : length (put_le n z) = n.
Proof. unfold put_le. by rewrite length_reverse, length_put_be. Qed.

Lemma get_put_le n z : 0 <= z < 2 ^ (8 * Z.of_nat n) -> get_le (put_le n z) = z.
Proof. intros Hz. unfold get_le, put_le. rewrite reverse_involutive. by apply get_put_be. Qed.

(** Bits of a number below and above a position. *)
Lemma lor_shiftl a b k : 0 <= k -> 0 <= a < 2 ^ k -> 0 <= b -> Z.lor a (Z.shiftl b k) = a + b * 2 ^ k.
Proof.
  intros Hk Ha Hb. rewrite <- Z.shiftl_mul_pow2 by done. symmetry. apply Z.add_nocarry_lor.
  apply Z.bits_inj'. intros j Hj. rewrite Z.land_spec, Z.bits_0, Z.shiftl_spec by done.
  destruct (Z.lt_ge_cases j k).
  - by rewrite (Z.testbit_neg_r b) by lia; rewrite andb_false_r.
  - rewrite <- (Z.mod_small a (2 ^ k)) by done. by rewrite Z.mod_pow2_bits_high by lia.
Qed.
