(* ===== verification/Resp.v ===== *)
(** * The RESP wire protocol: [internal/resp]

    Values ([types.go]), the reader ([parser.go]) and the writer and
    serialisers ([writer.go]).  The reader works on the list of bytes still to
    come from the connection or file: reaching the end of the list is
    [io.EOF].  The writer functions give the bytes appended to the output; a
    failing underlying writer is not modelled. *)

From S2P Require Import Prelude.

Definition CR : byte := x0d.
Definition LF : byte := x0a.
Definition CRLF : bytes := [CR; LF].

Definition SimpleStringPrefix : byte := "+"%byte.
Definition ErrorPrefix : byte := "-"%byte.
Definition IntegerPrefix : byte := ":"%byte.
Definition BulkStringPrefix : byte := "$"%byte.
Definition ArrayPrefix : byte := "*"%byte.
Definition NullPrefix : byte := "_"%byte.
Definition BooleanPrefix : byte := "#"%byte.

(** A nil [Bulk] slice is [None]: [WriteBulkBytes] tells it from an empty one. *)
Inductive Value : Type := MkValue {
  vType : byte;
  vStr : bytes;
  vNum : Z;
  vBulk : option bytes;
  vArray : list Value;
  vBool : bool;
  vNull : bool
}.

Definition SimpleString (s : bytes) : Value :=
  MkValue SimpleStringPrefix s 0 None [] false false.
Definition Error (msg : bytes) : Value :=
  MkValue ErrorPrefix msg 0 None [] false false.
Definition Integer (n : Z) : Value :=
  MkValue IntegerPrefix [] n None [] false false.
Definition BulkString (s : bytes) : Value :=
  MkValue BulkStringPrefix [] 0 (Some s) [] false false.
Definition BulkBytes (b : option bytes) : Value :=
  MkValue BulkStringPrefix [] 0 b [] false false.
Definition Null : Value :=
  MkValue BulkStringPrefix [] 0 None [] false true.
Definition NullArray : Value :=
  MkValue ArrayPrefix [] 0 None [] false true.
Definition Array (items : list Value) : Value :=
  MkValue ArrayPrefix [] 0 None items false false.
Definition Boolean (b : bool) : Value :=
  MkValue BooleanPrefix [] 0 None [] b false.

(** [string(v.Bulk)]: a nil slice converts to the empty string. *)
Definition bulk_str (b : option bytes) : bytes := default [] b.

Definition Value_String (v : Value) : bytes :=
  if decide (vType v = SimpleStringPrefix \/ vType v = ErrorPrefix) then vStr v
  else if decide (vType v = IntegerPrefix) then FormatInt (vNum v)
  else if decide (vType v = BulkStringPrefix) then
    if vNull v then str "(nil)" else bulk_str (vBulk v)
  else if decide (vType v = ArrayPrefix) then
    if vNull v then str "(nil)"
    else str "[" ++ FormatInt (Z.of_nat (length (vArray v))) ++ str " items]"
  else [].

(** ** Reader *)

Inductive rerr :=
| EOF
| ErrUnexpectedEOF
| ErrBufferFull
| ErrInvalidSyntax
| ErrBulkTooLarge
| ErrMultibulkTooLarge
| ErrExpectedArray (t : byte)
| OutOfFuel.

#[global] Instance rerr_eq_dec : EqDecision rerr.
Proof. solve_decision. Defined.

Definition MaxBulkLength : Z := 512 * 1024 * 1024.
Definition MaxArrayLength : Z := 1024 * 1024.

(** The size of the [bufio.Reader]: [ReadSlice] finds a delimiter only within
    one buffer. *)
Definition readBufSize : Z := 64 * 1024.

Definition ReadSlice (inp : bytes) : res rerr (bytes * bytes) :=
  match IndexByte inp LF with
  | Some i =>
      if Z.of_nat i <? readBufSize then Ok (take (S i) inp, drop (S i) inp)
      else Err ErrBufferFull
  | None =>
      if Z.of_nat (length inp) <? readBufSize then Err EOF else Err ErrBufferFull
  end.

Definition ReadFull (n : Z) (inp : bytes) : res rerr (bytes * bytes) :=
  if Z.of_nat (length inp) <? n then
    match inp with [] => Err EOF | _ => Err ErrUnexpectedEOF end
  else Ok (take (Z.to_nat n) inp, drop (Z.to_nat n) inp).

Definition readLine (inp : bytes) : res rerr (bytes * bytes) :=
  '(line, rest) ← ReadSlice inp;
  let n := length line in
  if decide ((n < 2)%nat \/ line !! (n - 2)%nat <> Some CR) then
    if decide ((1 <= n)%nat /\ line !! (n - 1)%nat = Some LF)
    then Ok (take (n - 1) line, rest)
    else Err ErrInvalidSyntax
  else Ok (take (n - 2) line, rest).

Definition readBulk (inp : bytes) : res rerr (Value * bytes) :=
  '(line, rest) ← readLine inp;
  match ParseInt line with
  | Err _ => Err ErrInvalidSyntax
  | Ok length =>
      if length =? -1 then Ok (Null, rest)
      else if (length <? -1) || (MaxBulkLength <? length) then Err ErrBulkTooLarge
      else
        '(buf, rest') ← ReadFull (length + 2) rest;
        let n := Z.to_nat length in
        if decide (buf !! n <> Some CR \/ buf !! (n + 1)%nat <> Some LF)
        then Err ErrInvalidSyntax
        else Ok (BulkString (take n buf), rest')
  end.

Section reader.
Variable rv : bytes -> res rerr (Value * bytes).

Fixpoint readItems (n : nat) (inp : bytes) : res rerr (list Value * bytes) :=
  match n with
  | O => Ok ([], inp)
  | S n' =>
      '(v, inp1) ← rv inp;
      '(vs, inp2) ← readItems n' inp1;
      Ok (v :: vs, inp2)
  end.

Definition readArray (inp : bytes) : res rerr (Value * bytes) :=
  '(line, rest) ← readLine inp;
  match ParseInt line with
  | Err _ => Err ErrInvalidSyntax
  | Ok length =>
      if length =? -1 then Ok (NullArray, rest)
      else if length <? -1 then Err ErrInvalidSyntax
      else if MaxArrayLength <? length then Err ErrMultibulkTooLarge
      else
        '(items, rest') ← readItems (Z.to_nat length) rest;
        Ok (Array items, rest')
  end.
End reader.

Fixpoint parseCommandLine_loop (cmd : bytes) (inQuotes : bool) (quoteChar : byte)
    (current : bytes) (args : list bytes) : list bytes :=
  match cmd with
  | [] => if decide (current = []) then args else args ++ [current]
  | c :: cmd' =>
      if inQuotes then
        if decide (c = quoteChar) then
          parseCommandLine_loop cmd' false quoteChar current args
        else if decide (c = "\"%byte) then
          match cmd' with
          | d :: cmd'' =>
              parseCommandLine_loop cmd'' true quoteChar (current ++ [d]) args
          | [] => parseCommandLine_loop cmd' true quoteChar (current ++ [c]) args
          end
        else parseCommandLine_loop cmd' true quoteChar (current ++ [c]) args
      else
        if decide (c = x22 \/ c = "'"%byte) then
          parseCommandLine_loop cmd' true c current args
        else if decide (c = " "%byte \/ c = x09) then
          if decide (current = [])
          then parseCommandLine_loop cmd' false quoteChar current args
          else parseCommandLine_loop cmd' false quoteChar [] (args ++ [current])
        else parseCommandLine_loop cmd' false quoteChar (current ++ [c]) args
  end.

Definition parseCommandLine (cmd : bytes) : list bytes :=
  parseCommandLine_loop cmd false x00 [] [].

Definition readInline (firstByte : byte) (inp : bytes) : res rerr (Value * bytes) :=
  '(line, rest) ← readLine inp;
  Ok (Array (map BulkString (parseCommandLine (firstByte :: line))), rest).

(** A value consumes at least one byte, so the length of the input is enough
    fuel for the nesting of arrays ([ReadValue_never_out_of_fuel]). *)
Fixpoint ReadValue_fuel (fuel : nat) (inp : bytes) : res rerr (Value * bytes) :=
  match fuel with
  | O => Err OutOfFuel
  | S f =>
      match inp with
      | [] => Err EOF
      | b :: rest =>
          if decide (b = SimpleStringPrefix) then
            '(line, rest') ← readLine rest; Ok (SimpleString line, rest')
          else if decide (b = ErrorPrefix) then
            '(line, rest') ← readLine rest; Ok (Error line, rest')
          else if decide (b = IntegerPrefix) then
            '(line, rest') ← readLine rest;
            match ParseInt line with
            | Ok n => Ok (Integer n, rest')
            | Err _ => Err ErrInvalidSyntax
            end
          else if decide (b = BulkStringPrefix) then readBulk rest
          else if decide (b = ArrayPrefix) then readArray (ReadValue_fuel f) rest
          else if decide (b = NullPrefix) then
            '(_, rest') ← readLine rest; Ok (Null, rest')
          else if decide (b = BooleanPrefix) then
            '(line, rest') ← readLine rest;
            Ok (Boolean (bool_decide (line !! O = Some "t"%byte)), rest')
          else readInline b rest
      end
  end.

Definition ReadValue (inp : bytes) : res rerr (Value * bytes) :=
  ReadValue_fuel (S (length inp)) inp.

Definition cmd_arg (item : Value) : bytes :=
  if decide (vType item = BulkStringPrefix) then bulk_str (vBulk item)
  else if decide (vType item = SimpleStringPrefix) then vStr item
  else if decide (vType item = IntegerPrefix) then FormatInt (vNum item)
  else Value_String item.

Definition ReadCommand (inp : bytes) : res rerr (list bytes * bytes) :=
  '(val, rest) ← ReadValue inp;
  if decide (vType val <> ArrayPrefix) then
    if decide (vType val = BulkStringPrefix)
    then Ok ([bulk_str (vBulk val)], rest)
    else Err (ErrExpectedArray (vType val))
  else Ok (map cmd_arg (vArray val), rest).

(** ** Writer *)

Definition Itoa (n : nat) : bytes := FormatInt (Z.of_nat n).

Definition respOK : bytes := str "+OK" ++ CRLF.
Definition respPONG : bytes := str "+PONG" ++ CRLF.
Definition respNull : bytes := str "$-1" ++ CRLF.
Definition respNullArray : bytes := str "*-1" ++ CRLF.
Definition respZeroInt : bytes := str ":0" ++ CRLF.
Definition respOneInt : bytes := str ":1" ++ CRLF.

Definition WriteSimpleString (s : bytes) : bytes :=
  if decide (s = str "OK") then respOK
  else if decide (s = str "PONG") then respPONG
  else SimpleStringPrefix :: s ++ CRLF.

Definition WriteError (msg : bytes) : bytes := ErrorPrefix :: msg ++ CRLF.

Definition WriteInteger (n : Z) : bytes :=
  if n =? 0 then respZeroInt
  else if n =? 1 then respOneInt
  else IntegerPrefix :: FormatInt n ++ CRLF.

Definition WriteBulkString (s : bytes) : bytes :=
  BulkStringPrefix :: Itoa (length s) ++ CRLF ++ s ++ CRLF.

Definition WriteBulkBytes (b : option bytes) : bytes :=
  match b with
  | None => respNull
  | Some b => BulkStringPrefix :: Itoa (length b) ++ CRLF ++ b ++ CRLF
  end.

Definition WriteArrayHeader (length : nat) : bytes :=
  ArrayPrefix :: Itoa length ++ CRLF.

Definition WriteStringArray (items : option (list bytes)) : bytes :=
  match items with
  | None => respNullArray
  | Some items => WriteArrayHeader (length items) ++ concat (map WriteBulkString items)
  end.

Fixpoint WriteValue (v : Value) : bytes :=
  match v with
  | MkValue t s n b a bo nul =>
      if decide (t = SimpleStringPrefix) then WriteSimpleString s
      else if decide (t = ErrorPrefix) then WriteError s
      else if decide (t = IntegerPrefix) then WriteInteger n
      else if decide (t = BulkStringPrefix) then
        if nul then respNull else WriteBulkBytes b
      else if decide (t = ArrayPrefix) then
        if nul then respNullArray
        else WriteArrayHeader (length a) ++ concat (map WriteValue a)
      else WriteBulkString (Value_String v)
  end.

(** Called by no server; the commands of the log have the same shape
    ([SerializeCommand_array]). *)
Fixpoint SerializeValue (v : Value) : bytes :=
  match v with
  | MkValue t s n b a bo nul =>
      if decide (t = SimpleStringPrefix) then SimpleStringPrefix :: s ++ CRLF
      else if decide (t = ErrorPrefix) then ErrorPrefix :: s ++ CRLF
      else if decide (t = IntegerPrefix) then IntegerPrefix :: FormatInt n ++ CRLF
      else if decide (t = BulkStringPrefix) then
        if nul then str "$-1" ++ CRLF
        else BulkStringPrefix :: Itoa (length (bulk_str b)) ++ CRLF ++ bulk_str b ++ CRLF
      else if decide (t = ArrayPrefix) then
        if nul then str "*-1" ++ CRLF
        else ArrayPrefix :: Itoa (length a) ++ CRLF ++ concat (map SerializeValue a)
      else []
  end.

Definition SerializeArg (arg : bytes) : bytes :=
  BulkStringPrefix :: Itoa (length arg) ++ CRLF ++ arg ++ CRLF.

Definition SerializeCommand (args : list bytes) : bytes :=
  ArrayPrefix :: Itoa (length args) ++ CRLF ++ concat (map SerializeArg args).

(** ** Lemmas *)

Section value_ind.
Variable P : Value -> Prop.
Hypothesis step : forall t s n b a bo nul,
  Forall P a -> P (MkValue t s n b a bo nul).

(** Induction on values, with the hypothesis for every array element. *)
Fixpoint Value_ind' (v : Value) : P v :=
  match v with
  | MkValue t s n b a bo nul =>
      step t s n b a bo nul
        ((fix go (l : list Value) : Forall P l :=
            match l with
            | [] => Forall_nil_2 P
            | x :: l' => Forall_cons_2 P x l' (Value_ind' x) (go l')
            end) a)
  end.
End value_ind.

(** Recognise the constructors of [types.go] in an unfolded value. *)
Ltac fold_value :=
  repeat match goal with
  | H : context [MkValue SimpleStringPrefix ?s 0 None [] false false] |- _ =>
      change (MkValue SimpleStringPrefix s 0 None [] false false) with (SimpleString s) in *
  | H : context [MkValue ErrorPrefix ?s 0 None [] false false] |- _ =>
      change (MkValue ErrorPrefix s 0 None [] false false) with (Error s) in *
  | H : context [MkValue IntegerPrefix [] ?n None [] false false] |- _ =>
      change (MkValue IntegerPrefix [] n None [] false false) with (Integer n) in *
  | H : context [MkValue BulkStringPrefix [] 0 (Some ?b) [] false false] |- _ =>
      change (MkValue BulkStringPrefix [] 0 (Some b) [] false false) with (BulkString b) in *
  | H : context [MkValue BulkStringPrefix [] 0 None [] false true] |- _ =>
      change (MkValue BulkStringPrefix [] 0 None [] false true) with Null in *
  | H : context [MkValue ArrayPrefix [] 0 None [] false true] |- _ =>
      change (MkValue ArrayPrefix [] 0 None [] false true) with NullArray in *
  | H : context [MkValue ArrayPrefix [] 0 None ?a false false] |- _ =>
      change (MkValue ArrayPrefix [] 0 None a false false) with (Array a) in *
  end.

(** The values that survive the wire: what the constructors of [types.go] build, with
    simple strings and errors of one line, within the limits of the reader. *)
Inductive wire_value : Value -> Prop :=
| wire_simple s : LF ∉ s -> Z.of_nat (length s) <= readBufSize - 2 ->
    wire_value (SimpleString s)
| wire_error s : LF ∉ s -> Z.of_nat (length s) <= readBufSize - 2 ->
    wire_value (Error s)
| wire_integer n : is_int64 n -> wire_value (Integer n)
| wire_bulk s : Z.of_nat (length s) <= MaxBulkLength -> wire_value (BulkString s)
| wire_null : wire_value Null
| wire_nullarray : wire_value NullArray
| wire_array items : Z.of_nat (length items) <= MaxArrayLength ->
    Forall wire_value items -> wire_value (Array items).

Lemma ReadSlice_line s rest :
  LF ∉ s -> Z.of_nat (length s) < readBufSize ->
  ReadSlice (s ++ LF :: rest) = Ok (s ++ [LF], rest).
Proof.
  intros Hs Hl. unfold ReadSlice. rewrite IndexByte_app by done.
  rewrite (proj2 (Z.ltb_lt _ _)) by lia. rewrite cons_middle, app_assoc.
  rewrite take_app_length', drop_app_length' by (rewrite length_app; cbn; lia). done.
Qed.

Lemma readLine_crlf s rest :
  LF ∉ s -> Z.of_nat (length s) <= readBufSize - 2 ->
  readLine (s ++ CRLF ++ rest) = Ok (s, rest).
Proof.
  intros Hs Hl. unfold readLine, CRLF. cbn [app].
  replace (s ++ CR :: LF :: rest) with ((s ++ [CR]) ++ LF :: rest)
    by by rewrite <- app_assoc.
  rewrite ReadSlice_line; [|set_solver|rewrite length_app; cbn; lia].
  cbn [mbind res_bind].
  rewrite <- app_assoc. cbn [app].
  replace (length (s ++ [CR; LF])) with (length s + 2)%nat by (rewrite length_app; done).
  replace (length s + 2 - 2)%nat with (length s) by lia.
  rewrite decide_False.
  - by rewrite take_app_length.
  - intros [?|H]; [lia|]. apply H. by rewrite list_lookup_middle.
Qed.

Lemma udigits_length fuel n acc :
  (length (udigits fuel n acc) <= fuel + length acc)%nat.
Proof.
  revert n acc; induction fuel as [|f IH]; intros n acc; cbn [udigits]; [lia|].
  case_test; [cbn; lia|]. etrans; [apply IH|cbn; lia].
Qed.

Lemma FormatInt_length n : is_int64 n -> (length (FormatInt n) <= 66)%nat.
Proof.
  intros [Hn Hm].
  assert (forall m, 0 <= m <= 2 ^ 63 -> (length (FormatUint m) <= 64)%nat) as Hu.
  { intros m Hr. unfold FormatUint. etrans; [apply udigits_length|]. cbn [length].
    assert (Z.log2 m <= Z.log2 (2 ^ 63)) as Hl by (apply Z.log2_le_mono; lia).
    rewrite Z.log2_pow2 in Hl by lia. lia. }
  unfold FormatInt. case_test; cbn [length].
  - specialize (Hu (- n)). lia.
  - specialize (Hu n). lia.
Qed.

Lemma FormatInt_no_LF n : LF ∉ FormatInt n.
Proof. by apply FormatInt_no_byte. Qed.

Lemma FormatInt_no_CR n : CR ∉ FormatInt n.
Proof. by apply FormatInt_no_byte. Qed.

Lemma readLine_FormatInt n rest :
  is_int64 n -> readLine (FormatInt n ++ CRLF ++ rest) = Ok (FormatInt n, rest).
Proof.
  intros Hn. apply readLine_crlf; [apply FormatInt_no_LF|].
  pose proof (FormatInt_length n Hn). unfold readBufSize. lia.
Qed.

Lemma ReadFull_app a b : ReadFull (Z.of_nat (length a)) (a ++ b) = Ok (a, b).
Proof.
  unfold ReadFull. rewrite (proj2 (Z.ltb_ge _ _)) by (rewrite length_app; lia).
  by rewrite Nat2Z.id, take_app_length, drop_app_length.
Qed.

#[export] Hint Rewrite readLine_FormatInt ParseInt_FormatInt ReadFull_app using done : vkv.

Lemma len_is_int64 {A} (l : list A) m :
  Z.of_nat (length l) <= m -> m < 2 ^ 63 -> is_int64 (Z.of_nat (length l)).
Proof. unfold is_int64. lia. Qed.

Lemma readBulk_serialized s rest :
  Z.of_nat (length s) <= MaxBulkLength ->
  readBulk (Itoa (length s) ++ CRLF ++ s ++ CRLF ++ rest) = Ok (BulkString s, rest).
Proof.
  intros Hl. unfold readBulk, Itoa.
  assert (is_int64 (Z.of_nat (length s))) as Hi
    by (eapply len_is_int64; [exact Hl|done]).
  rewrite readLine_FormatInt by done. cbn [mbind res_bind].
  rewrite ParseInt_FormatInt by done.
  rewrite (proj2 (Z.eqb_neq _ _)) by lia.
  rewrite (proj2 (Z.ltb_ge _ (-1))), (proj2 (Z.ltb_ge MaxBulkLength _)) by lia.
  cbn [orb].
  replace (Z.of_nat (length s) + 2) with (Z.of_nat (length (s ++ CRLF)))
    by (rewrite length_app; cbn; lia).
  rewrite app_assoc, ReadFull_app. cbn [mbind res_bind].
  rewrite Nat2Z.id. rewrite decide_False.
  - by rewrite take_app_length.
  - unfold CRLF. intros [H|H]; apply H.
    + by rewrite list_lookup_middle.
    + rewrite cons_middle, app_assoc. rewrite list_lookup_middle; [done|].
      rewrite length_app. cbn. lia.
Qed.

Lemma readItems_serialized rv items rest :
  Forall (fun v => forall r, rv (SerializeValue v ++ r) = Ok (v, r)) items ->
  readItems rv (length items) (concat (map SerializeValue items) ++ rest)
    = Ok (items, rest).
Proof.
  intros H; induction H as [|v items Hv H IH]; cbn [length readItems]; [done|].
  cbn [map concat]. rewrite <- app_assoc, Hv. cbn [mbind res_bind].
  rewrite IH. done.
Qed.

(** The serialisation of each constructor, and the reader on each prefix. *)
Lemma SerializeValue_simple s : SerializeValue (SimpleString s) = SimpleStringPrefix :: s ++ CRLF.
Proof. reflexivity. Qed.
Lemma SerializeValue_error s : SerializeValue (Error s) = ErrorPrefix :: s ++ CRLF.
Proof. reflexivity. Qed.
Lemma SerializeValue_integer n :
  SerializeValue (Integer n) = IntegerPrefix :: FormatInt n ++ CRLF.
Proof. reflexivity. Qed.
Lemma SerializeValue_bulk s :
  SerializeValue (BulkString s) = BulkStringPrefix :: Itoa (length s) ++ CRLF ++ s ++ CRLF.
Proof. reflexivity. Qed.
Lemma SerializeValue_array a :
  SerializeValue (Array a) =
    ArrayPrefix :: Itoa (length a) ++ CRLF ++ concat (map SerializeValue a).
Proof. reflexivity. Qed.

Lemma ReadValue_simple f r : ReadValue_fuel (S f) (SimpleStringPrefix :: r) =
  '(line, r') ← readLine r; Ok (SimpleString line, r').
Proof. reflexivity. Qed.
Lemma ReadValue_error f r : ReadValue_fuel (S f) (ErrorPrefix :: r) =
  '(line, r') ← readLine r; Ok (Error line, r').
Proof. reflexivity. Qed.
Lemma ReadValue_integer f r : ReadValue_fuel (S f) (IntegerPrefix :: r) =
  '(line, r') ← readLine r;
  match ParseInt line with Ok n => Ok (Integer n, r') | Err _ => Err ErrInvalidSyntax end.
Proof. reflexivity. Qed.
Lemma ReadValue_bulk f r : ReadValue_fuel (S f) (BulkStringPrefix :: r) = readBulk r.
Proof. reflexivity. Qed.
Lemma ReadValue_array f r :
  ReadValue_fuel (S f) (ArrayPrefix :: r) = readArray (ReadValue_fuel f) r.
Proof. reflexivity. Qed.

Create Rewrite HintDb resp.
#[export] Hint Rewrite SerializeValue_simple SerializeValue_error SerializeValue_integer
  SerializeValue_bulk SerializeValue_array ReadValue_simple ReadValue_error
  ReadValue_integer ReadValue_bulk ReadValue_array : resp.

Lemma SerializeValue_nonempty v : wire_value v -> (1 <= length (SerializeValue v))%nat.
Proof. inversion 1; autorewrite with resp; cbn [length]; try lia; vm_compute; lia. Qed.

Lemma concat_serialize_length items v :
  v ∈ items -> (length (SerializeValue v) <= length (concat (map SerializeValue items)))%nat.
Proof.
  induction items as [|w items IH]; [set_solver|].
  intros [->|Hin]%elem_of_cons; cbn; rewrite length_app; [lia|].
  specialize (IH Hin). lia.
Qed.

Lemma readArray_serialized rv items rest :
  Z.of_nat (length items) <= MaxArrayLength ->
  Forall (fun v => forall r, rv (SerializeValue v ++ r) = Ok (v, r)) items ->
  readArray rv (Itoa (length items) ++ CRLF ++ concat (map SerializeValue items) ++ rest)
    = Ok (Array items, rest).
Proof.
  intros Hl HF. unfold readArray, Itoa.
  assert (is_int64 (Z.of_nat (length items))) as Hi
    by (eapply len_is_int64; [eassumption|done]).
  rewrite readLine_FormatInt by done. cbn [mbind res_bind].
  rewrite ParseInt_FormatInt by done.
  rewrite (proj2 (Z.eqb_neq _ _)), (proj2 (Z.ltb_ge _ (-1))),
    (proj2 (Z.ltb_ge MaxArrayLength _)) by lia.
  by rewrite Nat2Z.id, readItems_serialized.
Qed.

Lemma ReadValue_fuel_serialized v : wire_value v -> forall fuel rest,
  (length (SerializeValue v) <= fuel)%nat ->
  ReadValue_fuel fuel (SerializeValue v ++ rest) = Ok (v, rest).
Proof.
  induction v as [t s n b a bo nul IH] using Value_ind'. intros Hw fuel rest Hf.
  pose proof (SerializeValue_nonempty _ Hw) as Hne.
  destruct fuel as [|f]; [lia|].
  inversion Hw; subst; fold_value; autorewrite with resp in *; rewrite <- ?app_comm_cons, <- ?app_assoc;
    autorewrite with resp.
  - by rewrite readLine_crlf.
  - by rewrite readLine_crlf.
  - rewrite readLine_FormatInt by done. cbn [mbind res_bind].
    by rewrite ParseInt_FormatInt.
  - by rewrite readBulk_serialized.
  - done.
  - done.
  - apply readArray_serialized; [done|].
    rewrite list.Forall_forall in *. intros v Hv r. apply IH; auto.
    pose proof (concat_serialize_length a v Hv).
    cbn [length] in Hf. rewrite !length_app in Hf. lia.
Qed.

(** ** Progress of the reader *)

(** A reader step either fails, but not for want of fuel, or leaves a suffix
    of its input, [d] bytes shorter at least. *)
Definition reads {A} (d : nat) (inp : bytes) (r : res rerr (A * bytes)) : Prop :=
  match r with
  | Ok (_, rest) => rest `suffix_of` inp /\ (length rest + d <= length inp)%nat
  | Err e => e <> OutOfFuel
  end.

Lemma reads_bind {A B} d d' inp (r : res rerr (A * bytes)) (k : A * bytes -> res rerr (B * bytes)) :
  reads d inp r ->
  (forall a rest, r = Ok (a, rest) -> (length rest + d <= length inp)%nat ->
     reads d' rest (k (a, rest))) ->
  reads (d + d') inp (r ≫= k).
Proof.
  destruct r as [[a rest]|e]; cbn; [|done]. intros [Hs Hl] H.
  specialize (H a rest eq_refl Hl).
  destruct (k (a, rest)) as [[b rest']|e]; cbn in *; [|done].
  destruct H as [Hs' Hl']. split; [by etrans|lia].
Qed.

Lemma reads_weaken {A} d d' inp (r : res rerr (A * bytes)) :
  (d' <= d)%nat -> reads d inp r -> reads d' inp r.
Proof. destruct r as [[a rest]|e]; cbn; [|done]. intros ? []. split; [done|lia]. Qed.

Lemma reads_ret {A} inp (a : A) : reads 0 inp (Ok (a, inp)).
Proof. cbn. split; [done|lia]. Qed.

Lemma reads_cons {A} d b inp (r : res rerr (A * bytes)) :
  reads d inp r -> reads (S d) (b :: inp) r.
Proof.
  destruct r as [[a rest]|e]; cbn; [|done]. intros [? ?].
  split; [by apply suffix_cons_r|lia].
Qed.

Lemma ReadSlice_reads inp : reads 1 inp (ReadSlice inp).
Proof.
  unfold ReadSlice. destruct (IndexByte inp LF) as [i|] eqn:E; [|by case_test].
  apply IndexByte_Some in E as (_ & _ & Hl). case_test; [|done].
  cbn [reads]. split; [apply suffix_drop|]. rewrite length_drop. lia.
Qed.

Lemma ReadFull_reads n inp : reads 0 inp (ReadFull n inp).
Proof.
  unfold ReadFull. case_test; [by destruct inp|].
  cbn [reads]. split; [apply suffix_drop|]. rewrite length_drop. lia.
Qed.

(** Step through a reader built with the monad. *)
Ltac reads_bind := apply (reads_bind 1 0); [|intros ? ? _ _].
Ltac reads_done := first [by apply reads_ret | done].

Lemma readLine_reads inp : reads 1 inp (readLine inp).
Proof.
  unfold readLine. reads_bind; [apply ReadSlice_reads|].
  repeat case_decide; reads_done.
Qed.

Lemma readBulk_reads inp : reads 1 inp (readBulk inp).
Proof.
  unfold readBulk. reads_bind; [apply readLine_reads|].
  destruct (ParseInt _); [|done]. repeat case_test; try reads_done.
  apply (reads_bind 0 0); [apply ReadFull_reads|intros buf rest' _ _].
  case_decide; reads_done.
Qed.

Lemma readInline_reads b inp : reads 1 inp (readInline b inp).
Proof. unfold readInline. reads_bind; [apply readLine_reads|reads_done]. Qed.

Lemma readItems_reads rv n m inp :
  (forall inp, (length inp <= m)%nat -> reads 1 inp (rv inp)) ->
  (length inp <= m)%nat -> reads 0 inp (readItems rv n inp).
Proof.
  intros Hrv. revert inp; induction n as [|n IH]; intros inp Hm; [by apply reads_ret|].
  cbn [readItems].
  apply (reads_weaken 1); [lia|]. apply (reads_bind 1 0); [by apply Hrv|].
  intros v rest _ Hl. apply (reads_bind 0 0); [apply IH; lia|].
  intros vs rest' _ _. reads_done.
Qed.

Lemma readArray_reads rv m inp :
  (forall inp, (length inp <= m)%nat -> reads 1 inp (rv inp)) ->
  (length inp <= m)%nat -> reads 1 inp (readArray rv inp).
Proof.
  intros Hrv Hm. unfold readArray.
  apply (reads_bind 1 0); [apply readLine_reads|]. intros line rest _ Hl.
  destruct (ParseInt line); [|done]. repeat case_test; try reads_done.
  apply (reads_bind 0 0); [apply (readItems_reads _ _ m); [done|lia]|].
  intros items rest' _ _. reads_done.
Qed.

Lemma ReadValue_fuel_reads f inp :
  (length inp < f)%nat -> reads 1 inp (ReadValue_fuel f inp).
Proof.
  revert inp; induction f as [|f IH]; intros inp Hf; [lia|].
  destruct inp as [|b rest]; cbn [ReadValue_fuel length] in *; [done|].
  repeat case_test; apply reads_cons; try (apply (reads_weaken 1); [lia|]).
  all: first
    [ apply readBulk_reads
    | apply readInline_reads
    | apply (readArray_reads _ (length rest)); [|lia]; intros inp Hi; apply IH; lia
    | reads_bind; [apply readLine_reads|];
      first [reads_done | by destruct (ParseInt _); [apply reads_ret|]] ].
Qed.

Lemma ReadValue_reads inp : reads 1 inp (ReadValue inp).
Proof. apply ReadValue_fuel_reads. lia. Qed.

(** A command is the array of its arguments as bulk strings. *)
Lemma SerializeCommand_array args :
  SerializeCommand args = SerializeValue (Array (map BulkString args)).
Proof.
  rewrite SerializeValue_array. unfold SerializeCommand. rewrite length_map, map_map.
  reflexivity.
Qed.

Lemma wire_command args :
  Z.of_nat (length args) <= MaxArrayLength ->
  Forall (fun a => Z.of_nat (length a) <= MaxBulkLength) args ->
  wire_value (Array (map BulkString args)).
Proof.
  intros Hl HF. constructor; [by rewrite length_map|].
  apply Forall_map. eapply list.Forall_impl; [exact HF|]. intros a Ha. by constructor.
Qed.

Lemma map_cmd_arg_bulk args : map cmd_arg (map BulkString args) = args.
Proof. rewrite map_map. apply map_id. Qed.

Lemma ReadValue_serialized v rest :
  wire_value v -> ReadValue (SerializeValue v ++ rest) = Ok (v, rest).
Proof.
  intros Hw. apply ReadValue_fuel_serialized; [done|]. rewrite length_app. lia.
Qed.

Lemma ReadCommand_serialized args rest :
  Z.of_nat (length args) <= MaxArrayLength ->
  Forall (fun a => Z.of_nat (length a) <= MaxBulkLength) args ->
  ReadCommand (SerializeCommand args ++ rest) = Ok (args, rest).
Proof.
  intros. unfold ReadCommand. rewrite SerializeCommand_array, ReadValue_serialized
    by by apply wire_command.
  cbn [mbind res_bind vArray vType Array]. rewrite decide_False by (intros H1; by apply H1).
  by rewrite map_cmd_arg_bulk.
Qed.

(** ** Properties *)

(** [SerializeValue] and the reader: a value whose texts are single lines, within
    the limits of the reader, is read back unchanged, and the reader stops exactly at
    its end, whatever follows on the connection. *)
Theorem resp_roundtrip v rest (Hw : wire_value v) :
  ReadValue (SerializeValue v ++ rest) = Ok (v, rest).
Proof. by apply ReadValue_serialized. Qed.

Lemma resp_roundtrip_witness :
  ReadValue (SerializeValue (Array [Integer (-5); BulkString (str "k"); Null]) ++ str "+x")
    = Ok (Array [Integer (-5); BulkString (str "k"); Null], str "+x").
Proof.
  apply (resp_roundtrip (Array [Integer (-5); BulkString (str "k"); Null])).
  constructor; [vm_compute; congruence|].
  repeat constructor; vm_compute; congruence.
Defined.

(** Reading a value always terminates with a value or a protocol or
    end-of-input error (the fuel of the model never runs out), and a value
    leaves a strictly shorter suffix of the input: the reader makes progress
    and never invents or reorders bytes. *)
Theorem ReadValue_progress inp :
  match ReadValue inp with
  | Ok (_, rest) => exists consumed, consumed <> [] /\ inp = consumed ++ rest
  | Err e => e <> OutOfFuel
  end.
Proof.
  pose proof (ReadValue_reads inp) as H.
  destruct (ReadValue inp) as [[v rest]|e]; cbn in H; [|done].
  destruct H as [[k ->] Hl]. exists k. split; [|done].
  intros ->. cbn in Hl. lia.
Qed.

(** A command with more arguments than the reader accepts is refused at its header. *)
Lemma ReadCommand_oversized args rest : MaxArrayLength < Z.of_nat (length args) < 2 ^ 63 ->
  ReadCommand (SerializeCommand args ++ rest) = Err ErrMultibulkTooLarge.
Proof.
  intros Hl. unfold SerializeCommand, ReadCommand, ReadValue. cbn [app]. rewrite ReadValue_array. unfold readArray, Itoa.
  rewrite <- !app_assoc, readLine_FormatInt by (unfold is_int64, MaxArrayLength in *; lia). cbn [mbind res_bind].
  rewrite ParseInt_FormatInt by (unfold is_int64, MaxArrayLength in *; lia).
  rewrite (proj2 (Z.eqb_neq _ _)), (proj2 (Z.ltb_ge _ _)), (proj2 (Z.ltb_lt _ _)) by (unfold MaxArrayLength in *; lia). done.
Qed.

(** A command written by [SerializeCommand] (to the append-only file or to
    a replica) is read back by [ReadCommand] as the same list of arguments,
    byte for byte, and the next command starts where it ends. *)
Theorem SerializeCommand_roundtrip args rest
  (Hargs : Z.of_nat (length args) <= MaxArrayLength)
  (Hbulk : Forall (fun a => Z.of_nat (length a) <= MaxBulkLength) args) :
  ReadCommand (SerializeCommand args ++ rest) = Ok (args, rest).
Proof. by apply ReadCommand_serialized. Qed.

Lemma SerializeCommand_roundtrip_witness :
  ReadCommand (SerializeCommand [str "SET"; str "k"; []] ++ str "*1") =
    Ok ([str "SET"; str "k"; []], str "*1").
Proof.
  apply (SerializeCommand_roundtrip [str "SET"; str "k"; []] (str "*1"));
    [vm_compute; congruence|].
  repeat constructor; vm_compute; congruence.
Defined.
