(* ===== verification/RingBuffer.v ===== *)
(** * The connection buffer of the reactor: [internal/reactor/ring_buffer.go]

    A circular byte buffer with a read and a write cursor, refined against the
    queue of its unread bytes. *)

From S2P Require Import Prelude.

Open Scope nat_scope.

Record RingBuffer := MkRingBuffer {
  buf : bytes;
  size : nat;
  r : nat;
  w : nat
}.

Definition zeros (n : nat) : bytes := replicate n x00.

(** [copy(dst[at:], src)]: as many bytes as fit. *)
Definition copy_at (dst : bytes) (at_ : nat) (src : bytes) : bytes :=
  take at_ dst ++ take (length dst - at_) src
    ++ drop (at_ + length src) dst.

(** [b[lo:hi]] *)
Definition slice (b : bytes) (lo hi : nat) : bytes := take (hi - lo) (drop lo b).

Definition NewRingBuffer (capacity : Z) : RingBuffer :=
  let capacity := if (capacity <=? 0)%Z then 65536%Z else capacity in
  let n := Z.to_nat capacity in
  MkRingBuffer (zeros n) n 0 0.

Definition Len (b : RingBuffer) : nat :=
  if r b <=? w b then w b - r b else size b - r b + w b.

Definition Cap (b : RingBuffer) : nat := size b.

Definition Free (b : RingBuffer) : nat := size b - 1 - Len b.

Definition IsEmpty (b : RingBuffer) : bool := r b =? w b.

Definition IsFull (b : RingBuffer) : bool := Free b =? 0.

Definition Reset (b : RingBuffer) : RingBuffer := MkRingBuffer (buf b) (size b) 0 0.

Definition grow (b : RingBuffer) (minCap : nat) : RingBuffer :=
  let newCap := size b * 2 in
  let newCap := if newCap <? minCap then minCap * 2 else newCap in
  let newBuf := zeros newCap in
  let avail := Len b in
  let newBuf :=
    if 0 <? avail then
      if r b <? w b then copy_at newBuf 0 (slice (buf b) (r b) (w b))
      else
        let c1 := size b - r b in
        let newBuf := copy_at newBuf 0 (take c1 (drop (r b) (buf b))) in
        copy_at newBuf c1 (slice (buf b) 0 (w b))
    else newBuf in
  MkRingBuffer newBuf newCap 0 avail.

Definition Write (b : RingBuffer) (p : bytes) : RingBuffer * nat :=
  let n := length p in
  if n =? 0 then (b, 0)
  else
    let b := if Free b <? n then grow b (Len b + n + 1) else b in
    if r b <=? w b then
      let c1 := size b - w b in
      if n <=? c1 then
        let w' := w b + n in
        let w' := if w' =? size b then 0 else w' in
        (MkRingBuffer (copy_at (buf b) (w b) p) (size b) (r b) w', n)
      else
        let buf1 := copy_at (buf b) (w b) (take c1 p) in
        let c2 := n - c1 in
        (MkRingBuffer (copy_at buf1 0 (drop c1 p)) (size b) (r b) c2, n)
    else
      (MkRingBuffer (copy_at (buf b) (w b) p) (size b) (r b) (w b + n), n).

(** [Read] into a slice of length [plen]: the bytes copied, or [io.EOF]. *)
Definition Read (b : RingBuffer) (plen : nat) : RingBuffer * option bytes :=
  if IsEmpty b then (b, None)
  else
    let n := if Len b <? plen then Len b else plen in
    if r b <? w b then
      (MkRingBuffer (buf b) (size b) (r b + n) (w b),
       Some (slice (buf b) (r b) (r b + n)))
    else
      let c1 := size b - r b in
      if n <=? c1 then
        let r' := r b + n in
        let r' := if r' =? size b then 0 else r' in
        (MkRingBuffer (buf b) (size b) r' (w b),
         Some (slice (buf b) (r b) (r b + n)))
      else
        let c2 := n - c1 in
        (MkRingBuffer (buf b) (size b) c2 (w b),
         Some (drop (r b) (buf b) ++ take c2 (buf b))).

Definition Peek (b : RingBuffer) : bytes :=
  if IsEmpty b then []
  else if r b <? w b then slice (buf b) (r b) (w b)
  else slice (buf b) (r b) (size b).

Definition Bytes (b : RingBuffer) : bytes :=
  let avail := Len b in
  if avail =? 0 then []
  else if r b <? w b then slice (buf b) (r b) (w b)
  else
    let out := zeros avail in
    let c1 := size b - r b in
    let out := copy_at out 0 (take c1 (drop (r b) (buf b))) in
    copy_at out c1 (take (w b) (buf b)).

Definition AdvanceRead (b : RingBuffer) (n : Z) : RingBuffer :=
  if (n <=? 0)%Z then b
  else
    let avail := Len b in
    let n := if (Z.of_nat avail <? n)%Z then avail else Z.to_nat n in
    MkRingBuffer (buf b) (size b) ((r b + n) mod size b) (w b).

Definition AdvanceWrite (b : RingBuffer) (n : Z) : RingBuffer :=
  if (n <=? 0)%Z then b
  else MkRingBuffer (buf b) (size b) (r b) ((w b + Z.to_nat n) mod size b).

(** The bounds of the slice [WriteSlice] returns, for a caller that stores
    into it and then calls [AdvanceWrite]. *)
Definition WriteSlice (b : RingBuffer) : nat * nat :=
  if r b <=? w b then
    if r b =? 0 then (w b, size b - 1) else (w b, size b)
  else (w b, r b - 1).

(** ** Abstraction: the queue of unread bytes *)

Definition wf (b : RingBuffer) : Prop :=
  length (buf b) = size b /\ r b < size b /\ w b < size b.

Definition content (b : RingBuffer) : bytes :=
  if r b <=? w b then slice (buf b) (r b) (w b)
  else drop (r b) (buf b) ++ take (w b) (buf b).

(** The position in [buf] of the [i]-th unread byte. *)
Definition pos (b : RingBuffer) (i : nat) : nat :=
  if r b + i <? size b then r b + i else r b + i - size b.

(** ** Lemmas *)

(** Split every natural-number test in the goal and finish by arithmetic. *)
Ltac no_if t := lazymatch t with context [if _ then _ else _] => fail | _ => idtac end.
Ltac nat_case :=
  repeat match goal with
  | |- context [if ?a <=? ?b then _ else _] =>
      no_if a; no_if b; destruct (Nat.leb_spec a b); cbn [buf size r w]
  | |- context [if ?a <? ?b then _ else _] =>
      no_if a; no_if b; destruct (Nat.ltb_spec a b); cbn [buf size r w]
  | |- context [if ?a =? ?b then _ else _] =>
      no_if a; no_if b; destruct (Nat.eqb_spec a b); cbn [buf size r w]
  end.

Lemma list_ext {A} (l k : list A) :
  length l = length k -> (forall i, i < length l -> l !! i = k !! i) -> l = k.
Proof.
  intros Hl H. apply list_eq. intros i.
  destruct (decide (i < length l)); [auto|].
  rewrite !lookup_ge_None_2; [done|lia|lia].
Qed.

Lemma length_slice b lo hi : hi <= length b -> length (slice b lo hi) = hi - lo.
Proof. intros. unfold slice. rewrite length_take, length_drop. lia. Qed.

Lemma lookup_slice b lo hi i : i < hi - lo -> slice b lo hi !! i = b !! (lo + i).
Proof. intros. unfold slice. rewrite lookup_take_lt, lookup_drop by lia. done. Qed.

Lemma length_copy_at dst a src :
  a + length src <= length dst -> length (copy_at dst a src) = length dst.
Proof.
  intros. unfold copy_at. rewrite !length_app, !length_take, length_drop. lia.
Qed.

Lemma lookup_copy_at dst a src i :
  a + length src <= length dst ->
  copy_at dst a src !! i =
    if a <=? i then if i <? a + length src then src !! (i - a) else dst !! i
    else dst !! i.
Proof.
  intros H. unfold copy_at. rewrite (take_ge src) by lia.
  assert (length (take a dst) = a) as Ht by (rewrite length_take; lia).
  nat_case.
  - rewrite lookup_app_r, lookup_app_l by lia. f_equal. lia.
  - rewrite lookup_app_r, lookup_app_r, lookup_drop by lia. f_equal. lia.
  - rewrite lookup_app_l by lia. rewrite lookup_take_lt by lia. done.
Qed.

Lemma length_content b : wf b -> length (content b) = Len b.
Proof.
  intros (Hl & Hr & Hw). unfold content, Len. nat_case.
  - rewrite length_slice; lia.
  - rewrite length_app, length_drop, length_take. lia.
Qed.

Lemma lookup_content b i : wf b -> i < Len b -> content b !! i = buf b !! pos b i.
Proof.
  intros (Hl & Hr & Hw). unfold content, Len, pos. nat_case; intros Hi; try lia.
  - by rewrite lookup_slice.
  - rewrite lookup_app_l, lookup_drop by (rewrite length_drop; lia). done.
  - rewrite lookup_app_r by (rewrite length_drop; lia).
    rewrite length_drop, lookup_take_lt by lia. f_equal. lia.
Qed.

Lemma Len_lt_size b : wf b -> Len b < size b.
Proof. intros (? & ? & ?). unfold Len. nat_case; lia. Qed.

(** A buffer whose cells hold [q] in order has content [q]. *)
Lemma content_eq b q :
  wf b -> Len b = length q -> (forall i, i < length q -> buf b !! pos b i = q !! i) ->
  content b = q.
Proof.
  intros Hwf Hl H. apply list_ext; rewrite length_content by done; [done|].
  intros i Hi. rewrite lookup_content by done. apply H. lia.
Qed.

Lemma grow_wf b m : wf b -> Len b < m -> wf (grow b m).
Proof.
  intros Hwf Hm. pose proof (Len_lt_size b Hwf). destruct Hwf as (Hl & Hr & Hw).
  unfold grow, wf; cbn [buf size r w].
  set (n := if size b * 2 <? m then m * 2 else size b * 2).
  assert (size b * 2 <= n) as Hn by (unfold n; nat_case; lia).
  split; [|lia]. unfold Len in *.
  nat_case; try (unfold zeros; rewrite length_replicate; done);
    rewrite ?length_copy_at; unfold zeros; rewrite ?length_copy_at, ?length_replicate;
    rewrite ?length_slice, ?length_take, ?length_drop, ?length_replicate; try lia.
Qed.

Lemma grow_content b m : wf b -> Len b < m -> content (grow b m) = content b.
Proof.
  intros Hwf Hm. apply content_eq; [by apply grow_wf| |].
  { rewrite length_content by done. unfold Len at 1, grow; cbn [r w]. cbn. lia. }
  rewrite length_content by done. intros i Hi. rewrite lookup_content by done.
  pose proof (Len_lt_size b Hwf). pose proof (lookup_content b i Hwf Hi) as Hc.
  destruct Hwf as (Hl & Hr & Hw).
  unfold grow, pos at 1; cbn [buf size r w].
  set (n := if size b * 2 <? m then m * 2 else size b * 2).
  assert (size b * 2 <= n) as Hn by (unfold n; nat_case; lia).
  replace (if 0 + i <? n then 0 + i else 0 + i - n) with i by (nat_case; lia).
  unfold Len in *. unfold pos.
  destruct (Nat.ltb_spec 0 (if r b <=? w b then w b - r b else size b - r b + w b)); [|lia].
  assert (forall k, length (zeros k) = k) as Hz by (intros; apply length_replicate).
  destruct (Nat.ltb_spec (r b) (w b)).
  - rewrite lookup_copy_at by (rewrite length_slice, Hz; [|lia]; lia).
    rewrite length_slice by lia. revert Hi. nat_case; intros; try lia.
    rewrite lookup_slice by lia. f_equal. lia.
  - assert (length (take (size b - r b) (drop (r b) (buf b))) = size b - r b) as Ht
      by (rewrite length_take, length_drop; lia).
    assert (length (slice (buf b) 0 (w b)) = w b) as Hs by (rewrite length_slice; lia).
    rewrite lookup_copy_at by (rewrite length_copy_at, Hz, ?Ht, ?Hs; rewrite ?Hz, ?Ht; lia).
    rewrite lookup_copy_at by (rewrite Hz, Ht; lia).
    rewrite Ht, Hs. revert Hi. nat_case; intros; try lia.
    + rewrite lookup_slice by lia. f_equal. lia.
    + rewrite lookup_take_lt, lookup_drop by lia. f_equal. lia.
Qed.

(** [Write] after the buffer has been grown if needed. *)
Definition write_fits (b : RingBuffer) (p : bytes) : RingBuffer :=
  let n := length p in
  if r b <=? w b then
    let c1 := size b - w b in
    if n <=? c1 then
      let w' := w b + n in
      let w' := if w' =? size b then 0 else w' in
      MkRingBuffer (copy_at (buf b) (w b) p) (size b) (r b) w'
    else
      let buf1 := copy_at (buf b) (w b) (take c1 p) in
      let c2 := n - c1 in
      MkRingBuffer (copy_at buf1 0 (drop c1 p)) (size b) (r b) c2
  else MkRingBuffer (copy_at (buf b) (w b) p) (size b) (r b) (w b + n).

Lemma Write_unfold b p :
  Write b p =
    if length p =? 0 then (b, 0)
    else (write_fits (if Free b <? length p then grow b (Len b + length p + 1) else b) p,
          length p).
Proof. unfold Write, write_fits. nat_case; done. Qed.

Lemma write_fits_wf b p : wf b -> length p <= Free b -> wf (write_fits b p).
Proof.
  intros Hwf. pose proof (Len_lt_size b Hwf). destruct Hwf as (Hl & Hr & Hw).
  unfold Free, Len, write_fits, wf in *.
  nat_case; cbn [buf size r w]; intros Hf; nat_case; (split; [|lia]).
  - rewrite length_copy_at; lia.
  - rewrite length_copy_at; lia.
  - rewrite !length_copy_at; rewrite ?length_take, ?length_drop;
      rewrite ?length_copy_at; rewrite ?length_take; lia.
  - rewrite length_copy_at; lia.
Qed.

Lemma pos_write_fits b p i : pos (write_fits b p) i = pos b i.
Proof. unfold pos, write_fits. nat_case; done. Qed.

(** The cells of the buffer after a write, by unread position. *)
Lemma lookup_write_fits b p i :
  wf b -> length p <= Free b -> i < Len b + length p ->
  buf (write_fits b p) !! pos b i =
    if i <? Len b then buf b !! pos b i else p !! (i - Len b).
Proof.
  intros (Hl & Hr & Hw). unfold Free, write_fits.
  destruct (Nat.leb_spec (r b) (w b)) as [Hrw|Hrw].
  - assert (Len b = w b - r b) as -> by (unfold Len; nat_case; lia).
    intros Hf Hi.
    destruct (Nat.leb_spec (length p) (size b - w b)) as [Hc|Hc]; cbn [buf].
    + rewrite lookup_copy_at by lia. unfold pos.
      nat_case; try lia; try done; f_equal; lia.
    + assert (length (take (size b - w b) p) = size b - w b) as Ht
        by (rewrite length_take; lia).
      rewrite lookup_copy_at by (rewrite length_copy_at; rewrite ?length_drop, ?Ht; lia).
      rewrite length_drop, lookup_copy_at, Ht by (rewrite ?Ht; lia).
      unfold pos. nat_case; try lia; try done;
        rewrite ?lookup_drop, ?lookup_take_lt by lia; f_equal; lia.
  - assert (Len b = size b - r b + w b) as -> by (unfold Len; nat_case; lia).
    intros Hf Hi. cbn [buf]. rewrite lookup_copy_at by lia. unfold pos.
    nat_case; try lia; try done; f_equal; lia.
Qed.

Lemma write_fits_content b p :
  wf b -> length p <= Free b -> content (write_fits b p) = content b ++ p.
Proof.
  intros Hwf Hf. pose proof (write_fits_wf b p Hwf Hf) as Hwf'.
  pose proof (Len_lt_size b Hwf) as Hls.
  assert (Len (write_fits b p) = Len b + length p) as HL.
  { destruct Hwf as (Hl & Hr & Hw). revert Hf. unfold Free, Len, write_fits.
    nat_case; cbn [buf size r w]; intros; nat_case; lia. }
  apply content_eq; [done|by rewrite length_app, length_content|].
  intros i Hi. rewrite length_app, length_content in Hi by done.
  rewrite pos_write_fits, lookup_write_fits by done.
  destruct (Nat.ltb_spec i (Len b)).
  - by rewrite lookup_app_l, lookup_content by (rewrite ?length_content; done).
  - rewrite lookup_app_r by (rewrite length_content; [lia|done]).
    by rewrite length_content.
Qed.

Lemma Write_spec b p :
  wf b -> wf (Write b p).1 /\ content (Write b p).1 = content b ++ p /\ (Write b p).2 = length p.
Proof.
  intros Hwf. rewrite Write_unfold.
  destruct (Nat.eqb_spec (length p) 0) as [E|E]; cbn [fst snd].
  { apply nil_length_inv in E as ->. by rewrite app_nil_r. }
  assert (exists b', (if Free b <? length p then grow b (Len b + length p + 1) else b) = b'
    /\ wf b' /\ content b' = content b /\ length p <= Free b') as (b' & -> & Hwf' & Hc & Hf).
  { destruct (Nat.ltb_spec (Free b) (length p)); [|by eauto].
    eexists; split; [done|]. split; [apply grow_wf; [done|lia]|].
    split; [apply grow_content; [done|lia]|].
    unfold Free. rewrite <- (length_content (grow _ _)) by (apply grow_wf; [done|lia]).
    rewrite grow_content, length_content by (done || lia).
    pose proof (Len_lt_size b Hwf). unfold grow; cbn [size]. nat_case; lia. }
  rewrite <- Hc. split; [by apply write_fits_wf|]. split; [by apply write_fits_content|done].
Qed.

(** Moving the read cursor past [n] unread bytes. *)
Definition seek (b : RingBuffer) (n : nat) : RingBuffer :=
  MkRingBuffer (buf b) (size b) (pos b n) (w b).

Lemma seek_spec b n :
  wf b -> n <= Len b -> wf (seek b n) /\ content (seek b n) = drop n (content b).
Proof.
  intros Hwf Hn. pose proof (Len_lt_size b Hwf) as Hls.
  assert (wf (seek b n) /\ Len (seek b n) = Len b - n) as [Hwf' HL].
  { destruct Hwf as (Hl & Hr & Hw). revert Hn Hls. unfold wf, seek, Len, pos.
    nat_case; intros; lia. }
  split; [done|].
  apply content_eq; rewrite ?length_drop, ?length_content by done; [done|done|].
  intros i Hi. rewrite lookup_drop, lookup_content by (done || lia).
  cbn [buf seek]. f_equal. destruct Hwf as (Hl & Hr & Hw).
  unfold seek, pos; cbn [buf size r w]. nat_case; lia.
Qed.

Lemma pos_mod b n : wf b -> n <= Len b -> (r b + n) mod size b = pos b n.
Proof.
  intros Hwf Hn. pose proof (Len_lt_size b Hwf). destruct Hwf as (Hl & Hr & Hw).
  unfold pos. nat_case.
  - by apply Nat.mod_small.
  - rewrite <- (Nat.mod_small (r b + n - size b) (size b)) by lia.
    rewrite <- (Nat.Div0.mod_add (r b + n - size b) 1). f_equal. lia.
Qed.

Lemma take_content b n :
  wf b -> n <= Len b ->
  take n (content b) =
    if r b + n <=? size b then slice (buf b) (r b) (r b + n)
    else drop (r b) (buf b) ++ take (n - (size b - r b)) (buf b).
Proof.
  intros Hwf Hn. pose proof (Len_lt_size b Hwf) as Hls. destruct Hwf as (Hl & Hr & Hw).
  unfold content, slice. revert Hn. unfold Len. nat_case; intros; try lia.
  - rewrite take_take. f_equal. lia.
  - rewrite take_app_le by (rewrite length_drop; lia). f_equal. lia.
  - rewrite take_app_ge by (rewrite length_drop; lia). f_equal.
    rewrite take_take, length_drop. f_equal. lia.
Qed.

Lemma IsEmpty_content b : wf b -> IsEmpty b = true <-> content b = [].
Proof.
  intros Hwf. unfold IsEmpty. rewrite Nat.eqb_eq.
  rewrite <- length_zero_iff_nil, length_content by done.
  destruct Hwf as (Hl & Hr & Hw). unfold Len. nat_case; lia.
Qed.

Lemma Read_spec b plen :
  wf b -> content b <> [] ->
  wf (Read b plen).1 /\ content (Read b plen).1 = drop plen (content b) /\
  (Read b plen).2 = Some (take plen (content b)).
Proof.
  intros Hwf Hne. unfold Read.
  destruct (IsEmpty b) eqn:E; [by apply IsEmpty_content in E|]. clear E.
  set (n := if Len b <? plen then Len b else plen).
  assert (n <= Len b) as Hn by (unfold n; nat_case; lia).
  assert (take plen (content b) = take n (content b)) as ->.
  { unfold n. nat_case; [|done]. rewrite !take_ge by (rewrite length_content; [lia|done]). done. }
  assert (drop plen (content b) = drop n (content b)) as ->.
  { unfold n. nat_case; [|done]. rewrite !drop_ge by (rewrite length_content; [lia|done]). done. }
  pose proof (seek_spec b n Hwf Hn) as [Hwf' Hc].
  rewrite take_content by done. rewrite <- Hc.
  assert (forall r', r' = pos b n -> MkRingBuffer (buf b) (size b) r' (w b) = seek b n) as Hsk
    by by intros ? ->.
  destruct Hwf as (Hl & Hr & Hw). revert Hn. unfold Len.
  nat_case; intros; try lia; cbn [fst snd];
    (erewrite Hsk; [split; [done|split; [done|]]|unfold pos; nat_case; lia]); try done.
Qed.

Lemma copy_at_fits dst a src :
  a + length src <= length dst -> copy_at dst a src = take a dst ++ src ++ drop (a + length src) dst.
Proof. intros. unfold copy_at. by rewrite (take_ge src) by lia. Qed.

Lemma Bytes_content b : wf b -> Bytes b = content b.
Proof.
  intros Hwf. pose proof (Len_lt_size b Hwf) as Hls.
  pose proof (length_content b Hwf) as Hlen. unfold Bytes.
  destruct (Nat.eqb_spec (Len b) 0) as [E|E].
  { by rewrite E in Hlen; apply nil_length_inv in Hlen. }
  destruct Hwf as (Hl & Hr & Hw). unfold content, Len in *.
  nat_case; try lia; try done.
  assert (length (take (size b - r b) (drop (r b) (buf b))) = size b - r b) as Ht
    by (rewrite length_take, length_drop; lia).
  assert (length (take (w b) (buf b)) = w b) as Hw' by (rewrite length_take; lia).
  assert (length (zeros (size b - r b + w b)) = size b - r b + w b) as Hz
    by apply length_replicate.
  rewrite (copy_at_fits _ 0) by (rewrite Ht, Hz; lia).
  rewrite Ht, take_0. cbn [app Nat.add].
  rewrite copy_at_fits by (rewrite length_app, length_drop, Ht, Hw', Hz; lia).
  rewrite take_app_length' by done. rewrite (take_ge (drop _ _)) by (rewrite length_drop; lia).
  rewrite Hw', (drop_ge (drop (r b) (buf b) ++ _)), app_nil_r; [done|].
  rewrite length_app, !length_drop, Hz. lia.
Qed.

Lemma AdvanceRead_seek b n :
  wf b -> (0 < n)%Z -> AdvanceRead b n = seek b (min (Len b) (Z.to_nat n)).
Proof.
  intros Hwf Hn. unfold AdvanceRead. rewrite (proj2 (Z.leb_gt _ _)) by lia.
  replace (if (Z.of_nat (Len b) <? n)%Z then Len b else Z.to_nat n)
    with (min (Len b) (Z.to_nat n)) by (destruct (Z.ltb_spec (Z.of_nat (Len b)) n); lia).
  unfold seek. by rewrite pos_mod by (done || lia).
Qed.

Lemma Peek_prefix b : wf b -> Peek b `prefix_of` content b.
Proof.
  intros (Hl & Hr & Hw). unfold Peek, IsEmpty, content. nat_case; try lia;
    try (by apply prefix_nil); try done.
  unfold slice. rewrite take_ge by (rewrite length_drop; lia). by apply prefix_app_r.
Qed.

(** The drain loop of [handleRead]: the whole unread content in one slice. *)
Definition readable (b : RingBuffer) : bytes :=
  let data := Peek b in
  if length data <? Len b then Bytes b else data.

Lemma readable_content b : wf b -> readable b = content b.
Proof.
  intros Hwf. unfold readable. destruct (Nat.ltb_spec (length (Peek b)) (Len b)).
  - by apply Bytes_content.
  - destruct (Peek_prefix b Hwf) as [k E]. rewrite E.
    rewrite <- length_content, E, length_app in H by done.
    assert (k = []) as -> by (apply nil_length_inv; lia). by rewrite app_nil_r.
Qed.

(** A caller that stores [p] in the slice of [WriteSlice]. *)
Definition store (b : RingBuffer) (p : bytes) : RingBuffer :=
  MkRingBuffer (copy_at (buf b) (w b) p) (size b) (r b) (w b).

Lemma AdvanceWrite_store b p :
  wf b -> length p <= (WriteSlice b).2 - (WriteSlice b).1 ->
  AdvanceWrite (store b p) (Z.of_nat (length p)) = write_fits b p /\ length p <= Free b.
Proof.
  intros Hwf Hp. destruct Hwf as (Hl & Hr & Hw).
  assert (length p <= Free b) as Hf.
  { revert Hp. unfold WriteSlice, Free, Len. nat_case; cbn [fst snd]; lia. }
  split; [|done]. unfold AdvanceWrite, store, write_fits; cbn [buf size r w].
  rewrite Nat2Z.id. destruct (Z.leb_spec (Z.of_nat (length p)) 0).
  - assert (p = []) as -> by (apply nil_length_inv; lia). cbn [length].
    rewrite Nat.add_0_r. nat_case; try lia; f_equal; lia.
  - revert Hp. unfold WriteSlice. nat_case; cbn [fst snd]; intros; try lia;
      rewrite ?Nat.mod_small by lia; try done.
    rewrite e, Nat.Div0.mod_same. done.
Qed.

Lemma NewRingBuffer_spec c : wf (NewRingBuffer c) /\ content (NewRingBuffer c) = [].
Proof.
  unfold NewRingBuffer, wf, content, slice, zeros. destruct (Z.leb_spec c 0); cbn [buf size r w];
    (split; [|done]); rewrite length_replicate; lia.
Qed.

Lemma Reset_spec b : wf b -> wf (Reset b) /\ content (Reset b) = [].
Proof. unfold wf, content. cbn. intros (? & ? & ?). split; [lia|done]. Qed.

(** ** Properties *)

(** The ring buffer is a lossless byte queue.  [Write] appends all of its
    argument (growing the buffer when it does not fit), and [Bytes] returns
    exactly the unread bytes in order, wrapped or not. *)
Theorem Write_appends b p (Hwf : wf b) :
  wf (Write b p).1 /\ (Write b p).2 = length p /\
  Bytes (Write b p).1 = Bytes b ++ p.
Proof.
  destruct (Write_spec b p Hwf) as (Hwf' & Hc & Hn).
  by rewrite !Bytes_content, Hc.
Qed.

Definition wrapped : RingBuffer := MkRingBuffer (str "cdXXab") 6 4 2.

Lemma Write_appends_witness :
  wf (Write wrapped (str "efgh")).1 /\ (Write wrapped (str "efgh")).2 = 4 /\
  Bytes (Write wrapped (str "efgh")).1 = str "abcd" ++ str "efgh".
Proof. apply (Write_appends wrapped (str "efgh")). unfold wf; cbn; lia. Defined.

(** Bytes leave the ring buffer in the order they entered it.  [Read]
    returns the longest unread prefix that fits the caller's slice and removes
    exactly it; [AdvanceRead n] removes the first [n] unread bytes (all of
    them when there are fewer); [Peek] shows a prefix of them. *)
Theorem Read_fifo b plen n (Hwf : wf b) (Hne : Bytes b <> []) (Hn : (0 < n)%Z) :
  (Read b plen).2 = Some (take plen (Bytes b)) /\
  Bytes (Read b plen).1 = drop plen (Bytes b) /\
  Bytes (AdvanceRead b n) = drop (Z.to_nat n) (Bytes b) /\
  Peek b `prefix_of` Bytes b /\
  wf (Read b plen).1 /\ wf (AdvanceRead b n).
Proof.
  rewrite Bytes_content in * by done.
  destruct (Read_spec b plen Hwf Hne) as (Hr & Hc & Hs).
  rewrite AdvanceRead_seek by done.
  destruct (seek_spec b (min (Len b) (Z.to_nat n)) Hwf ltac:(lia)) as [Hk Hd].
  rewrite !Bytes_content by done. rewrite Hs, Hc, Hd.
  repeat split; try done; try (by apply Peek_prefix); try apply Hr; try apply Hk.
  rewrite <- length_content by done. destruct (Nat.min_spec (length (content b)) (Z.to_nat n))
    as [[? ->]|[? ->]]; [|done]. by rewrite !drop_ge by lia.
Qed.

Lemma Read_fifo_witness :
  (Read wrapped 3).2 = Some (str "abc") /\ Bytes (AdvanceRead wrapped 3) = str "d".
Proof.
  destruct (Read_fifo wrapped 3 3%Z) as (H1 & _ & H2 & _);
    [unfold wf; cbn; lia|discriminate|done|by split].
Defined.

(** A socket read of at most the length of [WriteSlice] stored in place and
    committed with [AdvanceWrite] appends exactly the bytes read, without
    overwriting unread ones. *)
Theorem AdvanceWrite_appends b p (Hwf : wf b)
  (Hp : length p <= (WriteSlice b).2 - (WriteSlice b).1) :
  let b' := AdvanceWrite (store b p) (Z.of_nat (length p)) in
  wf b' /\ Bytes b' = Bytes b ++ p.
Proof.
  destruct (AdvanceWrite_store b p Hwf Hp) as [-> Hf]. cbn.
  pose proof (write_fits_wf b p Hwf Hf) as Hwf'. split; [done|].
  rewrite !Bytes_content by done. by apply write_fits_content.
Qed.

Lemma AdvanceWrite_appends_witness :
  Bytes (AdvanceWrite (store wrapped (str "e")) 1) = str "abcd" ++ str "e".
Proof.
  apply (AdvanceWrite_appends wrapped (str "e")); [unfold wf; cbn; lia|cbn; lia].
Defined.
