(* ===== verification/ReactorParser.v ===== *)
(** * The incremental command parser of the reactor: [internal/reactor/parser.go]

    [ParseCommandInto] looks at the bytes received so far and returns a
    command and the number of bytes it takes, "incomplete", or a protocol
    error.  Lengths are accumulated in a Go [int], which wraps around, and an
    index out of range or an oversized allocation is a run-time panic, kept as
    the outcome [Panic]. *)

From S2P Require Import Prelude Resp.

(** The outcomes of [ParseCommandInto].  [Parsed None n] is a nil slice with
    [n] bytes consumed (an empty command parsed into a nil [dst]). *)
Inductive pres :=
| Incomplete
| ErrProtocol
| Parsed (args : option (list bytes)) (consumed : Z)
| Panic
| ParseFuel.

#[global] Instance pres_eq_dec : EqDecision pres.
Proof. solve_decision. Defined.

(** The "fast integer parse": digits accumulated in an [int]. *)
Fixpoint fast_int (ds : bytes) (acc : Z) : option Z :=
  match ds with
  | [] => Some acc
  | c :: ds' =>
      if is_digit c then fast_int ds' (int64 (acc * 10 + (b2z c - 48))) else None
  end.

(** [make([]string, 0, count)] panics when the array would exceed the address
    space of the runtime (2^48 bytes, 16 bytes per string header). *)
Definition maxStrings : Z := 2 ^ 44.

(** One bulk string of the array: the argument and the bytes it takes. *)
Inductive bulkres :=
| BulkStop (p : pres)
| BulkArg (arg : bytes) (consumed : Z).

Definition sub (b : bytes) (lo hi : Z) : bytes :=
  take (Z.to_nat (hi - lo)) (drop (Z.to_nat lo) b).

Definition parse_bulk (data : bytes) (consumed : Z) : bulkres :=
  let rest := drop (Z.to_nat consumed) data in
  if Z.of_nat (length data) <=? consumed then BulkStop Incomplete
  else if decide (rest !! O <> Some "$"%byte) then BulkStop ErrProtocol
  else match IndexByte rest LF with
  | None => BulkStop Incomplete
  | Some nextIdx =>
      if decide ((nextIdx < 2)%nat \/ rest !! (nextIdx - 1)%nat <> Some CR)
      then BulkStop ErrProtocol
      else
        let isNegative :=
          bool_decide ((1 < nextIdx - 1)%nat /\ rest !! 1%nat = Some "-"%byte) in
        let start := if isNegative then 2 else 1 in
        match fast_int (sub rest start (Z.of_nat nextIdx - 1)) 0 with
        | None => BulkStop ErrProtocol
        | Some n =>
            let bulkLen := if isNegative then int64 (- n) else n in
            let consumed := consumed + Z.of_nat nextIdx + 1 in
            if bulkLen =? -1 then BulkArg [] consumed
            else if bulkLen <? 0 then BulkStop ErrProtocol
            else if Z.of_nat (length data) - consumed <? int64 (bulkLen + 2)
            then BulkStop Incomplete
            else
              let at_ := int64 (consumed + bulkLen) in
              if (at_ <? 0) || (Z.of_nat (length data) <=? at_) then BulkStop Panic
              else if decide (data !! Z.to_nat at_ <> Some CR \/
                              data !! (Z.to_nat at_ + 1)%nat <> Some LF)
              then BulkStop ErrProtocol
              else BulkArg (sub data consumed at_) (consumed + bulkLen + 2)
        end
  end.

(** The loop [for i := 0; i < count; i++]; each round consumes at least three
    bytes, so the length of the input is enough fuel. *)
Fixpoint parse_bulks (fuel : nat) (data : bytes) (count i consumed : Z)
    (args : list bytes) : pres :=
  if count <=? i then Parsed (Some args) consumed
  else match fuel with
  | O => ParseFuel
  | S f =>
      match parse_bulk data consumed with
      | BulkStop p => p
      | BulkArg a c => parse_bulks f data count (i + 1) c (args ++ [a])
      end
  end.

(** [dst] is the capacity of the slice given to append to, [None] for nil. *)
Definition parseRESPArrayInto (data : bytes) (dst : option Z) : pres :=
  match IndexByte data LF with
  | None => Incomplete
  | Some idx =>
      if decide ((idx < 2)%nat \/ data !! (idx - 1)%nat <> Some CR) then ErrProtocol
      else match fast_int (sub data 1 (Z.of_nat idx - 1)) 0 with
      | None => ErrProtocol
      | Some count =>
          let consumed := Z.of_nat idx + 1 in
          if count =? 0 then Parsed ((fun _ => []) <$> dst) consumed
          else
            let cap := default 0 dst in
            if (maxStrings <? count) && (cap <? count) then Panic
            else if count <? 0 then Parsed ((fun _ => []) <$> dst) consumed
            else parse_bulks (length data) data count 0 consumed []
      end
  end.

Definition parseInlineCommandInto (data : bytes) (dst : option Z) : pres :=
  match IndexByte data LF with
  | None => Incomplete
  | Some idx =>
      let lineEnd :=
        if decide ((0 < idx)%nat /\ data !! (idx - 1)%nat = Some CR)
        then (idx - 1)%nat else idx in
      let fields := Fields (take lineEnd data) in
      let consumed := Z.of_nat idx + 1 in
      if decide (fields = []) then Parsed ((fun _ => []) <$> dst) consumed
      else Parsed (Some fields) consumed
  end.

Definition ParseCommandInto (data : bytes) (dst : option Z) : pres :=
  match data with
  | [] => Incomplete
  | b :: _ =>
      if decide (b = "*"%byte) then parseRESPArrayInto data dst
      else parseInlineCommandInto data dst
  end.

Definition ParseCommand (data : bytes) : pres := ParseCommandInto data None.

(** ** Lemmas *)

(** Go slices are far shorter than the range of [int]. *)
Definition go_len (data : bytes) : Prop := Z.of_nat (length data) < 2 ^ 62.

Lemma fast_int_range ds acc n : is_int64 acc -> fast_int ds acc = Some n -> is_int64 n.
Proof.
  revert acc; induction ds as [|c ds IH]; cbn; intros acc Ha; [by intros [= <-]|].
  case_match; [|done]. apply IH, int64_range.
Qed.

(** When the length test passes, either the length has wrapped around and the
    index is negative, or the payload is really there. *)
Lemma bulk_index len c bulkLen :
  2 <= c -> c <= len < 2 ^ 62 -> 0 <= bulkLen < 2 ^ 63 -> int64 (bulkLen + 2) <= len - c ->
  (2 ^ 63 <= bulkLen + 2 /\ int64 (c + bulkLen) < 0) \/
  (bulkLen + 2 <= len - c /\ int64 (c + bulkLen) = c + bulkLen).
Proof.
  intros Hc Hl Hb H. destruct (decide (bulkLen + 2 < 2 ^ 63)) as [Hs|Hs].
  - right. rewrite int64_id in H by (unfold is_int64; lia).
    split; [lia|]. apply int64_id. unfold is_int64. lia.
  - left. split; [lia|]. unfold int64.
    replace (c + bulkLen + 2 ^ 63) with (c + bulkLen - 2 ^ 63 + 1 * 2 ^ 64) by lia.
    rewrite Z.mod_add, Z.mod_small by lia. lia.
Qed.

(** The shape of a successful [parse_bulk]: the header found at [idx], the
    length [bulkLen] it announces. *)
Lemma parse_bulk_bounds data c a c' :
  go_len data -> 0 <= c -> parse_bulk data c = BulkArg a c' ->
  c + 3 <= c' <= Z.of_nat (length data).
Proof.
  unfold go_len, parse_bulk. intros Hg Hc.
  destruct (Z.leb_spec (Z.of_nat (length data)) c); [done|].
  case_decide; [done|].
  destruct (IndexByte _ LF) as [idx|] eqn:EI; [|done].
  apply IndexByte_Some in EI as (_ & _ & Hl). rewrite length_drop in Hl.
  case_decide as Hd; [done|]. apply Decidable.not_or in Hd as [Hi _].
  destruct (fast_int _ _) as [n|] eqn:EF; [|done].
  apply fast_int_range in EF; [|by unfold is_int64].
  set (neg := bool_decide _). set (bulkLen := if neg then int64 (- n) else n).
  assert (is_int64 bulkLen) as Hb by (unfold bulkLen; destruct neg; auto with vkv).
  destruct (Z.eqb_spec bulkLen (-1)); [intros [= _ <-]; lia|].
  destruct (Z.ltb_spec bulkLen 0); [done|].
  set (c1 := c + Z.of_nat idx + 1).
  destruct (Z.ltb_spec (Z.of_nat (length data) - c1) (int64 (bulkLen + 2))) as [|Hlen]; [done|].
  destruct ((_ <? 0) || _) eqn:EO; [done|]. case_decide; [done|]. intros [= _ <-].
  apply orb_false_iff in EO as [E1 _]. apply Z.ltb_ge in E1.
  unfold is_int64 in Hb.
  destruct (bulk_index (Z.of_nat (length data)) c1 bulkLen) as [[]|[? ?]]; lia.
Qed.

Lemma parse_bulks_fuel f data count i c args :
  go_len data -> 0 <= c <= Z.of_nat (length data) -> Z.of_nat (length data) - c < Z.of_nat f ->
  parse_bulks f data count i c args <> ParseFuel.
Proof.
  intros Hg. revert i c args; induction f as [|f IH]; intros i c args Hc Hf; [lia|].
  cbn [parse_bulks]. case_test; [done|].
  destruct (parse_bulk data c) as [p|a c'] eqn:E.
  - revert E. unfold parse_bulk. intros E ->. revert E.
    repeat (case_match || case_decide); congruence.
  - apply parse_bulk_bounds in E; [|done|lia]. apply IH; lia.
Qed.

Lemma parse_bulks_bounds f data count i c args a n :
  go_len data -> 0 <= c <= Z.of_nat (length data) ->
  parse_bulks f data count i c args = Parsed a n -> c <= n <= Z.of_nat (length data).
Proof.
  intros Hg. revert i c args; induction f as [|f IH]; intros i c args Hc; cbn [parse_bulks].
  - case_test; [intros [= _ <-]; lia|done].
  - case_test; [intros [= _ <-]; lia|].
    destruct (parse_bulk data c) as [p|a' c'] eqn:E.
    + intros ->. revert E. unfold parse_bulk.
      repeat (case_match || case_decide); congruence.
    + apply parse_bulk_bounds in E; [|done|lia]. intros Hp%IH; lia.
Qed.

(** *** More bytes never change a decided outcome *)

Lemma sub_app l k lo hi :
  0 <= lo -> hi <= Z.of_nat (length l) -> sub (l ++ k) lo hi = sub l lo hi.
Proof.
  intros Hlo Hhi. unfold sub. destruct (decide (lo <= hi)).
  - rewrite drop_app_le by lia. rewrite take_app_le by (rewrite length_drop; lia). done.
  - by replace (Z.to_nat (hi - lo)) with O by lia.
Qed.

Lemma lookup_app_lt {A} (l k : list A) i : (i < length l)%nat -> (l ++ k) !! i = l !! i.
Proof. apply lookup_app_l. Qed.

Lemma parse_bulk_app data more c :
  go_len data -> 0 <= c -> parse_bulk data c <> BulkStop Incomplete ->
  parse_bulk (data ++ more) c = parse_bulk data c.
Proof.
  unfold go_len, parse_bulk. intros Hg Hc.
  destruct (Z.leb_spec (Z.of_nat (length data)) c) as [|Hlt]; [done|].
  rewrite (proj2 (Z.leb_gt _ _)) by (rewrite length_app; lia).
  rewrite drop_app_le by lia. set (rest := drop (Z.to_nat c) data).
  assert (Z.of_nat (length rest) = Z.of_nat (length data) - c) as Hr
    by (unfold rest; rewrite length_drop; lia).
  rewrite lookup_app_lt by lia. case_decide; [done|].
  destruct (IndexByte rest LF) as [idx|] eqn:EI; [|done].
  rewrite (IndexByte_app_l _ more _ _ EI).
  apply IndexByte_Some in EI as (_ & _ & Hl).
  rewrite lookup_app_lt by lia. case_decide as Hd; [done|].
  apply Decidable.not_or in Hd as [Hi _]. rewrite lookup_app_lt by lia.
  rewrite sub_app by (try lia; case_match; lia).
  destruct (fast_int _ _) as [n|] eqn:EF; [|done].
  apply fast_int_range in EF; [|by unfold is_int64].
  set (neg := bool_decide _). set (bulkLen := if neg then int64 (- n) else n).
  assert (is_int64 bulkLen) as Hb by (unfold bulkLen; destruct neg; auto with vkv).
  destruct (Z.eqb_spec bulkLen (-1)); [done|]. destruct (Z.ltb_spec bulkLen 0); [done|].
  set (c1 := c + Z.of_nat idx + 1).
  destruct (Z.ltb_spec (Z.of_nat (length data) - c1) (int64 (bulkLen + 2))) as [|Hlen]; [done|].
  rewrite (proj2 (Z.ltb_ge (Z.of_nat (length (data ++ more)) - c1) _))
    by (rewrite length_app; lia). intros _.
  unfold is_int64 in Hb.
  destruct (bulk_index (Z.of_nat (length data)) c1 bulkLen) as [[? Hneg]|[? ->]]; try lia.
  - by rewrite (proj2 (Z.ltb_lt (int64 _) 0)) by lia.
  - rewrite !(proj2 (Z.leb_gt _ (c1 + bulkLen))) by (rewrite ?length_app; lia).
    rewrite !lookup_app_lt by lia. rewrite sub_app by lia. done.
Qed.

Lemma parse_bulks_app f f' data more count i c args :
  go_len data -> 0 <= c -> (f <= f')%nat ->
  parse_bulks f data count i c args <> Incomplete ->
  parse_bulks f data count i c args <> ParseFuel ->
  parse_bulks f' (data ++ more) count i c args = parse_bulks f data count i c args.
Proof.
  intros Hg. revert f' i c args; induction f as [|f IH]; intros f' i c args Hc Hf Hi HF;
    destruct f' as [|f']; try lia; cbn [parse_bulks] in *; destruct (count <=? i); try done.
  assert (parse_bulk data c <> BulkStop Incomplete) as Hp by (intros E; by rewrite E in Hi).
  rewrite parse_bulk_app by done.
  destruct (parse_bulk data c) as [|a c'] eqn:E; [done|].
  apply parse_bulk_bounds in E; [|done|done]. apply IH; (done || lia).
Qed.

Lemma parseRESPArrayInto_fuel data dst :
  go_len data -> parseRESPArrayInto data dst <> ParseFuel.
Proof.
  intros Hg. unfold parseRESPArrayInto.
  destruct (IndexByte data LF) as [idx|] eqn:EI; [|done].
  apply IndexByte_Some in EI as (_ & _ & Hl). case_decide; [done|].
  destruct (fast_int _ _); [|done]. repeat (case_match; try done).
  apply parse_bulks_fuel; [done|lia|lia].
Qed.

Lemma ParseCommandInto_fuel data dst : go_len data -> ParseCommandInto data dst <> ParseFuel.
Proof.
  intros Hg. unfold ParseCommandInto. destruct data; [done|].
  case_decide; [by apply parseRESPArrayInto_fuel|].
  unfold parseInlineCommandInto. repeat (case_match || case_decide); done.
Qed.

Lemma ParseCommandInto_app data more dst :
  go_len data -> ParseCommandInto data dst <> Incomplete ->
  ParseCommandInto (data ++ more) dst = ParseCommandInto data dst.
Proof.
  intros Hg. pose proof (parseRESPArrayInto_fuel data dst Hg) as HF. revert HF.
  unfold ParseCommandInto. destruct data as [|b data']; [done|]. cbn [app].
  rewrite app_comm_cons. set (data := b :: data') in *. case_decide as Hb; intros HF.
  - revert HF. unfold parseRESPArrayInto. destruct (IndexByte data LF) as [idx|] eqn:EI; [|done].
    rewrite (IndexByte_app_l _ more _ _ EI). apply IndexByte_Some in EI as (_ & _ & Hl).
    rewrite lookup_app_lt by lia. case_decide; [done|]. rewrite sub_app by lia.
    destruct (fast_int _ _) as [count|]; [|done]. repeat (case_match; try done).
    intros. apply parse_bulks_app; try done; rewrite ?length_app; lia.
  - unfold parseInlineCommandInto. destruct (IndexByte data LF) as [idx|] eqn:EI; [|done].
    rewrite (IndexByte_app_l _ more _ _ EI). apply IndexByte_Some in EI as (_ & _ & Hl).
    rewrite lookup_app_lt by lia. intros _. rewrite take_app_le; [done|].
    case_decide; lia.
Qed.

Lemma ParseCommandInto_bounds data dst a n :
  go_len data -> ParseCommandInto data dst = Parsed a n -> 0 < n <= Z.of_nat (length data).
Proof.
  intros Hg. unfold ParseCommandInto. destruct data as [|b data']; [done|].
  set (data := b :: data') in *. case_decide.
  - unfold parseRESPArrayInto. destruct (IndexByte data LF) as [idx|] eqn:EI; [|done].
    apply IndexByte_Some in EI as (_ & _ & Hl). case_decide; [done|].
    destruct (fast_int _ _) as [count|]; [|done].
    repeat (case_match; try done); try (intros [= _ <-]; lia).
    intros HP%parse_bulks_bounds; [lia|done|lia].
  - unfold parseInlineCommandInto. destruct (IndexByte data LF) as [idx|] eqn:EI; [|done].
    apply IndexByte_Some in EI as (_ & _ & Hl). case_decide; intros [= _ <-]; lia.
Qed.

(** *** Serialised commands *)

Lemma fast_int_decval ds acc :
  0 <= acc -> Forall (fun c => is_digit c = true) ds -> decval acc ds < 2 ^ 63 ->
  fast_int ds acc = Some (decval acc ds).
Proof.
  intros Ha HF; revert acc Ha. induction HF as [|c ds Hc HF IH]; cbn; intros acc Ha Hm; [done|].
  pose proof (proj1 (is_digit_spec c) Hc) as Hr. rewrite Hc.
  assert (acc * 10 + (b2z c - 48) < 2 ^ 63) as Hlt.
  { eapply Z.le_lt_trans; [apply (decval_nonneg ds)|exact Hm]; [lia|done]. }
  rewrite int64_id by (unfold is_int64; lia). apply IH; [lia|done].
Qed.

Lemma fast_int_Itoa n : Z.of_nat n < 2 ^ 63 -> fast_int (Itoa n) 0 = Some (Z.of_nat n).
Proof.
  intros Hn. unfold Itoa. rewrite FormatInt_nonneg by lia.
  rewrite fast_int_decval; rewrite ?FormatUint_decval by lia; try done.
  apply FormatUint_digits. lia.
Qed.

Lemma Itoa_digits n : Forall (fun c => is_digit c = true) (Itoa n).
Proof. unfold Itoa. rewrite FormatInt_nonneg by lia. apply FormatUint_digits. lia. Qed.

Lemma Itoa_nonempty n : (1 <= length (Itoa n))%nat.
Proof.
  unfold Itoa. rewrite FormatInt_nonneg by lia.
  destruct (FormatUint (Z.of_nat n)) eqn:E; [by apply FormatUint_nonempty in E|cbn; lia].
Qed.

(** A header line [<prefix><length>\r\n]: where its end is found and the
    digits in between. *)
Lemma header_line p n tail :
  p <> LF ->
  IndexByte (p :: Itoa n ++ CRLF ++ tail) LF = Some (length (Itoa n) + 2)%nat /\
  (p :: Itoa n ++ CRLF ++ tail) !! (length (Itoa n) + 2 - 1)%nat = Some CR /\
  sub (p :: Itoa n ++ CRLF ++ tail) 1 (Z.of_nat (length (Itoa n) + 2) - 1) = Itoa n.
Proof.
  intros Hp.
  assert (p :: Itoa n ++ CRLF ++ tail = (p :: Itoa n ++ [CR]) ++ LF :: tail) as E
    by by rewrite <- app_comm_cons, <- app_assoc.
  split; [|split].
  - rewrite E, IndexByte_app; [cbn; rewrite length_app; cbn; f_equal; lia|].
    apply not_elem_of_cons. split; [done|]. apply not_elem_of_app.
    split; [apply FormatInt_no_LF|set_solver].
  - replace (length (Itoa n) + 2 - 1)%nat with (S (length (Itoa n))) by lia.
    change (p :: Itoa n ++ CRLF ++ tail) with ((p :: Itoa n) ++ CR :: LF :: tail).
    by apply list_lookup_middle.
  - unfold sub. cbn [drop Z.to_nat Pos.to_nat]. change (Z.to_nat 1) with 1%nat. cbn [drop].
    by apply take_app_length'; lia.
Qed.

Lemma parse_bulk_serialized pre a post :
  go_len (pre ++ SerializeArg a ++ post) ->
  parse_bulk (pre ++ SerializeArg a ++ post) (Z.of_nat (length pre)) =
    BulkArg a (Z.of_nat (length (pre ++ SerializeArg a))).
Proof.
  unfold go_len. intros Hg. rewrite !length_app in Hg. rewrite length_app.
  assert (length (SerializeArg a) = length (Itoa (length a)) + length a + 5)%nat as Hs.
  { unfold SerializeArg, CRLF. cbn [length]. rewrite !length_app; cbn [length]. lia. }
  pose proof (header_line "$"%byte (length a) (a ++ CRLF ++ post) ltac:(done)) as (H1 & H2 & H3).
  assert (SerializeArg a ++ post = "$"%byte :: Itoa (length a) ++ CRLF ++ a ++ CRLF ++ post) as E
    by (unfold SerializeArg; by rewrite <- app_comm_cons, <- !app_assoc).
  unfold parse_bulk. rewrite Nat2Z.id, drop_app_length.
  rewrite (proj2 (Z.leb_gt _ _)) by (rewrite !length_app; lia).
  rewrite E. set (rest := "$"%byte :: _) in *.
  rewrite decide_False by (intros H; by apply H). rewrite H1.
  rewrite decide_False by (rewrite H2; intros [?|H]; [lia|by apply H]).
  rewrite bool_decide_eq_false_2; [rewrite H3|].
  2:{ intros [_ Hm]. pose proof (Itoa_digits (length a)) as HD.
      pose proof (Itoa_nonempty (length a)). 
      change (rest !! 1%nat) with ((Itoa (length a) ++ CRLF ++ a ++ CRLF ++ post) !! O) in Hm.
      rewrite lookup_app_l in Hm by lia. eapply Forall_lookup_1 in HD; [|exact Hm]. done. }
  rewrite fast_int_Itoa by lia.
  rewrite (proj2 (Z.eqb_neq _ _)), (proj2 (Z.ltb_ge _ 0)) by lia.
  set (c1 := Z.of_nat (length pre) + Z.of_nat (length (Itoa (length a)) + 2) + 1).
  assert (length (pre ++ rest) = length pre + length (SerializeArg a) + length post)%nat as Hlen
    by (rewrite <- E, !length_app; lia).
  rewrite int64_id by (unfold is_int64; lia).
  rewrite (proj2 (Z.ltb_ge _ _)) by (rewrite Hlen; lia).
  rewrite int64_id by (unfold is_int64; lia).
  rewrite (proj2 (Z.ltb_ge _ 0)), (proj2 (Z.leb_gt _ _)) by (rewrite ?Hlen; lia). cbn [orb].
  assert (pre ++ rest = (pre ++ "$"%byte :: Itoa (length a) ++ CRLF) ++ a ++ CRLF ++ post) as E2.
  { unfold rest. by rewrite <- app_assoc, <- app_comm_cons, <- app_assoc. }
  assert (length (pre ++ "$"%byte :: Itoa (length a) ++ CRLF) = Z.to_nat c1) as E3.
  { rewrite length_app. cbn [length]. rewrite length_app. cbn [length CRLF]. lia. }
  rewrite E2.
  replace (Z.to_nat (c1 + Z.of_nat (length a))) with (Z.to_nat c1 + length a)%nat by lia.
  rewrite decide_False.
  - f_equal; [|lia]. unfold sub. rewrite drop_app_length' by done.
    apply take_app_length'. lia.
  - rewrite <- E3. intros [H|H]; apply H;
      rewrite lookup_app_r, lookup_app_r by lia.
    + by replace (_ - _ - _)%nat with O by lia.
    + by replace (_ - _ - _)%nat with 1%nat by lia.
Qed.

Lemma parse_bulks_serialized args : forall f pre i acc post,
  go_len (pre ++ concat (map SerializeArg args) ++ post) -> (length args <= f)%nat ->
  parse_bulks f (pre ++ concat (map SerializeArg args) ++ post)
    (i + Z.of_nat (length args)) i (Z.of_nat (length pre)) acc =
    Parsed (Some (acc ++ args)) (Z.of_nat (length (pre ++ concat (map SerializeArg args)))).
Proof.
  induction args as [|a args IH]; intros f pre i acc post Hg Hf.
  - destruct f; cbn [parse_bulks length]; rewrite Z.add_0_r, Z.leb_refl;
      cbn [map concat]; rewrite !app_nil_r; done.
  - destruct f as [|f]; cbn [length] in Hf; [lia|]. cbn [parse_bulks].
    rewrite (proj2 (Z.leb_gt _ _)) by (cbn [length]; lia).
    cbn [map concat] in *. rewrite <- app_assoc in *.
    rewrite parse_bulk_serialized by done.
    specialize (IH f (pre ++ SerializeArg a) (i + 1) (acc ++ [a]) post).
    rewrite <- !app_assoc in IH. cbn [app] in IH.
    replace (i + Z.of_nat (length (a :: args))) with (i + 1 + Z.of_nat (length args))
      by (cbn [length]; lia).
    apply IH; [done|lia].
Qed.

Lemma concat_args_length args :
  (length args <= length (concat (map SerializeArg args)))%nat.
Proof.
  induction args as [|a args IH]; cbn [map concat length]; [lia|].
  rewrite length_app. unfold SerializeArg at 1. cbn [length]. lia.
Qed.

Lemma ParseCommandInto_serialized args post dst :
  args <> [] -> go_len (SerializeCommand args ++ post) -> Z.of_nat (length args) <= maxStrings ->
  ParseCommandInto (SerializeCommand args ++ post) dst =
    Parsed (Some args) (Z.of_nat (length (SerializeCommand args))).
Proof.
  intros Hne Hg Hmax.
  assert (0 < Z.of_nat (length args)) as Hpos by (destruct args; [done|cbn [length]; lia]).
  pose proof (header_line "*"%byte (length args) (concat (map SerializeArg args) ++ post)
    ltac:(done)) as (H1 & H2 & H3).
  assert (SerializeCommand args ++ post =
    "*"%byte :: Itoa (length args) ++ CRLF ++ concat (map SerializeArg args) ++ post) as E
    by (unfold SerializeCommand; by rewrite <- app_comm_cons, <- !app_assoc).
  unfold go_len in Hg. pose proof (concat_args_length args) as Hc.
  rewrite E in *. set (data := "*"%byte :: _) in *.
  unfold ParseCommandInto, data at 1. rewrite decide_True by done. fold data.
  unfold parseRESPArrayInto. rewrite H1.
  rewrite decide_False by (rewrite H2; intros [?|H]; [lia|by apply H]).
  rewrite H3, fast_int_Itoa by (unfold maxStrings in *; lia).
  rewrite (proj2 (Z.eqb_neq _ _)) by lia.
  rewrite (proj2 (Z.ltb_ge maxStrings _)), andb_false_l, (proj2 (Z.ltb_ge _ 0)) by lia.
  assert (data = ("*"%byte :: Itoa (length args) ++ CRLF) ++ concat (map SerializeArg args) ++ post)
    as E2 by (unfold data; by rewrite <- app_comm_cons, <- !app_assoc).
  set (hdr := "*"%byte :: Itoa (length args) ++ CRLF) in *.
  assert (Z.of_nat (length (Itoa (length args)) + 2) + 1 = Z.of_nat (length hdr)) as ->
    by (unfold hdr; cbn [length]; rewrite length_app; cbn [length CRLF]; lia).
  rewrite E2 at 2. rewrite <- (Z.add_0_l (Z.of_nat (length args))).
  rewrite parse_bulks_serialized; [|by unfold go_len; rewrite <- E2|].
  { unfold hdr, SerializeCommand. by rewrite <- app_comm_cons, <- app_assoc. }
  rewrite E2, !length_app. lia.
Qed.

Lemma go_len_app_l a b : go_len (a ++ b) -> go_len a.
Proof. unfold go_len. rewrite length_app. lia. Qed.

(** A strict prefix of a serialised command cannot be decided: the outcome
    would also be that of the whole command, which takes more bytes. *)
Lemma ParseCommandInto_prefix args dst p q :
  args <> [] -> go_len (SerializeCommand args) -> Z.of_nat (length args) <= maxStrings ->
  SerializeCommand args = p ++ q -> q <> [] ->
  ParseCommandInto p dst = Incomplete.
Proof.
  intros Hne Hg Hmax E Hq.
  destruct (decide (ParseCommandInto p dst = Incomplete)) as [|Hd]; [done|exfalso].
  pose proof (ParseCommandInto_serialized args [] dst Hne) as HS.
  rewrite app_nil_r in HS. specialize (HS Hg Hmax).
  assert (go_len p) as Hp by (rewrite E in Hg; by eapply go_len_app_l).
  pose proof (ParseCommandInto_app p q dst Hp Hd) as HA. rewrite <- E, HS in HA.
  symmetry in HA. apply ParseCommandInto_bounds in HA; [|done].
  rewrite E, length_app in HA. destruct q; [done|cbn [length] in HA; lia].
Qed.

(** ** Properties *)

(** The incremental parser recognises a serialised command exactly when it
    is complete.  With the whole command received (and whatever follows it) it
    returns its arguments and its length; on every strict prefix, wherever the
    network cut it, it asks for more data. *)
Theorem ParseCommand_complete args post dst
  (Hne : args <> []) (Hg : go_len (SerializeCommand args ++ post))
  (Hmax : Z.of_nat (length args) <= maxStrings) :
  ParseCommandInto (SerializeCommand args ++ post) dst =
    Parsed (Some args) (Z.of_nat (length (SerializeCommand args))) /\
  (forall p q, SerializeCommand args = p ++ q -> q <> [] ->
     ParseCommandInto p dst = Incomplete).
Proof.
  split; [by apply ParseCommandInto_serialized|].
  intros p q. apply ParseCommandInto_prefix; [done|by eapply go_len_app_l|done].
Qed.

Lemma ParseCommand_complete_witness :
  ParseCommandInto (SerializeCommand [str "GET"; str "k"] ++ str "*2") (Some 16) =
    Parsed (Some [str "GET"; str "k"]) 20 /\
  ParseCommandInto (take 19 (SerializeCommand [str "GET"; str "k"])) (Some 16) = Incomplete.
Proof.
  destruct (ParseCommand_complete [str "GET"; str "k"] (str "*2") (Some 16)) as [H1 H2];
    [discriminate|by vm_compute|by vm_compute|].
  split; [exact H1|]. apply (H2 _ (drop 19 (SerializeCommand [str "GET"; str "k"]))).
  - by vm_compute.
  - by vm_compute.
Defined.

(** Receiving more bytes never changes a decided outcome (a command, an
    error or a crash), a decided command takes between one and all of the
    bytes received, and the loops of the parser always end. *)
Theorem ParseCommand_stable data more dst (Hg : go_len data) :
  (ParseCommandInto data dst <> Incomplete ->
     ParseCommandInto (data ++ more) dst = ParseCommandInto data dst) /\
  (forall a n, ParseCommandInto data dst = Parsed a n -> 0 < n <= Z.of_nat (length data)) /\
  ParseCommandInto data dst <> ParseFuel.
Proof.
  split; [by apply ParseCommandInto_app|]. split; [|by apply ParseCommandInto_fuel].
  intros a n. by apply ParseCommandInto_bounds.
Qed.

Lemma ParseCommand_stable_witness :
  ParseCommandInto (str "PING" ++ CRLF ++ str "GET") None = Parsed (Some [str "PING"]) 6.
Proof.
  rewrite app_assoc.
  rewrite (proj1 (ParseCommand_stable (str "PING" ++ CRLF) (str "GET") None ltac:(by vm_compute)));
    by vm_compute.
Defined.

(** A bulk length whose sum with the terminator overflows [int] passes the
    completeness test and makes the parser index the input out of range: 27
    bytes from any client crash the reactor, whatever follows. *)
Theorem ParseCommand_bulk_overflow_panics more dst :
  ParseCommandInto
    (str "*1" ++ CRLF ++ str "$9223372036854775807" ++ CRLF ++ more) dst = Panic.
Proof.
  rewrite !app_assoc.
  assert (ParseCommandInto (((str "*1" ++ CRLF) ++ str "$9223372036854775807") ++ CRLF) dst
    = Panic) as E.
  { by vm_compute. }
  rewrite ParseCommandInto_app; [done|by vm_compute|by rewrite E].
Qed.
