(* ===== verification/Reactor.v ===== *)
(** * The reactor's connection loop and reply encoder: [internal/reactor]

    [AppendBulkString] and [AppendValue] ([serializer.go]), the command-name
    codes of [cmd_fast.go], and the read path [handleRead] of
    [reactor_linux.go] (identical in [reactor_darwin.go]): how a connection
    turns the chunks returned by [read(2)] into executed commands. *)

From S2P Require Import Prelude Resp RingBuffer ReactorParser.

Open Scope Z_scope.

(** ** Reply encoding *)

Definition append_len (dst : bytes) (n : nat) : bytes :=
  let n := Z.of_nat n in
  if n <? 10 then dst ++ [z2b (48 + n)] ++ CRLF
  else if n <? 100 then dst ++ [z2b (48 + n / 10); z2b (48 + n mod 10)] ++ CRLF
  else (dst ++ FormatInt n) ++ CRLF.

Definition AppendBulkString (dst s : bytes) : bytes :=
  (append_len (dst ++ ["$"%byte]) (length s) ++ s) ++ CRLF.

Fixpoint AppendValue (v : Value) (dst : bytes) : bytes :=
  match v with
  | MkValue t s n b a bo nul =>
      if nul then
        if decide (t = ArrayPrefix) then dst ++ str "*-1" ++ CRLF else dst ++ respNull
      else if decide (t = SimpleStringPrefix) then
        if decide (s = str "OK") then dst ++ respOK
        else if decide (s = str "PONG") then dst ++ respPONG
        else (dst ++ ["+"%byte] ++ s) ++ CRLF
      else if decide (t = ErrorPrefix) then (dst ++ ["-"%byte] ++ s) ++ CRLF
      else if decide (t = IntegerPrefix) then
        if (0 <=? n) && (n <? 10) then dst ++ [":"%byte; z2b (48 + n)] ++ CRLF
        else (dst ++ [":"%byte] ++ FormatInt n) ++ CRLF
      else if decide (t = BulkStringPrefix) then
        if decide (0 < length (bulk_str b))%nat
        then (append_len (dst ++ ["$"%byte]) (length (bulk_str b)) ++ bulk_str b) ++ CRLF
        else AppendBulkString dst s
      else if decide (t = ArrayPrefix) then
        fold_left (fun d x => AppendValue x d) a
          ((dst ++ ["*"%byte] ++ FormatInt (Z.of_nat (length a))) ++ CRLF)
      else if decide (s <> []) then (dst ++ ["+"%byte] ++ s) ++ CRLF
      else dst ++ respOK
  end.

(** ** Command codes of [cmd_fast.go] *)

Definition lower (b : byte) : Z := Z.lor (b2z b) 32.

Definition AsCmd3 (s : bytes) : Z :=
  match s with
  | [a; b; c] => Z.lor (Z.lor (lower a) (Z.shiftl (lower b) 8)) (Z.shiftl (lower c) 16)
  | _ => 0
  end.

Definition AsCmd4 (s : bytes) : Z :=
  match s with
  | [a; b; c; d] =>
      Z.lor (Z.lor (Z.lor (lower a) (Z.shiftl (lower b) 8)) (Z.shiftl (lower c) 16))
            (Z.shiftl (lower d) 24)
  | _ => 0
  end.

Definition cmd_code (s : bytes) : Z :=
  foldr (fun b acc => Z.lor (b2z b) (Z.shiftl acc 8)) 0 s.

Definition CmdGet : Z := cmd_code (str "get").
Definition CmdSet : Z := cmd_code (str "set").
Definition CmdDel : Z := cmd_code (str "del").
Definition CmdPing : Z := cmd_code (str "ping").
Definition CmdQuit : Z := cmd_code (str "quit").
Definition CmdIncr : Z := cmd_code (str "incr").
Definition CmdDecr : Z := cmd_code (str "decr").

(** ** The read path *)

Inductive conn_status := Open | Closed | Crashed.

(** What a call of [read(2)] returns: bytes, [EAGAIN], or the end of the stream
    ([n == 0]) or another error. *)
Inductive read_result := Data (buf : bytes) | WouldBlock | Hangup.

Section read_path.
Context {St : Type} (exec : St -> list bytes -> St).

(** A connection: its buffer, the state the commands act on (the engine and
    the pending replies), and whether it is still open. *)
Record Conn := MkConn { InRing : RingBuffer; st : St; status : conn_status }.

Definition closeConn (c : Conn) : Conn := MkConn (InRing c) (st c) Closed.
Definition crash (c : Conn) : Conn := MkConn (InRing c) (st c) Crashed.
Definition set_ring (c : Conn) (b : RingBuffer) : Conn := MkConn b (st c) (status c).

Definition is_quit (args : list bytes) : bool :=
  match args with a :: _ => AsCmd4 a =? CmdQuit | [] => false end.

(** [executeCommand]: an empty command does nothing, [QUIT] closes the
    connection, any other command runs. *)
Definition executeCommand (c : Conn) (args : list bytes) : Conn :=
  match args with
  | [] => c
  | _ =>
      if is_quit args then closeConn c
      else MkConn (InRing c) (exec (st c) args) (status c)
  end.

Definition cmdArgs : option Z := Some 16.
Definition readBufLen : nat := Z.to_nat (64 * 1024).

(** The loop over the commands pipelined in one read. *)
Fixpoint pipeline (fuel : nat) (buf : bytes) (c : Conn) : Conn :=
  match fuel, buf with
  | _, [] => c
  | O, _ => c
  | S f, _ =>
      match ParseCommandInto buf cmdArgs with
      | ErrProtocol => closeConn c
      | Panic => crash c
      | Parsed (Some args) consumed =>
          if consumed =? 0 then set_ring c (Write (InRing c) buf).1
          else pipeline f (drop (Z.to_nat consumed) buf) (executeCommand c args)
      | _ => set_ring c (Write (InRing c) buf).1
      end
  end.

(** The loop that drains the ring buffer. *)
Fixpoint drain (fuel : nat) (c : Conn) : Conn :=
  let data := readable (InRing c) in
  match fuel, data with
  | _, [] => c
  | O, _ => c
  | S f, _ =>
      match ParseCommandInto data cmdArgs with
      | ErrProtocol => closeConn c
      | Panic => crash c
      | Parsed (Some args) consumed =>
          if consumed =? 0 then c
          else drain f (executeCommand (set_ring c (AdvanceRead (InRing c) consumed)) args)
      | _ => c
      end
  end.

(** [read(2)] until it returns less than a full buffer or would block.  After a
    hangup the connection is closed and [handleRead] returns at once. *)
Fixpoint read_all (queue : list read_result) (c : Conn) : Conn * list read_result :=
  match queue with
  | [] => (c, [])
  | WouldBlock :: queue' => (c, queue')
  | Hangup :: queue' => (closeConn c, queue')
  | Data chunk :: queue' =>
      let c := set_ring c (Write (InRing c) chunk).1 in
      if (length chunk <? readBufLen)%nat then (c, queue') else read_all queue' c
  end.

Definition finish (c : Conn) : Conn :=
  if IsEmpty (InRing c) then set_ring c (Reset (InRing c)) else c.

(** [queue] is what successive reads of the socket return, in order; the reads
    not made are left for the next readiness event. *)
Definition handleRead (c : Conn) (queue : list read_result) : Conn * list read_result :=
  if IsEmpty (InRing c) then
    match queue with
    | [] => (c, [])
    | WouldBlock :: queue' => (c, queue')
    | Hangup :: queue' => (closeConn c, queue')
    | Data buf :: queue' =>
        match ParseCommandInto buf cmdArgs with
        | ErrProtocol => (closeConn c, queue')
        | Panic => (crash c, queue')
        | Parsed (Some args) consumed =>
            if consumed =? 0 then
              let c := set_ring c (Write (InRing c) buf).1 in
              (finish (drain (Len (InRing c)) c), queue')
            else
              (pipeline (length buf) (drop (Z.to_nat consumed) buf) (executeCommand c args),
               queue')
        | _ =>
            let c := set_ring c (Write (InRing c) buf).1 in
            (finish (drain (Len (InRing c)) c), queue')
        end
    end
  else
    let '(c, queue') := read_all queue c in
    match status c with
    | Open => (finish (drain (Len (InRing c)) c), queue')
    | _ => (c, queue')
    end.

(** The readiness events of one connection until its data is used up or it is
    closed ([run] skips closed connections). *)
Fixpoint serve (fuel : nat) (c : Conn) (queue : list read_result) : Conn :=
  match fuel, queue with
  | _, [] => c
  | O, _ => c
  | S f, _ =>
      match status c with
      | Open => let '(c', queue') := handleRead c queue in serve f c' queue'
      | _ => c
      end
  end.

(** ** Reference: the commands of a byte stream

    [parses s d s' e]: running the commands of the stream [d] one after the
    other from state [s] leads to [s'] and stops for the reason [e]. *)

Inductive ending :=
| Rest (undecided : bytes)
| ProtocolError
| Crash.

Inductive parses : St -> bytes -> St -> ending -> Prop :=
| parses_rest s d : ParseCommandInto d cmdArgs = Incomplete -> parses s d s (Rest d)
| parses_error s d : ParseCommandInto d cmdArgs = ErrProtocol -> parses s d s ProtocolError
| parses_crash s d : ParseCommandInto d cmdArgs = Panic -> parses s d s Crash
| parses_cmd s d args n s' e :
    ParseCommandInto d cmdArgs = Parsed (Some args) n -> is_quit args = false ->
    parses (match args with [] => s | _ => exec s args end) (drop (Z.to_nat n) d) s' e ->
    parses s d s' e.

(** The connection after the stream has been processed. *)
Definition after (e : ending) (c : Conn) : Prop :=
  match e with
  | Rest q => status c = Open /\ wf (InRing c) /\ content (InRing c) = q
  | ProtocolError => status c = Closed
  | Crash => status c = Crashed
  end.

Lemma executeCommand_open c args :
  is_quit args = false ->
  executeCommand c args =
    MkConn (InRing c) (match args with [] => st c | _ => exec (st c) args end) (status c).
Proof. intros H. unfold executeCommand. destruct args; [by destruct c|]. by rewrite H. Qed.

Lemma parses_rest_incomplete s d s' q :
  parses s d s' (Rest q) -> ParseCommandInto q cmdArgs = Incomplete.
Proof. intros H. remember (Rest q) as e eqn:E. induction H; simplify_eq; auto. Qed.

Lemma parse_nil dst : ParseCommandInto [] dst = Incomplete.
Proof. done. Qed.

(** A consumed command leaves a shorter stream. *)
Lemma drop_consumed d args n :
  go_len d -> ParseCommandInto d cmdArgs = Parsed args n ->
  (n =? 0) = false /\ (length (drop (Z.to_nat n) d) < length d)%nat /\
  go_len (drop (Z.to_nat n) d).
Proof.
  intros Hg H. apply ParseCommandInto_bounds in H; [|done]. unfold go_len in *.
  rewrite length_drop. lia.
Qed.

Lemma pipeline_spec buf s' e : forall c fuel,
  parses (st c) buf s' e -> go_len buf -> (length buf <= fuel)%nat ->
  status c = Open -> wf (InRing c) -> content (InRing c) = [] ->
  st (pipeline fuel buf c) = s' /\ after e (pipeline fuel buf c).
Proof.
  intros c fuel H. remember (st c) as s eqn:Es. revert c fuel Es.
  induction H as [s d HP|s d HP|s d HP|s d args n s' e HP HQ H IH];
    intros c fuel Es Hg Hf Ho Hwf Hc;
    (destruct d as [|b d]; [by destruct fuel|]);
    (destruct fuel as [|f]; [cbn [length] in Hf; lia|]); cbn [pipeline]; rewrite HP.
  - destruct (Write_spec (InRing c) (b :: d) Hwf) as (Hw & Hwc & _).
    rewrite Hc in Hwc. by cbn.
  - by cbn.
  - by cbn.
  - destruct (drop_consumed _ _ _ Hg HP) as (-> & Hl & Hg'). cbn [length] in *.
    rewrite executeCommand_open by done. apply IH; cbn; subst; auto with lia.
Qed.

Lemma drain_spec d s' e : forall c fuel,
  parses (st c) d s' e -> go_len d -> (length d <= fuel)%nat ->
  status c = Open -> wf (InRing c) -> content (InRing c) = d ->
  st (drain fuel c) = s' /\ after e (drain fuel c).
Proof.
  intros c fuel H. remember (st c) as s eqn:Es. revert c fuel Es.
  induction H as [s d HP|s d HP|s d HP|s d args n s' e HP HQ H IH];
    intros c fuel Es Hg Hf Ho Hwf Hc;
    (destruct d as [|b d]; [by destruct fuel; cbn [drain]; rewrite readable_content, Hc|]);
    (destruct fuel as [|f]; [cbn [length] in Hf; lia|]); cbn [drain];
    rewrite readable_content, Hc by done; rewrite HP; try done.
  destruct (drop_consumed _ _ _ Hg HP) as (Hn & Hl & Hg'). rewrite Hn.
  apply ParseCommandInto_bounds in HP; [|done].
  rewrite executeCommand_open by done. cbn [length] in *.
  rewrite AdvanceRead_seek by (done || lia).
  pose proof (length_content _ Hwf) as Hlc. rewrite Hc in Hlc. cbn [length] in Hlc.
  rewrite Nat.min_r by (rewrite <- Hlc; lia).
  destruct (seek_spec (InRing c) (Z.to_nat n) Hwf) as [Hwf' Hc']; [rewrite <- Hlc; lia|].
  rewrite Hc in Hc'. apply IH; cbn; subst; auto with lia.
Qed.

Lemma finish_spec e c : after e c -> st (finish c) = st c /\ after e (finish c).
Proof.
  unfold finish. destruct (IsEmpty (InRing c)) eqn:E; [|done].
  intros Ha. split; [done|]. destruct e; try done. destruct Ha as (Ho & Hw & Hc).
  apply IsEmpty_content in E; [|done].
  cbn [after set_ring InRing status].
  destruct (Reset_spec _ Hw) as [? ->]. by rewrite <- Hc, E.
Qed.

(** Splitting a stream where the network cut it. *)
Lemma parses_split s d m s' e :
  go_len (d ++ m) -> parses s (d ++ m) s' e ->
  (exists s1 q, parses s d s1 (Rest q) /\ parses s1 (q ++ m) s' e) \/
  (parses s d s' e /\ (e = ProtocolError \/ e = Crash)).
Proof.
  intros Hg H. remember (d ++ m) as dm eqn:E. revert d E.
  assert (forall s d s' e, parses s (d ++ m) s' e ->
    ParseCommandInto d cmdArgs = Incomplete ->
    exists s1 q, parses s d s1 (Rest q) /\ parses s1 (q ++ m) s' e) as Hinc
    by (intros; eexists _, _; split; [by apply parses_rest|done]).
  induction H as [s dm HP|s dm HP|s dm HP|s dm args n s' e HP HQ H IH]; intros d ->;
    (destruct (decide (ParseCommandInto d cmdArgs = Incomplete)) as [Hi|Hd];
     [left; apply Hinc; [by econstructor|done]|]);
    rewrite ParseCommandInto_app in HP by (done || by eapply go_len_app_l).
  - done.
  - right. split; [by apply parses_error|auto].
  - right. split; [by apply parses_crash|auto].
  - pose proof (go_len_app_l _ _ Hg) as Hgd.
    pose proof (ParseCommandInto_bounds _ _ _ _ Hgd HP) as Hb.
    rewrite drop_app_le in IH by lia.
    assert (go_len (drop (Z.to_nat n) d ++ m)) as Hg'
      by (unfold go_len in *; rewrite length_app, length_drop in *; lia).
    destruct (IH Hg' _ eq_refl) as [(s1 & q & H1 & H2)|[H1 He]].
    + left. exists s1, q. split; [by eapply parses_cmd|done].
    + right. split; [by eapply parses_cmd|done].
Qed.

(** What follows the data on the connection: nothing yet, or a hangup. *)
Definition tail_ok (t : list read_result) : Prop := t = [] \/ t = [Hangup].

(** The reads of data up to a short one; or all of them, all full, and a hangup. *)
Lemma read_all_spec t queue : tail_ok t -> forall c,
  queue <> [] -> wf (InRing c) -> status c = Open ->
  let '(c', more) := read_all ((Data <$> queue) ++ t) c in
  st c' = st c /\
  ((exists used queue', queue = used ++ queue' /\ used <> [] /\ more = (Data <$> queue') ++ t /\
      wf (InRing c') /\ content (InRing c') = content (InRing c) ++ concat used /\ status c' = Open) \/
   (t = [Hangup] /\ more = [] /\ status c' = Closed)).
Proof.
  intros Ht. induction queue as [|chunk queue IH]; intros c Hne Hwf Ho; [done|]. cbn [fmap list_fmap app read_all].
  destruct (Write_spec (InRing c) chunk Hwf) as (Hw & Hc & _).
  set (c1 := set_ring c _). destruct (Nat.ltb_spec (length chunk) readBufLen).
  { split; [done|]. left. exists [chunk], queue. cbn [concat]. by rewrite !app_nil_r, <- Hc. }
  destruct queue as [|chunk' queue].
  { cbn [fmap list_fmap app]. destruct Ht as [-> | ->]; cbn [read_all].
    - split; [done|]. left. exists [chunk], []. cbn [concat]. by rewrite !app_nil_r, <- Hc.
    - split; [done|]. by right. }
  specialize (IH c1 ltac:(done) Hw Ho). destruct (read_all _ c1) as [c' more].
  destruct IH as (Hs & [(used & queue' & -> & Hu & Hl & Hw' & Hc' & Hst)|HB]); (split; [done|]); [left|by right].
  exists (chunk :: used), queue'. cbn [concat]. by rewrite app_assoc, <- Hc.
Qed.

Lemma Len_Write b p : wf b -> Len (Write b p).1 = (Len b + length p)%nat.
Proof.
  intros Hwf. destruct (Write_spec b p Hwf) as (Hw & Hc & _).
  rewrite <- !length_content, Hc, length_app by done. done.
Qed.

(** One readiness event: a non-empty part of the queue is read, and the
    commands it completes are run; or the connection hangs up. *)
Lemma handleRead_spec t c queue :
  tail_ok t -> status c = Open -> wf (InRing c) -> queue <> [] ->
  (exists used queue', queue = used ++ queue' /\ used <> [] /\ (handleRead c ((Data <$> queue) ++ t)).2 = (Data <$> queue') ++ t /\
    forall s1 e1, go_len (content (InRing c) ++ concat used) ->
      parses (st c) (content (InRing c) ++ concat used) s1 e1 ->
      st (handleRead c ((Data <$> queue) ++ t)).1 = s1 /\ after e1 (handleRead c ((Data <$> queue) ++ t)).1) \/
  (t = [Hangup] /\ st (handleRead c ((Data <$> queue) ++ t)).1 = st c /\ status (handleRead c ((Data <$> queue) ++ t)).1 = Closed).
Proof.
  intros Ht Ho Hwf Hne. unfold handleRead. destruct (IsEmpty (InRing c)) eqn:EE.
  - apply IsEmpty_content in EE; [|done]. destruct queue as [|buf queue]; [done|]. left.
    exists [buf], queue. split; [done|]. split; [done|]. cbn [fmap list_fmap app]. split; [by repeat (case_match || case_decide)|].
    rewrite EE. cbn [concat app]. rewrite app_nil_r. intros s1 e1 Hg Hp.
    destruct (Write_spec (InRing c) buf Hwf) as (Hw & Hc & _). rewrite EE in Hc.
    destruct (decide (ParseCommandInto buf cmdArgs = Incomplete)) as [HP|Hd].
    + rewrite HP. cbn [fst].
      destruct (drain_spec buf s1 e1 (set_ring c (Write (InRing c) buf).1)
        (Len (Write (InRing c) buf).1)) as [Hs Ha]; try done.
      { rewrite Len_Write by done. lia. }
      apply finish_spec in Ha as [Hs' ?]. split; [by etrans|done].
    + inversion Hp as [? ? HP|? ? HP|? ? HP|? ? args n ? ? HP HQ Hp']; subst; rewrite HP; try done.
      destruct (drop_consumed _ _ _ Hg HP) as (-> & Hl & Hg'). cbn [fst].
      rewrite executeCommand_open by done.
      eapply pipeline_spec; try done. lia.
  - pose proof (read_all_spec t queue Ht c Hne Hwf Ho) as HR.
    destruct (read_all _ c) as [c1 more].
    destruct HR as (Hs & [(used & queue' & -> & Hu & -> & Hw & Hc & Hst)|(-> & -> & Hst)]); rewrite Hst; [left|by right].
    exists used, queue'. split; [done|]. split; [done|]. split; [done|]. intros s1 e1 Hg Hp. cbn [fst].
    destruct (drain_spec (content (InRing c1)) s1 e1 c1 (Len (InRing c1))) as [Hds Ha];
      rewrite ?Hc, ?Hs, ?Hst; try done.
    { rewrite <- Hc, length_content by done. lia. }
    apply finish_spec in Ha as [Hs' ?]. split; [by etrans|done].
Qed.

Lemma parses_error_app s d m s' e :
  go_len d -> parses s d s' e -> e = ProtocolError \/ e = Crash -> parses s (d ++ m) s' e.
Proof.
  intros Hg H He. induction H as [s d HP|s d HP|s d HP|s d args n s' e HP HQ H IH].
  - destruct He; done.
  - apply parses_error. rewrite ParseCommandInto_app; [done|done|by rewrite HP].
  - apply parses_crash. rewrite ParseCommandInto_app; [done|done|by rewrite HP].
  - pose proof (ParseCommandInto_bounds _ _ _ _ Hg HP) as Hb.
    destruct (drop_consumed _ _ _ Hg HP) as (_ & _ & Hg').
    eapply parses_cmd; [rewrite ParseCommandInto_app; [done|done|by rewrite HP]|done|].
    rewrite drop_app_le by lia. auto.
Qed.

(** Running the rest after more data has come. *)
Lemma parses_join s d m s1 q s' e : go_len (d ++ m) -> parses s d s1 (Rest q) -> parses s1 (q ++ m) s' e -> parses s (d ++ m) s' e.
Proof.
  intros Hg H. remember (Rest q) as r eqn:E. induction H as [s d HP|s d HP|s d HP|s d args n s1 e1 HP HQ H IH]; simplify_eq; [done|].
  intros H2. pose proof (go_len_app_l _ _ Hg) as Hgd. pose proof (ParseCommandInto_bounds _ _ _ _ Hgd HP) as Hb.
  eapply parses_cmd; [rewrite ParseCommandInto_app; [done|done|by rewrite HP]|done|].
  rewrite drop_app_le by lia. apply IH; [|done|done]. unfold go_len in *. rewrite length_app, length_drop in *. lia.
Qed.

Lemma serve_closed fuel c queue : status c <> Open -> serve fuel c queue = c.
Proof. destruct fuel, queue; cbn; try done. destruct (status c); done. Qed.

Lemma parses_rest_length s d s' q : go_len d -> parses s d s' (Rest q) -> (length q <= length d)%nat.
Proof.
  intros Hg H. remember (Rest q) as e eqn:E. induction H; simplify_eq; [done|].
  destruct (drop_consumed _ _ _ Hg H) as (_ & ? & ?). etrans; [by apply IHparses|lia].
Qed.

Lemma serve_spec fuel : forall c queue s' e,
  (length queue <= fuel)%nat -> status c = Open -> wf (InRing c) ->
  go_len (content (InRing c) ++ concat queue) ->
  (queue = [] -> ParseCommandInto (content (InRing c)) cmdArgs = Incomplete) ->
  parses (st c) (content (InRing c) ++ concat queue) s' e ->
  st (serve fuel c (Data <$> queue)) = s' /\ after e (serve fuel c (Data <$> queue)).
Proof.
  induction fuel as [|f IH]; intros c queue s' e Hf Ho Hwf Hg Hq Hp.
  all: destruct queue as [|d queue].
  1,3: cbn in *; rewrite app_nil_r in Hp;
    inversion Hp as [? ? HP|? ? HP|? ? HP|? ? args n ? ? HP HQ Hp']; subst;
    rewrite Hq in HP by done; done.
  { cbn in Hf. lia. }
  cbn [serve fmap list_fmap]. change (Data d :: (Data <$> queue)) with (Data <$> (d :: queue)). rewrite Ho.
  destruct (handleRead_spec [] c (d :: queue) ltac:(by left) Ho Hwf ltac:(done)) as [(used & queue' & EQ & Hu & HQ & HR)|[? _]]; [|done].
  rewrite !app_nil_r in HQ. rewrite app_nil_r in HR.
  destruct (handleRead c _) as [c' more] eqn:EH. cbn [fst snd] in *. subst more.
  rewrite EQ, concat_app, app_assoc in Hp, Hg. pose proof (go_len_app_l _ _ Hg) as Hg1.
  assert (length queue' <= f)%nat as Hf'.
  { apply (f_equal length) in EQ. rewrite length_app in EQ. cbn [length] in *.
    destruct used; [done|cbn [length] in EQ; lia]. }
  destruct (parses_split _ _ _ _ _ Hg Hp) as [(s1 & q & H1 & H2)|[H1 He]].
  - destruct (HR _ _ Hg1 H1) as [Hs (Ho' & Hw' & Hc')].
    apply IH; rewrite ?Hs, ?Hc'; try done.
    + unfold go_len in *. pose proof (parses_rest_length _ _ _ _ Hg1 H1). rewrite !length_app in *. lia.
    + intros _. by eapply parses_rest_incomplete.
  - destruct (HR _ _ Hg1 H1) as [Hs Ha].
    assert (status c' <> Open) as Hc' by (destruct He; subst; cbn in Ha; congruence).
    by rewrite serve_closed.
Qed.

(** A stream that ends with a hangup: the connection is closed, and the commands run
    are those that some of the data, from the start on, completes. *)
Lemma serve_hangup fuel : forall c queue s' q,
  (length queue < fuel)%nat -> status c = Open -> wf (InRing c) ->
  go_len (content (InRing c) ++ concat queue) -> ParseCommandInto (content (InRing c)) cmdArgs = Incomplete ->
  parses (st c) (content (InRing c) ++ concat queue) s' (Rest q) ->
  status (serve fuel c ((Data <$> queue) ++ [Hangup])) = Closed /\
  exists k q1, parses (st c) (content (InRing c) ++ concat (take k queue)) (st (serve fuel c ((Data <$> queue) ++ [Hangup]))) (Rest q1).
Proof.
  induction fuel as [|f IH]; intros c queue s' q Hf Ho Hwf Hg Hi Hp; [lia|].
  assert (parses (st c) (content (InRing c) ++ concat (take 0 queue)) (st c) (Rest (content (InRing c)))) as Hnone.
  { cbn [take concat]. rewrite app_nil_r. by apply parses_rest. }
  destruct queue as [|d queue].
  { cbn [fmap list_fmap app serve]. rewrite Ho. unfold handleRead. destruct (IsEmpty (InRing c)); cbn; (destruct f; cbn; (split; [done|]); exists 0%nat; eauto). }
  cbn [serve fmap list_fmap app]. change (Data d :: (Data <$> queue) ++ [Hangup]) with ((Data <$> (d :: queue)) ++ [Hangup]). rewrite Ho.
  destruct (handleRead_spec [Hangup] c (d :: queue) ltac:(by right) Ho Hwf ltac:(done)) as [(used & queue' & EQ & Hu & HQ & HR)|(_ & Hs & Hc)].
  2: { destruct (handleRead c _) as [c' more]. cbn [fst snd] in *. rewrite serve_closed by congruence. split; [done|]. exists 0%nat. rewrite Hs. eauto. }
  destruct (handleRead c _) as [c' more] eqn:EH. cbn [fst snd] in *. subst more.
  rewrite EQ, concat_app, app_assoc in Hp, Hg. pose proof (go_len_app_l _ _ Hg) as Hg1.
  assert (length queue' < f)%nat as Hf'.
  { pose proof (f_equal length EQ) as E. rewrite length_app in E. cbn [length] in *. destruct used; [done|cbn [length] in E; lia]. }
  destruct (parses_split _ _ _ _ _ Hg Hp) as [(s1 & q1 & H1 & H2)|[_ [|]]]; [|done..].
  destruct (HR _ _ Hg1 H1) as [Hs (Ho' & Hw' & Hc')].
  destruct (IH c' queue' s' q) as (Hcl & k & q2 & Hk); rewrite ?Hs, ?Hc'; try done.
  { unfold go_len in *. pose proof (parses_rest_length _ _ _ _ Hg1 H1). rewrite !length_app in *. lia. }
  { by eapply parses_rest_incomplete. }
  split; [done|]. exists (length used + k)%nat, q2. rewrite EQ, take_app_add, concat_app, app_assoc.
  rewrite Hs, Hc' in Hk. eapply parses_join; [|done|done]. rewrite <- (take_drop k queue') in Hg. rewrite concat_app, app_assoc in Hg.
  by eapply go_len_app_l.
Qed.

(** The stream of a list of serialised commands. *)
Lemma parses_commands cmds : forall s s' e,
  Forall (fun a => a <> [] /\ Z.of_nat (length a) <= maxStrings /\ is_quit a = false) cmds ->
  go_len (concat (map SerializeCommand cmds)) ->
  s' = foldl exec s cmds -> e = Rest [] ->
  parses s (concat (map SerializeCommand cmds)) s' e.
Proof.
  induction cmds as [|a cmds IH]; intros s s' e HF Hg -> ->; cbn [map concat foldl] in *.
  - by apply parses_rest.
  - apply list.Forall_cons in HF as [(Hne & Hm & HQ) HF].
    eapply parses_cmd; [by apply ParseCommandInto_serialized|done|].
    rewrite Nat2Z.id, drop_app_length. destruct a as [|x a]; [done|].
    apply IH; try done. unfold go_len in *. rewrite length_app in Hg. lia.
Qed.
End read_path.
Arguments Conn : clear implicits.
Arguments MkConn {St}.

(** ** The three encoders *)

Lemma small_decimal n :
  (n < 100)%nat ->
  Itoa n = if Z.of_nat n <? 10 then [z2b (48 + Z.of_nat n)]
           else [z2b (48 + Z.of_nat n / 10); z2b (48 + Z.of_nat n mod 10)].
Proof.
  intros Hn.
  assert (Forall (fun n => Itoa n = if Z.of_nat n <? 10 then [z2b (48 + Z.of_nat n)]
    else [z2b (48 + Z.of_nat n / 10); z2b (48 + Z.of_nat n mod 10)]) (seq 0 100)) as HF
    by (cbn [seq]; repeat (constructor; [reflexivity|]); constructor).
  rewrite list.Forall_forall in HF. apply HF. apply elem_of_seq. lia.
Qed.

Lemma append_len_Itoa dst n : append_len dst n = dst ++ Itoa n ++ CRLF.
Proof.
  unfold append_len. destruct (Z.ltb_spec (Z.of_nat n) 10).
  - rewrite small_decimal by lia. by rewrite (proj2 (Z.ltb_lt _ _)) by lia.
  - destruct (Z.ltb_spec (Z.of_nat n) 100).
    + rewrite small_decimal by lia. by rewrite (proj2 (Z.ltb_ge _ _)) by lia.
    + by rewrite <- app_assoc.
Qed.

Lemma AppendBulkString_spec dst s : AppendBulkString dst s = dst ++ SerializeArg s.
Proof.
  unfold AppendBulkString, SerializeArg. rewrite append_len_Itoa, <- !app_assoc. done.
Qed.

(** [AppendValue] on each constructor. *)
Lemma AppendValue_simple s dst : AppendValue (SimpleString s) dst =
  if decide (s = str "OK") then dst ++ respOK
  else if decide (s = str "PONG") then dst ++ respPONG
  else (dst ++ ["+"%byte] ++ s) ++ CRLF.
Proof. reflexivity. Qed.
Lemma AppendValue_error s dst : AppendValue (Error s) dst = (dst ++ ["-"%byte] ++ s) ++ CRLF.
Proof. reflexivity. Qed.
Lemma AppendValue_integer n dst : AppendValue (Integer n) dst =
  if (0 <=? n) && (n <? 10) then dst ++ [":"%byte; z2b (48 + n)] ++ CRLF
  else (dst ++ [":"%byte] ++ FormatInt n) ++ CRLF.
Proof. reflexivity. Qed.
Lemma AppendValue_bulk s dst : AppendValue (BulkString s) dst =
  if decide (0 < length s)%nat then (append_len (dst ++ ["$"%byte]) (length s) ++ s) ++ CRLF
  else AppendBulkString dst [].
Proof. reflexivity. Qed.
Lemma AppendValue_array a dst : AppendValue (Array a) dst =
  fold_left (fun d x => AppendValue x d) a
    ((dst ++ ["*"%byte] ++ FormatInt (Z.of_nat (length a))) ++ CRLF).
Proof. reflexivity. Qed.

Lemma AppendValue_integer_serialized n dst :
  AppendValue (Integer n) dst = dst ++ SerializeValue (Integer n).
Proof.
  rewrite SerializeValue_integer, AppendValue_integer.
  destruct ((0 <=? n) && (n <? 10)) eqn:E; [|by rewrite <- !app_assoc].
  pose proof (small_decimal (Z.to_nat n) ltac:(lia)) as HD. unfold Itoa in HD.
  rewrite Z2Nat.id, (proj2 (Z.ltb_lt _ _)) in HD by lia. by rewrite HD.
Qed.

Lemma AppendValue_items a :
  Forall (fun v => wire_value v -> forall dst, AppendValue v dst = dst ++ SerializeValue v) a ->
  Forall wire_value a -> forall dst,
  fold_left (fun d x => AppendValue x d) a dst = dst ++ concat (map SerializeValue a).
Proof.
  intros IH; induction IH as [|x a Hx _ IHa]; intros Hw dst; cbn [fold_left map concat].
  - by rewrite app_nil_r.
  - apply list.Forall_cons in Hw as [? ?]. by rewrite IHa, Hx, <- app_assoc.
Qed.

Lemma AppendValue_serialized v : wire_value v -> forall dst,
  AppendValue v dst = dst ++ SerializeValue v.
Proof.
  induction v as [t s n b a bo nul IH] using Value_ind'. intros Hw dst.
  inversion Hw; subst; fold_value.
  - rewrite SerializeValue_simple, AppendValue_simple. do 2 (case_decide; [by subst|]).
    by rewrite <- !app_assoc.
  - rewrite SerializeValue_error, AppendValue_error. by rewrite <- !app_assoc.
  - apply AppendValue_integer_serialized.
  - rewrite SerializeValue_bulk, AppendValue_bulk. case_decide as Hl.
    + by rewrite append_len_Itoa, <- !app_assoc.
    + assert (s0 = []) as -> by (apply nil_length_inv; lia). apply AppendBulkString_spec.
  - done.
  - done.
  - rewrite SerializeValue_array, AppendValue_array, AppendValue_items by done.
    unfold Itoa. by rewrite <- !app_assoc.
Qed.

Lemma WriteValue_array a :
  WriteValue (Array a) = WriteArrayHeader (length a) ++ concat (map WriteValue a).
Proof. reflexivity. Qed.

Lemma WriteValue_serialized v : wire_value v -> WriteValue v = SerializeValue v.
Proof.
  induction v as [t s n b a bo nul IH] using Value_ind'. intros Hw.
  inversion Hw; subst; fold_value; try done.
  - rewrite SerializeValue_simple. change (WriteValue (SimpleString s)) with (WriteSimpleString s).
    unfold WriteSimpleString. do 2 (case_decide; [by subst|]). done.
  - rewrite SerializeValue_integer. change (WriteValue (Integer n)) with (WriteInteger n).
    unfold WriteInteger. repeat case_test; by subst.
  - rewrite SerializeValue_array, WriteValue_array. unfold WriteArrayHeader.
    rewrite <- app_comm_cons, <- app_assoc. do 4 f_equal.
    apply map_ext_Forall. rewrite list.Forall_forall in *. auto.
Qed.

(** ** Properties *)

(** C6: however the network cuts a pipelined stream of commands into reads,
    the reactor executes exactly these commands, each once and in order, and
    is left with an empty buffer on an open connection. *)
Theorem handleRead_chunking {St} (exec : St -> list bytes -> St) cap s chunks cmds
  (Hstream : concat chunks = concat (map SerializeCommand cmds))
  (Hcmds : Forall (fun a => a <> [] /\ Z.of_nat (length a) <= maxStrings /\ is_quit a = false) cmds)
  (Hlen : go_len (concat chunks)) :
  let c := serve exec (length chunks) (MkConn (NewRingBuffer cap) s Open) (Data <$> chunks) in
  st c = foldl exec s cmds /\ status c = Open /\ Bytes (InRing c) = [].
Proof.
  destruct (NewRingBuffer_spec cap) as [Hwf Hc].
  destruct (serve_spec exec (length chunks) (MkConn (NewRingBuffer cap) s Open) chunks
    (foldl exec s cmds) (Rest [])) as [Hs (Ho & Hw & He)]; cbn [InRing]; rewrite ?Hc; try done.
  - rewrite app_nil_l, Hstream. apply parses_commands; try done. by rewrite <- Hstream.
  - cbn. by rewrite Hs, Ho, Bytes_content, He.
Qed.

Lemma handleRead_chunking_witness :
  let stream := SerializeCommand [str "SET"; str "a"; str "1"] ++ SerializeCommand [str "GET"; str "a"] in
  let c := serve (fun s a => s ++ [a]) 3 (MkConn (NewRingBuffer 8) [] Open)
             (Data <$> [take 5 stream; take 30 (drop 5 stream); drop 35 stream]) in
  st c = [[str "SET"; str "a"; str "1"]; [str "GET"; str "a"]] /\ status c = Open /\
  Bytes (InRing c) = [].
Proof.
  intros stream.
  apply (handleRead_chunking (fun s a => s ++ [a]) 8 []
    [take 5 stream; take 30 (drop 5 stream); drop 35 stream]
    [[str "SET"; str "a"; str "1"]; [str "GET"; str "a"]]).
  - by vm_compute.
  - repeat constructor; by vm_compute.
  - by vm_compute.
Defined.

(** A client that hangs up after a stream of commands: its connection is closed, and
    the commands run are those that the reads before some point of the stream complete,
    in order.  Not always all of them: see [hangup_drops_commands]. *)
Theorem hangup_closes {St} (exec : St -> list bytes -> St) cap s chunks s' q :
  go_len (concat chunks) -> parses exec s (concat chunks) s' (Rest q) ->
  let c := serve exec (S (length chunks)) (MkConn (NewRingBuffer cap) s Open) ((Data <$> chunks) ++ [Hangup]) in
  status c = Closed /\ exists k q1, parses exec s (concat (take k chunks)) (st c) (Rest q1).
Proof.
  intros Hg Hp. destruct (NewRingBuffer_spec cap) as [Hwf Hc].
  destruct (serve_hangup exec (S (length chunks)) (MkConn (NewRingBuffer cap) s Open) chunks s' q) as (H1 & k & q1 & H2);
    cbn [InRing st] in *; rewrite ?Hc in *; try done; [lia|]. split; [done|]. by exists k, q1.
Qed.

(** Commands that wait in the ring buffer are dropped when the read after a full one
    meets the end of the stream: the connection is closed before they run. *)
Theorem hangup_drops_commands {St} (exec : St -> list bytes -> St) (c : Conn St) chunk : status c = Open -> IsEmpty (InRing c) = false ->
  length chunk = readBufLen -> let r := handleRead exec c [Data chunk; Hangup] in status r.1 = Closed /\ st r.1 = st c.
Proof.
  intros Ho He Hl. unfold handleRead. rewrite He. cbn [read_all]. rewrite (proj2 (Nat.ltb_ge _ _)) by lia. done.
Qed.

(** The zero-allocation encoder of the reactor ([AppendValue]), the
    buffered writer ([WriteValue]) and the reference serialiser
    ([SerializeValue]) produce the same bytes for every value the server
    sends. *)
Theorem encoders_agree v dst (Hw : wire_value v) :
  AppendValue v dst = dst ++ SerializeValue v /\ WriteValue v = SerializeValue v.
Proof. split; [by apply AppendValue_serialized|by apply WriteValue_serialized]. Qed.

Lemma encoders_agree_witness :
  AppendValue (Array [Integer 7; BulkString []; SimpleString (str "OK")]) [] =
    SerializeValue (Array [Integer 7; BulkString []; SimpleString (str "OK")]).
Proof.
  apply (encoders_agree (Array [Integer 7; BulkString []; SimpleString (str "OK")]) []).
  constructor; [by vm_compute|]. repeat constructor; try (by vm_compute).
  vm_compute. set_solver.
Defined.

(** C37: a reply written by either server, [WriteValue] of the blocking one or
    [AppendValue] of the reactor, is read back unchanged by the reader of a client,
    which stops exactly at the end of it, whatever follows on the connection.  The
    reply is any nesting of the values the constructors build whose simple strings
    and errors contain no line feed and are shorter than the buffer of the reader
    (65534 bytes), with bulk strings of at most 512 MB and arrays of at most 1048576
    elements. *)
Theorem replies_read_back v rest (Hw : wire_value v) :
  ReadValue (WriteValue v ++ rest) = Ok (v, rest) /\
  forall dst, exists written, AppendValue v dst = dst ++ written /\ ReadValue (written ++ rest) = Ok (v, rest).
Proof.
  assert (ReadValue (SerializeValue v ++ rest) = Ok (v, rest)) as H by by apply ReadValue_serialized.
  rewrite WriteValue_serialized by done. split; [done|]. intros dst. exists (SerializeValue v). split; [by apply AppendValue_serialized|done].
Qed.

Lemma replies_read_back_witness :
  ReadValue (WriteValue (Array [Integer (-5); BulkString (str "k"); Null]) ++ str "+x")
    = Ok (Array [Integer (-5); BulkString (str "k"); Null], str "+x").
Proof.
  apply (replies_read_back (Array [Integer (-5); BulkString (str "k"); Null])).
  constructor; [vm_compute; congruence|].
  repeat constructor; vm_compute; congruence.
Defined.

(** A line feed in an error ends it for the reader: the rest of the text is read as
    the next reply.  The answer to an unknown command quotes the name the client sent. *)
Theorem error_text_splits s1 s2 rest : LF ∉ s1 -> CR ∉ s1 -> Z.of_nat (length s1) < readBufSize ->
  ReadValue (WriteValue (Error (s1 ++ LF :: s2)) ++ rest) = Ok (Error s1, s2 ++ CRLF ++ rest).
Proof.
  intros Hl Hc Hs. change (WriteValue (Error (s1 ++ LF :: s2))) with (ErrorPrefix :: (s1 ++ LF :: s2) ++ CRLF). unfold ReadValue. cbn [app length].
  rewrite ReadValue_error. unfold readLine. rewrite <- !app_assoc. cbn [app]. rewrite ReadSlice_line by done. cbn [mbind res_bind].
  rewrite length_app. cbn [length]. rewrite decide_True.
  - rewrite decide_True; [by rewrite take_app_length' by lia|]. split; [lia|]. rewrite lookup_app_r by lia. by replace (length s1 + 1 - 1 - length s1)%nat with 0%nat by lia.
  - destruct (decide (length s1 + 1 < 2)%nat) as [|Hn]; [by left|right]. rewrite lookup_app_l by lia. intros E%list_elem_of_lookup_2. done.
Qed.

Theorem unknown_command_injects :
  let text := str "ERR unknown command 'X" ++ [LF] ++ str "+OK'" in
  exists rest, ReadValue (WriteValue (Error text)) = Ok (Error (str "ERR unknown command 'X"), rest) /\ ReadValue rest = Ok (SimpleString (str "OK'"), []).
Proof. eexists. split; vm_compute; reflexivity. Qed.
