(* ===== verification/SetDs.v ===== *)
(** * String sets (internal/datastruct/set.go)

    The members of a set are the keys of a Go map.  Go iterates over a map in
    an unspecified order; [Members] fixes one, and its theorem speaks of the
    members up to permutation. *)

From S2P Require Import Prelude.

Record Set_ := mkSet { members : gset bytes }.

Definition NewSet : Set_ := mkSet ∅.

(** The loop of [Add]: the set and the counter of new members. *)
Definition add_one (st : Set_ * Z) (m : bytes) : Set_ * Z :=
  let '(s, added) := st in
  if decide (m ∈ members s) then (s, added)
  else (mkSet ({[m]} ∪ members s), int64 (added + 1)).

Definition Add (s : Set_) (ms : list bytes) : Set_ * Z := foldl add_one (s, 0) ms.

Definition rem_one (st : Set_ * Z) (m : bytes) : Set_ * Z :=
  let '(s, removed) := st in
  if decide (m ∈ members s) then (mkSet (members s ∖ {[m]}), int64 (removed + 1))
  else (s, removed).

Definition Rem (s : Set_) (ms : list bytes) : Set_ * Z := foldl rem_one (s, 0) ms.

Definition IsMember (s : Set_) (m : bytes) : bool := bool_decide (m ∈ members s).

(** In one fixed order, which stands for the random order of the range in Go. *)
Definition Members (s : Set_) : list bytes := elements (members s).

Definition Card (s : Set_) : Z := Z.of_nat (size (members s)).

(** ** What the loops compute *)

Lemma add_loop s n ms :
  0 <= n -> n + Z.of_nat (length ms) < 2 ^ 63 ->
  foldl add_one (s, n) ms =
    (mkSet (members s ∪ list_to_set ms),
     n + Z.of_nat (size (list_to_set ms ∖ members s))).
Proof.
  revert s n; induction ms as [|m ms IH]; intros s n Hn Hl; csimpl in *.
  - destruct s as [M]; csimpl. f_equal; [f_equal; set_solver|].
    replace (∅ ∖ M) with (∅ : gset bytes) by set_solver. rewrite size_empty. lia.
  - case_decide as Hm.
    + rewrite IH by lia. f_equal; [f_equal; set_solver|].
      do 3 f_equal. set_solver.
    + rewrite IH by (unfold int64; rewrite Z.mod_small; lia). csimpl.
      rewrite int64_id by (unfold is_int64; lia).
      f_equal; [f_equal; set_solver|].
      replace (({[m]} ∪ list_to_set ms) ∖ members s)
        with ({[m]} ∪ list_to_set ms ∖ ({[m]} ∪ members s)) by
        (apply set_eq; intros x; destruct (decide (x = m)); set_solver).
      rewrite gset_size_insert by set_solver. lia.
Qed.

Lemma rem_loop s n ms :
  0 <= n -> n + Z.of_nat (length ms) < 2 ^ 63 ->
  foldl rem_one (s, n) ms =
    (mkSet (members s ∖ list_to_set ms),
     n + Z.of_nat (size (members s ∩ list_to_set ms))).
Proof.
  revert s n; induction ms as [|m ms IH]; intros s n Hn Hl; csimpl in *.
  - destruct s as [M]; csimpl. f_equal; [f_equal; set_solver|].
    rewrite intersection_empty_r_L, size_empty. lia.
  - case_decide as Hm.
    + rewrite IH by (unfold int64; rewrite Z.mod_small; lia). csimpl.
      rewrite int64_id by (unfold is_int64; lia).
      f_equal; [f_equal; set_solver|].
      replace (members s ∩ ({[m]} ∪ list_to_set ms))
        with ({[m]} ∪ (members s ∖ {[m]}) ∩ list_to_set ms) by
        (apply set_eq; intros x; destruct (decide (x = m)); set_solver).
      rewrite gset_size_insert by set_solver. lia.
    + rewrite IH by lia. f_equal; [f_equal; set_solver|].
      do 3 f_equal. set_solver.
Qed.

(** [Add] unions its arguments into the set and returns by how much the
    cardinality grew, [Rem] subtracts them and returns by how much it shrank;
    repeated arguments count once, and [IsMember] and [Members] (no duplicates)
    agree with the result. *)
Theorem set_algebra s ms :
  Z.of_nat (length ms) < 2 ^ 63 ->
  (forall s' n, Add s ms = (s', n) ->
     Card s' = Card s + n /\
     (forall x, IsMember s' x = true <-> x ∈ ms \/ IsMember s x = true) /\
     NoDup (Members s') /\ (forall x, x ∈ Members s' <-> IsMember s' x = true)) /\
  (forall s' n, Rem s ms = (s', n) ->
     Card s = Card s' + n /\
     (forall x, IsMember s' x = true <-> (x ∉ ms) /\ IsMember s x = true)).
Proof.
  intros Hl. unfold Add, Rem, Card, IsMember, Members.
  rewrite add_loop, rem_loop by lia.
  split; intros s' n [= <- <-]; csimpl.
  - split.
    { rewrite (size_union_alt (members s)). lia. }
    split; [|split].
    + intros x. rewrite !bool_decide_eq_true. set_solver.
    + apply NoDup_elements.
    + intros x. rewrite bool_decide_eq_true. set_solver.
  - split.
    { pose proof (size_difference_alt (members s) (list_to_set ms : gset bytes)).
      pose proof (subseteq_size (members s ∩ list_to_set ms) (members s) ltac:(set_solver)). lia. }
    intros x. rewrite !bool_decide_eq_true. set_solver.
Qed.

Lemma set_algebra_witness :
  Card (fst (Add NewSet [str "a"; str "b"; str "a"])) = Card NewSet + 2.
Proof.
  assert (Z.of_nat (length [str "a"; str "b"; str "a"]) < 2 ^ 63) as H by (cbn; lia).
  exact (proj1 (proj1 (set_algebra NewSet _ H) _ 2 ltac:(vm_compute; reflexivity))).
Defined.
