(* ===== verification/HashDs.v ===== *)
(** * Field-value hashes (internal/datastruct/hash.go)

    The fields of a hash are a Go map, which a range visits in a random order.
    [GetAll] builds a map, so its order does not matter; [Keys] and [Vals] list the
    fields in one fixed order, that of [map_to_list], and stand for any permutation
    of it. *)

From S2P Require Import Prelude.

Record Hash := mkHash { fields : gmap bytes bytes }.

Definition NewHash : Hash := mkHash ∅.

Definition Set_ (h : Hash) (field value : bytes) : Hash * Z :=
  (mkHash (<[field := value]> (fields h)),
   if decide (is_Some (fields h !! field)) then 0 else 1).

(** One iteration of [MSet]. *)
Definition mset_one (st : Hash * Z) (kv : bytes * bytes) : Hash * Z :=
  let '(h, added) := st in
  let added := if decide (is_Some (fields h !! kv.1)) then added
               else int64 (added + 1) in
  (mkHash (<[kv.1 := kv.2]> (fields h)), added).

(** [order] lists the pairs of the argument map in the order of iteration. *)
Definition MSet (h : Hash) (order : list (bytes * bytes)) : Hash * Z :=
  foldl mset_one (h, 0) order.

Definition Get (h : Hash) (field : bytes) : option bytes := fields h !! field.

Definition del_one (st : Hash * Z) (f : bytes) : Hash * Z :=
  let '(h, count) := st in
  if decide (is_Some (fields h !! f))
  then (mkHash (delete f (fields h)), int64 (count + 1))
  else (h, count).

Definition Del (h : Hash) (fs : list bytes) : Hash * Z := foldl del_one (h, 0) fs.

Definition Exists (h : Hash) (field : bytes) : bool :=
  bool_decide (is_Some (fields h !! field)).

(** A fresh copy of the map. *)
Definition GetAll (h : Hash) : gmap bytes bytes :=
  foldl (fun out kv => <[kv.1 := kv.2]> out) ∅ (map_to_list (fields h)).

Definition Keys (h : Hash) : list bytes := (map_to_list (fields h)).*1.

Definition Vals (h : Hash) : list bytes := (map_to_list (fields h)).*2.

Definition Len (h : Hash) : Z := Z.of_nat (size (fields h)).

Definition IncrBy (h : Hash) (field : bytes) (delta : Z) : Hash * res num_error Z :=
  let current :=
    match fields h !! field with
    | Some valStr => ParseInt valStr
    | None => Ok 0
    end in
  match current with
  | Err e => (h, Err e)
  | Ok current =>
      let newVal := int64 (current + delta) in
      (mkHash (<[field := FormatInt newVal]> (fields h)), Ok newVal)
  end.

(** ** The loops *)

Lemma mset_loop h n order :
  NoDup order.*1 -> 0 <= n -> n + Z.of_nat (length order) < 2 ^ 63 ->
  foldl mset_one (h, n) order =
    (mkHash (list_to_map order ∪ fields h),
     n + Z.of_nat (size (list_to_set order.*1 ∖ dom (fields h)))).
Proof.
  revert h n; induction order as [|[f v] order IH]; intros h n Hnd Hn Hl; csimpl in *.
  - destruct h as [F]; cbn. f_equal; [by rewrite (left_id_L ∅ (∪))|].
    replace (∅ ∖ dom F) with (∅ : gset bytes) by set_solver. rewrite size_empty. lia.
  - apply NoDup_cons in Hnd as [Hf Hnd].
    assert (list_to_map order !! f = (None : option bytes)) as Hnone
      by (by apply not_elem_of_list_to_map_1).
    rewrite IH; cbn; [|done| |].
    + f_equal.
      * f_equal. rewrite <- insert_union_l, insert_union_r by done. done.
      * rewrite dom_insert_L. case_decide as Hd.
        -- apply elem_of_dom in Hd. do 3 f_equal. set_solver.
        -- rewrite int64_id by (unfold is_int64; lia).
           rewrite <- elem_of_dom in Hd.
           replace (({[f]} ∪ list_to_set order.*1) ∖ dom (fields h))
             with ({[f]} ∪ list_to_set order.*1 ∖ ({[f]} ∪ dom (fields h))) by
             (apply set_eq; intros x; destruct (decide (x = f)); set_solver).
           rewrite gset_size_insert by set_solver. lia.
    + case_decide; [done|]. rewrite int64_id by (unfold is_int64; lia). lia.
    + case_decide; [lia|]. rewrite int64_id by (unfold is_int64; lia). lia.
Qed.

Lemma del_loop h n fs :
  0 <= n -> n + Z.of_nat (length fs) < 2 ^ 63 ->
  exists k, foldl del_one (h, n) fs =
    (mkHash (filter (fun kv => kv.1 ∉ fs) (fields h)), n + Z.of_nat k) /\
    size (fields h) = (size (filter (fun kv : bytes * bytes => kv.1 ∉ fs) (fields h)) + k)%nat.
Proof.
  revert h n; induction fs as [|f fs IH]; intros h n Hn Hl; csimpl in *.
  - exists O. destruct h as [F]; cbn.
    rewrite map_filter_id by (intros; set_solver).
    split; [f_equal; lia|lia].
  - assert (forall F : gmap bytes bytes,
      filter (fun kv => kv.1 ∉ f :: fs) F
      = filter (fun kv : bytes * bytes => kv.1 ∉ fs) (delete f F)) as Hfil.
    { intros F. apply map_eq. intros x. apply option_eq. intros v.
      rewrite !map_lookup_filter_Some, lookup_delete_Some. cbn. set_solver. }
    rewrite Hfil. case_decide as Hd.
    + rewrite int64_id by (unfold is_int64; lia).
      destruct (IH (mkHash (delete f (fields h))) (n + 1)) as (k & E & Hs); [lia|lia|].
      exists (S k). rewrite E. cbn in Hs |- *. split; [f_equal; lia|].
      destruct Hd as [v Hv]. rewrite <- (insert_delete_id _ _ _ Hv) at 1.
      rewrite map_size_insert_None by apply lookup_delete_eq. lia.
    + destruct (IH h n) as (k & E & Hs); [lia|lia|]. exists k.
      rewrite delete_id by (by apply eq_None_not_Some). done.
Qed.

Lemma copy_loop (l : list (bytes * bytes)) (m : gmap bytes bytes) :
  NoDup l.*1 ->
  foldl (fun out kv => <[kv.1 := kv.2]> out) m l = list_to_map l ∪ m.
Proof.
  revert m; induction l as [|[k v] l IH]; intros m Hnd; csimpl in *.
  - by rewrite (left_id_L ∅ (∪)).
  - apply NoDup_cons in Hnd as [Hk Hnd]. rewrite IH by done.
    rewrite <- insert_union_l, insert_union_r; [done|].
    by apply not_elem_of_list_to_map_1.
Qed.

(** The three ways of writing fields agree with the map they stand for.
    [MSet] yields the same hash and the same count for every iteration order of
    its argument: the union, and the number of fields that are new.  [Del]
    removes exactly the listed fields and counts those that existed.  [GetAll]
    returns the fields, and [Keys]/[Vals] pair up with them. *)
Theorem hash_algebra (h : Hash) (kvs : gmap bytes bytes)
    (order : list (bytes * bytes)) (fs : list bytes) :
  order ≡ₚ map_to_list kvs ->
  Z.of_nat (length order) < 2 ^ 63 -> Z.of_nat (length fs) < 2 ^ 63 ->
  MSet h order =
    (mkHash (kvs ∪ fields h), Z.of_nat (size (dom kvs ∖ dom (fields h)))) /\
  (forall h' n, Del h fs = (h', n) ->
     Len h = Len h' + n /\
     forall f, Get h' f = if decide (f ∈ fs) then None else Get h f) /\
  GetAll h = fields h /\
  zip (Keys h) (Vals h) = map_to_list (fields h) /\
  Z.of_nat (length (Keys h)) = Len h.
Proof.
  intros Hp Ho Hf. split; [|split; [|split; [|split]]].
  - assert (NoDup order.*1) as Hnd by (rewrite Hp; apply NoDup_fst_map_to_list).
    unfold MSet. rewrite mset_loop by (done || lia).
    rewrite (list_to_map_proper order (map_to_list kvs)) by done.
    rewrite list_to_map_to_list. do 3 f_equal.
    rewrite <- (list_to_map_to_list kvs) at 1. rewrite dom_list_to_map_L, Hp. done.
  - intros h' n. unfold Del, Len, Get.
    destruct (del_loop h 0 fs) as (k & -> & Hs); [lia|lia|].
    intros [= <- <-]. cbn. split; [lia|]. intros f. case_decide.
    + apply map_lookup_filter_None. right. intros v Hv. cbn. auto.
    + apply option_eq. intros v. rewrite map_lookup_filter_Some. naive_solver.
  - unfold GetAll. rewrite copy_loop by apply NoDup_fst_map_to_list.
    by rewrite list_to_map_to_list, (right_id_L ∅ (∪)).
  - unfold Keys, Vals. by rewrite zip_fst_snd.
  - unfold Keys, Len. by rewrite length_fmap, length_map_to_list.
Qed.

Lemma hash_algebra_witness :
  MSet (mkHash {[str "a" := str "1"]}) [(str "b", str "2"); (str "a", str "3")] =
    (mkHash ({[str "a" := str "3"; str "b" := str "2"]} ∪ {[str "a" := str "1"]}), 1).
Proof.
  refine (proj1 (hash_algebra (mkHash {[str "a" := str "1"]})
    {[str "a" := str "3"; str "b" := str "2"]}
    [(str "b", str "2"); (str "a", str "3")] [] _ _ _)); [|cbn; lia|cbn; lia].
  vm_compute. first [reflexivity | apply Permutation_swap].
Defined.

(** HINCRBY on a field that holds a decimal 64-bit integer (or is absent,
    read as 0) stores the decimal text of the 64-bit sum, wrapped around on
    overflow, so that a later read parses back to the value returned; on any
    other content the hash is unchanged and the error is returned.  Other
    fields are never touched. *)
Theorem IncrBy_spec h field delta :
  let '(h', r) := IncrBy h field delta in
  (forall f, f <> field -> Get h' f = Get h f) /\
  match r with
  | Ok v =>
      is_int64 v /\ (exists s, Get h' field = Some s /\ ParseInt s = Ok v) /\
      exists c, v = int64 (c + delta) /\
        match Get h field with Some s => ParseInt s = Ok c | None => c = 0 end
  | Err e => h' = h /\ exists s, Get h field = Some s /\ ParseInt s = Err e
  end.
Proof.
  unfold IncrBy, Get. destruct (fields h !! field) as [s|] eqn:E.
  - destruct (ParseInt s) as [c|e] eqn:Ep.
    + cbn. split; [intros f Hf; by rewrite lookup_insert_ne|].
      split; [apply int64_range|]. rewrite lookup_insert_eq.
      split; [eauto using ParseInt_FormatInt, int64_range|]. by exists c.
    + split; [done|]. eauto.
  - cbn. split; [intros f Hf; by rewrite lookup_insert_ne|].
    split; [apply int64_range|]. rewrite lookup_insert_eq.
    split; [eauto using ParseInt_FormatInt, int64_range|]. by exists 0.
Qed.
