(* ===== verification/ListDs.v ===== *)
(** * Lists (internal/datastruct/list.go)

    A list is a Go slice of strings.  The operations are written with the
    indices and loops of the source; the theorems relate them to the plain
    deque and to one another. *)

From S2P Require Import Prelude.

Record List_ := mkList { items : list bytes }.

Definition NewList : List_ := mkList [].

(** [for i, val := range values { newItems[len(values)-1-i] = val }]. *)
Fixpoint lpush_loop (n i : nat) (values newItems : list bytes) : list bytes :=
  match values with
  | [] => newItems
  | val :: values' => lpush_loop n (S i) values' (<[n - 1 - i := val]> newItems)%nat
  end.

(** [copy(newItems[n:], src)] for a destination long enough for [src]. *)
Definition copy_at (n : nat) (dst src : list bytes) : list bytes :=
  take n dst ++ src ++ drop (n + length src) dst.

Definition LPush (l : List_) (values : list bytes) : List_ * Z :=
  let n := length values in
  let newItems := replicate (n + length (items l)) (str "") in
  let newItems := lpush_loop n 0 values newItems in
  let newItems := copy_at n newItems (items l) in
  (mkList newItems, Z.of_nat (length newItems)).

Definition RPush (l : List_) (values : list bytes) : List_ * Z :=
  let l' := items l ++ values in
  (mkList l', Z.of_nat (length l')).

(** [make([]string, count)] panics on a negative length; the popped elements
    are [None] where the source returns [nil, false]. *)
Definition LPop (l : List_) (count : Z) : res panic (option (list bytes) * List_) :=
  let n := Z.of_nat (length (items l)) in
  if n =? 0 then Ok (None, l)
  else
    let count := if count >? n then n else count in
    if count <? 0 then Err PanicMakeSlice
    else
      let c := Z.to_nat count in
      Ok (Some (take c (items l)), mkList (drop c (items l))).

(** [popped[i] = l.items[n-1-i]] for [i] from 0 to [count-1]. *)
Definition rpop_loop (l : list bytes) (n count : nat) : list bytes :=
  (fun i => default (str "") (l !! (n - 1 - i)%nat)) <$> seq 0 count.

Definition RPop (l : List_) (count : Z) : res panic (option (list bytes) * List_) :=
  let n := Z.of_nat (length (items l)) in
  if n =? 0 then Ok (None, l)
  else
    let count := if count >? n then n else count in
    let start := n - count in
    if count <? 0 then Err PanicMakeSlice
    else
      Ok (Some (rpop_loop (items l) (Z.to_nat n) (Z.to_nat count)),
          mkList (take (Z.to_nat start) (items l))).

Definition Len (l : List_) : Z := Z.of_nat (length (items l)).

Definition Range (l : List_) (start stop : Z) : list bytes :=
  let n := Z.of_nat (length (items l)) in
  if n =? 0 then []
  else
    let start := if start <? 0 then int64 (n + start) else start in
    let stop := if stop <? 0 then int64 (n + stop) else stop in
    let start := if start <? 0 then 0 else start in
    let stop := if stop >=? n then n - 1 else stop in
    if (start >? stop) || (start >=? n) then []
    else take (Z.to_nat (stop - start + 1)) (drop (Z.to_nat start) (items l)).

Definition Index (l : List_) (index : Z) : option bytes :=
  let n := Z.of_nat (length (items l)) in
  let index := if index <? 0 then int64 (n + index) else index in
  if (index <? 0) || (index >=? n) then None else items l !! Z.to_nat index.

(** ** The loops *)

Lemma lpush_loop_spec n i done' values l :
  length done' = i -> (i + length values = n)%nat ->
  lpush_loop n i values (replicate (n - i) (str "") ++ reverse done' ++ l)
  = reverse values ++ reverse done' ++ l.
Proof.
  revert i done'; induction values as [|v values IH]; intros i done' Hd Hn; cbn [lpush_loop length] in *.
  - by replace (n - i)%nat with O by lia.
  - replace (n - i)%nat with ((n - 1 - i) + 1)%nat by lia.
    rewrite replicate_add, <- app_assoc, insert_app_r_alt by (rewrite length_replicate; lia).
    rewrite length_replicate, Nat.sub_diag. cbn [replicate app insert list_insert].
    specialize (IH (S i) (done' ++ [v])).
    rewrite reverse_snoc in IH.
    replace (n - S i)%nat with (n - 1 - i)%nat in IH by lia.
    cbn [app] in IH. rewrite IH by (rewrite ?length_app; cbn; lia).
    by rewrite reverse_cons, <- app_assoc.
Qed.

Lemma LPush_items l values :
  LPush l values = (mkList (reverse values ++ items l),
                    Z.of_nat (length values + length (items l))).
Proof.
  unfold LPush. set (n := length values).
  assert (lpush_loop n 0 values (replicate (n + length (items l)) (str ""))
          = reverse values ++ replicate (length (items l)) (str "")) as ->.
  { rewrite replicate_add.
    pose proof (lpush_loop_spec n 0 [] values (replicate (length (items l)) (str ""))) as H.
    rewrite Nat.sub_0_r in H. by apply H. }
  unfold copy_at. rewrite take_app_length' by (by rewrite length_reverse).
  rewrite drop_ge by (rewrite length_app, length_reverse, length_replicate; subst n; lia).
  rewrite app_nil_r. f_equal. rewrite length_app, length_reverse. done.
Qed.

Lemma rpop_loop_spec l k :
  (k <= length l)%nat ->
  rpop_loop l (length l) k = reverse (drop (length l - k) l).
Proof.
  intros Hk. rewrite <- take_reverse. apply list_eq. intros i. unfold rpop_loop.
  rewrite list_lookup_fmap. destruct (decide (i < k)%nat) as [Hi|Hi].
  - rewrite lookup_seq_lt, lookup_take_lt, reverse_lookup by lia. cbn.
    replace (length l - 1 - i)%nat with (length l - S i)%nat by lia.
    destruct (lookup_lt_is_Some_2 l (length l - S i)%nat) as [x ->]; [lia|done].
  - rewrite lookup_seq_ge, lookup_take_ge by lia. done.
Qed.

(** The popped and the remaining elements for any count that is not negative. *)
Lemma LPop_spec l count :
  items l <> [] -> 0 <= count ->
  LPop l count = Ok (Some (take (Z.to_nat count) (items l)),
                     mkList (drop (Z.to_nat count) (items l))).
Proof.
  intros Hl Hc. unfold LPop. rewrite (proj2 (Z.eqb_neq _ _)) by
    (destruct (items l); [done|cbn; lia]).
  destruct (Z.gtb_spec count (Z.of_nat (length (items l)))).
  - rewrite (proj2 (Z.ltb_ge _ _)) by lia. rewrite Nat2Z.id.
    rewrite !take_ge, !drop_ge by lia. done.
  - rewrite (proj2 (Z.ltb_ge _ _)) by lia. done.
Qed.

Lemma RPop_spec l count :
  items l <> [] -> 0 <= count ->
  let k := (length (items l) - Z.to_nat count)%nat in
  RPop l count = Ok (Some (reverse (drop k (items l))), mkList (take k (items l))).
Proof.
  intros Hl Hc k. unfold RPop. rewrite (proj2 (Z.eqb_neq _ _)) by
    (destruct (items l); [done|cbn; lia]).
  destruct (Z.gtb_spec count (Z.of_nat (length (items l)))).
  - rewrite (proj2 (Z.ltb_ge _ _)) by lia. rewrite !Nat2Z.id, Z.sub_diag.
    rewrite rpop_loop_spec by lia. subst k.
    replace (length (items l) - length (items l))%nat with O by lia.
    replace (length (items l) - Z.to_nat count)%nat with O by lia. done.
  - rewrite (proj2 (Z.ltb_ge _ _)) by lia. rewrite Nat2Z.id, rpop_loop_spec by lia.
    subst k. replace (Z.to_nat (Z.of_nat (length (items l)) - count))
      with (length (items l) - Z.to_nat count)%nat by lia. done.
Qed.

(** A list is a deque.  Popping as many elements as were pushed at the same
    end returns them in the opposite order of the push and restores the list;
    popping at the other end of an empty list after a push returns them in the
    order of the push. *)
Theorem push_pop l values :
  values <> [] ->
  let c := Z.of_nat (length values) in
  LPop (fst (LPush l values)) c = Ok (Some (reverse values), l) /\
  RPop (fst (RPush l values)) c = Ok (Some (reverse values), l) /\
  RPop (fst (LPush NewList values)) c = Ok (Some values, NewList) /\
  LPop (fst (RPush NewList values)) c = Ok (Some values, NewList) /\
  snd (LPush l values) = Len l + c /\ snd (RPush l values) = Len l + c.
Proof.
  intros Hv c. subst c. rewrite !LPush_items. unfold RPush, Len, NewList; cbn.
  assert (forall k, reverse values ++ k <> []) as Hr.
  { intros k E. apply app_nil in E as [E _]. 
    apply (f_equal length) in E. rewrite length_reverse in E. by destruct values. }
  assert (forall k, k ++ values <> []) as Hr'.
  { intros k E. by apply app_nil in E as [_ E]. }
  split; [|split; [|split; [|split; [|split]]]].
  - rewrite LPop_spec by (apply Hr || apply Hr' || exact Hv || lia). cbn [items]. rewrite Nat2Z.id.
    rewrite take_app_length', drop_app_length' by (by rewrite length_reverse).
    by destruct l.
  - rewrite RPop_spec by (apply Hr || apply Hr' || exact Hv || lia). cbn [items].
    rewrite Nat2Z.id, length_app. replace (_ + _ - _)%nat with (length (items l)) by lia.
    rewrite take_app_length, drop_app_length. by destruct l.
  - rewrite RPop_spec by (apply Hr || apply Hr' || exact Hv || lia). cbn [items].
    rewrite Nat2Z.id, app_nil_r, length_reverse, Nat.sub_diag. cbn.
    by rewrite drop_0, reverse_involutive.
  - rewrite LPop_spec by (apply Hr || apply Hr' || exact Hv || lia). cbn [items app].
    by rewrite Nat2Z.id, take_ge, drop_ge by lia.
  - lia.
  - rewrite length_app. lia.
Qed.

Lemma push_pop_witness :
  RPop (fst (LPush NewList [str "a"; str "b"])) 2 = Ok (Some [str "a"; str "b"], NewList).
Proof.
  exact (proj1 (proj2 (proj2 (push_pop NewList [str "a"; str "b"] ltac:(done))))).
Defined.

(** [LRANGE] and [LINDEX] agree for all signed 64-bit indices: the [k]-th
    element of the range is the element at the clamped start plus [k], the
    range has [stop - start + 1] elements after clamping (none when that is
    negative), and [LINDEX i] is the one-element range [i..i] whenever [i]
    denotes a position of the list. *)
Theorem Range_Index l start stop :
  is_int64 start -> is_int64 stop -> Len l < 2 ^ 63 ->
  let n := Len l in
  let lo := Z.max 0 (if start <? 0 then n + start else start) in
  let hi := Z.min (n - 1) (if stop <? 0 then n + stop else stop) in
  Z.of_nat (length (Range l start stop)) = Z.max 0 (hi - lo + 1) /\
  (forall k, 0 <= k <= hi - lo ->
     Range l start stop !! Z.to_nat k = Index l (lo + k)) /\
  (forall x, Index l start = Some x -> Range l start start = [x]).
Proof.
  intros Hs Ht Hn n lo hi. unfold Len in *.
  assert (forall z, is_int64 z -> z < 0 -> int64 (n + z) = n + z) as Hid.
  { unfold is_int64. intros z Hz Hz0. apply int64_id. unfold is_int64. lia. }
  split; [|split].
  - unfold Range. subst lo hi. fold n.
    destruct (Z.eqb_spec n 0) as [E|E].
    { cbn. repeat case_test; lia. }
    destruct (Z.ltb_spec start 0), (Z.ltb_spec stop 0); rewrite ?Hid by done;
      repeat (case_match; cbn [length]); try lia;
      rewrite length_take, length_drop; lia.
  - intros k Hk.
    assert (Range l start stop =
      take (Z.to_nat (hi - lo + 1)) (drop (Z.to_nat lo) (items l))) as ->.
    { unfold Range. fold n. rewrite (proj2 (Z.eqb_neq _ _)) by
        (subst lo hi; repeat case_match; lia).
      subst lo hi. destruct (Z.ltb_spec start 0), (Z.ltb_spec stop 0);
        rewrite ?Hid by done; repeat case_match; try lia; do 2 f_equal; lia. }
    rewrite lookup_take_lt, lookup_drop by lia. unfold Index. fold n.
    assert (0 <= lo /\ hi < n) as [Hlo Hhi] by (subst lo hi; lia).
    rewrite (proj2 (Z.ltb_ge (lo + k) 0)) by lia. cbn [orb].
    case_match; [lia|]. f_equal. lia.
  - intros x. unfold Index, Range. fold n.
    destruct (Z.ltb_spec start 0); rewrite ?Hid by done;
      (case_match eqn:Hc; [done|]); intros Hx;
      rewrite (proj2 (Z.eqb_neq n 0)) by lia; repeat case_match; try lia;
      rewrite Z.sub_diag; (erewrite drop_S by exact Hx); done.
Qed.

Lemma Range_Index_witness :
  Z.of_nat (length (Range (mkList [str "a"; str "b"; str "c"]) (-2) 100)) = 2.
Proof.
  refine (proj1 (Range_Index (mkList [str "a"; str "b"; str "c"]) (-2) 100 _ _ _));
    [unfold is_int64; lia | unfold is_int64; lia | done].
Defined.

(** Popping a negative count from a list that is not empty panics in
    [make], at either end. *)
Theorem pop_negative_panics l count :
  items l <> [] -> count < 0 ->
  LPop l count = Err PanicMakeSlice /\ RPop l count = Err PanicMakeSlice.
Proof.
  intros Hl Hc. unfold LPop, RPop.
  assert (0 < Z.of_nat (length (items l))) by (destruct (items l); [done|cbn; lia]).
  rewrite (proj2 (Z.eqb_neq _ _)) by lia.
  destruct (Z.gtb_spec count (Z.of_nat (length (items l)))); [lia|].
  rewrite (proj2 (Z.ltb_lt _ _)) by lia. done.
Qed.

Lemma pop_negative_panics_witness :
  LPop (mkList [str "a"]) (-1) = Err PanicMakeSlice.
Proof. exact (proj1 (pop_negative_panics (mkList [str "a"]) (-1) ltac:(done) ltac:(lia))). Defined.
