(* ===== verification/Stream.v ===== *)
(** * Streams and consumer groups (internal/datastruct/stream.go)

    Stream identifiers, the entry log with its range queries, consumer groups
    with their pending entry lists, and the channels blocked readers wait on.

    A [*PendingEntry] is shared by the pending list of its group and the one of
    its consumer, and [ReadGroup] updates it in place: pending entries live in a
    store [pes], and the lists hold locations.  Channels are locations too, with
    the flag that says whether they are closed.  The clock is an argument of the
    operations that read it. *)

From S2P Require Import Prelude.

Inductive stream_error :=
| ErrInvalidStreamID
| ErrGroupExists
| ErrGroupNotFound
| ErrFormat              (** "invalid stream id format" *)
| ErrNum (e : num_error) (** an error of strconv.ParseUint *).

#[global] Instance stream_error_eq_dec : EqDecision stream_error.
Proof. solve_decision. Defined.

Record StreamEntry := mkEntry {
  ID : bytes;
  Fields : gmap bytes bytes;
  Order : list bytes
}.

Record StreamID := mkID { Millis : Z; Seq : Z }.

#[global] Instance StreamID_eq_dec : EqDecision StreamID.
Proof. solve_decision. Defined.

(** [fmt.Sprintf("%d-%d", s.Millis, s.Seq)]. *)
Definition ID_String (s : StreamID) : bytes :=
  FormatUint (Millis s) ++ "-"%byte :: FormatUint (Seq s).

Definition ParseStreamID (id : bytes) : res stream_error StreamID :=
  match Split id "-"%byte with
  | [p] =>
      match ParseUint p with
      | Ok m => Ok (mkID m 0)
      | Err _ => Err ErrFormat
      end
  | [p; q] =>
      match ParseUint p with
      | Err e => Err (ErrNum e)
      | Ok m =>
          match ParseUint q with
          | Err e => Err (ErrNum e)
          | Ok seq => Ok (mkID m seq)
          end
      end
  | _ => Err ErrFormat
  end.

(** [strings.Compare]. *)
Definition Compare (s t : bytes) : Z :=
  match bytes_compare s t with Lt => -1 | Eq => 0 | Gt => 1 end.

Definition CompareStreamIDs (id1 id2 : bytes) : Z :=
  if decide (id1 = id2) then 0
  else if decide (id1 = str "-" \/ id2 = str "+") then -1
  else if decide (id1 = str "+" \/ id2 = str "-") then 1
  else
    match ParseStreamID id1, ParseStreamID id2 with
    | Ok sid1, Ok sid2 =>
        if Millis sid1 <? Millis sid2 then -1
        else if Millis sid1 >? Millis sid2 then 1
        else if Seq sid1 <? Seq sid2 then -1
        else if Seq sid1 >? Seq sid2 then 1
        else 0
    | _, _ => Compare id1 id2
    end.

Record PendingEntry := mkPE {
  peID : bytes;
  ConsumerName : bytes;
  DeliveryTime : Z;
  DeliveryCount : Z
}.

Record Consumer := mkConsumer {
  cName : bytes;
  SeenTime : Z;
  cPEL : gmap bytes positive
}.

Record ConsumerGroup := mkGroup {
  gName : bytes;
  LastDeliveredID : bytes;
  Consumers : gmap bytes Consumer;
  gPEL : gmap bytes positive
}.

Record Stream := mkStream {
  entries : list StreamEntry;
  lastID : StreamID;
  groups : gmap bytes ConsumerGroup;
  waiters : list positive;
  chans : gmap positive bool;        (** channels made, and whether closed *)
  pes : gmap positive PendingEntry   (** the store of pending entries *)
}.

Definition NewStream : Stream := mkStream [] (mkID 0 0) ∅ [] ∅ ∅.

Definition set_entries (s : Stream) es :=
  mkStream es (lastID s) (groups s) (waiters s) (chans s) (pes s).
Definition set_groups (s : Stream) gs :=
  mkStream (entries s) (lastID s) gs (waiters s) (chans s) (pes s).

(** ** The log *)

(** The identifier [Add] chooses, from the wall clock in milliseconds. *)
Definition choose_id (s : Stream) (now : Z) (idStr : bytes) : res stream_error StreamID :=
  let last := lastID s in
  if decide (idStr = str "*") then
    let nowMilli := uint64 now in
    if nowMilli >? Millis last then Ok (mkID nowMilli 0)
    else Ok (mkID (Millis last) (uint64 (Seq last + 1)))
  else if HasSuffix idStr (str "-*") then
    match ParseUint (TrimSuffix idStr (str "-*")) with
    | Err e => Err (ErrNum e)
    | Ok m =>
        if m <? Millis last then Err ErrInvalidStreamID
        else if m =? Millis last then Ok (mkID m (uint64 (Seq last + 1)))
        else Ok (mkID m 0)
    end
  else
    parsed ← ParseStreamID idStr;
    if (0 <? Z.of_nat (length (entries s))) &&
       ((Millis parsed <? Millis last) ||
        ((Millis parsed =? Millis last) && (Seq parsed <=? Seq last)))
    then Err ErrInvalidStreamID
    else Ok parsed.

(** [for _, w := range s.waiters { close(w) }]: closing a closed channel
    panics. *)
Fixpoint close_all (ws : list positive) (chs : gmap positive bool)
    : res panic (gmap positive bool) :=
  match ws with
  | [] => Ok chs
  | w :: ws' =>
      match chs !! w with
      | Some false => close_all ws' (<[w := true]> chs)
      | _ => Err PanicClose
      end
  end.

Definition Add (s : Stream) (now : Z) (idStr : bytes) (fields : gmap bytes bytes)
    (order : list bytes) : res panic (Stream * res stream_error bytes) :=
  match choose_id s now idStr with
  | Err e => Ok (s, Err e)
  | Ok sid =>
      let assignedID := ID_String sid in
      chs ← close_all (waiters s) (chans s);
      Ok (mkStream (entries s ++ [mkEntry assignedID fields order]) sid
            (groups s) [] chs (pes s),
          Ok assignedID)
  end.

Definition Len (s : Stream) : Z := Z.of_nat (length (entries s)).

Definition LastID (s : Stream) : bytes :=
  match entries s with [] => str "0-0" | _ => ID_String (lastID s) end.

Definition FirstID (s : Stream) : bytes :=
  match entries s with [] => str "0-0" | e :: _ => ID e end.

(** [start != "-" && start != "" && CompareStreamIDs(id, start) < 0]. *)
Definition before (start id : bytes) : bool :=
  negb (bool_decide (start = str "-")) && negb (bool_decide (start = str ""))
  && (CompareStreamIDs id start <? 0).

(** [end != "+" && end != "" && CompareStreamIDs(id, end) > 0]. *)
Definition after (end' id : bytes) : bool :=
  negb (bool_decide (end' = str "+")) && negb (bool_decide (end' = str ""))
  && (CompareStreamIDs id end' >? 0).

Definition full (count : Z) (results : list StreamEntry) : bool :=
  (0 <? count) && (count <=? Z.of_nat (length results)).

(** A query loop: skip, stop, or collect until [count] entries are found. *)
Fixpoint scan (skip stop : bytes -> bool) (count : Z) (es results : list StreamEntry)
    : list StreamEntry :=
  match es with
  | [] => results
  | e :: es' =>
      if skip (ID e) then scan skip stop count es' results
      else if stop (ID e) then results
      else
        let results := results ++ [e] in
        if full count results then results else scan skip stop count es' results
  end.

Definition Range (s : Stream) (start end' : bytes) (count : Z) : list StreamEntry :=
  scan (before start) (after end') count (entries s) [].

Definition RevRange (s : Stream) (end' start : bytes) (count : Z) : list StreamEntry :=
  scan (after end') (before start) count (reverse (entries s)) [].

Definition Read (s : Stream) (last : bytes) (count : Z) : list StreamEntry :=
  scan (fun id => negb (CompareStreamIDs id last >? 0)) (fun _ => false) count (entries s) [].

Fixpoint delete_loop (ids : gset bytes) (es newEntries : list StreamEntry) (removed : Z)
    : list StreamEntry * Z :=
  match es with
  | [] => (newEntries, removed)
  | e :: es' =>
      if decide (ID e ∈ ids) then delete_loop ids es' newEntries (int64 (removed + 1))
      else delete_loop ids es' (newEntries ++ [e]) removed
  end.

Definition Delete (s : Stream) (ids : list bytes) : Stream * Z :=
  let '(es, removed) := delete_loop (list_to_set ids) (entries s) [] 0 in
  (set_entries s es, removed).

Definition Trim (s : Stream) (maxlen : Z) : Stream * Z :=
  let curLen := Z.of_nat (length (entries s)) in
  if (curLen <=? maxlen) || (maxlen <? 0) then (s, 0)
  else
    let evicted := curLen - maxlen in
    (set_entries s (drop (Z.to_nat evicted) (entries s)), evicted).

(** ** Waiters *)

Definition RegisterWaiter (s : Stream) : Stream * positive :=
  let ch := fresh (dom (chans s)) in
  (mkStream (entries s) (lastID s) (groups s) (waiters s ++ [ch])
     (<[ch := false]> (chans s)) (pes s), ch).

Fixpoint remove_first (ch : positive) (ws : list positive) : list positive :=
  match ws with
  | [] => []
  | w :: ws' => if decide (w = ch) then ws' else w :: remove_first ch ws'
  end.

(** The closure [cancel] that [RegisterWaiter] returns for [ch]. *)
Definition cancel (s : Stream) (ch : positive) : Stream :=
  mkStream (entries s) (lastID s) (groups s) (remove_first ch (waiters s))
    (chans s) (pes s).

(** ** Consumer groups *)

(** The identifier ["$"] stands for: the last one of a stream with entries. *)
Definition resolve_id (s : Stream) (id : bytes) : bytes :=
  if decide (id = str "$") then
    if decide (0 < length (entries s))%nat then ID_String (lastID s) else str "0-0"
  else id.

Definition CreateGroup (s : Stream) (name startID : bytes) : Stream * res stream_error unit :=
  match groups s !! name with
  | Some _ => (s, Err ErrGroupExists)
  | None =>
      (set_groups s (<[name := mkGroup name (resolve_id s startID) ∅ ∅]> (groups s)), Ok ())
  end.

Definition DestroyGroup (s : Stream) (name : bytes) : Stream * bool :=
  match groups s !! name with
  | Some _ => (set_groups s (delete name (groups s)), true)
  | None => (s, false)
  end.

Definition SetGroupID (s : Stream) (name id : bytes) : Stream * res stream_error unit :=
  match groups s !! name with
  | None => (s, Err ErrGroupNotFound)
  | Some g =>
      (set_groups s (<[name := mkGroup (gName g) (resolve_id s id) (Consumers g) (gPEL g)]>
                       (groups s)), Ok ())
  end.

Definition DeleteConsumer (s : Stream) (groupName consumerName : bytes) : Stream * Z :=
  match groups s !! groupName with
  | None => (s, 0)
  | Some g =>
      match Consumers g !! consumerName with
      | None => (s, 0)
      | Some c =>
          let pel := foldl (fun m id => delete id m) (gPEL g) (map_to_list (cPEL c)).*1 in
          (set_groups s (<[groupName :=
             mkGroup (gName g) (LastDeliveredID g) (delete consumerName (Consumers g)) pel]>
             (groups s)),
           Z.of_nat (size (cPEL c)))
      end
  end.

Definition set_PEL (id : bytes) (l : positive) (c : Consumer) : Consumer :=
  mkConsumer (cName c) (SeenTime c) (<[id := l]> (cPEL c)).

Definition del_PEL (id : bytes) (c : Consumer) : Consumer :=
  mkConsumer (cName c) (SeenTime c) (delete id (cPEL c)).

(** The body of the [>] loop for an entry that is delivered: the group, the
    store of pending entries. *)
Definition deliver (consumerName : bytes) (now : Z) (noAck : bool) (e : StreamEntry)
    (g : ConsumerGroup) (pes : gmap positive PendingEntry)
    : ConsumerGroup * gmap positive PendingEntry :=
  if noAck then (mkGroup (gName g) (ID e) (Consumers g) (gPEL g), pes)
  else
    let l := fresh (dom pes) in
    (mkGroup (gName g) (ID e)
       (alter (set_PEL (ID e) l) consumerName (Consumers g))
       (<[ID e := l]> (gPEL g)),
     <[l := mkPE (ID e) consumerName now 1]> pes).

(** The loop over the entries when the requested identifier is [>]. *)
Fixpoint read_new (consumerName : bytes) (now count : Z) (noAck : bool)
    (es results : list StreamEntry) (g : ConsumerGroup) (pes : gmap positive PendingEntry)
    : list StreamEntry * ConsumerGroup * gmap positive PendingEntry :=
  match es with
  | [] => (results, g, pes)
  | e :: es' =>
      if CompareStreamIDs (ID e) (LastDeliveredID g) >? 0 then
        let results := results ++ [e] in
        let '(g, pes) := deliver consumerName now noAck e g pes in
        if full count results then (results, g, pes)
        else read_new consumerName now count noAck es' results g pes
      else read_new consumerName now count noAck es' results g pes
  end.

Definition redeliver (now : Z) (pe : PendingEntry) : PendingEntry :=
  mkPE (peID pe) (ConsumerName pe) now (int64 (DeliveryCount pe + 1)).

(** The loop over the consumer's sorted pending identifiers. *)
Fixpoint read_pending (now count : Z) (noAck : bool) (entryMap : gmap bytes StreamEntry)
    (pel : gmap bytes positive) (pids : list bytes) (results : list StreamEntry)
    (pes : gmap positive PendingEntry) : list StreamEntry * gmap positive PendingEntry :=
  match pids with
  | [] => (results, pes)
  | pid :: pids' =>
      match entryMap !! pid with
      | None => read_pending now count noAck entryMap pel pids' results pes
      | Some entry =>
          let results := results ++ [entry] in
          let pes :=
            if noAck then pes
            else match pel !! pid with
                 | Some l => alter (redeliver now) l pes
                 | None => pes
                 end in
          if full count results then (results, pes)
          else read_pending now count noAck entryMap pel pids' results pes
      end
  end.

Definition ReadGroup (s : Stream) (seen now : Z) (groupName consumerName id : bytes)
    (count : Z) (noAck : bool) : Stream * res stream_error (list StreamEntry) :=
  match groups s !! groupName with
  | None => (s, Err ErrGroupNotFound)
  | Some g =>
      let consumer :=
        match Consumers g !! consumerName with
        | Some c => mkConsumer (cName c) seen (cPEL c)
        | None => mkConsumer consumerName seen ∅
        end in
      let g := mkGroup (gName g) (LastDeliveredID g)
                 (<[consumerName := consumer]> (Consumers g)) (gPEL g) in
      let finish g pes :=
        mkStream (entries s) (lastID s) (<[groupName := g]> (groups s))
          (waiters s) (chans s) pes in
      if decide (id = str ">") then
        let '(results, g, pes) :=
          read_new consumerName now count noAck (entries s) [] g (pes s) in
        (finish g pes, Ok results)
      else
        let entryMap := foldl (fun m e => <[ID e := e]> m) ∅ (entries s) in
        let pendingIDs :=
          filter (fun pid => CompareStreamIDs pid id >= 0) (map_to_list (cPEL consumer)).*1 in
        let pendingIDs := sort_slice (fun a b => CompareStreamIDs a b <? 0) pendingIDs in
        let '(results, pes) :=
          read_pending now count noAck entryMap (cPEL consumer) pendingIDs [] (pes s) in
        (finish g pes, Ok results)
  end.

Fixpoint ack_loop (pes : gmap positive PendingEntry) (ids : list bytes) (g : ConsumerGroup)
    (acked : Z) : res panic (ConsumerGroup * Z) :=
  match ids with
  | [] => Ok (g, acked)
  | id :: ids' =>
      match gPEL g !! id with
      | None => ack_loop pes ids' g acked
      | Some l =>
          match pes !! l with
          | None => Err PanicNil
          | Some pe =>
              ack_loop pes ids'
                (mkGroup (gName g) (LastDeliveredID g)
                   (alter (del_PEL id) (ConsumerName pe) (Consumers g))
                   (delete id (gPEL g)))
                (int64 (acked + 1))
          end
      end
  end.

Definition Ack (s : Stream) (groupName : bytes) (ids : list bytes) : res panic (Stream * Z) :=
  match groups s !! groupName with
  | None => Ok (s, 0)
  | Some g =>
      '(g, acked) ← ack_loop (pes s) ids g 0;
      Ok (set_groups s (<[groupName := g]> (groups s)), acked)
  end.

(** The pending entries of a group with their identifiers, in iteration order. *)
Definition pending (s : Stream) (g : ConsumerGroup) : list (bytes * PendingEntry) :=
  omap (fun '(id, l) => pe ← pes s !! l; Some (id, pe)) (map_to_list (gPEL g)).

Definition summary_step (acc : bytes * bytes * gmap bytes Z) (p : bytes * PendingEntry)
    : bytes * bytes * gmap bytes Z :=
  let '(minID, maxID, counts) := acc in
  let '(id, pe) := p in
  (if decide (minID = str "" \/ CompareStreamIDs id minID < 0) then id else minID,
   if decide (maxID = str "" \/ CompareStreamIDs id maxID > 0) then id else maxID,
   <[ConsumerName pe := int64 (default 0 (counts !! ConsumerName pe) + 1)]> counts).

Definition GetPendingSummary (s : Stream) (groupName : bytes)
    : res stream_error (Z * bytes * bytes * gmap bytes Z) :=
  match groups s !! groupName with
  | None => Err ErrGroupNotFound
  | Some g =>
      let total := Z.of_nat (size (gPEL g)) in
      if total =? 0 then Ok (0, str "", str "", ∅)
      else
        let '(minID, maxID, counts) :=
          foldl summary_step (str "", str "", ∅) (pending s g) in
        Ok (total, minID, maxID, counts)
  end.

(** [time.Time.Sub] saturates at the limits of a 64-bit duration. *)
Definition time_Sub (t u : Z) : Z := Z.max (- 2 ^ 63) (Z.min (2 ^ 63 - 1) (t - u)).

Definition detail_skip (start end' consumerFilter : bytes) (minIdle now : Z)
    (pe : PendingEntry) : bool :=
  (negb (bool_decide (consumerFilter = str ""))
     && negb (bool_decide (ConsumerName pe = consumerFilter)))
  || before start (peID pe) || after end' (peID pe)
  || ((0 <? minIdle) && (time_Sub now (DeliveryTime pe) <? minIdle)).

Definition GetPendingDetailed (s : Stream) (now : Z) (groupName start end' : bytes)
    (count : Z) (consumerFilter : bytes) (minIdle : Z)
    : res stream_error (list PendingEntry) :=
  match groups s !! groupName with
  | None => Err ErrGroupNotFound
  | Some g =>
      let filtered :=
        filter (fun pe => detail_skip start end' consumerFilter minIdle now pe = false)
          (pending s g).*2 in
      let filtered :=
        sort_slice (fun a b => CompareStreamIDs (peID a) (peID b) <? 0) filtered in
      Ok (if (0 <? count) && (count <? Z.of_nat (length filtered))
          then take (Z.to_nat count) filtered else filtered)
  end.

(** The rows of XINFO GROUPS: name, consumers, pending, last-delivered-id. *)
Definition GetGroupsInfo (s : Stream) : list (bytes * Z * Z * bytes) :=
  (fun g => (gName g, Z.of_nat (size (Consumers g)), Z.of_nat (size (gPEL g)),
             LastDeliveredID g)) <$> (map_to_list (groups s)).*2.

(** The rows of XINFO CONSUMERS: name, pending, idle milliseconds. *)
Definition GetConsumersInfo (s : Stream) (now : Z) (groupName : bytes)
    : res stream_error (list (bytes * Z * Z)) :=
  match groups s !! groupName with
  | None => Err ErrGroupNotFound
  | Some g =>
      Ok ((fun c => (cName c, Z.of_nat (size (cPEL c)),
                     Z.quot (time_Sub now (SeenTime c)) 1000000))
            <$> (map_to_list (Consumers g)).*2)
  end.

(** ** Identifiers: text and order *)

Definition valid_id (a : StreamID) : Prop := is_uint64 (Millis a) /\ is_uint64 (Seq a).

Definition id_lt (a b : StreamID) : Prop :=
  Millis a < Millis b \/ (Millis a = Millis b /\ Seq a < Seq b).

Definition id_le (a b : StreamID) : Prop :=
  Millis a < Millis b \/ (Millis a = Millis b /\ Seq a <= Seq b).

Definition id_compare (a b : StreamID) : Z :=
  if Millis a <? Millis b then -1
  else if Millis a >? Millis b then 1
  else if Seq a <? Seq b then -1
  else if Seq a >? Seq b then 1
  else 0.

Ltac id_lia := unfold id_lt, id_le, valid_id, is_uint64 in *; lia.

Lemma id_compare_spec a b :
  (id_compare a b = -1 /\ id_lt a b) \/ (id_compare a b = 1 /\ id_lt b a) \/
  (id_compare a b = 0 /\ Millis a = Millis b /\ Seq a = Seq b).
Proof.
  unfold id_compare, id_lt. repeat case_match; lia.
Qed.

Lemma ParseStreamID_String a : valid_id a -> ParseStreamID (ID_String a) = Ok a.
Proof.
  intros [Hm Hs]. unfold ParseStreamID, ID_String.
  rewrite Split_app by (apply FormatUint_no_byte; [by destruct Hm|done]).
  rewrite Split_no_sep by (apply FormatUint_no_byte; [by destruct Hs|done]).
  rewrite !ParseUint_FormatUint by done. by destruct a.
Qed.

Lemma ParseStreamID_valid s a : ParseStreamID s = Ok a -> valid_id a.
Proof.
  unfold ParseStreamID. intros H.
  destruct (Split s _) as [|p [|q [|]]]; try done.
  - destruct (ParseUint p) eqn:E; [|done]. injection H as <-.
    apply ParseUint_range in E. split; cbn; [done|unfold is_uint64; lia].
  - destruct (ParseUint p) eqn:Ep; [|done]. destruct (ParseUint q) eqn:Eq; [|done].
    injection H as <-. by apply ParseUint_range in Ep, Eq.
Qed.

Lemma ID_String_inj a b :
  valid_id a -> valid_id b -> ID_String a = ID_String b -> a = b.
Proof.
  intros Ha Hb E. apply ParseStreamID_String in Ha, Hb. rewrite E in Ha. congruence.
Qed.

Lemma ID_String_not_special a :
  valid_id a -> ID_String a <> str "-" /\ ID_String a <> str "+".
Proof.
  intros Ha. apply ParseStreamID_String in Ha.
  split; intros E; rewrite E in Ha; vm_compute in Ha; discriminate.
Qed.

(** On identifiers in canonical form the comparison is the numeric order. *)
Lemma Compare_numeric a id b :
  valid_id a -> ParseStreamID id = Ok b ->
  CompareStreamIDs (ID_String a) id = id_compare a b.
Proof.
  intros Ha Hb. unfold CompareStreamIDs.
  destruct (ID_String_not_special a Ha) as [N1 N2].
  destruct (decide (ID_String a = id)) as [<-|].
  { rewrite ParseStreamID_String in Hb by done. injection Hb as <-.
    unfold id_compare. repeat case_match; lia. }
  assert (id <> str "-" /\ id <> str "+") as [M1 M2]
    by (split; intros ->; vm_compute in Hb; discriminate).
  rewrite decide_False by naive_solver. rewrite decide_False by naive_solver.
  by rewrite ParseStreamID_String, Hb.
Qed.

Lemma Compare_String a b :
  valid_id a -> valid_id b ->
  CompareStreamIDs (ID_String a) (ID_String b) = id_compare a b.
Proof. intros. apply Compare_numeric; [done|]. by apply ParseStreamID_String. Qed.

#[export] Hint Resolve ParseStreamID_String ParseStreamID_valid : vkv.

(** ** The invariant of a stream

    The entries carry the canonical text of strictly increasing identifiers,
    none above [lastID]; the registered waiters are distinct open channels. *)

Definition log_ids (s : Stream) (sids : list StreamID) : Prop :=
  ID <$> entries s = ID_String <$> sids /\
  Forall valid_id sids /\ StronglySorted id_lt sids /\
  Forall (fun a => id_le a (lastID s)) sids /\ valid_id (lastID s).

Definition waiters_wf (s : Stream) : Prop :=
  NoDup (waiters s) /\ Forall (fun w => chans s !! w = Some false) (waiters s).

Definition wf (s : Stream) : Prop := (exists sids, log_ids s sids) /\ waiters_wf s.

Lemma close_all_ok ws chs :
  NoDup ws -> Forall (fun w => chs !! w = Some false) ws ->
  exists chs', close_all ws chs = Ok chs' /\
    (forall w, w ∈ ws -> chs' !! w = Some true) /\
    (forall w, w ∉ ws -> chs' !! w = chs !! w).
Proof.
  revert chs; induction ws as [|w ws IH]; intros chs Hnd HF; cbn [close_all].
  { exists chs. split; [done|]. set_solver. }
  apply NoDup_cons in Hnd as [Hw Hnd]. apply Forall_cons in HF as [Hc HF].
  rewrite Hc. destruct (IH (<[w := true]> chs) Hnd) as (chs' & E & Hin & Hout).
  { rewrite Forall_forall in *. intros x Hx. rewrite lookup_insert_ne by set_solver. auto. }
  exists chs'. split; [done|]. split.
  - intros x [->|Hx]%elem_of_cons; [|auto]. rewrite Hout by done. apply lookup_insert_eq.
  - intros x Hx. rewrite Hout by set_solver. rewrite lookup_insert_ne by set_solver. done.
Qed.

Lemma choose_id_valid s now idStr sid :
  valid_id (lastID s) -> choose_id s now idStr = Ok sid -> valid_id sid.
Proof.
  intros Hl. unfold choose_id. case_decide.
  { case_match; intros [= <-]; split; cbn; try apply Hl; try apply uint64_range;
      unfold is_uint64; lia. }
  case_match.
  { destruct (ParseUint _) as [m|] eqn:E; [|done]. apply ParseUint_range in E.
    repeat case_match; intros [= <-]; split; cbn; try done; try apply uint64_range;
      unfold is_uint64; lia. }
  destruct (ParseStreamID idStr) eqn:E; cbn; [|done]. case_match; [done|].
  intros [= <-]. eauto with vkv.
Qed.

(** The new identifier is above the last one, short of the end of the range. *)
Lemma choose_id_lt s now idStr sid :
  valid_id (lastID s) -> Seq (lastID s) < maxUint64 -> entries s <> [] ->
  choose_id s now idStr = Ok sid -> id_lt (lastID s) sid.
Proof.
  intros [_ Hs] Hmax Hne. unfold choose_id.
  assert (uint64 (Seq (lastID s) + 1) = Seq (lastID s) + 1) as Hu
    by (apply uint64_id; unfold is_uint64, maxUint64 in *; lia).
  case_decide.
  { case_match eqn:Hg; intros [= <-]; unfold id_lt; cbn [Millis Seq]; lia. }
  case_match.
  { destruct (ParseUint _) as [m|] eqn:E; [|done].
    repeat case_match; intros [= <-]; unfold id_lt; cbn [Millis Seq]; lia. }
  destruct (ParseStreamID idStr) as [p|] eqn:E; cbn; [|done].
  case_match eqn:Hc; [done|]. intros [= <-]. unfold id_lt.
  assert (0 < Z.of_nat (length (entries s))) by (destruct (entries s); [done|cbn; lia]). lia.
Qed.

(** Appending an identifier above [lastID] keeps the log ordered. *)
Lemma log_ids_snoc s sids sid e gs ws chs ps :
  log_ids s sids -> valid_id sid -> (entries s <> [] -> id_lt (lastID s) sid) ->
  ID e = ID_String sid ->
  log_ids (mkStream (entries s ++ [e]) sid gs ws chs ps) (sids ++ [sid]).
Proof.
  intros (E & Hv & Hs & Hle & Hl) Hsid Hlt He. unfold log_ids; cbn.
  assert (Forall (fun a => id_lt a sid) sids) as Hall.
  { destruct (entries s) as [|e0 es] eqn:Ee.
    { destruct sids; [constructor|discriminate]. }
    specialize (Hlt ltac:(done)). eapply list.Forall_impl; [exact Hle|].
    intros a Ha. cbn in Ha. id_lia. }
  split; [rewrite !fmap_app, E; cbn; by rewrite He|].
  split; [apply Forall_app; split; [done|by constructor]|].
  split; [by apply StronglySorted_snoc|]. split; [|done].
  apply Forall_app. split; [|constructor; [id_lia|constructor]].
  eapply list.Forall_impl; [exact Hall|]. intros a Ha. cbn in Ha |- *. id_lia.
Qed.

(** [Add] on a well-formed stream: no panic; an error leaves the stream as it
    was, a success appends an entry above all others and wakes every waiter. *)
Lemma Add_spec s sids now idStr fields order :
  log_ids s sids -> waiters_wf s ->
  match choose_id s now idStr with
  | Err e => Add s now idStr fields order = Ok (s, Err e)
  | Ok sid => valid_id sid /\ exists chs,
      Add s now idStr fields order =
        Ok (mkStream (entries s ++ [mkEntry (ID_String sid) fields order]) sid
              (groups s) [] chs (pes s), Ok (ID_String sid)) /\
      (forall w, w ∈ waiters s -> chs !! w = Some true)
  end.
Proof.
  intros HL [Hnd Hop]. unfold Add. destruct (choose_id s now idStr) as [sid|e] eqn:E; [|done].
  split; [eapply choose_id_valid; [apply HL|done]|].
  destruct (close_all_ok _ _ Hnd Hop) as (chs & -> & Hin & _). cbn. eauto.
Qed.

(** XADD on a well-formed stream never panics and keeps it well formed.  A
    refused identifier changes nothing.  An accepted one is assigned an
    identifier that compares strictly above every entry of the stream, becomes
    the last identifier, and is found by a read from any older entry; every
    reader that was blocked on the stream is woken. *)
Theorem Add_monotone s now idStr fields order :
  wf s -> Seq (lastID s) < maxUint64 ->
  exists s' r, Add s now idStr fields order = Ok (s', r) /\ wf s' /\
    match r with
    | Err _ => s' = s
    | Ok id =>
        entries s' = entries s ++ [mkEntry id fields order] /\
        LastID s' = id /\
        Forall (fun e => CompareStreamIDs (ID e) id = -1 /\ CompareStreamIDs id (ID e) = 1)
          (entries s) /\
        waiters s' = [] /\ (forall w, w ∈ waiters s -> chans s' !! w = Some true)
    end.
Proof.
  intros [[sids HL] HW] Hmax.
  pose proof (Add_spec s sids now idStr fields order HL HW) as HA.
  destruct (choose_id s now idStr) as [sid|e] eqn:E; [|by exists s, (Err e); repeat split; eauto; apply HW].
  destruct HA as (Hv & chs & -> & Hwake). do 2 eexists. split; [done|].
  assert (entries s <> [] -> id_lt (lastID s) sid) as Hlt
    by (intros; eapply choose_id_lt; eauto; apply HL).
  split.
  { split; [|split; constructor]. eexists. by eapply log_ids_snoc. }
  split; [done|]. split; [unfold LastID; cbn; by destruct (entries s)|].
  split; [|done]. destruct HL as (E' & Hval & _ & Hle & _).
  destruct (entries s) as [|e0 es] eqn:Ee; [constructor|]. rewrite <- Ee in *.
  specialize (Hlt ltac:(by rewrite Ee)).
  apply Forall_forall. intros e He.
  apply (list_elem_of_fmap_2 ID) in He. rewrite E' in He.
  apply list_elem_of_fmap in He as (a & Ha & Hin).
  rewrite Forall_forall in Hval, Hle. specialize (Hval _ Hin). specialize (Hle _ Hin). cbn in Hle.
  rewrite Ha, !Compare_String by done.
  assert (id_lt a sid) by id_lia.
  destruct (id_compare_spec a sid) as [[-> ?]|[[-> ?]|[-> ?]]],
    (id_compare_spec sid a) as [[-> ?]|[[-> ?]|[-> ?]]]; try done; id_lia.
Qed.

Definition stream_5_1 : Stream :=
  mkStream [mkEntry (str "5-1") ∅ []] (mkID 5 1) ∅ [] ∅ ∅.

Lemma Add_monotone_witness :
  exists s' r, Add stream_5_1 0 (str "5-*") ∅ [] = Ok (s', r) /\ wf s'.
Proof.
  destruct (Add_monotone stream_5_1 0 (str "5-*") ∅ []) as (s' & r & H1 & H2 & _).
  - split; [exists [mkID 5 1]|split; constructor].
    split; [reflexivity|]. split; [repeat constructor; cbn; lia|].
    split; [repeat constructor|]. split; [|repeat constructor; cbn; lia].
    constructor; [|constructor]. right. cbn. lia.
  - reflexivity.
  - by exists s', r.
Defined.

(** At the end of the sequence range the order is lost: after an entry
    numbered [5-18446744073709551615], an automatically numbered XADD in the
    same millisecond wraps around to sequence 0, below the entry it follows. *)
Theorem Add_sequence_wraps :
  exists s1 s2 id,
    Add NewStream 0 (str "5-18446744073709551615") ∅ [] = Ok (s1, Ok (str "5-18446744073709551615")) /\
    Add s1 0 (str "5-*") ∅ [] = Ok (s2, Ok id) /\
    CompareStreamIDs id (str "5-18446744073709551615") = -1.
Proof. do 3 eexists. split; [vm_compute; reflexivity|]. split; [vm_compute; reflexivity|]. vm_compute. reflexivity. Qed.

(** ** Range queries *)

(** The first [count] elements when [count] is positive, all otherwise. *)
Definition limit {A} (count : Z) (l : list A) : list A :=
  if 0 <? count then take (Z.to_nat count) l else l.

Lemma scan_filter skip stop count es results :
  StronglySorted (fun x y => stop (ID x) = true -> stop (ID y) = true) es ->
  full count results = false ->
  scan skip stop count es results =
    limit count (results ++ filter (fun e => skip (ID e) = false /\ stop (ID e) = false) es).
Proof.
  intros Hs; revert results; induction Hs as [|e es Hs IH He]; intros results Hf; cbn [scan].
  - rewrite filter_nil, app_nil_r. unfold limit, full in *. case_test; [|done].
    rewrite take_ge; [done|]. lia.
  - rewrite filter_cons. destruct (skip (ID e)) eqn:Hsk.
    { rewrite decide_False by naive_solver. by apply IH. }
    destruct (stop (ID e)) eqn:Hst.
    { rewrite decide_False by naive_solver.
      rewrite filter_none, app_nil_r.
      { unfold limit, full in *. case_test; [|done]. rewrite take_ge; [done|]. lia. }
      rewrite Forall_forall in *. intros x Hx [_ Hn]. rewrite He in Hn; done. }
    rewrite decide_True by done. destruct (full count (results ++ [e])) eqn:Hf'.
    + unfold limit, full in *. apply andb_prop in Hf' as [H0 Hc].
      rewrite H0. rewrite length_app in Hc. cbn [length] in Hc.
      rewrite (cons_middle e results (filter _ es)), app_assoc.
      symmetry. apply take_app_length'. rewrite length_app. cbn [length].
      rewrite H0 in Hf. apply Z.leb_gt in Hf. apply Z.leb_le in Hc. lia.
    + rewrite IH by done. by rewrite <- app_assoc.
Qed.

Lemma full_nil count : full count [] = false.
Proof.
  unfold full. change (Z.of_nat (length [])) with 0.
  destruct (Z.ltb_spec 0 count), (Z.leb_spec count 0); (done || lia).
Qed.

(** A bound of a range query: open, or an identifier. *)
Definition bound (b : bytes) : Prop :=
  b = str "-" \/ b = str "+" \/ b = str "" \/ exists a, ParseStreamID b = Ok a.

Lemma Compare_bound a b x :
  valid_id a -> valid_id b -> id_lt a b -> bound x ->
  (CompareStreamIDs (ID_String a) x > 0 -> CompareStreamIDs (ID_String b) x > 0) /\
  (CompareStreamIDs (ID_String b) x < 0 -> CompareStreamIDs (ID_String a) x < 0).
Proof.
  intros Ha Hb Hlt Hx.
  assert (forall c y, valid_id c -> y <> ID_String c ->
    CompareStreamIDs (ID_String c) y =
      if decide (y = str "+") then -1 else if decide (y = str "-") then 1
      else match ParseStreamID y with
           | Ok b => id_compare c b | Err _ => Compare (ID_String c) y end) as HC.
  { intros c y Hc Hy. unfold CompareStreamIDs. rewrite decide_False by done.
    destruct (ID_String_not_special c Hc) as [N1 N2].
    rewrite ParseStreamID_String by done.
    repeat case_decide; naive_solver. }
  destruct Hx as [->|[->|[->|[d Hd]]]].
  - destruct (ID_String_not_special a Ha), (ID_String_not_special b Hb).
    rewrite !HC by done. vm_compute (decide (str "-" = _)). split; intros; lia.
  - destruct (ID_String_not_special a Ha), (ID_String_not_special b Hb).
    rewrite !HC by done. vm_compute (decide (str "+" = _)). split; intros; lia.
  - assert (forall c, valid_id c -> CompareStreamIDs (ID_String c) (str "") = 1) as HE.
    { intros c Hc. assert (ID_String c <> str "") as Hne
        by (unfold ID_String; by destruct (FormatUint (Millis c))).
      rewrite HC by done. change (ParseStreamID (str "")) with (Err (A:=StreamID) ErrFormat).
      rewrite !decide_False by done. unfold Compare.
      destruct (ID_String c); [done|]. reflexivity. }
    rewrite !HE by done. split; intros; lia.
  - rewrite !(Compare_numeric _ _ d) by done.
    destruct (id_compare_spec a d) as [[-> ?]|[[-> ?]|[-> ?]]],
      (id_compare_spec b d) as [[-> ?]|[[-> ?]|[-> ?]]]; split; intros; try lia; id_lia.
Qed.

(** A relation that the identifiers of the log satisfy pairwise holds of its
    entries pairwise. *)
Lemma log_sorted s sids (R : StreamEntry -> StreamEntry -> Prop) :
  log_ids s sids ->
  (forall x y a b, valid_id a -> valid_id b -> id_lt a b ->
     ID x = ID_String a -> ID y = ID_String b -> R x y) ->
  StronglySorted R (entries s).
Proof.
  intros (E & Hv & Hs & _) HR. revert sids E Hv Hs.
  induction (entries s) as [|e es IH]; intros [|a sids] E Hv Hs; try done; [constructor|].
  rewrite !fmap_cons in E. injection E as E1 E2. apply Forall_cons in Hv as [Ha Hv].
  apply StronglySorted_inv in Hs as [Hs Hall]. constructor; [by eapply IH|].
  apply Forall_forall. intros y Hy. apply (list_elem_of_fmap_2 ID) in Hy.
  rewrite E2 in Hy. apply list_elem_of_fmap in Hy as (b & Hb & Hin).
  rewrite Forall_forall in Hv, Hall. apply (HR e y a b); auto.
Qed.

Lemma after_mono x a b :
  valid_id a -> valid_id b -> id_lt a b -> bound x ->
  after x (ID_String a) = true -> after x (ID_String b) = true.
Proof.
  intros Ha Hb Hlt Hx. unfold after. rewrite !andb_true_iff. intros [H1 H2].
  split; [done|]. pose proof (Compare_bound a b x Ha Hb Hlt Hx). lia.
Qed.

Lemma before_mono x a b :
  valid_id a -> valid_id b -> id_lt a b -> bound x ->
  before x (ID_String b) = true -> before x (ID_String a) = true.
Proof.
  intros Ha Hb Hlt Hx. unfold before. rewrite !andb_true_iff. intros [H1 H2].
  split; [done|]. pose proof (Compare_bound a b x Ha Hb Hlt Hx). lia.
Qed.

(** The entries within two bounds, the definition of a range query. *)
Definition in_range (start end' : bytes) (e : StreamEntry) : Prop :=
  before start (ID e) = false /\ after end' (ID e) = false.

#[global] Instance in_range_dec start end' e : Decision (in_range start end' e).
Proof. unfold in_range. apply _. Defined.

Lemma Range_filter s start end' count : wf s -> bound start -> bound end' ->
  Range s start end' count = limit count (filter (in_range start end') (entries s)).
Proof.
  intros [[sids HL] _] Hs He. unfold Range. rewrite scan_filter; [done| |apply full_nil].
  eapply log_sorted; [done|]. intros x y a b Ha Hb Hlt -> ->. by apply after_mono.
Qed.

(** XRANGE and XREVRANGE stop at the first entry beyond the far bound, and
    still return every entry in range: on a well-formed stream the result is
    the first [count] (all, when [count] is not positive) of the entries within
    the bounds, in order and in reverse order. *)
Theorem Range_complete s start end' count :
  wf s -> bound start -> bound end' ->
  Range s start end' count =
    limit count (filter (in_range start end') (entries s)) /\
  RevRange s end' start count =
    limit count (reverse (filter (in_range start end') (entries s))).
Proof.
  intros Hwf Hs He. split; [by apply Range_filter|]. destruct Hwf as [[sids HL] _].
  unfold RevRange. rewrite scan_filter; [|by apply (StronglySorted_reverse
      (fun x y => before start (ID y) = true -> before start (ID x) = true));
      eapply log_sorted; [done|]; intros x y a b Ha Hb Hlt -> ->; by apply before_mono|apply full_nil].
  cbn [app]. rewrite filter_reverse. do 2 f_equal. apply list_filter_iff.
  unfold in_range. naive_solver.
Qed.

Lemma Range_complete_witness :
  Range stream_5_1 (str "-") (str "5") 10 = limit 10 (filter (in_range (str "-") (str "5")) (entries stream_5_1)).
Proof.
  refine (proj1 (Range_complete stream_5_1 (str "-") (str "5") 10 _ _ _)).
  - split; [exists [mkID 5 1]|split; constructor].
    split; [reflexivity|]. split; [repeat constructor; cbn; lia|].
    split; [repeat constructor|]. split; [|repeat constructor; cbn; lia].
    constructor; [|constructor]. right. cbn. lia.
  - by left.
  - right. right. right. by exists (mkID 5 0).
Defined.

(** ** Every operation of a stream, as one step

    [exec] runs an operation; the list is what a read returned. *)

Inductive op :=
| OAdd (now : Z) (id : bytes) (fields : gmap bytes bytes) (order : list bytes)
| ODelete (ids : list bytes)
| OTrim (maxlen : Z)
| ORegister
| OCancel (ch : positive)
| OCreate (name start : bytes)
| ODestroy (name : bytes)
| OSetID (name id : bytes)
| ODelConsumer (group consumer : bytes)
| ORead (seen now : Z) (group consumer id : bytes) (count : Z) (noAck : bool)
| OAck (group : bytes) (ids : list bytes).

Definition exec (s : Stream) (o : op) : res panic (Stream * list StreamEntry) :=
  match o with
  | OAdd now id fields order => '(s', _) ← Add s now id fields order; Ok (s', [])
  | ODelete ids => Ok (fst (Delete s ids), [])
  | OTrim n => Ok (fst (Trim s n), [])
  | ORegister => Ok (fst (RegisterWaiter s), [])
  | OCancel ch => Ok (cancel s ch, [])
  | OCreate name start => Ok (fst (CreateGroup s name start), [])
  | ODestroy name => Ok (fst (DestroyGroup s name), [])
  | OSetID name id => Ok (fst (SetGroupID s name id), [])
  | ODelConsumer g c => Ok (fst (DeleteConsumer s g c), [])
  | ORead seen now g c id count noAck =>
      match ReadGroup s seen now g c id count noAck with
      | (s', Ok rs) => Ok (s', rs)
      | (s', Err _) => Ok (s', [])
      end
  | OAck g ids => '(s', _) ← Ack s g ids; Ok (s', [])
  end.

(** ** Keeping the log well formed *)

Lemma delete_loop_filter ids es acc n :
  0 <= n -> n + Z.of_nat (length es) < 2 ^ 63 ->
  delete_loop ids es acc n =
    (acc ++ filter (fun e => ID e ∉ ids) es,
     n + Z.of_nat (length (filter (fun e => ID e ∈ ids) es))).
Proof.
  revert acc n; induction es as [|e es IH]; intros acc n Hn Hl; cbn [delete_loop].
  { rewrite !filter_nil, app_nil_r. cbn. f_equal. lia. }
  rewrite !filter_cons. cbn [length] in Hl. case_decide.
  - rewrite decide_False by naive_solver. rewrite int64_id by (unfold is_int64; lia).
    rewrite IH by lia. cbn [length]. f_equal. lia.
  - rewrite decide_True by done. rewrite IH by lia. by rewrite <- app_assoc.
Qed.

Lemma delete_loop_entries ids es acc n :
  fst (delete_loop ids es acc n) = acc ++ filter (fun e => ID e ∉ ids) es.
Proof.
  revert acc n; induction es as [|e es IH]; intros acc n; cbn [delete_loop].
  { by rewrite filter_nil, app_nil_r. }
  rewrite !filter_cons. case_decide.
  - rewrite decide_False by naive_solver. apply IH.
  - rewrite decide_True by done. rewrite IH. by rewrite <- app_assoc.
Qed.

Lemma log_ids_filter s sids (P : bytes -> Prop) `{!forall x, Decision (P x)} :
  log_ids s sids ->
  log_ids (set_entries s (filter (fun e => P (ID e)) (entries s)))
          (filter (fun a => P (ID_String a)) sids).
Proof.
  intros (E & Hv & Hs & Hle & Hl). unfold log_ids. cbn [entries lastID set_entries].
  rewrite <- (filter_fmap ID P), <- (filter_fmap ID_String P), E.
  repeat split; try done; try (by apply StronglySorted_filter);
    try (by apply Hl); apply Forall_forall; intros a [_ Ha]%list_elem_of_filter;
    rewrite Forall_forall in Hv, Hle; auto.
Qed.

Lemma log_ids_drop s sids n :
  log_ids s sids -> log_ids (set_entries s (drop n (entries s))) (drop n sids).
Proof.
  intros (E & Hv & Hs & Hle & Hl). unfold log_ids. cbn [entries lastID set_entries].
  rewrite !fmap_drop, E. repeat split; try (by apply Hl); try by apply Forall_drop.
  by apply StronglySorted_drop.
Qed.

Lemma log_ids_eq s s' sids :
  entries s' = entries s -> lastID s' = lastID s -> log_ids s sids -> log_ids s' sids.
Proof. unfold log_ids. by intros -> ->. Qed.

Lemma Delete_entries s ids :
  fst (Delete s ids) = set_entries s (filter (fun e => ID e ∉ (list_to_set ids : gset bytes)) (entries s)).
Proof.
  unfold Delete. pose proof (delete_loop_entries (list_to_set ids) (entries s) [] 0) as H.
  destruct (delete_loop _ _ _ _) as [es n]. cbn in H |- *. by rewrite H.
Qed.

(** The operations that leave the log alone. *)
Lemma ReadGroup_log s seen now g c id count noAck :
  let s' := fst (ReadGroup s seen now g c id count noAck) in
  entries s' = entries s /\ lastID s' = lastID s /\ waiters s' = waiters s /\ chans s' = chans s.
Proof.
  unfold ReadGroup. destruct (groups s !! g); [|done]. case_decide.
  - by destruct (read_new _ _ _ _ _ _ _ _) as [[??]?].
  - by destruct (read_pending _ _ _ _ _ _ _ _) as [??].
Qed.

(** ** Delivery to a group *)

(** [e] carries the identifier [a]. *)
Definition carries (e : StreamEntry) (a : StreamID) : Prop := valid_id a /\ ID e = ID_String a.

Lemma carries_inj e a b : carries e a -> carries e b -> a = b.
Proof. intros [Ha E1] [Hb E2]. apply ID_String_inj; congruence. Qed.

Lemma log_ids_carries s sids :
  log_ids s sids -> Forall2 carries (entries s) sids /\ StronglySorted id_lt sids.
Proof.
  intros (E & Hv & Hs & _). split; [|done]. clear Hs. revert sids E Hv.
  induction (entries s) as [|e es IH]; intros [|a sids] E Hv; try done.
  rewrite !fmap_cons in E. injection E as E1 E2. apply Forall_cons in Hv as [Ha Hv].
  constructor; [done|]. by apply IH.
Qed.

Lemma deliver_LastDeliveredID c now noAck e g ps :
  LastDeliveredID (fst (deliver c now noAck e g ps)) = ID e.
Proof. unfold deliver. by case_match. Qed.

(** What one pass of the [>] loop delivers, in terms of the identifiers: the
    entries after the last delivered one, up to the new last delivered one. *)
Definition delivers (d d' : StreamID) (es new : list StreamEntry) : Prop :=
  id_le d d' /\ valid_id d' /\
  Forall (fun e => e ∈ es /\ exists a, carries e a /\ id_lt d a /\ id_le a d') new /\
  StronglySorted (fun x y => forall a b, carries x a -> carries y b -> id_lt a b) new /\
  (forall e a, e ∈ es -> carries e a -> id_lt d a -> id_le a d' -> e ∈ new) /\
  (d' = d \/ exists e, e ∈ es /\ carries e d').

Lemma delivers_none d es : valid_id d -> delivers d d es [].
Proof.
  intros Hd. split; [id_lia|]. split; [done|]. split; [constructor|]. split; [constructor|].
  split; [|by left]. intros e a _ _ H1 H2. id_lia.
Qed.

Lemma delivers_skip d d' e a es new :
  carries e a -> ~ id_lt d a -> delivers d d' es new -> delivers d d' (e :: es) new.
Proof.
  intros Hc Hn (H1 & H2 & H3 & H4 & H5 & H6).
  split; [done|]. split; [done|]. split; [|split; [done|split]].
  - eapply list.Forall_impl; [exact H3|]. intros x [Hx ?]. split; [set_solver|done].
  - intros x b [->|Hx]%elem_of_cons Hb; [|eauto].
    rewrite (carries_inj _ _ _ Hb Hc). done.
  - destruct H6 as [->|(x & Hx & ?)]; [by left|]. right. exists x. set_solver.
Qed.

Lemma carries_above es bs a x b :
  Forall2 carries es bs -> Forall (id_lt a) bs -> x ∈ es -> carries x b -> id_lt a b.
Proof.
  intros HF Hall [i Hi]%list_elem_of_lookup Hb.
  destruct (Forall2_lookup_l _ _ _ _ _ HF Hi) as (b' & Hb' & Hc').
  rewrite (carries_inj _ _ _ Hb Hc') in *.
  rewrite Forall_forall in Hall. exact (Hall b' (list_elem_of_lookup_2 _ _ _ Hb')).
Qed.

Lemma delivers_last d e a es bs :
  carries e a -> id_lt d a -> Forall2 carries es bs -> Forall (id_lt a) bs ->
  delivers d a (e :: es) [e].
Proof.
  intros Hc Hlt HF Hall. split; [id_lia|]. split; [apply Hc|].
  split; [constructor; [|constructor]; split; [set_solver|]; exists a; repeat split; try apply Hc; id_lia|].
  split; [repeat constructor|]. split; [|right; exists e; split; [set_solver|done]].
  intros x b [->|Hx]%elem_of_cons Hb H1 H2; [set_solver|].
  pose proof (carries_above _ _ _ _ _ HF Hall Hx Hb). id_lia.
Qed.

Lemma delivers_cons d d' e a es bs new :
  carries e a -> id_lt d a -> Forall2 carries es bs -> Forall (id_lt a) bs ->
  delivers a d' es new -> delivers d d' (e :: es) (e :: new).
Proof.
  intros Hc Hlt HF Hall (H1 & H2 & H3 & H4 & H5 & H6).
  split; [id_lia|]. split; [done|]. split; [|split; [|split]].
  - constructor; [split; [set_solver|]; exists a; repeat split; try apply Hc; id_lia|].
    eapply list.Forall_impl; [exact H3|].
    intros x [Hx (b & ? & ? & ?)]. split; [set_solver|]. exists b. split; [done|]. split; [id_lia|done].
  - constructor; [done|]. rewrite Forall_forall in *. intros x Hx b b' Hb Hb'.
    rewrite (carries_inj _ _ _ Hb Hc). destruct (H3 x Hx) as [_ (b'' & Hb'' & ? & _)].
    by rewrite (carries_inj _ _ _ Hb' Hb'').
  - intros x b [->|Hx]%elem_of_cons Hb L1 L2; [set_solver|].
    apply elem_of_cons. right. apply (H5 x b); try done. by eapply carries_above.
  - right. destruct H6 as [->|(x & Hx & ?)]; [exists e|exists x]; set_solver.
Qed.

(** The loop delivers; [full] cuts it short after an entry. *)
Lemma read_new_delivers c now count noAck es bs results g ps d :
  Forall2 carries es bs -> StronglySorted id_lt bs ->
  ParseStreamID (LastDeliveredID g) = Ok d ->
  exists new d' g' ps',
    read_new c now count noAck es results g ps = (results ++ new, g', ps') /\
    ParseStreamID (LastDeliveredID g') = Ok d' /\ delivers d d' es new.
Proof.
  intros HF; revert results g ps d.
  induction HF as [|e a es bs Hc HF IH]; intros results g ps d Hs Hd; cbn [read_new].
  { exists [], d, g, ps. rewrite app_nil_r. split; [done|]. split; [done|].
    apply delivers_none. eauto with vkv. }
  apply StronglySorted_inv in Hs as [Hs Hall].
  destruct Hc as [Ha He]. rewrite He, (Compare_numeric a _ d) by done.
  pose proof (deliver_LastDeliveredID c now noAck e g ps) as HL.
  destruct (deliver c now noAck e g ps) as [g1 ps1]. cbn in HL.
  assert (ParseStreamID (LastDeliveredID g1) = Ok a) as Ha1
    by (rewrite HL, He; by apply ParseStreamID_String).
  destruct (Z.gtb_spec (id_compare a d) 0) as [Hg|Hg].
  - assert (id_lt d a) as Hlt by (destruct (id_compare_spec a d) as [[? ?]|[[? ?]|[? ?]]]; id_lia).
    destruct (full count (results ++ [e])).
    + exists [e], a, g1, ps1. split; [done|]. split; [done|]. by eapply delivers_last.
    + destruct (IH (results ++ [e]) g1 ps1 a Hs Ha1) as (new & d' & g' & ps' & -> & ? & ?).
      exists (e :: new), d', g', ps'. rewrite <- app_assoc. split; [done|]. split; [done|].
      by eapply delivers_cons.
  - assert (~ id_lt d a) as Hlt by (destruct (id_compare_spec a d) as [[? ?]|[[? ?]|[? ?]]]; id_lia).
    destruct (IH results g ps d Hs Hd) as (new & d' & g' & ps' & -> & ? & ?).
    exists new, d', g', ps'. split; [done|]. split; [done|]. by eapply delivers_skip.
Qed.

(** ** Preservation of the stream invariant by every operation *)

Lemma wf_log s s' :
  entries s' = entries s -> lastID s' = lastID s -> waiters s' = waiters s ->
  chans s' = chans s -> wf s -> wf s'.
Proof.
  intros E1 E2 E3 E4 [[sids HL] HW]. split; [exists sids; by eapply log_ids_eq|].
  unfold waiters_wf. by rewrite E3, E4.
Qed.

Lemma RegisterWaiter_waiters s : waiters_wf s -> waiters_wf (fst (RegisterWaiter s)).
Proof.
  intros [Hnd Hop]. unfold RegisterWaiter. cbn [fst]. unfold waiters_wf; cbn [waiters chans].
  set (ch := fresh (dom (chans s))).
  assert (chans s !! ch = None) as Hn by (apply not_elem_of_dom, is_fresh).
  assert (ch ∉ waiters s) as Hw.
  { rewrite Forall_forall in Hop. intros Hin. specialize (Hop _ Hin). cbn in Hop. congruence. }
  split.
  - apply NoDup_app. split; [done|]. split; [set_solver|]. apply NoDup_singleton.
  - apply Forall_app. split; [|constructor; [apply lookup_insert_eq|constructor]].
    rewrite Forall_forall in *. intros w Hin.
    rewrite lookup_insert_ne by set_solver. auto.
Qed.

Lemma RegisterWaiter_wf s : wf s -> wf (fst (RegisterWaiter s)).
Proof. intros [[sids HL] HW]. split; [exists sids; by eapply log_ids_eq|by apply RegisterWaiter_waiters]. Qed.

Lemma remove_first_sublist ch ws : sublist (remove_first ch ws) ws.
Proof. induction ws as [|w ws IH]; cbn; [done|]. case_decide; by constructor. Qed.

Lemma cancel_waiters s ch : waiters_wf s -> waiters_wf (cancel s ch).
Proof.
  intros [Hnd Hop]. unfold waiters_wf, cancel; cbn [waiters chans].
  pose proof (remove_first_sublist ch (waiters s)) as Hsub. split.
  - by eapply sublist_NoDup.
  - rewrite Forall_forall in *. intros w Hw. apply Hop.
    eapply elem_of_submseteq; [exact Hw|]. by apply sublist_submseteq.
Qed.

Lemma cancel_wf s ch : wf s -> wf (cancel s ch).
Proof. intros [[sids HL] HW]. split; [exists sids; by eapply log_ids_eq|by apply cancel_waiters]. Qed.

(** An identifier accepted into a stream with entries is above the last one. *)
Definition increasing (s : Stream) (o : op) : Prop :=
  match o with
  | OAdd now id _ _ => forall sid, choose_id s now id = Ok sid -> entries s <> [] -> id_lt (lastID s) sid
  | _ => True
  end.

Lemma exec_wf s o s' rs :
  wf s -> increasing s o ->
  exec s o = Ok (s', rs) -> wf s'.
Proof.
  intros Hwf Hmax. destruct o; cbn [exec].
  - destruct Hwf as [[sids HL] HW].
    pose proof (Add_spec s sids now id fields order HL HW) as HA.
    destruct (choose_id s now id) as [sid|e] eqn:E; [|rewrite HA; intros [= <- <-]; split; eauto].
    destruct HA as (Hv & chs & -> & Hwake). cbn. intros [= <- <-].
    split; [|split; constructor]. eexists. eapply log_ids_snoc; [done..| |done].
    by apply Hmax.
  - intros [= <- <-]. rewrite Delete_entries. destruct Hwf as [[sids HL] HW].
    split; [|done]. generalize (list_to_set (C:=gset bytes) ids). intros X. eexists.
    pose proof (log_ids_filter s sids (fun id => id ∉ X) HL) as HF. exact HF.
  - intros [= <- <-]. unfold Trim. case_match; [done|]. destruct Hwf as [[sids HL] HW].
    split; [|done]. eexists. by apply log_ids_drop.
  - intros [= <- <-]. by apply RegisterWaiter_wf.
  - intros [= <- <-]. by apply cancel_wf.
  - intros [= <- <-]. unfold CreateGroup. case_match; [done|]. by eapply wf_log.
  - intros [= <- <-]. unfold DestroyGroup. case_match; [|done]. by eapply wf_log.
  - intros [= <- <-]. unfold SetGroupID. case_match; [|done]. by eapply wf_log.
  - intros [= <- <-]. unfold DeleteConsumer. do 2 (case_match; [|done]). by eapply wf_log.
  - pose proof (ReadGroup_log s seen now group consumer id count noAck) as (H1 & H2 & H3 & H4).
    destruct (ReadGroup _ _ _ _ _ _ _ _) as [s1 [rs1|e]]; intros [= <- <-]; by eapply wf_log.
  - unfold Ack. destruct (groups s !! group) as [g|]; [|by intros [= <- <-]].
    destruct (ack_loop _ _ _ _) as [[g' n]|]; cbn; [|done]. intros [= <- <-]. by eapply wf_log.
Qed.

(** ** Exactly-once delivery *)

(** The operations a consumer group is observed through: any, except that the
    group is not destroyed or rewound, and that an identifier accepted by
    [Add] is above the last one (the code enforces it while the stream has
    entries and the sequence does not wrap). *)
Definition steady (g : bytes) (s : Stream) (o : op) : Prop :=
  match o with
  | OAdd now id _ _ =>
      match choose_id s now id with Ok sid => id_lt (lastID s) sid | Err _ => True end
  | ODestroy n | OSetID n _ => n <> g
  | _ => True
  end.

(** What an operation newly delivered to a consumer of [g]. *)
Definition delivered (g : bytes) (o : op) (rs : list StreamEntry) : list StreamEntry :=
  match o with
  | ORead _ _ g' _ id _ _ => if decide (g' = g /\ id = str ">") then rs else []
  | _ => []
  end.

Inductive trace (g : bytes) (s0 : Stream) : list StreamEntry -> Stream -> Prop :=
| tr_nil : trace g s0 [] s0
| tr_step out s o s' rs :
    trace g s0 out s -> steady g s o -> exec s o = Ok (s', rs) ->
    trace g s0 (out ++ delivered g o rs) s'.

Definition window (d0 d : StreamID) (out : list StreamEntry) : Prop :=
  Forall (fun e => exists a, carries e a /\ id_lt d0 a /\ id_le a d) out /\
  StronglySorted (fun x y => forall a b, carries x a -> carries y b -> id_lt a b) out.

Definition tracked (g : bytes) (d0 : StreamID) (out : list StreamEntry) (s : Stream) : Prop :=
  wf s /\ exists gr d,
    groups s !! g = Some gr /\ ParseStreamID (LastDeliveredID gr) = Ok d /\
    id_le d0 d /\ (d = d0 \/ id_le d (lastID s)) /\ window d0 d out /\
    (forall e a, e ∈ entries s -> carries e a -> id_lt d0 a -> id_le a d -> e ∈ out).

Lemma tracked_quiet g d0 out s s' :
  tracked g d0 out s -> wf s' -> (forall e, e ∈ entries s' -> e ∈ entries s) ->
  lastID s' = lastID s ->
  (LastDeliveredID <$> groups s' !! g) = (LastDeliveredID <$> groups s !! g) ->
  tracked g d0 out s'.
Proof.
  intros (_ & gr & d & Hg & Hd & Hle & Hor & HW & Hin) Hwf He Hl HL.
  split; [done|]. rewrite Hg in HL. apply fmap_Some in HL as (gr' & Hg' & E).
  exists gr', d. rewrite <- E, Hl. repeat (split; [done|]). eauto.
Qed.

Lemma window_app d0 d d' out es new :
  id_le d0 d -> window d0 d out -> delivers d d' es new -> window d0 d' (out ++ new).
Proof.
  intros Hle [HF HS] (H1 & H2 & H3 & H4 & _). split.
  - apply Forall_app. split.
    + eapply list.Forall_impl; [exact HF|]. intros x (a & ? & ? & ?).
      exists a. split; [done|]. split; [done|id_lia].
    + eapply list.Forall_impl; [exact H3|]. intros x [_ (a & ? & ? & ?)].
      exists a. split; [done|]. split; [id_lia|done].
  - induction HS as [|x out HS IH Hx]; [done|]. apply Forall_cons in HF as [Ha HF].
    cbn. constructor; [by apply IH|]. apply Forall_app. split; [done|].
    eapply list.Forall_impl; [exact H3|]. intros y [_ (b & Hb & ? & _)] a b' Hxa Hyb.
    destruct Ha as (a' & Ha' & _ & Hle').
    rewrite (carries_inj _ _ _ Hxa Ha'), (carries_inj _ _ _ Hyb Hb). id_lia.
Qed.

(** A read of new entries by the tracked group. *)
Lemma tracked_read g d0 out s seen now c count noAck s' rs :
  tracked g d0 out s ->
  ReadGroup s seen now g c (str ">") count noAck = (s', Ok rs) ->
  tracked g d0 (out ++ rs) s'.
Proof.
  intros (Hwf & gr & d & Hg & Hd & Hle & Hor & HW & Hin) Hr.
  pose proof (ReadGroup_log s seen now g c (str ">") count noAck) as (H1 & H2 & H3 & H4).
  rewrite Hr in *. cbn [fst] in *.
  split; [by eapply wf_log|].
  destruct Hwf as [[sids HL] _]. pose proof (log_ids_carries s sids HL) as [HF HS].
  unfold ReadGroup in Hr. rewrite Hg, decide_True in Hr by done.
  match type of Hr with context [read_new _ _ _ _ _ _ ?g1 _] => set (gr1 := g1) in * end.
  destruct (read_new_delivers c now count noAck (entries s) sids [] gr1 (pes s) d HF HS Hd)
    as (new & d' & g' & ps' & E & Hd' & Hdel).
  rewrite E in Hr. injection Hr as <- <-. cbn [app].
  exists g', d'. cbn [groups]. rewrite lookup_insert_eq. split; [done|]. split; [done|].
  pose proof Hdel as (L1 & L2 & L3 & L4 & L5 & L6).
  split; [id_lia|]. split; [|split].
  - destruct L6 as [->|(e & He & Hc)]; [done|]. right. cbn [lastID].
    destruct HL as (_ & _ & _ & Hall & _).
    apply list_elem_of_lookup in He as [i Hi].
    destruct (Forall2_lookup_l _ _ _ _ _ HF Hi) as (b & Hb & Hcb).
    rewrite (carries_inj _ _ _ Hc Hcb). rewrite Forall_forall in Hall.
    apply Hall. by eapply list_elem_of_lookup_2.
  - by eapply window_app.
  - cbn [entries]. intros e a He Hc L7 L8. apply elem_of_app.
    assert (id_le a d \/ id_lt d a) as [?|?] by id_lia; [left|right]; eauto.
Qed.

Lemma tracked_add g d0 out s now id fields order s' rs :
  tracked g d0 out s -> steady g s (OAdd now id fields order) ->
  exec s (OAdd now id fields order) = Ok (s', rs) -> tracked g d0 out s'.
Proof.
  intros (Hwf & gr & d & Hg & Hd & Hle & Hor & HW & Hin) Hst Hex.
  assert (wf s') as Hwf'.
  { eapply exec_wf; [exact Hwf| |exact Hex]. cbn in *. intros sid E. by rewrite E in Hst. }
  split; [done|]. cbn in Hst, Hex. destruct Hwf as [[sids HL] HWt].
  pose proof (Add_spec s sids now id fields order HL HWt) as HA.
  destruct (choose_id s now id) as [sid|e] eqn:E.
  2: { rewrite HA in Hex. injection Hex as <- <-. eauto 10. }
  destruct HA as (Hv & chs & EA & _). rewrite EA in Hex. injection Hex as <- <-.
  exists gr, d. cbn [groups lastID entries]. split; [done|]. split; [done|]. split; [done|].
  split; [destruct Hor; [by left|right; id_lia]|]. split; [done|].
  intros e a [He|He]%elem_of_app Hc L1 L2; [eauto|].
  apply list_elem_of_singleton in He as ->.
  assert (a = sid) as -> by (eapply carries_inj; [exact Hc|split; [done|reflexivity]]).
  destruct Hor as [->|?]; id_lia.
Qed.

Lemma ack_loop_LastDeliveredID ps ids g n g' n' :
  ack_loop ps ids g n = Ok (g', n') -> LastDeliveredID g' = LastDeliveredID g.
Proof.
  revert g n; induction ids as [|id ids IH]; intros g n; cbn [ack_loop].
  { by intros [= <- <-]. }
  case_match; [|apply IH]. case_match; [|done]. intros H1. by apply IH in H1.
Qed.

Lemma group_insert_LDI s g g' gr gr' :
  groups s !! g' = Some gr -> LastDeliveredID gr' = LastDeliveredID gr ->
  (LastDeliveredID <$> <[g' := gr']> (groups s) !! g)
  = (LastDeliveredID <$> groups s !! g).
Proof.
  intros Hg E. destruct (decide (g = g')) as [->|].
  - rewrite lookup_insert_eq, Hg. cbn. by rewrite E.
  - by rewrite lookup_insert_ne.
Qed.

(** The operations that neither extend the log nor move the group. *)
Lemma exec_quiet g s o s' rs :
  steady g s o -> (forall now id f r, o <> OAdd now id f r) ->
  (forall seen now c count noAck, o <> ORead seen now g c (str ">") count noAck) ->
  is_Some (groups s !! g) -> exec s o = Ok (s', rs) ->
  (forall e, e ∈ entries s' -> e ∈ entries s) /\ lastID s' = lastID s /\
  (LastDeliveredID <$> groups s' !! g) = (LastDeliveredID <$> groups s !! g).
Proof.
  intros Hst Ha Hr [gr Hg]. destruct o; cbn [exec]; try (intros [= <- <-]).
  - by destruct (Ha now id fields order).
  - rewrite Delete_entries. cbn. split; [|done]. intros e [_ He]%list_elem_of_filter. done.
  - unfold Trim. case_match; [done|]. cbn. split; [|done]. intros e He.
    rewrite <- (take_drop (Z.to_nat (Z.of_nat (length (entries s)) - maxlen)) (entries s)).
    set_solver.
  - done.
  - done.
  - unfold CreateGroup. case_match eqn:E; [done|]. cbn. split; [done|]. split; [done|].
    rewrite lookup_insert_ne; [done|]. congruence.
  - unfold DestroyGroup. case_match; [|done]. cbn. split; [done|]. split; [done|].
    by rewrite lookup_delete_ne.
  - unfold SetGroupID. case_match; [|done]. cbn. split; [done|]. split; [done|].
    by rewrite lookup_insert_ne.
  - unfold DeleteConsumer. case_match eqn:E; [|done]. case_match; [|done]. cbn.
    split; [done|]. split; [done|]. by eapply group_insert_LDI.
  - intros E. pose proof (ReadGroup_log s seen now group consumer id count noAck) as HL.
    assert (fst (ReadGroup s seen now group consumer id count noAck) = s') as E'
      by (destruct (ReadGroup _ _ _ _ _ _ _ _) as [? []]; by injection E).
    rewrite E' in HL. destruct HL as (-> & -> & _). split; [done|]. split; [done|].
    subst s'. unfold ReadGroup. destruct (groups s !! group) as [g1|] eqn:Eg; [|done].
    case_decide as Hid.
    + destruct (read_new _ _ _ _ _ _ _ _) as [[??]?]. cbn. rewrite lookup_insert_ne; [done|].
      intros ->. subst id. by destruct (Hr seen now consumer count noAck).
    + destruct (read_pending _ _ _ _ _ _ _ _) as [??]. cbn. by eapply group_insert_LDI.
  - unfold Ack. case_match eqn:E; [|by intros [= <- <-]].
    destruct (ack_loop _ _ _ _) as [[g' n]|] eqn:Ea; cbn; [|done]. intros [= <- <-]. cbn.
    split; [done|]. split; [done|]. eapply group_insert_LDI; [done|].
    by eapply ack_loop_LastDeliveredID.
Qed.

Lemma tracked_step g d0 out s o s' rs :
  tracked g d0 out s -> steady g s o -> exec s o = Ok (s', rs) ->
  tracked g d0 (out ++ delivered g o rs) s'.
Proof.
  intros HT Hst Hex.
  assert (delivered g o rs = [] ->
    (forall now id f r, o <> OAdd now id f r) ->
    (forall seen now c count noAck, o <> ORead seen now g c (str ">") count noAck) ->
    tracked g d0 (out ++ delivered g o rs) s') as Hquiet.
  { intros Hdel H1 H2. rewrite Hdel, app_nil_r.
    assert (is_Some (groups s !! g)) as Hsome by (destruct HT as (_ & gr & ? & -> & _); eauto).
    destruct (exec_quiet g s o s' rs Hst H1 H2 Hsome Hex) as (? & ? & ?).
    eapply tracked_quiet; try done. eapply exec_wf; [apply HT| |exact Hex].
    destruct o; try done. by destruct (H1 now id fields order). }
  destruct o; try (by apply Hquiet).
  - cbn [delivered]. rewrite app_nil_r. by eapply tracked_add.
  - destruct (decide (group = g /\ id = str ">")) as [[-> ->]|Hn].
    + cbn [delivered]. rewrite decide_True by done. cbn [exec] in Hex.
      destruct (ReadGroup _ _ _ _ _ _ _ _) as [s1 [rs1|e]] eqn:E; injection Hex as <- <-.
      * by eapply tracked_read.
      * unfold ReadGroup in E. destruct HT as (_ & gr & ? & Hg & _). rewrite Hg in E.
        rewrite decide_True in E by done. by destruct (read_new _ _ _ _ _ _ _ _) as [[??]?].
    + apply Hquiet; [cbn [delivered]; by rewrite decide_False|done|].
      intros ????? [= -> -> -> -> -> -> ->]. naive_solver.
Qed.

(** C24: over any sequence of operations on a stream in which the group is
    neither destroyed nor moved by XGROUP SETID and every identifier that is
    accepted is above the last one, a consumer group hands out each entry at
    most once, in increasing order, and skips none that is still in the stream
    up to its last delivered identifier. (The code does not enforce the increase
    when the stream is empty or the sequence number wraps.) *)
Theorem group_exactly_once g s0 gr0 d0 out s :
  wf s0 -> groups s0 !! g = Some gr0 -> ParseStreamID (LastDeliveredID gr0) = Ok d0 ->
  trace g s0 out s ->
  exists gr d,
    groups s !! g = Some gr /\ ParseStreamID (LastDeliveredID gr) = Ok d /\
    Forall (fun e => exists a, carries e a /\ id_lt d0 a /\ id_le a d) out /\
    StronglySorted (fun x y => forall a b, carries x a -> carries y b -> id_lt a b) out /\
    (forall e a, e ∈ entries s -> carries e a -> id_lt d0 a -> id_le a d -> e ∈ out).
Proof.
  intros Hwf Hg Hd Htr.
  assert (tracked g d0 out s) as (_ & gr & d & ? & ? & _ & _ & [? ?] & ?); [|by exists gr, d].
  induction Htr as [|out s o s' rs Htr IH Hst Hex]; [|by eapply tracked_step].
  split; [done|]. exists gr0, d0. split; [done|]. split; [done|]. split; [id_lia|].
  split; [by left|]. split; [by split; constructor|].
  intros e a _ _ H1 H2. id_lia.
Qed.

Definition stream_with_group : Stream :=
  mkStream [mkEntry (str "5-1") ∅ []] (mkID 5 1)
    {[str "g" := mkGroup (str "g") (str "0") ∅ ∅]} [] ∅ ∅.

Lemma group_exactly_once_witness :
  exists s', trace (str "g") stream_with_group [mkEntry (str "5-1") ∅ []] s' /\
  exists gr d,
    groups s' !! str "g" = Some gr /\ ParseStreamID (LastDeliveredID gr) = Ok d /\
    Forall (fun e => exists a, carries e a /\ id_lt (mkID 0 0) a /\ id_le a d)
      [mkEntry (str "5-1") ∅ []].
Proof.
  assert (exists s', trace (str "g") stream_with_group [mkEntry (str "5-1") ∅ []] s') as [s' Htr].
  { eexists. refine (tr_step (str "g") stream_with_group [] stream_with_group
      (ORead 0 0 (str "g") (str "c") (str ">") 1 false) _ [mkEntry (str "5-1") ∅ []]
      (tr_nil _ _) I _).
    vm_compute. reflexivity. }
  exists s'. split; [exact Htr|].
  destruct (group_exactly_once (str "g") stream_with_group (mkGroup (str "g") (str "0") ∅ ∅) (mkID 0 0)
    [mkEntry (str "5-1") ∅ []] s')
    as (gr & d & H1 & H2 & H3 & _).
  - split; [exists [mkID 5 1]|split; constructor].
    split; [reflexivity|]. split; [repeat constructor; cbn; lia|].
    split; [repeat constructor|]. split; [|repeat constructor; cbn; lia].
    constructor; [|constructor]. right. cbn. lia.
  - reflexivity.
  - reflexivity.
  - exact Htr.
  - by exists gr, d.
Defined.

(** Runs a list of operations, keeping what the last one returned. *)
Fixpoint exec_all (s : Stream) (os : list op) (last : list StreamEntry)
    : res panic (Stream * list StreamEntry) :=
  match os with
  | [] => Ok (s, last)
  | o :: os' => '(s', rs) ← exec s o; exec_all s' os' rs
  end.

(** The condition on accepted identifiers is needed, and the code does not
    enforce it once a stream has been emptied: after [5-0] was delivered and
    deleted, XADD accepts [1-0], and the group never receives it although it is
    in the stream. *)
Theorem emptied_stream_goes_backwards :
  match exec_all NewStream
      [OCreate (str "g") (str "0"); OAdd 0 (str "5-0") ∅ [];
       ORead 0 0 (str "g") (str "c") (str ">") 0 false; ODelete [str "5-0"];
       OAdd 0 (str "1-0") ∅ []; ORead 0 0 (str "g") (str "c") (str ">") 0 false] [] with
  | Ok (s, received) => ID <$> entries s = [str "1-0"] /\ received = []
  | Err _ => False
  end.
Proof. vm_compute. split; reflexivity. Qed.

(** ** Pending entry lists

    The two lists that record a delivery agree: an identifier pending in the
    group is pending, with the same entry, in the consumer that the entry
    names, and in no other; and pending identifiers are not above the last
    delivered one. *)

Definition group_wf (ps : gmap positive PendingEntry) (g : ConsumerGroup) : Prop :=
  (exists d, ParseStreamID (LastDeliveredID g) = Ok d /\
     forall id l, gPEL g !! id = Some l ->
       exists a, valid_id a /\ id = ID_String a /\ id_le a d) /\
  (forall id l, gPEL g !! id = Some l ->
     exists pe c, ps !! l = Some pe /\ peID pe = id /\
       Consumers g !! ConsumerName pe = Some c /\ cPEL c !! id = Some l) /\
  (forall n c id l, Consumers g !! n = Some c -> cPEL c !! id = Some l ->
     gPEL g !! id = Some l /\ exists pe, ps !! l = Some pe /\ ConsumerName pe = n).

Definition pel_wf (s : Stream) : Prop :=
  forall n g, groups s !! n = Some g -> group_wf (pes s) g.

(** The store only gains entries and redelivery only changes counters. *)
Definition ps_ext (ps ps' : gmap positive PendingEntry) : Prop :=
  forall l pe, ps !! l = Some pe ->
    exists pe', ps' !! l = Some pe' /\ peID pe' = peID pe /\ ConsumerName pe' = ConsumerName pe.

#[global] Instance ps_ext_preorder : PreOrder ps_ext.
Proof.
  split.
  - intros ps l pe H. eauto.
  - intros p1 p2 p3 H12 H23 l pe H. destruct (H12 _ _ H) as (pe2 & H2 & E1 & E2).
    destruct (H23 _ _ H2) as (pe3 & H3 & E3 & E4). exists pe3. split; [done|]. split; congruence.
Qed.

Lemma group_wf_ext ps ps' g : ps_ext ps ps' -> group_wf ps g -> group_wf ps' g.
Proof.
  intros Hx (H1 & H2 & H3). split; [done|]. split.
  - intros id l Hl. destruct (H2 id l Hl) as (pe & c & Hpe & E & Hc & Hl').
    destruct (Hx _ _ Hpe) as (pe' & Hpe' & E1 & E2). exists pe', c.
    rewrite E2. repeat split; congruence.
  - intros n c id l Hc Hl. destruct (H3 n c id l Hc Hl) as (Hg & pe & Hpe & E).
    split; [done|]. destruct (Hx _ _ Hpe) as (pe' & Hpe' & E1 & E2). exists pe'. split; congruence.
Qed.

Lemma pel_wf_update s n g ps' s' :
  pel_wf s -> ps_ext (pes s) ps' -> group_wf ps' g ->
  groups s' = <[n := g]> (groups s) -> pes s' = ps' -> pel_wf s'.
Proof.
  intros Hs Hx Hg E1 E2 m g' Hm. rewrite E1 in Hm. rewrite E2.
  apply lookup_insert_Some in Hm as [[_ <-]|[_ Hm]]; [done|].
  eapply group_wf_ext; [exact Hx|]. by eapply Hs.
Qed.

(** Touching the time a consumer was seen, or adding one with no entries. *)
Lemma group_wf_consumer ps g n seen :
  let c' := match Consumers g !! n with
            | Some c => mkConsumer (cName c) seen (cPEL c)
            | None => mkConsumer n seen ∅
            end in
  group_wf ps g ->
  group_wf ps (mkGroup (gName g) (LastDeliveredID g) (<[n := c']> (Consumers g)) (gPEL g)).
Proof.
  intros c' (H1 & H2 & H3). split; [done|]. split; cbn.
  - intros id l Hl. destruct (H2 id l Hl) as (pe & c & Hpe & E & Hc & Hl').
    exists pe. destruct (decide (ConsumerName pe = n)) as [En|Hn].
    + exists c'. rewrite En in Hc |- *. rewrite lookup_insert_eq. subst c'. by rewrite Hc.
    + exists c. by rewrite lookup_insert_ne.
  - intros m c id l Hm Hl. apply lookup_insert_Some in Hm as [[<- <-]|[Hn Hm]]; [|by eapply H3].
    subst c'. destruct (Consumers g !! n) as [c0|] eqn:E; cbn in Hl; [by eapply H3|].
    by rewrite lookup_empty in Hl.
Qed.

Lemma deliver_wf ps g n now noAck e a d :
  group_wf ps g -> is_Some (Consumers g !! n) -> carries e a ->
  ParseStreamID (LastDeliveredID g) = Ok d -> id_lt d a ->
  let '(g', ps') := deliver n now noAck e g ps in
  group_wf ps' g' /\ ps_ext ps ps' /\ is_Some (Consumers g' !! n).
Proof.
  intros ((d1 & Hd1 & H1) & H2 & H3) [c Hc] [Ha He] Hd Hlt.
  assert (d1 = d) as -> by congruence.
  assert (forall id l, gPEL g !! id = Some l ->
    exists b, valid_id b /\ id = ID_String b /\ id_le b a) as Hup.
  { intros id l Hl. destruct (H1 id l Hl) as (b & ? & ? & ?). exists b.
    split; [done|]. split; [done|id_lia]. }
  unfold deliver. destruct noAck.
  { split; [|split; [reflexivity|cbn; eauto]]. split; [|done]. cbn.
    exists a. rewrite He. eauto with vkv. }
  set (l := fresh (dom ps)).
  assert (ps !! l = None) as Hfresh by (apply not_elem_of_dom, is_fresh).
  assert (gPEL g !! ID e = None) as Hnew.
  { destruct (gPEL g !! ID e) as [l'|] eqn:E; [|done]. exfalso.
    destruct (H1 _ _ E) as (b & Hb & Eb & Hle). rewrite He in Eb.
    apply ID_String_inj in Eb; [|done..]. subst b. id_lia. }
  assert (ps_ext ps (<[l := mkPE (ID e) n now 1]> ps)) as Hx.
  { intros l' pe Hpe. exists pe. rewrite lookup_insert_ne by congruence. done. }
  split; [|split; [done|cbn; rewrite lookup_alter_eq, Hc; eauto]].
  split; [|split]; cbn [gPEL Consumers LastDeliveredID].
  - exists a. split; [rewrite He; eauto with vkv|]. intros id l' Hl'.
    apply lookup_insert_Some in Hl' as [[<- <-]|[_ Hl']]; [|eauto].
    exists a. split; [done|]. split; [done|id_lia].
  - intros id l' Hl'. apply lookup_insert_Some in Hl' as [[<- <-]|[Hne Hl']].
    + exists (mkPE (ID e) n now 1), (set_PEL (ID e) l c). cbn.
      by rewrite lookup_insert_eq, lookup_alter_eq, Hc, lookup_insert_eq.
    + destruct (H2 id l' Hl') as (pe & c0 & Hpe & E & Hc0 & Hlc).
      destruct (decide (ConsumerName pe = n)) as [En|En].
      * exists pe, (set_PEL (ID e) l c). rewrite lookup_insert_ne by congruence.
        split; [done|]. split; [done|]. rewrite En in Hc0 |- *.
        rewrite lookup_alter_eq, Hc. split; [done|]. cbn.
        rewrite lookup_insert_ne by done. congruence.
      * exists pe, c0. rewrite lookup_insert_ne, lookup_alter_ne by congruence. done.
  - intros m c0 id l' Hm Hl'. apply lookup_alter_Some in Hm as [(<- & c1 & Hc1 & ->)|[Hne Hm]].
    + cbn in Hl'. apply lookup_insert_Some in Hl' as [[<- <-]|[Hne Hl']].
      * rewrite !lookup_insert_eq. split; [done|]. by eexists.
      * destruct (H3 _ _ _ _ Hc1 Hl') as (Hg & pe & Hpe & E).
        rewrite lookup_insert_ne by done. split; [done|]. exists pe.
        rewrite lookup_insert_ne by congruence. done.
    + destruct (H3 _ _ _ _ Hm Hl') as (Hg & pe & Hpe & E).
      rewrite lookup_insert_ne by congruence. split; [done|]. exists pe.
      rewrite lookup_insert_ne by congruence. done.
Qed.

Lemma read_new_wf n now count noAck es bs results g ps :
  Forall2 carries es bs -> group_wf ps g -> is_Some (Consumers g !! n) ->
  let '(_, g', ps') := read_new n now count noAck es results g ps in
  group_wf ps' g' /\ ps_ext ps ps'.
Proof.
  intros HF; revert results g ps.
  induction HF as [|e a es bs Hc HF IH]; intros results g ps Hg Hn; cbn [read_new].
  { split; [done|reflexivity]. }
  pose proof Hg as [(d & Hd & _) _].
  assert (CompareStreamIDs (ID e) (LastDeliveredID g) = id_compare a d) as ->
    by (rewrite (proj2 Hc); by apply Compare_numeric; [apply Hc|]).
  destruct (Z.gtb_spec (id_compare a d) 0) as [Hgt|Hle]; [|by apply IH].
  assert (id_lt d a) as Hlt by (destruct (id_compare_spec a d) as [[? ?]|[[? ?]|[? ?]]]; id_lia).
  pose proof (deliver_wf ps g n now noAck e a d Hg Hn Hc Hd Hlt) as HD.
  destruct (deliver n now noAck e g ps) as [g1 ps1]. destruct HD as (Hg1 & Hx1 & Hn1).
  destruct (full count (results ++ [e])); [done|].
  specialize (IH (results ++ [e]) g1 ps1 Hg1 Hn1).
  destruct (read_new _ _ _ _ _ _ _ _) as [[??] ps']. destruct IH as [? ?].
  split; [done|]. by etrans.
Qed.

Lemma redeliver_ext now l ps : ps_ext ps (alter (redeliver now) l ps).
Proof.
  intros l' pe Hpe. destruct (decide (l = l')) as [->|].
  - exists (redeliver now pe). by rewrite lookup_alter_eq, Hpe.
  - exists pe. by rewrite lookup_alter_ne.
Qed.

Lemma read_pending_ext now count noAck em pel pids results ps :
  ps_ext ps (snd (read_pending now count noAck em pel pids results ps)).
Proof.
  revert results ps; induction pids as [|p pids IH]; intros results ps; cbn [read_pending];
    [reflexivity|]. destruct (em !! p); [|apply IH].
  set (ps1 := if noAck then ps else _).
  assert (ps_ext ps ps1) as Hx.
  { subst ps1. destruct noAck; [reflexivity|]. case_match; [apply redeliver_ext|reflexivity]. }
  case_match; [done|]. etrans; [exact Hx|]. apply IH.
Qed.

Lemma ReadGroup_pel s seen now g n id count noAck :
  wf s -> pel_wf s -> pel_wf (fst (ReadGroup s seen now g n id count noAck)).
Proof.
  intros [[sids HL] _] Hs. unfold ReadGroup. destruct (groups s !! g) as [gr|] eqn:Eg; [|done].
  pose proof (group_wf_consumer (pes s) gr n seen (Hs _ _ Eg)) as Hg1. cbn zeta in Hg1.
  set (c' := match Consumers gr !! n with Some _ => _ | None => _ end) in *.
  set (g1 := mkGroup _ _ (<[n := c']> _) _) in *. case_decide.
  - pose proof (read_new_wf n now count noAck (entries s) sids [] g1 (pes s)
      (proj1 (log_ids_carries s sids HL)) Hg1) as HR.
    destruct (read_new _ _ _ _ _ _ _ _) as [[rs g'] ps'].
    destruct HR as [Hg' Hx]; [cbn; rewrite lookup_insert_eq; eauto|].
    by eapply pel_wf_update.
  - pose proof (read_pending_ext now count noAck
      (foldl (fun m e => <[ID e := e]> m) ∅ (entries s)) (cPEL c')
      (sort_slice (fun a b => CompareStreamIDs a b <? 0)
        (filter (fun pid => CompareStreamIDs pid id >= 0) (map_to_list (cPEL c')).*1)) []
      (pes s)) as Hx.
    destruct (read_pending _ _ _ _ _ _ _ _) as [rs ps']. cbn [fst snd] in *.
    eapply pel_wf_update; [done|exact Hx| |done|done]. by eapply group_wf_ext.
Qed.

Lemma ack_step_wf ps g id l pe :
  group_wf ps g -> gPEL g !! id = Some l -> ps !! l = Some pe ->
  group_wf ps (mkGroup (gName g) (LastDeliveredID g)
    (alter (del_PEL id) (ConsumerName pe) (Consumers g)) (delete id (gPEL g))).
Proof.
  intros ((d & Hd & H1) & H2 & H3) Hl Hpe. split; [|split]; cbn.
  - exists d. split; [done|]. intros id' l' [_ Hl']%lookup_delete_Some. eauto.
  - intros id' l' [Hne Hl']%lookup_delete_Some.
    destruct (H2 id' l' Hl') as (pe' & c & Hpe' & E & Hc & Hl'').
    exists pe'. destruct (decide (ConsumerName pe = ConsumerName pe')) as [En|En].
    + exists (del_PEL id c). rewrite En, lookup_alter_eq, Hc. cbn.
      by rewrite lookup_delete_ne.
    + exists c. by rewrite lookup_alter_ne.
  - intros n c id' l' Hc Hl'. apply lookup_alter_Some in Hc as [(<- & c1 & Hc1 & ->)|[Hne Hc]].
    + cbn in Hl'. apply lookup_delete_Some in Hl' as [Hne Hl'].
      destruct (H3 _ _ _ _ Hc1 Hl') as [? ?]. by rewrite lookup_delete_ne.
    + destruct (H3 _ _ _ _ Hc Hl') as (Hg & pe' & Hpe' & E).
      rewrite lookup_delete_ne; [eauto|]. intros ->. congruence.
Qed.

Lemma ack_loop_wf ps ids g n :
  group_wf ps g -> exists g' n', ack_loop ps ids g n = Ok (g', n') /\ group_wf ps g'.
Proof.
  revert g n; induction ids as [|id ids IH]; intros g n Hg; cbn [ack_loop]; [eauto|].
  destruct (gPEL g !! id) as [l|] eqn:El; [|by apply IH].
  pose proof Hg as (_ & H2 & _). destruct (H2 _ _ El) as (pe & c & Hpe & _).
  rewrite Hpe. apply IH. by eapply ack_step_wf.
Qed.

Lemma delete_all_lookup (l : list bytes) (m : gmap bytes positive) id :
  foldl (fun m id => delete id m) m l !! id = if decide (id ∈ l) then None else m !! id.
Proof.
  revert m; induction l as [|x l IH]; intros m; [done|].
  cbn [foldl]. rewrite IH. repeat case_decide; try set_solver.
  - destruct (decide (x = id)) as [->|]; [by rewrite lookup_delete_eq|set_solver].
  - rewrite lookup_delete_ne; [done|set_solver].
Qed.

Lemma elem_of_keys (m : gmap bytes positive) id :
  id ∈ (map_to_list m).*1 <-> is_Some (m !! id).
Proof.
  rewrite list_elem_of_fmap. split.
  - intros ([k v] & -> & H%elem_of_map_to_list). cbn. eauto.
  - intros [v Hv]. exists (id, v). split; [done|]. by apply elem_of_map_to_list.
Qed.

Lemma DeleteConsumer_wf ps g n c :
  group_wf ps g -> Consumers g !! n = Some c ->
  group_wf ps (mkGroup (gName g) (LastDeliveredID g) (delete n (Consumers g))
    (foldl (fun m id => delete id m) (gPEL g) (map_to_list (cPEL c)).*1)).
Proof.
  intros ((d & Hd & H1) & H2 & H3) Hc. split; [|split]; cbn [gPEL Consumers LastDeliveredID].
  - exists d. split; [done|]. intros id l. rewrite delete_all_lookup. case_decide; [done|]. apply H1.
  - intros id l. rewrite delete_all_lookup. case_decide as Hk; [done|]. intros Hl.
    rewrite elem_of_keys in Hk.
    destruct (H2 id l Hl) as (pe & c0 & Hpe & E & Hc0 & Hl0). exists pe, c0.
    split; [done|]. split; [done|]. split; [|done]. rewrite lookup_delete_ne; [done|].
    intros En. apply Hk. rewrite En in Hc. rewrite Hc in Hc0. injection Hc0 as ->. eauto.
  - intros m c0 id l [Hne Hm]%lookup_delete_Some Hl.
    destruct (H3 _ _ _ _ Hm Hl) as (Hg & pe & Hpe & E).
    rewrite delete_all_lookup. rewrite decide_False; [eauto|].
    rewrite elem_of_keys. intros [l' Hl'].
    destruct (H3 _ _ _ _ Hc Hl') as (Hg' & pe' & Hpe' & E'). congruence.
Qed.

(** Groups are created at an identifier, and not moved before a pending one. *)
Definition tame (s : Stream) (o : op) : Prop :=
  match o with
  | OCreate _ start => exists d, ParseStreamID (resolve_id s start) = Ok d
  | OSetID n id =>
      exists d, ParseStreamID (resolve_id s id) = Ok d /\
      forall g id' l, groups s !! n = Some g -> gPEL g !! id' = Some l ->
        CompareStreamIDs id' (resolve_id s id) <= 0
  | _ => True
  end.

Lemma SetGroupID_wf ps g id d :
  group_wf ps g -> ParseStreamID id = Ok d ->
  (forall id' l, gPEL g !! id' = Some l -> CompareStreamIDs id' id <= 0) ->
  group_wf ps (mkGroup (gName g) id (Consumers g) (gPEL g)).
Proof.
  intros ((d0 & Hd0 & H1) & H2 & H3) Hd Hle. split; [|done]. exists d. split; [done|].
  intros id' l Hl. destruct (H1 _ _ Hl) as (a & Ha & -> & _). exists a. split; [done|].
  split; [done|]. specialize (Hle _ _ Hl). rewrite (Compare_numeric a id d) in Hle by done.
  destruct (id_compare_spec a d) as [[? ?]|[[? ?]|[? ?]]]; id_lia.
Qed.

(** C25: on a sound stream, no operation panics or makes the pending entry lists
    of a group and its consumers disagree, provided that an identifier added to
    a stream with entries is above the last one (it is unless the sequence
    number wraps), that a group is created or moved to an identifier that
    parses, and that no group is moved before one of its pending entries. *)
Theorem pending_lists_agree s o :
  wf s -> pel_wf s -> increasing s o -> tame s o ->
  exists s' rs, exec s o = Ok (s', rs) /\ wf s' /\ pel_wf s'.
Proof.
  intros Hwf Hs Hinc Ht.
  assert (exists s' rs, exec s o = Ok (s', rs) /\ pel_wf s') as (s' & rs & E & Hp);
    [|exists s', rs; eauto using exec_wf].
  destruct o; cbn [exec]; try by do 2 eexists.
  - destruct Hwf as [[sids HL] HW].
    pose proof (Add_spec s sids now id fields order HL HW) as HA.
    destruct (choose_id s now id) as [sid|e]; [|rewrite HA; by do 2 eexists].
    destruct HA as (_ & chs & -> & _). by do 2 eexists.
  - do 2 eexists. split; [done|]. by rewrite Delete_entries.
  - do 2 eexists. split; [done|]. unfold Trim. by case_match.
  - do 2 eexists. split; [done|]. unfold CreateGroup. case_match; [done|]. cbn.
    destruct Ht as [d Hd]. eapply pel_wf_update; [done|reflexivity| |done|done].
    split; [exists d; split; [done|]|split]; cbn; intros *; by rewrite lookup_empty.
  - do 2 eexists. split; [done|]. unfold DestroyGroup. case_match; [|done]. cbn.
    intros m g' Hm. cbn [groups set_groups] in Hm. apply lookup_delete_Some in Hm as [_ Hm]. by eapply Hs.
  - do 2 eexists. split; [done|]. unfold SetGroupID. case_match eqn:Eg; [|done]. cbn.
    destruct Ht as (d & Hd & Hle). eapply pel_wf_update; [done|reflexivity| |done|done].
    eapply SetGroupID_wf; eauto.
  - do 2 eexists. split; [done|]. unfold DeleteConsumer. case_match eqn:Eg; [|done].
    case_match; [|done]. cbn. eapply pel_wf_update; [done|reflexivity| |done|done].
    apply DeleteConsumer_wf; eauto.
  - pose proof (ReadGroup_pel s seen now group consumer id count noAck Hwf Hs) as HR.
    destruct (ReadGroup _ _ _ _ _ _ _ _) as [s1 [rs1|e]]; by do 2 eexists.
  - unfold Ack. destruct (groups s !! group) as [g|] eqn:Eg; [|by do 2 eexists].
    destruct (ack_loop_wf (pes s) ids g 0 (Hs _ _ Eg)) as (g' & n' & -> & Hg'). cbn.
    do 2 eexists. split; [done|]. by eapply pel_wf_update.
Qed.

Lemma pending_lists_agree_witness :
  exists s' rs, exec stream_with_group (ORead 0 0 (str "g") (str "c") (str ">") 1 false) = Ok (s', rs) /\ pel_wf s'.
Proof.
  destruct (pending_lists_agree stream_with_group (ORead 0 0 (str "g") (str "c") (str ">") 1 false))
    as (s' & rs & H1 & _ & H2).
  - split; [exists [mkID 5 1]|split; constructor].
    split; [reflexivity|]. split; [repeat constructor; cbn; lia|].
    split; [repeat constructor|]. split; [|repeat constructor; cbn; lia].
    constructor; [|constructor]. right. cbn. lia.
  - intros n g Hg. cbn [groups stream_with_group] in Hg. apply lookup_singleton_Some in Hg as [_ <-].
    split; [exists (mkID 0 0); split; [reflexivity|]|split]; cbn; intros *; by rewrite lookup_empty.
  - exact I.
  - exact I.
  - by exists s', rs.
Defined.

(** When a group is rewound (XGROUP SETID) and an entry is redelivered to a
    second consumer, acknowledging it leaves the entry pending for the first
    consumer for ever: the group has no pending entry, the consumer still has
    one, and a second XACK does nothing. *)
Theorem rewound_group_leaks_pending :
  match exec_all NewStream
      [OCreate (str "g") (str "0"); OAdd 0 (str "5-0") ∅ [];
       ORead 0 0 (str "g") (str "a") (str ">") 0 false; OSetID (str "g") (str "0");
       ORead 0 0 (str "g") (str "b") (str ">") 0 false;
       OAck (str "g") [str "5-0"]; OAck (str "g") [str "5-0"]] [] with
  | Ok (s, _) =>
      GetPendingSummary s (str "g") = Ok (0, str "", str "", ∅) /\
      GetConsumersInfo s 0 (str "g") = Ok [(str "b", 0, 0); (str "a", 1, 0)]
  | Err _ => False
  end.
Proof. vm_compute. split; reflexivity. Qed.
