(* ===== verification/Glob.v ===== *)
(** * Shell patterns: [filepath.Match] of the Go standard library

    The matcher behind KEYS and the key patterns of access control, on Unix: [*]
    matches any bytes but the separator, [?] one rune but the separator, [[a-z]]
    a class, a backslash escapes.  [None] is [ErrBadPattern]. *)

From S2P Require Import Prelude.

(** ** [utf8.DecodeRuneInString]: the rune and its width *)

Definition RuneError : Z := 0xFFFD.

(** The width a first byte announces and the range of the second byte. *)
Definition first_byte (b : Z) : option (nat * Z * Z) :=
  if (0xC2 <=? b) && (b <=? 0xDF) then Some (2%nat, 0x80, 0xBF)
  else if b =? 0xE0 then Some (3%nat, 0xA0, 0xBF)
  else if b =? 0xED then Some (3%nat, 0x80, 0x9F)
  else if (0xE1 <=? b) && (b <=? 0xEF) then Some (3%nat, 0x80, 0xBF)
  else if b =? 0xF0 then Some (4%nat, 0x90, 0xBF)
  else if (0xF1 <=? b) && (b <=? 0xF3) then Some (4%nat, 0x80, 0xBF)
  else if b =? 0xF4 then Some (4%nat, 0x80, 0x8F)
  else None.

Definition continuation (b : byte) : bool := (0x80 <=? b2z b) && (b2z b <=? 0xBF).

(** The six low bits of the continuation bytes appended to [hi]. *)
Definition rune_of (hi : Z) (tail : bytes) : Z := foldl (fun r b => r * 64 + Z.land (b2z b) 0x3F) hi tail.

Definition DecodeRune (s : bytes) : Z * nat :=
  match s with
  | [] => (RuneError, 0%nat)
  | p0 :: s' =>
      if b2z p0 <? 0x80 then (b2z p0, 1%nat)
      else
        match first_byte (b2z p0) with
        | None => (RuneError, 1%nat)
        | Some (size, lo, hi) =>
            match take (size - 1) s' with
            | b1 :: tail =>
                if (length tail =? size - 2)%nat && (lo <=? b2z b1) && (b2z b1 <=? hi) && forallb continuation tail
                then (rune_of (Z.land (b2z p0) (Z.ones (7 - Z.of_nat size))) (b1 :: tail), size)
                else (RuneError, 1%nat)
            | [] => (RuneError, 1%nat)
            end
        end
  end.

(** ** Chunks *)

Definition Separator : byte := "/"%byte.

Fixpoint strip_stars (pattern : bytes) : bool * bytes :=
  match pattern with
  | "*"%byte :: p => (true, (strip_stars p).2)
  | _ => (false, pattern)
  end.

(** The scan for the end of a chunk: the chunk and the rest. *)
Fixpoint scan (inrange : bool) (pattern : bytes) : bytes * bytes :=
  match pattern with
  | [] => ([], [])
  | c :: p =>
      if decide (c = "\"%byte) then
        match p with
        | d :: p' => let '(chunk, rest) := scan inrange p' in (c :: d :: chunk, rest)
        | [] => ([c], [])
        end
      else if decide (c = "*"%byte) then
        if inrange then let '(chunk, rest) := scan inrange p in (c :: chunk, rest) else ([], pattern)
      else
        let inrange := if decide (c = "["%byte) then true else if decide (c = "]"%byte) then false else inrange in
        let '(chunk, rest) := scan inrange p in (c :: chunk, rest)
  end.

Definition scanChunk (pattern : bytes) : bool * bytes * bytes :=
  let '(star, p) := strip_stars pattern in
  let '(chunk, rest) := scan false p in
  (star, chunk, rest).

(** One possibly escaped character of a class, which something must follow. *)
Definition getEsc (chunk : bytes) : option (Z * bytes) :=
  let decode chunk :=
    let '(r, n) := DecodeRune chunk in
    if bool_decide (r = RuneError) && (n =? 1)%nat then None
    else match drop n chunk with [] => None | nchunk => Some (r, nchunk) end in
  match chunk with
  | [] => None
  | c :: chunk' =>
      if decide (c = "-"%byte \/ c = "]"%byte) then None
      else if decide (c = "\"%byte) then match chunk' with [] => None | _ => decode chunk' end
      else decode chunk
  end.

(** The ranges of a class up to its closing bracket. *)
Fixpoint class_loop (fuel : nat) (r : Z) (some matched : bool) (chunk : bytes) : option (bool * bytes) :=
  match fuel with
  | O => None
  | S f =>
      let range :=
        '(lo, chunk) ← getEsc chunk;
        '(hi, chunk) ← match chunk with "-"%byte :: c => getEsc c | _ => Some (lo, chunk) end;
        class_loop f r true (matched || ((lo <=? r) && (r <=? hi))) chunk in
      match chunk with
      | "]"%byte :: c => if some then Some (matched, c) else range
      | _ => range
      end
  end.

(** [matchChunk]: after a mismatch only the form of the rest is checked.  The
    result is the unread part of [s], if the chunk matches. *)
Fixpoint matchChunk_loop (fuel : nat) (failed : bool) (chunk s : bytes) : option (option bytes) :=
  match fuel, chunk with
  | O, _ | _, [] => Some (if failed then None else Some s)
  | S f, c :: chunk' =>
      let failed := failed || bool_decide (s = []) in
      let literal chunk :=
        match chunk with
        | [] => None
        | d :: chunk' =>
            let failed' := failed || negb (bool_decide (head s = Some d)) in
            matchChunk_loop f failed' chunk' (if failed then s else tail s)
        end in
      if decide (c = "["%byte) then
        let '(r, s) := if failed then (0, s) else let '(r, n) := DecodeRune s in (r, drop n s) in
        let '(negated, chunk') := match chunk' with "^"%byte :: c => (true, c) | _ => (false, chunk') end in
        '(m, chunk') ← class_loop (S (length chunk')) r false false chunk';
        matchChunk_loop f (failed || bool_decide (m = negated)) chunk' s
      else if decide (c = "?"%byte) then
        if failed then matchChunk_loop f true chunk' s
        else
          let failed := bool_decide (head s = Some Separator) in
          matchChunk_loop f failed chunk' (drop (DecodeRune s).2 s)
      else if decide (c = "\"%byte) then literal chunk'
      else literal chunk
  end.

Definition matchChunk (chunk s : bytes) : option (option bytes) := matchChunk_loop (S (length chunk)) false chunk s.

(** The positions after a star: the rest of the name behind the first match that
    the rest of the pattern can use. *)
Fixpoint skip_loop (chunk : bytes) (last : bool) (name : bytes) : option (option bytes) :=
  match name with
  | [] => Some None
  | c :: name' =>
      if decide (c = Separator) then Some None
      else
        r ← matchChunk chunk name';
        match r with
        | Some t => if last && negb (bool_decide (t = [])) then skip_loop chunk last name' else Some (Some t)
        | None => skip_loop chunk last name'
        end
  end.

Fixpoint Match_loop (fuel : nat) (pattern name : bytes) : option bool :=
  match fuel, pattern with
  | O, _ | _, [] => Some (bool_decide (name = []))
  | S f, _ =>
      let '(star, chunk, rest) := scanChunk pattern in
      if star && bool_decide (chunk = []) then Some (negb (bool_decide (Separator ∈ name)))
      else
        let skip := if (star : bool) then skip_loop chunk (bool_decide (rest = [])) name else Some None in
        let next r := match r with Some t => Match_loop f rest t | None => Some false end in
        r ← matchChunk chunk name;
        match r with
        | Some t => if bool_decide (t = []) || negb (bool_decide (rest = [])) then Match_loop f rest t else skip ≫= next
        | None => skip ≫= next
        end
  end.

(** Each round of the loop takes at least one byte of the pattern. *)
Definition Match (pattern name : bytes) : option bool := Match_loop (S (length pattern)) pattern name.

(** ** Literal patterns *)

Definition plain_char (c : byte) : Prop := c <> "*"%byte /\ c <> "?"%byte /\ c <> "["%byte /\ c <> "\"%byte.

Lemma HasPrefix_spec s p : HasPrefix s p = true <-> exists t, s = p ++ t.
Proof.
  unfold HasPrefix. rewrite bool_decide_eq_true. split.
  - intros E. exists (drop (length p) s). by rewrite <- E at 1; rewrite take_drop.
  - intros [t ->]. apply take_app_length.
Qed.

Lemma scan_literal lit rest : Forall plain_char lit -> rest = [] \/ head rest = Some "*"%byte ->
  scan false (lit ++ rest) = (lit, rest).
Proof.
  induction 1 as [|c lit (H1 & H2 & H3 & H4) _ IH]; intros Hr; cbn [app scan].
  - destruct Hr as [->|Hr]; [done|]. destruct rest; [done|]. cbn in Hr. injection Hr as ->. done.
  - rewrite !(decide_False (P := c = _)) by done.
    assert ((if decide (c = "]"%byte) then false else false) = false) as -> by by case_decide. by rewrite IH.
Qed.

Lemma matchChunk_literal f lit s : Forall plain_char lit -> (length lit < f)%nat ->
  matchChunk_loop f false lit s = Some (if HasPrefix s lit then Some (drop (length lit) s) else None) /\
  matchChunk_loop f true lit s = Some None.
Proof.
  intros HF. revert f s. induction HF as [|c lit (H1 & H2 & H3 & H4) HF IH]; intros [|f] s Hf; cbn [length] in Hf; try lia.
  { cbn. by rewrite drop_0. }
  cbn [matchChunk_loop]. rewrite !(decide_False (P := c = _)) by done. cbn [orb].
  destruct s as [|d s]; cbn [bool_decide head tail].
  - rewrite bool_decide_true by done. cbn [orb]. split; apply IH; lia.
  - rewrite (bool_decide_false (d :: s = [])) by done. cbn [orb]. split; [|apply IH; lia].
    unfold HasPrefix. cbn [length take drop]. destruct (decide (d = c)) as [->|Hd].
    + rewrite (bool_decide_true (Some c = Some c)) by done. cbn [negb]. rewrite (proj1 (IH f s ltac:(lia))). unfold HasPrefix.
      repeat case_bool_decide; congruence.
    + rewrite (bool_decide_false (Some d = Some c)) by congruence. cbn [negb].
      rewrite (bool_decide_false (d :: take _ s = c :: lit)) by congruence. apply IH. lia.
Qed.

Lemma strip_stars_literal lit p : Forall plain_char lit -> lit <> [] -> strip_stars (lit ++ p) = (false, lit ++ p).
Proof.
  intros HF Hne. destruct HF as [|c lit (H1 & _)]; [done|]. cbn [app strip_stars]. by destruct c.
Qed.

Lemma Match_literal lit name : Forall plain_char lit -> Match lit name = Some (bool_decide (name = lit)).
Proof.
  intros HF. unfold Match. destruct lit as [|c lit]; [cbn; f_equal; by apply bool_decide_ext|]. cbn [Match_loop length]. unfold scanChunk.
  rewrite <- (app_nil_r (c :: lit)) at 1. rewrite strip_stars_literal by done. rewrite app_nil_r.
  pose proof (scan_literal (c :: lit) [] HF (or_introl eq_refl)) as E. rewrite app_nil_r in E. rewrite E. cbn [andb].
  unfold matchChunk. rewrite (proj1 (matchChunk_literal _ _ name HF (Nat.lt_succ_diag_r _))). cbn [mbind option_bind].
  destruct (HasPrefix name (c :: lit)) eqn:Hp; cbn [mbind option_bind].
  - apply HasPrefix_spec in Hp as [t ->]. rewrite drop_app_length, (bool_decide_true ([] = [])) by done. cbn [negb]. rewrite orb_false_r.
    destruct t as [|d t]; cbn [bool_decide].
    + rewrite app_nil_r, !bool_decide_true by done. done.
    + rewrite (bool_decide_false (d :: t = [])), (bool_decide_false (_ ++ _ = _)); [done| |done].
      intros E2. apply (f_equal length) in E2. rewrite length_app in E2. cbn in E2. lia.
  - rewrite bool_decide_false; [done|]. intros ->. rewrite (proj2 (HasPrefix_spec _ _)) in Hp; [done|]. exists []. by rewrite app_nil_r.
Qed.

(** A literal prefix followed by a star. *)
Lemma Match_prefix lit name : Forall plain_char lit -> lit <> [] ->
  Match (lit ++ str "*") name = Some (HasPrefix name lit && negb (bool_decide (Separator ∈ drop (length lit) name))).
Proof.
  intros HF Hne. unfold Match. rewrite length_app, Nat.add_comm. cbn [length Nat.add Match_loop].
  destruct (lit ++ str "*") as [|c p] eqn:Ep; [by destruct lit|]. rewrite <- Ep. unfold scanChunk.
  rewrite strip_stars_literal, scan_literal by auto. cbn [andb]. unfold matchChunk.
  rewrite (proj1 (matchChunk_literal _ _ name HF (Nat.lt_succ_diag_r _))). cbn [mbind option_bind]. destruct (HasPrefix name lit); [|done].
  rewrite (bool_decide_false (str "*" = [])) by done. cbn [negb]. by rewrite orb_true_r.
Qed.
