(* ===== verification/Keyspace.v ===== *)
(** * The sharded keyspace (internal/engine/keyspace.go)

    256 shards, each a map from keys to entries behind its own lock, and one
    counter of keys.  Every function is written out of the map accesses of the
    source ([store], [remove]) and the counter updates; the cached millisecond
    clock is an argument.  Sorted sets and vector indexes are values of two type
    parameters: the keyspace only moves them.

    The reference is a plain map from keys to entries: [abs] forgets the shards,
    and the theorems show that each operation is the plain one and that the
    counter is the number of entries. *)

From S2P Require Import Prelude SetDs HashDs ListDs Stream.

(** ** Sharding *)

Definition NumShards : nat := 256.

Definition offset64 : Z := 14695981039346656037.
Definition prime64 : Z := 1099511628211.

(** [hash = (hash ^ uint64(c)) * prime64]. *)
Definition fnv_step (hash : Z) (c : byte) : Z := uint64 (Z.lxor hash (b2z c) * prime64).

Fixpoint fnv_tail (s : bytes) (hash : Z) : Z :=
  match s with
  | [] => hash
  | a :: s' => fnv_tail s' (fnv_step hash a)
  end.

(** Four bytes per iteration while at least four are left, then one by one. *)
Fixpoint fnv_unrolled (s : bytes) (hash : Z) : Z :=
  match s with
  | a :: b :: c :: d :: s' =>
      let hash := fnv_step hash a in
      let hash := fnv_step hash b in
      let hash := fnv_step hash c in
      let hash := fnv_step hash d in
      fnv_unrolled s' hash
  | _ => fnv_tail s hash
  end.

Definition fnv1a (s : bytes) : Z := fnv_unrolled s offset64.

Definition shardIdx (key : bytes) : nat := Z.to_nat (Z.land (fnv1a key) (Z.of_nat NumShards - 1)).

(** ** Entries *)

Inductive EntryType :=
| TypeString | TypeHash | TypeList | TypeSet | TypeZSet | TypeVector | TypeStream.

#[global] Instance EntryType_eq_dec : EqDecision EntryType.
Proof. solve_decision. Defined.

Inductive ks_error :=
| WRONGTYPE      (** WRONGTYPE Operation against a key holding the wrong kind of value *)
| ErrNotInteger  (** ERR value is not an integer or out of range *).

Section Keyspace.
Context {SkipList VectorIndex : Type}.

Inductive Value :=
| VString (s : bytes)
| VHash (h : Hash)
| VList (l : List_)
| VSet (s : SetDs.Set_)
| VZSet (z : SkipList)
| VVector (v : VectorIndex)
| VStream (s : Stream).

Record Entry := mkE {
  Type_ : EntryType;
  Value_ : Value;
  ExpiresAt : Z;
  UpdatedAt : Z;
  LastAccessedAt : Z
}.

Definition IsExpired (e : Entry) (nowMilli : Z) : bool :=
  (0 <? ExpiresAt e) && (ExpiresAt e <=? nowMilli).

Abbreviation Shard := (gmap bytes Entry).

Record Keyspace := mkKs { shards : list Shard; keyCount : Z }.

Definition NewKeyspace : Keyspace := mkKs (replicate NumShards ∅) 0.

(** ** Accesses to a shard and to the counter *)

Definition getShard (ks : Keyspace) (key : bytes) : Shard :=
  default ∅ (shards ks !! shardIdx key).

(** [shard.entries[key]]. *)
Definition look (ks : Keyspace) (key : bytes) : option Entry := getShard ks key !! key.

(** [shard.entries[key] = e]. *)
Definition store (ks : Keyspace) (key : bytes) (e : Entry) : Keyspace :=
  mkKs (alter (fun m => <[key := e]> m) (shardIdx key) (shards ks)) (keyCount ks).

(** [delete(shard.entries, key)]. *)
Definition remove (ks : Keyspace) (key : bytes) : Keyspace :=
  mkKs (alter (fun m => delete key m) (shardIdx key) (shards ks)) (keyCount ks).

(** [ks.keyCount.Add(d)]. *)
Definition addCount (ks : Keyspace) (d : Z) : Keyspace :=
  mkKs (shards ks) (int64 (keyCount ks + d)).

Definition touch (e : Entry) (now : Z) : Entry :=
  mkE (Type_ e) (Value_ e) (ExpiresAt e) now now.

Definition newString (v : bytes) (now : Z) : Entry := mkE TypeString (VString v) 0 now now.

(** ** Operations *)

(** The second critical section of [Get]. *)
Definition Get_expire (ks : Keyspace) (now : Z) (key : bytes) : Keyspace :=
  match look ks key with
  | Some e => if IsExpired e now then addCount (remove ks key) (-1) else ks
  | None => ks
  end.

Definition Get (ks : Keyspace) (now : Z) (key : bytes) : Keyspace * option Entry :=
  match look ks key with
  | None => (ks, None)
  | Some entry =>
      if 0 <? ExpiresAt entry then
        if IsExpired entry now then (Get_expire ks now key, None) else (ks, Some entry)
      else (ks, Some entry)
  end.

Definition SetString (ks : Keyspace) (now : Z) (key val : bytes) : Keyspace :=
  match look ks key with
  | Some existing =>
      if decide (Type_ existing = TypeString)
      then store ks key (mkE (Type_ existing) (VString val) 0 now now)
      else addCount (store ks key (newString val now)) 1
  | None => addCount (store ks key (newString val now)) 1
  end.

Definition Set_ (ks : Keyspace) (now : Z) (key : bytes) (entry : Entry) : Keyspace :=
  let entry := touch entry now in
  let ks := match look ks key with None => addCount ks 1 | Some _ => ks end in
  store ks key entry.

Definition SetNX (ks : Keyspace) (now : Z) (key : bytes) (entry : Entry) : Keyspace * bool :=
  match look ks key with
  | Some existing =>
      if IsExpired existing now then
        let ks := addCount (remove ks key) (-1) in
        (addCount (store ks key (touch entry now)) 1, true)
      else (ks, false)
  | None => (addCount (store ks key (touch entry now)) 1, true)
  end.

(** The common beginning of the read-modify-write operations: the entry, after
    an expired one has been dropped. *)
Definition load_live (ks : Keyspace) (now : Z) (key : bytes) : Keyspace * option Entry :=
  match look ks key with
  | Some e =>
      if IsExpired e now then (addCount (remove ks key) (-1), None) else (ks, Some e)
  | None => (ks, None)
  end.

Definition set_value (e : Entry) (v : bytes) (now : Z) : Entry :=
  mkE (Type_ e) (VString v) (ExpiresAt e) now now.

Definition IncrBy (ks : Keyspace) (now : Z) (key : bytes) (delta : Z)
    : Keyspace * res ks_error Z :=
  let '(ks, live) := load_live ks now key in
  match live with
  | None =>
      let newVal := int64 (0 + delta) in
      (addCount (store ks key (newString (FormatInt newVal) now)) 1, Ok newVal)
  | Some entry =>
      if decide (Type_ entry = TypeString) then
        match Value_ entry with
        | VString strVal =>
            match ParseInt strVal with
            | Err _ => (ks, Err ErrNotInteger)
            | Ok current =>
                let newVal := int64 (current + delta) in
                (store ks key (set_value entry (FormatInt newVal) now), Ok newVal)
            end
        | _ => (ks, Err ErrNotInteger)
        end
      else (ks, Err WRONGTYPE)
  end.

Definition Append (ks : Keyspace) (now : Z) (key val : bytes) : Keyspace * res ks_error Z :=
  let '(ks, live) := load_live ks now key in
  match live with
  | None =>
      (addCount (store ks key (newString val now)) 1, Ok (Z.of_nat (length val)))
  | Some entry =>
      if decide (Type_ entry = TypeString) then
        match Value_ entry with
        | VString strVal =>
            let newVal := strVal ++ val in
            (store ks key (set_value entry newVal now), Ok (Z.of_nat (length newVal)))
        | _ => (ks, Err WRONGTYPE)
        end
      else (ks, Err WRONGTYPE)
  end.

(** [creator] is evaluated only when the key is absent. *)
Definition GetOrCreate (ks : Keyspace) (now : Z) (key : bytes) (entryType : EntryType)
    (creator : unit -> Value) : Keyspace * Entry * bool :=
  let '(ks, live) := load_live ks now key in
  match live with
  | None =>
      let entry := mkE entryType (creator ()) 0 now now in
      (addCount (store ks key entry) 1, entry, true)
  | Some entry =>
      let entry := mkE (Type_ entry) (Value_ entry) (ExpiresAt entry) (UpdatedAt entry) now in
      (store ks key entry, entry, false)
  end.

Definition delete_one (st : Keyspace * Z) (key : bytes) : Keyspace * Z :=
  let '(ks, count) := st in
  match look ks key with
  | Some _ => (addCount (remove ks key) (-1), int64 (count + 1))
  | None => (ks, count)
  end.

Definition Delete (ks : Keyspace) (keys : list bytes) : Keyspace * Z :=
  foldl delete_one (ks, 0) keys.

Definition exists_one (now : Z) (st : Keyspace * Z) (key : bytes) : Keyspace * Z :=
  let '(ks, count) := st in
  let '(ks, r) := Get ks now key in
  (ks, match r with Some _ => int64 (count + 1) | None => count end).

Definition Exists (ks : Keyspace) (now : Z) (keys : list bytes) : Keyspace * Z :=
  foldl (exists_one now) (ks, 0) keys.

Definition with_expiry (e : Entry) (t : Z) : Entry :=
  mkE (Type_ e) (Value_ e) t (UpdatedAt e) (LastAccessedAt e).

Definition Expire (ks : Keyspace) (now : Z) (key : bytes) (ttlMillis : Z) : Keyspace * bool :=
  match load_live ks now key with
  | (ks, None) => (ks, false)
  | (ks, Some entry) => (store ks key (with_expiry entry (int64 (now + ttlMillis))), true)
  end.

(** [now] is the clock [Get] reads, [now'] the one read after it. *)
Definition TTL (ks : Keyspace) (now now' : Z) (key : bytes) : Keyspace * Z :=
  match Get ks now key with
  | (ks, None) => (ks, -2)
  | (ks, Some entry) =>
      if ExpiresAt entry =? 0 then (ks, -1)
      else
        let remaining := int64 (ExpiresAt entry - now') in
        (ks, if remaining <=? 0 then -2 else Z.quot remaining 1000)
  end.

Definition PTTL (ks : Keyspace) (now now' : Z) (key : bytes) : Keyspace * Z :=
  match Get ks now key with
  | (ks, None) => (ks, -2)
  | (ks, Some entry) =>
      if ExpiresAt entry =? 0 then (ks, -1)
      else
        let remaining := int64 (ExpiresAt entry - now') in
        (ks, if remaining <=? 0 then -2 else remaining)
  end.

Definition Persist (ks : Keyspace) (now : Z) (key : bytes) : Keyspace * bool :=
  match load_live ks now key with
  | (ks, None) => (ks, false)
  | (ks, Some entry) =>
      if ExpiresAt entry =? 0 then (ks, false)
      else (store ks key (with_expiry entry 0), true)
  end.

Definition TotalKeys (ks : Keyspace) : Z := keyCount ks.

(** [FlushDB] empties the shards one critical section at a time, then resets
    the counter. *)
Definition flush_shard (ks : Keyspace) (i : nat) : Keyspace :=
  mkKs (<[i := ∅]> (shards ks)) (keyCount ks).

Definition flush_count (ks : Keyspace) : Keyspace := mkKs (shards ks) 0.

Definition FlushDB (ks : Keyspace) : Keyspace :=
  flush_count (foldl flush_shard ks (seq 0 NumShards)).

(** One round of the active expiration on shard [i]: [order] is the order in
    which the map of the shard is iterated; at most 20 keys are looked at. *)
Definition reap_one (now : Z) (i : nat) (ks : Keyspace) (key : bytes) : Keyspace :=
  match default ∅ (shards ks !! i) !! key with
  | Some e =>
      if IsExpired e now
      then addCount (mkKs (alter (fun m => delete key m) i (shards ks)) (keyCount ks)) (-1)
      else ks
  | None => ks
  end.

Definition reap_shard (ks : Keyspace) (now : Z) (i : nat) (order : list bytes) : Keyspace :=
  foldl (reap_one now i) ks (take 20 order).

(** ** Eviction *)

Record Candidate := mkCand { Key : bytes; LastAccessed : Z; ShardIdx : nat }.

(** Up to ten keys of shard [i] in its iteration order. *)
Definition sample_shard (ks : Keyspace) (i : nat) (order : list bytes) : list Candidate :=
  omap (fun k => e ← default ∅ (shards ks !! i) !! k; Some (mkCand k (LastAccessedAt e) i))
    (take 10 order).

(** [for i := 0; i < NumShards && len(candidates) < targetCount*3; i++]. *)
Fixpoint sample_loop (ks : Keyspace) (orders : nat -> list bytes) (target : Z)
    (n i : nat) (candidates : list Candidate) : list Candidate :=
  match n with
  | O => candidates
  | S n' =>
      if Z.of_nat (length candidates) <? int64 (target * 3) then
        sample_loop ks orders target n' (S i) (candidates ++ sample_shard ks i (orders i))
      else candidates
  end.

(** The inner loop of the exchange sort: [x] is [candidates[i]], the list the
    ones after it; a smaller one changes places with it. *)
Fixpoint exchange (x : Candidate) (l : list Candidate) : Candidate * list Candidate :=
  match l with
  | [] => (x, [])
  | y :: l' =>
      if LastAccessed y <? LastAccessed x
      then let '(m, r) := exchange y l' in (m, x :: r)
      else let '(m, r) := exchange x l' in (m, y :: r)
  end.

Fixpoint exchange_sort (fuel : nat) (l : list Candidate) : list Candidate :=
  match fuel, l with
  | S f, x :: l' => let '(m, r) := exchange x l' in m :: exchange_sort f r
  | _, _ => l
  end.

Fixpoint evict_loop (ks : Keyspace) (target : Z) (cs : list Candidate) (evicted : Z)
    : Keyspace * Z :=
  match cs with
  | [] => (ks, evicted)
  | c :: cs' =>
      let '(ks, evicted) :=
        match default ∅ (shards ks !! ShardIdx c) !! Key c with
        | Some _ =>
            (addCount (mkKs (alter (fun m => delete (Key c) m) (ShardIdx c) (shards ks))
                         (keyCount ks)) (-1), int64 (evicted + 1))
        | None => (ks, evicted)
        end in
      if target <=? evicted then (ks, evicted) else evict_loop ks target cs' evicted
  end.

Definition EvictLRU (ks : Keyspace) (orders : nat -> list bytes) (targetCount : Z)
    : Keyspace * Z :=
  let targetCount := if targetCount <=? 0 then 10 else targetCount in
  let candidates := sample_loop ks orders targetCount NumShards 0 [] in
  match candidates with
  | [] => (ks, 0)
  | _ => evict_loop ks targetCount (exchange_sort (length candidates) candidates) 0
  end.

(** ** The reference: a plain map

    [abs] forgets the shards.  [placed] says that a shard only holds the keys
    that hash to it, which makes the shards disjoint. *)

Definition abs (ks : Keyspace) : Shard := foldr (∪) ∅ (shards ks).

Definition placed (ss : list Shard) : Prop :=
  forall i m k, ss !! i = Some m -> is_Some (m !! k) -> shardIdx k = i.

Definition wf (ks : Keyspace) : Prop :=
  length (shards ks) = NumShards /\ placed (shards ks).

Lemma shardIdx_lt k : (shardIdx k < NumShards)%nat.
Proof.
  unfold shardIdx. change (Z.of_nat NumShards - 1) with (Z.ones 8).
  rewrite Z.land_ones by lia. pose proof (Z.mod_pos_bound (fnv1a k) (2 ^ 8)).
  unfold NumShards. lia.
Qed.

Lemma union_shards_lookup (ss : list Shard) o k :
  (forall i m k, ss !! i = Some m -> is_Some (m !! k) -> shardIdx k = (o + i)%nat) ->
  foldr (∪) ∅ ss !! k =
    if (o <=? shardIdx k)%nat then ss !! (shardIdx k - o)%nat ≫= (fun m => m !! k) else None.
Proof.
  revert o; induction ss as [|m ss IH]; intros o Hp; cbn [foldr].
  { rewrite lookup_empty. by destruct (_ <=? _)%nat; rewrite ?lookup_nil. }
  assert (forall i m k, ss !! i = Some m -> is_Some (m !! k) -> shardIdx k = (S o + i)%nat) as Hp'.
  { intros i m' k' Hi Hk. rewrite (Hp (S i) m' k') by done. lia. }
  assert (is_Some (m !! k) -> shardIdx k = o) as H0.
  { intros Hk. rewrite (Hp 0%nat m k) by done. lia. }
  rewrite lookup_union, (IH (S o) Hp').
  destruct (Nat.leb_spec o (shardIdx k)), (Nat.leb_spec (S o) (shardIdx k)); try lia.
  - replace (shardIdx k - o)%nat with (S (shardIdx k - S o)) by lia. cbn [lookup list_lookup].
    destruct (m !! k) eqn:E; [rewrite H0 in * by eauto; lia|].
    by rewrite (left_id_L None (∪)).
  - replace (shardIdx k - o)%nat with O by lia. cbn. by rewrite (right_id_L None (∪)).
  - destruct (m !! k) eqn:E; [rewrite H0 in * by eauto; lia|]. done.
Qed.

Lemma abs_lookup ks k : wf ks -> abs ks !! k = look ks k.
Proof.
  intros [_ Hp]. unfold abs, look, getShard.
  rewrite (union_shards_lookup _ 0 k) by (intros; cbn; by eapply Hp).
  cbn [Nat.leb]. rewrite Nat.sub_0_r. by destruct (shards ks !! shardIdx k).
Qed.

Lemma getShard_Some ks k : wf ks -> shards ks !! shardIdx k = Some (getShard ks k).
Proof.
  intros [Hl _]. unfold getShard.
  destruct (lookup_lt_is_Some_2 (shards ks) (shardIdx k)) as [m ->]; [|done].
  rewrite Hl. apply shardIdx_lt.
Qed.

Lemma store_wf ks k e : wf ks -> wf (store ks k e).
Proof.
  intros [Hl Hp]. split; cbn; [by rewrite length_alter|]. intros i m k' Hi Hk.
  destruct (decide (i = shardIdx k)) as [->|Hne].
  - rewrite list_lookup_alter_eq in Hi. apply fmap_Some in Hi as (m' & Hm' & ->).
    destruct (decide (k' = k)) as [->|]; [done|]. rewrite lookup_insert_ne in Hk by done. eauto.
  - rewrite list_lookup_alter_ne in Hi by done. eauto.
Qed.

Lemma remove_wf ks k : wf ks -> wf (remove ks k).
Proof.
  intros [Hl Hp]. split; cbn; [by rewrite length_alter|]. intros i m k' Hi Hk.
  destruct (decide (i = shardIdx k)) as [->|Hne].
  - rewrite list_lookup_alter_eq in Hi. apply fmap_Some in Hi as (m' & Hm' & ->).
    destruct Hk as [v [_ Hk]%lookup_delete_Some]. eauto.
  - rewrite list_lookup_alter_ne in Hi by done. eauto.
Qed.

Lemma addCount_wf ks d : wf ks -> wf (addCount ks d).
Proof. done. Qed.

Lemma look_store ks k e k' :
  wf ks -> look (store ks k e) k' = if decide (k' = k) then Some e else look ks k'.
Proof.
  intros Hwf. unfold look, getShard at 1, store; cbn.
  destruct (decide (shardIdx k' = shardIdx k)) as [E|E].
  - rewrite E, list_lookup_alter_eq, (getShard_Some ks k Hwf). cbn.
    unfold getShard. rewrite E. case_decide; subst.
    + by rewrite lookup_insert_eq.
    + by rewrite lookup_insert_ne.
  - rewrite list_lookup_alter_ne by done. rewrite decide_False by congruence. done.
Qed.

Lemma look_remove ks k k' :
  wf ks -> look (remove ks k) k' = if decide (k' = k) then None else look ks k'.
Proof.
  intros Hwf. unfold look, getShard at 1, remove; cbn.
  destruct (decide (shardIdx k' = shardIdx k)) as [E|E].
  - rewrite E, list_lookup_alter_eq, (getShard_Some ks k Hwf). cbn.
    unfold getShard. rewrite E. case_decide; subst.
    + by rewrite lookup_delete_eq.
    + by rewrite lookup_delete_ne.
  - rewrite list_lookup_alter_ne by done. rewrite decide_False by congruence. done.
Qed.

Lemma abs_store ks k e : wf ks -> abs (store ks k e) = <[k := e]> (abs ks).
Proof.
  intros Hwf. apply map_eq. intros k'.
  rewrite abs_lookup, look_store by (by try apply store_wf). case_decide; subst.
  - by rewrite lookup_insert_eq.
  - by rewrite lookup_insert_ne, abs_lookup.
Qed.

Lemma abs_remove ks k : wf ks -> abs (remove ks k) = delete k (abs ks).
Proof.
  intros Hwf. apply map_eq. intros k'.
  rewrite abs_lookup, look_remove by (by try apply remove_wf). case_decide; subst.
  - by rewrite lookup_delete_eq.
  - by rewrite lookup_delete_ne, abs_lookup.
Qed.

Lemma abs_addCount ks d : abs (addCount ks d) = abs ks.
Proof. done. Qed.

(** A key found in shard [i] is a key of that shard. *)
Lemma shard_lookup ks i k e :
  wf ks -> default ∅ (shards ks !! i) !! k = Some e ->
  i = shardIdx k /\ look ks k = Some e.
Proof.
  intros [_ Hp] H. destruct (shards ks !! i) as [m|] eqn:Ei; cbn in H; [|by rewrite lookup_empty in H].
  assert (shardIdx k = i) as <- by (eapply Hp; eauto).
  split; [done|]. unfold look, getShard. by rewrite Ei.
Qed.

(** ** The operations of the reference *)

(** The map without [key] if its entry has expired. *)
Definition purge (now : Z) (m : Shard) (key : bytes) : Shard :=
  match m !! key with
  | Some e => if IsExpired e now then delete key m else m
  | None => m
  end.

(** The entry of [key] unless it has expired. *)
Definition live (now : Z) (m : Shard) (key : bytes) : option Entry :=
  match m !! key with
  | Some e => if IsExpired e now then None else Some e
  | None => None
  end.

Definition spec_ttl (e : Entry) (now' : Z) : option Z :=
  if ExpiresAt e =? 0 then None else Some (int64 (ExpiresAt e - now')).

Inductive kop :=
| KGet (now : Z) (k : bytes)
| KSetString (now : Z) (k v : bytes)
| KSet (now : Z) (k : bytes) (e : Entry)
| KSetNX (now : Z) (k : bytes) (e : Entry)
| KIncrBy (now : Z) (k : bytes) (delta : Z)
| KAppend (now : Z) (k v : bytes)
| KGetOrCreate (now : Z) (k : bytes) (t : EntryType) (v : unit -> Value)
| KDelete (keys : list bytes)
| KExists (now : Z) (keys : list bytes)
| KExpire (now : Z) (k : bytes) (ttl : Z)
| KTTL (now now' : Z) (k : bytes)
| KPTTL (now now' : Z) (k : bytes)
| KPersist (now : Z) (k : bytes)
| KFlush
| KReap (now : Z) (i : nat) (order : list bytes).

Inductive reply :=
| RUnit
| RBool (b : bool)
| RInt (z : Z)
| RErr (e : ks_error)
| REntry (e : option Entry)
| RCreated (e : Entry) (created : bool).

Definition of_res (r : res ks_error Z) : reply :=
  match r with Ok z => RInt z | Err e => RErr e end.

Definition exec (ks : Keyspace) (o : kop) : Keyspace * reply :=
  match o with
  | KGet now k => let '(ks, e) := Get ks now k in (ks, REntry e)
  | KSetString now k v => (SetString ks now k v, RUnit)
  | KSet now k e => (Set_ ks now k e, RUnit)
  | KSetNX now k e => let '(ks, b) := SetNX ks now k e in (ks, RBool b)
  | KIncrBy now k d => let '(ks, r) := IncrBy ks now k d in (ks, of_res r)
  | KAppend now k v => let '(ks, r) := Append ks now k v in (ks, of_res r)
  | KGetOrCreate now k t v => let '(ks, e, b) := GetOrCreate ks now k t v in (ks, RCreated e b)
  | KDelete keys => let '(ks, n) := Delete ks keys in (ks, RInt n)
  | KExists now keys => let '(ks, n) := Exists ks now keys in (ks, RInt n)
  | KExpire now k ttl => let '(ks, b) := Expire ks now k ttl in (ks, RBool b)
  | KTTL now now' k => let '(ks, n) := TTL ks now now' k in (ks, RInt n)
  | KPTTL now now' k => let '(ks, n) := PTTL ks now now' k in (ks, RInt n)
  | KPersist now k => let '(ks, b) := Persist ks now k in (ks, RBool b)
  | KFlush => (FlushDB ks, RUnit)
  | KReap now i order => (reap_shard ks now i order, RUnit)
  end.

(** What a text value of [key] becomes under [f], which fails on a value that
    is not suitable: the shape of INCRBY and APPEND. *)
Definition spec_update (m : Shard) (now : Z) (key : bytes) (init : bytes * Z)
    (wrong : ks_error) (f : bytes -> res ks_error (bytes * Z)) : Shard * reply :=
  let m := purge now m key in
  match m !! key with
  | None => (<[key := newString (fst init) now]> m, RInt (snd init))
  | Some e =>
      match (if decide (Type_ e = TypeString) then
               match Value_ e with VString s => f s | _ => Err wrong end
             else Err WRONGTYPE) with
      | Ok (s, r) => (<[key := set_value e s now]> m, RInt r)
      | Err err => (m, RErr err)
      end
  end.

Definition spec (m : Shard) (o : kop) : Shard * reply :=
  match o with
  | KGet now k => (purge now m k, REntry (live now m k))
  | KSetString now k v => (<[k := newString v now]> m, RUnit)
  | KSet now k e => (<[k := touch e now]> m, RUnit)
  | KSetNX now k e =>
      match live now m k with
      | None => (<[k := touch e now]> m, RBool true)
      | Some _ => (m, RBool false)
      end
  | KIncrBy now k d =>
      let add n := (FormatInt (int64 (n + d)), int64 (n + d)) in
      spec_update m now k (add 0) ErrNotInteger
        (fun s => match ParseInt s with Ok n => Ok (add n) | Err _ => Err ErrNotInteger end)
  | KAppend now k v =>
      spec_update m now k (v, Z.of_nat (length v)) WRONGTYPE
        (fun s => Ok (s ++ v, Z.of_nat (length (s ++ v))))
  | KGetOrCreate now k t v =>
      let '(e, created) :=
        match live now m k with
        | None => (mkE t (v ()) 0 now now, true)
        | Some e => (mkE (Type_ e) (Value_ e) (ExpiresAt e) (UpdatedAt e) now, false)
        end in
      (<[k := e]> m, RCreated e created)
  | KDelete keys =>
      let m' := filter (fun p => p.1 ∉ keys) m in
      (m', RInt (Z.of_nat (size m) - Z.of_nat (size m')))
  | KExists now keys =>
      (foldl (purge now) m keys,
       RInt (Z.of_nat (length (filter (fun k => is_Some (live now m k)) keys))))
  | KExpire now k ttl =>
      match live now m k with
      | None => (purge now m k, RBool false)
      | Some e => (<[k := with_expiry e (int64 (now + ttl))]> m, RBool true)
      end
  | KTTL now now' k =>
      (purge now m k,
       RInt (match live now m k with
             | None => -2
             | Some e => match spec_ttl e now' with
                         | None => -1
                         | Some r => if r <=? 0 then -2 else Z.quot r 1000
                         end
             end))
  | KPTTL now now' k =>
      (purge now m k,
       RInt (match live now m k with
             | None => -2
             | Some e => match spec_ttl e now' with
                         | None => -1
                         | Some r => if r <=? 0 then -2 else r
                         end
             end))
  | KPersist now k =>
      match live now m k with
      | None => (purge now m k, RBool false)
      | Some e => if ExpiresAt e =? 0 then (m, RBool false)
                  else (<[k := with_expiry e 0]> m, RBool true)
      end
  | KFlush => (∅, RUnit)
  | KReap now i order => (foldl (purge now) m (take 20 order), RUnit)
  end.

(** ** Each operation is the reference operation *)

Create Rewrite HintDb ks.
#[local] Hint Resolve store_wf remove_wf addCount_wf : core.
#[local] Hint Rewrite abs_store abs_remove abs_addCount using auto : ks.

Lemma load_live_spec ks now k :
  wf ks ->
  let '(ks', l) := load_live ks now k in
  wf ks' /\ abs ks' = purge now (abs ks) k /\ l = live now (abs ks) k /\ look ks' k = l.
Proof.
  intros Hwf. unfold load_live, purge, live. rewrite abs_lookup by done.
  destruct (look ks k) as [e|] eqn:E; [|by auto]. destruct (IsExpired e now); [|by auto].
  split; [by auto|]. rewrite abs_addCount, abs_remove by done. split; [done|]. split; [done|].
  change (look (remove ks k) k = None). rewrite look_remove by done. by rewrite decide_True.
Qed.

Lemma Get_load_live ks now k : Get ks now k = load_live ks now k.
Proof.
  unfold Get, load_live. destruct (look ks k) as [e|] eqn:E; [|done].
  unfold Get_expire, IsExpired. rewrite E. unfold IsExpired.
  destruct (0 <? ExpiresAt e); [|done]. cbn. by destruct (_ <=? _).
Qed.

Lemma live_purge now m k : purge now m k !! k = live now m k.
Proof.
  unfold purge, live. destruct (m !! k) as [e|] eqn:E; [|done].
  case_match; [apply lookup_delete_eq|done].
Qed.

Lemma insert_purge now m k e : <[k := e]> (purge now m k) = <[k := e]> m.
Proof.
  unfold purge. destruct (m !! k); [|done]. case_match; [|done]. apply insert_delete_eq.
Qed.

Lemma purge_live now m k e : live now m k = Some e -> purge now m k = m.
Proof. unfold live, purge. destruct (m !! k); [|done]. by case_match. Qed.

(** The read-modify-write operations follow [spec_update]. *)
Lemma update_spec ks now k init wrong f :
  wf ks ->
  let '(ks1, l) := load_live ks now k in
  let '(ks', r) :=
    match l with
    | None => (addCount (store ks1 k (newString (fst init) now)) 1, RInt (snd init))
    | Some e =>
        match (if decide (Type_ e = TypeString) then
                 match Value_ e with VString s => f s | _ => Err wrong end
               else Err WRONGTYPE) with
        | Ok (s, r) => (store ks1 k (set_value e s now), RInt r)
        | Err err => (ks1, RErr err)
        end
    end in
  wf ks' /\ spec_update (abs ks) now k init wrong f = (abs ks', r).
Proof.
  intros Hwf. pose proof (load_live_spec ks now k Hwf) as HL.
  destruct (load_live ks now k) as [ks1 l]. destruct HL as (Hwf1 & Ha & Hl & Hk).
  unfold spec_update. rewrite live_purge, <- Hl, <- Ha. destruct l as [e|].
  - destruct (if decide _ then _ else _) as [[s r]|err]; [|done].
    split; [by auto|]. by autorewrite with ks.
  - split; [by auto|]. by autorewrite with ks.
Qed.

Lemma IncrBy_refines ks now k d :
  wf ks -> wf (fst (exec ks (KIncrBy now k d))) /\
  spec (abs ks) (KIncrBy now k d) = (abs (fst (exec ks (KIncrBy now k d))), snd (exec ks (KIncrBy now k d))).
Proof.
  intros Hwf. cbn [exec spec]. unfold IncrBy.
  pose proof (update_spec ks now k (FormatInt (int64 (0 + d)), int64 (0 + d)) ErrNotInteger
    (fun s => match ParseInt s with
              | Ok n => Ok (FormatInt (int64 (n + d)), int64 (n + d))
              | Err _ => Err ErrNotInteger end) Hwf) as H.
  destruct (load_live ks now k) as [ks1 [e|]]; [|exact H].
  case_decide; [|exact H]. destruct (Value_ e); try exact H.
  destruct (ParseInt s); exact H.
Qed.

Lemma Append_refines ks now k v :
  wf ks -> wf (fst (exec ks (KAppend now k v))) /\
  spec (abs ks) (KAppend now k v) = (abs (fst (exec ks (KAppend now k v))), snd (exec ks (KAppend now k v))).
Proof.
  intros Hwf. cbn [exec spec]. unfold Append.
  pose proof (update_spec ks now k (v, Z.of_nat (length v)) WRONGTYPE
    (fun s => Ok (s ++ v, Z.of_nat (length (s ++ v)))) Hwf) as H.
  destruct (load_live ks now k) as [ks1 [e|]]; [|exact H].
  case_decide; [|exact H]. destruct (Value_ e); exact H.
Qed.

Lemma filter_delete_insert (m : Shard) k keys :
  filter (fun p => p.1 ∉ keys) (delete k m) = filter (fun p : bytes * Entry => p.1 ∉ k :: keys) m.
Proof.
  apply map_eq. intros x. apply option_eq. intros v.
  rewrite !map_lookup_filter_Some, lookup_delete_Some. cbn. set_solver.
Qed.

Lemma Delete_loop ks n keys :
  wf ks -> 0 <= n -> n + Z.of_nat (length keys) < 2 ^ 63 ->
  let '(ks', n') := foldl delete_one (ks, n) keys in
  wf ks' /\ abs ks' = filter (fun p => p.1 ∉ keys) (abs ks) /\
  n' = n + (Z.of_nat (size (abs ks)) - Z.of_nat (size (abs ks'))).
Proof.
  revert ks n; induction keys as [|k keys IH]; intros ks n Hwf Hn Hl; cbn [foldl].
  { split; [done|]. split; [|lia]. rewrite map_filter_id; [done|]. intros; set_solver. }
  cbn [length] in Hl. cbn [delete_one]. destruct (look ks k) as [e|] eqn:E.
  - assert (wf (addCount (remove ks k) (-1))) as Hwf1 by auto.
    specialize (IH _ (int64 (n + 1)) Hwf1).
    rewrite int64_id in * by (unfold is_int64; lia).
    destruct (foldl _ _ keys) as [ks' n']. destruct IH as (H1 & H2 & H3); [lia|lia|].
    rewrite abs_addCount, abs_remove in * by done. split; [done|].
    split; [rewrite H2; apply filter_delete_insert|].
    rewrite <- abs_lookup in E by done. rewrite H3.
    rewrite <- (insert_delete_id (abs ks) k e E) at 2.
    rewrite map_size_insert_None by apply lookup_delete_eq. lia.
  - specialize (IH ks n Hwf). destruct (foldl _ _ keys) as [ks' n'].
    destruct IH as (H1 & H2 & H3); [lia|lia|]. split; [done|]. split; [|done].
    rewrite H2, <- filter_delete_insert, delete_id; [done|]. by rewrite abs_lookup.
Qed.

Lemma purge_live_other now m k k' : live now (purge now m k) k' = live now m k'.
Proof.
  unfold purge. destruct (m !! k) as [e|] eqn:E; [|done]. case_match eqn:Ee; [|done].
  unfold live. destruct (decide (k' = k)) as [->|].
  - by rewrite lookup_delete_eq, E, Ee.
  - by rewrite lookup_delete_ne.
Qed.

Lemma Exists_loop ks now n keys :
  wf ks -> 0 <= n -> n + Z.of_nat (length keys) < 2 ^ 63 ->
  let '(ks', n') := foldl (exists_one now) (ks, n) keys in
  wf ks' /\ abs ks' = foldl (purge now) (abs ks) keys /\
  n' = n + Z.of_nat (length (filter (fun k => is_Some (live now (abs ks) k)) keys)).
Proof.
  revert ks n; induction keys as [|k keys IH]; intros ks n Hwf Hn Hl; cbn [foldl].
  { rewrite filter_nil. cbn. split; [done|]. split; [done|lia]. }
  cbn [length] in Hl. unfold exists_one at 2. rewrite Get_load_live.
  pose proof (load_live_spec ks now k Hwf) as HL.
  destruct (load_live ks now k) as [ks1 l]. destruct HL as (Hwf1 & Ha & Hlv & _).
  set (n1 := match l with Some _ => _ | None => _ end).
  assert (n1 = n + if decide (is_Some (live now (abs ks) k)) then 1 else 0) as En.
  { subst n1. rewrite <- Hlv. destruct l as [e|].
    - rewrite decide_True by eauto. apply int64_id. unfold is_int64. lia.
    - rewrite decide_False by (by intros [? ?]). lia. }
  specialize (IH ks1 n1 Hwf1). destruct (foldl _ _ keys) as [ks' n'].
  destruct IH as (H1 & H2 & H3); [case_decide; lia|case_decide; lia|].
  split; [done|]. rewrite <- Ha. split; [done|]. rewrite H3, filter_cons.
  rewrite (list_filter_iff (fun x => is_Some (live now (abs ks1) x))
             (fun x => is_Some (live now (abs ks) x)))
    by (intros x; by rewrite Ha, purge_live_other).
  case_decide; cbn [length]; lia.
Qed.

Lemma flush_shards ks n :
  (n <= length (shards ks))%nat ->
  shards (foldl flush_shard ks (seq 0 n)) = replicate n ∅ ++ drop n (shards ks).
Proof.
  induction n as [|n IH]; intros Hn; [by rewrite drop_0|].
  rewrite seq_S, foldl_app. cbn [foldl]. unfold flush_shard at 1. cbn [shards].
  rewrite IH by lia. cbn [plus].
  destruct (lookup_lt_is_Some_2 (shards ks) n) as [m Hm]; [lia|].
  rewrite (drop_S _ _ _ Hm). rewrite insert_app_r_alt by (rewrite length_replicate; lia).
  rewrite length_replicate, Nat.sub_diag. cbn [insert list_insert].
  by rewrite replicate_S_end, <- app_assoc.
Qed.

Lemma FlushDB_spec ks : wf ks -> FlushDB ks = NewKeyspace.
Proof.
  intros [Hl _]. unfold FlushDB, flush_count, NewKeyspace. f_equal.
  rewrite flush_shards by lia. rewrite <- Hl, drop_all. apply app_nil_r.
Qed.

Lemma NewKeyspace_wf : wf NewKeyspace.
Proof.
  split; [apply length_replicate|]. intros i m k Hi [e Hk]. unfold NewKeyspace in Hi; cbn [shards] in Hi.
  apply lookup_replicate in Hi as [-> _]. by rewrite lookup_empty in Hk.
Qed.

Lemma NewKeyspace_abs : abs NewKeyspace = ∅.
Proof.
  apply map_eq. intros k. rewrite abs_lookup by apply NewKeyspace_wf.
  unfold look, getShard, NewKeyspace. cbn [shards].
  rewrite lookup_replicate_2 by apply shardIdx_lt. done.
Qed.

Lemma NewKeyspace_look k : look NewKeyspace k = None.
Proof. rewrite <- abs_lookup by apply NewKeyspace_wf. by rewrite NewKeyspace_abs, lookup_empty. Qed.

(** Reaping key [k] of shard [i] is passive expiration of [k]. *)
Lemma reap_one_live ks now i k :
  wf ks -> shardIdx k = i -> reap_one now i ks k = fst (load_live ks now k).
Proof.
  intros Hwf <-. unfold reap_one, load_live, look, getShard.
  destruct (default ∅ (shards ks !! shardIdx k) !! k); [|done]. by destruct (IsExpired _ _).
Qed.

Lemma reap_spec ks now i keys :
  wf ks -> Forall (fun k => shardIdx k = i) keys ->
  wf (foldl (reap_one now i) ks keys) /\
  abs (foldl (reap_one now i) ks keys) = foldl (purge now) (abs ks) keys.
Proof.
  intros Hwf HF; revert ks Hwf; induction HF as [|k keys Hk HF IH]; intros ks Hwf; cbn [foldl]; [done|].
  rewrite reap_one_live by done. pose proof (load_live_spec ks now k Hwf) as HL.
  destruct (load_live ks now k) as [ks1 l]. destruct HL as (Hwf1 & Ha & _).
  rewrite <- Ha. by apply IH.
Qed.

(** An operation the program can run: argument lists shorter than 2^63, and an
    iteration order of a shard that lists keys of that shard. *)
Definition legal (o : kop) : Prop :=
  match o with
  | KDelete keys | KExists _ keys => Z.of_nat (length keys) < 2 ^ 63
  | KReap _ i order => Forall (fun k => shardIdx k = i) order
  | _ => True
  end.

Lemma refines ks o :
  wf ks -> legal o ->
  wf (fst (exec ks o)) /\ spec (abs ks) o = (abs (fst (exec ks o)), snd (exec ks o)).
Proof.
  intros Hwf Hleg.
  destruct o; try (by apply IncrBy_refines); try (by apply Append_refines); cbn [exec spec].
  - rewrite Get_load_live. pose proof (load_live_spec ks now k Hwf) as HL.
    destruct (load_live ks now k) as [ks1 l]. cbn [fst snd]. destruct HL as (? & -> & -> & _). done.
  - unfold SetString. cbn [fst snd]. destruct (look ks k) as [e|]; [case_decide as He|].
    + split; [by auto|]. rewrite abs_store by done. by rewrite He.
    + split; [by auto|]. by autorewrite with ks.
    + split; [by auto|]. by autorewrite with ks.
  - unfold Set_. cbn [fst snd]. destruct (look ks k); (split; [by auto|]).
    + by rewrite abs_store.
    + rewrite abs_store; [done|by auto].
  - unfold SetNX, live. rewrite abs_lookup by done.
    destruct (look ks k) as [e0|]; [destruct (IsExpired e0 now)|]; cbn [fst snd].
    + split; [by auto|]. autorewrite with ks. by rewrite insert_delete_eq.
    + done.
    + split; [by auto|]. by autorewrite with ks.
  - unfold GetOrCreate. pose proof (load_live_spec ks now k Hwf) as HL.
    destruct (load_live ks now k) as [ks1 [e|]]; destruct HL as (? & Ha & <- & _); cbn [fst snd].
    + split; [by auto|]. rewrite abs_store by done. by rewrite Ha, insert_purge.
    + split; [by auto|]. autorewrite with ks. by rewrite Ha, insert_purge.
  - pose proof (Delete_loop ks 0 keys Hwf ltac:(lia) ltac:(cbn in Hleg; lia)) as HD.
    unfold Delete. destruct (foldl _ _ keys) as [ks' n'].
    destruct HD as (? & Ha & ->). cbn [fst snd]. split; [done|]. rewrite <- Ha.
    f_equal; f_equal; lia.
  - pose proof (Exists_loop ks now 0 keys Hwf ltac:(lia) ltac:(cbn in Hleg; lia)) as HD.
    unfold Exists. destruct (foldl _ _ keys) as [ks' n'].
    cbn [fst snd]. destruct HD as (? & -> & ->). by rewrite Z.add_0_l.
  - unfold Expire. pose proof (load_live_spec ks now k Hwf) as HL.
    destruct (load_live ks now k) as [ks1 [e|]]; destruct HL as (? & Ha & Hl & _); rewrite <- Hl.
    + cbn [fst snd]. split; [by auto|]. rewrite abs_store by done.
      by rewrite Ha, insert_purge.
    + cbn [fst snd]. by rewrite Ha.
  - unfold TTL, spec_ttl. rewrite Get_load_live. pose proof (load_live_spec ks now k Hwf) as HL.
    destruct (load_live ks now k) as [ks1 [e|]]; destruct HL as (? & Ha & Hl & _);
      rewrite <- Ha, <- Hl; [|done].
    by destruct (ExpiresAt e =? 0).
  - unfold PTTL, spec_ttl. rewrite Get_load_live. pose proof (load_live_spec ks now k Hwf) as HL.
    destruct (load_live ks now k) as [ks1 [e|]]; destruct HL as (? & Ha & Hl & _);
      rewrite <- Ha, <- Hl; [|done].
    by destruct (ExpiresAt e =? 0).
  - unfold Persist. pose proof (load_live_spec ks now k Hwf) as HL.
    destruct (load_live ks now k) as [ks1 [e|]]; destruct HL as (? & Ha & Hl & _); rewrite <- Hl.
    + destruct (ExpiresAt e =? 0); cbn [fst snd].
      * split; [done|]. by rewrite Ha, (purge_live _ _ _ e).
      * split; [by auto|]. rewrite abs_store by done. by rewrite Ha, insert_purge.
    + cbn [fst snd]. by rewrite Ha.
  - cbn [fst snd]. rewrite FlushDB_spec by done. split; [apply NewKeyspace_wf|].
    by rewrite NewKeyspace_abs.
  - cbn [fst snd]. unfold reap_shard. destruct (reap_spec ks now i (take 20 order) Hwf) as [? ->]; [|done].
    by apply Forall_take.
Qed.

(** Running a sequence of operations. *)
Fixpoint run (ks : Keyspace) (os : list kop) : Keyspace * list reply :=
  match os with
  | [] => (ks, [])
  | o :: os' =>
      let '(ks, r) := exec ks o in
      let '(ks, rs) := run ks os' in (ks, r :: rs)
  end.

Fixpoint run_spec (m : Shard) (os : list kop) : Shard * list reply :=
  match os with
  | [] => (m, [])
  | o :: os' =>
      let '(m, r) := spec m o in
      let '(m, rs) := run_spec m os' in (m, r :: rs)
  end.

(** C13: the sharded keyspace is a map.  Any sequence of operations, the passive
    and the active expiration included, gives the same replies and ends in the
    same entries as the reference operations on one flat map. *)
Theorem keyspace_refines_map ks os :
  wf ks -> Forall legal os ->
  let '(ks', rs) := run ks os in
  wf ks' /\ run_spec (abs ks) os = (abs ks', rs) /\ forall k, look ks' k = abs ks' !! k.
Proof.
  intros Hwf HF; revert ks Hwf; induction HF as [|o os Ho HF IH]; intros ks Hwf; cbn [run run_spec].
  { split; [done|]. split; [done|]. intros k. by rewrite abs_lookup. }
  destruct (refines ks o Hwf Ho) as [Hwf1 Hs].
  destruct (exec ks o) as [ks1 r]. cbn [fst snd] in *. rewrite Hs.
  specialize (IH ks1 Hwf1). destruct (run ks1 os) as [ks' rs].
  destruct IH as (H1 & H2 & H3). by rewrite H2.
Qed.

(** ** The key counter *)

Definition counted (ks : Keyspace) : Prop := keyCount ks = Z.of_nat (size (abs ks)).

(** Room for one more key in the counter. *)
Definition room (ks : Keyspace) : Prop := Z.of_nat (size (abs ks)) < 2 ^ 63 - 1.

Lemma counted_new ks k e :
  wf ks -> look ks k = None -> counted ks -> room ks ->
  counted (addCount (store ks k e) 1).
Proof.
  unfold counted, room. intros Hwf Hk Hc Hr. cbn [addCount keyCount store].
  rewrite abs_addCount, abs_store by done.
  rewrite map_size_insert_None by (by rewrite abs_lookup).
  rewrite Hc, int64_id by (unfold is_int64; lia). lia.
Qed.

Lemma counted_old ks k e :
  wf ks -> is_Some (look ks k) -> counted ks -> counted (store ks k e).
Proof.
  unfold counted. intros Hwf Hk Hc. cbn [keyCount store]. rewrite abs_store by done.
  rewrite map_size_insert_Some by (by rewrite abs_lookup). done.
Qed.

Lemma remove_size ks k :
  wf ks -> is_Some (look ks k) -> size (abs ks) = S (size (abs (remove ks k))).
Proof.
  intros Hwf [e Hk]. rewrite <- abs_lookup in Hk by done. rewrite abs_remove by done.
  rewrite <- (insert_delete_id _ _ _ Hk) at 1.
  by rewrite map_size_insert_None by apply lookup_delete_eq.
Qed.

Lemma counted_remove ks k :
  wf ks -> is_Some (look ks k) -> counted ks -> room ks ->
  counted (addCount (remove ks k) (-1)) /\ room (addCount (remove ks k) (-1)).
Proof.
  unfold counted, room. intros Hwf Hk Hc Hr. pose proof (remove_size ks k Hwf Hk).
  rewrite abs_addCount. cbn [addCount keyCount remove].
  rewrite Hc, int64_id by (unfold is_int64; lia). lia.
Qed.

Lemma load_live_counted ks now k :
  wf ks -> counted ks -> room ks ->
  counted (fst (load_live ks now k)) /\ room (fst (load_live ks now k)).
Proof.
  intros Hwf Hc Hr. unfold load_live. destruct (look ks k) as [e|] eqn:E; [|done].
  destruct (IsExpired e now); [|done]. apply counted_remove; eauto.
Qed.

Lemma delete_loop_counted ks n keys :
  wf ks -> counted ks -> room ks -> counted (fst (foldl delete_one (ks, n) keys)).
Proof.
  revert ks n; induction keys as [|k keys IH]; intros ks n Hwf Hc Hr; [done|].
  cbn [foldl delete_one]. destruct (look ks k) eqn:E; [|by apply IH].
  destruct (counted_remove ks k Hwf ltac:(eauto) Hc Hr). apply IH; auto.
Qed.

Lemma exists_loop_counted now ks n keys :
  wf ks -> counted ks -> room ks -> counted (fst (foldl (exists_one now) (ks, n) keys)).
Proof.
  revert ks n; induction keys as [|k keys IH]; intros ks n Hwf Hc Hr; [done|].
  cbn [foldl]. unfold exists_one at 2. rewrite Get_load_live.
  pose proof (load_live_spec ks now k Hwf) as HL. pose proof (load_live_counted ks now k Hwf Hc Hr) as HC.
  destruct (load_live ks now k) as [ks1 l]. cbn [fst] in HC. apply IH; apply HL || apply HC.
Qed.

Lemma reap_counted now i ks keys :
  wf ks -> counted ks -> room ks -> Forall (fun k => shardIdx k = i) keys ->
  counted (foldl (reap_one now i) ks keys).
Proof.
  intros Hwf Hc Hr HF; revert ks Hwf Hc Hr.
  induction HF as [|k keys Hk HF IH]; intros ks Hwf Hc Hr; [done|]. cbn [foldl].
  rewrite reap_one_live by done.
  pose proof (load_live_spec ks now k Hwf) as HL. pose proof (load_live_counted ks now k Hwf Hc Hr) as HC.
  destruct (load_live ks now k) as [ks1 l]. cbn [fst] in *. apply IH; apply HL || apply HC.
Qed.

(** The update that makes the counter wrong, below: a SET fast path over a key
    that holds another type. *)
Definition retypes (ks : Keyspace) (o : kop) : Prop :=
  match o with
  | KSetString _ k _ => exists e, look ks k = Some e /\ Type_ e <> TypeString
  | _ => False
  end.

(** C34: the key counter (DBSIZE) is exactly the number of stored entries after
    every operation: insertions, overwrites, in-place updates, explicit
    deletion, passive and active expiration and FLUSHDB.  The only exception is
    the string fast path over a key of another type. *)
Theorem keyCount_exact ks o :
  wf ks -> counted ks -> room ks -> legal o -> ~ retypes ks o ->
  let ks' := fst (exec ks o) in
  TotalKeys ks' = Z.of_nat (size (abs ks')).
Proof.
  intros Hwf Hc Hr Hleg Hnr. cbn zeta.
  change (counted (fst (exec ks o))).
  assert (forall now k,
    let '(ks1, l) := load_live ks now k in
    wf ks1 /\ look ks1 k = l /\ counted ks1 /\ room ks1) as HLL.
  { intros now k. pose proof (load_live_spec ks now k Hwf) as HL.
    pose proof (load_live_counted ks now k Hwf Hc Hr) as HC.
    destruct (load_live ks now k) as [ks1 l]. naive_solver. }
  destruct o; cbn [exec].
  - rewrite Get_load_live. specialize (HLL now k). destruct (load_live ks now k). apply HLL.
  - cbn [fst]. unfold SetString. destruct (look ks k) as [e|] eqn:E; [|by apply counted_new].
    case_decide; [apply counted_old; eauto|]. exfalso. apply Hnr. cbn. eauto.
  - cbn [fst]. unfold Set_. destruct (look ks k) as [e0|] eqn:E; [apply counted_old; eauto|].
    by apply (counted_new ks k (touch e now)).
  - unfold SetNX. destruct (look ks k) as [e0|] eqn:E; [|by apply counted_new].
    destruct (IsExpired e0 now); [|done]. cbn [fst].
    destruct (counted_remove ks k Hwf ltac:(eauto) Hc Hr).
    apply counted_new; auto. change (look (remove ks k) k = None).
    rewrite look_remove by done. by rewrite decide_True.
  - unfold IncrBy. specialize (HLL now k).
    destruct (load_live ks now k) as [ks1 [e|]]; destruct HLL as (? & ? & ? & ?).
    + case_decide; [|done]. destruct (Value_ e); try done.
      destruct (ParseInt s); [|done]. apply counted_old; eauto.
    + by apply counted_new.
  - unfold Append. specialize (HLL now k).
    destruct (load_live ks now k) as [ks1 [e|]]; destruct HLL as (? & ? & ? & ?).
    + case_decide; [|done]. destruct (Value_ e); try done. apply counted_old; eauto.
    + by apply counted_new.
  - unfold GetOrCreate. specialize (HLL now k).
    destruct (load_live ks now k) as [ks1 [e|]]; destruct HLL as (? & ? & ? & ?).
    + apply counted_old; eauto.
    + by apply counted_new.
  - unfold Delete. pose proof (delete_loop_counted ks 0 keys Hwf Hc Hr).
    by destruct (foldl _ _ keys).
  - unfold Exists. pose proof (exists_loop_counted now ks 0 keys Hwf Hc Hr).
    by destruct (foldl _ _ keys).
  - unfold Expire. specialize (HLL now k).
    destruct (load_live ks now k) as [ks1 [e|]]; destruct HLL as (? & ? & ? & ?); [|done].
    apply counted_old; eauto.
  - unfold TTL. rewrite Get_load_live. specialize (HLL now k).
    destruct (load_live ks now k) as [ks1 [e|]]; [|apply HLL].
    destruct (ExpiresAt e =? 0); apply HLL.
  - unfold PTTL. rewrite Get_load_live. specialize (HLL now k).
    destruct (load_live ks now k) as [ks1 [e|]]; [|apply HLL].
    destruct (ExpiresAt e =? 0); apply HLL.
  - unfold Persist. specialize (HLL now k).
    destruct (load_live ks now k) as [ks1 [e|]]; destruct HLL as (? & ? & ? & ?); [|done].
    destruct (ExpiresAt e =? 0); [done|]. apply counted_old; eauto.
  - cbn [fst]. rewrite FlushDB_spec by done. unfold counted. by rewrite NewKeyspace_abs.
  - cbn [fst]. unfold reap_shard. apply reap_counted; try done. by apply Forall_take.
Qed.

(** A SET through the fast path over a key that holds a collection counts
    the key twice: no entry is added, the counter grows by one. *)
Theorem SetString_overcounts ks now k v e :
  wf ks -> counted ks -> room ks -> look ks k = Some e -> Type_ e <> TypeString ->
  size (abs (SetString ks now k v)) = size (abs ks) /\
  TotalKeys (SetString ks now k v) = TotalKeys ks + 1.
Proof.
  unfold counted, room. intros Hwf Hc Hr Hk Ht. unfold SetString. rewrite Hk.
  rewrite decide_False by done. rewrite abs_addCount, abs_store by done.
  rewrite map_size_insert_Some by (rewrite abs_lookup by done; eauto).
  split; [done|]. unfold TotalKeys. cbn [keyCount addCount store].
  apply int64_id. unfold is_int64. lia.
Qed.

(** FLUSHDB resets the counter after it has released the shards, so a write
    that runs in between is lost from the count: the counter ends at 0 with one
    key stored, and goes negative when that key is deleted. *)
Theorem FlushDB_race ks now k e :
  wf ks ->
  let ks1 := foldl flush_shard ks (seq 0 NumShards) in
  let ks2 := flush_count (Set_ ks1 now k e) in
  size (abs ks2) = 1%nat /\ TotalKeys ks2 = 0 /\ TotalKeys (fst (Delete ks2 [k])) = -1.
Proof.
  intros [Hl Hp]. cbn zeta.
  assert (exists c, foldl flush_shard ks (seq 0 NumShards) = mkKs (replicate NumShards ∅) c) as [c ->].
  { eexists. transitivity (mkKs (shards (foldl flush_shard ks (seq 0 NumShards)))
      (keyCount (foldl flush_shard ks (seq 0 NumShards)))); [by destruct (foldl _ _ _)|].
    f_equal. rewrite flush_shards by lia. rewrite <- Hl, drop_all. apply app_nil_r. }
  set (ks1 := mkKs (replicate NumShards ∅) c).
  assert (wf ks1) as Hwf1 by apply NewKeyspace_wf.
  assert (abs ks1 = ∅) as Ha by apply NewKeyspace_abs.
  assert (look ks1 k = None) as Hk by (rewrite <- abs_lookup by done; by rewrite Ha).
  unfold Set_. rewrite Hk.
  assert (look (store (addCount ks1 1) k (touch e now)) k = Some (touch e now)) as Hk2
    by (rewrite look_store by auto; by rewrite decide_True).
  split; [|split; [done|]].
  - change (abs (flush_count ?x)) with (abs x). rewrite abs_store by auto.
    rewrite abs_addCount, Ha. by rewrite map_size_insert_None.
  - unfold Delete. cbn [foldl delete_one].
    change (look (flush_count ?x) k) with (look x k). rewrite Hk2. done.
Qed.

(** ** Eviction takes the least recently used candidates *)

Definition older (x y : Candidate) : Prop := LastAccessed x <= LastAccessed y.

Lemma exchange_spec x l m r :
  exchange x l = (m, r) -> m :: r ≡ₚ x :: l /\ Forall (older m) r /\ older m x.
Proof.
  unfold older. revert x m r; induction l as [|y l IH]; intros x m r; cbn [exchange].
  { intros [= <- <-]. split; [done|]. split; [constructor|lia]. }
  destruct (Z.ltb_spec (LastAccessed y) (LastAccessed x)).
  - destruct (exchange y l) as [m' r'] eqn:E. intros [= <- <-].
    destruct (IH _ _ _ E) as (Hp & Hf & Ho). split; [|split; [constructor; [lia|done]|lia]].
    rewrite Permutation_swap, Hp. done.
  - destruct (exchange x l) as [m' r'] eqn:E. intros [= <- <-].
    destruct (IH _ _ _ E) as (Hp & Hf & Ho). split; [|split; [constructor; [lia|done]|lia]].
    rewrite Permutation_swap, Hp. apply Permutation_swap.
Qed.

Lemma exchange_sort_spec fuel l :
  (length l <= fuel)%nat ->
  exchange_sort fuel l ≡ₚ l /\ StronglySorted older (exchange_sort fuel l).
Proof.
  revert l; induction fuel as [|f IH]; intros [|x l] Hl; cbn [exchange_sort length] in *;
    [split; [done|constructor]|lia|split; [done|constructor]|].
  destruct (exchange x l) as [m r] eqn:E. destruct (exchange_spec _ _ _ _ E) as (Hp & Hf & _).
  assert (length r = length l) as Hlen.
  { apply Permutation_length in Hp. cbn in Hp. lia. }
  destruct (IH r) as [Hp' Hs]; [lia|]. split; [by rewrite Hp'|].
  constructor; [done|]. by rewrite Hp'.
Qed.

(** The iteration orders of the shards, as Go may choose them. *)
Definition orders_ok (ks : Keyspace) (orders : nat -> list bytes) : Prop :=
  forall i m, shards ks !! i = Some m -> orders i ≡ₚ (map_to_list m).*1.

Definition candidate_ok (ks : Keyspace) (c : Candidate) : Prop :=
  ShardIdx c = shardIdx (Key c) /\
  exists e, look ks (Key c) = Some e /\ LastAccessed c = LastAccessedAt e.

Lemma sample_shard_ok ks i m order :
  wf ks -> shards ks !! i = Some m -> order ≡ₚ (map_to_list m).*1 ->
  Forall (candidate_ok ks) (sample_shard ks i order) /\
  Forall (fun c => ShardIdx c = i) (sample_shard ks i order) /\
  NoDup (Key <$> sample_shard ks i order).
Proof.
  intros Hwf Hi Hp. unfold sample_shard. rewrite Hi. change (default ∅ (Some m)) with m.
  assert (NoDup (take 10 order)) as Hnd.
  { eapply sublist_NoDup; [|apply sublist_take]. rewrite Hp. apply NoDup_fst_map_to_list. }
  assert (Forall (fun k => is_Some (m !! k)) (take 10 order)) as Hin.
  { apply Forall_take. rewrite Hp, Forall_forall. intros k Hk.
    apply list_elem_of_fmap in Hk as ([k' v] & -> & Hk). apply elem_of_map_to_list in Hk. eauto. }
  induction (take 10 order) as [|k ks' IH]; [split; [constructor|split; constructor]|].
  apply NoDup_cons in Hnd as [Hk Hnd]. apply Forall_cons in Hin as [[e He] Hin].
  destruct (IH Hnd Hin) as (H1 & H2 & H3). cbn [omap list_omap]. rewrite He. cbn [mbind option_bind].
  destruct (shard_lookup ks i k e Hwf) as [Ei Hl]; [by rewrite Hi|].
  split; [constructor; [split; cbn; [done|eauto]|done]|]. split; [by constructor|].
  constructor; [|done]. intros Hc. apply Hk. clear - Hc.
  apply list_elem_of_fmap in Hc as (c & Ec & Hc). cbn in Ec. rewrite Ec.
  apply list_elem_of_omap in Hc as (k' & Hk' & E). destruct (m !! k'); [|done].
  injection E as <-. done.
Qed.

Lemma sample_loop_ok ks orders target n i cs :
  wf ks -> orders_ok ks orders -> (i + n = NumShards)%nat ->
  Forall (candidate_ok ks) cs -> Forall (fun c => (ShardIdx c < i)%nat) cs -> NoDup (Key <$> cs) ->
  Forall (candidate_ok ks) (sample_loop ks orders target n i cs) /\
  NoDup (Key <$> sample_loop ks orders target n i cs).
Proof.
  intros Hwf Hord; revert i cs; induction n as [|n IH]; intros i cs Hin Hok Hlt Hnd;
    cbn [sample_loop]; [done|]. case_match; [|done].
  destruct (lookup_lt_is_Some_2 (shards ks) i) as [m Hi]; [rewrite (proj1 Hwf); lia|].
  destruct (sample_shard_ok ks i m (orders i) Hwf Hi (Hord i m Hi)) as (H1 & H2 & H3).
  apply IH; [lia| | |].
  - by apply Forall_app.
  - apply Forall_app. split.
    + eapply list.Forall_impl; [exact Hlt|]. cbn. lia.
    + eapply list.Forall_impl; [exact H2|]. cbn. lia.
  - rewrite fmap_app. apply NoDup_app. split; [done|]. split; [|done].
    intros k Hk Hk'. apply list_elem_of_fmap in Hk as (c & -> & Hc).
    apply list_elem_of_fmap in Hk' as (c' & E & Hc').
    rewrite Forall_forall in Hok, Hlt, H1, H2.
    destruct (Hok c Hc) as [Hs _], (H1 c' Hc') as [Hs' _].
    specialize (Hlt c Hc). specialize (H2 c' Hc'). cbn in *. rewrite E in Hs. lia.
Qed.

Lemma evict_loop_spec ks target cs n :
  wf ks -> counted ks -> room ks -> Forall (candidate_ok ks) cs -> NoDup (Key <$> cs) ->
  0 <= n < target -> target < 2 ^ 63 ->
  let victims := take (Z.to_nat (target - n)) cs in
  let '(ks', n') := evict_loop ks target cs n in
  wf ks' /\ counted ks' /\ n' = n + Z.of_nat (length victims) /\
  (forall k, abs ks' !! k = if decide (k ∈ Key <$> victims) then None else abs ks !! k).
Proof.
  revert ks n; induction cs as [|c cs IH]; intros ks n Hwf Hc Hr Hok Hnd Hn Ht; cbn zeta;
    cbn [evict_loop].
  { rewrite take_nil. cbn. repeat (split; [done|]). split; [lia|done]. }
  apply Forall_cons in Hok as [(Hs & e & He & _) Hok]. cbn in Hnd.
  apply NoDup_cons in Hnd as [Hk Hnd].
  replace (Z.to_nat (target - n)) with (S (Z.to_nat (target - (n + 1)))) by lia. cbn [take].
  assert (default ∅ (shards ks !! ShardIdx c) !! Key c = Some e) as -> by (rewrite Hs; exact He).
  rewrite Hs. change (mkKs (alter _ (shardIdx (Key c)) (shards ks)) (keyCount ks)) with (remove ks (Key c)).
  rewrite int64_id by (unfold is_int64; lia).
  destruct (counted_remove ks (Key c) Hwf ltac:(eauto) Hc Hr) as [Hc1 Hr1].
  set (ks1 := addCount (remove ks (Key c)) (-1)) in *.
  assert (wf ks1) as Hwf1 by (subst ks1; auto).
  assert (forall k, abs ks1 !! k = if decide (k = Key c) then None else abs ks !! k) as Ha.
  { intros k. subst ks1. rewrite abs_addCount, abs_remove by done. case_decide; subst.
    - by rewrite lookup_delete_eq.
    - by rewrite lookup_delete_ne. }
  destruct (Z.leb_spec target (n + 1)).
  - replace (Z.to_nat (target - (n + 1))) with O by lia. rewrite take_0. cbn [length].
    split; [done|]. split; [done|]. split; [lia|]. intros k. rewrite Ha.
    repeat case_decide; set_solver.
  - assert (Forall (candidate_ok ks1) cs) as Hok1.
    { rewrite Forall_forall in *. intros c' Hc'. destruct (Hok c' Hc') as (Hs' & e' & He' & Hl').
      split; [done|]. exists e'. split; [|done]. change (look (remove ks (Key c)) (Key c') = Some e').
      rewrite look_remove by done. rewrite decide_False; [done|]. intros E. apply Hk.
      rewrite <- E. by apply list_elem_of_fmap_2. }
    specialize (IH ks1 (n + 1) Hwf1 Hc1 Hr1 Hok1 Hnd). cbn zeta in IH.
    destruct (evict_loop ks1 target cs (n + 1)) as [ks' n'].
    destruct IH as (H1 & H2 & H3 & H4); [lia|lia|]. split; [done|]. split; [done|].
    split; [cbn [length]; lia|]. intros k. rewrite H4, Ha.
    repeat case_decide; set_solver.
Qed.

(** Memory-pressure eviction.  Whatever order Go iterates the shards in, the
    keys evicted are the [targetCount] least recently accessed of the sampled
    ones (all of them if there are fewer); nothing else is removed, the result
    is the number of keys removed and the key counter stays exact. *)
Theorem EvictLRU_spec ks orders target :
  wf ks -> counted ks -> room ks -> orders_ok ks orders -> 0 < target < 2 ^ 63 ->
  let cands := sample_loop ks orders target NumShards 0 [] in
  let '(ks', n) := EvictLRU ks orders target in
  counted ks' /\ n = Z.min target (Z.of_nat (length cands)) /\
  exists victims spared, victims ++ spared ≡ₚ cands /\
    (forall v s, v ∈ victims -> s ∈ spared -> LastAccessed v <= LastAccessed s) /\
    Z.of_nat (length victims) = n /\
    (forall k, abs ks' !! k = if decide (k ∈ Key <$> victims) then None else abs ks !! k).
Proof.
  intros Hwf Hc Hr Hord Ht cands. unfold EvictLRU.
  rewrite (proj2 (Z.leb_gt target 0)) by lia. fold cands.
  destruct (sample_loop_ok ks orders target NumShards 0 [] Hwf Hord) as [Hok Hnd];
    [done|constructor|constructor|constructor|]. fold cands in Hok, Hnd.
  destruct cands as [|c0 cs0] eqn:Ecs.
  { split; [done|]. split; [cbn; lia|]. exists [], [].
    split; [done|]. split; [intros v s []%elem_of_nil|]. split; [done|]. intros k.
    rewrite decide_False; [done|]. apply not_elem_of_nil. }
  rewrite <- Ecs in *. clear Ecs c0 cs0.
  destruct (exchange_sort_spec (length cands) cands) as [Hp Hs]; [done|].
  set (sorted := exchange_sort _ _) in *.
  rewrite <- Hp in Hok, Hnd.
  pose proof (evict_loop_spec ks target sorted 0 Hwf Hc Hr Hok Hnd) as HE. cbn zeta in HE.
  destruct (evict_loop ks target sorted 0) as [ks' n].
  destruct HE as (H1 & H2 & H3 & H4); [lia|lia|]. rewrite Z.sub_0_r in *.
  split; [done|]. rewrite length_take in H3. rewrite (Permutation_length Hp) in H3.
  split; [lia|]. exists (take (Z.to_nat target) sorted), (drop (Z.to_nat target) sorted).
  rewrite take_drop. split; [done|]. split; [|split; [rewrite length_take, (Permutation_length Hp); lia|done]].
  intros v s Hv Hsp. rewrite <- (take_drop (Z.to_nat target) sorted) in Hs.
  by eapply (StronglySorted_app_elem older).
Qed.
End Keyspace.
Arguments Value : clear implicits.
Arguments Entry : clear implicits.
Arguments Keyspace : clear implicits.
Arguments kop : clear implicits.

(** ** The hash *)

Lemma fnv_unrolled_fold s : forall hash, fnv_unrolled s hash = foldl fnv_step hash s.
Proof.
  assert (forall t hash, fnv_tail t hash = foldl fnv_step hash t) as Ht.
  { induction t as [|a t IH]; intros hash; cbn; [done|]. apply IH. }
  induction s as [s IH] using (induction_ltof1 _ (@length byte)). intros hash.
  destruct s as [|a [|b [|c [|d s]]]]; try apply Ht.
  cbn [fnv_unrolled]. rewrite IH; [done|]. unfold ltof. cbn. lia.
Qed.

(** The hash unrolled four bytes at a time is FNV-1a byte by byte, and every
    key is assigned one of the 256 shards, so the array access never fails. *)
Theorem fnv1a_reference s :
  fnv1a s = foldl (fun h c => uint64 (Z.lxor h (b2z c) * 1099511628211)) 14695981039346656037 s /\
  (shardIdx s < 256)%nat.
Proof. split; [apply fnv_unrolled_fold|apply shardIdx_lt]. Qed.

(** ** The theorems at a concrete keyspace *)

Abbreviation ks0 := (NewKeyspace (SkipList:=unit) (VectorIndex:=unit)).

Lemma keyspace_refines_map_witness :
  snd (run ks0 [KSetString 0 (str "a") (str "7"); KIncrBy 0 (str "a") 1; KExpire 0 (str "a") 5;
                KGet 9 (str "a")])
  = snd (run_spec ∅ [KSetString 0 (str "a") (str "7"); KIncrBy 0 (str "a") 1; KExpire 0 (str "a") 5;
                KGet 9 (str "a")]).
Proof.
  pose proof (keyspace_refines_map ks0
    [KSetString 0 (str "a") (str "7"); KIncrBy 0 (str "a") 1; KExpire 0 (str "a") 5;
     KGet 9 (str "a")] NewKeyspace_wf ltac:(repeat constructor)) as H.
  rewrite NewKeyspace_abs in H. destruct (run ks0 _) as [ks' rs].
  destruct H as (_ & H & _). by rewrite H.
Defined.

Lemma ks0_counted : counted ks0 /\ room ks0.
Proof. unfold counted, room. by rewrite NewKeyspace_abs. Qed.

Lemma keyCount_exact_witness :
  TotalKeys (fst (exec ks0 (KIncrBy 0 (str "a") 5)))
  = Z.of_nat (size (abs (fst (exec ks0 (KIncrBy 0 (str "a") 5))))).
Proof.
  exact (keyCount_exact ks0 (KIncrBy 0 (str "a") 5) NewKeyspace_wf (proj1 ks0_counted)
    (proj2 ks0_counted) I (fun H => H)).
Defined.

Definition hash_entry : Entry unit unit := mkE TypeHash (VHash NewHash) 0 0 0.

(** A keyspace with the one key ["h"], a hash. *)
Definition ks1 : Keyspace unit unit := addCount (store ks0 (str "h") hash_entry) 1.

Lemma ks1_ok : wf ks1 /\ counted ks1 /\ room ks1 /\ look ks1 (str "h") = Some hash_entry.
Proof.
  assert (wf ks1) as Hwf by apply addCount_wf, store_wf, NewKeyspace_wf.
  split; [done|]. unfold ks1, counted, room.
  rewrite abs_addCount, abs_store, NewKeyspace_abs by apply NewKeyspace_wf.
  rewrite map_size_insert_None by done. rewrite map_size_empty.
  split; [done|]. split; [done|].
  change (look (store ks0 (str "h") hash_entry) (str "h") = Some hash_entry).
  rewrite look_store by apply NewKeyspace_wf. by rewrite decide_True.
Qed.

Lemma SetString_overcounts_witness :
  TotalKeys (SetString ks1 0 (str "h") (str "v")) = TotalKeys ks1 + 1.
Proof.
  destruct ks1_ok as (H1 & H2 & H3 & H4).
  exact (proj2 (SetString_overcounts ks1 0 (str "h") (str "v") hash_entry H1 H2 H3 H4
    ltac:(done))).
Defined.

Lemma FlushDB_race_witness :
  TotalKeys (flush_count (Set_ (foldl flush_shard ks1 (seq 0 NumShards)) 0 (str "k") hash_entry)) = 0.
Proof.
  exact (proj1 (proj2 (FlushDB_race ks1 0 (str "k") hash_entry (proj1 ks1_ok)))).
Defined.

Definition orders1 (i : nat) : list bytes := (map_to_list (default ∅ (shards ks1 !! i))).*1.

Lemma EvictLRU_spec_witness :
  let '(ks', n) := EvictLRU ks1 orders1 1 in
  counted ks' /\ n = Z.min 1 (Z.of_nat (length (sample_loop ks1 orders1 1 NumShards 0 []))).
Proof.
  destruct ks1_ok as (H1 & H2 & H3 & _).
  assert (orders_ok ks1 orders1) as Ho by (intros i m Hi; unfold orders1; by rewrite Hi).
  pose proof (EvictLRU_spec ks1 orders1 1 H1 H2 H3 Ho ltac:(lia)) as H. cbn zeta in H.
  destruct (EvictLRU ks1 orders1 1) as [ks' n]. destruct H as (Ha & Hb & _). by split.
Defined.
