(* ===== verification/SkipList.v ===== *)
(** * Sorted sets (internal/datastruct/skiplist.go)

    A skip list of heap nodes with forward pointers and spans per level, backward
    pointers on the lowest level, and a dictionary from members to scores.  Nodes
    live in an explicit heap, an access through a nil pointer or past the levels
    of a node is a [Fault], and the loops that follow pointers are bounded by the
    number of heap cells: running out of this bound is the fault [Endless].

    The reference is the list of the scored members in ascending order: [repr sl
    ps] states that the pointers of [sl] form exactly the node list [ps], and the
    theorems show that no operation faults and that each one is the plain list
    operation. *)

From S2P Require Import Prelude.

(** ** Scores

    A [float64] is its IEEE 754 bit pattern.  [fkey] orders the patterns that are
    not NaN: the two zeros are equal, and every comparison with a NaN is false. *)

Definition is_nan (b : Z) : bool := 0x7FF0000000000000 <? b mod 2 ^ 63.
Definition fkey (b : Z) : Z := if b <? 2 ^ 63 then b else - (b - 2 ^ 63).
Definition flt (a b : Z) : bool := negb (is_nan a) && negb (is_nan b) && (fkey a <? fkey b).
Definition feq (a b : Z) : bool := negb (is_nan a) && negb (is_nan b) && (fkey a =? fkey b).

(** ** Nodes, lists and the heap *)

Definition SkipListMaxLevel : nat := 32.

Record ScoredMember := mkSM { Member : bytes; Score : Z }.

Record SkipListLevel := mkLevel { Forward : option positive; Span : Z }.

Record SkipListNode := mkNode {
  item : ScoredMember;
  Backward : option positive;
  Levels : list SkipListLevel
}.

Record SkipList := mkSL {
  heap : gmap positive SkipListNode;
  Tail : option positive;
  Length : Z;
  Level : nat;
  dict : gmap bytes Z
}.

(** The header node is never replaced: it is the cell 1. *)
Definition Header : positive := 1.

Definition NewSkipList : SkipList :=
  mkSL {[ Header := mkNode (mkSM [] 0) None (replicate SkipListMaxLevel (mkLevel None 0)) ]}
    None 0 1 ∅.

Inductive fault := Fault (p : panic) | Endless.

(** ** Accesses *)

Definition deref (sl : SkipList) (p : positive) : res fault SkipListNode :=
  match heap sl !! p with Some n => Ok n | None => Err (Fault PanicNil) end.

(** [p.Level[i]]. *)
Definition level_at (sl : SkipList) (p : positive) (i : nat) : res fault SkipListLevel :=
  n ← deref sl p;
  match Levels n !! i with Some lv => Ok lv | None => Err (Fault PanicBounds) end.

Definition set_heap (h : gmap positive SkipListNode) (sl : SkipList) : SkipList :=
  mkSL h (Tail sl) (Length sl) (Level sl) (dict sl).

(** [p.Level[i] = lv]. *)
Definition set_level (p : positive) (i : nat) (lv : SkipListLevel) (sl : SkipList) : res fault SkipList :=
  _ ← level_at sl p i;
  Ok (set_heap (alter (fun n => mkNode (item n) (Backward n) (<[i := lv]> (Levels n))) p (heap sl)) sl).

(** [p.Backward = b]. *)
Definition set_backward (p : positive) (b : option positive) (sl : SkipList) : res fault SkipList :=
  _ ← deref sl p;
  Ok (set_heap (alter (fun n => mkNode (item n) b (Levels n)) p (heap sl)) sl).

Definition set_tail (t : option positive) (sl : SkipList) : SkipList :=
  mkSL (heap sl) t (Length sl) (Level sl) (dict sl).
Definition set_Level (l : nat) (sl : SkipList) : SkipList :=
  mkSL (heap sl) (Tail sl) (Length sl) l (dict sl).

(** [for i := a; i < a+n; i++ { f(i) }]. *)
Fixpoint for_range (n a : nat) (f : nat -> SkipList -> res fault SkipList) (sl : SkipList)
    : res fault SkipList :=
  match n with
  | O => Ok sl
  | S n' => sl ← f a sl; for_range n' (S a) f sl
  end.

(** ** Searching *)

(** The inner loop at level [i]: [cond] sees the rank so far, the span and the
    node ahead. *)
Fixpoint walk (fuel : nat) (sl : SkipList) (cond : Z -> Z -> SkipListNode -> bool) (i : nat)
    (x : positive) (rank : Z) : res fault (positive * Z) :=
  lv ← level_at sl x i;
  match Forward lv with
  | None => Ok (x, rank)
  | Some q =>
      n ← deref sl q;
      if cond rank (Span lv) n then
        match fuel with
        | O => Err Endless
        | S fuel' => walk fuel' sl cond i q (uint64 (rank + Span lv))
        end
      else Ok (x, rank)
  end.

Definition walk_fuel (sl : SkipList) : nat := size (heap sl).

(** The outer loop from level [i - 1] down to 0; entry [i] of the result is
    [update[i]] with [rank[i]]. *)
Fixpoint search (sl : SkipList) (cond : Z -> Z -> SkipListNode -> bool) (i : nat)
    (x : positive) (rank : Z) : res fault (list (positive * Z)) :=
  match i with
  | O => Ok []
  | S i' =>
      '(x, rank) ← walk (walk_fuel sl) sl cond i' x rank;
      us ← search sl cond i' x rank;
      Ok (us ++ [(x, rank)])
  end.

(** The order test of [Insert] and [deleteUnsafe], and the one of [GetRank]. *)
Definition before (score : Z) (member : bytes) (n : SkipListNode) : bool :=
  flt (Score (item n)) score ||
  (feq (Score (item n)) score && bytes_ltb (Member (item n)) member).

Definition upto (score : Z) (member : bytes) (n : SkipListNode) : bool :=
  flt (Score (item n)) score ||
  (feq (Score (item n)) score && bytes_leb (Member (item n)) member).

(** [update[i]] and [rank[i]]: both arrays have a zero value past the searched
    levels. *)
Definition update_at (us : list (positive * Z)) (i : nat) : res fault (positive * Z) :=
  match us !! i with Some u => Ok u | None => Err (Fault PanicNil) end.

(** ** Deletion *)

Definition unlink (us : list (positive * Z)) (target : positive) (i : nat) (sl : SkipList)
    : res fault SkipList :=
  '(x, _) ← update_at us i;
  lv ← level_at sl x i;
  if decide (Forward lv = Some target) then
    tl ← level_at sl target i;
    set_level x i (mkLevel (Forward tl) (uint64 (Span lv + uint64 (Span tl - 1)))) sl
  else set_level x i (mkLevel (Forward lv) (uint64 (Span lv - 1))) sl.

(** [for sl.Level > 1 && sl.Header.Level[sl.Level-1].Forward == nil]. *)
Fixpoint lower (l : nat) (sl : SkipList) : res fault nat :=
  match l with
  | S (S k as l') =>
      lv ← level_at sl Header l';
      match Forward lv with None => lower l' sl | Some _ => Ok l end
  | _ => Ok l
  end.

Definition deleteUnsafe (member : bytes) (sl : SkipList) : res fault (SkipList * bool) :=
  match dict sl !! member with
  | None => Ok (sl, false)
  | Some score =>
      us ← search sl (fun _ _ => before score member) (Level sl) Header 0;
      let x := default Header (fst <$> us !! O) in
      lv ← level_at sl x 0;
      match Forward lv with
      | None => Ok (sl, false)
      | Some target =>
          n ← deref sl target;
          if feq (Score (item n)) score && bool_decide (Member (item n) = member) then
            sl ← for_range (Level sl) 0 (unlink us target) sl;
            tl ← level_at sl target 0;
            n ← deref sl target;
            sl ← match Forward tl with
                 | Some q => set_backward q (Backward n) sl
                 | None => Ok (set_tail (Backward n) sl)
                 end;
            l ← lower (Level sl) sl;
            Ok (mkSL (heap sl) (Tail sl) (int64 (Length sl - 1)) l (delete member (dict sl)), true)
          else Ok (sl, false)
      end
  end.

Definition Delete (member : bytes) (sl : SkipList) : res fault (SkipList * bool) := deleteUnsafe member sl.

(** ** Insertion *)

(** [randomLevel]: [rng k] is the [k]-th value [Int31] returns, and
    [float64(v) < 0.25*0xFFFF] is [4*v < 0xFFFF]. *)
Fixpoint randomLevel_loop (fuel : nat) (rng : nat -> Z) (k lvl : nat) : nat :=
  match fuel with
  | O => lvl
  | S fuel' =>
      if 4 * Z.land (rng k) 0xFFFF <? 0xFFFF then
        let lvl := S lvl in
        if decide (SkipListMaxLevel <= lvl)%nat then lvl else randomLevel_loop fuel' rng (S k) lvl
      else lvl
  end.

Definition randomLevel (rng : nat -> Z) : nat := randomLevel_loop SkipListMaxLevel rng 0 1.

(** The new levels of the header, with the whole list below them. *)
Definition raise (level : nat) (us : list (positive * Z)) (sl : SkipList)
    : res fault (SkipList * list (positive * Z)) :=
  if (Level sl <? level)%nat then
    sl' ← for_range (level - Level sl) (Level sl)
            (fun i sl => lv ← level_at sl Header i; set_level Header i (mkLevel (Forward lv) (uint64 (Length sl))) sl) sl;
    Ok (set_Level level sl', us ++ replicate (level - Level sl) (Header, 0))
  else Ok (sl, us).

Definition link_in (us : list (positive * Z)) (node : positive) (i : nat) (sl : SkipList)
    : res fault SkipList :=
  '(_, rank0) ← update_at us 0;
  '(x, ranki) ← update_at us i;
  lv ← level_at sl x i;
  sl ← set_level node i (mkLevel (Forward lv) (uint64 (Span lv - uint64 (rank0 - ranki)))) sl;
  set_level x i (mkLevel (Some node) (uint64 (uint64 (rank0 - ranki) + 1))) sl.

Definition widen (us : list (positive * Z)) (i : nat) (sl : SkipList) : res fault SkipList :=
  '(x, _) ← update_at us i;
  lv ← level_at sl x i;
  set_level x i (mkLevel (Forward lv) (uint64 (Span lv + 1))) sl.

Definition Insert (rng : nat -> Z) (score : Z) (member : bytes) (sl : SkipList) : res fault SkipList :=
  sl ← match dict sl !! member with
       | Some _ => '(sl, _) ← deleteUnsafe member sl; Ok sl
       | None => Ok sl
       end;
  us ← search sl (fun _ _ => before score member) (Level sl) Header 0;
  let level := randomLevel rng in
  '(sl, us) ← raise level us sl;
  let node := fresh (dom (heap sl)) in
  let sl := set_heap (<[node := mkNode (mkSM member score) None (replicate level (mkLevel None 0))]> (heap sl)) sl in
  sl ← for_range level 0 (link_in us node) sl;
  sl ← for_range (Level sl - level) level (widen us) sl;
  '(x, _) ← update_at us 0;
  sl ← set_backward node (if decide (x = Header) then None else Some x) sl;
  lv ← level_at sl node 0;
  sl ← match Forward lv with
       | Some q => set_backward q (Some node) sl
       | None => Ok (set_tail (Some node) sl)
       end;
  Ok (mkSL (heap sl) (Tail sl) (int64 (Length sl + 1)) (Level sl) (<[member := score]> (dict sl))).

(** ** Queries *)

Definition Len (sl : SkipList) : Z := Length sl.

Definition GetScore (member : bytes) (sl : SkipList) : option Z := dict sl !! member.

Fixpoint rank_loop (sl : SkipList) (score : Z) (member : bytes) (i : nat) (x : positive) (rank : Z)
    : res fault Z :=
  match i with
  | O => Ok (-1)
  | S i' =>
      '(x, rank) ← walk (walk_fuel sl) sl (fun _ _ => upto score member) i' x rank;
      n ← deref sl x;
      if decide (Member (item n) = member) then Ok (int64 (int64 rank - 1))
      else rank_loop sl score member i' x rank
  end.

Definition GetRank (member : bytes) (sl : SkipList) : res fault Z :=
  match dict sl !! member with
  | None => Ok (-1)
  | Some score => rank_loop sl score member (Level sl) Header 0
  end.

Fixpoint element_loop (sl : SkipList) (rank : Z) (i : nat) (x : positive) (traversed : Z)
    : res fault (option positive) :=
  match i with
  | O => Ok None
  | S i' =>
      '(x, traversed) ← walk (walk_fuel sl) sl (fun traversed span _ => uint64 (traversed + span) <=? rank)
                          i' x traversed;
      if traversed =? rank then Ok (Some x) else element_loop sl rank i' x traversed
  end.

Definition GetElementByRank (rank : Z) (sl : SkipList) : res fault (option positive) :=
  element_loop sl rank (Level sl) Header 0.

(** The two result loops of [Range]: [next] is the pointer that is followed. *)
Fixpoint collect (n : nat) (sl : SkipList) (next : SkipListNode -> res fault (option positive))
    (node : option positive) : res fault (list ScoredMember) :=
  match n, node with
  | O, _ | _, None => Ok []
  | S n', Some p =>
      d ← deref sl p;
      q ← next d;
      rest ← collect n' sl next q;
      Ok (item d :: rest)
  end.

Definition next_forward (d : SkipListNode) : res fault (option positive) :=
  match Levels d !! O with Some lv => Ok (Forward lv) | None => Err (Fault PanicBounds) end.
Definition next_backward (d : SkipListNode) : res fault (option positive) := Ok (Backward d).

Definition Range (start stop : Z) (reverse : bool) (sl : SkipList) : res fault (list ScoredMember) :=
  if Length sl =? 0 then Ok []
  else
    let start := if start <? 0 then int64 (Length sl + start) else start in
    let stop := if stop <? 0 then int64 (Length sl + stop) else stop in
    let start := if start <? 0 then 0 else start in
    let stop := if Length sl <=? stop then int64 (Length sl - 1) else stop in
    if (stop <? start) || (Length sl <=? start) then Ok []
    else
      let count := Z.to_nat (stop - start + 1) in
      if reverse then
        node ← GetElementByRank (uint64 (Length sl - start)) sl;
        collect count sl next_backward node
      else
        node ← GetElementByRank (uint64 (start + 1)) sl;
        collect count sl next_forward node.

(** ** The reference: an ordered list of scored members *)

Definition item_lt (a b : ScoredMember) : Prop :=
  fkey (Score a) < fkey (Score b) \/
  (fkey (Score a) = fkey (Score b) /\ bytes_compare (Member a) (Member b) = Lt).

#[global] Instance item_lt_dec a b : Decision (item_lt a b).
Proof. unfold item_lt. apply _. Defined.

Lemma item_lt_trans a b c : item_lt a b -> item_lt b c -> item_lt a c.
Proof.
  intros [?|[? H1]] [?|[? H2]]; unfold item_lt; [left; lia..|].
  right. split; [lia|]. eapply bytes_compare_lt_trans; eauto.
Qed.

Lemma item_lt_irrefl a : ~ item_lt a a.
Proof.
  intros [?|[_ H]]; [lia|]. assert (bytes_compare (Member a) (Member a) = Eq) by by apply bytes_compare_eq.
  congruence.
Qed.

Lemma item_lt_total a b : Member a <> Member b -> item_lt a b \/ item_lt b a.
Proof.
  intros Hm. unfold item_lt. destruct (Z.lt_trichotomy (fkey (Score a)) (fkey (Score b))) as [?|[E|?]]; [tauto| |tauto].
  destruct (bytes_compare (Member a) (Member b)) eqn:C; [by apply bytes_compare_eq in C|tauto|].
  right. right. split; [done|]. by rewrite bytes_compare_antisym, C.
Qed.

(** The elements of [es] before [e], [e], the elements after it; and the list
    without a member. *)
Definition put_sorted (e : ScoredMember) (es : list ScoredMember) : list ScoredMember :=
  filter (fun a => item_lt a e) es ++ e :: filter (fun a => ~ item_lt a e) es.

Definition drop_member (m : bytes) (es : list ScoredMember) : list ScoredMember :=
  filter (fun a => Member a <> m) es.

(** ** What the pointers represent *)

Definition ht (sl : SkipList) (p : positive) : nat := length (default [] (Levels <$> heap sl !! p)).
Definition lev (sl : SkipList) (p : positive) (i : nat) : option SkipListLevel :=
  n ← heap sl !! p; Levels n !! i.
Definition it (sl : SkipList) (p : positive) : option ScoredMember := item <$> heap sl !! p.
Definition bk (sl : SkipList) (p : positive) : option (option positive) := Backward <$> heap sl !! p.

(** The level-[i] pointer and span of a node that the nodes [rest] follow: the
    first of them that is higher than [i], or the number of all of them. *)
Fixpoint link (H : positive -> nat) (i : nat) (rest : list positive) : SkipListLevel :=
  match rest with
  | [] => mkLevel None 0
  | q :: r =>
      if decide (i < H q)%nat then mkLevel (Some q) 1
      else mkLevel (Forward (link H i r)) (Span (link H i r) + 1)
  end.

Record shape (sl : SkipList) (ps : list positive) (es : list ScoredMember) : Prop := {
  s_header : ht sl Header = SkipListMaxLevel /\ it sl Header = Some (mkSM [] 0);
  s_nodup : NoDup (Header :: ps);
  s_items : Forall2 (fun p e => it sl p = Some e) ps es;
  s_height : Forall (fun p => (1 <= ht sl p <= Level sl)%nat) ps;
  s_level : (1 <= Level sl <= SkipListMaxLevel)%nat;
  s_top : forall i, (Level sl <= i < SkipListMaxLevel)%nat -> Forward <$> lev sl Header i = Some None;
  s_links : forall l p rest i, Header :: ps = l ++ p :: rest -> (i < Level sl)%nat -> (i < ht sl p)%nat ->
    lev sl p i = Some (link (ht sl) i rest);
  s_back : forall l p q rest, Header :: ps = l ++ p :: q :: rest ->
    bk sl q = Some (if decide (p = Header) then None else Some p);
  s_tail : Tail sl = last ps
}.

Record sorted_set (es : list ScoredMember) : Prop := {
  e_sorted : StronglySorted item_lt es;
  e_nan : Forall (fun e => is_nan (Score e) = false) es;
  e_members : NoDup (Member <$> es)
}.

Record repr (sl : SkipList) (ps : list positive) (es : list ScoredMember) : Prop := {
  r_shape : shape sl ps es;
  r_set : sorted_set es;
  r_dict : forall m s, dict sl !! m = Some s <-> mkSM m s ∈ es;
  r_length : Length sl = Z.of_nat (length es);
  r_bound : Z.of_nat (length es) < 2 ^ 63
}.

(** ** Links *)

Lemma link_low H i r rest : Forall (fun q => (H q <= i)%nat) r ->
  link H i (r ++ rest) = mkLevel (Forward (link H i rest)) (Span (link H i rest) + Z.of_nat (length r)).
Proof.
  induction 1 as [|q r Hq Hr IH]; cbn [app link].
  - rewrite Z.add_0_r. by destruct (link H i rest).
  - destruct (decide _); [lia|]. rewrite IH. cbn [Forward Span length]. f_equal. lia.
Qed.

Lemma link_high H i q rest : (i < H q)%nat ->
  link H i (q :: rest) = mkLevel (Some q) 1.
Proof. intros. cbn. by destruct (decide _). Qed.

Lemma link_cases H i rest :
  (Forall (fun q => (H q <= i)%nat) rest /\ link H i rest = mkLevel None (Z.of_nat (length rest))) \/
  (exists r1 q r2, rest = r1 ++ q :: r2 /\ Forall (fun q => (H q <= i)%nat) r1 /\ (i < H q)%nat /\
     link H i rest = mkLevel (Some q) (Z.of_nat (length r1) + 1)).
Proof.
  induction rest as [|q r IH]; [by left|]. destruct (decide (i < H q)%nat) as [Hq|Hq].
  - right. exists [], q, r. cbn. by destruct (decide _).
  - destruct IH as [[Hr E]|(r1 & q' & r2 & -> & H1 & H2 & E)].
    + left. split; [constructor; [lia|done]|]. cbn [link]. destruct (decide _); [done|]. rewrite E. cbn. f_equal. lia.
    + right. exists (q :: r1), q', r2. split; [done|]. split; [constructor; [lia|done]|]. split; [done|].
      cbn [link]. destruct (decide _); [done|]. rewrite E. cbn. f_equal. lia.
Qed.

(** What follows a higher node does not matter. *)
Lemma link_shadow H i r rest rest' : Exists (fun q => (i < H q)%nat) r ->
  link H i (r ++ rest) = link H i (r ++ rest').
Proof.
  induction r as [|q r IH]; intros HE; [by inversion HE|]. cbn [app link].
  destruct (decide _); [done|]. inversion HE; subst; [done|]. by rewrite IH.
Qed.

Lemma link_ext H H' i rest : Forall (fun q => H q = H' q) rest -> link H i rest = link H' i rest.
Proof. induction 1 as [|q r Hq Hr IH]; [done|]. cbn. by rewrite Hq, IH. Qed.

Lemma low_or_high (H : positive -> nat) i r :
  Forall (fun q => (H q <= i)%nat) r \/ Exists (fun q => (i < H q)%nat) r.
Proof.
  induction r as [|q r [IH|IH]]; [by left| |right; by right].
  destruct (decide (i < H q)%nat); [right; by left|left; constructor; [lia|done]].
Qed.

(** The last node of a prefix that is higher than [i] is unique. *)
Lemma last_high (H : positive -> nat) i l x ra l' x' ra' :
  l ++ x :: ra = l' ++ x' :: ra' -> (i < H x)%nat -> (i < H x')%nat ->
  Forall (fun q => (H q <= i)%nat) ra -> Forall (fun q => (H q <= i)%nat) ra' ->
  l = l' /\ x = x' /\ ra = ra'.
Proof.
  intros E Hx Hx' Hr Hr'. destruct (decide (length l = length l')) as [En|En].
  - apply app_inj_1 in E as [-> [= -> ->]]; done.
  - exfalso. destruct (app_eq_inv _ _ _ _ E) as [(k & Ek1 & Ek2)|(k & Ek1 & Ek2)]; destruct k as [|y k]; csimpl in *; simplify_eq;
      rewrite ?app_nil_r in *; try done.
    + subst. rewrite Forall_app in Hr'. destruct Hr' as [_ Hr']. inversion Hr'. lia.
    + subst. rewrite Forall_app in Hr. destruct Hr as [_ Hr]. inversion Hr. lia.
Qed.

(** ** Accesses, as functions of the represented values *)

Lemma level_at_lev sl p i lv : lev sl p i = Some lv -> level_at sl p i = Ok lv.
Proof. unfold lev, level_at, deref. destruct (heap sl !! p) as [n|]; [|done]. csimpl. by intros ->. Qed.

Lemma lev_ht sl p i : (i < ht sl p)%nat <-> is_Some (lev sl p i).
Proof.
  unfold lev, ht. destruct (heap sl !! p) as [n|]; csimpl.
  - symmetry. apply lookup_lt_is_Some.
  - split; [lia|]. by intros [? ?].
Qed.

Lemma it_deref sl p e : it sl p = Some e -> exists n, deref sl p = Ok n /\ item n = e.
Proof. unfold it, deref. destruct (heap sl !! p) as [n|]; [|done]. csimpl. intros [= <-]. by exists n. Qed.

Lemma deref_it sl p n : deref sl p = Ok n -> it sl p = Some (item n) /\ bk sl p = Some (Backward n).
Proof. unfold it, bk, deref. destruct (heap sl !! p) as [n'|]; [|done]. by intros [= <-]. Qed.

Lemma link_span_bounds H i rest : 0 <= Span (link H i rest) <= Z.of_nat (length rest).
Proof. induction rest as [|q r IH]; [done|]. cbn [link]. destruct (decide _); cbn [Span length]; lia. Qed.

(** A node list and a bound [b] on the position that a search respects: [x] is
    the last node among the first [b] that is higher than [i], at position
    [r]. *)
Definition stops (H : positive -> nat) (ps : list positive) (b i : nat) (x : positive) (r : Z) : Prop :=
  exists l ra, Header :: ps = (l ++ x :: ra) ++ drop b ps /\ r = Z.of_nat (length l) /\
    (length l + length ra = b)%nat /\ Forall (fun q => (H q <= i)%nat) ra /\ (i < H x)%nat.

(** [cond] lets exactly the first [b] nodes pass. *)
Definition passes (sl : SkipList) (ps : list positive) (b : nat) (cond : Z -> Z -> SkipListNode -> bool) : Prop :=
  forall l p r q rest n, Header :: ps = l ++ p :: r ++ q :: rest -> deref sl q = Ok n ->
    cond (Z.of_nat (length l)) (Z.of_nat (length r) + 1) n = bool_decide (S (length l + length r) <= b)%nat.

Section search.
Context (sl : SkipList) (ps : list positive) (es : list ScoredMember) (Hs : shape sl ps es).
Context (Hb : Z.of_nat (length es) < 2 ^ 63).

Lemma length_ps : length ps = length es.
Proof using Hs. eapply Forall2_length, s_items, Hs. Qed.

Lemma node_it p : p ∈ Header :: ps -> exists e, it sl p = Some e.
Proof using Hs.
  intros [->|Hp]%elem_of_cons; [destruct (s_header _ _ _ Hs) as [_ ?]; eauto|].
  apply list_elem_of_lookup in Hp as [k Hk]. destruct (Forall2_lookup_l _ _ _ _ _ (s_items _ _ _ Hs) Hk) as (e & _ & ?). eauto.
Qed.

Lemma ps_fits : (length ps < size (heap sl))%nat.
Proof using Hs.
  pose proof (s_nodup _ _ _ Hs) as Hn. rewrite <- size_dom.
  assert (size (list_to_set (C := gset positive) (Header :: ps)) = length (Header :: ps)) as E by by apply size_list_to_set.
  assert (list_to_set (C := gset positive) (Header :: ps) ⊆ dom (heap sl)) as Hsub.
  { intros p Hp. apply elem_of_list_to_set in Hp. destruct (node_it p Hp) as [e He]. apply elem_of_dom.
    unfold it in He. destruct (heap sl !! p); [eauto|done]. }
  apply subseteq_size in Hsub. rewrite E in Hsub. cbn in Hsub. lia.
Qed.

Lemma stops_here b i l x rest : Header :: ps = l ++ x :: rest -> (length l <= b <= length ps)%nat -> (i < ht sl x)%nat ->
  Forall (fun q => (ht sl q <= i)%nat) (take (b - length l) rest) -> stops (ht sl) ps b i x (Z.of_nat (length l)).
Proof using.
  clear es Hs Hb. intros E Hle Hx HF. exists l, (take (b - length l) rest).
  assert (drop b ps = drop (b - length l) rest) as ->.
  { change (drop b ps) with (drop (S b) (Header :: ps)). rewrite E, drop_app, drop_ge by lia.
    replace (S b - length l)%nat with (S (b - length l)) by lia. done. }
  rewrite <- app_assoc. csimpl. rewrite take_drop. split; [done|]. split; [done|]. split; [|done].
  apply (f_equal length) in E. rewrite length_app in E. cbn in E. rewrite length_take. lia.
Qed.

Lemma walk_spec cond b i fuel l x rest :
  passes sl ps b cond -> (i < Level sl)%nat -> Header :: ps = l ++ x :: rest -> (i < ht sl x)%nat ->
  (length l <= b <= length ps)%nat -> (length rest <= fuel)%nat ->
  exists x' r', walk fuel sl cond i x (Z.of_nat (length l)) = Ok (x', r') /\ stops (ht sl) ps b i x' r'.
Proof using Hs Hb.
  intros Hc Hi. revert l x rest. induction fuel as [|fuel IH]; intros l x rest E Hx Hl Hf; cbn [walk];
    rewrite (level_at_lev _ _ _ _ (s_links _ _ _ Hs _ _ _ _ E Hi Hx)); csimpl;
    destruct (link_cases (ht sl) i rest) as [[Hr ->]|(r1 & q & r2 & Er & H1 & H2 & ->)]; cbn [Forward Span].
  - eexists _, _. split; [done|]. apply (stops_here _ _ _ _ rest); auto using Forall_take.
  - subst rest. rewrite length_app in Hf. cbn in Hf. lia.
  - eexists _, _. split; [done|]. apply (stops_here _ _ _ _ rest); auto using Forall_take.
  - subst rest. destruct (node_it q) as [e He]; [rewrite E; set_solver|].
    destruct (it_deref _ _ _ He) as (n & Hn & _). rewrite Hn. csimpl.
    rewrite (Hc _ _ _ _ _ _ E Hn). case_bool_decide as Hp.
    + assert (uint64 (Z.of_nat (length l) + (Z.of_nat (length r1) + 1)) = Z.of_nat (length (l ++ x :: r1))) as ->.
      { rewrite length_app. cbn [length]. rewrite uint64_id; [lia|]. split; [lia|]. pose proof length_ps. lia. }
      apply (IH _ _ r2); [by rewrite <- app_assoc|done| |rewrite length_app in Hf; cbn in Hf; lia].
      rewrite length_app. cbn [length]. lia.
    + eexists _, _. split; [done|]. apply (stops_here _ _ _ _ (r1 ++ q :: r2)); auto.
      rewrite take_app_le by lia. by apply Forall_take.
Qed.

Lemma stops_split b i x r : stops (ht sl) ps b i x r -> (b <= length ps)%nat ->
  exists l rest, Header :: ps = l ++ x :: rest /\ r = Z.of_nat (length l) /\ (length l <= b)%nat /\ (i < ht sl x)%nat.
Proof using.
  clear es Hs Hb. intros (l & ra & E & -> & Hb & _ & Hx) Hle. exists l, (ra ++ drop b ps).
  split; [by rewrite E, <- app_assoc|]. split; [done|]. split; [lia|done].
Qed.

Lemma walk_from cond b i l x rest :
  passes sl ps b cond -> (i < Level sl)%nat -> Header :: ps = l ++ x :: rest -> (i < ht sl x)%nat ->
  (length l <= b <= length ps)%nat ->
  exists x' r', walk (walk_fuel sl) sl cond i x (Z.of_nat (length l)) = Ok (x', r') /\ stops (ht sl) ps b i x' r'.
Proof using Hs Hb.
  intros Hc Hi E Hx Hl. apply (walk_spec cond b i _ l x rest); auto. unfold walk_fuel. pose proof ps_fits.
  apply (f_equal length) in E. rewrite length_app in E. cbn in E. lia.
Qed.

Lemma search_spec cond b i l x rest :
  passes sl ps b cond -> (i <= Level sl)%nat -> Header :: ps = l ++ x :: rest -> (i <= ht sl x)%nat ->
  (length l <= b <= length ps)%nat ->
  exists us, search sl cond i x (Z.of_nat (length l)) = Ok us /\ length us = i /\
    forall j u, us !! j = Some u -> stops (ht sl) ps b j u.1 u.2.
Proof using Hs Hb.
  intros Hc. revert l x rest. induction i as [|i IH]; intros l x rest Hi E Hx Hl; cbn [search].
  - by exists [].
  - destruct (walk_from cond b i l x rest) as (x' & r' & -> & Hst); auto; try lia. csimpl.
    destruct (stops_split _ _ _ _ Hst) as (l' & rest' & E' & -> & Hl' & Hx'); [lia|].
    destruct (IH l' x' rest') as (us & -> & Hus & Hall); auto; try lia. csimpl.
    exists (us ++ [(x', Z.of_nat (length l'))]). split; [done|]. rewrite length_app. split; [cbn; lia|].
    intros j u Hj. apply lookup_app_Some in Hj as [Hj|[Hge Hj]]; [by apply Hall|].
    apply list_lookup_singleton_Some in Hj as [Hj <-]. replace j with i by lia. done.
Qed.

(** From the header and the highest level down. *)
Lemma search_all cond b : passes sl ps b cond -> (b <= length ps)%nat ->
  exists us, search sl cond (Level sl) Header 0 = Ok us /\ length us = Level sl /\
    forall j u, us !! j = Some u -> stops (ht sl) ps b j u.1 u.2.
Proof using Hs Hb.
  intros Hc Hle. apply (search_spec cond b (Level sl) [] Header ps Hc); auto; [|cbn; lia].
  destruct (s_header _ _ _ Hs) as [-> _]. destruct (s_level _ _ _ Hs). lia.
Qed.

Lemma position_item l p r q rest n : Header :: ps = l ++ p :: r ++ q :: rest -> deref sl q = Ok n ->
  ps !! (length l + length r)%nat = Some q /\ es !! (length l + length r)%nat = Some (item n).
Proof using Hs.
  intros E Hn. assert (ps !! (length l + length r)%nat = Some q) as Hq.
  { change (ps !! (length l + length r)%nat) with ((Header :: ps) !! S (length l + length r)).
    replace (l ++ p :: r ++ q :: rest) with ((l ++ p :: r) ++ q :: rest) in E by by rewrite <- app_assoc.
    rewrite E, lookup_app_r, length_app; cbn [length]; [|rewrite length_app; cbn; lia].
    by replace (_ - _)%nat with O by lia. }
  split; [done|]. destruct (Forall2_lookup_l _ _ _ _ _ (s_items _ _ _ Hs) Hq) as (e & He & Hit).
  rewrite (proj1 (deref_it _ _ _ Hn)) in Hit. congruence.
Qed.

Lemma passes_items (f : SkipListNode -> bool) (g : ScoredMember -> bool) b : (forall n, f n = g (item n)) ->
  (forall j e, es !! j = Some e -> g e = bool_decide (j < b)%nat) -> passes sl ps b (fun _ _ => f).
Proof using Hs.
  intros Hf Hg l p r q rest n E Hn. destruct (position_item _ _ _ _ _ _ E Hn) as [_ He].
  rewrite Hf, (Hg _ _ He). apply bool_decide_ext. lia.
Qed.

Lemma passes_position rank : 0 <= rank -> passes sl ps (Z.to_nat rank) (fun t span _ => uint64 (t + span) <=? rank).
Proof using Hs Hb.
  intros Hr l p r q rest n E _. rewrite uint64_id.
  - case_bool_decide; lia.
  - apply (f_equal length) in E. rewrite !length_app in E. cbn in E. rewrite length_app in E. cbn in E.
    pose proof length_ps. split; lia.
Qed.

End search.

(** ** The split point of an ordered list *)

Lemma sorted_split (f : ScoredMember -> bool) es : StronglySorted item_lt es ->
  (forall a b, a ∈ es -> b ∈ es -> item_lt a b -> f b = true -> f a = true) ->
  exists b, (b <= length es)%nat /\ forall j e, es !! j = Some e -> f e = bool_decide (j < b)%nat.
Proof.
  induction 1 as [|a es Hes IH Ha]; intros Hf; [by exists O|].
  destruct IH as (b & Hb & Hj); [intros ????; apply Hf; by right|].
  destruct (f a) eqn:Fa.
  - exists (S b). split; [cbn; lia|]. intros [|j] e He.
    + csimpl in He. simplify_eq. rewrite Fa. symmetry. apply bool_decide_eq_true. lia.
    + rewrite (Hj j e He). apply bool_decide_ext. lia.
  - exists O. split; [lia|]. intros j e He. rewrite bool_decide_eq_false_2 by lia.
    destruct (f e) eqn:Fe; [|done]. exfalso. destruct j as [|j]; csimpl in He; [simplify_eq; congruence|].
    rewrite (Hf a e) in Fa; [done|left|right; by eapply list_elem_of_lookup_2| |done].
    rewrite Forall_forall in Ha. apply Ha. by eapply list_elem_of_lookup_2.
Qed.

(** ** Updates *)

(** Everything but the levels of the nodes is the same. *)
Record frame (sl sl' : SkipList) : Prop := {
  f_ht : forall p, ht sl' p = ht sl p;
  f_it : forall p, it sl' p = it sl p;
  f_bk : forall p, bk sl' p = bk sl p;
  f_dom : dom (heap sl') = dom (heap sl);
  f_rest : Tail sl' = Tail sl /\ Length sl' = Length sl /\ Level sl' = Level sl /\ dict sl' = dict sl
}.

#[global] Instance frame_preorder : PreOrder frame.
Proof.
  split; [by split|]. intros a b c [? ? ? ? (? & ? & ? & ?)] [? ? ? ? (? & ? & ? & ?)].
  split; intros; try congruence; repeat split; congruence.
Qed.

Lemma set_level_spec p i lv sl : (i < ht sl p)%nat ->
  exists sl', set_level p i lv sl = Ok sl' /\ frame sl sl' /\
    forall q j, lev sl' q j = if decide (q = p /\ j = i) then Some lv else lev sl q j.
Proof.
  intros Hi. pose proof Hi as Hi'. apply lev_ht in Hi' as [old Hold]. unfold set_level.
  rewrite (level_at_lev _ _ _ _ Hold). csimpl. eexists. split; [done|].
  unfold lev, ht in Hold, Hi. destruct (heap sl !! p) as [n|] eqn:Hn; [|done]. csimpl in *. split.
  - split; try done; try (intros q; unfold ht, it, bk; cbn [heap set_heap]; destruct (decide (q = p)) as [->|Hq];
      [rewrite lookup_alter, decide_True by done; by rewrite Hn; csimpl; rewrite ?length_insert|by rewrite lookup_alter_ne]).
    cbn [heap set_heap]. apply dom_alter_L.
  - intros q j. unfold lev. cbn [heap set_heap]. destruct (decide (q = p)) as [->|Hq].
    + rewrite lookup_alter, decide_True by done. rewrite Hn. csimpl. destruct (decide (j = i)) as [->|Hj].
      * rewrite list_lookup_insert_eq by done. by rewrite decide_True.
      * rewrite list_lookup_insert_ne by done. rewrite decide_False; [done|tauto].
    + rewrite lookup_alter_ne by done. rewrite decide_False; [done|tauto].
Qed.

(** A loop whose round [i] changes only the levels [i], to the values [new]. *)
Lemma for_levels n a f sl (new : positive -> nat -> option SkipListLevel) :
  (forall i st, (a <= i < a + n)%nat -> frame sl st -> (forall q, lev st q i = lev sl q i) ->
    exists st', f i st = Ok st' /\ frame st st' /\
      forall q j, lev st' q j = if decide (j = i) then new q i else lev st q j) ->
  exists sl', for_range n a f sl = Ok sl' /\ frame sl sl' /\
    forall q j, lev sl' q j = if decide (a <= j < a + n)%nat then new q j else lev sl q j.
Proof.
  intros Hf. revert a sl Hf. induction n as [|n IH]; intros a sl Hf; cbn [for_range].
  - exists sl. split; [done|]. split; [done|]. intros q j. rewrite decide_False; [done|lia].
  - destruct (Hf a sl) as (st & -> & Hfr & Hl); [lia|done|done|]. csimpl.
    destruct (IH (S a) st) as (sl' & -> & Hfr' & Hl').
    + intros i st' Hi Hst' Hlev. apply Hf; [lia|by transitivity st|].
      intros q. rewrite Hlev, Hl, decide_False; [done|lia].
    + exists sl'. split; [done|]. split; [by transitivity st|]. intros q j. rewrite Hl', Hl.
      repeat case_decide; try lia; try done. by subst.
Qed.

(** ** Deletion *)

(** The values the loop of [deleteUnsafe] leaves at level [i]. *)
Definition unlinked (us : list (positive * Z)) (t : positive) (sl : SkipList) (q : positive) (i : nat)
    : option SkipListLevel :=
  match us !! i, lev sl q i, lev sl t i with
  | Some (x, _), Some lv, tl =>
      if decide (q = x) then
        if decide (Forward lv = Some t) then
          tl ← tl; Some (mkLevel (Forward tl) (uint64 (Span lv + uint64 (Span tl - 1))))
        else Some (mkLevel (Forward lv) (uint64 (Span lv - 1)))
      else Some lv
  | _, lv, _ => lv
  end.

Lemma unlink_loop us t sl :
  (forall i, (i < Level sl)%nat -> exists x r, us !! i = Some (x, r) /\ (i < ht sl x)%nat /\ x <> t) ->
  (forall i x r lv, us !! i = Some (x, r) -> lev sl x i = Some lv -> Forward lv = Some t -> (i < ht sl t)%nat) ->
  exists sl', for_range (Level sl) 0 (unlink us t) sl = Ok sl' /\ frame sl sl' /\
    forall q j, lev sl' q j = if decide (0 <= j < 0 + Level sl)%nat then unlinked us t sl q j else lev sl q j.
Proof.
  intros Hus Ht. apply for_levels. intros i st Hi Hfr Hlev. unfold unlink, update_at.
  destruct (Hus i) as (x & r & Hu & Hx & Hxt); [lia|]. rewrite Hu. csimpl.
  pose proof Hx as Hx'. apply lev_ht in Hx' as [lv Hlv]. rewrite (level_at_lev st x i lv) by by rewrite Hlev.
  csimpl. rewrite <- (f_ht _ _ Hfr) in Hx.
  case_decide as Hd.
  - pose proof (Ht _ _ _ _ Hu Hlv Hd) as Hti. pose proof Hti as Hti'. apply lev_ht in Hti' as [tl Htl].
    rewrite (level_at_lev st t i tl) by by rewrite Hlev. csimpl.
    destruct (set_level_spec x i (mkLevel (Forward tl) (uint64 (Span lv + uint64 (Span tl - 1)))) st Hx) as (st' & -> & Hfr' & Hl').
    exists st'. split; [done|]. split; [done|]. intros q j. rewrite Hl'. unfold unlinked.
    destruct (decide (j = i)) as [->|Hj]; [|by rewrite decide_False by tauto].
    rewrite Hu, Htl. destruct (decide (q = x)) as [->|Hq].
    + rewrite decide_True by done. rewrite Hlv, decide_True by done. done.
    + rewrite decide_False by tauto. rewrite Hlev. destruct (lev sl q i) as [lvq|]; done.
  - destruct (set_level_spec x i (mkLevel (Forward lv) (uint64 (Span lv - 1))) st Hx) as (st' & -> & Hfr' & Hl').
    exists st'. split; [done|]. split; [done|]. intros q j. rewrite Hl'. unfold unlinked.
    destruct (decide (j = i)) as [->|Hj]; [|by rewrite decide_False by tauto].
    rewrite Hu. destruct (decide (q = x)) as [->|Hq].
    + rewrite decide_True by done. rewrite Hlv. by rewrite decide_False.
    + rewrite decide_False by tauto. rewrite Hlev. destruct (lev sl q i) as [lvq|]; done.
Qed.

Lemma split_cases {A} (xs ys l rest : list A) p : xs ++ ys = l ++ p :: rest ->
  (exists r, xs = l ++ p :: r /\ rest = r ++ ys) \/ (exists l2, l = xs ++ l2 /\ ys = l2 ++ p :: rest).
Proof.
  intros E. destruct (app_eq_inv _ _ _ _ E) as [(k & -> & Ek)|(k & -> & Ek)]; [|right; eauto].
  destruct k as [|y k]; csimpl in Ek; [right; exists []; rewrite !app_nil_r; by subst ys|].
  left. simplify_eq. by exists k.
Qed.

Lemma nodup_split {A} (l l' r r' : list A) p : NoDup (l ++ p :: r) -> l ++ p :: r = l' ++ p :: r' -> l = l' /\ r = r'.
Proof.
  intros Hn E. destruct (app_eq_inv _ _ _ _ E) as [(k & Ek & Ek2)|(k & Ek & Ek2)]; destruct k as [|y k]; csimpl in *;
    rewrite ?app_nil_r in *; simplify_eq; try done; exfalso; rewrite E in Hn || idtac;
    apply NoDup_app in Hn as (_ & Hd & Hn); first [apply NoDup_cons in Hn as [Hn _]; apply Hn; set_solver | apply (Hd y); set_solver].
Qed.

Lemma link_forward H i rest q : Forward (link H i rest) = Some q -> q ∈ rest /\ (i < H q)%nat.
Proof.
  destruct (link_cases H i rest) as [[_ ->]|(r1 & q' & r2 & -> & _ & Hq & ->)]; cbn; [done|].
  intros [= <-]. split; [set_solver|done].
Qed.

Section delete.
Context (sl : SkipList) (pa pb : list positive) (t : positive) (es : list ScoredMember).
Context (Hs : shape sl (pa ++ t :: pb) es) (Hb : Z.of_nat (length es) < 2 ^ 63).
Context (us : list (positive * Z)) (Hlen : length us = Level sl).
Context (Hus : forall j u, us !! j = Some u -> stops (ht sl) (pa ++ t :: pb) (length pa) j u.1 u.2).

Lemma delete_update i : (i < Level sl)%nat -> exists l x ra r, us !! i = Some (x, r) /\
  Header :: pa = l ++ x :: ra /\ Forall (fun q => (ht sl q <= i)%nat) ra /\ (i < ht sl x)%nat /\
  lev sl x i = Some (link (ht sl) i (ra ++ t :: pb)).
Proof using Hs Hus Hlen.
  intros Hi. destruct (lookup_lt_is_Some_2 us i) as [[x r] Hu]; [lia|].
  destruct (Hus i _ Hu) as (l & ra & E & Er & Hl & Hra & Hx). cbn [fst snd] in *. subst r.
  rewrite drop_app_length in E. change (Header :: pa ++ t :: pb) with ((Header :: pa) ++ t :: pb) in E.
  apply app_inv_tail in E. exists l, x, ra, (Z.of_nat (length l)). do 4 (split; [done|]).
  apply (s_links _ _ _ Hs l); [|done|done]. change (Header :: pa ++ t :: pb) with ((Header :: pa) ++ t :: pb).
  rewrite E. by rewrite <- app_assoc.
Qed.

Lemma delete_nodup : NoDup ((Header :: pa) ++ pb) /\ t ∉ (Header :: pa) ++ pb.
Proof using Hs.
  pose proof (s_nodup _ _ _ Hs) as Hn. change (Header :: pa ++ t :: pb) with ((Header :: pa) ++ t :: pb) in Hn.
  rewrite <- Permutation_middle in Hn. apply NoDup_cons in Hn as [? ?]. done.
Qed.

Lemma delete_links l p rest i : Header :: pa ++ pb = l ++ p :: rest -> (i < Level sl)%nat -> (i < ht sl p)%nat ->
  unlinked us t sl p i = Some (link (ht sl) i rest).
Proof using Hs Hus Hlen Hb.
  intros E Hi Hp. destruct delete_nodup as [Hn Ht].
  destruct (delete_update i Hi) as (lx & x & ra & r0 & Hu & Ex & Hra & Hx & Hlx). unfold unlinked. rewrite Hu.
  change (Header :: pa ++ pb) with ((Header :: pa) ++ pb) in E.
  destruct (split_cases _ _ _ _ _ E) as [(r & Er & ->)|(l2 & -> & Er)].
  - assert (lev sl p i = Some (link (ht sl) i (r ++ t :: pb))) as Hold.
    { apply (s_links _ _ _ Hs l); [|done|done]. change (Header :: pa ++ t :: pb) with ((Header :: pa) ++ t :: pb).
      rewrite Er. by rewrite <- app_assoc. }
    rewrite Hold. destruct (low_or_high (ht sl) i r) as [Hlow|Hhigh].
    + destruct (last_high (ht sl) i l p r lx x ra) as (-> & -> & ->); [congruence|done..|].
      rewrite decide_True by done. pose proof (link_span_bounds (ht sl) i pb).
      pose proof (length_ps _ _ _ Hs) as Hps. rewrite length_app in Hps. cbn in Hps.
      apply (f_equal length) in Ex. rewrite length_app in Ex. cbn in Ex.
      rewrite !link_low by done. destruct (decide (i < ht sl t)%nat) as [Hti|Hti].
      * rewrite (link_high _ _ t) by done. cbn [Forward Span]. rewrite decide_True by done.
        rewrite (s_links _ _ _ Hs (Header :: pa) t pb i) by done. csimpl. f_equal. f_equal.
        unfold uint64. rewrite Zplus_mod_idemp_r. fold (uint64 (1 + Z.of_nat (length ra) + (Span (link (ht sl) i pb) - 1))).
        rewrite uint64_id; [lia|]. split; lia.
      * cbn [link]. rewrite (decide_False (P := (i < ht sl t)%nat)) by done. cbn [Forward Span].
        rewrite decide_False; [|intros [Hin _]%link_forward; apply Ht; set_solver].
        f_equal. f_equal. rewrite uint64_id; [lia|]. split; lia.
    + rewrite decide_False; [by rewrite (link_shadow _ _ _ (t :: pb) pb)|]. intros ->.
      assert (NoDup (Header :: pa)) as Hn1 by by apply NoDup_app in Hn as [? _].
      destruct (nodup_split l lx r ra x) as [-> ->]; [congruence|congruence|].
      apply Exists_exists in Hhigh as (y & Hy & ?). rewrite Forall_forall in Hra. specialize (Hra y Hy). lia.
  - assert (lev sl p i = Some (link (ht sl) i rest)) as ->.
    { apply (s_links _ _ _ Hs (Header :: pa ++ t :: l2)); [|done|done]. rewrite Er. cbn. by rewrite <- app_assoc. }
    rewrite decide_False; [done|]. intros ->. apply NoDup_app in Hn as (_ & Hd & _).
    apply (Hd x); [rewrite Ex; set_solver|rewrite Er; set_solver].
Qed.

End delete.

Lemma set_backward_spec p b sl : is_Some (it sl p) ->
  exists sl', set_backward p b sl = Ok sl' /\
    (forall q j, lev sl' q j = lev sl q j) /\ (forall q, ht sl' q = ht sl q) /\ (forall q, it sl' q = it sl q) /\
    (forall q, bk sl' q = if decide (q = p) then Some b else bk sl q) /\
    Tail sl' = Tail sl /\ Length sl' = Length sl /\ Level sl' = Level sl /\ dict sl' = dict sl.
Proof.
  unfold it. intros [e He]. unfold set_backward, deref. destruct (heap sl !! p) as [n|] eqn:Hn; [|done]. csimpl.
  eexists. split; [done|]. repeat split; try (intros q; try intros j; unfold lev, ht, it, bk; cbn [heap set_heap];
    destruct (decide (q = p)) as [->|Hq]; [rewrite lookup_alter, decide_True by done; by rewrite Hn|by rewrite lookup_alter_ne]).
Qed.

(** The list does not change the shape below its levels, its length and its
    dictionary are not part of it. *)
Lemma shape_ext sl sl' ps es : shape sl ps es ->
  (forall q j, lev sl' q j = lev sl q j) -> (forall q, ht sl' q = ht sl q) -> (forall q, it sl' q = it sl q) ->
  (forall q, bk sl' q = bk sl q) -> Tail sl' = Tail sl -> Level sl' = Level sl -> shape sl' ps es.
Proof.
  intros [[H1 H1'] H2 H3 H4 H5 H6 H7 H8 H9] El Eh Ei Eb Et En. split.
  - by rewrite Eh, Ei.
  - done.
  - eapply Forall2_impl; [exact H3|]. intros p e. by rewrite Ei.
  - eapply Forall_impl; [exact H4|]. intros p. by rewrite Eh, En.
  - by rewrite En.
  - intros i. rewrite En, El. apply H6.
  - intros l p rest i E Hi Hp. rewrite En, Eh in *. rewrite El, (H7 l p rest i E Hi Hp).
    f_equal. apply link_ext. apply Forall_forall. done.
  - intros l p q rest E. rewrite Eb. by apply (H8 l p q rest).
  - by rewrite Et.
Qed.

Lemma lower_spec sl ps es : shape sl ps es ->
  exists l, lower (Level sl) sl = Ok l /\ shape (set_Level l sl) ps es.
Proof.
  intros Hs. assert (forall k, (1 <= k <= Level sl)%nat -> shape (set_Level k sl) ps es ->
    exists l, lower k sl = Ok l /\ shape (set_Level l sl) ps es) as Hk.
  { induction k as [|[|k] IH]; intros Hk Hsh; [lia|by exists 1%nat|]. cbn [lower].
    destruct (s_header _ _ _ Hs) as [Hh _].
    assert (lev sl Header (S k) = Some (link (ht sl) (S k) ps)) as Hlv.
    { apply (s_links _ _ _ Hs []); [done|lia|]. rewrite Hh. destruct (s_level _ _ _ Hs). lia. }
    rewrite (level_at_lev _ _ _ _ Hlv). csimpl.
    destruct (link_cases (ht sl) (S k) ps) as [[Hlow ->]|(r1 & q & r2 & _ & _ & _ & ->)]; cbn [Forward]; [|by exists (S (S k))].
    apply IH; [lia|]. destruct Hsh as [G1 G2 G3 G4 G5 G6 G7 G8 G9]. cbn [Level set_Level] in *. split; try done.
    - rewrite Forall_forall in *. intros p Hp. split; [apply (G4 p Hp)|]. apply (Hlow p Hp).
    - cbn [Level set_Level]. lia.
    - cbn [Level set_Level]. intros i Hi. destruct (decide (i = S k)) as [->|]; [|apply G6; lia].
      change (lev (set_Level (S k) sl) Header (S k)) with (lev sl Header (S k)). rewrite Hlv. csimpl.
      destruct (link_cases (ht sl) (S k) ps) as [[_ ->]|(r1 & q & r2 & -> & _ & Hq & _)]; [done|].
      rewrite Forall_app in Hlow. destruct Hlow as [_ Hlow]. inversion Hlow. lia.
    - cbn [Level set_Level]. intros l p rest i E Hi Hp. apply (G7 l p rest i E); [lia|done]. }
  destruct (s_level _ _ _ Hs). apply Hk; [lia|]. destruct Hs. by split.
Qed.

Lemma cons_app_r {A} (h : A) (xs ys : list A) : h :: xs ++ ys = (h :: xs) ++ ys.
Proof. done. Qed.

(** The backward pointers and the tail after the node [t] is taken out. *)
Lemma shape_without sl sl' pa t pb ea e eb b : shape sl (pa ++ t :: pb) (ea ++ e :: eb) -> length pa = length ea ->
  (forall q, ht sl' q = ht sl q) -> (forall q, it sl' q = it sl q) -> Level sl' = Level sl ->
  (forall i, (Level sl <= i)%nat -> lev sl' Header i = lev sl Header i) ->
  (forall l p rest i, Header :: pa ++ pb = l ++ p :: rest -> (i < Level sl)%nat -> (i < ht sl p)%nat ->
    lev sl' p i = Some (link (ht sl) i rest)) ->
  bk sl t = Some b -> (forall q, bk sl' q = if decide (head pb = Some q) then Some b else bk sl q) ->
  Tail sl' = match pb with [] => b | _ => Tail sl end ->
  shape sl' (pa ++ pb) (ea ++ eb).
Proof.
  intros Hs Hlp Eh Ei En Etop Hl Hbt Hb Ht. destruct (delete_nodup _ _ _ _ _ Hs) as [Hnd Hnt].
  destruct Hs as [[H1 H1'] H2 H3 H4 H5 H6 H7 H8 H9]. split.
  - by rewrite Eh, Ei.
  - done.
  - apply Forall2_app_inv in H3 as [H3 H3']; [|done]. inversion H3'; subst.
    apply Forall2_app; (eapply Forall2_impl; [eassumption|]; intros q x; by rewrite Ei).
  - rewrite Forall_app, Forall_cons in H4. destruct H4 as (H4 & _ & H4').
    apply Forall_app; split; (eapply Forall_impl; [eassumption|]; intros q; by rewrite Eh, En).
  - by rewrite En.
  - intros i Hi. rewrite En in Hi. rewrite Etop by lia. by apply H6.
  - intros l p rest i E Hi Hp. rewrite En, Eh in *. rewrite (Hl l p rest i E Hi Hp).
    f_equal. apply link_ext, Forall_forall. done.
  - intros l p q rest E. rewrite Hb. rewrite cons_app_r in E.
    destruct (split_cases _ _ _ _ _ E) as [([|q' r] & Er & Eq)|(l2 & -> & Er)].
    + cbn in Eq. subst pb. rewrite decide_True by done. rewrite <- Hbt. apply (H8 l p t (q :: rest)).
      rewrite cons_app_r, Er, <- app_assoc. done.
    + cbn in Eq. simplify_eq. rewrite decide_False.
      * apply (H8 l p q' (r ++ t :: pb)). rewrite cons_app_r, Er, <- app_assoc. done.
      * intros Hq. destruct pb as [|z pb]; [done|]. csimpl in Hq. simplify_eq. rewrite Er in Hnd.
        apply NoDup_app in Hnd as (_ & Hd & _). apply (Hd q'); set_solver.
    + subst pb. rewrite decide_False.
      * apply (H8 (Header :: pa ++ t :: l2) p q rest). by rewrite !cons_app_r, <- !app_assoc.
      * intros Hq. apply NoDup_app in Hnd as (_ & _ & Hnd). destruct l2 as [|z l2]; csimpl in Hq; simplify_eq.
        -- inversion Hnd. set_solver.
        -- inversion Hnd. set_solver.
  - rewrite Ht. destruct pb as [|z pb].
    + rewrite app_nil_r. destruct pa as [|p l _] using rev_ind; rewrite ?last_snoc.
      * rewrite (H8 [] Header t [] eq_refl) in Hbt. by simplify_eq.
      * rewrite (H8 (Header :: l) p t []) in Hbt by (cbn; by rewrite <- app_assoc).
        rewrite decide_False in Hbt; [congruence|]. intros ->. apply NoDup_app in Hnd as (Hnd & _).
        inversion Hnd. set_solver.
    + rewrite H9, !last_app. cbn [last]. done.
Qed.

Lemma shape_tall sl ps es p : shape sl ps es -> p ∈ Header :: ps -> (0 < ht sl p)%nat.
Proof.
  intros Hs [->|Hp]%elem_of_cons.
  - rewrite (proj1 (s_header _ _ _ Hs)). unfold SkipListMaxLevel. lia.
  - pose proof (s_height _ _ _ Hs) as H4. rewrite Forall_forall in H4. specialize (H4 p Hp). lia.
Qed.

(** The lowest level links every node to the next one. *)
Lemma link_lowest sl ps es l rest : shape sl ps es -> Header :: ps = l ++ rest ->
  Forward (link (ht sl) 0 rest) = head rest.
Proof.
  intros Hs E. destruct rest as [|q rest]; [done|]. rewrite link_high; [done|].
  apply (shape_tall _ _ _ _ Hs). rewrite E. set_solver.
Qed.

Lemma shape_delete sl pa t pb ea e eb us n : shape sl (pa ++ t :: pb) (ea ++ e :: eb) -> length pa = length ea ->
  Z.of_nat (length (ea ++ e :: eb)) < 2 ^ 63 -> length us = Level sl ->
  (forall j u, us !! j = Some u -> stops (ht sl) (pa ++ t :: pb) (length pa) j u.1 u.2) ->
  deref sl t = Ok n ->
  exists sl1 sl2 n', for_range (Level sl) 0 (unlink us t) sl = Ok sl1 /\ frame sl sl1 /\
    level_at sl1 t 0 = Ok (link (ht sl) 0 pb) /\ deref sl1 t = Ok n' /\
    (match Forward (link (ht sl) 0 pb) with
     | Some q => set_backward q (Backward n') sl1
     | None => Ok (set_tail (Backward n') sl1)
     end) = Ok sl2 /\ shape sl2 (pa ++ pb) (ea ++ eb) /\
    Length sl2 = Length sl /\ dict sl2 = dict sl /\ Level sl2 = Level sl.
Proof.
  intros Hs Hlp Hb Hlen Hus Hn. destruct (delete_nodup _ _ _ _ _ Hs) as [Hnd Ht].
  destruct (unlink_loop us t sl) as (sl1 & E1 & F1 & L1).
  { intros i Hi. destruct (delete_update _ _ _ _ _ Hs us Hlen Hus i Hi) as (l & x & ra & r & Hu & Ex & _ & Hx & _).
    exists x, r. split; [done|]. split; [done|]. intros ->. apply Ht. rewrite Ex. set_solver. }
  { intros i x r lv Hu Hlv Hf. destruct (delete_update _ _ _ _ _ Hs us Hlen Hus i) as (l & x' & ra & r' & Hu' & _ & _ & _ & Hlx).
    - rewrite <- Hlen. by eapply lookup_lt_Some.
    - simplify_eq. by apply link_forward in Hf as [_ ?]. }
  assert (forall l p rest i, Header :: pa ++ pb = l ++ p :: rest -> (i < Level sl)%nat -> (i < ht sl p)%nat ->
    lev sl1 p i = Some (link (ht sl) i rest)) as Hlinks.
  { intros l p rest i E Hi Hp. rewrite L1, decide_True by lia. by apply (delete_links _ _ _ _ _ Hs Hb us Hlen Hus l). }
  assert (1 <= Level sl)%nat as HL by apply (s_level _ _ _ Hs).
  assert (lev sl1 t 0 = Some (link (ht sl) 0 pb)) as Ht0.
  { rewrite L1, decide_True by lia. unfold unlinked.
    destruct (delete_update _ _ _ _ _ Hs us Hlen Hus 0 HL) as (l & x & ra & r & -> & Ex & _).
    rewrite (s_links _ _ _ Hs (Header :: pa) t pb 0); [|done|done|apply (shape_tall _ _ _ _ Hs); set_solver].
    rewrite decide_False; [done|]. intros ->. apply Ht. rewrite Ex. set_solver. }
  destruct (deref_it _ _ _ Hn) as [Hit Hbt].
  destruct (it_deref sl1 t (item n)) as (n' & Hn' & _); [by rewrite (f_it _ _ F1)|].
  pose proof (proj2 (deref_it _ _ _ Hn')) as Hbt'. rewrite (f_bk _ _ F1), Hbt in Hbt'. injection Hbt' as Hbb.
  destruct (f_rest _ _ F1) as (FT & FL & FV & FD).
  assert (forall i, (Level sl <= i)%nat -> lev sl1 Header i = lev sl Header i) as Htop.
  { intros i Hi. rewrite L1, decide_False by lia. done. }
  assert (Forward (link (ht sl) 0 pb) = head pb) as Hlow
    by (apply (link_lowest sl (pa ++ t :: pb) _ (Header :: pa ++ [t]) _ Hs); cbn; by rewrite <- app_assoc).
  destruct pb as [|q pb]; rewrite Hlow; cbn [head].
  - exists sl1, (set_tail (Backward n') sl1), n'. do 2 (split; [done|]). split; [by apply level_at_lev|].
    do 2 (split; [done|]). split; [|done].
    apply (shape_without sl _ pa t [] ea e eb (Backward n)); try done; try apply F1.
  - destruct (set_backward_spec q (Backward n') sl1) as (sl2 & E2 & K1 & K2 & K3 & K4 & K5 & K6 & K7 & K8).
    { rewrite (f_it _ _ F1). destruct (node_it _ _ _ Hs q) as [z ->]; [set_solver|done]. }
    exists sl1, sl2, n'. do 2 (split; [done|]). split; [by apply level_at_lev|].
    do 2 (split; [done|]). split; [|repeat split; congruence].
    apply (shape_without sl _ pa t (q :: pb) ea e eb (Backward n)); try done.
    + intros z. by rewrite K2, (f_ht _ _ F1).
    + intros z. by rewrite K3, (f_it _ _ F1).
    + congruence.
    + intros i Hi. rewrite K1. by apply Htop.
    + intros l p rest i E Hi Hp. rewrite K1. by apply (Hlinks l).
    + intros z. rewrite K4, (f_bk _ _ F1), Hbb. cbn [head]. by repeat case_decide; simplify_eq.
    + congruence.
Qed.

(** ** The order tests *)

Lemma bool_decide_of (b : bool) (P : Prop) `{!Decision P} : (b = true <-> P) -> b = bool_decide P.
Proof. intros H. case_bool_decide as HP; [tauto|]. destruct b; tauto. Qed.

Lemma before_spec score member n : is_nan score = false -> is_nan (Score (item n)) = false ->
  before score member n = bool_decide (item_lt (item n) (mkSM member score)).
Proof.
  intros Hn Hm. apply bool_decide_of. unfold before, flt, feq, item_lt, bytes_ltb. rewrite Hn, Hm. cbn [negb andb Score Member].
  rewrite orb_true_iff, andb_true_iff, Z.ltb_lt, Z.eqb_eq. destruct (bytes_compare _ _); intuition discriminate.
Qed.

Lemma upto_spec score member n : is_nan score = false -> is_nan (Score (item n)) = false ->
  upto score member n = bool_decide (~ item_lt (mkSM member score) (item n)).
Proof.
  intros Hn Hm. apply bool_decide_of. unfold upto, flt, feq, item_lt, bytes_leb. rewrite Hn, Hm. cbn [negb andb Score Member].
  rewrite (bytes_compare_antisym (Member (item n)) member).
  rewrite orb_true_iff, andb_true_iff, Z.ltb_lt, Z.eqb_eq.
  destruct (bytes_compare _ _); cbn [CompOpp]; split; try (intuition (lia || discriminate));
    intros Hx; destruct (Z.lt_trichotomy (fkey (Score (item n))) (fkey score)) as [?|[?|?]]; try tauto;
    exfalso; apply Hx; try (by left; lia); right; split; (lia || done).
Qed.

Lemma sorted_position ea e eb j a : StronglySorted item_lt (ea ++ e :: eb) -> (ea ++ e :: eb) !! j = Some a ->
  (item_lt a e <-> (j < length ea)%nat) /\ (~ item_lt e a <-> (j < S (length ea))%nat).
Proof.
  intros Hs Hj. apply lookup_app_Some in Hj as [Hj|[Hge Hj]].
  - pose proof (lookup_lt_Some _ _ _ Hj). assert (item_lt a e) as Hae.
    { apply (StronglySorted_app_elem _ _ _ _ _ Hs); [by eapply list_elem_of_lookup_2|set_solver]. }
    split; split; try done; try lia. intros _ Hea. by apply (item_lt_irrefl a), (item_lt_trans _ e).
  - destruct (j - length ea)%nat as [|k] eqn:Ek; csimpl in Hj.
    + simplify_eq. split; split; try lia; intros Hx; [by apply item_lt_irrefl in Hx|apply item_lt_irrefl].
    + assert (item_lt e a) as Hea.
      { apply (StronglySorted_app_elem item_lt (ea ++ [e]) eb); [by rewrite <- app_assoc|set_solver|by eapply list_elem_of_lookup_2]. }
      split; split; try lia; [|done]. intros Hae. by destruct (item_lt_irrefl a (item_lt_trans _ _ _ Hae Hea)).
Qed.

Lemma sorted_set_filter (P : ScoredMember -> Prop) `{!forall a, Decision (P a)} es : sorted_set es -> sorted_set (filter P es).
Proof.
  intros [H1 H2 H3]. split; [by apply StronglySorted_filter| |].
  { rewrite Forall_forall in *. intros a [_ Ha]%list_elem_of_filter. by apply H2. }
  eapply sublist_NoDup; [done|apply fmap_sublist, sublist_filter].
Qed.

Lemma drop_member_split ea e eb : NoDup (Member <$> ea ++ e :: eb) -> drop_member (Member e) (ea ++ e :: eb) = ea ++ eb.
Proof.
  intros Hn. unfold drop_member. rewrite fmap_app, fmap_cons in Hn. rewrite <- Permutation_middle in Hn.
  apply NoDup_cons in Hn as [Hn _]. rewrite elem_of_app, !list_elem_of_fmap in Hn.
  rewrite filter_app, filter_cons_False by tauto. f_equal; apply filter_all; apply Forall_forall; intros a Ha Ea; apply Hn; eauto.
Qed.

(** ** [deleteUnsafe] *)

Lemma repr_nodes sl ps es ea e eb : repr sl ps es -> es = ea ++ e :: eb ->
  exists pa t pb n, ps = pa ++ t :: pb /\ length pa = length ea /\ deref sl t = Ok n /\ item n = e.
Proof.
  intros Hr ->. pose proof (s_items _ _ _ (r_shape _ _ _ Hr)) as HF. apply Forall2_app_inv_r in HF as (pa & p2 & H1 & H2 & ->).
  apply Forall2_cons_inv_r in H2 as (t & pb & Ht & H2 & ->). destruct (it_deref _ _ _ Ht) as (n & ? & ?).
  exists pa, t, pb, n. split; [done|]. split; [by eapply Forall2_length|done].
Qed.

Lemma search_before sl ps es score member b : repr sl ps es -> is_nan score = false ->
  (forall j a, es !! j = Some a -> item_lt a (mkSM member score) <-> (j < b)%nat) -> (b <= length es)%nat ->
  exists us, search sl (fun _ _ => before score member) (Level sl) Header 0 = Ok us /\ length us = Level sl /\
    forall j u, us !! j = Some u -> stops (ht sl) ps b j u.1 u.2.
Proof.
  intros Hr Hn Hj Hb. apply (search_all sl ps es); [apply Hr|apply (r_bound _ _ _ Hr)| |by rewrite (length_ps _ _ _ (r_shape _ _ _ Hr))].
  intros l p r q rest n E Hq. destruct (position_item _ _ _ (r_shape _ _ _ Hr) _ _ _ _ _ _ E Hq) as [_ He].
  rewrite before_spec; [|done|]; last first.
  { pose proof (e_nan _ (r_set _ _ _ Hr)) as HF. rewrite Forall_forall in HF. by eapply HF, list_elem_of_lookup_2. }
  apply bool_decide_ext. rewrite (Hj _ _ He). lia.
Qed.

Lemma feq_refl s : is_nan s = false -> feq s s = true.
Proof. intros H. unfold feq. rewrite H. cbn. apply Z.eqb_refl. Qed.

(** At the lowest level the search stops right before the bound. *)
Lemma stops_lowest sl ps es b (us : list (positive * Z)) x r : shape sl ps es -> us !! O = Some (x, r) -> (b <= length ps)%nat ->
  (forall j u, us !! j = Some u -> stops (ht sl) ps b j u.1 u.2) ->
  exists l, Header :: ps = l ++ x :: drop b ps /\ length l = b /\ r = Z.of_nat b.
Proof.
  intros Hs Hu Hle Hus. destruct (Hus _ _ Hu) as (l & ra & E & Er & Hl & Hlow & _). cbn [fst snd] in *.
  destruct ra as [|q ra].
  - rewrite <- app_assoc in E. cbn in Hl. exists l. split; [done|]. split; [lia|]. subst r. f_equal. lia.
  - exfalso. inversion Hlow; subst. assert (0 < ht sl q)%nat; [|lia]. apply (shape_tall sl ps es q Hs). rewrite E. set_solver.
Qed.

Lemma level_lowest sl ps es l x rest : shape sl ps es -> Header :: ps = l ++ x :: rest ->
  exists lv, level_at sl x 0 = Ok lv /\ lev sl x 0 = Some lv /\ Forward lv = head rest.
Proof.
  intros Hs E. exists (link (ht sl) 0 rest).
  assert (lev sl x 0 = Some (link (ht sl) 0 rest)) as H.
  { apply (s_links _ _ _ Hs l); [done|apply (s_level _ _ _ Hs)|]. apply (shape_tall _ _ _ _ Hs). rewrite E. set_solver. }
  split; [by apply level_at_lev|]. split; [done|]. apply (link_lowest sl ps es (l ++ [x]) _ Hs). by rewrite <- app_assoc.
Qed.

Lemma deleteUnsafe_spec sl ps es m : repr sl ps es ->
  match dict sl !! m with
  | None => deleteUnsafe m sl = Ok (sl, false) /\ drop_member m es = es
  | Some _ => exists sl' ps', deleteUnsafe m sl = Ok (sl', true) /\ repr sl' ps' (drop_member m es) /\
      length es = S (length (drop_member m es)) /\ dict sl' = delete m (dict sl)
  end.
Proof.
  intros Hr. unfold deleteUnsafe. destruct (dict sl !! m) as [score|] eqn:Hd.
  - apply (r_dict _ _ _ Hr) in Hd as Hin. apply list_elem_of_split in Hin as (ea & eb & Ees).
    destruct (repr_nodes _ _ _ _ _ _ Hr Ees) as (pa & t & pb & n & -> & Hlp & Hn & Hit).
    pose proof (r_set _ _ _ Hr) as Hset.
    assert (is_nan score = false) as Hnan.
    { pose proof (e_nan _ Hset) as HF. rewrite Ees, Forall_app, Forall_cons in HF. apply HF. }
    destruct (search_before sl _ es score m (length ea) Hr Hnan) as (us & -> & Hlen & Hus).
    { intros j a Ha. rewrite Ees in Ha, Hset. by apply (sorted_position _ _ _ _ _ (e_sorted _ Hset) Ha). }
    { rewrite Ees, length_app. lia. }
    csimpl. pose proof (r_shape _ _ _ Hr) as Hsh. pose proof (r_bound _ _ _ Hr) as Hbd. rewrite Ees in Hsh, Hbd.
    destruct (s_level _ _ _ Hsh) as [HL1 HL2].
    destruct (lookup_lt_is_Some_2 us 0) as [[x r] Hu]; [lia|]. rewrite Hu. csimpl.
    destruct (stops_lowest _ _ _ (length ea) _ _ _ Hsh Hu) as (l & El & _ & _); [rewrite length_app; lia|done|].
    rewrite <- Hlp, drop_app_length in El.
    destruct (level_lowest _ _ _ _ _ _ Hsh El) as (lv & -> & _ & Hf). csimpl. rewrite Hf. cbn [head]. rewrite Hn. csimpl.
    rewrite Hit. cbn [Score Member]. rewrite feq_refl, bool_decide_true by done. cbn [andb].
    rewrite <- Hlp in Hus. destruct (shape_delete _ _ _ _ _ _ _ _ _ Hsh Hlp Hbd Hlen Hus Hn)
      as (sl1 & sl2 & n' & -> & F1 & Hl1 & Hn1 & Eback & Hsh2 & EL & ED & EV).
    csimpl. rewrite Hl1. csimpl. rewrite Hn1. csimpl. rewrite Eback. csimpl.
    destruct (lower_spec _ _ _ Hsh2) as (k & -> & Hsh3). csimpl.
    pose proof (drop_member_split ea (mkSM m score) eb) as Edrop. cbn [Member] in Edrop.
    rewrite Ees, Edrop by (rewrite Ees in Hset; apply Hset). eexists _, (pa ++ pb). split; [done|].
    split; [|split; [rewrite !length_app; cbn; lia|cbn; by rewrite ED]].
    split.
    + eapply shape_ext; [exact Hsh3|done..].
    + rewrite <- Edrop by (rewrite Ees in Hset; apply Hset). rewrite Ees in Hset. by apply sorted_set_filter.
    + cbn [dict]. rewrite ED. intros m' s'. rewrite lookup_delete_Some, (r_dict _ _ _ Hr), Ees.
      pose proof (e_members _ Hset) as Hnd. rewrite Ees, fmap_app, fmap_cons in Hnd. rewrite <- Permutation_middle in Hnd.
      apply NoDup_cons in Hnd as [Hnd _]. cbn [Member] in Hnd. rewrite elem_of_app, !list_elem_of_fmap in Hnd.
      rewrite !elem_of_app, elem_of_cons. split.
      * intros [Hne [?|[[= <- <-]|?]]]; tauto.
      * intros H. split; [intros <-; apply Hnd; destruct H; [left|right]; by exists (mkSM m s')|tauto].
    + cbn [Length]. rewrite EL, (r_length _ _ _ Hr), Ees, !length_app in *. cbn [length] in *. rewrite int64_id; [lia|].
      split; lia.
    + rewrite length_app in *. cbn in Hbd. lia.
  - split; [done|]. unfold drop_member. apply filter_all, Forall_forall. intros [m' s'] Ha Em. cbn in Em. subst m'.
    apply (r_dict _ _ _ Hr) in Ha. congruence.
Qed.

(** ** Insertion *)

Lemma randomLevel_bounds rng : (1 <= randomLevel rng <= SkipListMaxLevel)%nat.
Proof.
  unfold randomLevel. assert (forall f k lvl, (1 <= lvl < SkipListMaxLevel)%nat ->
    (1 <= randomLevel_loop f rng k lvl <= SkipListMaxLevel)%nat) as H; [|apply H; unfold SkipListMaxLevel; lia].
  induction f as [|f IH]; intros k lvl Hl; cbn [randomLevel_loop]; [lia|].
  destruct (4 * _ <? _); [|lia]. case_decide; [lia|apply IH; lia].
Qed.

(** The same nodes with other levels. *)
Lemma shape_relevel sl sl' ps es : shape sl ps es ->
  (forall q, ht sl' q = ht sl q) -> (forall q, it sl' q = it sl q) -> (forall q, bk sl' q = bk sl q) -> Tail sl' = Tail sl ->
  (Level sl <= Level sl' <= SkipListMaxLevel)%nat ->
  (forall i, (Level sl' <= i < SkipListMaxLevel)%nat -> Forward <$> lev sl' Header i = Some None) ->
  (forall l p rest i, Header :: ps = l ++ p :: rest -> (i < Level sl')%nat -> (i < ht sl p)%nat ->
    lev sl' p i = Some (link (ht sl) i rest)) ->
  shape sl' ps es.
Proof.
  intros [[H1 H1'] H2 H3 H4 H5 H6 H7 H8 H9] Eh Ei Eb Et HL Htop Hl. split; try done.
  - by rewrite Eh, Ei.
  - eapply Forall2_impl; [exact H3|]. intros p e. by rewrite Ei.
  - eapply Forall_impl; [exact H4|]. intros p. rewrite Eh. cbn. lia.
  - lia.
  - intros l p rest i E Hi Hp. rewrite Eh in Hp. rewrite (Hl l p rest i E Hi Hp).
    f_equal. by apply link_ext, Forall_forall.
  - intros l p q rest E. rewrite Eb. by apply (H8 l p q rest).
  - congruence.
Qed.

Lemma raise_spec sl ps es us b level : shape sl ps es -> Length sl = Z.of_nat (length es) ->
  Z.of_nat (length es) < 2 ^ 63 -> (1 <= level <= SkipListMaxLevel)%nat -> (b <= length ps)%nat -> length us = Level sl ->
  (forall j u, us !! j = Some u -> stops (ht sl) ps b j u.1 u.2) ->
  exists sl' us', raise level us sl = Ok (sl', us') /\ shape sl' ps es /\ length us' = Level sl' /\ (level <= Level sl')%nat /\
    (forall j u, us' !! j = Some u -> stops (ht sl') ps b j u.1 u.2) /\
    Length sl' = Length sl /\ dict sl' = dict sl.
Proof.
  intros Hs HL Hb Hlv Hle Hlen Hus. unfold raise. destruct (Nat.ltb_spec (Level sl) level) as [Hgt|Hge]; [|by exists sl, us].
  pose proof (s_header _ _ _ Hs) as [Hh _].
  destruct (for_levels (level - Level sl) (Level sl)
    (fun i sl => lv ← level_at sl Header i; set_level Header i (mkLevel (Forward lv) (uint64 (Length sl))) sl) sl
    (fun q i => if decide (q = Header) then Some (mkLevel None (Length sl)) else lev sl q i)) as (sl' & -> & Hfr & Hl).
  { intros i st Hi Hfr Hlev. pose proof (s_top _ _ _ Hs i) as Htop.
    destruct (lev sl Header i) as [lv|] eqn:El; [|specialize (Htop ltac:(lia)); done].
    rewrite (level_at_lev st Header i lv) by by rewrite Hlev. csimpl.
    assert (Forward lv = None) as ->. { specialize (Htop ltac:(lia)). csimpl in Htop. congruence. }
    destruct (f_rest _ _ Hfr) as (_ & -> & _ & _). rewrite HL, uint64_id by (split; lia).
    destruct (set_level_spec Header i (mkLevel None (Z.of_nat (length es))) st) as (st' & -> & Hfr' & Hl').
    - rewrite (f_ht _ _ Hfr), Hh. lia.
    - exists st'. split; [done|]. split; [done|]. intros q j. rewrite Hl'.
      destruct (decide (j = i)) as [->|Hj]; [|by rewrite decide_False by tauto].
      destruct (decide (q = Header)) as [->|Hq]; [by rewrite decide_True|by rewrite decide_False, Hlev by tauto]. }
  csimpl. destruct (f_rest _ _ Hfr) as (FT & FL & FV & FD).
  assert (forall i, (Level sl <= i)%nat -> Forall (fun q => (ht sl q <= i)%nat) ps) as Hlow.
  { intros i Hi. eapply Forall_impl; [apply (s_height _ _ _ Hs)|]. cbn. lia. }
  assert (shape (set_Level level sl') ps es) as Hsh.
  { apply (shape_relevel sl); try done; try apply Hfr; cbn [Level set_Level]; [lia| |].
    - intros i Hi. change (Forward <$> lev sl' Header i = Some None). rewrite Hl, decide_False by lia.
      apply (s_top _ _ _ Hs). lia.
    - intros l p rest i E Hi Hp. change (lev sl' p i = Some (link (ht sl) i rest)). rewrite Hl.
      case_decide as Hd; [|apply (s_links _ _ _ Hs l); (done || lia)].
      destruct l as [|h l]; cbn in E; simplify_eq.
      + rewrite decide_True by done. destruct (link_cases (ht sl) i rest) as [[_ ->]|(r1 & q & r2 & -> & _ & Hq & _)].
        * by rewrite HL, <- (length_ps _ _ _ Hs).
        * specialize (Hlow i ltac:(lia)). rewrite Forall_app, Forall_cons in Hlow. lia.
      + specialize (Hlow i ltac:(lia)). rewrite Forall_app, Forall_cons in Hlow. lia. }
  eexists _, _. split; [done|]. split; [done|]. split; [rewrite length_app, length_replicate; cbn; lia|].
  split; [done|]. split; [|done]. intros j u Hj. change (ht (set_Level level sl')) with (ht sl').
  apply lookup_app_Some in Hj as [Hj|[Hge Hj]].
  - destruct (Hus _ _ Hj) as (l & ra & ? & ? & ? & Hra & ?). exists l, ra. do 3 (split; [done|]). rewrite (f_ht _ _ Hfr).
    split; [|done]. eapply Forall_impl; [exact Hra|]. intros q. by rewrite (f_ht _ _ Hfr).
  - apply lookup_replicate in Hj as [-> Hj]. exists [], (take b ps). cbn [fst snd app length]. rewrite take_drop.
    split; [done|]. split; [done|]. rewrite length_take, (f_ht _ _ Hfr), Hh. split; [lia|]. split; [|lia].
    apply Forall_take. eapply Forall_impl; [apply (Hlow j); lia|]. intros q. by rewrite (f_ht _ _ Hfr).
Qed.

Section insert.
Context (sl : SkipList) (pa pb : list positive) (es : list ScoredMember) (e : ScoredMember) (level : nat).
Context (Hs : shape sl (pa ++ pb) es) (Hb : Z.of_nat (length es) < 2 ^ 63).
Context (Hlevel : (1 <= level <= Level sl)%nat).
Context (us : list (positive * Z)) (Hlen : length us = Level sl).
Context (Hus : forall j u, us !! j = Some u -> stops (ht sl) (pa ++ pb) (length pa) j u.1 u.2).

Let node : positive := fresh (dom (heap sl)).
Let sl1 : SkipList := set_heap (<[node := mkNode e None (replicate level (mkLevel None 0))]> (heap sl)) sl.

Lemma node_new p : p ∈ Header :: pa ++ pb -> p <> node.
Proof using Hs.
  intros Hp ->. destruct (node_it _ _ _ Hs _ Hp) as [x Hx]. unfold it in Hx.
  assert (node ∉ dom (heap sl)) as Hn by apply is_fresh. apply not_elem_of_dom in Hn. by rewrite Hn in Hx.
Qed.

Lemma alloc_old p i : p <> node -> lev sl1 p i = lev sl p i /\ ht sl1 p = ht sl p /\ it sl1 p = it sl p /\ bk sl1 p = bk sl p.
Proof using. intros Hp. unfold lev, ht, it, bk. cbn [heap sl1 set_heap]. by rewrite lookup_insert_ne. Qed.

Lemma alloc_new : ht sl1 node = level /\ it sl1 node = Some e /\ bk sl1 node = Some None.
Proof using.
  unfold ht, it, bk. cbn [heap sl1 set_heap]. rewrite lookup_insert_eq. csimpl. by rewrite length_replicate.
Qed.

(** The values the two loops of [Insert] leave at level [i]. *)
Definition linked (q : positive) (i : nat) : option SkipListLevel :=
  match us !! i with
  | Some (x, r) =>
      lv ← lev sl x i;
      if decide (q = x) then
        Some (if decide (i < level)%nat then mkLevel (Some node) (Z.of_nat (length pa) - r + 1)
              else mkLevel (Forward lv) (Span lv + 1))
      else if decide (q = node /\ (i < level)%nat) then Some (mkLevel (Forward lv) (Span lv - (Z.of_nat (length pa) - r)))
      else lev sl1 q i
  | None => lev sl1 q i
  end.

Lemma insert_update i : (i < Level sl)%nat -> exists l x ra, us !! i = Some (x, Z.of_nat (length l)) /\
  Header :: pa = l ++ x :: ra /\ Forall (fun q => (ht sl q <= i)%nat) ra /\ (i < ht sl x)%nat /\ x <> node /\
  lev sl x i = Some (link (ht sl) i (ra ++ pb)) /\ Z.of_nat (length pa) - Z.of_nat (length l) = Z.of_nat (length ra).
Proof using Hs Hus Hlen Hlevel Hb.
  intros Hi. destruct (lookup_lt_is_Some_2 us i) as [[x r] Hu]; [lia|].
  destruct (Hus i _ Hu) as (l & ra & E & Er & Hl & Hra & Hx). cbn [fst snd] in *. subst r.
  rewrite drop_app_length, cons_app_r in E. apply app_inv_tail in E. exists l, x, ra. do 4 (split; [done|]).
  split; [apply node_new; rewrite cons_app_r, E; set_solver|].
  split; [|lia]. apply (s_links _ _ _ Hs l); [|done|done]. rewrite cons_app_r, E. by rewrite <- app_assoc.
Qed.

Lemma insert_rank0 : exists x, us !! O = Some (x, Z.of_nat (length pa)).
Proof using Hs Hus Hlen Hlevel Hb.
  destruct (lookup_lt_is_Some_2 us 0) as [[x r] Hu]; [lia|].
  destruct (stops_lowest _ _ _ (length pa) _ _ _ Hs Hu) as (l & _ & _ & ->); [rewrite length_app; lia|done|]. by exists x.
Qed.

Lemma link_loop : exists sl2, for_range level 0 (link_in us node) sl1 = Ok sl2 /\ frame sl1 sl2 /\
  forall q j, lev sl2 q j = if decide (0 <= j < 0 + level)%nat then linked q j else lev sl1 q j.
Proof using Hs Hus Hlen Hlevel Hb.
  apply for_levels. intros i st Hi Hfr Hlev. unfold link_in, update_at.
  destruct insert_rank0 as [x0 ->]. csimpl.
  destruct (insert_update i) as (l & x & ra & Hu & Ex & Hra & Hx & Hxn & Hlx & Hd); [lia|]. rewrite Hu. csimpl.
  destruct (alloc_old x i Hxn) as (A1 & A2 & _).
  rewrite (level_at_lev st x i _) by (rewrite Hlev, A1; exact Hlx). csimpl.
  set (lv := link (ht sl) i (ra ++ pb)) in *. pose proof (length_ps _ _ _ Hs) as Hps. rewrite length_app in Hps.
  rewrite Hd, !(uint64_id (Z.of_nat (length ra))) by (apply (f_equal length) in Ex; rewrite length_app in Ex; cbn in Ex; split; lia).
  destruct (set_level_spec node i (mkLevel (Forward lv) (uint64 (Span lv - Z.of_nat (length ra)))) st) as (st1 & -> & Hfr1 & Hl1).
  { rewrite (f_ht _ _ Hfr), (proj1 alloc_new). lia. }
  csimpl. destruct (set_level_spec x i (mkLevel (Some node) (uint64 (Z.of_nat (length ra) + 1))) st1) as (st2 & -> & Hfr2 & Hl2).
  { by rewrite (f_ht _ _ Hfr1), (f_ht _ _ Hfr), A2. }
  exists st2. split; [done|]. split; [by transitivity st1|]. intros q j. rewrite Hl2, Hl1. unfold linked.
  destruct (decide (j = i)) as [->|Hj]; [|by rewrite !decide_False by tauto].
  rewrite Hu, Hlx. csimpl. rewrite Hd, Hlev. fold lv.
  assert (uint64 (Span lv - Z.of_nat (length ra)) = Span lv - Z.of_nat (length ra)) as ->.
  { unfold lv. rewrite link_low by done. cbn [Span]. pose proof (link_span_bounds (ht sl) i pb). apply uint64_id. split; lia. }
  assert (uint64 (Z.of_nat (length ra) + 1) = Z.of_nat (length ra) + 1) as ->.
  { apply uint64_id. apply (f_equal length) in Ex. rewrite length_app in Ex. cbn in Ex. split; lia. }
  rewrite (decide_True (P := (i < level)%nat)) by lia.
  repeat case_decide; try done; try tauto; intuition lia.
Qed.

Lemma widen_loop sl2 : frame sl1 sl2 ->
  (forall q j, lev sl2 q j = if decide (0 <= j < 0 + level)%nat then linked q j else lev sl1 q j) ->
  exists sl3, for_range (Level sl2 - level) level (widen us) sl2 = Ok sl3 /\ frame sl1 sl3 /\
    forall q j, lev sl3 q j = if decide (j < Level sl)%nat then linked q j else lev sl1 q j.
Proof using Hs Hus Hlen Hlevel Hb.
  intros Hfr2 Hl2. destruct (f_rest _ _ Hfr2) as (_ & _ & FV & _). cbn [Level sl1 set_heap] in FV. rewrite FV.
  destruct (for_levels (Level sl - level) level (widen us) sl2 linked) as (sl3 & -> & Hfr3 & Hl3).
  - intros i st Hi Hfr Hlev. unfold widen, update_at.
    destruct (insert_update i) as (l & x & ra & Hu & Ex & Hra & Hx & Hxn & Hlx & Hd); [lia|]. rewrite Hu. csimpl.
    destruct (alloc_old x i Hxn) as (A1 & A2 & _).
    rewrite (level_at_lev st x i _) by (rewrite Hlev, Hl2, decide_False, A1 by lia; exact Hlx). csimpl.
    set (lv := link (ht sl) i (ra ++ pb)) in *.
    destruct (set_level_spec x i (mkLevel (Forward lv) (uint64 (Span lv + 1))) st) as (st1 & -> & Hfr1 & Hl1).
    { by rewrite (f_ht _ _ Hfr), (f_ht _ _ Hfr2), A2. }
    exists st1. split; [done|]. split; [done|]. intros q j. rewrite Hl1. unfold linked.
    destruct (decide (j = i)) as [->|Hj]; [|by rewrite !decide_False by tauto].
    rewrite Hu, Hlx. csimpl. fold lv. rewrite (decide_False (P := (i < level)%nat)) by lia.
    assert (uint64 (Span lv + 1) = Span lv + 1) as ->.
    { apply uint64_id. pose proof (link_span_bounds (ht sl) i (ra ++ pb)) as Hsp. pose proof (length_ps _ _ _ Hs) as Hps.
      apply (f_equal length) in Ex. rewrite !length_app in *. cbn in Ex. unfold lv. split; lia. }
    rewrite Hlev, Hl2, (decide_False (P := (0 <= i < 0 + level)%nat)) by lia.
    repeat case_decide; try done; try tauto; intuition lia.
  - exists sl3. split; [done|]. split; [by transitivity sl2|]. intros q j. rewrite Hl3, Hl2.
    repeat case_decide; (done || lia).
Qed.

Lemma ht_old r : Forall (fun q => q ∈ Header :: pa ++ pb) r -> Forall (fun q => ht sl1 q = ht sl q) r.
Proof using Hs. intros HF. eapply Forall_impl; [exact HF|]. intros q Hq. by apply (alloc_old q O), node_new. Qed.

Lemma link_old i r : Forall (fun q => q ∈ Header :: pa ++ pb) r -> link (ht sl1) i r = link (ht sl) i r.
Proof using Hs. intros HF. by apply link_ext, ht_old. Qed.

Lemma insert_links l p rest i : Header :: pa ++ node :: pb = l ++ p :: rest -> (i < Level sl)%nat -> (i < ht sl1 p)%nat ->
  linked p i = Some (link (ht sl1) i rest).
Proof using Hs Hus Hlen Hlevel Hb.
  intros E Hi Hp. pose proof (s_nodup _ _ _ Hs) as Hn. rewrite cons_app_r in Hn.
  assert (forall r r', Header :: pa ++ pb = r ++ r' -> Forall (fun q => q ∈ Header :: pa ++ pb) r') as Hsub
    by (intros r r' ->; apply Forall_forall; set_solver).
  assert (link (ht sl1) i pb = link (ht sl) i pb) as Hpb by by apply link_old, (Hsub (Header :: pa)).
  destruct (insert_update i Hi) as (lx & x & ra & Hu & Ex & Hra & Hx & Hxn & Hlx & Hd). unfold linked. rewrite Hu, Hlx. csimpl.
  rewrite Hd. rewrite cons_app_r in E. destruct (split_cases _ _ _ _ _ E) as [(r & Er & ->)|([|y l2] & -> & Er)].
  - assert (p <> node) as Hpn by (apply node_new; rewrite cons_app_r, Er; set_solver).
    destruct (alloc_old p i Hpn) as (A1 & A2 & _). rewrite A2 in Hp.
    assert (Header :: pa ++ pb = (l ++ [p]) ++ r ++ pb) as Eall by by rewrite cons_app_r, Er, <- !app_assoc.
    pose proof (Hsub _ _ Eall) as Hin. destruct (low_or_high (ht sl) i r) as [Hlow|Hhigh].
    + destruct (last_high (ht sl) i l p r lx x ra) as (-> & -> & ->); [congruence|done..|].
      rewrite decide_True by done. rewrite (link_low (ht sl1)); last first.
      { apply Forall_app in Hin as [Hin _]. apply ht_old in Hin. rewrite Forall_forall in *. intros q Hq. rewrite (Hin q Hq). by apply Hra. }
      cbn [link]. rewrite (proj1 alloc_new). case_decide as Hil; cbn [Forward Span]; f_equal; [f_equal; lia|].
      rewrite Hpb, link_low by done. cbn [Forward Span]. f_equal. lia.
    + rewrite !decide_False; [|tauto|].
      * rewrite A1, (link_shadow (ht sl1) i r (node :: pb) pb), (link_old i (r ++ pb)); [|done|].
        2:{ apply Forall_app in Hin as [Hin _]. apply ht_old in Hin. rewrite Forall_forall in Hin. rewrite Exists_exists in *.
            destruct Hhigh as (q & Hq & Hqi). exists q. by rewrite (Hin q Hq). }
        apply (s_links _ _ _ Hs l); [by rewrite Eall, <- app_assoc|done|done].
      * intros ->. assert (NoDup (Header :: pa)) as Hn1 by by apply NoDup_app in Hn as [? _].
        destruct (nodup_split l lx r ra x) as [-> ->]; [congruence|congruence|].
        apply Exists_exists in Hhigh as (y & Hy & ?). rewrite Forall_forall in Hra. specialize (Hra y Hy). lia.
  - cbn in Er. injection Er as Ep Erest. subst p rest. rewrite decide_False by done. rewrite (proj1 alloc_new) in Hp. rewrite decide_True by done.
    rewrite Hpb, link_low by done. cbn [Forward Span]. destruct (link (ht sl) i pb) as [f sp]. cbn. do 2 f_equal. lia.
  - cbn in Er. injection Er as _ Epb. assert (p <> node) as Hpn by (apply node_new; rewrite Epb; set_solver).
    destruct (alloc_old p i Hpn) as (A1 & A2 & _). rewrite A2 in Hp. rewrite decide_False, decide_False; [|tauto|].
    + rewrite A1, (link_old i rest) by (apply (Hsub ((Header :: pa) ++ l2 ++ [p])); rewrite Epb; cbn; by rewrite <- !app_assoc).
      apply (s_links _ _ _ Hs ((Header :: pa) ++ l2)); [rewrite Epb; cbn; by rewrite <- app_assoc|done|done].
    + intros ->. apply NoDup_app in Hn as (_ & Hdj & _). apply (Hdj x); [rewrite Ex; set_solver|rewrite Epb; set_solver].
Qed.

(** The backward pointers and the tail with the new node in place; [x] is the
    node before it. *)
Lemma shape_with sl' lx x ea eb : es = ea ++ eb -> length pa = length ea -> Header :: pa = lx ++ [x] ->
  (forall q, ht sl' q = ht sl1 q) -> (forall q, it sl' q = it sl1 q) -> Level sl' = Level sl ->
  (forall q j, lev sl' q j = if decide (j < Level sl)%nat then linked q j else lev sl1 q j) ->
  (forall q, bk sl' q = if decide (head pb = Some q) then Some (Some node)
     else if decide (q = node) then Some (if decide (x = Header) then None else Some x) else bk sl1 q) ->
  Tail sl' = match pb with [] => Some node | _ => Tail sl end ->
  shape sl' (pa ++ node :: pb) (ea ++ e :: eb).
Proof using Hs Hus Hlen Hlevel Hb.
  intros Ees Hlp Ex Eh Ei En El Hbk Ht. destruct alloc_new as (N1 & N2 & N3).
  assert (forall q, q ∈ Header :: pa ++ pb -> ht sl1 q = ht sl q /\ it sl1 q = it sl q /\ bk sl1 q = bk sl q /\ q <> node) as Hold.
  { intros q Hq. pose proof (node_new q Hq) as Hne. destruct (alloc_old q O Hne) as (_ & ? & ? & ?). done. }
  pose proof (s_nodup _ _ _ Hs) as H2. split.
  - rewrite Eh, Ei. destruct (Hold Header) as (-> & -> & _); [set_solver|]. apply Hs.
  - rewrite cons_app_r, <- Permutation_middle. apply NoDup_cons. split; [|done]. intros Hin. by apply Hold in Hin as (_ & _ & _ & ?).
  - pose proof (s_items _ _ _ Hs) as H3. rewrite Ees in H3. apply Forall2_app_inv in H3 as [H3 H3']; [|done].
    assert (forall k z, Forall2 (fun p e => it sl p = Some e) k z -> k ⊆ Header :: pa ++ pb ->
      Forall2 (fun p e => it sl' p = Some e) k z) as Hk.
    { induction 1 as [|q a k z Hq _ IH]; intros Hin; constructor; [|apply IH; set_solver].
      rewrite Ei. destruct (Hold q) as (_ & -> & _); [set_solver|done]. }
    apply Forall2_app; [apply Hk; [done|set_solver]|]. constructor; [by rewrite Ei|]. apply Hk; [done|set_solver].
  - pose proof (s_height _ _ _ Hs) as H4. rewrite Forall_forall in *. intros q Hq. rewrite Eh, En.
    destruct (decide (q = node)) as [->|Hne]; [rewrite N1; lia|]. assert (q ∈ pa ++ pb) as Hin by set_solver.
    destruct (Hold q) as (-> & _); [set_solver|]. by apply H4.
  - rewrite En. apply Hs.
  - intros i Hi. rewrite En in Hi. rewrite El, decide_False by lia. 
    destruct (alloc_old Header i) as [-> _]; [apply node_new; set_solver|].
    by apply (s_top _ _ _ Hs).
  - intros l p rest i E Hi Hp. rewrite En, Eh in *. rewrite El, decide_True by done.
    rewrite (insert_links l p rest i E Hi Hp). f_equal. by apply link_ext, Forall_forall.
  - intros l p q rest E. rewrite Hbk. rewrite cons_app_r in E, H2.
    destruct (split_cases _ _ _ _ _ E) as [([|q' r] & Er & Eq)|([|y l2] & -> & Er)].
    + cbn in Eq. injection Eq as Eqn Erest. subst q rest. rewrite decide_False, decide_True; [|done|].
      * rewrite Er in Ex. apply app_inj_2 in Ex as [_ [= ->]]; done.
      * intros Hq. destruct pb as [|z pb']; [done|]. csimpl in Hq. injection Hq as ->. apply (Hold node); [set_solver|done].
    + cbn in Eq. injection Eq as Eqn Erest. subst q' rest.
      assert (q ∈ Header :: pa) as Hq by (rewrite Er; set_solver).
      destruct (Hold q) as (_ & _ & -> & Hne); [set_solver|]. rewrite decide_False, decide_False; [|done|].
      * apply (s_back _ _ _ Hs l p q (r ++ pb)). rewrite cons_app_r, Er, <- app_assoc. done.
      * intros Hh. apply NoDup_app in H2 as (_ & Hd & _). apply (Hd q Hq). destruct pb; [done|]. csimpl in Hh. set_solver.
    + cbn in Er. injection Er as <- Epb. rewrite Epb. cbn [head]. rewrite decide_True by done.
      rewrite decide_False; [done|]. intros Hh. apply (Hold Header); [set_solver|done].
    + cbn in Er. injection Er as _ Epb. destruct (Hold q) as (_ & _ & -> & Hne); [rewrite Epb; set_solver|].
      rewrite decide_False, decide_False; [|done|].
      * apply (s_back _ _ _ Hs ((Header :: pa) ++ l2) p q rest). rewrite Epb. cbn. by rewrite <- app_assoc.
      * rewrite Epb. intros Hh. apply NoDup_app in H2 as (_ & _ & H2). rewrite Epb in H2.
        destruct l2 as [|z l2]; csimpl in Hh; injection Hh as ->; inversion H2; set_solver.
  - rewrite Ht. destruct pb as [|z pb'] eqn:Epb; [by rewrite last_snoc|].
    rewrite (s_tail _ _ _ Hs), !last_app. done.
Qed.

Lemma shape_insert ea eb : es = ea ++ eb -> length pa = length ea ->
  exists sl2 sl3 x r sl4 lv sl5, for_range level 0 (link_in us node) sl1 = Ok sl2 /\
    for_range (Level sl2 - level) level (widen us) sl2 = Ok sl3 /\
    update_at us 0 = Ok (x, r) /\ set_backward node (if decide (x = Header) then None else Some x) sl3 = Ok sl4 /\
    level_at sl4 node 0 = Ok lv /\
    (match Forward lv with Some q => set_backward q (Some node) sl4 | None => Ok (set_tail (Some node) sl4) end) = Ok sl5 /\
    shape sl5 (pa ++ node :: pb) (ea ++ e :: eb) /\ Length sl5 = Length sl /\ dict sl5 = dict sl /\ Level sl5 = Level sl.
Proof using Hs Hus Hlen Hlevel Hb.
  intros Ees Hlp. destruct link_loop as (sl2 & E2 & F2 & L2). destruct (widen_loop sl2 F2 L2) as (sl3 & E3 & F3 & L3).
  destruct (lookup_lt_is_Some_2 us 0) as [[x r] Hu]; [lia|].
  destruct (stops_lowest _ _ _ (length pa) _ _ _ Hs Hu) as (lx & Ex & _ & _); [rewrite length_app; lia|done|].
  rewrite drop_app_length, cons_app_r in Ex. replace (lx ++ x :: pb) with ((lx ++ [x]) ++ pb) in Ex by by rewrite <- app_assoc.
  apply app_inv_tail in Ex. destruct (f_rest _ _ F3) as (T3 & N3 & V3 & D3).
  change (Tail sl1) with (Tail sl) in T3. change (Length sl1) with (Length sl) in N3.
  change (Level sl1) with (Level sl) in V3. change (dict sl1) with (dict sl) in D3.
  destruct alloc_new as (A1 & A2 & _).
  destruct (set_backward_spec node (if decide (x = Header) then None else Some x) sl3)
    as (sl4 & E4 & K1 & K2 & K3 & K4 & K5 & K6 & K7 & K8); [by rewrite (f_it _ _ F3), A2|].
  assert (lev sl4 node 0 = Some (link (ht sl1) 0 pb)) as Hl4.
  { rewrite K1, L3, decide_True by lia. apply (insert_links (Header :: pa)); [done|lia|rewrite A1; lia]. }
  assert (Forward (link (ht sl1) 0 pb) = head pb) as Hhead.
  { rewrite link_old by (apply Forall_forall; set_solver). by apply (link_lowest sl (pa ++ pb) es (Header :: pa)). }
  assert (head pb <> Some node) as Hne.
  { intros Hh. apply (node_new node); [|done]. destruct pb; [done|]. csimpl in Hh. set_solver. }
  exists sl2, sl3, x, r, sl4, (link (ht sl1) 0 pb).
  assert (forall sl5, (match Forward (link (ht sl1) 0 pb) with Some q => set_backward q (Some node) sl4 | None => Ok (set_tail (Some node) sl4) end) = Ok sl5 ->
    (forall q, ht sl5 q = ht sl1 q) -> (forall q, it sl5 q = it sl1 q) -> Level sl5 = Level sl ->
    (forall q j, lev sl5 q j = lev sl4 q j) -> (forall q, bk sl5 q = if decide (head pb = Some q) then Some (Some node) else bk sl4 q) ->
    Tail sl5 = match pb with [] => Some node | _ => Tail sl end -> shape sl5 (pa ++ node :: pb) (ea ++ e :: eb)) as Hfin.
  { intros sl5 E5 B1 B2 B3 B4 B5 B6. apply (shape_with sl5 lx x); try done.
    - intros q j. by rewrite B4, K1, L3.
    - intros q. rewrite B5, K4, (f_bk _ _ F3). done. }
  rewrite Hhead in *. destruct (head pb) as [q|] eqn:Hq.
  - destruct (set_backward_spec q (Some node) sl4) as (sl5 & E5 & J1 & J2 & J3 & J4 & J5 & J6 & J7 & J8).
    { rewrite K3, (f_it _ _ F3). destruct (node_it _ _ _ Hs q) as [z Hz]; [destruct pb; csimpl in Hq; [done|]; set_solver|].
      assert (q <> node) as Hqn by congruence. destruct (alloc_old q O Hqn) as (_ & _ & -> & _). by rewrite Hz. }
    exists sl5. repeat (split; [first [done|by apply level_at_lev|unfold update_at; by rewrite Hu]|]).
    split; [|repeat split; congruence]. apply Hfin; try done.
    + intros z. by rewrite J2, K2, (f_ht _ _ F3).
    + intros z. by rewrite J3, K3, (f_it _ _ F3).
    + cbn in V3. congruence.
    + intros z. rewrite J4. repeat case_decide; congruence.
    + destruct pb; [done|]. cbn in T3. congruence.
  - exists (set_tail (Some node) sl4). repeat (split; [first [done|by apply level_at_lev|unfold update_at; by rewrite Hu]|]).
    split; [|cbn; repeat split; congruence]. apply Hfin; try done.
    + intros z. change (ht sl4 z = ht sl1 z). by rewrite K2, (f_ht _ _ F3).
    + intros z. change (it sl4 z = it sl1 z). by rewrite K3, (f_it _ _ F3).
    + cbn in *. congruence.
    + by destruct pb.
Qed.

End insert.

(** ** [Insert] *)

Lemma filter_split (P : ScoredMember -> Prop) `{!forall a, Decision (P a)} es b :
  (forall j a, es !! j = Some a -> P a <-> (j < b)%nat) ->
  filter P es = take b es /\ filter (fun a => ~ P a) es = drop b es.
Proof.
  revert b. induction es as [|a es IH]; intros b Hj; [by rewrite take_nil, drop_nil|].
  destruct (IH (b - 1)%nat) as [IH1 IH2].
  { intros j x Hx. rewrite (Hj (S j) x Hx). lia. }
  specialize (Hj O a eq_refl). rewrite !filter_cons, IH1, IH2. destruct b as [|b].
  - assert (~ P a) as HP by (intros HP; apply Hj in HP; lia). by rewrite decide_False, decide_True.
  - assert (P a) as HP by (apply Hj; lia). rewrite decide_True, decide_False by tauto.
    by replace (S b - 1)%nat with b by lia.
Qed.

Lemma StronglySorted_app_intro {A} (R : A -> A -> Prop) l k : StronglySorted R l -> StronglySorted R k ->
  (forall x y, x ∈ l -> y ∈ k -> R x y) -> StronglySorted R (l ++ k).
Proof.
  induction 1 as [|x l Hl IH Hx]; intros Hk H; [done|]. cbn. constructor; [apply IH; [done|set_solver]|].
  apply Forall_app. split; [done|]. apply Forall_forall. intros y Hy. apply H; [set_solver|done].
Qed.

Lemma sorted_set_put e es : sorted_set es -> is_nan (Score e) = false -> Member e ∉ Member <$> es -> sorted_set (put_sorted e es).
Proof.
  intros [H1 H2 H3] Hn Hm. assert (forall a, a ∈ es -> ~ item_lt a e -> item_lt e a) as Htot.
  { intros a Ha Hna. destruct (item_lt_total a e) as [?|?]; [|done|done]. intros E. apply Hm. rewrite <- E. by apply list_elem_of_fmap_2. }
  assert (put_sorted e es ≡ₚ e :: es) as Hp.
  { unfold put_sorted. rewrite <- Permutation_middle. constructor. clear. induction es as [|a es IH]; [done|].
    rewrite !filter_cons. destruct (decide (item_lt a e)); [rewrite (decide_False (P := ~ _)) by tauto|rewrite decide_True by done].
    - cbn. by rewrite IH.
    - by rewrite <- Permutation_middle, IH. }
  split.
  - unfold put_sorted. apply StronglySorted_app_intro; [by apply StronglySorted_filter| |].
    + constructor; [by apply StronglySorted_filter|]. apply Forall_forall. intros a [Ha Hin]%list_elem_of_filter. by apply Htot.
    + intros x y [Hx Hxe]%list_elem_of_filter Hy. apply elem_of_cons in Hy as [->|[Hy Hye]%list_elem_of_filter]; [done|].
      apply (item_lt_trans _ e); [done|]. by apply Htot.
  - rewrite Hp. by constructor.
  - rewrite Hp. cbn. by constructor.
Qed.

Lemma put_sorted_elem e es a : a ∈ put_sorted e es <-> a = e \/ a ∈ es.
Proof.
  unfold put_sorted. rewrite elem_of_app, elem_of_cons, !list_elem_of_filter. destruct (decide (item_lt a e)); tauto.
Qed.

Lemma length_put_sorted e es : length (put_sorted e es) = S (length es).
Proof.
  unfold put_sorted. rewrite length_app. cbn. induction es as [|a es IH]; [done|].
  rewrite !filter_cons. repeat case_decide; cbn; tauto || lia.
Qed.

Lemma drop_member_none m es : m ∉ Member <$> drop_member m es.
Proof. intros (a & -> & [Ha _]%list_elem_of_filter)%list_elem_of_fmap. done. Qed.

Lemma Insert_absent rng sl ps es score m : repr sl ps es -> is_nan score = false -> dict sl !! m = None ->
  Z.of_nat (length es) < 2 ^ 63 - 1 ->
  exists sl' ps', Insert rng score m sl = Ok sl' /\ repr sl' ps' (put_sorted (mkSM m score) es).
Proof.
  intros Hr Hn Hd Hbd. unfold Insert. rewrite Hd. csimpl. pose proof (r_shape _ _ _ Hr) as Hsh. pose proof (r_set _ _ _ Hr) as Hset.
  destruct (sorted_split (fun a => bool_decide (item_lt a (mkSM m score))) es (e_sorted _ Hset)) as (b & Hb & Hj).
  { intros a a' _ _ Haa Ha. apply bool_decide_eq_true in Ha. apply bool_decide_eq_true. by apply (item_lt_trans _ a'). }
  assert (forall j a, es !! j = Some a -> item_lt a (mkSM m score) <-> (j < b)%nat) as Hj'.
  { intros j a Ha. specialize (Hj j a Ha). rewrite <- (bool_decide_spec (item_lt a _)), Hj. apply bool_decide_spec. }
  destruct (search_before sl ps es score m b Hr Hn Hj' Hb) as (us & -> & Hlen & Hus). csimpl.
  pose proof (length_ps _ _ _ Hsh) as Hps.
  destruct (raise_spec sl ps es us b (randomLevel rng)) as (sl1 & us1 & -> & Hsh1 & Hlen1 & Hlv & Hus1 & HL1 & HD1); try done.
  { apply Hr. } { apply Hr. } { apply randomLevel_bounds. } { lia. }
  csimpl. pose proof (randomLevel_bounds rng) as [Hlo _].
  rewrite <- (take_drop b ps) in Hsh1, Hus1. assert (length (take b ps) = b) as Htk by (rewrite length_take; lia).
  assert (forall j u, us1 !! j = Some u -> stops (ht sl1) (take b ps ++ drop b ps) (length (take b ps)) j u.1 u.2) as Hus2
    by (rewrite Htk; exact Hus1).
  destruct (shape_insert sl1 (take b ps) (drop b ps) es (mkSM m score) (randomLevel rng) Hsh1 (r_bound _ _ _ Hr) (conj Hlo Hlv) us1 Hlen1 Hus2
    (take b es) (drop b es)) as (sl2 & sl3 & x & r & sl4 & lv & sl5 & -> & E3 & E4 & E5 & E6 & E7 & Hsh5 & HL5 & HD5 & HV5).
  { by rewrite take_drop. } { rewrite !length_take. lia. }
  csimpl. rewrite E3. csimpl. rewrite E4. csimpl. rewrite E5. csimpl. rewrite E6. csimpl. rewrite E7. csimpl.
  destruct (filter_split (fun a => item_lt a (mkSM m score)) es b Hj') as [F1 F2].
  eexists _, _. split; [done|]. split.
  - unfold put_sorted. rewrite F1, F2. eapply shape_ext; [exact Hsh5|done..].
  - apply sorted_set_put; [done|done|]. cbn. intros ([m' s] & Hm' & Hin)%list_elem_of_fmap. cbn in Hm'. subst m'.
    apply (r_dict _ _ _ Hr) in Hin. congruence.
  - cbn [dict]. rewrite HD5, HD1. intros m' s. rewrite put_sorted_elem, lookup_insert_Some, (r_dict _ _ _ Hr). split.
    + intros [[<- <-]|[_ ?]]; tauto.
    + intros [[= <- <-]|Hin]; [tauto|]. right. split; [|done]. intros <-. apply (r_dict _ _ _ Hr) in Hin. congruence.
  - cbn [Length]. rewrite HL5, HL1, (r_length _ _ _ Hr), length_put_sorted, int64_id; [lia|]. split; lia.
  - rewrite length_put_sorted. lia.
Qed.

Lemma Insert_spec rng sl ps es score m : repr sl ps es -> is_nan score = false -> Z.of_nat (length es) < 2 ^ 63 - 1 ->
  exists sl' ps', Insert rng score m sl = Ok sl' /\ repr sl' ps' (put_sorted (mkSM m score) (drop_member m es)).
Proof.
  intros Hr Hn Hb. pose proof (deleteUnsafe_spec sl ps es m Hr) as Hd. destruct (dict sl !! m) as [s|] eqn:Hm.
  - destruct Hd as (sl0 & ps0 & Ed & Hr0 & Hlen & Hdict).
    destruct (Insert_absent rng sl0 ps0 _ score m Hr0 Hn) as (sl' & ps' & Ei & Hr'); [rewrite Hdict; apply lookup_delete_eq|lia|].
    exists sl', ps'. split; [|done]. rewrite <- Ei. unfold Insert. rewrite Hm, Ed. csimpl.
    rewrite Hdict, lookup_delete_eq. done.
  - destruct Hd as [_ ->]. by apply (Insert_absent rng sl ps es).
Qed.

(** ** Queries *)

Lemma stops_lookup H ps b i x r : stops H ps b i x r -> exists k, r = Z.of_nat k /\ (Header :: ps) !! k = Some x /\ (k <= b)%nat.
Proof.
  intros (l & ra & E & -> & Hl & _). exists (length l). split; [done|]. split; [|lia].
  rewrite E, <- app_assoc. cbn [app]. by apply list_lookup_middle.
Qed.

Lemma lookup_split_cons {A} (h : A) (ps : list A) k x : (h :: ps) !! k = Some x ->
  h :: ps = take k (h :: ps) ++ x :: drop k ps /\ length (take k (h :: ps)) = k.
Proof.
  intros Hk. pose proof (take_drop_middle _ _ _ Hk) as E. split; [symmetry; exact E|].
  apply length_take_le. apply lookup_lt_Some in Hk. lia.
Qed.

Lemma node_item sl ps es k x : shape sl ps es -> ps !! k = Some x ->
  exists n, deref sl x = Ok n /\ es !! k = Some (item n).
Proof.
  intros Hs Hk. destruct (Forall2_lookup_l _ _ _ _ _ (s_items _ _ _ Hs) Hk) as (e & He & Hit).
  destruct (it_deref _ _ _ Hit) as (n & Hn & <-). eauto.
Qed.

Lemma upto_passes sl ps es k e : repr sl ps es -> es !! k = Some e ->
  passes sl ps (S k) (fun _ _ => upto (Score e) (Member e)).
Proof.
  intros Hr Hk l' p r q rest' n E Hq. pose proof (r_set _ _ _ Hr) as Hset.
  destruct (position_item _ _ _ (r_shape _ _ _ Hr) _ _ _ _ _ _ E Hq) as [_ He].
  pose proof (e_nan _ Hset) as HF. rewrite Forall_forall in HF.
  rewrite upto_spec by (eapply HF, list_elem_of_lookup_2; eassumption). apply bool_decide_ext.
  pose proof (lookup_lt_Some _ _ _ Hk) as Hlt.
  rewrite <- (take_drop_middle _ _ _ Hk) in He, Hset.
  destruct (sorted_position _ _ _ _ _ (e_sorted _ Hset) He) as [_ Hp]. destruct e as [m s]. cbn [Score Member].
  rewrite Hp, length_take. lia.
Qed.

Lemma rank_loop_spec sl ps es k e i l x rest : repr sl ps es -> es !! k = Some e -> Member e <> [] ->
  (1 <= i <= Level sl)%nat -> Header :: ps = l ++ x :: rest -> (i <= ht sl x)%nat -> (length l <= S k)%nat ->
  rank_loop sl (Score e) (Member e) i x (Z.of_nat (length l)) = Ok (Z.of_nat k).
Proof.
  intros Hr Hk Hne. pose proof (r_shape _ _ _ Hr) as Hs. pose proof (r_bound _ _ _ Hr) as Hb. pose proof (r_set _ _ _ Hr) as Hset.
  pose proof (length_ps _ _ _ Hs) as Hps. pose proof (lookup_lt_Some _ _ _ Hk) as Hlt.
  pose proof (upto_passes _ _ _ _ _ Hr Hk) as Hpass.
  revert l x rest. induction i as [|i IH]; intros l x rest Hi E Hx Hl; [lia|]. cbn [rank_loop].
  destruct (walk_from sl ps es Hs Hb _ (S k) i l x rest Hpass) as (x' & r' & -> & Hst); [lia|done|lia|lia|]. csimpl.
  destruct (stops_lookup _ _ _ _ _ _ Hst) as (k' & -> & Hk' & Hle).
  destruct (lookup_split_cons _ _ _ _ Hk') as [E' Hl']. destruct k' as [|k'].
  - csimpl in Hk'. simplify_eq. destruct (it_deref _ _ _ (proj2 (s_header _ _ _ Hs))) as (n & -> & Hn). csimpl.
    rewrite Hn. cbn [Member]. rewrite decide_False by done.
    destruct Hst as (l0 & ra & E0 & El0 & Hl0 & Hra & Hhi). destruct i as [|i].
    + exfalso. destruct ra as [|q ra]; [cbn in *; lia|]. inversion Hra as [|? ? Hq]; subst.
      assert (0 < ht sl q)%nat; [|lia]. apply (shape_tall _ _ _ _ Hs). rewrite E0. set_solver.
    + apply (IH [] Header ps); [lia|done|lia|cbn; lia].
  - cbn [lookup list_lookup] in Hk'. destruct (node_item _ _ _ _ _ Hs Hk') as (n & -> & Hen). csimpl.
    case_decide as Hm.
    + assert (k' = k) as ->.
      { pose proof (e_members _ Hset) as Hnd. eapply (NoDup_lookup _ _ _ (Member e) Hnd); rewrite list_lookup_fmap;
          [by rewrite Hen; csimpl; rewrite Hm|by rewrite Hk]. }
      rewrite (int64_id (Z.of_nat (S k))), int64_id by (split; lia). f_equal. lia.
    + destruct i as [|i].
      * exfalso. destruct Hst as (l0 & ra & E0 & El0 & Hl0 & Hra & _). destruct ra as [|q ra].
        -- cbn in Hl0. assert (k' = k) as -> by lia. rewrite Hk in Hen. by simplify_eq.
        -- inversion Hra as [|? ? Hq]; subst. assert (0 < ht sl q)%nat; [|lia]. apply (shape_tall _ _ _ _ Hs). rewrite E0. set_solver.
      * rewrite <- Hl' at 1. destruct Hst as (? & ? & ? & ? & ? & ? & Hhi). apply (IH _ _ (drop (S k') ps)); [lia|done|lia|lia].
Qed.

Lemma element_loop_spec sl ps es rank i l x rest : shape sl ps es -> Z.of_nat (length es) < 2 ^ 63 ->
  (1 <= rank <= length ps)%nat -> (1 <= i <= Level sl)%nat -> Header :: ps = l ++ x :: rest -> (i <= ht sl x)%nat ->
  (length l <= rank)%nat ->
  element_loop sl (Z.of_nat rank) i x (Z.of_nat (length l)) = Ok (ps !! (rank - 1)%nat).
Proof.
  intros Hs Hb Hrank. pose proof (passes_position sl ps es Hs Hb (Z.of_nat rank) ltac:(lia)) as Hpass. rewrite Nat2Z.id in Hpass.
  revert l x rest. induction i as [|i IH]; intros l x rest Hi E Hx Hl; [lia|]. cbn [element_loop].
  destruct (walk_from sl ps es Hs Hb _ rank i l x rest Hpass) as (x' & r' & -> & Hst); [lia|done|lia|lia|]. csimpl.
  destruct (stops_lookup _ _ _ _ _ _ Hst) as (k' & -> & Hk' & Hle). destruct (Z.eqb_spec (Z.of_nat k') (Z.of_nat rank)) as [Ek|Ek].
  - assert (k' = rank) as -> by lia. f_equal. destruct rank as [|rank]; [lia|]. rewrite <- Hk'. cbn. by rewrite Nat.sub_0_r.
  - destruct Hst as (l0 & ra & E0 & El0 & Hl0 & Hra & Hhi). destruct i as [|i].
    + exfalso. destruct ra as [|q ra]; [cbn in Hl0; lia|]. inversion Hra as [|? ? Hq]; subst.
      assert (0 < ht sl q)%nat; [|lia]. apply (shape_tall _ _ _ _ Hs). rewrite E0. set_solver.
    + rewrite El0. apply (IH _ _ (ra ++ drop rank ps)); [lia|by rewrite E0, <- app_assoc|lia|lia].
Qed.

Lemma GetElementByRank_spec sl ps es rank : repr sl ps es -> 1 <= rank <= Z.of_nat (length es) ->
  GetElementByRank rank sl = Ok (ps !! (Z.to_nat rank - 1)%nat).
Proof.
  intros Hr Hk. pose proof (r_shape _ _ _ Hr) as Hs. pose proof (length_ps _ _ _ Hs). destruct (s_level _ _ _ Hs).
  unfold GetElementByRank. rewrite <- (Z2Nat.id rank) at 1 by lia.
  apply (element_loop_spec sl ps es _ (Level sl) [] Header ps Hs (r_bound _ _ _ Hr)); try done; try lia; [|cbn; lia].
  destruct (s_header _ _ _ Hs) as [-> _]. done.
Qed.

(** Following the forward pointers of the lowest level, and the backward
    pointers. *)
Lemma next_forward_spec sl ps es k p : shape sl ps es -> ps !! k = Some p ->
  exists n, deref sl p = Ok n /\ es !! k = Some (item n) /\ next_forward n = Ok (ps !! S k) /\
    next_backward n = Ok (match k with O => None | S k' => ps !! k' end).
Proof.
  intros Hs Hk. destruct (node_item _ _ _ _ _ Hs Hk) as (n & Hn & He). exists n. split; [done|]. split; [done|].
  destruct (lookup_split_cons Header ps (S k) p Hk) as [E _]. split.
  - destruct (level_lowest _ _ _ _ _ _ Hs E) as (lv & _ & Hlv & Hf). unfold next_forward. unfold lev in Hlv. unfold deref in Hn.
    destruct (heap sl !! p) as [n'|]; [|done]. apply Ok_inj in Hn. subst n'. csimpl in Hlv. rewrite Hlv, Hf.
    f_equal. rewrite <- (Nat.add_0_r (S k)) at 2. rewrite <- lookup_drop. by destruct (drop (S k) ps).
  - unfold next_backward. f_equal. destruct (deref_it _ _ _ Hn) as [_ Hb].
    assert (exists q, (Header :: ps) !! k = Some q) as [q Hq].
    { apply lookup_lt_is_Some_2. apply lookup_lt_Some in Hk. cbn. lia. }
    destruct (lookup_split_cons Header ps k q Hq) as [E' _]. rewrite (drop_S _ _ _ Hk) in E'.
    rewrite (s_back _ _ _ Hs _ _ _ _ E') in Hb. injection Hb as <-. destruct k as [|k]; csimpl in Hq.
    + simplify_eq. by rewrite decide_True.
    + rewrite decide_False; [done|]. intros ->. pose proof (s_nodup _ _ _ Hs) as Hnd. apply NoDup_cons in Hnd as [Hnd _].
      apply Hnd. by eapply list_elem_of_lookup_2.
Qed.

Lemma collect_forward sl ps es n k : shape sl ps es ->
  collect n sl next_forward (ps !! k) = Ok (take n (drop k es)).
Proof.
  intros Hs. revert k. induction n as [|n IH]; intros k; [done|]. destruct (ps !! k) as [p|] eqn:Hk; cbn [collect].
  - destruct (next_forward_spec _ _ _ _ _ Hs Hk) as (d & -> & He & Hf & _). csimpl. rewrite Hf. csimpl. rewrite IH. csimpl.
    by rewrite (drop_S _ _ _ He).
  - rewrite drop_ge; [done|]. apply lookup_ge_None in Hk. by rewrite <- (length_ps _ _ _ Hs).
Qed.

Lemma collect_backward sl ps es n k p : shape sl ps es -> ps !! k = Some p ->
  collect n sl next_backward (Some p) = Ok (take n (reverse (take (S k) es))).
Proof.
  intros Hs. revert k p. induction n as [|n IH]; intros k p Hk; [done|]. cbn [collect].
  destruct (next_forward_spec _ _ _ _ _ Hs Hk) as (d & -> & He & _ & Hb). apply Ok_inj in Hb. csimpl. rewrite Hb.
  rewrite (take_S_r _ _ _ He), reverse_app. cbn [reverse rev_append app take]. destruct k as [|k].
  - destruct n; cbn; by rewrite ?take_nil.
  - destruct (lookup_lt_is_Some_2 ps k) as [q Hq]; [apply lookup_lt_Some in Hk; lia|].
    rewrite Hq, (IH k q Hq). done.
Qed.

(** The elements from position [start] to [stop], both from the end when they
    are negative. *)
Definition slice_of {A} (start stop : Z) (l : list A) : list A :=
  let n := Z.of_nat (length l) in
  let lo := Z.max 0 (if start <? 0 then n + start else start) in
  let hi := Z.min (n - 1) (if stop <? 0 then n + stop else stop) in
  take (Z.to_nat (hi - lo + 1)) (drop (Z.to_nat lo) l).

Lemma slice_of_nil {A} start stop (l : list A) :
  Z.of_nat (length l) = 0 \/
  Z.min (Z.of_nat (length l) - 1) (if stop <? 0 then Z.of_nat (length l) + stop else stop)
    < Z.max 0 (if start <? 0 then Z.of_nat (length l) + start else start) -> slice_of start stop l = [].
Proof.
  intros [H|H]; unfold slice_of; [destruct l; [by rewrite drop_nil, take_nil|done]|].
  by replace (Z.to_nat (_ - _ + 1)) with O by lia.
Qed.

Lemma Range_spec sl ps es start stop rev : repr sl ps es -> is_int64 start -> is_int64 stop ->
  Range start stop rev sl = Ok (slice_of start stop (if rev then reverse es else es)).
Proof.
  intros Hr Hst Hsp. pose proof (r_shape _ _ _ Hr) as Hs. pose proof (r_bound _ _ _ Hr) as Hb. pose proof (length_ps _ _ _ Hs) as Hps.
  unfold Range. rewrite (r_length _ _ _ Hr). set (n := Z.of_nat (length es)) in *.
  assert (Z.of_nat (length (if rev then reverse es else es)) = n) as Hlen by (destruct rev; rewrite ?length_reverse; done).
  destruct (Z.eqb_spec n 0) as [Hz|Hz]; [rewrite slice_of_nil by (left; lia); done|].
  assert (forall z, is_int64 z -> (if z <? 0 then int64 (n + z) else z) = (if z <? 0 then n + z else z)) as Hid.
  { intros z Hz'. destruct (Z.ltb_spec z 0); [|done]. apply int64_id. unfold is_int64 in *. lia. }
  rewrite !Hid by done. set (s0 := if start <? 0 then n + start else start). set (t0 := if stop <? 0 then n + stop else stop).
  replace (if s0 <? 0 then 0 else s0) with (Z.max 0 s0) by (destruct (Z.ltb_spec s0 0); lia).
  rewrite (int64_id (n - 1)) by (unfold is_int64; lia).
  replace (if n <=? t0 then n - 1 else t0) with (Z.min (n - 1) t0) by (destruct (Z.leb_spec n t0); lia).
  set (lo := Z.max 0 s0). set (hi := Z.min (n - 1) t0).
  destruct (Z.ltb_spec hi lo) as [Hlt|Hle]; cbn [orb]; [rewrite slice_of_nil by (right; rewrite Hlen; exact Hlt); done|].
  destruct (Z.leb_spec n lo) as [?|Hlo]; [lia|]. assert (0 <= lo /\ hi <= n - 1) as [Hlo0 Hhi] by lia.
  unfold slice_of. rewrite Hlen. fold s0 t0 lo hi. destruct rev.
  - rewrite uint64_id by (split; lia). rewrite (GetElementByRank_spec _ _ _ _ Hr) by lia. csimpl.
    destruct (lookup_lt_is_Some_2 ps (Z.to_nat (n - lo) - 1)) as [p Hp]; [lia|]. rewrite Hp.
    rewrite (collect_backward _ _ _ _ _ _ Hs Hp). f_equal. f_equal. rewrite <- (take_drop (S (Z.to_nat (n - lo) - 1)) es) at 2.
    rewrite reverse_app, drop_app_length'; [done|]. rewrite length_reverse, length_drop. lia.
  - rewrite uint64_id by (split; lia). rewrite (GetElementByRank_spec _ _ _ _ Hr) by lia. csimpl.
    rewrite (collect_forward _ _ _ _ _ Hs). do 2 f_equal. f_equal. lia.
Qed.

(** ** Sequences of updates *)

Inductive zop := ZInsert (rng : nat -> Z) (score : Z) (member : bytes) | ZDelete (member : bytes).

Definition zexec (sl : SkipList) (op : zop) : res fault SkipList :=
  match op with
  | ZInsert rng score member => Insert rng score member sl
  | ZDelete member => '(sl, _) ← Delete member sl; Ok sl
  end.

Fixpoint zrun (ops : list zop) (sl : SkipList) : res fault SkipList :=
  match ops with
  | [] => Ok sl
  | op :: ops' => sl ← zexec sl op; zrun ops' sl
  end.

(** The same updates of the reference list. *)
Definition zref (es : list ScoredMember) (op : zop) : list ScoredMember :=
  match op with
  | ZInsert _ score member => put_sorted (mkSM member score) (drop_member member es)
  | ZDelete member => drop_member member es
  end.

Definition zvalid (op : zop) : Prop :=
  match op with ZInsert _ score _ => is_nan score = false | ZDelete _ => True end.

Definition find_member (m : bytes) (es : list ScoredMember) : option (nat * ScoredMember) :=
  list_find (fun a => Member a = m) es.

Lemma repr_new : repr NewSkipList [] [].
Proof.
  split; [|split; constructor| |done|done].
  - split; try done; try constructor; try (cbn; unfold SkipListMaxLevel; lia).
    + apply not_elem_of_nil.
    + constructor.
    + intros i Hi. unfold lev. cbn [heap NewSkipList]. rewrite lookup_singleton_eq.
      cbn [mbind option_bind Levels]. by rewrite lookup_replicate_2 by apply Hi.
    + intros [|q l] p rest i E Hi Hp; cbn in E; simplify_eq.
      * unfold lev. cbn [heap NewSkipList Level] in *. rewrite lookup_singleton_eq. by assert (i = O) as -> by lia.
      * by destruct l.
    + intros [|z [|z' l]] p q rest E; cbn in E; simplify_eq.
  - intros m s. cbn [dict NewSkipList]. rewrite lookup_empty. split; [done|]. by intros ?%elem_of_nil.
Qed.

Lemma length_drop_member m es : (length (drop_member m es) <= length es)%nat.
Proof. apply length_filter. Qed.

Lemma zrun_repr ops : Forall zvalid ops -> forall sl ps es, repr sl ps es ->
  Z.of_nat (length es) + Z.of_nat (length ops) < 2 ^ 63 ->
  exists sl' ps', zrun ops sl = Ok sl' /\ repr sl' ps' (foldl zref es ops).
Proof.
  induction 1 as [|op ops Hv Hops IH]; intros sl ps es Hr Hb; [by exists sl, ps|]. cbn [zrun foldl].
  assert (exists sl' ps', zexec sl op = Ok sl' /\ repr sl' ps' (zref es op) /\ (length (zref es op) <= S (length es))%nat)
    as (sl1 & ps1 & -> & Hr1 & Hlen).
  { destruct op as [rng score m|m]; cbn [zexec zref].
    - destruct (Insert_spec rng sl ps es score m Hr Hv) as (sl' & ps' & E & Hr'); [cbn in Hb; lia|]. exists sl', ps'.
      split; [done|]. split; [done|]. rewrite length_put_sorted. pose proof (length_drop_member m es). lia.
    - pose proof (deleteUnsafe_spec sl ps es m Hr) as Hd. unfold Delete. pose proof (length_drop_member m es).
      destruct (dict sl !! m); [destruct Hd as (sl' & ps' & -> & Hr' & _)|destruct Hd as [-> Hd]; rewrite Hd in *]; csimpl;
        [exists sl', ps'|exists sl, ps]; (split; [done|]; split; [done|lia]). }
  csimpl. apply (IH sl1 ps1); [done|]. cbn [length] in Hb. lia.
Qed.

Lemma GetScore_spec sl ps es m : repr sl ps es -> GetScore m sl = Score ∘ snd <$> find_member m es.
Proof.
  intros Hr. unfold GetScore, find_member. destruct (list_find _ es) as [[k a]|] eqn:Hf; csimpl.
  - apply list_find_Some in Hf as (Hk & <- & _). apply (r_dict _ _ _ Hr). apply list_elem_of_lookup_2 in Hk. by destruct a.
  - apply list_find_None in Hf. destruct (dict sl !! m) as [s|] eqn:Hd; [|done]. apply (r_dict _ _ _ Hr) in Hd.
    rewrite Forall_forall in Hf. by destruct (Hf _ Hd).
Qed.

Lemma GetRank_spec sl ps es m : repr sl ps es -> m <> [] ->
  GetRank m sl = Ok (match find_member m es with Some (k, _) => Z.of_nat k | None => -1 end).
Proof.
  intros Hr Hm. pose proof (GetScore_spec sl ps es m Hr) as Hs. unfold GetScore, GetRank in *. rewrite Hs. unfold find_member.
  destruct (list_find _ es) as [[k a]|] eqn:Hf; csimpl; [|done]. apply list_find_Some in Hf as (Hk & <- & _).
  pose proof (r_shape _ _ _ Hr) as Hsh. destruct (s_level _ _ _ Hsh). destruct (s_header _ _ _ Hsh) as [Hh _].
  apply (rank_loop_spec sl ps es k a (Level sl) [] Header ps Hr Hk Hm); [lia|done|rewrite Hh; lia|cbn; lia].
Qed.

(** The search for a rank ends for every member. *)
Lemma GetRank_total sl ps es m : repr sl ps es -> exists r, GetRank m sl = Ok r.
Proof.
  intros Hr. pose proof (r_shape _ _ _ Hr) as Hs. pose proof (r_bound _ _ _ Hr) as Hb. unfold GetRank.
  destruct (dict sl !! m) as [score|] eqn:Hd; [|by eexists].
  apply (r_dict _ _ _ Hr), list_elem_of_lookup in Hd as [k Hk].
  pose proof (upto_passes _ _ _ _ _ Hr Hk) as Hpass. cbn [Score Member] in Hpass.
  pose proof (lookup_lt_Some _ _ _ Hk) as Hlt. pose proof (length_ps _ _ _ Hs) as Hps.
  assert (forall i l x rest, (i <= Level sl)%nat -> Header :: ps = l ++ x :: rest -> (i <= ht sl x)%nat -> (length l <= S k)%nat ->
    exists r, rank_loop sl score m i x (Z.of_nat (length l)) = Ok r) as Hgo.
  { induction i as [|i IH]; intros l x rest Hi E Hx Hl; cbn [rank_loop]; [by eexists|].
    destruct (walk_from sl ps es Hs Hb _ (S k) i l x rest Hpass) as (x' & r' & -> & Hst); [lia|done|lia|lia|]. csimpl.
    destruct (stops_split _ _ _ _ _ _ Hst) as (l' & rest' & E' & -> & Hl' & Hx'); [lia|].
    destruct (node_it _ _ _ Hs x') as [e He]; [rewrite E'; set_solver|]. destruct (it_deref _ _ _ He) as (n & -> & _). csimpl.
    case_decide; [by eexists|]. apply (IH l' x' rest'); [lia|done|lia|lia]. }
  destruct (s_level _ _ _ Hs). destruct (s_header _ _ _ Hs) as [Hh _]. apply (Hgo (Level sl) [] Header ps); [lia|done|rewrite Hh; lia|cbn; lia].
Qed.

(** C16: after any sequence of insertions of scores that are not NaN and of
    deletions, none of which runs into a nil pointer, an index out of range or an
    endless loop, the skip list answers every query as the ordered list of the
    members with their last scores does: its length, the score and the rank of a
    member, and any range of positions in both directions.  (The rank of the
    empty member is excepted, see [empty_member_rank].) *)
Theorem sorted_set_refines ops : Forall zvalid ops -> Z.of_nat (length ops) < 2 ^ 63 ->
  exists sl, zrun ops NewSkipList = Ok sl /\
    let es := foldl zref [] ops in
    StronglySorted item_lt es /\ NoDup (Member <$> es) /\
    Len sl = Z.of_nat (length es) /\
    (forall m, GetScore m sl = Score ∘ snd <$> find_member m es) /\
    (forall m, m <> [] -> GetRank m sl = Ok (match find_member m es with Some (k, _) => Z.of_nat k | None => -1 end)) /\
    (forall start stop, is_int64 start -> is_int64 stop ->
       Range start stop false sl = Ok (slice_of start stop es) /\
       Range start stop true sl = Ok (slice_of start stop (reverse es))).
Proof.
  intros Hv Hb. destruct (zrun_repr ops Hv NewSkipList [] [] repr_new) as (sl & ps & E & Hr); [cbn; lia|].
  exists sl. split; [done|]. destruct (r_set _ _ _ Hr). split; [done|]. split; [done|]. split; [apply Hr|].
  split; [intros m; by eapply GetScore_spec|]. split; [intros m; by eapply GetRank_spec|].
  intros start stop H1 H2. by rewrite !(Range_spec sl ps _ start stop _ Hr).
Qed.

(** Draws that give a node one, two and three levels. *)
Definition flat (k : nat) : Z := 0xFFFF.
Definition tall (n k : nat) : Z := if (k <? n)%nat then 0 else 0xFFFF.

Definition sample_ops : list zop :=
  [ZInsert flat 0x4000000000000000 (str "two"); ZInsert (tall 2) 0x3FF0000000000000 (str "one");
   ZInsert (tall 1) 0x4000000000000000 (str "deux"); ZInsert flat 0xBFF0000000000000 (str "one"); ZDelete (str "two")].

Lemma sorted_set_refines_witness :
  foldl zref [] sample_ops = [mkSM (str "one") 0xBFF0000000000000; mkSM (str "deux") 0x4000000000000000] /\
  exists sl, zrun sample_ops NewSkipList = Ok sl /\ Range 0 (-1) true sl = Ok (reverse (foldl zref [] sample_ops)).
Proof.
  split; [vm_compute; reflexivity|].
  destruct (sorted_set_refines sample_ops) as (sl & E & _ & _ & _ & _ & _ & H).
  - repeat (apply Forall_cons_2 || apply Forall_nil_2); vm_compute; reflexivity || exact I.
  - vm_compute. reflexivity.
  - exists sl. split; [exact E|]. destruct (H 0 (-1)) as [_ H']; [split; lia|split; lia|]. rewrite H'. vm_compute. reflexivity.
Defined.

(** ** Deviations *)

(** A search that stays at the header compares the empty member with the member
    of the header: a stored empty member has no rank when another one is
    higher. *)
Theorem empty_member_rank :
  exists sl, zrun [ZInsert flat 0 []; ZInsert (tall 1) 0x3FF0000000000000 (str "a")] NewSkipList = Ok sl /\
    GetScore [] sl = Some 0 /\ Range 0 0 false sl = Ok [mkSM [] 0] /\ GetRank [] sl = Ok (-1).
Proof. eexists. split; [vm_compute; reflexivity|]. repeat split; vm_compute; reflexivity. Qed.

(** A member with the score NaN cannot be deleted, and inserting it again adds it
    a second time. *)
Theorem nan_member_stays :
  exists sl, zrun [ZInsert flat 0x7FF8000000000001 (str "a"); ZInsert flat 0x7FF8000000000001 (str "a"); ZDelete (str "a")]
      NewSkipList = Ok sl /\ Len sl = 2 /\ Delete (str "a") sl = Ok (sl, false).
Proof. eexists. split; [vm_compute; reflexivity|]. split; vm_compute; reflexivity. Qed.
