(* ===== verification/Float.v ===== *)
(** * Floating-point numbers of vector components and distances

    A [float32] component is its bit pattern, as in the snapshot file; a [float64] is
    a value of the Standard Library's specification of IEEE 754 arithmetic with the
    precision of binary64.  Each operation of the source is one rounded operation: the
    model is that of a processor on which the compiler does not fuse a product with
    the sum it is added to. *)

From Stdlib Require Import Floats.SpecFloat.
From S2P Require Import Prelude.

Abbreviation float32 := Z.
Abbreviation float64 := spec_float.

Definition fadd : float64 -> float64 -> float64 := SFadd 53 1024.
Definition fsub : float64 -> float64 -> float64 := SFsub 53 1024.
Definition fmul : float64 -> float64 -> float64 := SFmul 53 1024.
Definition fdiv : float64 -> float64 -> float64 := SFdiv 53 1024.
Definition fsqrt : float64 -> float64 := SFsqrt 53 1024.
Definition fopp : float64 -> float64 := SFopp.

(** [x < y] and [x == 0]. *)
Definition fless : float64 -> float64 -> bool := SFltb.
Definition fzero : float64 := S754_zero false.
Definition is_zero (x : float64) : bool := SFeqb x fzero.

Definition fone : float64 := S754_finite false 4503599627370496 (-52).
Definition MaxFloat64 : float64 := S754_finite false 9007199254740991 971.

(** [float64(x)] of a [float32], which is exact. *)
Definition f64 (x : float32) : float64 :=
  let s := Z.testbit x 31 in
  let e := Z.land (Z.shiftr x 23) 255 in
  let m := Z.land x 8388607 in
  if e =? 255 then (if m =? 0 then S754_infinity s else S754_nan)
  else if e =? 0 then match m with Zpos p => binary_round 53 1024 s p (-149) | _ => S754_zero s end
  else match m + 8388608 with Zpos p => binary_round 53 1024 s p (e - 150) | _ => S754_zero s end.

Example f64_one : f64 1065353216 = fone. Proof. reflexivity. Qed.
Example f64_smallest : f64 1 = S754_finite false 4503599627370496 (-201). Proof. reflexivity. Qed.
Example f64_minus_half : f64 3204448256 = S754_finite true 4503599627370496 (-53). Proof. reflexivity. Qed.

(** ** The order

    A number that is not NaN has a place: the sign and kind, then exponent and
    mantissa. *)

Definition isNaN (x : float64) : bool := match x with S754_nan => true | _ => false end.

Definition place (x : float64) : Z * Z * Z :=
  match x with
  | S754_infinity true => (-2, 0, 0)
  | S754_finite true m e => (-1, - e, Zneg m)
  | S754_zero _ | S754_nan => (0, 0, 0)
  | S754_finite false m e => (1, e, Zpos m)
  | S754_infinity false => (2, 0, 0)
  end.

Definition before (p q : Z * Z * Z) : Prop :=
  let '(a, b, c) := p in let '(a', b', c') := q in a < a' \/ (a = a' /\ (b < b' \/ (b = b' /\ c < c'))).

Lemma fless_spec x y : fless x y = true <-> isNaN x = false /\ isNaN y = false /\ before (place x) (place y).
Proof.
  unfold fless, SFltb, before. destruct x as [s|s| |s m e], y as [s'|s'| |s' m' e'];
    repeat match goal with s : bool |- _ => destruct s end; cbn [SFcompare isNaN place]; try naive_solver lia.
  all: change (Pos.compare_cont Eq m m') with (Pos.compare m m'); destruct (Z.compare_spec e e') as [->|?|?];
    [destruct (Pos.compare_spec m m') as [->|?|?]; cbn [CompOpp]|..]; naive_solver lia.
Qed.

Lemma fless_irrefl x : fless x x = false.
Proof. apply not_true_is_false. rewrite fless_spec. unfold before. destruct (place x) as [[a b] c]. lia. Qed.

Lemma fless_trans x y z : fless x y = true -> fless y z = true -> fless x z = true.
Proof.
  rewrite !fless_spec. intros (? & ? & H1) (? & ? & H2). split; [done|]. split; [done|]. unfold before in *.
  destruct (place x) as [[? ?] ?], (place y) as [[? ?] ?], (place z) as [[? ?] ?]. lia.
Qed.

Lemma fless_asym x y : fless x y = true -> fless y x = false.
Proof. intros H. apply not_true_is_false. intros H'. pose proof (fless_trans _ _ _ H H') as Hc. by rewrite fless_irrefl in Hc. Qed.

(** Without NaN, not being less is transitive too. *)
Lemma fless_negtrans x y z : isNaN y = false -> fless x y = false -> fless y z = false -> fless x z = false.
Proof.
  intros Hy H1 H2. apply not_true_is_false. intros H3. rewrite <- not_true_iff_false, fless_spec in H1, H2. apply fless_spec in H3 as (Hx & Hz & H3).
  assert (~ before (place x) (place y)) as H1' by naive_solver. assert (~ before (place y) (place z)) as H2' by naive_solver.
  unfold before in *. destruct (place x) as [[? ?] ?], (place y) as [[? ?] ?], (place z) as [[? ?] ?]. lia.
Qed.
