(* ===== verification/Heap.v ===== *)
(** * Binary heaps in a slice (container/heap of the Go library)

    The candidate queues of the vector search (internal/datastruct/hnsw.go,
    [MinDistHeap] and [MaxDistHeap]) are slices kept in heap order by [heap.Push] and
    [heap.Pop].  The two loops are written out; [less] is the method [Less] of the
    two types, on elements. *)

From S2P Require Import Prelude.

Section Heap.
Context {A : Type} (less : A -> A -> bool).
Implicit Types (l h : list A) (i j k n : nat).

(** [h.Less(i, j)]; out of range the Go code panics, which no caller reaches. *)
Definition less_at l i j : bool :=
  match l !! i, l !! j with Some x, Some y => less x y | _, _ => false end.

Definition swap l i j : list A :=
  match l !! i, l !! j with Some x, Some y => <[i := y]> (<[j := x]> l) | _, _ => l end.

Definition parent j : nat := (j - 1) / 2.

(** [up]: an element moves towards the root; its index decreases. *)
Fixpoint up (fuel : nat) l j : list A :=
  match fuel with
  | O => l
  | S fuel =>
      let i := parent j in
      if decide (i = j) then l else if negb (less_at l j i) then l else up fuel (swap l i j) i
  end.

(** [down], on the first [n] elements: an element moves away from the root. *)
Fixpoint down (fuel : nat) l i n : list A :=
  match fuel with
  | O => l
  | S fuel =>
      let j1 := (2 * i + 1)%nat in
      if decide (n <= j1)%nat then l
      else
        let j := if decide (j1 + 1 < n)%nat then (if less_at l (j1 + 1) j1 then j1 + 1 else j1)%nat else j1 in
        if negb (less_at l j i) then l else down fuel (swap l i j) j n
  end.

Definition Push l x : list A := up (S (length l)) (l ++ [x]) (length l).

(** [heap.Pop]: the root, exchanged with the last element, and the rest; [None] is
    the run-time panic on an empty heap. *)
Definition Pop l : option (A * list A) :=
  match l with
  | [] => None
  | _ => let n := (length l - 1)%nat in
         let l := down (length l) (swap l 0 n) 0 n in
         x ← l !! n; Some (x, take n l)
  end.

(** ** The elements stay the same *)

Lemma swap_perm l i j : swap l i j ≡ₚ l.
Proof.
  unfold swap. destruct (l !! i) as [x|] eqn:Hi; [|done]. destruct (l !! j) as [y|] eqn:Hj; [|done].
  destruct (decide (i = j)) as [->|Hne]; [by rewrite list_insert_insert_eq, list_insert_id|].
  apply Permutation_sym, (Permutation_inj _ _). split; [by rewrite !length_insert|].
  pose proof (lookup_lt_Some _ _ _ Hi) as Li. pose proof (lookup_lt_Some _ _ _ Hj) as Lj.
  exists (fun k => if decide (k = i) then j else if decide (k = j) then i else k). split.
  - intros a b. repeat case_decide; congruence.
  - intros k. repeat case_decide; subst.
    + rewrite list_lookup_insert_ne, list_lookup_insert_eq by done. congruence.
    + rewrite list_lookup_insert_eq by (by rewrite length_insert). congruence.
    + by rewrite !list_lookup_insert_ne by done.
Qed.

Lemma swap_length l i j : length (swap l i j) = length l.
Proof. apply Permutation_length, swap_perm. Qed.

Lemma up_perm fuel : forall l j, up fuel l j ≡ₚ l.
Proof.
  induction fuel as [|fuel IH]; intros l j; cbn [up]; [done|]. case_decide; [done|]. destruct (negb _); [done|]. by rewrite IH, swap_perm.
Qed.

Lemma Push_perm l x : Push l x ≡ₚ x :: l.
Proof. unfold Push. rewrite up_perm. apply Permutation_sym, Permutation_cons_append. Qed.

Lemma swap_lookup l i j k : (i < length l)%nat -> (j < length l)%nat ->
  swap l i j !! k = if decide (k = i) then l !! j else if decide (k = j) then l !! i else l !! k.
Proof.
  intros Hi Hj. unfold swap. destruct (lookup_lt_is_Some_2 l i Hi) as [x Hx], (lookup_lt_is_Some_2 l j Hj) as [y Hy]. rewrite Hx, Hy.
  repeat case_decide; subst.
  - by rewrite list_lookup_insert_eq by (by rewrite length_insert).
  - by rewrite list_lookup_insert_ne, list_lookup_insert_eq by done.
  - by rewrite !list_lookup_insert_ne by done.
Qed.

(** [down] does not touch what lies behind its bound. *)
Lemma down_rest fuel : forall l i n k, (n <= k)%nat -> (n <= length l)%nat -> (i < n)%nat -> down fuel l i n !! k = l !! k.
Proof.
  induction fuel as [|fuel IH]; intros l i n k Hk Hn Hi; cbn [down]; [done|]. case_decide; [done|].
  set (j := if decide _ then _ else _). assert (j < n)%nat as Hj by (subst j; repeat case_decide; try case_match; lia). clearbody j.
  destruct (negb _); [done|]. rewrite IH by (rewrite ?swap_length; lia). rewrite swap_lookup by lia. by rewrite !decide_False by lia.
Qed.

Lemma down_perm fuel : forall l i n, down fuel l i n ≡ₚ l.
Proof.
  induction fuel as [|fuel IH]; intros l i n; cbn [down]; [done|]. case_decide; [done|]. set (j := if decide _ then _ else _). clearbody j.
  destruct (negb _); [done|]. by rewrite IH, swap_perm.
Qed.

(** [Pop] returns the root. *)
Lemma Pop_spec l : l <> [] -> exists x rest, Pop l = Some (x, rest) /\ l !! 0%nat = Some x /\ l ≡ₚ x :: rest.
Proof.
  intros Hl. destruct l as [|x l']; [done|]. set (l := x :: l') in *. assert (0 < length l)%nat as H0 by (cbn; lia).
  set (n := (length l - 1)%nat). unfold Pop. fold l. cbv zeta. fold n.
  assert (down (length l) (swap l 0 n) 0 n !! n = Some x) as Hx.
  { destruct (decide (n = 0%nat)) as [Hn|Hn].
    - rewrite Hn. assert (l' = []) as -> by (apply length_zero_iff_nil; cbn in *; lia). done.
    - rewrite down_rest by (rewrite ?swap_length; lia). rewrite swap_lookup by lia. by rewrite decide_False, decide_True by done. }
  pose proof (Permutation_trans (down_perm (length l) (swap l 0 n) 0 n) (swap_perm l 0 n)) as HP.
  set (l2 := down _ _ _ _) in *. clearbody l2. exists x, (take n l2). split; [|split; [done|]].
  - subst l. cbn [mbind option_bind]. by rewrite Hx.
  - rewrite <- HP. rewrite <- (take_drop n l2) at 1. assert (drop n l2 = [x]) as ->.
    { apply Permutation_length in HP. apply list_eq. intros [|k]; rewrite lookup_drop; [by rewrite Nat.add_0_r|].
      rewrite lookup_ge_None_2; [done|]. lia. }
    by rewrite Permutation_app_comm.
Qed.

(** ** Heap order

    [ok] are the elements on which [less] is a strict weak order. *)

Context (ok : A -> Prop).
Context (less_asym : forall x y, less x y = true -> less y x = false).
Context (less_negtrans : forall x y z, ok y -> less x y = false -> less y z = false -> less x z = false).

(** Element [k] of [l] is not before its parent. *)
Definition ordered_at l k : Prop := forall x y, l !! k = Some x -> l !! parent k = Some y -> less x y = false.

Definition heap_ordered l n : Prop := forall k, (0 < k < n)%nat -> ordered_at l k.

Lemma parent_spec k : (0 < k)%nat -> k = (2 * parent k + 1)%nat \/ k = (2 * parent k + 2)%nat.
Proof. intros H. unfold parent. pose proof (Nat.div_mod_eq (k - 1) 2). pose proof (Nat.mod_upper_bound (k - 1) 2). lia. Qed.

Lemma ok_at l k x : Forall ok l -> l !! k = Some x -> ok x.
Proof. intros H Hk. by eapply Forall_lookup_1. Qed.

(** The element that moves up may be before its parent only. *)
Definition rising l j : Prop :=
  (forall k, (0 < k)%nat -> k <> j -> ordered_at l k) /\
  (forall k x y, (0 < k)%nat -> parent k = j -> (0 < j)%nat -> l !! k = Some x -> l !! parent j = Some y -> less x y = false).

Lemma up_step l j : (0 < j < length l)%nat -> Forall ok l -> rising l j -> less_at l j (parent j) = true -> rising (swap l (parent j) j) (parent j).
Proof using less_asym less_negtrans.
  intros Hj Hok [H1 H2] Hless. pose proof (parent_spec j (proj1 Hj)) as Hp. set (i := parent j) in *.
  assert (i < j)%nat as Hij by lia. unfold less_at in Hless. destruct (l !! j) as [x|] eqn:Hx; [|done]. destruct (l !! i) as [y|] eqn:Hy; [|done].
  assert (forall k, swap l i j !! k = if decide (k = i) then Some x else if decide (k = j) then Some y else l !! k) as HS.
  { intros k. rewrite swap_lookup, Hx, Hy by lia. done. }
  split.
  - intros k Hk Hki a b. rewrite !HS. pose proof (parent_spec k Hk) as Hpk. rewrite (decide_False (P := k = i)) by done.
    destruct (decide (k = j)) as [->|Hkj].
    + fold i. rewrite decide_True by done. intros [= <-] [= <-]. by apply less_asym.
    + intros Ha. destruct (decide (parent k = i)) as [Hpi|Hpi].
      * intros [= <-]. eapply (less_negtrans _ y); [by eapply ok_at|apply (H1 k Hk Hkj a y Ha); by rewrite Hpi|by apply less_asym].
      * destruct (decide (parent k = j)) as [Hpj|Hpj]; [intros [= <-]; exact (H2 k a y Hk Hpj (proj1 Hj) Ha eq_refl)|]. exact (H1 k Hk Hkj a b Ha).
  - intros k a b Hk Hki Hi. rewrite !HS. pose proof (parent_spec i Hi) as Hpi. pose proof (parent_spec k Hk) as Hpk.
    rewrite (decide_False (P := k = i)), (decide_False (P := parent i = i)), (decide_False (P := parent i = j)) by lia. intros Ha Hb.
    assert (less y b = false) as Hyb by (apply (H1 i Hi ltac:(lia) y b Hy Hb)).
    destruct (decide (k = j)) as [->|Hkj]; [congruence|]. eapply (less_negtrans _ y); [by eapply ok_at| |done].
    apply (H1 k Hk Hkj a y Ha). by rewrite Hki.
Qed.

Lemma up_heap fuel : forall l j, (j < fuel)%nat -> (j < length l)%nat -> Forall ok l -> rising l j -> heap_ordered (up fuel l j) (length l).
Proof using less_asym less_negtrans.
  induction fuel as [|fuel IH]; intros l j Hf Hj Hok Hr; [lia|]. cbn [up].
  destruct (decide (parent j = j)) as [Hp|Hp].
  { assert (j = 0%nat) as -> by (destruct (decide (j = 0%nat)); [done|]; pose proof (parent_spec j); lia). intros k Hk. apply (proj1 Hr); lia. }
  assert (0 < j)%nat as Hj0 by (destruct j; [by destruct Hp|lia]).
  destruct (less_at l j (parent j)) eqn:Hl; cbn [negb].
  - rewrite <- (swap_length l (parent j) j). pose proof (parent_spec j Hj0). apply IH; [lia|rewrite swap_length; lia| |by apply up_step].
    by rewrite swap_perm.
  - intros k Hk. destruct (decide (k = j)) as [->|Hkj]; [|apply (proj1 Hr); lia]. intros x y Hx Hy. unfold less_at in Hl. by rewrite Hx, Hy in Hl.
Qed.

Lemma Push_heap l x : Forall ok l -> ok x -> heap_ordered l (length l) -> heap_ordered (Push l x) (length (Push l x)).
Proof using less_asym less_negtrans.
  intros Hok Hx Hh. rewrite (Permutation_length (Push_perm l x)). replace (length (x :: l)) with (length (l ++ [x])) by (rewrite length_app; cbn; lia).
  apply up_heap; [lia|rewrite length_app; cbn; lia|apply Forall_app; split; [done|by constructor]|].
  assert (forall k y, (l ++ [x]) !! k = Some y -> k <> length l -> l !! k = Some y) as HL.
  { intros k y Hy Hk. apply lookup_app_Some in Hy as [|[Hge Hy]]; [done|]. apply list_lookup_singleton_Some in Hy as [? _]. lia. }
  split.
  - intros k Hk Hkl a b Ha Hb. apply HL in Ha; [|done]. pose proof (lookup_lt_Some _ _ _ Ha). pose proof (parent_spec k Hk). apply HL in Hb; [|lia].
    apply (Hh k ltac:(lia) a b Ha Hb).
  - intros k a b Hk Hpk Hj Ha Hb. pose proof (parent_spec k Hk). apply lookup_lt_Some in Ha. rewrite length_app in Ha. cbn in Ha. lia.
Qed.

(** The element that moves down may be behind its children only. *)
Definition sinking l i n : Prop :=
  (forall k, (0 < k < n)%nat -> parent k <> i -> ordered_at l k) /\
  (forall k x y, (0 < k < n)%nat -> parent k = i -> (0 < i)%nat -> l !! k = Some x -> l !! parent i = Some y -> less x y = false).

(** The child that changes places with its parent: no sibling is before it. *)
Definition first_child l i j n : Prop :=
  (0 < j < n)%nat /\ parent j = i /\
  forall k x y, (0 < k < n)%nat -> parent k = i -> k <> j -> l !! k = Some x -> l !! j = Some y -> less x y = false.

Lemma down_step l i j n : (n <= length l)%nat -> first_child l i j n -> sinking l i n -> less_at l j i = true -> sinking (swap l i j) j n.
Proof using less_asym.
  intros Hn (Hj & Hp & Hfirst) [H1 H2] Hless. pose proof (parent_spec j (proj1 Hj)) as Hpj. rewrite Hp in Hpj.
  unfold less_at in Hless. destruct (l !! j) as [x|] eqn:Hx; [|done]. destruct (l !! i) as [y|] eqn:Hy; [|done].
  assert (forall k, swap l i j !! k = if decide (k = i) then Some x else if decide (k = j) then Some y else l !! k) as HS.
  { intros k. rewrite swap_lookup, Hx, Hy by lia. done. }
  split.
  - intros k Hk Hkj a b. pose proof (parent_spec k (proj1 Hk)) as Hpk. rewrite !HS. rewrite (decide_False (P := parent k = j)) by done.
    destruct (decide (k = i)) as [->|Hki].
    + rewrite decide_False by lia. intros [= <-] Hb. apply (H2 j x b Hj Hp (proj1 Hk) Hx Hb).
    + destruct (decide (k = j)) as [->|Hkj'].
      * rewrite decide_True by done. intros [= <-] [= <-]. by apply less_asym.
      * intros Ha. destruct (decide (parent k = i)) as [Hpi|Hpi]; [intros [= <-]; exact (Hfirst k a x Hk Hpi Hkj' Ha eq_refl)|].
        exact (H1 k Hk Hpi a b Ha).
  - intros k a b Hk Hpk Hj0. pose proof (parent_spec k (proj1 Hk)). rewrite !HS, Hp. rewrite (decide_False (P := k = i)), (decide_False (P := k = j)) by lia.
    rewrite decide_True by done. intros Ha [= <-]. apply (H1 k Hk ltac:(lia) a x Ha). by rewrite Hpk.
Qed.

Lemma chosen_child l i n : (2 * i + 1 < n)%nat ->
  first_child l i (if decide (2 * i + 1 + 1 < n)%nat then (if less_at l (2 * i + 1 + 1) (2 * i + 1) then 2 * i + 1 + 1 else 2 * i + 1)%nat else (2 * i + 1)%nat) n.
Proof using less_asym.
  intros Hn. assert (forall j, j = (2 * i + 1)%nat \/ j = (2 * i + 1 + 1)%nat -> parent j = i) as Hp.
  { intros j Hj. pose proof (parent_spec j). lia. }
  assert (forall k, (0 < k)%nat -> parent k = i -> k = (2 * i + 1)%nat \/ k = (2 * i + 1 + 1)%nat) as Hk.
  { intros k Hk <-. pose proof (parent_spec k Hk). lia. }
  unfold less_at. destruct (decide (2 * i + 1 + 1 < n)%nat) as [H2|H2].
  - destruct (l !! (2 * i + 1 + 1)%nat) as [b|] eqn:Hb; [destruct (l !! (2 * i + 1)%nat) as [a|] eqn:Ha; [destruct (less b a) eqn:Hl|]|];
      (split; [lia|]); (split; [apply Hp; lia|]); intros k x y Hkn Hpk Hkj Hx Hy; destruct (Hk k (proj1 Hkn) Hpk) as [->| ->]; try lia; try congruence.
    rewrite Hb in Hy. rewrite Ha in Hx. simplify_eq. by apply less_asym.
  - split; [lia|]. split; [apply Hp; lia|]. intros k x y Hkn Hpk Hkj. destruct (Hk k (proj1 Hkn) Hpk); lia.
Qed.

Lemma down_heap fuel : forall l i n, (n <= i + fuel)%nat -> (n <= length l)%nat -> Forall ok l -> sinking l i n -> heap_ordered (down fuel l i n) n.
Proof using less_asym less_negtrans.
  induction fuel as [|fuel IH]; intros l i n Hf Hn Hok Hs; cbn [down].
  { intros k Hk. pose proof (parent_spec k (proj1 Hk)). apply (proj1 Hs); lia. }
  destruct (decide (n <= 2 * i + 1)%nat) as [Hle|Hle].
  { intros k Hk. pose proof (parent_spec k (proj1 Hk)). apply (proj1 Hs); lia. }
  pose proof (chosen_child l i n ltac:(lia)) as Hc. set (j := if decide _ then _ else _) in *. clearbody j.
  destruct (less_at l j i) eqn:Hl; cbn [negb].
  - destruct Hc as (Hj & Hpj & Hfirst). pose proof (parent_spec j (proj1 Hj)). apply IH; [lia|rewrite swap_length; lia|by rewrite swap_perm|].
    by apply down_step.
  - intros k Hk. destruct (decide (parent k = i)) as [Hpk|Hpk]; [|by apply (proj1 Hs)]. intros x y Hx Hy. rewrite Hpk in Hy.
    destruct Hc as (Hj & Hpj & Hfirst). unfold less_at in Hl. rewrite Hy in Hl. destruct (l !! j) as [z|] eqn:Hz; [|apply lookup_ge_None in Hz; lia].
    destruct (decide (k = j)) as [->|Hkj]; [congruence|].
    eapply (less_negtrans _ z); [by eapply ok_at|exact (Hfirst k x z Hk Hpk Hkj Hx eq_refl)|done].
Qed.

Lemma Pop_heap l x rest : Forall ok l -> heap_ordered l (length l) -> Pop l = Some (x, rest) -> heap_ordered rest (length rest).
Proof using less_asym less_negtrans.
  intros Hok Hh. destruct l as [|r l']; [done|]. set (l := r :: l') in *. unfold Pop. fold l. cbv zeta. set (n := (length l - 1)%nat).
  assert (n < length l)%nat as Hn by (subst n l; cbn; lia). subst l. set (l := r :: l') in *. cbv iota.
  set (l2 := down _ _ _ _). destruct (l2 !! n) as [y|] eqn:Hy; [|done]. intros [= <- <-].
  assert (heap_ordered l2 n) as H2.
  { apply down_heap; [lia|rewrite swap_length; lia|by rewrite swap_perm|]. split; [|intros; lia].
    intros k Hk Hp a b. pose proof (parent_spec k (proj1 Hk)) as Hpk. rewrite !swap_lookup by lia. rewrite !decide_False by lia. intros Ha Hb.
    apply (Hh k ltac:(lia) a b Ha Hb). }
  intros k Hk a b Ha Hb. rewrite length_take in Hk. apply lookup_take_Some in Ha as [Ha _]. apply lookup_take_Some in Hb as [Hb _].
  apply (H2 k ltac:(lia) a b Ha Hb).
Qed.

(** No element of a heap is before its root. *)
Lemma root_first l r : Forall ok l -> heap_ordered l (length l) -> l !! 0%nat = Some r -> forall x, x ∈ l -> less x r = false.
Proof using less_asym less_negtrans.
  intros Hok Hh Hr. assert (forall k x, l !! k = Some x -> less x r = false) as H; [|by intros x [k Hk]%list_elem_of_lookup; eapply H].
  intros k. induction k as [k IH] using (well_founded_induction lt_wf). intros x Hx. destruct (decide (k = 0%nat)) as [->|Hk].
  - rewrite Hr in Hx. injection Hx as <-. destruct (less r r) eqn:E; [|done]. pose proof (less_asym _ _ E). congruence.
  - pose proof (parent_spec k ltac:(lia)) as Hp. pose proof (lookup_lt_Some _ _ _ Hx) as Hlt.
    destruct (lookup_lt_is_Some_2 l (parent k) ltac:(lia)) as [y Hy].
    eapply (less_negtrans _ y); [by eapply ok_at|exact (Hh k ltac:(lia) x y Hx Hy)|exact (IH (parent k) ltac:(lia) y Hy)].
Qed.

End Heap.
