(* ===== verification/Hnsw.v ===== *)
(** * The vector graph (internal/datastruct/hnsw.go)

    A hierarchical graph over vectors: every node has a level and, on each layer up to
    its level, a list of neighbours.  A search walks greedily through the upper layers
    and explores the lowest one with two heaps.  The level drawn for a new node and
    the range over the map of nodes are arguments.  [sort.Slice] is not stable, so it
    is an argument too: any function that returns a sorted permutation. *)

From S2P Require Import Prelude Float Heap SkipList.

Definition DefaultM : Z := 16.
Definition DefaultM0 : Z := 32.
Definition DefaultEFConstruction : Z := 64.
Definition DefaultEFSearch : Z := 64.
Definition MaxGraphLevel : Z := 16.

Record DistItem := mkItem { di_ID : bytes; Dist : float64 }.

(** [Less] of [MinDistHeap] and of [MaxDistHeap]. *)
Definition MinLess (x y : DistItem) : bool := fless (Dist x) (Dist y).
Definition MaxLess (x y : DistItem) : bool := fless (Dist y) (Dist x).

Record HNSWNode := mkHNode { hn_ID : bytes; Vec : list float32; Level : Z; Neighbors : list (list bytes) }.

Record HNSWIndex := mkHNSW {
  Dimension : Z; Metric : bytes; M : Z; M0 : Z; EFConstruction : Z; EFSearch : Z;
  Nodes : gmap bytes HNSWNode; EntryPoint : bytes; MaxLevel : Z }.

Definition NewHNSWIndex (dim : Z) (metric : bytes) : HNSWIndex :=
  let metric := if decide (metric = []) then str "cosine" else metric in
  mkHNSW dim metric DefaultM DefaultM0 DefaultEFConstruction DefaultEFSearch ∅ [] (-1).

Definition set_nodes (ns : gmap bytes HNSWNode) (h : HNSWIndex) : HNSWIndex :=
  mkHNSW (Dimension h) (Metric h) (M h) (M0 h) (EFConstruction h) (EFSearch h) ns (EntryPoint h) (MaxLevel h).
Definition set_entry (e : bytes) (lvl : Z) (h : HNSWIndex) : HNSWIndex :=
  mkHNSW (Dimension h) (Metric h) (M h) (M0 h) (EFConstruction h) (EFSearch h) (Nodes h) e lvl.
Definition set_dimension (d : Z) (h : HNSWIndex) : HNSWIndex :=
  mkHNSW d (Metric h) (M h) (M0 h) (EFConstruction h) (EFSearch h) (Nodes h) (EntryPoint h) (MaxLevel h).
Definition set_metric (m : bytes) (h : HNSWIndex) : HNSWIndex :=
  mkHNSW (Dimension h) m (M h) (M0 h) (EFConstruction h) (EFSearch h) (Nodes h) (EntryPoint h) (MaxLevel h).
Definition set_vec (v : list float32) (n : HNSWNode) : HNSWNode := mkHNode (hn_ID n) v (Level n) (Neighbors n).

Definition bounds {A} : res fault A := Err (Fault PanicBounds).

(** ** Distances *)

Definition is_l2 (metric : bytes) : bool := bool_decide (metric = str "l2" \/ metric = str "euclidean").
Definition is_dot (metric : bytes) : bool := bool_decide (metric = str "dot" \/ metric = str "innerproduct").

(** The loops [for i := range a]: indexing [b] panics where it is shorter. *)
Fixpoint l2_sum (a b : list float32) (sum : float64) : res fault float64 :=
  match a, b with
  | [], _ => Ok sum
  | x :: a', y :: b' => let diff := fsub (f64 x) (f64 y) in l2_sum a' b' (fadd sum (fmul diff diff))
  | _ :: _, [] => bounds
  end.

Fixpoint dot_sum (a b : list float32) (dot : float64) : res fault float64 :=
  match a, b with
  | [], _ => Ok dot
  | x :: a', y :: b' => dot_sum a' b' (fadd dot (fmul (f64 x) (f64 y)))
  | _ :: _, [] => bounds
  end.

Fixpoint cosine_sums (a b : list float32) (dot normA normB : float64) : res fault (float64 * float64 * float64) :=
  match a, b with
  | [], _ => Ok (dot, normA, normB)
  | x :: a', y :: b' =>
      let valA := f64 x in let valB := f64 y in
      cosine_sums a' b' (fadd dot (fmul valA valB)) (fadd normA (fmul valA valA)) (fadd normB (fmul valB valB))
  | _ :: _, [] => bounds
  end.

Definition Distance (metric : bytes) (a b : list float32) : res fault float64 :=
  if is_l2 metric then sum ← l2_sum a b fzero; Ok (fsqrt sum)
  else if is_dot metric then dot ← dot_sum a b fzero; Ok (fopp dot)
  else if decide (a = [] \/ b = []) then Ok fone
  else
    '(dot, normA, normB) ← cosine_sums a b fzero fzero fzero;
    if is_zero normA || is_zero normB then Ok fone
    else Ok (fsub fone (fdiv dot (fmul (fsqrt normA) (fsqrt normB)))).

Section Graph.
Context (sort_items : list DistItem -> list DistItem).
Implicit Types (h : HNSWIndex) (id curr : bytes) (vec : list float32) (l : nat).

(** ** Greedy descent *)

(** The loop over the neighbours of [cNode] on a layer. *)
Fixpoint scan h vec (nbrs : list bytes) curr (currDist : float64) (changed : bool) : res fault (bytes * float64 * bool) :=
  match nbrs with
  | [] => Ok (curr, currDist, changed)
  | n :: nbrs' =>
      match Nodes h !! n with
      | None => scan h vec nbrs' curr currDist changed
      | Some nbr =>
          d ← Distance (Metric h) vec (Vec nbr);
          if fless d currDist then scan h vec nbrs' n d true else scan h vec nbrs' curr currDist changed
      end
  end.

(** [for changed]: the distance decreases with every round but the last, so there
    are at most as many rounds as nodes. *)
Fixpoint greedy_layer (fuel : nat) h vec l curr (currDist : float64) : res fault (bytes * float64) :=
  match fuel with
  | O => Err Endless
  | S fuel =>
      match Nodes h !! curr with
      | None => Err (Fault PanicNil)
      | Some cNode =>
          '(curr, currDist, changed) ← scan h vec (default [] (Neighbors cNode !! l)) curr currDist false;
          if changed : bool then greedy_layer fuel h vec l curr currDist else Ok (curr, currDist)
      end
  end.

Definition rounds h : nat := S (size (Nodes h)).

Fixpoint greedy h vec (ls : list nat) curr (currDist : float64) : res fault (bytes * float64) :=
  match ls with
  | [] => Ok (curr, currDist)
  | l :: ls' => '(curr, currDist) ← greedy_layer (rounds h) h vec l curr currDist; greedy h vec ls' curr currDist
  end.

(** The layers [for l := hi; l > lo; l--]. *)
Definition layers (hi lo : Z) : list nat := rev (seq (Z.to_nat (lo + 1)) (Z.to_nat (hi - lo))).

(** ** Beam search on a layer *)

Record beam := mkBeam { visited : gset bytes; vQueue : list DistItem; wQueue : list DistItem }.

Definition worst (st : beam) : res fault DistItem := match wQueue st with x :: _ => Ok x | [] => bounds end.

(** The body of the loop over the neighbours of the node taken from [vQueue]. *)
Definition visit h (target : list float32) (ef : Z) (st : beam) (nID : bytes) : res fault beam :=
  if decide (nID ∈ visited st) then Ok st
  else
    let st := mkBeam ({[nID]} ∪ visited st) (vQueue st) (wQueue st) in
    match Nodes h !! nID with
    | None => Ok st
    | Some nbr =>
        nDist ← Distance (Metric h) target (Vec nbr);
        w ← worst st;
        if fless nDist (Dist w) || (Z.of_nat (length (wQueue st)) <? ef) then
          let v := Push MinLess (vQueue st) (mkItem nID nDist) in
          let w := Push MaxLess (wQueue st) (mkItem nID nDist) in
          if ef <? Z.of_nat (length w) then
            match Pop MaxLess w with Some (_, w) => Ok (mkBeam (visited st) v w) | None => bounds end
          else Ok (mkBeam (visited st) v w)
        else Ok st
    end.

Fixpoint visit_all h (target : list float32) (ef : Z) (nbrs : list bytes) (st : beam) : res fault beam :=
  match nbrs with [] => Ok st | n :: nbrs' => st ← visit h target ef st n; visit_all h target ef nbrs' st end.

(** [for vQueue.Len() > 0]: a node enters the queue once. *)
Fixpoint beam_loop (fuel : nat) h (target : list float32) (ef : Z) (level : nat) (st : beam) : res fault beam :=
  match fuel with
  | O => Err Endless
  | S fuel =>
      match Pop MinLess (vQueue st) with
      | None => Ok st
      | Some (curr, v) =>
          w ← worst st;
          let st := mkBeam (visited st) v (wQueue st) in
          if fless (Dist w) (Dist curr) then Ok st
          else
            match cNode ← Nodes h !! di_ID curr; Neighbors cNode !! level with
            | None => beam_loop fuel h target ef level st
            | Some nbrs => st ← visit_all h target ef nbrs st; beam_loop fuel h target ef level st
            end
      end
  end.

Definition searchLayer h (target : list float32) (entryPoint : bytes) (ef : Z) (level : nat) : res fault (list DistItem) :=
  match Nodes h !! entryPoint with
  | None => Ok []
  | Some epNode =>
      d ← Distance (Metric h) target (Vec epNode);
      let it := mkItem entryPoint d in
      st ← beam_loop (rounds h) h target ef level (mkBeam {[entryPoint]} (Push MinLess [] it) (Push MaxLess [] it));
      Ok (sort_items (wQueue st))
  end.

(** ** Insertion *)

Definition selectNeighbors (candidates : list DistItem) (m : Z) : list DistItem :=
  if Z.of_nat (length candidates) <=? m then candidates else take (Z.to_nat m) candidates.

Fixpoint prune_pairs h (base : list float32) (neighbors : list bytes) : res fault (list DistItem) :=
  match neighbors with
  | [] => Ok []
  | nid :: neighbors' =>
      match Nodes h !! nid with
      | None => prune_pairs h base neighbors'
      | Some node =>
          d ← Distance (Metric h) base (Vec node);
          pairs ← prune_pairs h base neighbors';
          Ok (mkItem nid d :: pairs)
      end
  end.

Definition pruneNeighbors h (base : list float32) (neighbors : list bytes) (m : Z) : res fault (list bytes) :=
  pairs ← prune_pairs h base neighbors;
  let pairs := sort_items pairs in
  let pairs := if m <? Z.of_nat (length pairs) then take (Z.to_nat m) pairs else pairs in
  Ok (di_ID <$> pairs).

(** [h.Nodes[id].Neighbors[l] = ns]. *)
Definition set_links id l (ns : list bytes) h : res fault HNSWIndex :=
  match Nodes h !! id with
  | None => Err (Fault PanicNil)
  | Some n =>
      if decide (l < length (Neighbors n))%nat
      then Ok (set_nodes (<[id := mkHNode (hn_ID n) (Vec n) (Level n) (<[l := ns]> (Neighbors n))]> (Nodes h)) h)
      else bounds
  end.

Definition maxConn h l : Z := if decide (l = 0%nat) then M0 h else M h.

(** The link back from a selected neighbour. *)
Definition link_back id l h (it : DistItem) : res fault HNSWIndex :=
  match nbr ← Nodes h !! di_ID it; ns ← Neighbors nbr !! l; Some (nbr, ns) with
  | None => Ok h
  | Some (nbr, ns) =>
      let ns := ns ++ [id] in
      h ← set_links (di_ID it) l ns h;
      if maxConn h l <? Z.of_nat (length ns) then
        ns ← pruneNeighbors h (Vec nbr) ns (maxConn h l);
        set_links (di_ID it) l ns h
      else Ok h
  end.

Fixpoint link_all id l (selected : list DistItem) h : res fault HNSWIndex :=
  match selected with [] => Ok h | it :: selected' => h ← link_back id l h it; link_all id l selected' h end.

(** One layer of the second phase of [Insert]. *)
Definition insert_layer id vec l h curr : res fault (HNSWIndex * bytes) :=
  candidates ← searchLayer h vec curr (EFConstruction h) l;
  let selected := selectNeighbors candidates (maxConn h l) in
  h ← set_links id l (di_ID <$> selected) h;
  h ← link_all id l selected h;
  Ok (h, match candidates with c :: _ => di_ID c | [] => curr end).

Fixpoint insert_layers id vec (ls : list nat) h curr : res fault HNSWIndex :=
  match ls with
  | [] => Ok h
  | l :: ls' => '(h, curr) ← insert_layer id vec l h curr; insert_layers id vec ls' h curr
  end.

(** [lvl] is the level computed from the random draw. *)
Definition randomLevel (lvl : Z) : Z := if MaxGraphLevel <? lvl then MaxGraphLevel else lvl.

Inductive vector_error := ErrDimensionMismatch.

Definition Insert id vec (lvl : Z) h : res fault (HNSWIndex * option vector_error) :=
  if (0 <? Dimension h) && negb (Z.of_nat (length vec) =? Dimension h) then Ok (h, Some ErrDimensionMismatch)
  else
    let h := if Dimension h =? 0 then set_dimension (Z.of_nat (length vec)) h else h in
    match Nodes h !! id with
    | Some old => Ok (set_nodes (<[id := set_vec vec old]> (Nodes h)) h, None)
    | None =>
        let nodeLevel := randomLevel lvl in
        if nodeLevel + 1 <? 0 then Err (Fault PanicMakeSlice)
        else
          let node := mkHNode id vec nodeLevel (replicate (Z.to_nat (nodeLevel + 1)) []) in
          let h := set_nodes (<[id := node]> (Nodes h)) h in
          if decide (EntryPoint h = []) then Ok (set_entry id nodeLevel h, None)
          else
            match Nodes h !! EntryPoint h with
            | None => Err (Fault PanicNil)
            | Some ep =>
                currDist ← Distance (Metric h) vec (Vec ep);
                '(curr, _) ← greedy h vec (layers (MaxLevel h) nodeLevel) (EntryPoint h) currDist;
                let topLayer := if MaxLevel h <? nodeLevel then MaxLevel h else nodeLevel in
                h ← insert_layers id vec (layers topLayer (-1)) h curr;
                Ok (if MaxLevel h <? nodeLevel then set_entry id nodeLevel h else h, None)
            end
    end.

(** ** Search and deletion *)

Record VectorSearchResult := mkResult { r_ID : bytes; Score : float64; r_Vec : list float32 }.

Definition score_of (metric : bytes) (d : float64) : float64 :=
  if is_l2 metric then d else if is_dot metric then fopp d else fsub fone d.

Fixpoint results_of h (cs : list DistItem) : res fault (list VectorSearchResult) :=
  match cs with
  | [] => Ok []
  | c :: cs' =>
      match Nodes h !! di_ID c with
      | None => Err (Fault PanicNil)
      | Some n => rs ← results_of h cs'; Ok (mkResult (di_ID c) (score_of (Metric h) (Dist c)) (Vec n) :: rs)
      end
  end.

Definition Search (query : list float32) (topK efSearch : Z) h : res fault (list VectorSearchResult + vector_error) :=
  if (0 <? Dimension h) && negb (Z.of_nat (length query) =? Dimension h) then Ok (inr ErrDimensionMismatch)
  else if decide (Nodes h = ∅ \/ EntryPoint h = []) then Ok (inl [])
  else
    let topK := if topK <=? 0 then 10 else topK in
    let efSearch := if efSearch <? topK then topK else efSearch in
    match Nodes h !! EntryPoint h with
    | None => Err (Fault PanicNil)
    | Some ep =>
        currDist ← Distance (Metric h) query (Vec ep);
        '(curr, _) ← greedy h query (layers (MaxLevel h) 0) (EntryPoint h) currDist;
        candidates ← searchLayer h query curr efSearch 0;
        let candidates := if topK <? Z.of_nat (length candidates) then take (Z.to_nat topK) candidates else candidates in
        rs ← results_of h candidates;
        Ok (inl rs)
    end.

(** The references to [id] are removed from the nodes it refers to on a layer. *)
Definition unlink id l h (nID : bytes) : HNSWIndex :=
  match Nodes h !! nID with
  | None => h
  | Some nbr =>
      match Neighbors nbr !! l with
      | None => h
      | Some ns => set_nodes (<[nID := mkHNode (hn_ID nbr) (Vec nbr) (Level nbr) (<[l := filter (fun item => item <> id) ns]> (Neighbors nbr))]> (Nodes h)) h
      end
  end.

Fixpoint unlink_layers id (ls : list nat) h : res fault HNSWIndex :=
  match ls with
  | [] => Ok h
  | l :: ls' =>
      match node ← Nodes h !! id; Neighbors node !! l with
      | None => bounds
      | Some ns => unlink_layers id ls' (foldl (unlink id l) h ns)
      end
  end.

(** The new entry point: the first of the nodes of the highest level. *)
Definition best_entry h (st : bytes * Z) (nid : bytes) : bytes * Z :=
  match Nodes h !! nid with
  | Some n => if st.2 <? Level n then (nid, Level n) else st
  | None => st
  end.

Definition Delete (order : list bytes) id h : res fault (HNSWIndex * bool) :=
  match Nodes h !! id with
  | None => Ok (h, false)
  | Some node =>
      h ← unlink_layers id (seq 0 (Z.to_nat (Level node + 1))) h;
      let h := set_nodes (delete id (Nodes h)) h in
      if decide (EntryPoint h = id) then
        let '(e, lvl) := foldl (best_entry h) ([], -1) order in
        Ok (set_entry e lvl h, true)
      else Ok (h, true)
  end.

Definition Len h : Z := Z.of_nat (size (Nodes h)).
End Graph.
