(* ===== verification/HnswLaws.v ===== *)
(** * Laws of the vector graph

    Every operation of the graph returns: no index is out of range, no pointer is nil
    and both loops end.  The invariant [graph_ok] is what they rely on; it holds for
    every graph built from named, non-empty vectors. *)

From S2P Require Import Prelude Float Heap SkipList Hnsw.

(** ** Distances *)

Lemma l2_sum_total a : forall b sum, (length a <= length b)%nat -> exists d, l2_sum a b sum = Ok d.
Proof. induction a as [|x a IH]; intros [|y b] sum H; cbn in *; try lia; eauto. apply IH. lia. Qed.

Lemma dot_sum_total a : forall b sum, (length a <= length b)%nat -> exists d, dot_sum a b sum = Ok d.
Proof. induction a as [|x a IH]; intros [|y b] sum H; cbn in *; try lia; eauto. apply IH. lia. Qed.

Lemma cosine_sums_total a : forall b d n1 n2, (length a <= length b)%nat -> exists r, cosine_sums a b d n1 n2 = Ok r.
Proof. induction a as [|x a IH]; intros [|y b] d n1 n2 H; cbn in *; try lia; eauto. apply IH. lia. Qed.

Lemma Distance_total metric a b : (length a <= length b)%nat -> exists d, Distance metric a b = Ok d.
Proof.
  intros H. unfold Distance. destruct (is_l2 metric); [destruct (l2_sum_total a b fzero H) as [d ->]; cbn; eauto|].
  destruct (is_dot metric); [destruct (dot_sum_total a b fzero H) as [d ->]; cbn; eauto|].
  case_decide; [eauto|]. destruct (cosine_sums_total a b fzero fzero fzero H) as [[[d n1] n2] ->]. cbn [mbind res_bind]. case_match; eauto.
Qed.

(** ** The invariant *)

Definition node_ok (h : HNSWIndex) (id : bytes) (n : HNSWNode) : Prop :=
  hn_ID n = id /\ Z.of_nat (length (Vec n)) = Dimension h /\ 0 <= Level n <= MaxGraphLevel /\
  Z.of_nat (length (Neighbors n)) = Level n + 1.

Definition nodes_ok (h : HNSWIndex) : Prop := forall id n, Nodes h !! id = Some n -> node_ok h id n.

(** No node has more neighbours than the graph allows on a layer. *)
Definition capped (h : HNSWIndex) : Prop :=
  forall id n l ns, Nodes h !! id = Some n -> Neighbors n !! l = Some ns -> Z.of_nat (length ns) <= maxConn h l.

(** The entry point is a node of the highest level. *)
Definition entry_ok (h : HNSWIndex) : Prop :=
  (EntryPoint h = [] -> Nodes h = ∅) /\
  (EntryPoint h <> [] -> exists n, Nodes h !! EntryPoint h = Some n /\ Level n = MaxLevel h /\
     forall id n', Nodes h !! id = Some n' -> Level n' <= MaxLevel h).

Record graph_ok (h : HNSWIndex) : Prop := {
  g_params : M h = DefaultM /\ M0 h = DefaultM0 /\ EFConstruction h = DefaultEFConstruction /\ EFSearch h = DefaultEFSearch;
  g_dim : 0 <= Dimension h /\ (Dimension h = 0 -> Nodes h = ∅);
  g_nodes : nodes_ok h;
  g_capped : capped h;
  g_named : Nodes h !! [] = None;
  g_entry : entry_ok h }.

Definition vectors (h : HNSWIndex) : gmap bytes (list float32) := Vec <$> Nodes h.

(** ** Rewiring: what changes only neighbours *)

Definition shape (n : HNSWNode) := (hn_ID n, Vec n, Level n, length (Neighbors n)).

Record rewired (h h' : HNSWIndex) : Prop := {
  rw_dim : Dimension h' = Dimension h; rw_metric : Metric h' = Metric h; rw_M : M h' = M h; rw_M0 : M0 h' = M0 h;
  rw_efc : EFConstruction h' = EFConstruction h; rw_efs : EFSearch h' = EFSearch h;
  rw_entry : EntryPoint h' = EntryPoint h; rw_max : MaxLevel h' = MaxLevel h;
  rw_shape : shape <$> Nodes h' = shape <$> Nodes h }.

Lemma rewired_refl h : rewired h h.
Proof. by constructor. Qed.

Lemma rewired_trans h1 h2 h3 : rewired h1 h2 -> rewired h2 h3 -> rewired h1 h3.
Proof. intros [] []. constructor; congruence. Qed.

#[export] Hint Resolve rewired_refl : vkv.

Lemma rewired_lookup h h' id : rewired h h' -> shape <$> Nodes h' !! id = shape <$> Nodes h !! id.
Proof. intros [_ _ _ _ _ _ _ _ H]. rewrite <- !lookup_fmap. by rewrite H. Qed.

Lemma rewired_Some h h' id n : rewired h h' -> Nodes h !! id = Some n -> exists n', Nodes h' !! id = Some n' /\ shape n' = shape n.
Proof.
  intros Hr Hn. pose proof (rewired_lookup h h' id Hr) as H. rewrite Hn in H. cbn [fmap option_fmap option_map] in H.
  destruct (Nodes h' !! id) as [n'|]; [|done]. cbn in H. exists n'. split; [done|congruence].
Qed.

Lemma rewired_Some_inv h h' id n' : rewired h h' -> Nodes h' !! id = Some n' -> exists n, Nodes h !! id = Some n /\ shape n' = shape n.
Proof.
  intros Hr Hn. pose proof (rewired_lookup h h' id Hr) as H. rewrite Hn in H. cbn [fmap option_fmap option_map] in H.
  destruct (Nodes h !! id) as [n|]; [|done]. cbn in H. exists n. split; [done|congruence].
Qed.

Lemma rewired_None h h' id : rewired h h' -> Nodes h !! id = None -> Nodes h' !! id = None.
Proof. intros Hr Hn. pose proof (rewired_lookup h h' id Hr) as H. rewrite Hn in H. by destruct (Nodes h' !! id). Qed.

Lemma rewired_nodes_ok h h' : rewired h h' -> nodes_ok h -> nodes_ok h'.
Proof.
  intros Hr H id n' Hn'. destruct (rewired_Some_inv h h' id n' Hr Hn') as (n & Hn & Hs). destruct (H id n Hn) as (H1 & H2 & H3 & H4).
  unfold shape in Hs. injection Hs as E1 E2 E3 E4. unfold node_ok. rewrite E1, E2, E3, E4, (rw_dim _ _ Hr). done.
Qed.

Lemma rewired_vectors h h' : rewired h h' -> vectors h' = vectors h.
Proof.
  intros Hr. unfold vectors. pose proof (f_equal (fmap (fun s : bytes * list float32 * Z * nat => s.1.1.2)) (rw_shape _ _ Hr)) as H.
  rewrite <- !map_fmap_compose in H. exact H.
Qed.

Lemma rewired_size h h' : rewired h h' -> size (Nodes h') = size (Nodes h).
Proof. intros Hr. rewrite <- (map_size_fmap shape (Nodes h')), (rw_shape _ _ Hr). apply map_size_fmap. Qed.

Lemma rewired_maxConn h h' l : rewired h h' -> maxConn h' l = maxConn h l.
Proof. intros Hr. unfold maxConn. by rewrite (rw_M _ _ Hr), (rw_M0 _ _ Hr). Qed.

Lemma set_links_spec id l ns h n : Nodes h !! id = Some n -> (l < length (Neighbors n))%nat ->
  exists h', set_links id l ns h = Ok h' /\ rewired h h' /\
    Nodes h' = <[id := mkHNode (hn_ID n) (Vec n) (Level n) (<[l := ns]> (Neighbors n))]> (Nodes h).
Proof.
  intros Hn Hl. unfold set_links. rewrite Hn, decide_True by done. eexists. split; [done|]. split; [|done].
  constructor; try done. cbn [Nodes set_nodes]. rewrite fmap_insert. unfold shape at 1. cbn [hn_ID Vec Level Neighbors]. rewrite length_insert.
  apply insert_id. rewrite lookup_fmap, Hn. done.
Qed.

(** The bound, but for one list. *)
Definition capped_but (id0 : bytes) (l0 : nat) (h : HNSWIndex) : Prop :=
  forall id n l ns, (id <> id0 \/ l <> l0) -> Nodes h !! id = Some n -> Neighbors n !! l = Some ns -> Z.of_nat (length ns) <= maxConn h l.

Lemma capped_weaken id l h : capped h -> capped_but id l h.
Proof. intros H id' n l' ns _. apply H. Qed.

Lemma set_links_but id l ns h h' n : Nodes h !! id = Some n -> Nodes h' = <[id := mkHNode (hn_ID n) (Vec n) (Level n) (<[l := ns]> (Neighbors n))]> (Nodes h) ->
  rewired h h' -> capped_but id l h -> capped_but id l h'.
Proof.
  intros Hn E Hr Hc id' n' l' ms Hne. rewrite E, (rewired_maxConn _ _ _ Hr). destruct (decide (id' = id)) as [->|Hid].
  - rewrite lookup_insert_eq. intros [= <-]. cbn [Neighbors]. destruct Hne as [?|Hl]; [done|]. rewrite list_lookup_insert_ne by done. apply (Hc id n); [by right|done].
  - rewrite lookup_insert_ne by done. apply Hc. by left.
Qed.

Lemma set_links_capped id l ns h h' n : Nodes h !! id = Some n -> Nodes h' = <[id := mkHNode (hn_ID n) (Vec n) (Level n) (<[l := ns]> (Neighbors n))]> (Nodes h) ->
  rewired h h' -> capped_but id l h -> Z.of_nat (length ns) <= maxConn h l -> capped h'.
Proof.
  intros Hn E Hr Hc Hlen id' n' l' ms Hn' Hms. destruct (decide (id' = id /\ l' = l)) as [[-> ->]|Hne].
  - rewrite (rewired_maxConn _ _ _ Hr). rewrite E, lookup_insert_eq in Hn'. injection Hn' as <-. cbn [Neighbors] in Hms.
    apply list_lookup_insert_Some in Hms as [(_ & <- & _)|[? _]]; done.
  - eapply (set_links_but id l ns h h' n Hn E Hr Hc id' n' l' ms); [|done..]. destruct (decide (id' = id)); [right|by left]. intros ->. by apply Hne.
Qed.

(** ** The greedy descent *)

Section Descent.
Context (h : HNSWIndex) (vec : list float32).

(** [curr] is a node at distance [d]. *)
Definition located (curr : bytes) (d : float64) : Prop :=
  exists n, Nodes h !! curr = Some n /\ Distance (Metric h) vec (Vec n) = Ok d.

Context (Hlen : forall id n, Nodes h !! id = Some n -> (length vec <= length (Vec n))%nat).

Lemma locate id n : Nodes h !! id = Some n -> exists d, Distance (Metric h) vec (Vec n) = Ok d /\ located id d.
Proof using Hlen.
  intros Hn. destruct (Distance_total (Metric h) vec (Vec n) (Hlen id n Hn)) as [d Hd]. exists d. split; [done|]. by exists n.
Qed.

Lemma scan_spec nbrs : forall curr d changed, exists curr' d' changed', scan h vec nbrs curr d changed = Ok (curr', d', changed') /\
  ((curr' = curr /\ d' = d /\ changed' = changed) \/ (changed' = true /\ curr' ∈ nbrs /\ fless d' d = true /\ located curr' d')).
Proof using Hlen.
  induction nbrs as [|n nbrs IH]; intros curr d changed; cbn [scan]; [by exists curr, d, changed; split; [|left]|].
  assert (forall c e b, (exists curr' d' changed', scan h vec nbrs c e b = Ok (curr', d', changed') /\
    ((curr' = c /\ d' = e /\ changed' = b) \/ (changed' = true /\ curr' ∈ n :: nbrs /\ fless d' e = true /\ located curr' d')))) as IH'.
  { intros c e b. destruct (IH c e b) as (c' & d' & b' & E & Hor). exists c', d', b'. split; [done|]. destruct Hor as [?|(? & ? & ?)]; [by left|]. right. split; [done|]. split; [by apply list_elem_of_further|done]. }
  destruct (Nodes h !! n) as [nbr|] eqn:Hn; [|apply IH']. destruct (locate n nbr Hn) as (d1 & Hd1 & Hloc). rewrite Hd1. cbn [mbind res_bind].
  destruct (fless d1 d) eqn:Hl; [|apply IH']. destruct (IH' n d1 true) as (c' & d' & b' & E & Hor). exists c', d', b'. split; [done|]. right.
  destruct Hor as [(-> & -> & ->)|(-> & Hin & Hl' & Hloc')]; [split; [done|]; split; [apply list_elem_of_here|done]|].
  split; [done|]. split; [done|]. split; [by eapply fless_trans|done].
Qed.

Definition closer (d : float64) (kv : bytes * HNSWNode) : Prop :=
  match Distance (Metric h) vec (Vec kv.2) with Ok x => fless x d = true | Err _ => False end.
#[local] Instance closer_dec d kv : Decision (closer d kv).
Proof. unfold closer. destruct (Distance _ _ _); apply _. Defined.

Definition closers (d : float64) : nat := length (filter (closer d) (map_to_list (Nodes h))).

Lemma closers_bound d : (closers d <= size (Nodes h))%nat.
Proof. unfold closers. rewrite length_filter. by rewrite <- length_map_to_list. Qed.

Lemma closers_less d d' curr : fless d' d = true -> located curr d' -> (closers d' < closers d)%nat.
Proof.
  intros Hl (n & Hn & Hd). unfold closers. apply elem_of_map_to_list in Hn. pose proof (NoDup_map_to_list (Nodes h)) as HN.
  apply list_elem_of_split in Hn as (l1 & l2 & E). rewrite E. rewrite !filter_app, !filter_cons.
  rewrite (decide_False (P := closer d' _)) by (unfold closer; cbn [snd]; rewrite Hd, fless_irrefl; done).
  rewrite (decide_True (P := closer d _)) by (unfold closer; cbn [snd]; by rewrite Hd).
  assert (forall l, (length (filter (closer d') l) <= length (filter (closer d) l))%nat) as Hmono.
  { intros l. induction l as [|kv l IH]; [done|]. rewrite !filter_cons. destruct (decide (closer d' kv)) as [H1|H1].
    - rewrite decide_True; [cbn; lia|]. unfold closer in H1 |- *. destruct (Distance (Metric h) vec (Vec kv.2)); [|done]. by eapply fless_trans.
    - case_decide; cbn; lia. }
  rewrite !length_app. cbn [length]. pose proof (Hmono l1). pose proof (Hmono l2). lia.
Qed.

(** The nodes a walk may reach on a layer. *)
Definition closed_on (l : nat) (P : bytes -> Prop) : Prop :=
  forall id n ns, P id -> Nodes h !! id = Some n -> Neighbors n !! l = Some ns -> forall y, y ∈ ns -> is_Some (Nodes h !! y) -> P y.

Lemma greedy_layer_spec l P fuel : forall curr d, closed_on l P -> (closers d < fuel)%nat -> P curr -> located curr d ->
  exists curr' d', greedy_layer fuel h vec l curr d = Ok (curr', d') /\ P curr' /\ located curr' d'.
Proof using Hlen.
  induction fuel as [|fuel IH]; intros curr d Hcl Hf HP Hloc; [lia|]. cbn [greedy_layer]. pose proof Hloc as (n & Hn & _). rewrite Hn.
  destruct (scan_spec (default [] (Neighbors n !! l)) curr d false) as (c' & d' & b' & E & Hor). rewrite E. cbn [mbind res_bind].
  destruct Hor as [(-> & -> & ->)|(-> & Hin & Hl & Hloc')]; [by exists curr, d|]. apply IH; [done| | |done].
  - pose proof (closers_less d d' c' Hl Hloc'). lia.
  - destruct (Neighbors n !! l) as [ns|] eqn:Hns; [|by apply not_elem_of_nil in Hin]. destruct Hloc' as (n' & Hn' & _).
    apply (Hcl curr n ns HP Hn Hns c' Hin). by rewrite Hn'.
Qed.

Lemma greedy_spec ls P : forall curr d, (forall l, l ∈ ls -> closed_on l P) -> P curr -> located curr d ->
  exists curr' d', greedy h vec ls curr d = Ok (curr', d') /\ P curr' /\ located curr' d'.
Proof using Hlen.
  induction ls as [|l ls IH]; intros curr d Hcl HP Hloc; cbn [greedy]; [by exists curr, d|].
  destruct (greedy_layer_spec l P (rounds h) curr d) as (c' & d' & -> & HP' & Hloc'); [apply Hcl, list_elem_of_here|unfold rounds; pose proof (closers_bound d); lia|done..|].
  cbn [mbind res_bind]. apply IH; [|done..]. intros l' Hl'. apply Hcl. by apply list_elem_of_further.
Qed.
End Descent.

(** ** The beam search *)

Section Beam.
Context (h : HNSWIndex) (target : list float32) (ef : Z) (P : bytes -> Prop).
Context (Hlen : forall id n, Nodes h !! id = Some n -> (length target <= length (Vec n))%nat).

(** The items of a queue are visited nodes with their distances. *)
Definition item_ok (st : beam) (it : DistItem) : Prop :=
  di_ID it ∈ visited st /\ located h target (di_ID it) (Dist it) /\ P (di_ID it).

Record beam_ok (st : beam) : Prop := {
  b_some : wQueue st <> [];
  b_w : Forall (item_ok st) (wQueue st);
  b_v : Forall (item_ok st) (vQueue st);
  b_nodup : NoDup (di_ID <$> wQueue st);
  b_len : Z.of_nat (length (wQueue st)) <= Z.max 1 ef }.

(** What the search may still do: the queue and the nodes not seen. *)
Definition remaining (st : beam) : nat := (length (vQueue st) + size (dom (Nodes h) ∖ visited st))%nat.

Lemma worst_ok st : beam_ok st -> exists w, worst st = Ok w /\ wQueue st !! 0%nat = Some w.
Proof. intros H. unfold worst. pose proof (b_some st H) as Hs. destruct (wQueue st) as [|w ws]; [done|]. by exists w. Qed.

Lemma item_ok_grow st st' it : visited st ⊆ visited st' -> item_ok st it -> item_ok st' it.
Proof. intros Hs (H1 & H2 & H3). split; [by apply Hs|done]. Qed.

(** The three outcomes of a visit. *)
Lemma visit_cases st n : beam_ok st -> (is_Some (Nodes h !! n) -> P n) -> exists st', visit h target ef st n = Ok st' /\
  visited st' = {[n]} ∪ visited st /\
  ((n ∈ visited st \/ Nodes h !! n = None) /\ vQueue st' = vQueue st /\ wQueue st' = wQueue st \/
   exists d, n ∉ visited st /\ located h target n d /\
     (ef <= Z.of_nat (length (wQueue st)) /\ vQueue st' = vQueue st /\ wQueue st' = wQueue st \/
      vQueue st' = Push MinLess (vQueue st) (mkItem n d) /\
      (Z.of_nat (length (wQueue st)) < ef /\ wQueue st' = Push MaxLess (wQueue st) (mkItem n d) \/
       ef <= Z.of_nat (length (wQueue st)) /\ exists x, Pop MaxLess (Push MaxLess (wQueue st) (mkItem n d)) = Some (x, wQueue st')))).
Proof using Hlen.
  intros Hok HP. unfold visit. case_decide as Hvis.
  { exists st. split; [done|]. split; [|left; split; [by left|done]]. apply leibniz_equiv. set_solver. }
  cbv zeta. destruct (Nodes h !! n) as [nbr|] eqn:Hn; [|eexists; split; [done|]; split; [done|]; left; split; [by right|done]].
  destruct (locate h target Hlen n nbr Hn) as (d & Hd & Hloc). rewrite Hd. cbn [mbind res_bind].
  destruct (worst_ok st Hok) as (w & Hw & _). unfold worst in *. cbn [wQueue visited vQueue] in *. rewrite Hw. cbn [mbind res_bind].
  destruct (fless d (Dist w) || (Z.of_nat (length (wQueue st)) <? ef)) eqn:Ht.
  - pose proof (Permutation_length (Push_perm MaxLess (wQueue st) (mkItem n d))) as HL. cbn [length] in HL. rewrite HL.
    destruct (Z.ltb_spec ef (Z.of_nat (S (length (wQueue st))))) as [Hlt|Hge].
    + destruct (Pop_spec MaxLess (Push MaxLess (wQueue st) (mkItem n d))) as (x & rest & HPop & _); [by intros E; rewrite E in HL|].
      rewrite HPop. eexists. split; [done|]. split; [done|]. right. exists d. split; [done|]. split; [done|]. right. split; [done|]. right. split; [lia|]. by exists x.
    + eexists. split; [done|]. split; [done|]. right. exists d. split; [done|]. split; [done|]. right. split; [done|]. left. split; [lia|done].
  - apply orb_false_iff in Ht as [_ Ht%Z.ltb_ge]. eexists. split; [done|]. split; [done|]. right. exists d. split; [done|]. split; [done|]. by left.
Qed.

Lemma remaining_new st st' n : visited st' = {[n]} ∪ visited st -> n ∉ visited st -> is_Some (Nodes h !! n) ->
  (S (size (dom (Nodes h) ∖ visited st')) = size (dom (Nodes h) ∖ visited st))%nat.
Proof.
  intros -> Hn Hs. assert (dom (Nodes h) ∖ visited st = {[n]} ∪ dom (Nodes h) ∖ ({[n]} ∪ visited st)) as ->.
  { apply elem_of_dom in Hs. apply set_eq. intros x. rewrite elem_of_union, !elem_of_difference, elem_of_union, elem_of_singleton. destruct (decide (x = n)) as [->|]; tauto. }
  rewrite (size_union {[n]}); [by rewrite size_singleton|]. intros x ->%elem_of_singleton Hx. apply elem_of_difference in Hx as [_ Hx]. apply Hx, elem_of_union_l, elem_of_singleton_2. done.
Qed.

Lemma remaining_mono st st' n : visited st' = {[n]} ∪ visited st -> (size (dom (Nodes h) ∖ visited st') <= size (dom (Nodes h) ∖ visited st))%nat.
Proof. intros ->. apply subseteq_size. set_solver. Qed.

Lemma visit_ok st n : beam_ok st -> (is_Some (Nodes h !! n) -> P n) -> exists st', visit h target ef st n = Ok st' /\ beam_ok st' /\ (remaining st' <= remaining st)%nat.
Proof using Hlen.
  intros Hok HP. destruct (visit_cases st n Hok HP) as (st' & E & Hv & Hcases). exists st'. split; [done|].
  destruct Hok as [B1 B2 B3 B4 B5]. unfold remaining. pose proof (remaining_mono st st' n Hv) as Hrm.
  assert (visited st ⊆ visited st') as Hsub by (rewrite Hv; set_solver).
  assert (forall q, Forall (item_ok st) q -> Forall (item_ok st') q) as Hgrow by (intros q Hq; eapply list.Forall_impl; [exact Hq|]; intros it; by apply item_ok_grow).
  assert (vQueue st' = vQueue st -> wQueue st' = wQueue st -> beam_ok st' /\ (length (vQueue st') + size (dom (Nodes h) ∖ visited st') <= length (vQueue st) + size (dom (Nodes h) ∖ visited st))%nat) as Hsame.
  { intros Ev Ew. split; [|rewrite Ev; lia]. constructor; rewrite ?Ew, ?Ev; auto. }
  destruct Hcases as [(_ & Ev & Ew)|(d & Hnv & Hloc & [(_ & Ev & Ew)|(Ev & Hw)])]; [by apply Hsame..|].
  assert (is_Some (Nodes h !! n)) as Hsome by (destruct Hloc as (nd & -> & _); done).
  assert (item_ok st' (mkItem n d)) as Hit by (split; [rewrite Hv; cbn [di_ID]; set_solver|split; [done|by apply HP]]).
  assert (NoDup (di_ID <$> mkItem n d :: wQueue st)) as HN.
  { cbn [fmap list_fmap di_ID]. constructor; [|done]. intros Hin. apply list_elem_of_fmap in Hin as (it & -> & Hin). rewrite list.Forall_forall in B2. by destruct (B2 it Hin). }
  split.
  - destruct Hw as [(Hlt & Ew)|(Hge & x & Hpop)].
    + pose proof (Push_perm MaxLess (wQueue st) (mkItem n d)) as HPm. rewrite <- Ew in HPm. constructor.
      * intros E0. rewrite E0 in HPm. by apply Permutation_nil_cons in HPm.
      * rewrite HPm. constructor; auto.
      * rewrite Ev, (Push_perm MinLess). constructor; auto.
      * by rewrite HPm.
      * rewrite HPm. cbn [length]. lia.
    + destruct (Pop_spec MaxLess (Push MaxLess (wQueue st) (mkItem n d))) as (x' & rest & Hpop' & _ & HPm); [by intros E0; rewrite E0 in Hpop|].
      rewrite Hpop in Hpop'. injection Hpop' as <- <-. rewrite (Push_perm MaxLess) in HPm.
      assert (NoDup (di_ID <$> x :: wQueue st')) as HN' by (by rewrite <- HPm). assert (Forall (item_ok st') (x :: wQueue st')) as HF by (rewrite <- HPm; constructor; auto).
      apply Permutation_length in HPm. cbn [length] in HPm. constructor.
      * intros E0. rewrite E0 in HPm. destruct (wQueue st); [done|]. cbn in HPm. lia.
      * by apply Forall_cons in HF as [_ HF].
      * rewrite Ev, (Push_perm MinLess). constructor; auto.
      * by apply NoDup_cons in HN' as [_ HN'].
      * lia.
  - rewrite Ev. pose proof (Permutation_length (Push_perm MinLess (vQueue st) (mkItem n d))) as HL. cbn [length] in HL. rewrite HL.
    pose proof (remaining_new st st' n Hv Hnv Hsome). lia.
Qed.

Lemma visit_all_ok nbrs : forall st, beam_ok st -> (forall y, y ∈ nbrs -> is_Some (Nodes h !! y) -> P y) ->
  exists st', visit_all h target ef nbrs st = Ok st' /\ beam_ok st' /\ (remaining st' <= remaining st)%nat.
Proof using Hlen.
  induction nbrs as [|n nbrs IH]; intros st Hok HP; cbn [visit_all]; [by exists st|].
  destruct (visit_ok st n Hok) as (st1 & -> & Hok1 & Hle); [apply HP, list_elem_of_here|]. cbn [mbind res_bind].
  destruct (IH st1 Hok1) as (st2 & -> & Hok2 & Hle2); [intros y Hy; apply HP; by apply list_elem_of_further|]. exists st2. split; [done|]. split; [done|lia].
Qed.

(** The queue after the closest item was taken. *)
Lemma pop_ok st curr v : beam_ok st -> Pop MinLess (vQueue st) = Some (curr, v) ->
  vQueue st ≡ₚ curr :: v /\ item_ok st curr /\ beam_ok (mkBeam (visited st) v (wQueue st)) /\ (remaining (mkBeam (visited st) v (wQueue st)) < remaining st)%nat.
Proof.
  intros [B1 B2 B3 B4 B5] Hpop. destruct (Pop_spec MinLess (vQueue st)) as (x & rest & Hpop' & _ & HPm); [by intros E0; rewrite E0 in Hpop|].
  rewrite Hpop in Hpop'. injection Hpop' as <- <-. rewrite HPm in B3. apply Forall_cons in B3 as [Hc Hv].
  split; [done|]. split; [done|]. split; [by constructor|]. unfold remaining. cbn [vQueue visited]. rewrite (Permutation_length HPm). cbn. lia.
Qed.

Context (level : nat) (Hclosed : closed_on h level P).

Lemma beam_loop_ok fuel : forall st, beam_ok st -> (remaining st < fuel)%nat -> exists st', beam_loop fuel h target ef level st = Ok st' /\ beam_ok st'.
Proof using Hlen Hclosed.
  induction fuel as [|fuel IH]; intros st Hok Hf; [lia|]. cbn [beam_loop]. destruct (Pop MinLess (vQueue st)) as [[curr v]|] eqn:Hpop; [|by exists st].
  destruct (worst_ok st Hok) as (w & -> & _). cbn [mbind res_bind]. cbv zeta. destruct (pop_ok st curr v Hok Hpop) as (_ & Hc & Hok1 & Hr1).
  set (st1 := mkBeam (visited st) v (wQueue st)) in *. destruct (fless (Dist w) (Dist curr)); [by exists st1|].
  destruct (Nodes h !! di_ID curr) as [cn|] eqn:Hcn; cbn [mbind option_bind]; [|apply IH; [done|lia]].
  destruct (Neighbors cn !! level) as [nbrs|] eqn:Hnb; [|apply IH; [done|lia]].
  destruct (visit_all_ok nbrs st1 Hok1) as (st2 & -> & Hok2 & Hr2); [intros y; by apply (Hclosed (di_ID curr) cn nbrs); [apply Hc|..]|].
  cbn [mbind res_bind]. apply IH; [done|lia].
Qed.

Lemma start_ok entry n d : P entry -> Nodes h !! entry = Some n -> Distance (Metric h) target (Vec n) = Ok d ->
  let st := mkBeam {[entry]} (Push MinLess [] (mkItem entry d)) (Push MaxLess [] (mkItem entry d)) in beam_ok st /\ (remaining st < rounds h)%nat.
Proof using.
  intros HP Hn Hd st. assert (item_ok st (mkItem entry d)) as Hit by (split; [cbn [visited di_ID st]; by apply elem_of_singleton|split; [by exists n|done]]). split.
  - constructor; [done|by constructor..| |change (1 <= Z.max 1 ef); lia]. cbn. repeat constructor. apply not_elem_of_nil.
  - unfold remaining, rounds. subst st. cbn [vQueue visited]. change (length (Push MinLess [] (mkItem entry d))) with 1%nat.
    assert (dom (Nodes h) ∖ {[entry]} ∪ {[entry]} = dom (Nodes h)) as E.
    { apply set_eq. intros x. assert (entry ∈ dom (Nodes h)) by (apply elem_of_dom; by rewrite Hn).
      rewrite elem_of_union, elem_of_difference, elem_of_singleton. destruct (decide (x = entry)) as [->|]; tauto. }
    assert (size (Nodes h) = size (dom (Nodes h) ∖ {[entry]} ∪ {[entry]})) as HS by (rewrite E; symmetry; apply size_dom).
    rewrite (size_union (dom (Nodes h) ∖ {[entry]})), size_singleton in HS; [lia|]. intros x Hx1 Hx2. by apply elem_of_difference in Hx1 as [_ ?].
Qed.
End Beam.

(** All neighbours are nodes with [S]. *)
Definition mentions (S : bytes -> Prop) (h : HNSWIndex) : Prop :=
  forall id n l ns, Nodes h !! id = Some n -> Neighbors n !! l = Some ns -> forall y, y ∈ ns -> S y.

Lemma set_links_mentions S id l ns h h' n : Nodes h !! id = Some n -> Nodes h' = <[id := mkHNode (hn_ID n) (Vec n) (Level n) (<[l := ns]> (Neighbors n))]> (Nodes h) ->
  mentions S h -> (forall y, y ∈ ns -> S y) -> mentions S h'.
Proof.
  intros Hn E Hm Hns id' n' l' ms. rewrite E. destruct (decide (id' = id)) as [->|Hid].
  - rewrite lookup_insert_eq. intros [= <-]. cbn [Neighbors]. intros H. apply list_lookup_insert_Some in H as [(_ & <- & _)|[_ H]]; [done|by apply (Hm id n l')].
  - rewrite lookup_insert_ne by done. apply Hm.
Qed.

Lemma mentions_closed S l h : mentions S h -> closed_on h l (fun x => S x /\ is_Some (Nodes h !! x)).
Proof. intros Hm id n ns _ Hn Hns y Hy Hs. split; [by eapply Hm|done]. Qed.

Lemma dim_length h (vec : list float32) : nodes_ok h -> Z.of_nat (length vec) = Dimension h -> forall id n, Nodes h !! id = Some n -> (length vec <= length (Vec n))%nat.
Proof. intros Hok Hd id n Hn. destruct (Hok id n Hn) as (_ & H & _). lia. Qed.

Section Operations.
Context (sort_items : list DistItem -> list DistItem) (sort_perm : forall q, sort_items q ≡ₚ q).

Lemma searchLayer_spec h target entry ef level P : nodes_ok h -> Z.of_nat (length target) = Dimension h -> closed_on h level P -> P entry -> is_Some (Nodes h !! entry) ->
  exists cs, searchLayer sort_items h target entry ef level = Ok cs /\ cs <> [] /\ NoDup (di_ID <$> cs) /\
    Forall (fun it => located h target (di_ID it) (Dist it) /\ P (di_ID it)) cs /\ Z.of_nat (length cs) <= Z.max 1 ef.
Proof using sort_perm.
  intros Hok Hd Hcl HP [n Hn]. pose proof (dim_length h target Hok Hd) as Hlen. unfold searchLayer. rewrite Hn.
  destruct (locate h target Hlen entry n Hn) as (d & Hdist & _). rewrite Hdist. cbn [mbind res_bind]. cbv zeta.
  destruct (start_ok h target ef P entry n d HP Hn Hdist) as [Hst Hr].
  destruct (beam_loop_ok h target ef P Hlen level Hcl (rounds h) _ Hst Hr) as (st' & -> & [B1 B2 B3 B4 B5]). cbn [mbind res_bind].
  exists (sort_items (wQueue st')). pose proof (sort_perm (wQueue st')) as HPm. split; [done|]. split; [|split; [by rewrite HPm|split; [|by rewrite HPm]]].
  - intros E. rewrite E in HPm. apply Permutation_nil_l in HPm. done.
  - rewrite HPm. eapply list.Forall_impl; [exact B2|]. intros it (_ & H1 & H2). done.
Qed.

Lemma prune_pairs_spec h base neighbors : nodes_ok h -> Z.of_nat (length base) = Dimension h ->
  exists pairs, prune_pairs h base neighbors = Ok pairs /\ Forall (fun it => di_ID it ∈ neighbors) pairs.
Proof.
  intros Hok Hd. pose proof (dim_length h base Hok Hd) as Hlen. induction neighbors as [|nid ns IH]; cbn [prune_pairs]; [by exists []|].
  destruct IH as (pairs & E & HF). assert (Forall (fun it => di_ID it ∈ nid :: ns) pairs) as HF'.
  { eapply list.Forall_impl; [exact HF|]. intros it. apply list_elem_of_further. }
  destruct (Nodes h !! nid) as [node|] eqn:Hn; [|by exists pairs]. destruct (locate h base Hlen nid node Hn) as (d & -> & _). cbn [mbind res_bind].
  rewrite E. cbn [mbind res_bind]. eexists. split; [done|]. constructor; [apply list_elem_of_here|done].
Qed.

Lemma pruneNeighbors_spec h base neighbors m : nodes_ok h -> Z.of_nat (length base) = Dimension h -> 0 <= m ->
  exists ns, pruneNeighbors sort_items h base neighbors m = Ok ns /\ Z.of_nat (length ns) <= m /\ forall y, y ∈ ns -> y ∈ neighbors.
Proof using sort_perm.
  intros Hok Hd Hm. unfold pruneNeighbors. destruct (prune_pairs_spec h base neighbors Hok Hd) as (pairs & -> & HF). cbn [mbind res_bind]. cbv zeta.
  rewrite <- (sort_perm pairs) in HF. set (ps := sort_items pairs) in *. clearbody ps. eexists. split; [done|].
  assert (forall k y, y ∈ di_ID <$> take k ps -> y ∈ neighbors) as Hin.
  { intros k y (it & -> & Hit)%list_elem_of_fmap. rewrite list.Forall_forall in HF. apply HF. rewrite <- (take_drop k ps). apply elem_of_app. by left. }
  destruct (Z.ltb_spec m (Z.of_nat (length ps))); split.
  - rewrite length_fmap, length_take. lia.
  - apply Hin.
  - rewrite length_fmap. lia.
  - intros y. rewrite <- (take_ge ps (length ps)) by lia. apply Hin.
Qed.

Lemma maxConn_pos h l : M h = DefaultM -> M0 h = DefaultM0 -> 0 < maxConn h l <= 32.
Proof. intros H1 H2. unfold maxConn. rewrite H1, H2. unfold DefaultM, DefaultM0. case_decide; lia. Qed.

(** What linking keeps: the shape of the graph, the bounds and the range of the links. *)
Definition keeps (S : bytes -> Prop) (h h' : HNSWIndex) : Prop := rewired h h' /\ capped h' /\ mentions S h'.

Lemma link_back_ok S id l h it : nodes_ok h -> M h = DefaultM -> M0 h = DefaultM0 -> capped h -> mentions S h -> S id -> exists h', link_back sort_items id l h it = Ok h' /\ keeps S h h'.
Proof using sort_perm.
  intros Hok HM HM0 Hc Hm HS. unfold link_back. destruct (Nodes h !! di_ID it) as [nbr|] eqn:Hn; cbn [mbind option_bind]; [|by exists h; split; [|split; [apply rewired_refl|]]].
  destruct (Neighbors nbr !! l) as [ns|] eqn:Hns; cbn [mbind option_bind]; [|by exists h; split; [|split; [apply rewired_refl|]]].
  pose proof (lookup_lt_Some _ _ _ Hns) as Hl. destruct (set_links_spec (di_ID it) l (ns ++ [id]) h nbr Hn Hl) as (h1 & -> & Hr1 & E1). cbn [mbind res_bind]. cbv zeta.
  assert (mentions S h1) as Hm1.
  { eapply (set_links_mentions S _ _ _ h h1); [done..|]. intros y [Hy| ->%list_elem_of_singleton]%elem_of_app; [by apply (Hm (di_ID it) nbr l ns)|done]. }
  pose proof (set_links_but _ _ _ h h1 nbr Hn E1 Hr1 (capped_weaken _ _ _ Hc)) as Hb1. rewrite (rewired_maxConn h h1 l Hr1).
  destruct (Z.ltb_spec (maxConn h l) (Z.of_nat (length (ns ++ [id])))) as [Hlt|Hge].
  - destruct (Hok _ _ Hn) as (_ & Hv & _ & _). pose proof (rewired_nodes_ok h h1 Hr1 Hok) as Hok1.
    destruct (pruneNeighbors_spec h1 (Vec nbr) (ns ++ [id]) (maxConn h l) Hok1) as (ns2 & -> & Hlen2 & Hin2); [by rewrite (rw_dim _ _ Hr1)|pose proof (maxConn_pos h l HM HM0); lia|].
    cbn [mbind res_bind]. assert (Nodes h1 !! di_ID it = Some (mkHNode (hn_ID nbr) (Vec nbr) (Level nbr) (<[l := ns ++ [id]]> (Neighbors nbr)))) as Hn1 by (rewrite E1; apply lookup_insert_eq).
    destruct (set_links_spec (di_ID it) l ns2 h1 _ Hn1) as (h2 & -> & Hr2 & E2); [cbn [Neighbors]; by rewrite length_insert|]. exists h2. split; [done|].
    split; [by eapply rewired_trans|]. split.
    + eapply (set_links_capped _ _ _ h1 h2 _ Hn1 E2 Hr2 Hb1). by rewrite (rewired_maxConn h h1 l Hr1).
    + eapply (set_links_mentions S _ _ _ h1 h2 _ Hn1 E2 Hm1). intros y Hy. apply Hin2 in Hy.
      apply elem_of_app in Hy as [Hy| ->%list_elem_of_singleton]; [by apply (Hm (di_ID it) nbr l ns)|done].
  - exists h1. split; [done|]. split; [done|]. split; [|done]. eapply (set_links_capped _ _ _ h h1 nbr Hn E1 Hr1); [by apply capped_weaken|done].
Qed.

Lemma keeps_refl S h : capped h -> mentions S h -> keeps S h h.
Proof. intros. split; [apply rewired_refl|done]. Qed.

Lemma keeps_trans S h1 h2 h3 : rewired h1 h2 -> keeps S h2 h3 -> keeps S h1 h3.
Proof. intros H1 (H2 & H). split; [by eapply rewired_trans|done]. Qed.

Lemma link_all_ok S id l selected : forall h, nodes_ok h -> M h = DefaultM -> M0 h = DefaultM0 -> capped h -> mentions S h -> S id -> exists h', link_all sort_items id l selected h = Ok h' /\ keeps S h h'.
Proof using sort_perm.
  induction selected as [|it sel IH]; intros h Hok HM HM0 Hc Hm HS; cbn [link_all]; [exists h; split; [done|by apply keeps_refl]|].
  destruct (link_back_ok S id l h it) as (h1 & -> & Hr1 & Hc1 & Hm1); [done..|]. cbn [mbind res_bind].
  destruct (IH h1) as (h2 & -> & Hk); [by eapply rewired_nodes_ok|by rewrite (rw_M _ _ Hr1)|by rewrite (rw_M0 _ _ Hr1)|done..|]. exists h2. split; [done|by eapply keeps_trans].
Qed.

Lemma select_spec cs m : 0 <= m -> Z.of_nat (length (selectNeighbors cs m)) <= m /\ selectNeighbors cs m `prefix_of` cs.
Proof.
  intros Hm. unfold selectNeighbors. destruct (Z.leb_spec (Z.of_nat (length cs)) m); [done|]. rewrite length_take. split; [lia|]. apply prefix_take.
Qed.

Lemma insert_layer_ok S id vec l h curr n : nodes_ok h -> M h = DefaultM -> M0 h = DefaultM0 -> capped h -> mentions S h -> S id ->
  Z.of_nat (length vec) = Dimension h -> Nodes h !! id = Some n -> (l < length (Neighbors n))%nat -> is_Some (Nodes h !! curr) -> S curr ->
  exists h' curr', insert_layer sort_items id vec l h curr = Ok (h', curr') /\ keeps S h h' /\ is_Some (Nodes h' !! curr') /\ S curr'.
Proof using sort_perm.
  intros Hok HM HM0 Hc Hm HS Hd Hn Hl Hcurr HSc. unfold insert_layer.
  destruct (searchLayer_spec h vec curr (EFConstruction h) l (fun x => S x /\ is_Some (Nodes h !! x)) Hok Hd) as (cs & -> & Hne & _ & HF & _); [by apply mentions_closed|done..|].
  cbn [mbind res_bind]. cbv zeta. pose proof (maxConn_pos h l HM HM0) as Hpos. destruct (select_spec cs (maxConn h l) ltac:(lia)) as [Hlen Hpre]. set (sel := selectNeighbors cs (maxConn h l)) in *. clearbody sel.
  rewrite list.Forall_forall in HF.
  destruct (set_links_spec id l (di_ID <$> sel) h n Hn Hl) as (h1 & -> & Hr1 & E1). cbn [mbind res_bind].
  destruct (link_all_ok S id l sel h1) as (h2 & -> & Hr2 & Hc2 & Hm2); [by eapply rewired_nodes_ok|by rewrite (rw_M _ _ Hr1)|by rewrite (rw_M0 _ _ Hr1)| | |done|].
  { eapply (set_links_capped id l _ h h1 n Hn E1 Hr1); [by apply capped_weaken|by rewrite length_fmap]. }
  { eapply (set_links_mentions S id l _ h h1 n Hn E1 Hm). intros y (it & -> & Hit)%list_elem_of_fmap. destruct Hpre as [k ->]. apply (HF it). apply elem_of_app. by left. }
  cbn [mbind res_bind]. pose proof (rewired_trans _ _ _ Hr1 Hr2) as Hr. destruct cs as [|c cs]; [done|]. eexists _, _. split; [done|]. split; [done|].
  destruct (HF c (list_elem_of_here _ _)) as (_ & HSc' & [nc Hnc]). split; [|done]. destruct (rewired_Some h h2 _ nc Hr Hnc) as (nc' & -> & _). done.
Qed.

Lemma insert_layers_ok S id vec ls : forall h curr n, nodes_ok h -> M h = DefaultM -> M0 h = DefaultM0 -> capped h -> mentions S h -> S id ->
  Z.of_nat (length vec) = Dimension h -> Nodes h !! id = Some n -> Forall (fun l => l < length (Neighbors n))%nat ls -> is_Some (Nodes h !! curr) -> S curr ->
  exists h', insert_layers sort_items id vec ls h curr = Ok h' /\ keeps S h h'.
Proof using sort_perm.
  induction ls as [|l ls IH]; intros h curr n Hok HM HM0 Hc Hm HS Hd Hn Hls Hcurr HSc; cbn [insert_layers]; [exists h; split; [done|by apply keeps_refl]|].
  apply Forall_cons in Hls as [Hl Hls].
  destruct (insert_layer_ok S id vec l h curr n) as (h1 & c1 & -> & (Hr1 & Hc1 & Hm1) & Hcurr1 & HSc1); [done..|]. cbn [mbind res_bind].
  destruct (rewired_Some h h1 id n Hr1 Hn) as (n1 & Hn1 & Hsh). assert (length (Neighbors n1) = length (Neighbors n)) as El by (unfold shape in Hsh; congruence).
  destruct (IH h1 c1 n1) as (h2 & -> & Hk2); try done; [by eapply rewired_nodes_ok|by rewrite (rw_M _ _ Hr1)|by rewrite (rw_M0 _ _ Hr1)|by rewrite (rw_dim _ _ Hr1)|by rewrite El|].
  exists h2. split; [done|by eapply keeps_trans].
Qed.

Lemma mentions_any h : mentions (fun _ => True) h.
Proof. done. Qed.

Lemma layers_below hi l : l ∈ layers hi (-1) -> Z.of_nat l <= hi.
Proof. unfold layers. intros H%list_elem_of_In%in_rev%list_elem_of_In. apply elem_of_seq in H. lia. Qed.

(** A graph with a new node that has no links yet. *)
Definition fresh_node (id : bytes) (vec : list float32) (lvl : Z) : HNSWNode := mkHNode id vec lvl (replicate (Z.to_nat (lvl + 1)) []).
Definition with_node (id : bytes) (vec : list float32) (lvl : Z) (h : HNSWIndex) : HNSWIndex :=
  set_nodes (<[id := fresh_node id vec lvl]> (Nodes h)) (set_dimension (Z.of_nat (length vec)) h).

Lemma fresh_links id vec lvl l ns : Neighbors (fresh_node id vec lvl) !! l = Some ns -> ns = [].
Proof. cbn [Neighbors fresh_node]. by intros [-> _]%lookup_replicate. Qed.

Lemma with_node_ok id vec lvl h : graph_ok h -> Nodes h !! id = None -> 0 <= lvl <= MaxGraphLevel -> Dimension h = 0 \/ Z.of_nat (length vec) = Dimension h ->
  nodes_ok (with_node id vec lvl h) /\ capped (with_node id vec lvl h).
Proof.
  intros Hg Hid Hlvl Hd. split.
  - intros x n. cbn [with_node Nodes set_nodes]. destruct (decide (x = id)) as [->|Hx].
    + rewrite lookup_insert_eq. intros [= <-]. split; [done|]. split; [done|]. split; [done|]. cbn [Neighbors Level fresh_node]. rewrite length_replicate. lia.
    + rewrite lookup_insert_ne by done. intros Hn. destruct (g_nodes h Hg x n Hn) as (H1 & H2 & H3 & H4). split; [done|]. split; [|done].
      cbn [Dimension set_nodes set_dimension with_node]. destruct Hd as [Hd|Hd]; [|lia]. destruct (g_dim h Hg) as [_ He]. rewrite (He Hd), lookup_empty in Hn. done.
  - intros x n l ns. change (maxConn (with_node id vec lvl h) l) with (maxConn h l). cbn [with_node Nodes set_nodes]. destruct (decide (x = id)) as [->|Hx].
    + rewrite lookup_insert_eq. intros [= <-] ->%fresh_links. destruct (g_params h Hg) as (H1 & H2 & _). pose proof (maxConn_pos h l H1 H2). cbn. lia.
    + rewrite lookup_insert_ne by done. apply (g_capped h Hg).
Qed.

Lemma with_node_vectors id vec lvl h : vectors (with_node id vec lvl h) = <[id := vec]> (vectors h).
Proof. unfold vectors. cbn [with_node Nodes set_nodes]. by rewrite fmap_insert. Qed.

(** The entry point after an insertion. *)
Definition settle (id : bytes) (lvl : Z) (h : HNSWIndex) : HNSWIndex := if MaxLevel h <? lvl then set_entry id lvl h else h.

Lemma settle_ok id vec lvl h h' : graph_ok h -> Nodes h !! id = None -> EntryPoint h <> [] -> id <> [] -> vec <> [] -> rewired (with_node id vec lvl h) h' -> nodes_ok h' -> capped h' ->
  graph_ok (settle id lvl h').
Proof.
  intros Hg Hid He Hne Hvec Hr Hok Hc. assert (exists n', Nodes h' !! id = Some n' /\ Level n' = lvl) as (n' & Hn' & Hlv).
  { destruct (rewired_Some _ _ id (fresh_node id vec lvl) Hr) as (n' & Hn' & Hsh); [cbn [with_node Nodes set_nodes]; apply lookup_insert_eq|]. exists n'. split; [done|]. unfold shape in Hsh. cbn in Hsh. congruence. }
  assert (forall x m, Nodes h' !! x = Some m -> x = id /\ Level m = lvl \/ exists m0, Nodes h !! x = Some m0 /\ Level m = Level m0) as Hold.
  { intros x m Hm. destruct (rewired_Some_inv _ _ x m Hr Hm) as (m0 & Hm0 & Hsh). cbn [with_node Nodes set_nodes] in Hm0. assert (Level m = Level m0) as El by (unfold shape in Hsh; congruence).
    destruct (decide (x = id)) as [->|Hx]; [rewrite lookup_insert_eq in Hm0; injection Hm0 as <-; left; by rewrite El|]. rewrite lookup_insert_ne in Hm0 by done. right. by exists m0. }
  assert (Nodes h' !! [] = None) as Hnamed.
  { apply (rewired_None _ _ [] Hr). cbn [with_node Nodes set_nodes]. rewrite lookup_insert_ne by done. apply (g_named h Hg). }
  assert (MaxLevel h' = MaxLevel h) as Emax by (rewrite (rw_max _ _ Hr); done). assert (EntryPoint h' = EntryPoint h) as Eent by (rewrite (rw_entry _ _ Hr); done).
  destruct (proj2 (g_entry h Hg) He) as (e & Hent & Hlev & Hall). destruct (g_params h Hg) as (P1 & P2 & P3 & P4).
  assert (M h' = DefaultM /\ M0 h' = DefaultM0 /\ EFConstruction h' = DefaultEFConstruction /\ EFSearch h' = DefaultEFSearch) as HP.
  { rewrite (rw_M _ _ Hr), (rw_M0 _ _ Hr), (rw_efc _ _ Hr), (rw_efs _ _ Hr). done. }
  assert (0 <= Dimension h' /\ (Dimension h' = 0 -> Nodes h' = ∅)) as HD.
  { rewrite (rw_dim _ _ Hr). cbn [with_node Dimension set_nodes set_dimension]. destruct vec; [done|]. cbn. lia. }
  unfold settle. rewrite Emax. destruct (Z.ltb_spec (MaxLevel h) lvl) as [Hlt|Hge]; constructor; try done.
  - split; [done|]. intros _. exists n'. cbn [Nodes set_entry EntryPoint MaxLevel]. split; [done|]. split; [done|]. intros x m Hm.
    destruct (Hold x m Hm) as [[_ ->]|(m0 & Hm0 & ->)]; [lia|]. specialize (Hall x m0 Hm0). lia.
  - unfold entry_ok. rewrite Eent, Emax. split; [done|]. intros _. destruct (rewired_Some _ _ (EntryPoint h) e Hr) as (e' & He' & Hsh).
    { cbn [with_node Nodes set_nodes]. rewrite lookup_insert_ne; [done|]. intros ->. congruence. }
    exists e'. split; [done|]. split; [unfold shape in Hsh; congruence|]. intros x m Hm. destruct (Hold x m Hm) as [[_ ->]|(m0 & Hm0 & ->)]; [lia|]. by apply (Hall x).
Qed.

Definition top_layer (h : HNSWIndex) (lvl : Z) : Z := if MaxLevel h <? lvl then MaxLevel h else lvl.

(** The vectors an index takes. *)
Definition fits (h : HNSWIndex) (vec : list float32) : Prop := Dimension h = 0 \/ Z.of_nat (length vec) = Dimension h.

Lemma Insert_new id vec lvl h : 0 <= Dimension h -> fits h vec -> Nodes h !! id = None -> 0 <= lvl ->
  Insert sort_items id vec lvl h =
    let L := randomLevel lvl in
    let h := with_node id vec L h in
    if decide (EntryPoint h = []) then Ok (set_entry id L h, None)
    else
      match Nodes h !! EntryPoint h with
      | None => Err (Fault PanicNil)
      | Some ep =>
          currDist ← Distance (Metric h) vec (Vec ep);
          '(curr, _) ← greedy h vec (layers (MaxLevel h) L) (EntryPoint h) currDist;
          h ← insert_layers sort_items id vec (layers (top_layer h L) (-1)) h curr;
          Ok (settle id L h, None)
      end.
Proof.
  intros H0 Hd Hid Hlvl. unfold Insert.
  assert ((0 <? Dimension h) && negb (Z.of_nat (length vec) =? Dimension h) = false) as ->.
  { destruct Hd as [->| ->]; [done|]. rewrite Z.eqb_refl, andb_false_r. done. }
  assert ((if Dimension h =? 0 then set_dimension (Z.of_nat (length vec)) h else h) = set_dimension (Z.of_nat (length vec)) h) as ->.
  { destruct (Z.eqb_spec (Dimension h) 0); [done|]. destruct Hd as [?|Hd]; [done|]. rewrite Hd. by destruct h. }
  cbv zeta. change (Nodes (set_dimension (Z.of_nat (length vec)) h)) with (Nodes h). rewrite Hid.
  assert (0 <= randomLevel lvl) as HL by (unfold randomLevel, MaxGraphLevel; case_match; lia). rewrite (proj2 (Z.ltb_ge _ 0)) by lia. reflexivity.
Qed.

Lemma randomLevel_range lvl : 0 <= lvl -> 0 <= randomLevel lvl <= MaxGraphLevel.
Proof. intros H. unfold randomLevel, MaxGraphLevel. destruct (Z.ltb_spec 16 lvl); lia. Qed.

(** A new vector: the node is added, linked on its layers, and made the entry point
    where it is the highest. *)
Lemma insert_new_ok id vec lvl h : graph_ok h -> id <> [] -> vec <> [] -> 0 <= lvl -> fits h vec -> Nodes h !! id = None ->
  exists h', Insert sort_items id vec lvl h = Ok (h', None) /\ graph_ok h' /\ vectors h' = <[id := vec]> (vectors h) /\ Dimension h' = Z.of_nat (length vec) /\ Metric h' = Metric h.
Proof using sort_perm.
  intros Hg Hne Hvec Hlvl Hd Hid. rewrite Insert_new by (try done; apply (g_dim h Hg)). cbv zeta. pose proof (randomLevel_range lvl Hlvl) as HL.
  set (L := randomLevel lvl) in *. clearbody L. destruct (with_node_ok id vec L h Hg Hid HL Hd) as [Hok Hc]. destruct (g_params h Hg) as (P1 & P2 & P3 & P4).
  change (EntryPoint (with_node id vec L h)) with (EntryPoint h). change (MaxLevel (with_node id vec L h)) with (MaxLevel h). case_decide as He.
  - eexists. split; [done|]. split; [|split; [apply with_node_vectors|done]]. pose proof (proj1 (g_entry h Hg) He) as Hempty. constructor; try done.
    + cbn. destruct vec; [done|]. cbn. lia.
    + cbn [Nodes set_entry with_node set_nodes]. rewrite lookup_insert_ne by done. by rewrite Hempty.
    + split; [done|]. intros _. exists (fresh_node id vec L). cbn [Nodes set_entry EntryPoint MaxLevel with_node set_nodes set_dimension]. rewrite Hempty. split; [apply lookup_insert_eq|]. split; [done|].
      intros x n. destruct (decide (x = id)) as [->|Hx]; [rewrite lookup_insert_eq|rewrite lookup_insert_ne by done]; [|done]. intros [= <-]. done.
  - set (h2 := with_node id vec L h) in *. destruct (proj2 (g_entry h Hg) He) as (e & Hent & Hlev & Hall).
    assert (Nodes h2 !! EntryPoint h = Some e) as Hent2 by (cbn [h2 with_node Nodes set_nodes]; rewrite lookup_insert_ne; [done|]; intros ->; congruence). rewrite Hent2.
    assert (Z.of_nat (length vec) = Dimension h2) as Hd2 by reflexivity. pose proof (dim_length h2 vec Hok Hd2) as Hlen2.
    destruct (locate h2 vec Hlen2 _ _ Hent2) as (d & -> & Hloc). cbn [mbind res_bind].
    destruct (greedy_spec h2 vec Hlen2 (layers (MaxLevel h) L) (fun x => is_Some (Nodes h2 !! x)) (EntryPoint h) d) as (c & d' & -> & Hcs & _); [by intros l _ x n ns _ _ _ y _|by rewrite Hent2|done|]. cbn [mbind res_bind].
    destruct (insert_layers_ok (fun _ => True) id vec (layers (top_layer h2 L) (-1)) h2 c (fresh_node id vec L)) as (h3 & -> & Hr & Hc3 & _); try done.
    + cbn [h2 with_node Nodes set_nodes]. apply lookup_insert_eq.
    + rewrite list.Forall_forall. intros l Hl%layers_below. cbn [Neighbors fresh_node]. rewrite length_replicate. unfold top_layer in Hl. change (MaxLevel h2) with (MaxLevel h) in Hl. destruct (Z.ltb_spec (MaxLevel h) L); lia.
    + cbn [mbind res_bind]. eexists. split; [done|]. split; [eapply (settle_ok id vec L h h3); try done; by eapply rewired_nodes_ok|].
      assert (forall (x : HNSWIndex), vectors (settle id L x) = vectors x /\ Dimension (settle id L x) = Dimension x /\ Metric (settle id L x) = Metric x) as Hset by (intros x; unfold settle; by case_match).
      destruct (Hset h3) as (-> & -> & ->). rewrite (rewired_vectors _ _ Hr), (rw_dim _ _ Hr), (rw_metric _ _ Hr). split; [apply with_node_vectors|done].
Qed.

(** A vector of a node that exists. *)
Lemma insert_old_ok id vec lvl h n : graph_ok h -> vec <> [] -> fits h vec -> Nodes h !! id = Some n ->
  exists h', Insert sort_items id vec lvl h = Ok (h', None) /\ graph_ok h' /\ vectors h' = <[id := vec]> (vectors h) /\ Dimension h' = Z.of_nat (length vec) /\ Metric h' = Metric h /\
    Nodes h' = <[id := set_vec vec n]> (Nodes h) /\ EntryPoint h' = EntryPoint h /\ MaxLevel h' = MaxLevel h.
Proof.
  intros Hg Hvec Hd Hn. assert (Dimension h <> 0) as Hdim.
  { intros E0. destruct (g_dim h Hg) as [_ He]. rewrite (He E0), lookup_empty in Hn. done. }
  destruct Hd as [?|Hd]; [done|]. unfold Insert. rewrite Hd, Z.eqb_refl, andb_false_r. destruct (Z.eqb_spec (Dimension h) 0) as [?|_]; [done|]. cbv zeta. rewrite Hn.
  eexists. split; [done|]. split; [|split; [unfold vectors; cbn [Nodes set_nodes]; by rewrite fmap_insert|]; split; [by symmetry|done]].
  destruct (g_nodes h Hg id n Hn) as (N1 & N2 & N3 & N4). constructor.
  - apply (g_params h Hg).
  - cbn [Dimension set_nodes]. split; [apply (g_dim h Hg)|done].
  - intros x m. cbn [Nodes set_nodes]. destruct (decide (x = id)) as [->|Hx]; [rewrite lookup_insert_eq; intros [= <-]; done|rewrite lookup_insert_ne by done; apply (g_nodes h Hg)].
  - intros x m l ns. cbn [Nodes set_nodes]. destruct (decide (x = id)) as [->|Hx]; [rewrite lookup_insert_eq; intros [= <-]; exact (g_capped h Hg id n l ns Hn)|rewrite lookup_insert_ne by done; exact (g_capped h Hg x m l ns)].
  - cbn [Nodes set_nodes]. rewrite lookup_insert_ne; [apply (g_named h Hg)|]. intros ->. rewrite (g_named h Hg) in Hn. done.
  - destruct (g_entry h Hg) as [E1 E2]. split; cbn [EntryPoint Nodes set_nodes MaxLevel]; [intros He; rewrite (E1 He), lookup_empty in Hn; done|].
    intros He. destruct (E2 He) as (e & Hent & Hlev & Hall). assert (forall x m, <[id := set_vec vec n]> (Nodes h) !! x = Some m -> Level m <= MaxLevel h) as HA.
    { intros x m. destruct (decide (x = id)) as [->|Hx]; [rewrite lookup_insert_eq; intros [= <-]; exact (Hall id n Hn)|rewrite lookup_insert_ne by done; apply Hall]. }
    destruct (decide (EntryPoint h = id)) as [Eid|Eid]; [exists (set_vec vec n); rewrite Eid, lookup_insert_eq; split; [done|]; split; [|done]; cbn; congruence|].
    exists e. rewrite lookup_insert_ne by done. done.
Qed.

Lemma Insert_mismatch id vec lvl h : 0 <= Dimension h -> ~ fits h vec -> Insert sort_items id vec lvl h = Ok (h, Some ErrDimensionMismatch).
Proof.
  intros H0 Hd. unfold Insert, fits in *. rewrite (proj2 (Z.ltb_lt 0 (Dimension h))) by lia. rewrite (proj2 (Z.eqb_neq _ _)) by lia. done.
Qed.
End Operations.

(** ** Deletion *)

Lemma unlink_keeps id l h x : capped h -> rewired h (unlink id l h x) /\ capped (unlink id l h x).
Proof.
  intros Hc. unfold unlink. destruct (Nodes h !! x) as [nbr|] eqn:Hn; [|split; [apply rewired_refl|done]]. destruct (Neighbors nbr !! l) as [ns|] eqn:Hns; [|split; [apply rewired_refl|done]].
  destruct (set_links_spec x l (filter (fun item => item <> id) ns) h nbr Hn (lookup_lt_Some _ _ _ Hns)) as (h' & E & Hr & EN).
  unfold set_links in E. rewrite Hn, decide_True in E by (by eapply lookup_lt_Some). injection E as ->. split; [done|].
  eapply (set_links_capped x l _ h h' nbr Hn EN Hr); [by apply capped_weaken|]. etransitivity; [|exact (Hc x nbr l ns Hn Hns)]. apply Nat2Z.inj_le, length_filter.
Qed.

Lemma unlink_fold id l xs : forall h, capped h -> rewired h (foldl (unlink id l) h xs) /\ capped (foldl (unlink id l) h xs).
Proof.
  induction xs as [|x xs IH]; intros h Hc; cbn [foldl]; [split; [apply rewired_refl|done]|]. destruct (unlink_keeps id l h x Hc) as [Hr1 Hc1].
  destruct (IH _ Hc1) as [Hr2 Hc2]. split; [by eapply rewired_trans|done].
Qed.

Lemma unlink_layers_ok id ls : forall h n, capped h -> Nodes h !! id = Some n -> Forall (fun l => l < length (Neighbors n))%nat ls ->
  exists h', unlink_layers id ls h = Ok h' /\ rewired h h' /\ capped h'.
Proof.
  induction ls as [|l ls IH]; intros h n Hc Hn Hls; cbn [unlink_layers]; [exists h; split; [done|]; split; [apply rewired_refl|done]|].
  apply Forall_cons in Hls as [Hl Hls]. rewrite Hn. cbn [mbind option_bind]. destruct (lookup_lt_is_Some_2 _ _ Hl) as [ns Hns]. rewrite Hns.
  destruct (unlink_fold id l ns h Hc) as [Hr1 Hc1]. destruct (rewired_Some _ _ id n Hr1 Hn) as (n1 & Hn1 & Hsh).
  destruct (IH _ n1 Hc1 Hn1) as (h' & E & Hr2 & Hc2); [by assert (length (Neighbors n1) = length (Neighbors n)) as -> by (unfold shape in Hsh; congruence)|].
  exists h'. split; [done|]. split; [by eapply rewired_trans|done].
Qed.

(** The choice of a new entry point. *)
Definition chosen (h : HNSWIndex) (seen : list bytes) (st : bytes * Z) : Prop :=
  (forall x n, x ∈ seen -> Nodes h !! x = Some n -> Level n <= st.2) /\
  (st = ([], -1) \/ exists n, Nodes h !! st.1 = Some n /\ Level n = st.2).

Lemma best_entry_fold h order : forall seen st, chosen h seen st -> chosen h (seen ++ order) (foldl (best_entry h) st order).
Proof.
  induction order as [|x order IH]; intros seen st Hst; cbn [foldl]; [by rewrite app_nil_r|]. rewrite (assoc_L (++) seen [x] order : seen ++ x :: order = (seen ++ [x]) ++ order). apply IH.
  destruct Hst as [H1 H2]. unfold best_entry. destruct (Nodes h !! x) as [n|] eqn:Hn.
  - destruct (Z.ltb_spec st.2 (Level n)) as [Hlt|Hge]; split; cbn [fst snd].
    + intros y m [Hy| ->%list_elem_of_singleton]%elem_of_app Hm; [specialize (H1 y m Hy Hm); lia|]. rewrite Hn in Hm. injection Hm as <-. lia.
    + right. by exists n.
    + intros y m [Hy| ->%list_elem_of_singleton]%elem_of_app Hm; [by apply (H1 y)|]. rewrite Hn in Hm. injection Hm as <-. lia.
    + done.
  - split; [|done]. intros y m [Hy| ->%list_elem_of_singleton]%elem_of_app Hm; [by apply (H1 y)|congruence].
Qed.

(** Deleting a vector: it is gone, the others stay, and the graph has a valid entry
    point again, whatever the order of the range over the remaining nodes. *)
Lemma Delete_ok order id h : graph_ok h -> (forall x, x ∈ order <-> is_Some (delete id (Nodes h) !! x)) ->
  exists h' b, Delete order id h = Ok (h', b) /\ graph_ok h' /\ vectors h' = delete id (vectors h) /\ (b = true <-> is_Some (Nodes h !! id)) /\
    Dimension h' = Dimension h /\ Metric h' = Metric h.
Proof.
  intros Hg Hord. unfold Delete. destruct (Nodes h !! id) as [node|] eqn:Hn.
  2:{ exists h, false. split; [done|]. split; [done|]. split; [|split; [split; [done|by intros []]|done]]. unfold vectors. rewrite delete_id; [done|]. by rewrite lookup_fmap, Hn. }
  destruct (g_nodes h Hg id node Hn) as (N1 & N2 & N3 & N4).
  destruct (unlink_layers_ok id (seq 0 (Z.to_nat (Level node + 1))) h node (g_capped h Hg) Hn) as (h1 & -> & Hr & Hc1).
  { rewrite list.Forall_forall. intros l Hl%elem_of_seq. lia. }
  cbn [mbind res_bind]. set (h2 := set_nodes (delete id (Nodes h1)) h1).
  pose proof (rewired_nodes_ok h h1 Hr (g_nodes h Hg)) as Hok1. destruct (g_params h Hg) as (P1 & P2 & P3 & P4).
  assert (vectors h2 = delete id (vectors h)) as HV by (unfold vectors, h2; cbn [Nodes set_nodes]; rewrite fmap_delete; f_equal; apply (rewired_vectors h h1 Hr)).
  assert (forall e lvl, entry_ok (set_entry e lvl h2) -> graph_ok (set_entry e lvl h2)) as Hgraph.
  { intros e lvl He. constructor; cbn [M M0 EFConstruction EFSearch Dimension Nodes set_entry h2 set_nodes].
    - by rewrite (rw_M _ _ Hr), (rw_M0 _ _ Hr), (rw_efc _ _ Hr), (rw_efs _ _ Hr).
    - rewrite (rw_dim _ _ Hr). split; [apply (g_dim h Hg)|]. intros E0. destruct (g_dim h Hg) as [_ He0]. rewrite (He0 E0) in Hn. done.
    - intros x m Hm. change (delete id (Nodes h1) !! x = Some m) in Hm. apply lookup_delete_Some in Hm as [Hx Hm]. apply (Hok1 x m Hm).
    - intros x m l ns Hm. change (delete id (Nodes h1) !! x = Some m) in Hm. apply lookup_delete_Some in Hm as [Hx Hm]. apply (Hc1 x m l ns Hm).
    - apply lookup_delete_None. right. apply (rewired_None h h1 [] Hr), (g_named h Hg).
    - done. }
  assert (forall x m, Nodes h2 !! x = Some m -> 0 <= Level m /\ x <> []) as Hlev.
  { intros x m Hm. cbn [h2 Nodes set_nodes] in Hm. apply lookup_delete_Some in Hm as [_ Hm]. destruct (Hok1 x m Hm) as (_ & _ & H & _). split; [lia|]. intros ->.
    rewrite (rewired_None h h1 [] Hr (g_named h Hg)) in Hm. done. }
  case_decide as He.
  - pose proof (best_entry_fold h2 order [] ([], -1)) as Hch. destruct (foldl (best_entry h2) ([], -1) order) as [e lvl]. cbn [app] in Hch.
    destruct Hch as [H1 H2]; [split; [intros x n Hx; by apply not_elem_of_nil in Hx|by left]|]. exists (set_entry e lvl h2), true. split; [done|].
    split; [|split; [exact HV|split; [done|split; [apply (rw_dim _ _ Hr)|apply (rw_metric _ _ Hr)]]]].
    assert (forall x m, Nodes h2 !! x = Some m -> x ∈ order) as Hin.
    { intros x m Hm. apply Hord. cbn [h2 Nodes set_nodes] in Hm. apply lookup_delete_Some in Hm as [Hx Hm]. rewrite lookup_delete_ne by done. destruct (rewired_Some_inv _ _ x m Hr Hm) as (m0 & -> & _). done. }
    apply Hgraph. destruct H2 as [[= -> ->]|(n & H3 & H4)]; cbn [fst snd] in *.
    + split; [|done]. intros _. cbn [Nodes set_entry]. apply map_eq. intros x. rewrite lookup_empty. destruct (Nodes h2 !! x) as [m|] eqn:Hm; [|done].
      pose proof (H1 x m (Hin x m Hm) Hm). destruct (Hlev x m Hm). lia.
    + split; cbn [EntryPoint Nodes set_entry MaxLevel]; [intros ->; by destruct (Hlev [] n H3)|]. intros _. exists n. split; [done|]. split; [done|]. intros x m Hm. by apply (H1 x m (Hin x m Hm)).
  - exists h2, true. split; [done|]. split; [|split; [exact HV|split; [done|split; [apply (rw_dim _ _ Hr)|apply (rw_metric _ _ Hr)]]]].
    assert (h2 = set_entry (EntryPoint h1) (MaxLevel h1) h2) as -> by reflexivity. apply Hgraph.
    change (EntryPoint h2) with (EntryPoint h1) in He. rewrite (rw_entry _ _ Hr) in *. rewrite (rw_max _ _ Hr). destruct (g_entry h Hg) as [E1 E2].
    split; cbn [EntryPoint Nodes set_entry MaxLevel]; [intros E0; rewrite (E1 E0), lookup_empty in Hn; done|]. intros Hne. destruct (E2 Hne) as (en & Hen & Hel & Hall).
    destruct (rewired_Some _ _ _ _ Hr Hen) as (en' & Hen' & Hsh). exists en'. cbn [h2 Nodes set_nodes]. rewrite lookup_delete_ne by done. split; [done|]. split; [unfold shape in Hsh; congruence|].
    intros x m [_ Hm]%lookup_delete_Some. destruct (rewired_Some_inv _ _ x m Hr Hm) as (m0 & Hm0 & Hsh0). assert (Level m = Level m0) as -> by (unfold shape in Hsh0; congruence). by apply (Hall x).
Qed.

(** ** Search *)

Definition limit (topK : Z) : Z := if topK <=? 0 then 10 else topK.
Definition breadth (topK ef : Z) : Z := if ef <? limit topK then limit topK else ef.

(** A result and the distance it was found at. *)
Definition found (h : HNSWIndex) (query : list float32) (r : VectorSearchResult) (d : float64) : Prop :=
  vectors h !! r_ID r = Some (r_Vec r) /\ Distance (Metric h) query (r_Vec r) = Ok d /\ Score r = score_of (Metric h) d.

Lemma limit_pos topK : 0 < limit topK.
Proof. unfold limit. destruct (Z.leb_spec topK 0); lia. Qed.

Lemma results_spec h query cs : Forall (fun it => located h query (di_ID it) (Dist it)) cs ->
  exists rs, results_of h cs = Ok rs /\ Forall2 (fun it r => r_ID r = di_ID it /\ found h query r (Dist it)) cs rs.
Proof.
  induction 1 as [|it cs (n & Hn & Hd) _ (rs & E & HF)]; cbn [results_of]; [by exists []|]. rewrite Hn, E. cbn [mbind res_bind]. eexists. split; [done|]. constructor; [|done].
  split; [done|]. split; [unfold vectors; cbn [r_ID r_Vec]; by rewrite lookup_fmap, Hn|done].
Qed.

Section Searching.
Context (sort_items : list DistItem -> list DistItem) (sort_perm : forall q, sort_items q ≡ₚ q).
Context (sort_sorted : forall q, Forall (fun it => isNaN (Dist it) = false) q -> StronglySorted (fun x y => fless (Dist y) (Dist x) = false) (sort_items q)).
Context (h : HNSWIndex) (query : list float32) (topK ef : Z).

Lemma Search_empty : graph_ok h -> fits h query -> Nodes h = ∅ -> Search sort_items query topK ef h = Ok (inl []).
Proof.
  intros Hg Hf He. unfold Search. assert ((0 <? Dimension h) && negb (Z.of_nat (length query) =? Dimension h) = false) as ->.
  { destruct Hf as [->| ->]; [done|]. by rewrite Z.eqb_refl, andb_false_r. }
  by rewrite decide_True by (by left).
Qed.

Lemma Search_mismatch : 0 <= Dimension h -> ~ fits h query -> Search sort_items query topK ef h = Ok (inr ErrDimensionMismatch).
Proof. intros H0 Hf. unfold Search, fits in *. rewrite (proj2 (Z.ltb_lt 0 (Dimension h))) by lia. by rewrite (proj2 (Z.eqb_neq _ _)) by lia. Qed.

(** A search descends to a node from which the lowest layer is explored. *)
Lemma Search_descends (P : bytes -> Prop) : graph_ok h -> fits h query -> Nodes h <> ∅ -> (forall l, closed_on h l P) -> P (EntryPoint h) ->
  Z.of_nat (length query) = Dimension h /\ exists curr, P curr /\ is_Some (Nodes h !! curr) /\
    Search sort_items query topK ef h =
      (cs ← searchLayer sort_items h query curr (breadth topK ef) 0;
       rs ← results_of h (take (Z.to_nat (limit topK)) cs); Ok (inl rs)).
Proof.
  intros Hg Hf Hne Hcl HP. assert (Dimension h <> 0) as Hd0 by (intros E; by apply Hne, (g_dim h Hg)). destruct Hf as [?|Hd]; [done|]. split; [done|].
  unfold Search. rewrite Hd, Z.eqb_refl, andb_false_r. destruct (g_entry h Hg) as [E1 E2]. assert (EntryPoint h <> []) as He by (intros E; by apply Hne, E1).
  rewrite decide_False by (by intros [?|?]). destruct (E2 He) as (e & Hent & _). rewrite Hent. fold (limit topK). cbv zeta.
  pose proof (dim_length h query (g_nodes h Hg) Hd) as Hlen. destruct (locate h query Hlen _ _ Hent) as (d & -> & Hloc). cbn [mbind res_bind].
  destruct (greedy_spec h query Hlen (layers (MaxLevel h) 0) P (EntryPoint h) d) as (c & d' & -> & HPc & (n & Hn & _)); [by intros l _|done..|]. cbn [mbind res_bind].
  exists c. split; [done|]. split; [by rewrite Hn|]. fold (breadth topK ef).
  destruct (searchLayer sort_items h query c (breadth topK ef) 0) as [cs|]; [|done]. cbn [mbind res_bind].
  assert ((if limit topK <? Z.of_nat (length cs) then take (Z.to_nat (limit topK)) cs else cs) = take (Z.to_nat (limit topK)) cs) as ->; [|done].
  destruct (Z.ltb_spec (limit topK) (Z.of_nat (length cs))); [done|]. rewrite take_ge; [done|lia].
Qed.

(** Distances of stored vectors are numbers. *)
Definition comparable : Prop := forall id v d, vectors h !! id = Some v -> Distance (Metric h) query v = Ok d -> isNaN d = false.

Lemma located_vector id d : located h query id d -> exists v, vectors h !! id = Some v /\ Distance (Metric h) query v = Ok d.
Proof. intros (n & Hn & Hd). exists (Vec n). split; [unfold vectors; by rewrite lookup_fmap, Hn|done]. Qed.

Lemma searchLayer_sorted curr level cs : nodes_ok h -> Z.of_nat (length query) = Dimension h -> comparable -> is_Some (Nodes h !! curr) ->
  searchLayer sort_items h query curr (breadth topK ef) level = Ok cs -> StronglySorted (fun x y => fless (Dist y) (Dist x) = false) cs.
Proof using sort_perm sort_sorted.
  intros Hok Hd Hnan Hc E. destruct (searchLayer_spec sort_items sort_perm h query curr (breadth topK ef) level (fun _ => True) Hok Hd) as (cs' & E' & _ & _ & HF & _); [done..|].
  rewrite E in E'. injection E' as <-. unfold searchLayer in E. destruct Hc as [n Hn]. rewrite Hn in E. destruct (Distance (Metric h) query (Vec n)); [|done]. cbn [mbind res_bind] in E. cbv zeta in E.
  destruct (beam_loop _ _ _ _ _ _) as [st|]; [|done]. cbn [mbind res_bind] in E. injection E as <-. apply sort_sorted. rewrite sort_perm in HF.
  eapply list.Forall_impl; [exact HF|]. intros it [Hloc _]. destruct (located_vector _ _ Hloc) as (v & Hv & Hd'). by eapply Hnan.
Qed.
End Searching.
