(* ===== verification/Vector.v ===== *)
(** * Vector indexes (internal/datastruct/vector.go)

    A vector index keeps its vectors in a map and in a graph.  Searches go through the
    graph; the exact search is the fallback of an index without one.  The arguments
    are those of the graph: the sort, the range over the nodes, the levels drawn. *)

From S2P Require Import Prelude Float Heap SkipList Hnsw HnswLaws.

Record VectorIndex := mkVI { v_Dimension : Z; v_Vectors : gmap bytes (list float32); v_HNSW : option HNSWIndex }.

Definition NewVectorIndex (dim : Z) : VectorIndex := mkVI dim ∅ (Some (NewHNSWIndex dim (str "cosine"))).

(** ** The two measures of the commands *)

Definition CosineSimilarity (a b : list float32) : res fault float64 :=
  if decide (length a <> length b \/ a = []) then Ok fzero
  else
    '(dot, normA, normB) ← cosine_sums a b fzero fzero fzero;
    if is_zero normA || is_zero normB then Ok fzero else Ok (fdiv dot (fmul (fsqrt normA) (fsqrt normB))).

Definition EuclideanDistance (a b : list float32) : res fault float64 :=
  if decide (length a <> length b) then Ok MaxFloat64 else sum ← l2_sum a b fzero; Ok (fsqrt sum).

Section Index.
Context (sorts : forall A : Type, (A -> A -> bool) -> list A -> list A).
Context (order : gmap bytes HNSWNode -> list bytes) (iter : gmap bytes (list float32) -> list (bytes * list float32)).
Implicit Types (vi : VectorIndex) (id : bytes) (vec query : list float32).

Abbreviation sort_items := (sorts DistItem MinLess).

Definition Add id vec (lvl : Z) vi : res fault (VectorIndex * option vector_error) :=
  if (0 <? v_Dimension vi) && negb (Z.of_nat (length vec) =? v_Dimension vi) then Ok (vi, Some ErrDimensionMismatch)
  else
    let vi :=
      if v_Dimension vi =? 0
      then mkVI (Z.of_nat (length vec)) (v_Vectors vi) (set_dimension (Z.of_nat (length vec)) <$> v_HNSW vi)
      else vi in
    let g := match v_HNSW vi with Some g => g | None => NewHNSWIndex (v_Dimension vi) (str "cosine") end in
    '(g, e) ← Insert sort_items id vec lvl g;
    Ok (mkVI (v_Dimension vi) (<[id := vec]> (v_Vectors vi)) (Some g), e).

Definition Get id vi : option (list float32) := v_Vectors vi !! id.

Definition GetAll vi : gmap bytes (list float32) := v_Vectors vi.

Definition Delete id vi : res fault (VectorIndex * bool) :=
  match v_Vectors vi !! id with
  | None => Ok (vi, false)
  | Some _ =>
      let vectors := delete id (v_Vectors vi) in
      match v_HNSW vi with
      | None => Ok (mkVI (v_Dimension vi) vectors None, true)
      | Some g => '(g, _) ← Hnsw.Delete (order (delete id (Nodes g))) id g; Ok (mkVI (v_Dimension vi) vectors (Some g), true)
      end
  end.

Definition Len vi : Z := Z.of_nat (size (v_Vectors vi)).

(** The score of the exact search. *)
Definition exact_score (metric : bytes) query vec : res fault float64 :=
  if is_l2 metric then EuclideanDistance query vec
  else if is_dot metric then dot_sum query vec fzero
  else CosineSimilarity query vec.

Fixpoint exact_results (metric : bytes) query (kvs : list (bytes * list float32)) : res fault (list VectorSearchResult) :=
  match kvs with
  | [] => Ok []
  | (id, vec) :: kvs' => score ← exact_score metric query vec; rs ← exact_results metric query kvs'; Ok (mkResult id score [] :: rs)
  end.

Definition exactSearch query (topK : Z) (metric : bytes) vi : res fault (list VectorSearchResult) :=
  results ← exact_results metric query (iter (v_Vectors vi));
  let results := sorts _ (fun x y => if is_l2 metric then fless (Score x) (Score y) else fless (Score y) (Score x)) results in
  Ok (if topK <? Z.of_nat (length results) then take (Z.to_nat topK) results else results).

(** A search sets the metric of the graph, under the lock for readers. *)
Definition Search query (topK : Z) (metric : bytes) (efSearch : Z) vi : res fault (VectorIndex * (list VectorSearchResult + vector_error)) :=
  if (0 <? v_Dimension vi) && negb (Z.of_nat (length query) =? v_Dimension vi) then Ok (vi, inr ErrDimensionMismatch)
  else
    let topK := if topK <=? 0 then 10 else topK in
    let metric := if decide (metric = []) then str "cosine" else metric in
    match v_HNSW vi with
    | Some g =>
        if decide (v_Vectors vi <> ∅) then
          let g := set_metric metric g in
          let efSearch := if efSearch <=? 0 then EFSearch g else efSearch in
          r ← Hnsw.Search sort_items query topK efSearch g;
          Ok (mkVI (v_Dimension vi) (v_Vectors vi) (Some g), r)
        else rs ← exactSearch query topK metric vi; Ok (vi, inl rs)
    | None => rs ← exactSearch query topK metric vi; Ok (vi, inl rs)
    end.

(** The values of [Info] are printed with the verb [%v]. *)
Definition Info vi : list (bytes * bytes) :=
  [(str "dimension", FormatInt (v_Dimension vi)); (str "count", FormatInt (Len vi))] ++
  match v_HNSW vi with
  | None => []
  | Some g =>
      [(str "hnsw_metric", Metric g); (str "hnsw_max_level", FormatInt (MaxLevel g)); (str "hnsw_m", FormatInt (M g)); (str "hnsw_m0", FormatInt (M0 g));
       (str "hnsw_ef_construction", FormatInt (EFConstruction g)); (str "hnsw_ef_search", FormatInt (EFSearch g)); (str "hnsw_entry_point", EntryPoint g)]
  end.

(** ** Sequences of operations *)

Inductive vop := OAdd (id : bytes) (vec : list float32) (lvl : Z) | ODelete (id : bytes) | OSearch (query : list float32) (topK : Z) (metric : bytes) (ef : Z).
Inductive vreply := RAdd (e : option vector_error) | RDelete (b : bool) | RSearch (r : list VectorSearchResult + vector_error).

Definition vexec vi (op : vop) : res fault (VectorIndex * vreply) :=
  match op with
  | OAdd id vec lvl => '(vi, e) ← Add id vec lvl vi; Ok (vi, RAdd e)
  | ODelete id => '(vi, b) ← Delete id vi; Ok (vi, RDelete b)
  | OSearch q k m ef => '(vi, r) ← Search q k m ef vi; Ok (vi, RSearch r)
  end.

Fixpoint vrun vi (ops : list vop) : res fault (VectorIndex * list vreply) :=
  match ops with
  | [] => Ok (vi, [])
  | op :: ops' => '(vi, r) ← vexec vi op; '(vi, rs) ← vrun vi ops'; Ok (vi, r :: rs)
  end.

(** ** The contract

    To its clients an index is a dimension, zero until it is known, and a map. *)

Definition agrees (dim : Z) vec : Prop := dim = 0 \/ Z.of_nat (length vec) = dim.
#[global] Instance agrees_dec dim vec : Decision (agrees dim vec).
Proof. unfold agrees. apply _. Defined.

Definition effective (metric : bytes) : bytes := if decide (metric = []) then str "cosine" else metric.

(** A result of a search in the map [m], found at distance [d]. *)
Definition hit (m : gmap bytes (list float32)) (metric : bytes) query (r : VectorSearchResult) (d : float64) : Prop :=
  m !! r_ID r = Some (r_Vec r) /\ Distance metric query (r_Vec r) = Ok d /\ Score r = score_of metric d.

(** What a search promises: distinct vectors of the index with their scores, at most
    as many as asked for and none only when there is none, the closest first where
    all distances are numbers. *)
Record answers (m : gmap bytes (list float32)) query (topK : Z) (metric : bytes) (rs : list VectorSearchResult) : Prop := {
  a_hits : exists ds, Forall2 (hit m (effective metric) query) rs ds /\
    ((forall id v d, m !! id = Some v -> Distance (effective metric) query v = Ok d -> isNaN d = false) -> StronglySorted (fun x y => fless y x = false) ds);
  a_distinct : NoDup (r_ID <$> rs);
  a_limit : Z.of_nat (length rs) <= limit topK;
  a_some : m <> ∅ -> rs <> [] }.

Inductive vspec (dim : Z) (m : gmap bytes (list float32)) : vop -> vreply -> Z -> gmap bytes (list float32) -> Prop :=
| spec_add id vec lvl : agrees dim vec -> vspec dim m (OAdd id vec lvl) (RAdd None) (Z.of_nat (length vec)) (<[id := vec]> m)
| spec_add_refused id vec lvl : ~ agrees dim vec -> vspec dim m (OAdd id vec lvl) (RAdd (Some ErrDimensionMismatch)) dim m
| spec_delete id b : (b = true <-> is_Some (m !! id)) -> vspec dim m (ODelete id) (RDelete b) dim (delete id m)
| spec_search q k mt ef rs : agrees dim q -> answers m q k mt rs -> vspec dim m (OSearch q k mt ef) (RSearch (inl rs)) dim m
| spec_search_refused q k mt ef : ~ agrees dim q -> vspec dim m (OSearch q k mt ef) (RSearch (inr ErrDimensionMismatch)) dim m.

Inductive vtrace (dim : Z) (m : gmap bytes (list float32)) : list vop -> list vreply -> Z -> gmap bytes (list float32) -> Prop :=
| trace_nil : vtrace dim m [] [] dim m
| trace_cons op r dim1 m1 ops rs dim2 m2 : vspec dim m op r dim1 m1 -> vtrace dim1 m1 ops rs dim2 m2 -> vtrace dim m (op :: ops) (r :: rs) dim2 m2.

(** Vectors are named and not empty, and levels are drawn from zero on. *)
Definition op_ok (op : vop) : Prop := match op with OAdd id vec lvl => id <> [] /\ vec <> [] /\ 0 <= lvl | _ => True end.

(** The index and its graph agree. *)
Definition index_ok vi : Prop :=
  exists g, v_HNSW vi = Some g /\ graph_ok g /\ Dimension g = v_Dimension vi /\ vectors g = v_Vectors vi.

Context (sort_perm : forall A less (l : list A), sorts A less l ≡ₚ l).
Context (sort_sorted : forall q, Forall (fun it => isNaN (Dist it) = false) q -> StronglySorted (fun x y => fless (Dist y) (Dist x) = false) (sort_items q)).
Context (order_all : forall m x, x ∈ order m <-> is_Some (m !! x)).
Context (iter_empty : iter ∅ = []).

Lemma agrees_test dim vec : 0 <= dim -> (0 <? dim) && negb (Z.of_nat (length vec) =? dim) = negb (bool_decide (agrees dim vec)).
Proof. intros H. unfold agrees. destruct (Z.ltb_spec 0 dim), (Z.eqb_spec (Z.of_nat (length vec)) dim); cbn; case_bool_decide; cbn; try done; lia. Qed.

(** An accepted vector goes to the graph, whose dimension is then known. *)
Lemma Add_graph id vec lvl vi g : v_HNSW vi = Some g -> graph_ok g -> Dimension g = v_Dimension vi -> agrees (v_Dimension vi) vec ->
  let g1 := set_dimension (Z.of_nat (length vec)) g in
  graph_ok g1 /\ fits g1 vec /\
  Add id vec lvl vi = ('(g2, e) ← Insert sort_items id vec lvl g1; Ok (mkVI (Z.of_nat (length vec)) (<[id := vec]> (v_Vectors vi)) (Some g2), e)).
Proof.
  intros Hg Hok Hdim Ha g1. destruct (g_dim g Hok) as [Hpos Hzero]. split; [|split; [by right|]].
  - destruct Ha as [E0|E]; [|assert (g1 = g) as ->; [|done]; subst g1; rewrite E, <- Hdim; by destruct g].
    pose proof (Hzero (eq_trans Hdim E0)) as Hempty. destruct Hok as [G1 G2 G3 G4 G5 G6]. constructor; try done; [cbn [g1 Dimension set_dimension Nodes]; split; [lia|done]|].
    intros x n Hn. cbn [g1 Nodes set_dimension] in Hn. rewrite Hempty in Hn. done.
  - unfold Add. rewrite agrees_test, bool_decide_true by (done || lia). cbn [negb]. destruct (Z.eqb_spec (v_Dimension vi) 0) as [E0|E0]; cbv zeta.
    + cbn [v_HNSW v_Dimension v_Vectors]. rewrite Hg. done.
    + destruct Ha as [?|Ha]; [done|]. rewrite Hg. assert (g1 = g) as -> by (subst g1; rewrite Ha, <- Hdim; by destruct g). by rewrite Ha.
Qed.

Lemma Add_ok id vec lvl vi : index_ok vi -> id <> [] -> vec <> [] -> 0 <= lvl ->
  exists vi' e, Add id vec lvl vi = Ok (vi', e) /\ index_ok vi' /\ vspec (v_Dimension vi) (v_Vectors vi) (OAdd id vec lvl) (RAdd e) (v_Dimension vi') (v_Vectors vi').
Proof using sort_perm.
  intros (g & Hg & Hok & Hdim & Hvec) Hid Hne Hlvl. destruct (decide (agrees (v_Dimension vi) vec)) as [Ha|Ha].
  2:{ unfold Add. destruct (g_dim g Hok) as [Hpos _]. rewrite agrees_test, bool_decide_false by (done || lia). exists vi, (Some ErrDimensionMismatch). split; [done|]. split; [by exists g|by constructor]. }
  destruct (Add_graph id vec lvl vi g Hg Hok Hdim Ha) as (Hok1 & Hf & ->). set (g1 := set_dimension _ g) in *.
  assert (exists g2, Insert sort_items id vec lvl g1 = Ok (g2, None) /\ graph_ok g2 /\ vectors g2 = <[id := vec]> (vectors g1) /\ Dimension g2 = Z.of_nat (length vec)) as (g2 & -> & Hok2 & Hv2 & Hd2).
  { destruct (Nodes g1 !! id) as [n|] eqn:Hn.
    - destruct (insert_old_ok sort_items id vec lvl g1 n) as (g2 & ? & ? & ? & ? & _); [done..|]. by exists g2.
    - destruct (insert_new_ok sort_items (sort_perm _ _) id vec lvl g1) as (g2 & ? & ? & ? & ? & _); [done..|]. by exists g2. }
  cbn [mbind res_bind]. eexists _, _. split; [done|]. split; [|by constructor].
  exists g2. split; [done|]. split; [done|]. split; [done|]. cbn [v_Vectors]. by rewrite Hv2, <- Hvec.
Qed.

Lemma Delete_index_ok id vi : index_ok vi -> exists vi' b, Delete id vi = Ok (vi', b) /\ index_ok vi' /\ vspec (v_Dimension vi) (v_Vectors vi) (ODelete id) (RDelete b) (v_Dimension vi') (v_Vectors vi').
Proof using order_all.
  intros (g & Hg & Hok & Hdim & Hvec). unfold Delete. destruct (v_Vectors vi !! id) as [v|] eqn:Hv.
  - rewrite Hg. destruct (Delete_ok (order (delete id (Nodes g))) id g Hok) as (g' & b & -> & Hok' & Hvec' & _ & Hd' & _); [intros x; apply order_all|]. cbn [mbind res_bind]. cbv zeta.
    eexists _, _. split; [done|]. split; [exists g'; cbn [v_HNSW v_Dimension v_Vectors]; split; [done|]; split; [done|]; split; congruence|]. constructor. rewrite Hv. done.
  - eexists _, _. split; [done|]. split; [by exists g|]. rewrite <- (delete_id (v_Vectors vi) id Hv) at 2. constructor. rewrite Hv. split; [done|by intros []].
Qed.

Lemma set_metric_ok mt g : graph_ok g -> graph_ok (set_metric mt g).
Proof. intros []. by constructor. Qed.

Lemma same_ids (Q : DistItem -> VectorSearchResult -> Prop) its rs : Forall2 (fun it r => r_ID r = di_ID it /\ Q it r) its rs -> r_ID <$> rs = di_ID <$> its.
Proof. induction 1 as [|it r its rs [E _] _ IH]; [done|]. cbn [fmap list_fmap]. by f_equal. Qed.

Lemma sorted_take its : StronglySorted (fun x y => fless (Dist y) (Dist x) = false) its ->
  forall k, StronglySorted (fun x y => fless y x = false) (Dist <$> take k its).
Proof.
  induction 1 as [|x l HS IH Hx]; intros [|k]; cbn [take fmap list_fmap]; try constructor; [apply IH|].
  apply Forall_fmap. by apply Forall_take.
Qed.

(** The answer of the graph, for any set of nodes its walks stay in. *)
Lemma graph_answers g query topK ef : graph_ok g -> fits g query -> Nodes g <> ∅ -> Metric g <> [] ->
  exists rs, Hnsw.Search sort_items query topK ef g = Ok (inl rs) /\ answers (vectors g) query topK (Metric g) rs.
Proof using sort_perm sort_sorted.
  intros Hok Hf Hne Hm. destruct (Search_descends sort_items g query topK ef (fun _ => True) Hok Hf Hne) as (Hd & c & _ & Hc & ->); [done..|].
  destruct (searchLayer_spec sort_items (sort_perm _ _) g query c (breadth topK ef) 0 (fun _ => True) (g_nodes g Hok) Hd) as (cs & E & Hcs & HN & HF & _); [done..|].
  rewrite E. cbn [mbind res_bind]. set (k := Z.to_nat (limit topK)). pose proof (limit_pos topK) as Hk.
  destruct (results_spec g query (take k cs)) as (rs & -> & HR).
  { apply Forall_take. eapply list.Forall_impl; [exact HF|]. by intros it [? _]. }
  cbn [mbind res_bind]. exists rs. split; [done|]. assert (r_ID <$> rs = take k (di_ID <$> cs)) as Hids.
  { rewrite <- fmap_take. exact (same_ids _ _ _ HR). }
  constructor.
  - exists (Dist <$> take k cs). unfold effective. rewrite decide_False by done. split.
    + apply Forall2_flip. apply Forall2_fmap_l. eapply Forall2_impl; [exact HR|]. intros it r (_ & H1 & H2 & H3). done.
    + intros Hnan. assert (StronglySorted (fun x y => fless (Dist y) (Dist x) = false) cs) as HS.
      { eapply (searchLayer_sorted sort_items (sort_perm _ _) sort_sorted g query topK ef c 0 cs (g_nodes g Hok) Hd); [exact Hnan|done..]. }
      by apply sorted_take.
  - rewrite Hids. eapply sublist_NoDup; [exact HN|]. apply sublist_take.
  - rewrite <- (length_fmap r_ID), Hids, length_take. lia.
  - intros _ ->. cbn in Hids. destruct cs as [|c0 cs]; [done|]. assert (exists k', k = S k') as [k' Ek] by (exists (pred k); lia). rewrite Ek in Hids. done.
Qed.

Lemma Search_index_ok query topK metric ef vi : index_ok vi ->
  exists vi' r, Search query topK metric ef vi = Ok (vi', r) /\ index_ok vi' /\ vspec (v_Dimension vi) (v_Vectors vi) (OSearch query topK metric ef) (RSearch r) (v_Dimension vi') (v_Vectors vi').
Proof using sort_perm sort_sorted iter_empty.
  intros (g & Hg & Hok & Hdim & Hvec). unfold Search. destruct (g_dim g Hok) as [Hpos Hzero]. rewrite agrees_test by lia. rewrite bool_decide_decide. destruct (decide (agrees (v_Dimension vi) query)) as [Ha|Ha]; cbn [negb].
  2:{ eexists _, _. split; [done|]. split; [by exists g|by constructor]. }
  rewrite Hg. cbv zeta. fold (effective metric). fold (limit topK). destruct (decide (v_Vectors vi <> ∅)) as [Hne|Hne].
  - set (g1 := set_metric (effective metric) g). assert (graph_ok g1) as Hok1 by (by apply set_metric_ok). assert (effective metric <> []) as Hm by (unfold effective; by case_decide).
    destruct (graph_answers g1 query (limit topK) (if ef <=? 0 then EFSearch g1 else ef) Hok1) as (rs & -> & HA); [destruct Ha as [Ha|Ha]; [left|right]; cbn; congruence| |done|].
    { intros E0. apply Hne. rewrite <- Hvec. unfold vectors. change (Nodes g1) with (Nodes g) in E0. by rewrite E0. }
    cbn [mbind res_bind]. eexists _, _. split; [done|]. split; [exists g1; done|]. cbn [v_Dimension v_Vectors]. constructor; [done|].
    assert (limit (limit topK) = limit topK) as El by (unfold limit at 1; pose proof (limit_pos topK); destruct (Z.leb_spec (limit topK) 0); lia).
    change (vectors g1) with (vectors g) in HA. rewrite Hvec in HA. destruct HA as [(ds & H1 & H2) H3 H4 H5].
    assert (effective (Metric g1) = effective metric) as Ee by (cbn [Metric g1 set_metric]; unfold effective at 1; by rewrite decide_False). rewrite Ee in *.
    constructor; [by exists ds|done|by rewrite <- El|done].
  - assert (v_Vectors vi = ∅) as E0 by (by apply dec_stable). unfold exactSearch. rewrite E0, iter_empty. cbn [exact_results mbind res_bind].
    assert (forall less, sorts VectorSearchResult less [] = []) as -> by (intros less; by apply Permutation_nil_r, sort_perm).
    pose proof (limit_pos topK) as Hk. change (Z.of_nat (length (@nil VectorSearchResult))) with 0. rewrite (proj2 (Z.ltb_ge (limit topK) 0)) by lia.
    exists vi, (inl []). split; [done|]. split; [by exists g|]. rewrite E0. apply spec_search; [done|].
    constructor; [exists []; split; [constructor|constructor]|constructor|cbn; lia|done].
Qed.

(** Every operation of an index that is in order returns, keeps it in order and does
    what the contract says. *)
Lemma vexec_ok vi op : index_ok vi -> op_ok op -> exists vi' r, vexec vi op = Ok (vi', r) /\ index_ok vi' /\ vspec (v_Dimension vi) (v_Vectors vi) op r (v_Dimension vi') (v_Vectors vi').
Proof using sort_perm sort_sorted order_all iter_empty.
  intros Hi Hop. destruct op as [id vec lvl|id|q k mt ef]; cbn [vexec].
  - destruct Hop as (H1 & H2 & H3). destruct (Add_ok id vec lvl vi Hi H1 H2 H3) as (vi' & e & -> & Hi' & Hs). cbn [mbind res_bind]. by exists vi', (RAdd e).
  - destruct (Delete_index_ok id vi Hi) as (vi' & b & -> & Hi' & Hs). cbn [mbind res_bind]. by exists vi', (RDelete b).
  - destruct (Search_index_ok q k mt ef vi Hi) as (vi' & r & -> & Hi' & Hs). cbn [mbind res_bind]. by exists vi', (RSearch r).
Qed.

Lemma vrun_ok ops : forall vi, index_ok vi -> Forall op_ok ops ->
  exists vi' rs, vrun vi ops = Ok (vi', rs) /\ index_ok vi' /\ vtrace (v_Dimension vi) (v_Vectors vi) ops rs (v_Dimension vi') (v_Vectors vi').
Proof using sort_perm sort_sorted order_all iter_empty.
  induction ops as [|op ops IH]; intros vi Hi Hops; cbn [vrun]; [exists vi, []; split; [done|]; split; [done|constructor]|].
  apply Forall_cons in Hops as [Hop Hops]. destruct (vexec_ok vi op Hi Hop) as (vi1 & r & -> & Hi1 & Hs). cbn [mbind res_bind].
  destruct (IH vi1 Hi1 Hops) as (vi2 & rs & -> & Hi2 & Ht). cbn [mbind res_bind]. exists vi2, (r :: rs). split; [done|]. split; [done|]. by econstructor.
Qed.

Lemma new_index_ok dim : 0 <= dim -> index_ok (NewVectorIndex dim).
Proof.
  intros Hd. exists (NewHNSWIndex dim (str "cosine")). split; [done|]. split; [|split; [done|unfold vectors; apply fmap_empty]].
  constructor; [done|by split|by intros ? ?|by intros ? ? ? ?|done|]. split; [done|]. by intros [].
Qed.

(** C14: a vector index behaves as a map with a nearest-neighbour query, over
    any additions of non-empty vectors under non-empty names, deletions and
    searches from an empty index: no operation panics or loops, the map is
    exact, vectors of another dimension are refused, and a search returns
    distinct stored vectors with their scores, at most as many as asked for, at
    least one when there is one, closest first when no stored vector is at a NaN
    distance; no node has more than 16 neighbours, 32 on the lowest layer. *)
Theorem vector_index_refines dim ops : 0 <= dim -> Forall op_ok ops ->
  exists vi rs, vrun (NewVectorIndex dim) ops = Ok (vi, rs) /\ vtrace dim ∅ ops rs (v_Dimension vi) (v_Vectors vi) /\
    exists g, v_HNSW vi = Some g /\ vectors g = v_Vectors vi /\ entry_ok g /\
      forall id n l ns, Nodes g !! id = Some n -> Neighbors n !! l = Some ns -> Z.of_nat (length ns) <= (if decide (l = 0%nat) then 32 else 16).
Proof using sort_perm sort_sorted order_all iter_empty.
  intros Hd Hops. destruct (vrun_ok ops (NewVectorIndex dim) (new_index_ok dim Hd) Hops) as (vi & rs & E & (g & Hg & Hok & _ & Hvec) & Ht).
  exists vi, rs. split; [done|]. split; [done|]. exists g. split; [done|]. split; [done|]. split; [apply (g_entry g Hok)|].
  intros id n l ns Hn Hns. pose proof (g_capped g Hok id n l ns Hn Hns) as H. unfold maxConn in H. destruct (g_params g Hok) as (E1 & E2 & _). rewrite E1, E2 in H. exact H.
Qed.
End Index.

(** ** A sort, and an index of two vectors *)

Definition insertion (A : Type) (less : A -> A -> bool) (l : list A) : list A := sort_slice less l.
Definition map_order (m : gmap bytes HNSWNode) : list bytes := (map_to_list m).*1.
Definition map_items (m : gmap bytes (list float32)) : list (bytes * list float32) := map_to_list m.

Lemma insertion_perm A less (l : list A) : insertion A less l ≡ₚ l.
Proof. apply sort_slice_perm. Qed.

Lemma insert_item_sorted x q : isNaN (Dist x) = false -> Forall (fun it => isNaN (Dist it) = false) q -> StronglySorted (fun x y => fless (Dist y) (Dist x) = false) q ->
  StronglySorted (fun x y => fless (Dist y) (Dist x) = false) (insert_sorted MinLess x q).
Proof.
  intros Hx HF HS. induction HS as [|y q HS IH Hy]; cbn [insert_sorted]; [repeat constructor|]. apply Forall_cons in HF as [Hny HF]. unfold MinLess at 1. destruct (fless (Dist x) (Dist y)) eqn:E.
  - constructor; [by constructor|]. constructor; [by apply fless_asym|]. rewrite list.Forall_forall in Hy |- *. intros z Hz. eapply (fless_negtrans _ (Dist y)); [done|by apply Hy|by apply fless_asym].
  - constructor; [by apply IH|]. rewrite insert_sorted_perm. constructor; [done|exact Hy].
Qed.

Lemma insertion_sorted q : Forall (fun it => isNaN (Dist it) = false) q -> StronglySorted (fun x y => fless (Dist y) (Dist x) = false) (insertion DistItem MinLess q).
Proof.
  unfold insertion. induction 1 as [|x q Hx HF IH]; [constructor|]. cbn [sort_slice foldr]. apply insert_item_sorted; [done| |exact IH]. fold (sort_slice MinLess q). by rewrite sort_slice_perm.
Qed.

Lemma map_order_all m x : x ∈ map_order m <-> is_Some (m !! x).
Proof.
  unfold map_order. rewrite list_elem_of_fmap. split.
  - intros ([k n] & -> & H%elem_of_map_to_list). by exists n.
  - intros [n Hn]. exists (x, n). split; [done|]. by apply elem_of_map_to_list.
Qed.

Lemma map_items_empty : map_items ∅ = [].
Proof. apply map_to_list_empty. Qed.

(** The bit patterns of 1 and of 0. *)
Definition east : list float32 := [1065353216; 0].
Definition north : list float32 := [0; 1065353216].
Definition sample_ops : list vop :=
  [OAdd (str "e") east 0; OAdd (str "n") north 1; OSearch east 5 [] 0; OAdd (str "x") [0] 0; ODelete (str "e"); OSearch north 1 (str "l2") 0].

Lemma vector_index_refines_witness : exists vi rs,
  vrun insertion map_order map_items (NewVectorIndex 2) sample_ops = Ok (vi, rs) /\ vtrace 2 ∅ sample_ops rs (v_Dimension vi) (v_Vectors vi) /\ v_Vectors vi !! str "e" = None.
Proof.
  destruct (vector_index_refines insertion map_order map_items insertion_perm insertion_sorted map_order_all map_items_empty 2 sample_ops) as (vi & rs & E & Ht & _); [lia|repeat constructor; done|].
  exists vi, rs. split; [exact E|]. split; [exact Ht|].
  assert (match vrun insertion map_order map_items (NewVectorIndex 2) sample_ops with Ok (vi, _) => bool_decide (v_Vectors vi !! str "e" = None) | Err _ => false end = true) as H by (vm_compute; reflexivity).
  rewrite E in H. exact (bool_decide_eq_true_1 _ H).
Defined.

(** ** Where the index deviates *)

(** A vector with the empty name is stored but never found: the graph takes an empty
    entry point for an empty graph. *)
Theorem empty_name_hidden : exists vi vi', Add insertion [] east 0 (NewVectorIndex 2) = Ok (vi, None) /\ Get [] vi = Some east /\
  Search insertion map_items east 5 [] 0 vi = Ok (vi', inl []).
Proof.
  assert (match Add insertion [] east 0 (NewVectorIndex 2) with
          | Ok (vi, None) => bool_decide (Get [] vi = Some east) && match Search insertion map_items east 5 [] 0 vi with Ok (_, inl []) => true | _ => false end
          | _ => false end = true) as H by (vm_compute; reflexivity).
  destruct (Add insertion [] east 0 (NewVectorIndex 2)) as [[vi [e|]]|]; [done| |done]. apply andb_true_iff in H as [H1%bool_decide_eq_true H2].
  destruct (Search insertion map_items east 5 [] 0 vi) as [[vi' [[|r rs]|]]|] eqn:E; try done. by exists vi, vi'.
Qed.

(** A search leaves its metric behind: later additions are linked by it. *)
Theorem search_sets_metric query topK metric ef vi vi' r g : Search insertion map_items query topK metric ef vi = Ok (vi', inl r) -> v_HNSW vi = Some g -> v_Vectors vi <> ∅ -> metric <> [] ->
  exists g', v_HNSW vi' = Some g' /\ Metric g' = metric.
Proof.
  unfold Search. intros E Hg Hne Hm. rewrite Hg in E. case_match; [done|]. cbv zeta in E. rewrite decide_True in E by done. rewrite decide_False in E by done.
  destruct (Hnsw.Search _ _ _ _ _) as [r0|]; [|done]. cbn [mbind res_bind] in E. injection E as <- _. eexists. split; [done|]. done.
Qed.

(** A new vector for an existing name does not change a single link. *)
Theorem update_not_rewired sort_items id vec lvl h n : graph_ok h -> vec <> [] -> fits h vec -> Nodes h !! id = Some n ->
  exists h', Insert sort_items id vec lvl h = Ok (h', None) /\ Neighbors <$> Nodes h' = Neighbors <$> Nodes h.
Proof.
  intros Hg Hv Hf Hn. destruct (insert_old_ok sort_items id vec lvl h n Hg Hv Hf Hn) as (h' & E & _ & _ & _ & _ & EN & _). exists h'. split; [done|]. rewrite EN, fmap_insert. apply insert_id. by rewrite lookup_fmap, Hn.
Qed.
