(* ===== verification/VectorExact.v ===== *)
(** * Small vector indexes are searched exactly

    The graph search is approximate in general.  Up to 33 vectors, however, no list of
    the lowest layer is ever cut, so that layer is complete: every search visits all
    vectors, and its answer is that of sorting them all by distance. *)

From S2P Require Import Prelude Float Heap SkipList Hnsw HnswLaws Vector.

(** ** A search that forgets nothing

    With room for every node the search never drops a candidate and never stops
    before its queue is empty. *)

Definition number (it : DistItem) : Prop := isNaN (Dist it) = false.

Lemma MaxLess_asym x y : MaxLess x y = true -> MaxLess y x = false.
Proof. apply fless_asym. Qed.

Lemma MaxLess_negtrans x y z : number y -> MaxLess x y = false -> MaxLess y z = false -> MaxLess x z = false.
Proof. unfold MaxLess. intros Hy H1 H2. by eapply (fless_negtrans (Dist z) (Dist y)). Qed.

Lemma nodup_size (h : HNSWIndex) (xs : list bytes) : NoDup xs -> (forall x, x ∈ xs -> is_Some (Nodes h !! x)) -> (length xs <= size (Nodes h))%nat.
Proof.
  intros HN Hin. rewrite <- (size_dom (D := gset bytes)), <- (size_list_to_set (C := gset bytes) _ HN). apply subseteq_size.
  intros x Hx%elem_of_list_to_set. by apply elem_of_dom, Hin.
Qed.

Section Full.
Context (h : HNSWIndex) (target : list float32) (ef : Z) (P : bytes -> Prop) (level : nat).
Context (Hlen : forall id n, Nodes h !! id = Some n -> (length target <= length (Vec n))%nat).
Context (Hnan : forall id d, located h target id d -> isNaN d = false).
Context (Hef : Z.of_nat (size (Nodes h)) <= ef).

Abbreviation beam_ok := (beam_ok h target ef P).

(** The neighbours of a node on the layer were all visited. *)
Definition explored (st : beam) (id : bytes) : Prop :=
  forall n ns y, Nodes h !! id = Some n -> Neighbors n !! level = Some ns -> y ∈ ns -> y ∈ visited st.

Record full (busy : bytes -> Prop) (st : beam) : Prop := {
  f_all : forall x, x ∈ visited st -> is_Some (Nodes h !! x) -> x ∈ di_ID <$> wQueue st;
  f_sub : forall it, it ∈ vQueue st -> it ∈ wQueue st;
  f_heap : heap_ordered MaxLess (wQueue st) (length (wQueue st));
  f_done : forall it, it ∈ wQueue st -> it ∈ vQueue st \/ busy (di_ID it) \/ explored st (di_ID it) }.

Lemma queue_numbers st : beam_ok st -> Forall number (wQueue st).
Proof using Hnan. intros H. eapply list.Forall_impl; [exact (b_w _ _ _ _ _ H)|]. intros it (_ & Hloc & _). by eapply Hnan. Qed.

(** A node not visited yet leaves room in the queue. *)
Lemma queue_room st n : beam_ok st -> n ∉ visited st -> is_Some (Nodes h !! n) -> Z.of_nat (length (wQueue st)) < ef.
Proof using Hef.
  intros Hok Hn Hs. pose proof (b_nodup _ _ _ _ _ Hok) as HN. assert (NoDup (n :: (di_ID <$> wQueue st))) as HN'.
  { constructor; [|done]. intros Hin. apply list_elem_of_fmap in Hin as (it & -> & Hit). pose proof (b_w _ _ _ _ _ Hok) as HF. rewrite list.Forall_forall in HF. by destruct (HF it Hit). }
  pose proof (nodup_size h _ HN') as Hle. cbn [length] in Hle. rewrite length_fmap in Hle. enough (S (length (wQueue st)) <= size (Nodes h))%nat by lia. apply Hle.
  intros x [->|Hx]%elem_of_cons; [done|]. apply list_elem_of_fmap in Hx as (it & -> & Hit).
  pose proof (b_w _ _ _ _ _ Hok) as HF. rewrite list.Forall_forall in HF. destruct (HF it Hit) as (_ & (m & -> & _) & _). done.
Qed.

Lemma explored_grow st st' id : visited st ⊆ visited st' -> explored st id -> explored st' id.
Proof. intros Hs H n ns y Hn Hns Hy. by apply Hs, (H n ns). Qed.

Lemma visit_full busy st n : beam_ok st -> full busy st -> (is_Some (Nodes h !! n) -> P n) ->
  exists st', visit h target ef st n = Ok st' /\ beam_ok st' /\ (remaining h st' <= remaining h st)%nat /\ full busy st' /\ visited st' = {[n]} ∪ visited st.
Proof using Hlen Hnan Hef.
  intros Hok Hfull HP. destruct (visit_ok h target ef P Hlen st n Hok HP) as (st0 & E0 & Hok' & Hrem).
  destruct (visit_cases h target ef P Hlen st n Hok HP) as (st' & E & Hv & Hcases). rewrite E0 in E. injection E as <-.
  exists st0. split; [done|]. split; [done|]. split; [done|]. split; [|done].
  assert (visited st ⊆ visited st0) as Hsub by (rewrite Hv; apply union_subseteq_r). destruct Hfull as [F1 F2 F3 F4].
  assert ((n ∈ visited st \/ Nodes h !! n = None) -> vQueue st0 = vQueue st -> wQueue st0 = wQueue st -> full busy st0) as Hsame.
  { intros Hn Ev Ew. constructor; rewrite ?Ev, ?Ew; [|done..|].
    - intros x Hx Hs. rewrite Hv in Hx. apply elem_of_union in Hx as [->%elem_of_singleton|Hx]; [|by apply F1]. destruct Hn as [Hn|Hn]; [by apply F1|by rewrite Hn in Hs; destruct Hs].
    - intros it Hit. destruct (F4 it Hit) as [?|[?|?]]; [by left|by right; left|right; right; by eapply explored_grow]. }
  destruct Hcases as [(Hn & Ev & Ew)|(d & Hnv & Hloc & Hor)]; [by apply Hsame|].
  assert (is_Some (Nodes h !! n)) as Hsome by (destruct Hloc as (m & -> & _); done). pose proof (queue_room st n Hok Hnv Hsome) as Hroom.
  destruct Hor as [(Hge & _)|(Ev & [(_ & Ew)|(Hge & _)])]; [lia| |lia].
  assert (forall it, it ∈ wQueue st0 <-> it = mkItem n d \/ it ∈ wQueue st) as Hw by (intros it; rewrite Ew, (Push_perm MaxLess), elem_of_cons; done).
  assert (forall it, it ∈ vQueue st0 <-> it = mkItem n d \/ it ∈ vQueue st) as Hq by (intros it; rewrite Ev, (Push_perm MinLess), elem_of_cons; done).
  constructor.
  - intros x Hx Hs. apply list_elem_of_fmap. rewrite Hv in Hx. apply elem_of_union in Hx as [->%elem_of_singleton|Hx]; [exists (mkItem n d); split; [done|]; apply Hw; by left|].
    specialize (F1 x Hx Hs). apply list_elem_of_fmap in F1 as (it & -> & Hit). exists it. split; [done|]. apply Hw. by right.
  - intros it [->|Hit]%Hq; apply Hw; [by left|right; by apply F2].
  - rewrite Ew. apply (Push_heap MaxLess number MaxLess_asym MaxLess_negtrans); [by apply queue_numbers|by eapply Hnan|done].
  - intros it [->|Hit]%Hw; [left; apply Hq; by left|]. destruct (F4 it Hit) as [?|[?|?]]; [left; apply Hq; by right|by right; left|right; right; by eapply explored_grow].
Qed.

Lemma visit_all_full busy nbrs : forall st, beam_ok st -> full busy st -> (forall y, y ∈ nbrs -> is_Some (Nodes h !! y) -> P y) ->
  exists st', visit_all h target ef nbrs st = Ok st' /\ beam_ok st' /\ (remaining h st' <= remaining h st)%nat /\ full busy st' /\
    visited st ⊆ visited st' /\ forall y, y ∈ nbrs -> y ∈ visited st'.
Proof using Hlen Hnan Hef.
  induction nbrs as [|n nbrs IH]; intros st Hok Hfull HP; cbn [visit_all].
  { exists st. split; [done|]. split; [done|]. split; [done|]. split; [done|]. split; [done|]. intros y Hy. by apply not_elem_of_nil in Hy. }
  destruct (visit_full busy st n Hok Hfull) as (st1 & -> & Hok1 & Hr1 & Hf1 & Hv1); [apply HP, list_elem_of_here|]. cbn [mbind res_bind].
  destruct (IH st1 Hok1 Hf1) as (st2 & -> & Hok2 & Hr2 & Hf2 & Hs2 & Hall); [intros y Hy; apply HP; by apply list_elem_of_further|].
  exists st2. split; [done|]. split; [done|]. split; [lia|]. split; [done|]. split.
  - etransitivity; [|exact Hs2]. rewrite Hv1. apply union_subseteq_r.
  - intros y [->|Hy]%elem_of_cons; [|by apply Hall]. apply Hs2. rewrite Hv1. by apply elem_of_union_l, elem_of_singleton.
Qed.

Definition nobody : bytes -> Prop := fun _ => False.

Lemma beam_loop_full fuel : closed_on h level P -> forall st, beam_ok st -> full nobody st -> (remaining h st < fuel)%nat ->
  exists st', beam_loop fuel h target ef level st = Ok st' /\ beam_ok st' /\ full nobody st' /\ vQueue st' = [] /\ visited st ⊆ visited st'.
Proof using Hlen Hnan Hef.
  intros Hcl. induction fuel as [|fuel IH]; intros st Hok Hfull Hf; [lia|]. cbn [beam_loop]. destruct (Pop MinLess (vQueue st)) as [[curr v]|] eqn:Hpop.
  2:{ exists st. split; [done|]. split; [done|]. split; [done|]. split; [|done]. destruct (vQueue st) as [|x q] eqn:Eq; [done|]. destruct (Pop_spec MinLess (x :: q)) as (? & ? & E & _); [done|congruence]. }
  destruct (worst_ok h target ef P st Hok) as (w & -> & Hw). cbn [mbind res_bind]. cbv zeta. destruct (pop_ok h target ef P st curr v Hok Hpop) as (HPm & Hc & Hok1 & Hr1).
  set (st1 := mkBeam (visited st) v (wQueue st)) in *. destruct Hfull as [F1 F2 F3 F4].
  assert (curr ∈ wQueue st) as Hcw by (apply F2; rewrite HPm; apply list_elem_of_here).
  pose proof (root_first MaxLess number MaxLess_asym MaxLess_negtrans (wQueue st) w (queue_numbers st Hok) F3 Hw curr Hcw) as Hbreak. unfold MaxLess in Hbreak. rewrite Hbreak.
  assert (full (eq (di_ID curr)) st1) as Hf1.
  { constructor; [done| |done|].
    - intros it Hit. apply F2. rewrite HPm. by apply list_elem_of_further.
    - intros it Hit. destruct (F4 it Hit) as [Hq|[[]|?]]; [|by right; right]. rewrite HPm in Hq. apply elem_of_cons in Hq as [->|Hq]; [right; by left|by left]. }
  assert (forall st', full (eq (di_ID curr)) st' -> explored st' (di_ID curr) -> full nobody st') as Hfree.
  { intros st' [G1 G2 G3 G4] Hex. constructor; [done..|]. intros it Hit. destruct (G4 it Hit) as [?|[<-|?]]; [by left|by right; right..]. }
  destruct (Nodes h !! di_ID curr) as [cn|] eqn:Hcn; cbn [mbind option_bind]; [destruct (Neighbors cn !! level) as [nbrs|] eqn:Hnb|].
  - destruct (visit_all_full (eq (di_ID curr)) nbrs st1 Hok1 Hf1) as (st2 & -> & Hok2 & Hr2 & Hf2 & Hs2 & Hall); [intros y; by apply (Hcl (di_ID curr) cn nbrs); [apply Hc|..]|]. cbn [mbind res_bind].
    destruct (IH st2 Hok2) as (st3 & -> & Hok3 & Hf3 & Hv3 & Hs3); [|lia|].
    { apply (Hfree st2 Hf2). intros n ns y Hn Hns Hy. rewrite Hcn in Hn. injection Hn as <-. rewrite Hnb in Hns. injection Hns as <-. by apply Hall. }
    exists st3. split; [done|]. split; [done|]. split; [done|]. split; [done|]. by etransitivity.
  - apply (IH st1 Hok1); [|lia]. apply (Hfree st1 Hf1). intros n ns y Hn Hns. congruence.
  - apply (IH st1 Hok1); [|lia]. apply (Hfree st1 Hf1). intros n ns y Hn. congruence.
Qed.
End Full.

(** ** Complete layers *)

(** On layer 0 the nodes of [D] are linked to each other and to nothing else. *)
Record complete_on (D : bytes -> Prop) (h : HNSWIndex) : Prop := {
  c_nodes : forall x, D x -> is_Some (Nodes h !! x);
  c_links : forall x n, D x -> Nodes h !! x = Some n ->
    exists ns, Neighbors n !! 0%nat = Some ns /\ NoDup ns /\ forall y, y ∈ ns <-> y <> x /\ D y }.

Lemma complete_closed D h : complete_on D h -> closed_on h 0 D.
Proof. intros H x n ns Hx Hn Hns y Hy _. destruct (c_links D h H x n Hx Hn) as (ns' & E & _ & Hl). rewrite Hns in E. injection E as <-. by apply Hl. Qed.

(** The links of a layer are the same in two graphs. *)
Definition same_layer (l : nat) (h h' : HNSWIndex) : Prop :=
  forall x n', Nodes h' !! x = Some n' -> exists n, Nodes h !! x = Some n /\ Neighbors n' !! l = Neighbors n !! l.

Lemma same_layer_refl l h : same_layer l h h.
Proof. intros x n Hn. by exists n. Qed.

Lemma same_layer_trans l h1 h2 h3 : same_layer l h1 h2 -> same_layer l h2 h3 -> same_layer l h1 h3.
Proof. intros H1 H2 x n Hn. destruct (H2 x n Hn) as (n2 & Hn2 & E2). destruct (H1 x n2 Hn2) as (n1 & Hn1 & E1). exists n1. split; [done|congruence]. Qed.

Lemma same_layer_closed l h h' D : rewired h h' -> same_layer l h h' -> closed_on h l D -> closed_on h' l D.
Proof.
  intros Hr Hs Hc x n' ns Hx Hn' Hns y Hy [m Hm]. destruct (Hs x n' Hn') as (n & Hn & E). destruct (rewired_Some_inv _ _ y m Hr Hm) as (m0 & Hm0 & _).
  apply (Hc x n ns Hx Hn); [congruence|done|by rewrite Hm0].
Qed.

Lemma same_layer_complete h h' D : rewired h h' -> same_layer 0 h h' -> complete_on D h -> complete_on D h'.
Proof.
  intros Hr Hs [C1 C2]. constructor.
  - intros x Hx. destruct (C1 x Hx) as [n Hn]. destruct (rewired_Some _ _ x n Hr Hn) as (n' & -> & _). done.
  - intros x n' Hx Hn'. destruct (Hs x n' Hn') as (n & Hn & ->). by apply (C2 x n).
Qed.

Lemma set_links_layer id l l' ns h h' n : l' <> l -> Nodes h !! id = Some n -> Nodes h' = <[id := mkHNode (hn_ID n) (Vec n) (Level n) (<[l := ns]> (Neighbors n))]> (Nodes h) -> same_layer l' h h'.
Proof.
  intros Hl Hn E x n'. rewrite E. destruct (decide (x = id)) as [->|Hx].
  - rewrite lookup_insert_eq. intros [= <-]. exists n. split; [done|]. cbn [Neighbors]. by rewrite list_lookup_insert_ne.
  - rewrite lookup_insert_ne by done. intros Hn'. by exists n'.
Qed.

Section Exact.
Context (sort_items : list DistItem -> list DistItem) (sort_perm : forall q, sort_items q ≡ₚ q).

(** A search on a complete layer finds the whole layer. *)
Lemma search_complete h target curr ef D : nodes_ok h -> Z.of_nat (length target) = Dimension h -> complete_on D h -> D curr ->
  (forall id d, located h target id d -> isNaN d = false) -> Z.of_nat (size (Nodes h)) <= ef ->
  exists cs, searchLayer sort_items h target curr ef 0 = Ok cs /\ NoDup (di_ID <$> cs) /\ (forall x, x ∈ di_ID <$> cs <-> D x) /\
    Forall (fun it => located h target (di_ID it) (Dist it)) cs.
Proof using sort_perm.
  intros Hok Hd HD Hcurr Hnan Hef. pose proof (dim_length h target Hok Hd) as Hlen. pose proof (complete_closed D h HD) as Hcl.
  destruct (c_nodes D h HD curr Hcurr) as [n Hn]. unfold searchLayer. rewrite Hn. destruct (locate h target Hlen curr n Hn) as (d & Hdist & Hloc). rewrite Hdist. cbn [mbind res_bind]. cbv zeta.
  destruct (start_ok h target ef D curr n d Hcurr Hn Hdist) as [Hst Hr]. set (st0 := mkBeam _ _ _) in *.
  assert (full h 0 nobody st0) as Hf0.
  { constructor.
    - intros x Hx _. cbn [visited st0] in Hx. apply elem_of_singleton in Hx as ->. apply list_elem_of_here.
    - done.
    - intros k Hk. change (0 < k < 1)%nat in Hk. lia.
    - intros it Hit. by left. }
  destruct (beam_loop_full h target ef D 0 Hlen Hnan Hef (rounds h) Hcl st0 Hst Hf0 Hr) as (st & -> & Hok' & [F1 F2 F3 F4] & Hv & Hsub). cbn [mbind res_bind].
  exists (sort_items (wQueue st)). split; [done|]. rewrite sort_perm. split; [apply (b_nodup _ _ _ _ _ Hok')|]. pose proof (b_w _ _ _ _ _ Hok') as HW. split.
  2:{ eapply list.Forall_impl; [exact HW|]. by intros it (_ & ? & _). }
  assert (curr ∈ di_ID <$> wQueue st) as Hc0 by (apply F1; [apply Hsub; cbn [visited st0]; by apply elem_of_singleton|by rewrite Hn]).
  intros x. rewrite sort_perm. split.
  - intros (it & -> & Hit)%list_elem_of_fmap. rewrite list.Forall_forall in HW. by destruct (HW it Hit) as (_ & _ & ?).
  - intros Hx. destruct (decide (x = curr)) as [->|Hne]; [done|]. apply F1; [|by apply (c_nodes D h HD)]. apply list_elem_of_fmap in Hc0 as (it & Eit & Hit).
    destruct (c_links D h HD curr n Hcurr Hn) as (ns & Hns & _ & Hl). destruct (F4 it Hit) as [Hq|[[]|Hex]]; [rewrite Hv in Hq; by apply not_elem_of_nil in Hq|].
    rewrite <- Eit in Hex. apply (Hex n ns x Hn Hns). by apply Hl.
Qed.

(** Links on one layer leave the others alone. *)
Lemma link_back_layer id l l' h it h' : l' <> l -> nodes_ok h -> M h = DefaultM -> M0 h = DefaultM0 -> link_back sort_items id l h it = Ok h' -> same_layer l' h h'.
Proof.
  intros Hl Hok HM HM0. unfold link_back. destruct (Nodes h !! di_ID it) as [nbr|] eqn:Hn; cbn [mbind option_bind]; [|intros [= <-]; apply same_layer_refl].
  destruct (Neighbors nbr !! l) as [ns|] eqn:Hns; cbn [mbind option_bind]; [|intros [= <-]; apply same_layer_refl].
  pose proof (lookup_lt_Some _ _ _ Hns) as Hlt. destruct (set_links_spec (di_ID it) l (ns ++ [id]) h nbr Hn Hlt) as (h1 & -> & Hr1 & E1). cbn [mbind res_bind]. cbv zeta.
  pose proof (set_links_layer _ _ l' _ h h1 nbr Hl Hn E1) as Hs1. case_match; [|by intros [= <-]].
  destruct (pruneNeighbors _ _ _ _ _) as [ns2|]; cbn [mbind res_bind]; [|done]. unfold set_links. destruct (Nodes h1 !! di_ID it) as [n1|] eqn:Hn1; [|done]. case_decide; [|done].
  intros [= <-]. eapply same_layer_trans; [exact Hs1|]. by eapply (set_links_layer (di_ID it) l l' ns2 h1 _ n1 Hl Hn1).
Qed.

Lemma link_all_layer S id l l' sel : forall h h', l' <> l -> nodes_ok h -> M h = DefaultM -> M0 h = DefaultM0 -> capped h -> mentions S h -> S id -> link_all sort_items id l sel h = Ok h' -> same_layer l' h h'.
Proof using sort_perm.
  induction sel as [|it sel IH]; intros h h' Hl Hok HM HM0 Hc Hm HS; cbn [link_all]; [intros [= <-]; apply same_layer_refl|].
  destruct (link_back_ok sort_items sort_perm S id l h it) as (h1 & E1 & Hr1 & Hc1 & Hm1); [done..|]. rewrite E1. cbn [mbind res_bind]. intros E.
  eapply same_layer_trans; [by eapply link_back_layer|]. eapply (IH h1 h'); try done; [by eapply rewired_nodes_ok|by rewrite (rw_M _ _ Hr1)|by rewrite (rw_M0 _ _ Hr1)].
Qed.

(** A layer above the lowest: the other layers stay, and the walk stays in [D]. *)
Lemma insert_layer_frame S D id vec l l' h curr n h' curr' : l' <> l -> nodes_ok h -> M h = DefaultM -> M0 h = DefaultM0 -> capped h -> mentions S h -> S id ->
  (forall x, D x -> S x) -> Z.of_nat (length vec) = Dimension h -> Nodes h !! id = Some n -> (l < length (Neighbors n))%nat -> is_Some (Nodes h !! curr) -> D curr -> closed_on h l D ->
  insert_layer sort_items id vec l h curr = Ok (h', curr') -> same_layer l' h h' /\ D curr'.
Proof using sort_perm.
  intros Hl Hok HM HM0 Hc Hm HS HDS Hd Hn Hlt Hcurr HDc Hcl. unfold insert_layer.
  destruct (searchLayer_spec sort_items sort_perm h vec curr (EFConstruction h) l D Hok Hd Hcl HDc Hcurr) as (cs & -> & Hne & _ & HF & _). cbn [mbind res_bind]. cbv zeta.
  pose proof (maxConn_pos h l HM HM0) as Hpos. destruct (select_spec cs (maxConn h l) ltac:(lia)) as [Hlen Hpre]. set (sel := selectNeighbors cs (maxConn h l)) in *. clearbody sel. rewrite list.Forall_forall in HF.
  destruct (set_links_spec id l (di_ID <$> sel) h n Hn Hlt) as (h1 & -> & Hr1 & E1). cbn [mbind res_bind].
  destruct (link_all sort_items id l sel h1) as [h2|] eqn:E2; cbn [mbind res_bind]; [|done]. intros [= <- <-]. split.
  - eapply same_layer_trans; [by eapply (set_links_layer id l l' _ h h1 n Hl Hn E1)|]. eapply (link_all_layer S id l l' sel h1 h2 Hl); try done; [by eapply rewired_nodes_ok|by rewrite (rw_M _ _ Hr1)|by rewrite (rw_M0 _ _ Hr1)| |].
    + eapply (set_links_capped id l _ h h1 n Hn E1 Hr1); [by apply capped_weaken|by rewrite length_fmap].
    + eapply (set_links_mentions S id l _ h h1 n Hn E1 Hm). intros y (it & -> & Hit)%list_elem_of_fmap. destruct Hpre as [k ->]. apply HDS, (HF it). apply elem_of_app. by left.
  - destruct cs as [|c cs]; [done|]. apply (HF c), list_elem_of_here.
Qed.

(** A link that fits is only appended. *)
Lemma link_back_append id h it n ns : Nodes h !! di_ID it = Some n -> Neighbors n !! 0%nat = Some ns -> Z.of_nat (length ns) < maxConn h 0 ->
  exists h', link_back sort_items id 0 h it = Ok h' /\ rewired h h' /\
    Nodes h' = <[di_ID it := mkHNode (hn_ID n) (Vec n) (Level n) (<[0%nat := ns ++ [id]]> (Neighbors n))]> (Nodes h).
Proof.
  intros Hn Hns Hlt. unfold link_back. rewrite Hn. cbn [mbind option_bind]. rewrite Hns. cbn [mbind option_bind].
  destruct (set_links_spec (di_ID it) 0 (ns ++ [id]) h n Hn (lookup_lt_Some _ _ _ Hns)) as (h1 & -> & Hr1 & E1). cbn [mbind res_bind]. cbv zeta.
  rewrite (rewired_maxConn h h1 0 Hr1), (proj2 (Z.ltb_ge _ _)); [by exists h1|]. rewrite length_app. cbn. lia.
Qed.

Lemma link_all_append id sel : forall h, NoDup (di_ID <$> sel) ->
  (forall it, it ∈ sel -> exists n ns, Nodes h !! di_ID it = Some n /\ Neighbors n !! 0%nat = Some ns /\ Z.of_nat (length ns) < maxConn h 0) ->
  exists h', link_all sort_items id 0 sel h = Ok h' /\ rewired h h' /\
    forall x n', Nodes h' !! x = Some n' -> exists n, Nodes h !! x = Some n /\
      Neighbors n' !! 0%nat = if decide (x ∈ di_ID <$> sel) then (fun ns => ns ++ [id]) <$> Neighbors n !! 0%nat else Neighbors n !! 0%nat.
Proof.
  induction sel as [|it sel IH]; intros h HN Hroom; cbn [link_all].
  { exists h. split; [done|]. split; [apply rewired_refl|]. intros x n Hn. exists n. split; [done|]. by rewrite decide_False by apply not_elem_of_nil. }
  cbn [fmap list_fmap] in HN. apply NoDup_cons in HN as [Hnin HN]. destruct (Hroom it (list_elem_of_here _ _)) as (n & ns & Hn & Hns & Hlt).
  destruct (link_back_append id h it n ns Hn Hns Hlt) as (h1 & -> & Hr1 & E1). cbn [mbind res_bind].
  destruct (IH h1 HN) as (h2 & -> & Hr2 & H2).
  { intros it' Hit'. destruct (Hroom it') as (m & ms & Hm & Hms & Hlt'); [by apply list_elem_of_further|]. exists m, ms. rewrite (rewired_maxConn h h1 0 Hr1). split; [|done].
    rewrite E1, lookup_insert_ne; [done|]. intros E. apply Hnin. rewrite E. by apply list_elem_of_fmap_2. }
  exists h2. split; [done|]. split; [by eapply rewired_trans|]. intros x n' Hn'. destruct (H2 x n' Hn') as (n1 & Hn1 & E2). rewrite E1 in Hn1. cbn [fmap list_fmap].
  destruct (decide (x = di_ID it)) as [->|Hx].
  - rewrite lookup_insert_eq in Hn1. injection Hn1 as <-. exists n. split; [done|]. rewrite E2, decide_False by done. rewrite decide_True by apply list_elem_of_here. rewrite Hns. cbn [Neighbors].
    by rewrite list_lookup_insert_eq by (by eapply lookup_lt_Some).
  - rewrite lookup_insert_ne in Hn1 by done. exists n1. split; [done|]. rewrite E2. destruct (decide (x ∈ di_ID <$> sel)) as [H1|H1].
    + rewrite decide_True; [done|by apply list_elem_of_further].
    + rewrite decide_False; [done|]. by intros [?|?]%elem_of_cons.
Qed.

(** The lowest layer: the new node is linked with all others. *)
Lemma insert_layer_complete D id vec h curr n : nodes_ok h -> M h = DefaultM -> M0 h = DefaultM0 -> EFConstruction h = DefaultEFConstruction ->
  Z.of_nat (length vec) = Dimension h -> Nodes h !! id = Some n -> (0 < length (Neighbors n))%nat -> complete_on D h -> D curr -> ~ D id -> (size (Nodes h) <= 33)%nat ->
  (forall x d, located h vec x d -> isNaN d = false) ->
  exists h' curr', insert_layer sort_items id vec 0 h curr = Ok (h', curr') /\ complete_on (fun x => D x \/ x = id) h'.
Proof using sort_perm.
  intros Hok HM HM0 HEF Hd Hn Hlt HD Hcurr Hid Hsz Hnan. unfold insert_layer.
  destruct (search_complete h vec curr (EFConstruction h) D Hok Hd HD Hcurr Hnan) as (cs & -> & HN & Hids & HF); [rewrite HEF; unfold DefaultEFConstruction; lia|]. cbn [mbind res_bind]. cbv zeta.
  assert (maxConn h 0 = 32) as Hmax by (unfold maxConn; by rewrite decide_True, HM0). assert (forall x, D x -> is_Some (Nodes h !! x)) as Hex by apply (c_nodes D h HD).
  assert (length cs <= 32)%nat as Hcs.
  { pose proof (nodup_size h (id :: (di_ID <$> cs))) as Hle. cbn [length] in Hle. rewrite length_fmap in Hle. enough (S (length cs) <= size (Nodes h))%nat by lia. apply Hle.
    - constructor; [by rewrite Hids|done].
    - intros x [->|Hx%Hids]%elem_of_cons; [by rewrite Hn|by apply Hex]. }
  assert (selectNeighbors cs (maxConn h 0) = cs) as -> by (unfold selectNeighbors; rewrite Hmax, (proj2 (Z.leb_le _ _)); [done|lia]).
  destruct (set_links_spec id 0 (di_ID <$> cs) h n Hn Hlt) as (h1 & -> & Hr1 & E1). cbn [mbind res_bind].
  assert (forall x m, D x -> Nodes h !! x = Some m -> Nodes h1 !! x = Some m) as Hother by (intros x m Hx Hm; rewrite E1, lookup_insert_ne; [done|]; by intros ->).
  destruct (link_all_append id cs h1 HN) as (h2 & -> & Hr2 & H2).
  { intros it Hit. assert (D (di_ID it)) as HDi by (apply Hids; by apply list_elem_of_fmap_2). destruct (Hex _ HDi) as [m Hm]. destruct (c_links D h HD _ m HDi Hm) as (ns & Hns & HNns & Hl).
    exists m, ns. split; [by apply Hother|]. split; [done|]. rewrite (rewired_maxConn h h1 0 Hr1), Hmax.
    pose proof (nodup_size h (id :: di_ID it :: ns)) as Hle. cbn [length] in Hle. enough (S (S (length ns)) <= size (Nodes h))%nat by lia. apply Hle.
    - constructor; [intros [->|[_ ?]%Hl]%elem_of_cons; done|]. constructor; [by intros [? _]%Hl|done].
    - intros x [->|[->|[_ Hx]%Hl]%elem_of_cons]%elem_of_cons; [by rewrite Hn|by rewrite Hm|by apply Hex]. }
  cbn [mbind res_bind]. eexists _, _. split; [done|]. pose proof (rewired_trans _ _ _ Hr1 Hr2) as Hr. constructor.
  - intros x [Hx| ->]; [destruct (Hex x Hx) as [m Hm]|pose proof Hn as Hm]; destruct (rewired_Some _ _ _ _ Hr Hm) as (m' & -> & _); done.
  - intros x n' Hx Hn'. destruct (H2 x n' Hn') as (n1 & Hn1 & ->). destruct (decide (x ∈ di_ID <$> cs)) as [Hin|Hin].
    + pose proof (proj1 (Hids x) Hin) as HDx. destruct (Hex x HDx) as [m Hm]. rewrite (Hother x m HDx Hm) in Hn1. injection Hn1 as <-.
      destruct (c_links D h HD x m HDx Hm) as (ns & -> & HNns & Hl). exists (ns ++ [id]). split; [done|]. split.
      * apply NoDup_app. split; [done|]. split; [|apply NoDup_singleton]. intros y [_ Hy]%Hl ->%list_elem_of_singleton. done.
      * intros y. rewrite elem_of_app, list_elem_of_singleton, Hl. split; [intros [[? ?]| ->]; [by split; [|left]|split; [by intros ->|by right]]|intros [? [?| ->]]; [by left|by right]].
    + assert (x = id) as -> by (destruct Hx as [Hx| ->]; [by apply Hids in Hx|done]). rewrite E1, lookup_insert_eq in Hn1. injection Hn1 as <-. cbn [Neighbors]. exists (di_ID <$> cs).
      split; [by rewrite list_lookup_insert_eq|]. split; [done|]. intros y. rewrite Hids. split; [intros Hy; split; [by intros ->|by left]|intros [? [?|?]]; done].
Qed.

Lemma located_rewired h h' vec x d : rewired h h' -> located h' vec x d -> located h vec x d.
Proof.
  intros Hr (n' & Hn' & Hd). destruct (rewired_Some_inv _ _ x n' Hr Hn') as (n & Hn & Hs). exists n. split; [done|].
  rewrite <- (rw_metric _ _ Hr). assert (Vec n = Vec n') as -> by (unfold shape in Hs; congruence). done.
Qed.

Lemma insert_layers_complete S D id vec ls : forall h curr n h', NoDup (ls ++ [0%nat]) -> nodes_ok h -> M h = DefaultM -> M0 h = DefaultM0 -> EFConstruction h = DefaultEFConstruction ->
  capped h -> mentions S h -> S id -> (forall x, D x -> S x) -> Z.of_nat (length vec) = Dimension h -> Nodes h !! id = Some n -> Forall (fun l => l < length (Neighbors n))%nat (ls ++ [0%nat]) ->
  (forall l, l ∈ ls -> closed_on h l D) -> complete_on D h -> D curr -> ~ D id -> (size (Nodes h) <= 33)%nat -> (forall x d, located h vec x d -> isNaN d = false) ->
  insert_layers sort_items id vec (ls ++ [0%nat]) h curr = Ok h' -> complete_on (fun x => D x \/ x = id) h'.
Proof using sort_perm.
  induction ls as [|l ls IH]; intros h curr n h' HN Hok HM HM0 HEF Hc Hm HS HDS Hd Hn Hlv Hcl HD Hcurr Hid Hsz Hnan; cbn [app insert_layers].
  - cbn [app] in Hlv. apply Forall_cons in Hlv as [Hlv _]. destruct (insert_layer_complete D id vec h curr n) as (h1 & c1 & -> & HC); [done..|]. cbn [mbind res_bind]. by intros [= <-].
  - cbn [app] in *. apply NoDup_cons in HN as [Hnin HN]. apply Forall_cons in Hlv as [Hl Hlv]. pose proof (c_nodes D h HD curr Hcurr) as Hsome.
    destruct (insert_layer_ok sort_items sort_perm S id vec l h curr n) as (h1 & c1 & E1 & (Hr1 & Hc1 & Hm1) & _ & _); try done; [by apply HDS|]. rewrite E1. cbn [mbind res_bind]. intros E.
    assert (forall l', l' <> l -> same_layer l' h h1 /\ D c1) as Hfr.
    { intros l' Hl'. eapply (insert_layer_frame S D id vec l l' h curr n h1 c1); try done. apply Hcl, list_elem_of_here. }
    destruct (rewired_Some _ _ id n Hr1 Hn) as (n1 & Hn1 & Hsh). assert (length (Neighbors n1) = length (Neighbors n)) as El by (unfold shape in Hsh; congruence).
    assert (0%nat <> l) as H0 by (intros <-; apply Hnin, elem_of_app; right; apply list_elem_of_here).
    eapply (IH h1 c1 n1 h' HN); try done.
    + by eapply rewired_nodes_ok.
    + by rewrite (rw_M _ _ Hr1).
    + by rewrite (rw_M0 _ _ Hr1).
    + by rewrite (rw_efc _ _ Hr1).
    + by rewrite (rw_dim _ _ Hr1).
    + by rewrite El.
    + intros l' Hl'. assert (l' <> l) as Hne by (intros ->; apply Hnin, elem_of_app; by left). eapply same_layer_closed; [exact Hr1|by apply Hfr|]. apply Hcl. by apply list_elem_of_further.
    + eapply same_layer_complete; [exact Hr1|by apply Hfr|done].
    + by apply (Hfr 0%nat).
    + by rewrite (rewired_size _ _ Hr1).
    + intros x d Hloc. eapply Hnan, located_rewired; [exact Hr1|exact Hloc].
Qed.

(** All links lead to nodes, and on the lowest layer all nodes are linked. *)
Definition linked (h : HNSWIndex) : Prop := mentions (fun x => is_Some (Nodes h !! x)) h /\ complete_on (fun x => is_Some (Nodes h !! x)) h.

Lemma layers_split top : 0 <= top -> exists ls, layers top (-1) = ls ++ [0%nat] /\ NoDup (ls ++ [0%nat]).
Proof.
  intros Ht. unfold layers. replace (Z.to_nat (-1 + 1)) with 0%nat by lia. replace (Z.to_nat (top - -1)) with (S (Z.to_nat top)) by lia. cbn [seq rev].
  exists (rev (seq 1 (Z.to_nat top))). split; [done|]. change (rev (seq 1 (Z.to_nat top)) ++ [0%nat]) with (rev (seq 0 (S (Z.to_nat top)))). rewrite <- (Permutation_rev (seq 0 (S (Z.to_nat top)))). apply NoDup_seq.
Qed.

Lemma complete_iff D D' h : (forall x, D x <-> D' x) -> complete_on D h -> complete_on D' h.
Proof.
  intros HD [C1 C2]. constructor; [intros x Hx; by apply C1, HD|]. intros x n Hx Hn. destruct (C2 x n (proj2 (HD x) Hx) Hn) as (ns & H1 & H2 & H3). exists ns. split; [done|]. split; [done|].
  intros y. by rewrite H3, HD.
Qed.

Lemma settle_linked id lvl h : linked h -> linked (settle id lvl h).
Proof. intros [HM [C1 C2]]. unfold settle. destruct (MaxLevel h <? lvl); (split; [exact HM|by constructor]). Qed.

Lemma fresh_linked id vec lvl h : 0 <= lvl -> Nodes h = ∅ -> linked (set_entry id lvl (with_node id vec lvl h)).
Proof.
  intros Hl He. assert (forall x n, Nodes (with_node id vec lvl h) !! x = Some n -> x = id /\ n = fresh_node id vec lvl) as Hone.
  { intros x n. cbn [with_node Nodes set_nodes]. rewrite He. destruct (decide (x = id)) as [->|Hx]; [rewrite lookup_insert_eq; by intros [= <-]|by rewrite lookup_insert_ne by done]. }
  split.
  - intros x n l ns Hn Hns y Hy. destruct (Hone x n Hn) as [_ ->]. apply fresh_links in Hns as ->. by apply not_elem_of_nil in Hy.
  - constructor; [done|]. intros x n _ Hn. destruct (Hone x n Hn) as [-> ->]. exists []. split; [cbn [Neighbors fresh_node]; apply lookup_replicate_2; lia|]. split; [constructor|].
    intros y. split; [intros Hy; by apply not_elem_of_nil in Hy|]. intros [Hy [m Hm]]. by destruct (Hone y m Hm).
Qed.

(** Up to 33 vectors an insertion keeps the lowest layer complete. *)
Lemma insert_linked id vec lvl h h' : graph_ok h -> linked h -> id <> [] -> vec <> [] -> 0 <= lvl -> fits h vec -> Nodes h !! id = None -> (size (Nodes h) <= 32)%nat ->
  (forall x d, located (with_node id vec (randomLevel lvl) h) vec x d -> isNaN d = false) ->
  Insert sort_items id vec lvl h = Ok (h', None) -> linked h'.
Proof using sort_perm.
  intros Hg [HM HC] Hne Hvec Hlvl Hd Hid Hsz Hnan. rewrite Insert_new by (try done; apply (g_dim h Hg)). cbv zeta. pose proof (randomLevel_range lvl Hlvl) as HL.
  set (L := randomLevel lvl) in *. clearbody L. destruct (with_node_ok id vec L h Hg Hid HL Hd) as [Hok Hcap]. destruct (g_params h Hg) as (P1 & P2 & P3 & P4).
  change (EntryPoint (with_node id vec L h)) with (EntryPoint h). change (MaxLevel (with_node id vec L h)) with (MaxLevel h). case_decide as He.
  { intros [= <-]. apply fresh_linked; [lia|]. by apply (g_entry h Hg). }
  set (h2 := with_node id vec L h) in *. set (D := fun x => is_Some (Nodes h !! x)) in *.
  assert (forall x, x <> id -> Nodes h2 !! x = Nodes h !! x) as Hsame by (intros x Hx; cbn [h2 with_node Nodes set_nodes]; by rewrite lookup_insert_ne).
  assert (Nodes h2 !! id = Some (fresh_node id vec L)) as Hnew by (cbn [h2 with_node Nodes set_nodes]; apply lookup_insert_eq).
  assert (~ D id) as HDid by (unfold D; rewrite Hid; by intros []). assert (mentions D h2) as Hm2.
  { intros x n l ns Hn Hns y Hy. destruct (decide (x = id)) as [->|Hx]; [rewrite Hnew in Hn; injection Hn as <-; apply fresh_links in Hns as ->; by apply not_elem_of_nil in Hy|]. rewrite Hsame in Hn by done. by apply (HM x n l ns). }
  assert (forall l, closed_on h2 l D) as Hcl by (intros l x n ns _ Hn Hns y Hy _; by apply (Hm2 x n l ns)).
  assert (forall x, D x -> x <> id) as Hneq by (by intros x Hx ->). assert (complete_on D h2) as HC2.
  { destruct HC as [C1 C2]. constructor; [intros x Hx; rewrite Hsame by auto; done|]. intros x n Hx. rewrite Hsame by auto. by apply C2. }
  destruct (proj2 (g_entry h Hg) He) as (e & Hent & Hlev & Hall). rewrite Hsame, Hent by (intros E; apply HDid; unfold D; rewrite <- E, Hent; done).
  assert (Z.of_nat (length vec) = Dimension h2) as Hd2 by reflexivity. pose proof (dim_length h2 vec Hok Hd2) as Hlen2.
  assert (Nodes h2 !! EntryPoint h = Some e) as Hent2 by (rewrite Hsame; [done|]; intros E; apply HDid; unfold D; rewrite <- E, Hent; done).
  destruct (locate h2 vec Hlen2 _ _ Hent2) as (d & -> & Hloc). cbn [mbind res_bind].
  destruct (greedy_spec h2 vec Hlen2 (layers (MaxLevel h) L) D (EntryPoint h) d) as (c & d' & -> & HDc & _); [by intros l _|by exists e|done|]. cbn [mbind res_bind].
  assert (0 <= MaxLevel h) as Hmax0 by (rewrite <- Hlev; apply (g_nodes h Hg _ _ Hent)).
  assert (0 <= top_layer h2 L <= L) as Htop by (unfold top_layer; change (MaxLevel h2) with (MaxLevel h); destruct (Z.ltb_spec (MaxLevel h) L); lia).
  set (S := fun x => D x \/ x = id). assert (mentions S h2) as HmS by (intros x n l ns Hn Hns y Hy; left; by apply (Hm2 x n l ns)).
  assert (Forall (fun l => l < length (Neighbors (fresh_node id vec L)))%nat (layers (top_layer h2 L) (-1))) as Hlv.
  { rewrite list.Forall_forall. intros l Hl%layers_below. cbn [Neighbors fresh_node]. rewrite length_replicate. lia. }
  destruct (insert_layers_ok sort_items sort_perm S id vec (layers (top_layer h2 L) (-1)) h2 c (fresh_node id vec L)) as (h3 & E3 & Hr3 & Hc3 & Hm3); try done; [by right|by rewrite Hsame by auto|by left|].
  rewrite E3. cbn [mbind res_bind]. intros [= <-]. apply settle_linked. destruct (layers_split (top_layer h2 L)) as (ls & El & HNl); [lia|]. rewrite El in E3, Hlv.
  assert (forall x, S x <-> is_Some (Nodes h3 !! x)) as HS3.
  { intros x. rewrite <- (fmap_is_Some shape), (rewired_lookup h2 h3 x Hr3), fmap_is_Some. unfold S. destruct (decide (x = id)) as [->|Hx]; [rewrite Hnew; split; [done|by right]|rewrite Hsame by done; split; [by intros [?|?]|by left]]. }
  split.
  - intros x n l ns Hn Hns y Hy. apply HS3. by apply (Hm3 x n l ns).
  - eapply complete_iff; [exact HS3|]. eapply (insert_layers_complete S D id vec ls h2 c (fresh_node id vec L) h3); try done; [by right|by left|].
    cbn [h2 with_node Nodes set_nodes]. rewrite map_size_insert_None by done. lia.
Qed.

(** A new vector for a node keeps all links. *)
Lemma update_linked id vec h h' n : linked h -> Nodes h !! id = Some n -> Nodes h' = <[id := set_vec vec n]> (Nodes h) -> linked h'.
Proof.
  intros [HM [C1 C2]] Hn E. assert (forall x m', Nodes h' !! x = Some m' -> exists m, Nodes h !! x = Some m /\ Neighbors m' = Neighbors m) as Hold.
  { intros x m'. rewrite E. destruct (decide (x = id)) as [->|Hx]; [rewrite lookup_insert_eq; intros [= <-]; by exists n|rewrite lookup_insert_ne by done; intros ?; by exists m']. }
  assert (forall x, is_Some (Nodes h' !! x) <-> is_Some (Nodes h !! x)) as Hiff.
  { intros x. rewrite E. destruct (decide (x = id)) as [->|Hx]; [by rewrite lookup_insert_eq, Hn|by rewrite lookup_insert_ne by done]. }
  split.
  - intros x m' l ns Hm' Hns y Hy. destruct (Hold x m' Hm') as (m & Hm & Em). rewrite Em in Hns. apply Hiff. by apply (HM x m l ns).
  - constructor; [done|]. intros x m' Hx Hm'. destruct (Hold x m' Hm') as (m & Hm & ->). destruct (C2 x m (proj1 (Hiff x) Hx) Hm) as (ns & H1 & H2 & H3). exists ns. split; [done|]. split; [done|].
    intros y. by rewrite H3, Hiff.
Qed.
End Exact.

(** ** Indexes built by additions *)

Section SmallIndex.
Context (sorts : forall A : Type, (A -> A -> bool) -> list A -> list A).
Context (order : gmap bytes HNSWNode -> list bytes) (iter : gmap bytes (list float32) -> list (bytes * list float32)).
Abbreviation sort_items := (sorts DistItem MinLess).
Abbreviation vrun := (vrun sorts order iter).
Abbreviation vexec := (vexec sorts order iter).
Abbreviation Search := (Vector.Search sorts iter).

Definition no_delete (op : vop) : Prop := match op with ODelete _ => False | _ => True end.
Definition names (ops : list vop) : gset bytes := list_to_set (omap (fun op => match op with OAdd id _ _ => Some id | _ => None end) ops).
Definition added (ops : list vop) : list (list float32) := omap (fun op => match op with OAdd _ vec _ => Some vec | _ => None end) ops.

(** No distance between two of the vectors is NaN, under any metric. *)
Definition numeric (vs : list (list float32)) : Prop :=
  forall a b metric d, a ∈ vs -> b ∈ vs -> Distance metric a b = Ok d -> isNaN d = false.

(** The answer of an exact search: all vectors of the map with their distances,
    sorted, and the first of them. *)
Definition nearest (m : gmap bytes (list float32)) (metric : bytes) (query : list float32) (topK : Z) (rs : list VectorSearchResult) : Prop :=
  exists ranked : list (bytes * list float32 * float64),
    ranked.*1 ≡ₚ map_to_list m /\ Forall (fun c => Distance metric query c.1.2 = Ok c.2) ranked /\
    StronglySorted (fun x y => fless y x = false) ranked.*2 /\
    rs = (fun c => mkResult c.1.1 (score_of metric c.2) c.1.2) <$> take (Z.to_nat (limit topK)) ranked.

Context (sort_perm : forall A less (l : list A), sorts A less l ≡ₚ l).
Context (sort_sorted : forall q, Forall (fun it => isNaN (Dist it) = false) q -> StronglySorted (fun x y => fless (Dist y) (Dist x) = false) (sort_items q)).
Context (order_all : forall m x, x ∈ order m <-> is_Some (m !! x)) (iter_empty : iter ∅ = []).

(** What additions keep: the graph agrees with the map and is linked. *)
Definition small_ok (N : gset bytes) (vs : list (list float32)) (vi : VectorIndex) : Prop :=
  exists g, v_HNSW vi = Some g /\ graph_ok g /\ Dimension g = v_Dimension vi /\ vectors g = v_Vectors vi /\ linked g /\
    dom (v_Vectors vi) ⊆ N /\ forall id v, v_Vectors vi !! id = Some v -> v ∈ vs.

Lemma vectors_lookup g id n : Nodes g !! id = Some n -> vectors g !! id = Some (Vec n).
Proof. intros Hn. unfold vectors. by rewrite lookup_fmap, Hn. Qed.

Lemma dimension_linked d g : linked g -> linked (set_dimension d g).
Proof. intros [HM [C1 C2]]. split; [exact HM|by constructor]. Qed.

Lemma small_add N vs id vec lvl vi : (size N <= 33)%nat -> numeric vs -> small_ok N vs vi -> id <> [] -> vec <> [] -> 0 <= lvl -> id ∈ N -> vec ∈ vs ->
  exists vi' e, Add sorts id vec lvl vi = Ok (vi', e) /\ small_ok N vs vi'.
Proof using sort_perm.
  intros HN Hvs (g & Hg & Hok & Hdim & Hvec & Hlink & Hdom & Hin) Hid Hne Hlvl HidN Hv. destruct (decide (agrees (v_Dimension vi) vec)) as [Ha|Ha].
  2:{ unfold Add. destruct (g_dim g Hok) as [Hpos _]. rewrite agrees_test, bool_decide_false by (done || lia). exists vi, (Some ErrDimensionMismatch). split; [done|]. by exists g. }
  destruct (Add_graph sorts id vec lvl vi g Hg Hok Hdim Ha) as (Hok1 & Hf & ->). set (g1 := set_dimension _ g) in *. assert (linked g1) as Hl1 by (by apply dimension_linked).
  assert (exists g2, Insert sort_items id vec lvl g1 = Ok (g2, None) /\ graph_ok g2 /\ vectors g2 = <[id := vec]> (vectors g1) /\ Dimension g2 = Z.of_nat (length vec) /\ linked g2) as (g2 & -> & Hok2 & Hv2 & Hd2 & Hl2).
  { destruct (Nodes g1 !! id) as [n|] eqn:Hn.
    - destruct (insert_old_ok sort_items id vec lvl g1 n) as (g2 & ? & ? & ? & ? & _ & E & _); [done..|]. exists g2. split; [done|]. split; [done|]. split; [done|]. split; [done|]. by eapply (update_linked id vec g1 g2 n).
    - destruct (insert_new_ok sort_items (sort_perm _ _) id vec lvl g1) as (g2 & E & ? & ? & ? & _); [done..|]. exists g2. split; [done|]. split; [done|]. split; [done|]. split; [done|].
      eapply (insert_linked sort_items (sort_perm _ _) id vec lvl g1 g2); try done.
      + assert (size (dom (v_Vectors vi) ∪ {[id]}) <= size N)%nat as Hsz.
        { apply subseteq_size. apply union_subseteq. split; [done|]. by apply singleton_subseteq_l. }
        rewrite size_union, size_singleton, size_dom in Hsz.
        * rewrite <- (map_size_fmap Vec (Nodes g1)). change (Vec <$> Nodes g1) with (vectors g). rewrite Hvec. lia.
        * intros x Hx ->%elem_of_singleton. apply elem_of_dom in Hx. rewrite <- Hvec in Hx. unfold vectors in Hx. rewrite lookup_fmap in Hx. change (Nodes g1) with (Nodes g) in Hn. rewrite Hn in Hx. by destruct Hx.
      + intros x d (m & Hm & Hd). apply (Hvs vec (Vec m) (Metric g1) d Hv); [|exact Hd]. cbn [with_node Nodes set_nodes] in Hm. destruct (decide (x = id)) as [->|Hx]; [rewrite lookup_insert_eq in Hm; by injection Hm as <-|].
        rewrite lookup_insert_ne in Hm by done. apply (Hin x). rewrite <- Hvec. by apply vectors_lookup. }
  cbn [mbind res_bind]. eexists _, _. split; [done|]. exists g2. cbn [v_HNSW v_Dimension v_Vectors]. split; [done|]. split; [done|]. split; [done|]. split; [by rewrite Hv2, <- Hvec|]. split; [done|].
  rewrite dom_insert. split; [apply union_subseteq; split; [by apply singleton_subseteq_l|done]|]. intros x v. destruct (decide (x = id)) as [->|Hx]; [rewrite lookup_insert_eq; by intros [= <-]|rewrite lookup_insert_ne by done; apply Hin].
Qed.

Lemma small_search N vs q k mt ef vi vi' r : small_ok N vs vi -> Search q k mt ef vi = Ok (vi', r) -> small_ok N vs vi'.
Proof.
  intros (g & Hg & Hok & Hdim & Hvec & Hlink & Hdom & Hin). unfold Vector.Search. rewrite Hg. assert (small_ok N vs vi) as Hs by (by exists g).
  case_match; [by intros [= <- _]|]. cbv zeta. case_decide.
  - destruct (Hnsw.Search _ _ _ _ _); cbn [mbind res_bind]; [|done]. intros [= <- _]. exists (set_metric (if decide (mt = []) then str "cosine" else mt) g). split; [done|]. split; [by apply set_metric_ok|]. split; [done|]. split; [done|].
    split; [|done]. destruct Hlink as [HM [C1 C2]]. split; [exact HM|by constructor].
  - destruct (exactSearch _ _ _ _ _ _); cbn [mbind res_bind]; [|done]. by intros [= <- _].
Qed.

Lemma small_run N vs ops : (size N <= 33)%nat -> numeric vs -> forall vi vi' rs, small_ok N vs vi -> Forall op_ok ops -> Forall no_delete ops -> names ops ⊆ N -> (forall v, v ∈ added ops -> v ∈ vs) ->
  vrun vi ops = Ok (vi', rs) -> small_ok N vs vi'.
Proof using sort_perm.
  intros HN Hvs. induction ops as [|op ops IH]; intros vi vi' rs Hs Hops Hnd Hnames Hadd; cbn [Vector.vrun]; [by intros [= <- _]|].
  apply Forall_cons in Hops as [Hop Hops]. apply Forall_cons in Hnd as [Hd Hnd]. destruct (vexec vi op) as [[vi1 r]|] eqn:E1; cbn [mbind res_bind]; [|done].
  destruct (vrun vi1 ops) as [[vi2 rs2]|] eqn:E2; cbn [mbind res_bind]; [|done]. intros [= <- <-].
  assert (names ops ⊆ N /\ (forall v, v ∈ added ops -> v ∈ vs)) as [Hnames' Hadd'].
  { unfold names, added in *. destruct op; cbn [omap list_omap] in Hnames, Hadd; [|by split..]. cbn [list_to_set] in Hnames. apply union_subseteq in Hnames as [_ ?]. split; [done|]. intros v Hv. apply Hadd. by apply list_elem_of_further. }
  eapply (IH vi1 vi2 rs2); try done. destruct op as [id vec lvl|id|q k mt ef]; [|done|]; cbn [Vector.vexec] in E1.
  - destruct Hop as (H1 & H2 & H3). destruct (small_add N vs id vec lvl vi) as (vi0 & e & E0 & Hs0); try done.
    + unfold names in Hnames. cbn [omap list_omap list_to_set] in Hnames. apply union_subseteq in Hnames as [Hn _]. by apply singleton_subseteq_l in Hn.
    + apply Hadd. unfold added. cbn [omap list_omap]. apply list_elem_of_here.
    + rewrite E0 in E1. cbn [mbind res_bind] in E1. by injection E1 as <- _.
  - destruct (Search q k mt ef vi) as [[vi0 r0]|] eqn:E0; cbn [mbind res_bind] in E1; [|done]. injection E1 as <- _. by eapply small_search.
Qed.

Lemma limit_idem k : limit (limit k) = limit k.
Proof. pose proof (limit_pos k). unfold limit at 1. destruct (Z.leb_spec (limit k) 0); lia. Qed.

Definition rank (m : gmap bytes (list float32)) (it : DistItem) : bytes * list float32 * float64 := (di_ID it, default [] (m !! di_ID it), Dist it).

(** Candidates that are all the nodes are a ranking of the map. *)
Lemma rank_perm g cs : NoDup (di_ID <$> cs) -> (forall x, x ∈ di_ID <$> cs <-> is_Some (Nodes g !! x)) -> (rank (vectors g) <$> cs).*1 ≡ₚ map_to_list (vectors g).
Proof.
  intros HN Hids. rewrite <- list_fmap_compose. apply NoDup_Permutation; [|apply NoDup_map_to_list|].
  - apply (NoDup_fmap_1 fst). rewrite <- list_fmap_compose. exact HN.
  - intros [x v]. rewrite elem_of_map_to_list, list_elem_of_fmap. split.
    + intros (it & [= -> ->] & Hit). destruct (proj1 (Hids (di_ID it))) as [n Hn]; [by apply list_elem_of_fmap_2|]. by rewrite (vectors_lookup g _ n Hn).
    + intros Hx. assert (x ∈ di_ID <$> cs) as Hin by (apply Hids; unfold vectors in Hx; rewrite lookup_fmap in Hx; by destruct (Nodes g !! x)).
      apply list_elem_of_fmap in Hin as (it & -> & Hit). exists it. split; [|done]. cbn [compose rank fst]. by rewrite Hx.
Qed.

Lemma results_ranked g query cs rs : Forall2 (fun it r => r_ID r = di_ID it /\ found g query r (Dist it)) cs rs ->
  rs = (fun c => mkResult c.1.1 (score_of (Metric g) c.2) c.1.2) <$> (rank (vectors g) <$> cs).
Proof.
  induction 1 as [|it [id sc v] cs rs (E & Hv & _ & Hs) _ IH]; [done|]. cbn [fmap list_fmap]. f_equal; [|exact IH]. cbn [r_ID r_Vec Score] in *. subst id sc. unfold rank. cbn [fst snd]. by rewrite Hv.
Qed.

Lemma exact_answer N vs vi query topK metric ef : (size N <= 33)%nat -> numeric (query :: vs) -> small_ok N vs vi -> agrees (v_Dimension vi) query ->
  (ef <= 0 \/ Z.of_nat (size (v_Vectors vi)) <= ef) -> exists vi' rs, Search query topK metric ef vi = Ok (vi', inl rs) /\ nearest (v_Vectors vi) (effective metric) query topK rs.
Proof using sort_perm sort_sorted iter_empty.
  intros HN Hvs (g & Hg & Hok & Hdim & Hvec & Hlink & Hdom & Hin) Ha Hef. unfold Vector.Search. destruct (g_dim g Hok) as [Hpos _]. rewrite agrees_test, bool_decide_true by (done || lia). cbn [negb].
  rewrite Hg. cbv zeta. fold (effective metric). fold (limit topK). destruct (decide (v_Vectors vi <> ∅)) as [Hne|Hne].
  - set (g1 := set_metric (effective metric) g). assert (graph_ok g1) as Hok1 by (by apply set_metric_ok). set (e1 := if ef <=? 0 then EFSearch g1 else ef).
    assert (fits g1 query) as Hf by (destruct Ha as [Ha|Ha]; [left|right]; cbn; congruence). destruct Hlink as [HM HC].
    assert (Nodes g1 <> ∅) as Hne1 by (intros E; apply Hne; rewrite <- Hvec; unfold vectors; change (Nodes g1) with (Nodes g) in E; by rewrite E).
    destruct (Search_descends sort_items g1 query (limit topK) e1 (fun x => is_Some (Nodes g !! x)) Hok1 Hf Hne1) as (Hd & c & Hc & _ & ->).
    { intros l x n ns _ Hn Hns y Hy _. by apply (HM x n l ns). }
    { destruct (g_entry g Hok) as [E1 E2]. destruct (E2 (fun E => Hne1 (E1 E))) as (e & He & _). by exists e. }
    assert (Z.of_nat (size (Nodes g1)) <= breadth (limit topK) e1) as Hsz.
    { assert (size (Nodes g1) = size (v_Vectors vi)) as -> by (rewrite <- Hvec; unfold vectors; by rewrite map_size_fmap).
      assert (size (v_Vectors vi) <= 33)%nat as H33 by (rewrite <- (size_dom (D := gset bytes)); etransitivity; [by apply subseteq_size|done]).
      destruct (g_params g Hok) as (_ & _ & _ & P4). unfold breadth. assert (Z.of_nat (size (v_Vectors vi)) <= e1) as H1; [|destruct (Z.ltb_spec e1 (limit (limit topK))); lia].
      subst e1. destruct (Z.leb_spec ef 0); [cbn [EFSearch g1 set_metric]; rewrite P4; unfold DefaultEFSearch; lia|]. destruct Hef; lia. }
    assert (forall x d, located g1 query x d -> isNaN d = false) as Hnan.
    { intros x d (n & Hn & Hdist). apply (Hvs query (Vec n) (Metric g1) d); [apply list_elem_of_here| |done]. apply list_elem_of_further, (Hin x). rewrite <- Hvec. by apply vectors_lookup. }
    destruct HC as [C1 C2]. assert (complete_on (fun x => is_Some (Nodes g !! x)) g1) as HC1 by (by constructor).
    destruct (search_complete sort_items (sort_perm _ _) g1 query c (breadth (limit topK) e1) _ (g_nodes g1 Hok1) Hd HC1 Hc Hnan Hsz) as (cs & E & HNd & Hids & HF).
    pose proof (searchLayer_sorted sort_items (sort_perm _ _) sort_sorted g1 query (limit topK) e1 c 0 cs (g_nodes g1 Hok1) Hd) as HS. rewrite E. cbn [mbind res_bind]. rewrite limit_idem.
    destruct (results_spec g1 query (take (Z.to_nat (limit topK)) cs)) as (rs & -> & HR); [by apply Forall_take|]. cbn [mbind res_bind]. eexists _, _. split; [done|].
    exists (rank (vectors g1) <$> cs). change (vectors g1) with (vectors g). split; [|split; [|split]].
    + rewrite <- Hvec. by apply rank_perm.
    + rewrite Forall_fmap. eapply list.Forall_impl; [exact HF|]. intros it (n & Hn & Hdist). unfold rank. cbn [compose fst snd]. rewrite (vectors_lookup g _ n Hn). exact Hdist.
    + rewrite <- list_fmap_compose. change (snd ∘ rank (vectors g)) with Dist. rewrite <- (take_ge cs (length cs)) by lia. apply sorted_take. apply HS; [|by exact Hc|done].
      intros id v d Hv Hdist. apply (Hvs query v (Metric g1) d); [apply list_elem_of_here| |done]. apply list_elem_of_further, (Hin id). by rewrite <- Hvec.
    + rewrite <- fmap_take. by apply (results_ranked g1 query).
  - assert (v_Vectors vi = ∅) as E0 by (by apply dec_stable). unfold exactSearch. rewrite E0, iter_empty. cbn [exact_results mbind res_bind].
    assert (forall less, sorts VectorSearchResult less [] = []) as -> by (intros less; by apply Permutation_nil_r, sort_perm). pose proof (limit_pos topK) as Hk.
    change (Z.of_nat (length (@nil VectorSearchResult))) with 0. rewrite (proj2 (Z.ltb_ge (limit topK) 0)) by lia. exists vi, []. split; [done|]. exists []. split; [by rewrite map_to_list_empty|]. split; [constructor|]. split; [constructor|].
    by rewrite take_nil.
Qed.

(** C15: up to 33 vectors a search is exact: an index built by any additions,
    replacements and searches, over at most 33 names and with any levels drawn, answers
    a query with its nearest vectors, in order and with their scores, as sorting all of
    them by distance would; the breadth of the search must be left at its default or
    cover the index, and no distance may be NaN. *)
Theorem small_index_exact dim ops query topK metric ef : 0 <= dim -> Forall op_ok ops -> Forall no_delete ops -> (size (names ops) <= 33)%nat -> numeric (query :: added ops) ->
  exists vi rs, vrun (NewVectorIndex dim) ops = Ok (vi, rs) /\
    (agrees (v_Dimension vi) query -> (ef <= 0 \/ Z.of_nat (size (v_Vectors vi)) <= ef) ->
     exists vi' results, Search query topK metric ef vi = Ok (vi', inl results) /\ nearest (v_Vectors vi) (effective metric) query topK results).
Proof using sort_perm sort_sorted order_all iter_empty.
  intros Hd Hops Hnd HN Hnum. pose proof (new_index_ok dim Hd) as Hnew.
  assert (small_ok (names ops) (added ops) (NewVectorIndex dim)) as H0.
  { destruct Hnew as (g & Hg & Hok & Hdim & Hvec). exists g. split; [done|]. split; [done|]. split; [done|]. split; [done|]. injection Hg as <-.
    split; [|split; [apply empty_subseteq|done]]. split; [by intros ? ?|]. constructor; [done|]. by intros ? ? []. }
  destruct (vrun_ok sorts order iter sort_perm sort_sorted order_all iter_empty ops (NewVectorIndex dim) Hnew Hops) as (vi & rs & E & _).
  exists vi, rs. split; [done|]. intros Ha Hef. eapply (exact_answer (names ops) (added ops)); try done. eapply (small_run (names ops) (added ops) ops); try done.
  intros a b mt d Hx Hy. apply Hnum; by apply list_elem_of_further.
Qed.
End SmallIndex.

(** ** Three vectors, searched by distance *)

Lemma Distance_three metric a b : exists mt, mt ∈ [str "l2"; str "dot"; str "cosine"] /\ Distance metric a b = Distance mt a b.
Proof.
  unfold Distance. destruct (is_l2 metric) eqn:E1; [|destruct (is_dot metric) eqn:E2].
  - exists (str "l2"). split; [apply list_elem_of_here|done].
  - exists (str "dot"). split; [apply list_elem_of_further, list_elem_of_here|done].
  - exists (str "cosine"). split; [do 2 apply list_elem_of_further; apply list_elem_of_here|done].
Qed.

(** Whether all distances between the vectors of a list are numbers. *)
Definition numericb (vs : list (list float32)) : bool :=
  forallb (fun a => forallb (fun b => forallb (fun mt => match Distance mt a b with Ok d => negb (isNaN d) | Err _ => true end) [str "l2"; str "dot"; str "cosine"]) vs) vs.

Lemma numericb_spec vs : numericb vs = true -> numeric vs.
Proof.
  unfold numericb. intros H a b metric d Ha Hb Hd. rewrite forallb_forall in H. specialize (H a (proj1 (list_elem_of_In _ _) Ha)). rewrite forallb_forall in H. specialize (H b (proj1 (list_elem_of_In _ _) Hb)).
  rewrite forallb_forall in H. destruct (Distance_three metric a b) as (mt & Hmt & E). specialize (H mt (proj1 (list_elem_of_In _ _) Hmt)). rewrite <- E, Hd in H. by apply negb_true_iff.
Qed.

Definition diagonal : list float32 := [1065353216; 1065353216].
Definition three_ops : list vop := [OAdd (str "e") east 0; OAdd (str "n") north 1; OSearch north 1 (str "dot") 0; OAdd (str "d") diagonal 0].

Lemma small_index_exact_witness : exists vi rs vi' results,
  vrun insertion map_order map_items (NewVectorIndex 2) three_ops = Ok (vi, rs) /\
  Vector.Search insertion map_items east 2 (str "l2") 0 vi = Ok (vi', inl results) /\ nearest (v_Vectors vi) (str "l2") east 2 results /\ r_ID <$> results = [str "e"; str "d"].
Proof.
  destruct (small_index_exact insertion map_order map_items insertion_perm insertion_sorted map_order_all map_items_empty 2 three_ops east 2 (str "l2") 0) as (vi & rs & E & H);
    [lia|repeat constructor; done|repeat constructor; done|apply (bool_decide_unpack _); by vm_compute|apply numericb_spec; by vm_compute|].
  assert (match vrun insertion map_order map_items (NewVectorIndex 2) three_ops with
          | Ok (vi, _) => bool_decide (v_Dimension vi = 2) && match Vector.Search insertion map_items east 2 (str "l2") 0 vi with Ok (_, inl rs) => bool_decide (r_ID <$> rs = [str "e"; str "d"]) | _ => false end
          | Err _ => false end = true) as Hc by (vm_compute; reflexivity).
  rewrite E in Hc. apply andb_true_iff in Hc as [Hd%bool_decide_eq_true Hc].
  destruct (H (or_intror (eq_sym Hd)) (or_introl (Z.le_refl 0))) as (vi' & results & ES & Hn). rewrite ES in Hc. exists vi, rs, vi', results. split; [exact E|]. split; [exact ES|]. split; [exact Hn|].
  exact (bool_decide_eq_true_1 _ Hc).
Defined.

(** ** A link to itself

    A list that was cut loses a link whose other end stays.  When the node at that end
    is deleted and its name used again, the walk finds the new node through the old
    link and selects it as its own neighbour. *)

Definition at_ (z : Z) : list float32 := [z].

(** The bit patterns of 100, 1/2, and of seventeen numbers between 0 and 1/4. *)
Definition far : list float32 := at_ 1120403456.
Definition close (i : nat) : list float32 := at_ (1036831949 + Z.of_nat i).

Definition grow (id : bytes) (v : list float32) (g : option HNSWIndex) : option HNSWIndex :=
  g ← g; match Insert (insertion DistItem MinLess) id v 1 g with Ok (g, None) => Some g | _ => None end.

Definition cut_graph : option HNSWIndex :=
  foldl (fun g i => grow [z2b (97 + Z.of_nat i)] (close i) g) (grow (str "D") (at_ 1036831949) (grow (str "X") far (Some (NewHNSWIndex 1 (str "l2"))))) (seq 0 17).

Definition reused : option HNSWIndex :=
  g ← cut_graph; match Hnsw.Delete (map_order (delete (str "D") (Nodes g))) (str "D") g with Ok (g, _) => grow (str "D") far (Some g) | Err _ => None end.

Theorem reused_name_links_itself : exists g n ns, reused = Some g /\ Nodes g !! str "D" = Some n /\ Neighbors n !! 1%nat = Some ns /\ str "D" ∈ ns.
Proof.
  assert (match reused with Some g => match Nodes g !! str "D" with Some n => match Neighbors n !! 1%nat with Some ns => bool_decide (str "D" ∈ ns) | None => false end | None => false end | None => false end = true) as H by (vm_compute; reflexivity).
  destruct reused as [g|]; [|done]. destruct (Nodes g !! str "D") as [n|] eqn:Hn; [|done]. destruct (Neighbors n !! 1%nat) as [ns|] eqn:Hns; [|done]. apply bool_decide_eq_true in H. by exists g, n, ns.
Qed.
