(* ===== verification/Commands.v ===== *)
(** * The data commands (internal/engine/engine.go)

    The cases of [dispatch] for keys, strings, hashes, lists, sets and sorted
    sets, with the handlers they call.  A command takes the keyspace and returns
    the new keyspace, the reply and whether it counts as a write (which is what
    the append-only file, the replicas and WATCH go by); a failed type assertion,
    a slice of negative length or a fault of a skip list is an error of the whole
    command.

    A value such as a list is shared between its entry and the code that got it
    from the entry: a change through the pointer changes the entry, which is
    [poke].  [ParseFloat] and [FormatFloat] are arguments, and so are the clocks
    and the random draws of the skip lists.  The replies of HGETALL, HKEYS, HVALS and
    SMEMBERS list a Go map, in a random order; here the order is fixed by the content
    of the map, so that equal replies mean equal up to that order. *)

From S2P Require Import Prelude Resp SetDs HashDs ListDs Stream SkipList Keyspace.

(** The clocks a command reads: [FastNowMilli], the same once more, and
    [time.Now().UnixMilli()]. *)
Record clock := mkClock { now : Z; later : Z; wall : Z }.

Section Commands.
Context {VectorIndex : Type}.
Context (ParseFloat : bytes -> option Z) (FormatFloat : Z -> bytes).

Abbreviation Value := (@Keyspace.Value SkipList.SkipList VectorIndex).
Abbreviation Entry := (@Keyspace.Entry SkipList.SkipList VectorIndex).
Abbreviation Keyspace := (@Keyspace.Keyspace SkipList.SkipList VectorIndex).

(** A reply and [isWrite]. *)
Abbreviation answer := (Resp.Value * bool)%type.
Abbreviation outcome := (res fault (Keyspace * answer)).

Definition reads (v : Resp.Value) : answer := (v, false).
Definition writes (v : Resp.Value) : answer := (v, true).

Definition OK : Resp.Value := SimpleString (str "OK").
Definition wrong_args (name : bytes) : answer :=
  reads (Error (str "ERR wrong number of arguments for '" ++ name ++ str "' command")).
Definition wrong_type : answer :=
  reads (Error (str "WRONGTYPE Operation against a key holding the wrong kind of value")).
Definition not_integer : answer :=
  reads (Error (str "ERR value is not an integer or out of range")).
Definition ks_error_text (e : ks_error) : answer :=
  match e with WRONGTYPE => wrong_type | ErrNotInteger => not_integer end.

Definition bulks (l : list bytes) : Resp.Value := Array (BulkString <$> l).

Definition type_name (t : EntryType) : bytes :=
  match t with
  | TypeString => str "string" | TypeHash => str "hash" | TypeList => str "list" | TypeSet => str "set"
  | TypeZSet => str "zset" | TypeVector => str "vector" | TypeStream => str "stream"
  end.

(** ** Access to the value of an entry *)

Definition conversion {A} (o : option A) : res fault A :=
  match o with Some a => Ok a | None => Err (Fault PanicConversion) end.

Definition as_string (v : Value) : option bytes := match v with VString s => Some s | _ => None end.
Definition as_hash (v : Value) : option Hash := match v with VHash h => Some h | _ => None end.
Definition as_list (v : Value) : option List_ := match v with VList l => Some l | _ => None end.
Definition as_set (v : Value) : option SetDs.Set_ := match v with VSet s => Some s | _ => None end.
Definition as_zset (v : Value) : option SkipList := match v with VZSet z => Some z | _ => None end.

(** The value of the entry of [key] after a change through its pointer. *)
Definition poke (ks : Keyspace) (key : bytes) (v : Value) : Keyspace :=
  match look ks key with
  | Some e => store ks key (mkE (Type_ e) v (ExpiresAt e) (UpdatedAt e) (LastAccessedAt e))
  | None => ks
  end.

(** [entry, ok := Get(key); if !ok { absent }; if entry.Type != t { wrong };
    body(entry.Value.(T))]: without and with a change of the value. *)
Definition reading {T} (c : clock) (key : bytes) (t : EntryType) (conv : Value -> option T)
    (absent wrong : answer) (body : T -> res fault answer) (ks : Keyspace) : outcome :=
  let '(ks, r) := Keyspace.Get ks (now c) key in
  match r with
  | None => Ok (ks, absent)
  | Some entry =>
      if decide (Type_ entry = t) then
        x ← conversion (conv (Value_ entry));
        a ← body x;
        Ok (ks, a)
      else Ok (ks, wrong)
  end.

Definition updating {T} (c : clock) (key : bytes) (t : EntryType) (conv : Value -> option T) (wrap : T -> Value)
    (absent wrong : answer) (body : T -> res fault (T * answer)) (ks : Keyspace) : outcome :=
  let '(ks, r) := Keyspace.Get ks (now c) key in
  match r with
  | None => Ok (ks, absent)
  | Some entry =>
      if decide (Type_ entry = t) then
        x ← conversion (conv (Value_ entry));
        '(x, a) ← body x;
        Ok (poke ks key (wrap x), a)
      else Ok (ks, wrong)
  end.

(** [entry, _ := GetOrCreate(key, t, new); if entry.Type != t { WRONGTYPE };
    body(entry.Value.(T))]. *)
Definition creating {T} (c : clock) (key : bytes) (t : EntryType) (conv : Value -> option T) (wrap : T -> Value)
    (new : T) (body : T -> res fault (T * answer)) (ks : Keyspace) : outcome :=
  let '(ks, entry, _) := GetOrCreate ks (now c) key t (fun _ => wrap new) in
  if decide (Type_ entry = t) then
    x ← conversion (conv (Value_ entry));
    '(x, a) ← body x;
    Ok (poke ks key (wrap x), a)
  else Ok (ks, wrong_type).

Definition set_string (v : bytes) (expiresAt : Z) : Entry := mkE TypeString (VString v) expiresAt 0 0.

(** [args[i]], after the number of arguments was checked. *)
Definition arg (args : list bytes) (i : nat) : bytes := default [] (args !! i).

(** ** Keys and strings *)

(** The option loop of [handleSet]: the time to live and the flags NX and XX. *)
Fixpoint set_options (opts : list bytes) (ttlMillis : Z) (nx xx : bool) : res answer (Z * bool * bool) :=
  match opts with
  | [] => Ok (ttlMillis, nx, xx)
  | o :: opts' =>
      let opt := ToUpper o in
      if decide (opt = str "EX") then
        match opts' with
        | [] => Err (reads (Error (str "ERR syntax error")))
        | v :: opts'' =>
            match ParseInt v with
            | Ok sec => if sec <=? 0 then Err not_integer else set_options opts'' (int64 (sec * 1000)) nx xx
            | Err _ => Err not_integer
            end
        end
      else if decide (opt = str "PX") then
        match opts' with
        | [] => Err (reads (Error (str "ERR syntax error")))
        | v :: opts'' =>
            match ParseInt v with
            | Ok ms => if ms <=? 0 then Err not_integer else set_options opts'' ms nx xx
            | Err _ => Err not_integer
            end
        end
      else if decide (opt = str "NX") then set_options opts' ttlMillis true xx
      else if decide (opt = str "XX") then set_options opts' ttlMillis nx true
      else set_options opts' ttlMillis nx xx
  end.

Definition handleSet (c : clock) (args : list bytes) (ks : Keyspace) : outcome :=
  match args with
  | key :: val :: opts =>
      match set_options opts 0 false false with
      | Err a => Ok (ks, a)
      | Ok (ttlMillis, nx, xx) =>
          let '(ks, blocked) :=
            if nx || xx then
              let '(ks, r) := Keyspace.Get ks (now c) key in
              (ks, match r with Some _ => nx | None => xx end)
            else (ks, false) in
          if (blocked : bool) then Ok (ks, reads Null)
          else
            let expiresAt := if 0 <? ttlMillis then int64 (now c + ttlMillis) else 0 in
            Ok (Keyspace.Set_ ks (now c) key (set_string val expiresAt), writes OK)
      end
  | _ => Ok (ks, wrong_args (str "set"))
  end.

Definition cmd_get (c : clock) (args : list bytes) (ks : Keyspace) : outcome :=
  match args with
  | key :: _ => reading c key TypeString as_string (reads Null) wrong_type (fun s => Ok (reads (BulkString s))) ks
  | [] => Ok (ks, wrong_args (str "get"))
  end.

(** The loop of MSET over pairs of arguments. *)
Fixpoint mset_loop (c : clock) (args : list bytes) (ks : Keyspace) : Keyspace :=
  match args with
  | k :: v :: args' => mset_loop c args' (Keyspace.Set_ ks (now c) k (set_string v 0))
  | _ => ks
  end.

Definition cmd_mset (c : clock) (args : list bytes) (ks : Keyspace) : outcome :=
  if decide (length args < 2 \/ length args mod 2 <> 0)%nat then Ok (ks, wrong_args (str "mset"))
  else Ok (mset_loop c args ks, writes OK).

Fixpoint mget_loop (c : clock) (args : list bytes) (ks : Keyspace) : res fault (Keyspace * list Resp.Value) :=
  match args with
  | [] => Ok (ks, [])
  | k :: args' =>
      '(ks, a) ← reading c k TypeString as_string (reads Null) (reads Null) (fun s => Ok (reads (BulkString s))) ks;
      '(ks, items) ← mget_loop c args' ks;
      Ok (ks, a.1 :: items)
  end.

Definition cmd_mget (c : clock) (args : list bytes) (ks : Keyspace) : outcome :=
  match args with
  | [] => Ok (ks, wrong_args (str "mget"))
  | _ => '(ks, items) ← mget_loop c args ks; Ok (ks, reads (Array items))
  end.

Definition cmd_del (args : list bytes) (ks : Keyspace) : outcome :=
  match args with
  | [] => Ok (ks, wrong_args (str "del"))
  | _ => let '(ks, count) := Keyspace.Delete ks args in Ok (ks, writes (Integer count))
  end.

Definition cmd_exists (c : clock) (args : list bytes) (ks : Keyspace) : outcome :=
  match args with
  | [] => Ok (ks, wrong_args (str "exists"))
  | _ => let '(ks, count) := Keyspace.Exists ks (now c) args in Ok (ks, reads (Integer count))
  end.

Definition cmd_type (c : clock) (args : list bytes) (ks : Keyspace) : outcome :=
  match args with
  | [] => Ok (ks, wrong_args (str "type"))
  | key :: _ =>
      let '(ks, r) := Keyspace.Get ks (now c) key in
      Ok (ks, reads (SimpleString (match r with None => str "none" | Some e => type_name (Type_ e) end)))
  end.

Definition of_ks (r : Keyspace * res ks_error Z) : outcome :=
  match r with
  | (ks, Ok n) => Ok (ks, writes (Integer n))
  | (ks, Err e) => Ok (ks, ks_error_text e)
  end.

Definition handleIncrBy (c : clock) (args : list bytes) (delta : Z) (ks : Keyspace) : outcome :=
  match args with
  | [] => Ok (ks, reads (Error (str "ERR wrong number of arguments for incr/decr command")))
  | key :: _ => of_ks (Keyspace.IncrBy ks (now c) key delta)
  end.

Definition cmd_incrby (c : clock) (args : list bytes) (sign : Z) (name : bytes) (ks : Keyspace) : outcome :=
  match args with
  | key :: d :: _ =>
      match ParseInt d with
      | Err _ => Ok (ks, not_integer)
      | Ok delta => handleIncrBy c [key] (int64 (sign * delta)) ks
      end
  | _ => Ok (ks, wrong_args name)
  end.

Definition cmd_append (c : clock) (args : list bytes) (ks : Keyspace) : outcome :=
  match args with
  | key :: v :: _ => of_ks (Keyspace.Append ks (now c) key v)
  | _ => Ok (ks, wrong_args (str "append"))
  end.

Definition cmd_strlen (c : clock) (args : list bytes) (ks : Keyspace) : outcome :=
  match args with
  | key :: _ =>
      reading c key TypeString as_string (reads (Integer 0)) wrong_type
        (fun s => Ok (reads (Integer (Z.of_nat (length s))))) ks
  | [] => Ok (ks, wrong_args (str "strlen"))
  end.

Definition cmd_setnx (c : clock) (args : list bytes) (ks : Keyspace) : outcome :=
  match args with
  | key :: v :: _ =>
      let '(ks, set) := Keyspace.SetNX ks (now c) key (set_string v 0) in
      Ok (ks, if (set : bool) then writes (Integer 1) else reads (Integer 0))
  | _ => Ok (ks, wrong_args (str "setnx"))
  end.

(** SETEX and PSETEX: [unit] milliseconds. *)
Definition cmd_setex (c : clock) (args : list bytes) (unit : Z) (name : bytes) (ks : Keyspace) : outcome :=
  match args with
  | key :: t :: v :: _ =>
      match ParseInt t with
      | Ok n =>
          if n <=? 0 then Ok (ks, reads (Error (str "ERR invalid expire time in '" ++ name ++ str "' command")))
          else Ok (Keyspace.Set_ ks (now c) key (set_string v (int64 (wall c + int64 (n * unit)))), writes OK)
      | Err _ => Ok (ks, reads (Error (str "ERR invalid expire time in '" ++ name ++ str "' command")))
      end
  | _ => Ok (ks, wrong_args name)
  end.

Definition of_flag (r : Keyspace * bool) : outcome :=
  let '(ks, b) := r in Ok (ks, if (b : bool) then writes (Integer 1) else reads (Integer 0)).

Definition cmd_expire (c : clock) (args : list bytes) (unit : Z) (name : bytes) (ks : Keyspace) : outcome :=
  match args with
  | key :: t :: _ =>
      match ParseInt t with
      | Ok n => of_flag (Keyspace.Expire ks (now c) key (int64 (n * unit)))
      | Err _ => Ok (ks, not_integer)
      end
  | _ => Ok (ks, wrong_args name)
  end.

Definition cmd_ttl (c : clock) (args : list bytes) (ks : Keyspace) : outcome :=
  match args with
  | key :: _ => let '(ks, n) := Keyspace.TTL ks (now c) (later c) key in Ok (ks, reads (Integer n))
  | [] => Ok (ks, wrong_args (str "ttl"))
  end.

Definition cmd_pttl (c : clock) (args : list bytes) (ks : Keyspace) : outcome :=
  match args with
  | key :: _ => let '(ks, n) := Keyspace.PTTL ks (now c) (later c) key in Ok (ks, reads (Integer n))
  | [] => Ok (ks, wrong_args (str "pttl"))
  end.

Definition cmd_persist (c : clock) (args : list bytes) (ks : Keyspace) : outcome :=
  match args with
  | key :: _ => of_flag (Keyspace.Persist ks (now c) key)
  | [] => Ok (ks, wrong_args (str "persist"))
  end.

(** ** Hashes *)

(** [for i := 1; i < len(args); i += 2 { addedCount += h.Set(args[i], args[i+1]) }]. *)
Fixpoint hset_loop (pairs : list bytes) (h : Hash) (added : Z) : Hash * Z :=
  match pairs with
  | f :: v :: pairs' => let '(h, n) := HashDs.Set_ h f v in hset_loop pairs' h (int64 (added + n))
  | _ => (h, added)
  end.

(** [kvs[args[i]] = args[i+1]]. *)
Fixpoint pairs_map (pairs : list bytes) (m : gmap bytes bytes) : gmap bytes bytes :=
  match pairs with
  | f :: v :: pairs' => pairs_map pairs' (<[f := v]> m)
  | _ => m
  end.

Definition handleHSet (c : clock) (args : list bytes) (ks : Keyspace) : outcome :=
  if decide (length args < 3 \/ (length args - 1) mod 2 <> 0)%nat then Ok (ks, wrong_args (str "hset"))
  else
    creating c (arg args 0) TypeHash as_hash VHash NewHash
      (fun h => let '(h, added) := hset_loop (drop 1 args) h 0 in Ok (h, writes (Integer added))) ks.

Definition handleHMSet (c : clock) (args : list bytes) (ks : Keyspace) : outcome :=
  if decide (length args < 3 \/ (length args - 1) mod 2 <> 0)%nat then Ok (ks, wrong_args (str "hmset"))
  else
    creating c (arg args 0) TypeHash as_hash VHash NewHash
      (fun h => let '(h, _) := HashDs.MSet h (map_to_list (pairs_map (drop 1 args) ∅)) in Ok (h, writes OK)) ks.

Definition cmd_hget (c : clock) (args : list bytes) (ks : Keyspace) : outcome :=
  match args with
  | key :: f :: _ =>
      reading c key TypeHash as_hash (reads Null) wrong_type
        (fun h => Ok (reads (match HashDs.Get h f with Some v => BulkString v | None => Null end))) ks
  | _ => Ok (ks, wrong_args (str "hget"))
  end.

Definition cmd_hmget (c : clock) (args : list bytes) (ks : Keyspace) : outcome :=
  match args with
  | key :: _ :: _ =>
      let nulls := reads (Array ((fun _ => Null) <$> drop 1 args)) in
      reading c key TypeHash as_hash nulls nulls
        (fun h => Ok (reads (Array ((fun f => match HashDs.Get h f with Some v => BulkString v | None => Null end)
                                      <$> drop 1 args)))) ks
  | _ => Ok (ks, wrong_args (str "hmget"))
  end.

Definition cmd_hdel (c : clock) (args : list bytes) (ks : Keyspace) : outcome :=
  if (length args <? 2)%nat then Ok (ks, wrong_args (str "hdel"))
  else
    updating c (arg args 0) TypeHash as_hash VHash (reads (Integer 0)) (reads (Integer 0))
      (fun h => let '(h, count) := HashDs.Del h (drop 1 args) in Ok (h, writes (Integer count))) ks.

(** The commands that only look at a whole hash: HLEN, HKEYS, HVALS, HGETALL. *)
Definition cmd_hash_view (c : clock) (args : list bytes) (name : bytes) (absent : Resp.Value)
    (body : Hash -> Resp.Value) (ks : Keyspace) : outcome :=
  match args with
  | key :: _ => reading c key TypeHash as_hash (reads absent) (reads absent) (fun h => Ok (reads (body h))) ks
  | [] => Ok (ks, wrong_args name)
  end.

Definition cmd_hlen c args := cmd_hash_view c args (str "hlen") (Integer 0) (fun h => Integer (HashDs.Len h)).
Definition cmd_hkeys c args := cmd_hash_view c args (str "hkeys") (Array []) (fun h => bulks (HashDs.Keys h)).
Definition cmd_hvals c args := cmd_hash_view c args (str "hvals") (Array []) (fun h => bulks (HashDs.Vals h)).
Definition cmd_hgetall c args :=
  cmd_hash_view c args (str "hgetall") (Array [])
    (fun h => bulks (concat ((fun kv => [kv.1; kv.2]) <$> map_to_list (HashDs.GetAll h)))).

Definition cmd_hexists (c : clock) (args : list bytes) (ks : Keyspace) : outcome :=
  match args with
  | key :: f :: _ =>
      reading c key TypeHash as_hash (reads (Integer 0)) (reads (Integer 0))
        (fun h => Ok (reads (Integer (if HashDs.Exists h f then 1 else 0)))) ks
  | _ => Ok (ks, wrong_args (str "hexists"))
  end.

Definition cmd_hincrby (c : clock) (args : list bytes) (ks : Keyspace) : outcome :=
  match args with
  | key :: f :: d :: _ =>
      match ParseInt d with
      | Err _ => Ok (ks, not_integer)
      | Ok delta =>
          creating c key TypeHash as_hash VHash NewHash
            (fun h =>
               let '(h, r) := HashDs.IncrBy h f delta in
               Ok (h, match r with
                      | Ok n => writes (Integer n)
                      | Err _ => reads (Error (str "ERR hash value is not an integer"))
                      end)) ks
      end
  | _ => Ok (ks, wrong_args (str "hincrby"))
  end.

(** ** Lists *)

Definition cmd_push (c : clock) (args : list bytes) (name : bytes)
    (push : List_ -> list bytes -> List_ * Z) (ks : Keyspace) : outcome :=
  if (length args <? 2)%nat then Ok (ks, wrong_args name)
  else
    creating c (arg args 0) TypeList as_list VList NewList
      (fun l => let '(l, n) := push l (drop 1 args) in Ok (l, writes (Integer n))) ks.

(** What LPOP and RPOP reply: the element without a count, an array with one. *)
Definition popped (args : list bytes) (items : list bytes) : res fault answer :=
  if (length args =? 1)%nat then
    match items with it :: _ => Ok (writes (BulkString it)) | [] => Err (Fault PanicBounds) end
  else Ok (writes (bulks items)).

Definition pop_body (args : list bytes) (pop : List_ -> Z -> res panic (option (list bytes) * List_)) (l : List_)
    : res fault (List_ * answer) :=
  match (match args with _ :: n :: _ => ParseInt n | _ => Ok 1 end) with
  | Err _ => Ok (l, not_integer)
  | Ok count =>
      match pop l count with
      | Err p => Err (Fault p)
      | Ok (None, l) => Ok (l, reads Null)
      | Ok (Some items, l) => a ← popped args items; Ok (l, a)
      end
  end.

Definition cmd_pop (c : clock) (args : list bytes) (name : bytes)
    (pop : List_ -> Z -> res panic (option (list bytes) * List_)) (ks : Keyspace) : outcome :=
  match args with
  | key :: _ => updating c key TypeList as_list VList (reads Null) (reads Null) (pop_body args pop) ks
  | [] => Ok (ks, wrong_args name)
  end.

Definition cmd_lrange (c : clock) (args : list bytes) (ks : Keyspace) : outcome :=
  match args with
  | key :: a :: b :: _ =>
      reading c key TypeList as_list (reads (Array [])) (reads (Array []))
        (fun l => Ok (match ParseInt a, ParseInt b with
                      | Ok start, Ok stop => reads (bulks (ListDs.Range l start stop))
                      | _, _ => not_integer
                      end)) ks
  | _ => Ok (ks, wrong_args (str "lrange"))
  end.

Definition cmd_llen (c : clock) (args : list bytes) (ks : Keyspace) : outcome :=
  match args with
  | key :: _ =>
      reading c key TypeList as_list (reads (Integer 0)) (reads (Integer 0)) (fun l => Ok (reads (Integer (ListDs.Len l)))) ks
  | [] => Ok (ks, wrong_args (str "llen"))
  end.

Definition cmd_lindex (c : clock) (args : list bytes) (ks : Keyspace) : outcome :=
  match args with
  | key :: i :: _ =>
      reading c key TypeList as_list (reads Null) (reads Null)
        (fun l => Ok (match ParseInt i with
                      | Err _ => not_integer
                      | Ok idx => reads (match ListDs.Index l idx with Some v => BulkString v | None => Null end)
                      end)) ks
  | _ => Ok (ks, wrong_args (str "lindex"))
  end.

(** ** Sets *)

Definition cmd_sadd (c : clock) (args : list bytes) (ks : Keyspace) : outcome :=
  if (length args <? 2)%nat then Ok (ks, wrong_args (str "sadd"))
  else
    creating c (arg args 0) TypeSet as_set VSet NewSet
      (fun s => let '(s, n) := SetDs.Add s (drop 1 args) in Ok (s, writes (Integer n))) ks.

Definition cmd_srem (c : clock) (args : list bytes) (ks : Keyspace) : outcome :=
  if (length args <? 2)%nat then Ok (ks, wrong_args (str "srem"))
  else
    updating c (arg args 0) TypeSet as_set VSet (reads (Integer 0)) (reads (Integer 0))
      (fun s => let '(s, n) := SetDs.Rem s (drop 1 args) in Ok (s, writes (Integer n))) ks.

Definition cmd_smembers (c : clock) (args : list bytes) (ks : Keyspace) : outcome :=
  match args with
  | key :: _ =>
      reading c key TypeSet as_set (reads (Array [])) (reads (Array [])) (fun s => Ok (reads (bulks (SetDs.Members s)))) ks
  | [] => Ok (ks, wrong_args (str "smembers"))
  end.

Definition cmd_sismember (c : clock) (args : list bytes) (ks : Keyspace) : outcome :=
  match args with
  | key :: x :: _ =>
      reading c key TypeSet as_set (reads (Integer 0)) (reads (Integer 0))
        (fun s => Ok (reads (Integer (if SetDs.IsMember s x then 1 else 0)))) ks
  | _ => Ok (ks, wrong_args (str "sismember"))
  end.

Definition cmd_scard (c : clock) (args : list bytes) (ks : Keyspace) : outcome :=
  match args with
  | key :: _ =>
      reading c key TypeSet as_set (reads (Integer 0)) (reads (Integer 0)) (fun s => Ok (reads (Integer (SetDs.Card s)))) ks
  | [] => Ok (ks, wrong_args (str "scard"))
  end.

(** ** Sorted sets *)

(** The loop of [handleZAdd]; [rng k] are the draws of the [k]-th insertion.  A
    score that does not parse ends it after the pairs before it. *)
Fixpoint zadd_loop (rng : nat -> nat -> Z) (k : nat) (pairs : list bytes) (z : SkipList) (added : Z)
    : res fault (SkipList * answer) :=
  match pairs with
  | sc :: member :: pairs' =>
      match ParseFloat sc with
      | None => Ok (z, reads (Error (str "ERR value is not a valid float")))
      | Some score =>
          let added := match GetScore member z with Some _ => added | None => int64 (added + 1) end in
          z ← Insert (rng k) score member z;
          zadd_loop rng (S k) pairs' z added
      end
  | _ => Ok (z, writes (Integer added))
  end.

Definition handleZAdd (rng : nat -> nat -> Z) (c : clock) (args : list bytes) (ks : Keyspace) : outcome :=
  if decide (length args < 3 \/ (length args - 1) mod 2 <> 0)%nat then Ok (ks, wrong_args (str "zadd"))
  else
    creating c (arg args 0) TypeZSet as_zset VZSet NewSkipList (fun z => zadd_loop rng 0 (drop 1 args) z 0) ks.

Definition cmd_zscore (c : clock) (args : list bytes) (ks : Keyspace) : outcome :=
  match args with
  | key :: member :: _ =>
      reading c key TypeZSet as_zset (reads Null) (reads Null)
        (fun z => Ok (reads (match GetScore member z with Some s => BulkString (FormatFloat s) | None => Null end))) ks
  | _ => Ok (ks, wrong_args (str "zscore"))
  end.

Definition cmd_zrank (c : clock) (args : list bytes) (ks : Keyspace) : outcome :=
  match args with
  | key :: member :: _ =>
      reading c key TypeZSet as_zset (reads Null) (reads Null)
        (fun z => r ← GetRank member z; Ok (reads (if r <? 0 then Null else Integer r))) ks
  | _ => Ok (ks, wrong_args (str "zrank"))
  end.

Definition zitems (withScores : bool) (scored : list ScoredMember) : list Resp.Value :=
  concat ((fun sm => BulkString (Member sm) :: if withScores then [BulkString (FormatFloat (Score sm))] else []) <$> scored).

Definition handleZRange (c : clock) (args : list bytes) (rev : bool) (ks : Keyspace) : outcome :=
  match args with
  | key :: a :: b :: opts =>
      reading c key TypeZSet as_zset (reads (Array [])) (reads (Array []))
        (fun z =>
           match ParseInt a, ParseInt b with
           | Ok start, Ok stop =>
               let withScores := match opts with o :: _ => bool_decide (ToUpper o = str "WITHSCORES") | [] => false end in
               scored ← SkipList.Range start stop rev z;
               Ok (reads (Array (zitems withScores scored)))
           | _, _ => Ok not_integer
           end) ks
  | _ => Ok (ks, wrong_args (str "zrange"))
  end.

Fixpoint zrem_loop (members : list bytes) (z : SkipList) (count : Z) : res fault (SkipList * answer) :=
  match members with
  | [] => Ok (z, writes (Integer count))
  | m :: members' =>
      '(z, found) ← SkipList.Delete m z;
      zrem_loop members' z (if (found : bool) then int64 (count + 1) else count)
  end.

Definition cmd_zrem (c : clock) (args : list bytes) (ks : Keyspace) : outcome :=
  if (length args <? 2)%nat then Ok (ks, wrong_args (str "zrem"))
  else
    updating c (arg args 0) TypeZSet as_zset VZSet (reads (Integer 0)) (reads (Integer 0))
      (fun z => zrem_loop (drop 1 args) z 0) ks.

Definition cmd_zcard (c : clock) (args : list bytes) (ks : Keyspace) : outcome :=
  match args with
  | key :: _ =>
      reading c key TypeZSet as_zset (reads (Integer 0)) (reads (Integer 0)) (fun z => Ok (reads (Integer (SkipList.Length z)))) ks
  | [] => Ok (ks, wrong_args (str "zcard"))
  end.

(** ** The switch *)

(** The modelled cases of [dispatch]: the first one with the name of the command,
    in upper case, is taken. *)
Definition cases (rng : nat -> nat -> Z) (c : clock) (args : list bytes) : list (bytes * (Keyspace -> outcome)) :=
    [(str "PING", fun ks => Ok (ks, reads (match args with [] => SimpleString (str "PONG") | a :: _ => BulkString a end)));
     (str "ECHO", fun ks => Ok (ks, match args with [] => wrong_args (str "echo") | a :: _ => reads (BulkString a) end));
     (str "DBSIZE", fun ks => Ok (ks, reads (Integer (TotalKeys ks))));
     (str "FLUSHDB", fun ks => Ok (FlushDB ks, writes OK));
     (str "FLUSHALL", fun ks => Ok (FlushDB ks, writes OK));
     (str "SET", handleSet c args);
     (str "GET", cmd_get c args);
     (str "MSET", cmd_mset c args);
     (str "MGET", cmd_mget c args);
     (str "DEL", cmd_del args);
     (str "EXISTS", cmd_exists c args);
     (str "TYPE", cmd_type c args);
     (str "INCR", handleIncrBy c args 1);
     (str "DECR", handleIncrBy c args (-1));
     (str "INCRBY", cmd_incrby c args 1 (str "incrby"));
     (str "DECRBY", cmd_incrby c args (-1) (str "decrby"));
     (str "APPEND", cmd_append c args);
     (str "STRLEN", cmd_strlen c args);
     (str "SETNX", cmd_setnx c args);
     (str "SETEX", cmd_setex c args 1000 (str "setex"));
     (str "PSETEX", cmd_setex c args 1 (str "psetex"));
     (str "EXPIRE", cmd_expire c args 1000 (str "expire"));
     (str "PEXPIRE", cmd_expire c args 1 (str "pexpire"));
     (str "TTL", cmd_ttl c args);
     (str "PTTL", cmd_pttl c args);
     (str "PERSIST", cmd_persist c args);
     (str "HSET", handleHSet c args);
     (str "HGET", cmd_hget c args);
     (str "HMSET", handleHMSet c args);
     (str "HMGET", cmd_hmget c args);
     (str "HDEL", cmd_hdel c args);
     (str "HEXISTS", cmd_hexists c args);
     (str "HLEN", cmd_hlen c args);
     (str "HKEYS", cmd_hkeys c args);
     (str "HVALS", cmd_hvals c args);
     (str "HGETALL", cmd_hgetall c args);
     (str "HINCRBY", cmd_hincrby c args);
     (str "LPUSH", cmd_push c args (str "lpush") LPush);
     (str "RPUSH", cmd_push c args (str "rpush") RPush);
     (str "LPOP", cmd_pop c args (str "lpop") LPop);
     (str "RPOP", cmd_pop c args (str "rpop") RPop);
     (str "LRANGE", cmd_lrange c args);
     (str "LLEN", cmd_llen c args);
     (str "LINDEX", cmd_lindex c args);
     (str "SADD", cmd_sadd c args);
     (str "SREM", cmd_srem c args);
     (str "SMEMBERS", cmd_smembers c args);
     (str "SISMEMBER", cmd_sismember c args);
     (str "SCARD", cmd_scard c args);
     (str "ZADD", handleZAdd rng c args);
     (str "ZSCORE", cmd_zscore c args);
     (str "ZRANK", cmd_zrank c args);
     (str "ZRANGE", fun ks => handleZRange c args false ks);
     (str "ZREVRANGE", fun ks => handleZRange c args true ks);
     (str "ZREM", cmd_zrem c args);
     (str "ZCARD", cmd_zcard c args)].

(** [None]: a command of another part of the switch. *)
Definition dispatch (rng : nat -> nat -> Z) (c : clock) (cmd : bytes) (args : list bytes) (ks : Keyspace)
    : option outcome :=
  (fun r => r.2.2 ks) <$> list_find (fun p => p.1 = cmd) (cases rng c args).

(** [ToUpperFast]: [strings.ToUpper] only when there is a lower-case letter. *)
Definition ToUpperFast (s : bytes) : bytes :=
  if existsb (fun c => (97 <=? b2z c) && (b2z c <=? 122)) s then ToUpper s else s.

(** [ExecuteCommandWithSession] for a client that passes its guards and is not in
    a transaction. *)
Definition execute (rng : nat -> nat -> Z) (c : clock) (argv : list bytes) (ks : Keyspace) : option outcome :=
  match argv with
  | [] => Some (Ok (ks, reads (Error (str "ERR empty command"))))
  | name :: args => dispatch rng c (ToUpperFast name) args ks
  end.

End Commands.
