(* ===== verification/Acl.v ===== *)
(** * Access control (internal/engine/acl.go, handleACLCommand of internal/engine/engine.go)

    The users with their passwords, roles and key patterns; authentication, the
    decision whether a user may run a command on some keys, and the ACL command.
    Users are handed out as copies, so the table is a map of values; [order] is the
    order in which the map is iterated.  The text of a permission error repeats the
    name of the command as [ToUpper] gives it. *)

From S2P Require Import Prelude Glob Resp Commands.

Inductive UserRole := RoleAdmin | RoleReadWrite | RoleReadOnly.

Record ACLUser := mkUser {
  Username : bytes;
  UserPassword : bytes;
  Enabled : bool;
  IsAdmin : bool;
  Role : UserRole;
  KeyPatterns : list bytes;
  UserReadOnly : bool
}.

Abbreviation ACLManager := (gmap bytes ACLUser).

Definition default_name : bytes := str "default".

Definition NewACLManager (defaultPassword : bytes) : ACLManager :=
  {[default_name := mkUser default_name defaultPassword true true RoleAdmin [str "*"] false]}.

(** [if username == "" { username = "default" }]. *)
Definition named_user (username : bytes) : bytes := if decide (username = []) then default_name else username.

(** [subtle.ConstantTimeCompare] is equality. *)
Definition Authenticate (m : ACLManager) (username password : bytes) : option ACLUser :=
  user ← m !! named_user username;
  if negb (Enabled user) then None
  else if decide (UserPassword user = []) then if decide (password = []) then Some user else None
  else if decide (password = UserPassword user) then Some user else None.

Definition with_patterns (ps : list bytes) (u : ACLUser) : ACLUser :=
  mkUser (Username u) (UserPassword u) (Enabled u) (IsAdmin u) (Role u) ps (UserReadOnly u).
Definition with_password (p : bytes) (u : ACLUser) : ACLUser :=
  mkUser (Username u) p (Enabled u) (IsAdmin u) (Role u) (KeyPatterns u) (UserReadOnly u).
Definition with_enabled (b : bool) (u : ACLUser) : ACLUser :=
  mkUser (Username u) (UserPassword u) b (IsAdmin u) (Role u) (KeyPatterns u) (UserReadOnly u).
Definition with_rights (admin readOnly : bool) (r : UserRole) (u : ACLUser) : ACLUser :=
  mkUser (Username u) (UserPassword u) (Enabled u) admin r (KeyPatterns u) readOnly.

Definition SetUser (m : ACLManager) (user : ACLUser) : ACLManager :=
  let user := match KeyPatterns user with [] => with_patterns [str "*"] user | _ => user end in
  <[Username user := user]> m.

Definition GetUser (m : ACLManager) (username : bytes) : option ACLUser := m !! username.

Definition DeleteUser (m : ACLManager) (username : bytes) : ACLManager * bool :=
  if decide (username = default_name) then (m, false)
  else match m !! username with
       | None => (m, false)
       | Some _ => (delete username m, true)
       end.

Definition ListUsers (order : list bytes) (m : ACLManager) : list ACLUser :=
  omap (fun n => with_password [] <$> m !! n) order.

Definition ListUsernames (order : list bytes) (m : ACLManager) : list bytes :=
  filter (fun n => is_Some (m !! n)) order.

(** ** Permissions *)

Definition TrimPrefix (s p : bytes) : bytes := if HasPrefix s p then drop (length p) s else s.

Definition matches_pattern (key p : bytes) : bool :=
  if decide (p = str "*" \/ p = str "~*") then true
  else
    let clean := TrimPrefix p (str "~") in
    match Match clean key with
    | Some true => true
    | _ => HasSuffix clean (str "*") && HasPrefix key (TrimSuffix clean (str "*"))
    end.

Definition matchesAnyPattern (key : bytes) (patterns : list bytes) : bool := existsb (matches_pattern key) patterns.

Definition admin_commands : list bytes :=
  str <$> ["FLUSHDB"; "FLUSHALL"; "CONFIG"; "SHUTDOWN"; "BGREWRITEAOF"]%string.

Definition mutating_commands : list bytes :=
  str <$> ["SET"; "SETEX"; "SETNX"; "MSET"; "DEL"; "INCR"; "INCRBY"; "DECR"; "DECRBY";
    "LPUSH"; "RPUSH"; "LPOP"; "RPOP"; "HSET"; "HMSET"; "HDEL"; "HINCRBY";
    "SADD"; "SREM"; "ZADD"; "ZREM"; "ZINCRBY"; "VADD"; "VDEL"; "XADD"; "XDEL"; "XTRIM"; "XGROUP"; "XACK";
    "EXPIRE"; "EXPIREAT"; "SAVE"; "BGSAVE"]%string.

Definition for_user (username : bytes) : bytes := str "' not allowed for user '" ++ username ++ str "'".

(** [Err reason]: not allowed. *)
Definition CanExecute (m : ACLManager) (username cmdName : bytes) (keys : list bytes) : res bytes unit :=
  let username := named_user username in
  match m !! username with
  | None => Err (str "account is disabled or does not exist")
  | Some user =>
      if negb (Enabled user) then Err (str "account is disabled or does not exist")
      else
        let cmdUpper := ToUpper cmdName in
        if negb (IsAdmin user) && bool_decide (cmdUpper ∈ admin_commands) then
          Err (str "administrative command '" ++ cmdName ++ for_user username)
        else if negb (IsAdmin user) && UserReadOnly user && bool_decide (cmdUpper ∈ mutating_commands) then
          Err (str "mutating command '" ++ cmdName ++ str "' not allowed for read-only user '" ++ username ++ str "'")
        else
          match list_find (fun key => matchesAnyPattern key (KeyPatterns user) = false) keys with
          | Some (_, key) =>
              Err (str "key '" ++ key ++ str "' violates allowed namespace pattern(s) for user '" ++ username ++ str "'")
          | None => Ok tt
          end
  end.

(** ** The ACL command *)

Definition set_token (user : ACLUser) (tok : bytes) : ACLUser :=
  if decide (tok = str "on") then with_enabled true user
  else if decide (tok = str "off") then with_enabled false user
  else if HasPrefix tok (str ">") then with_password (TrimPrefix tok (str ">")) user
  else if HasPrefix tok (str "~") then with_patterns [TrimPrefix tok (str "~")] user
  else if decide (tok = str "admin") then with_rights true false RoleAdmin user
  else if decide (tok = str "+@all" \/ tok = str "+@write" \/ tok = str "readwrite") then with_rights false false RoleReadWrite user
  else if decide (tok = str "+@read" \/ tok = str "readonly") then with_rights false true RoleReadOnly user
  else user.

Definition acl_line (u : ACLUser) : bytes :=
  let state := if Enabled u then str "on" else str "off" in
  let perms := if UserReadOnly u then str "+@read" else str "+@all" in
  let patterns := Join (KeyPatterns u) (str " ~") in
  let patterns := if decide (patterns = []) then patterns else str "~" ++ patterns in
  str "user " ++ Username u ++ str " " ++ state ++ str " " ++ patterns ++ str " " ++ perms.

Definition acl_flags (u : ACLUser) : Resp.Value :=
  bulks ((if Enabled u then str "on" else str "off") :: if IsAdmin u then [str "admin"] else []).

(** The subcommands, after the check of the caller. *)
Definition acl_subcommand (order : list bytes) (username sub : bytes) (args : list bytes) (m : ACLManager)
    : ACLManager * (Resp.Value * bool) :=
  if decide (sub = str "WHOAMI") then (m, reads (BulkString (named_user username)))
  else if decide (sub = str "USERS") then (m, reads (bulks (ListUsernames order m)))
  else if decide (sub = str "LIST") then (m, reads (bulks (acl_line <$> ListUsers order m)))
  else if decide (sub = str "GETUSER") then
    match args with
    | _ :: name :: _ =>
        (m, reads (match GetUser m name with
                   | None => Null
                   | Some u => Array [BulkString (str "flags"); acl_flags u; BulkString (str "keys"); bulks (KeyPatterns u)]
                   end))
    | _ => (m, wrong_args (str "acl getuser"))
    end
  else if decide (sub = str "SETUSER") then
    match args with
    | _ :: name :: toks =>
        let user := default (mkUser name [] true false RoleReadWrite [str "*"] false) (GetUser m name) in
        (SetUser m (foldl set_token user toks), reads OK)
    | _ => (m, wrong_args (str "acl setuser"))
    end
  else if decide (sub = str "DELUSER") then
    match args with
    | _ :: name :: _ =>
        let '(m, ok) := DeleteUser m name in (m, reads (Integer (if (ok : bool) then 1 else 0)))
    | _ => (m, wrong_args (str "acl deluser"))
    end
  else (m, reads (Error (str "ERR unknown ACL subcommand '" ++ sub ++ str "'"))).

(** [username] is the one of the session of the caller; [None]: no manager. *)
Definition handleACLCommand (order : list bytes) (username : bytes) (args : list bytes) (ACL : option ACLManager)
    : option ACLManager * (Resp.Value * bool) :=
  match args with
  | [] => (ACL, wrong_args (str "acl"))
  | a :: _ =>
      match ACL with
      | None => (None, reads (Error (str "ERR ACL subsystem unavailable")))
      | Some m =>
          let aclSub := ToUpper a in
          let callerName := named_user username in
          let admin := match GetUser m callerName with Some u => IsAdmin u | None => false end in
          if negb (bool_decide (aclSub = str "WHOAMI")) && negb admin then
            (Some m, reads (Error (str "NOPERM administrative command 'ACL " ++ aclSub ++ for_user callerName)))
          else let '(m, r) := acl_subcommand order username aclSub args m in (Some m, r)
      end
  end.
