(* ===== verification/CommandLaws.v ===== *)
(** * What the data commands guarantee (internal/engine/engine.go)

    [related] compares two keyspaces by what commands can see of them: types,
    values, expiry times, with skip lists that hold the same members.  Every
    command takes related keyspaces to related keyspaces with the same reply, on
    different clocks and random draws: so it preserves the types of the entries,
    it does not fault, and replaying the commands that count as writes rebuilds
    the keyspace. *)

From S2P Require Import Prelude Resp SetDs HashDs ListDs Stream SkipList Keyspace Commands.

Section Laws.
Context {VectorIndex : Type}.
Context (ParseFloat : bytes -> option Z) (FormatFloat : Z -> bytes).

Abbreviation Value := (@Keyspace.Value SkipList.SkipList VectorIndex).
Abbreviation Entry := (@Keyspace.Entry SkipList.SkipList VectorIndex).
Abbreviation Keyspace := (@Keyspace.Keyspace SkipList.SkipList VectorIndex).
Abbreviation outcome := (res fault (Keyspace * (Resp.Value * bool))).
Implicit Types (ks : Keyspace) (e : Entry) (v : Value) (o : outcome) (c : clock).

(** ** Related values, entries and keyspaces *)

Definition type_of (v : Value) : EntryType :=
  match v with
  | VString _ => TypeString | VHash _ => TypeHash | VList _ => TypeList | VSet _ => TypeSet
  | VZSet _ => TypeZSet | VVector _ => TypeVector | VStream _ => TypeStream
  end.

(** Two skip lists with the same members, at most [n] of them. *)
Definition zrel (n : Z) (z1 z2 : SkipList) : Prop :=
  exists ps1 ps2 es, repr z1 ps1 es /\ repr z2 ps2 es /\ Z.of_nat (length es) <= n.

Definition val_rel (n : Z) (v1 v2 : Value) : Prop :=
  match v1, v2 with
  | VString a, VString b => a = b
  | VHash a, VHash b => a = b
  | VList a, VList b => a = b
  | VSet a, VSet b => a = b
  | VZSet a, VZSet b => zrel n a b
  | VVector a, VVector b => a = b
  | VStream a, VStream b => a = b
  | _, _ => False
  end.

(** [timeless]: nothing ever expires, and the two clocks need not agree. *)
Record ent_rel (timeless : bool) (n : Z) (e1 e2 : Entry) : Prop := {
  er_type : Type_ e1 = type_of (Value_ e1);
  er_type2 : Type_ e2 = Type_ e1;
  er_value : val_rel n (Value_ e1) (Value_ e2);
  er_expiry : ExpiresAt e1 = ExpiresAt e2;
  er_timeless : timeless = true -> ExpiresAt e1 = 0
}.

Record related (timeless : bool) (n : Z) (ks1 ks2 : Keyspace) : Prop := {
  rel_wf1 : wf ks1;
  rel_wf2 : wf ks2;
  rel_count : keyCount ks1 = keyCount ks2;
  rel_look : forall k, option_Forall2 (ent_rel timeless n) (look ks1 k) (look ks2 k)
}.

Definition same_clock (timeless : bool) (c1 c2 : clock) : Prop := timeless = true \/ c1 = c2.

(** Both commands end, with the same answer and related keyspaces. *)
Definition agree (timeless : bool) (n : Z) (o1 o2 : outcome) : Prop :=
  exists ks1 ks2 a, o1 = Ok (ks1, a) /\ o2 = Ok (ks2, a) /\ related timeless n ks1 ks2.

Lemma zrel_mono n n' z1 z2 : n <= n' -> zrel n z1 z2 -> zrel n' z1 z2.
Proof. intros Hn (ps1 & ps2 & es & H1 & H2 & H3). exists ps1, ps2, es. split; [done|]. split; [done|lia]. Qed.

Lemma val_rel_mono n n' v1 v2 : n <= n' -> val_rel n v1 v2 -> val_rel n' v1 v2.
Proof. intros Hn. destruct v1, v2; try done. by apply zrel_mono. Qed.

Lemma ent_rel_mono tl n n' e1 e2 : n <= n' -> ent_rel tl n e1 e2 -> ent_rel tl n' e1 e2.
Proof. intros Hn [? ? ? ? ?]. split; try done. by eapply val_rel_mono. Qed.

Lemma related_mono tl n n' ks1 ks2 : n <= n' -> related tl n ks1 ks2 -> related tl n' ks1 ks2.
Proof.
  intros Hn [? ? ? H]. split; try done. intros k. destruct (H k); constructor. by eapply ent_rel_mono.
Qed.

Lemma val_rel_type n v1 v2 : val_rel n v1 v2 -> type_of v1 = type_of v2.
Proof. by destruct v1, v2. Qed.

Lemma related_new tl n : related tl n NewKeyspace NewKeyspace.
Proof.
  split; [apply NewKeyspace_wf..|done|]. intros k. rewrite <- abs_lookup by apply NewKeyspace_wf.
  rewrite NewKeyspace_abs, lookup_empty. constructor.
Qed.

(** ** The accesses *)

Lemma store_related tl n ks1 ks2 k e1 e2 : related tl n ks1 ks2 -> ent_rel tl n e1 e2 ->
  related tl n (store ks1 k e1) (store ks2 k e2).
Proof.
  intros [? ? ? H] He. split; [by apply store_wf..|done|]. intros k'. rewrite !look_store by done.
  destruct (decide (k' = k)); [by constructor|apply H].
Qed.

Lemma remove_related tl n ks1 ks2 k : related tl n ks1 ks2 -> related tl n (remove ks1 k) (remove ks2 k).
Proof.
  intros [? ? ? H]. split; [by apply remove_wf..|done|]. intros k'. rewrite !look_remove by done.
  destruct (decide (k' = k)); [constructor|apply H].
Qed.

Lemma addCount_related tl n ks1 ks2 d : related tl n ks1 ks2 -> related tl n (addCount ks1 d) (addCount ks2 d).
Proof. intros [? ? Hk H]. split; try done. cbn. by rewrite Hk. Qed.

Lemma IsExpired_related tl n e1 e2 c1 c2 : ent_rel tl n e1 e2 -> same_clock tl c1 c2 ->
  IsExpired e1 (now c1) = IsExpired e2 (now c2).
Proof.
  intros [_ _ _ He Ht] [->| ->]; unfold IsExpired; rewrite <- He; [|done]. by rewrite Ht.
Qed.

Lemma load_live_related tl n ks1 ks2 c1 c2 k : related tl n ks1 ks2 -> same_clock tl c1 c2 ->
  related tl n (load_live ks1 (now c1) k).1 (load_live ks2 (now c2) k).1 /\
  option_Forall2 (ent_rel tl n) (load_live ks1 (now c1) k).2 (load_live ks2 (now c2) k).2 /\
  look (load_live ks1 (now c1) k).1 k = (load_live ks1 (now c1) k).2 /\
  look (load_live ks2 (now c2) k).1 k = (load_live ks2 (now c2) k).2.
Proof.
  intros HR Hc. pose proof (rel_look _ _ _ _ HR k) as Hk. unfold load_live.
  destruct (look ks1 k) as [e1|] eqn:E1, (look ks2 k) as [e2|] eqn:E2; inversion Hk as [? ? He|]; subst; [|done].
  rewrite <- (IsExpired_related tl n e1 e2 c1 c2) by done. destruct (IsExpired e1 (now c1)); cbn [fst snd].
  - split; [by apply addCount_related, remove_related|]. split; [constructor|].
    destruct HR. split; (etransitivity; [by apply look_remove|]; by rewrite decide_True).
  - split; [done|]. split; [by constructor|done].
Qed.

Lemma poke_related tl n ks1 ks2 k e1 e2 v1 v2 : related tl n ks1 ks2 -> look ks1 k = Some e1 -> look ks2 k = Some e2 ->
  ent_rel tl n e1 e2 -> val_rel n v1 v2 -> type_of v1 = Type_ e1 -> related tl n (poke ks1 k v1) (poke ks2 k v2).
Proof.
  intros HR E1 E2 [? ? ? ? ?] Hv Ht. unfold poke. rewrite E1, E2. apply store_related; [done|]. by split.
Qed.

(** ** The three shapes of a command on one key *)

Section shapes.
Context (tl : bool) (n n' : Z) (ks1 ks2 : Keyspace) (c1 c2 : clock).
Context (HR : related tl n ks1 ks2) (Hc : same_clock tl c1 c2) (Hn : n <= n').

Lemma reading_agree {T} k t (conv : Value -> option T) absent wrong body1 body2 :
  (forall v1 v2, val_rel n v1 v2 -> type_of v1 = t -> (ks1 = ks2 /\ c1 = c2 -> v1 = v2) ->
     exists x1 x2, conv v1 = Some x1 /\ conv v2 = Some x2 /\ exists a, body1 x1 = Ok a /\ body2 x2 = Ok a) ->
  agree tl n' (reading c1 k t conv absent wrong body1 ks1) (reading c2 k t conv absent wrong body2 ks2).
Proof using HR Hc Hn.
  intros Hbody. unfold reading. rewrite !Get_load_live.
  destruct (load_live_related tl n ks1 ks2 c1 c2 k HR Hc) as (HR' & Hl & _).
  assert (ks1 = ks2 /\ c1 = c2 -> load_live ks1 (now c1) k = load_live ks2 (now c2) k) as Heq by (by intros [-> ->]).
  destruct (load_live ks1 (now c1) k) as [k1 l1], (load_live ks2 (now c2) k) as [k2 l2]. cbn [fst snd] in *.
  apply (related_mono _ _ n') in HR'; [|done].
  inversion Hl as [e1 e2 [? He2 Hv ? ?]|]; subst; [|by exists k1, k2, absent].
  rewrite He2. case_decide as Ht; [|by exists k1, k2, wrong].
  destruct (Hbody (Value_ e1) (Value_ e2) Hv) as (x1 & x2 & -> & -> & a & B1 & B2); [congruence| |].
  { intros H'. specialize (Heq H'). congruence. }
  csimpl. rewrite B1, B2. csimpl. by exists k1, k2, a.
Qed.

Lemma updating_agree {T} k t (conv : Value -> option T) (wrap : T -> Value) absent wrong body1 body2 :
  (forall v1 v2, val_rel n v1 v2 -> type_of v1 = t ->
     exists x1 x2, conv v1 = Some x1 /\ conv v2 = Some x2 /\ exists y1 y2 a, body1 x1 = Ok (y1, a) /\ body2 x2 = Ok (y2, a) /\
       val_rel n' (wrap y1) (wrap y2) /\ type_of (wrap y1) = t) ->
  agree tl n' (updating c1 k t conv wrap absent wrong body1 ks1) (updating c2 k t conv wrap absent wrong body2 ks2).
Proof using HR Hc Hn.
  intros Hbody. unfold updating. rewrite !Get_load_live.
  destruct (load_live_related tl n ks1 ks2 c1 c2 k HR Hc) as (HR' & Hl & L1 & L2).
  destruct (load_live ks1 (now c1) k) as [k1 l1], (load_live ks2 (now c2) k) as [k2 l2]. cbn [fst snd] in *.
  apply (related_mono _ _ n') in HR'; [|done].
  inversion Hl as [e1 e2 He|]; subst; [|by exists k1, k2, absent]. pose proof He as [Ht1 He2 Hv ? ?].
  rewrite He2. case_decide as Ht; [|by exists k1, k2, wrong].
  destruct (Hbody (Value_ e1) (Value_ e2) Hv) as (x1 & x2 & -> & -> & y1 & y2 & a & B1 & B2 & Hy & Hty); [congruence|].
  csimpl. rewrite B1, B2. csimpl. eexists _, _, a. split; [done|]. split; [done|].
  eapply poke_related; [done|symmetry; done|symmetry; done| |done|congruence]. by eapply ent_rel_mono.
Qed.

Lemma creating_agree {T} k t (conv : Value -> option T) (wrap : T -> Value) new body1 body2 :
  type_of (wrap new) = t -> val_rel n (wrap new) (wrap new) ->
  (forall v1 v2, val_rel n v1 v2 -> type_of v1 = t ->
     exists x1 x2, conv v1 = Some x1 /\ conv v2 = Some x2 /\ exists y1 y2 a, body1 x1 = Ok (y1, a) /\ body2 x2 = Ok (y2, a) /\
       val_rel n' (wrap y1) (wrap y2) /\ type_of (wrap y1) = t) ->
  agree tl n' (creating c1 k t conv wrap new body1 ks1) (creating c2 k t conv wrap new body2 ks2).
Proof using HR Hc Hn.
  intros Hnew Hnewr Hbody. unfold creating, GetOrCreate.
  destruct (load_live_related tl n ks1 ks2 c1 c2 k HR Hc) as (HR' & Hl & L1 & L2).
  destruct (load_live ks1 (now c1) k) as [k1 l1], (load_live ks2 (now c2) k) as [k2 l2]. cbn [fst snd] in *.
  assert (forall k1 k2 e1 e2, related tl n k1 k2 -> ent_rel tl n e1 e2 -> look k1 k = Some e1 -> look k2 k = Some e2 ->
    agree tl n'
      (if decide (Type_ e1 = t) then x ← conversion (conv (Value_ e1)); '(x, a) ← body1 x; Ok (poke k1 k (wrap x), a) else Ok (k1, wrong_type))
      (if decide (Type_ e2 = t) then x ← conversion (conv (Value_ e2)); '(x, a) ← body2 x; Ok (poke k2 k (wrap x), a) else Ok (k2, wrong_type)))
    as Hgo.
  { intros k1' k2' e1 e2 HR1 He K1 K2. pose proof He as [Ht1 He2 Hv ? ?]. apply (related_mono _ _ n') in HR1; [|done].
    rewrite He2. case_decide as Ht; [|by exists k1', k2', wrong_type].
    destruct (Hbody (Value_ e1) (Value_ e2) Hv) as (x1 & x2 & -> & -> & y1 & y2 & a & B1 & B2 & Hy & Hty); [congruence|].
    csimpl. rewrite B1, B2. csimpl. eexists _, _, a. split; [done|]. split; [done|].
    eapply poke_related; [done|done|done| |done|congruence]. by eapply ent_rel_mono. }
  inversion Hl as [e1 e2 He|]; subst.
  - apply Hgo; [apply store_related; [done|]|..]; try (destruct HR'; rewrite look_store by done; by rewrite decide_True);
      destruct He; by split.
  - apply Hgo; [apply addCount_related, store_related; [done|]|..];
      try (destruct HR'; etransitivity; [by apply look_store|]; by rewrite decide_True); split; try done; congruence.
Qed.

End shapes.

(** Values that are not sorted sets are related when they are equal. *)
Ltac equal_values :=
  let v1 := fresh "v" in let v2 := fresh "v" in let Hv := fresh "Hv" in
  intros v1 v2 Hv ?; intros; destruct v1; try discriminate; destruct v2; try contradiction; cbn in Hv;
  try subst; cbn [as_string as_hash as_list as_set as_zset].


(** ** The keyspace operations *)

Section operations.
Context (tl : bool) (n : Z) (ks1 ks2 : Keyspace) (c1 c2 : clock).
Context (HR : related tl n ks1 ks2) (Hc : same_clock tl c1 c2).

Lemma string_rel s x t1 t2 u1 u2 : (tl = true -> x = 0) ->
  ent_rel tl n (mkE TypeString (VString s) x t1 u1) (mkE TypeString (VString s) x t2 u2).
Proof using. by split. Qed.

Lemma Set_related k s x1 x2 : x1 = x2 -> (tl = true -> x1 = 0) ->
  related tl n (Keyspace.Set_ ks1 (now c1) k (set_string s x1)) (Keyspace.Set_ ks2 (now c2) k (set_string s x2)).
Proof using HR.
  intros <- Hx. unfold Keyspace.Set_. apply store_related; [|by apply string_rel].
  destruct (rel_look _ _ _ _ HR k); [done|by apply addCount_related].
Qed.

Lemma SetNX_related k s :
  related tl n (SetNX ks1 (now c1) k (set_string s 0)).1 (SetNX ks2 (now c2) k (set_string s 0)).1 /\
  (SetNX ks1 (now c1) k (set_string s 0)).2 = (SetNX ks2 (now c2) k (set_string s 0)).2.
Proof using HR Hc.
  unfold SetNX. destruct (rel_look _ _ _ _ HR k) as [e1 e2 He|].
  - rewrite <- (IsExpired_related tl n e1 e2 c1 c2) by done. destruct (IsExpired e1 (now c1)); [|done]. split; [|done].
    apply addCount_related, store_related; [by apply addCount_related, remove_related|by apply string_rel].
  - split; [|done]. apply addCount_related, store_related; [done|by apply string_rel].
Qed.

Lemma Delete_related keys :
  related tl n (Keyspace.Delete ks1 keys).1 (Keyspace.Delete ks2 keys).1 /\
  (Keyspace.Delete ks1 keys).2 = (Keyspace.Delete ks2 keys).2.
Proof using HR.
  clear Hc. unfold Keyspace.Delete. generalize 0. revert ks1 ks2 HR.
  induction keys as [|k keys IH]; intros k1 k2 Hk z; [done|]. cbn [foldl].
  unfold delete_one at 2 4 6 8. destruct (rel_look _ _ _ _ Hk k); apply IH; [|done].
  by apply addCount_related, remove_related.
Qed.

Lemma Get_related k :
  related tl n (Keyspace.Get ks1 (now c1) k).1 (Keyspace.Get ks2 (now c2) k).1 /\
  option_Forall2 (ent_rel tl n) (Keyspace.Get ks1 (now c1) k).2 (Keyspace.Get ks2 (now c2) k).2.
Proof using HR Hc. rewrite !Get_load_live. by destruct (load_live_related tl n ks1 ks2 c1 c2 k HR Hc) as (? & ? & _). Qed.

End operations.

Lemma Exists_related tl n c1 c2 keys ks1 ks2 : related tl n ks1 ks2 -> same_clock tl c1 c2 ->
  related tl n (Keyspace.Exists ks1 (now c1) keys).1 (Keyspace.Exists ks2 (now c2) keys).1 /\
  (Keyspace.Exists ks1 (now c1) keys).2 = (Keyspace.Exists ks2 (now c2) keys).2.
Proof.
  intros HR Hc. unfold Keyspace.Exists. generalize 0. revert ks1 ks2 HR.
  induction keys as [|k keys IH]; intros k1 k2 Hk z; [done|]. cbn [foldl]. unfold exists_one at 2 4 6 8.
  destruct (Get_related tl n k1 k2 c1 c2 Hk Hc k) as [HR' HG].
  destruct (Keyspace.Get k1 (now c1) k) as [k1' r1], (Keyspace.Get k2 (now c2) k) as [k2' r2]. cbn [fst snd] in *.
  destruct HG; by apply IH.
Qed.

(** The shape of INCRBY and APPEND. *)
Lemma IncrBy_agree tl n ks1 ks2 c1 c2 k d : related tl n ks1 ks2 -> same_clock tl c1 c2 ->
  agree tl n (of_ks (Keyspace.IncrBy ks1 (now c1) k d)) (of_ks (Keyspace.IncrBy ks2 (now c2) k d)).
Proof.
  intros HR Hc. unfold Keyspace.IncrBy. destruct (load_live_related tl n ks1 ks2 c1 c2 k HR Hc) as (HR' & Hl & _ & _).
  destruct (load_live ks1 (now c1) k) as [k1 l1], (load_live ks2 (now c2) k) as [k2 l2]. cbn [fst snd] in *.
  destruct Hl as [e1 e2 [Ht1 Ht2 Hv He Htl]|].
  - rewrite Ht2. case_decide as Hd; [|by eexists _, _, _]. rewrite Ht1 in Hd.
    destruct (Value_ e1) as [s1| | | | | |]; try discriminate. destruct (Value_ e2) as [s2| | | | | |]; try contradiction. cbn in Hv. subst s2.
    destruct (ParseInt s1); [|by eexists _, _, _]. eexists _, _, _. split; [done|]. split; [done|].
    apply store_related; [done|]. unfold set_value. split; cbn; congruence || done.
  - eexists _, _, _. split; [done|]. split; [done|]. by apply addCount_related, store_related; [|apply string_rel].
Qed.

Lemma Append_agree tl n ks1 ks2 c1 c2 k d : related tl n ks1 ks2 -> same_clock tl c1 c2 ->
  agree tl n (of_ks (Keyspace.Append ks1 (now c1) k d)) (of_ks (Keyspace.Append ks2 (now c2) k d)).
Proof.
  intros HR Hc. unfold Keyspace.Append. destruct (load_live_related tl n ks1 ks2 c1 c2 k HR Hc) as (HR' & Hl & _ & _).
  destruct (load_live ks1 (now c1) k) as [k1 l1], (load_live ks2 (now c2) k) as [k2 l2]. cbn [fst snd] in *.
  destruct Hl as [e1 e2 [Ht1 Ht2 Hv He Htl]|].
  - rewrite Ht2. case_decide as Hd; [|by eexists _, _, _]. rewrite Ht1 in Hd.
    destruct (Value_ e1) as [s1| | | | | |]; try discriminate. destruct (Value_ e2) as [s2| | | | | |]; try contradiction. cbn in Hv. subst s2.
    eexists _, _, _. split; [done|]. split; [done|].
    apply store_related; [done|]. unfold set_value. split; cbn; congruence || done.
  - eexists _, _, _. split; [done|]. split; [done|]. by apply addCount_related, store_related; [|apply string_rel].
Qed.

Lemma Expire_agree n ks1 ks2 c k t : related false n ks1 ks2 ->
  agree false n (of_flag (Keyspace.Expire ks1 (now c) k t)) (of_flag (Keyspace.Expire ks2 (now c) k t)).
Proof.
  intros HR. unfold Keyspace.Expire. destruct (load_live_related false n ks1 ks2 c c k HR (or_intror eq_refl)) as (HR' & Hl & _ & _).
  destruct (load_live ks1 (now c) k) as [k1 l1], (load_live ks2 (now c) k) as [k2 l2]. cbn [fst snd] in *.
  destruct Hl as [e1 e2 [? ? ? ? ?]|]; eexists _, _, _; (split; [done|]; split; [done|]); [|done].
  apply store_related; [done|]. by split.
Qed.

Lemma Persist_agree tl n ks1 ks2 c1 c2 k : related tl n ks1 ks2 -> same_clock tl c1 c2 ->
  agree tl n (of_flag (Keyspace.Persist ks1 (now c1) k)) (of_flag (Keyspace.Persist ks2 (now c2) k)).
Proof.
  intros HR Hc. unfold Keyspace.Persist. destruct (load_live_related tl n ks1 ks2 c1 c2 k HR Hc) as (HR' & Hl & _ & _).
  destruct (load_live ks1 (now c1) k) as [k1 l1], (load_live ks2 (now c2) k) as [k2 l2]. cbn [fst snd] in *.
  destruct Hl as [e1 e2 [? ? ? He ?]|]; [rewrite <- He; case_match|]; eexists _, _, _; (split; [done|]; split; [done|]); try done.
  apply store_related; [done|]. by split.
Qed.

(** What TTL and PTTL reply: [f] is the text of the remaining time. *)
Lemma ttl_agree tl n ks1 ks2 c1 c2 k : related tl n ks1 ks2 -> same_clock tl c1 c2 ->
  (related tl n (Keyspace.TTL ks1 (now c1) (later c1) k).1 (Keyspace.TTL ks2 (now c2) (later c2) k).1 /\
   (Keyspace.TTL ks1 (now c1) (later c1) k).2 = (Keyspace.TTL ks2 (now c2) (later c2) k).2) /\
  related tl n (Keyspace.PTTL ks1 (now c1) (later c1) k).1 (Keyspace.PTTL ks2 (now c2) (later c2) k).1 /\
  (Keyspace.PTTL ks1 (now c1) (later c1) k).2 = (Keyspace.PTTL ks2 (now c2) (later c2) k).2.
Proof.
  intros HR Hc. unfold Keyspace.TTL, Keyspace.PTTL. destruct (Get_related tl n ks1 ks2 c1 c2 HR Hc k) as [HR' HG].
  destruct (Keyspace.Get ks1 (now c1) k) as [k1 r1], (Keyspace.Get ks2 (now c2) k) as [k2 r2]. cbn [fst snd] in *.
  destruct HG as [e1 e2 [_ _ _ He Htl]|]; [|done]. rewrite <- He. destruct Hc as [->| ->]; [rewrite Htl by done; done|].
  by case_match.
Qed.

(** ** Sorted sets *)

Definition floats_ok (args : list bytes) : Prop :=
  forall a s, a ∈ args -> ParseFloat a = Some s -> is_nan s = false.

Lemma list_pair_ind {A} (P : list A -> Prop) :
  P [] -> (forall a, P [a]) -> (forall a b l, P l -> P (a :: b :: l)) -> forall l, P l.
Proof.
  intros H0 H1 H2. fix IH 1. intros [|a [|b l]]; [exact H0|exact (H1 a)|exact (H2 a b l (IH l))].
Qed.

Lemma zadd_loop_agree rng1 rng2 pairs k1 k2 n z1 z2 added : floats_ok pairs -> zrel n z1 z2 ->
  n + Z.of_nat (length pairs) < 2 ^ 63 - 1 ->
  exists y1 y2 a, zadd_loop ParseFloat rng1 k1 pairs z1 added = Ok (y1, a) /\
    zadd_loop ParseFloat rng2 k2 pairs z2 added = Ok (y2, a) /\ zrel (n + Z.of_nat (length pairs)) y1 y2.
Proof.
  revert k1 k2 n z1 z2 added. induction pairs as [|sc|sc m pairs IH] using list_pair_ind; intros k1 k2 n z1 z2 added Hf Hz Hb; cbn [zadd_loop].
  - eexists _, _, _. split; [done|]. split; [done|]. eapply zrel_mono; [|done]. lia.
  - eexists _, _, _. split; [done|]. split; [done|]. eapply zrel_mono; [|done]. lia.
  - destruct (ParseFloat sc) as [score|] eqn:Hsc.
    2:{ eexists _, _, _. split; [done|]. split; [done|]. eapply zrel_mono; [|done]. lia. }
    assert (is_nan score = false) as Hnan by (eapply Hf; [|done]; set_solver).
    destruct Hz as (ps1 & ps2 & es & H1 & H2 & Hlen). cbn [length] in Hb.
    rewrite (GetScore_spec _ _ _ m H1), (GetScore_spec _ _ _ m H2).
    destruct (Insert_spec (rng1 k1) z1 ps1 es score m H1 Hnan) as (y1 & q1 & -> & R1); [lia|].
    destruct (Insert_spec (rng2 k2) z2 ps2 es score m H2 Hnan) as (y2 & q2 & -> & R2); [lia|]. csimpl.
    destruct (IH (S k1) (S k2) (n + 1) y1 y2 (match Score ∘ snd <$> find_member m es with Some _ => added | None => int64 (added + 1) end))
      as (w1 & w2 & a & -> & -> & HR).
    + intros ? ? ?. apply Hf. set_solver.
    + exists q1, q2, (put_sorted (mkSM m score) (drop_member m es)). split; [done|]. split; [done|].
      rewrite length_put_sorted. pose proof (length_drop_member m es). lia.
    + lia.
    + eexists _, _, _. split; [done|]. split; [done|]. eapply zrel_mono; [|done]. cbn [length]. lia.
Qed.

Lemma zrem_loop_agree members n z1 z2 count : zrel n z1 z2 ->
  exists y1 y2 a, zrem_loop members z1 count = Ok (y1, a) /\ zrem_loop members z2 count = Ok (y2, a) /\ zrel n y1 y2.
Proof.
  revert z1 z2 count. induction members as [|m members IH]; intros z1 z2 count Hz; cbn [zrem_loop]; [by eexists _, _, _|].
  destruct Hz as (ps1 & ps2 & es & H1 & H2 & Hlen). unfold SkipList.Delete.
  pose proof (deleteUnsafe_spec z1 ps1 es m H1) as D1. pose proof (deleteUnsafe_spec z2 ps2 es m H2) as D2.
  pose proof (GetScore_spec _ _ _ m H1) as G1. pose proof (GetScore_spec _ _ _ m H2) as G2. unfold GetScore in G1, G2. rewrite G1 in D1. rewrite G2 in D2.
  pose proof (length_drop_member m es). destruct (Score ∘ snd <$> find_member m es).
  - destruct D1 as (y1 & q1 & -> & R1 & _), D2 as (y2 & q2 & -> & R2 & _). csimpl. apply IH. exists q1, q2, (drop_member m es).
    split; [done|]. split; [done|lia].
  - destruct D1 as [-> _], D2 as [-> _]. csimpl. apply IH. by exists ps1, ps2, es.
Qed.

Lemma zrank_agree n z1 z2 m : zrel n z1 z2 -> m <> [] \/ z1 = z2 ->
  exists r, GetRank m z1 = Ok r /\ GetRank m z2 = Ok r.
Proof.
  intros (ps1 & ps2 & es & H1 & H2 & _) [Hm| ->].
  - eexists. split; [by apply (GetRank_spec _ _ _ m H1)|by apply (GetRank_spec _ _ _ m H2)].
  - destruct (GetRank_total _ _ _ m H2) as [r ->]. by exists r.
Qed.

Lemma zrange_agree n z1 z2 start stop rev : zrel n z1 z2 -> is_int64 start -> is_int64 stop ->
  exists l, SkipList.Range start stop rev z1 = Ok l /\ SkipList.Range start stop rev z2 = Ok l.
Proof.
  intros (ps1 & ps2 & es & H1 & H2 & _) Hs Ht. eexists. split; [by apply (Range_spec _ _ _ _ _ _ H1)|by apply (Range_spec _ _ _ _ _ _ H2)].
Qed.

Lemma zcard_agree n z1 z2 : zrel n z1 z2 -> SkipList.Length z1 = SkipList.Length z2.
Proof. intros (ps1 & ps2 & es & H1 & H2 & _). by rewrite (r_length _ _ _ H1), (r_length _ _ _ H2). Qed.

Lemma zscore_agree n z1 z2 m : zrel n z1 z2 -> GetScore m z1 = GetScore m z2.
Proof. intros (ps1 & ps2 & es & H1 & H2 & _). by rewrite (GetScore_spec _ _ _ m H1), (GetScore_spec _ _ _ m H2). Qed.

Lemma zrel_new n : 0 <= n -> zrel n NewSkipList NewSkipList.
Proof. intros Hn. exists [], [], []. split; [apply repr_new|]. split; [apply repr_new|done]. Qed.

(** ** Every command *)

(** The count of LPOP and RPOP is not negative. *)
Definition pop_ok (args : list bytes) : Prop :=
  match args with
  | _ :: k :: _ => match ParseInt k with Ok count => 0 <= count | Err _ => True end
  | _ => True
  end.

(** The command sets no expiry time. *)
Definition no_expiry (cmd : bytes) (args : list bytes) : Prop :=
  cmd ∉ [str "SETEX"; str "PSETEX"; str "EXPIRE"; str "PEXPIRE"] /\
  (cmd = str "SET" -> forall ttl nx xx, set_options (drop 2 args) 0 false false = Ok (ttl, nx, xx) -> ttl <= 0).

Record safe (timeless : bool) (cmd : bytes) (args : list bytes) : Prop := {
  safe_pop : cmd = str "LPOP" \/ cmd = str "RPOP" -> pop_ok args;
  safe_zadd : cmd = str "ZADD" -> floats_ok args;
  safe_expiry : timeless = true -> no_expiry cmd args
}.

Section agreement.
Context (tl : bool) (n n' : Z) (ks1 ks2 : Keyspace) (c1 c2 : clock) (rng1 rng2 : nat -> nat -> Z).
Context (HR : related tl n ks1 ks2) (Hc : same_clock tl c1 c2) (Hn0 : 0 <= n) (Hnn : n <= n').

Lemma agree_same a : agree tl n' (Ok (ks1, a)) (Ok (ks2, a)).
Proof using HR Hnn. exists ks1, ks2, a. split; [done|]. split; [done|]. by eapply related_mono. Qed.

Lemma agree_mono o1 o2 : agree tl n o1 o2 -> agree tl n' o1 o2.
Proof using Hnn. intros (k1 & k2 & a & ? & ? & ?). exists k1, k2, a. split; [done|]. split; [done|]. by eapply related_mono. Qed.

(** The steps of a command that reads, changes or creates one value. *)
Ltac by_values := equal_values; eexists _, _; split; [reflexivity|]; split; [reflexivity|]; repeat case_match; simplify_eq.
Ltac reads_value :=
  apply (reading_agree tl n n' ks1 ks2 c1 c2 HR Hc Hnn); by_values; eexists; repeat split.
Ltac updates_value :=
  apply (updating_agree tl n n' ks1 ks2 c1 c2 HR Hc Hnn); by_values; eexists _, _, _; repeat split.
Ltac creates_value :=
  apply (creating_agree tl n n' ks1 ks2 c1 c2 HR Hc Hnn); [done|done|]; by_values; eexists _, _, _; repeat split.
Ltac command :=
  first [apply agree_same | solve [reads_value] | solve [updates_value] | solve [creates_value]].

Lemma string_commands_agree args :
  agree tl n' (cmd_get c1 args ks1) (cmd_get c2 args ks2) /\
  agree tl n' (cmd_strlen c1 args ks1) (cmd_strlen c2 args ks2) /\
  agree tl n' (cmd_append c1 args ks1) (cmd_append c2 args ks2) /\
  (forall d, agree tl n' (handleIncrBy c1 args d ks1) (handleIncrBy c2 args d ks2)) /\
  (forall d name, agree tl n' (cmd_incrby c1 args d name ks1) (cmd_incrby c2 args d name ks2)).
Proof using HR Hc Hnn.
  split; [|split; [|split; [|split]]].
  - unfold cmd_get. destruct args; command.
  - unfold cmd_strlen. destruct args; command.
  - unfold cmd_append. destruct args as [|? [|? ?]]; try command. by apply agree_mono, Append_agree.
  - intros d. unfold handleIncrBy. destruct args; [command|]. by apply agree_mono, IncrBy_agree.
  - intros d name. unfold cmd_incrby, handleIncrBy. destruct args as [|? [|? ?]]; try command.
    destruct (ParseInt _); [by apply agree_mono, IncrBy_agree|command].
Qed.

Lemma hash_commands_agree args :
  agree tl n' (handleHSet c1 args ks1) (handleHSet c2 args ks2) /\
  agree tl n' (handleHMSet c1 args ks1) (handleHMSet c2 args ks2) /\
  agree tl n' (cmd_hget c1 args ks1) (cmd_hget c2 args ks2) /\
  agree tl n' (cmd_hmget c1 args ks1) (cmd_hmget c2 args ks2) /\
  agree tl n' (cmd_hdel c1 args ks1) (cmd_hdel c2 args ks2) /\
  agree tl n' (cmd_hexists c1 args ks1) (cmd_hexists c2 args ks2) /\
  agree tl n' (cmd_hincrby c1 args ks1) (cmd_hincrby c2 args ks2) /\
  (forall name absent body, agree tl n' (cmd_hash_view c1 args name absent body ks1) (cmd_hash_view c2 args name absent body ks2)).
Proof using HR Hc Hnn.
  repeat split.
  - unfold handleHSet. case_decide; command.
  - unfold handleHMSet. case_decide; command.
  - unfold cmd_hget. destruct args as [|? [|? ?]]; command.
  - unfold cmd_hmget. destruct args as [|? [|? ?]]; command.
  - unfold cmd_hdel. case_match; command.
  - unfold cmd_hexists. destruct args as [|? [|? ?]]; command.
  - unfold cmd_hincrby. destruct args as [|? [|? [|? ?]]]; try command. destruct (ParseInt _); command.
  - intros. unfold cmd_hash_view. destruct args; command.
Qed.

Lemma set_commands_agree args :
  agree tl n' (cmd_sadd c1 args ks1) (cmd_sadd c2 args ks2) /\
  agree tl n' (cmd_srem c1 args ks1) (cmd_srem c2 args ks2) /\
  agree tl n' (cmd_smembers c1 args ks1) (cmd_smembers c2 args ks2) /\
  agree tl n' (cmd_sismember c1 args ks1) (cmd_sismember c2 args ks2) /\
  agree tl n' (cmd_scard c1 args ks1) (cmd_scard c2 args ks2).
Proof using HR Hc Hnn.
  repeat split.
  - unfold cmd_sadd. case_match; command.
  - unfold cmd_srem. case_match; command.
  - unfold cmd_smembers. destruct args; command.
  - unfold cmd_sismember. destruct args as [|? [|? ?]]; command.
  - unfold cmd_scard. destruct args; command.
Qed.

Lemma list_commands_agree args :
  (forall name push, agree tl n' (cmd_push c1 args name push ks1) (cmd_push c2 args name push ks2)) /\
  agree tl n' (cmd_lrange c1 args ks1) (cmd_lrange c2 args ks2) /\
  agree tl n' (cmd_llen c1 args ks1) (cmd_llen c2 args ks2) /\
  agree tl n' (cmd_lindex c1 args ks1) (cmd_lindex c2 args ks2) /\
  (pop_ok args -> agree tl n' (cmd_pop c1 args (str "lpop") LPop ks1) (cmd_pop c2 args (str "lpop") LPop ks2) /\
    agree tl n' (cmd_pop c1 args (str "rpop") RPop ks1) (cmd_pop c2 args (str "rpop") RPop ks2)).
Proof using HR Hc Hnn.
  assert (forall pop name, pop_ok args ->
    (forall l count, 0 <= count -> exists r l', pop l count = Ok (r, l') /\ (count = 1 -> r <> Some [])) ->
    agree tl n' (cmd_pop c1 args name pop ks1) (cmd_pop c2 args name pop ks2)) as Hpop.
  { intros pop name Hok Hp. unfold cmd_pop. destruct args as [|key rest]; [command|].
    apply (updating_agree tl n n' ks1 ks2 c1 c2 HR Hc Hnn); equal_values. eexists _, _. split; [reflexivity|]. split; [reflexivity|].
    unfold pop_body. destruct rest as [|cnt rest].
    - destruct (Hp l0 1) as (r & l' & -> & Hr); [lia|]. destruct r as [[|it its]|]; [by destruct (Hr eq_refl)|..]; csimpl;
        eexists _, _, _; repeat split.
    - cbn [pop_ok] in Hok. destruct (ParseInt cnt) as [count|]; [|eexists _, _, _; repeat split].
      destruct (Hp l0 count Hok) as (r & l' & -> & _). destruct r; csimpl; eexists _, _, _; repeat split. }
  split; [|split; [|split; [|split]]].
  - intros. unfold cmd_push. case_match; command.
  - unfold cmd_lrange. destruct args as [|? [|? [|? ?]]]; command.
  - unfold cmd_llen. destruct args; command.
  - unfold cmd_lindex. destruct args as [|? [|? ?]]; command.
  - intros Hok. split; apply (Hpop _ _ Hok); intros l count Hcnt; unfold LPop, RPop;
      (destruct (Z.eqb_spec (Z.of_nat (length (items l))) 0); [by eexists _, _|]);
      (destruct (Z.ltb_spec (if count >? Z.of_nat (length (items l)) then Z.of_nat (length (items l)) else count) 0) as [Hl|Hl];
        [destruct (count >? _); lia|]); eexists _, _; (split; [done|]); intros ->.
    + destruct (items l) as [|x l0]; [done|]. cbn [length].
      destruct (Z.gtb_spec 1 (Z.of_nat (S (length l0)))); [lia|]. by change (Z.to_nat 1) with 1%nat.
    + destruct (items l) as [|x l0]; [done|]. cbn [length].
      destruct (Z.gtb_spec 1 (Z.of_nat (S (length l0)))); [lia|]. by change (Z.to_nat 1) with 1%nat.
Qed.

Lemma zset_commands_agree args : n + Z.of_nat (length args) <= n' -> n' < 2 ^ 63 - 1 ->
  (floats_ok args -> agree tl n' (handleZAdd ParseFloat rng1 c1 args ks1) (handleZAdd ParseFloat rng2 c2 args ks2)) /\
  agree tl n' (cmd_zscore FormatFloat c1 args ks1) (cmd_zscore FormatFloat c2 args ks2) /\
  (forall rev, agree tl n' (handleZRange FormatFloat c1 args rev ks1) (handleZRange FormatFloat c2 args rev ks2)) /\
  agree tl n' (cmd_zrem c1 args ks1) (cmd_zrem c2 args ks2) /\
  agree tl n' (cmd_zcard c1 args ks1) (cmd_zcard c2 args ks2) /\
  (args !! 1%nat <> Some [] \/ (ks1 = ks2 /\ c1 = c2) -> agree tl n' (cmd_zrank c1 args ks1) (cmd_zrank c2 args ks2)).
Proof using HR Hc Hn0 Hnn.
  intros Hn' Hb. split; [|split; [|split; [|split; [|split]]]].
  - intros Hf. unfold handleZAdd. case_decide; [command|].
    apply (creating_agree tl n n' ks1 ks2 c1 c2 HR Hc Hnn); [done|by apply zrel_new|]. equal_values.
    eexists _, _. split; [reflexivity|]. split; [reflexivity|].
    destruct (zadd_loop_agree rng1 rng2 (drop 1 args) 0 0 n z z0 0) as (y1 & y2 & a & -> & -> & Hz).
    + intros x sc Hx. apply Hf. revert Hx. destruct args; [done|]. cbn. rewrite drop_0. intros. by right.
    + done.
    + rewrite length_drop. lia.
    + eexists _, _, _. repeat split. eapply zrel_mono; [|done]. rewrite length_drop. lia.
  - unfold cmd_zscore. destruct args as [|? [|? ?]]; try command.
    apply (reading_agree tl n n' ks1 ks2 c1 c2 HR Hc Hnn); equal_values. eexists _, _. split; [reflexivity|]. split; [reflexivity|].
    rewrite (zscore_agree n z z0) by done. eexists. repeat split.
  - intros rev. unfold handleZRange. destruct args as [|? [|a [|b ?]]]; try command.
    apply (reading_agree tl n n' ks1 ks2 c1 c2 HR Hc Hnn); equal_values. eexists _, _. split; [reflexivity|]. split; [reflexivity|].
    destruct (ParseInt a) as [start|] eqn:Ea; [|eexists; repeat split]. destruct (ParseInt b) as [stop|] eqn:Eb; [|eexists; repeat split].
    destruct (zrange_agree n z z0 start stop rev) as (l' & -> & ->); [done|by eapply ParseInt_range..|]. csimpl. eexists. repeat split.
  - unfold cmd_zrem. case_match; [command|].
    apply (updating_agree tl n n' ks1 ks2 c1 c2 HR Hc Hnn); equal_values. eexists _, _. split; [reflexivity|]. split; [reflexivity|].
    destruct (zrem_loop_agree (drop 1 args) n z z0 0) as (y1 & y2 & a & -> & -> & Hz); [done|].
    eexists _, _, _. repeat split. by apply (zrel_mono n).
  - unfold cmd_zcard. destruct args; try command.
    apply (reading_agree tl n n' ks1 ks2 c1 c2 HR Hc Hnn); equal_values. eexists _, _. split; [reflexivity|]. split; [reflexivity|].
    rewrite (zcard_agree n z z0) by done. eexists. repeat split.
  - intros Hm. unfold cmd_zrank. destruct args as [|? [|m ?]]; try command.
    apply (reading_agree tl n n' ks1 ks2 c1 c2 HR Hc Hnn). intros v1 v2 Hv Ht Heq. destruct v1; try discriminate; destruct v2; try contradiction.
    cbn in Hv. eexists _, _. split; [reflexivity|]. split; [reflexivity|].
    destruct (zrank_agree n z z0 m) as (r & -> & ->); [done| |csimpl; eexists; repeat split].
    destruct Hm as [Hm|Hm]; [left; intros ->; done|right; specialize (Heq Hm); congruence].
Qed.

Lemma mset_loop_related args : related tl n (mset_loop c1 args ks1) (mset_loop c2 args ks2).
Proof using HR.
  clear Hc. revert ks1 ks2 HR. induction args as [|k|k v args IH] using list_pair_ind; intros k1 k2 Hk; cbn [mset_loop]; [done|done|].
  apply IH. by apply Set_related.
Qed.

Lemma mget_loop_agree args : exists k1 k2 l, mget_loop c1 args ks1 = Ok (k1, l) /\ mget_loop c2 args ks2 = Ok (k2, l) /\ related tl n k1 k2.
Proof using HR Hc.
  clear Hnn n'. revert ks1 ks2 HR. induction args as [|k args IH]; intros k1 k2 Hk; cbn [mget_loop]; [by eexists _, _, _|].
  destruct (reading_agree tl n n k1 k2 c1 c2 Hk Hc (Z.le_refl n) k TypeString as_string (reads Null) (reads Null)
    (fun s => Ok (reads (BulkString s))) (fun s => Ok (reads (BulkString s)))) as (k1' & k2' & a & -> & -> & Hk'); [by_values; eexists; repeat split|].
  csimpl. destruct (IH k1' k2' Hk') as (k1'' & k2'' & l & -> & -> & Hk''). csimpl. by eexists _, _, _.
Qed.

Lemma key_commands_agree args :
  agree tl n' (cmd_mset c1 args ks1) (cmd_mset c2 args ks2) /\
  agree tl n' (cmd_mget c1 args ks1) (cmd_mget c2 args ks2) /\
  agree tl n' (cmd_del args ks1) (cmd_del args ks2) /\
  agree tl n' (cmd_exists c1 args ks1) (cmd_exists c2 args ks2) /\
  agree tl n' (cmd_type c1 args ks1) (cmd_type c2 args ks2) /\
  agree tl n' (cmd_setnx c1 args ks1) (cmd_setnx c2 args ks2) /\
  agree tl n' (cmd_ttl c1 args ks1) (cmd_ttl c2 args ks2) /\
  agree tl n' (cmd_pttl c1 args ks1) (cmd_pttl c2 args ks2) /\
  agree tl n' (cmd_persist c1 args ks1) (cmd_persist c2 args ks2).
Proof using HR Hc Hnn.
  repeat split.
  - unfold cmd_mset. case_decide; [command|]. apply agree_mono. eexists _, _, _. split; [done|]. split; [done|]. apply mset_loop_related.
  - unfold cmd_mget. destruct args as [|k args]; [command|]. apply agree_mono.
    destruct (mget_loop_agree (k :: args)) as (k1 & k2 & l & -> & -> & Hk). csimpl. by eexists _, _, _.
  - unfold cmd_del. destruct args as [|k args]; [command|]. apply agree_mono. destruct (Delete_related tl n ks1 ks2 HR (k :: args)) as [HD1 HD2].
    destruct (Keyspace.Delete ks1 _), (Keyspace.Delete ks2 _). cbn in *. subst. by eexists _, _, _.
  - unfold cmd_exists. destruct args as [|k args]; [command|]. apply agree_mono.
    destruct (Exists_related tl n c1 c2 (k :: args) ks1 ks2 HR Hc) as [HD1 HD2].
    destruct (Keyspace.Exists ks1 _ _), (Keyspace.Exists ks2 _ _). cbn in *. subst. by eexists _, _, _.
  - unfold cmd_type. destruct args as [|k args]; [command|]. apply agree_mono. destruct (Get_related tl n ks1 ks2 c1 c2 HR Hc k) as [HG1 HG2].
    destruct (Keyspace.Get ks1 _ _), (Keyspace.Get ks2 _ _). cbn in *. destruct HG2 as [e1 e2 [? He ? ? ?]|]; [rewrite He|]; by eexists _, _, _.
  - unfold cmd_setnx. destruct args as [|k [|v args]]; try command. apply agree_mono. destruct (SetNX_related tl n ks1 ks2 c1 c2 HR Hc k v) as [HG1 HG2].
    destruct (SetNX ks1 _ _ _), (SetNX ks2 _ _ _). cbn in *. subst. by eexists _, _, _.
  - unfold cmd_ttl. destruct args as [|k args]; [command|]. apply agree_mono. destruct (ttl_agree tl n ks1 ks2 c1 c2 k HR Hc) as [[HG1 HG2] _].
    destruct (Keyspace.TTL ks1 _ _ _), (Keyspace.TTL ks2 _ _ _). cbn in *. subst. by eexists _, _, _.
  - unfold cmd_pttl. destruct args as [|k args]; [command|]. apply agree_mono. destruct (ttl_agree tl n ks1 ks2 c1 c2 k HR Hc) as [_ [HG1 HG2]].
    destruct (Keyspace.PTTL ks1 _ _ _), (Keyspace.PTTL ks2 _ _ _). cbn in *. subst. by eexists _, _, _.
  - unfold cmd_persist. destruct args as [|k args]; [command|]. by apply agree_mono, Persist_agree.
Qed.

Lemma handleSet_agree args :
  (tl = true -> forall ttl nx xx, set_options (drop 2 args) 0 false false = Ok (ttl, nx, xx) -> ttl <= 0) ->
  agree tl n' (handleSet c1 args ks1) (handleSet c2 args ks2).
Proof using HR Hc Hnn.
  intros Ht. unfold handleSet. destruct args as [|k [|v opts]]; try command. cbn [drop] in Ht. rewrite drop_0 in Ht.
  destruct (set_options opts 0 false false) as [[[ttl nx] xx]|a]; [|command]. specialize (fun H => Ht H ttl nx xx eq_refl).
  assert (exists k1 k2 b,
    (if nx || xx then let '(ks, r) := Keyspace.Get ks1 (now c1) k in (ks, match r with Some _ => nx | None => xx end) else (ks1, false)) = (k1, b) /\
    (if nx || xx then let '(ks, r) := Keyspace.Get ks2 (now c2) k in (ks, match r with Some _ => nx | None => xx end) else (ks2, false)) = (k2, b) /\
    related tl n k1 k2) as (k1 & k2 & b & -> & -> & Hk).
  { destruct (nx || xx); [|by exists ks1, ks2, false]. destruct (Get_related tl n ks1 ks2 c1 c2 HR Hc k) as [HG1 HG2].
    destruct (Keyspace.Get ks1 _ _), (Keyspace.Get ks2 _ _). cbn in *. destruct HG2; by eexists _, _, _. }
  destruct b; apply agree_mono; eexists _, _, _; (split; [done|]; split; [done|]); [done|].
  apply Set_related; [done| |].
  - destruct Hc as [Htl| ->]; [|done]. specialize (Ht Htl). by destruct (Z.ltb_spec 0 ttl); [lia|].
  - intros Htl. specialize (Ht Htl). by destruct (Z.ltb_spec 0 ttl); [lia|].
Qed.

Lemma expiry_commands_agree args : tl = false ->
  (forall u name, agree tl n' (cmd_setex c1 args u name ks1) (cmd_setex c2 args u name ks2)) /\
  (forall u name, agree tl n' (cmd_expire c1 args u name ks1) (cmd_expire c2 args u name ks2)).
Proof using HR Hc Hnn.
  intros Htl. assert (c1 = c2) as Heq by (destruct Hc; [congruence|done]). split; intros u name.
  - unfold cmd_setex. destruct args as [|k [|t [|v args']]]; try command. destruct (ParseInt t) as [m|]; [|command].
    destruct (m <=? 0); [command|]. apply agree_mono. eexists _, _, _. split; [done|]. split; [done|].
    apply Set_related; [done|by rewrite Heq|congruence].
  - unfold cmd_expire. destruct args as [|k [|t args']]; try command. destruct (ParseInt t) as [m|]; [|command].
    apply agree_mono. rewrite <- Heq. rewrite Htl in *. by apply Expire_agree.
Qed.

Lemma flush_agree : agree tl n' (Ok (FlushDB ks1, writes OK)) (Ok (FlushDB ks2, writes OK)).
Proof using HR Hnn.
  destruct HR as [W1 W2 _ _]. rewrite !FlushDB_spec by done.
  eexists _, _, _. split; [done|]. split; [done|]. apply related_new.
Qed.

End agreement.

Lemma assoc_cases {A} (P : bytes -> A -> A -> Prop) cmd (l1 l2 : list (bytes * A)) :
  Forall2 (fun p q => p.1 = q.1 /\ (p.1 = cmd -> P cmd p.2 q.2)) l1 l2 ->
  match list_find (fun p => p.1 = cmd) l1, list_find (fun p => p.1 = cmd) l2 with
  | Some (_, p), Some (_, q) => P cmd p.2 q.2
  | None, None => True
  | _, _ => False
  end.
Proof.
  induction 1 as [|p q l1 l2 [Hn Hp] _ IH]; [done|]. cbn [list_find].
  rewrite <- Hn. case_decide as Hd; [auto|]. destruct (list_find _ l1) as [[i p']|], (list_find _ l2) as [[j q']|]; done.
Qed.

(** Every modelled command on related keyspaces. *)
Lemma dispatch_agree tl n ks1 ks2 c1 c2 rng1 rng2 cmd args : related tl n ks1 ks2 -> same_clock tl c1 c2 ->
  0 <= n -> n + Z.of_nat (length args) < 2 ^ 63 - 1 -> safe tl cmd args ->
  (cmd = str "ZRANK" -> args !! 1%nat <> Some [] \/ (ks1 = ks2 /\ c1 = c2)) ->
  match dispatch ParseFloat FormatFloat rng1 c1 cmd args ks1, dispatch ParseFloat FormatFloat rng2 c2 cmd args ks2 with
  | Some o1, Some o2 => agree tl (n + Z.of_nat (length args)) o1 o2
  | None, None => True
  | _, _ => False
  end.
Proof.
  intros HR Hc Hn0 Hn [Hpop Hz Hx] Hr. unfold dispatch. set (n' := n + Z.of_nat (length args)) in *.
  assert (n <= n') as Hnn by (unfold n'; lia).
  pose proof (assoc_cases (fun _ h1 h2 => agree tl n' (h1 ks1) (h2 ks2)) cmd (cases ParseFloat FormatFloat rng1 c1 args)
    (cases ParseFloat FormatFloat rng2 c2 args)) as HA.
  match type of HA with ?A -> ?B => assert A as HF; [clear HA|specialize (HA HF);
    destruct (list_find _ (cases _ _ rng1 c1 args)) as [[? ?]|], (list_find _ (cases _ _ rng2 c2 args)) as [[? ?]|]; exact HA] end.
  pose proof (string_commands_agree tl n n' ks1 ks2 c1 c2 HR Hc Hnn args) as (S1 & S2 & S3 & S4 & S5).
  pose proof (hash_commands_agree tl n n' ks1 ks2 c1 c2 HR Hc Hnn args) as (H1 & H2 & H3 & H4 & H5 & H6 & H7 & H8).
  pose proof (set_commands_agree tl n n' ks1 ks2 c1 c2 HR Hc Hnn args) as (T1 & T2 & T3 & T4 & T5).
  pose proof (list_commands_agree tl n n' ks1 ks2 c1 c2 HR Hc Hnn args) as (L1 & L2 & L3 & L4 & L5).
  pose proof (zset_commands_agree tl n n' ks1 ks2 c1 c2 rng1 rng2 HR Hc Hn0 Hnn args (Z.le_refl _) Hn) as (Z1 & Z2 & Z3 & Z4 & Z5 & Z6).
  pose proof (key_commands_agree tl n n' ks1 ks2 c1 c2 HR Hc Hnn args) as (K1 & K2 & K3 & K4 & K5 & K6 & K7 & K8 & K9).
  assert (cmd ∈ [str "SETEX"; str "PSETEX"; str "EXPIRE"; str "PEXPIRE"] ->
    (forall u name, agree tl n' (cmd_setex c1 args u name ks1) (cmd_setex c2 args u name ks2)) /\
    (forall u name, agree tl n' (cmd_expire c1 args u name ks1) (cmd_expire c2 args u name ks2))) as HX.
  { intros Hin. apply (expiry_commands_agree tl n n' ks1 ks2 c1 c2 HR Hc Hnn args).
    destruct tl; [|done]. by destruct (proj1 (Hx eq_refl)). }
  assert (cmd = str "SET" -> agree tl n' (handleSet c1 args ks1) (handleSet c2 args ks2)) as HS.
  { intros Hs. apply (handleSet_agree tl n n' ks1 ks2 c1 c2 HR Hc Hnn). intros Ht. by apply (proj2 (Hx Ht)). }
  assert (forall a, agree tl n' (Ok (ks1, a)) (Ok (ks2, a))) as HI by (intros; by apply (agree_same tl n)).
  pose proof (flush_agree tl n n' ks1 ks2 HR Hnn) as HF. pose proof (rel_count _ _ _ _ HR) as HC.
  unfold cases. repeat (apply Forall2_cons; split; [split; [reflexivity|cbn [fst snd]; intros Hcmd]|]); try apply Forall2_nil_2;
    first [done | apply HI | apply HF | by apply HS | by apply Z6, Hr | by apply Z1, Hz | by apply S4 | by apply S5 | by apply H8
      | by apply L1 | by apply L5, Hpop; auto | by apply Z3
      | apply HX; rewrite <- Hcmd; repeat (apply list_elem_of_here || apply list_elem_of_further)
      | unfold TotalKeys; rewrite HC; apply HI].
Qed.

(** ** Commands that do not count as writes *)

(** The same but for the two time stamps that eviction uses. *)
Definition same_entry (e e' : Entry) : Prop :=
  Type_ e = Type_ e' /\ Value_ e = Value_ e' /\ ExpiresAt e = ExpiresAt e'.

(** [ks'] is [ks], without some of the entries that have expired. *)
Record faded (t : Z) (ks ks' : Keyspace) : Prop := {
  fd_wf : wf ks';
  fd_look : forall k, option_Forall2 same_entry (look ks k) (look ks' k) \/
    (exists e, look ks k = Some e /\ IsExpired e t = true /\ look ks' k = None);
  fd_count : (forall k e, look ks k = Some e -> IsExpired e t = false) -> keyCount ks' = keyCount ks
}.

Lemma same_entry_expired e e' t : same_entry e e' -> IsExpired e t = IsExpired e' t.
Proof. intros (_ & _ & H). unfold IsExpired. by rewrite H. Qed.

Lemma faded_refl t ks : wf ks -> faded t ks ks.
Proof. intros Hw. split; [done| |done]. intros k. left. destruct (look ks k); by constructor. Qed.

Lemma faded_trans t ks1 ks2 ks3 : faded t ks1 ks2 -> faded t ks2 ks3 -> faded t ks1 ks3.
Proof.
  intros [? F1 C1] [? F2 C2]. split; [done| |].
  - intros k. destruct (F1 k) as [H1|(e & E1 & Hx & E2)]; destruct (F2 k) as [H2|(e' & E1' & Hx' & E2')].
    + left. destruct H1 as [e1 e2 (A1 & A2 & A3)|]; inversion H2 as [? e3 (B1 & B2 & B3)|]; subst; constructor. by repeat split; etransitivity.
    + rewrite E1' in H1. inversion H1 as [e1 ? Hs|]; subst. right. exists e1. split; [done|]. split; [|done].
      by rewrite (same_entry_expired _ _ _ Hs).
    + rewrite E2 in H2. inversion H2. right. eauto.
    + congruence.
  - intros Hnone. rewrite C2; [by apply C1|]. intros k e2 Hk. destruct (F1 k) as [H1|(e & _ & _ & E2)]; [|congruence].
    rewrite Hk in H1. inversion H1 as [e1 ? Hs|]; subst. rewrite <- (same_entry_expired _ _ _ Hs). eauto.
Qed.

Lemma load_live_faded t ks k : wf ks -> faded t ks (load_live ks t k).1.
Proof.
  intros Hw. unfold load_live. destruct (look ks k) as [e|] eqn:Hk; [|by apply faded_refl].
  destruct (IsExpired e t) eqn:Hx; [|by apply faded_refl]. split.
  - by apply addCount_wf, remove_wf.
  - intros k'. cbn [fst]. assert (look (addCount (remove ks k) (-1)) k' = if decide (k' = k) then None else look ks k') as ->
      by by apply look_remove.
    case_decide; subst; [right; eauto|]. left. destruct (look ks k'); by constructor.
  - intros H. specialize (H k e Hk). congruence.
Qed.

Lemma Get_faded t ks k : wf ks -> faded t ks (Keyspace.Get ks t k).1.
Proof. rewrite Get_load_live. apply load_live_faded. Qed.

Lemma store_faded t ks k e e' : wf ks -> look ks k = Some e -> same_entry e e' -> faded t ks (store ks k e').
Proof.
  intros Hw Hk Hs. split; [by apply store_wf| |done]. intros k'. left. rewrite look_store by done.
  case_decide; subst; [rewrite Hk; by constructor|]. destruct (look ks k'); by constructor.
Qed.

Definition reads_only (t : Z) (ks : Keyspace) (o : outcome) : Prop :=
  forall ks' a, o = Ok (ks', (a, false)) -> faded t ks ks'.

Section fading.
Context (c : clock) (ks : Keyspace) (Hw : wf ks).

Lemma same_reads a : reads_only (now c) ks (Ok (ks, a)).
Proof using Hw. intros ks' b [= <- _]. by apply faded_refl. Qed.

Lemma reading_fades {T} k t (conv : Value -> option T) absent wrong body :
  reads_only (now c) ks (reading c k t conv absent wrong body ks).
Proof using Hw.
  intros ks' a. unfold reading. pose proof (Get_faded (now c) ks k Hw) as HG. destruct (Keyspace.Get ks (now c) k) as [ks1 r].
  cbn [fst] in HG. destruct r as [e|]; [|congruence]. case_decide; [|congruence].
  destruct (conv (Value_ e)); csimpl; [|done]. destruct (body t0); csimpl; congruence.
Qed.

Lemma updating_fades {T} k t (conv : Value -> option T) wrap absent wrong body :
  (forall v x, conv v = Some x -> wrap x = v) -> (forall x y a, body x = Ok (y, (a, false)) -> y = x) ->
  reads_only (now c) ks (updating c k t conv wrap absent wrong body ks).
Proof using Hw.
  intros Hwrap Hbody ks' a. unfold updating. rewrite Get_load_live. pose proof (load_live_faded (now c) ks k Hw) as HG.
  pose proof (load_live_spec ks (now c) k Hw) as HL. destruct (load_live ks (now c) k) as [ks1 r]. destruct HL as (Hw1 & _ & _ & Hk).
  cbn [fst] in HG. destruct r as [e|]; [|congruence]. case_decide; [|congruence].
  destruct (conv (Value_ e)) as [x|] eqn:Hx; csimpl; [|done]. destruct (body x) as [[y [a' w]]|] eqn:Hy; csimpl; [|done].
  intros [= <- <- ->]. apply Hbody in Hy as ->. eapply faded_trans; [exact HG|]. unfold poke. rewrite Hk.
  eapply store_faded; [done|done|]. split; [done|]. by rewrite (Hwrap _ _ Hx).
Qed.

Lemma creating_fades {T} k t (conv : Value -> option T) wrap new body :
  (forall v x, conv v = Some x -> wrap x = v) -> conv (wrap new) = Some new -> (forall x y a, body x = Ok (y, (a, false)) -> y = x) ->
  (forall y a, body new <> Ok (y, (a, false))) ->
  reads_only (now c) ks (creating c k t conv wrap new body ks).
Proof using Hw.
  intros Hwrap Hnew Hbody Hnever ks' a. unfold creating, GetOrCreate. pose proof (load_live_faded (now c) ks k Hw) as HG.
  pose proof (load_live_spec ks (now c) k Hw) as HL. destruct (load_live ks (now c) k) as [ks1 r]. destruct HL as (Hw1 & _ & _ & Hk).
  cbn [fst] in HG. destruct r as [e|]; cbn [Type_ Value_].
  - set (e' := mkE (Type_ e) (Value_ e) (ExpiresAt e) (UpdatedAt e) (now c)).
    assert (faded (now c) ks (store ks1 k e')) as HG' by (eapply faded_trans; [exact HG|]; by eapply store_faded).
    case_decide; [|congruence]. destruct (conv (Value_ e)) as [x|] eqn:Hx; csimpl; [|done].
    destruct (body x) as [[y [a' w]]|] eqn:Hy; csimpl; [|done]. intros [= <- <- ->]. apply Hbody in Hy as ->.
    eapply faded_trans; [exact HG'|]. unfold poke. rewrite look_store, decide_True by done.
    eapply store_faded; [by apply store_wf|rewrite look_store, decide_True by done; done|]. split; [done|]. by rewrite (Hwrap _ _ Hx).
  - rewrite decide_True, Hnew by done. csimpl. destruct (body new) as [[y [a' w]]|] eqn:Hy; csimpl; [|done].
    intros [= <- <- ->]. by destruct (Hnever y a').
Qed.

End fading.

Section fading_commands.
Context (c : clock) (ks : Keyspace) (Hw : wf ks).

Lemma of_ks_reads (r : Keyspace * res ks_error Z) :
  (forall x, r.2 = Err x -> faded (now c) ks r.1) -> reads_only (now c) ks (of_ks r).
Proof using. destruct r as [k1 [z|x]]; cbn; intros H ks' a; [done|]. destruct x; intros [= <- _]; by eapply H. Qed.

Lemma IncrBy_reads k d : reads_only (now c) ks (of_ks (Keyspace.IncrBy ks (now c) k d)).
Proof using Hw.
  apply of_ks_reads. intros x. unfold Keyspace.IncrBy. pose proof (load_live_faded (now c) ks k Hw) as HG.
  destruct (load_live ks (now c) k) as [ks1 r]. cbn [fst] in HG. repeat case_match; cbn; done.
Qed.

Lemma Append_reads k d : reads_only (now c) ks (of_ks (Keyspace.Append ks (now c) k d)).
Proof using Hw.
  apply of_ks_reads. intros x. unfold Keyspace.Append. pose proof (load_live_faded (now c) ks k Hw) as HG.
  destruct (load_live ks (now c) k) as [ks1 r]. cbn [fst] in HG. repeat case_match; cbn; done.
Qed.

Lemma of_flag_reads (r : Keyspace * bool) : (r.2 = false -> faded (now c) ks r.1) -> reads_only (now c) ks (of_flag r).
Proof using. destruct r as [k1 [|]]; cbn; intros H ks' a; [done|]. intros [= <- _]. by apply H. Qed.

Lemma flags_read k d : reads_only (now c) ks (of_flag (Keyspace.Expire ks (now c) k d)) /\
  reads_only (now c) ks (of_flag (Keyspace.Persist ks (now c) k)).
Proof using Hw.
  unfold Keyspace.Expire, Keyspace.Persist. pose proof (load_live_faded (now c) ks k Hw) as HG.
  split; apply of_flag_reads; destruct (load_live ks (now c) k) as [ks1 r]; cbn [fst] in HG; destruct r; cbn; repeat case_match; done.
Qed.

Lemma Get_reads k (f : option Entry -> Resp.Value) :
  reads_only (now c) ks (let '(ks, r) := Keyspace.Get ks (now c) k in Ok (ks, reads (f r))).
Proof using Hw.
  pose proof (Get_faded (now c) ks k Hw) as HG. destruct (Keyspace.Get ks (now c) k). intros ks' a [= <- _]. done.
Qed.

Lemma mget_loop_fades keys ks0 ks' l : faded (now c) ks ks0 -> mget_loop c keys ks0 = Ok (ks', l) -> faded (now c) ks ks'.
Proof using.
  revert ks0 l. induction keys as [|k keys IH]; intros ks0 l HF; cbn [mget_loop]; [by intros [= <- _]|].
  pose proof (reading_fades c ks0 (fd_wf _ _ _ HF) k TypeString as_string (reads Null) (reads Null) (fun s => Ok (reads (BulkString s)))) as HR.
  assert (forall a w ks1, reading c k TypeString as_string (reads Null) (reads Null) (fun s => Ok (reads (BulkString s))) ks0 = Ok (ks1, (a, w)) -> w = false) as Hw0.
  { intros a w ks1. unfold reading, reads. destruct (Keyspace.Get ks0 (now c) k) as [? r]. repeat case_match; csimpl; try congruence.
    - destruct (as_string (Value_ e)); csimpl; congruence. }
  destruct (reading _ _ _ _ _ _ _ ks0) as [[ks1 [a w]]|] eqn:E; csimpl; [|done].
  destruct (mget_loop c keys ks1) as [[ks2 l']|] eqn:E2; csimpl; [|done]. intros [= <- <-].
  pose proof (Hw0 _ _ _ eq_refl) as ->. eapply (IH ks1); [|done]. eapply faded_trans; [done|]. by eapply HR.
Qed.

Lemma Exists_fades keys : faded (now c) ks (Keyspace.Exists ks (now c) keys).1.
Proof using Hw.
  unfold Keyspace.Exists. generalize 0. assert (faded (now c) ks ks) as HF by by apply faded_refl. revert HF. generalize ks at 2 4.
  induction keys as [|k keys IH]; intros ks0 HF z; [done|]. cbn [foldl]. unfold exists_one at 2.
  pose proof (Get_faded (now c) ks0 k (fd_wf _ _ _ HF)) as HG. destruct (Keyspace.Get ks0 (now c) k) as [ks1 r]. cbn [fst] in HG.
  apply IH. by eapply faded_trans.
Qed.

(** Every score of a ZADD parses. *)
Fixpoint scores_ok (pairs : list bytes) : Prop :=
  match pairs with
  | sc :: _ :: pairs' => is_Some (ParseFloat sc) /\ scores_ok pairs'
  | _ => True
  end.

Lemma zadd_writes rng k pairs z added y a : scores_ok pairs -> zadd_loop ParseFloat rng k pairs z added <> Ok (y, (a, false)).
Proof using.
  revert k z added. induction pairs as [|sc|sc m pairs IH] using list_pair_ind; intros k z added Hok; cbn [zadd_loop]; [done|done|].
  destruct Hok as [[s ->] Hok]. destruct (Insert (rng k) s m z); csimpl; [by apply IH|done].
Qed.

Lemma pop_body_reads args pop (l y : List_) a : (forall l' count, pop l count = Ok (None, l') -> l' = l) ->
  pop_body args pop l = Ok (y, (a, false)) -> y = l.
Proof using.
  intros Hp. unfold pop_body, popped. repeat case_match; csimpl; intros; simplify_eq; try done; by eapply Hp.
Qed.

(** The conversions are inverse to the constructors. *)
Ltac unconverted := intros [] ?; cbn; congruence.
Ltac fading := first [by apply same_reads | by apply reading_fades].

Lemma key_commands_read args :
  reads_only (now c) ks (handleSet c args ks) /\ reads_only (now c) ks (cmd_get c args ks) /\
  reads_only (now c) ks (cmd_mset c args ks) /\ reads_only (now c) ks (cmd_mget c args ks) /\
  reads_only (now c) ks (cmd_del args ks) /\ reads_only (now c) ks (cmd_exists c args ks) /\
  reads_only (now c) ks (cmd_type c args ks) /\ (forall d, reads_only (now c) ks (handleIncrBy c args d ks)) /\
  (forall d name, reads_only (now c) ks (cmd_incrby c args d name ks)) /\ reads_only (now c) ks (cmd_append c args ks) /\
  reads_only (now c) ks (cmd_strlen c args ks) /\ reads_only (now c) ks (cmd_setnx c args ks) /\
  (forall u name, reads_only (now c) ks (cmd_setex c args u name ks)) /\
  (forall u name, reads_only (now c) ks (cmd_expire c args u name ks)) /\
  reads_only (now c) ks (cmd_ttl c args ks) /\ reads_only (now c) ks (cmd_pttl c args ks) /\ reads_only (now c) ks (cmd_persist c args ks).
Proof using Hw.
  repeat match goal with |- _ /\ _ => split end.
  - unfold handleSet. destruct args as [|k [|v opts]]; try fading. destruct (set_options _ _ _ _) as [[[ttl nx] xx]|]; [|fading].
    pose proof (Get_faded (now c) ks k Hw) as HG. destruct (nx || xx).
    + destruct (Keyspace.Get ks (now c) k) as [ks1 r]. destruct r; [destruct nx|destruct xx]; intros ks' a; try done; intros [= <- _]; done.
    + intros ks' a. done.
  - unfold cmd_get. destruct args; fading.
  - unfold cmd_mset. case_decide; [fading|]. by intros ks' a.
  - unfold cmd_mget. destruct args as [|k args']; [fading|]. intros ks' a. destruct (mget_loop c (k :: args') ks) as [[ks1 l]|] eqn:E; csimpl; [|done].
    intros [= <- _]. eapply mget_loop_fades; [by apply faded_refl|done].
  - unfold cmd_del. destruct args; [fading|]. intros ks' a. by destruct (Keyspace.Delete _ _).
  - unfold cmd_exists. destruct args as [|k args']; [fading|]. pose proof (Exists_fades (k :: args')) as HE. intros ks' a.
    destruct (Keyspace.Exists _ _ _). intros [= <- _]. done.
  - unfold cmd_type. destruct args; [fading|].
    apply (Get_reads l (fun r => SimpleString (match r with None => str "none" | Some e => type_name (Type_ e) end))).
  - intros d. unfold handleIncrBy. destruct args; [fading|apply IncrBy_reads].
  - intros d name. unfold cmd_incrby, handleIncrBy. destruct args as [|? [|? ?]]; try fading. destruct (ParseInt _); [apply IncrBy_reads|fading].
  - unfold cmd_append. destruct args as [|? [|? ?]]; try fading. apply Append_reads.
  - unfold cmd_strlen. destruct args; fading.
  - unfold cmd_setnx, SetNX. destruct args as [|? [|? ?]]; try fading. intros ks' a. repeat case_match; intros; simplify_eq; by apply faded_refl.
  - intros u name. unfold cmd_setex. destruct args as [|? [|? [|? ?]]]; try fading. repeat case_match; try fading. by intros ks' x.
  - intros u name. unfold cmd_expire. destruct args as [|? [|? ?]]; try fading. case_match; [|fading]. apply flags_read.
  - unfold cmd_ttl, Keyspace.TTL. destruct args; [fading|]. pose proof (Get_faded (now c) ks l Hw) as HG. intros ks' a.
    destruct (Keyspace.Get _ _ _). repeat case_match; intros; simplify_eq; done.
  - unfold cmd_pttl, Keyspace.PTTL. destruct args; [fading|]. pose proof (Get_faded (now c) ks l Hw) as HG. intros ks' a.
    destruct (Keyspace.Get _ _ _). repeat case_match; intros; simplify_eq; done.
  - unfold cmd_persist. destruct args; [fading|]. by apply (flags_read l 0).
Qed.

Lemma value_commands_read rng args : (forall pairs, drop 1 args = pairs -> scores_ok pairs) ->
  reads_only (now c) ks (handleZAdd ParseFloat rng c args ks).
Proof using Hw.
  intros Hok. unfold handleZAdd. case_decide; [fading|]. apply creating_fades; [done|unconverted|done| |].
  - intros x y a Hx. by apply zadd_writes in Hx; [|apply (Hok _ eq_refl)].
  - intros y a. apply zadd_writes. by apply Hok.
Qed.

Lemma collection_commands_read args :
  reads_only (now c) ks (handleHSet c args ks) /\ reads_only (now c) ks (handleHMSet c args ks) /\
  reads_only (now c) ks (cmd_hget c args ks) /\ reads_only (now c) ks (cmd_hmget c args ks) /\
  reads_only (now c) ks (cmd_hdel c args ks) /\ reads_only (now c) ks (cmd_hexists c args ks) /\
  (forall name absent body, reads_only (now c) ks (cmd_hash_view c args name absent body ks)) /\
  reads_only (now c) ks (cmd_hincrby c args ks) /\ (forall name push, reads_only (now c) ks (cmd_push c args name push ks)) /\
  reads_only (now c) ks (cmd_pop c args (str "lpop") LPop ks) /\ reads_only (now c) ks (cmd_pop c args (str "rpop") RPop ks) /\
  reads_only (now c) ks (cmd_lrange c args ks) /\ reads_only (now c) ks (cmd_llen c args ks) /\
  reads_only (now c) ks (cmd_lindex c args ks) /\ reads_only (now c) ks (cmd_sadd c args ks) /\
  reads_only (now c) ks (cmd_srem c args ks) /\ reads_only (now c) ks (cmd_smembers c args ks) /\
  reads_only (now c) ks (cmd_sismember c args ks) /\ reads_only (now c) ks (cmd_scard c args ks) /\
  reads_only (now c) ks (cmd_zscore FormatFloat c args ks) /\ reads_only (now c) ks (cmd_zrank c args ks) /\
  (forall rev, reads_only (now c) ks (handleZRange FormatFloat c args rev ks)) /\ reads_only (now c) ks (cmd_zrem c args ks) /\
  reads_only (now c) ks (cmd_zcard c args ks).
Proof using Hw.
  assert (forall ms (z y : SkipList) n a, zrem_loop ms z n <> Ok (y, (a, false))) as Hzrem.
  { induction ms as [|m ms IH]; intros z y n a; cbn [zrem_loop]; [done|]. destruct (SkipList.Delete m z) as [[z' b]|]; csimpl; [apply IH|done]. }
  repeat match goal with |- _ /\ _ => split end.
  - unfold handleHSet. case_decide; [fading|]. apply creating_fades; [done|unconverted|done| |]; intros; repeat case_match; simplify_eq; done.
  - unfold handleHMSet. case_decide; [fading|]. apply creating_fades; [done|unconverted|done| |]; intros; repeat case_match; simplify_eq; done.
  - unfold cmd_hget. destruct args as [|? [|? ?]]; fading.
  - unfold cmd_hmget. destruct args as [|? [|? ?]]; fading.
  - unfold cmd_hdel. case_match; [fading|]. apply updating_fades; [done|unconverted|]; intros; repeat case_match; simplify_eq; done.
  - unfold cmd_hexists. destruct args as [|? [|? ?]]; fading.
  - intros. unfold cmd_hash_view. destruct args; fading.
  - unfold cmd_hincrby. destruct args as [|? [|? [|? ?]]]; try fading. destruct (ParseInt _); [|fading].
    apply creating_fades; [done|unconverted|done| |].
    + intros x y b. unfold HashDs.IncrBy. repeat case_match; intros; simplify_eq; done.
    + intros y b. unfold HashDs.IncrBy. cbn [fields NewHash]. rewrite lookup_empty. done.
  - intros. unfold cmd_push. case_match; [fading|]. apply creating_fades; [done|unconverted|done| |]; intros; repeat case_match; simplify_eq; done.
  - unfold cmd_pop. destruct args as [|k args']; [fading|]. apply updating_fades; [done|unconverted|]. intros x y a. apply pop_body_reads.
    intros l' count. unfold LPop. repeat case_match; intros; simplify_eq; done.
  - unfold cmd_pop. destruct args as [|k args']; [fading|]. apply updating_fades; [done|unconverted|]. intros x y a. apply pop_body_reads.
    intros l' count. unfold RPop. repeat case_match; intros; simplify_eq; done.
  - unfold cmd_lrange. destruct args as [|? [|? [|? ?]]]; fading.
  - unfold cmd_llen. destruct args; fading.
  - unfold cmd_lindex. destruct args as [|? [|? ?]]; fading.
  - unfold cmd_sadd. case_match; [fading|]. apply creating_fades; [done|unconverted|done| |]; intros; repeat case_match; simplify_eq; done.
  - unfold cmd_srem. case_match; [fading|]. apply updating_fades; [done|unconverted|]; intros; repeat case_match; simplify_eq; done.
  - unfold cmd_smembers. destruct args; fading.
  - unfold cmd_sismember. destruct args as [|? [|? ?]]; fading.
  - unfold cmd_scard. destruct args; fading.
  - unfold cmd_zscore. destruct args as [|? [|? ?]]; fading.
  - unfold cmd_zrank. destruct args as [|? [|? ?]]; fading.
  - intros. unfold handleZRange. destruct args as [|? [|? [|? ?]]]; fading.
  - unfold cmd_zrem. case_match; [fading|]. apply updating_fades; [done|unconverted|]. intros x y a Hx. by apply Hzrem in Hx.
  - unfold cmd_zcard. destruct args; fading.
Qed.

(** Every modelled command that does not count as a write. *)
Lemma dispatch_reads rng cmd args o : (cmd = str "ZADD" -> scores_ok (drop 1 args)) ->
  dispatch ParseFloat FormatFloat rng c cmd args ks = Some o -> reads_only (now c) ks o.
Proof using Hw.
  intros Hz. unfold dispatch. pose proof (key_commands_read args) as HK. pose proof (collection_commands_read args) as HV.
  destruct HK as (K1 & K2 & K3 & K4 & K5 & K6 & K7 & K8 & K9 & K10 & K11 & K12 & K13 & K14 & K15 & K16 & K17).
  destruct HV as (V1 & V2 & V3 & V4 & V5 & V6 & V7 & V8 & V9 & V10 & V11 & V12 & V13 & V14 & V15 & V16 & V17 & V18 & V19 & V20 & V21 & V22 & V23 & V24).
  assert (cmd = str "ZADD" -> reads_only (now c) ks (handleZAdd ParseFloat rng c args ks)) as HZ.
  { intros Hcmd. apply value_commands_read. intros ? <-. auto. }
  assert (forall a, reads_only (now c) ks (Ok (ks, a))) as HI by (intros; by apply same_reads).
  assert (reads_only (now c) ks (Ok (FlushDB ks, writes OK))) as HF by done.
  assert (Forall (fun p => p.1 = cmd -> reads_only (now c) ks (p.2 ks)) (cases ParseFloat FormatFloat rng c args)) as HA.
  { unfold cases. repeat (apply Forall_cons; split; [cbn [fst snd]; intros Hcmd|]); try apply Forall_nil_2;
      first [apply HI | apply HF | by apply HZ | done | apply K8 | apply K9 | apply K13 | apply K14 | apply V7 | apply V9 | apply V22]. }
  destruct (list_find _ _) as [[i p]|] eqn:E; csimpl; [|done]. intros [= <-]. apply list_find_Some in E as (Hi & Hp & _).
  rewrite Forall_forall in HA. apply HA; [|done]. by eapply list_elem_of_lookup_2.
Qed.

End fading_commands.

(** ** Histories *)

(** A command with the clocks and the random draws it runs with, and the ones a
    later replay of it runs with. *)
Record event := mkEvent {
  ev_argv : list bytes;
  ev_rng : nat -> nat -> Z;
  ev_clock : clock;
  re_rng : nat -> nat -> Z;
  re_clock : clock
}.

Abbreviation exec := (execute ParseFloat FormatFloat).

(** Run the commands and collect the ones that count as writes, as the
    append-only file does. *)
Fixpoint run (evs : list event) (ks : Keyspace) : option (res fault (Keyspace * list event)) :=
  match evs with
  | [] => Some (Ok (ks, []))
  | ev :: evs' =>
      o ← exec (ev_rng ev) (ev_clock ev) (ev_argv ev) ks;
      match o with
      | Err x => Some (Err x)
      | Ok (ks, (_, isWrite)) =>
          r ← run evs' ks;
          Some ('(ks, log) ← r; Ok (ks, if (isWrite : bool) then ev :: log else log))
      end
  end.

(** Run logged commands again. *)
Fixpoint replay (log : list event) (ks : Keyspace) : option (res fault Keyspace) :=
  match log with
  | [] => Some (Ok ks)
  | ev :: log' =>
      o ← exec (re_rng ev) (re_clock ev) (ev_argv ev) ks;
      match o with
      | Err x => Some (Err x)
      | Ok (ks, _) => replay log' ks
      end
  end.

(** The name and the arguments of a command line. *)
Definition known (argv : list bytes) : Prop := forall rng c ks, is_Some (exec rng c argv ks).
Definition on_command (P : bytes -> list bytes -> Prop) (argv : list bytes) : Prop :=
  match argv with [] => True | name :: args => P (ToUpperFast name) args end.

Definition total_args (evs : list event) : Z := Z.of_nat (length (concat (ev_argv <$> evs))).

Lemma related_left tl n ks1 ks2 : related tl n ks1 ks2 -> related tl n ks1 ks1.
Proof.
  intros [? ? ? H]. split; try done. intros k. destruct (H k) as [e1 e2 [? ? Hv ? ?]|]; constructor. split; try done.
  destruct (Value_ e1), (Value_ e2); cbn in *; try done. destruct Hv as (ps1 & ps2 & es & ? & _ & ?). by exists ps1, ps1, es.
Qed.

Lemma exec_agree tl n ks1 ks2 c1 c2 rng1 rng2 argv o1 : related tl n ks1 ks2 -> same_clock tl c1 c2 ->
  0 <= n -> n + Z.of_nat (length argv) < 2 ^ 63 - 1 -> on_command (safe tl) argv ->
  on_command (fun cmd args => cmd = str "ZRANK" -> args !! 1%nat <> Some [] \/ (ks1 = ks2 /\ c1 = c2)) argv ->
  exec rng1 c1 argv ks1 = Some o1 ->
  exists o2, exec rng2 c2 argv ks2 = Some o2 /\ agree tl (n + Z.of_nat (length argv)) o1 o2.
Proof.
  intros HR Hc Hn Hb Hs Hr. destruct argv as [|name args]; cbn [execute on_command] in *.
  - intros [= <-]. eexists. split; [done|]. eexists _, _, _. split; [done|]. split; [done|]. eapply related_mono; [|done]. cbn. lia.
  - intros E1. cbn [length] in *. pose proof (dispatch_agree tl n ks1 ks2 c1 c2 rng1 rng2 (ToUpperFast name) args HR Hc Hn) as HA.
    specialize (HA ltac:(lia) Hs Hr). rewrite E1 in HA. destruct (dispatch _ _ rng2 c2 _ _ ks2) as [o2|]; [|done].
    exists o2. split; [done|]. destruct HA as (k1 & k2 & a & -> & -> & Hk).
    exists k1, k2, a. split; [done|]. split; [done|]. eapply related_mono; [|done]. lia.
Qed.

Lemma zrank_flag c args ks ks' a w : cmd_zrank c args ks = Ok (ks', (a, w)) -> w = false.
Proof.
  unfold cmd_zrank, reading, wrong_args, reads. destruct args as [|k [|m args]]; try congruence.
  destruct (Keyspace.Get ks (now c) k) as [k1 r]. destruct r as [e|]; [|congruence]. case_decide; [|congruence].
  destruct (as_zset (Value_ e)); csimpl; [|done]. destruct (GetRank m s); csimpl; congruence.
Qed.

Lemma exec_write_not_zrank rng c argv ks ks' a :
  exec rng c argv ks = Some (Ok (ks', (a, true))) -> on_command (fun cmd _ => cmd <> str "ZRANK") argv.
Proof.
  destruct argv as [|name args]; cbn [execute on_command]; [done|]. intros E Hz. rewrite Hz in E. unfold dispatch in E.
  assert (Forall (fun p => p.1 = str "ZRANK" -> p.2 ks = cmd_zrank c args ks) (cases ParseFloat FormatFloat rng c args)) as HA.
  { unfold cases. repeat (apply Forall_cons; split; [cbn [fst snd]; intros Hcmd; first [reflexivity|discriminate Hcmd]|]). apply Forall_nil_2. }
  destruct (list_find _ _) as [[i p]|] eqn:Ef; csimpl in E; [|done]. injection E as E. apply list_find_Some in Ef as (Hi & Hp & _).
  rewrite Forall_forall in HA. rewrite (HA p (list_elem_of_lookup_2 _ _ _ Hi) Hp) in E. by apply zrank_flag in E.
Qed.

Lemma faded_related n ks1 ks1' ks2 t : related true n ks1 ks2 -> faded t ks1 ks1' -> related true n ks1' ks2.
Proof.
  intros [W1 W2 HC HL] [W1' HF HN].
  assert (forall k e, look ks1 k = Some e -> IsExpired e t = false) as Hlive.
  { intros k e Hk. pose proof (HL k) as H. rewrite Hk in H. inversion H as [? ? [_ _ _ _ He]|]; subst.
    unfold IsExpired. by rewrite He. }
  split; [done|done|rewrite HN; done|]. intros k. destruct (HF k) as [Hs|(e & Hk & Hx & _)].
  - pose proof (HL k) as H. destruct Hs as [e e' (S1 & S2 & S3)|]; inversion H as [? e2 [? ? ? ? ?]|]; subst; constructor.
    split; rewrite <- ?S1, <- ?S2, <- ?S3; done.
  - rewrite (Hlive k e Hk) in Hx. done.
Qed.

Lemma exec_reads rng c argv ks ks' a : wf ks -> on_command (fun cmd args => cmd = str "ZADD" -> scores_ok (drop 1 args)) argv ->
  exec rng c argv ks = Some (Ok (ks', (a, false))) -> faded (now c) ks ks'.
Proof.
  intros Hw Hz. destruct argv as [|name args]; cbn [execute on_command] in *.
  - intros [= <- _]. by apply faded_refl.
  - intros E. by eapply (dispatch_reads c ks Hw rng _ args).
Qed.

Lemma total_args_cons ev evs : total_args (ev :: evs) = Z.of_nat (length (ev_argv ev)) + total_args evs.
Proof. unfold total_args. rewrite fmap_cons. cbn [concat]. rewrite length_app. lia. Qed.

Lemma on_command_true (P Q : bytes -> list bytes -> Prop) argv : (forall x y, P x y -> Q x y) -> on_command P argv -> on_command Q argv.
Proof. intros H. destruct argv; cbn; auto. Qed.

Lemma run_typed evs ks n : Forall (fun ev => known (ev_argv ev)) evs -> Forall (fun ev => on_command (safe false) (ev_argv ev)) evs ->
  related false n ks ks -> 0 <= n -> n + total_args evs < 2 ^ 63 - 1 ->
  exists ks' log, run evs ks = Some (Ok (ks', log)) /\ related false (n + total_args evs) ks' ks'.
Proof.
  intros Hk Hs. revert ks n. induction evs as [|ev evs IH]; intros ks n HR Hn Hb.
  - exists ks, []. split; [done|]. eapply related_mono; [|done]. unfold total_args. cbn. lia.
  - rewrite total_args_cons in Hb. inversion Hk as [|? ? K1 K2]; inversion Hs as [|? ? S1 S2]; subst. cbn [run].
    pose proof (Nat2Z.is_nonneg (length (concat (ev_argv <$> evs)))) as Hp. fold (total_args evs) in Hp.
    destruct (K1 (ev_rng ev) (ev_clock ev) ks) as [o E]. rewrite E. csimpl.
    destruct (exec_agree false n ks ks (ev_clock ev) (ev_clock ev) (ev_rng ev) (ev_rng ev) (ev_argv ev) o HR (or_intror eq_refl) Hn)
      as (o2 & E2 & k1 & k2 & [a w] & -> & Eo & HR1); [lia|done| |done|].
    { destruct (ev_argv ev); cbn; auto. }
    rewrite E in E2. injection E2 as <-. injection Eo as <-.
    destruct (IH K2 S2 k1 (n + Z.of_nat (length (ev_argv ev))) HR1) as (ks' & log & -> & HR2); [lia|lia|]. csimpl.
    eexists _, _. split; [done|]. rewrite total_args_cons. by rewrite Z.add_assoc.
Qed.

(** Run command lines again, the [i]-th with the draws and the clock [env i]. *)
Fixpoint replay_from (env : nat -> (nat -> nat -> Z) * clock) (i : nat) (cmds : list (list bytes)) (ks : Keyspace) : option (res fault Keyspace) :=
  match cmds with
  | [] => Some (Ok ks)
  | argv :: cmds' =>
      o ← exec (env i).1 (env i).2 argv ks;
      match o with
      | Err x => Some (Err x)
      | Ok (ks, _) => replay_from env (S i) cmds' ks
      end
  end.

(** Whoever starts related and runs the commands that count as writes, at other
    times and with other draws, ends related. *)
Lemma run_follow evs ks n : Forall (fun ev => known (ev_argv ev)) evs ->
  Forall (fun ev => on_command (safe true) (ev_argv ev)) evs ->
  Forall (fun ev => on_command (fun cmd args => cmd = str "ZADD" -> scores_ok (drop 1 args)) (ev_argv ev)) evs ->
  related true n ks ks -> 0 <= n -> n + total_args evs < 2 ^ 63 - 1 ->
  exists ks' log, run evs ks = Some (Ok (ks', log)) /\
    forall rep env i, related true n ks rep ->
    exists rep', replay_from env i (ev_argv <$> log) rep = Some (Ok rep') /\ related true (n + total_args evs) ks' rep'.
Proof.
  intros Hk Hs Hz. revert ks n. induction evs as [|ev evs IH]; intros ks n HL Hn Hb.
  - exists ks, []. split; [done|]. intros rep env i HR. exists rep. split; [done|]. eapply related_mono; [|done]. unfold total_args. cbn. lia.
  - rewrite total_args_cons in Hb. inversion Hk as [|? ? K1 K2]; inversion Hs as [|? ? S1 S2]; inversion Hz as [|? ? Z1 Z2]; subst. cbn [run].
    pose proof (Nat2Z.is_nonneg (length (concat (ev_argv <$> evs)))) as Hp. fold (total_args evs) in Hp.
    destruct (K1 (ev_rng ev) (ev_clock ev) ks) as [o E]. rewrite E. csimpl.
    destruct (exec_agree true n ks ks (ev_clock ev) (ev_clock ev) (ev_rng ev) (ev_rng ev) (ev_argv ev) o HL (or_intror eq_refl) Hn)
      as (o0 & E0 & k1 & k0 & [a w] & -> & Eo0 & HR0); [lia|done| |done|].
    { destruct (ev_argv ev); cbn; auto. }
    destruct (IH K2 S2 Z2 k1 _ (related_left _ _ _ _ HR0)) as (ks' & log & -> & HF); [lia|lia|]. csimpl.
    rewrite total_args_cons, Z.add_assoc. eexists _, _. split; [done|]. intros rep env i HR. destruct w.
    + destruct (exec_agree true n ks rep (ev_clock ev) (env i).2 (ev_rng ev) (env i).1 (ev_argv ev) (Ok (k1, (a, true))) HR (or_introl eq_refl) Hn)
        as (o2 & E2 & k1' & k2 & a' & Eo & -> & HR1); [lia|done| |done|].
      { eapply on_command_true; [|by eapply exec_write_not_zrank]. cbn. intros; done. }
      injection Eo as <- <-. cbn [fmap list_fmap replay_from]. rewrite E2. csimpl. by apply HF.
    + pose proof (exec_reads _ _ _ _ _ _ (rel_wf1 _ _ _ _ HR) Z1 E) as Hf.
      apply HF. eapply related_mono; [|by eapply faded_related]. lia.
Qed.

Lemma replay_from_log env log : forall i ks, (forall j ev, log !! j = Some ev -> env (i + j)%nat = (re_rng ev, re_clock ev)) ->
  replay_from env i (ev_argv <$> log) ks = replay log ks.
Proof.
  induction log as [|ev log IH]; intros i ks He; [done|]. cbn [fmap list_fmap replay_from replay]. pose proof (He O ev eq_refl) as E.
  rewrite Nat.add_0_r in E. rewrite E. cbn [fst snd]. destruct (exec _ _ (ev_argv ev) ks) as [[[k1 a]|x]|]; csimpl; [|done|done].
  apply IH. intros j ev' Hj. rewrite Nat.add_succ_comm. by apply He.
Qed.

Lemma run_replay evs ks rep n : Forall (fun ev => known (ev_argv ev)) evs ->
  Forall (fun ev => on_command (safe true) (ev_argv ev)) evs ->
  Forall (fun ev => on_command (fun cmd args => cmd = str "ZADD" -> scores_ok (drop 1 args)) (ev_argv ev)) evs ->
  related true n ks rep -> 0 <= n -> n + total_args evs < 2 ^ 63 - 1 ->
  exists ks' log rep', run evs ks = Some (Ok (ks', log)) /\ replay log rep = Some (Ok rep') /\
    related true (n + total_args evs) ks' rep'.
Proof.
  intros Hk Hs Hz HR Hn Hb. destruct (run_follow evs ks n Hk Hs Hz (related_left _ _ _ _ HR) Hn Hb) as (ks' & log & E & HF).
  set (env := fun j => match log !! j with Some ev => (re_rng ev, re_clock ev) | None => (fun _ _ => 0, mkClock 0 0 0) end).
  destruct (HF rep env 0%nat HR) as (rep' & Er & HR'). exists ks', log, rep'. split; [done|]. split; [|done].
  rewrite <- Er. symmetry. apply replay_from_log. intros j ev Hj. subst env. cbn [Nat.add]. by rewrite Hj.
Qed.

(** C1: whatever sequence of data commands clients send, with any clocks and any
    random draws, no command fails a type assertion, slices out of range, loses
    the structure of a skip list or loops; and afterwards every entry holds a
    value of its type, a sorted set with properly linked nodes.  Excepted are LPOP
    and RPOP with a negative count, and scores that parse as NaN. *)
Theorem commands_typed evs : Forall (fun ev => known (ev_argv ev)) evs ->
  Forall (fun ev => on_command (safe false) (ev_argv ev)) evs -> total_args evs < 2 ^ 63 - 1 ->
  exists ks log, run evs NewKeyspace = Some (Ok (ks, log)) /\ wf ks /\
    forall k e, look ks k = Some e ->
      Type_ e = type_of (Value_ e) /\ (forall z, Value_ e = VZSet z -> exists ps es, repr z ps es).
Proof.
  intros Hk Hs Hb. destruct (run_typed evs NewKeyspace 0 Hk Hs (related_new _ _)) as (ks & log & E & HR); [lia|lia|].
  exists ks, log. split; [done|]. split; [apply HR|]. intros k e He. pose proof (rel_look _ _ _ _ HR k) as H. rewrite He in H.
  inversion H as [? ? [? _ Hv _ _]|]; subst. split; [done|]. intros z Ez. rewrite Ez in Hv. destruct Hv as (ps & _ & es & ? & _). eauto.
Qed.

(** A data command that does not count as a write leaves every entry that has
    not expired as it was, with its type, value and expiry time, and creates none:
    it is right that it is neither logged nor sent to replicas.  Excepted is ZADD
    with a score that does not parse. *)
Theorem reads_keep_entries rng c argv ks ks' a k e : wf ks ->
  on_command (fun cmd args => cmd = str "ZADD" -> scores_ok (drop 1 args)) argv ->
  exec rng c argv ks = Some (Ok (ks', (a, false))) -> IsExpired e (now c) = false ->
  (look ks k = Some e -> exists e', look ks' k = Some e' /\ same_entry e e') /\
  (look ks' k = Some e -> exists e', look ks k = Some e' /\ same_entry e' e).
Proof.
  intros Hw Hz E Hx. pose proof (exec_reads _ _ _ _ _ _ Hw Hz E) as HF. destruct (fd_look _ _ _ HF k) as [H|(e0 & E0 & Hx0 & E0')].
  - split; intros Hk; rewrite Hk in H; inversion H; subst; eauto.
  - split; intros Hk; congruence.
Qed.

(** C19: for any history of data commands (strings, hashes, lists, sets, sorted
    sets) from the empty keyspace that sets no expiry time, with ZADD scores
    that all parse and are not NaN and no negative pop count: replaying the
    commands that counted as writes, at other times and with other random
    levels, succeeds and rebuilds the same keys with the same types and values,
    up to skip-list towers and access times. *)
Theorem replay_rebuilds evs : Forall (fun ev => known (ev_argv ev)) evs ->
  Forall (fun ev => on_command (safe true) (ev_argv ev)) evs ->
  Forall (fun ev => on_command (fun cmd args => cmd = str "ZADD" -> scores_ok (drop 1 args)) (ev_argv ev)) evs ->
  total_args evs < 2 ^ 63 - 1 ->
  exists ks log ks', run evs NewKeyspace = Some (Ok (ks, log)) /\ replay log NewKeyspace = Some (Ok ks') /\
    related true (total_args evs) ks ks'.
Proof.
  intros Hk Hs Hz Hb. destruct (run_replay evs NewKeyspace NewKeyspace 0 Hk Hs Hz (related_new _ _)) as (ks & log & rep & H); [lia|lia|].
  exists ks, log, rep. exact H.
Qed.

End Laws.

(** ** The theorems on a concrete history *)

Definition sample_float (s : bytes) : option Z :=
  if decide (s = str "1") then Some 0x3FF0000000000000 else if decide (s = str "2") then Some 0x4000000000000000 else None.
Definition sample_text (z : Z) : bytes := if decide (z = 0x3FF0000000000000) then str "1" else str "2".

Definition at_time (t : Z) (argv : list bytes) : event :=
  mkEvent argv (fun _ => flat) (mkClock t t t) (fun _ => tall 2) (mkClock (t + 1000000) (t + 1000000) (t + 1000000)).

Definition sample_history : list event :=
  [at_time 1 [str "SET"; str "a"; str "7"]; at_time 2 [str "incr"; str "a"]; at_time 3 [str "GET"; str "a"];
   at_time 4 [str "ZADD"; str "z"; str "2"; str "x"; str "1"; str "y"]; at_time 5 [str "ZRANK"; str "z"; str "x"];
   at_time 6 [str "RPUSH"; str "l"; str "p"; str "q"]; at_time 7 [str "LPOP"; str "l"]; at_time 8 [str "HSET"; str "a"; str "f"; str "v"]].

Ltac concrete_command :=
  repeat (apply Forall_cons_2 || apply Forall_nil_2); cbn [ev_argv at_time on_command].

Lemma sample_known : Forall (fun ev => known (VectorIndex := unit) sample_float sample_text (ev_argv ev)) sample_history.
Proof. concrete_command; intros rng c ks; eexists; reflexivity. Qed.

Lemma sample_safe tl : Forall (fun ev => on_command (safe sample_float tl) (ev_argv ev)) sample_history.
Proof.
  concrete_command; (split; [by intros [?|?]| |]); try (intros H; discriminate H).
  all: try (intros _; split; [intros Hin; repeat (apply elem_of_cons in Hin as [Hin|Hin]; [discriminate Hin|]); by apply elem_of_nil in Hin|]).
  all: try (intros H; discriminate H).
  - intros _ ttl nx xx [= <- _ _]. done.
  - intros _ a s _. unfold sample_float. repeat case_decide; intros; simplify_eq; vm_compute; reflexivity.
Qed.

Lemma sample_scores : Forall (fun ev => on_command (fun cmd args => cmd = str "ZADD" -> scores_ok sample_float (drop 1 args)) (ev_argv ev)) sample_history.
Proof. concrete_command; intros H; try discriminate H. repeat split; by eexists. Qed.

Lemma commands_typed_witness : exists ks log,
  run (VectorIndex := unit) sample_float sample_text sample_history NewKeyspace = Some (Ok (ks, log)) /\ wf ks.
Proof.
  destruct (commands_typed (VectorIndex := unit) sample_float sample_text sample_history sample_known (sample_safe false))
    as (ks & log & E & W & _); [vm_compute; reflexivity|].
  exists ks, log. exact (conj E W).
Defined.

Lemma replay_rebuilds_witness : exists ks log ks',
  run (VectorIndex := unit) sample_float sample_text sample_history NewKeyspace = Some (Ok (ks, log)) /\
  replay sample_float sample_text log NewKeyspace = Some (Ok ks') /\ related true 30 ks ks'.
Proof.
  destruct (replay_rebuilds (VectorIndex := unit) sample_float sample_text sample_history sample_known (sample_safe true) sample_scores)
    as (ks & log & ks' & E1 & E2 & H); [vm_compute; reflexivity|].
  exists ks, log, ks'. split; [exact E1|]. split; [exact E2|]. revert H. apply related_mono. vm_compute. discriminate.
Defined.

Definition one_key : @Keyspace.Keyspace SkipList unit := Keyspace.Set_ NewKeyspace 0 (str "a") (set_string (str "7") 0).

Lemma one_key_wf : wf one_key.
Proof. apply store_wf. apply NewKeyspace_wf. Qed.

Lemma reads_keep_entries_witness : exists ks' a e',
  execute sample_float sample_text (fun _ => flat) (mkClock 5 5 5) [str "get"; str "a"] one_key = Some (Ok (ks', (a, false))) /\
  look ks' (str "a") = Some e' /\ same_entry (set_string (str "7") 0) e'.
Proof.
  destruct (proj1 (reads_keep_entries (VectorIndex := unit) sample_float sample_text (fun _ => flat) (mkClock 5 5 5) [str "get"; str "a"]
    one_key one_key (BulkString (str "7")) (str "a") (mkE TypeString (VString (str "7")) 0 0 0) one_key_wf
    ltac:(intros H; discriminate H) ltac:(vm_compute; reflexivity) eq_refl) ltac:(vm_compute; reflexivity)) as (e' & H1 & H2).
  exists one_key, (BulkString (str "7")), e'. split; [vm_compute; reflexivity|]. split; [exact H1|exact H2].
Defined.
