(* ===== verification/Crc.v ===== *)
(** * Checksums: CRC16 and hash slots (internal/cluster/crc16.go), CRC64
    (internal/persistence/crc64.go)

    Both checksums are table driven in the source.  The reference of each is the
    shift register that the polynomial describes, one bit at a time; the
    theorems show that the tables implement it. *)

From S2P Require Import Prelude.

(** ** CRC16 *)

Definition crc16Table : list Z :=
  [0x0000; 0x1021; 0x2042; 0x3063; 0x4084; 0x50a5; 0x60c6; 0x70e7;
   0x8108; 0x9129; 0xa14a; 0xb16b; 0xc18c; 0xd1ad; 0xe1ce; 0xf1ef;
   0x1231; 0x0210; 0x3273; 0x2252; 0x52b5; 0x4294; 0x72f7; 0x62d6;
   0x9339; 0x8318; 0xb37b; 0xa35a; 0xd3bd; 0xc39c; 0xf3ff; 0xe3de;
   0x2462; 0x3443; 0x0420; 0x1401; 0x64e6; 0x74c7; 0x44a4; 0x5485;
   0xa56a; 0xb54b; 0x8528; 0x9509; 0xe5ee; 0xf5cf; 0xc5ac; 0xd58d;
   0x3653; 0x2672; 0x1611; 0x0630; 0x76d7; 0x66f6; 0x5695; 0x46b4;
   0xb75b; 0xa77a; 0x9719; 0x8738; 0xf7df; 0xe7fe; 0xd79d; 0xc7bc;
   0x48c4; 0x58e5; 0x6886; 0x78a7; 0x0840; 0x1861; 0x2802; 0x3823;
   0xc9cc; 0xd9ed; 0xe98e; 0xf9af; 0x8948; 0x9969; 0xa90a; 0xb92b;
   0x5af5; 0x4ad4; 0x7ab7; 0x6a96; 0x1a71; 0x0a50; 0x3a33; 0x2a12;
   0xdbfd; 0xcbdc; 0xfbbf; 0xeb9e; 0x9b79; 0x8b58; 0xbb3b; 0xab1a;
   0x6ca6; 0x7c87; 0x4ce4; 0x5cc5; 0x2c22; 0x3c03; 0x0c60; 0x1c41;
   0xedae; 0xfd8f; 0xcdec; 0xddcd; 0xad2a; 0xbd0b; 0x8d68; 0x9d49;
   0x7e97; 0x6eb6; 0x5ed5; 0x4ef4; 0x3e13; 0x2e32; 0x1e51; 0x0e70;
   0xff9f; 0xefbe; 0xdfdd; 0xcffc; 0xbf1b; 0xaf3a; 0x9f59; 0x8f78;
   0x9188; 0x81a9; 0xb1ca; 0xa1eb; 0xd10c; 0xc12d; 0xf14e; 0xe16f;
   0x1080; 0x00a1; 0x30c2; 0x20e3; 0x5004; 0x4025; 0x7046; 0x6067;
   0x83b9; 0x9398; 0xa3fb; 0xb3da; 0xc33d; 0xd31c; 0xe37f; 0xf35e;
   0x02b1; 0x1290; 0x22f3; 0x32d2; 0x4235; 0x5214; 0x6277; 0x7256;
   0xb5ea; 0xa5cb; 0x95a8; 0x8589; 0xf56e; 0xe54f; 0xd52c; 0xc50d;
   0x34e2; 0x24c3; 0x14a0; 0x0481; 0x7466; 0x6447; 0x5424; 0x4405;
   0xa7db; 0xb7fa; 0x8799; 0x97b8; 0xe75f; 0xf77e; 0xc71d; 0xd73c;
   0x26d3; 0x36f2; 0x0691; 0x16b0; 0x6657; 0x7676; 0x4615; 0x5634;
   0xd94c; 0xc96d; 0xf90e; 0xe92f; 0x99c8; 0x89e9; 0xb98a; 0xa9ab;
   0x5844; 0x4865; 0x7806; 0x6827; 0x18c0; 0x08e1; 0x3882; 0x28a3;
   0xcb7d; 0xdb5c; 0xeb3f; 0xfb1e; 0x8bf9; 0x9bd8; 0xabbb; 0xbb9a;
   0x4a75; 0x5a54; 0x6a37; 0x7a16; 0x0af1; 0x1ad0; 0x2ab3; 0x3a92;
   0xfd2e; 0xed0f; 0xdd6c; 0xcd4d; 0xbdaa; 0xad8b; 0x9de8; 0x8dc9;
   0x7c26; 0x6c07; 0x5c64; 0x4c45; 0x3ca2; 0x2c83; 0x1ce0; 0x0cc1;
   0xef1f; 0xff3e; 0xcf5d; 0xdf7c; 0xaf9b; 0xbfba; 0x8fd9; 0x9ff8;
   0x6e17; 0x7e36; 0x4e55; 0x5e74; 0x2e93; 0x3eb2; 0x0ed1; 0x1ef0].

(** [crc = (crc << 8) ^ crc16Table[((crc>>8)^uint16(b))&0x00FF]]. *)
Definition crc16_step (crc : Z) (b : byte) : Z :=
  Z.lxor (uint16 (Z.shiftl crc 8))
    (default 0 (crc16Table !! Z.to_nat (Z.land (Z.lxor (Z.shiftr crc 8) (b2z b)) 0xFF))).

Definition CRC16 (data : bytes) : Z := foldl crc16_step 0 data.

Definition ExtractHashTag (key : bytes) : bytes :=
  match IndexByte key "{"%byte with
  | None => key
  | Some s =>
      match IndexByte (drop (S s) key) "}"%byte with
      | None => key
      | Some e =>
          let tag := take e (drop (S s) key) in
          match tag with [] => key | _ => tag end
      end
  end.

Definition KeySlot (key : bytes) : Z := Z.land (CRC16 (ExtractHashTag key)) 0x3FFF.

(** ** CRC64 *)

Definition poly : Z := 0xad93d23594c935a9.

(** One round of the loop of [init]. *)
Definition crc64_bit (crc : Z) : Z :=
  if decide (Z.land crc 1 <> 0) then Z.lxor (Z.shiftr crc 1) poly else Z.shiftr crc 1.

(** [crc64Table], filled by [init]. *)
Definition crc64Table : list Z :=
  (fun i => Nat.iter 8 crc64_bit (Z.of_nat i)) <$> seq 0 256.

(** [crc = crc64Table[byte(crc)^b] ^ (crc >> 8)]. *)
Definition crc64_step (crc : Z) (b : byte) : Z :=
  Z.lxor (default 0 (crc64Table !! Z.to_nat (Z.lxor (Z.land crc 0xFF) (b2z b)))) (Z.shiftr crc 8).

Definition UpdateCRC64 (crc : Z) (p : bytes) : Z := foldl crc64_step crc p.

Definition ChecksumCRC64 (data : bytes) : Z := UpdateCRC64 0 data.

(** The running digest: [Write], [Sum64] and [Reset]. *)
Record Digest := mkDigest { crc : Z }.

Definition NewCRC64 : Digest := mkDigest 0.
Definition Reset (d : Digest) : Digest := mkDigest 0.
Definition Write (d : Digest) (p : bytes) : Digest := mkDigest (UpdateCRC64 (crc d) p).
Definition Sum64 (d : Digest) : Z := crc d.

(** ** The references: shift registers *)

(** One bit of CRC16/XMODEM: shift left, and subtract the polynomial 0x1021 when
    a one falls out at the top. *)
Definition crc16_bit (crc : Z) : Z :=
  Z.lxor (uint16 (Z.shiftl crc 1)) (if Z.testbit crc 15 then 0x1021 else 0).

Definition crc16_ref (data : bytes) : Z :=
  foldl (fun crc b => Nat.iter 8 crc16_bit (Z.lxor crc (Z.shiftl (b2z b) 8))) 0 data.

Definition crc64_ref (crc : Z) (data : bytes) : Z :=
  foldl (fun crc b => Nat.iter 8 crc64_bit (Z.lxor crc (b2z b))) crc data.

(** ** The registers are linear *)

Lemma uint16_land z : uint16 z = Z.land z (Z.ones 16).
Proof. unfold uint16. by rewrite Z.land_ones. Qed.

Lemma land_lxor_distr a b c : Z.land (Z.lxor a b) c = Z.lxor (Z.land a c) (Z.land b c).
Proof.
  apply Z.bits_inj'. intros n _. rewrite !Z.land_spec, !Z.lxor_spec, !Z.land_spec.
  by destruct (Z.testbit a n), (Z.testbit b n), (Z.testbit c n).
Qed.

Lemma lxor_if (x y : bool) (p : Z) :
  (if xorb x y then p else 0) = Z.lxor (if x then p else 0) (if y then p else 0).
Proof. destruct x, y; cbn [xorb]; rewrite ?Z.lxor_nilpotent, ?Z.lxor_0_r, ?Z.lxor_0_l; done. Qed.

Lemma lxor_shuffle a b c d :
  Z.lxor (Z.lxor a b) (Z.lxor c d) = Z.lxor (Z.lxor a c) (Z.lxor b d).
Proof.
  rewrite !Z.lxor_assoc. f_equal. rewrite <- !Z.lxor_assoc. f_equal. apply Z.lxor_comm.
Qed.

Lemma crc16_bit_lxor x y : crc16_bit (Z.lxor x y) = Z.lxor (crc16_bit x) (crc16_bit y).
Proof.
  unfold crc16_bit. rewrite !uint16_land, Z.shiftl_lxor, land_lxor_distr, Z.lxor_spec, lxor_if.
  apply lxor_shuffle.
Qed.

Lemma crc64_bit_alt x :
  crc64_bit x = Z.lxor (Z.shiftr x 1) (if Z.testbit x 0 then poly else 0).
Proof.
  unfold crc64_bit. pose proof (Z.land_ones x 1 ltac:(lia)) as E.
  change (Z.ones 1) with 1 in E. rewrite E, Z.bit0_odd, Zodd_mod. change (2 ^ 1) with 2.
  pose proof (Z.mod_pos_bound x 2 ltac:(lia)).
  destruct (Z.eqb_spec (x mod 2) 1), (decide (x mod 2 <> 0)); try lia; by rewrite ?Z.lxor_0_r.
Qed.

Lemma crc64_bit_lxor x y : crc64_bit (Z.lxor x y) = Z.lxor (crc64_bit x) (crc64_bit y).
Proof.
  rewrite !crc64_bit_alt, Z.shiftr_lxor, Z.lxor_spec, lxor_if. apply lxor_shuffle.
Qed.

Lemma iter_lxor (f : Z -> Z) n x y :
  (forall x y, f (Z.lxor x y) = Z.lxor (f x) (f y)) ->
  Nat.iter n f (Z.lxor x y) = Z.lxor (Nat.iter n f x) (Nat.iter n f y).
Proof. intros Hf. induction n as [|n IH]; [done|]. rewrite !Nat.iter_succ. by rewrite IH, Hf. Qed.

(** A fact about all bytes, checked one by one. *)
Lemma all_bytes (P : Z -> Prop) `{!forall z, Decision (P z)} :
  forallb (fun i => bool_decide (P (Z.of_nat i))) (seq 0 256) = true ->
  forall z, 0 <= z < 256 -> P z.
Proof.
  intros Hall z Hz. rewrite forallb_forall in Hall. specialize (Hall (Z.to_nat z)).
  rewrite Z2Nat.id in Hall by lia. apply bool_decide_eq_true in Hall; [done|].
  apply in_seq. lia.
Qed.

(** The table is the register run on the high byte; the low byte just moves up. *)
Lemma crc16_table_bits h :
  0 <= h < 256 -> Nat.iter 8 crc16_bit (Z.shiftl h 8) = default 0 (crc16Table !! Z.to_nat h).
Proof. apply (all_bytes (fun h => Nat.iter 8 crc16_bit (Z.shiftl h 8) = default 0 (crc16Table !! Z.to_nat h))). by vm_compute. Qed.

Lemma crc16_low_bits l :
  0 <= l < 256 -> Nat.iter 8 crc16_bit l = Z.shiftl l 8.
Proof. apply (all_bytes (fun l => Nat.iter 8 crc16_bit l = Z.shiftl l 8)). by vm_compute. Qed.

Lemma crc16_split x :
  x = Z.lxor (Z.shiftl (Z.shiftr x 8) 8) (Z.land x 0xFF).
Proof.
  apply Z.bits_inj'. intros n Hn. change 0xFF with (Z.ones 8). rewrite Z.lxor_spec, Z.land_spec.
  rewrite Z.testbit_ones_nonneg by lia. destruct (Z.ltb_spec n 8).
  - rewrite Z.shiftl_spec_low by lia. by destruct (Z.testbit x n).
  - rewrite Z.shiftl_spec, Z.shiftr_spec by lia. replace (n - 8 + 8) with n by lia.
    rewrite andb_false_r. by destruct (Z.testbit x n).
Qed.

(** Eight bits at once. *)
Lemma crc16_iter8 x :
  0 <= x < 2 ^ 16 ->
  Nat.iter 8 crc16_bit x =
    Z.lxor (default 0 (crc16Table !! Z.to_nat (Z.shiftr x 8))) (Z.shiftl (Z.land x 0xFF) 8).
Proof.
  intros Hx. rewrite (crc16_split x) at 1. rewrite iter_lxor by apply crc16_bit_lxor.
  rewrite crc16_table_bits, crc16_low_bits; [done| |].
  - change 0xFF with (Z.ones 8). rewrite Z.land_ones by lia. apply Z.mod_pos_bound. lia.
  - rewrite Z.shiftr_div_pow2 by lia.
    split; [apply Z.div_pos; lia|apply Z.div_lt_upper_bound; lia].
Qed.

Lemma lxor_range n x y :
  0 <= n -> 0 <= x < 2 ^ n -> 0 <= y < 2 ^ n -> 0 <= Z.lxor x y < 2 ^ n.
Proof.
  intros Hn Hx Hy. assert (0 <= Z.lxor x y) as H0 by (apply Z.lxor_nonneg; lia).
  split; [done|].
  rewrite <- (Z.mod_small x (2 ^ n)), <- (Z.mod_small y (2 ^ n)) by done.
  rewrite <- !Z.land_ones by done. rewrite <- land_lxor_distr, Z.land_ones by done.
  apply Z.mod_pos_bound. lia.
Qed.

Lemma crc16_step_range c b : 0 <= crc16_step c b < 2 ^ 16.
Proof.
  unfold crc16_step. apply lxor_range; [lia|apply Z.mod_pos_bound; lia|].
  set (i := Z.to_nat _). destruct (crc16Table !! i) as [v|] eqn:E; cbn; [|lia].
  assert (Forall (fun v => 0 <= v < 2 ^ 16) crc16Table) as HF
    by (apply (bool_decide_unpack _); by vm_compute).
  by apply (Forall_lookup_1 _ _ _ _ HF E).
Qed.

(** One byte through the table is eight bits through the register. *)
Lemma crc16_step_ref c b :
  0 <= c < 2 ^ 16 ->
  crc16_step c b = Nat.iter 8 crc16_bit (Z.lxor c (Z.shiftl (b2z b) 8)).
Proof.
  intros Hc. pose proof (b2z_range b) as Hb.
  assert (0 <= Z.shiftl (b2z b) 8 < 2 ^ 16) as Hs by (rewrite Z.shiftl_mul_pow2 by lia; lia).
  rewrite crc16_iter8 by (apply lxor_range; lia).
  unfold crc16_step. rewrite Z.lxor_comm. f_equal.
  - do 3 f_equal. rewrite Z.shiftr_lxor, Z.shiftr_shiftl_l by lia. cbn [Z.sub Z.shiftl].
    change 0xFF with (Z.ones 8). rewrite Z.land_ones by lia. rewrite Z.mod_small; [done|].
    change (2 ^ 8) with (2 ^ 8). apply lxor_range; [lia| |lia].
    rewrite Z.shiftr_div_pow2 by lia.
    split; [apply Z.div_pos; lia|apply Z.div_lt_upper_bound; lia].
  - rewrite uint16_land. apply Z.bits_inj'. intros n Hn.
    rewrite Z.land_spec, Z.testbit_ones_nonneg by lia.
    destruct (Z.ltb_spec n 8).
    { by rewrite !Z.shiftl_spec_low by lia. }
    rewrite !Z.shiftl_spec, Z.land_spec, Z.lxor_spec by lia.
    change 0xFF with (Z.ones 8). rewrite Z.testbit_ones_nonneg by lia.
    destruct (Z.ltb_spec n 16), (Z.ltb_spec (n - 8) 8); try lia.
    rewrite !andb_true_r.
    rewrite (Z.shiftl_spec_low (b2z b)) by lia. by rewrite xorb_false_r.
Qed.

Lemma CRC16_ref data : CRC16 data = crc16_ref data /\ 0 <= CRC16 data < 2 ^ 16.
Proof.
  unfold CRC16, crc16_ref.
  assert (forall c, 0 <= c < 2 ^ 16 ->
    foldl crc16_step c data =
    foldl (fun crc b => Nat.iter 8 crc16_bit (Z.lxor crc (Z.shiftl (b2z b) 8))) c data /\
    0 <= foldl crc16_step c data < 2 ^ 16) as H; [|apply H; lia].
  induction data as [|b data IH]; intros c Hc; [done|]. cbn [foldl].
  rewrite <- crc16_step_ref by done. apply IH, crc16_step_range.
Qed.

Lemma crc64_step_ref c b :
  0 <= c -> crc64_step c b = Nat.iter 8 crc64_bit (Z.lxor c (b2z b)).
Proof.
  intros Hc. pose proof (b2z_range b) as Hb.
  assert (forall h, Nat.iter 8 crc64_bit (Z.shiftl h 8) = h) as Hhigh.
  { assert (forall n h, Nat.iter n crc64_bit (Z.shiftl h (Z.of_nat n)) = h) as H; [|intros h; apply (H 8%nat)].
    induction n as [|n IH]; intros h; [apply Z.shiftl_0_r|].
    rewrite Nat.iter_succ_r, crc64_bit_alt.
    rewrite Z.shiftl_spec_low, Z.lxor_0_r by lia. rewrite Z.shiftr_shiftl_l by lia.
    replace (Z.of_nat (S n) - 1) with (Z.of_nat n) by lia. apply IH. }
  rewrite (crc16_split c) at 2. rewrite Z.lxor_assoc, iter_lxor by apply crc64_bit_lxor.
  rewrite Hhigh. unfold crc64_step. rewrite Z.lxor_comm. f_equal.
  set (i := Z.lxor (Z.land c 0xFF) (b2z b)).
  assert (0 <= i < 2 ^ 8) as Hi.
  { subst i. change 0xFF with (Z.ones 8). rewrite Z.land_ones by lia.
    apply lxor_range; [lia| |lia]. apply Z.mod_pos_bound. lia. }
  unfold crc64Table. rewrite list_lookup_fmap, lookup_seq_lt by lia. cbn [fmap option_fmap option_map default].
  change (0 + Z.to_nat i)%nat with (Z.to_nat i). by rewrite Z2Nat.id by lia.
Qed.

Lemma crc64_bit_nonneg c : 0 <= c -> 0 <= crc64_bit c.
Proof.
  intros Hc. rewrite crc64_bit_alt. apply Z.lxor_nonneg.
  split; intros _; [by case_match|]. by apply Z.shiftr_nonneg.
Qed.

Lemma crc64_iter_nonneg n c : 0 <= c -> 0 <= Nat.iter n crc64_bit c.
Proof. intros. induction n; [done|]. rewrite Nat.iter_succ. by apply crc64_bit_nonneg. Qed.

Lemma UpdateCRC64_ref c data : 0 <= c -> UpdateCRC64 c data = crc64_ref c data.
Proof.
  unfold UpdateCRC64, crc64_ref. revert c.
  induction data as [|b data IH]; intros c Hc; [done|]. cbn [foldl].
  rewrite crc64_step_ref by done. apply IH, crc64_iter_nonneg.
  apply Z.lxor_nonneg. pose proof (b2z_range b). lia.
Qed.

(** ** The register loses nothing: a changed byte changes the checksum *)

Lemma crc64_bit_range c : 0 <= c < 2 ^ 64 -> 0 <= crc64_bit c < 2 ^ 64.
Proof.
  intros Hc. rewrite crc64_bit_alt. apply lxor_range; [lia| |by case_match; unfold poly; lia].
  rewrite Z.shiftr_div_pow2 by lia. split; [apply Z.div_pos; lia|apply Z.div_lt_upper_bound; lia].
Qed.

Lemma crc64_bit_zero c : 0 <= c < 2 ^ 64 -> crc64_bit c = 0 -> c = 0.
Proof.
  intros Hc. rewrite crc64_bit_alt. rewrite Z.bit0_odd. intros Hz%Z.lxor_eq.
  rewrite Z.shiftr_div_pow2 in Hz by lia. change (2 ^ 1) with 2 in Hz.
  destruct (Z.odd c) eqn:Ho.
  - assert (c / 2 < 2 ^ 63) by (apply Z.div_lt_upper_bound; lia). unfold poly in Hz. lia.
  - pose proof (Z.div2_odd c) as H. rewrite Ho, Z.div2_div in H. cbn in H. lia.
Qed.

Lemma crc64_bit_inj c d : 0 <= c < 2 ^ 64 -> 0 <= d < 2 ^ 64 -> crc64_bit c = crc64_bit d -> c = d.
Proof.
  intros Hc Hd E. apply Z.lxor_eq, crc64_bit_zero; [by apply lxor_range|].
  rewrite crc64_bit_lxor, E. apply Z.lxor_nilpotent.
Qed.

Lemma crc64_iter_inj n c d :
  0 <= c < 2 ^ 64 -> 0 <= d < 2 ^ 64 -> Nat.iter n crc64_bit c = Nat.iter n crc64_bit d -> c = d.
Proof.
  revert c d. induction n as [|n IH]; intros c d Hc Hd; [done|]. rewrite !Nat.iter_succ_r.
  intros E%IH; [by apply crc64_bit_inj|by apply crc64_bit_range|by apply crc64_bit_range].
Qed.

Lemma lxor_byte_range c b : 0 <= c < 2 ^ 64 -> 0 <= Z.lxor c (b2z b) < 2 ^ 64.
Proof. intros Hc. pose proof (b2z_range b). apply lxor_range; lia. Qed.

Lemma crc64_step_range c b : 0 <= c < 2 ^ 64 -> 0 <= crc64_step c b < 2 ^ 64.
Proof.
  intros Hc. rewrite crc64_step_ref by lia. pose proof (lxor_byte_range c b Hc) as H. revert H.
  generalize (Z.lxor c (b2z b)). intros x Hx. generalize 8%nat. intros n.
  induction n; [done|]. rewrite Nat.iter_succ. by apply crc64_bit_range.
Qed.

Lemma UpdateCRC64_range c p : 0 <= c < 2 ^ 64 -> 0 <= UpdateCRC64 c p < 2 ^ 64.
Proof.
  unfold UpdateCRC64. revert c. induction p as [|b p IH]; intros c Hc; [done|]. cbn [foldl].
  by apply IH, crc64_step_range.
Qed.

Lemma UpdateCRC64_inj c d p :
  0 <= c < 2 ^ 64 -> 0 <= d < 2 ^ 64 -> UpdateCRC64 c p = UpdateCRC64 d p -> c = d.
Proof.
  unfold UpdateCRC64. revert c d. induction p as [|b p IH]; intros c d Hc Hd; [done|]. cbn [foldl].
  intros E%IH; [|by apply crc64_step_range..]. rewrite !crc64_step_ref in E by lia.
  apply crc64_iter_inj in E; [|by apply lxor_byte_range..].
  rewrite <- (Z.lxor_0_r c), <- (Z.lxor_0_r d), <- (Z.lxor_nilpotent (b2z b)), <- !Z.lxor_assoc. by rewrite E.
Qed.

(** A single changed byte is always detected. *)
Lemma ChecksumCRC64_byte p q b b' :
  b <> b' -> UpdateCRC64 0 (p ++ b :: q) <> UpdateCRC64 0 (p ++ b' :: q).
Proof.
  intros Hne. unfold UpdateCRC64. rewrite !foldl_app. cbn [foldl].
  assert (0 <= foldl crc64_step 0 p < 2 ^ 64) as Hc by (apply (UpdateCRC64_range 0 p); lia).
  intros E%UpdateCRC64_inj; [|by apply crc64_step_range..]. rewrite !crc64_step_ref in E by lia.
  apply crc64_iter_inj in E; [|by apply lxor_byte_range..]. apply Hne, b2z_inj, Z.lxor_eq.
  rewrite <- (Z.lxor_0_l (Z.lxor _ _)), <- (Z.lxor_nilpotent (foldl crc64_step 0 p)), lxor_shuffle, E.
  by rewrite !Z.lxor_nilpotent.
Qed.

(** Both table-driven checksums compute the shift register of their
    polynomial: the CRC16 of a key over the literal table of the source, and the
    CRC64 over the table filled at start-up, fed in chunks of any size. *)
Theorem checksums_reference :
  (forall data, CRC16 data = crc16_ref data) /\
  (forall chunks, Sum64 (foldl Write NewCRC64 chunks) = crc64_ref 0 (concat chunks)) /\
  (forall data, ChecksumCRC64 data = crc64_ref 0 data).
Proof.
  split; [intros; apply CRC16_ref|]. split; [|intros; by apply UpdateCRC64_ref].
  intros chunks. rewrite <- UpdateCRC64_ref by done.
  assert (forall d, Sum64 (foldl Write d chunks) = UpdateCRC64 (crc d) (concat chunks)) as H;
    [|apply (H NewCRC64)].
  induction chunks as [|p chunks IH]; intros d; [done|]. cbn [foldl concat].
  rewrite IH. unfold UpdateCRC64. by rewrite foldl_app.
Qed.

Lemma KeySlot_mod key : KeySlot key = CRC16 (ExtractHashTag key) mod 16384.
Proof. unfold KeySlot. change 0x3FFF with (Z.ones 14). by rewrite Z.land_ones. Qed.

(** Every key has one of the 16384 slots.  A key whose first brace pair
    encloses a non-empty tag is placed by the tag alone, so keys with the same
    tag share a slot; a key without an opening brace, or with an empty or
    unclosed pair, is placed by all of its bytes. *)
Theorem KeySlot_hash_tags key pre tag post :
  0 <= KeySlot key < 16384 /\
  ("{"%byte ∉ pre -> "}"%byte ∉ tag -> tag <> [] ->
   KeySlot (pre ++ "{"%byte :: tag ++ "}"%byte :: post) = CRC16 tag mod 16384) /\
  ("{"%byte ∉ pre ->
   KeySlot pre = CRC16 pre mod 16384 /\
   KeySlot (pre ++ "{"%byte :: "}"%byte :: post)
     = CRC16 (pre ++ "{"%byte :: "}"%byte :: post) mod 16384 /\
   ("}"%byte ∉ tag -> KeySlot (pre ++ "{"%byte :: tag) = CRC16 (pre ++ "{"%byte :: tag) mod 16384)).
Proof.
  split; [rewrite KeySlot_mod; apply Z.mod_pos_bound; lia|].
  assert (forall l, "{"%byte ∉ pre -> drop (S (length pre)) (pre ++ "{"%byte :: l) = l) as Hd.
  { intros l _. rewrite cons_middle, app_assoc. apply drop_app_length'. rewrite length_app. cbn. lia. }
  split; [|intros Hpre; split; [|split]]; [intros Hpre Htag Hne|..|intros Htag];
    rewrite KeySlot_mod; unfold ExtractHashTag.
  - rewrite IndexByte_app, Hd, IndexByte_app by done.
    rewrite take_app_length. by destruct tag.
  - by rewrite (proj2 (IndexByte_None pre "{"%byte)).
  - rewrite IndexByte_app, Hd by done. cbn [IndexByte]. by rewrite decide_True by done.
  - rewrite IndexByte_app, Hd by done. by rewrite (proj2 (IndexByte_None tag "}"%byte)).
Qed.

Lemma KeySlot_hash_tags_witness :
  KeySlot (str "a{user1}b") = CRC16 (str "user1") mod 16384.
Proof.
  exact (proj1 (proj2 (KeySlot_hash_tags (str "") (str "a") (str "user1") (str "b")))
    ltac:(vm_compute; set_solver) ltac:(vm_compute; set_solver) ltac:(done)).
Defined.
