(* ===== verification/Rebalance.v ===== *)
(** * Slot rebalancing plans (internal/cluster/rebalancer.go)

    [ComputeRebalancePlan] pairs slots that overloaded masters give up with
    masters that lack slots.  Its loops are written as in the source, with the
    per-node counters as maps; the theorem shows that the plan is valid, ends in
    a balanced cluster and moves no slot needlessly.  Executing a plan
    ([ExecuteRebalancePlan], [migrateSlotKeys]) is network I/O and is not
    modelled. *)

From S2P Require Import Prelude.

Record MasterNodeInfo := mkMaster {
  mID : bytes;
  mIP : bytes;
  mPort : Z;
  mBusPort : Z;
  mSlots : list Z;
  mSlotCount : Z
}.

Record SlotMove := mkMove {
  Slot : Z;
  FromNodeID : bytes;
  FromAddr : bytes;
  ToNodeID : bytes;
  ToAddr : bytes
}.

Record RebalancePlan := mkPlan {
  TotalSlotsToMove : Z;
  Moves : list SlotMove;
  InitialCounts : gmap bytes Z;
  FinalCounts : gmap bytes Z
}.

(** "rebalance requires at least 2 master nodes". *)
Inductive rebalance_error := ErrTooFewMasters.

(** [fmt.Sprintf("%s:%d", m.IP, m.Port)]. *)
Definition addr (m : MasterNodeInfo) : bytes := mIP m ++ ":"%byte :: FormatInt (mPort m).

Definition donor := (MasterNodeInfo * list Z)%type.    (** m, avail *)
Definition receiver := (MasterNodeInfo * Z)%type.      (** m, needed *)

Definition slot_total : Z := 16384.

(** The target of the [i]-th master in order of identifiers. *)
Definition target_of (n i : nat) : Z :=
  slot_total / Z.of_nat n + (if Z.of_nat i <? slot_total mod Z.of_nat n then 1 else 0).

(** [initialCounts[m.ID] = len(m.Slots)] and [targetCounts[m.ID] = target]. *)
Definition set_counts {A} (f : nat -> MasterNodeInfo -> A) (sorted : list MasterNodeInfo) : gmap bytes A :=
  foldl (fun acc p => <[mID (snd p) := f (fst p) (snd p)]> acc) ∅ (imap pair sorted).

(** The loop that splits the masters into donors and receivers. *)
Definition split_master (initial targets : gmap bytes Z) (acc : list donor * list receiver)
    (m : MasterNodeInfo) : list donor * list receiver :=
  let '(donors, receivers) := acc in
  let cur := default 0 (initial !! mID m) in
  let tgt := default 0 (targets !! mID m) in
  if tgt <? cur then
    let excess := cur - tgt in
    (donors ++ [(m, drop (length (mSlots m) - Z.to_nat excess) (mSlots m))], receivers)
  else if cur <? tgt then (donors, receivers ++ [(m, tgt - cur)])
  else (donors, receivers).

Definition mk_move (d rec : MasterNodeInfo) (slot : Z) : SlotMove :=
  mkMove slot (mID d) (addr d) (mID rec) (addr rec).

(** [finalCounts[d.m.ID]--; finalCounts[rec.m.ID]++]. *)
Definition count_move (counts : gmap bytes Z) (mv : SlotMove) : gmap bytes Z :=
  let counts := <[FromNodeID mv := default 0 (counts !! FromNodeID mv) - 1]> counts in
  <[ToNodeID mv := default 0 (counts !! ToNodeID mv) + 1]> counts.

(** [for rec.needed > 0 && dIdx < len(donors)]: [donors] are the ones from
    [dIdx] on, with what they have left.  A donor that keeps slots after giving
    has satisfied the receiver, so the loop stops there. *)
Fixpoint fill (rec : MasterNodeInfo) (needed : Z) (donors : list donor)
    (moves : list SlotMove) (final : gmap bytes Z)
    : list donor * list SlotMove * gmap bytes Z :=
  match donors with
  | [] => (donors, moves, final)
  | (d, avail) :: donors' =>
      if needed <=? 0 then (donors, moves, final)
      else
        match avail with
        | [] => fill rec needed donors' moves final
        | _ =>
            let n := Z.min needed (Z.of_nat (length avail)) in
            let new := mk_move d rec <$> take (Z.to_nat n) avail in
            let moves := moves ++ new in
            let final := foldl count_move final new in
            match drop (Z.to_nat n) avail with
            | [] => fill rec (needed - n) donors' moves final
            | avail' => ((d, avail') :: donors', moves, final)
            end
        end
  end.

Fixpoint fill_all (receivers : list receiver) (donors : list donor)
    (moves : list SlotMove) (final : gmap bytes Z) : list SlotMove * gmap bytes Z :=
  match receivers with
  | [] => (moves, final)
  | (rec, needed) :: receivers' =>
      let '(donors, moves, final) := fill rec needed donors moves final in
      fill_all receivers' donors moves final
  end.

Definition ComputeRebalancePlan (masters : list MasterNodeInfo)
    : res rebalance_error RebalancePlan :=
  if (length masters <? 2)%nat then Err ErrTooFewMasters
  else
    let n := length masters in
    let sorted := sort_slice (fun a b => bytes_ltb (mID a) (mID b)) masters in
    let initial := set_counts (fun _ m => Z.of_nat (length (mSlots m))) sorted in
    let targets := set_counts (fun i _ => target_of n i) sorted in
    let '(donors, receivers) := foldl (split_master initial targets) ([], []) sorted in
    let '(moves, final) := fill_all receivers donors [] initial in
    Ok (mkPlan (Z.of_nat (length moves)) moves initial final).

(** ** The loops as one pairing

    The slots on offer in order, with their donors, and the receivers in order,
    each as often as it needs a slot. *)

Definition supply (donors : list donor) : list (MasterNodeInfo * Z) :=
  concat ((fun p : donor => pair p.1 <$> p.2) <$> donors).

Definition demand (receivers : list receiver) : list MasterNodeInfo :=
  concat ((fun p : receiver => replicate (Z.to_nat p.2) p.1) <$> receivers).

Definition give (rec : MasterNodeInfo) (p : MasterNodeInfo * Z) : SlotMove :=
  mk_move (fst p) rec (snd p).

Lemma fill_spec rec needed donors moves final :
  let new := give rec <$> take (Z.to_nat needed) (supply donors) in
  exists donors', fill rec needed donors moves final
    = (donors', moves ++ new, foldl count_move final new) /\
    supply donors' = drop (Z.to_nat needed) (supply donors).
Proof.
  revert needed moves final; induction donors as [|[d avail] donors IH];
    intros needed moves final; cbn zeta; cbn [fill].
  { exists []. unfold supply. cbn [fmap list_fmap concat]. rewrite take_nil, drop_nil.
    cbn [fmap list_fmap foldl]. by rewrite app_nil_r. }
  change (supply ((d, avail) :: donors)) with ((pair d <$> avail) ++ supply donors).
  destruct (Z.leb_spec needed 0).
  { exists ((d, avail) :: donors). replace (Z.to_nat needed) with O by lia.
    rewrite take_0, drop_0. cbn [fmap list_fmap foldl]. by rewrite app_nil_r. }
  destruct avail as [|s avail].
  { destruct (IH needed moves final) as (donors' & E & Hs). exists donors'. by split. }
  remember (s :: avail) as av eqn:Eav.
  set (k := Z.min needed (Z.of_nat (length av))).
  assert (mk_move d rec <$> take (Z.to_nat k) av
          = give rec <$> take (Z.to_nat k) (pair d <$> av)) as Hnew.
  { rewrite <- fmap_take, <- list_fmap_compose. done. }
  destruct (drop (Z.to_nat k) av) as [|s' av'] eqn:Ed.
  - assert (k = Z.of_nat (length av)) as Hk.
    { apply (f_equal length) in Ed. rewrite length_drop in Ed. cbn in Ed. lia. }
    rewrite Hnew, Hk, Nat2Z.id, (take_ge (pair d <$> av)) by (rewrite length_fmap; lia).
    destruct (IH (needed - Z.of_nat (length av)) (moves ++ (give rec <$> (pair d <$> av)))
      (foldl count_move final (give rec <$> (pair d <$> av)))) as (donors' & E & Hs).
    exists donors'. rewrite E, take_app, drop_app, length_fmap.
    rewrite (take_ge (pair d <$> av)), (drop_ge (pair d <$> av)) by (rewrite length_fmap; lia).
    replace (Z.to_nat needed - length av)%nat with (Z.to_nat (needed - Z.of_nat (length av))) by lia.
    rewrite fmap_app, foldl_app, app_assoc. by split.
  - assert (k = needed) as Hk.
    { apply (f_equal length) in Ed. rewrite length_drop in Ed. cbn in Ed. lia. }
    assert (Z.to_nat needed < length av)%nat.
    { apply (f_equal length) in Ed. rewrite length_drop in Ed. cbn in Ed. lia. }
    exists ((d, s' :: av') :: donors). rewrite Hnew, Hk.
    rewrite take_app_le, drop_app_le by (rewrite length_fmap; lia).
    split; [done|]. rewrite <- fmap_drop. rewrite Hk in Ed. rewrite Ed. done.
Qed.

Lemma fill_all_spec receivers donors moves final :
  let new := zip_with (fun p r => give r p) (supply donors) (demand receivers) in
  fill_all receivers donors moves final = (moves ++ new, foldl count_move final new).
Proof.
  revert donors moves final; induction receivers as [|[rec needed] receivers IH];
    intros donors moves final; cbn zeta; cbn [fill_all].
  { unfold demand. cbn [fmap list_fmap concat]. by rewrite zip_with_nil_r, app_nil_r. }
  destruct (fill_spec rec needed donors moves final) as (donors' & -> & Hs).
  rewrite IH, Hs. change (demand ((rec, needed) :: receivers))
    with (replicate (Z.to_nat needed) rec ++ demand receivers).
  rewrite zip_with_app_r, length_replicate, zip_with_replicate_r by (rewrite length_take; lia).
  by rewrite <- app_assoc, foldl_app.
Qed.

(** ** Counting *)

(** The number of elements that satisfy [P]. *)
Definition count {A} (P : A -> Prop) `{!forall x, Decision (P x)} (l : list A) : Z :=
  Z.of_nat (length (filter P l)).

Lemma count_app {A} (P : A -> Prop) `{!forall x, Decision (P x)} l k :
  count P (l ++ k) = count P l + count P k.
Proof. unfold count. rewrite filter_app, length_app. lia. Qed.

Lemma count_cons {A} (P : A -> Prop) `{!forall x, Decision (P x)} x l :
  count P (x :: l) = (if decide (P x) then 1 else 0) + count P l.
Proof. unfold count. rewrite filter_cons. case_decide; cbn [length]; lia. Qed.

(** The counters after a list of moves between known nodes. *)
Lemma count_moves_lookup counts moves id c :
  counts !! id = Some c ->
  foldl count_move counts moves !! id =
    Some (c - count (fun mv => FromNodeID mv = id) moves
            + count (fun mv => ToNodeID mv = id) moves).
Proof.
  revert counts c; induction moves as [|mv moves IH]; intros counts c Hc; cbn [foldl].
  { rewrite Hc. unfold count. cbn. f_equal. lia. }
  rewrite !count_cons.
  set (c1 := if decide (FromNodeID mv = id) then c - 1 else c).
  set (c2 := if decide (ToNodeID mv = id) then c1 + 1 else c1).
  rewrite (IH (count_move counts mv) c2).
  { f_equal. subst c2 c1. repeat case_decide; lia. }
  unfold count_move. subst c2 c1.
  destruct (decide (ToNodeID mv = id)) as [->|], (decide (FromNodeID mv = id)) as [E|];
    rewrite ?lookup_insert_eq, ?lookup_insert_ne by done; rewrite ?E in *;
    rewrite ?lookup_insert_eq, ?lookup_insert_ne by done; rewrite ?Hc; try done.
Qed.

Definition sumZ {A} (f : A -> Z) (l : list A) : Z := foldr (fun x a => f x + a) 0 l.

Lemma sumZ_perm {A} (f : A -> Z) l k : l ≡ₚ k -> sumZ f l = sumZ f k.
Proof. induction 1; unfold sumZ in *; cbn [foldr]; lia. Qed.

Lemma sumZ_fmap {A B} (f : B -> Z) (g : A -> B) l : sumZ f (g <$> l) = sumZ (fun x => f (g x)) l.
Proof.
  unfold sumZ in *. induction l as [|x l IH]; [done|]. rewrite fmap_cons. cbn [foldr]. lia.
Qed.

Lemma sumZ_sub {A} (f g : A -> Z) l : sumZ (fun x => f x - g x) l = sumZ f l - sumZ g l.
Proof. unfold sumZ. induction l as [|x l IH]; cbn [foldr]; lia. Qed.

Lemma length_concat_sum {A B} (g : A -> list B) l :
  Z.of_nat (length (concat (g <$> l))) = sumZ (fun x => Z.of_nat (length (g x))) l.
Proof.
  induction l as [|x l IH]; [done|]. rewrite fmap_cons. cbn [concat sumZ foldr].
  rewrite length_app. unfold sumZ in IH. lia.
Qed.

(** The targets add up to all slots. *)
Lemma targets_sum n :
  (0 < n)%nat -> sumZ (target_of n) (seq 0 n) = slot_total.
Proof.
  intros Hn. unfold target_of.
  set (b := slot_total / Z.of_nat n). set (r := slot_total mod Z.of_nat n).
  assert (0 <= r < Z.of_nat n) as Hr by (apply Z.mod_pos_bound; lia).
  assert (forall k j, sumZ (fun i => b + (if Z.of_nat i <? r then 1 else 0)) (seq j k)
    = Z.of_nat k * b + Z.max 0 (Z.min (Z.of_nat k) (r - Z.of_nat j))) as H.
  { induction k as [|k IH]; intros j; [cbn; lia|]. cbn [seq sumZ foldr].
    unfold sumZ in IH. rewrite IH. destruct (Z.ltb_spec (Z.of_nat j) r); lia. }
  rewrite H. change (Z.of_nat 0) with 0.
  pose proof (Z.div_mod slot_total (Z.of_nat n) ltac:(lia)). subst b r. lia.
Qed.

Lemma set_counts_lookup {A} (f : nat -> MasterNodeInfo -> A) sorted i m :
  NoDup (mID <$> sorted) -> sorted !! i = Some m ->
  set_counts f sorted !! mID m = Some (f i m).
Proof.
  intros Hnd Hi. unfold set_counts.
  assert (forall (ps : list (nat * MasterNodeInfo)) (acc : gmap bytes A),
    NoDup ((fun p => mID p.2) <$> ps) -> (i, m) ∈ ps \/ ((forall p, p ∈ ps -> mID p.2 <> mID m) /\ acc !! mID m = Some (f i m)) ->
    foldl (fun acc p => <[mID p.2 := f p.1 p.2]> acc) acc ps !! mID m = Some (f i m)) as H.
  { induction ps as [|[j x] ps IH]; intros acc Hp Hin; cbn [foldl].
    { destruct Hin as [Hin|[_ Hin]]; [by apply elem_of_nil in Hin|done]. }
    rewrite fmap_cons in Hp. apply NoDup_cons in Hp as [Hx Hp]. cbn [fst snd] in *. apply IH; [done|].
    destruct Hin as [[[= <- <-]|Hin]%elem_of_cons|[Hne Hacc]].
    - right. rewrite lookup_insert_eq. split; [|done]. intros p Hp' E. apply Hx. rewrite <- E.
      by apply (list_elem_of_fmap_2 (fun p => mID p.2)).
    - by left.
    - right. split; [intros p Hp'; apply Hne; set_solver|].
      rewrite lookup_insert_ne; [done|]. apply (Hne (j, x)). set_solver. }
  apply H.
  - rewrite fmap_imap. replace (imap _ sorted) with (mID <$> sorted); [done|].
    clear. induction sorted as [|x l IH] using rev_ind; [done|].
    rewrite fmap_app, imap_app, IH. done.
  - left. apply list_elem_of_lookup. exists i. rewrite list_lookup_imap, Hi. done.
Qed.

Section plan.
Context (sorted : list MasterNodeInfo) (t : MasterNodeInfo -> Z).
Context (initial targets : gmap bytes Z).
Hypothesis Hini : forall m, m ∈ sorted -> initial !! mID m = Some (Z.of_nat (length (mSlots m))).
Hypothesis Htgt : forall m, m ∈ sorted -> targets !! mID m = Some (t m).
Hypothesis Ht0 : forall m, m ∈ sorted -> 0 <= t m.

(** The slots a master gives up, and the number of slots it lacks. *)
Definition excess (m : MasterNodeInfo) : list Z :=
  drop (length (mSlots m) - Z.to_nat (Z.of_nat (length (mSlots m)) - t m)) (mSlots m).
Definition lack (m : MasterNodeInfo) : Z := t m - Z.of_nat (length (mSlots m)).

Lemma excess_length m :
  0 <= t m -> Z.of_nat (length (excess m)) = Z.max 0 (Z.of_nat (length (mSlots m)) - t m).
Proof. unfold excess. rewrite length_drop. lia. Qed.

Lemma split_masters :
  let '(donors, receivers) := foldl (split_master initial targets) ([], []) sorted in
  supply donors = concat ((fun m => pair m <$> excess m) <$> sorted) /\
  demand receivers = concat ((fun m => replicate (Z.to_nat (lack m)) m) <$> sorted).
Proof.
  assert (forall l acc, (forall m, m ∈ l -> m ∈ sorted) ->
    let '(donors, receivers) := foldl (split_master initial targets) acc l in
    supply donors = supply acc.1 ++ concat ((fun m => pair m <$> excess m) <$> l) /\
    demand receivers = demand acc.2 ++ concat ((fun m => replicate (Z.to_nat (lack m)) m) <$> l)) as H;
    [|exact (H sorted ([], []) (fun _ H => H))].
  induction l as [|m l IH]; intros acc Hin; cbn [foldl].
  { destruct acc as [ds rs]. cbn [fmap list_fmap concat fst snd]. by rewrite !app_nil_r. }
  assert (m ∈ sorted) as Hm by set_solver.
  specialize (IH (split_master initial targets acc m)).
  destruct (foldl _ _ l) as [donors receivers].
  destruct IH as [E1 E2]; [set_solver|]. rewrite E1, E2, !fmap_cons. cbn [concat].
  destruct acc as [ds rs]. unfold split_master. rewrite (Hini m Hm), (Htgt m Hm). cbn [default fst snd id].
  assert (forall d, supply (ds ++ [d]) = supply ds ++ (pair d.1 <$> d.2)) as Hsup.
  { intros d. unfold supply. rewrite fmap_app, concat_app. cbn. by rewrite app_nil_r. }
  assert (forall r, demand (rs ++ [r]) = demand rs ++ replicate (Z.to_nat r.2) r.1) as Hdem.
  { intros r. unfold demand. rewrite fmap_app, concat_app. cbn. by rewrite app_nil_r. }
  destruct (Z.ltb_spec (t m) (Z.of_nat (length (mSlots m)))) as [Hlt|Hge].
  - cbn [fst snd]. rewrite Hsup. cbn [fst snd]. rewrite <- app_assoc. split; [done|].
    f_equal. unfold lack. by replace (Z.to_nat (t m - Z.of_nat (length (mSlots m)))) with O by lia.
  - assert (excess m = []) as ->.
    { apply length_zero_iff_nil. pose proof (excess_length m (Ht0 m Hm)). lia. }
    destruct (Z.ltb_spec (Z.of_nat (length (mSlots m))) (t m)) as [Hlt|Heq]; cbn [fst snd].
    + rewrite Hdem. cbn [fst snd]. by rewrite <- app_assoc.
    + unfold lack. by replace (Z.to_nat (t m - Z.of_nat (length (mSlots m)))) with O by lia.
Qed.
End plan.

(** ** The plan *)

Lemma count_fmap {A B} (f : A -> B) (P : B -> Prop) `{!forall x, Decision (P x)} l :
  count (fun x => P (f x)) l = count P (f <$> l).
Proof. unfold count. by rewrite filter_fmap, length_fmap. Qed.

(** In a concatenation over nodes with distinct identifiers, the elements that
    carry the identifier of [m] are those of [m]'s part. *)
Lemma count_concat_unique (g : MasterNodeInfo -> list bytes) l m :
  NoDup (mID <$> l) -> m ∈ l -> (forall x, x ∈ l -> Forall (fun i => i = mID x) (g x)) ->
  count (fun i => i = mID m) (concat (g <$> l)) = Z.of_nat (length (g m)).
Proof.
  assert (forall l, (forall x, x ∈ l -> mID x <> mID m /\ Forall (fun i => i = mID x) (g x)) ->
    count (fun i => i = mID m) (concat (g <$> l)) = 0) as H0.
  { clear l. induction l as [|x l IH]; intros Hx; [done|]. rewrite fmap_cons. cbn [concat].
    rewrite count_app, IH by (intros; apply Hx; set_solver).
    destruct (Hx x) as [Hne HF]; [set_solver|]. unfold count.
    rewrite filter_none; [done|]. eapply list.Forall_impl; [exact HF|]. intros i -> ?. done. }
  induction l as [|x l IH]; intros Hnd Hm Hg; [by apply elem_of_nil in Hm|].
  rewrite fmap_cons in *. cbn [concat]. apply NoDup_cons in Hnd as [Hx Hnd].
  rewrite count_app. apply elem_of_cons in Hm as [->|Hm].
  - rewrite H0.
    + unfold count. rewrite filter_all by (apply Hg; set_solver). lia.
    + intros y Hy. split; [|apply Hg; set_solver]. intros E. apply Hx. rewrite <- E.
      by apply list_elem_of_fmap_2.
  - rewrite IH; [|done|done|intros; apply Hg; set_solver]. unfold count.
    rewrite filter_none; [cbn; lia|]. eapply list.Forall_impl; [apply Hg; set_solver|].
    cbn. intros i -> E. apply Hx. rewrite E. by apply list_elem_of_fmap_2.
Qed.

Lemma moves_from l r :
  length l = length r -> FromNodeID <$> zip_with (fun p r => give r p) l r = (fun p => mID p.1) <$> l.
Proof. revert r; induction l as [|x l IH]; intros [|y r] H; try done.
  cbn in *. f_equal. apply IH. lia. Qed.

Lemma moves_to l r :
  length l = length r -> ToNodeID <$> zip_with (fun p r => give r p) l r = mID <$> r.
Proof. revert r; induction l as [|x l IH]; intros [|y r] H; try done.
  cbn in *. f_equal. apply IH. lia. Qed.

Lemma moves_slots l r :
  length l = length r -> Slot <$> zip_with (fun p r => give r p) l r = snd <$> l.
Proof. revert r; induction l as [|x l IH]; intros [|y r] H; try done.
  cbn in *. f_equal. apply IH. lia. Qed.

Section balanced.
Context (masters : list MasterNodeInfo).
Hypothesis Hlen : (2 <= length masters)%nat.
Hypothesis Hids : NoDup (mID <$> masters).
Hypothesis Hslots : NoDup (concat (mSlots <$> masters)).
Hypothesis Hall : Z.of_nat (length (concat (mSlots <$> masters))) = slot_total.

Let sorted := sort_slice (fun a b => bytes_ltb (mID a) (mID b)) masters.
Let n := length masters.
Let initial := set_counts (fun _ m => Z.of_nat (length (mSlots m))) sorted.
Let targets := set_counts (fun i _ => target_of n i) sorted.
Let t (m : MasterNodeInfo) : Z := default 0 (targets !! mID m).
Let sup := concat ((fun m => pair m <$> excess t m) <$> sorted).
Let dem := concat ((fun m => replicate (Z.to_nat (lack t m)) m) <$> sorted).
Let moves := zip_with (fun p r => give r p) sup dem.

Lemma sorted_perm : sorted ≡ₚ masters.
Proof. apply sort_slice_perm. Qed.

Lemma sorted_ids : NoDup (mID <$> sorted).
Proof. by rewrite sorted_perm. Qed.

Lemma initial_lookup m : m ∈ sorted -> initial !! mID m = Some (Z.of_nat (length (mSlots m))).
Proof.
  intros [i Hi]%list_elem_of_lookup. unfold initial.
  by rewrite (set_counts_lookup _ _ _ _ sorted_ids Hi).
Qed.

Lemma target_lookup i m : sorted !! i = Some m -> t m = target_of n i.
Proof.
  intros Hi. unfold t, targets. by rewrite (set_counts_lookup _ _ _ _ sorted_ids Hi).
Qed.

Lemma target_bounds m : m ∈ sorted ->
  slot_total / Z.of_nat n <= t m <= slot_total / Z.of_nat n + 1 /\ 0 <= t m.
Proof.
  intros [i Hi]%list_elem_of_lookup. rewrite (target_lookup i m Hi). unfold target_of.
  assert (0 <= slot_total / Z.of_nat n) by (apply Z.div_pos; unfold slot_total; lia).
  case_match; lia.
Qed.

Lemma targets_lookup m : m ∈ sorted -> targets !! mID m = Some (t m).
Proof.
  intros [i Hi]%list_elem_of_lookup. rewrite (target_lookup i m Hi). unfold targets.
  by rewrite (set_counts_lookup _ _ _ _ sorted_ids Hi).
Qed.

Lemma targets_total : sumZ t sorted = slot_total.
Proof.
  rewrite <- (targets_sum n) by lia.
  assert (t <$> sorted = target_of n <$> seq 0 n) as E.
  { apply list_eq. intros i. rewrite !list_lookup_fmap.
    assert (length sorted = n) as Hl by (unfold n; by rewrite sorted_perm).
    destruct (sorted !! i) as [m|] eqn:Ei.
    - rewrite lookup_seq_lt by (rewrite <- Hl; by eapply lookup_lt_Some).
      cbn. f_equal. by apply target_lookup.
    - rewrite lookup_seq_ge; [done|]. rewrite <- Hl. by apply lookup_ge_None. }
  change (sumZ t sorted) with (sumZ (fun m => id (t m)) sorted). rewrite <- (sumZ_fmap id t).
  rewrite E. by rewrite sumZ_fmap.
Qed.

(** Supply and demand match. *)
Lemma supply_demand : length sup = length dem.
Proof.
  apply (inj Z.of_nat). unfold sup, dem. rewrite !length_concat_sum.
  cut (sumZ (fun m => Z.of_nat (length (pair m <$> excess t m))
        - Z.of_nat (length (replicate (Z.to_nat (lack t m)) m))) sorted = 0).
  { rewrite sumZ_sub. lia. }
  transitivity (sumZ (fun m => Z.of_nat (length (mSlots m)) - t m) sorted).
  - assert (forall l, (forall m, m ∈ l -> m ∈ sorted) ->
      sumZ (fun m => Z.of_nat (length (pair m <$> excess t m))
        - Z.of_nat (length (replicate (Z.to_nat (lack t m)) m))) l
      = sumZ (fun m => Z.of_nat (length (mSlots m)) - t m) l) as H; [|by apply H].
    induction l as [|m l IH]; intros Hin; [done|]. cbn [sumZ foldr].
    unfold sumZ in IH. rewrite IH by set_solver. rewrite length_fmap, length_replicate.
    pose proof (target_bounds m ltac:(set_solver)) as [_ H0].
    rewrite excess_length by done. unfold lack. lia.
  - rewrite sumZ_sub, targets_total. rewrite <- Hall, length_concat_sum.
    rewrite (sumZ_perm _ _ _ sorted_perm). lia.
Qed.

Lemma plan_eq : ComputeRebalancePlan masters =
  Ok (mkPlan (Z.of_nat (length moves)) moves initial (foldl count_move initial moves)).
Proof.
  unfold ComputeRebalancePlan. rewrite (proj2 (Nat.ltb_ge _ _)) by lia.
  fold n sorted initial targets.
  pose proof (split_masters sorted t initial targets initial_lookup targets_lookup
    (fun m H => proj2 (target_bounds m H))) as HS.
  destruct (foldl (split_master initial targets) ([], []) sorted) as [donors receivers].
  destruct HS as [E1 E2]. rewrite fill_all_spec, E1, E2. cbn zeta. fold sup dem moves.
  by rewrite app_nil_l.
Qed.

Lemma moves_from_count m : m ∈ sorted ->
  count (fun mv => FromNodeID mv = mID m) moves = Z.max 0 (Z.of_nat (length (mSlots m)) - t m).
Proof.
  intros Hm. etransitivity; [exact (count_fmap FromNodeID (fun i => i = mID m) moves)|].
  unfold moves. rewrite moves_from by apply supply_demand.
  unfold sup. rewrite fmap_concat_fmap.
  rewrite (count_concat_unique (fun x => (fun p => mID p.1) <$> (pair x <$> excess t x)) sorted m).
  - rewrite !length_fmap. apply excess_length. by apply target_bounds.
  - apply sorted_ids.
  - done.
  - intros x _. apply Forall_forall. intros i Hi.
    rewrite <- list_fmap_compose in Hi. by apply list_elem_of_fmap in Hi as (s & -> & _).
Qed.

Lemma moves_to_count m : m ∈ sorted ->
  count (fun mv => ToNodeID mv = mID m) moves = Z.max 0 (t m - Z.of_nat (length (mSlots m))).
Proof.
  intros Hm. etransitivity; [exact (count_fmap ToNodeID (fun i => i = mID m) moves)|].
  unfold moves. rewrite moves_to by apply supply_demand.
  unfold dem. rewrite fmap_concat_fmap.
  rewrite (count_concat_unique (fun x => mID <$> replicate (Z.to_nat (lack t x)) x) sorted m).
  - rewrite length_fmap, length_replicate. unfold lack. lia.
  - apply sorted_ids.
  - done.
  - intros x _. apply Forall_forall. intros i Hi. rewrite fmap_replicate in Hi.
    by apply elem_of_replicate in Hi as [-> _].
Qed.

Lemma excess_sublist m : sublist (excess t m) (mSlots m).
Proof. apply sublist_drop. Qed.

Lemma moves_NoDup : NoDup (Slot <$> moves).
Proof.
  unfold moves. rewrite moves_slots by apply supply_demand.
  unfold sup. rewrite fmap_concat_fmap.
  assert (NoDup (concat (mSlots <$> sorted))) as Hnd by (by rewrite sorted_perm).
  eapply sublist_NoDup; [exact Hnd|]. clear Hnd. generalize sorted. intros l.
  induction l as [|x l IH]; [constructor|]. rewrite !fmap_cons. cbn [concat].
  apply sublist_app; [|done]. rewrite <- list_fmap_compose.
  rewrite (list_fmap_ext _ id) by done. rewrite list_fmap_id. apply excess_sublist.
Qed.

(** Where a move comes from and goes to. *)
Lemma move_ends mv : mv ∈ moves ->
  exists d r, d ∈ sorted /\ r ∈ sorted /\ Slot mv ∈ mSlots d /\
    FromNodeID mv = mID d /\ ToNodeID mv = mID r /\
    t d < Z.of_nat (length (mSlots d)) /\ Z.of_nat (length (mSlots r)) < t r.
Proof.
  intros [i Hi]%list_elem_of_lookup. unfold moves in Hi.
  apply lookup_zip_with_Some in Hi as ([d s] & r & -> & Hp & Hr).
  apply list_elem_of_lookup_2 in Hp, Hr. unfold sup, dem in *.
  apply elem_of_concat_fmap in Hp as (d' & Hd & Hp).
  apply list_elem_of_fmap in Hp as (s' & [= <- <-] & Hs).
  apply elem_of_concat_fmap in Hr as (r' & Hr & Hr').
  apply elem_of_replicate in Hr' as [-> Hne]. exists d, r'. cbn.
  assert (Z.of_nat (length (excess t d)) <> 0) as Hex.
  { destruct (excess t d); [by apply elem_of_nil in Hs|done]. }
  rewrite excess_length in Hex by (by apply target_bounds).
  split; [done|]. split; [done|]. split; [eapply elem_of_submseteq; [exact Hs|]|].
  { apply sublist_submseteq, sublist_drop. }
  split; [done|]. split; [done|]. unfold lack in Hne. lia.
Qed.
End balanced.

(** The rebalancing plan of two or more masters with distinct identifiers
    that own all 16384 slots, none twice.  Each master ends with its even share
    (16384/n, one more for the first ones), and the final counters are what the
    moves make of the initial ones; no slot moves twice, each one starts at a
    master that owns it, and no master both gives and receives, so nothing is
    moved needlessly. *)
Theorem ComputeRebalancePlan_balanced masters :
  (2 <= length masters)%nat -> NoDup (mID <$> masters) ->
  NoDup (concat (mSlots <$> masters)) ->
  Z.of_nat (length (concat (mSlots <$> masters))) = slot_total ->
  exists plan, ComputeRebalancePlan masters = Ok plan /\
    TotalSlotsToMove plan = Z.of_nat (length (Moves plan)) /\
    (forall m, m ∈ masters -> exists c,
       FinalCounts plan !! mID m = Some c /\
       slot_total / Z.of_nat (length masters) <= c <= slot_total / Z.of_nat (length masters) + 1 /\
       c = Z.of_nat (length (mSlots m))
           - count (fun mv => FromNodeID mv = mID m) (Moves plan)
           + count (fun mv => ToNodeID mv = mID m) (Moves plan)) /\
    NoDup (Slot <$> Moves plan) /\
    (forall mv, mv ∈ Moves plan -> exists d r, d ∈ masters /\ r ∈ masters /\
       Slot mv ∈ mSlots d /\ FromNodeID mv = mID d /\ ToNodeID mv = mID r) /\
    (forall mv mv', mv ∈ Moves plan -> mv' ∈ Moves plan -> FromNodeID mv <> ToNodeID mv').
Proof.
  intros Hlen Hids Hslots Hall. eexists. split; [by apply plan_eq|]. cbn [Moves TotalSlotsToMove FinalCounts].
  pose proof (sorted_perm masters) as Hp.
  split; [done|]. split; [|split; [by apply moves_NoDup|split]].
  - intros m Hm. rewrite <- Hp in Hm. eexists.
    erewrite count_moves_lookup by (by apply initial_lookup). split; [done|]. split; [|done].
    rewrite moves_from_count, moves_to_count by done.
    pose proof (target_bounds masters Hlen Hids m Hm). lia.
  - intros mv Hmv. apply move_ends in Hmv; [|done..].
    destruct Hmv as (d & r & Hd & Hr & ? & ? & ? & _). rewrite Hp in Hd, Hr. by exists d, r.
  - intros mv mv' H1 H2 E. apply move_ends in H1, H2; [|done..].
    destruct H1 as (d & _ & Hd & _ & _ & E1 & _ & Hlt & _).
    destruct H2 as (_ & r & _ & Hr & _ & _ & E2 & _ & Hgt).
    assert (d = r) as ->; [|lia].
    assert (mID d = mID r) as Eid by congruence.
    apply list_elem_of_lookup in Hd as [i Hi]. apply list_elem_of_lookup in Hr as [j Hj].
    assert (i = j) as ->; [|congruence].
    eapply NoDup_lookup; [by apply sorted_ids| |].
    + by rewrite list_lookup_fmap, Hi.
    + rewrite list_lookup_fmap, Hj. cbn. by rewrite Eid.
Qed.

(** A cluster whose first master owns everything. *)
Definition two_masters : list MasterNodeInfo :=
  [mkMaster (str "a") (str "h") 1 2 (Z.of_nat <$> seq 0 (Z.to_nat slot_total)) 16384;
   mkMaster (str "b") (str "h") 3 4 [] 0].

Lemma ComputeRebalancePlan_balanced_witness :
  exists plan c, ComputeRebalancePlan two_masters = Ok plan /\
    FinalCounts plan !! str "b" = Some c /\ slot_total / 2 <= c <= slot_total / 2 + 1.
Proof.
  destruct (ComputeRebalancePlan_balanced two_masters) as (plan & E & _ & H & _).
  - cbn. lia.
  - apply (bool_decide_unpack _). by vm_compute.
  - unfold two_masters. rewrite !fmap_cons. cbn [concat mSlots fmap list_fmap].
    rewrite !app_nil_r. apply NoDup_fmap_2; [apply _|]. apply NoDup_seq.
  - unfold two_masters. rewrite !fmap_cons. cbn [concat mSlots fmap list_fmap].
    rewrite !app_nil_r, length_fmap, length_seq. reflexivity.
  - destruct (H (mkMaster (str "b") (str "h") 3 4 [] 0)) as (c & H1 & H2 & _).
    { unfold two_masters. apply elem_of_cons. right. apply list_elem_of_singleton. reflexivity. }
    exists plan, c. split; [exact E|]. split; [exact H1|]. exact H2.
Defined.
