(* ===== verification/Bus.v ===== *)
(** * The cluster bus wire format (internal/cluster/bus.go)

    Slot bitmaps and the fixed-layout packets that cluster nodes exchange.  The
    fields of the header are contiguous, so writing to [hdr[a:b]] is modelled by
    concatenation and reading from it by [next], which takes the next field of
    the header.  A [[16384]bool] is the set of the indices that are true. *)

From S2P Require Import Prelude.

Definition BusMagic : bytes := str "VBUS".

Definition TypePing : Z := 1.
Definition TypePong : Z := 2.
Definition TypeFail : Z := 3.
Definition TypeFailoverAuthReq : Z := 4.
Definition TypeFailoverAuthAck : Z := 5.

Definition FlagMaster : Z := Z.shiftl 1 0.
Definition FlagSlave : Z := Z.shiftl 1 1.
Definition FlagPFail : Z := Z.shiftl 1 2.
Definition FlagFail : Z := Z.shiftl 1 3.

Record GossipEntry := mkGossip {
  gNodeID : bytes;
  gIP : bytes;
  gPort : Z;
  gBusPort : Z;
  gFlags : Z;
  gPingSent : Z;
  gPongRecv : Z
}.

Record BusPacket := mkPacket {
  Type_ : Z;
  Epoch : Z;
  SenderID : bytes;
  SenderIP : bytes;
  Port : Z;
  BusPort : Z;
  Flags : Z;
  Slots : bytes;           (** [[2048]byte] *)
  Gossip : list GossipEntry;
  TargetNodeID : bytes;
  ReqEpoch : Z
}.

(** ** Slot bitmaps *)

Definition NumSlots : nat := Z.to_nat 16384.

Definition SlotsToBitmap (slots : gset nat) : bytes :=
  foldl (fun bm i =>
      if decide (i ∈ slots)
      then alter (fun b => z2b (Z.lor (b2z b) (Z.shiftl 1 (Z.of_nat (i mod 8))))) (i / 8)%nat bm
      else bm)
    (replicate (Z.to_nat 2048) x00) (seq 0 NumSlots).

Definition BitmapToSlots (bm : bytes) : gset nat :=
  foldl (fun slots i =>
      if decide (Z.land (b2z (default x00 (bm !! (i / 8)%nat)))
                        (Z.shiftl 1 (Z.of_nat (i mod 8))) <> 0)
      then {[i]} ∪ slots else slots)
    ∅ (seq 0 NumSlots).

(** ** Fields *)

Definition padString (s : bytes) (n : nat) : bytes :=
  take n s ++ replicate (n - length s) x00.

(** [strings.TrimRight(s, "\x00")]. *)
Definition TrimRight0 (s : bytes) : bytes :=
  reverse ((fix go (l : bytes) :=
     match l with
     | x00 :: l' => go l'
     | _ => l
     end) (reverse s)).

Definition next (n : nat) (s : bytes) : bytes * bytes := (take n s, drop n s).

(** ** Packets *)

Definition write_gossip (g : GossipEntry) : bytes :=
  padString (gNodeID g) 40 ++ padString (gIP g) 16 ++ put_be 2 (gPort g) ++
  put_be 2 (gBusPort g) ++ put_be 2 (gFlags g) ++ put_be 8 (uint64 (gPingSent g)) ++
  put_be 8 (uint64 (gPongRecv g)).

Definition WritePacket (p : BusPacket) : bytes :=
  (BusMagic ++ [z2b (Type_ p); x00] ++ put_be 8 (Epoch p) ++ padString (SenderID p) 40 ++
   padString (SenderIP p) 16 ++ put_be 2 (Port p) ++ put_be 2 (BusPort p) ++ put_be 2 (Flags p) ++
   Slots p ++ padString (TargetNodeID p) 40 ++ put_be 8 (ReqEpoch p) ++
   put_be 2 (uint16 (Z.of_nat (length (Gossip p))))) ++
  concat (write_gossip <$> Gossip p).

Inductive bus_error := ErrShort | ErrMagic.

Definition read_gossip (s : bytes) : GossipEntry * bytes :=
  let '(id, s) := next 40 s in
  let '(ip, s) := next 16 s in
  let '(port, s) := next 2 s in
  let '(bus, s) := next 2 s in
  let '(flags, s) := next 2 s in
  let '(ping, s) := next 8 s in
  let '(pong, s) := next 8 s in
  (mkGossip (TrimRight0 id) (TrimRight0 ip) (get_be port) (get_be bus) (get_be flags)
     (int64 (get_be ping)) (int64 (get_be pong)), s).

Fixpoint read_gossips (n : nat) (s : bytes) : list GossipEntry :=
  match n with
  | O => []
  | S n' => let '(g, s) := read_gossip s in g :: read_gossips n' s
  end.

(** [io.ReadFull(r, buf)] for a buffer of [n] bytes. *)
Definition ReadFull (n : Z) (s : bytes) : res bus_error (bytes * bytes) :=
  if Z.of_nat (length s) <? n then Err ErrShort
  else Ok (take (Z.to_nat n) s, drop (Z.to_nat n) s).

Definition ReadPacket (r : bytes) : res bus_error (BusPacket * bytes) :=
  '(hdr, r) ← ReadFull 2174 r;
  let '(magic, hdr) := next 4 hdr in
  if decide (magic = BusMagic) then
    let '(type, hdr) := next 1 hdr in
    let '(_, hdr) := next 1 hdr in
    let '(epoch, hdr) := next 8 hdr in
    let '(sid, hdr) := next 40 hdr in
    let '(sip, hdr) := next 16 hdr in
    let '(port, hdr) := next 2 hdr in
    let '(bus, hdr) := next 2 hdr in
    let '(flags, hdr) := next 2 hdr in
    let '(slots, hdr) := next (Z.to_nat 2048) hdr in
    let '(target, hdr) := next 40 hdr in
    let '(reqEpoch, hdr) := next 8 hdr in
    let gossipCount := get_be hdr in
    let p := mkPacket (get_be type) (get_be epoch) (TrimRight0 sid) (TrimRight0 sip)
               (get_be port) (get_be bus) (get_be flags) slots [] (TrimRight0 target)
               (get_be reqEpoch) in
    if 0 <? gossipCount then
      '(buf, r) ← ReadFull (gossipCount * 78) r;
      Ok (mkPacket (Type_ p) (Epoch p) (SenderID p) (SenderIP p) (Port p) (BusPort p) (Flags p)
            (Slots p) (read_gossips (Z.to_nat gossipCount) buf) (TargetNodeID p) (ReqEpoch p), r)
    else Ok (p, r)
  else Err ErrMagic.

(** ** Bitmaps are faithful *)

(** Bit [i] of a bitmap. *)
Definition bit (bm : bytes) (i : nat) : bool :=
  Z.testbit (b2z (default x00 (bm !! (i / 8)%nat))) (Z.of_nat (i mod 8)).

Lemma land_pow2_bit z k : 0 <= k -> Z.land z (Z.shiftl 1 k) <> 0 <-> Z.testbit z k = true.
Proof.
  intros Hk. rewrite Z.shiftl_1_l. split.
  - intros H. destruct (Z.testbit z k) eqn:E; [done|]. exfalso. apply H.
    apply Z.bits_inj'. intros n Hn. rewrite Z.land_spec, Z.testbit_0_l.
    destruct (decide (n = k)) as [->|]; [by rewrite E|].
    rewrite Z.pow2_bits_false by lia. apply andb_false_r.
  - intros H E. apply (f_equal (fun x => Z.testbit x k)) in E.
    rewrite Z.land_spec, Z.pow2_bits_true, H in E by done. by rewrite Z.testbit_0_l in E.
Qed.

Lemma set_bit_testbit b k j :
  0 <= k < 8 -> 0 <= j ->
  Z.testbit (b2z (z2b (Z.lor (b2z b) (Z.shiftl 1 k)))) j = Z.testbit (b2z b) j || (j =? k).
Proof.
  intros Hk Hj. rewrite b2z_z2b. change 256 with (2 ^ 8). pose proof (b2z_range b) as Hb.
  destruct (Z.ltb_spec j 8).
  - rewrite Z.mod_pow2_bits_low by lia. rewrite Z.lor_spec, Z.shiftl_1_l, Z.pow2_bits_eqb by lia.
    by rewrite (Z.eqb_sym k j).
  - rewrite Z.mod_pow2_bits_high by lia. rewrite (proj2 (Z.eqb_neq j k)) by lia.
    rewrite orb_false_r. symmetry. apply Z.bits_above_log2; [lia|].
    destruct (Z.eq_dec (b2z b) 0) as [->|]; [cbn; lia|].
    apply Z.log2_lt_pow2; [lia|]. assert (2 ^ 8 <= 2 ^ j) by (apply Z.pow_le_mono_r; lia). lia.
Qed.

Lemma bit_set bm n i :
  (n / 8 < length bm)%nat ->
  bit (alter (fun b => z2b (Z.lor (b2z b) (Z.shiftl 1 (Z.of_nat (n mod 8))))) (n / 8)%nat bm) i
  = bit bm i || bool_decide (i = n).
Proof.
  intros Hl. unfold bit.
  pose proof (Nat.mod_upper_bound i 8 ltac:(lia)). pose proof (Nat.mod_upper_bound n 8 ltac:(lia)).
  pose proof (Nat.div_mod_eq i 8). pose proof (Nat.div_mod_eq n 8).
  destruct (decide (i / 8 = n / 8)%nat) as [E|E].
  - rewrite E, list_lookup_alter_eq.
    destruct (lookup_lt_is_Some_2 bm (n / 8)%nat Hl) as [b Hb]. rewrite Hb.
    cbn [fmap option_fmap option_map default].
    etrans; [apply set_bit_testbit; lia|]. f_equal.
    case_bool_decide; [apply Z.eqb_eq|apply Z.eqb_neq]; lia.
  - rewrite list_lookup_alter_ne by done.
    rewrite bool_decide_false by (intros ->; done). by rewrite orb_false_r.
Qed.

Lemma SlotsToBitmap_loop (slots : gset nat) (n : nat) :
  (n <= NumSlots)%nat ->
  let bm := foldl (fun bm i =>
      if decide (i ∈ slots)
      then alter (fun b => z2b (Z.lor (b2z b) (Z.shiftl 1 (Z.of_nat (i mod 8))))) (i / 8)%nat bm
      else bm) (replicate (Z.to_nat 2048) x00) (seq 0 n) in
  length bm = Z.to_nat 2048 /\
  forall i, bit bm i = bool_decide (i ∈ slots /\ (i < n)%nat).
Proof.
  induction n as [|n IH]; intros Hn.
  { cbn [seq foldl]. split; [apply length_replicate|]. intros i.
    rewrite bool_decide_false by lia. unfold bit.
    destruct (replicate _ x00 !! (i / 8)%nat) as [b|] eqn:E; cbn [default].
    - apply lookup_replicate in E as [-> _]. apply Z.testbit_0_l.
    - apply Z.testbit_0_l. }
  rewrite seq_S, foldl_app. cbn [foldl plus].
  destruct IH as [Hlen Hbit]; [lia|]. set (bm := foldl _ _ (seq 0 n)) in *.
  case_decide as Hin.
  - split; [by rewrite length_alter|]. intros i. rewrite bit_set, Hbit.
    + repeat case_bool_decide; naive_solver lia.
    + rewrite Hlen. unfold NumSlots in Hn. apply Nat.Div0.div_lt_upper_bound. lia.
  - split; [done|]. intros i. rewrite Hbit. apply bool_decide_ext.
    split; [intros [? ?]; split; [done|lia]|]. intros [? ?]. split; [done|].
    destruct (decide (i = n)) as [->|]; [done|lia].
Qed.

Lemma BitmapToSlots_elem bm i :
  i ∈ BitmapToSlots bm <-> (i < NumSlots)%nat /\ bit bm i = true.
Proof.
  unfold BitmapToSlots. generalize NumSlots. intros n.
  induction n as [|n IH]; [set_solver by lia|].
  rewrite seq_S, foldl_app. cbn [foldl plus]. set (s := foldl _ _ (seq 0 n)) in *.
  case_decide as Hd.
  - apply land_pow2_bit in Hd; [|lia]. rewrite elem_of_union, elem_of_singleton, IH.
    split; [intros [->|[? ?]]; split; (done || lia)|]. intros [? ?].
    destruct (decide (i = n)) as [->|]; [by left|right; split; [lia|done]].
  - assert (bit bm n <> true) as Hn.
    { intros Hb. apply land_pow2_bit in Hb; [done|lia]. }
    rewrite IH. split; [intros [? ?]; split; [lia|done]|].
    intros [? Hb]. split; [|done]. destruct (decide (i = n)) as [->|]; [done|lia].
Qed.

Lemma Bitmap_roundtrip slots :
  (forall i, i ∈ slots -> (i < NumSlots)%nat) ->
  BitmapToSlots (SlotsToBitmap slots) = slots /\ length (SlotsToBitmap slots) = Z.to_nat 2048.
Proof.
  intros Hs. destruct (SlotsToBitmap_loop slots NumSlots ltac:(lia)) as [Hl Hb]. split; [|done].
  apply set_eq. intros i. rewrite BitmapToSlots_elem. unfold SlotsToBitmap. rewrite Hb.
  rewrite bool_decide_eq_true. split; [intros (_ & ? & _); done|].
  intros Hi. split; [by apply Hs|]. split; [done|]. by apply Hs.
Qed.

(** ** Fields are read back *)

(** A text that fits its field and does not end in NUL. *)
Definition fits (s : bytes) (n : nat) : Prop := (length s <= n)%nat /\ last s <> Some x00.

Lemma length_padString s n : length (padString s n) = n.
Proof. unfold padString. rewrite length_app, length_take, length_replicate. lia. Qed.

Lemma TrimRight0_pad s n : fits s n -> TrimRight0 (padString s n) = s.
Proof.
  intros [Hl Hz]. unfold padString, TrimRight0. rewrite take_ge by done.
  rewrite reverse_app, reverse_replicate. generalize (n - length s)%nat. intros k.
  induction k as [|k IH]; [|exact IH]. cbn [replicate app].
  destruct s as [|b s _] using rev_ind; [done|].
  rewrite last_snoc in Hz. rewrite reverse_snoc. rewrite <- (reverse_involutive (s ++ [b])).
  rewrite reverse_snoc. f_equal. by destruct b.
Qed.

Lemma next_app n x r : length x = n -> next n (x ++ r) = (x, r).
Proof. intros <-. unfold next. by rewrite take_app_length, drop_app_length. Qed.

(** ** Packets are read back *)

Definition is_uint16 (z : Z) : Prop := 0 <= z < 2 ^ 16.

Record gossip_ok (g : GossipEntry) : Prop := {
  go_id : fits (gNodeID g) 40;
  go_ip : fits (gIP g) 16;
  go_port : is_uint16 (gPort g);
  go_bus : is_uint16 (gBusPort g);
  go_flags : is_uint16 (gFlags g);
  go_ping : is_int64 (gPingSent g);
  go_pong : is_int64 (gPongRecv g)
}.

Record packet_ok (p : BusPacket) : Prop := {
  po_type : 0 <= Type_ p < 256;
  po_epoch : is_uint64 (Epoch p);
  po_sid : fits (SenderID p) 40;
  po_sip : fits (SenderIP p) 16;
  po_port : is_uint16 (Port p);
  po_bus : is_uint16 (BusPort p);
  po_flags : is_uint16 (Flags p);
  po_slots : length (Slots p) = Z.to_nat 2048;
  po_gossip : Forall gossip_ok (Gossip p);
  po_count : Z.of_nat (length (Gossip p)) < 2 ^ 16;
  po_target : fits (TargetNodeID p) 40;
  po_req : is_uint64 (ReqEpoch p)
}.

Lemma int64_uint64 z : is_int64 z -> int64 (uint64 z) = z.
Proof.
  unfold is_int64, int64, uint64. intros Hz.
  rewrite Z.add_mod_idemp_l by lia. rewrite Z.mod_small; lia.
Qed.

Lemma length_write_gossip g : length (write_gossip g) = 78%nat.
Proof.
  unfold write_gossip. rewrite !length_app, !length_padString, !length_put_be. done.
Qed.

Lemma read_write_gossip g r : gossip_ok g -> read_gossip (write_gossip g ++ r) = (g, r).
Proof.
  intros []. unfold read_gossip, write_gossip. rewrite <- !app_assoc.
  repeat (rewrite next_app by (apply length_padString || apply length_put_be)).
  rewrite !TrimRight0_pad by done.
  rewrite !(get_put_be 2) by done. rewrite !(get_put_be 8) by apply uint64_range.
  rewrite !int64_uint64 by done. by destruct g.
Qed.

Lemma read_write_gossips gs :
  Forall gossip_ok gs -> read_gossips (length gs) (concat (write_gossip <$> gs)) = gs.
Proof.
  induction 1 as [|g gs Hg _ IH]; [done|]. rewrite fmap_cons. cbn [concat length read_gossips].
  rewrite read_write_gossip by done. by rewrite IH.
Qed.

Lemma length_write_gossips gs :
  Z.of_nat (length (concat (write_gossip <$> gs))) = Z.of_nat (length gs) * 78.
Proof.
  induction gs as [|g gs IH]; [done|]. rewrite fmap_cons. cbn [concat length].
  rewrite length_app, length_write_gossip. lia.
Qed.

Lemma ReadFull_prefix n x r : Z.of_nat (length x) = n -> ReadFull n (x ++ r) = Ok (x, r).
Proof.
  intros <-. unfold ReadFull. rewrite (proj2 (Z.ltb_ge _ _)) by (rewrite length_app; lia).
  by rewrite Nat2Z.id, take_app_length, drop_app_length.
Qed.

(** A packet written to the bus is read back unchanged, and the reader stops
    exactly at its end, whatever follows it; the slot bitmap it carries gives
    back the slots it was built from.  The conditions are those of the fixed
    fields: texts that fit and do not end in NUL, at most 65535 gossip entries. *)
Theorem packet_roundtrip p slots rest :
  packet_ok p -> (forall i, i ∈ slots -> (i < NumSlots)%nat) -> Slots p = SlotsToBitmap slots ->
  ReadPacket (WritePacket p ++ rest) = Ok (p, rest) /\ BitmapToSlots (Slots p) = slots.
Proof.
  intros Hp Hs Eslots. split; [|rewrite Eslots; by apply Bitmap_roundtrip].
  clear Hs Eslots. destruct Hp. unfold ReadPacket, WritePacket. rewrite <- app_assoc.
  rewrite ReadFull_prefix.
  2: { rewrite !length_app, !length_padString, !length_put_be, po_slots0.
       change (length BusMagic) with 4%nat. cbn [length]. lia. }
  cbn [mbind res_bind].
  rewrite (next_app 4 BusMagic) by done. rewrite decide_True by done.
  change ([z2b (Type_ p); x00] ++ ?l) with ([z2b (Type_ p)] ++ [x00] ++ l).
  repeat (rewrite next_app by (done || apply length_padString || apply length_put_be)).
  rewrite get_put_be by (apply Z.mod_pos_bound; lia).
  unfold uint16. rewrite (Z.mod_small (Z.of_nat _)) by lia.
  rewrite !TrimRight0_pad by done. rewrite !(get_put_be 2), !(get_put_be 8) by done.
  assert (get_be [z2b (Type_ p)] = Type_ p) as ->.
  { unfold get_be. cbn [foldl]. rewrite b2z_z2b, Z.mod_small; lia. }
  destruct (Z.ltb_spec 0 (Z.of_nat (length (Gossip p)))) as [Hpos|Hz].
  - rewrite ReadFull_prefix by apply length_write_gossips. cbn [mbind res_bind].
    rewrite Nat2Z.id, read_write_gossips by done. by destruct p.
  - destruct p; cbn in *. destruct Gossip0; [done|cbn in Hz; lia].
Qed.

Definition ping : BusPacket :=
  mkPacket TypePing 7 (str "n1") (str "127.0.0.1") 7379 17379 FlagMaster (SlotsToBitmap {[5%nat]})
    [mkGossip (str "n2") (str "127.0.0.2") 7380 17380 FlagSlave 0 1700000000000] [] 0.

Lemma packet_roundtrip_witness : ReadPacket (WritePacket ping ++ []) = Ok (ping, []).
Proof.
  refine (proj1 (packet_roundtrip ping {[5%nat]} [] _ _ _)); [| |unfold ping; cbn [Slots]; reflexivity].
  - assert (length (SlotsToBitmap {[5%nat]}) = Z.to_nat 2048) as Hlen.
    { apply Bitmap_roundtrip. intros i ->%elem_of_singleton. unfold NumSlots. lia. }
    split; cbn [Type_ Epoch SenderID SenderIP Port BusPort Flags TargetNodeID ReqEpoch Gossip
                Slots ping];
      lazymatch goal with
      | |- length (SlotsToBitmap _) = _ => exact Hlen
      | |- Forall _ _ => clear Hlen
      | |- fits _ _ => clear Hlen; split; [cbn; lia|vm_compute; discriminate]
      | |- Z.of_nat _ < _ => clear Hlen; by vm_compute
      | |- _ => clear Hlen; split; by vm_compute
      end.
    constructor; [|constructor].
    split; cbn [gNodeID gIP gPort gBusPort gFlags gPingSent gPongRecv];
      first [split; by vm_compute | split; [cbn; lia|vm_compute; discriminate]].
  - intros i ->%elem_of_singleton. unfold NumSlots. lia.
Defined.
