(* ===== verification/Node.v ===== *)
(** * Cluster nodes and their text form (internal/cluster/node.go)

    The node descriptor, its [CLUSTER NODES] line, and the parser of slot
    ranges.  A [[16384]bool] is the set of the indices that are true.  The random
    node identifier and the clock are arguments of [NewNode]. *)

From S2P Require Import Prelude Bus.

Record ClusterNode := mkNode {
  ID : bytes;
  IP : bytes;
  Port : Z;
  BusPort : Z;
  Role : bytes;
  MasterID : bytes;
  Slots : gset nat;
  Epoch : Z;
  LinkState : bytes;
  PingSent : Z;
  PongRecv : Z;
  PFail : bool;
  Fail : bool
}.

Definition master : bytes := str "master".
Definition slave : bytes := str "slave".

Definition NewNode (gen : bytes) (now : Z) (id ip : bytes) (port busPort : Z) (role : bytes)
    : ClusterNode :=
  let id := if decide (id = []) then gen else id in
  let ip := if decide (ip = []) then str "127.0.0.1" else ip in
  let busPort := if busPort <=? 0 then int64 (port + 10000) else busPort in
  let role := if decide (role = []) then master else role in
  mkNode id ip port busPort role (str "-") ∅ 1 (str "connected") 0 now false false.

Definition SlotsList (n : ClusterNode) : list Z :=
  Z.of_nat <$> filter (fun i => i ∈ Slots n) (seq 0 NumSlots).

Definition SlotCount (n : ClusterNode) : Z :=
  foldl (fun cnt i => if decide (i ∈ Slots n) then int64 (cnt + 1) else cnt) 0 (seq 0 NumSlots).

(** One range: ["%d"] or ["%d-%d"]. *)
Definition format_range (start prev : Z) : bytes :=
  if start =? prev then FormatUint start else FormatUint start ++ "-"%byte :: FormatUint prev.

Fixpoint ranges_loop (slots : list Z) (start prev : Z) (ranges : list bytes) : list bytes :=
  match slots with
  | [] => ranges ++ [format_range start prev]
  | curr :: slots' =>
      if curr =? uint16 (prev + 1) then ranges_loop slots' start curr ranges
      else ranges_loop slots' curr curr (ranges ++ [format_range start prev])
  end.

Definition SlotRangesString (n : ClusterNode) : bytes :=
  match SlotsList n with
  | [] => []
  | s :: slots => Join (ranges_loop slots s s []) (str " ")
  end.

Definition FormatNodeLine (n : ClusterNode) (isMyself : bool) : bytes :=
  let flags := (if isMyself then [str "myself"] else []) ++ [Role n] ++
    (if Fail n then [str "fail"] else if PFail n then [str "fail?"] else []) in
  let masterID := if decide (MasterID n = []) then str "-" else MasterID n in
  let slotStr := if decide (Role n = master) then SlotRangesString n else [] in
  let line := Join [ID n; IP n ++ ":"%byte :: FormatInt (Port n) ++ "@"%byte :: FormatInt (BusPort n);
                    Join flags (str ","); masterID; FormatInt (PingSent n); FormatInt (PongRecv n);
                    FormatUint (Epoch n); LinkState n] (str " ") in
  if decide (slotStr = []) then line else line ++ str " " ++ slotStr.

(** ** Parsing slot ranges *)

(** [%d] of [fmt.Sscanf] into a [uint16]: the digits at the head of the text,
    and what follows them. *)
Fixpoint take_digits (s : bytes) : bytes * bytes :=
  match s with
  | c :: s' => if is_digit c then let '(d, r) := take_digits s' in (c :: d, r) else ([], s)
  | [] => ([], [])
  end.

Definition scan_uint16 (s : bytes) : option (Z * bytes) :=
  match take_digits s with
  | ([], _) => None
  | (d, r) =>
      match ParseUint d with
      | Ok v => if v <? 2 ^ 16 then Some (v, r) else None
      | Err _ => None
      end
  end.

(** [for s := start; s <= end; s++]. *)
Definition slot_range (start end' : Z) : list Z :=
  (fun i => start + Z.of_nat i) <$> seq 0 (Z.to_nat (end' - start + 1)).

(** One space-separated part; [None] is the error "invalid slot". *)
Definition parse_part (p : bytes) : option (list Z) :=
  if decide ("-"%byte ∈ p) then
    '(start, r) ← scan_uint16 p;
    match r with
    | "-"%byte :: r' =>
        '(end', _) ← scan_uint16 r';
        if (start >? end') || (end' >=? 16384) then None else Some (slot_range start end')
    | _ => None
    end
  else
    '(s, _) ← scan_uint16 p;
    if s >=? 16384 then None else Some [s].

Fixpoint parse_parts (ps : list bytes) (slots : list Z) : option (list Z) :=
  match ps with
  | [] => Some slots
  | p :: ps' => s ← parse_part p; parse_parts ps' (slots ++ s)
  end.

Definition ParseSlotRanges (spec : bytes) : option (list Z) :=
  sort_slice Z.ltb <$> parse_parts (Fields spec) [].

(** ** Ranges *)

Lemma take_digits_app d r :
  Forall (fun c => is_digit c = true) d ->
  (forall c r', r = c :: r' -> is_digit c = false) -> take_digits (d ++ r) = (d, r).
Proof.
  intros Hd Hr. induction Hd as [|c d Hc Hd IH]; cbn [app take_digits].
  - destruct r as [|c r]; [done|]. cbn. by rewrite (Hr c r).
  - by rewrite Hc, IH.
Qed.

Lemma scan_format v r :
  0 <= v < 2 ^ 16 -> (forall c r', r = c :: r' -> is_digit c = false) ->
  scan_uint16 (FormatUint v ++ r) = Some (v, r).
Proof.
  intros Hv Hr. unfold scan_uint16.
  rewrite take_digits_app by (done || apply FormatUint_digits; lia).
  destruct (FormatUint v) eqn:E; [by apply FormatUint_nonempty in E|]. rewrite <- E.
  rewrite ParseUint_FormatUint by (unfold is_uint64; lia).
  by rewrite (proj2 (Z.ltb_lt _ _)) by lia.
Qed.

Lemma slot_range_single a : slot_range a a = [a].
Proof.
  unfold slot_range. replace (Z.to_nat (a - a + 1)) with 1%nat by lia.
  cbn [seq fmap list_fmap]. f_equal. lia.
Qed.

Lemma parse_format_range a b :
  0 <= a <= b -> b < 16384 -> parse_part (format_range a b) = Some (slot_range a b).
Proof.
  intros Ha Hb. unfold format_range, parse_part. destruct (Z.eqb_spec a b) as [->|Hne].
  - rewrite decide_False by (apply FormatUint_no_byte; [lia|done]).
    rewrite <- (app_nil_r (FormatUint b)), scan_format by (done || lia). cbn [mbind option_bind].
    case_match eqn:Hc; [lia|]. by rewrite slot_range_single.
  - rewrite decide_True by set_solver.
    rewrite scan_format; [|lia|by intros c r' [= <- <-]]. cbn [mbind option_bind].
    rewrite <- (app_nil_r (FormatUint b)), scan_format by (done || lia). cbn [mbind option_bind].
    case_match eqn:Hc; [lia|]. done.
Qed.

Lemma slot_range_snoc a b : a <= b -> slot_range a b ++ [b + 1] = slot_range a (b + 1).
Proof.
  intros Hab. unfold slot_range. replace (Z.to_nat (b + 1 - a + 1)) with (S (Z.to_nat (b - a + 1))) by lia.
  rewrite seq_S, fmap_app. cbn [fmap list_fmap]. do 2 f_equal. lia.
Qed.

Lemma parse_parts_app ps qs slots :
  parse_parts (ps ++ qs) slots = (s ← parse_parts ps slots; parse_parts qs s).
Proof.
  revert slots; induction ps as [|p ps IH]; intros slots; cbn [app parse_parts]; [done|].
  destruct (parse_part p); cbn [mbind option_bind]; [apply IH|done].
Qed.

(** The printed ranges of an increasing list parse to the list. *)
Lemma ranges_loop_parse slots start prev ranges done' :
  parse_parts ranges [] = Some done' ->
  0 <= start <= prev -> prev < 16384 ->
  Forall (fun s => prev < s < 16384) slots -> StronglySorted Z.lt slots ->
  parse_parts (ranges_loop slots start prev ranges) [] = Some (done' ++ slot_range start prev ++ slots).
Proof.
  revert start prev ranges done'; induction slots as [|curr slots IH];
    intros start prev ranges done' Hr Hsp Hp HF Hs; cbn [ranges_loop].
  - rewrite parse_parts_app, Hr. cbn [mbind option_bind parse_parts].
    rewrite parse_format_range by lia. cbn. by rewrite app_nil_r.
  - apply Forall_cons in HF as [Hc HF]. apply StronglySorted_inv in Hs as [Hs Hall].
    assert (Forall (fun s => curr < s < 16384) slots) as HF'.
    { rewrite Forall_forall in *. intros s Hin. specialize (HF s Hin). specialize (Hall s Hin).
      cbn in *. lia. }
    unfold uint16. rewrite Z.mod_small by lia. destruct (Z.eqb_spec curr (prev + 1)) as [->|Hne].
    + rewrite (IH start (prev + 1) ranges done') by (done || lia). f_equal. f_equal.
      rewrite <- slot_range_snoc by lia. by rewrite <- app_assoc.
    + rewrite (IH curr curr _ (done' ++ slot_range start prev)); try (done || lia).
      * rewrite slot_range_single. by rewrite <- !app_assoc.
      * rewrite parse_parts_app, Hr. cbn [mbind option_bind parse_parts].
        by rewrite parse_format_range by lia.
Qed.

Lemma digit_word c : is_digit c = true -> word_byte c.
Proof. unfold word_byte. intros H%is_digit_spec. lia. Qed.

Lemma format_range_word a b :
  0 <= a -> 0 <= b -> format_range a b <> [] /\ Forall word_byte (format_range a b).
Proof.
  intros Ha Hb. assert (forall v, 0 <= v -> Forall word_byte (FormatUint v)) as HF.
  { intros v Hv. eapply list.Forall_impl; [by apply FormatUint_digits|]. apply digit_word. }
  unfold format_range. case_match.
  - split; [apply FormatUint_nonempty|auto].
  - split; [by destruct (FormatUint a)|]. apply Forall_app. split; [auto|].
    constructor; [unfold word_byte; cbn; lia|auto].
Qed.

Lemma ranges_loop_words slots start prev ranges :
  Forall (fun w => w <> [] /\ Forall word_byte w) ranges ->
  0 <= start -> 0 <= prev -> Forall (fun s => 0 <= s) slots ->
  Forall (fun w => w <> [] /\ Forall word_byte w) (ranges_loop slots start prev ranges).
Proof.
  revert start prev ranges; induction slots as [|c slots IH]; intros start prev ranges Hr Hs Hp HF;
    cbn [ranges_loop].
  - apply Forall_app. split; [done|]. constructor; [by apply format_range_word|constructor].
  - apply Forall_cons in HF as [Hc HF]. case_match; apply IH; try done.
    apply Forall_app. split; [done|]. constructor; [by apply format_range_word|constructor].
Qed.

Lemma sort_sorted l : StronglySorted Z.lt l -> sort_slice Z.ltb l = l.
Proof.
  induction 1 as [|x l Hl IH Hx]; [done|]. unfold sort_slice in *. cbn [foldr]. rewrite IH.
  destruct l as [|y l]; [done|]. cbn. apply Forall_cons in Hx as [Hxy _].
  by rewrite (proj2 (Z.ltb_lt _ _)).
Qed.

Lemma SlotsList_sorted n :
  StronglySorted Z.lt (SlotsList n) /\ Forall (fun s => 0 <= s < 16384) (SlotsList n).
Proof.
  unfold SlotsList. split.
  - assert (forall a k, StronglySorted Z.lt (Z.of_nat <$> filter (fun i => i ∈ Slots n) (seq a k))) as H;
      [|apply H].
    intros a k; revert a; induction k as [|k IH]; intros a; [constructor|]. cbn [seq].
    rewrite filter_cons. case_decide; [|apply IH]. rewrite fmap_cons. constructor; [apply IH|].
    apply Forall_forall. intros z Hz. apply list_elem_of_fmap in Hz as (i & -> & Hi).
    apply list_elem_of_filter in Hi as [_ Hi]. apply elem_of_seq in Hi. lia.
  - apply Forall_forall. intros z Hz. apply list_elem_of_fmap in Hz as (i & -> & Hi).
    apply list_elem_of_filter in Hi as [_ Hi]. apply elem_of_seq in Hi. unfold NumSlots in Hi. lia.
Qed.

(** The slot ranges that a node prints in CLUSTER NODES and in its
    configuration file are parsed back to exactly the slots it owns. *)
Theorem SlotRanges_roundtrip n : ParseSlotRanges (SlotRangesString n) = Some (SlotsList n).
Proof.
  destruct (SlotsList_sorted n) as [Hs HF]. unfold ParseSlotRanges, SlotRangesString.
  destruct (SlotsList n) as [|s slots] eqn:E; [done|].
  pose proof Hs as Hs0. apply StronglySorted_inv in Hs as [Hs Hall].
  pose proof HF as HF0. apply Forall_cons in HF as [Hr HF].
  rewrite Fields_Join.
  - rewrite (ranges_loop_parse slots s s [] []); try (done || lia).
    + cbn [fmap option_fmap option_map]. rewrite slot_range_single. cbn [app].
      by rewrite sort_sorted.
    + rewrite Forall_forall in *. intros z Hz. specialize (HF z Hz). specialize (Hall z Hz).
      cbn in *. lia.
  - apply ranges_loop_words; try lia; [constructor|].
    eapply list.Forall_impl; [exact HF|]. cbn. lia.
Qed.
