(* ===== verification/Cluster.v ===== *)
(** * The cluster manager (internal/cluster/cluster.go, internal/cluster/gossip.go)

    Membership, slot ownership, slot migration states, the gossip bus handlers,
    failure detection, voting and promotion of one node.

    Nodes are objects shared by [Nodes], [SlotMap] and [Self]: they live in a
    store, and the maps hold locations.  Slot arrays are sets of indices and a
    [SlotMap] entry that is [nil] is absent from the map.  The clock, random
    identifiers and the iteration order over [Nodes] are arguments.  The
    configuration file is its text; sending and receiving packets is not
    modelled, only the handlers and the packets. *)

From S2P Require Import Prelude Bus Node.

Inductive cluster_error :=
| ErrSlotRange (s : nat)
| ErrSlotBusy (s : nat) (id : bytes)
| ErrNotOwned (s : nat)
| ErrUnknownNode (id : bytes)
| ErrRemoveSelf
| ErrReplicateSelf
| ErrNotMaster
| ErrSetSlotAction.

Record ClusterManager := mkCM {
  Self : positive;
  Nodes : gmap bytes positive;
  SlotMap : gmap nat positive;
  store : gmap positive ClusterNode;
  CurrentEpoch : Z;
  LastVoteEpoch : Z;
  MigratingSlots : gmap nat bytes;
  ImportingSlots : gmap nat bytes;
  NodeTimeout : Z;
  failReports : gmap bytes (gmap bytes Z);
  ConfigText : bytes
}.

(** ** Access to the shared nodes *)

Definition nilNode : ClusterNode :=
  mkNode [] [] 0 0 [] [] ∅ 0 [] 0 0 false false.

(** [*l]. *)
Definition deref (cm : ClusterManager) (l : positive) : ClusterNode :=
  default nilNode (store cm !! l).

Definition self (cm : ClusterManager) : ClusterNode := deref cm (Self cm).

Definition update (f : ClusterNode -> ClusterNode) (l : positive) (cm : ClusterManager) : ClusterManager :=
  mkCM (Self cm) (Nodes cm) (SlotMap cm) (alter f l (store cm)) (CurrentEpoch cm) (LastVoteEpoch cm)
    (MigratingSlots cm) (ImportingSlots cm) (NodeTimeout cm) (failReports cm) (ConfigText cm).

Definition set_slotmap (m : gmap nat positive) (cm : ClusterManager) : ClusterManager :=
  mkCM (Self cm) (Nodes cm) m (store cm) (CurrentEpoch cm) (LastVoteEpoch cm)
    (MigratingSlots cm) (ImportingSlots cm) (NodeTimeout cm) (failReports cm) (ConfigText cm).

Definition set_nodes (m : gmap bytes positive) (cm : ClusterManager) : ClusterManager :=
  mkCM (Self cm) m (SlotMap cm) (store cm) (CurrentEpoch cm) (LastVoteEpoch cm)
    (MigratingSlots cm) (ImportingSlots cm) (NodeTimeout cm) (failReports cm) (ConfigText cm).

Definition set_migration (mig imp : gmap nat bytes) (cm : ClusterManager) : ClusterManager :=
  mkCM (Self cm) (Nodes cm) (SlotMap cm) (store cm) (CurrentEpoch cm) (LastVoteEpoch cm)
    mig imp (NodeTimeout cm) (failReports cm) (ConfigText cm).

Definition set_epochs (current vote : Z) (cm : ClusterManager) : ClusterManager :=
  mkCM (Self cm) (Nodes cm) (SlotMap cm) (store cm) current vote
    (MigratingSlots cm) (ImportingSlots cm) (NodeTimeout cm) (failReports cm) (ConfigText cm).

Definition set_reports (r : gmap bytes (gmap bytes Z)) (cm : ClusterManager) : ClusterManager :=
  mkCM (Self cm) (Nodes cm) (SlotMap cm) (store cm) (CurrentEpoch cm) (LastVoteEpoch cm)
    (MigratingSlots cm) (ImportingSlots cm) (NodeTimeout cm) r (ConfigText cm).

(** Allocates a node and registers it under [id]. *)
Definition add_object (id : bytes) (n : ClusterNode) (cm : ClusterManager) : ClusterManager * positive :=
  let l := fresh (dom (store cm)) in
  (mkCM (Self cm) (<[id := l]> (Nodes cm)) (SlotMap cm) (<[l := n]> (store cm)) (CurrentEpoch cm)
     (LastVoteEpoch cm) (MigratingSlots cm) (ImportingSlots cm) (NodeTimeout cm) (failReports cm)
     (ConfigText cm), l).

Definition with_slots (f : gset nat -> gset nat) (n : ClusterNode) : ClusterNode :=
  mkNode (ID n) (IP n) (Port n) (BusPort n) (Role n) (MasterID n) (f (Slots n)) (Epoch n)
    (LinkState n) (PingSent n) (PongRecv n) (PFail n) (Fail n).

Definition with_role (role masterID : bytes) (n : ClusterNode) : ClusterNode :=
  mkNode (ID n) (IP n) (Port n) (BusPort n) role masterID (Slots n) (Epoch n)
    (LinkState n) (PingSent n) (PongRecv n) (PFail n) (Fail n).

Definition with_health (pfail fail : bool) (link : bytes) (pong : Z) (n : ClusterNode) : ClusterNode :=
  mkNode (ID n) (IP n) (Port n) (BusPort n) (Role n) (MasterID n) (Slots n) (Epoch n)
    link (PingSent n) pong pfail fail.

(** [l.Slots[s] = true] and [l.Slots[s] = false]. *)
Definition slot_on (l : positive) (s : nat) : ClusterManager -> ClusterManager :=
  update (with_slots (fun S => {[s]} ∪ S)) l.
Definition slot_off (l : positive) (s : nat) : ClusterManager -> ClusterManager :=
  update (with_slots (fun S => S ∖ {[s]})) l.

(** [cm.SlotMap[s] = l] and [cm.SlotMap[s] = nil]. *)
Definition map_slot (s : nat) (l : positive) (cm : ClusterManager) : ClusterManager :=
  set_slotmap (<[s := l]> (SlotMap cm)) cm.
Definition unmap_slot (s : nat) (cm : ClusterManager) : ClusterManager :=
  set_slotmap (delete s (SlotMap cm)) cm.

(** ** The configuration file *)

Definition LF : bytes := [x0a].

(** The peers' identifiers, sorted ([sort.Strings]). *)
Definition peerIDs (cm : ClusterManager) : list bytes :=
  sort_slice bytes_ltb (filter (fun id => id <> ID (self cm)) (map_to_list (Nodes cm)).*1).

Definition config_text (cm : ClusterManager) : bytes :=
  FormatNodeLine (self cm) true ++ LF ++
  concat ((fun id => FormatNodeLine (default nilNode (l ← Nodes cm !! id; store cm !! l)) false ++ LF)
            <$> peerIDs cm) ++
  str "vars currentEpoch " ++ FormatUint (CurrentEpoch cm) ++ str " lastVoteEpoch 0" ++ LF.

(** A write that succeeds; every caller but SAVECONFIG ignores its error, which
    leaves the old file. *)
Definition saveConfigLocked (cm : ClusterManager) : ClusterManager :=
  mkCM (Self cm) (Nodes cm) (SlotMap cm) (store cm) (CurrentEpoch cm) (LastVoteEpoch cm)
    (MigratingSlots cm) (ImportingSlots cm) (NodeTimeout cm) (failReports cm) (config_text cm).

(** The manager [NewClusterManager] makes, before it loads the file.  [text] is
    the content of the configuration file on disk. *)
Definition DefaultNodeTimeout : Z := 2000 * 1000000.

Definition InitialManager (gen : bytes) (now : Z) (ip : bytes) (port busPort : Z) (text : bytes)
    : ClusterManager :=
  let ip := if decide (ip = []) then str "127.0.0.1" else ip in
  let port := if port <=? 0 then 7379 else port in
  let busPort := if busPort <=? 0 then int64 (port + 10000) else busPort in
  let n := NewNode gen now [] ip port busPort master in
  mkCM 1%positive {[ID n := 1%positive]} ∅ {[1%positive := n]} 1 0 ∅ ∅ DefaultNodeTimeout ∅ text.

(** ** Slot commands *)

Definition GetSlotOwner (cm : ClusterManager) (slot : nat) : option positive :=
  if (16384 <=? Z.of_nat slot) then None else SlotMap cm !! slot.

(** The validation phase of [AddSlots]: the first error. *)
Fixpoint check_add (cm : ClusterManager) (slots : list nat) : option cluster_error :=
  match slots with
  | [] => None
  | s :: slots' =>
      if 16384 <=? Z.of_nat s then Some (ErrSlotRange s)
      else match SlotMap cm !! s with
           | Some owner =>
               if decide (ID (deref cm owner) <> ID (self cm))
               then Some (ErrSlotBusy s (ID (deref cm owner)))
               else check_add cm slots'
           | None => check_add cm slots'
           end
  end.

Definition AddSlots (cm : ClusterManager) (slots : list nat) : ClusterManager * option cluster_error :=
  match check_add cm slots with
  | Some e => (cm, Some e)
  | None =>
      let cm := foldl (fun cm s => map_slot s (Self cm) (slot_on (Self cm) s cm)) cm slots in
      (saveConfigLocked cm, None)
  end.

(** [if owner := cm.SlotMap[s]; owner != nil && owner.ID != target.ID {
    owner.Slots[s] = false }; target.Slots[s] = true; cm.SlotMap[s] = target]. *)
Definition reassign (target : positive) (s : nat) (cm : ClusterManager) : ClusterManager :=
  let cm :=
    match SlotMap cm !! s with
    | Some owner =>
        if decide (ID (deref cm owner) <> ID (deref cm target)) then slot_off owner s cm else cm
    | None => cm
    end in
  map_slot s target (slot_on target s cm).

Fixpoint assign_loop (target : positive) (slots : list nat) (cm : ClusterManager)
    : ClusterManager * option cluster_error :=
  match slots with
  | [] => (saveConfigLocked cm, None)
  | s :: slots' =>
      if 16384 <=? Z.of_nat s then (cm, Some (ErrSlotRange s))
      else assign_loop target slots' (reassign target s cm)
  end.

Definition AssignSlotsToNode (cm : ClusterManager) (nodeID : bytes) (slots : list nat)
    : ClusterManager * option cluster_error :=
  match Nodes cm !! nodeID with
  | None => (cm, Some (ErrUnknownNode nodeID))
  | Some target => assign_loop target slots cm
  end.

Fixpoint check_del (cm : ClusterManager) (slots : list nat) : option cluster_error :=
  match slots with
  | [] => None
  | s :: slots' =>
      if 16384 <=? Z.of_nat s then Some (ErrSlotRange s)
      else match SlotMap cm !! s with
           | Some owner =>
               if decide (ID (deref cm owner) <> ID (self cm)) then Some (ErrNotOwned s)
               else check_del cm slots'
           | None => Some (ErrNotOwned s)
           end
  end.

Definition DelSlots (cm : ClusterManager) (slots : list nat) : ClusterManager * option cluster_error :=
  match check_del cm slots with
  | Some e => (cm, Some e)
  | None =>
      let cm := foldl (fun cm s => unmap_slot s (slot_off (Self cm) s cm)) cm slots in
      (saveConfigLocked cm, None)
  end.

Definition SetSlot (cm : ClusterManager) (slot : nat) (subcommand targetNodeID : bytes)
    : ClusterManager * option cluster_error :=
  if 16384 <=? Z.of_nat slot then (cm, Some (ErrSlotRange slot))
  else
    let sub := ToUpper subcommand in
    if decide (sub = str "NODE") then
      match Nodes cm !! targetNodeID with
      | None => (cm, Some (ErrUnknownNode targetNodeID))
      | Some target =>
          let cm := reassign target slot cm in
          let cm := set_migration (delete slot (MigratingSlots cm)) (delete slot (ImportingSlots cm)) cm in
          (saveConfigLocked cm, None)
      end
    else if decide (sub = str "MIGRATING") then
      match SlotMap cm !! slot with
      | Some owner =>
          if decide (ID (deref cm owner) <> ID (self cm)) then (cm, Some (ErrNotOwned slot))
          else match Nodes cm !! targetNodeID with
               | None => (cm, Some (ErrUnknownNode targetNodeID))
               | Some _ =>
                   (set_migration (<[slot := targetNodeID]> (MigratingSlots cm)) (ImportingSlots cm) cm, None)
               end
      | None => (cm, Some (ErrNotOwned slot))
      end
    else if decide (sub = str "IMPORTING") then
      match Nodes cm !! targetNodeID with
      | None => (cm, Some (ErrUnknownNode targetNodeID))
      | Some _ =>
          (set_migration (MigratingSlots cm) (<[slot := targetNodeID]> (ImportingSlots cm)) cm, None)
      end
    else if decide (sub = str "STABLE") then
      (set_migration (delete slot (MigratingSlots cm)) (delete slot (ImportingSlots cm)) cm, None)
    else (cm, Some ErrSetSlotAction).

(** ** Membership *)

(** [for i, s := range target.Slots { if s && cm.SlotMap[i] == target {...} }]:
    the slots of the object [l] that it also owns in the slot map. *)
Definition owned_by (cm : ClusterManager) (l : positive) : list nat :=
  filter (fun i => SlotMap cm !! i = Some l) (filter (fun i => i ∈ Slots (deref cm l)) (seq 0 NumSlots)).

Definition AddNode (cm : ClusterManager) (node : ClusterNode) : ClusterManager :=
  let '(cm, l) := add_object (ID node) node cm in
  let cm :=
    if decide (Role node = master)
    then foldl (fun cm i => if decide (i ∈ Slots node) then map_slot i l cm else cm) cm (seq 0 NumSlots)
    else cm in
  saveConfigLocked cm.

Definition RemoveNode (cm : ClusterManager) (nodeID : bytes) : ClusterManager * option cluster_error :=
  if decide (nodeID = ID (self cm)) then (cm, Some ErrRemoveSelf)
  else
    match Nodes cm !! nodeID with
    | None => (cm, Some (ErrUnknownNode nodeID))
    | Some target =>
        let cm := foldl (fun cm i => unmap_slot i cm) cm (owned_by cm target) in
        (saveConfigLocked (set_nodes (delete nodeID (Nodes cm)) cm), None)
    end.

Definition Replicate (cm : ClusterManager) (masterID : bytes) : ClusterManager * option cluster_error :=
  if decide (masterID = ID (self cm)) then (cm, Some ErrReplicateSelf)
  else
    match Nodes cm !! masterID with
    | None => (cm, Some (ErrUnknownNode masterID))
    | Some m =>
        if decide (Role (deref cm m) <> master) then (cm, Some ErrNotMaster)
        else
          let cm :=
            foldl (fun cm i =>
                if decide (i ∈ Slots (self cm)) then
                  let cm := slot_off (Self cm) i cm in
                  if decide (SlotMap cm !! i = Some (Self cm)) then unmap_slot i cm else cm
                else cm)
              cm (seq 0 NumSlots) in
          (saveConfigLocked (update (with_role slave masterID) (Self cm) cm), None)
    end.

(** ** The bus handlers *)

Definition flag (flags f : Z) : bool := negb (Z.land flags f =? 0).

(** The node part of [processGossipEntriesLocked] for one entry. *)
Definition gossip_one (now : Z) (reporterID : bytes) (cm : ClusterManager) (g : GossipEntry)
    : ClusterManager :=
  if decide (gNodeID g = ID (self cm)) then cm
  else if flag (gFlags g) FlagFail then
    match Nodes cm !! gNodeID g with
    | Some l => update (fun n => with_health false true (str "disconnected") (PongRecv n) n) l cm
    | None => cm
    end
  else if flag (gFlags g) FlagPFail then
    let reports := default ∅ (failReports cm !! gNodeID g) in
    set_reports (<[gNodeID g := <[reporterID := now]> reports]> (failReports cm)) cm
  else cm.

Definition processGossipEntriesLocked (now : Z) (cm : ClusterManager) (gossip : list GossipEntry)
    (reporterID : bytes) : ClusterManager :=
  foldl (gossip_one now reporterID) cm gossip.

Definition node_flags (n : ClusterNode) : Z :=
  let f := if decide (Role n = master) then FlagMaster else FlagSlave in
  if Fail n then Z.lor f FlagFail else if PFail n then Z.lor f FlagPFail else f.

(** The gossip section; [order] is the iteration order over [Nodes]. *)
Definition gossip_section (cm : ClusterManager) (order : list bytes) : list GossipEntry :=
  omap (fun id =>
      l ← Nodes cm !! id;
      let n := deref cm l in
      if decide (ID n = ID (self cm)) then None
      else Some (mkGossip (ID n) (IP n) (uint16 (Port n)) (uint16 (BusPort n)) (node_flags n)
                   (PingSent n) (PongRecv n)))
    order.

Definition buildSelfPacketLocked (cm : ClusterManager) (order : list bytes) (pktType : Z) : BusPacket :=
  let s := self cm in
  mkPacket pktType (CurrentEpoch cm) (ID s) (IP s) (uint16 (Port s)) (uint16 (BusPort s))
    (if decide (Role s = master) then FlagMaster else FlagSlave) (SlotsToBitmap (Slots s))
    (gossip_section cm order) [] 0.

(** [s[:8]] for a log line. *)
Definition prefix8 (s : bytes) : res panic bytes :=
  if (length s <? 8)%nat then Err PanicBounds else Ok (take 8 s).

(** The sender's object, registered first if it is not known. *)
Definition find_sender (now : Z) (gen : bytes) (p : BusPacket) (cm : ClusterManager)
    : ClusterManager * positive :=
  match Nodes cm !! SenderID p with
  | Some l => (cm, l)
  | None =>
      let n := NewNode gen now (SenderID p) (SenderIP p) (Bus.Port p) (Bus.BusPort p) master in
      let n := if flag (Flags p) FlagSlave then with_role slave (MasterID n) n else n in
      add_object (SenderID p) n cm
  end.

(** One slot of the synchronisation with a master that claims it. *)
Definition sync_slot (p : BusPacket) (sender : positive) (cm : ClusterManager) (i : nat) : ClusterManager :=
  let take_over (cm : ClusterManager) := map_slot i sender (slot_on sender i cm) in
  match SlotMap cm !! i with
  | None => take_over cm
  | Some owner =>
      if decide (ID (deref cm owner) = ID (deref cm sender)) then cm
      else if decide (ID (deref cm owner) = ID (self cm) /\ CurrentEpoch cm > Bus.Epoch p) then cm
      else take_over (slot_off owner i cm)
  end.

(** Steps 1 and 2 of [ProcessPacket]: the sender, the epoch, the slots. *)
Definition receive (now : Z) (gen : bytes) (p : BusPacket) (cm : ClusterManager) : ClusterManager :=
  let '(cm, sender) := find_sender now gen p cm in
  let cm := update (with_health false false (str "connected") now) sender cm in
  let cm := if Bus.Epoch p >? CurrentEpoch cm then set_epochs (Bus.Epoch p) (LastVoteEpoch cm) cm else cm in
  if flag (Flags p) FlagMaster
  then foldl (fun cm i => if decide (i ∈ BitmapToSlots (Bus.Slots p)) then sync_slot p sender cm i else cm)
         cm (seq 0 NumSlots)
  else cm.

Definition ack_packet (cm : ClusterManager) (p : BusPacket) : BusPacket :=
  let s := self cm in
  mkPacket TypeFailoverAuthAck (CurrentEpoch cm) (ID s) (IP s) (uint16 (Port s)) (uint16 (BusPort s))
    0 (replicate (Z.to_nat 2048) x00) [] (SenderID p) (ReqEpoch p).

(** A request for a vote. *)
Definition auth_request (p : BusPacket) (cm : ClusterManager)
    : res panic (ClusterManager * option BusPacket) :=
  if decide (Role (self cm) = master /\ ReqEpoch p >= CurrentEpoch cm /\ ReqEpoch p > LastVoteEpoch cm)
  then
    match Nodes cm !! TargetNodeID p with
    | Some l =>
        if Fail (deref cm l) then
          let cm := saveConfigLocked (set_epochs (ReqEpoch p) (ReqEpoch p) cm) in
          _ ← prefix8 (SenderID p);
          Ok (cm, Some (ack_packet cm p))
        else Ok (cm, None)
    | None => Ok (cm, None)
    end
  else Ok (cm, None).

Definition ProcessPacket (now : Z) (gen : bytes) (order : list bytes) (cm : ClusterManager)
    (p : BusPacket) : res panic (ClusterManager * option BusPacket) :=
  let cm := receive now gen p cm in
  if decide (Bus.Type_ p = TypePing) then
    let cm := processGossipEntriesLocked now cm (Gossip p) (SenderID p) in
    Ok (cm, Some (buildSelfPacketLocked cm order TypePong))
  else if decide (Bus.Type_ p = TypePong) then
    Ok (processGossipEntriesLocked now cm (Gossip p) (SenderID p), None)
  else if decide (Bus.Type_ p = TypeFail) then
    match Nodes cm !! TargetNodeID p with
    | Some l =>
        if decide (ID (deref cm l) <> ID (self cm)) then
          let cm := update (fun n => with_health false true (str "disconnected") (PongRecv n) n) l cm in
          _ ← prefix8 (SenderID p);
          _ ← prefix8 (ID (deref cm l));
          Ok (cm, None)
        else Ok (cm, None)
    | None => Ok (cm, None)
    end
  else if decide (Bus.Type_ p = TypeFailoverAuthReq) then auth_request p cm
  else Ok (cm, None).

(** ** Failure detection *)

(** A node that was silent for longer than the timeout is suspected. *)
Definition suspect (now : Z) (l : positive) (cm : ClusterManager) : res panic ClusterManager :=
  let timeSincePong := int64 ((now - PongRecv (deref cm l)) * 1000000) in
  if (timeSincePong >? NodeTimeout cm) && negb (PFail (deref cm l)) && negb (Fail (deref cm l))
  then
    let cm := update (fun n => with_health true (Fail n) (str "disconnected") (PongRecv n) n) l cm in
    _ ← prefix8 (ID (deref cm l));
    let id := ID (deref cm l) in
    let reports := default ∅ (failReports cm !! id) in
    Ok (set_reports (<[id := <[ID (self cm) := now]> reports]> (failReports cm)) cm)
  else Ok cm.

(** A suspected node that enough masters reported is failed. *)
Definition confirm (totalMasters : Z) (l : positive) (cm : ClusterManager) : res panic ClusterManager :=
  let n := deref cm l in
  if PFail n && negb (Fail n) && (0 <? totalMasters) &&
     (totalMasters / 2 <? Z.of_nat (size (default ∅ (failReports cm !! ID n))))
  then
    let cm := update (fun n => with_health false true (LinkState n) (PongRecv n) n) l cm in
    _ ← prefix8 (ID n);
    Ok cm
  else Ok cm.

(** The health audit of [heartbeatStep] for the node [id]; [totalMasters] counts
    the masters the loop has seen so far. *)
Definition audit_one (now : Z) (st : ClusterManager * Z) (id : bytes)
    : res panic (ClusterManager * Z) :=
  let '(cm, totalMasters) := st in
  match Nodes cm !! id with
  | None => Ok (cm, totalMasters)
  | Some l =>
      let totalMasters := if decide (Role (deref cm l) = master) then totalMasters + 1 else totalMasters in
      if decide (ID (deref cm l) = ID (self cm)) then Ok (cm, totalMasters)
      else
        cm ← suspect now l cm;
        cm ← confirm totalMasters l cm;
        Ok (cm, totalMasters)
  end.

Fixpoint audit (now : Z) (order : list bytes) (st : ClusterManager * Z) : res panic (ClusterManager * Z) :=
  match order with
  | [] => Ok st
  | id :: order' => st ← audit_one now st id; audit now order' st
  end.

(** A replica whose master has failed must start an election. *)
Definition failover_target (cm : ClusterManager) : option bytes :=
  let s := self cm in
  if decide (Role s = slave /\ MasterID s <> [] /\ MasterID s <> str "-") then
    l ← Nodes cm !! MasterID s;
    if Fail (deref cm l) then Some (ID (deref cm l)) else None
  else None.

(** The peers to ping: identifier, address and bus port. *)
Definition ping_peers (cm : ClusterManager) (order : list bytes) : list (bytes * bytes * Z) :=
  omap (fun id =>
      l ← Nodes cm !! id;
      let n := deref cm l in
      if decide (ID n <> ID (self cm) /\ Fail n = false) then Some (ID n, IP n, BusPort n) else None)
    order.

(** The heartbeat up to the goroutines it starts: the failed master of an
    election, the peers and the packet they are sent.  The three loops over
    [Nodes] have their own iteration orders. *)
Definition heartbeatStep (now : Z) (order order2 order3 : list bytes) (cm : ClusterManager)
    : res panic (ClusterManager * (option bytes * list (bytes * bytes * Z) * BusPacket)) :=
  st ← audit now order (cm, 0);
  let cm := fst st in
  Ok (cm, (failover_target cm, ping_peers cm order2, buildSelfPacketLocked cm order3 TypePing)).

(** ** Elections *)

(** The beginning of [RunFailoverElection]: the new epoch, the request and the
    active masters it is sent to. *)
Definition start_election (cm : ClusterManager) (order : list bytes) (failedMasterID : bytes)
    : res panic (ClusterManager * option (BusPacket * list positive)) :=
  if decide (Role (self cm) <> slave) then Ok (cm, None)
  else
    let cm := set_epochs (uint64 (CurrentEpoch cm + 1)) (LastVoteEpoch cm) cm in
    let masters :=
      omap (fun id => l ← Nodes cm !! id;
                      if decide (Role (deref cm l) = master /\ Fail (deref cm l) = false)
                      then Some l else None) order in
    let s := self cm in
    _ ← prefix8 (ID s);
    _ ← prefix8 failedMasterID;
    Ok (cm, Some (mkPacket TypeFailoverAuthReq (CurrentEpoch cm) (ID s) (IP s) (uint16 (Port s))
                 (uint16 (BusPort s)) 0 (replicate (Z.to_nat 2048) x00) [] failedMasterID
                 (CurrentEpoch cm), masters)).

(** A response counts as a vote. *)
Definition is_vote (candidateID : bytes) (electionEpoch : Z) (resp : BusPacket) : bool :=
  bool_decide (Bus.Type_ resp = TypeFailoverAuthAck /\ TargetNodeID resp = candidateID /\
               ReqEpoch resp = electionEpoch).

(** [votes := 1], one more per granted vote; majority of the active masters. *)
Definition election_won (candidateID : bytes) (electionEpoch : Z) (totalMasters : Z)
    (responses : list BusPacket) : bool :=
  let votes := 1 + Z.of_nat (length (filter (fun r => is_vote candidateID electionEpoch r = true) responses)) in
  let needed := totalMasters / 2 + 1 in
  needed <=? votes.

Definition promote_slot (failedMasterID : bytes) (failed : option positive) (cm : ClusterManager) (i : nat)
    : ClusterManager :=
  let claim (cm : ClusterManager) := map_slot i (Self cm) (slot_on (Self cm) i cm) in
  let by_map (cm : ClusterManager) :=
    match SlotMap cm !! i with
    | Some owner => if decide (ID (deref cm owner) = failedMasterID) then claim cm else cm
    | None => cm
    end in
  match failed with
  | Some l => if decide (i ∈ Slots (deref cm l)) then claim (slot_off l i cm) else by_map cm
  | None => by_map cm
  end.

(** The roles, the slots and the configuration after a won election. *)
Definition promote (cm : ClusterManager) (failedMasterID : bytes) : ClusterManager :=
  let cm := update (with_role master (str "-")) (Self cm) cm in
  let failed := Nodes cm !! failedMasterID in
  let cm := foldl (promote_slot failedMasterID failed) cm (seq 0 NumSlots) in
  saveConfigLocked cm.

(** The new state, and the announcement with the peers it is sent to. *)
Definition PromoteReplica (order1 order2 : list bytes) (cm : ClusterManager) (failedMasterID : bytes)
    : res panic (ClusterManager * option (BusPacket * list (bytes * bytes * Z))) :=
  if decide (Role (self cm) = master) then Ok (cm, None)
  else
    _ ← prefix8 (ID (self cm));
    let cm := promote cm failedMasterID in
    Ok (cm, Some (buildSelfPacketLocked cm order1 TypePong, ping_peers cm order2)).

(** The end of [RunFailoverElection], after the responses of the masters. *)
Definition finish_election (order1 order2 : list bytes) (cm : ClusterManager)
    (candidateID failedMasterID : bytes) (electionEpoch totalMasters : Z) (responses : list BusPacket)
    : res panic (ClusterManager * option (BusPacket * list (bytes * bytes * Z))) :=
  if election_won candidateID electionEpoch totalMasters responses
  then PromoteReplica order1 order2 cm failedMasterID
  else _ ← prefix8 candidateID; Ok (cm, None).

(** The announcement of a failed node and the peers it is sent to. *)
Definition BroadcastFail (cm : ClusterManager) (order : list bytes) (failedNodeID : bytes)
    : BusPacket * list (bytes * bytes * Z) :=
  let s := self cm in
  (mkPacket TypeFail (CurrentEpoch cm) (ID s) (IP s) (uint16 (Port s)) (uint16 (BusPort s)) 0
     (replicate (Z.to_nat 2048) x00) [] failedNodeID 0,
   ping_peers cm order).

(** ** Slot ownership

    Every node is registered under its identifier, the slot map points to
    registered nodes that claim the slot, and a registered node only claims
    slots the map gives to it: no slot has two owners. *)

Record wf (cm : ClusterManager) : Prop := {
  wf_self : exists n, store cm !! Self cm = Some n /\ Nodes cm !! ID n = Some (Self cm);
  wf_nodes : forall id l, Nodes cm !! id = Some l -> exists n, store cm !! l = Some n /\ ID n = id;
  wf_map : forall s l, SlotMap cm !! s = Some l ->
    exists n, store cm !! l = Some n /\ s ∈ Slots n /\ Nodes cm !! ID n = Some l;
  wf_own : forall id l n s, Nodes cm !! id = Some l -> store cm !! l = Some n -> s ∈ Slots n ->
    SlotMap cm !! s = Some l
}.

Lemma deref_Some cm l n : store cm !! l = Some n -> deref cm l = n.
Proof. unfold deref. by intros ->. Qed.

(** Registered objects are told apart by their identifiers. *)
(** Every identifier of the table names a node that has it. *)
Definition registered (cm : ClusterManager) : Prop :=
  forall id l, Nodes cm !! id = Some l -> exists n, store cm !! l = Some n /\ ID n = id.

Lemma registered_deref cm id l : registered cm -> Nodes cm !! id = Some l -> is_Some (store cm !! l) /\ ID (deref cm l) = id.
Proof. intros H Hl. destruct (H _ _ Hl) as (n & Hn & <-). rewrite (deref_Some _ _ _ Hn). by split. Qed.

Lemma wf_loc_ID cm l1 l2 n1 n2 :
  wf cm -> store cm !! l1 = Some n1 -> store cm !! l2 = Some n2 ->
  Nodes cm !! ID n1 = Some l1 -> Nodes cm !! ID n2 = Some l2 ->
  ID n1 = ID n2 <-> l1 = l2.
Proof. intros _ H1 H2 N1 N2. split; [intros E; rewrite E in N1|intros ->]; congruence. Qed.

(** Updates that keep identifiers and slots. *)
Lemma update_wf f l cm :
  (forall n, ID (f n) = ID n /\ Slots (f n) = Slots n) -> wf cm -> wf (update f l cm).
Proof.
  intros Hf [H1 H2 H3 H4].
  assert (forall l' n, store cm !! l' = Some n ->
    exists n', alter f l (store cm) !! l' = Some n' /\ ID n' = ID n /\ Slots n' = Slots n) as Hup.
  { intros l' n Hn. destruct (decide (l = l')) as [->|].
    - exists (f n). rewrite lookup_alter_eq, Hn. split; [done|apply Hf].
    - exists n. by rewrite lookup_alter_ne. }
  assert (forall l' n', alter f l (store cm) !! l' = Some n' ->
    exists n, store cm !! l' = Some n /\ ID n' = ID n /\ Slots n' = Slots n) as Hdown.
  { intros l' n' Hn. apply lookup_alter_Some in Hn as [(<- & n & Hn & ->)|[_ Hn]]; [|by exists n'].
    exists n. split; [done|apply Hf]. }
  split; cbn [store Nodes SlotMap Self update].
  - destruct H1 as (n & Hn & HN). destruct (Hup _ _ Hn) as (n' & Hn' & E & _).
    exists n'. by rewrite E.
  - intros id l' Hl'. destruct (H2 _ _ Hl') as (n & Hn & E).
    destruct (Hup _ _ Hn) as (n' & Hn' & E' & _). exists n'. split; congruence.
  - intros s l' Hs. destruct (H3 _ _ Hs) as (n & Hn & Hin & HN).
    destruct (Hup _ _ Hn) as (n' & Hn' & E & ES). exists n'. rewrite E, ES. done.
  - intros id l' n' s Hl' Hn' Hs. destruct (Hdown _ _ Hn') as (n & Hn & E & ES).
    rewrite ES in Hs. by eapply H4.
Qed.

(** Registering a new node without slots. *)
Lemma add_object_wf id n cm :
  wf cm -> Nodes cm !! id = None -> ID n = id -> Slots n = ∅ ->
  wf (fst (add_object id n cm)) /\
  Nodes (fst (add_object id n cm)) !! id = Some (snd (add_object id n cm)).
Proof.
  intros [H1 H2 H3 H4] Hid HID HS. unfold add_object. cbn [fst snd].
  set (l := fresh (dom (store cm))).
  assert (store cm !! l = None) as Hl by (apply not_elem_of_dom, is_fresh).
  split; [|cbn; apply lookup_insert_eq].
  assert (forall l' n', store cm !! l' = Some n' -> <[l := n]> (store cm) !! l' = Some n') as Hup.
  { intros l' n' Hn. rewrite lookup_insert_ne; [done|]. congruence. }
  split; cbn [store Nodes SlotMap Self].
  - destruct H1 as (n0 & Hn & HN). exists n0. split; [by apply Hup|].
    rewrite lookup_insert_ne; [done|]. congruence.
  - intros id' l' Hl'. apply lookup_insert_Some in Hl' as [[<- <-]|[_ Hl']].
    + exists n. by rewrite lookup_insert_eq.
    + destruct (H2 _ _ Hl') as (n' & Hn' & E). exists n'. split; [by apply Hup|done].
  - intros s l' Hs. destruct (H3 _ _ Hs) as (n' & Hn' & Hin & HN). exists n'.
    split; [by apply Hup|]. split; [done|]. rewrite lookup_insert_ne; [done|]. congruence.
  - intros id' l' n' s Hl' Hn' Hs. apply lookup_insert_Some in Hl' as [[<- <-]|[_ Hl']].
    + rewrite lookup_insert_eq in Hn'. injection Hn' as <-. rewrite HS in Hs. set_solver.
    + destruct (H2 _ _ Hl') as (n0 & Hn0 & _). rewrite (Hup _ _ Hn0) in Hn'. injection Hn' as <-.
      by eapply H4.
Qed.

(** The store after a slot changes hands. *)
Lemma slot_on_store l s cm l' :
  store (slot_on l s cm) !! l' =
    if decide (l' = l) then with_slots (fun S => {[s]} ∪ S) <$> store cm !! l else store cm !! l'.
Proof.
  cbn. case_decide; subst; [apply lookup_alter_eq|]. by rewrite lookup_alter_ne.
Qed.

Lemma slot_off_store l s cm l' :
  store (slot_off l s cm) !! l' =
    if decide (l' = l) then with_slots (fun S => S ∖ {[s]}) <$> store cm !! l else store cm !! l'.
Proof.
  cbn. case_decide; subst; [apply lookup_alter_eq|]. by rewrite lookup_alter_ne.
Qed.

(** Releasing a slot: the owner, if any, stops claiming it. *)
Lemma release_wf s l cm :
  wf cm -> (SlotMap cm !! s = Some l \/ SlotMap cm !! s = None) ->
  wf (unmap_slot s (slot_off l s cm)).
Proof.
  intros [H1 H2 H3 H4] Hs.
  assert (forall l' n, store cm !! l' = Some n -> exists n', store (slot_off l s cm) !! l' = Some n' /\
    ID n' = ID n /\ (forall x, x ∈ Slots n' <-> x ∈ Slots n /\ (x = s -> l' <> l))) as Hup.
  { intros l' n Hn. rewrite slot_off_store. case_decide as Hd.
    - subst l'. rewrite Hn. eexists. split; [done|]. split; [done|]. cbn. set_solver.
    - exists n. split; [done|]. split; [done|]. naive_solver. }
  assert (forall l' n', store (slot_off l s cm) !! l' = Some n' -> exists n, store cm !! l' = Some n /\
    ID n' = ID n /\ (forall x, x ∈ Slots n' <-> x ∈ Slots n /\ (x = s -> l' <> l))) as Hdown.
  { intros l' n' Hn'. destruct (store cm !! l') as [n|] eqn:E.
    - destruct (Hup _ _ E) as (n'' & Hn'' & ?). exists n. rewrite Hn' in Hn''. naive_solver.
    - rewrite slot_off_store in Hn'. case_decide; subst; rewrite E in Hn'; done. }
  split; cbn [store Nodes SlotMap Self unmap_slot set_slotmap].
  - destruct H1 as (n & Hn & HN). destruct (Hup _ _ Hn) as (n' & Hn' & E & _). exists n'. by rewrite E.
  - intros id l' Hl'. destruct (H2 _ _ Hl') as (n & Hn & E).
    destruct (Hup _ _ Hn) as (n' & Hn' & E' & _). exists n'. split; [done|congruence].
  - intros x l' Hx. apply lookup_delete_Some in Hx as [Hne Hx]. cbn in Hx.
    destruct (H3 _ _ Hx) as (n & Hn & Hin & HN). destruct (Hup _ _ Hn) as (n' & Hn' & E & ES).
    exists n'. rewrite E. split; [done|]. split; [|done]. apply ES. split; [done|]. by intros ->.
  - intros id l' n' x Hl' Hn' Hx. cbn in Hl'. destruct (Hdown _ _ Hn') as (n & Hn & E & ES).
    destruct (proj1 (ES x) Hx) as [Hx' Hne]. pose proof (H4 _ _ _ _ Hl' Hn Hx') as Hm.
    rewrite lookup_delete_ne; [done|]. intros ->. naive_solver.
Qed.

(** Giving a free slot to a registered node. *)
Lemma claim_wf s l cm :
  wf cm -> SlotMap cm !! s = None -> (exists id, Nodes cm !! id = Some l) ->
  wf (map_slot s l (slot_on l s cm)).
Proof.
  intros [H1 H2 H3 H4] Hs [id0 Hid0].
  assert (forall l' n, store cm !! l' = Some n -> exists n', store (slot_on l s cm) !! l' = Some n' /\
    ID n' = ID n /\ (forall x, x ∈ Slots n' <-> x ∈ Slots n \/ (x = s /\ l' = l))) as Hup.
  { intros l' n Hn. rewrite slot_on_store. case_decide as Hd.
    - subst l'. rewrite Hn. eexists. split; [done|]. split; [done|]. cbn. set_solver.
    - exists n. split; [done|]. split; [done|]. naive_solver. }
  assert (forall l' n', store (slot_on l s cm) !! l' = Some n' -> exists n, store cm !! l' = Some n /\
    ID n' = ID n /\ (forall x, x ∈ Slots n' <-> x ∈ Slots n \/ (x = s /\ l' = l))) as Hdown.
  { intros l' n' Hn'. destruct (store cm !! l') as [n|] eqn:E.
    - destruct (Hup _ _ E) as (n'' & Hn'' & ?). exists n. rewrite Hn' in Hn''. naive_solver.
    - rewrite slot_on_store in Hn'. case_decide; subst; rewrite E in Hn'; done. }
  split; cbn [store Nodes SlotMap Self map_slot set_slotmap].
  - destruct H1 as (n & Hn & HN). destruct (Hup _ _ Hn) as (n' & Hn' & E & _). exists n'. by rewrite E.
  - intros id l' Hl'. destruct (H2 _ _ Hl') as (n & Hn & E).
    destruct (Hup _ _ Hn) as (n' & Hn' & E' & _). exists n'. split; [done|congruence].
  - intros x l' Hx. apply lookup_insert_Some in Hx as [[<- <-]|[Hne Hx]].
    + destruct (H2 _ _ Hid0) as (n & Hn & E). destruct (Hup _ _ Hn) as (n' & Hn' & E' & ES).
      exists n'. split; [done|]. split; [apply ES; by right|]. cbn. by rewrite E', E.
    + destruct (H3 _ _ Hx) as (n & Hn & Hin & HN). destruct (Hup _ _ Hn) as (n' & Hn' & E & ES).
      exists n'. rewrite E. split; [done|]. split; [|done]. apply ES. by left.
  - intros id l' n' x Hl' Hn' Hx. cbn in Hl'. destruct (Hdown _ _ Hn') as (n & Hn & E & ES).
    destruct (proj1 (ES x) Hx) as [Hx'|[-> ->]]; [|apply lookup_insert_eq].
    pose proof (H4 _ _ _ _ Hl' Hn Hx') as Hm. rewrite lookup_insert_ne; [done|]. intros ->. cbn in *. congruence.
Qed.

Lemma claim_same s l cm :
  wf cm -> SlotMap cm !! s = Some l -> map_slot s l (slot_on l s cm) = cm.
Proof.
  intros Hwf Hs. destruct (wf_map cm Hwf _ _ Hs) as (n & Hn & Hin & _).
  destruct cm. unfold map_slot, set_slotmap, slot_on, update. cbn in *. f_equal.
  - by apply insert_id.
  - apply alter_id. intros n' Hn'. rewrite Hn in Hn'. injection Hn' as <-.
    destruct n; unfold with_slots; cbn in *. f_equal. set_solver.
Qed.

Lemma claim_after_release s l l' cm :
  map_slot s l (slot_on l s (unmap_slot s (slot_off l' s cm)))
  = map_slot s l (slot_on l s (slot_off l' s cm)).
Proof.
  unfold map_slot, unmap_slot, slot_on, slot_off, update, set_slotmap. cbn.
  by rewrite insert_delete_eq.
Qed.

Lemma reassign_wf target s cm :
  wf cm -> (exists id, Nodes cm !! id = Some target) -> wf (reassign target s cm).
Proof.
  intros Hwf Ht. unfold reassign. destruct (SlotMap cm !! s) as [owner|] eqn:Es.
  - destruct (wf_map cm Hwf _ _ Es) as (n & Hn & Hin & HN). destruct Ht as [id Hid].
    destruct (wf_nodes cm Hwf _ _ Hid) as (m & Hm & Em). rewrite <- Em in Hid.
    rewrite (deref_Some cm owner n), (deref_Some cm target m) by done.
    case_decide as Hd.
    + rewrite <- claim_after_release. apply claim_wf.
      * apply release_wf; [done|by left].
      * cbn. apply lookup_delete_eq.
      * by exists (ID m).
    + apply (wf_loc_ID cm owner target n m Hwf Hn Hm HN Hid) in Hd as ->.
      by rewrite claim_same.
  - by apply claim_wf.
Qed.

Lemma reassign_nodes target s cm : Nodes (reassign target s cm) = Nodes cm /\ Self (reassign target s cm) = Self cm.
Proof. unfold reassign. by destruct (SlotMap cm !! s) as [owner|]; [case_decide|]. Qed.

Lemma self_registered cm : wf cm -> exists id, Nodes cm !! id = Some (Self cm).
Proof. intros Hwf. destruct (wf_self cm Hwf) as (n & _ & H). by exists (ID n). Qed.

Lemma save_wf cm : wf cm -> wf (saveConfigLocked cm).
Proof. intros [? ? ? ?]. by split. Qed.

Lemma set_migration_wf mig imp cm : wf cm -> wf (set_migration mig imp cm).
Proof. intros [? ? ? ?]. by split. Qed.

Lemma set_epochs_wf a b cm : wf cm -> wf (set_epochs a b cm).
Proof. intros [? ? ? ?]. by split. Qed.

Lemma set_reports_wf r cm : wf cm -> wf (set_reports r cm).
Proof. intros [? ? ? ?]. by split. Qed.

#[local] Hint Resolve save_wf set_migration_wf set_epochs_wf set_reports_wf : core.

(** In a well-formed manager a slot owned under self's identifier is owned by
    self. *)
Lemma owner_self cm s owner :
  wf cm -> SlotMap cm !! s = Some owner -> ID (deref cm owner) = ID (self cm) -> owner = Self cm.
Proof.
  intros Hwf Hs E. destruct (wf_map cm Hwf _ _ Hs) as (n & Hn & _ & HN).
  destruct (wf_self cm Hwf) as (m & Hm & HM). unfold self in E.
  rewrite (deref_Some cm owner n), (deref_Some cm (Self cm) m) in E by done.
  by apply (wf_loc_ID cm owner (Self cm) n m).
Qed.

(** A step that keeps self and the registered nodes, run over a list. *)
Lemma fold_wf {A} (step : ClusterManager -> A -> ClusterManager) xs cm :
  (forall cm x, wf cm -> wf (step cm x)) -> wf cm -> wf (foldl step cm xs).
Proof. intros Hs. revert cm; induction xs as [|x xs IH]; intros cm Hwf; [done|]. cbn. auto. Qed.

Lemma AddSlots_wf cm slots : wf cm -> wf (fst (AddSlots cm slots)).
Proof.
  intros Hwf. unfold AddSlots. destruct (check_add cm slots) as [e|] eqn:E; [done|].
  apply save_wf.
  assert (Forall (fun s => SlotMap cm !! s = None \/ SlotMap cm !! s = Some (Self cm)) slots) as HF.
  { revert E. induction slots as [|s slots IH]; [constructor|]. cbn [check_add].
    case_match; [done|]. destruct (SlotMap cm !! s) as [o|] eqn:Es; [|intros; constructor; auto].
    case_decide as Hd; [done|]. intros. constructor; [right|auto].
    rewrite Es. f_equal. by eapply owner_self. }
  clear E. revert cm Hwf HF. induction slots as [|s slots IH]; intros cm Hwf HF; [done|].
  apply Forall_cons in HF as [Hs HF]. cbn [foldl].
  assert (wf (map_slot s (Self cm) (slot_on (Self cm) s cm))) as Hwf1.
  { destruct Hs as [Hs|Hs]; [apply claim_wf; eauto using self_registered|by rewrite claim_same]. }
  apply IH; [done|]. cbn. rewrite Forall_forall in *. intros x Hx. specialize (HF x Hx). cbn in HF.
  destruct (decide (s = x)) as [->|]; [right; by rewrite lookup_insert_eq|].
  by rewrite lookup_insert_ne.
Qed.

Lemma AssignSlots_wf cm id slots : wf cm -> wf (fst (AssignSlotsToNode cm id slots)).
Proof.
  intros Hwf. unfold AssignSlotsToNode. destruct (Nodes cm !! id) as [t|] eqn:Et; [|done].
  revert cm Hwf Et. induction slots as [|s slots IH]; intros cm Hwf Et; cbn [assign_loop]; [by apply save_wf|].
  case_match; [done|]. apply IH; [apply reassign_wf; eauto|].
  by rewrite (proj1 (reassign_nodes t s cm)).
Qed.

Lemma DelSlots_wf cm slots : wf cm -> wf (fst (DelSlots cm slots)).
Proof.
  intros Hwf. unfold DelSlots. destruct (check_del cm slots) as [e|] eqn:E; [done|].
  apply save_wf.
  assert (Forall (fun s => SlotMap cm !! s = Some (Self cm) \/ SlotMap cm !! s = None) slots) as HF.
  { revert E. induction slots as [|s slots IH]; [constructor|]. cbn [check_del].
    case_match; [done|]. destruct (SlotMap cm !! s) as [o|] eqn:Es; [|done].
    case_decide as Hd; [done|]. intros. constructor; [left|auto].
    rewrite Es. f_equal. by eapply owner_self. }
  clear E. revert cm Hwf HF. induction slots as [|s slots IH]; intros cm Hwf HF; [done|].
  apply Forall_cons in HF as [Hs HF]. cbn [foldl]. apply IH; [by apply release_wf|].
  cbn. rewrite Forall_forall in *. intros x Hx. specialize (HF x Hx). cbn in HF.
  destruct (decide (s = x)) as [->|]; [right; apply lookup_delete_eq|].
  by rewrite lookup_delete_ne.
Qed.

Lemma SetSlot_wf cm slot sub id : wf cm -> wf (fst (SetSlot cm slot sub id)).
Proof.
  intros Hwf. unfold SetSlot. case_match; [done|]. repeat case_decide.
  - destruct (Nodes cm !! id) as [t|] eqn:Et; [|done]. cbn [fst].
    apply save_wf, set_migration_wf, reassign_wf; eauto.
  - destruct (SlotMap cm !! slot); [|done]. case_decide; [done|]. destruct (Nodes cm !! id); cbn [fst]; auto.
  - destruct (Nodes cm !! id); cbn [fst]; auto.
  - cbn [fst]. auto.
  - done.
Qed.

Lemma unmap_all cm xs :
  let cm' := foldl (fun cm i => unmap_slot i cm) cm xs in
  Nodes cm' = Nodes cm /\ store cm' = store cm /\ Self cm' = Self cm /\
  forall s, SlotMap cm' !! s = if decide (s ∈ xs) then None else SlotMap cm !! s.
Proof.
  revert cm; induction xs as [|x xs IH]; intros cm; [done|]. cbn [foldl].
  destruct (IH (unmap_slot x cm)) as (H1 & H2 & H3 & H4).
  split; [done|]. split; [done|]. split; [done|]. intros s. rewrite H4. cbn.
  destruct (decide (x = s)) as [->|].
  - rewrite lookup_delete_eq. by rewrite (decide_True (P := s ∈ s :: xs)) by set_solver; case_decide.
  - rewrite lookup_delete_ne by done. repeat case_decide; set_solver.
Qed.

(** The slots of a manager are in range. *)
Definition in_bounds (cm : ClusterManager) : Prop :=
  forall s l, SlotMap cm !! s = Some l -> (s < NumSlots)%nat.

Lemma RemoveNode_wf cm id : wf cm -> in_bounds cm -> wf (fst (RemoveNode cm id)).
Proof.
  intros Hwf Hb. unfold RemoveNode. case_decide as Hself; [done|].
  destruct (Nodes cm !! id) as [t|] eqn:Et; [|done]. cbn [fst]. apply save_wf.
  destruct (unmap_all cm (owned_by cm t)) as (H1 & H2 & H3 & H4).
  set (cm' := foldl _ _ _) in *.
  destruct (wf_nodes cm Hwf _ _ Et) as (nt & Hnt & Ent).
  assert (forall s, s ∈ owned_by cm t <-> SlotMap cm !! s = Some t) as Hown.
  { intros s. unfold owned_by. rewrite !list_elem_of_filter, elem_of_seq.
    split; [tauto|]. intros Hs. split; [done|]. split; [|pose proof (Hb _ _ Hs); lia].
    destruct (wf_map cm Hwf _ _ Hs) as (n & Hn & Hin & _). by rewrite (deref_Some cm t n). }
  assert (forall s l, SlotMap cm' !! s = Some l <-> SlotMap cm !! s = Some l /\ l <> t) as Hmap.
  { intros s l. rewrite H4. case_decide as Hd; rewrite Hown in Hd.
    - split; [done|]. intros [? ?]. congruence.
    - split; [intros Hs; split; [done|congruence]|by intros [? _]]. }
  split; cbn [store Nodes SlotMap Self set_nodes]; rewrite ?H1, ?H2, ?H3.
  - destruct (wf_self cm Hwf) as (n & Hn & HN). exists n. split; [done|].
    rewrite lookup_delete_ne; [done|]. unfold self in Hself. by rewrite (deref_Some _ _ _ Hn) in Hself.
  - intros id' l Hl. apply lookup_delete_Some in Hl as [_ Hl]. by apply (wf_nodes cm Hwf).
  - intros s l Hs. apply Hmap in Hs as [Hs Hne].
    destruct (wf_map cm Hwf _ _ Hs) as (n & Hn & Hin & HN). exists n. split; [done|]. split; [done|].
    rewrite lookup_delete_ne; [done|]. intros E. rewrite <- E in HN. congruence.
  - intros id' l n s Hl Hn Hs. apply lookup_delete_Some in Hl as [Hne Hl].
    apply Hmap. split; [by eapply (wf_own cm Hwf)|]. intros ->.
    destruct (wf_nodes cm Hwf _ _ Hl) as (n' & Hn' & E). congruence.
Qed.

Lemma Replicate_wf cm id : wf cm -> wf (fst (Replicate cm id)).
Proof.
  intros Hwf. unfold Replicate. case_decide; [done|]. destruct (Nodes cm !! id); [|done].
  case_decide; [done|]. cbn [fst]. apply save_wf, update_wf; [done|].
  apply fold_wf; [|done]. clear. intros cm i Hwf. case_decide as Hin; [|done].
  destruct (wf_self cm Hwf) as (n & Hn & HN). unfold self in Hin.
  rewrite (deref_Some _ _ _ Hn) in Hin. pose proof (wf_own cm Hwf _ _ _ _ HN Hn Hin) as Hm.
  rewrite decide_True by done. apply release_wf; [done|by left].
Qed.

Lemma gossip_wf now cm gossip id : wf cm -> wf (processGossipEntriesLocked now cm gossip id).
Proof.
  apply fold_wf. clear. intros cm g Hwf. unfold gossip_one. case_decide; [done|].
  case_match; [case_match; [by apply update_wf|done]|]. case_match; auto.
Qed.

Lemma find_sender_wf now gen p cm :
  wf cm -> SenderID p <> [] ->
  let '(cm', l) := find_sender now gen p cm in wf cm' /\ Nodes cm' !! SenderID p = Some l.
Proof.
  intros Hwf Hne. unfold find_sender. destruct (Nodes cm !! SenderID p) as [l|] eqn:E; [done|].
  match goal with |- context [add_object _ ?n _] => pose proof (add_object_wf (SenderID p) n cm Hwf E) as HA end.
  destruct (add_object _ _ _) as [cm' l]. cbn [fst snd] in HA.
  assert (ID (NewNode gen now (SenderID p) (SenderIP p) (Bus.Port p) (Bus.BusPort p) master) = SenderID p)
    as HID by (cbn; by rewrite decide_False).
  apply HA; destruct (flag (Flags p) FlagSlave); done.
Qed.

(** Synchronising a slot either changes nothing or gives it to the sender. *)
Lemma sync_slot_cases p sender cm i :
  sync_slot p sender cm i = cm \/ sync_slot p sender cm i = reassign sender i cm.
Proof.
  unfold sync_slot, reassign. destruct (SlotMap cm !! i) as [owner|]; [|by right].
  case_decide; [by left|]. case_decide; [by left|]. right. by rewrite decide_True.
Qed.

Lemma receive_wf now gen p cm : wf cm -> SenderID p <> [] -> wf (receive now gen p cm).
Proof.
  intros Hwf Hne. unfold receive. pose proof (find_sender_wf now gen p cm Hwf Hne) as HF.
  destruct (find_sender now gen p cm) as [cm1 sender]. destruct HF as [Hwf1 Hn1].
  set (cm2 := update _ _ _). set (cm3 := if Bus.Epoch p >? _ then _ else _).
  assert (wf cm3 /\ Nodes cm3 !! SenderID p = Some sender) as [Hwf3 Hn3].
  { assert (wf cm2) by (by apply update_wf). subst cm3. case_match; auto. }
  case_match; [|done]. generalize (seq 0 NumSlots). intros xs. clearbody cm3. clear - Hwf3 Hn3.
  revert cm3 Hwf3 Hn3. induction xs as [|i xs IH]; intros cm Hwf Hn; [done|]. cbn [foldl].
  case_decide; [|by apply IH]. destruct (sync_slot_cases p sender cm i) as [Hs | Hs]; rewrite Hs; [by apply IH|].
  apply IH; [apply reassign_wf; eauto|]. by rewrite (proj1 (reassign_nodes sender i cm)).
Qed.

Lemma ProcessPacket_wf now gen order cm p cm' r :
  wf cm -> SenderID p <> [] -> ProcessPacket now gen order cm p = Ok (cm', r) -> wf cm'.
Proof.
  intros Hwf Hne. unfold ProcessPacket. pose proof (receive_wf now gen p cm Hwf Hne) as H1.
  set (cm1 := receive now gen p cm) in *. clearbody cm1. repeat case_decide.
  - intros [= <- <-]. by apply gossip_wf.
  - intros [= <- <-]. by apply gossip_wf.
  - destruct (Nodes cm1 !! TargetNodeID p); [|by intros [= <- <-]]. case_decide; [|by intros [= <- <-]].
    intros (? & _ & (? & _ & [= <- <-])%bind_Ok)%bind_Ok. by apply update_wf.
  - unfold auth_request. case_decide; [|by intros [= <- <-]].
    destruct (Nodes cm1 !! TargetNodeID p); [|by intros [= <- <-]]. case_match; [|by intros [= <- <-]].
    intros (? & _ & [= <- <-])%bind_Ok. by apply save_wf, set_epochs_wf.
  - by intros [= <- <-].
Qed.

(** The two steps of the audit only change health flags and reports. *)
Lemma suspect_cases now l cm cm' :
  suspect now l cm = Ok cm' ->
  cm' = cm \/ exists r, cm' = set_reports r (update (fun n => with_health true (Fail n) (str "disconnected") (PongRecv n) n) l cm).
Proof.
  unfold suspect. destruct (_ && _); [|by intros [= <-]; left].
  intros (? & _ & [= <-])%bind_Ok. right. by eexists.
Qed.

Lemma confirm_cases t l cm cm' :
  confirm t l cm = Ok cm' ->
  cm' = cm \/ cm' = update (fun n => with_health false true (LinkState n) (PongRecv n) n) l cm.
Proof.
  unfold confirm. destruct (_ && _); [|by intros [= <-]; left].
  intros (? & _ & [= <-])%bind_Ok. by right.
Qed.

(** What the two steps keep, the audit keeps. *)
Lemma audit_one_keeps (P : ClusterManager -> Prop) now cm t id cm' t' :
  (forall c f l, (forall n, ID (f n) = ID n /\ Slots (f n) = Slots n) -> P c -> P (update f l c)) ->
  (forall c r, P c -> P (set_reports r c)) ->
  P cm -> audit_one now (cm, t) id = Ok (cm', t') -> P cm'.
Proof.
  intros Hu Hs HP. unfold audit_one. destruct (Nodes cm !! id) as [l|]; [|by intros [= <- <-]].
  case_decide; [by intros [= <- <-]|].
  intros (c1 & E1%suspect_cases & (c2 & E2%confirm_cases & [= <- <-])%bind_Ok)%bind_Ok.
  assert (P c1) as H1 by (destruct E1 as [->|[r ->]]; auto).
  destruct E2 as [->| ->]; auto.
Qed.

Lemma audit_one_wf now cm t id cm' t' :
  wf cm -> audit_one now (cm, t) id = Ok (cm', t') -> wf cm'.
Proof. apply audit_one_keeps; auto using update_wf. Qed.

Lemma audit_wf now order cm t st : wf cm -> audit now order (cm, t) = Ok st -> wf (fst st).
Proof.
  revert cm t. induction order as [|id order IH]; intros cm t Hwf; cbn [audit]; [by intros [= <-]|].
  intros ([cm1 t1] & E & H1)%bind_Ok. eapply IH, H1. by eapply audit_one_wf.
Qed.

Lemma heartbeat_wf now o1 o2 o3 cm cm' r :
  wf cm -> heartbeatStep now o1 o2 o3 cm = Ok (cm', r) -> wf cm'.
Proof. intros Hwf (st & E & [= <- _])%bind_Ok. by eapply audit_wf. Qed.

(** One slot of the promotion: it is taken over exactly if the slot map gives it
    to the failed master. *)
Lemma promote_slot_cases failedID cm i :
  wf cm ->
  let failed := Nodes cm !! failedID in
  (promote_slot failedID failed cm i = cm /\ (failed = None \/ SlotMap cm !! i <> failed)) \/
  exists l, failed = Some l /\ SlotMap cm !! i = Some l /\
    promote_slot failedID failed cm i
    = map_slot i (Self cm) (slot_on (Self cm) i (unmap_slot i (slot_off l i cm))).
Proof.
  intros Hwf failed.
  assert (forall owner, SlotMap cm !! i = Some owner -> ID (deref cm owner) = failedID ->
    failed = Some owner) as Hby.
  { intros owner Hs E. destruct (wf_map cm Hwf _ _ Hs) as (n & Hn & _ & HN).
    rewrite (deref_Some _ _ _ Hn) in E. subst failed. congruence. }
  unfold promote_slot. destruct failed as [l|] eqn:Ef.
  - destruct (wf_nodes cm Hwf _ _ Ef) as (n & Hn & En). rewrite (deref_Some _ _ _ Hn).
    case_decide as Hin.
    + right. exists l. rewrite claim_after_release. by split; [|split; [eapply (wf_own cm Hwf)|]].
    + left. assert (SlotMap cm !! i <> Some l) as Hne.
      { intros Es. destruct (wf_map cm Hwf _ _ Es) as (n' & Hn' & Hin' & _). congruence. }
      split; [|by right]. destruct (SlotMap cm !! i) as [owner|] eqn:Es; [|done].
      case_decide as Ho; [|done]. destruct Hne. by rewrite (Hby owner eq_refl Ho).
  - left. split; [|by left]. destruct (SlotMap cm !! i) as [owner|] eqn:Es; [|done].
    case_decide as Ho; [|done]. by specialize (Hby owner eq_refl Ho).
Qed.

Lemma promote_slot_wf failedID cm i :
  wf cm -> wf (promote_slot failedID (Nodes cm !! failedID) cm i) /\
           Nodes (promote_slot failedID (Nodes cm !! failedID) cm i) = Nodes cm /\
           Self (promote_slot failedID (Nodes cm !! failedID) cm i) = Self cm.
Proof.
  intros Hwf. destruct (promote_slot_cases failedID cm i Hwf) as [[E _]|(l & _ & Hl & E)]; rewrite E; [done|].
  split; [|done]. apply claim_wf; [apply release_wf; [done|by left]|cbn; apply lookup_delete_eq|].
  by apply (self_registered cm).
Qed.

Lemma promote_wf cm failedID : wf cm -> wf (promote cm failedID).
Proof.
  intros Hwf. unfold promote. apply save_wf.
  set (cm1 := update _ _ _). assert (wf cm1) as Hwf1 by (by apply update_wf). clearbody cm1.
  remember (Nodes cm1 !! failedID) as failed eqn:Ef. generalize (seq 0 NumSlots). intros xs. clear - Hwf1 Ef.
  revert cm1 Hwf1 Ef. induction xs as [|i xs IH]; intros cm Hwf ->; [done|]. cbn [foldl].
  destruct (promote_slot_wf failedID cm i Hwf) as (H1 & H2 & _). apply IH; [done|by rewrite H2].
Qed.

(** ** Slots stay in range *)

Lemma bounds_eq cm cm' : SlotMap cm' = SlotMap cm -> in_bounds cm -> in_bounds cm'.
Proof. unfold in_bounds. by intros ->. Qed.

Lemma save_bounds cm : in_bounds cm -> in_bounds (saveConfigLocked cm).
Proof. by apply bounds_eq. Qed.

Lemma update_bounds f l cm : in_bounds cm -> in_bounds (update f l cm).
Proof. by apply bounds_eq. Qed.

Lemma set_nodes_bounds m cm : in_bounds cm -> in_bounds (set_nodes m cm).
Proof. by apply bounds_eq. Qed.

Lemma set_migration_bounds mig imp cm : in_bounds cm -> in_bounds (set_migration mig imp cm).
Proof. by apply bounds_eq. Qed.

Lemma map_bounds s l cm : (s < NumSlots)%nat -> in_bounds cm -> in_bounds (map_slot s l cm).
Proof.
  intros Hs Hb x l'. cbn [SlotMap map_slot set_slotmap].
  intros [[<- _]|[_ Hx]]%lookup_insert_Some; [done|by eapply Hb].
Qed.

Lemma unmap_bounds s cm : in_bounds cm -> in_bounds (unmap_slot s cm).
Proof.
  intros Hb x l'. cbn [SlotMap unmap_slot set_slotmap]. intros [_ Hx]%lookup_delete_Some. by eapply Hb.
Qed.

Lemma reassign_bounds t s cm : (s < NumSlots)%nat -> in_bounds cm -> in_bounds (reassign t s cm).
Proof.
  intros Hs Hb. unfold reassign. apply map_bounds; [done|].
  by destruct (SlotMap cm !! s); [case_decide|].
Qed.

Lemma fold_bounds {A} (step : ClusterManager -> A -> ClusterManager) xs cm :
  Forall (fun x => forall cm, in_bounds cm -> in_bounds (step cm x)) xs ->
  in_bounds cm -> in_bounds (foldl step cm xs).
Proof. intros HF. revert cm; induction HF; intros cm Hb; cbn [foldl]; auto. Qed.

Lemma fold_slots_bounds step cm :
  (forall cm i, (i < NumSlots)%nat -> in_bounds cm -> in_bounds (step cm i)) ->
  in_bounds cm -> in_bounds (foldl step cm (seq 0 NumSlots)).
Proof.
  intros Hs. apply fold_bounds, Forall_forall. intros i Hi%elem_of_seq cm' Hb. apply Hs; [lia|done].
Qed.

Lemma slot_check s : (16384 <=? Z.of_nat s) = false -> (s < NumSlots)%nat.
Proof. unfold NumSlots. intros H%Z.leb_gt. lia. Qed.

Lemma AddSlots_bounds cm slots : in_bounds cm -> in_bounds (fst (AddSlots cm slots)).
Proof.
  intros Hb. unfold AddSlots. destruct (check_add cm slots) as [e|] eqn:E; [done|].
  cbn [fst]. apply save_bounds, fold_bounds; [|done]. revert E. clear Hb.
  induction slots as [|s slots IH]; [constructor|]. cbn [check_add].
  destruct (16384 <=? Z.of_nat s) eqn:Es; [done|]. intros E. constructor.
  - intros cm' Hb. by apply map_bounds; [apply slot_check|apply update_bounds].
  - apply IH. destruct (SlotMap cm !! s); [by case_decide|done].
Qed.

Lemma AssignSlots_bounds cm id slots : in_bounds cm -> in_bounds (fst (AssignSlotsToNode cm id slots)).
Proof.
  intros Hb. unfold AssignSlotsToNode. destruct (Nodes cm !! id) as [t|]; [|done].
  revert cm Hb. induction slots as [|s slots IH]; intros cm Hb; cbn [assign_loop fst]; [by apply save_bounds|].
  destruct (16384 <=? Z.of_nat s) eqn:Es; [done|]. apply IH, reassign_bounds; [by apply slot_check|done].
Qed.

Lemma DelSlots_bounds cm slots : in_bounds cm -> in_bounds (fst (DelSlots cm slots)).
Proof.
  intros Hb. unfold DelSlots. destruct (check_del cm slots) as [e|]; [done|].
  cbn [fst]. apply save_bounds, fold_bounds; [|done]. apply Forall_true.
  intros s cm' Hb'. by apply unmap_bounds, update_bounds.
Qed.

Lemma SetSlot_bounds cm slot sub id : in_bounds cm -> in_bounds (fst (SetSlot cm slot sub id)).
Proof.
  intros Hb. unfold SetSlot. destruct (16384 <=? Z.of_nat slot) eqn:Es; [done|]. repeat case_decide.
  - destruct (Nodes cm !! id); [|done]. cbn [fst]. apply save_bounds, set_migration_bounds.
    by apply reassign_bounds; [apply slot_check|].
  - destruct (SlotMap cm !! slot); [|done]. case_decide; [done|]. by destruct (Nodes cm !! id).
  - by destruct (Nodes cm !! id).
  - done.
  - done.
Qed.

Lemma RemoveNode_bounds cm id : in_bounds cm -> in_bounds (fst (RemoveNode cm id)).
Proof.
  intros Hb. unfold RemoveNode. case_decide; [done|]. destruct (Nodes cm !! id); [|done].
  cbn [fst]. apply save_bounds, set_nodes_bounds.
  apply fold_bounds; [|done]. apply Forall_true. intros s cm' Hb'. by apply unmap_bounds.
Qed.

Lemma Replicate_bounds cm id : in_bounds cm -> in_bounds (fst (Replicate cm id)).
Proof.
  intros Hb. unfold Replicate. case_decide; [done|]. destruct (Nodes cm !! id); [|done].
  case_decide; [done|]. cbn [fst]. apply save_bounds, update_bounds, fold_slots_bounds; [|done].
  intros cm' i _ Hb'. case_decide; [|done].
  case_decide; [by apply unmap_bounds, update_bounds|by apply update_bounds].
Qed.

Lemma gossip_slotmap now cm gossip id : SlotMap (processGossipEntriesLocked now cm gossip id) = SlotMap cm.
Proof.
  revert cm. induction gossip as [|g gossip IH]; intros cm; [done|].
  unfold processGossipEntriesLocked in *. cbn [foldl]. rewrite IH. unfold gossip_one. case_decide; [done|]. case_match; [by case_match|]. by case_match.
Qed.

Lemma receive_bounds now gen p cm : in_bounds cm -> in_bounds (receive now gen p cm).
Proof.
  intros Hb. unfold receive. assert (in_bounds (fst (find_sender now gen p cm))) as H1.
  { by unfold find_sender; destruct (Nodes cm !! SenderID p). }
  destruct (find_sender now gen p cm) as [cm1 sender]. cbn [fst] in H1.
  set (cm2 := if Bus.Epoch p >? _ then _ else _). assert (in_bounds cm2) as H2 by (subst cm2; by case_match).
  clearbody cm2. case_match; [|done]. apply fold_slots_bounds; [|done].
  intros cm' i Hi Hb'. case_decide; [|done].
  destruct (sync_slot_cases p sender cm' i) as [E|E]; rewrite E; [done|by apply reassign_bounds].
Qed.

Lemma ProcessPacket_bounds now gen order cm p cm' r :
  in_bounds cm -> ProcessPacket now gen order cm p = Ok (cm', r) -> in_bounds cm'.
Proof.
  intros Hb. unfold ProcessPacket. pose proof (receive_bounds now gen p cm Hb) as H1.
  set (cm1 := receive now gen p cm) in *. clearbody cm1. repeat case_decide.
  - intros [= <- <-]. by eapply bounds_eq; [apply gossip_slotmap|].
  - intros [= <- <-]. by eapply bounds_eq; [apply gossip_slotmap|].
  - destruct (Nodes cm1 !! TargetNodeID p); [|by intros [= <- <-]]. case_decide; [|by intros [= <- <-]].
    by intros (? & _ & (? & _ & [= <- <-])%bind_Ok)%bind_Ok.
  - unfold auth_request. case_decide; [|by intros [= <- <-]].
    destruct (Nodes cm1 !! TargetNodeID p); [|by intros [= <- <-]]. case_match; [|by intros [= <- <-]].
    by intros (? & _ & [= <- <-])%bind_Ok.
  - by intros [= <- <-].
Qed.

Lemma audit_one_slotmap now st id st' :
  audit_one now st id = Ok st' -> SlotMap (fst st') = SlotMap (fst st).
Proof.
  destruct st as [cm t], st' as [cm' t']. by apply (audit_one_keeps (fun c => SlotMap c = SlotMap cm)).
Qed.

Lemma audit_slotmap now order st st' : audit now order st = Ok st' -> SlotMap (fst st') = SlotMap (fst st).
Proof.
  revert st. induction order as [|id order IH]; intros st; cbn [audit]; [by intros [= <-]|].
  intros (st1 & E%audit_one_slotmap & H1)%bind_Ok. rewrite <- E. by apply IH.
Qed.

Lemma heartbeat_bounds now o1 o2 o3 cm cm' r :
  in_bounds cm -> heartbeatStep now o1 o2 o3 cm = Ok (cm', r) -> in_bounds cm'.
Proof.
  intros Hb (st & E%audit_slotmap & H1)%bind_Ok. injection H1 as <- _. by eapply bounds_eq.
Qed.

Lemma promote_bounds cm failedID : in_bounds cm -> in_bounds (promote cm failedID).
Proof.
  intros Hb. unfold promote.
  apply save_bounds, fold_slots_bounds; [|by apply update_bounds].
  intros cm' i Hi Hb'. unfold promote_slot.
  repeat match goal with
  | |- in_bounds (map_slot _ _ _) => apply map_bounds; [done|]
  | |- in_bounds (slot_on _ _ _) => apply update_bounds
  | |- in_bounds (slot_off _ _ _) => apply update_bounds
  | |- in_bounds (if decide _ then _ else _) => case_decide
  | |- in_bounds (match ?x with _ => _ end) => destruct x
  end; done.
Qed.

(** ** RESET *)

(** CLUSTER RESET (internal/engine/engine.go). *)
Definition reset_slots (slots : list nat) (cm : ClusterManager) : ClusterManager :=
  foldl (fun cm i => unmap_slot i (slot_off (Self cm) i cm)) cm slots.

Definition cluster_reset (cm : ClusterManager) : ClusterManager :=
  let cm := reset_slots (seq 0 NumSlots) cm in
  saveConfigLocked (set_nodes {[ID (self cm) := Self cm]} cm).

Lemma reset_loop xs : forall cm n, store cm !! Self cm = Some n ->
  let cm' := reset_slots xs cm in
  Self cm' = Self cm /\ (forall s, SlotMap cm' !! s = if decide (s ∈ xs) then None else SlotMap cm !! s) /\
  exists n', store cm' !! Self cm = Some n' /\ ID n' = ID n /\ forall s, s ∈ Slots n' <-> s ∈ Slots n /\ s ∉ xs.
Proof using.
  unfold reset_slots. induction xs as [|i xs IH]; intros cm n Hn; cbn [foldl].
  { split; [done|]. split; [intros s; rewrite decide_False by apply not_elem_of_nil; done|]. exists n. split; [done|]. split; [done|].
    intros s. split; [intros ?; split; [done|apply not_elem_of_nil]|by intros []]. }
  set (cm1 := unmap_slot i (slot_off (Self cm) i cm)).
  assert (Self cm1 = Self cm) as HS by reflexivity.
  assert (store cm1 !! Self cm1 = Some (with_slots (fun S => S ∖ {[i]}) n)) as H1.
  { rewrite HS. change (store (slot_off (Self cm) i cm) !! Self cm = Some (with_slots (fun S => S ∖ {[i]}) n)). rewrite slot_off_store, decide_True, Hn by done. done. }
  destruct (IH cm1 _ H1) as (E1 & E2 & n' & E3 & E4 & E5). rewrite HS in *. split; [done|]. split.
  - intros s. rewrite E2. change (SlotMap cm1 !! s) with (delete i (SlotMap cm) !! s). destruct (decide (s ∈ xs)) as [Hs|Hs].
    + rewrite decide_True; [done|]. apply list_elem_of_further. done.
    + destruct (decide (s = i)) as [->|Hi]; [rewrite decide_True by apply list_elem_of_here; by rewrite lookup_delete_eq|].
      rewrite lookup_delete_ne by done. rewrite decide_False; [done|]. by rewrite elem_of_cons; intros [?|?].
  - exists n'. split; [done|]. split; [by rewrite E4|]. intros s. rewrite E5. change (Slots (with_slots (fun S => S ∖ {[i]}) n)) with (Slots n ∖ {[i]}).
    rewrite elem_of_difference, elem_of_singleton, elem_of_cons. tauto.
Qed.

Lemma reset_over xs cm cm' : wf cm -> (forall s l, SlotMap cm !! s = Some l -> s ∈ xs) -> cm' = reset_slots xs cm ->
  wf (set_nodes {[ID (self cm') := Self cm']} cm') /\ SlotMap cm' = ∅ /\ ID (self cm') = ID (self cm).
Proof using.
  intros Hwf Hb Heq. destruct (wf_self cm Hwf) as (n & Hn & HN).
  destruct (reset_loop xs cm n Hn) as (E1 & E2 & n' & E3 & E4 & E5). rewrite <- Heq in *. clear Heq.
  assert (SlotMap cm' = ∅) as HM.
  { apply map_eq. intros s. rewrite E2, lookup_empty. destruct (decide (s ∈ xs)) as [|Hs]; [done|].
    destruct (SlotMap cm !! s) as [l|] eqn:El; [|done]. destruct Hs. by apply (Hb s l). }
  assert (forall s, s ∉ Slots n') as HS.
  { intros s Hs. apply E5 in Hs as [Hs Hnin]. apply Hnin, (Hb s _ (wf_own cm Hwf _ _ _ _ HN Hn Hs)). }
  assert (self cm' = n') as Hself by (unfold self, deref; by rewrite E1, E3).
  assert (self cm = n) as Hself0 by (unfold self, deref; by rewrite Hn).
  split; [|split; [done|]].
  - constructor; cbn [set_nodes Self store Nodes SlotMap].
    + exists n'. rewrite E1. split; [done|]. by rewrite Hself, lookup_singleton_eq.
    + intros id l [<- <-]%lookup_singleton_Some. exists n'. rewrite E1, Hself. done.
    + intros s l Hs. rewrite HM, lookup_empty in Hs. done.
    + intros id l m s [<- <-]%lookup_singleton_Some Hm Hs. rewrite E1, E3 in Hm. injection Hm as <-. by destruct (HS s).
  - by rewrite Hself, Hself0, E4.
Qed.

Lemma cluster_reset_eq cm : exists cm', cm' = reset_slots (seq 0 NumSlots) cm /\ cluster_reset cm = saveConfigLocked (set_nodes {[ID (self cm') := Self cm']} cm').
Proof using. eexists. split; reflexivity. Qed.

Lemma reset_empty cm : wf cm -> in_bounds cm ->
  wf (cluster_reset cm) /\ SlotMap (cluster_reset cm) = ∅ /\ dom (Nodes (cluster_reset cm)) = {[ID (self cm)]}.
Proof using.
  intros Hwf Hb. assert (forall s l, SlotMap cm !! s = Some l -> s ∈ seq 0 NumSlots) as Hs.
  { intros s l Hl. apply elem_of_seq. pose proof (Hb s l Hl) as H. split; [apply Nat.le_0_l|exact H]. }
  destruct (cluster_reset_eq cm) as (cm' & E & ->).
  destruct (reset_over _ cm cm' Hwf Hs E) as (H1 & H2 & H3). clear E. split; [by apply save_wf|]. split; [done|].
  change (dom ({[ID (self cm') := Self cm']} : gmap bytes positive) = {[ID (self cm)]}). by rewrite dom_singleton_L, H3.
Qed.

Lemma reset_inv cm : wf cm /\ in_bounds cm -> wf (cluster_reset cm) /\ in_bounds (cluster_reset cm).
Proof. intros [H1 H2]. destruct (reset_empty cm H1 H2) as (? & HM & _). split; [done|]. intros s l. by rewrite HM, lookup_empty. Qed.

(** ** The manager as a state machine

    The operations of a running node: the cluster commands but MEET (see
    [Topology]), the packets its bus receives, its heartbeat and the two halves of an
    election.  An operation
    that panics ends the process. *)

Inductive COp :=
| OAddSlots (slots : list nat)
| OAssignSlots (id : bytes) (slots : list nat)
| ODelSlots (slots : list nat)
| OSetSlot (slot : nat) (sub id : bytes)
| ORemoveNode (id : bytes)
| OReplicate (id : bytes)
| OPacket (now : Z) (gen : bytes) (order : list bytes) (p : BusPacket)
| OHeartbeat (now : Z) (order1 order2 order3 : list bytes)
| OElection (order : list bytes) (id : bytes)
| OPromote (order1 order2 : list bytes) (id : bytes)
| OReset.

Definition cexec (cm : ClusterManager) (op : COp) : res panic ClusterManager :=
  match op with
  | OAddSlots slots => Ok (fst (AddSlots cm slots))
  | OAssignSlots id slots => Ok (fst (AssignSlotsToNode cm id slots))
  | ODelSlots slots => Ok (fst (DelSlots cm slots))
  | OSetSlot slot sub id => Ok (fst (SetSlot cm slot sub id))
  | ORemoveNode id => Ok (fst (RemoveNode cm id))
  | OReplicate id => Ok (fst (Replicate cm id))
  | OPacket now gen order p => r ← ProcessPacket now gen order cm p; Ok (fst r)
  | OHeartbeat now o1 o2 o3 => r ← heartbeatStep now o1 o2 o3 cm; Ok (fst r)
  | OElection order id => r ← start_election cm order id; Ok (fst r)
  | OPromote o1 o2 id => r ← PromoteReplica o1 o2 cm id; Ok (fst r)
  | OReset => Ok (cluster_reset cm)
  end.

(** A packet names its sender. *)
Definition named (op : COp) : Prop :=
  match op with OPacket _ _ _ p => SenderID p <> [] | _ => True end.

(** The states of a node that found no configuration file and met no peer by
    command: every sequence of the operations above. *)
Inductive reachable (cm0 : ClusterManager) : ClusterManager -> Prop :=
| reach_init : reachable cm0 cm0
| reach_step cm op cm' : reachable cm0 cm -> named op -> cexec cm op = Ok cm' -> reachable cm0 cm'.

Lemma cexec_inv cm op cm' :
  named op -> cexec cm op = Ok cm' -> wf cm /\ in_bounds cm -> wf cm' /\ in_bounds cm'.
Proof.
  intros Hn He [Hwf Hb].
  destruct op; cbn [cexec named] in *;
    try (injection He as <-);
    try (apply bind_Ok in He as ([cm1 r] & He & [= <-]); cbn [fst]).
  - auto using AddSlots_wf, AddSlots_bounds.
  - auto using AssignSlots_wf, AssignSlots_bounds.
  - auto using DelSlots_wf, DelSlots_bounds.
  - auto using SetSlot_wf, SetSlot_bounds.
  - auto using RemoveNode_wf, RemoveNode_bounds.
  - auto using Replicate_wf, Replicate_bounds.
  - eauto using ProcessPacket_wf, ProcessPacket_bounds.
  - eauto using heartbeat_wf, heartbeat_bounds.
  - unfold start_election in He. case_decide; [by injection He as <- _|].
    apply bind_Ok in He as (? & _ & (? & _ & [= <- _])%bind_Ok). auto.
  - unfold PromoteReplica in He. case_decide; [by injection He as <- _|].
    apply bind_Ok in He as (? & _ & [= <- _]). auto using promote_wf, promote_bounds.
  - by apply reset_inv.
Qed.

Lemma initial_inv gen now ip port busPort text :
  wf (InitialManager gen now ip port busPort text) /\ in_bounds (InitialManager gen now ip port busPort text).
Proof.
  unfold InitialManager. set (n := NewNode _ _ _ _ _ _ _).
  assert (Slots n = ∅) as Hs by done. clearbody n. split; [|intros s l; cbn; by rewrite lookup_empty].
  split; cbn.
  - exists n. by rewrite !lookup_singleton_eq.
  - intros id l [<- <-]%lookup_singleton_Some. exists n. by rewrite lookup_singleton_eq.
  - intros s l. by rewrite lookup_empty.
  - intros id l n' s _ [_ <-]%lookup_singleton_Some. rewrite Hs. set_solver.
Qed.

Lemma reachable_inv cm0 cm : wf cm0 /\ in_bounds cm0 -> reachable cm0 cm -> wf cm /\ in_bounds cm.
Proof. intros H0 Hr. induction Hr as [|cm op cm' _ IH Hn He]; [done|]. by eapply cexec_inv. Qed.

(** Under the invariant the owner in the slot map is the registered node that
    claims the slot. *)
Lemma owner_spec cm s l :
  wf cm -> in_bounds cm ->
  GetSlotOwner cm s = Some l <->
  exists id n, Nodes cm !! id = Some l /\ store cm !! l = Some n /\ s ∈ Slots n.
Proof.
  intros Hwf Hb. unfold GetSlotOwner. split.
  - case_match; [done|]. intros Hs. destruct (wf_map cm Hwf _ _ Hs) as (n & Hn & Hin & HN).
    by exists (ID n), n.
  - intros (id & n & HN & Hn & Hs). pose proof (wf_own cm Hwf _ _ _ _ HN Hn Hs) as Hm.
    pose proof (Hb _ _ Hm) as Hlt. unfold NumSlots in Hlt. rewrite (proj2 (Z.leb_gt _ _)) by lia. done.
Qed.

(** C27: on a node that started without a nodes.conf and on which CLUSTER MEET
    was never run, whatever ADDSLOTS, DELSLOTS, SETSLOT, FORGET, REPLICATE and
    RESET commands, slot assignments, bus packets with a sender identifier,
    heartbeats, elections and promotions it processes: a slot has at most one
    owner, the registered node whose slot array alone claims it, the slot map
    agrees with these arrays, slots are below 16384, and the node itself stays
    registered. *)
Theorem slot_ownership gen now ip port busPort text cm :
  reachable (InitialManager gen now ip port busPort text) cm ->
  (forall s l, GetSlotOwner cm s = Some l <->
     exists id n, Nodes cm !! id = Some l /\ store cm !! l = Some n /\ s ∈ Slots n) /\
  (forall s id1 id2 l1 l2, Nodes cm !! id1 = Some l1 -> Nodes cm !! id2 = Some l2 ->
     s ∈ Slots (deref cm l1) -> s ∈ Slots (deref cm l2) -> id1 = id2 /\ Z.of_nat s < 16384) /\
  Nodes cm !! ID (self cm) = Some (Self cm).
Proof.
  intros Hr. destruct (reachable_inv _ _ (initial_inv _ _ _ _ _ _) Hr) as [Hwf Hb].
  split; [intros s l; by apply owner_spec|]. split.
  - intros s id1 id2 l1 l2 H1 H2 Hs1 Hs2.
    destruct (wf_nodes cm Hwf _ _ H1) as (n1 & Hn1 & E1), (wf_nodes cm Hwf _ _ H2) as (n2 & Hn2 & E2).
    rewrite (deref_Some _ _ _ Hn1) in Hs1. rewrite (deref_Some _ _ _ Hn2) in Hs2.
    pose proof (wf_own cm Hwf _ _ _ _ H1 Hn1 Hs1) as M1. pose proof (wf_own cm Hwf _ _ _ _ H2 Hn2 Hs2) as M2.
    pose proof (Hb _ _ M1) as Hlt. unfold NumSlots in Hlt. split; [congruence|lia].
  - destruct (wf_self cm Hwf) as (n & Hn & HN). unfold self. by rewrite (deref_Some _ _ _ Hn).
Qed.

Definition one_slot : ClusterManager :=
  fst (AddSlots (InitialManager (str "0123456789abcdef") 5 [] 0 0 []) [7%nat]).

Lemma slot_ownership_witness :
  GetSlotOwner one_slot 7 = Some 1%positive /\
  Nodes one_slot !! ID (self one_slot) = Some (Self one_slot).
Proof.
  split; [reflexivity|].
  assert (reachable (InitialManager (str "0123456789abcdef") 5 [] 0 0 []) one_slot) as Hr.
  { eapply (reach_step _ _ (OAddSlots [7%nat])); [apply reach_init|exact I|reflexivity]. }
  destruct (slot_ownership (str "0123456789abcdef") 5 [] 0 0 [] one_slot Hr) as (_ & _ & H). exact H.
Defined.

(** ** What the slot operations do to the slot map *)

(** A loop over slots whose step treats each slot on its own. *)
Lemma fold_slotmap (P : ClusterManager -> Prop) step (g : nat -> option positive -> option positive) xs cm :
  (forall i o, g i (g i o) = g i o) ->
  (forall cm i, P cm -> P (step cm i) /\
     forall s, SlotMap (step cm i) !! s = if decide (s = i) then g s (SlotMap cm !! s) else SlotMap cm !! s) ->
  P cm ->
  P (foldl step cm xs) /\
  forall s, SlotMap (foldl step cm xs) !! s = if decide (s ∈ xs) then g s (SlotMap cm !! s) else SlotMap cm !! s.
Proof.
  intros Hg Hstep. revert cm; induction xs as [|x xs IH]; intros cm HP; [done|]. cbn [foldl].
  destruct (Hstep cm x HP) as [HP' Hx]. destruct (IH _ HP') as [HP'' Hm]. split; [done|].
  intros s. rewrite Hm, Hx. destruct (decide (s = x)) as [->|Hne].
  - rewrite (decide_True (P := x ∈ x :: xs)) by set_solver. case_decide; by rewrite ?Hg.
  - destruct (decide (s ∈ xs)) as [H|H];
      [rewrite decide_True by set_solver|rewrite decide_False by set_solver]; done.
Qed.

(** The role of a node does not change when a slot does. *)
Lemma slot_role f l cm x :
  (Role (deref (update (with_slots f) l cm) x), MasterID (deref (update (with_slots f) l cm) x))
  = (Role (deref cm x), MasterID (deref cm x)).
Proof.
  unfold deref. cbn. destruct (decide (l = x)) as [->|].
  - rewrite lookup_alter_eq. by destruct (store cm !! x).
  - by rewrite lookup_alter_ne.
Qed.

(** The state the promotion loop keeps, with the new master at [sf]. *)
Definition promoting (failedID : bytes) (l sf : positive) (cm : ClusterManager) : Prop :=
  wf cm /\ Nodes cm !! failedID = Some l /\ Self cm = sf /\
  Role (self cm) = master /\ MasterID (self cm) = str "-".

Lemma promote_step failedID l sf cm i :
  promoting failedID l sf cm ->
  promoting failedID l sf (promote_slot failedID (Some l) cm i) /\
  forall s, SlotMap (promote_slot failedID (Some l) cm i) !! s =
    if decide (s = i) then (if decide (SlotMap cm !! s = Some l) then Some sf else SlotMap cm !! s)
    else SlotMap cm !! s.
Proof.
  intros (Hc & HN & HS & HR & HM). rewrite <- HN.
  destruct (promote_slot_wf failedID cm i Hc) as (W1 & W2 & W3).
  destruct (promote_slot_cases failedID cm i Hc) as [[E Hno]|(l' & El & Es & E)]; rewrite E in *.
  - split; [done|]. intros s. case_decide as Hi; [subst s|done].
    rewrite decide_False; [done|]. destruct Hno as [?|Hno]; congruence.
  - rewrite HN in El. injection El as <-. split.
    + split; [done|]. split; [done|]. split; [done|]. unfold self in *.
      pose proof (slot_role (fun S => {[i]} ∪ S) (Self cm) (unmap_slot i (slot_off l i cm)) (Self cm)) as R1.
      pose proof (slot_role (fun S => S ∖ {[i]}) l cm (Self cm)) as R2.
      unfold deref in *. cbn in *. split; congruence.
    + intros s. cbn. case_decide as Hi; [subst s|by rewrite lookup_insert_ne, lookup_delete_ne].
      rewrite lookup_insert_eq, decide_True by congruence. by rewrite HS.
Qed.

Lemma promote_map cm failedID l :
  wf cm -> Nodes cm !! failedID = Some l ->
  let cm' := promote cm failedID in
  promoting failedID l (Self cm) cm' /\
  forall s, SlotMap cm' !! s =
    if decide (s ∈ seq 0 NumSlots)
    then (if decide (SlotMap cm !! s = Some l) then Some (Self cm) else SlotMap cm !! s)
    else SlotMap cm !! s.
Proof.
  intros Hwf Hl cm'. subst cm'. unfold promote. cbn zeta.
  change (Nodes (update (with_role master (str "-")) (Self cm) cm)) with (Nodes cm). rewrite Hl.
  generalize (seq 0 NumSlots). intros xs.
  destruct (fold_slotmap (promoting failedID l (Self cm)) (promote_slot failedID (Some l))
              (fun _ o => if decide (o = Some l) then Some (Self cm) else o) xs
              (update (with_role master (str "-")) (Self cm) cm)) as [(H1 & H2) H3].
  - intros i o. repeat case_decide; congruence.
  - intros c i. apply promote_step.
  - split; [by apply update_wf|]. split; [done|]. split; [done|]. unfold self, deref. cbn.
    rewrite lookup_alter_eq. destruct (wf_self cm Hwf) as (n & -> & _). done.
  - split; [|exact H3]. split; [by apply save_wf|exact H2].
Qed.

(** ** The slot commands *)

Lemma AddSlots_map cm slots :
  check_add cm slots = None ->
  forall s, SlotMap (fst (AddSlots cm slots)) !! s = if decide (s ∈ slots) then Some (Self cm) else SlotMap cm !! s.
Proof.
  intros E. unfold AddSlots. rewrite E. cbn [fst].
  apply (fold_slotmap (fun c => Self c = Self cm) (fun cm s => map_slot s (Self cm) (slot_on (Self cm) s cm))
           (fun _ _ => Some (Self cm))); [done| |done].
  intros c i Hc. split; [done|]. intros s. cbn. rewrite Hc.
  case_decide as Hi; [subst; apply lookup_insert_eq|by apply lookup_insert_ne].
Qed.

Lemma DelSlots_map cm slots :
  check_del cm slots = None ->
  forall s, SlotMap (fst (DelSlots cm slots)) !! s = if decide (s ∈ slots) then None else SlotMap cm !! s.
Proof.
  intros E. unfold DelSlots. rewrite E. cbn [fst].
  apply (fold_slotmap (fun _ => True) (fun cm s => unmap_slot s (slot_off (Self cm) s cm))
           (fun _ _ => None)); [done| |done].
  intros c i _. split; [done|]. intros s. cbn.
  case_decide as Hi; [subst; apply lookup_delete_eq|by apply lookup_delete_ne].
Qed.

Lemma reassign_map t i cm s :
  SlotMap (reassign t i cm) !! s = if decide (s = i) then Some t else SlotMap cm !! s.
Proof.
  unfold reassign. cbn [SlotMap map_slot set_slotmap].
  set (cm1 := match SlotMap cm !! i with Some _ => _ | None => cm end).
  assert (SlotMap cm1 = SlotMap cm) as E by (subst cm1; by destruct (SlotMap cm !! i); [case_decide|]).
  change (SlotMap (slot_on t i cm1)) with (SlotMap cm1). rewrite E.
  case_decide as Hi; [subst; apply lookup_insert_eq|by apply lookup_insert_ne].
Qed.

Lemma AssignSlots_map cm id t slots :
  Nodes cm !! id = Some t -> Forall (fun s => Z.of_nat s < 16384) slots ->
  snd (AssignSlotsToNode cm id slots) = None /\
  forall s, SlotMap (fst (AssignSlotsToNode cm id slots)) !! s = if decide (s ∈ slots) then Some t else SlotMap cm !! s.
Proof.
  intros Ht HF. unfold AssignSlotsToNode. rewrite Ht. clear Ht.
  revert cm. induction HF as [|x slots Hx _ IH]; intros cm; [done|]. cbn [assign_loop].
  rewrite (proj2 (Z.leb_gt _ _)) by done. destruct (IH (reassign t x cm)) as [H1 H2]. split; [done|].
  intros s. rewrite H2, reassign_map.
  destruct (decide (s = x)) as [->|]; [rewrite (decide_True (P := x ∈ x :: slots)) by set_solver; by case_decide|].
  destruct (decide (s ∈ slots));
    [rewrite decide_True by set_solver|rewrite decide_False by set_solver]; done.
Qed.

(** The state the loop of [Replicate] keeps. *)
Definition replicating (cm0 cm : ClusterManager) : Prop :=
  wf cm /\ Nodes cm = Nodes cm0 /\ Self cm = Self cm0.

Lemma same_self_ID cm0 cm : wf cm0 -> replicating cm0 cm -> ID (self cm) = ID (self cm0).
Proof.
  intros Hwf0 (Hwf & HN & HS). destruct (wf_self cm0 Hwf0) as (n0 & Hn0 & HN0).
  rewrite <- HN, <- HS in HN0. destruct (wf_nodes cm Hwf _ _ HN0) as (n & Hn & E).
  unfold self. by rewrite (deref_Some _ _ _ Hn), (deref_Some _ _ _ Hn0).
Qed.

Lemma Replicate_map cm masterID m :
  wf cm -> masterID <> ID (self cm) -> Nodes cm !! masterID = Some m -> Role (deref cm m) = master ->
  let cm' := fst (Replicate cm masterID) in
  snd (Replicate cm masterID) = None /\ replicating cm cm' /\
  Role (self cm') = slave /\ MasterID (self cm') = masterID /\
  forall s, SlotMap cm' !! s =
    if decide (s ∈ seq 0 NumSlots)
    then (if decide (SlotMap cm !! s = Some (Self cm)) then None else SlotMap cm !! s)
    else SlotMap cm !! s.
Proof.
  intros Hwf Hne Hm Hrole. unfold Replicate. rewrite decide_False by done. rewrite Hm.
  rewrite decide_False by (intros H; by apply H). cbn [fst snd]. split; [done|].
  generalize (seq 0 NumSlots). intros xs. set (step := fun (cm : ClusterManager) (i : nat) => _).
  destruct (fold_slotmap (replicating cm) step
              (fun _ o => if decide (o = Some (Self cm)) then None else o) xs cm) as [(H1 & H2 & H3) H4].
  - intros i o. repeat case_decide; congruence.
  - intros c i (Hc & HN & HS). subst step. cbn beta. destruct (wf_self c Hc) as (n & Hn & HN').
    assert (self c = n) as -> by (by apply deref_Some). case_decide as Hin.
    + pose proof (wf_own c Hc _ _ _ _ HN' Hn Hin) as Hmap. rewrite decide_True by done. split.
      * split; [by apply release_wf; [|left]|done].
      * intros s. cbn. case_decide as Hi; [subst s|by apply lookup_delete_ne].
        rewrite lookup_delete_eq. by rewrite decide_True by congruence.
    + split; [done|]. intros s. case_decide as Hi; [subst s|done]. rewrite decide_False; [done|].
      intros Hmap. rewrite <- HS in Hmap. destruct (wf_map c Hc _ _ Hmap) as (n' & Hn' & Hin' & _). congruence.
  - done.
  - set (cm1 := foldl step cm xs) in *. clearbody cm1.
    split; [split; [apply save_wf; by apply update_wf|done]|].
    assert (self (saveConfigLocked (update (with_role slave masterID) (Self cm1) cm1))
            = with_role slave masterID (self cm1)) as Hself.
    { unfold self, deref. cbn. rewrite lookup_alter_eq. destruct (wf_self cm1 H1) as (n & -> & _). done. }
    rewrite Hself. done.
Qed.

(** C28: on a node that started without a nodes.conf, never ran CLUSTER MEET and
    received only packets with a sender identifier: when it is a replica and is
    promoted in place of another registered node, it becomes a master and takes
    over exactly the slots that node owned; every other slot keeps its owner,
    and the failed node claims nothing any more. *)
Theorem failover_takes_over gen now ip port busPort text cm o1 o2 failedID l cm' r :
  reachable (InitialManager gen now ip port busPort text) cm ->
  Role (self cm) <> master -> Nodes cm !! failedID = Some l -> l <> Self cm ->
  PromoteReplica o1 o2 cm failedID = Ok (cm', r) ->
  Role (self cm') = master /\ MasterID (self cm') = str "-" /\
  (forall s, GetSlotOwner cm' s =
     if decide (GetSlotOwner cm s = Some l) then Some (Self cm) else GetSlotOwner cm s) /\
  (forall s, s ∉ Slots (deref cm' l)).
Proof.
  intros Hr Hrole Hl Hne He. destruct (reachable_inv _ _ (initial_inv _ _ _ _ _ _) Hr) as [Hwf Hb].
  unfold PromoteReplica in He. rewrite decide_False in He by done.
  apply bind_Ok in He as (? & _ & [= He _]).
  destruct (promote_map cm failedID l Hwf Hl) as ((Hwf' & Hn' & _ & Hm' & Hid') & Hmap).
  rewrite He in *. clear He. split; [done|]. split; [done|].
  assert (forall s, (s < NumSlots)%nat -> s ∈ seq 0 NumSlots) as Hin by (intros s ?; apply elem_of_seq; lia).
  split.
  - intros s. unfold GetSlotOwner. destruct (16384 <=? Z.of_nat s) eqn:Es; [by rewrite decide_False|].
    rewrite Hmap, decide_True by (apply Hin; by apply slot_check). done.
  - intros s Hs. destruct (wf_nodes cm' Hwf' _ _ Hn') as (n & Hn & _).
    rewrite (deref_Some _ _ _ Hn) in Hs. pose proof (wf_own cm' Hwf' _ _ _ _ Hn' Hn Hs) as Hm.
    rewrite Hmap in Hm. case_decide as Hd; [case_decide; congruence|]. apply Hd, Hin. by eapply Hb.
Qed.

(** A sequence of operations, executed. *)
Fixpoint crun (cm : ClusterManager) (ops : list COp) : res panic ClusterManager :=
  match ops with
  | [] => Ok cm
  | op :: ops' => cm' ← cexec cm op; crun cm' ops'
  end.

Lemma crun_reachable cm0 cm ops cm' :
  reachable cm0 cm -> Forall named ops -> crun cm ops = Ok cm' -> reachable cm0 cm'.
Proof.
  intros Hr Hn. revert cm Hr. induction Hn as [|op ops Hop _ IH]; intros cm Hr; cbn [crun].
  - by intros [= <-].
  - intros (cm1 & E & H1)%bind_Ok. eapply IH, H1. by eapply reach_step.
Qed.

(** A node that becomes the replica of a master of slot 3. *)
Definition node_a : bytes := str "aaaaaaaaaaaaaaaa".
Definition node_b : bytes := str "bbbbbbbbbbbbbbbb".

Definition hello (id : bytes) : BusPacket :=
  mkPacket TypePong 1 id (str "10.0.0.2") 7379 17379 0 [] [] [] 0.

Definition start_a : ClusterManager := InitialManager node_a 5 [] 0 0 [].
Definition met_b : ClusterManager := receive 10 [] (hello node_b) start_a.
Definition b_owns_3 : ClusterManager := fst (AssignSlotsToNode met_b node_b [3%nat]).
Definition replica_state : ClusterManager := fst (Replicate b_owns_3 node_b).

Lemma b_owns_3_reachable : reachable start_a b_owns_3.
Proof.
  apply (reach_step _ met_b (OAssignSlots node_b [3%nat])); [|exact I|reflexivity].
  by apply (reach_step _ start_a (OPacket 10 [] [] (hello node_b))); [apply reach_init| |].
Qed.

Lemma replica_reachable : reachable start_a replica_state.
Proof.
  apply (reach_step _ b_owns_3 (OReplicate node_b)); [apply b_owns_3_reachable|exact I|reflexivity].
Qed.

Lemma b_owns_3_facts :
  ID (self b_owns_3) = node_a /\ Nodes b_owns_3 !! node_b = Some 2%positive /\ Self b_owns_3 = 1%positive /\
  Role (deref b_owns_3 2) = master /\ SlotMap b_owns_3 !! 3%nat = Some 2%positive.
Proof. repeat split; reflexivity. Qed.

(** A node that replicates a master keeps what it knows of the master. *)
Lemma Replicate_facts cm id l s :
  wf cm -> id <> ID (self cm) -> Nodes cm !! id = Some l -> l <> Self cm -> Role (deref cm l) = master ->
  SlotMap cm !! s = Some l -> Z.of_nat s < 16384 ->
  let cm' := fst (Replicate cm id) in
  Role (self cm') = slave /\ Nodes cm' !! id = Some l /\ Self cm' = Self cm /\
  ID (self cm') = ID (self cm) /\ GetSlotOwner cm' s = Some l.
Proof.
  intros Hwf HI HN0 Hne HR0 HM0 Hs.
  destruct (Replicate_map cm id l Hwf HI HN0 HR0) as (_ & Hrep & HR & _ & HM).
  revert Hrep HR HM. generalize (fst (Replicate cm id)). intros cm' Hrep HR HM. cbn zeta.
  pose proof (same_self_ID _ _ Hwf Hrep) as HI'. destruct Hrep as (_ & HN & HS).
  rewrite HN, HI'. repeat (split; [done|]). unfold GetSlotOwner. rewrite (proj2 (Z.leb_gt _ _)) by done.
  rewrite HM, HM0, (decide_False (P := Some l = Some (Self cm))) by congruence. by case_decide.
Qed.

Lemma replica_state_facts :
  Role (self replica_state) = slave /\ Nodes replica_state !! node_b = Some 2%positive /\
  Self replica_state = Self b_owns_3 /\ ID (self replica_state) = ID (self b_owns_3) /\
  GetSlotOwner replica_state 3 = Some 2%positive.
Proof.
  destruct (reachable_inv start_a b_owns_3 (initial_inv _ _ _ _ _ _) b_owns_3_reachable) as [Hwf Hb].
  destruct b_owns_3_facts as (HI & HN0 & HS0 & HR0 & HM0).
  apply Replicate_facts; [exact Hwf|by rewrite HI|exact HN0|by rewrite HS0|exact HR0|exact HM0|done].
Qed.

Lemma failover_takes_over_witness :
  GetSlotOwner replica_state 3 = Some 2%positive /\
  exists cm' r, PromoteReplica [] [] replica_state node_b = Ok (cm', r) /\
    GetSlotOwner cm' 3 = Some (Self replica_state).
Proof.
  destruct replica_state_facts as (HR & HN & HS & HI & H3). split; [exact H3|].
  assert (exists cm' r, PromoteReplica [] [] replica_state node_b = Ok (cm', r)) as (cm' & r & HP).
  { unfold PromoteReplica. rewrite HR, HI, decide_False by done.
    rewrite (proj1 b_owns_3_facts). eexists _, _. reflexivity. }
  exists cm', r. split; [exact HP|].
  destruct (failover_takes_over node_a 5 [] 0 0 [] replica_state [] [] node_b 2%positive cm' r replica_reachable)
    as (_ & _ & H & _); [by rewrite HR|exact HN|rewrite HS; discriminate|exact HP|].
  rewrite H, decide_True by exact H3. reflexivity.
Defined.

(** The validation of [ADDSLOTS] and [DELSLOTS], in terms of owners. *)
Lemma check_add_spec cm slots :
  wf cm ->
  check_add cm slots = None <->
  Forall (fun s => Z.of_nat s < 16384 /\ (GetSlotOwner cm s = None \/ GetSlotOwner cm s = Some (Self cm))) slots.
Proof.
  intros Hwf. induction slots as [|s slots IH]; [by split; [constructor|]|].
  rewrite Forall_cons, <- IH. cbn [check_add]. unfold GetSlotOwner.
  destruct (Z.leb_spec 16384 (Z.of_nat s)); [split; [done|lia]|].
  destruct (SlotMap cm !! s) as [o|] eqn:Es; [|naive_solver].
  case_decide as Hd.
  - split; [done|]. intros [[_ [?|[= ->]]] _]; [done|]. by destruct Hd.
  - assert (o = Self cm) as -> by (by eapply owner_self). naive_solver.
Qed.

Lemma check_del_spec cm slots :
  wf cm ->
  check_del cm slots = None <->
  Forall (fun s => Z.of_nat s < 16384 /\ GetSlotOwner cm s = Some (Self cm)) slots.
Proof.
  intros Hwf. induction slots as [|s slots IH]; [by split; [constructor|]|].
  rewrite Forall_cons, <- IH. cbn [check_del]. unfold GetSlotOwner.
  destruct (Z.leb_spec 16384 (Z.of_nat s)); [split; [done|lia]|].
  destruct (SlotMap cm !! s) as [o|] eqn:Es; [|naive_solver].
  case_decide as Hd.
  - split; [done|]. intros [[_ [= ->]] _]. by destruct Hd.
  - assert (o = Self cm) as -> by (by eapply owner_self). naive_solver.
Qed.

(** The owner after a command that sets the slots [xs] to [v]. *)
Lemma owner_update cm cm' xs v :
  Forall (fun s => Z.of_nat s < 16384) xs ->
  (forall s, SlotMap cm' !! s = if decide (s ∈ xs) then v else SlotMap cm !! s) ->
  forall s, GetSlotOwner cm' s = if decide (s ∈ xs) then v else GetSlotOwner cm s.
Proof.
  intros HF Hm s. unfold GetSlotOwner. rewrite Hm. rewrite Forall_forall in HF.
  destruct (Z.leb_spec 16384 (Z.of_nat s)); [|done].
  rewrite decide_False; [done|]. intros Hin%HF. lia.
Qed.

(** [ADDSLOTS] succeeds exactly when every slot is in range and free or
    already the node's own, and [DELSLOTS] exactly when every slot is the node's
    own; on success they give the node exactly these slots, or free exactly
    these slots, and on an error nothing changes. *)
Theorem local_slot_commands gen now ip port busPort text cm slots :
  reachable (InitialManager gen now ip port busPort text) cm ->
  (match snd (AddSlots cm slots) with
   | None =>
       Forall (fun s => Z.of_nat s < 16384 /\
         (GetSlotOwner cm s = None \/ GetSlotOwner cm s = Some (Self cm))) slots /\
       forall s, GetSlotOwner (fst (AddSlots cm slots)) s =
         if decide (s ∈ slots) then Some (Self cm) else GetSlotOwner cm s
   | Some _ =>
       Exists (fun s => 16384 <= Z.of_nat s \/
         exists l, GetSlotOwner cm s = Some l /\ l <> Self cm) slots /\
       fst (AddSlots cm slots) = cm
   end) /\
  (match snd (DelSlots cm slots) with
   | None =>
       Forall (fun s => GetSlotOwner cm s = Some (Self cm)) slots /\
       forall s, GetSlotOwner (fst (DelSlots cm slots)) s =
         if decide (s ∈ slots) then None else GetSlotOwner cm s
   | Some _ =>
       Exists (fun s => GetSlotOwner cm s <> Some (Self cm)) slots /\
       fst (DelSlots cm slots) = cm
   end).
Proof.
  intros Hr. destruct (reachable_inv _ _ (initial_inv _ _ _ _ _ _) Hr) as [Hwf _].
  pose proof (check_add_spec cm slots Hwf) as HA. pose proof (check_del_spec cm slots Hwf) as HD.
  pose proof (AddSlots_map cm slots) as MA. pose proof (DelSlots_map cm slots) as MD.
  split.
  - unfold AddSlots in *. destruct (check_add cm slots) as [e|]; cbn [fst snd] in *.
    + split; [|done]. destruct (decide (Forall (fun s => Z.of_nat s < 16384 /\
        (GetSlotOwner cm s = None \/ GetSlotOwner cm s = Some (Self cm))) slots)) as [HF|HF];
        [by apply HA in HF|].
      apply not_Forall_Exists in HF; [|apply _]. eapply Exists_impl; [exact HF|]. cbn. intros s Hs.
      destruct (Z.le_gt_cases 16384 (Z.of_nat s)) as [?|Hlt]; [by left|]. right.
      destruct (GetSlotOwner cm s) as [l|]; [|by destruct Hs; auto].
      exists l. split; [done|]. intros ->. destruct Hs; auto.
    + pose proof (proj1 HA eq_refl) as HF. split; [done|]. apply owner_update; [|by apply MA].
      eapply Forall_impl; [exact HF|]. tauto.
  - unfold DelSlots in *. destruct (check_del cm slots) as [e|]; cbn [fst snd] in *.
    + split; [|done]. destruct (decide (Forall (fun s => Z.of_nat s < 16384 /\
        GetSlotOwner cm s = Some (Self cm)) slots)) as [HF|HF]; [by apply HD in HF|].
      apply not_Forall_Exists in HF; [|apply _]. eapply Exists_impl; [exact HF|]. cbn. intros s Hs E.
      apply Hs. split; [|done]. unfold GetSlotOwner in E. case_match eqn:Hlt; [done|]. apply Z.leb_gt in Hlt. lia.
    + pose proof (proj1 HD eq_refl) as HF. split; [eapply Forall_impl; [exact HF|tauto]|].
      apply owner_update; [|by apply MD]. eapply Forall_impl; [exact HF|tauto].
Qed.

Lemma local_slot_commands_witness :
  snd (AddSlots start_a [7%nat]) = None /\
  GetSlotOwner (fst (AddSlots start_a [7%nat])) 7 = Some (Self start_a) /\
  fst (DelSlots start_a [7%nat]) = start_a.
Proof.
  destruct (local_slot_commands node_a 5 [] 0 0 [] start_a [7%nat] (reach_init start_a)) as [HA HD].
  split; [reflexivity|]. split; [|apply HD].
  destruct HA as [_ HA]. rewrite HA. reflexivity.
Defined.
