(* ===== verification/Election.v ===== *)
(** * Votes and elections (internal/cluster/gossip.go)

    What a sequence of operations of a node does to its epochs, and which votes
    it grants along the way; then what a candidate does with the votes. *)

From S2P Require Import Prelude Bus Node Cluster.

(** The vote an operation grants: the reply to a request of a candidate.  The vote
    that a candidate counts for itself in [RunFailoverElection] is not sent and not
    recorded, and is not a grant here (see [split_vote_possible]). *)
Definition vote_of (cm : ClusterManager) (op : COp) : option BusPacket :=
  match op with
  | OPacket now gen order p =>
      match ProcessPacket now gen order cm p with
      | Ok (_, Some r) => if decide (Bus.Type_ r = TypeFailoverAuthAck) then Some r else None
      | _ => None
      end
  | _ => None
  end.

(** The votes of a sequence of operations, in order. *)
Fixpoint granted (cm : ClusterManager) (ops : list COp) : list BusPacket :=
  match ops with
  | [] => []
  | op :: ops' =>
      match cexec cm op with
      | Ok cm' => option_list (vote_of cm op) ++ granted cm' ops'
      | Err _ => []
      end
  end.

(** ** Epochs *)

Definition epochs (cm : ClusterManager) : Z * Z := (CurrentEpoch cm, LastVoteEpoch cm).

Lemma save_epochs cm : epochs (saveConfigLocked cm) = epochs cm.
Proof. done. Qed.
Lemma set_nodes_epochs m cm : epochs (set_nodes m cm) = epochs cm.
Proof. done. Qed.
Lemma update_epochs f l cm : epochs (update f l cm) = epochs cm.
Proof. done. Qed.
Lemma set_migration_epochs mig imp cm : epochs (set_migration mig imp cm) = epochs cm.
Proof. done. Qed.

#[local] Hint Rewrite save_epochs set_nodes_epochs update_epochs set_migration_epochs : vkv.

(** Loops whose step keeps the epochs. *)
Lemma fold_epochs {A} (step : ClusterManager -> A -> ClusterManager) xs cm :
  (forall cm x, epochs (step cm x) = epochs cm) -> epochs (foldl step cm xs) = epochs cm.
Proof. intros Hs. revert cm; induction xs as [|x xs IH]; intros cm; [done|]. cbn [foldl]. by rewrite IH. Qed.

Lemma reassign_epochs t s cm : epochs (reassign t s cm) = epochs cm.
Proof. unfold reassign. by destruct (SlotMap cm !! s); [case_decide|]. Qed.

Lemma AddSlots_epochs cm slots : epochs (fst (AddSlots cm slots)) = epochs cm.
Proof.
  unfold AddSlots. destruct (check_add cm slots); [done|]. cbn [fst].
  autorewrite with vkv. by apply fold_epochs.
Qed.

Lemma AssignSlots_epochs cm id slots : epochs (fst (AssignSlotsToNode cm id slots)) = epochs cm.
Proof.
  unfold AssignSlotsToNode. destruct (Nodes cm !! id) as [t|]; [|done].
  revert cm. induction slots as [|s slots IH]; intros cm; [done|]. cbn [assign_loop].
  case_match; [done|]. by rewrite IH, reassign_epochs.
Qed.

Lemma DelSlots_epochs cm slots : epochs (fst (DelSlots cm slots)) = epochs cm.
Proof.
  unfold DelSlots. destruct (check_del cm slots); [done|]. cbn [fst].
  autorewrite with vkv. by apply fold_epochs.
Qed.

Lemma SetSlot_epochs cm slot sub id : epochs (fst (SetSlot cm slot sub id)) = epochs cm.
Proof.
  unfold SetSlot. case_match; [done|]. repeat case_decide.
  - destruct (Nodes cm !! id) as [t|]; [|done]. cbn [fst]. autorewrite with vkv. apply reassign_epochs.
  - destruct (SlotMap cm !! slot); [|done]. case_decide; [done|]. by destruct (Nodes cm !! id).
  - by destruct (Nodes cm !! id).
  - done.
  - done.
Qed.

Lemma RemoveNode_epochs cm id : epochs (fst (RemoveNode cm id)) = epochs cm.
Proof.
  unfold RemoveNode. case_decide; [done|]. destruct (Nodes cm !! id) as [t|]; [|done]. cbn [fst].
  autorewrite with vkv. by apply fold_epochs.
Qed.

Lemma Replicate_epochs cm id : epochs (fst (Replicate cm id)) = epochs cm.
Proof.
  unfold Replicate. case_decide; [done|]. destruct (Nodes cm !! id); [|done]. case_decide; [done|].
  cbn [fst]. autorewrite with vkv. apply fold_epochs.
  intros c i. case_decide; [|done]. by case_decide.
Qed.

Lemma promote_epochs cm id : epochs (promote cm id) = epochs cm.
Proof.
  unfold promote. cbn zeta. autorewrite with vkv. rewrite fold_epochs; [apply update_epochs|].
  intros c i. unfold promote_slot. repeat first [case_decide | case_match]; done.
Qed.

Lemma reset_epochs cm : epochs (cluster_reset cm) = epochs cm.
Proof. unfold cluster_reset. cbv zeta. autorewrite with vkv. by apply fold_epochs. Qed.

Lemma audit_one_epochs now st id st' :
  audit_one now st id = Ok st' -> epochs (fst st') = epochs (fst st).
Proof.
  destruct st as [cm t], st' as [cm' t']. by apply (audit_one_keeps (fun c => epochs c = epochs cm)).
Qed.

Lemma audit_epochs now order st st' : audit now order st = Ok st' -> epochs (fst st') = epochs (fst st).
Proof.
  revert st. induction order as [|id order IH]; intros st; cbn [audit]; [by intros [= <-]|].
  intros (st1 & E%audit_one_epochs & H1)%bind_Ok. rewrite <- E. by apply IH.
Qed.

(** A packet raises the current epoch to its own. *)
Lemma receive_epochs now gen p cm :
  epochs (receive now gen p cm) = (Z.max (Bus.Epoch p) (CurrentEpoch cm), LastVoteEpoch cm).
Proof.
  unfold receive. assert (epochs (fst (find_sender now gen p cm)) = epochs cm) as H1.
  { by unfold find_sender; destruct (Nodes cm !! SenderID p). }
  destruct (find_sender now gen p cm) as [cm1 sender]. cbn [fst] in H1. injection H1 as HC HV.
  set (cm2 := if Bus.Epoch p >? _ then _ else _).
  assert (epochs cm2 = (Z.max (Bus.Epoch p) (CurrentEpoch cm), LastVoteEpoch cm)) as H2.
  { subst cm2. cbn [CurrentEpoch update]. rewrite Z.gtb_ltb, HC.
    destruct (Z.ltb_spec (CurrentEpoch cm) (Bus.Epoch p)); unfold epochs; cbn; rewrite ?HC, HV; f_equal; lia. }
  clearbody cm2. case_match; [|done]. rewrite fold_epochs; [done|].
  intros c i. case_decide; [|done].
  destruct (sync_slot_cases p sender c i) as [E|E]; rewrite E; [done|apply reassign_epochs].
Qed.

Lemma gossip_epochs now cm gossip id : epochs (processGossipEntriesLocked now cm gossip id) = epochs cm.
Proof.
  apply fold_epochs. clear. intros cm g. unfold gossip_one. case_decide; [done|].
  case_match; [by case_match|]. by case_match.
Qed.

(** ** Votes *)

(** What must hold when an operation grants a vote, and what it changes. *)
Definition vote_granted (cm : ClusterManager) (op : COp) (cm' : ClusterManager) (v : BusPacket) : Prop :=
  exists now gen order p l,
    op = OPacket now gen order p /\ Bus.Type_ p = TypeFailoverAuthReq /\
    TargetNodeID v = SenderID p /\ ReqEpoch v = ReqEpoch p /\ SenderID v = ID (self cm') /\
    LastVoteEpoch cm < ReqEpoch v /\ CurrentEpoch cm <= ReqEpoch v /\
    LastVoteEpoch cm' = ReqEpoch v /\ CurrentEpoch cm' = ReqEpoch v /\
    Role (self cm') = master /\ Nodes cm' !! TargetNodeID p = Some l /\ Fail (deref cm' l) = true.

Lemma auth_request_votes p cm cm' r :
  auth_request p cm = Ok (cm', r) ->
  match r with
  | Some v => v = ack_packet cm' p /\ LastVoteEpoch cm < ReqEpoch p /\ CurrentEpoch cm <= ReqEpoch p /\
      epochs cm' = (ReqEpoch p, ReqEpoch p) /\ Role (self cm') = master /\
      exists l, Nodes cm' !! TargetNodeID p = Some l /\ Fail (deref cm' l) = true
  | None => cm' = cm
  end.
Proof.
  unfold auth_request. case_decide as Hc; [|by intros [= <- <-]].
  destruct (Nodes cm !! TargetNodeID p) as [l|] eqn:El; [|by intros [= <- <-]].
  destruct (Fail (deref cm l)) eqn:Ef; [|by intros [= <- <-]].
  intros (? & _ & [= <- <-])%bind_Ok. destruct Hc as (Hm & H1 & H2).
  split; [done|]. split; [lia|]. split; [lia|]. split; [done|]. split; [exact Hm|]. by exists l.
Qed.

Lemma cexec_votes cm op cm' :
  cexec cm op = Ok cm' ->
  match vote_of cm op with
  | Some v => vote_granted cm op cm' v
  | None => LastVoteEpoch cm' = LastVoteEpoch cm
  end.
Proof.
  assert (forall c, epochs c = epochs cm -> LastVoteEpoch c = LastVoteEpoch cm) as Hep
    by (intros c [= _ H]; exact H).
  destruct op as [| | | | | |now gen order p|now o1 o2 o3|order id|o1 o2 id|]; cbn [cexec vote_of].
  - intros [= <-]. apply Hep, AddSlots_epochs.
  - intros [= <-]. apply Hep, AssignSlots_epochs.
  - intros [= <-]. apply Hep, DelSlots_epochs.
  - intros [= <-]. apply Hep, SetSlot_epochs.
  - intros [= <-]. apply Hep, RemoveNode_epochs.
  - intros [= <-]. apply Hep, Replicate_epochs.
  - intros ([c r] & E & [= <-])%bind_Ok. rewrite E. cbn [fst]. revert E. unfold ProcessPacket.
    pose proof (receive_epochs now gen p cm) as Hr. set (cm1 := receive now gen p cm) in *. clearbody cm1.
    injection Hr as HC HV. repeat case_decide.
    + intros [= <- <-]. rewrite decide_False by done.
      pose proof (gossip_epochs now cm1 (Gossip p) (SenderID p)) as [= _ HG]. by rewrite HG.
    + intros [= <- <-]. pose proof (gossip_epochs now cm1 (Gossip p) (SenderID p)) as [= _ HG]. by rewrite HG.
    + destruct (Nodes cm1 !! TargetNodeID p); [|by intros [= <- <-]]. case_decide; [|by intros [= <- <-]].
      by intros (? & _ & (? & _ & [= <- <-])%bind_Ok)%bind_Ok.
    + intros Ha%auth_request_votes. destruct r as [v|]; [|by subst].
      destruct Ha as (-> & H4 & H5 & [= HC' HV'] & Hm & l & Hl & Hf).
      rewrite decide_True by done. exists now, gen, order, p, l. cbn [TargetNodeID ReqEpoch SenderID ack_packet].
      repeat (split; [done || lia|]). done.
    + by intros [= <- <-].
  - intros ([c r] & (st & E%audit_epochs & [= <- _])%bind_Ok & [= <-])%bind_Ok. by apply Hep.
  - intros ([c r] & E & [= <-])%bind_Ok. unfold start_election in E.
    case_decide; [by injection E as <- _|]. by apply bind_Ok in E as (? & _ & (? & _ & [= <- _])%bind_Ok).
  - intros ([c r] & E & [= <-])%bind_Ok. unfold PromoteReplica in E.
    case_decide; [by injection E as <- _|]. apply bind_Ok in E as (? & _ & [= <- _]). apply Hep, promote_epochs.
  - intros [= <-]. apply Hep, reset_epochs.
Qed.

Lemma granted_sorted cm ops :
  StronglySorted (fun v w => ReqEpoch v < ReqEpoch w) (granted cm ops) /\
  Forall (fun v => LastVoteEpoch cm < ReqEpoch v) (granted cm ops).
Proof.
  revert cm. induction ops as [|op ops IH]; intros cm; cbn [granted]; [by split; constructor|].
  destruct (cexec cm op) as [cm'|] eqn:E; [|by split; constructor].
  pose proof (cexec_votes cm op cm' E) as Hv. destruct (IH cm') as [IH1 IH2].
  destruct (vote_of cm op) as [v|]; cbn [option_list app].
  - destruct Hv as (? & ? & ? & ? & ? & _ & _ & _ & _ & _ & H1 & _ & H2 & _). split; constructor; try done.
    + eapply Forall_impl; [exact IH2|]. cbn. lia.
    + eapply Forall_impl; [exact IH2|]. cbn. lia.
  - by rewrite <- Hv.
Qed.

(** C26: along any sequence of operations a node grants votes in strictly
    increasing epochs, all above the epoch it last voted in, so it never grants
    two votes in one epoch; and every vote is granted by a master, to the sender
    of a vote request, for an epoch not below any epoch the node has seen, and
    for a target that it has itself marked as failed. *)
Theorem one_vote_per_epoch cm ops :
  StronglySorted (fun v w => ReqEpoch v < ReqEpoch w) (granted cm ops) /\
  Forall (fun v => LastVoteEpoch cm < ReqEpoch v) (granted cm ops) /\
  (forall cm1 op cm2 v, cexec cm1 op = Ok cm2 -> vote_of cm1 op = Some v -> vote_granted cm1 op cm2 v).
Proof.
  destruct (granted_sorted cm ops) as [H1 H2]. split; [done|]. split; [done|].
  intros cm1 op cm2 v He Hv. pose proof (cexec_votes cm1 op cm2 He) as H. by rewrite Hv in H.
Qed.

(** A master that learns that [node_b] failed grants one vote for epoch 2, and
    no second one. *)
Definition node_c : bytes := str "cccccccccccccccc".
Definition node_d : bytes := str "dddddddddddddddd".

Definition fail_of (id target : bytes) : BusPacket :=
  mkPacket TypeFail 1 id (str "10.0.0.3") 7379 17379 0 [] [] target 0.

Definition request (id target : bytes) (epoch : Z) : BusPacket :=
  mkPacket TypeFailoverAuthReq epoch id (str "10.0.0.4") 7379 17379 0 [] [] target epoch.

Definition vote_ops : list COp :=
  [OPacket 10 [] [] (hello node_b); OPacket 11 [] [] (fail_of node_c node_b);
   OPacket 12 [] [] (request node_c node_b 2); OPacket 13 [] [] (request node_d node_b 2)].

Example votes_of_start_a : TargetNodeID <$> granted start_a vote_ops = [node_c].
Proof. reflexivity. Qed.

(** ** Failure detection *)



















(** ** Who is failed *)


















(** ** Elections *)

(** Winning takes the votes of half of the active masters, rounded down: the
    candidate's own vote is counted although it is not a master. *)
Lemma election_won_spec id epoch n rs :
  0 <= n ->
  election_won id epoch n rs = true <->
  n / 2 <= Z.of_nat (length (filter (fun r => is_vote id epoch r = true) rs)).
Proof. intros Hn. unfold election_won. rewrite Z.leb_le. lia. Qed.

Definition vote_for (id : bytes) (epoch : Z) : BusPacket :=
  mkPacket TypeFailoverAuthAck epoch [] [] 0 0 0 [] [] id epoch.

Lemma votes_counted id epoch k :
  length (filter (fun r => is_vote id epoch r = true) (replicate k (vote_for id epoch))) = k.
Proof.
  induction k as [|k IH]; [done|]. cbn [replicate]. rewrite filter_cons_True; [by cbn; rewrite IH|].
  by apply bool_decide_eq_true.
Qed.

(** For every number of active masters two candidates can both win the same
    epoch although no master votes twice. *)
Theorem split_vote_possible n epoch a b :
  0 <= n ->
  exists ra rb, Z.of_nat (length ra + length rb) <= n /\
    election_won a epoch n ra = true /\ election_won b epoch n rb = true.
Proof.
  intros Hn. exists (replicate (Z.to_nat (n / 2)) (vote_for a epoch)), (replicate (Z.to_nat (n / 2)) (vote_for b epoch)).
  rewrite !length_replicate, !election_won_spec, !votes_counted by done.
  assert (2 * (n / 2) <= n) by (apply Z.mul_div_le; lia). lia.
Qed.

(** The audit compares the reports with the masters it has counted so far, so a
    single report can fail a node if the loop visits it first, while the same
    report does not when the loop visits it last. *)
Definition three_masters : ClusterManager :=
  receive 5000 [] (hello node_d) (receive 5000 [] (hello node_c) met_b).

Definition failed_b (order : list bytes) : option bool :=
  match heartbeatStep 5000 order [] [] three_masters with
  | Ok (cm, _) => Some (Fail (deref cm 2))
  | Err _ => None
  end.

Theorem audit_depends_on_order :
  failed_b [node_b; node_a; node_c; node_d] = Some true /\
  failed_b [node_a; node_c; node_d; node_b] = Some false.
Proof. split; reflexivity. Qed.

(** A packet from a sender with a short identifier that asks for a vote crashes
    a master that would grant it. *)
Theorem short_sender_panics :
  crun start_a [OPacket 10 [] [] (hello node_b); OPacket 11 [] [] (fail_of node_c node_b);
                OPacket 12 [] [] (request (str "x") node_b 2)] = Err PanicBounds.
Proof. reflexivity. Qed.
