(* ===== verification/Topology.v ===== *)
(** * The topology of the cluster as text (internal/cluster/cluster.go)

    The lines of CLUSTER NODES and of the configuration file, the parser that
    merges such a text into a manager, at start and when a peer is met, and the
    replies of CLUSTER SLOTS and CLUSTER INFO.  The clock, random identifiers and
    the order of a range over [Nodes] are arguments; so is what a peer answered. *)

From stdpp Require Import sorting.
From S2P Require Import Prelude SkipList Resp Bus Node Cluster.

(** ** [strings.TrimSpace], [Contains], [LastIndex] *)

Fixpoint trim_left (s : bytes) (skip : nat) : bytes :=
  match s with
  | [] => []
  | c :: s' =>
      match skip with
      | S k => trim_left s' k
      | O => match space_width s with O => s | S k => trim_left s' k end
      end
  end.

(** What remains is white space when it has no fields. *)
Fixpoint trim_right (s : bytes) : bytes :=
  match s with
  | [] => []
  | c :: s' => if decide (Fields s = []) then [] else c :: trim_right s'
  end.

Definition TrimSpace (s : bytes) : bytes := trim_right (trim_left s 0).

Definition Contains (s p : bytes) : bool := existsb (fun i => HasPrefix (drop i s) p) (seq 0 (S (length s))).

Definition LastIndexByte (s : bytes) (c : byte) : option nat :=
  (fun i => length s - 1 - i)%nat <$> IndexByte (reverse s) c.

(** [v, _ := strconv.ParseUint(s, 10, 64)]. *)
Definition uint_or_limit (s : bytes) : Z :=
  match ParseUint s with Ok v => v | Err ErrRange => maxUint64 | Err ErrSyntax => 0 end.

(** ** Parsing *)

(** [ip:port@cport]. *)
Definition parse_addr (addr : bytes) : bytes * Z * Z :=
  let '(addr, busPort) :=
    match IndexByte addr "@"%byte with
    | Some i => (take i addr, match ParseInt (drop (S i) addr) with Ok b => b | Err _ => 17379 end)
    | None => (addr, 17379)
    end in
  match LastIndexByte addr ":"%byte with
  | Some i => (take i addr, match ParseInt (drop (S i) addr) with Ok p => p | Err _ => 7379 end, busPort)
  | None => (str "127.0.0.1", 7379, busPort)
  end.

(** [vars currentEpoch 1 lastVoteEpoch 0], without its first word. *)
Fixpoint vars_loop (parts : list bytes) (epoch : Z) : Z :=
  match parts with
  | k :: v :: parts' =>
      vars_loop parts' (if decide (k = str "currentEpoch") then match ParseUint v with Ok ep => ep | Err _ => epoch end else epoch)
  | _ => epoch
  end.

Definition with_link (masterID : bytes) (epoch : Z) (linkState : bytes) (n : ClusterNode) : ClusterNode :=
  mkNode (ID n) (IP n) (Port n) (BusPort n) (Role n) masterID (Slots n) epoch linkState (PingSent n) (PongRecv n) (PFail n) (Fail n).
Definition with_address (id ip : bytes) (port busPort : Z) (role : bytes) (n : ClusterNode) : ClusterNode :=
  mkNode id ip port busPort role (MasterID n) (Slots n) (Epoch n) (LinkState n) (PingSent n) (PongRecv n) (PFail n) (Fail n).

(** The node of a line that is not this node. *)
Definition peer_of_line (now : Z) (id ip : bytes) (port busPort : Z) (role masterID : bytes) (epoch : Z) (link : bytes) (cm : ClusterManager)
    : ClusterManager * positive :=
  let '(cm, l) := match Nodes cm !! id with
                  | Some l => (cm, l)
                  | None => add_object id (NewNode [] now id ip port busPort role) cm
                  end in
  (update (with_link masterID epoch link) l cm, l).

(** The node of a line; the line of the node itself is taken for another node when
    the identifiers differ. *)
Definition node_of_line (now : Z) (isMyself : bool) (id ip : bytes) (port busPort : Z) (role masterID : bytes) (epoch : Z) (link : bytes)
    (cm : ClusterManager) : ClusterManager * positive :=
  if isMyself then
    if decide (ID (self cm) = [] \/ ID (self cm) = id) then
      (update (fun n => with_link masterID epoch link (with_address id ip port busPort role n)) (Self cm) cm, Self cm)
    else peer_of_line now id ip port busPort role masterID epoch link cm
  else if decide (id = ID (self cm)) then (cm, Self cm)
  else peer_of_line now id ip port busPort role masterID epoch link cm.

Definition slots_of_line (role : bytes) (rest : list bytes) (l : positive) (cm : ClusterManager) : ClusterManager :=
  if decide (rest <> [] /\ role = master) then
    match ParseSlotRanges (Join rest (str " ")) with
    | Some slots => foldl (fun cm s => map_slot (Z.to_nat s) l (slot_on l (Z.to_nat s) cm)) cm slots
    | None => cm
    end
  else cm.

Definition merge_line (now : Z) (cm : ClusterManager) (line : bytes) : ClusterManager :=
  let line := TrimSpace line in
  if decide (line = []) then cm
  else if HasPrefix line (str "vars ") then set_epochs (vars_loop (tail (Fields line)) (CurrentEpoch cm)) (LastVoteEpoch cm) cm
  else
    match Fields line with
    | nodeID :: addr :: flags :: masterID :: _ :: _ :: ep :: linkState :: rest =>
        let '(ip, port, busPort) := parse_addr addr in
        let role := if Contains flags (str "slave") then slave else master in
        let '(cm, l) := node_of_line now (Contains flags (str "myself")) nodeID ip port busPort role masterID (uint_or_limit ep) linkState cm in
        slots_of_line role rest l cm
    | _ => cm
    end.

Definition parseAndMergeNodesTextLocked (now : Z) (text : bytes) (cm : ClusterManager) : ClusterManager :=
  foldl (merge_line now) cm (Split text x0a).

(** With a configuration file that can be read. *)
Definition LoadConfig (now : Z) (cm : ClusterManager) : ClusterManager := parseAndMergeNodesTextLocked now (ConfigText cm) cm.

Definition NewClusterManager (gen : bytes) (now : Z) (ip : bytes) (port busPort : Z) (text : bytes) : ClusterManager :=
  LoadConfig now (InitialManager gen now ip port busPort text).

(** ** Meeting a peer *)

(** [reader.ReadString('\n')]: the line and the rest; an error when there is none. *)
Definition ReadString (inp : bytes) : option (bytes * bytes) :=
  match IndexByte inp x0a with Some i => Some (take (S i) inp, drop (S i) inp) | None => None end.

(** [n, _ := strconv.Atoi(s)]. *)
Definition int_or_limit (s : bytes) : Z :=
  match ParseInt s with
  | Ok v => v
  | Err ErrSyntax => 0
  | Err ErrRange => if HasPrefix s (str "-") then - 2 ^ 63 else 2 ^ 63 - 1
  end.

Definition TrimPrefix (s p : bytes) : bytes := if HasPrefix s p then drop (length p) s else s.

(** What [Meet] reads from the connection: the reply to AUTH when there is a
    password, then a bulk string; [limit] bounds the slices that [make] makes. *)
Definition meet_reply (limit : Z) (auth : bool) (inp : bytes) : res fault bytes :=
  let inp := if auth then match ReadString inp with Some (_, inp) => inp | None => [] end else inp in
  match ReadString inp with
  | None => Ok []
  | Some (line, inp) =>
      let line := TrimSpace line in
      if HasPrefix line (str "$") then
        let bodyLen := int_or_limit (TrimPrefix line (str "$")) in
        if 0 <? bodyLen then
          if limit <? bodyLen then Err (Fault PanicMakeSlice)
          else
            let buf := take (Z.to_nat bodyLen) inp in
            Ok (buf ++ replicate (Z.to_nat bodyLen - length buf) x00)
        else Ok []
      else Ok []
  end.

(** The part under the lock: [order] is the range over [Nodes], [gen] the
    identifier drawn for an unknown peer. *)
Definition Meet (now : Z) (gen : bytes) (order : ClusterManager -> list bytes) (peerIP : bytes) (peerPort peerBusPort : Z) (text : bytes)
    (cm : ClusterManager) : ClusterManager * positive :=
  let peerIP := if decide (peerIP = []) then str "127.0.0.1" else peerIP in
  let peerBusPort := if peerBusPort <=? 0 then int64 (peerPort + 10000) else peerBusPort in
  let cm := if decide (text = []) then cm else parseAndMergeNodesTextLocked now text cm in
  match list_find (fun id => match Nodes cm !! id with
                             | Some l => bool_decide (IP (deref cm l) = peerIP) && bool_decide (Port (deref cm l) = peerPort)
                             | None => false
                             end = true) (order cm) with
  | Some (_, id) => (saveConfigLocked cm, default (Self cm) (Nodes cm !! id))
  | None =>
      let '(cm, l) := add_object gen (NewNode gen now gen peerIP peerPort peerBusPort master) cm in
      (saveConfigLocked cm, l)
  end.

(** ** Reports *)

Definition node_lines (cm : ClusterManager) : list bytes :=
  FormatNodeLine (self cm) true ::
  ((fun id => FormatNodeLine (default nilNode (l ← Nodes cm !! id; store cm !! l)) false) <$> peerIDs cm).

Definition FormatNodes (cm : ClusterManager) : bytes := Join (node_lines cm) [x0a] ++ [x0a].

Record slotRangeBlock := mkBlock { b_start : nat; b_end : nat; b_master : positive }.

(** One slot of the loop: the finished blocks and the current one. *)
Definition block_step (cm : ClusterManager) (st : list slotRangeBlock * option slotRangeBlock) (i : nat)
    : list slotRangeBlock * option slotRangeBlock :=
  let '(blocks, current) := st in
  match SlotMap cm !! i, current with
  | None, Some b => (blocks ++ [b], None)
  | None, None => (blocks, None)
  | Some owner, None => (blocks, Some (mkBlock i i owner))
  | Some owner, Some b =>
      if decide (ID (deref cm (b_master b)) = ID (deref cm owner) /\ S (b_end b) = i)
      then (blocks, Some (mkBlock (b_start b) i (b_master b)))
      else (blocks ++ [b], Some (mkBlock i i owner))
  end.

Definition slot_blocks (cm : ClusterManager) : list slotRangeBlock :=
  let '(blocks, current) := foldl (block_step cm) ([], None) (seq 0 NumSlots) in
  blocks ++ match current with Some b => [b] | None => [] end.

Definition node_info (n : ClusterNode) : Resp.Value := Array [BulkString (IP n); Integer (Port n); BulkString (ID n)].

(** The replicas of a master, in the order of the range over [Nodes]. *)
Definition replicas_of (cm : ClusterManager) (order : list bytes) (masterID : bytes) : list ClusterNode :=
  filter (fun n => Role n = slave /\ MasterID n <> [] /\ MasterID n <> str "-" /\ MasterID n = masterID)
    ((fun id => default nilNode (l ← Nodes cm !! id; store cm !! l)) <$> order).

Definition FormatSlots (cm : ClusterManager) (order : list bytes) : Resp.Value :=
  Array ((fun b =>
    let m := deref cm (b_master b) in
    Array ([Integer (Z.of_nat (b_start b)); Integer (Z.of_nat (b_end b)); node_info m] ++ (node_info <$> replicas_of cm order (ID m))))
    <$> slot_blocks cm).

Definition info_line (key value : bytes) : bytes := key ++ str ":" ++ value ++ CRLF.

Definition assigned (cm : ClusterManager) : nat := length (filter (fun i => is_Some (SlotMap cm !! i)) (seq 0 NumSlots)).

Definition FormatInfo (cm : ClusterManager) : bytes :=
  let n := Z.of_nat (assigned cm) in
  let masters := length (filter (fun id => Role (default nilNode (l ← Nodes cm !! id; store cm !! l)) = master) (map_to_list (Nodes cm)).*1) in
  info_line (str "cluster_state") (if 0 <? n then str "ok" else str "fail") ++
  info_line (str "cluster_slots_assigned") (FormatInt n) ++
  info_line (str "cluster_slots_ok") (FormatInt n) ++
  info_line (str "cluster_slots_pfail") (str "0") ++
  info_line (str "cluster_slots_fail") (str "0") ++
  info_line (str "cluster_known_nodes") (FormatInt (Z.of_nat (size (Nodes cm)))) ++
  info_line (str "cluster_size") (FormatInt (Z.of_nat masters)) ++
  info_line (str "cluster_current_epoch") (FormatUint (CurrentEpoch cm)) ++
  info_line (str "cluster_my_epoch") (FormatUint (Epoch (self cm))) ++
  info_line (str "cluster_stats_messages_ping_sent") (FormatInt (PingSent (self cm))) ++
  info_line (str "cluster_stats_messages_pong_received") (FormatInt (PongRecv (self cm))) ++
  info_line (str "cluster_stats_messages_sent") (str "0") ++
  info_line (str "cluster_stats_messages_received") (str "0").

(** ** The blocks of CLUSTER SLOTS *)

Definition covers (b : slotRangeBlock) (i : nat) : Prop := (b_start b <= i <= b_end b)%nat.
Definition same_owner (cm : ClusterManager) (b : slotRangeBlock) (l : positive) : Prop := ID (deref cm (b_master b)) = ID (deref cm l).

(** After the slots below [n]: the finished blocks and the current one [cur]. *)
Record blocks_ok (cm : ClusterManager) (n : nat) (blocks : list slotRangeBlock) (cur : option slotRangeBlock) : Prop := {
  bo_find : forall i l, (i < n)%nat -> SlotMap cm !! i = Some l -> exists b, b ∈ blocks ++ option_list cur /\ covers b i /\ same_owner cm b l;
  bo_owned : forall b i, b ∈ blocks ++ option_list cur -> covers b i -> (i < n)%nat /\ exists l, SlotMap cm !! i = Some l /\ same_owner cm b l;
  bo_sorted : StronglySorted (fun a b => (b_end a < b_start b)%nat) (blocks ++ option_list cur);
  bo_nonempty : Forall (fun b => (b_start b <= b_end b)%nat) (blocks ++ option_list cur);
  bo_current : forall b, cur = Some b -> S (b_end b) = n
}.

Lemma blocks_close cm n blocks cur : blocks_ok cm n blocks cur -> blocks_ok cm n (blocks ++ option_list cur) None.
Proof. intros [H1 H2 H3 H4 H5]. split; rewrite ?app_nil_r; done. Qed.

(** A slot without an owner, after the current block was closed. *)
Lemma blocks_skip cm n blocks : SlotMap cm !! n = None -> blocks_ok cm n blocks None -> blocks_ok cm (S n) blocks None.
Proof.
  intros Hn [H1 H2 H3 H4 H5]. split; [| |done|done|done].
  - intros i l Hi Hl. apply H1; [|done]. destruct (decide (i = n)) as [->|]; [congruence|lia].
  - intros b i Hb Hc. destruct (H2 b i Hb Hc) as [? ?]. split; [lia|done].
Qed.

Lemma blocks_open cm n blocks o : SlotMap cm !! n = Some o -> blocks_ok cm n blocks None -> blocks_ok cm (S n) blocks (Some (mkBlock n n o)).
Proof.
  intros Hn [H1 H2 H3 H4 H5]. cbn [option_list] in *. rewrite app_nil_r in *. split; cbn [option_list].
  - intros i l Hi Hl. destruct (decide (i = n)) as [->|].
    + exists (mkBlock n n o). split; [apply elem_of_app; right; by left|]. split; [unfold covers; cbn; lia|]. unfold same_owner. cbn. congruence.
    + destruct (H1 i l) as (b & Hb & ?); [lia|done|]. exists b. split; [apply elem_of_app; by left|done].
  - intros b i [Hb| ->%list_elem_of_singleton]%elem_of_app Hc; [destruct (H2 b i Hb Hc) as [? ?]; split; [lia|done]|].
    unfold covers in Hc. cbn in Hc. assert (i = n) as -> by lia. split; [lia|]. by exists o.
  - apply StronglySorted_app_2; [|done|repeat constructor]. intros a b Ha ->%list_elem_of_singleton. cbn [b_start].
    rewrite Forall_forall in H4. destruct (H2 a (b_end a) Ha) as [? _]; [|done]. split; [by apply H4|done].
  - apply Forall_app. split; [done|]. repeat constructor.
  - intros b [= <-]. done.
Qed.

Lemma blocks_extend cm n blocks b o : SlotMap cm !! n = Some o -> same_owner cm b o -> blocks_ok cm n blocks (Some b) ->
  blocks_ok cm (S n) blocks (Some (mkBlock (b_start b) n (b_master b))).
Proof.
  intros Hn Hs [H1 H2 H3 H4 H5]. pose proof (H5 b eq_refl) as He. cbn [option_list] in *. split; cbn [option_list].
  - intros i l Hi Hl. destruct (decide (i = n)) as [->|].
    + eexists. split; [apply elem_of_app; right; by left|]. apply Forall_app in H4 as [_ H4]. apply Forall_cons in H4 as [H4 _].
      split; [unfold covers; cbn; lia|]. unfold same_owner in *. cbn. congruence.
    + destruct (H1 i l) as (b' & [Hb| ->%list_elem_of_singleton]%elem_of_app & Hc & Ho); [lia|done|exists b'; split; [apply elem_of_app; by left|done]|].
      eexists. split; [apply elem_of_app; right; by left|]. split; [unfold covers in *; cbn; lia|done].
  - intros b' i [Hb| ->%list_elem_of_singleton]%elem_of_app Hc; [destruct (H2 b' i) as [? ?]; [apply elem_of_app; by left|done|]; split; [lia|done]|].
    unfold covers in Hc. cbn in Hc. destruct (decide (i = n)) as [->|]; [split; [lia|]; by exists o|].
    destruct (H2 b i) as [? ?]; [apply elem_of_app; right; by left|unfold covers; lia|]. split; [lia|done].
  - apply StronglySorted_app in H3 as (Hx & Hy & _). apply StronglySorted_app_2; [|done|repeat constructor].
    intros a b' Ha ->%list_elem_of_singleton. cbn [b_start]. apply (Hx a b Ha). by left.
  - apply Forall_app in H4 as [Hx Hy]. apply Forall_cons in Hy as [Hy _]. apply Forall_app. split; [done|]. constructor; [cbn; lia|constructor].
  - intros b' [= <-]. done.
Qed.

Lemma blocks_step cm n blocks cur : blocks_ok cm n blocks cur ->
  let '(blocks', cur') := block_step cm (blocks, cur) n in blocks_ok cm (S n) blocks' cur'.
Proof.
  intros H. unfold block_step. pose proof (blocks_close _ _ _ _ H) as Hcl. destruct (SlotMap cm !! n) as [o|] eqn:En, cur as [b|]; cbn [option_list] in *.
  - destruct (decide _) as [[Ho _]|_]; [by eapply blocks_extend|by apply blocks_open].
  - by apply blocks_open.
  - by apply blocks_skip.
  - by apply blocks_skip.
Qed.

Lemma blocks_all cm n : let '(blocks, cur) := foldl (block_step cm) ([], None) (seq 0 n) in blocks_ok cm n blocks cur.
Proof.
  induction n as [|n IH].
  - cbn. split; [lia|intros b i []%elem_of_nil|constructor|constructor|done].
  - rewrite seq_S, foldl_app. destruct (foldl (block_step cm) ([], None) (seq 0 n)) as [blocks cur]. cbn [foldl]. by apply blocks_step.
Qed.

(** CLUSTER SLOTS describes the slot map: its blocks are disjoint and in order, a
    slot with an owner is in a block of that owner, and a slot in a block has the
    owner of the block. *)
Theorem FormatSlots_covers cm :
  StronglySorted (fun a b => (b_end a < b_start b)%nat) (slot_blocks cm) /\
  (forall i l, (i < NumSlots)%nat -> SlotMap cm !! i = Some l -> exists b, b ∈ slot_blocks cm /\ covers b i /\ same_owner cm b l) /\
  (forall b i, b ∈ slot_blocks cm -> covers b i -> exists l, SlotMap cm !! i = Some l /\ same_owner cm b l).
Proof.
  pose proof (blocks_all cm NumSlots) as H. unfold slot_blocks. destruct (foldl (block_step cm) ([], None) (seq 0 NumSlots)) as [blocks cur].
  change (match cur with Some b => [b] | None => [] end) with (option_list cur). destruct H as [H1 H2 H3 _ _]. split; [done|]. split; [done|].
  intros b i Hb Hc. by destruct (H2 b i Hb Hc).
Qed.

(** ** Text that the parser reads back *)

Definition word (w : bytes) : Prop := w <> [] /\ Forall word_byte w.
Definition plain_byte (c : byte) : Prop := word_byte c \/ c = x20.

Lemma fields_end s : Forall plain_byte s -> forall c cur acc, word_byte c -> Fields_loop (s ++ [c]) O cur acc <> [].
Proof.
  induction 1 as [|b s [Hb | ->] _ IH]; intros c cur acc Hc; cbn [app Fields_loop].
  - rewrite word_byte_width by done. rewrite decide_False by by destruct cur. by destruct acc.
  - rewrite word_byte_width by done. by apply IH.
  - cbn [space_width]. by apply IH.
Qed.

Lemma trim_right_plain s c : Forall plain_byte s -> word_byte c -> trim_right (s ++ [c]) = s ++ [c].
Proof.
  intros Hs Hc. induction Hs as [|b s Hb Hs IH]; cbn [app trim_right].
  - rewrite decide_False; [done|]. apply (fields_end []); [constructor|done].
  - rewrite decide_False, IH; [done|]. apply (fields_end (b :: s)); [by constructor|done].
Qed.

Lemma Join_app ws vs sep : ws <> [] -> vs <> [] -> Join (ws ++ vs) sep = Join ws sep ++ sep ++ Join vs sep.
Proof.
  intros Hw Hv. induction ws as [|w ws IH]; [done|]. destruct ws as [|w' ws].
  - cbn [app Join]. by destruct vs.
  - change ((w :: w' :: ws) ++ vs) with (w :: (w' :: ws) ++ vs). cbn [Join] in *. rewrite <- !app_assoc. f_equal. f_equal. rewrite <- IH by done. reflexivity.
Qed.

Lemma Join_plain ws : Forall word ws -> Forall plain_byte (Join ws (str " ")).
Proof.
  induction 1 as [|w ws [_ Hw] _ IH]; [constructor|]. assert (Forall plain_byte w) by (eapply list.Forall_impl; [exact Hw|]; intros ? ?; by left).
  destruct ws; [done|]. cbn [Join]. apply Forall_app. split; [done|]. constructor; [by right|done].
Qed.

(** Words joined by blanks have nothing to trim. *)
Lemma TrimSpace_Join ws : ws <> [] -> Forall word ws -> TrimSpace (Join ws (str " ")) = Join ws (str " ").
Proof.
  intros Hne HF. unfold TrimSpace. assert (trim_left (Join ws (str " ")) 0 = Join ws (str " ")) as ->.
  { destruct HF as [|w ws [Hw HFw] _]; [done|]. destruct HFw as [|c w Hc _]; [done|].
    assert (exists s, Join ((c :: w) :: ws) (str " ") = c :: s) as [s ->] by (destruct ws; by eexists). cbn [trim_left]. by rewrite word_byte_width. }
  destruct ws as [|w ws] using rev_ind; [done|]. clear IHws. apply Forall_app in HF as [H1 H2]. apply Forall_cons in H2 as [[Hw HFw] _].
  destruct w as [|c w _] using rev_ind; [done|]. apply Forall_app in HFw as [Hw1 Hw2]. apply Forall_cons in Hw2 as [Hc _].
  assert (Forall plain_byte w) as Hpw by (eapply list.Forall_impl; [exact Hw1|]; intros ? ?; by left).
  destruct (decide (ws = [])) as [->|Hws]; [by apply trim_right_plain|]. rewrite Join_app by done. cbn [Join]. rewrite !app_assoc.
  apply trim_right_plain; [|done]. apply Forall_app. split; [|done]. apply Forall_app. split; [by apply Join_plain|]. constructor; [by right|constructor].
Qed.

(** *** Lines of nodes *)

Definition range_words (n : ClusterNode) : list bytes :=
  match SlotsList n with [] => [] | s :: slots => ranges_loop slots s s [] end.

Definition flag_text (n : ClusterNode) (isMyself : bool) : bytes :=
  Join ((if isMyself then [str "myself"] else []) ++ [Role n] ++ (if Fail n then [str "fail"] else if PFail n then [str "fail?"] else [])) (str ",").

Definition line_words (n : ClusterNode) (isMyself : bool) : list bytes :=
  [ID n; IP n ++ ":"%byte :: FormatInt (Port n) ++ "@"%byte :: FormatInt (BusPort n);
   flag_text n isMyself;
   (if decide (MasterID n = []) then str "-" else MasterID n); FormatInt (PingSent n); FormatInt (PongRecv n); FormatUint (Epoch n); LinkState n] ++
  (if decide (Role n = master) then range_words n else []).

Lemma range_words_nil n : range_words n = [] <-> SlotRangesString n = [].
Proof.
  unfold range_words, SlotRangesString. destruct (SlotsList n) as [|s slots] eqn:E; [done|]. destruct (SlotsList_sorted n) as [_ HF]. rewrite E in HF.
  apply Forall_cons in HF as [Hs HF].
  assert (Forall word (ranges_loop slots s s [])) as HW.
  { apply ranges_loop_words; [constructor|lia|lia|]. eapply list.Forall_impl; [exact HF|]. cbn. lia. }
  destruct HW as [|w ws [Hw _] _]; [done|]. split; [done|]. cbn [Join]. by destruct ws, w.
Qed.

Lemma range_words_word n : Forall word (range_words n).
Proof.
  unfold range_words. destruct (SlotsList n) as [|s slots] eqn:E; [constructor|]. destruct (SlotsList_sorted n) as [_ HF]. rewrite E in HF.
  apply Forall_cons in HF as [Hs HF]. apply ranges_loop_words; [constructor|lia|lia|]. eapply list.Forall_impl; [exact HF|]. cbn. lia.
Qed.

Lemma FormatNodeLine_words n b : FormatNodeLine n b = Join (line_words n b) (str " ").
Proof.
  unfold FormatNodeLine, line_words. destruct (decide (Role n = master)) as [Hr|Hr].
  - destruct (decide (SlotRangesString n = [])) as [E|E].
    + apply range_words_nil in E. by rewrite E, app_nil_r.
    + match goal with |- Join ?ws _ ++ _ = _ => rewrite (Join_app ws) by (done || (intros H; by apply E, range_words_nil)) end. do 2 f_equal.
      unfold SlotRangesString, range_words. by destruct (SlotsList n).
  - rewrite decide_True by done. by rewrite app_nil_r.
Qed.

(** A node whose line can be read back. *)
Record line_ok (n : ClusterNode) : Prop := {
  lo_id : word (ID n) /\ ID n <> str "vars";
  lo_ip : word (IP n) /\ "@"%byte ∉ IP n;
  lo_port : is_int64 (Port n);
  lo_bus : 0 < BusPort n < 2 ^ 63;
  lo_role : Role n = master \/ Role n = slave;
  lo_master : MasterID n = [] \/ word (MasterID n);
  lo_epoch : is_uint64 (Epoch n);
  lo_link : word (LinkState n)
}.

Lemma FormatInt_word n : word (FormatInt n).
Proof.
  assert (forall m, 0 <= m -> word (FormatUint m)) as H.
  { intros m Hm. split; [apply FormatUint_nonempty|]. eapply list.Forall_impl; [by apply FormatUint_digits|]. apply digit_word. }
  unfold FormatInt. destruct (Z.ltb_spec n 0); [|by apply H]. split; [done|]. constructor; [unfold word_byte; cbn; lia|apply H; lia].
Qed.

Lemma flags_word n (b : bool) : line_ok n ->
  word (flag_text n b) /\ Contains (flag_text n b) (str "slave") = bool_decide (Role n = slave) /\ Contains (flag_text n b) (str "myself") = b.
Proof.
  intros [_ _ _ _ Hr _ _ _]. assert (forall s, forallb (fun c : byte => (33 <=? b2z c) && (b2z c <=? 126)) s = true -> Forall word_byte s) as HB.
  { intros s H. apply list.Forall_forall. intros c Hc. rewrite forallb_forall in H. unfold word_byte. apply list_elem_of_In, H in Hc. lia. }
  unfold flag_text. destruct Hr as [-> | ->], b, (Fail n), (PFail n); (split; [split; [done|apply HB; by vm_compute]|by vm_compute]).
Qed.

Lemma line_words_word n b : line_ok n -> Forall word (line_words n b).
Proof.
  intros H. pose proof (proj1 (flags_word n b H)) as Hf. destruct H as [[H1 _] [H2 _] H3 H4 H5 H6 H7 H8]. unfold line_words. apply Forall_app. split.
  - repeat (apply Forall_cons; split); try done; try apply FormatInt_word.
    + destruct H2 as [Hne HF]. split; [by destruct (IP n)|]. apply Forall_app. split; [done|]. constructor; [unfold word_byte; cbn; lia|].
      apply Forall_app. split; [apply FormatInt_word|]. constructor; [unfold word_byte; cbn; lia|apply FormatInt_word].
    + destruct (decide (MasterID n = [])); [split; [done|]; repeat constructor; unfold word_byte; cbn; lia|by destruct H6].
    + rewrite <- FormatInt_nonneg by apply H7. apply FormatInt_word.
  - destruct (decide _); [apply range_words_word|constructor].
Qed.

Lemma LastIndexByte_app s t c : c ∉ t -> LastIndexByte (s ++ c :: t) c = Some (length s).
Proof.
  intros H. unfold LastIndexByte. rewrite reverse_app, reverse_cons, <- app_assoc. cbn [app]. rewrite IndexByte_app by by rewrite elem_of_reverse.
  cbn. f_equal. rewrite length_reverse, length_app. cbn [length]. lia.
Qed.

Lemma drop_past (a b : bytes) c : drop (S (length a)) (a ++ c :: b) = b.
Proof. induction a; [apply drop_0|done]. Qed.

Lemma parse_addr_line n : line_ok n ->
  parse_addr (IP n ++ ":"%byte :: FormatInt (Port n) ++ "@"%byte :: FormatInt (BusPort n)) = (IP n, Port n, BusPort n).
Proof.
  intros [_ [_ Hat] Hp [Hb1 Hb2] _ _ _ _]. unfold parse_addr.
  assert (IP n ++ ":"%byte :: FormatInt (Port n) ++ "@"%byte :: FormatInt (BusPort n) =
    (IP n ++ ":"%byte :: FormatInt (Port n)) ++ "@"%byte :: FormatInt (BusPort n)) as -> by by rewrite <- app_assoc.
  rewrite IndexByte_app.
  - rewrite take_app_length, drop_past, ParseInt_FormatInt by (unfold is_int64; lia).
    rewrite LastIndexByte_app by by apply FormatInt_no_byte. by rewrite take_app_length, drop_past, ParseInt_FormatInt.
  - intros [H|[H|H]%elem_of_cons]%elem_of_app; [done|done|]. revert H. by apply FormatInt_no_byte.
Qed.

(** [vars] can only be the first word of its own line. *)
Lemma not_vars n b : line_ok n -> HasPrefix (Join (line_words n b) (str " ")) (str "vars ") = false.
Proof.
  intros H. pose proof (line_words_word n b H) as HF. destruct H as [[[Hne HW] Hv] _ _ _ _ _ _ _]. apply bool_decide_eq_false. intros E.
  assert (exists s, Join (line_words n b) (str " ") = ID n ++ x20 :: s) as [s Es].
  { unfold line_words. cbn [app Join]. by eexists. }
  rewrite Es in E. assert (forall c, c ∈ ID n -> c <> x20) as Hsp.
  { intros c Hc ->. rewrite list.Forall_forall in HW. specialize (HW _ Hc). unfold word_byte in HW. cbn in HW. lia. }
  destruct (ID n) as [|c1 [|c2 [|c3 [|c4 [|c5 rest]]]]]; cbn in E; [done| | | | |].
  - injection E. intros. subst. done.
  - injection E. intros. subst. done.
  - injection E. intros. subst. done.
  - injection E. intros. subst. done.
  - injection E. intros. subst. apply (Hsp x20); [|done]. do 4 right. by left.
Qed.

(** ** The table of nodes over the life of a manager *)

(** A step that keeps the table: the same nodes, with the same identifiers. *)
Definition keeps (cm cm' : ClusterManager) : Prop :=
  Self cm' = Self cm /\ Nodes cm' = Nodes cm /\ forall l, (ID <$> store cm' !! l) = (ID <$> store cm !! l).

#[local] Instance keeps_preorder : PreOrder keeps.
Proof. split; [done|]. intros c1 c2 c3 (A1 & A2 & A3) (B1 & B2 & B3). split; [congruence|]. split; [congruence|]. intros l. by rewrite B3. Qed.

Definition consistent (cm : ClusterManager) : Prop := registered cm /\ ID (self cm) <> [].

Lemma keeps_consistent cm cm' : keeps cm cm' -> consistent cm -> consistent cm'.
Proof.
  intros (E1 & E2 & E3) [H1 H2]. split.
  - intros id l. rewrite E2. intros (n & Hn & <-)%H1. specialize (E3 l). rewrite Hn in E3. apply fmap_Some in E3 as (n' & Hn' & Heq). exists n'. by rewrite <- Heq.
  - unfold self, deref in *. rewrite E1. specialize (E3 (Self cm)). destruct (store cm !! Self cm) as [n|], (store cm' !! Self cm) as [n'|]; cbn in *; try done. by injection E3 as ->.
Qed.

Lemma keeps_update f l cm : (forall n, ID (f n) = ID n) -> keeps cm (update f l cm).
Proof.
  intros Hf. split; [done|]. split; [done|]. intros x. cbn. destruct (decide (l = x)) as [->|]; [|by rewrite lookup_alter_ne].
  rewrite lookup_alter_eq. destruct (store cm !! x); cbn; [by rewrite Hf|done].
Qed.

Lemma keeps_fold {A} (f : ClusterManager -> A -> ClusterManager) xs : (forall c x, keeps c (f c x)) -> forall cm, keeps cm (foldl f cm xs).
Proof. intros H. induction xs as [|x xs IH]; intros cm; [done|]. cbn [foldl]. etrans; [apply H|apply IH]. Qed.

Lemma keeps_same cm cm' : Self cm' = Self cm -> Nodes cm' = Nodes cm -> store cm' = store cm -> keeps cm cm'.
Proof. intros H1 H2 H3. split; [done|]. split; [done|]. intros l. by rewrite H3. Qed.

Lemma reassign_keeps t s cm : keeps cm (reassign t s cm).
Proof.
  unfold reassign. cbv zeta. etrans; [|apply keeps_same; reflexivity]. etrans; [|apply keeps_update; reflexivity].
  destruct (SlotMap cm !! s); [|done]. case_decide; [by apply keeps_update|done].
Qed.

Lemma assign_keeps t slots : forall cm, keeps cm (assign_loop t slots cm).1.
Proof.
  induction slots as [|s slots IH]; intros cm; cbn [assign_loop]; [by apply keeps_same|]. case_match; [done|]. etrans; [apply reassign_keeps|apply IH].
Qed.

Lemma on_off_keeps (f : ClusterManager -> nat -> ClusterManager) slots cm : (forall c s, keeps c (f c s)) -> keeps cm (saveConfigLocked (foldl f cm slots)).
Proof. intros H. etrans; [by apply (keeps_fold f slots)|by apply keeps_same]. Qed.

Lemma claim_keeps c l s : keeps c (map_slot s l (slot_on l s c)).
Proof. etrans; [|by apply keeps_same]. by apply keeps_update. Qed.
Lemma release_keeps c l s : keeps c (unmap_slot s (slot_off l s c)).
Proof. etrans; [|by apply keeps_same]. by apply keeps_update. Qed.

Lemma AddSlots_keeps cm slots : keeps cm (AddSlots cm slots).1.
Proof. unfold AddSlots. case_match; [done|]. apply on_off_keeps. intros. apply claim_keeps. Qed.
Lemma DelSlots_keeps cm slots : keeps cm (DelSlots cm slots).1.
Proof. unfold DelSlots. case_match; [done|]. apply on_off_keeps. intros. apply release_keeps. Qed.
Lemma SetSlot_keeps cm slot sub id : keeps cm (SetSlot cm slot sub id).1.
Proof.
  unfold SetSlot. repeat (case_match; try done); try by apply keeps_same. cbn [fst]. etrans; [apply reassign_keeps|]. by apply keeps_same.
Qed.
Lemma save_keeps cm : keeps cm (saveConfigLocked cm).
Proof. by apply keeps_same. Qed.

Lemma Replicate_keeps cm id : keeps cm (Replicate cm id).1.
Proof.
  unfold Replicate. generalize (seq 0 NumSlots). intros xs. repeat (case_match; try done). cbn [fst].
  match goal with |- keeps _ (saveConfigLocked (update _ _ ?c)) => assert (keeps cm c) as HK end.
  { apply keeps_fold. intros c i. destruct (decide (i ∈ _)); [|reflexivity]. cbv zeta. match goal with |- keeps _ (if ?d then _ else _) => destruct d end; [apply release_keeps|by apply keeps_update]. }
  etrans; [exact HK|]. etrans; [|apply save_keeps]. by apply keeps_update.
Qed.

Lemma promote_keeps cm id : keeps cm (promote cm id).
Proof.
  unfold promote. cbv zeta. generalize (seq 0 NumSlots). intros xs. set (c0 := update _ _ cm).
  assert (keeps cm c0) as H0 by by apply keeps_update. clearbody c0.
  assert (keeps c0 (foldl (promote_slot id (Nodes c0 !! id)) c0 xs)) as H1.
  { generalize (Nodes c0 !! id). intros failed. apply keeps_fold.
    intros c i. unfold promote_slot. cbv zeta. repeat first [case_decide | case_match]; try done; try apply claim_keeps.
    etrans; [|apply claim_keeps]. by apply keeps_update. }
  etrans; [exact H0|]. etrans; [exact H1|apply save_keeps].
Qed.
Lemma gossip_keeps now cm gossip id : keeps cm (processGossipEntriesLocked now cm gossip id).
Proof.
  apply keeps_fold. intros c g. unfold gossip_one. case_decide; [done|]. repeat (case_match; try done); try (by apply keeps_update); try (by apply keeps_same).
Qed.

Lemma audit_keeps now order : forall st st', audit now order st = Ok st' -> keeps st.1 st'.1.
Proof.
  induction order as [|id order IH]; intros [cm t] st'; cbn [audit]; [by intros [= <-]|]. intros ([c1 t1] & E & H%IH)%bind_Ok. etrans; [|exact H]. cbn [fst].
  revert E. apply (audit_one_keeps (fun c => keeps cm c)); [| |done].
  - intros c f l Hf Hc. etrans; [exact Hc|]. apply keeps_update. intros n. apply Hf.
  - intros c r Hc. etrans; [exact Hc|]. by apply keeps_same.
Qed.

(** A node registered under its identifier. *)
Lemma add_object_consistent id n cm : ID n = id -> consistent cm -> consistent (add_object id n cm).1.
Proof.
  intros Hid [H1 H2]. unfold add_object. cbn [fst]. set (l := fresh (dom (store cm))).
  assert (store cm !! l = None) as Hl by (apply not_elem_of_dom, is_fresh). split.
  - intros i x. cbn [Nodes store]. destruct (decide (i = id)) as [->|Hne].
    + rewrite lookup_insert_eq. intros [= <-]. exists n. by rewrite lookup_insert_eq.
    + rewrite lookup_insert_ne by done. intros (m & Hm & Hi)%H1. exists m. rewrite lookup_insert_ne; [done|congruence].
  - unfold self, deref in *. cbn [Self store]. destruct (decide (l = Self cm)) as [E|E]; [rewrite <- E, Hl in H2; done|]. by rewrite lookup_insert_ne.
Qed.

Lemma delete_consistent id cm : consistent cm -> consistent (set_nodes (delete id (Nodes cm)) cm).
Proof. intros [H1 H2]. split; [|done]. intros i l. cbn. intros [_ H]%lookup_delete_Some. by apply H1. Qed.

Lemma RemoveNode_consistent cm id : consistent cm -> consistent (RemoveNode cm id).1.
Proof.
  intros H. unfold RemoveNode. repeat (case_match; try done). cbn [fst]. generalize (owned_by cm p). intros xs.
  assert (keeps cm (foldl (fun cm i => unmap_slot i cm) cm xs)) as HK by (apply keeps_fold; intros; by apply keeps_same).
  eapply keeps_consistent; [apply save_keeps|]. apply delete_consistent. by eapply keeps_consistent.
Qed.

Lemma reset_consistent cm : consistent cm -> consistent (cluster_reset cm).
Proof.
  intros H. unfold cluster_reset, reset_slots. cbv zeta. generalize (seq 0 NumSlots). intros xs.
  set (c := foldl _ cm xs). assert (keeps cm c) as HK by (apply keeps_fold; intros; apply release_keeps).
  pose proof (keeps_consistent _ _ HK H) as [Hc1 Hc2]. clear HK. clearbody c. eapply keeps_consistent; [apply save_keeps|]. split; [|done].
  intros id l. cbn [Nodes set_nodes store]. intros [<- <-]%lookup_singleton_Some. unfold self, deref in *. destruct (store c !! Self c) as [n|]; [|done]. by exists n.
Qed.

Lemma receive_consistent now gen p cm : SenderID p <> [] -> consistent cm -> consistent (receive now gen p cm).
Proof.
  intros Hp H. unfold receive. generalize (seq 0 NumSlots). intros xs.
  assert (consistent (find_sender now gen p cm).1) as H1.
  { unfold find_sender. case_match; [done|]. apply add_object_consistent; [|done]. unfold NewNode. rewrite decide_False by done. by case_match. }
  destruct (find_sender now gen p cm) as [c sender]. cbn [fst] in H1. set (c1 := update _ sender c).
  assert (keeps c c1) as K1 by by apply keeps_update. clearbody c1. apply (keeps_consistent _ _ K1) in H1. clear K1.
  set (c2 := if Bus.Epoch p >? CurrentEpoch c1 then _ else c1). assert (keeps c1 c2) as K2 by (subst c2; case_match; [by apply keeps_same|done]).
  clearbody c2. apply (keeps_consistent _ _ K2) in H1. case_match; [|done]. eapply keeps_consistent; [|exact H1]. apply keeps_fold. intros c3 i. case_decide; [|done].
  destruct (sync_slot_cases p sender c3 i) as [-> | ->]; [done|apply reassign_keeps].
Qed.

Lemma ProcessPacket_consistent now gen order cm p cm' r : SenderID p <> [] -> consistent cm -> ProcessPacket now gen order cm p = Ok (cm', r) -> consistent cm'.
Proof.
  intros Hp H. unfold ProcessPacket. pose proof (receive_consistent now gen p cm Hp H) as H1. set (c := receive now gen p cm) in *. clearbody c. repeat case_decide.
  - intros [= <- <-]. by eapply keeps_consistent; [apply gossip_keeps|].
  - intros [= <- <-]. by eapply keeps_consistent; [apply gossip_keeps|].
  - case_match; [|by intros [= <- <-]]. case_decide; [|by intros [= <- <-]]. intros (? & _ & (? & _ & [= <- <-])%bind_Ok)%bind_Ok.
    eapply keeps_consistent; [by apply keeps_update|done].
  - unfold auth_request. repeat (case_match; try by intros [= <- <-]). intros (? & _ & [= <- <-])%bind_Ok. eapply keeps_consistent; [by apply keeps_same|done].
  - by intros [= <- <-].
Qed.

Lemma cexec_consistent cm op cm' : named op -> cexec cm op = Ok cm' -> consistent cm -> consistent cm'.
Proof.
  intros Hn E H. destruct op; cbn [cexec named] in *; try (injection E as <-); try (apply bind_Ok in E as ([c r] & E & [= <-]); cbn [fst]).
  - eapply keeps_consistent; [apply AddSlots_keeps|done].
  - unfold AssignSlotsToNode. case_match; [|done]. eapply keeps_consistent; [apply assign_keeps|done].
  - eapply keeps_consistent; [apply DelSlots_keeps|done].
  - eapply keeps_consistent; [apply SetSlot_keeps|done].
  - by apply RemoveNode_consistent.
  - eapply keeps_consistent; [apply Replicate_keeps|done].
  - by eapply ProcessPacket_consistent.
  - unfold heartbeatStep in E. apply bind_Ok in E as (st & E%audit_keeps & [= <- _]). by eapply keeps_consistent.
  - unfold start_election in E. case_decide; [by injection E as <- _|]. apply bind_Ok in E as (? & _ & (? & _ & [= <- _])%bind_Ok). eapply keeps_consistent; [by apply keeps_same|done].
  - unfold PromoteReplica in E. case_decide; [by injection E as <- _|]. apply bind_Ok in E as (? & _ & [= <- _]). eapply keeps_consistent; [apply promote_keeps|done].
  - by apply reset_consistent.
Qed.

Lemma Fields_loop_words s : forall k cur acc, Forall (fun w => w <> []) acc -> Forall (fun w => w <> []) (Fields_loop s k cur acc).
Proof.
  assert (forall (cur : bytes) acc, Forall (fun w => w <> []) acc -> Forall (fun w => w <> []) (if decide (cur = []) then acc else acc ++ [cur])) as Hadd.
  { intros cur acc H. case_decide; [done|]. apply Forall_app. split; [done|]. by apply Forall_singleton. }
  induction s as [|c s IH]; intros k cur acc H; cbn [Fields_loop]; [by apply Hadd|]. destruct k; [|by apply IH]. destruct (space_width (c :: s)); by apply IH, H || apply IH, Hadd.
Qed.

(** Any text, of a peer or a file, keeps the table consistent. *)
Lemma peer_consistent now id ip port busPort role mid ep link cm : id <> [] -> consistent cm ->
  consistent (peer_of_line now id ip port busPort role mid ep link cm).1.
Proof.
  intros Hid H. unfold peer_of_line.
  assert (consistent (match Nodes cm !! id with Some l => (cm, l) | None => add_object id (NewNode [] now id ip port busPort role) cm end).1) as H1.
  { case_match; [done|]. apply add_object_consistent; [|done]. unfold NewNode. by rewrite decide_False by done. }
  destruct (match Nodes cm !! id with Some l => (cm, l) | None => add_object id (NewNode [] now id ip port busPort role) cm end) as [c l].
  cbn [fst] in *. eapply keeps_consistent; [by apply keeps_update|done].
Qed.

Lemma merge_line_consistent now cm line : consistent cm -> consistent (merge_line now cm line).
Proof.
  intros H. unfold merge_line. case_decide; [done|]. case_match; [eapply keeps_consistent; [by apply keeps_same|done]|].
  pose proof (Fields_loop_words (TrimSpace line) O [] [] ltac:(constructor)) as HW. fold (Fields (TrimSpace line)) in HW.
  destruct (Fields (TrimSpace line)) as [|id [|addr [|flags [|mid [|? [|? [|ep [|link rest]]]]]]]]; try done. apply Forall_cons in HW as [Hid _].
  destruct (parse_addr addr) as [[ip port] busPort]. cbv zeta.
  match goal with |- context [node_of_line ?a ?b ?c ?d ?e ?f ?g ?h ?i ?j ?k] => assert (consistent (node_of_line a b c d e f g h i j k).1) as HNL end.
  { unfold node_of_line. destruct (Contains flags (str "myself")).
    - destruct (decide (ID (self cm) = [] \/ ID (self cm) = id)) as [[Hd|Hd]|Hd]; [by destruct H| |by apply peer_consistent]. subst id. cbn [fst].
      eapply keeps_consistent; [|exact H]. split; [done|]. split; [done|]. intros x. cbn. destruct (decide (Self cm = x)) as [<-|]; [|by rewrite lookup_alter_ne].
      rewrite lookup_alter_eq. unfold self, deref. destruct (store cm !! Self cm); done.
    - case_decide; [done|]. by apply peer_consistent. }
  destruct (node_of_line _ _ _ _ _ _ _ _ _ _ _) as [c x]. cbn [fst] in HNL. eapply keeps_consistent; [|exact HNL].
  unfold slots_of_line. repeat (case_match; try reflexivity). all: apply keeps_fold; intros; apply claim_keeps.
Qed.

Lemma merge_consistent now text cm : consistent cm -> consistent (parseAndMergeNodesTextLocked now text cm).
Proof.
  unfold parseAndMergeNodesTextLocked. generalize (Split text x0a). intros ls. revert cm. induction ls as [|x ls IH]; intros cm H; [done|]. by apply IH, merge_line_consistent.
Qed.

Lemma Meet_consistent now gen order ip port busPort text cm : consistent cm -> consistent (Meet now gen order ip port busPort text cm).1.
Proof.
  intros H. unfold Meet. cbv zeta. set (c := if decide (text = []) then cm else _). assert (consistent c) as Hc by (subst c; case_decide; [done|by apply merge_consistent]).
  clearbody c. destruct (list_find _ _) as [[i id]|]; [eapply keeps_consistent; [apply save_keeps|exact Hc]|].
  set (n := NewNode gen now gen _ _ _ _). pose proof (add_object_consistent gen n c) as HA. destruct (add_object gen n c) as [c1 l]. cbn [fst] in *.
  eapply keeps_consistent; [apply save_keeps|]. apply HA; [|done]. subst n. cbn. by destruct (decide (gen = [])).
Qed.

(** Everything a node does: the operations of [Cluster], MEET with whatever its peer
    answers, and a configuration file at the start. *)
Inductive lives (cm0 : ClusterManager) : ClusterManager -> Prop :=
| lives_start : lives cm0 cm0
| lives_op cm op cm' : lives cm0 cm -> named op -> cexec cm op = Ok cm' -> lives cm0 cm'
| lives_meet cm now gen order ip port busPort text : lives cm0 cm -> lives cm0 (Meet now gen order ip port busPort text cm).1.

(** Whatever a node does, each identifier of its table names a node that has it. *)
Theorem table_consistent gen now ip port busPort text cm : gen <> [] ->
  lives (NewClusterManager gen now ip port busPort text) cm -> registered cm.
Proof.
  intros Hg HL. enough (consistent cm) as [? _] by done.
  induction HL as [|cm op cm' _ IH Hn He|]; [|by eapply cexec_consistent|by apply Meet_consistent]. apply merge_consistent. unfold InitialManager.
  set (n := NewNode _ _ _ _ _ _ _). assert (ID n = gen) as Hn by done. clearbody n. split.
  - intros id l. cbn. intros [<- <-]%lookup_singleton_Some. exists n. by rewrite lookup_singleton_eq.
  - unfold self, deref. cbn. rewrite lookup_singleton_eq. cbn. by rewrite Hn.
Qed.

(** ** Merging *)

(** The slots of a line. *)
Lemma assign_slots l slots : forall cm, let r := foldl (fun cm s => map_slot (Z.to_nat s) l (slot_on l (Z.to_nat s) cm)) cm slots in
  Self r = Self cm /\ Nodes r = Nodes cm /\ (forall l', l' <> l -> store r !! l' = store cm !! l') /\
  (forall n, store cm !! l = Some n -> store r !! l = Some (with_slots (fun S => list_to_set (Z.to_nat <$> slots) ∪ S) n)) /\
  (forall s, SlotMap r !! s = if decide (s ∈ Z.to_nat <$> slots) then Some l else SlotMap cm !! s).
Proof.
  induction slots as [|x slots IH]; intros cm r; subst r.
  - cbn. repeat split; try done. intros [] Hn. cbn. unfold with_slots. cbn. rewrite Hn. do 2 f_equal. set_solver.
  - cbn [foldl]. destruct (IH (map_slot (Z.to_nat x) l (slot_on l (Z.to_nat x) cm))) as (H1 & H2 & H3 & H4 & H5). split; [done|]. split; [done|]. split; [|split].
    + intros l' Hl'. rewrite H3 by done. cbn. by rewrite lookup_alter_ne.
    + intros n Hn. rewrite (H4 (with_slots (fun S => {[Z.to_nat x]} ∪ S) n)) by (cbn; by rewrite lookup_alter_eq, Hn).
      unfold with_slots. cbn. do 2 f_equal. set_solver.
    + intros s. rewrite H5. cbn [fmap list_fmap]. change (SlotMap (map_slot (Z.to_nat x) l (slot_on l (Z.to_nat x) cm))) with (<[Z.to_nat x := l]> (SlotMap cm)).
      destruct (decide (s ∈ Z.to_nat <$> slots)) as [H|H]; [by rewrite decide_True by (by right)|].
      destruct (decide (s = Z.to_nat x)) as [->|Hne]; [by rewrite lookup_insert_eq, decide_True by (by left)|].
      rewrite lookup_insert_ne by done. rewrite decide_False; [done|]. by intros [?|?]%elem_of_cons.
Qed.

Lemma elem_of_SlotsList n s : s ∈ Z.to_nat <$> SlotsList n <-> s ∈ Slots n /\ (s < NumSlots)%nat.
Proof.
  unfold SlotsList. rewrite <- list_fmap_compose, list_elem_of_fmap. split.
  - intros (i & -> & [Hi1 Hi2]%list_elem_of_filter). cbn. rewrite Nat2Z.id. split; [done|]. apply elem_of_seq in Hi2. lia.
  - intros [H1 H2]. exists s. cbn. rewrite Nat2Z.id. split; [done|]. apply list_elem_of_filter. split; [done|]. apply elem_of_seq. lia.
Qed.

(** A master prints the slots it claims. *)
Definition claims (n : ClusterNode) (s : nat) : Prop := Role n = master /\ s ∈ Slots n /\ (s < NumSlots)%nat.
#[local] Instance claims_dec n s : Decision (claims n s).
Proof. unfold claims. apply _. Defined.

(** What the receiver of a line knows of the node. *)
Record learned (n n' : ClusterNode) : Prop := {
  le_id : ID n' = ID n;
  le_address : IP n' = IP n /\ Port n' = Port n /\ BusPort n' = BusPort n;
  le_role : Role n' = Role n /\ MasterID n' = (if decide (MasterID n = []) then str "-" else MasterID n);
  le_state : Epoch n' = Epoch n /\ LinkState n' = LinkState n;
  le_slots : forall s, s ∈ Slots n' <-> claims n s
}.

Lemma ranges_parsed n : ParseSlotRanges (Join (range_words n) (str " ")) = Some (SlotsList n).
Proof.
  rewrite <- SlotRanges_roundtrip. f_equal. unfold range_words, SlotRangesString. by destruct (SlotsList n).
Qed.

Lemma with_slots_none n : n = with_slots (fun X => ∅ ∪ X) n.
Proof. destruct n. unfold with_slots. cbn. f_equal. by rewrite (left_id_L ∅ (∪)). Qed.

Lemma slots_of_line_spec n l cm n0 : line_ok n -> store cm !! l = Some n0 ->
  let r := slots_of_line (Role n) (if decide (Role n = master) then range_words n else []) l cm in
  Self r = Self cm /\ Nodes r = Nodes cm /\ (forall l', l' <> l -> store r !! l' = store cm !! l') /\
  (exists S, store r !! l = Some (with_slots (fun X => S ∪ X) n0) /\ forall s, s ∈ S <-> claims n s) /\
  (forall s, SlotMap r !! s = if decide (claims n s) then Some l else SlotMap cm !! s).
Proof.
  intros Hn Hl r. subst r. unfold slots_of_line. assert (forall s, claims n s <-> Role n = master /\ s ∈ Z.to_nat <$> SlotsList n) as Hcl.
  { intros s. by rewrite elem_of_SlotsList. }
  destruct (decide (Role n = master)) as [Hr|Hr].
  - destruct (decide (range_words n = [])) as [E|E].
    + rewrite decide_False by (intros [? ?]; done). pose proof (ranges_parsed n) as HP. rewrite E in HP.
      change (ParseSlotRanges (Join [] (str " "))) with (Some (@nil Z)) in HP. apply (inj Some) in HP.
      assert (forall s, ~ claims n s) as Hno by (intros s [_ Hs]%Hcl; rewrite <- HP in Hs; by apply elem_of_nil in Hs).
      repeat split; try done.
      * exists ∅. split; [|intros s; split; [intros []%not_elem_of_empty|intros H; by apply Hno in H]]. rewrite Hl. f_equal. by apply with_slots_none.
      * intros s. by rewrite decide_False by apply Hno.
    + rewrite decide_True, ranges_parsed by done. destruct (assign_slots l (SlotsList n) cm) as (H1 & H2 & H3 & H4 & H5).
      split; [done|]. split; [done|]. split; [done|]. split.
      * eexists. split; [by apply H4|]. intros s. rewrite Hcl, elem_of_list_to_set. naive_solver.
      * intros s. rewrite H5. apply decide_ext. rewrite Hcl. naive_solver.
  - rewrite decide_False by (intros [? _]; done). repeat split; try done.
    + exists ∅. split; [|intros s; split; [intros []%not_elem_of_empty|intros [? _]; done]]. rewrite Hl. f_equal. by apply with_slots_none.
    + intros s. rewrite decide_False; [done|]. by intros [? _].
Qed.

(** What the receiver of a line makes of a node it knows: the address and the role
    stay, slots are added; the entry of the receiver itself gets only the slots. *)
Definition master_of (n : ClusterNode) : bytes := if decide (MasterID n = []) then str "-" else MasterID n.

Record refreshed (own : bool) (n n0 n' : ClusterNode) : Prop := {
  rf_id : ID n' = ID n0;
  rf_address : IP n' = IP n0 /\ Port n' = Port n0 /\ BusPort n' = BusPort n0 /\ Role n' = Role n0;
  rf_state : if own then MasterID n' = MasterID n0 /\ Epoch n' = Epoch n0 /\ LinkState n' = LinkState n0
             else MasterID n' = master_of n /\ Epoch n' = Epoch n /\ LinkState n' = LinkState n;
  rf_slots : forall s, s ∈ Slots n' <-> claims n s \/ s ∈ Slots n0
}.

(** What the manager [cm] has at [l] after it read the line of [n]. *)
Definition heard (cm : ClusterManager) (n : ClusterNode) (l : positive) (n' : ClusterNode) : Prop :=
  match Nodes cm !! ID n with
  | None => store cm !! l = None /\ learned n n'
  | Some l0 => l = l0 /\ exists n0, store cm !! l0 = Some n0 /\ refreshed (bool_decide (l0 = Self cm)) n n0 n'
  end.

Definition receiver_ok (cm : ClusterManager) : Prop := consistent cm /\ Nodes cm !! ID (self cm) = Some (Self cm).

(** The node of a line, before its slots are added. *)
Lemma line_node now cm n (b : bool) : line_ok n -> receiver_ok cm -> (b = true -> ID n <> ID (self cm)) ->
  exists cm1 l n1, node_of_line now b (ID n) (IP n) (Port n) (BusPort n) (Role n) (master_of n) (Epoch n) (LinkState n) cm = (cm1, l) /\
    Self cm1 = Self cm /\ Nodes cm1 = <[ID n := l]> (Nodes cm) /\ SlotMap cm1 = SlotMap cm /\
    store cm1 !! l = Some n1 /\ (forall l', l' <> l -> store cm1 !! l' = store cm !! l') /\
    forall S n', n' = with_slots (fun X => S ∪ X) n1 -> (forall s, s ∈ S <-> claims n s) -> heard cm n l n'.
Proof.
  intros Hn [[HR Hne] Hreg] Hb. unfold heard. destruct (decide (ID n = ID (self cm))) as [Hown|Hown].
  - destruct b; [by destruct (Hb eq_refl)|]. exists cm, (Self cm). destruct (HR _ _ Hreg) as (n0 & Hn0 & Hid). exists n0. unfold node_of_line. rewrite decide_True by done.
    split; [done|]. split; [done|]. split; [by rewrite insert_id by (by rewrite Hown)|]. split; [done|]. split; [done|]. split; [done|].
    intros S n' -> HS. rewrite Hown, Hreg. split; [done|]. exists n0. split; [done|]. rewrite bool_decide_eq_true_2 by done.
    split; try done. intros s. cbn. by rewrite elem_of_union, HS.
  - assert (node_of_line now b (ID n) (IP n) (Port n) (BusPort n) (Role n) (master_of n) (Epoch n) (LinkState n) cm =
      peer_of_line now (ID n) (IP n) (Port n) (BusPort n) (Role n) (master_of n) (Epoch n) (LinkState n) cm) as ->.
    { unfold node_of_line. destruct b; rewrite decide_False; [done| |done|done]. intros [?|?]; [done|congruence]. }
    unfold peer_of_line. destruct (Nodes cm !! ID n) as [l|] eqn:El.
    + destruct (HR _ _ El) as (n0 & Hn0 & Hid). eexists _, l, _. split; [reflexivity|]. split; [done|]. split; [by rewrite insert_id|]. split; [done|].
      split; [cbn [store update]; by rewrite lookup_alter_eq, Hn0|]. split; [intros l' Hl'; cbn [store update]; by rewrite lookup_alter_ne|].
      intros S n' -> HS. split; [done|]. exists n0. split; [done|].
      rewrite bool_decide_eq_false_2; [|intros ->; apply Hown; unfold self, deref; by rewrite Hn0]. split; try done. intros s. cbn. by rewrite elem_of_union, HS.
    + unfold add_object. set (l := fresh (dom (store cm))). assert (store cm !! l = None) as Hl by (apply not_elem_of_dom, is_fresh).
      eexists _, l, _. split; [reflexivity|]. split; [done|]. split; [done|]. split; [done|].
      split; [cbn [store update]; by rewrite lookup_alter_eq, lookup_insert_eq|]. split; [intros l' Hl'; cbn [store update]; by rewrite lookup_alter_ne, lookup_insert_ne|].
      intros S n' -> HS. split; [done|].
      assert (IP n <> [] /\ ID n <> []) as [HIP HID] by (split; apply Hn). assert (Role n <> []) as HRo by (destruct (lo_role n Hn) as [E|E]; by rewrite E).
      pose proof (lo_bus n Hn). unfold NewNode. rewrite !decide_False by done. rewrite (proj2 (Z.leb_gt _ _)) by lia.
      split; try done. intros s. rewrite <- HS. unfold with_slots. cbn [Slots with_link]. rewrite elem_of_union. split; [by intros [?|?%elem_of_empty]|by left].
Qed.

(** One line: only the node it names changes. *)
Lemma merge_any now cm n b : line_ok n -> receiver_ok cm -> (b = true -> ID n <> ID (self cm)) ->
  let r := merge_line now cm (FormatNodeLine n b) in
  exists l n', Self r = Self cm /\ Nodes r = <[ID n := l]> (Nodes cm) /\ store r !! l = Some n' /\
    (forall l', l' <> l -> store r !! l' = store cm !! l') /\ heard cm n l n' /\
    forall s, SlotMap r !! s = if decide (claims n s) then Some l else SlotMap cm !! s.
Proof.
  intros Hn Hok Hb r. subst r. pose proof (line_words_word n b Hn) as HW. destruct (flags_word n b Hn) as (_ & Hsl & Hmy).
  assert (line_words n b <> []) as Hlw by done.
  unfold merge_line. rewrite FormatNodeLine_words, TrimSpace_Join, not_vars, Fields_Join by done.
  rewrite decide_False by (intros E; apply (f_equal Fields) in E; rewrite Fields_Join in E by done; done).
  unfold line_words. cbn [app]. rewrite parse_addr_line, Hsl, Hmy by done.
  assert (uint_or_limit (FormatUint (Epoch n)) = Epoch n) as -> by (unfold uint_or_limit; by rewrite ParseUint_FormatUint by apply Hn).
  assert ((if bool_decide (Role n = slave) then slave else master) = Role n) as ->.
  { destruct (lo_role n Hn) as [E|E]; rewrite E; [by rewrite bool_decide_false by done|by rewrite bool_decide_true]. }
  fold (master_of n). destruct (line_node now cm n b Hn Hok Hb) as (cm1 & l & n1 & -> & E1 & E2 & E3 & E4 & E5 & E6).
  destruct (slots_of_line_spec n l cm1 n1 Hn E4) as (H1 & H2 & H3 & (S & H4 & HS) & H5).
  eexists l, _. split; [congruence|]. split; [congruence|]. split; [exact H4|]. split; [intros l' Hl'; rewrite H3 by done; by apply E5|].
  split; [by eapply E6|]. intros s. rewrite H5. by rewrite E3.
Qed.

Lemma heard_id cm n l n' : registered cm -> heard cm n l n' -> ID n' = ID n.
Proof.
  intros HR. unfold heard. destruct (Nodes cm !! ID n) as [l0|] eqn:E; [|by intros [_ []]]. intros [-> (n0 & Hn0 & [-> _ _ _])].
  destruct (HR _ _ E) as (m & Hm & <-). congruence.
Qed.

(** The nodes with their lines, one after the other. *)
Lemma merge_all now ns : Forall (fun p => line_ok p.1) ns -> NoDup (ID <$> ns.*1) ->
  forall cm, receiver_ok cm -> Forall (fun p => p.2 = true -> ID p.1 <> ID (self cm)) ns ->
  let r := foldl (merge_line now) cm ((fun p => FormatNodeLine p.1 p.2) <$> ns) in
  (forall id, id ∉ ID <$> ns.*1 -> Nodes r !! id = Nodes cm !! id /\ forall l, Nodes cm !! id = Some l -> store r !! l = store cm !! l) /\
  (forall n, n ∈ ns.*1 -> exists l n', Nodes r !! ID n = Some l /\ store r !! l = Some n' /\ heard cm n l n' /\
     forall s, claims n s -> (forall m, m ∈ ns.*1 -> claims m s -> m = n) -> SlotMap r !! s = Some l) /\
  (forall s, (forall n, n ∈ ns.*1 -> ~ claims n s) -> SlotMap r !! s = SlotMap cm !! s).
Proof.
  induction ns as [|[n b] ns IH]; intros HF HN cm Hok Hb r; subst r.
  { cbn. split; [done|]. split; [|done]. intros n []%elem_of_nil. }
  apply Forall_cons in HF as [Hn HF]. csimpl in *. apply NoDup_cons in HN as [Hnin HN]. apply Forall_cons in Hb as [Hb Hbs].
  destruct (merge_any now cm n b Hn Hok Hb) as (l & n' & Hself & HNodes & Hst & Hoth & Hh & Hmap). pose proof Hok as [[HR Hne] Hreg].
  pose proof (merge_line_consistent now cm (FormatNodeLine n b) (proj1 Hok)) as HC1. set (cm1 := merge_line now cm (FormatNodeLine n b)) in *. clearbody cm1.
  pose proof (heard_id cm n l n' HR Hh) as Hid.
  assert (forall id l1, id <> ID n -> Nodes cm !! id = Some l1 -> l1 <> l) as Hapart.
  { intros id l1 Hx H1 ->. destruct (HR _ _ H1) as (m & Hm & Hmid). unfold heard in Hh. destruct (Nodes cm !! ID n) as [l0|] eqn:E.
    - destruct Hh as [-> _]. destruct (HR _ _ E) as (m' & Hm' & ?). congruence.
    - destruct Hh as [? _]. congruence. }
  assert (ID (self cm1) = ID (self cm)) as Hsid.
  { unfold self, deref. rewrite Hself. destruct (decide (Self cm = l)) as [E|E]; [|by rewrite Hoth]. rewrite E, Hst. cbn. rewrite Hid.
    destruct (decide (ID (self cm) = ID n)) as [Hs|Hs]; [unfold self, deref in Hs; by rewrite E in Hs|]. by destruct (Hapart _ _ Hs Hreg). }
  assert (receiver_ok cm1) as Hok1.
  { split; [done|]. rewrite Hsid, Hself, HNodes. destruct (decide (ID n = ID (self cm))) as [E|E]; [|by rewrite lookup_insert_ne].
    rewrite E, lookup_insert_eq. unfold heard in Hh. rewrite E, Hreg in Hh. destruct Hh as [-> _]. done. }
  destruct (IH HF HN cm1 Hok1) as (IH1 & IH2 & IH3).
  { eapply list.Forall_impl; [exact Hbs|]. intros p Hp Hq. rewrite Hsid. by apply Hp. }
  assert (forall id, id <> ID n -> Nodes cm1 !! id = Nodes cm !! id) as HN1 by (intros id Hx; by rewrite HNodes, lookup_insert_ne).
  assert (forall m, m ∈ ns.*1 -> ID m <> ID n) as Hdiff by (intros m Hm E; apply Hnin; rewrite <- E; by apply list_elem_of_fmap_2).
  split; [|split].
  - intros id [Hx1 Hx2]%not_elem_of_cons. destruct (IH1 id Hx2) as [-> HS]. split; [by apply HN1|]. intros l1 Hl1.
    rewrite HS by (by rewrite HN1). apply Hoth. by eapply Hapart.
  - intros m [->|Hm]%elem_of_cons.
    + destruct (IH1 (ID n) Hnin) as [-> HS]. rewrite HNodes, lookup_insert_eq. exists l, n'. split; [done|]. split; [rewrite HS; [done|by rewrite HNodes, lookup_insert_eq]|].
      split; [done|]. intros s Hc Hu. rewrite IH3, Hmap; [by rewrite decide_True|]. intros m Hm Hcm. destruct (Hdiff m Hm). f_equal. apply Hu; [by right|done].
    + destruct (IH2 m Hm) as (lm & m' & H1 & H2 & H3 & H4). exists lm, m'. split; [done|]. split; [done|]. split; [|intros s Hc Hu; apply H4; [done|]; intros; apply Hu; [by right|done]].
      unfold heard in H3 |- *. rewrite HN1 in H3 by (by apply Hdiff). rewrite Hself in H3. destruct (Nodes cm !! ID m) as [l0|] eqn:E.
      * destruct H3 as [-> (n0 & Hn0 & Hrf)]. split; [done|]. exists n0. split; [|done]. rewrite <- Hoth; [done|]. apply (Hapart (ID m)); [by apply Hdiff|done].
      * destruct H3 as [H3 ?]. split; [|done]. rewrite <- Hoth; [done|]. intros ->. congruence.
  - intros s Hs. rewrite IH3, Hmap by (intros; apply Hs; by right). rewrite decide_False; [done|]. apply Hs. by left.
Qed.

(** The nodes of a manager, itself first, with whether it is itself. *)
Definition cluster_nodes (cm : ClusterManager) : list (ClusterNode * bool) :=
  (self cm, true) :: ((fun id => (default nilNode (l ← Nodes cm !! id; store cm !! l), false)) <$> peerIDs cm).

Lemma Split_lines ls : Forall (fun s => x0a ∉ s) ls -> Split (Join ls [x0a] ++ [x0a]) x0a = ls ++ (if decide (ls = []) then [[]; []] else [[]]).
Proof.
  induction 1 as [|w ls Hw _ IH]; [done|]. rewrite decide_False by done. destruct ls as [|w' ls].
  - cbn [Join app]. by rewrite Split_app.
  - change (Join (w :: w' :: ls) [x0a]) with (w ++ [x0a] ++ Join (w' :: ls) [x0a]). rewrite <- app_assoc. cbn [app]. rewrite Split_app by done.
    cbn [app] in IH. rewrite IH. done.
Qed.

Lemma line_no_LF n b : line_ok n -> x0a ∉ FormatNodeLine n b.
Proof.
  intros Hn Hin. rewrite FormatNodeLine_words in Hin. pose proof (Join_plain _ (line_words_word n b Hn)) as HF. rewrite list.Forall_forall in HF.
  destruct (HF _ Hin) as [H|H]; [unfold word_byte in H; cbn in H; lia|done].
Qed.

Lemma cluster_nodes_ids cm : registered cm -> NoDup (ID <$> (cluster_nodes cm).*1).
Proof.
  intros HR. assert (ID <$> (cluster_nodes cm).*1 = ID (self cm) :: peerIDs cm) as ->.
  { unfold cluster_nodes. cbn [fmap list_fmap fst]. f_equal. rewrite <- !list_fmap_compose. rewrite <- (list_fmap_id (peerIDs cm)) at 2.
    apply list_fmap_ext. intros i id Hid. apply list_elem_of_lookup_2 in Hid. unfold peerIDs in Hid. rewrite sort_slice_perm in Hid.
    apply list_elem_of_filter in Hid as [_ ([id' l] & -> & Hl%elem_of_map_to_list)%list_elem_of_fmap]. cbn. rewrite Hl. cbn.
    destruct (HR _ _ Hl) as (n & -> & <-). done. }
  apply NoDup_cons. unfold peerIDs. rewrite sort_slice_perm. split; [by intros [? _]%list_elem_of_filter|]. apply NoDup_filter, NoDup_fst_map_to_list.
Qed.

(** C30: the text of CLUSTER NODES carries the topology to another node that reads it
    (from a peer it meets, or a file).  It registers every node of the text under its
    identifier: a node it did not know with address, role, master, epoch, link state
    and, for a master, exactly the slots listed; of a node it knew it takes master,
    epoch and link state and adds the slots, and to its own entry it adds the slots.
    Nodes that are not in the text stay as they are; a slot that one listed master
    claims is mapped to it, and a slot that none claims keeps its owner.  The tables of
    both are consistent ([table_consistent]), the sender is not the reader, and the
    nodes print as words of printable ASCII. *)
Theorem topology_learned now cm cm0 :
  registered cm -> Forall (fun p => line_ok p.1) (cluster_nodes cm) -> receiver_ok cm0 -> ID (self cm) <> ID (self cm0) ->
  let r := parseAndMergeNodesTextLocked now (FormatNodes cm) cm0 in
  let listed := (cluster_nodes cm).*1 in
  (forall n, n ∈ listed -> exists l n', Nodes r !! ID n = Some l /\ store r !! l = Some n' /\ heard cm0 n l n' /\
     forall s, claims n s -> (forall m, m ∈ listed -> claims m s -> m = n) -> SlotMap r !! s = Some l) /\
  (forall id, id ∉ ID <$> listed -> Nodes r !! id = Nodes cm0 !! id /\ forall l, Nodes cm0 !! id = Some l -> store r !! l = store cm0 !! l) /\
  (forall s, (forall n, n ∈ listed -> ~ claims n s) -> SlotMap r !! s = SlotMap cm0 !! s).
Proof.
  intros HR HF Hok Hne. unfold parseAndMergeNodesTextLocked, FormatNodes.
  assert (node_lines cm = (fun p => FormatNodeLine p.1 p.2) <$> cluster_nodes cm) as Hlines.
  { unfold node_lines, cluster_nodes. cbn [fmap list_fmap fst snd]. f_equal. by rewrite <- list_fmap_compose. }
  rewrite Hlines, Split_lines.
  - rewrite decide_False by done. rewrite foldl_app. cbn [foldl]. change (merge_line now ?c []) with c.
    destruct (merge_all now (cluster_nodes cm) HF (cluster_nodes_ids cm HR) cm0 Hok) as (H1 & H2 & H3); [|done].
    unfold cluster_nodes. apply Forall_cons. split; [done|]. apply list.Forall_forall. intros p (id & -> & _)%list_elem_of_fmap. done.
  - apply Forall_fmap. eapply list.Forall_impl; [exact HF|]. intros [n b] Hn. by apply line_no_LF.
Qed.

(** ** The theorem on concrete managers *)

Definition wordb (w : bytes) : bool := negb (bool_decide (w = [])) && forallb (fun c => (33 <=? b2z c) && (b2z c <=? 126)) w.

Lemma wordb_word w : wordb w = true -> word w.
Proof.
  intros [H1 H2]%andb_true_iff. split; [by intros ->|]. rewrite forallb_forall in H2. apply list.Forall_forall. intros c Hc.
  apply list_elem_of_In, H2 in Hc. unfold word_byte. lia.
Qed.

Definition line_okb (n : ClusterNode) : bool :=
  wordb (ID n) && negb (bool_decide (ID n = str "vars")) && wordb (IP n) && negb (bool_decide ("@"%byte ∈ IP n)) &&
  bool_decide (is_int64 (Port n)) && bool_decide (0 < BusPort n < 2 ^ 63) && bool_decide (Role n = master \/ Role n = slave) &&
  wordb (MasterID n) && bool_decide (is_uint64 (Epoch n)) && wordb (LinkState n).

Lemma line_okb_ok n : line_okb n = true -> line_ok n.
Proof.
  unfold line_okb. rewrite !andb_true_iff, !negb_true_iff, !bool_decide_eq_true, !bool_decide_eq_false. intros H. destruct_and! H.
  split; try done; [|split; [by apply wordb_word|done]|right|]; try by apply wordb_word. split; [by apply wordb_word|done].
Qed.

Definition newcomer : ClusterManager := InitialManager (str "cccccccccccccccc") 20 (str "10.0.0.3") 7379 0 [].

Lemma newcomer_ok : receiver_ok newcomer.
Proof.
  unfold newcomer, InitialManager. set (n := NewNode _ _ _ _ _ _ _). assert (ID n = str "cccccccccccccccc") as Hn by reflexivity. clearbody n.
  split; [split|].
  - intros id l. cbn. intros [<- <-]%lookup_singleton_Some. exists n. by rewrite lookup_singleton_eq.
  - unfold self, deref. cbn. rewrite lookup_singleton_eq. cbn. by rewrite Hn.
  - unfold self, deref. cbn [Self Nodes store]. rewrite (lookup_singleton_eq (M := gmap positive)). cbn [default from_option]. apply lookup_singleton_eq.
Qed.

Lemma topology_learned_witness :
  let r := parseAndMergeNodesTextLocked 21 (FormatNodes b_owns_3) newcomer in
  exists l n', Nodes r !! node_b = Some l /\ store r !! l = Some n' /\ ID n' = node_b /\ SlotMap r !! 3%nat = Some l.
Proof.
  assert (exists a b, (cluster_nodes b_owns_3).*1 = [a; b] /\ ID b = node_b /\ elements (Slots a) = [] /\ Role b = master /\ elements (Slots b) = [3%nat]) as (a & b & Hab & Hb & Ha & Hr & H3).
  { do 2 eexists. split; [vm_compute; reflexivity|]. by vm_compute. }
  destruct (topology_learned 21 b_owns_3 newcomer) as (H & _ & _).
  - intros id l Hl. destruct (reachable_inv start_a b_owns_3 (initial_inv _ _ _ _ _ _) b_owns_3_reachable) as [Hwf _]. exact (wf_nodes _ Hwf id l Hl).
  - apply Forall_cons. split; [apply line_okb_ok; by vm_compute|]. apply Forall_cons. split; [apply line_okb_ok; by vm_compute|constructor].
  - apply newcomer_ok.
  - by vm_compute.
  - rewrite Hab in H. clear Hab. destruct (H b) as (l & n' & H1 & H2 & H4 & H5); [right; by left|]. exists l, n'. rewrite <- Hb. split; [done|]. split; [done|].
    split; [exact (heard_id _ _ _ _ (proj1 (proj1 newcomer_ok)) H4)|]. apply H5.
    + split; [done|]. split; [|unfold NumSlots; lia]. apply elem_of_elements. rewrite H3. by left.
    + intros m [->|[->|Hm]%elem_of_cons]%elem_of_cons Hc; [|reflexivity|destruct (not_elem_of_nil m Hm)].
      destruct Hc as (_ & Hs & _). apply elem_of_elements in Hs. rewrite Ha in Hs. destruct (not_elem_of_nil _ Hs).
Defined.

(** ** Deviations *)

(** A node that restarts reads its own line as that of another node, because it
    draws a new identifier before it loads the file: its slots belong to a node
    that no longer exists, and it serves none of them. *)
Theorem restart_loses_identity :
  let before := fst (AddSlots start_a [3%nat]) in
  let after := NewClusterManager node_b 30 [] 0 0 (ConfigText before) in
  ID (self before) = node_a /\ SlotMap before !! 3%nat = Some (Self before) /\
  ID (self after) = node_b /\ (ID ∘ deref after <$> SlotMap after !! 3%nat) = Some node_a /\ elements (Slots (self after)) = [].
Proof. by vm_compute. Qed.

(** The length in the reply of a peer goes to [make] unchecked. *)
Theorem meet_length_panics limit : limit < 2 ^ 63 - 1 ->
  meet_reply limit false (str "$9223372036854775807" ++ CRLF) = Err (Fault PanicMakeSlice).
Proof.
  intros H. assert (meet_reply limit false (str "$9223372036854775807" ++ CRLF) =
    if limit <? 2 ^ 63 - 1 then Err (Fault PanicMakeSlice)
    else let buf := take (Z.to_nat (2 ^ 63 - 1)) [] in Ok (buf ++ replicate (Z.to_nat (2 ^ 63 - 1) - length buf) x00)) as ->.
  { unfold meet_reply. reflexivity. }
  by rewrite (proj2 (Z.ltb_lt _ _)).
Qed.

(** A slot that another master takes over in the text stays set in the array of
    its old owner, whose own lines still claim it. *)
Theorem merged_slot_claimed_twice :
  let cm := merge_line 9 b_owns_3 (str "cccccccccccccccc 10.0.0.3:7379@17379 master - 0 0 2 connected 3") in
  (ID ∘ deref cm <$> SlotMap cm !! 3%nat) = Some (str "cccccccccccccccc") /\
  (elements ∘ Slots ∘ deref cm <$> Nodes cm !! node_b) = Some [3%nat].
Proof. by vm_compute. Qed.
