(* ===== verification/Rdb.v ===== *)
(** * Snapshots (internal/persistence/rdb.go)

    The encoder and decoder of snapshot files, and the save manager.

    A file is its list of bytes.  A decoder threads the bytes still to come and
    keeps them on an error, because some callers ignore errors and read on.
    Floating point numbers occur only through [math.Float64bits] and
    [math.Float32bits]: a number is its bit pattern.  The order in which Go
    iterates over a map is the parameter [iter].  Failures of the file system
    are not modelled. *)

From S2P Require Import Prelude Crc.

Inductive rdb_error :=
| EOF
| ErrUnexpectedEOF
| ErrOverflow
| ErrTooShort
| ErrInvalidRDBHeader
| ErrCRCMismatch
| ErrUnsupportedRDBType
| ErrHandler (e : bytes)
| ErrPanic (p : panic)
| OutOfFuel.

(** ** The decoder monad *)

Definition rd (A : Type) : Type := bytes -> res rdb_error A * bytes.

Definition rd_ret {A} (a : A) : rd A := fun inp => (Ok a, inp).
Definition rd_fail {A} (e : rdb_error) : rd A := fun inp => (Err e, inp).
Definition rd_bind {A B} (r : rd A) (f : A -> rd B) : rd B := fun inp =>
  match r inp with
  | (Ok a, inp') => f a inp'
  | (Err e, inp') => (Err e, inp')
  end.

Declare Scope rdb_scope.
Delimit Scope rdb_scope with rdb.
Notation "'let!' x ':=' r 'in' k" := (rd_bind r (fun x => k))
  (at level 200, x binder, r at level 100, k at level 200) : rdb_scope.
#[local] Open Scope rdb_scope.

Definition ReadByte : rd byte := fun inp =>
  match inp with [] => (Err EOF, []) | b :: inp' => (Ok b, inp') end.

(** [io.ReadFull] into a buffer of [n] bytes. *)
Definition ReadFull (n : Z) : rd bytes := fun inp =>
  if Z.of_nat (length inp) <? n then
    (Err (match inp with [] => EOF | _ => ErrUnexpectedEOF end), [])
  else (Ok (take (Z.to_nat n) inp), drop (Z.to_nat n) inp).

(** [make] of a slice of [n] elements of [size] bytes panics beyond the address
    space of the runtime; smaller requests are taken to succeed. *)
Definition maxAlloc : Z := 2 ^ 48.
Definition make_slice (n size : Z) : rd unit :=
  if maxAlloc <? n * size then rd_fail (ErrPanic PanicMakeSlice) else rd_ret tt.

(** ** Variable-length integers: [binary.PutUvarint] and [binary.ReadUvarint] *)

Definition MaxVarintLen64 : nat := 10.

Fixpoint PutUvarint (fuel : nat) (x : Z) : bytes :=
  match fuel with
  | O => []
  | S f =>
      if 128 <=? x then z2b (Z.lor (Z.land x 0x7f) 0x80) :: PutUvarint f (Z.shiftr x 7)
      else [z2b x]
  end.

(** The loop from iteration [i], with the bits so far [x]; [n] iterations are
    left. *)
Fixpoint ReadUvarint_loop (n : nat) (i : Z) (x : Z) : rd Z :=
  match n with
  | O => rd_fail ErrOverflow
  | S n' => fun inp =>
      match inp with
      | [] => (Err (if 0 <? i then ErrUnexpectedEOF else EOF), [])
      | b :: inp' =>
          if b2z b <? 128 then
            if (i =? 9) && (1 <? b2z b) then (Err ErrOverflow, inp')
            else (Ok (Z.lor x (uint64 (Z.shiftl (b2z b) (7 * i)))), inp')
          else ReadUvarint_loop n' (i + 1) (Z.lor x (uint64 (Z.shiftl (Z.land (b2z b) 0x7f) (7 * i)))) inp'
      end
  end.

Definition writeVarint (x : Z) : bytes := PutUvarint MaxVarintLen64 x.
Definition readVarint : rd Z := ReadUvarint_loop MaxVarintLen64 0 0.

Definition writeString (s : bytes) : bytes := writeVarint (uint64 (Z.of_nat (length s))) ++ s.

Definition readString : rd bytes :=
  let! n := readVarint in
  let! _ := make_slice n 1 in
  ReadFull n.

(** ** Entries *)

Definition RDBMagicHeader : bytes := str "REDIS0009".
Definition OpcodeAUX : byte := xfa.
Definition OpcodeRESIZEDB : byte := xfb.
Definition OpcodeEXPIRETIMEMS : byte := xfc.
Definition OpcodeEXPIRETIME : byte := xfd.
Definition OpcodeSELECTDB : byte := xfe.
Definition OpcodeEOF : byte := xff.
Definition RDBTypeString : byte := x00.
Definition RDBTypeList : byte := x01.
Definition RDBTypeSet : byte := x02.
Definition RDBTypeZSet : byte := x03.
Definition RDBTypeHash : byte := x04.
Definition RDBTypeStream : byte := x06.
Definition RDBTypeVector : byte := xf0.

Record ZSetItem := mkZSetItem { zScore : Z; zMember : bytes }.
Record StreamItem := mkStreamItem { sID : bytes; sFields : gmap bytes bytes }.
Record VectorItem := mkVectorItem { Dim : Z; Vectors : gmap bytes (list Z) }.

(** The dynamic types of [RDBEntry.Value]. *)
Inductive RDBValue :=
| VString (s : bytes)
| VItems (items : list bytes)
| VHash (fields : gmap bytes bytes)
| VZSet (items : list ZSetItem)
| VStream (items : list StreamItem)
| VVector (v : VectorItem).

Record RDBEntry := mkEntry { Key : bytes; Type_ : byte; ExpiresAt : Z; Value : RDBValue }.

(** ** Encoder *)

Definition count {A} (l : list A) : bytes := writeVarint (uint64 (Z.of_nat (length l))).

Definition write_field (kv : bytes * bytes) : bytes := writeString kv.1 ++ writeString kv.2.
Definition write_zitem (i : ZSetItem) : bytes := put_le 8 (zScore i) ++ writeString (zMember i).
Definition write_vector (iv : bytes * list Z) : bytes := writeString iv.1 ++ concat (put_le 4 <$> iv.2).

Section snapshot.
Context (iter : forall V, gmap bytes V -> list (bytes * V)).

Definition write_stream_item (i : StreamItem) : bytes :=
  writeString (sID i) ++ writeVarint (uint64 (Z.of_nat (size (sFields i)))) ++
  concat (write_field <$> iter _ (sFields i)).

Definition encodeValue (valType : byte) (val : RDBValue) : res rdb_error bytes :=
  if decide (valType = RDBTypeString) then
    match val with VString s => Ok (writeString s) | _ => Err ErrUnsupportedRDBType end
  else if decide (valType = RDBTypeList \/ valType = RDBTypeSet) then
    match val with
    | VItems items => Ok (count items ++ concat (writeString <$> items))
    | _ => Err ErrUnsupportedRDBType
    end
  else if decide (valType = RDBTypeHash) then
    match val with
    | VHash fields =>
        Ok (writeVarint (uint64 (Z.of_nat (size fields))) ++ concat (write_field <$> iter _ fields))
    | _ => Err ErrUnsupportedRDBType
    end
  else if decide (valType = RDBTypeZSet) then
    match val with
    | VZSet items => Ok (count items ++ concat (write_zitem <$> items))
    | _ => Err ErrUnsupportedRDBType
    end
  else if decide (valType = RDBTypeStream) then
    match val with
    | VStream items => Ok (count items ++ concat (write_stream_item <$> items))
    | _ => Err ErrUnsupportedRDBType
    end
  else if decide (valType = RDBTypeVector) then
    match val with
    | VVector v =>
        Ok (writeVarint (uint64 (Dim v)) ++ writeVarint (uint64 (Z.of_nat (size (Vectors v)))) ++
            concat (write_vector <$> iter _ (Vectors v)))
    | _ => Err ErrUnsupportedRDBType
    end
  else Err ErrUnsupportedRDBType.

Definition write_entry (e : RDBEntry) : res rdb_error bytes :=
  v ← encodeValue (Type_ e) (Value e);
  Ok ((if 0 <? ExpiresAt e then OpcodeEXPIRETIMEMS :: put_le 8 (uint64 (ExpiresAt e)) else []) ++
      Type_ e :: writeString (Key e) ++ v).

Fixpoint write_entries (es : list RDBEntry) : res rdb_error bytes :=
  match es with
  | [] => Ok []
  | e :: es' => b ← write_entry e; bs ← write_entries es'; Ok (b ++ bs)
  end.

(** An entry that has not expired at [now]. *)
Definition live (now : Z) (e : RDBEntry) : Prop := ~ (0 < ExpiresAt e /\ ExpiresAt e <= now).
#[global] Instance live_dec now e : Decision (live now e).
Proof. unfold live. apply _. Defined.

Definition expireCount (es : list RDBEntry) : Z :=
  Z.of_nat (length (filter (fun e => 0 < ExpiresAt e) es)).

(** The content of the file [SaveRDB] writes. *)
Definition SaveRDB (now : Z) (entries : list RDBEntry) (aux : gmap bytes bytes) : res rdb_error bytes :=
  let validEntries := filter (live now) entries in
  body ← write_entries validEntries;
  let payload :=
    RDBMagicHeader ++
    concat ((fun kv => OpcodeAUX :: write_field kv) <$> iter _ aux) ++
    OpcodeSELECTDB :: writeVarint 0 ++
    OpcodeRESIZEDB :: count validEntries ++ writeVarint (uint64 (expireCount validEntries)) ++
    body ++ [OpcodeEOF] in
  Ok (payload ++ put_le 8 (Sum64 (Write NewCRC64 payload))).

End snapshot.

(** ** Decoder *)

Fixpoint read_n {A} (r : rd A) (n : nat) : rd (list A) :=
  match n with
  | O => rd_ret []
  | S n' => let! a := r in let! l := read_n r n' in rd_ret (a :: l)
  end.

Definition read_field : rd (bytes * bytes) :=
  let! f := readString in
  let! v := readString in
  rd_ret (f, v).

(** Assignments in order: [m[k] = v] for each pair. *)
Definition assign_all {V} (kvs : list (bytes * V)) : gmap bytes V :=
  foldl (fun m kv => <[kv.1 := kv.2]> m) ∅ kvs.

Definition read_fields (n : Z) : rd (gmap bytes bytes) :=
  let! kvs := read_n read_field (Z.to_nat n) in rd_ret (assign_all kvs).

Definition read_zitem : rd ZSetItem :=
  let! b8 := ReadFull 8 in
  let! member := readString in
  rd_ret (mkZSetItem (get_le b8) member).

Definition read_stream_item : rd StreamItem :=
  let! id := readString in
  let! fCount := readVarint in
  let! fields := read_fields fCount in
  rd_ret (mkStreamItem id fields).

Definition read_float32 : rd Z := let! b4 := ReadFull 4 in rd_ret (get_le b4).

Definition read_vector (dim : Z) : rd (bytes * list Z) :=
  let! id := readString in
  let! _ := make_slice dim 4 in
  let! vec := read_n read_float32 (Z.to_nat dim) in
  rd_ret (id, vec).

Definition decodeValue (valType : byte) : rd RDBValue :=
  if decide (valType = RDBTypeString) then let! s := readString in rd_ret (VString s)
  else if decide (valType = RDBTypeList \/ valType = RDBTypeSet) then
    let! n := readVarint in
    let! _ := make_slice n 16 in
    let! items := read_n readString (Z.to_nat n) in rd_ret (VItems items)
  else if decide (valType = RDBTypeHash) then
    let! n := readVarint in
    let! fields := read_fields n in rd_ret (VHash fields)
  else if decide (valType = RDBTypeZSet) then
    let! n := readVarint in
    let! _ := make_slice n 24 in
    let! items := read_n read_zitem (Z.to_nat n) in rd_ret (VZSet items)
  else if decide (valType = RDBTypeStream) then
    let! n := readVarint in
    let! _ := make_slice n 24 in
    let! items := read_n read_stream_item (Z.to_nat n) in rd_ret (VStream items)
  else if decide (valType = RDBTypeVector) then
    let! dim := readVarint in
    let! n := readVarint in
    let! vs := read_n (read_vector dim) (Z.to_nat n) in
    rd_ret (VVector (mkVectorItem (int64 dim) (assign_all vs)))
  else rd_fail ErrUnsupportedRDBType.

(** The rest of a record whose first byte [b] is not an opcode of its own: the
    expiry time, the type, the key and the value. *)
Definition read_entry (b : byte) : rd RDBEntry :=
  let! tb :=
    (if decide (b = OpcodeEXPIRETIME) then
       let! b4 := ReadFull 4 in
       let! t := ReadByte in rd_ret (get_le b4 * 1000, t)
     else if decide (b = OpcodeEXPIRETIMEMS) then
       let! b8 := ReadFull 8 in
       let! t := ReadByte in rd_ret (int64 (get_le b8), t)
     else rd_ret (0, b)) in
  let! key := readString in
  let! val := decodeValue tb.2 in
  rd_ret (mkEntry key tb.2 tb.1 val).

Section load.
Context {St : Type} (handler : St -> RDBEntry -> res bytes St) (now : Z).

(** The records loop: the handler's state and the metadata so far are threaded
    through; the state is kept on an error.  The loop reads at least one byte
    per iteration. *)
Fixpoint records (fuel : nat) (aux : gmap bytes bytes) (st : St) (inp : bytes)
    : St * res rdb_error (gmap bytes bytes) :=
  match fuel with
  | O => (st, Err OutOfFuel)
  | S fuel' =>
      match inp with
      | [] => (st, Ok aux)
      | b :: inp =>
          if decide (b = OpcodeEOF) then (st, Ok aux)
          else if decide (b = OpcodeAUX) then
            match read_field inp with
            | (Ok (k, v), inp) => records fuel' (<[k := v]> aux) st inp
            | (Err e, _) => (st, Err e)
            end
          else if decide (b = OpcodeSELECTDB) then records fuel' aux st (readVarint inp).2
          else if decide (b = OpcodeRESIZEDB) then
            records fuel' aux st (readVarint (readVarint inp).2).2
          else
            match read_entry b inp with
            | (Ok e, inp) =>
                if decide (live now e) then
                  match handler st e with
                  | Ok st' => records fuel' aux st' inp
                  | Err err => (st, Err (ErrHandler err))
                  end
                else records fuel' aux st inp
            | (Err e, _) => (st, Err e)
            end
      end
  end.

Definition LoadRDB (file : bytes) (st : St) : St * res rdb_error (gmap bytes bytes) :=
  if Z.of_nat (length file) <? 9 + 1 + 8 then (st, Err ErrTooShort)
  else
    let payload := take (length file - 8) file in
    let header := take 9 payload in
    if decide (take 5 header <> str "REDIS") then (st, Err ErrInvalidRDBHeader)
    else
      match records (length payload) ∅ st (drop 9 payload) with
      | (st', Err e) => (st', Err e)
      | (st', Ok aux) =>
          let expectedCRC := get_le (drop (length file - 8) file) in
          let actualCRC := Sum64 (Write NewCRC64 payload) in
          if decide (expectedCRC <> 0 /\ actualCRC <> expectedCRC) then (st', Err ErrCRCMismatch)
          else (st', Ok aux)
      end.

End load.

(** ** The save manager *)

Record RDBManager := mkRDBManager {
  path : bytes;
  lastSaveTime : Z;
  lastBgSaveStatus : bytes;
  bgInProgress : bool
}.

Definition NewRDBManager (now : Z) (path : bytes) : RDBManager :=
  mkRDBManager (if decide (path = []) then str "dump.rdb" else path) now (str "ok") false.

(** The bookkeeping after [SaveRDB] returned. *)
Definition record_save (now : Z) (err : bool) (rm : RDBManager) : RDBManager :=
  if err then mkRDBManager (path rm) (lastSaveTime rm) (str "err") (bgInProgress rm)
  else mkRDBManager (path rm) now (str "ok") (bgInProgress rm).

(** [BgSave]: the compare-and-swap, and the end of the goroutine. *)
Definition BgSave_start (rm : RDBManager) : option RDBManager :=
  if bgInProgress rm then None
  else Some (mkRDBManager (path rm) (lastSaveTime rm) (lastBgSaveStatus rm) true).

Definition BgSave_done (now : Z) (err : bool) (rm : RDBManager) : RDBManager :=
  let rm := record_save now err rm in
  mkRDBManager (path rm) (lastSaveTime rm) (lastBgSaveStatus rm) false.

(** ** Decoding what was encoded *)

(** The decoder [r] reads [v] from its encoding [e], whatever follows. *)
Definition decodes {A} (r : rd A) (e : bytes) (v : A) : Prop := forall rest, r (e ++ rest) = (Ok v, rest).

Lemma decodes_ret {A} (a : A) : decodes (rd_ret a) [] a.
Proof. by intros rest. Qed.

Lemma decodes_bind {A B} (r : rd A) (f : A -> rd B) e1 e2 a b :
  decodes r e1 a -> decodes (f a) e2 b -> decodes (rd_bind r f) (e1 ++ e2) b.
Proof. intros H1 H2 rest. unfold rd_bind. by rewrite <- app_assoc, H1. Qed.

(** A last step that reads nothing. *)
Lemma decodes_map {A B} (r : rd A) (f : A -> B) e a :
  decodes r e a -> decodes (rd_bind r (fun x => rd_ret (f x))) e (f a).
Proof. intros H rest. unfold rd_bind. by rewrite H. Qed.

Lemma decodes_make n size : n * size <= maxAlloc -> decodes (make_slice n size) [] tt.
Proof. intros H. unfold make_slice. rewrite (proj2 (Z.ltb_ge _ _)) by done. apply decodes_ret. Qed.

Lemma decodes_ReadFull n s : Z.of_nat (length s) = n -> decodes (ReadFull n) s s.
Proof.
  intros <- rest. unfold ReadFull. rewrite (proj2 (Z.ltb_ge _ _)) by (rewrite length_app; lia).
  by rewrite Nat2Z.id, take_app_length, drop_app_length.
Qed.

Lemma decodes_le n z : 0 <= z < 2 ^ (8 * Z.of_nat n) ->
  decodes (rd_bind (ReadFull (Z.of_nat n)) (fun b => rd_ret (get_le b))) (put_le n z) z.
Proof.
  intros Hz. rewrite <- (get_put_le n z Hz) at 2. apply decodes_map, decodes_ReadFull.
  by rewrite length_put_le.
Qed.

Lemma varint_byte x : 128 <= x -> b2z (z2b (Z.lor (Z.land x 0x7f) 0x80)) = x mod 128 + 128.
Proof.
  intros Hx. change 0x7f with (Z.ones 7). rewrite Z.land_ones by lia. change (2 ^ 7) with 128.
  change (Z.lor (x mod 128) 128) with (Z.lor (x mod 128) (Z.shiftl 1 7)). pose proof (Z.mod_pos_bound x 128 ltac:(lia)).
  rewrite lor_shiftl by (change (2 ^ 7) with 128; lia). change (1 * 2 ^ 7) with 128.
  rewrite b2z_z2b, Z.mod_small by lia. done.
Qed.

Lemma low_bits z : 0 <= z < 128 -> Z.land (z + 128) 0x7f = z.
Proof.
  intros Hz. change 0x7f with (Z.ones 7). rewrite Z.land_ones by lia. change (2 ^ 7) with 128.
  replace (z + 128) with (z + 1 * 128) by lia. rewrite Z.mod_add by lia. by apply Z.mod_small.
Qed.

Lemma varint_loop n i x acc rest :
  Z.of_nat n = 10 - i -> 0 <= i < 10 -> 0 <= x -> x * 2 ^ (7 * i) < 2 ^ 64 -> 0 <= acc < 2 ^ (7 * i) ->
  ReadUvarint_loop n i acc (PutUvarint n x ++ rest) = (Ok (acc + x * 2 ^ (7 * i)), rest).
Proof.
  revert i x acc. induction n as [|n IH]; intros i x acc Hn Hi Hx Hb Ha; [lia|].
  cbn [PutUvarint ReadUvarint_loop]. assert (0 < 2 ^ (7 * i)) by (apply Z.pow_pos_nonneg; lia).
  destruct (Z.leb_spec 128 x) as [Hge|Hlt]; cbn [app].
  - rewrite varint_byte by done. pose proof (Z.mod_pos_bound x 128 ltac:(lia)).
    rewrite (proj2 (Z.ltb_ge _ _)) by lia. rewrite low_bits by lia.
    assert (x = 128 * (x / 128) + x mod 128) as Hdm by (apply Z.div_mod; lia).
    assert (0 <= x / 128) by (apply Z.div_pos; lia).
    assert (2 ^ (7 * (i + 1)) = 2 ^ (7 * i) * 128) as Hp
      by (replace (7 * (i + 1)) with (7 * i + 7) by lia; by rewrite Z.pow_add_r by lia).
    rewrite Z.shiftr_div_pow2 by lia. change (2 ^ 7) with 128.
    assert (0 <= x mod 128 * 2 ^ (7 * i) < 2 ^ 64) by (split; nia).
    rewrite uint64_id by (unfold is_uint64; rewrite Z.shiftl_mul_pow2; lia).
    rewrite lor_shiftl by lia.
    assert (i <> 9) by (intros ->; change (2 ^ (7 * 9)) with (2 ^ 63) in *; nia).
    rewrite IH; [f_equal; f_equal; rewrite Hp; nia|lia|lia|lia|rewrite Hp; nia|rewrite Hp; nia].
  - rewrite b2z_z2b, Z.mod_small by lia. rewrite (proj2 (Z.ltb_lt _ _)) by done.
    assert ((i =? 9) && (1 <? x) = false) as ->.
    { destruct (Z.eqb_spec i 9) as [->|]; [|done]. change (2 ^ (7 * 9)) with (2 ^ 63) in *.
      apply Z.ltb_ge. lia. }
    rewrite uint64_id by (unfold is_uint64; rewrite Z.shiftl_mul_pow2 by lia; lia).
    rewrite lor_shiftl by lia. done.
Qed.

Lemma decodes_varint x : is_uint64 x -> decodes readVarint (writeVarint x) x.
Proof.
  intros [H1 H2] rest. unfold readVarint, writeVarint. rewrite varint_loop; [|done|lia|done|cbn; lia|cbn; lia].
  cbn [Z.mul Z.pow]. f_equal. f_equal. lia.
Qed.

(** ** Strings, lists and maps *)

(** A text whose length can be allocated. *)
Definition text_ok (s : bytes) : Prop := Z.of_nat (length s) <= maxAlloc.

Lemma length_uint64 {A} (l : list A) k : 1 <= k -> Z.of_nat (length l) * k <= maxAlloc ->
  uint64 (Z.of_nat (length l)) = Z.of_nat (length l) /\ is_uint64 (Z.of_nat (length l)).
Proof. unfold maxAlloc. intros. assert (is_uint64 (Z.of_nat (length l))) by (unfold is_uint64; nia). by rewrite uint64_id. Qed.

Lemma decodes_string s : text_ok s -> decodes readString (writeString s) s.
Proof.
  intros Hs. unfold readString, writeString. destruct (length_uint64 s 1) as [-> Hu]; [lia|unfold text_ok in Hs; lia|].
  eapply decodes_bind; [by apply decodes_varint|]. rewrite <- (app_nil_l s) at 2.
  eapply decodes_bind; [apply decodes_make; unfold text_ok in Hs; lia|]. by apply decodes_ReadFull.
Qed.

Lemma decodes_n {A} (r : rd A) (w : A -> bytes) l :
  Forall (fun a => decodes r (w a) a) l -> decodes (read_n r (length l)) (concat (w <$> l)) l.
Proof.
  induction 1 as [|a l Ha _ IH]; [apply decodes_ret|]. cbn [length read_n fmap list_fmap concat].
  eapply decodes_bind; [exact Ha|]. by apply (decodes_map _ (cons a)).
Qed.

Lemma decodes_field kv : text_ok kv.1 -> text_ok kv.2 -> decodes read_field (write_field kv) kv.
Proof.
  intros H1 H2. destruct kv as [k v]. eapply decodes_bind; [by apply decodes_string|].
  by apply (decodes_map _ (pair k)), decodes_string.
Qed.

Lemma assign_all_map {V} (m : gmap bytes V) kvs : kvs ≡ₚ map_to_list m -> assign_all kvs = m.
Proof.
  intros Hp. assert (NoDup kvs.*1) as Hnd by (rewrite Hp; apply NoDup_fst_map_to_list).
  transitivity (list_to_map (M := gmap bytes V) kvs).
  - unfold assign_all. rewrite <- (map_union_empty (list_to_map kvs)). revert Hnd. clear Hp m.
    generalize (∅ : gmap bytes V). induction kvs as [|[k v] kvs IH]; intros m; cbn [foldl fmap list_fmap].
    + intros _. symmetry. apply (map_empty_union m).
    + intros [Hk Hnd]%NoDup_cons. rewrite IH by done. cbn [fst snd].
      change (list_to_map ((k, v) :: kvs)) with (<[k:=v]> (list_to_map kvs : gmap bytes V)).
      rewrite <- insert_union_l. rewrite insert_union_r; [done|]. by apply not_elem_of_list_to_map.
  - rewrite <- (list_to_map_to_list m). by apply list_to_map_proper.
Qed.

(** A map that is assembled from its pairs. *)
Lemma decodes_assign {V B} (r : rd (list (bytes * V))) (f : gmap bytes V -> B) kvs m e :
  kvs ≡ₚ map_to_list m -> decodes r e kvs ->
  decodes (rd_bind r (fun kvs => rd_ret (f (assign_all kvs)))) e (f m).
Proof.
  intros Hp H. rewrite <- (assign_all_map m kvs Hp). by apply (decodes_map r (fun kvs => f (assign_all kvs))).
Qed.

(** A counted list. *)
Lemma decodes_list {A B} size (l : list A) (k : Z -> rd B) e v :
  1 <= size -> Z.of_nat (length l) * size <= maxAlloc ->
  decodes (k (Z.of_nat (length l))) e v ->
  decodes (rd_bind readVarint (fun n => rd_bind (make_slice n size) (fun _ => k n))) (count l ++ e) v.
Proof.
  intros H1 Ha H. unfold count. destruct (length_uint64 l size H1 Ha) as [-> Hu].
  eapply decodes_bind; [by apply decodes_varint|]. rewrite <- (app_nil_l e).
  eapply decodes_bind; [by apply decodes_make|done].
Qed.

(** ** Entries that can be restored *)

Definition fields_ok (m : gmap bytes bytes) : Prop :=
  is_uint64 (Z.of_nat (size m)) /\ map_Forall (fun k v => text_ok k /\ text_ok v) m.

Definition vector_ok (v : VectorItem) : Prop :=
  0 <= Dim v /\ Dim v * 4 <= maxAlloc /\ is_uint64 (Z.of_nat (size (Vectors v))) /\
  map_Forall (fun id vec => text_ok id /\ Z.of_nat (length vec) = Dim v /\
    Forall (fun f => 0 <= f < 2 ^ 32) vec) (Vectors v).

Definition value_ok (t : byte) (v : RDBValue) : Prop :=
  match v with
  | VString s => t = RDBTypeString /\ text_ok s
  | VItems l => (t = RDBTypeList \/ t = RDBTypeSet) /\ Z.of_nat (length l) * 16 <= maxAlloc /\ Forall text_ok l
  | VHash m => t = RDBTypeHash /\ fields_ok m
  | VZSet l => t = RDBTypeZSet /\ Z.of_nat (length l) * 24 <= maxAlloc /\
      Forall (fun i => is_uint64 (zScore i) /\ text_ok (zMember i)) l
  | VStream l => t = RDBTypeStream /\ Z.of_nat (length l) * 24 <= maxAlloc /\
      Forall (fun i => text_ok (sID i) /\ fields_ok (sFields i)) l
  | VVector v => t = RDBTypeVector /\ vector_ok v
  end.

Definition entry_ok (e : RDBEntry) : Prop :=
  text_ok (Key e) /\ is_int64 (ExpiresAt e) /\ value_ok (Type_ e) (Value e).

(** The entry as it is read back: no expiry time is stored unless positive. *)
Definition stored (e : RDBEntry) : RDBEntry := mkEntry (Key e) (Type_ e) (Z.max 0 (ExpiresAt e)) (Value e).

Section roundtrip.
Context (iter : forall V, gmap bytes V -> list (bytes * V)).
Context (iter_perm : forall V (m : gmap bytes V), iter V m ≡ₚ map_to_list m).

Lemma length_iter {V} (m : gmap bytes V) : length (iter V m) = size m.
Proof. by rewrite iter_perm, length_map_to_list. Qed.

Lemma Forall_iter {V} (P : bytes -> V -> Prop) (m : gmap bytes V) :
  map_Forall P m -> Forall (fun kv => P kv.1 kv.2) (iter V m).
Proof.
  intros HP. rewrite iter_perm. apply Forall_forall. intros [k v] Hkv%elem_of_map_to_list. by apply HP.
Qed.

Lemma decodes_fields m :
  fields_ok m ->
  decodes (rd_bind readVarint read_fields)
    (writeVarint (uint64 (Z.of_nat (size m))) ++ concat (write_field <$> iter _ m)) m.
Proof.
  intros [Hs HF]. rewrite uint64_id by done. eapply decodes_bind; [by apply decodes_varint|].
  unfold read_fields. rewrite Nat2Z.id.
  apply (decodes_assign (read_n read_field (size m)) (fun m => m) (iter _ m)); [apply iter_perm|].
  rewrite <- length_iter. apply decodes_n.
  eapply Forall_impl; [by apply Forall_iter|]. intros kv [H1 H2]. by apply decodes_field.
Qed.

Lemma decodes_zitem i : is_uint64 (zScore i) -> text_ok (zMember i) -> decodes read_zitem (write_zitem i) i.
Proof.
  intros Hs Hm. destruct i as [s m]. unfold read_zitem, write_zitem. cbn [zScore zMember] in *.
  eapply decodes_bind; [apply (decodes_ReadFull 8); by rewrite length_put_le|].
  rewrite (get_put_le 8 s) by exact Hs. by apply (decodes_map _ (mkZSetItem s)), decodes_string.
Qed.

Lemma decodes_stream_item i :
  text_ok (sID i) -> fields_ok (sFields i) -> decodes read_stream_item (write_stream_item iter i) i.
Proof.
  intros Hi Hf. destruct i as [id fs]. unfold read_stream_item, write_stream_item. cbn [sID sFields] in *.
  eapply decodes_bind; [by apply decodes_string|]. intros rest.
  pose proof (decodes_fields fs Hf rest) as H. unfold rd_bind in *. rewrite <- app_assoc in *.
  destruct (readVarint _) as [[n|] inp]; [|done]. by rewrite H.
Qed.

Lemma decodes_vector dim iv :
  text_ok iv.1 -> Z.of_nat (length iv.2) = dim -> Forall (fun f => 0 <= f < 2 ^ 32) iv.2 -> dim * 4 <= maxAlloc ->
  decodes (read_vector dim) (write_vector iv) iv.
Proof.
  intros Hi Hd HF Ha. destruct iv as [id vec]. cbn [fst snd] in *. eapply decodes_bind; [by apply decodes_string|].
  rewrite <- (app_nil_l (concat _)). eapply decodes_bind; [by apply decodes_make|].
  apply (decodes_map _ (pair id)). subst dim. rewrite Nat2Z.id. apply decodes_n.
  eapply Forall_impl; [exact HF|]. cbn. intros f Hf. by apply (decodes_le 4).
Qed.

(** Every value is read back from its encoding. *)
Lemma encodeValue_decodes t v :
  value_ok t v -> exists b, encodeValue iter t v = Ok b /\ decodes (decodeValue t) b v.
Proof.
  destruct v as [s|l|m|l|l|v]; cbn [value_ok].
  - intros (-> & Hs). eexists. split; [reflexivity|]. by apply (decodes_map _ VString), decodes_string.
  - intros (Ht & Hn & HF). exists (count l ++ concat (writeString <$> l)).
    assert (decodes (let! n := readVarint in let! _ := make_slice n 16 in
              let! items := read_n readString (Z.to_nat n) in rd_ret (VItems items))
              (count l ++ concat (writeString <$> l)) (VItems l)) as H.
    { apply (decodes_list 16); [lia|done|]. apply (decodes_map _ VItems). rewrite Nat2Z.id. apply decodes_n.
      eapply Forall_impl; [exact HF|]. apply decodes_string. }
    by destruct Ht as [-> | ->].
  - intros (-> & Hf). eexists. split; [reflexivity|]. intros rest.
    pose proof (decodes_fields m Hf rest) as H. cbn [decodeValue decide]. unfold rd_bind in *.
    change (decodeValue RDBTypeHash) with (rd_bind readVarint (fun n => rd_bind (read_fields n) (fun f => rd_ret (VHash f)))).
    unfold rd_bind. destruct (readVarint _) as [[n|] inp]; [|done]. by rewrite H.
  - intros (-> & Hn & HF). eexists. split; [reflexivity|].
    apply (decodes_list 24); [lia|done|]. apply (decodes_map _ VZSet). rewrite Nat2Z.id. apply decodes_n.
    eapply Forall_impl; [exact HF|]. intros i [H1 H2]. by apply decodes_zitem.
  - intros (-> & Hn & HF). eexists. split; [reflexivity|].
    apply (decodes_list 24); [lia|done|]. apply (decodes_map _ VStream). rewrite Nat2Z.id. apply decodes_n.
    eapply Forall_impl; [exact HF|]. intros i [H1 H2]. by apply decodes_stream_item.
  - intros (-> & H0 & Ha & Hs & HF). eexists. split; [reflexivity|]. unfold maxAlloc in Ha.
    assert (is_uint64 (Dim v)) as Hd by (unfold is_uint64; lia). rewrite !uint64_id by done.
    eapply decodes_bind; [by apply decodes_varint|]. eapply decodes_bind; [by apply decodes_varint|].
    rewrite Nat2Z.id. destruct v as [dim vs]. cbn [Dim Vectors] in *.
    rewrite int64_id by (unfold is_int64; lia).
    apply (decodes_assign (read_n (read_vector dim) (size vs)) (fun m => VVector (mkVectorItem dim m)) (iter _ vs));
      [apply iter_perm|].
    rewrite <- length_iter. apply decodes_n. eapply Forall_impl; [by apply Forall_iter|].
    intros iv (H1 & H2 & H3). by apply decodes_vector.
Qed.

(** The first byte of an entry is not one of the opcodes the loop handles. *)
Definition entry_byte (c : byte) : Prop :=
  c <> OpcodeEOF /\ c <> OpcodeAUX /\ c <> OpcodeSELECTDB /\ c <> OpcodeRESIZEDB.

Lemma write_entry_decodes e :
  entry_ok e -> exists c b, write_entry iter e = Ok (c :: b) /\ entry_byte c /\ decodes (read_entry c) b (stored e).
Proof.
  intros (Hk & Hx & Hv). destruct (encodeValue_decodes _ _ Hv) as (vb & Eb & Hb).
  assert (entry_byte (Type_ e) /\ Type_ e <> OpcodeEXPIRETIME /\ Type_ e <> OpcodeEXPIRETIMEMS) as (He & H1 & H2).
  { unfold entry_byte. clear - Hv. destruct (Value e); cbn [value_ok] in Hv; destruct Hv as [Ht _];
      try destruct Ht as [Ht|Ht]; rewrite Ht; repeat split; discriminate. }
  assert (decodes (let! key := readString in let! val := decodeValue (Type_ e) in
            rd_ret (mkEntry key (Type_ e) (Z.max 0 (ExpiresAt e)) val))
            (writeString (Key e) ++ vb) (stored e)) as Hd.
  { eapply decodes_bind; [by apply decodes_string|].
    by apply (decodes_map _ (mkEntry (Key e) (Type_ e) (Z.max 0 (ExpiresAt e)))). }
  unfold write_entry. rewrite Eb. cbn [mbind res_bind].
  destruct (Z.ltb_spec 0 (ExpiresAt e)) as [Hp|Hn]; cbn [app].
  - eexists _, _. split; [reflexivity|]. split; [by repeat split|]. unfold read_entry.
    rewrite decide_False by done. rewrite decide_True by done.
    rewrite (cons_middle (Type_ e)), app_assoc.
    eapply (decodes_bind _ _ _ _ (ExpiresAt e, Type_ e)).
    + assert (is_uint64 (uint64 (ExpiresAt e))) as Hu by apply uint64_range.
      eapply decodes_bind; [apply (decodes_ReadFull 8); by rewrite length_put_le|].
      rewrite (get_put_le 8) by exact Hu.
      assert (int64 (uint64 (ExpiresAt e)) = ExpiresAt e) as ->.
      { rewrite uint64_id, int64_id; [done|done|]. unfold is_int64, is_uint64 in *. lia. }
      by intros rest.
    + cbn [fst snd]. by rewrite Z.max_r in Hd by lia.
  - eexists _, _. split; [reflexivity|]. split; [done|]. unfold read_entry.
    rewrite !decide_False by done. rewrite <- (app_nil_l (writeString _ ++ _)).
    eapply decodes_bind; [apply decodes_ret|]. cbn [fst snd]. by rewrite Z.max_l in Hd by lia.
Qed.

Section load_saved.
Context {St : Type} (handler : St -> RDBEntry -> res bytes St) (now : Z).

(** The handler applied to the entries in order, up to its first error. *)
Fixpoint restore (st : St) (es : list RDBEntry) : St * res rdb_error unit :=
  match es with
  | [] => (st, Ok tt)
  | e :: es' =>
      match handler st e with
      | Ok st' => restore st' es'
      | Err err => (st, Err (ErrHandler err))
      end
  end.

(** The loop on the encoding of entries. *)
Lemma records_entries es aux st rest :
  Forall entry_ok es ->
  exists bs, write_entries iter es = Ok bs /\
    forall fuel, (length (bs ++ rest) < fuel)%nat ->
    match restore st (filter (live now) (stored <$> es)) with
    | (st', Ok _) => exists fuel', (length rest < fuel')%nat /\
        records handler now fuel aux st (bs ++ rest) = records handler now fuel' aux st' rest
    | (st', Err e) => records handler now fuel aux st (bs ++ rest) = (st', Err e)
    end.
Proof.
  intros HF. revert st. induction HF as [|e es He _ IH]; intros st.
  { exists []. split; [done|]. intros fuel Hf. cbn. by exists fuel. }
  destruct (write_entry_decodes e He) as (c & b & E & (C1 & C2 & C3 & C4) & D).
  destruct (IH st) as (bs & Ebs & _). exists ((c :: b) ++ bs). cbn [write_entries].
  rewrite E. cbn [mbind res_bind]. rewrite Ebs. cbn [mbind res_bind]. split; [done|].
  intros fuel Hf. destruct fuel as [|fuel]; [lia|]. cbn [app records] in *.
  rewrite !decide_False by done. rewrite <- app_assoc in *. rewrite D.
  cbn [length] in Hf. rewrite length_app in Hf.
  cbn [fmap list_fmap]. rewrite filter_cons. destruct (decide (live now (stored e))) as [Hl|Hl].
  - cbn [restore]. destruct (handler st (stored e)) as [st1|err]; [|done].
    destruct (IH st1) as (bs' & Ebs' & IH1). rewrite Ebs in Ebs'. injection Ebs' as <-.
    apply IH1. lia.
  - destruct (IH st) as (bs' & Ebs' & IH1). rewrite Ebs in Ebs'. injection Ebs' as <-. apply IH1. lia.
Qed.

(** The loop on the metadata fields. *)
Lemma records_aux kvs m st rest fuel :
  Forall (fun kv => text_ok kv.1 /\ text_ok kv.2) kvs ->
  (length (concat ((fun kv => OpcodeAUX :: write_field kv) <$> kvs) ++ rest) < fuel)%nat ->
  exists fuel', (length rest < fuel')%nat /\
    records handler now fuel m st (concat ((fun kv => OpcodeAUX :: write_field kv) <$> kvs) ++ rest)
    = records handler now fuel' (foldl (fun m kv => <[kv.1 := kv.2]> m) m kvs) st rest.
Proof.
  intros HF. revert m fuel. induction HF as [|kv kvs [H1 H2] _ IH]; intros m fuel Hf; [by exists fuel|].
  cbn [fmap list_fmap concat foldl app] in *. destruct fuel as [|fuel]; [lia|]. cbn [records].
  rewrite decide_False by done. rewrite decide_True by done. rewrite <- app_assoc.
  rewrite decodes_field by done. destruct kv as [k v]. cbn [fst snd]. apply IH.
  cbn [length] in Hf. rewrite <- app_assoc, length_app in Hf. lia.
Qed.

End load_saved.

Lemma stored_live now now' (es : list RDBEntry) :
  now <= now' ->
  filter (live now') (stored <$> filter (live now) es) = filter (live now') (stored <$> es).
Proof.
  intros Hn. rewrite !filter_fmap. f_equal. rewrite list_filter_filter. apply list_filter_iff.
  intros e. unfold live, stored. cbn [ExpiresAt]. lia.
Qed.

(** What loading a saved file does, in terms of the handler. *)
Lemma save_load {St} (handler : St -> RDBEntry -> res bytes St) now now' entries aux st :
  Forall entry_ok entries -> fields_ok aux -> now <= now' ->
  exists file, SaveRDB iter now entries aux = Ok file /\
    LoadRDB handler now' file st =
      match restore handler st (filter (live now') (stored <$> entries)) with
      | (st', Ok _) => (st', Ok aux)
      | (st', Err e) => (st', Err e)
      end.
Proof.
  intros HF [_ Haux] Hn. unfold SaveRDB. set (valid := filter (live now) entries).
  assert (Forall entry_ok valid) as HFv.
  { apply Forall_forall. intros e [_ He]%list_elem_of_filter. rewrite Forall_forall in HF. by apply HF. }
  destruct (records_entries handler now' valid aux st [OpcodeEOF] HFv) as (body & Eb & Hrec).
  rewrite Eb. cbn [mbind res_bind]. eexists. split; [reflexivity|].
  unfold LoadRDB. set (meta := concat ((fun kv => OpcodeAUX :: write_field kv) <$> iter _ aux)).
  set (tail := OpcodeSELECTDB :: writeVarint 0 ++ OpcodeRESIZEDB :: count valid ++
                 writeVarint (uint64 (expireCount valid)) ++ body ++ [OpcodeEOF]).
  set (payload := RDBMagicHeader ++ meta ++ tail).
  set (crc := Sum64 (Write NewCRC64 payload)).
  assert (0 <= crc < 2 ^ 64) as Hcrc by (apply (UpdateCRC64_range 0 payload); lia).
  rewrite length_app, length_put_le, Nat.add_sub, take_app_length, drop_app_length.
  rewrite get_put_le by exact Hcrc.
  assert (length payload = 9 + length (meta ++ tail))%nat as Hlen by done.
  assert (2 <= length tail)%nat as Htail by (subst tail; cbn [length]; rewrite !length_app; cbn [length]; lia).
  rewrite (proj2 (Z.ltb_ge _ _)) by (rewrite Hlen, length_app; lia).
  rewrite decide_False by (intros H; by apply H). change (drop 9 payload) with (meta ++ tail).
  destruct (records_aux handler now' (iter _ aux) ∅ st tail (length payload)) as (f1 & Hf1 & E1);
    [exact (Forall_iter _ aux Haux)|rewrite Hlen; fold meta; lia|].
  fold meta in E1. rewrite E1. clear E1.
  change (foldl _ ∅ (iter bytes aux)) with (assign_all (iter bytes aux)).
  rewrite (assign_all_map aux) by apply iter_perm.
  assert (exists f2, (length (body ++ [OpcodeEOF]) < f2)%nat /\
    records handler now' f1 aux st tail = records handler now' f2 aux st (body ++ [OpcodeEOF])) as (f2 & Hf2 & E2).
  { destruct f1 as [|[|f]]; [lia|lia|]. exists f. subst tail. cbn [length] in Hf1.
    rewrite !length_app in Hf1. cbn [length] in Hf1. rewrite !length_app in Hf1. cbn [length] in Hf1.
    split; [rewrite length_app; cbn [length]; lia|].
    cbn [records]. rewrite !decide_False, decide_True by done.
    rewrite (decodes_varint 0) by (unfold is_uint64; lia). cbn [snd records].
    rewrite !decide_False, decide_True by done. unfold count.
    rewrite decodes_varint by apply uint64_range. cbn [snd].
    by rewrite decodes_varint by apply uint64_range. }
  rewrite E2. clear E2. specialize (Hrec f2 Hf2).
  unfold valid in Hrec at 1. rewrite (stored_live now now' entries Hn) in Hrec.
  destruct (restore handler st _) as [st' [[]|e]].
  - destruct Hrec as (f3 & Hf3 & ->). destruct f3 as [|f3]; [cbn in Hf3; lia|]. cbn [records].
    rewrite decide_True by done. rewrite decide_False; [done|]. by intros [_ H].
  - by rewrite Hrec.
Qed.

(** C21: for entries and metadata that fit in memory, a snapshot saves without
    error, and loading the file later hands to the handler exactly the saved
    entries that have not expired, in order, each with its key, type, expiry time
    and value of any of the seven types, and returns the metadata; the checksum
    is accepted, in whatever order Go iterates over maps.  An error of the
    handler ends the load with that error. *)
Theorem snapshot_roundtrip {St} (handler : St -> RDBEntry -> res bytes St) now now' entries aux st :
  Forall entry_ok entries -> fields_ok aux -> now <= now' ->
  exists file, SaveRDB iter now entries aux = Ok file /\
    LoadRDB handler now' file st =
      match restore handler st (filter (live now') (stored <$> entries)) with
      | (st', Ok _) => (st', Ok aux)
      | (st', Err e) => (st', Err e)
      end.
Proof. apply save_load. Qed.

End roundtrip.

(** A witness for the round trip: every type of value, iterated in the order of
    [map_to_list]. *)
Definition sample : list RDBEntry :=
  [mkEntry (str "s") RDBTypeString 0 (VString (str "v"));
   mkEntry (str "l") RDBTypeList 500 (VItems [str "a"; str "b"]);
   mkEntry (str "h") RDBTypeHash 2000 (VHash {[str "f" := str "x"]});
   mkEntry (str "z") RDBTypeZSet 0 (VZSet [mkZSetItem 4607182418800017408 (str "m")]);
   mkEntry (str "x") RDBTypeStream 0 (VStream [mkStreamItem (str "1-1") {[str "f" := str "x"]}]);
   mkEntry (str "v") RDBTypeVector 0 (VVector (mkVectorItem 2 {[str "id" := [1065353216; 0]]}))].

Definition collect (st : list RDBEntry) (e : RDBEntry) : res bytes (list RDBEntry) := Ok (st ++ [e]).

Lemma small_text s : (length s <= 10)%nat -> text_ok s.
Proof. unfold text_ok, maxAlloc. lia. Qed.

Lemma small_fields k v : (length k <= 10)%nat -> (length v <= 10)%nat -> fields_ok {[k := v]}.
Proof.
  intros Hk Hv. split; [by rewrite map_size_singleton|]. apply map_Forall_singleton. auto using small_text.
Qed.

Lemma sample_ok : Forall entry_ok sample.
Proof.
  assert (forall z, 0 <= z < 2 ^ 62 -> is_int64 z) as H64 by (unfold is_int64; lia).
  unfold sample.
  repeat apply Forall_cons_2; try apply Forall_nil_2;
    (split; [apply small_text; cbn; lia|split; [apply H64; cbn; lia|]]); cbn [value_ok Type_ Value].
  - split; [done|]. apply small_text; cbn; lia.
  - split; [by left|]. split; [cbn; unfold maxAlloc; lia|].
    repeat apply Forall_cons_2; try apply Forall_nil_2; apply small_text; cbn; lia.
  - split; [done|]. apply small_fields; cbn; lia.
  - split; [done|]. split; [cbn; unfold maxAlloc; lia|]. apply Forall_singleton.
    split; [cbn; unfold is_uint64; lia|apply small_text; cbn; lia].
  - split; [done|]. split; [cbn; unfold maxAlloc; lia|]. apply Forall_singleton.
    split; [apply small_text; cbn; lia|apply small_fields; cbn; lia].
  - split; [done|]. unfold vector_ok. cbn [Dim Vectors]. split; [lia|]. split; [unfold maxAlloc; lia|].
    split; [by rewrite map_size_singleton|]. apply map_Forall_singleton.
    split; [apply small_text; cbn; lia|]. split; [done|].
    repeat apply Forall_cons_2; try apply Forall_nil_2; lia.
Qed.

Lemma snapshot_roundtrip_witness :
  exists file, SaveRDB (fun V => map_to_list) 1000 sample {[str "ver" := str "1"]} = Ok file /\
    Key <$> (LoadRDB collect 1000 file []).1 = [str "s"; str "h"; str "z"; str "x"; str "v"].
Proof.
  destruct (snapshot_roundtrip (fun V => map_to_list) (fun V m => reflexivity _) collect 1000 1000
    sample {[str "ver" := str "1"]} []) as (file & E & H).
  - exact sample_ok.
  - apply small_fields; cbn; lia.
  - lia.
  - exists file. split; [exact E|]. rewrite H. vm_compute. reflexivity.
Defined.

(** ** The loop ends *)

(** A result that is not the end of the fuel, nor a panic other than that of an
    allocation. *)
Definition proper {A} (r : res rdb_error A) : Prop :=
  match r with Err OutOfFuel => False | Err (ErrPanic p) => p = PanicMakeSlice | _ => True end.

(** A decoder never gives back more bytes than it got, never runs out of fuel, and
    panics only when it allocates. *)
Definition sane {A} (r : rd A) : Prop :=
  forall inp, (length (r inp).2 <= length inp)%nat /\ proper (r inp).1.

Lemma sane_ret {A} (a : A) : sane (rd_ret a).
Proof. by intros inp. Qed.

Lemma sane_fail {A} e : proper (@Err _ A e) -> sane (@rd_fail A e).
Proof. by intros He inp. Qed.

Lemma sane_bind {A B} (r : rd A) (f : A -> rd B) : sane r -> (forall a, sane (f a)) -> sane (rd_bind r f).
Proof.
  intros Hr Hf inp. unfold rd_bind. destruct (Hr inp) as [H1 H2].
  destruct (r inp) as [[a|e] inp']; cbn [fst snd] in *.
  - destruct (Hf a inp') as [H3 H4]. split; [lia|done].
  - done.
Qed.

Lemma sane_if {A} (P : Prop) `{Decision P} (r1 r2 : rd A) : sane r1 -> sane r2 -> sane (if decide P then r1 else r2).
Proof. by case_decide. Qed.

Lemma sane_ReadByte : sane ReadByte.
Proof. intros [|b inp]; cbn; split; (lia || done). Qed.

Lemma sane_ReadFull n : sane (ReadFull n).
Proof.
  intros inp. unfold ReadFull. case_test; cbn [fst snd]; [|rewrite length_drop; split; [lia|done]].
  split; [cbn; lia|]. by destruct inp.
Qed.

Lemma sane_make n size : sane (make_slice n size).
Proof. unfold make_slice. case_match; [by apply sane_fail|apply sane_ret]. Qed.

Lemma sane_varint : sane readVarint.
Proof.
  assert (forall n i x, sane (ReadUvarint_loop n i x)) as H; [|apply H]. intros n.
  induction n as [|n IH]; intros i x; [by apply sane_fail|].
  intros [|b inp]; cbn [ReadUvarint_loop]; [split; [cbn; lia|by case_match]|].
  case_match; [case_match; cbn; split; (lia || done)|].
  destruct (IH (i + 1) (Z.lor x (uint64 (Z.shiftl (Z.land (b2z b) 127) (7 * i)))) inp) as [H1 H2].
  split; [cbn [length]; lia|done].
Qed.

Create HintDb rdb.
#[local] Hint Resolve sane_ret sane_bind sane_if sane_ReadByte sane_ReadFull sane_make sane_varint : rdb.
#[local] Hint Extern 1 (sane (rd_fail _)) => (apply sane_fail; exact I) : rdb.

Lemma sane_string : sane readString.
Proof. unfold readString. auto with rdb. Qed.
#[local] Hint Resolve sane_string : rdb.

Lemma sane_n {A} (r : rd A) n : sane r -> sane (read_n r n).
Proof. intros Hr. induction n; cbn [read_n]; auto 6 with rdb. Qed.
#[local] Hint Resolve sane_n : rdb.

Lemma sane_field : sane read_field.
Proof. unfold read_field. auto 6 with rdb. Qed.
#[local] Hint Resolve sane_field : rdb.

Lemma sane_fields n : sane (read_fields n).
Proof. unfold read_fields. auto 6 with rdb. Qed.
#[local] Hint Resolve sane_fields : rdb.

Lemma sane_value t : sane (decodeValue t).
Proof.
  unfold decodeValue, read_zitem, read_stream_item, read_vector, read_float32.
  repeat apply sane_if; auto 20 with rdb.
Qed.

Lemma sane_entry b : sane (read_entry b).
Proof. unfold read_entry. pose proof sane_value. auto 20 with rdb. Qed.

Lemma records_terminate {St} (handler : St -> RDBEntry -> res bytes St) now fuel aux st inp :
  (length inp < fuel)%nat -> proper (records handler now fuel aux st inp).2.
Proof.
  revert aux st inp. induction fuel as [|fuel IH]; intros aux st inp Hf; [lia|]. cbn [records].
  destruct inp as [|b inp]; [done|]. cbn [length] in Hf. case_decide; [done|]. case_decide.
  { destruct (sane_field inp) as [H1 H2]. destruct (read_field inp) as [[[k v]|e] inp']; cbn [fst snd] in *.
    - apply IH. lia.
    - done. }
  case_decide; [apply IH; destruct (sane_varint inp); lia|].
  case_decide.
  { apply IH. destruct (sane_varint inp). destruct (sane_varint (readVarint inp).2). lia. }
  destruct (sane_entry b inp) as [Hs1 Hs2]. destruct (read_entry b inp) as [[e|e] inp']; cbn [fst snd] in *.
  - case_decide; [destruct (handler st e); [apply IH; lia|done]|apply IH; lia].
  - done.
Qed.

(** C39: loading ends on every file, after at most one round of the records loop per
    byte of the file.  It ends with the metadata, with one of the decoder's errors,
    with the error of the handler or with a panic; the one panic is that of [make] on
    a length that a corrupt file announces, beyond the address space (smaller
    allocations are taken to succeed). *)
Theorem LoadRDB_terminates {St} (handler : St -> RDBEntry -> res bytes St) now file st :
  match (LoadRDB handler now file st).2 with
  | Ok _ => True
  | Err OutOfFuel => False
  | Err (ErrPanic p) => p = PanicMakeSlice
  | Err (EOF | ErrUnexpectedEOF | ErrOverflow | ErrTooShort | ErrInvalidRDBHeader | ErrCRCMismatch | ErrUnsupportedRDBType | ErrHandler _) => True
  end.
Proof.
  enough (proper (LoadRDB handler now file st).2) as H by (destruct (LoadRDB _ _ _ _).2 as [|[]]; done).
  unfold LoadRDB. destruct (Z.ltb_spec (Z.of_nat (length file)) (9 + 1 + 8)); [done|]. case_decide; [done|].
  pose proof (records_terminate handler now (length (take (length file - 8) file)) ∅ st
                (drop 9 (take (length file - 8) file))) as H1.
  destruct (records _ _ _ _ _ _) as [st' [aux|e]]; cbn [snd] in *; [by case_decide|].
  apply H1. rewrite length_drop, length_take. lia.
Qed.

(** A load succeeds only if the stored checksum is zero or that of the payload. *)
Lemma LoadRDB_checksum {St} (handler : St -> RDBEntry -> res bytes St) now payload crc st aux :
  0 <= crc < 2 ^ 64 ->
  (LoadRDB handler now (payload ++ put_le 8 crc) st).2 = Ok aux -> crc = 0 \/ crc = UpdateCRC64 0 payload.
Proof.
  intros Hcrc. unfold LoadRDB. rewrite length_app, length_put_le, Nat.add_sub, take_app_length, drop_app_length.
  rewrite get_put_le by exact Hcrc. case_match; [done|]. case_decide; [done|].
  destruct (records _ _ _ _ _ _) as [st' [aux'|e]]; [|done]. case_decide as Hd; [done|].
  intros _. destruct (decide (crc = 0)) as [|Hz]; [by left|right].
  destruct (decide (UpdateCRC64 0 payload = crc)) as [|Hne]; [done|]. by destruct Hd.
Qed.

(** C22: a snapshot whose stored checksum is not zero and in which one byte
    before the checksum was changed is never loaded without an error, whatever
    the handler does. (With a stored checksum of zero the code skips the check.) *)
Theorem corruption_detected {St} (handler : St -> RDBEntry -> res bytes St) iter now now' entries aux st p q b b' crc :
  SaveRDB iter now entries aux = Ok (p ++ b :: q ++ put_le 8 crc) -> 0 < crc < 2 ^ 64 -> b <> b' ->
  forall r, (LoadRDB handler now' (p ++ b' :: q ++ put_le 8 crc) st).2 <> Ok r.
Proof.
  intros Hs Hcrc Hne r. unfold SaveRDB in Hs. apply bind_Ok in Hs as (body & _ & Hs%Ok_inj).
  set (payload := RDBMagicHeader ++ _) in Hs.
  change (p ++ b :: q ++ put_le 8 crc) with (p ++ (b :: q) ++ put_le 8 crc) in Hs.
  change (p ++ b' :: q ++ put_le 8 crc) with (p ++ (b' :: q) ++ put_le 8 crc).
  rewrite app_assoc in Hs. rewrite app_assoc. apply app_inj_2 in Hs as [Hp Hc]; [|by rewrite !length_put_le].
  assert (crc = UpdateCRC64 0 (p ++ b :: q)) as ->.
  { rewrite <- (get_put_le 8 crc) by (cbn; lia). rewrite <- Hc, get_put_le, Hp; [done|].
    apply (UpdateCRC64_range 0 payload). lia. }
  intros H%LoadRDB_checksum; [|lia]. destruct H as [H|H]; [lia|].
  by apply (ChecksumCRC64_byte p q b b').
Qed.

Definition tiny : bytes := str "REDIS0009" ++ [xfe; x00; xfb; x00; x00].

Lemma corruption_detected_witness :
  SaveRDB (fun V => map_to_list) 0 [] ∅ = Ok (str "REDI" ++ "S"%byte :: (drop 5 tiny ++ [xff]) ++ put_le 8 (UpdateCRC64 0 (tiny ++ [xff]))) /\
  (LoadRDB collect 0 (str "REDI" ++ "X"%byte :: (drop 5 tiny ++ [xff]) ++ put_le 8 (UpdateCRC64 0 (tiny ++ [xff]))) []).2 <> Ok ∅.
Proof.
  assert (SaveRDB (fun V => map_to_list) 0 [] ∅
    = Ok (str "REDI" ++ "S"%byte :: (drop 5 tiny ++ [xff]) ++ put_le 8 (UpdateCRC64 0 (tiny ++ [xff])))) as E
    by (vm_compute; reflexivity).
  split; [exact E|].
  apply (corruption_detected collect (fun V => map_to_list) 0 0 [] ∅ [] (str "REDI") (drop 5 tiny ++ [xff])
           "S"%byte "X"%byte (UpdateCRC64 0 (tiny ++ [xff])) E); [vm_compute; split; reflexivity|discriminate].
Defined.

(** The handler is called before the checksum is verified: a corrupted snapshot
    is rejected after some of its entries were restored. *)
Theorem restored_before_check :
  match SaveRDB (fun V => map_to_list) 0 [mkEntry (str "k") RDBTypeString 0 (VString (str "v"))] ∅ with
  | Ok file => match LoadRDB collect 0 (take 18 file ++ "w"%byte :: drop 19 file) [] with
               | (st, Err ErrCRCMismatch) => st = [mkEntry (str "k") RDBTypeString 0 (VString (str "w"))]
               | _ => False
               end
  | Err _ => False
  end.
Proof. vm_compute. reflexivity. Qed.

(** ** One background save at a time *)

Inductive save_op := SaveStart | SaveDone (now : Z) (err : bool) | SaveSync (now : Z) (err : bool).

(** The number of background saves running beside the manager. *)
Definition save_step (st : RDBManager * nat) (op : save_op) : RDBManager * nat :=
  let '(rm, running) := st in
  match op with
  | SaveStart => match BgSave_start rm with Some rm' => (rm', S running) | None => st end
  | SaveDone now err => if decide (running = O) then st else (BgSave_done now err rm, pred running)
  | SaveSync now err => (record_save now err rm, running)
  end.

(** Whatever the order of save requests and completions, at most one
    background save runs, and the flag tells whether one does; a request is
    refused exactly while one runs. *)
Theorem one_background_save now p ops :
  let '(rm, running) := foldl save_step (NewRDBManager now p, O) ops in
  (running <= 1)%nat /\ (bgInProgress rm = true <-> running = 1%nat) /\
  (BgSave_start rm = None <-> running = 1%nat).
Proof.
  assert (forall st, (bgInProgress st.1 = true /\ st.2 = 1%nat) \/ (bgInProgress st.1 = false /\ st.2 = O) ->
    let st' := foldl save_step st ops in
    (bgInProgress st'.1 = true /\ st'.2 = 1%nat) \/ (bgInProgress st'.1 = false /\ st'.2 = O)) as H.
  { induction ops as [|op ops IH]; intros st Hst; [done|]. cbn [foldl]. apply IH. clear IH.
    destruct st as [rm n]. cbn [fst snd] in Hst.
    destruct op; cbn [save_step]; unfold BgSave_start, record_save;
      destruct Hst as [[Hb ->]|[Hb ->]]; rewrite ?Hb; repeat case_match; cbn; auto. }
  specialize (H (NewRDBManager now p, O)). cbn zeta in H.
  destruct (foldl save_step (NewRDBManager now p, O) ops) as [rm n]. cbn [fst snd] in H. unfold BgSave_start.
  destruct H as [[-> ->]|[-> ->]]; [by right|split; [lia|done]|split; [lia|done]].
Qed.
