(* ===== verification/Aof.v ===== *)
(** * The append-only file (internal/persistence/aof.go)

    The log of commands: the buffered writer, the three fsync policies and the
    replay at start-up.  The state keeps what has reached the operating system
    ([file]), what is still in the buffer of [bufio.Writer] ([buf]) and what
    was forced to disk ([synced]).  A crash loses the buffer, and the operating
    system may lose any part of the file after [synced].  Failing writes are
    not modelled. *)

From S2P Require Import Prelude Resp.

Inductive FsyncPolicy := FsyncAlways | FsyncEverySec | FsyncNo.

#[global] Instance FsyncPolicy_eq_dec : EqDecision FsyncPolicy.
Proof. solve_decision. Defined.

Record AOF := mkAOF { file : bytes; buf : bytes; synced : bytes; policy : FsyncPolicy }.

Definition bufSize : nat := Z.to_nat (64 * 1024).

(** The file is opened for appending: its content [content] is on disk. *)
Definition OpenAOF (content : bytes) (p : FsyncPolicy) : AOF := mkAOF content [] content p.

Definition Flush (a : AOF) : AOF := mkAOF (file a ++ buf a) [] (synced a) (policy a).
Definition Sync (a : AOF) : AOF := mkAOF (file a) (buf a) (file a) (policy a).

(** [bufio.Writer.Write]: a text that does not fit fills and flushes the buffer,
    and the rest goes to the file directly when it is larger than the buffer. *)
Definition buf_Write (p : bytes) (a : AOF) : AOF :=
  let avail := (bufSize - length (buf a))%nat in
  if (length p <=? avail)%nat then mkAOF (file a) (buf a ++ p) (synced a) (policy a)
  else if decide (buf a = []) then mkAOF (file a ++ p) [] (synced a) (policy a)
  else
    let rest := drop avail p in
    let file' := file a ++ buf a ++ take avail p in
    if (length rest <=? bufSize)%nat then mkAOF file' rest (synced a) (policy a)
    else mkAOF (file' ++ rest) [] (synced a) (policy a).

Definition WriteCommand (args : list bytes) (a : AOF) : AOF :=
  let a := buf_Write (SerializeCommand args) a in
  if decide (policy a = FsyncAlways) then Sync (Flush a) else a.

(** One tick of [fsyncLoop], which runs under [FsyncEverySec] only. *)
Definition fsync_tick (a : AOF) : AOF :=
  if decide (policy a = FsyncEverySec) then Sync (Flush a) else a.

Definition Close (a : AOF) : AOF := Sync (Flush a).

(** ** Replay *)

Section replay.
Context {St : Type} (handler : St -> list bytes -> St).

(** Errors of the handler are ignored; an empty command is skipped. *)
Definition apply_cmd (st : St) (cmd : list bytes) : St :=
  if decide (cmd = []) then st else handler st cmd.

(** A command takes at least one byte. *)
Fixpoint Replay_loop (fuel : nat) (st : St) (inp : bytes) : St * res rerr unit :=
  match fuel with
  | O => (st, Err OutOfFuel)
  | S f =>
      match ReadCommand inp with
      | Ok (cmd, rest) => Replay_loop f (apply_cmd st cmd) rest
      | Err EOF => (st, Ok tt)
      | Err e => (st, Err e)
      end
  end.

Definition Replay (content : bytes) (st : St) : St * res rerr unit :=
  Replay_loop (S (length content)) st content.

End replay.

(** ** Reading on a longer input *)

(** A result that does not depend on what follows the input. *)
Definition extends {A} (x : bytes) (r r' : res rerr (A * bytes)) : Prop :=
  forall a rest, r = Ok (a, rest) -> r' = Ok (a, rest ++ x).

Lemma extends_bind {A B} x (r r' : res rerr (A * bytes)) (k k' : A * bytes -> res rerr (B * bytes)) :
  extends x r r' -> (forall a rest, r = Ok (a, rest) -> extends x (k (a, rest)) (k' (a, rest ++ x))) ->
  extends x (r ≫= k) (r' ≫= k').
Proof.
  intros Hr Hk b rest (p & E & H)%bind_Ok. destruct p as [a r1]. rewrite (Hr _ _ E). cbn [mbind res_bind].
  by eapply Hk.
Qed.

Lemma extends_ret {A} x (a : A) inp : extends x (Ok (a, inp)) (Ok (a, inp ++ x)).
Proof. by intros a' rest [= <- <-]. Qed.

Lemma extends_err {A} x e (r' : res rerr (A * bytes)) : extends x (Err e) r'.
Proof. by intros a rest. Qed.

#[local] Hint Resolve extends_ret extends_err : core.

Lemma ReadSlice_extends x inp : extends x (ReadSlice inp) (ReadSlice (inp ++ x)).
Proof.
  unfold ReadSlice. destruct (IndexByte inp LF) as [i|] eqn:E; [|case_match; auto].
  pose proof (IndexByte_Some _ _ _ E) as (_ & _ & Hl). rewrite (IndexByte_app_l _ _ _ _ E).
  case_match; [|auto]. rewrite take_app_le, drop_app_le by lia. auto.
Qed.

Lemma ReadFull_extends x n inp : extends x (ReadFull n inp) (ReadFull n (inp ++ x)).
Proof.
  unfold ReadFull. destruct (Z.ltb_spec (Z.of_nat (length inp)) n); [by destruct inp|].
  rewrite (proj2 (Z.ltb_ge _ _)) by (rewrite length_app; lia).
  rewrite take_app_le, drop_app_le by lia. auto.
Qed.

Lemma readLine_extends x inp : extends x (readLine inp) (readLine (inp ++ x)).
Proof.
  apply extends_bind; [apply ReadSlice_extends|]. intros line rest _. cbn zeta. repeat case_decide; auto.
Qed.

Lemma readBulk_extends x inp : extends x (readBulk inp) (readBulk (inp ++ x)).
Proof.
  apply extends_bind; [apply readLine_extends|]. intros line rest _. destruct (ParseInt line); [|auto].
  repeat case_match; auto. apply extends_bind; [apply ReadFull_extends|]. intros b rest' _. cbn zeta. case_decide; auto.
Qed.

Lemma readItems_extends x rv rv' n inp :
  (forall inp, extends x (rv inp) (rv' (inp ++ x))) ->
  extends x (readItems rv n inp) (readItems rv' n (inp ++ x)).
Proof.
  intros Hrv. revert inp. induction n as [|n IH]; intros inp; cbn [readItems]; [auto|].
  apply extends_bind; [apply Hrv|]. intros v rest _. apply extends_bind; [apply IH|]. auto.
Qed.

Lemma ReadValue_extends x f f' inp :
  (f <= f')%nat -> extends x (ReadValue_fuel f inp) (ReadValue_fuel f' (inp ++ x)).
Proof.
  revert f' inp. induction f as [|f IH]; intros f' inp Hf; [apply extends_err|].
  destruct f' as [|f']; [lia|].
  destruct inp as [|b rest]; cbn [app ReadValue_fuel]; [auto|].
  repeat case_decide; try apply readBulk_extends;
    (apply extends_bind; [apply readLine_extends|]; intros line r _; auto).
  - destruct (ParseInt line); auto.
  - destruct (ParseInt line); [|auto]. repeat case_match; auto.
    apply extends_bind; [apply readItems_extends; intros inp; apply IH; lia|]. auto.
Qed.

Lemma ReadCommand_extends x inp : extends x (ReadCommand inp) (ReadCommand (inp ++ x)).
Proof.
  apply extends_bind; [apply ReadValue_extends; rewrite length_app; lia|].
  intros v rest _. repeat case_decide; auto.
Qed.

(** ** What a crash leaves is replayed *)

Definition valid_cmd (args : list bytes) : Prop :=
  Z.of_nat (length args) <= MaxArrayLength /\ Forall (fun a => Z.of_nat (length a) <= MaxBulkLength) args.

(** The log of a list of commands. *)
Definition log (cmds : list (list bytes)) : bytes := concat (SerializeCommand <$> cmds).

Lemma log_app cs ds : log (cs ++ ds) = log cs ++ log ds.
Proof. unfold log. by rewrite fmap_app, concat_app. Qed.

(** A proper prefix of a command is not a command. *)
Lemma ReadCommand_torn args p x :
  valid_cmd args -> SerializeCommand args = p ++ x -> x <> [] -> exists e, ReadCommand p = Err e.
Proof.
  intros [H1 H2] E Hx. destruct (ReadCommand p) as [[cmd rest]|e] eqn:Er; [|by exists e]. exfalso.
  pose proof (ReadCommand_extends x p _ _ Er) as H. rewrite <- E in H.
  pose proof (ReadCommand_serialized args [] H1 H2) as H'. rewrite app_nil_r in H'.
  rewrite H in H'. injection H' as _ H'. by apply app_eq_nil in H' as [_ ?].
Qed.

Section crash.
Context {St : Type} (handler : St -> list bytes -> St).

(** [j] is the number of commands whose bytes are all in [p]. *)
Definition complete (cmds : list (list bytes)) (p : bytes) (j : nat) : Prop :=
  (j <= length cmds)%nat /\ log (take j cmds) `prefix_of` p /\
  forall k, (k <= length cmds)%nat -> log (take k cmds) `prefix_of` p -> (k <= j)%nat.

Lemma Replay_prefix cmds p x st fuel :
  Forall valid_cmd cmds -> log cmds = p ++ x -> (length p < fuel)%nat ->
  exists j, complete cmds p j /\
    (Replay_loop handler fuel st p).1 = foldl (apply_cmd handler) st (take j cmds) /\
    (log (take j cmds) = p -> (Replay_loop handler fuel st p).2 = Ok tt).
Proof.
  intros HF. revert p st fuel. induction HF as [|c cmds Hc HF IH]; intros p st fuel E Hfuel.
  { symmetry in E. apply app_eq_nil in E as [-> ->]. destruct fuel as [|fuel]; [lia|]. exists O.
    split; [|done]. split; [done|]. split; [done|]. cbn. lia. }
  destruct fuel as [|fuel]; [lia|]. change (log (c :: cmds)) with (SerializeCommand c ++ log cmds) in E.
  destruct (decide (SerializeCommand c `prefix_of` p)) as [[k ->]|Hno].
  - rewrite <- app_assoc in E. apply app_inv_head in E.
    cbn [Replay_loop]. destruct Hc as [Hc1 Hc2]. rewrite ReadCommand_serialized by done.
    rewrite length_app in Hfuel. assert (1 <= length (SerializeCommand c))%nat by (cbn; lia).
    destruct (IH k (apply_cmd handler st c) fuel E) as (j & (J1 & J2 & J3) & J4 & J5); [lia|].
    exists (S j). split; [|split; [exact J4|]].
    + split; [cbn; lia|]. split; [by apply prefix_app|]. intros [|k'] Hk Hp; [lia|]. apply le_n_S, J3; [cbn in Hk; lia|].
      by apply prefix_app_inv in Hp.
    + cbn [firstn]. change (log (c :: take j cmds)) with (SerializeCommand c ++ log (take j cmds)).
      intros Hl%app_inv_head. by apply J5.
  - assert (exists y, y <> [] /\ SerializeCommand c = p ++ y) as (y & Hy & Ey).
    { assert (p `prefix_of` SerializeCommand c) as [y Ey].
      { destruct (prefix_weak_total p (SerializeCommand c) (p ++ x)) as [H|H];
          [by exists x|by exists (log cmds)|done|done]. }
      exists y. split; [|done]. intros ->. apply Hno. by exists []; rewrite Ey, !app_nil_r. }
    exists O. split.
    + split; [lia|]. split; [apply prefix_nil|]. intros [|k] _ Hp; [done|]. exfalso. apply Hno.
      etrans; [|exact Hp]. by exists (log (take k cmds)).
    + cbn [Replay_loop take foldl]. destruct (decide (p = [])) as [->|Hne]; [done|].
      destruct (ReadCommand_torn c p y Hc Ey Hy) as [e ->]. split; [by destruct e|]. intros Hl. by destruct Hne.
Qed.

Lemma Replay_log cmds st : Forall valid_cmd cmds -> Replay handler (log cmds) st = (foldl (apply_cmd handler) st cmds, Ok tt).
Proof.
  intros HF. unfold Replay. destruct (Replay_prefix cmds (log cmds) [] st (S (length (log cmds))) HF) as (j & (J1 & _ & J3) & J4 & J5);
    [by rewrite app_nil_r|lia|].
  assert (j = length cmds) as -> by (apply Nat.le_antisymm; [done|]; apply J3; [done|by rewrite firstn_all]).
  rewrite firstn_all in *. rewrite (surjective_pairing (Replay_loop _ _ _ _)), J4, J5; done.
Qed.

End crash.

(** ** Operations on the open file *)

Inductive aof_op := AWrite (args : list bytes) | ATick.

Definition aof_step (a : AOF) (op : aof_op) : AOF :=
  match op with AWrite args => WriteCommand args a | ATick => fsync_tick a end.

Definition written (op : aof_op) : list (list bytes) := match op with AWrite args => [args] | ATick => [] end.

Record aof_inv (cmds : list (list bytes)) (a : AOF) : Prop := {
  inv_log : file a ++ buf a = log cmds;
  inv_synced : synced a `prefix_of` file a;
  inv_always : policy a = FsyncAlways -> synced a = log cmds /\ file a = log cmds
}.

Lemma buf_Write_spec p a :
  file (buf_Write p a) ++ buf (buf_Write p a) = file a ++ buf a ++ p /\
  file a `prefix_of` file (buf_Write p a) /\ synced (buf_Write p a) = synced a /\ policy (buf_Write p a) = policy a.
Proof.
  unfold buf_Write. case_match; [cbn; split; [done|]; split; [done|done]|].
  case_decide as Hb.
  - rewrite Hb. cbn. split; [by rewrite app_nil_r|]. split; [by apply prefix_app_r|done].
  - case_match; cbn; (split; [|split; [repeat apply prefix_app_r; done|done]]).
    + rewrite <- !app_assoc. by rewrite take_drop.
    + rewrite app_nil_r, <- !app_assoc. by rewrite take_drop.
Qed.

Lemma flush_sync_inv cmds a : file a ++ buf a = log cmds -> aof_inv cmds (Sync (Flush a)).
Proof. intros E. split; cbn; [by rewrite app_nil_r|done|done]. Qed.

Lemma aof_step_inv cmds a op : aof_inv cmds a -> aof_inv (cmds ++ written op) (aof_step a op).
Proof.
  intros [H1 H2 H3]. destruct op as [args|]; cbn [aof_step written].
  - unfold WriteCommand. destruct (buf_Write_spec (SerializeCommand args) a) as (B1 & B2 & B3 & B4).
    assert (file (buf_Write (SerializeCommand args) a) ++ buf (buf_Write (SerializeCommand args) a)
            = log (cmds ++ [args])) as E.
    { rewrite B1, app_assoc, H1, log_app. f_equal. unfold log. cbn [fmap list_fmap concat]. by rewrite app_nil_r. }
    case_decide as Hp; [by apply flush_sync_inv|]. split; [done|by rewrite B3; etrans|done].
  - rewrite app_nil_r. unfold fsync_tick. case_decide; [by apply flush_sync_inv|by split].
Qed.

Lemma policy_step a op : policy (aof_step a op) = policy a.
Proof.
  destruct op as [args|]; cbn [aof_step].
  - unfold WriteCommand. destruct (buf_Write_spec (SerializeCommand args) a) as (_ & _ & _ & E).
    revert E. generalize (buf_Write (SerializeCommand args) a). intros b E. by case_decide.
  - unfold fsync_tick. by case_decide.
Qed.

Lemma aof_inv_ops cmds a ops :
  aof_inv cmds a -> aof_inv (cmds ++ concat (written <$> ops)) (foldl aof_step a ops) /\
  policy (foldl aof_step a ops) = policy a.
Proof.
  revert cmds a. induction ops as [|op ops IH]; intros cmds a Ha; cbn [foldl fmap list_fmap concat].
  - by rewrite app_nil_r.
  - rewrite app_assoc. destruct (IH _ _ (aof_step_inv _ _ op Ha)) as [I1 I2]. split; [done|].
    by rewrite I2, policy_step.
Qed.

(** C23: when every logged command has at most 1048576 arguments of at most 512
    MB each, the limits of the reader: after a crash that keeps any prefix of
    the log that contains the synchronised part, replay applies exactly the
    commands whose bytes survived, in order; under the always policy and after a
    clean close these are all of them. (The writer has no such limits; a longer
    command is logged and stops the replay.) *)
Theorem crash_replays_prefix {St} (handler : St -> list bytes -> St) pol cmds0 ops p st :
  let a := foldl aof_step (OpenAOF (log cmds0) pol) ops in
  let cmds := cmds0 ++ concat (written <$> ops) in
  Forall valid_cmd cmds -> synced a `prefix_of` p -> p `prefix_of` file a ->
  (exists j, complete cmds p j /\ (Replay handler p st).1 = foldl (apply_cmd handler) st (take j cmds)) /\
  (pol = FsyncAlways -> Replay handler p st = (foldl (apply_cmd handler) st cmds, Ok tt)) /\
  Replay handler (file (Close a)) st = (foldl (apply_cmd handler) st cmds, Ok tt).
Proof.
  intros a cmds HF Hs Hp.
  assert (aof_inv cmds0 (OpenAOF (log cmds0) pol)) as H0 by (split; cbn; [by rewrite app_nil_r|done|done]).
  destruct (aof_inv_ops _ _ ops H0) as [[I1 I2 I3] I4]. fold a in I1, I2, I3, I4. fold cmds in I1, I3.
  split; [|split].
  - destruct Hp as [y Hp]. destruct (Replay_prefix handler cmds p (y ++ buf a) st (S (length p)) HF) as (j & J1 & J2 & _).
    + rewrite <- I1, Hp. by rewrite app_assoc.
    + lia.
    + by exists j.
  - intros Hpol. cbn in I4. destruct I3 as [E1 E2]; [congruence|]. rewrite E1 in Hs. rewrite E2 in Hp.
    assert (p = log cmds) as ->.
    { destruct Hs as [y1 ->], Hp as [y2 Hp]. rewrite <- app_assoc, <- (app_nil_r (log cmds)) in Hp at 1.
      apply app_inv_head in Hp. symmetry in Hp. apply app_eq_nil in Hp as [-> _]. by rewrite app_nil_r. }
    by apply Replay_log.
  - cbn. rewrite I1. by apply Replay_log.
Qed.

Lemma crash_replays_prefix_witness :
  (Replay (fun st cmd => st ++ [cmd]) (take 20 (log [[str "PING"]; [str "INCR"; str "n"]])) []).1 = [[str "PING"]] /\
  Replay (fun st cmd => st ++ [cmd]) (log [[str "PING"]; [str "INCR"; str "n"]]) []
    = ([[str "PING"]; [str "INCR"; str "n"]], Ok tt).
Proof.
  split; [vm_compute; reflexivity|].
  destruct (crash_replays_prefix (fun st cmd => st ++ [cmd]) FsyncAlways [[str "PING"]] [AWrite [str "INCR"; str "n"]]
           (log [[str "PING"]; [str "INCR"; str "n"]]) []) as (_ & H & _).
  - repeat (apply Forall_cons_2 || apply Forall_nil_2); (split; [vm_compute; congruence|]);
      repeat (apply Forall_cons_2 || apply Forall_nil_2); vm_compute; congruence.
  - apply (bool_decide_eq_true_1 _). vm_compute. reflexivity.
  - apply (bool_decide_eq_true_1 _). vm_compute. reflexivity.
  - exact (H eq_refl).
Defined.

(** The writer does not have the limits of the reader: a command with more than
    1048576 arguments is logged and acknowledged, and the replay ends before it with an
    error, without all that was logged after it. *)
Theorem oversized_command_stops_replay {St} (handler : St -> list bytes -> St) cmds args later st : Forall valid_cmd cmds ->
  MaxArrayLength < Z.of_nat (length args) < 2 ^ 63 ->
  Replay handler (log (cmds ++ args :: later)) st = (foldl (apply_cmd handler) st cmds, Err ErrMultibulkTooLarge).
Proof.
  intros HF Ha. unfold Replay. generalize (le_n (S (length (log (cmds ++ args :: later))))).
  generalize (S (length (log (cmds ++ args :: later)))) at 2 3. intros fuel. revert fuel st.
  induction HF as [|cmd cmds [H1 H2] _ IH]; intros [|fuel] st Hf; cbn [app foldl] in *; try lia.
  - cbn [Replay_loop]. change (log (args :: later)) with (SerializeCommand args ++ log later). by rewrite ReadCommand_oversized.
  - cbn [Replay_loop]. change (log (cmd :: cmds ++ args :: later)) with (SerializeCommand cmd ++ log (cmds ++ args :: later)) in *.
    rewrite ReadCommand_serialized by done. apply IH. rewrite length_app in Hf.
    assert (SerializeCommand cmd <> []) by (unfold SerializeCommand; done). destruct (SerializeCommand cmd); [done|cbn [length] in Hf; lia].
Qed.
