(* ===== verification/Snapshot.v ===== *)
(** * Saving and restoring the keyspace (internal/engine/engine.go)

    [dumpAllRDBEntries] turns the keyspace into the entries of a snapshot and
    [restoreRDBEntry] an entry of a snapshot into an entry of the keyspace.  The
    theorem composes them with the file format of [Rdb]: what was saved is
    restored.  The order of a Go map range is the argument [iter], the draws of the
    skip lists are an argument, and so is the conversion of vector indexes, which
    have no model. *)

From stdpp Require Import sorting.
From S2P Require Import Prelude SetDs HashDs ListDs Stream SkipList Keyspace Commands CommandLaws Crc Rdb.

Section Snapshot.
Context {VectorIndex : Type}.
Context (iter : forall V, gmap bytes V -> list (bytes * V)).
Context (vector_item : VectorIndex -> VectorItem) (vector_index : VectorItem -> VectorIndex).

Abbreviation KValue := (@Keyspace.Value SkipList.SkipList VectorIndex).
Abbreviation Entry := (@Keyspace.Entry SkipList.SkipList VectorIndex).
Abbreviation Keyspace := (@Keyspace.Keyspace SkipList.SkipList VectorIndex).

(** ** Saving *)

(** The type and value of an entry in the snapshot; [None] when the value is not
    of the type of the entry. *)
Definition dump_value (e : Entry) : res fault (option (byte * RDBValue)) :=
  match Keyspace.Type_ e, Keyspace.Value_ e with
  | TypeString, Keyspace.VString s => Ok (Some (RDBTypeString, Rdb.VString s))
  | TypeHash, Keyspace.VHash h => Ok (Some (RDBTypeHash, Rdb.VHash (GetAll h)))
  | TypeList, Keyspace.VList l => Ok (Some (RDBTypeList, VItems (ListDs.Range l 0 (-1))))
  | TypeSet, Keyspace.VSet s => Ok (Some (RDBTypeSet, VItems (Members s)))
  | TypeZSet, Keyspace.VZSet z =>
      items ← SkipList.Range 0 (-1) false z;
      Ok (Some (RDBTypeZSet, Rdb.VZSet ((fun i => mkZSetItem (Score i) (Member i)) <$> items)))
  | TypeStream, Keyspace.VStream st =>
      Ok (Some (RDBTypeStream, Rdb.VStream ((fun i => mkStreamItem (Stream.ID i) (Fields i)) <$> Stream.Range st (str "-") (str "+") 0)))
  | TypeVector, Keyspace.VVector v => Ok (Some (RDBTypeVector, Rdb.VVector (vector_item v)))
  | _, _ => Ok None
  end.

(** The loop over the entries of a shard. *)
Fixpoint dump_shard (now : Z) (kvs : list (bytes * Entry)) : res fault (list RDBEntry) :=
  match kvs with
  | [] => Ok []
  | (k, e) :: kvs' =>
      if Keyspace.IsExpired e now then dump_shard now kvs'
      else
        d ← dump_value e;
        es ← dump_shard now kvs';
        Ok (match d with Some (t, v) => Rdb.mkEntry k t (Keyspace.ExpiresAt e) v :: es | None => es end)
  end.

Fixpoint dump_shards (now : Z) (shs : list (gmap bytes Entry)) : res fault (list RDBEntry) :=
  match shs with
  | [] => Ok []
  | m :: shs' => es ← dump_shard now (iter _ m); es' ← dump_shards now shs'; Ok (es ++ es')
  end.

Definition dumpAllRDBEntries (now : Z) (ks : Keyspace) : res fault (list RDBEntry) := dump_shards now (shards ks).

(** The metadata of the file: the times and the memory statistics are arguments. *)
Definition dump_aux (unix alloc : Z) (replid : option bytes) : gmap bytes bytes :=
  let aux := <[str "used-mem" := FormatUint alloc]> (<[str "ctime" := FormatInt unix]>
    (<[str "redis-bits" := str "64"]> {[str "redis-ver" := str "1.0.0-PROD"]})) in
  match replid with Some id => <[str "vortex-replid" := id]> aux | None => aux end.

(** ** Restoring *)

(** [rng k] are the draws of the [k]-th insertion. *)
Fixpoint restore_zset (rng : nat -> nat -> Z) (k : nat) (items : list ZSetItem) (z : SkipList) : res fault SkipList :=
  match items with
  | [] => Ok z
  | i :: items' => z ← SkipList.Insert (rng k) (zScore i) (zMember i) z; restore_zset rng (S k) items' z
  end.

(** An entry that is refused is left out. *)
Fixpoint restore_stream (wall : Z) (items : list StreamItem) (st : Stream) : res fault Stream :=
  match items with
  | [] => Ok st
  | i :: items' =>
      match Stream.Add st wall (sID i) (sFields i) (iter _ (sFields i)).*1 with
      | Ok (st, _) => restore_stream wall items' st
      | Err p => Err (Fault p)
      end
  end.

(** The entry type and value of an entry of a snapshot; [None] for a value that
    the decoder of snapshots does not give for the type. *)
Definition restore_value (rng : nat -> nat -> Z) (wall : Z) (t : byte) (v : RDBValue) : option (EntryType * res fault KValue) :=
  match v with
  | Rdb.VString s => if decide (t = RDBTypeString) then Some (TypeString, Ok (Keyspace.VString s)) else None
  | VItems items =>
      if decide (t = RDBTypeList) then
        Some (TypeList, Ok (Keyspace.VList (foldl (fun l i => (RPush l [i]).1) NewList items)))
      else if decide (t = RDBTypeSet) then
        Some (TypeSet, Ok (Keyspace.VSet (foldl (fun s i => (SetDs.Add s [i]).1) NewSet items)))
      else None
  | Rdb.VHash fields =>
      if decide (t = RDBTypeHash) then
        Some (TypeHash, Ok (Keyspace.VHash (foldl (fun h kv => (HashDs.Set_ h kv.1 kv.2).1) NewHash (iter _ fields))))
      else None
  | Rdb.VZSet items =>
      if decide (t = RDBTypeZSet) then
        Some (TypeZSet, z ← restore_zset rng 0 items NewSkipList; Ok (Keyspace.VZSet z))
      else None
  | Rdb.VStream items =>
      if decide (t = RDBTypeStream) then
        Some (TypeStream, st ← restore_stream wall items NewStream; Ok (Keyspace.VStream st))
      else None
  | Rdb.VVector v => if decide (t = RDBTypeVector) then Some (TypeVector, Ok (Keyspace.VVector (vector_index v))) else None
  end.

Definition restoreRDBEntry (rng : nat -> nat -> Z) (c : clock) (ks : Keyspace) (entry : RDBEntry) : option (res fault Keyspace) :=
  '(t, r) ← restore_value rng (wall c) (Rdb.Type_ entry) (Rdb.Value entry);
  Some (v ← r; Ok (Keyspace.Set_ ks (now c) (Key entry) (mkE t v (Rdb.ExpiresAt entry) 0 0))).

(** The handler [NewEngine] gives to [LoadRDB]; the draws and clocks depend on the
    entry.  It returns no error; a fault ends the load. *)
Definition load_handler (rng : bytes -> nat -> nat -> Z) (c : bytes -> clock) (ks : Keyspace) (entry : RDBEntry) : res bytes Keyspace :=
  match restoreRDBEntry (rng (Key entry)) (c (Key entry)) ks entry with
  | Some (Ok ks') => Ok ks'
  | _ => Err (str "panic")
  end.

(** ** One value *)

(** What a snapshot keeps of a value: of a sorted set its members in order with their
    scores (not the towers), of a stream the identifiers and the fields of its entries.
    The consumer groups, the last identifier and the order of the fields of an entry
    are not compared, because they are not kept ([snapshot_drops_groups]). *)
Definition same_value (v v' : KValue) : Prop :=
  match v, v' with
  | Keyspace.VString a, Keyspace.VString b => a = b
  | Keyspace.VHash a, Keyspace.VHash b => a = b
  | Keyspace.VList a, Keyspace.VList b => a = b
  | Keyspace.VSet a, Keyspace.VSet b => a = b
  | Keyspace.VZSet a, Keyspace.VZSet b => exists ps ps' es, repr a ps es /\ repr b ps' es
  | Keyspace.VStream a, Keyspace.VStream b =>
      (fun i => (Stream.ID i, Fields i)) <$> Stream.entries a = (fun i => (Stream.ID i, Fields i)) <$> Stream.entries b
  | _, _ => False
  end.

(** An entry of the engine that can be saved: of its type and sound; no vectors. *)
Definition dumpable (e : Entry) : Prop :=
  Keyspace.Type_ e = type_of (Keyspace.Value_ e) /\
  match Keyspace.Value_ e with
  | Keyspace.VList l => Z.of_nat (length (items l)) < 2 ^ 63
  | Keyspace.VZSet z => exists ps es, repr z ps es /\ Z.of_nat (length es) < 2 ^ 63 - 1
  | Keyspace.VStream s => Stream.wf s
  | Keyspace.VVector _ => False
  | _ => True
  end.

Lemma restore_list l : forall acc, foldl (fun l i => (RPush l [i]).1) (mkList acc) l = mkList (acc ++ l).
Proof using. induction l as [|x l IH]; intros acc; cbn [foldl]; [by rewrite app_nil_r|]. unfold RPush at 2. cbn [fst items]. rewrite IH. by rewrite <- app_assoc. Qed.

Lemma whole_list l : Z.of_nat (length (items l)) < 2 ^ 63 -> ListDs.Range l 0 (-1) = items l.
Proof using.
  intros Hl. unfold ListDs.Range. destruct (Z.eqb_spec (Z.of_nat (length (items l))) 0) as [E|E]; [by destruct (items l)|].
  cbn [Z.ltb Z.compare]. rewrite int64_id by (unfold is_int64; lia).
  destruct (Z.geb_spec (Z.of_nat (length (items l)) + -1) (Z.of_nat (length (items l)))); [lia|].
  destruct (Z.gtb_spec 0 (Z.of_nat (length (items l)) + -1)); [lia|]. destruct (Z.geb_spec 0 (Z.of_nat (length (items l)))); [lia|].
  cbn [orb]. rewrite drop_0, take_ge by lia. done.
Qed.

Lemma restore_set l : forall acc, foldl (fun s i => (SetDs.Add s [i]).1) (mkSet acc) l = mkSet (acc ∪ list_to_set l).
Proof using.
  induction l as [|x l IH]; intros acc; cbn [foldl list_to_set]; [f_equal; set_solver|]. unfold SetDs.Add, add_one at 2. cbn [foldl members].
  destruct (decide (x ∈ acc)); cbn [fst]; rewrite IH; f_equal; set_solver.
Qed.

Lemma restore_hash kvs : forall m, foldl (fun h kv => (HashDs.Set_ h kv.1 kv.2).1) (mkHash m) kvs = mkHash (foldl (fun m kv => <[kv.1 := kv.2]> m) m kvs).
Proof using. induction kvs as [|kv kvs IH]; intros m; cbn [foldl]; [done|]. apply IH. Qed.

(** Inserting in order. *)
Lemma put_sorted_last e es : Forall (fun a => item_lt a e) es -> put_sorted e es = es ++ [e].
Proof using.
  intros H. unfold put_sorted. rewrite filter_all by done. f_equal. f_equal. apply filter_none.
  eapply Forall_impl; [exact H|]. auto.
Qed.

Lemma restore_zset_spec rng es : forall k es0 z ps, repr z ps es0 -> sorted_set (es0 ++ es) -> Z.of_nat (length (es0 ++ es)) < 2 ^ 63 - 1 ->
  exists z' ps', restore_zset rng k ((fun i => mkZSetItem (Score i) (Member i)) <$> es) z = Ok z' /\ repr z' ps' (es0 ++ es).
Proof using.
  induction es as [|e es IH]; intros k es0 z ps Hr Hs Hb; cbn [fmap list_fmap restore_zset].
  { rewrite app_nil_r. eauto. }
  destruct Hs as [H1 H2 H3]. cbn [zScore zMember].
  destruct (Insert_spec (rng k) z ps es0 (Score e) (Member e) Hr) as (z' & ps' & -> & Hr').
  { apply Forall_app in H2 as [_ H2]. by inversion H2. } { rewrite length_app in Hb. cbn [length] in Hb. lia. }
  assert (drop_member (Member e) es0 = es0) as Hd.
  { apply filter_all, Forall_forall. intros a Ha Heq. rewrite fmap_app in H3. apply NoDup_app in H3 as (_ & H3 & _).
    apply (H3 (Member a)); [by apply list_elem_of_fmap_2|]. rewrite Heq. csimpl. by left. }
  assert (put_sorted (mkSM (Member e) (Score e)) es0 = es0 ++ [e]) as Hp.
  { destruct e as [mm ss]. apply put_sorted_last, Forall_forall. intros a Ha.
    eapply StronglySorted_app_1_elem_of; [exact H1|exact Ha|by left]. }
  rewrite Hd, Hp in Hr'. cbn [mbind res_bind]. destruct (IH (S k) (es0 ++ [e]) z' ps' Hr') as (z2 & ps2 & E & H).
  - rewrite <- app_assoc. by split.
  - by rewrite <- app_assoc.
  - exists z2, ps2. split; [done|]. by rewrite <- app_assoc in H.
Qed.

Lemma id_no_star a : valid_id a -> HasSuffix (ID_String a) (str "-*") = false.
Proof using.
  intros [[Hm _] [Hs _]]. apply not_true_is_false. unfold HasSuffix. rewrite andb_true_iff, bool_decide_eq_true. intros [_ E].
  assert ("*"%byte ∈ ID_String a) as Hin.
  { rewrite <- (take_drop (length (ID_String a) - length (str "-*")) (ID_String a)), E. apply elem_of_app. right. right. left. }
  unfold ID_String in Hin. apply elem_of_app in Hin as [Hin|[Hin|Hin]%elem_of_cons]; [|done|];
    (eapply FormatUint_no_byte; [| |exact Hin]; done).
Qed.

Lemma slice_whole {A} (l : list A) : slice_of 0 (-1) l = l.
Proof using.
  unfold slice_of. cbn [Z.ltb Z.compare Z.max]. destruct l as [|x l]; [by rewrite drop_nil, take_nil|]. rewrite drop_0. apply take_ge.
  cbn [length]. lia.
Qed.

Definition item_of (e : StreamEntry) : StreamItem := mkStreamItem (Stream.ID e) (Fields e).
Definition restored_entry (e : StreamEntry) : StreamEntry := Stream.mkEntry (Stream.ID e) (Fields e) (iter _ (Fields e)).*1.

(** Adding an entry under a given identifier above the last, without waiters. *)
Lemma Add_given st wall a fields order : Stream.waiters st = [] -> valid_id a ->
  (Stream.entries st <> [] -> id_lt (lastID st) a) ->
  Stream.Add st wall (ID_String a) fields order =
    Ok (mkStream (Stream.entries st ++ [Stream.mkEntry (ID_String a) fields order]) a (groups st) [] (chans st) (pes st), Ok (ID_String a)).
Proof using.
  intros Hw Hv Hlt.
  assert (choose_id st wall (ID_String a) = Ok a) as Hch.
  { unfold choose_id. pose proof (ParseStreamID_String a Hv) as HP.
    rewrite decide_False by (intros E; rewrite E in HP; vm_compute in HP; discriminate HP).
    rewrite id_no_star, HP by done. cbn [mbind res_bind]. destruct (Stream.entries st) as [|e0 es0] eqn:Ee; [done|].
    specialize (Hlt ltac:(done)). unfold id_lt in Hlt. destruct (_ && _) eqn:Ec; [|done]. exfalso. lia. }
  unfold Stream.Add. rewrite Hch, Hw. done.
Qed.

(** Adding entries with increasing identifiers. *)
Lemma restore_stream_spec wall es : forall sids st, Stream.waiters st = [] ->
  Forall2 carries es sids -> StronglySorted id_lt sids ->
  (Stream.entries st <> [] -> Forall (fun a => id_lt (lastID st) a) sids) ->
  exists st', restore_stream wall (item_of <$> es) st = Ok st' /\ Stream.entries st' = Stream.entries st ++ (restored_entry <$> es).
Proof using.
  induction es as [|e es IH]; intros sids st Hw HC HS Hlt; cbn [fmap list_fmap restore_stream].
  { exists st. by rewrite app_nil_r. }
  inversion HC as [|? a ? sids' [Hv Hid] HC']; subst. apply StronglySorted_inv in HS as [HS Ha].
  cbn [item_of sID sFields]. rewrite Hid, Add_given by (done || intros Hne; specialize (Hlt Hne); by inversion Hlt).
  destruct (IH sids' (mkStream (Stream.entries st ++ [Stream.mkEntry (ID_String a) (Fields e) (iter _ (Fields e)).*1]) a (groups st) [] (chans st) (pes st)))
    as (st' & -> & E); [done|done|done|done|].
  exists st'. split; [done|]. rewrite E. cbn [Stream.entries]. rewrite <- app_assoc. unfold restored_entry at 2. by rewrite Hid.
Qed.

Lemma whole_stream s : Stream.wf s -> Stream.Range s (str "-") (str "+") 0 = Stream.entries s.
Proof using.
  intros Hwf. rewrite (Range_filter s (str "-") (str "+") 0 Hwf); [|by left|right; by left].
  unfold limit. cbn [Z.ltb Z.compare]. apply filter_all, Forall_forall. intros e _. done.
Qed.

Context (iter_perm : forall V (m : gmap bytes V), iter V m ≡ₚ map_to_list m).

Lemma hash_copy m : foldl (fun m kv => <[kv.1 := kv.2]> m) ∅ (iter _ (GetAll (mkHash m))) = m.
Proof using iter_perm.
  change (assign_all (iter _ (assign_all (map_to_list m))) = m). by rewrite !(assign_all_map m) by (by rewrite ?iter_perm, ?(assign_all_map m)).
Qed.

(** What is saved of a value is restored. *)
Lemma value_roundtrip rng wall e : dumpable e ->
  exists t v v', dump_value e = Ok (Some (t, v)) /\ restore_value rng wall t v = Some (Keyspace.Type_ e, Ok v') /\ same_value (Keyspace.Value_ e) v'.
Proof using iter_perm.
  intros [Ht Hd]. unfold dump_value. rewrite Ht. destruct (Keyspace.Value_ e) as [s|[m]|l|s|z|v|st] eqn:Ev; cbn [type_of].
  - exists RDBTypeString, (Rdb.VString s), (Keyspace.VString s). done.
  - eexists RDBTypeHash, _, (Keyspace.VHash (mkHash m)). split; [done|]. split; [|done]. cbn [restore_value].
    rewrite decide_True by done. do 3 f_equal. unfold NewHash. rewrite restore_hash. by rewrite hash_copy.
  - eexists RDBTypeList, _, (Keyspace.VList l). split; [done|]. split; [|done]. cbn [restore_value].
    rewrite decide_True by done. unfold NewList. rewrite restore_list, whole_list by done. by destruct l.
  - eexists RDBTypeSet, _, (Keyspace.VSet s). split; [done|]. split; [|done]. cbn [restore_value].
    rewrite decide_False, decide_True by done. unfold NewSet. rewrite restore_set. do 4 f_equal. destruct s as [M]. f_equal.
    unfold Members. cbn [members]. set_solver.
  - destruct Hd as (ps & es & Hr & Hb). rewrite (Range_spec z ps es 0 (-1) false Hr) by (unfold is_int64; lia).
    assert (slice_of 0 (-1) es = es) as -> by apply slice_whole. cbn [mbind res_bind].
    destruct (restore_zset_spec rng es 0 [] NewSkipList [] repr_new) as (z' & ps' & E & Hr'); [apply Hr|done|].
    eexists RDBTypeZSet, _, (Keyspace.VZSet z'). split; [done|]. split; [|by exists ps, ps', es]. cbn [restore_value].
    rewrite decide_True by done. by rewrite E.
  - done.
  - rewrite whole_stream by done. destruct Hd as [[sids HL] _]. destruct (log_ids_carries st sids HL) as [HC HS].
    destruct (restore_stream_spec wall (Stream.entries st) sids NewStream eq_refl HC HS) as (st' & E & He); [done|].
    eexists RDBTypeStream, _, (Keyspace.VStream st'). split; [done|]. cbn [restore_value]. rewrite decide_True by done.
    change ((fun i => mkStreamItem (Stream.ID i) (Fields i)) <$> Stream.entries st) with (item_of <$> Stream.entries st). rewrite E. split; [done|].
    cbn [same_value]. rewrite He. cbn [Stream.entries NewStream app]. rewrite <- list_fmap_compose. by apply list_fmap_ext.
Qed.

(** ** All entries *)

Definition all_entries (ks : Keyspace) : list (bytes * Entry) := concat (iter _ <$> shards ks).

Lemma all_entries_spec ks : Keyspace.wf ks ->
  (forall k e, (k, e) ∈ all_entries ks <-> look ks k = Some e) /\ NoDup (all_entries ks).*1.
Proof using iter_perm.
  intros [Hlen Hp]. unfold all_entries.
  assert (forall k e, (k, e) ∈ concat (iter _ <$> shards ks) <-> exists i m, shards ks !! i = Some m /\ m !! k = Some e) as Hin.
  { intros k e. rewrite list_elem_of_In, in_concat. split.
    - intros (l & Hl & He). apply list_elem_of_In, list_elem_of_fmap in Hl as (m & -> & Hm).
      apply list_elem_of_In in He. rewrite iter_perm in He. apply elem_of_map_to_list in He.
      apply list_elem_of_lookup in Hm as [i Hi]. eauto.
    - intros (i & m & Hi & Hk). exists (iter _ m). split; apply list_elem_of_In.
      + apply list_elem_of_fmap_2. by eapply list_elem_of_lookup_2.
      + rewrite iter_perm. by apply elem_of_map_to_list. }
  split.
  - intros k e. rewrite Hin. unfold look, getShard. split.
    + intros (i & m & Hi & Hk). rewrite (Hp i m k Hi) by eauto. by rewrite Hi.
    + intros Hk. destruct (shards ks !! shardIdx k) as [m|] eqn:Ei; [|cbn [from_option] in Hk; by rewrite lookup_empty in Hk]. eauto.
  - clear Hlen Hin. assert (forall o, (forall i m k, shards ks !! i = Some m -> is_Some (m !! k) -> shardIdx k = (o + i)%nat) ->
      NoDup (concat (iter _ <$> shards ks)).*1) as H; [|by apply (H O)].
    clear Hp. induction (shards ks) as [|m ss IH]; intros o Hp; csimpl; [constructor|]. rewrite fmap_app. apply NoDup_app.
    split; [rewrite iter_perm; apply NoDup_fst_map_to_list|]. split.
    + intros k Hk1 Hk2. rewrite iter_perm in Hk1. apply list_elem_of_fmap in Hk1 as ([k1 e1] & -> & H1%elem_of_map_to_list).
      apply list_elem_of_fmap in Hk2 as ([k2 e2] & Hkk & H2). cbn [fst] in Hkk. subst k2.
      apply list_elem_of_In, in_concat in H2 as (l & Hl & H2). apply list_elem_of_In, list_elem_of_fmap in Hl as (m2 & -> & Hm2).
      apply list_elem_of_In in H2. rewrite iter_perm in H2. apply elem_of_map_to_list in H2. apply list_elem_of_lookup in Hm2 as [i Hi].
      pose proof (Hp O m k1 eq_refl (ex_intro _ _ H1)). pose proof (Hp (S i) m2 k1 Hi (ex_intro _ _ H2)). lia.
    + apply (IH (S o)). intros i m' k Hi Hk. rewrite (Hp (S i) m' k Hi Hk). lia.
Qed.

(** An entry of the keyspace and what is saved of it. *)
Definition saved (kv : bytes * Entry) (r : RDBEntry) : Prop :=
  Key r = kv.1 /\ Rdb.ExpiresAt r = Keyspace.ExpiresAt kv.2 /\ dump_value kv.2 = Ok (Some (Rdb.Type_ r, Rdb.Value r)).

Definition unexpired (t : Z) (kv : bytes * Entry) : Prop := Keyspace.IsExpired kv.2 t = false.
#[local] Instance unexpired_dec t kv : Decision (unexpired t kv).
Proof using. unfold unexpired. apply _. Defined.

Lemma dump_shard_app now l1 l2 es1 es2 : dump_shard now l1 = Ok es1 -> dump_shard now l2 = Ok es2 -> dump_shard now (l1 ++ l2) = Ok (es1 ++ es2).
Proof using.
  intros H1 H2. revert es1 H1. induction l1 as [|[k e] l1 IH]; intros es1; cbn [dump_shard app]; [by intros [= <-]|].
  destruct (IsExpired e now); [apply IH|]. destruct (dump_value e) as [d|]; cbn [mbind res_bind]; [|done].
  destruct (dump_shard now l1) as [es|]; cbn [mbind res_bind]; [|done]. intros [= <-]. rewrite (IH es eq_refl). cbn [mbind res_bind].
  by destruct d as [[]|].
Qed.

Lemma dump_shard_spec now kvs : Forall (fun kv => dumpable kv.2) kvs ->
  exists es, dump_shard now kvs = Ok es /\ Forall2 saved (filter (unexpired now) kvs) es.
Proof using iter_perm vector_index.
  induction 1 as [|[k e] kvs He _ (es & IH & HF)]; [by exists []|]. cbn [dump_shard snd] in *. rewrite filter_cons. destruct (decide (unexpired now (k, e))) as [E|E]; unfold unexpired in E; cbn [snd] in E.
  2: { apply not_false_is_true in E. rewrite E. by exists es. }
  rewrite E.
  destruct (value_roundtrip (fun _ _ => 0) 0 e He) as (t & v & _ & Ed & _). rewrite Ed, IH. cbn [mbind res_bind].
  eexists. split; [done|]. constructor; [|done]. by split.
Qed.

Lemma dump_shards_spec now ss : Forall (fun kv => dumpable kv.2) (concat (iter _ <$> ss)) ->
  exists es, dump_shards now ss = Ok es /\ dump_shard now (concat (iter _ <$> ss)) = Ok es.
Proof using iter_perm vector_index.
  induction ss as [|m ss IH]; csimpl; [by exists []|]. intros [H1 H2]%Forall_app. destruct (IH H2) as (es & -> & E2).
  destruct (dump_shard_spec now (iter _ m) H1) as (es1 & E1 & _). rewrite E1. cbn [mbind res_bind].
  eexists. split; [done|]. by apply dump_shard_app.
Qed.

(** The restored entry: its type, value, and expiry time unless it has none. *)
Definition restored (e e' : Entry) : Prop :=
  Keyspace.Type_ e' = Keyspace.Type_ e /\ same_value (Keyspace.Value_ e) (Keyspace.Value_ e') /\
  Keyspace.ExpiresAt e' = Z.max 0 (Keyspace.ExpiresAt e).

Lemma restore_one rng c kv r ks : saved kv r -> dumpable kv.2 -> Keyspace.wf ks ->
  exists ks' e', load_handler rng c ks (stored r) = Ok ks' /\ Keyspace.wf ks' /\ restored kv.2 e' /\
    forall k, look ks' k = if decide (k = kv.1) then Some e' else look ks k.
Proof using iter_perm.
  intros (Hk & Hx & Hd) He Hwf. unfold load_handler, restoreRDBEntry. cbn [stored Key Rdb.Type_ Rdb.Value Rdb.ExpiresAt].
  destruct (value_roundtrip (rng (Key r)) (wall (c (Key r))) kv.2 He) as (t & v & v' & Ed & Er & Hs). rewrite Hd in Ed. injection Ed as <- <-.
  rewrite Er. cbn [mbind option_bind res_bind]. eexists _, _. split; [done|]. unfold Keyspace.Set_.
  assert (Keyspace.wf (match look ks (Key r) with Some _ => ks | None => addCount ks 1 end)) as Hwf' by (destruct (look ks (Key r)); [done|by apply addCount_wf]).
  split; [by apply store_wf|]. rewrite Hk, Hx in *. split; cycle 1.
  - intros k. rewrite look_store by done. destruct (decide (k = kv.1)); [reflexivity|]. by destruct (look ks kv.1).
  - unfold touch. cbn [Keyspace.Type_ Keyspace.Value_ Keyspace.ExpiresAt]. by split.
Qed.

Lemma stored_unexpired t kv r : saved kv r -> live t (stored r) <-> unexpired t kv.
Proof using.
  intros (_ & Hx & _). unfold live, stored, unexpired, IsExpired. cbn [Rdb.ExpiresAt]. rewrite Hx, andb_false_iff, Z.ltb_ge, Z.leb_gt. lia.
Qed.

Lemma restore_all rng c t kvs es : Forall2 saved kvs es -> Forall (fun kv => dumpable kv.2) kvs -> NoDup kvs.*1 ->
  forall ks, Keyspace.wf ks -> exists ks', Rdb.restore (load_handler rng c) ks (filter (live t) (stored <$> es)) = (ks', Ok tt) /\ Keyspace.wf ks' /\
    (forall k, k ∉ kvs.*1 -> look ks' k = look ks k) /\
    (forall k e, (k, e) ∈ kvs -> if Keyspace.IsExpired e t then look ks' k = look ks k else exists e', look ks' k = Some e' /\ restored e e').
Proof using iter_perm.
  induction 1 as [|[k0 e0] r kvs es Hs HF IH]; intros HD HN ks Hwf.
  { exists ks. split; [done|]. split; [done|]. split; [done|]. intros k e []%elem_of_nil. }
  apply Forall_cons in HD as [H0 HD]. csimpl in HN. apply NoDup_cons in HN as [Hn0 HN]. csimpl. rewrite filter_cons.
  pose proof (stored_unexpired t (k0, e0) r Hs) as Hlive. destruct (decide (live t (stored r))) as [Hl|Hl].
  - cbn [Rdb.restore]. destruct (restore_one rng c (k0, e0) r ks Hs H0 Hwf) as (ks1 & e1 & -> & Hwf1 & Hr & Hlook). cbn [fst snd] in *.
    destruct (IH HD HN ks1 Hwf1) as (ks' & E & Hwf' & Hout & Hin). exists ks'. split; [done|]. split; [done|]. split.
    + intros k [Hk1 Hk2]%not_elem_of_cons. rewrite Hout, Hlook by done. by rewrite decide_False.
    + intros k e [[= -> ->]|Hke]%elem_of_cons.
      * apply Hlive in Hl. unfold unexpired in Hl. cbn [snd] in Hl. rewrite Hl. exists e1. split; [|done]. rewrite Hout, Hlook by done. by rewrite decide_True.
      * specialize (Hin k e Hke). destruct (IsExpired e t); [|done]. rewrite Hin, Hlook. rewrite decide_False; [done|].
        intros ->. apply Hn0. by apply (list_elem_of_fmap_2 fst) in Hke.
  - destruct (IH HD HN ks Hwf) as (ks' & E & Hwf' & Hout & Hin). exists ks'. split; [done|]. split; [done|]. split.
    + intros k [Hk1 Hk2]%not_elem_of_cons. by apply Hout.
    + intros k e [[= -> ->]|Hke]%elem_of_cons; [|by apply Hin].
      destruct (IsExpired e0 t) eqn:Ex; [by apply Hout|]. exfalso. apply Hl, Hlive. exact Ex.
Qed.

(** C40: for a keyspace without vector keys whose values are sound and fit in
    memory, and clocks that do not go back: through dumpAllRDBEntries, the file
    format and restoreRDBEntry, every key that has not expired when the file is
    loaded comes back with its type, value and expiry time, and no other key.
    Sorted sets are compared by members and scores, streams by the identifiers
    and fields of their entries: consumer groups, last identifiers and field
    order are not restored (a finding). *)
Theorem snapshot_restores_keyspace rng c t0 t1 t2 ks aux : Keyspace.wf ks -> (forall k e, look ks k = Some e -> dumpable e) ->
  t0 <= t1 <= t2 ->
  exists es, dumpAllRDBEntries t0 ks = Ok es /\
    (Forall entry_ok es -> fields_ok aux -> exists file ks', SaveRDB iter t1 es aux = Ok file /\
      LoadRDB (load_handler rng c) t2 file NewKeyspace = (ks', Ok aux) /\ Keyspace.wf ks' /\
      forall k, match look ks k with
                | Some e => if Keyspace.IsExpired e t2 then look ks' k = None else exists e', look ks' k = Some e' /\ restored e e'
                | None => look ks' k = None
                end).
Proof using iter_perm.
  intros Hwf HD [Ht1 Ht2]. destruct (all_entries_spec ks Hwf) as [Hin HN]. unfold all_entries in Hin.
  assert (Forall (fun kv => dumpable kv.2) (all_entries ks)) as HDall by (apply Forall_forall; intros [k e] H; apply Hin in H; by eapply HD).
  destruct (dump_shards_spec t0 (shards ks) HDall) as (es & E & E').
  destruct (dump_shard_spec t0 (all_entries ks) HDall) as (es2 & E2 & HF). unfold all_entries in E2. rewrite E' in E2. injection E2 as <-.
  exists es. split; [done|]. intros Hok Haux.
  destruct (save_load iter iter_perm (load_handler rng c) t1 t2 es aux NewKeyspace Hok Haux Ht2) as (file & Hsave & Hload).
  destruct (restore_all rng c t2 _ _ HF) with (ks := NewKeyspace (SkipList := SkipList) (VectorIndex := VectorIndex)) as (ks' & Er & Hwf' & Hout & Hke).
  { apply Forall_forall. intros kv [_ H]%list_elem_of_filter. rewrite Forall_forall in HDall. by apply HDall. }
  { eapply sublist_NoDup; [apply HN|]. apply fmap_sublist, sublist_filter. }
  { apply NewKeyspace_wf. }
  pose proof (NewKeyspace_look (SkipList := SkipList) (VectorIndex := VectorIndex)) as Hnew.
  rewrite Er in Hload. exists file, ks'. split; [done|]. split; [done|]. split; [done|]. intros k.
  assert (forall e, (k, e) ∈ filter (unexpired t0) (all_entries ks) <-> unexpired t0 (k, e) /\ look ks k = Some e) as Hf.
  { intros e. rewrite list_elem_of_filter. unfold all_entries. by rewrite Hin. }
  destruct (look ks k) as [e|] eqn:Ek.
  - destruct (IsExpired e t0) eqn:Ex0.
    + assert (IsExpired e t2 = true) as -> by (unfold IsExpired in *; lia). rewrite Hout; [done|].
      intros ([k1 e1] & -> & H)%list_elem_of_fmap. apply Hf in H as [H1 [= <-]]. unfold unexpired in H1. cbn [snd] in H1. congruence.
    + specialize (Hke k e). rewrite Hf in Hke. specialize (Hke (conj Ex0 eq_refl)). destruct (IsExpired e t2); [by rewrite Hke|done].
  - rewrite Hout; [done|]. intros ([k1 e1] & -> & H)%list_elem_of_fmap. by apply Hf in H as [_ ?].
Qed.

End Snapshot.

(** ** Instances *)

Definition saved_ks : @Keyspace.Keyspace SkipList unit :=
  store (store NewKeyspace (str "a") (mkE TypeString (Keyspace.VString (str "7")) 100 0 0))
    (str "l") (mkE TypeList (Keyspace.VList (mkList [str "x"; str "y"])) 0 0 0).

Definition in_order (V : Type) (m : gmap bytes V) : list (bytes * V) := map_to_list m.
Definition no_vectors (_ : unit) : VectorItem := mkVectorItem 0 ∅.

Lemma saved_ks_dumpable k e : look saved_ks k = Some e -> dumpable e.
Proof.
  unfold saved_ks. rewrite look_store by apply store_wf, NewKeyspace_wf. destruct (decide (k = str "l")); [intros [= <-]; by split|].
  rewrite look_store by apply NewKeyspace_wf. destruct (decide (k = str "a")); [intros [= <-]; by split|].
  rewrite <- abs_lookup by apply NewKeyspace_wf. by rewrite NewKeyspace_abs, lookup_empty.
Qed.

Lemma snapshot_restores_keyspace_witness : exists file ks' e',
  SaveRDB in_order 5 [Rdb.mkEntry (str "l") RDBTypeList 0 (VItems [str "x"; str "y"]);
                      Rdb.mkEntry (str "a") RDBTypeString 100 (Rdb.VString (str "7"))] ∅ = Ok file /\
  LoadRDB (load_handler in_order (fun _ => tt) (fun _ _ _ => 0) (fun _ => mkClock 9 9 9)) 9 file NewKeyspace = (ks', Ok ∅) /\
  look ks' (str "a") = Some e' /\ Keyspace.Value_ e' = Keyspace.VString (str "7") /\ Keyspace.ExpiresAt e' = 100.
Proof.
  destruct (snapshot_restores_keyspace in_order no_vectors (fun _ => tt) (fun _ m => reflexivity _) (fun _ _ _ => 0) (fun _ => mkClock 9 9 9) 5 5 9 saved_ks ∅)
    as (es & E & H).
  - apply store_wf, store_wf, NewKeyspace_wf.
  - apply saved_ks_dumpable.
  - lia.
  - assert (dumpAllRDBEntries in_order no_vectors 5 saved_ks = Ok
      [Rdb.mkEntry (str "l") RDBTypeList 0 (VItems [str "x"; str "y"]); Rdb.mkEntry (str "a") RDBTypeString 100 (Rdb.VString (str "7"))]) as E2
      by (vm_compute; reflexivity).
    rewrite E2 in E. apply Ok_inj in E as <-. destruct H as (file & ks' & Hs & Hl & _ & HL).
    + repeat apply Forall_cons_2; [| |apply Forall_nil_2]; (split; [by vm_compute|split; [by vm_compute|]]); cbn [value_ok Rdb.Type_ Rdb.Value].
      * split; [by left|]. split; [by vm_compute|]. repeat apply Forall_cons_2; [by vm_compute..|apply Forall_nil_2].
      * split; [reflexivity|by vm_compute].
    + split; [by vm_compute|apply map_Forall_empty].
    + specialize (HL (str "a")). assert (look saved_ks (str "a") = Some (mkE TypeString (Keyspace.VString (str "7")) 100 0 0)) as Ea by (vm_compute; reflexivity).
      rewrite Ea in HL. destruct HL as (e' & He & _ & Hv & Hx). exists file, ks', e'. split; [exact Hs|]. split; [exact Hl|]. split; [exact He|].
      cbn [Keyspace.Value_ Keyspace.ExpiresAt same_value] in Hv, Hx. split; [|exact Hx]. destruct (Keyspace.Value_ e'); try contradiction. by rewrite Hv.
Defined.

(** ** Deviations *)

(** Of a stream only the entries are saved: its consumer groups are gone after a
    restart, and when its last entry was deleted, so is the identifier that new
    ones must exceed. *)
Definition grouped_stream : Stream :=
  mkStream [Stream.mkEntry (str "1-0") ∅ []] (mkID 5 0) {[str "g" := mkGroup (str "g") (str "5-0") ∅ ∅]} [] ∅ ∅.

Theorem snapshot_drops_groups :
  match dump_value (VectorIndex := unit) no_vectors (mkE TypeStream (Keyspace.VStream grouped_stream) 0 0 0) with
  | Ok (Some (t, v)) =>
      match restore_value in_order (fun _ => tt) (fun _ _ => 0) 0 t v with
      | Some (_, Ok (Keyspace.VStream s)) => groups s = ∅ /\ lastID s = mkID 1 0
      | _ => False
      end
  | _ => False
  end.
Proof. vm_compute. split; reflexivity. Qed.
