(* ===== verification/Session.v ===== *)
(** * Clients of the engine (internal/engine/engine.go)

    Sessions, authentication, the guards of [ExecuteCommandWithSession] (access
    control, read-only replica, cluster routing), transactions with MULTI, EXEC
    and WATCH, the memory limit, and what reaches the log and the replicas.

    A session is an object shared by the table of the engine and the connection
    that was bound to it: sessions live in a store and both hold an index of it.
    A map that is nil and an empty one behave alike, [WatchedKeys] is a set.
    [None] is a command of a part of the switch outside this model; [env] holds
    what the environment decides: clocks, random draws, iteration orders and the
    readings of the memory statistics. *)

From S2P Require Import Prelude Resp SkipList Keyspace Commands CommandLaws Acl Crc Node Cluster Aof.

Record ClientSession := mkSession {
  Authenticated : bool;
  SessionUser : bytes;
  InMulti : bool;
  TxQueue : list (list bytes);
  WatchedKeys : gset bytes;
  TxAborted : bool
}.

Record Replication := mkReplication { ReadOnly : bool; broadcast : list (list bytes) }.
Record ClusterMode := mkClusterMode { ClusterEnabled : bool; manager : ClusterManager }.

Record env := mkEnv {
  clk : clock;
  rand : nat -> nat -> Z;
  user_order : list bytes;
  Alloc : nat -> Z;
  evict_order : nat -> nat -> list bytes
}.

Definition int32 (z : Z) : Z := (z + 2 ^ 31) mod 2 ^ 32 - 2 ^ 31.

(** ** Commands and their keys *)

Definition keyless_commands : list bytes :=
  str <$> ["AUTH"; "PING"; "ECHO"; "QUIT"; "COMMAND"; "CLIENT"; "SELECT"; "INFO"; "DBSIZE";
    "TIME"; "SLOWLOG"; "MULTI"; "EXEC"; "DISCARD"; "WATCH"; "UNWATCH"; "BGREWRITEAOF"; "ACL";
    "FLUSHDB"; "FLUSHALL"; "CONFIG"; "SHUTDOWN"; "PUBSUB"; "SUBSCRIBE"; "UNSUBSCRIBE"; "PSUBSCRIBE"; "PUNSUBSCRIBE";
    "SAVE"; "BGSAVE"; "LASTSAVE"; "CLUSTER"; "REPLICAOF"; "SLAVEOF"; "REPLCONF"; "ROLE"; "SCRIPT"; "WASM"]%string.

(** [for i := 0; i < len(args); i += 2 { keys = append(keys, args[i]) }]. *)
Fixpoint every_other (args : list bytes) : list bytes :=
  match args with
  | k :: _ :: args' => k :: every_other args'
  | [k] => [k]
  | [] => []
  end.

(** The keys of EVAL and EVALSHA: [args[2 : 2+numKeys]], after a test in which
    [2+numKeys] can overflow. *)
Definition script_keys (args : list bytes) : res fault (list bytes) :=
  match args with
  | _ :: n :: rest =>
      match ParseInt n with
      | Err _ => Ok []
      | Ok numKeys =>
          let stop := int64 (2 + numKeys) in
          if (numKeys <=? 0) || (Z.of_nat (length args) <? stop) then Ok []
          else if stop <? 2 then Err (Fault PanicBounds)
          else Ok (take (Z.to_nat numKeys) rest)
      end
  | _ => Ok []
  end.

Definition extractCommandKeys (cmd : bytes) (args : list bytes) : res fault (list bytes) :=
  match args with
  | [] => Ok []
  | first :: _ =>
      if decide (cmd ∈ keyless_commands) then Ok []
      else if decide (cmd = str "EVAL" \/ cmd = str "EVALSHA") then script_keys args
      else if decide (cmd = str "MGET" \/ cmd = str "DEL" \/ cmd = str "EXISTS") then Ok args
      else if decide (cmd = str "MSET") then Ok (every_other args)
      else Ok [first]
  end.

Definition write_commands : list bytes :=
  str <$> ["SET"; "MSET"; "DEL"; "EXPIRE"; "PEXPIREAT"; "EXPIREAT"; "PERSIST";
    "INCR"; "INCRBY"; "DECR"; "DECRBY"; "APPEND";
    "HSET"; "HMSET"; "HDEL"; "HINCRBY";
    "LPUSH"; "RPUSH"; "LPOP"; "RPOP"; "LSET"; "LTRIM";
    "SADD"; "SREM"; "SPOP";
    "ZADD"; "ZREM"; "ZINCRBY"; "ZREMRANGEBYSCORE";
    "VADD"; "VDEL"; "FLUSHDB"; "FLUSHALL"; "XADD"; "XDEL"; "XTRIM"; "XGROUP"; "XACK"]%string.

Definition isWriteCommand (cmd : bytes) : bool := bool_decide (cmd ∈ write_commands).

(** The cases of the switch that are outside this model. *)
Definition other_cases : list bytes :=
  str <$> ["CONFIG"; "EVAL"; "EVALSHA"; "SCRIPT"; "WASM"; "REPLICAOF"; "SLAVEOF"; "ROLE"; "CLUSTER";
    "SAVE"; "BGSAVE"; "LASTSAVE"; "INFO"; "TIME"; "SLOWLOG"; "KEYS";
    "XADD"; "XRANGE"; "XREVRANGE"; "XLEN"; "XDEL"; "XTRIM"; "XREAD"; "XGROUP"; "XREADGROUP"; "XACK"; "XPENDING"; "XINFO";
    "VADD"; "VDEL"; "VSEARCH"; "VSIM"; "VINFO"; "PUBLISH"]%string.

Section Session.
Context {VectorIndex : Type}.
Context (ParseFloat : bytes -> option Z) (FormatFloat : Z -> bytes).

Abbreviation Keyspace := (@Keyspace.Keyspace SkipList.SkipList VectorIndex).
Abbreviation answer := (Resp.Value * bool)%type.

Record Engine := mkEng {
  ks : Keyspace;
  ACL : option ACLManager;
  Password : bytes;
  sessions : list ClientSession;
  clientSessions : gmap bytes nat;
  watchedCount : Z;
  AOF_ : option AOF;
  Replication_ : option Replication;
  Cluster_ : option ClusterMode;
  MaxMemory : Z;
  EvictionPolicy : bytes;
  memCheckCounter : Z
}.

(** A command of the model that ends or faults. *)
Abbreviation M A := (option (res fault A)).
Definition ret {A} (a : A) : M A := Some (Ok a).
Definition andThen {A B} (m : M A) (f : A -> M B) : M B :=
  match m with Some (Ok a) => f a | Some (Err x) => Some (Err x) | None => None end.

Definition set_ks (k : Keyspace) (e : Engine) : Engine :=
  mkEng k (ACL e) (Password e) (sessions e) (clientSessions e) (watchedCount e) (AOF_ e) (Replication_ e) (Cluster_ e)
    (MaxMemory e) (EvictionPolicy e) (memCheckCounter e).
Definition set_acl (a : option ACLManager) (e : Engine) : Engine :=
  mkEng (ks e) a (Password e) (sessions e) (clientSessions e) (watchedCount e) (AOF_ e) (Replication_ e) (Cluster_ e)
    (MaxMemory e) (EvictionPolicy e) (memCheckCounter e).
Definition set_sessions (ss : list ClientSession) (t : gmap bytes nat) (w : Z) (e : Engine) : Engine :=
  mkEng (ks e) (ACL e) (Password e) ss t w (AOF_ e) (Replication_ e) (Cluster_ e)
    (MaxMemory e) (EvictionPolicy e) (memCheckCounter e).
Definition set_logs (a : option AOF) (r : option Replication) (e : Engine) : Engine :=
  mkEng (ks e) (ACL e) (Password e) (sessions e) (clientSessions e) (watchedCount e) a r (Cluster_ e)
    (MaxMemory e) (EvictionPolicy e) (memCheckCounter e).
Definition set_counter (z : Z) (e : Engine) : Engine :=
  mkEng (ks e) (ACL e) (Password e) (sessions e) (clientSessions e) (watchedCount e) (AOF_ e) (Replication_ e) (Cluster_ e)
    (MaxMemory e) (EvictionPolicy e) z.

(** ** Sessions *)

(** The connections of the engine itself. *)
Definition internal (connID : bytes) : bool :=
  bool_decide (connID = str "replica_stream" \/ connID = str "aof_replay" \/ connID = []).

Definition nilSession : ClientSession := mkSession false [] false [] ∅ false.

(** [*p]. *)
Definition session_at (e : Engine) (p : nat) : ClientSession := default nilSession (sessions e !! p).

(** A change of the session [p] and [d] added to [watchedCount]. *)
Definition change (p : nat) (f : ClientSession -> ClientSession) (d : Z) (e : Engine) : Engine :=
  set_sessions (alter f p (sessions e)) (clientSessions e) (int32 (watchedCount e + d)) e.

Definition GetClientSession (connID : bytes) (e : Engine) : Engine * nat :=
  match clientSessions e !! connID with
  | Some p => (e, p)
  | None =>
      let p := length (sessions e) in
      let s := mkSession (bool_decide (Password e = []) || internal connID) default_name false [] ∅ false in
      (set_sessions (sessions e ++ [s]) (<[connID := p]> (clientSessions e)) (watchedCount e) e, p)
  end.

(** [len(s.WatchedKeys) > 0]. *)
Definition watching (s : ClientSession) : bool := negb (bool_decide (WatchedKeys s = ∅)).

Definition ClearClientSession (connID : bytes) (e : Engine) : Engine :=
  match clientSessions e !! connID with
  | Some p =>
      let d := if watching (session_at e p) then -1 else 0 in
      set_sessions (sessions e) (delete connID (clientSessions e)) (int32 (watchedCount e + d)) e
  | None => e
  end.

Definition logged_in (user : bytes) (s : ClientSession) : ClientSession :=
  mkSession true user (InMulti s) (TxQueue s) (WatchedKeys s) (TxAborted s).
Definition in_multi (b : bool) (q : list (list bytes)) (s : ClientSession) : ClientSession :=
  mkSession (Authenticated s) (SessionUser s) b q (WatchedKeys s) (TxAborted s).
Definition watch (w : gset bytes) (aborted : bool) (s : ClientSession) : ClientSession :=
  mkSession (Authenticated s) (SessionUser s) (InMulti s) (TxQueue s) w aborted.

(** [if len(session.WatchedKeys) > 0 { watchedCount.Add(-1); session.WatchedKeys
    = nil }; session.TxAborted = false]. *)
Definition unwatch (p : nat) (e : Engine) : Engine :=
  change p (watch ∅ false) (if watching (session_at e p) then -1 else 0) e.

Definition touch_one (key : bytes) (ss : list ClientSession) (p : nat) : list ClientSession :=
  alter (fun s => if decide (key ∈ WatchedKeys s) then watch (WatchedKeys s) true s else s) p ss.

Definition touchWatchedKey (key : bytes) (e : Engine) : Engine :=
  if watchedCount e <=? 0 then e
  else set_sessions (foldl (touch_one key) (sessions e) (snd <$> map_to_list (clientSessions e))) (clientSessions e) (watchedCount e) e.

Definition SetMasterPassword (pass : bytes) (e : Engine) : Engine :=
  let acl := m ← ACL e; Some (match GetUser m default_name with Some def => SetUser m (with_password pass def) | None => m end) in
  mkEng (ks e) acl pass (sessions e) (clientSessions e) (watchedCount e) (AOF_ e) (Replication_ e) (Cluster_ e)
    (MaxMemory e) (EvictionPolicy e) (memCheckCounter e).

(** ** The commands on sessions *)

Definition invalid_password : answer := reads (Error (str "ERR invalid password")).

(** AUTH of "default" first sets the password of that user to the one of the
    engine. *)
Definition sync_default (username : bytes) (e : Engine) : Engine :=
  match ACL e with
  | Some m =>
      if decide (username = default_name) then
        match GetUser m default_name with
        | Some def =>
            if decide (UserPassword def = Password e) then e
            else set_acl (Some (SetUser m (with_password (Password e) def))) e
        | None => e
        end
      else e
  | None => e
  end.

Definition cmd_auth (connID : bytes) (args : list bytes) (e : Engine) : Engine * answer :=
  match args with
  | [] => (e, wrong_args (str "auth"))
  | a :: args' =>
      let '(username, password) := match args' with [] => (default_name, a) | b :: _ => (a, b) end in
      let e := sync_default username e in
      let login user :=
        let '(e, p) := GetClientSession connID e in (change p (logged_in user) 0 e, reads OK) in
      match ACL e with
      | Some m =>
          match Authenticate m username password with
          | Some user => login (Acl.Username user)
          | None => (e, invalid_password)
          end
      | None => if decide (Password e = [] \/ password = Password e) then login username else (e, invalid_password)
      end
  end.

Definition cmd_acl (order : list bytes) (connID : bytes) (args : list bytes) (e : Engine) : Engine * answer :=
  match args, ACL e with
  | [], _ | _, None => (e, snd (handleACLCommand order [] args (ACL e)))
  | _, Some _ =>
      let '(e, p) := GetClientSession connID e in
      let '(acl, r) := handleACLCommand order (SessionUser (session_at e p)) args (ACL e) in
      (set_acl acl e, r)
  end.

Definition cmd_multi (connID : bytes) (e : Engine) : Engine * answer :=
  let '(e, p) := GetClientSession connID e in
  (change p (in_multi true []) 0 e, reads OK).

Definition cmd_watch (connID : bytes) (args : list bytes) (e : Engine) : Engine * answer :=
  let '(e, p) := GetClientSession connID e in
  let s := session_at e p in
  if InMulti s then (e, reads (Error (str "ERR WATCH inside MULTI is not allowed")))
  else match args with
       | [] => (e, wrong_args (str "watch"))
       | _ =>
           let d := if watching s then 0 else 1 in
           (change p (fun s => watch (WatchedKeys s ∪ list_to_set args) (TxAborted s) s) d e, reads OK)
       end.

Definition cmd_unwatch (connID : bytes) (e : Engine) : Engine * answer :=
  let '(e, p) := GetClientSession connID e in
  (unwatch p e, reads OK).

(** ** [dispatch] *)

Definition session_cases (v : env) (connID : bytes) (args : list bytes) : list (bytes * (Engine -> Engine * answer)) :=
  [(str "AUTH", cmd_auth connID args);
   (str "ACL", cmd_acl (user_order v) connID args);
   (str "MULTI", cmd_multi connID);
   (str "EXEC", fun e => (e, reads (Error (str "ERR EXEC without MULTI"))));
   (str "DISCARD", fun e => (e, reads (Error (str "ERR DISCARD without MULTI"))));
   (str "WATCH", cmd_watch connID args);
   (str "UNWATCH", cmd_unwatch connID);
   (str "BGREWRITEAOF", fun e => (e, reads (SimpleString (str "Background append only file rewriting started"))));
   (str "COMMAND", fun e => (e, reads (Array [])));
   (str "CLIENT", fun e => (e, reads OK));
   (str "SELECT", fun e => (e, reads OK));
   (str "REPLCONF", fun e => (e, reads OK))].

Definition dispatch (v : env) (connID cmd : bytes) (args : list bytes) (e : Engine) : M (Engine * answer) :=
  match list_find (fun p => p.1 = cmd) (session_cases v connID args) with
  | Some (_, p) => ret (p.2 e)
  | None =>
      match Commands.dispatch ParseFloat FormatFloat (rand v) (clk v) cmd args (ks e) with
      | Some o => Some ('(k, a) ← o; Ok (set_ks k e, a))
      | None =>
          if decide (cmd ∈ other_cases) then None
          else ret (e, reads (Error (str "ERR unknown command '" ++ cmd ++ str "'")))
      end
  end.

(** ** The guards: [Some] is the reply that refuses the command *)

Definition auth_guard (connID cmdName : bytes) (s : ClientSession) (e : Engine) : option Resp.Value :=
  if decide (Password e <> [] /\ Authenticated s = false /\ internal connID = false /\
             cmdName <> str "AUTH" /\ cmdName <> str "QUIT")
  then Some (Error (str "NOAUTH Authentication required.")) else None.

Definition acl_guard (connID cmdName : bytes) (args : list bytes) (s : ClientSession) (e : Engine)
    : res fault (option Resp.Value) :=
  match ACL e with
  | Some m =>
      if decide (Authenticated s = true /\ cmdName <> str "AUTH" /\ cmdName <> str "QUIT" /\ internal connID = false) then
        keys ← extractCommandKeys cmdName args;
        Ok (match CanExecute m (SessionUser s) cmdName keys with
            | Err reason => Some (Error (str "NOPERM " ++ reason))
            | Ok _ => None
            end)
      else Ok None
  | None => Ok None
  end.

Definition replica_guard (connID cmdName : bytes) (e : Engine) : option Resp.Value :=
  match Replication_ e with
  | Some r =>
      if ReadOnly r && negb (bool_decide (connID = str "replica_stream" \/ connID = str "aof_replay")) && isWriteCommand cmdName
      then Some (Error (str "READONLY You can't write against a read only replica.")) else None
  | None => None
  end.

(** The routing of a command with the keys [keys]. *)
Definition route (cm : ClusterManager) (keys : list bytes) : option Resp.Value :=
  match keys with
  | [] => None
  | key :: keys =>
      let firstSlot := KeySlot key in
      if decide (List.Exists (fun k => KeySlot k <> firstSlot) keys) then
        Some (Error (str "CROSSSLOT Keys in request don't hash to the same slot"))
      else
        match GetSlotOwner cm (Z.to_nat firstSlot) with
        | None => Some (Error (str "CLUSTERDOWN Hash slot " ++ FormatInt firstSlot ++ str " not served"))
        | Some l =>
            let owner := deref cm l in
            if decide (ID owner = ID (self cm)) then None
            else Some (Error (str "MOVED " ++ FormatInt firstSlot ++ str " " ++ IP owner ++ str ":" ++ FormatInt (Port owner)))
        end
  end.

Definition cluster_guard (connID cmdName : bytes) (args : list bytes) (e : Engine) : res fault (option Resp.Value) :=
  match Cluster_ e with
  | Some c =>
      if ClusterEnabled c && negb (internal connID) then
        keys ← extractCommandKeys cmdName args;
        Ok (route (manager c) keys)
      else Ok None
  | None => Ok None
  end.

Definition guards (connID cmdName : bytes) (args : list bytes) (s : ClientSession) (e : Engine)
    : res fault (option Resp.Value) :=
  match auth_guard connID cmdName s e with
  | Some r => Ok (Some r)
  | None =>
      noperm ← acl_guard connID cmdName args s e;
      match noperm with
      | Some r => Ok (Some r)
      | None =>
          match replica_guard connID cmdName e with
          | Some r => Ok (Some r)
          | None => cluster_guard connID cmdName args e
          end
      end
  end.

(** ** After a command *)

Definition touch_keys (cmdName : bytes) (args : list bytes) (e : Engine) : res fault Engine :=
  if 0 <? watchedCount e then
    keys ← extractCommandKeys cmdName args;
    Ok (foldl (fun e k => touchWatchedKey k e) e keys)
  else Ok e.

(** The log and the replicas. *)
Definition log_write (connID : bytes) (argv : list bytes) (e : Engine) : Engine :=
  let aof := WriteCommand argv <$> AOF_ e in
  let rep := if decide (connID = str "replica_stream") then Replication_ e
             else (fun r => mkReplication (ReadOnly r) (broadcast r ++ [argv])) <$> Replication_ e in
  set_logs aof rep e.

(** [for iter := 0; iter < 5 && m.Alloc > e.MaxMemory; iter++]: [i] counts the
    readings of the statistics. *)
Fixpoint evict_rounds (v : env) (max : Z) (n i : nat) (m : Z) (k : Keyspace) : Keyspace * Z :=
  match n with
  | O => (k, m)
  | S n' =>
      if m <=? max then (k, m)
      else
        let '(k, evicted) := EvictLRU k (evict_order v i) 50 in
        if evicted =? 0 then (k, m) else evict_rounds v max n' (S i) (Alloc v (S i)) k
  end.

(** The sampled memory check; [true]: out of memory. *)
Definition check_memory (v : env) (e : Engine) : Engine * bool :=
  if MaxMemory e <=? 0 then (e, false)
  else
    let e := set_counter (uint64 (memCheckCounter e + 1)) e in
    if negb (Z.land (memCheckCounter e) 2047 =? 0) then (e, false)
    else
      let m := Alloc v 0 in
      if m <=? MaxMemory e then (e, false)
      else
        let '(k, m) := if decide (EvictionPolicy e = str "allkeys-lru")
                       then evict_rounds v (MaxMemory e) 5 0 m (ks e) else (ks e, m) in
        (set_ks k e, MaxMemory e <? m).

(** ** Transactions *)

(** The commands of a transaction in order.  The loop skips an empty command, whose
    reply stays the zero [resp.Value] (no front end queues one). *)
Fixpoint exec_queue (vs : nat -> env) (i : nat) (connID : bytes) (queue : list (list bytes)) (e : Engine)
    : M (Engine * list Resp.Value) :=
  match queue with
  | [] => ret (e, [])
  | [] :: queue' =>
      andThen (exec_queue vs (S i) connID queue' e) (fun '(e, rs) => ret (e, MkValue x00 [] 0 None [] false false :: rs))
  | (name :: args) :: queue' =>
      let cName := ToUpper name in
      andThen (dispatch (vs i) connID cName args e) (fun '(e, (val, isWrite)) =>
      andThen (Some (if (isWrite : bool) then touch_keys cName args (log_write connID (name :: args) e) else Ok e)) (fun e =>
      andThen (exec_queue vs (S i) connID queue' e) (fun '(e, rs) =>
      ret (e, val :: rs))))
  end.

Definition executeTransaction (vs : nat -> env) (connID : bytes) (p : nat) (e : Engine) : M (Engine * Resp.Value) :=
  let s := session_at e p in
  let queue := TxQueue s in
  let aborted := TxAborted s in
  let e := unwatch p (change p (in_multi false []) 0 e) in
  if aborted then ret (e, Null)
  else andThen (exec_queue vs 0 connID queue e) (fun '(e, rs) => ret (e, Array rs)).

(** ** [ExecuteCommandWithSession] *)

(** The command of a session that is not in a transaction. *)
Definition run_command (v : env) (connID cmdName : bytes) (argv : list bytes) (e : Engine) : M (Engine * Resp.Value) :=
  andThen (dispatch v connID cmdName (tail argv) e) (fun '(e, (val, isWrite)) =>
  if (isWrite : bool) then
    andThen (Some (touch_keys cmdName (tail argv) e)) (fun e =>
    let '(e, oom) := check_memory v e in
    if (oom : bool) then ret (e, Error (str "OOM command not allowed when used memory > 'maxmemory'"))
    else ret (log_write connID argv e, val))
  else ret (e, val)).

(** Inside MULTI. *)
Definition queue_command (vs : nat -> env) (connID cmdName : bytes) (argv : list bytes) (p : nat) (e : Engine)
    : M (Engine * Resp.Value) :=
  if decide (cmdName = str "EXEC") then executeTransaction vs connID p e
  else if decide (cmdName = str "DISCARD") then ret (unwatch p (change p (in_multi false []) 0 e), OK)
  else if decide (cmdName = str "MULTI") then ret (e, Error (str "ERR MULTI calls can not be nested"))
  else ret (change p (fun s => in_multi (InMulti s) (TxQueue s ++ [argv]) s) 0 e, SimpleString (str "QUEUED")).

Definition ExecuteCommandWithSession (vs : nat -> env) (session : option nat) (connID : bytes) (argv : list bytes) (e : Engine)
    : M (Engine * Resp.Value) :=
  match argv with
  | [] => ret (e, Error (str "ERR empty command"))
  | name :: args =>
      let cmdName := ToUpperFast name in
      let '(e, p) := match session with Some p => (e, p) | None => GetClientSession connID e end in
      let s := session_at e p in
      andThen (Some (guards connID cmdName args s e)) (fun refused =>
      match refused with
      | Some reply => ret (e, reply)
      | None =>
          if InMulti s then queue_command vs connID cmdName argv p e
          else run_command (vs 0%nat) connID cmdName argv e
      end)
  end.

Definition ExecuteCommand (vs : nat -> env) (connID : bytes) (argv : list bytes) (e : Engine) : M (Engine * Resp.Value) :=
  let '(e, p) := GetClientSession connID e in
  ExecuteCommandWithSession vs (Some p) connID argv e.

End Session.
