(* ===== verification/ClusterCommands.v ===== *)
(** * Listing keys, and the CLUSTER command (internal/engine/keyspace.go, engine.go)

    [Keys], [ListKeyMetas] and [ListStreams] walk over all shards; CLUSTER gives
    access to the cluster manager, and to the keys of a slot.  The order of a Go map
    range is the argument [iter]; the number of vectors in a vector index, which has
    no model, is an argument too. *)

From S2P Require Import Prelude Resp SetDs HashDs ListDs Stream Glob SkipList Keyspace Commands Crc Snapshot Bus Node Cluster Topology Acl Session.

Section Listing.
Context {VectorIndex : Type}.
Context (iter : forall V, gmap bytes V -> list (bytes * V)) (vector_count : VectorIndex -> Z).

Abbreviation Entry := (@Keyspace.Entry SkipList.SkipList VectorIndex).
Abbreviation Keyspace := (@Keyspace.Keyspace SkipList.SkipList VectorIndex).
Abbreviation answer := (Resp.Value * bool)%type.
Implicit Types (ks : Keyspace) (e : Entry).

(** ** Listings *)

Definition match_all (pattern : bytes) : bool := bool_decide (pattern = str "*" \/ pattern = []).

(** A key against the pattern of KEYS: [filepath.Match], then a comparison of
    prefixes when the pattern has a star. *)
Definition key_matches (pattern k : bytes) : bool :=
  match_all pattern ||
  (bool_decide (Match pattern k = Some true) ||
   (bool_decide ("*"%byte ∈ pattern) && HasPrefix k (TrimSuffix pattern (str "*")))).

Definition Keys (now : Z) (pattern : bytes) (ks : Keyspace) : list bytes :=
  (filter (fun kv => Keyspace.IsExpired kv.2 now = false /\ key_matches pattern kv.1 = true) (all_entries iter ks)).*1.

Record KeyMeta := mkMeta { m_Key : bytes; m_Type : EntryType; m_TTL : Z; m_Size : Z; m_UpdatedAt : Z }.

Definition entry_size (e : Entry) : Z :=
  match Keyspace.Type_ e, Keyspace.Value_ e with
  | TypeString, Keyspace.VString s => Z.of_nat (length s)
  | TypeHash, Keyspace.VHash h => HashDs.Len h
  | TypeList, Keyspace.VList l => ListDs.Len l
  | TypeSet, Keyspace.VSet s => SetDs.Card s
  | TypeZSet, Keyspace.VZSet z => SkipList.Len z
  | TypeVector, Keyspace.VVector v => vector_count v
  | TypeStream, Keyspace.VStream s => Stream.Len s
  | _, _ => 1
  end.

(** The description of an entry, unless it is left out. *)
Definition key_meta (now : Z) (pattern : bytes) (kv : bytes * Entry) : option KeyMeta :=
  let '(k, e) := kv in
  if Keyspace.IsExpired e now then None
  else if negb (match_all pattern) && negb (bool_decide (Match pattern k = Some true)) then None
  else
    let ttl := if 0 <? Keyspace.ExpiresAt e then Z.quot (int64 (Keyspace.ExpiresAt e - now)) 1000 else -1 in
    if (0 <? Keyspace.ExpiresAt e) && (ttl <? 0) then None
    else Some (mkMeta k (Keyspace.Type_ e) ttl (entry_size e) (Keyspace.UpdatedAt e)).

(** The loop returns as soon as it has [limit] descriptions. *)
Fixpoint metas_loop (now : Z) (pattern : bytes) (limit : Z) (kvs : list (bytes * Entry)) (metas : list KeyMeta) : list KeyMeta :=
  match kvs with
  | [] => metas
  | kv :: kvs' =>
      match key_meta now pattern kv with
      | None => metas_loop now pattern limit kvs' metas
      | Some m =>
          let metas := metas ++ [m] in
          if (0 <? limit) && (limit <=? Z.of_nat (length metas)) then metas else metas_loop now pattern limit kvs' metas
      end
  end.

Definition ListKeyMetas (now : Z) (pattern : bytes) (limit : Z) (ks : Keyspace) : list KeyMeta :=
  metas_loop now pattern limit (all_entries iter ks) [].

Record StreamMeta := mkStreamMeta { sm_Key : bytes; sm_Length : Z; sm_First : bytes; sm_Last : bytes; sm_Groups : Z; sm_UpdatedAt : Z }.

Definition ListStreams (now : Z) (ks : Keyspace) : list StreamMeta :=
  omap (fun kv : bytes * Entry =>
    let '(k, e) := kv in
    if Keyspace.IsExpired e now then None
    else
      match Keyspace.Type_ e, Keyspace.Value_ e with
      | TypeStream, Keyspace.VStream s =>
          Some (mkStreamMeta k (Stream.Len s) (FirstID s) (LastID s) (Z.of_nat (length (GetGroupsInfo s))) (Keyspace.UpdatedAt e))
      | _, _ => None
      end) (all_entries iter ks).

Definition cmd_keys (now : Z) (args : list bytes) (ks : Keyspace) : answer :=
  let pattern := match args with p :: _ => p | [] => str "*" end in
  Commands.reads (bulks (Keys now pattern ks)).

(** ** CLUSTER *)

Definition refuse (text : bytes) : answer := Commands.reads (Error text).
Definition disabled : answer := refuse (str "ERR This instance has cluster support disabled").
Definition cluster_args (sub : bytes) : answer := refuse (str "ERR wrong number of arguments for 'cluster " ++ sub ++ str "' command").
Definition bad_slot (arg : bytes) : answer := refuse (str "ERR Invalid or out of range slot '" ++ arg ++ str "'").

(** [err.Error()]; SETSLOT has its own words for an unknown node. *)
Definition cluster_error_text (setslot : bool) (e : cluster_error) : bytes :=
  match e with
  | ErrSlotRange s => str "ERR slot out of range: " ++ FormatInt (Z.of_nat s)
  | ErrSlotBusy s id => str "ERR slot " ++ FormatInt (Z.of_nat s) ++ str " is already busy by node " ++ id
  | ErrNotOwned s => str "ERR slot " ++ FormatInt (Z.of_nat s) ++ str " is not owned by this node"
  | ErrUnknownNode id => (if setslot then str "ERR I don't know about node " else str "ERR unknown node ") ++ id
  | ErrRemoveSelf => str "ERR cannot remove self node from cluster"
  | ErrReplicateSelf => str "ERR cannot replicate self"
  | ErrNotMaster => str "ERR target node is not a master"
  | ErrSetSlotAction => str "ERR Invalid CLUSTER SETSLOT action or number of arguments"
  end.

Definition done_or (setslot : bool) (r : ClusterManager * option cluster_error) : ClusterManager * answer :=
  (r.1, match r.2 with None => Commands.reads OK | Some e => refuse (cluster_error_text setslot e) end).

(** A slot argument. *)
Definition parse_slot (arg : bytes) : option nat :=
  match ParseInt arg with
  | Ok s => if (s <? 0) || (16384 <=? s) then None else Some (Z.to_nat s)
  | Err _ => None
  end.

Fixpoint parse_slots (args : list bytes) : res bytes (list nat) :=
  match args with
  | [] => Ok []
  | a :: args' => match parse_slot a with None => Err a | Some s => slots ← parse_slots args'; Ok (s :: slots) end
  end.

Definition slot_list (args : list bytes) (name : bytes) (op : list nat -> ClusterManager * option cluster_error) (cm : ClusterManager)
    : ClusterManager * answer :=
  match args with
  | [] => (cm, cluster_args name)
  | _ => match parse_slots args with Err a => (cm, bad_slot a) | Ok slots => done_or false (op slots) end
  end.

Definition in_slot (slot : nat) (k : bytes) : Prop := KeySlot k = Z.of_nat slot.
#[global] Instance in_slot_dec slot k : Decision (in_slot slot k).
Proof. unfold in_slot. apply _. Defined.

Definition cmd_countkeys (now : Z) (args : list bytes) (ks : Keyspace) : answer :=
  match args with
  | arg :: _ =>
      match parse_slot arg with
      | None => bad_slot arg
      | Some slot => Commands.reads (Integer (Z.of_nat (length (filter (in_slot slot) (Keys now (str "*") ks)))))
      end
  | [] => cluster_args (str "countkeysinslot")
  end.

(** The loop over the keys stops after a key when it has [max] of them. *)
Fixpoint slot_keys_loop (slot : nat) (max : Z) (keys : list bytes) (matched : list bytes) : list bytes :=
  match keys with
  | [] => matched
  | k :: keys' =>
      if decide (in_slot slot k) then
        let matched := matched ++ [k] in
        if max <=? Z.of_nat (length matched) then matched else slot_keys_loop slot max keys' matched
      else slot_keys_loop slot max keys' matched
  end.

Definition cmd_getkeys (now : Z) (args : list bytes) (ks : Keyspace) : answer :=
  match args with
  | arg :: n :: _ =>
      match parse_slot arg with
      | None => bad_slot arg
      | Some slot =>
          match ParseInt n with
          | Ok maxCount =>
              if maxCount <? 0 then not_integer
              else Commands.reads (bulks (slot_keys_loop slot maxCount (Keys now (str "*") ks) []))
          | Err _ => not_integer
          end
      end
  | _ => cluster_args (str "getkeysinslot")
  end.

(** The clock, the identifier drawn, the range over [Nodes], what a peer at an
    address answered, and the error of writing the configuration file, if any. *)
Record cluster_env := mkCE {
  ce_now : Z; ce_gen : bytes; ce_order : ClusterManager -> list bytes; ce_peer : bytes -> Z -> res fault bytes; ce_save : option bytes
}.

Definition cluster_meet (v : cluster_env) (args : list bytes) (cm : ClusterManager) : res fault (ClusterManager * answer) :=
  match args with
  | ip :: p :: opts =>
      match ParseInt p with
      | Err _ => Ok (cm, refuse (str "ERR invalid port"))
      | Ok port =>
          let busPort := match opts with b :: _ => match ParseInt b with Ok bp => bp | Err _ => int64 (port + 10000) end | [] => int64 (port + 10000) end in
          text ← ce_peer v ip port;
          Ok ((Meet (ce_now v) (ce_gen v) (ce_order v) ip port busPort text cm).1, Commands.reads OK)
      end
  | _ => Ok (cm, cluster_args (str "meet"))
  end.

Definition cluster_setslot (args : list bytes) (cm : ClusterManager) : ClusterManager * answer :=
  match args with
  | arg :: sub :: rest =>
      match parse_slot arg with
      | None => (cm, bad_slot arg)
      | Some slot => done_or true (SetSlot cm slot (ToUpper sub) (match rest with id :: _ => id | [] => [] end))
      end
  | _ => (cm, cluster_args (str "setslot"))
  end.

(** The subcommands that need a cluster manager. *)
Definition cluster_cases (v : cluster_env) (args : list bytes) : list (bytes * (ClusterManager -> res fault (ClusterManager * answer))) :=
  [(str "NODES", fun cm => Ok (cm, Commands.reads (BulkString (FormatNodes cm))));
   (str "SLOTS", fun cm => Ok (cm, Commands.reads (FormatSlots cm (ce_order v cm))));
   (str "INFO", fun cm => Ok (cm, Commands.reads (BulkString (FormatInfo cm))));
   (str "MYID", fun cm => Ok (cm, Commands.reads (BulkString (Node.ID (self cm)))));
   (str "MEET", cluster_meet v args);
   (str "ADDSLOTS", fun cm => Ok (slot_list args (str "addslots") (AddSlots cm) cm));
   (str "DELSLOTS", fun cm => Ok (slot_list args (str "delslots") (DelSlots cm) cm));
   (str "SETSLOT", fun cm => Ok (cluster_setslot args cm));
   (str "REPLICATE", fun cm => Ok (match args with id :: _ => done_or false (Replicate cm id) | [] => (cm, cluster_args (str "replicate")) end));
   (str "FORGET", fun cm => Ok (match args with id :: _ => done_or false (RemoveNode cm id) | [] => (cm, cluster_args (str "forget")) end));
   (str "SAVECONFIG", fun cm => Ok (match ce_save v with None => (saveConfigLocked cm, Commands.reads OK) | Some err => (cm, refuse (str "ERR " ++ err)) end));
   (str "RESET", fun cm => Ok (cluster_reset cm, Commands.reads OK))].

Definition handleClusterCommand (v : cluster_env) (args : list bytes) (cluster : option ClusterManager) (ks : Keyspace)
    : res fault (option ClusterManager * answer) :=
  match args with
  | [] => Ok (cluster, refuse (str "ERR wrong number of arguments for 'cluster' command"))
  | a :: args =>
      let sub := ToUpper a in
      if decide (sub = str "KEYSLOT") then
        Ok (cluster, match args with k :: _ => Commands.reads (Integer (KeySlot k)) | [] => cluster_args (str "keyslot") end)
      else if decide (sub = str "COUNTKEYSINSLOT") then Ok (cluster, cmd_countkeys (ce_now v) args ks)
      else if decide (sub = str "GETKEYSINSLOT") then Ok (cluster, cmd_getkeys (ce_now v) args ks)
      else
        match list_find (fun p => p.1 = sub) (cluster_cases v args) with
        | Some (_, p) =>
            match cluster with
            | None => Ok (None, disabled)
            | Some cm => '(cm, r) ← p.2 cm; Ok (Some cm, r)
            end
        | None => Ok (cluster, refuse (str "ERR unknown subcommand '" ++ sub ++ str "'. Try CLUSTER HELP."))
        end
  end.

(** ** What the listings show *)

Context (iter_perm : forall V (m : gmap bytes V), iter V m ≡ₚ map_to_list m).

(** A key that has not expired. *)
Definition live (ks : Keyspace) (now : Z) (k : bytes) : Prop := exists e, look ks k = Some e /\ Keyspace.IsExpired e now = false.

Lemma Keys_spec now pattern ks : Keyspace.wf ks ->
  NoDup (Keys now pattern ks) /\ forall k, k ∈ Keys now pattern ks <-> live ks now k /\ key_matches pattern k = true.
Proof using iter_perm.
  intros Hwf. destruct (all_entries_spec iter iter_perm ks Hwf) as [Hin HN]. unfold Keys. split.
  - eapply sublist_NoDup; [exact HN|]. apply fmap_sublist, sublist_filter.
  - intros k. rewrite list_elem_of_fmap. split.
    + intros ([k' e] & -> & [[H1 H2] H3]%list_elem_of_filter). cbn [fst snd] in *. apply Hin in H3. split; [by exists e|done].
    + intros [(e & He & Hx) Hm]. exists (k, e). split; [done|]. apply list_elem_of_filter. split; [done|]. by apply Hin.
Qed.

Lemma slot_keys_prefix slot max keys : forall matched, exists l, slot_keys_loop slot max keys matched = matched ++ l /\ l `prefix_of` filter (in_slot slot) keys /\
  (l = filter (in_slot slot) keys \/ max <= Z.of_nat (length (matched ++ l))) /\ (l <> [] -> Z.of_nat (length (matched ++ l)) <= Z.max max (Z.of_nat (length matched) + 1)).
Proof using.
  induction keys as [|k keys IH]; intros matched; cbn [slot_keys_loop].
  { exists []. rewrite app_nil_r. split; [done|]. split; [done|]. split; [by left|done]. }
  rewrite filter_cons. destruct (decide (in_slot slot k)) as [Hk|Hk]; [|apply IH].
  destruct (Z.leb_spec max (Z.of_nat (length (matched ++ [k])))) as [Hm|Hm].
  - exists [k]. split; [done|]. split; [apply prefix_cons, prefix_nil|]. split; [by right|]. intros _. rewrite length_app in *. cbn [length] in *. lia.
  - destruct (IH (matched ++ [k])) as (l & -> & Hp & Hor & Hle). exists (k :: l). rewrite <- app_assoc in *. cbn [app] in *. split; [done|].
    split; [by apply prefix_cons|]. split; [destruct Hor as [->|Hor]; [by left|by right]|]. intros _. rewrite length_app in Hm. cbn [length] in Hm.
    destruct (decide (l = [])) as [->|Hl]; [rewrite length_app; cbn [length]; lia|]. specialize (Hle Hl). rewrite !length_app in *. cbn [length] in *. lia.
Qed.

(** The keys of a slot: COUNTKEYSINSLOT counts the live keys of the slot, and
    GETKEYSINSLOT returns distinct live keys of the slot, at most as many as asked
    for unless none was, and all of them when that is enough. *)
Theorem slot_keys_exact now slot arg n count ks : Keyspace.wf ks -> parse_slot arg = Some slot -> ParseInt n = Ok count -> 0 <= count ->
  exists keys all, cmd_getkeys now [arg; n] ks = Commands.reads (bulks keys) /\ cmd_countkeys now [arg] ks = Commands.reads (Integer (Z.of_nat (length all))) /\
    NoDup all /\ (forall k, k ∈ all <-> live ks now k /\ KeySlot k = Z.of_nat slot) /\
    keys `prefix_of` all /\ Z.of_nat (length keys) <= Z.max count 1 /\ (Z.of_nat (length all) <= count -> keys = all).
Proof using iter_perm.
  intros Hwf Hs Hn Hc. destruct (Keys_spec now (str "*") ks Hwf) as [HN Hin].
  destruct (slot_keys_prefix slot count (Keys now (str "*") ks) []) as (l & E & Hp & Hor & Hle). cbn [app length Z.of_nat] in *.
  exists l, (filter (in_slot slot) (Keys now (str "*") ks)). unfold cmd_getkeys, cmd_countkeys. rewrite Hs, Hn, (proj2 (Z.ltb_ge _ _)), E by done.
  split; [done|]. split; [done|]. split; [by apply NoDup_filter|]. split; [|split; [done|split]].
  - intros k. rewrite list_elem_of_filter, Hin. unfold in_slot. assert (key_matches (str "*") k = true) as -> by reflexivity. naive_solver.
  - destruct (decide (l = [])) as [->|Hl]; [cbn; lia|]. specialize (Hle Hl). lia.
  - intros Hlen. destruct Hor as [->|Hor]; [done|]. pose proof (prefix_length _ _ Hp) as H1. destruct Hp as [l' Hl']. rewrite Hl' in *. rewrite length_app in *.
    assert (l' = []) as -> by (apply length_zero_iff_nil; lia). by rewrite app_nil_r.
Qed.

(** ** What CLUSTER does to the manager *)

(** A refused command. *)
Definition refused (r : answer) : Prop := exists text, r.1 = Error text.

Definition inv (cm : ClusterManager) : Prop := Cluster.wf cm /\ in_bounds cm.

(** The states and answers a subcommand may give: an invariant of the slot map that
    is kept, and nothing changed by a refusal. *)
Definition sound (cm : ClusterManager) (o : ClusterManager * answer) : Prop :=
  (inv cm -> inv o.1) /\ (refused o.2 -> o.1 = cm).

Lemma sound_same cm r : sound cm (cm, r).
Proof using. done. Qed.

Lemma sound_reply cm cm' v : (inv cm -> inv cm') -> (forall t, v <> Error t) -> sound cm (cm', Commands.reads v).
Proof using. intros H1 H2. split; [done|]. intros [t Ht]. by destruct (H2 t). Qed.

Lemma sound_done cm setslot r : (inv cm -> inv r.1) -> (r.2 <> None -> r.1 = cm) -> sound cm (done_or setslot r).
Proof using.
  intros H1 H2. split; [done|]. destruct r as [cm' [e|]]; cbn in *; [intros _; by apply H2|]. by intros [t Ht].
Qed.

(** A refusal by the manager changes nothing. *)
Lemma refusals_keep cm :
  (forall slots, (AddSlots cm slots).2 <> None -> (AddSlots cm slots).1 = cm) /\
  (forall slots, (DelSlots cm slots).2 <> None -> (DelSlots cm slots).1 = cm) /\
  (forall slot sub id, (SetSlot cm slot sub id).2 <> None -> (SetSlot cm slot sub id).1 = cm) /\
  (forall id, (Replicate cm id).2 <> None -> (Replicate cm id).1 = cm) /\
  (forall id, (RemoveNode cm id).2 <> None -> (RemoveNode cm id).1 = cm).
Proof using.
  split; [|split; [|split; [|split]]].
  - intros slots. unfold AddSlots. destruct (check_add cm slots); [done|]. by intros [].
  - intros slots. unfold DelSlots. destruct (check_del cm slots); [done|]. by intros [].
  - intros slot sub id. unfold SetSlot. repeat case_match; first [done | by intros []].
  - intros id. unfold Replicate. repeat case_match; first [done | by intros []].
  - intros id. unfold RemoveNode. repeat case_match; first [done | by intros []].
Qed.

Lemma slot_list_sound name op cm args :
  (forall slots, (inv cm -> inv (op slots).1) /\ ((op slots).2 <> None -> (op slots).1 = cm)) -> sound cm (slot_list args name op cm).
Proof using.
  intros H. unfold slot_list. destruct args as [|a args]; [apply sound_same|].
  destruct (parse_slots (a :: args)) as [slots|bad]; [|apply sound_same]. destruct (H slots). by apply sound_done.
Qed.

Lemma one_arg_sound (name : bytes) op cm (args : list bytes) :
  (forall id, (inv cm -> inv (op id).1) /\ ((op id).2 <> None -> (op id).1 = cm)) ->
  sound cm (match args with id :: _ => done_or false (op id) | [] => (cm, cluster_args name) end).
Proof using. intros H. destruct args as [|id args]; [apply sound_same|]. destruct (H id). by apply sound_done. Qed.

Lemma setslot_sound cm args : sound cm (cluster_setslot args cm).
Proof using.
  unfold cluster_setslot. destruct args as [|arg [|sub rest]]; [apply sound_same..|].
  destruct (parse_slot arg) as [slot|]; [|apply sound_same].
  apply sound_done; [intros [? ?]; split; [by apply SetSlot_wf|by apply SetSlot_bounds]|apply (refusals_keep cm)].
Qed.

Lemma cases_sound v args cm :
  Forall (fun p => p.1 <> str "MEET" -> exists o, p.2 cm = Ok o /\ sound cm o) (cluster_cases v args).
Proof using.
  destruct (refusals_keep cm) as (K1 & K2 & K3 & K4 & K5). unfold cluster_cases.
  repeat (apply Forall_cons; split); try (apply Forall_nil; exact I); cbn [fst snd];
    first [intros []; reflexivity | intros _; eexists; split; [reflexivity|]].
  all: first [ apply sound_same | idtac ].
  - apply slot_list_sound. intros slots. split; [intros [? ?]; split; [by apply AddSlots_wf|by apply AddSlots_bounds]|apply K1].
  - apply slot_list_sound. intros slots. split; [intros [? ?]; split; [by apply DelSlots_wf|by apply DelSlots_bounds]|apply K2].
  - apply setslot_sound.
  - apply one_arg_sound. intros id. split; [intros [? ?]; split; [by apply Replicate_wf|by apply Replicate_bounds]|apply K4].
  - apply one_arg_sound. intros id. split; [intros [? ?]; split; [by apply RemoveNode_wf|by apply RemoveNode_bounds]|apply K5].
  - destruct (ce_save v); [apply sound_same|]. apply sound_reply; [|done]. intros [? ?]. split; [by apply save_wf|by apply save_bounds].
  - apply sound_reply; [apply reset_inv|done].
Qed.

(** MEET answers an error only for arguments it does not use; a peer that announces
    too long a text is the only way to a panic. *)
Lemma meet_sound v args cm :
  match cluster_meet v args cm with
  | Ok (cm', r) => refused r -> cm' = cm
  | Err x => exists ip port, ce_peer v ip port = Err x
  end.
Proof using.
  unfold cluster_meet. destruct args as [|ip [|p opts]]; [done..|]. destruct (ParseInt p) as [port|]; [|done].
  destruct (ce_peer v ip port) as [text|x] eqn:E; cbn [mbind res_bind]; [|by exists ip, port]. by intros [t Ht].
Qed.

(** C29: CLUSTER, on a manager in any state, after MEET too: every subcommand returns
    an answer, but for a MEET whose peer announces a text too long to allocate; and a
    subcommand that answers an error has changed nothing, also when only the last of its
    slots was refused or the configuration file cannot be written.  When in the manager
    each slot has one owner, the registered node whose own slots have it (so it is
    without MEET, [Cluster.slot_ownership]), every subcommand other than MEET keeps it so,
    and after RESET no slot has an owner and the node knows only itself. *)
Theorem cluster_commands_sound cm v args ks :
  match handleClusterCommand v args (Some cm) ks with
  | Ok (c, r) => exists cm', c = Some cm' /\ (refused r -> cm' = cm) /\ ((ToUpper <$> head args) <> Some (str "MEET") -> inv cm -> inv cm')
  | Err x => (ToUpper <$> head args) = Some (str "MEET") /\ exists ip port, ce_peer v ip port = Err x
  end /\
  (inv cm -> SlotMap (cluster_reset cm) = ∅ /\ dom (Nodes (cluster_reset cm)) = {[Node.ID (self cm)]}).
Proof using.
  split; [|intros [? ?]; by apply reset_empty]. unfold handleClusterCommand. destruct args as [|a args]; [by exists cm|]. cbv zeta.
  repeat (destruct (decide (ToUpper a = _)) as [_|_]; [by exists cm|]).
  destruct (list_find _ _) as [[i p]|] eqn:Hf; [|by exists cm].
  apply list_find_Some in Hf as (Hi & Hp & _). apply list_elem_of_lookup_2 in Hi. cbn [head fmap option_fmap option_map].
  destruct (decide (p.1 = str "MEET")) as [Hc|Hc].
  - assert (p.2 = cluster_meet v args) as ->.
    { unfold cluster_cases in Hi. repeat (apply elem_of_cons in Hi as [-> |Hi]; [first [done | discriminate Hc]|]). by apply not_elem_of_nil in Hi. }
    pose proof (meet_sound v args cm) as HM. destruct (cluster_meet v args cm) as [[cm' r]|x]; cbn [mbind res_bind].
    + exists cm'. split; [done|]. split; [done|]. intros []. congruence.
    + split; [congruence|done].
  - pose proof (cases_sound v args cm) as HF. rewrite list.Forall_forall in HF. destruct (HF p Hi Hc) as ([cm' r] & E & HS1 & HS2).
    rewrite E. cbn [mbind res_bind]. by exists cm'.
Qed.

End Listing.

(** ** A node that owns one slot *)

Definition sample_env : cluster_env := mkCE 5 [] (fun cm => (map_to_list (Nodes cm)).*1) (fun _ _ => Ok []) None.
Definition list_map : forall V, gmap bytes V -> list (bytes * V) := fun V m => map_to_list m.
Definition no_keys : @Keyspace.Keyspace SkipList.SkipList unit := NewKeyspace.

Lemma one_slot_inv : inv one_slot.
Proof.
  apply (reachable_inv (InitialManager (str "0123456789abcdef") 5 [] 0 0 [])); [apply initial_inv|].
  eapply (reach_step _ _ (OAddSlots [7%nat])); [apply reach_init|exact I|reflexivity].
Qed.

Lemma cluster_commands_sound_witness : exists cm' r,
  handleClusterCommand list_map sample_env [str "addslots"; str "8"; str "9"] (Some one_slot) no_keys = Ok (Some cm', r) /\ inv cm' /\
  (refused r -> cm' = one_slot).
Proof.
  destruct (cluster_commands_sound list_map one_slot sample_env [str "addslots"; str "8"; str "9"] no_keys) as [H _].
  destruct (handleClusterCommand _ _ _ _ _) as [[c r]|x].
  - destruct H as (cm' & -> & H1 & H2). exists cm', r. split; [reflexivity|]. split; [|exact H1]. apply H2; [|apply one_slot_inv].
    intros H. apply (f_equal (fun o => length (default [] o))) in H. vm_compute in H. discriminate H.
  - destruct H as [H _]. apply (f_equal (fun o => length (default [] o))) in H. vm_compute in H. discriminate H.
Defined.

(** ** Where the commands deviate *)

(** A count of zero returns a key: the bound is tested after a key was added. *)
Theorem getkeys_zero_returns_one {V} iter now slot arg (ks : @Keyspace.Keyspace SkipList.SkipList V) :
  parse_slot arg = Some slot ->
  cmd_getkeys iter now [arg; str "0"] ks =
    Commands.reads (bulks (match filter (in_slot slot) (Keys iter now (str "*") ks) with k :: _ => [k] | [] => [] end)).
Proof.
  intros Hs. unfold cmd_getkeys. rewrite Hs. replace (ParseInt (str "0")) with (Ok 0 : res num_error Z) by reflexivity.
  cbn [Z.ltb Z.compare]. do 2 f_equal. induction (Keys iter now (str "*") ks) as [|k keys IH]; [done|].
  cbn [slot_keys_loop]. rewrite filter_cons. destruct (decide (in_slot slot k)); [done|exact IH].
Qed.

(** KEYS without a pattern lists every key, and the access check finds no key in it
    to hold against the patterns of the user. *)
Theorem keys_without_pattern {V} iter now (ks : @Keyspace.Keyspace SkipList.SkipList V) :
  extractCommandKeys (str "KEYS") [] = Ok [] /\ cmd_keys iter now [] ks = cmd_keys iter now [str "*"] ks.
Proof. done. Qed.

Lemma reset_slots_migrations xs : forall cm, MigratingSlots (reset_slots xs cm) = MigratingSlots cm /\ ImportingSlots (reset_slots xs cm) = ImportingSlots cm.
Proof.
  unfold reset_slots. induction xs as [|i xs IH]; intros cm; cbn [foldl]; [by split|].
  destruct (IH (unmap_slot i (slot_off (Self cm) i cm))) as [-> ->]. by split.
Qed.

Lemma save_nodes_migrations m cm : MigratingSlots (saveConfigLocked (set_nodes m cm)) = MigratingSlots cm /\ ImportingSlots (saveConfigLocked (set_nodes m cm)) = ImportingSlots cm.
Proof. by split. Qed.

(** RESET forgets the other nodes, but keeps the slots it was handing over to them. *)
Theorem reset_keeps_migrations cm : MigratingSlots (cluster_reset cm) = MigratingSlots cm /\ ImportingSlots (cluster_reset cm) = ImportingSlots cm.
Proof.
  destruct (cluster_reset_eq cm) as (cm' & E & ->). destruct (save_nodes_migrations {[Node.ID (self cm') := Self cm']} cm') as [-> ->].
  rewrite E. apply reset_slots_migrations.
Qed.
