(* ===== verification/Scope.v ===== *)
(** * The keys a command reads and writes (internal/engine/engine.go)

    Access control, WATCH and the routing of a cluster all rely on
    [extractCommandKeys] to name the keys of a command.  Here every data command
    is shown to be local to those keys: its reply and the new values under them are
    determined by their entries, and no other entry changes. *)

From S2P Require Import Prelude Resp SetDs HashDs ListDs Stream SkipList Keyspace Commands CommandLaws Session.

Section Scope.
Context {VectorIndex : Type}.
Context (ParseFloat : bytes -> option Z) (FormatFloat : Z -> bytes).

Abbreviation Value := (@Keyspace.Value SkipList.SkipList VectorIndex).
Abbreviation Entry := (@Keyspace.Entry SkipList.SkipList VectorIndex).
Abbreviation Keyspace := (@Keyspace.Keyspace SkipList.SkipList VectorIndex).
Abbreviation answer := (Resp.Value * bool)%type.

(** ** Local computations *)

(** Two keyspaces with the same entries under [K]. *)
Definition same_on (K : list bytes) (ks1 ks2 : Keyspace) : Prop := forall k, k ∈ K -> look ks1 k = look ks2 k.

(** Nothing outside [K] has changed. *)
Definition frame (K : list bytes) (ks ks' : Keyspace) : Prop := forall k, k ∉ K -> look ks' k = look ks k.

Record kept (K : list bytes) (ks1 ks2 k1 k2 : Keyspace) : Prop := {
  kept_wf1 : wf k1;
  kept_wf2 : wf k2;
  kept_same : same_on K k1 k2;
  kept_frame1 : frame K ks1 k1;
  kept_frame2 : frame K ks2 k2
}.

Definition local {A} (K : list bytes) (f : Keyspace -> res fault (Keyspace * A)) : Prop :=
  forall ks1 ks2, wf ks1 -> wf ks2 -> same_on K ks1 ks2 ->
    match f ks1, f ks2 with
    | Ok (k1, a1), Ok (k2, a2) => a1 = a2 /\ kept K ks1 ks2 k1 k2
    | Err x, Err y => x = y
    | _, _ => False
    end.

(** A change of the keyspace alone. *)
Definition local_change (K : list bytes) (u : Keyspace -> Keyspace) : Prop :=
  forall ks1 ks2, wf ks1 -> wf ks2 -> same_on K ks1 ks2 -> kept K ks1 ks2 (u ks1) (u ks2).

Lemma kept_refl K ks1 ks2 : wf ks1 -> wf ks2 -> same_on K ks1 ks2 -> kept K ks1 ks2 ks1 ks2.
Proof. by split. Qed.

Lemma kept_trans K ks1 ks2 k1 k2 l1 l2 : kept K ks1 ks2 k1 k2 -> kept K k1 k2 l1 l2 -> kept K ks1 ks2 l1 l2.
Proof.
  intros [? ? ? F1 F2] [? ? ? G1 G2]. split; try done; intros k Hk; [rewrite G1, F1|rewrite G2, F2]; done.
Qed.

Lemma local_id K : local_change K (fun ks => ks).
Proof. intros ks1 ks2. apply kept_refl. Qed.

Lemma local_addCount K u d : local_change K u -> local_change K (fun ks => addCount (u ks) d).
Proof. intros Hu ks1 ks2 W1 W2 HS. destruct (Hu ks1 ks2 W1 W2 HS) as [? ? ? ? ?]. split; try done; by apply addCount_wf. Qed.

Lemma local_store K u k e : k ∈ K -> local_change K u -> local_change K (fun ks => store (u ks) k e).
Proof.
  intros Hk Hu ks1 ks2 W1 W2 HS. destruct (Hu ks1 ks2 W1 W2 HS) as [? ? Hs F1 F2]. split; try by apply store_wf.
  - intros k' Hk'. rewrite !look_store by done. case_decide; [done|by apply Hs].
  - intros k' Hk'. rewrite look_store by done. rewrite decide_False by (by intros ->). by apply F1.
  - intros k' Hk'. rewrite look_store by done. rewrite decide_False by (by intros ->). by apply F2.
Qed.

Lemma local_remove K u k : k ∈ K -> local_change K u -> local_change K (fun ks => remove (u ks) k).
Proof.
  intros Hk Hu ks1 ks2 W1 W2 HS. destruct (Hu ks1 ks2 W1 W2 HS) as [? ? Hs F1 F2]. split; try by apply remove_wf.
  - intros k' Hk'. rewrite !look_remove by done. case_decide; [done|by apply Hs].
  - intros k' Hk'. rewrite look_remove by done. rewrite decide_False by (by intros ->). by apply F1.
  - intros k' Hk'. rewrite look_remove by done. rewrite decide_False by (by intros ->). by apply F2.
Qed.

Lemma local_poke K u k v : k ∈ K -> local_change K u -> local_change K (fun ks => poke (u ks) k v).
Proof.
  intros Hk Hu ks1 ks2 W1 W2 HS. pose proof (Hu ks1 ks2 W1 W2 HS) as HK. unfold poke. rewrite <- (kept_same _ _ _ _ _ HK k Hk).
  destruct (look (u ks1) k); [|done]. by apply (local_store K u k _ Hk Hu).
Qed.

Lemma local_Set K u t k e : k ∈ K -> local_change K u -> local_change K (fun ks => Keyspace.Set_ (u ks) t k e).
Proof.
  intros Hk Hu ks1 ks2 W1 W2 HS. pose proof (Hu ks1 ks2 W1 W2 HS) as HK. unfold Keyspace.Set_.
  rewrite <- (kept_same _ _ _ _ _ HK k Hk).
  destruct (look (u ks1) k); [by apply (local_store K u k _ Hk Hu)|]. by apply (local_store K (fun ks => addCount (u ks) 1) k _ Hk (local_addCount K u 1 Hu)).
Qed.

Create HintDb scope.
#[local] Hint Resolve local_id local_addCount local_store local_remove local_poke local_Set : scope.

(** ** Composition *)

Lemma local_ret {A} K u (a : A) : local_change K u -> local K (fun ks => Ok (u ks, a)).
Proof. intros Hu ks1 ks2 W1 W2 HS. split; [done|]. by apply Hu. Qed.

Lemma local_err {A} K x : local (A := A) K (fun _ => Err x).
Proof. by intros ks1 ks2 _ _ _. Qed.

Lemma local_bind {A B} K (f : Keyspace -> res fault (Keyspace * A)) (g : A -> Keyspace -> res fault (Keyspace * B)) :
  local K f -> (forall a, local K (g a)) -> local K (fun ks => '(ks, a) ← f ks; g a ks).
Proof.
  intros Hf Hg ks1 ks2 W1 W2 HS. pose proof (Hf ks1 ks2 W1 W2 HS) as H.
  destruct (f ks1) as [[k1 a1]|], (f ks2) as [[k2 a2]|]; csimpl; try done. destruct H as [-> HK]. pose proof HK as [K1 K2 K3 _ _].
  pose proof (Hg a2 k1 k2 K1 K2 K3) as H. destruct (g a2 k1) as [[l1 b1]|], (g a2 k2) as [[l2 b2]|]; try done.
  destruct H as [-> HL]. split; [done|]. by eapply kept_trans.
Qed.

Lemma local_let {A B} K (f : Keyspace -> Keyspace * A) (g : A -> Keyspace -> res fault (Keyspace * B)) :
  local K (fun ks => Ok (f ks)) -> (forall a, local K (g a)) -> local K (fun ks => let '(ks, a) := f ks in g a ks).
Proof. apply (local_bind K (fun ks => Ok (f ks))). Qed.

Lemma local_look {A} K k (some : Entry -> Keyspace -> res fault (Keyspace * A)) none : k ∈ K ->
  (forall e, local K (some e)) -> local K none -> local K (fun ks => match look ks k with Some e => some e ks | None => none ks end).
Proof.
  intros Hk Hs Hn ks1 ks2 W1 W2 HS. rewrite <- (HS k Hk). destruct (look ks1 k); [by apply Hs|by apply Hn].
Qed.

(** The same for an operation of the keyspace, which does not fail. *)
Definition local_op {A} (K : list bytes) (f : Keyspace -> Keyspace * A) : Prop := local K (fun ks => Ok (f ks)).

Lemma local_op_ret {A} K u (a : A) : local_change K u -> local_op K (fun ks => (u ks, a)).
Proof. apply local_ret. Qed.

Lemma local_op_let {A B} K (f : Keyspace -> Keyspace * A) (g : A -> Keyspace -> Keyspace * B) :
  local_op K f -> (forall a, local_op K (g a)) -> local_op K (fun ks => let '(ks, a) := f ks in g a ks).
Proof.
  intros Hf Hg ks1 ks2 W1 W2 HS. pose proof (local_bind K (fun ks => Ok (f ks)) (fun a ks => Ok (g a ks)) Hf Hg ks1 ks2 W1 W2 HS) as H.
  csimpl in H. by destruct (f ks1), (f ks2).
Qed.

Lemma local_op_look {A} K k (some : Entry -> Keyspace -> Keyspace * A) none : k ∈ K ->
  (forall e, local_op K (some e)) -> local_op K none ->
  local_op K (fun ks => match look ks k with Some e => some e ks | None => none ks end).
Proof.
  intros Hk Hs Hn ks1 ks2 W1 W2 HS. rewrite <- (HS k Hk). destruct (look ks1 k); [by apply Hs|by apply Hn].
Qed.

#[local] Hint Resolve local_ret local_err local_op_ret : scope.

(** Take the cases apart until only changes of the keyspace are left. *)
Ltac scope :=
  repeat first
    [ progress intros
    | solve [eauto 12 with scope]
    | match goal with
      | |- local_op _ (fun ks => match look ks _ with _ => _ end) => apply local_op_look; [assumption| |]
      | |- local _ (fun ks => match look ks _ with _ => _ end) => apply local_look; [assumption| |]
      | |- context [match ?x with _ => _ end] => destruct x
      end ].

(** ** The operations of the keyspace *)

Section operations.
Context (K : list bytes) (t t' : Z) (k : bytes) (Hk : k ∈ K).

Lemma local_load_live : local_op K (fun ks => load_live ks t k).
Proof using Hk. unfold load_live. scope. Qed.

Lemma local_Get : local_op K (fun ks => Keyspace.Get ks t k).
Proof using Hk.
  intros ks1 ks2 W1 W2 HS. rewrite !Get_load_live. by apply local_load_live.
Qed.

Lemma local_SetNX e : local_op K (fun ks => SetNX ks t k e).
Proof using Hk. unfold SetNX. scope. Qed.

Lemma local_IncrBy d : local_op K (fun ks => Keyspace.IncrBy ks t k d).
Proof using Hk. unfold Keyspace.IncrBy. apply (local_op_let K (fun ks => load_live ks t k)); [apply local_load_live|]. scope. Qed.

Lemma local_Append v : local_op K (fun ks => Keyspace.Append ks t k v).
Proof using Hk. unfold Keyspace.Append. apply (local_op_let K (fun ks => load_live ks t k)); [apply local_load_live|]. scope. Qed.

Lemma local_Expire d : local_op K (fun ks => Keyspace.Expire ks t k d).
Proof using Hk.
  unfold Keyspace.Expire. apply (local_op_let K (fun ks => load_live ks t k) (fun r ks => match r with None => _ | Some e => _ end)); [apply local_load_live|]. scope.
Qed.

Lemma local_Persist : local_op K (fun ks => Keyspace.Persist ks t k).
Proof using Hk.
  unfold Keyspace.Persist. apply (local_op_let K (fun ks => load_live ks t k) (fun r ks => match r with None => _ | Some e => _ end)); [apply local_load_live|]. scope.
Qed.

Lemma local_TTL : local_op K (fun ks => Keyspace.TTL ks t t' k) /\ local_op K (fun ks => Keyspace.PTTL ks t t' k).
Proof using Hk.
  unfold Keyspace.TTL, Keyspace.PTTL.
  split; apply (local_op_let K (fun ks => Keyspace.Get ks t k) (fun r ks => match r with None => _ | Some e => _ end)); try apply local_Get; scope.
Qed.

End operations.

(** ** The three shapes of a command on one key *)

Section shapes.
Context (K : list bytes) (k : bytes) (Hk : k ∈ K).

Lemma local_reading {T} c ty (conv : Value -> option T) absent wrong body :
  local K (reading c k ty conv absent wrong body).
Proof using Hk.
  unfold reading. apply (local_let K (fun ks => Keyspace.Get ks (now c) k)
    (fun r ks => match r with None => Ok (ks, absent) | Some entry => if decide (Type_ entry = ty)
       then x ← conversion (conv (Value_ entry)); a ← body x; Ok (ks, a) else Ok (ks, wrong) end)).
  { apply (local_Get K (now c) k Hk). }
  intros [e|]; [case_decide|]; try (apply local_ret, local_id).
  destruct (conv (Value_ e)) as [x|]; csimpl; [|apply local_err]. destruct (body x); csimpl; [apply local_ret, local_id|apply local_err].
Qed.

Lemma local_updating {T} c ty (conv : Value -> option T) wrap absent wrong body :
  local K (updating c k ty conv wrap absent wrong body).
Proof using Hk.
  unfold updating. apply (local_let K (fun ks => Keyspace.Get ks (now c) k)
    (fun r ks => match r with None => Ok (ks, absent) | Some entry => if decide (Type_ entry = ty)
       then x ← conversion (conv (Value_ entry)); '(x, a) ← body x; Ok (poke ks k (wrap x), a) else Ok (ks, wrong) end)).
  { apply (local_Get K (now c) k Hk). }
  intros [e|]; [case_decide|]; try (apply local_ret, local_id).
  destruct (conv (Value_ e)) as [x|]; csimpl; [|apply local_err].
  destruct (body x) as [[y a]|]; csimpl; [apply local_ret; eauto with scope|apply local_err].
Qed.

Lemma local_creating {T} c ty (conv : Value -> option T) wrap new body : local K (creating c k ty conv wrap new body).
Proof using Hk.
  assert (local_op K (fun ks => let '(ks, entry, _) := GetOrCreate ks (now c) k ty (fun _ => wrap new) in (ks, entry))) as HG.
  { assert (forall live : option Entry, local_op K (fun ks => match live with
      | None => (addCount (store ks k (mkE ty (wrap new) 0 (now c) (now c))) 1, mkE ty (wrap new) 0 (now c) (now c))
      | Some e => (store ks k (mkE (Type_ e) (Value_ e) (ExpiresAt e) (UpdatedAt e) (now c)), mkE (Type_ e) (Value_ e) (ExpiresAt e) (UpdatedAt e) (now c))
      end)) as HL by (intros [e|]; apply local_op_ret; eauto with scope).
    unfold GetOrCreate. intros ks1 ks2 W1 W2 HS.
    pose proof (local_op_let K (fun ks => load_live ks (now c) k) _ (local_load_live K (now c) k Hk) HL ks1 ks2 W1 W2 HS) as H. cbv beta in H.
    destruct (load_live ks1 (now c) k) as [? [?|]], (load_live ks2 (now c) k) as [? [?|]]; exact H. }
  intros ks1 ks2 W1 W2 HS. pose proof (local_let K _ (fun entry ks => if decide (Type_ entry = ty)
       then x ← conversion (conv (Value_ entry)); '(x, a) ← body x; Ok (poke ks k (wrap x), a) else Ok (ks, wrong_type)) HG) as H.
  unfold creating. match type of H with ?A -> _ => assert A as HA; [clear H|specialize (H HA ks1 ks2 W1 W2 HS)] end.
  { intros e. case_decide; [|apply local_ret, local_id]. destruct (conv (Value_ e)) as [x|]; csimpl; [|apply local_err].
    destruct (body x) as [[y a]|]; csimpl; [apply local_ret; eauto with scope|apply local_err]. }
  cbv beta in H. destruct (GetOrCreate ks1 _ _ _ _) as [[? ?] ?], (GetOrCreate ks2 _ _ _ _) as [[? ?] ?]. exact H.
Qed.

End shapes.

(** ** The commands on one key *)

Definition first_key (args : list bytes) : list bytes := match args with [] => [] | k :: _ => [k] end.

Lemma first_key_arg args : args <> [] -> arg args 0 ∈ first_key args.
Proof. destruct args; [done|]. intros _. by apply list_elem_of_singleton. Qed.

Ltac here :=
  first [ apply list_elem_of_singleton; reflexivity
        | apply first_key_arg; intros E;
          match goal with H : ~ (length _ < 3 \/ _)%nat |- _ => rewrite E in H; apply H; left; repeat constructor end ].
Ltac on_one_key :=
  first [ apply local_ret, local_id | apply local_reading; here | apply local_updating; here | apply local_creating; here ].

(** An operation of the keyspace and what is replied. *)
Lemma local_reply {A} K (f : Keyspace -> Keyspace * A) (g : A -> answer) :
  local_op K f -> local K (fun ks => let '(ks, a) := f ks in Ok (ks, g a)).
Proof. intros Hf. apply (local_let K f (fun a ks => Ok (ks, g a))); [done|]. intros a. apply local_ret, local_id. Qed.

Lemma local_of_ks K (f : Keyspace -> Keyspace * res ks_error Z) : local_op K f -> local K (fun ks => of_ks (f ks)).
Proof.
  intros Hf ks1 ks2 W1 W2 HS. pose proof (local_reply K f (fun r => match r with Ok n => writes (Integer n) | Err e => ks_error_text e end) Hf ks1 ks2 W1 W2 HS) as H.
  cbv beta in H. unfold of_ks. destruct (f ks1) as [? [?|?]], (f ks2) as [? [?|?]]; exact H.
Qed.

Lemma local_of_flag K (f : Keyspace -> Keyspace * bool) : local_op K f -> local K (fun ks => of_flag (f ks)).
Proof. apply (local_reply K f (fun b => if b then writes (Integer 1) else reads (Integer 0))). Qed.

Section commands.
Context (c : clock) (args : list bytes).
Abbreviation K := (first_key args).

Lemma string_commands_local :
  local K (handleSet c args) /\ local K (cmd_get c args) /\ local K (cmd_type c args) /\
  (forall d, local K (handleIncrBy c args d)) /\ (forall d name, local K (cmd_incrby c args d name)) /\
  local K (cmd_append c args) /\ local K (cmd_strlen c args) /\ local K (cmd_setnx c args) /\
  (forall u name, local K (cmd_setex c args u name)) /\ (forall u name, local K (cmd_expire c args u name)) /\
  local K (cmd_ttl c args) /\ local K (cmd_pttl c args) /\ local K (cmd_persist c args).
Proof using.
  repeat match goal with |- _ /\ _ => split end; intros.
  - unfold handleSet. destruct args as [|k [|v opts]]; try on_one_key. destruct (set_options opts 0 false false) as [[[ttl nx] xx]|]; [|on_one_key].
    assert (forall b : bool, local [k] (fun ks => if b then Ok (ks, reads Null) else
      Ok (Keyspace.Set_ ks (now c) k (set_string v (if 0 <? ttl then int64 (now c + ttl) else 0)), writes OK))) as HS.
    { intros []; apply local_ret; [apply local_id|]. apply (local_Set [k] (fun ks => ks)); [here|apply local_id]. }
    destruct (nx || xx); [|exact (HS false)].
    intros ks1 ks2 W1 W2 H. pose proof (local_let [k] _ _ (local_Get [k] (now c) k ltac:(here))
      (fun r => HS match r with Some _ => nx | None => xx end) ks1 ks2 W1 W2 H) as HL. cbv beta in HL.
    destruct (Keyspace.Get ks1 (now c) k) as [? [?|]], (Keyspace.Get ks2 (now c) k) as [? [?|]]; exact HL.
  - unfold cmd_get. destruct args; on_one_key.
  - unfold cmd_type. destruct args as [|k ?]; [on_one_key|].
    apply (local_reply [k] (fun ks => Keyspace.Get ks (now c) k) (fun r => reads (SimpleString (match r with None => str "none" | Some e => type_name (Type_ e) end)))).
    apply local_Get. here.
  - unfold handleIncrBy. destruct args; [on_one_key|]. apply local_of_ks, local_IncrBy. here.
  - unfold cmd_incrby, handleIncrBy. destruct args as [|? [|? ?]]; try on_one_key. destruct (ParseInt _); [|on_one_key].
    apply local_of_ks, local_IncrBy. here.
  - unfold cmd_append. destruct args as [|? [|? ?]]; try on_one_key. apply local_of_ks, local_Append. here.
  - unfold cmd_strlen. destruct args; on_one_key.
  - unfold cmd_setnx. destruct args as [|k [|v ?]]; try on_one_key.
    apply (local_reply [k] (fun ks => SetNX ks (now c) k (set_string v 0)) (fun b => if b then writes (Integer 1) else reads (Integer 0))).
    apply local_SetNX. here.
  - unfold cmd_setex. destruct args as [|k [|t [|v ?]]]; try on_one_key. destruct (ParseInt t) as [n|]; [|on_one_key].
    destruct (n <=? 0); [on_one_key|]. apply local_ret. apply (local_Set [k] (fun ks => ks)); [here|apply local_id].
  - unfold cmd_expire. destruct args as [|k [|t ?]]; try on_one_key. destruct (ParseInt t); [|on_one_key]. apply local_of_flag, local_Expire. here.
  - unfold cmd_ttl. destruct args as [|k ?]; [on_one_key|].
    apply (local_reply [k] (fun ks => Keyspace.TTL ks (now c) (later c) k) (fun n => reads (Integer n))). apply local_TTL. here.
  - unfold cmd_pttl. destruct args as [|k ?]; [on_one_key|].
    apply (local_reply [k] (fun ks => Keyspace.PTTL ks (now c) (later c) k) (fun n => reads (Integer n))). apply local_TTL. here.
  - unfold cmd_persist. destruct args; [on_one_key|]. apply local_of_flag, local_Persist. here.
Qed.

Lemma collection_commands_local rng :
  local K (handleHSet c args) /\ local K (handleHMSet c args) /\ local K (cmd_hget c args) /\ local K (cmd_hmget c args) /\
  local K (cmd_hdel c args) /\ local K (cmd_hexists c args) /\
  (forall name absent body, local K (cmd_hash_view c args name absent body)) /\ local K (cmd_hincrby c args) /\
  (forall name push, local K (cmd_push c args name push)) /\ (forall name pop, local K (cmd_pop c args name pop)) /\
  local K (cmd_lrange c args) /\ local K (cmd_llen c args) /\ local K (cmd_lindex c args) /\
  local K (cmd_sadd c args) /\ local K (cmd_srem c args) /\ local K (cmd_smembers c args) /\ local K (cmd_sismember c args) /\
  local K (cmd_scard c args) /\ local K (handleZAdd ParseFloat rng c args) /\ local K (cmd_zscore FormatFloat c args) /\
  local K (cmd_zrank c args) /\ (forall rev, local K (handleZRange FormatFloat c args rev)) /\ local K (cmd_zrem c args) /\
  local K (cmd_zcard c args).
Proof using.
  repeat match goal with |- _ /\ _ => split end; intros.
  - unfold handleHSet. case_decide; on_one_key.
  - unfold handleHMSet. case_decide; on_one_key.
  - unfold cmd_hget. destruct args as [|? [|? ?]]; on_one_key.
  - unfold cmd_hmget. destruct args as [|? [|? ?]]; on_one_key.
  - unfold cmd_hdel. destruct args as [|? [|? ?]]; cbn [length Nat.ltb Nat.leb]; on_one_key.
  - unfold cmd_hexists. destruct args as [|? [|? ?]]; on_one_key.
  - unfold cmd_hash_view. destruct args; on_one_key.
  - unfold cmd_hincrby. destruct args as [|? [|? [|? ?]]]; try on_one_key. destruct (ParseInt _); on_one_key.
  - unfold cmd_push. destruct args as [|? [|? ?]]; cbn [length Nat.ltb Nat.leb]; on_one_key.
  - unfold cmd_pop. destruct args; on_one_key.
  - unfold cmd_lrange. destruct args as [|? [|? [|? ?]]]; on_one_key.
  - unfold cmd_llen. destruct args; on_one_key.
  - unfold cmd_lindex. destruct args as [|? [|? ?]]; on_one_key.
  - unfold cmd_sadd. destruct args as [|? [|? ?]]; cbn [length Nat.ltb Nat.leb]; on_one_key.
  - unfold cmd_srem. destruct args as [|? [|? ?]]; cbn [length Nat.ltb Nat.leb]; on_one_key.
  - unfold cmd_smembers. destruct args; on_one_key.
  - unfold cmd_sismember. destruct args as [|? [|? ?]]; on_one_key.
  - unfold cmd_scard. destruct args; on_one_key.
  - unfold handleZAdd. case_decide; on_one_key.
  - unfold cmd_zscore. destruct args as [|? [|? ?]]; on_one_key.
  - unfold cmd_zrank. destruct args as [|? [|? ?]]; on_one_key.
  - unfold handleZRange. destruct args as [|? [|? [|? ?]]]; on_one_key.
  - unfold cmd_zrem. destruct args as [|? [|? ?]]; cbn [length Nat.ltb Nat.leb]; on_one_key.
  - unfold cmd_zcard. destruct args; on_one_key.
Qed.

End commands.

(** ** The commands on several keys *)

Lemma local_fold K (step : Keyspace * Z -> bytes -> Keyspace * Z) keys n : (forall k, k ∈ keys -> k ∈ K) ->
  (forall k n, k ∈ K -> local_op K (fun ks => step (ks, n) k)) -> local_op K (fun ks => foldl step (ks, n) keys).
Proof.
  intros HK Hs. revert n. induction keys as [|k keys IH]; intros n; cbn [foldl]; [apply local_op_ret, local_id|].
  intros ks1 ks2 W1 W2 H. pose proof (local_op_let K (fun ks => step (ks, n) k) (fun n ks => foldl step (ks, n) keys)) as HL.
  specialize (HL (Hs k n (HK k ltac:(set_solver))) (IH ltac:(set_solver)) ks1 ks2 W1 W2 H). cbv beta in HL.
  destruct (step (ks1, n) k), (step (ks2, n) k). exact HL.
Qed.

Lemma local_Delete K keys : (forall k, k ∈ keys -> k ∈ K) -> local_op K (fun ks => Keyspace.Delete ks keys).
Proof. intros HK. apply local_fold; [done|]. intros k n Hk. unfold delete_one. scope. Qed.

Lemma local_Exists K t keys : (forall k, k ∈ keys -> k ∈ K) -> local_op K (fun ks => Keyspace.Exists ks t keys).
Proof.
  intros HK. apply local_fold; [done|]. intros k n Hk. unfold exists_one.
  apply (local_op_let K (fun ks => Keyspace.Get ks t k) (fun r ks => (ks, match r with Some _ => int64 (n + 1) | None => n end)));
    [by apply local_Get|]. intros r. apply local_op_ret, local_id.
Qed.

Lemma local_mset_loop K c args : (forall k, k ∈ every_other args -> k ∈ K) -> local_change K (mset_loop c args).
Proof.
  intros HK ks1 ks2 W1 W2 HS. revert ks1 ks2 W1 W2 HS.
  induction args as [|k|k v args IH] using list_pair_ind; intros ks1 ks2 W1 W2 HS; cbn [mset_loop]; [by apply kept_refl..|].
  assert (k ∈ K) as Hk by (apply HK; set_solver). pose proof (local_Set K (fun ks => ks) (now c) k (set_string v 0) Hk (local_id K) ks1 ks2 W1 W2 HS) as H.
  destruct H as [? ? ? ? ?] eqn:E. eapply kept_trans; [exact H|]. apply IH; try done. intros k' Hk'. apply HK. cbn [every_other]. by right.
Qed.

Lemma local_mget_loop K c keys : (forall k, k ∈ keys -> k ∈ K) -> local K (mget_loop c keys).
Proof.
  intros HK. induction keys as [|k keys IH]; cbn [mget_loop]; [apply local_ret, local_id|].
  apply (local_bind K (reading c k TypeString as_string (reads Null) (reads Null) (fun s => Ok (reads (BulkString s))))
    (fun a ks => '(ks, items) ← mget_loop c keys ks; Ok (ks, a.1 :: items))).
  - apply local_reading, HK. set_solver.
  - intros a. apply (local_bind K (mget_loop c keys) (fun items ks => Ok (ks, a.1 :: items))); [apply IH; set_solver|].
    intros items. apply local_ret, local_id.
Qed.

Lemma many_key_commands_local c args :
  local args (cmd_mget c args) /\ local args (cmd_del args) /\ local args (cmd_exists c args) /\ local (every_other args) (cmd_mset c args).
Proof.
  repeat match goal with |- _ /\ _ => split end.
  - unfold cmd_mget. destruct args as [|k args]; [apply local_ret, local_id|].
    apply (local_bind (k :: args) (mget_loop c (k :: args)) (fun items ks => Ok (ks, reads (Array items)))); [by apply local_mget_loop|].
    intros items. apply local_ret, local_id.
  - unfold cmd_del. destruct args as [|k args]; [apply local_ret, local_id|].
    apply (local_reply (k :: args) (fun ks => Keyspace.Delete ks (k :: args)) (fun n => writes (Integer n))). by apply local_Delete.
  - unfold cmd_exists. destruct args as [|k args]; [apply local_ret, local_id|].
    apply (local_reply (k :: args) (fun ks => Keyspace.Exists ks (now c) (k :: args)) (fun n => reads (Integer n))). by apply local_Exists.
  - unfold cmd_mset. case_decide; [apply local_ret, local_id|]. apply local_ret. by apply local_mset_loop.
Qed.

(** ** Every data command *)

(** The commands on the whole keyspace. *)
Definition global_commands : list bytes := [str "DBSIZE"; str "FLUSHDB"; str "FLUSHALL"].

Lemma cases_local rng c cmd args K : cmd ∉ global_commands -> extractCommandKeys cmd args = Ok K ->
  Forall (fun p => p.1 = cmd -> local K p.2) (cases (VectorIndex := VectorIndex) ParseFloat FormatFloat rng c args).
Proof.
  intros Hg HK. pose proof (string_commands_local c args) as (S1 & S2 & S3 & S4 & S5 & S6 & S7 & S8 & S9 & S10 & S11 & S12 & S13).
  pose proof (collection_commands_local c args rng) as
    (C1 & C2 & C3 & C4 & C5 & C6 & C7 & C8 & C9 & C10 & C11 & C12 & C13 & C14 & C15 & C16 & C17 & C18 & C19 & C20 & C21 & C22 & C23 & C24).
  pose proof (many_key_commands_local c args) as (M1 & M2 & M3 & M4).
  assert (forall a : answer, local K (fun ks : Keyspace => Ok (ks, a))) as HI by (intros; apply local_ret, local_id).
  assert (extractCommandKeys cmd args = Ok (first_key args) -> K = first_key args) as H1 by (rewrite HK; apply Ok_inj).
  assert (extractCommandKeys cmd args = Ok args -> K = args) as H2 by (rewrite HK; apply Ok_inj).
  assert (extractCommandKeys cmd args = Ok (every_other args) -> K = every_other args) as H3 by (rewrite HK; apply Ok_inj).
  clear HK. unfold cases. repeat (apply Forall_cons; split; [cbn [fst snd]; intros <-|]); try apply Forall_nil_2.
  all: first
    [ apply HI
    | exfalso; apply Hg; repeat (apply list_elem_of_here || apply list_elem_of_further); fail
    | rewrite (H2 ltac:(destruct args; reflexivity)); assumption
    | rewrite (H3 ltac:(destruct args; reflexivity)); assumption
    | rewrite (H1 ltac:(destruct args; reflexivity));
      first [assumption | apply S4 | apply S5 | apply S9 | apply S10 | apply C7 | apply C9 | apply C10 | apply C22] ].
Qed.

(** What [dispatch] does on two keyspaces with the same entries under the keys of
    the command. *)
Lemma dispatch_local rng c cmd args K ks1 ks2 : wf ks1 -> wf ks2 -> cmd ∉ global_commands ->
  extractCommandKeys cmd args = Ok K -> same_on K ks1 ks2 ->
  match Commands.dispatch ParseFloat FormatFloat rng c cmd args ks1, Commands.dispatch ParseFloat FormatFloat rng c cmd args ks2 with
  | Some (Ok (k1, a1)), Some (Ok (k2, a2)) => a1 = a2 /\ kept K ks1 ks2 k1 k2
  | Some (Err x), Some (Err y) => x = y
  | None, None => True
  | _, _ => False
  end.
Proof.
  intros W1 W2 Hg HK HS. unfold Commands.dispatch. pose proof (cases_local rng c cmd args K Hg HK) as HA.
  destruct (list_find _ _) as [[i p]|] eqn:E; csimpl; [|done]. apply list_find_Some in E as (Hi & Hp & _).
  rewrite Forall_forall in HA. specialize (HA p (list_elem_of_lookup_2 _ _ _ Hi) Hp ks1 ks2 W1 W2 HS).
  destruct (p.2 ks1) as [[k1 a1]|], (p.2 ks2) as [[k2 a2]|]; exact HA.
Qed.

(** C17: a data command on strings, hashes, lists, sets and sorted sets other
    than DBSIZE, FLUSHDB and FLUSHALL that returns reads and writes only the
    keys extractCommandKeys names for it: its reply and its effect on those keys
    do not depend on any other key, and every other key is left alone. *)
Theorem commands_local rng c cmd args K (ks1 ks2 k1 : Keyspace) a1 : wf ks1 -> wf ks2 -> cmd ∉ global_commands ->
  extractCommandKeys cmd args = Ok K -> (forall k, k ∈ K -> look ks1 k = look ks2 k) ->
  Commands.dispatch ParseFloat FormatFloat rng c cmd args ks1 = Some (Ok (k1, a1)) ->
  exists k2, Commands.dispatch ParseFloat FormatFloat rng c cmd args ks2 = Some (Ok (k2, a1)) /\
    (forall k, k ∈ K -> look k1 k = look k2 k) /\
    (forall k, k ∉ K -> look k1 k = look ks1 k /\ look k2 k = look ks2 k).
Proof.
  intros W1 W2 Hg HK HS E. pose proof (dispatch_local rng c cmd args K ks1 ks2 W1 W2 Hg HK HS) as H. rewrite E in H.
  destruct (Commands.dispatch _ _ _ _ _ _ ks2) as [[[k2 a2]|]|]; try done. destruct H as [<- [_ _ H F1 F2]].
  exists k2. split; [done|]. split; [done|]. intros k Hk. split; [by apply F1|by apply F2].
Qed.

End Scope.

Lemma commands_local_witness : exists k2,
  Commands.dispatch (VectorIndex := unit) sample_float sample_text (fun _ => flat) (mkClock 5 5 5) (str "APPEND") [str "a"; str "8"]
    (store one_key (str "b") (set_string (str "other") 0)) = Some (Ok (k2, writes (Integer 2))) /\
  look k2 (str "b") = Some (set_string (str "other") 0).
Proof.
  destruct (commands_local (VectorIndex := unit) sample_float sample_text (fun _ => flat) (mkClock 5 5 5) (str "APPEND") [str "a"; str "8"]
    [str "a"] one_key (store one_key (str "b") (set_string (str "other") 0)) (store one_key (str "a") (mkE TypeString (VString (str "78")) 0 5 5))
    (writes (Integer 2)) one_key_wf (store_wf _ _ _ one_key_wf)) as (k2 & E & _ & H).
  - apply (bool_decide_eq_true_1 _). vm_compute. reflexivity.
  - reflexivity.
  - intros k Hk. apply list_elem_of_singleton in Hk as ->. vm_compute. reflexivity.
  - vm_compute. reflexivity.
  - exists k2. split; [exact E|]. destruct (H (str "b")) as [_ ->]; [apply (bool_decide_eq_true_1 _); vm_compute; reflexivity|].
    vm_compute. reflexivity.
Defined.
