(* ===== verification/SessionLaws.v ===== *)
(** * What sessions guarantee (internal/engine/engine.go)

    The table of sessions and the counter of watching sessions; authentication;
    the optimistic locking of WATCH; the equivalence of EXEC with running the
    queued commands one after the other. *)

From S2P Require Import Prelude Resp SkipList Keyspace Commands CommandLaws Acl Session Scope Aof.

Section Table.
Context {VectorIndex : Type}.

Abbreviation Engine := (@Session.Engine VectorIndex).
Implicit Types (e : Engine) (s : ClientSession).

(** ** The table of sessions *)

(** The connections whose session watches keys. *)
Definition watchers e : gmap bytes nat := filter (fun cp => watching (session_at e cp.2) = true) (clientSessions e).

(** Every registered session exists, two connections have two sessions, and
    [watchedCount] is the number of watching sessions. *)
Record sessions_ok e : Prop := {
  so_range : forall c p, clientSessions e !! c = Some p -> (p < length (sessions e))%nat;
  so_inj : forall c c' p, clientSessions e !! c = Some p -> clientSessions e !! c' = Some p -> c = c';
  so_count : watchedCount e = Z.of_nat (size (watchers e));
  so_size : (size (clientSessions e) <= length (sessions e))%nat
}.

Lemma session_at_change e p q f d : (p < length (sessions e))%nat ->
  session_at (change p f d e) q = if decide (q = p) then f (session_at e p) else session_at e q.
Proof.
  intros Hp. unfold session_at, change. cbn [sessions set_sessions]. case_decide as Hq.
  - subst. rewrite list_lookup_alter_eq. apply lookup_lt_is_Some in Hp as [s ->]. done.
  - by rewrite list_lookup_alter_ne.
Qed.

Lemma watchers_lookup e c : watchers e !! c = p ← clientSessions e !! c; if watching (session_at e p) then Some p else None.
Proof.
  unfold watchers. destruct (clientSessions e !! c) as [p|] eqn:E; csimpl.
  - destruct (watching (session_at e p)) eqn:Hw.
    + by apply map_lookup_filter_Some.
    + apply map_lookup_filter_None. right. intros p' Hp'. rewrite E in Hp'. injection Hp' as <-. cbn. by rewrite Hw.
  - apply map_lookup_filter_None. by left.
Qed.

Lemma int32_id z : - 2 ^ 31 <= z < 2 ^ 31 -> int32 z = z.
Proof. intros Hz. unfold int32. rewrite Z.mod_small; lia. Qed.

Lemma watchers_size e : sessions_ok e -> (size (watchers e) <= length (sessions e))%nat.
Proof. intros [_ _ _ Hs]. etransitivity; [|exact Hs]. apply map_size_filter. Qed.

(** How a change of one session changes the number of watching sessions. *)
Lemma size_set (m m' : gmap bytes nat) c p (b : bool) :
  m' !! c = (if b then Some p else None) -> (forall c', c' <> c -> m' !! c' = m !! c') ->
  (size m' + (if bool_decide (is_Some (m !! c)) then 1 else 0) = size m + (if b then 1 else 0))%nat.
Proof.
  intros Hc Ho. destruct b.
  - assert (m' = <[c := p]> m) as ->.
    { apply map_eq. intros c'. destruct (decide (c' = c)) as [->|]; [by rewrite lookup_insert_eq|]. rewrite lookup_insert_ne by done. by apply Ho. }
    rewrite map_size_insert. case_bool_decide as Hm; [destruct Hm as [? ->]; unfold id; lia|]. apply eq_None_not_Some in Hm as ->. lia.
  - assert (m' = delete c m) as ->.
    { apply map_eq. intros c'. destruct (decide (c' = c)) as [->|]; [by rewrite lookup_delete_eq|]. rewrite lookup_delete_ne by done. by apply Ho. }
    case_bool_decide as Hm.
    + destruct Hm as [p' Hp']. rewrite map_size_delete_Some by eauto.
      assert (size m <> 0)%nat by (eapply map_size_ne_0_lookup_2; eauto). lia.
    + apply eq_None_not_Some in Hm. rewrite delete_id by done. lia.
Qed.

Definition watch_change (s s' : ClientSession) : Z :=
  (if watching s' then 1 else 0) - (if watching s then 1 else 0).

Lemma change_ok e c p f d : sessions_ok e -> Z.of_nat (length (sessions e)) < 2 ^ 31 -> clientSessions e !! c = Some p ->
  d = watch_change (session_at e p) (f (session_at e p)) -> sessions_ok (change p f d e).
Proof.
  intros Hok Hlen Hc Hd. pose proof Hok as [HR HI HC HS]. pose proof (HR c p Hc) as Hp.
  assert (watchers (change p f d e) !! c = if watching (f (session_at e p)) then Some p else None) as H1.
  { rewrite watchers_lookup. cbn [clientSessions change set_sessions]. rewrite Hc. csimpl. by rewrite session_at_change, decide_True by done. }
  assert (forall c', c' <> c -> watchers (change p f d e) !! c' = watchers e !! c') as H2.
  { intros c' Hne. rewrite !watchers_lookup. cbn [clientSessions change set_sessions]. destruct (clientSessions e !! c') as [p'|] eqn:E; [|done]. csimpl.
    rewrite session_at_change, decide_False; [done| |done]. intros ->. apply Hne. by apply (HI c' c p). }
  assert (bool_decide (is_Some (watchers e !! c)) = watching (session_at e p)) as H3.
  { rewrite watchers_lookup, Hc. csimpl. by destruct (watching (session_at e p)); case_bool_decide as H; [|destruct H|destruct H|]. }
  pose proof (size_set (watchers e) (watchers (change p f d e)) c p _ H1 H2) as HZ. rewrite H3 in HZ.
  assert (size (watchers (change p f d e)) <= size (clientSessions e))%nat by apply map_size_filter.
  pose proof (watchers_size e Hok). split; cbn [clientSessions sessions watchedCount change set_sessions].
  - intros c' p' H'. rewrite length_alter. by eapply HR.
  - done.
  - fold (change p f d e). rewrite HC. rewrite int32_id; revert HZ Hd; unfold watch_change;
      destruct (watching (session_at e p)), (watching (f (session_at e p))); intros; lia.
  - by rewrite length_alter.
Qed.

Lemma watch_change_0 s s' : WatchedKeys s' = WatchedKeys s -> watch_change s s' = 0.
Proof. intros H. unfold watch_change, watching. rewrite H. case_bool_decide; done. Qed.

Lemma GetClientSession_ok c e e' p : sessions_ok e -> GetClientSession c e = (e', p) ->
  sessions_ok e' /\ clientSessions e' !! c = Some p /\
  (forall q, (q < length (sessions e))%nat -> session_at e' q = session_at e q) /\
  (forall c', c' <> c -> clientSessions e' !! c' = clientSessions e !! c') /\
  (length (sessions e) <= length (sessions e') <= S (length (sessions e)))%nat /\
  e' = set_sessions (sessions e') (clientSessions e') (watchedCount e) e /\
  (forall q, clientSessions e !! c = Some q -> e' = e /\ p = q).
Proof.
  intros Hok. pose proof Hok as [HR HI HC HS]. unfold GetClientSession. destruct (clientSessions e !! c) as [q|] eqn:E; intros [= <- <-].
  { repeat match goal with |- _ /\ _ => split end; try done; try lia; [by destruct e|]. intros ? [= <-]. done. }
  cbn [clientSessions sessions set_sessions watchedCount].
  set (e' := set_sessions _ _ _ e). set (s := mkSession _ _ _ _ _ _) in e'.
  assert (forall q, (q < length (sessions e))%nat -> session_at e' q = session_at e q) as Hat.
  { intros q Hq. unfold session_at, e'. cbn [sessions set_sessions]. by rewrite lookup_app_l. }
  assert (session_at e' (length (sessions e)) = s) as Hnew.
  { unfold session_at, e'. cbn [sessions set_sessions]. by rewrite lookup_app_r, Nat.sub_diag by done. }
  assert (watchers e' = watchers e) as Hw.
  { apply map_eq. intros c'. rewrite !watchers_lookup. cbn [clientSessions e' set_sessions]. destruct (decide (c' = c)) as [->|Hne].
    - rewrite lookup_insert_eq, E. csimpl. by rewrite Hnew.
    - rewrite lookup_insert_ne by done. destruct (clientSessions e !! c') as [q|] eqn:E'; [|done]. csimpl. by rewrite Hat by eauto. }
  repeat match goal with |- _ /\ _ => split end; try done.
  - split; cbn [clientSessions sessions watchedCount e' set_sessions].
    + intros c' q. rewrite length_app. cbn [length]. destruct (decide (c' = c)) as [->|Hne].
      * rewrite lookup_insert_eq. intros [= <-]. lia.
      * rewrite lookup_insert_ne by done. intros H. apply HR in H. lia.
    + intros c1 c2 q. destruct (decide (c1 = c)) as [->|], (decide (c2 = c)) as [->|]; rewrite ?lookup_insert_eq, ?lookup_insert_ne by done; try done.
      * intros [= <-] H. apply HR in H. lia.
      * intros H [= <-]. apply HR in H. lia.
      * apply HI.
    + fold e'. by rewrite Hw.
    + rewrite map_size_insert_None, length_app by done. cbn [length]. lia.
  - by rewrite lookup_insert_eq.
  - intros c' Hne. by rewrite lookup_insert_ne.
  - rewrite length_app. cbn [length]. lia.
  - rewrite length_app. cbn [length]. lia.
Qed.

Lemma ClearClientSession_ok c e : sessions_ok e -> Z.of_nat (length (sessions e)) < 2 ^ 31 -> sessions_ok (ClearClientSession c e).
Proof.
  intros Hok Hlen. pose proof Hok as [HR HI HC HS]. unfold ClearClientSession. destruct (clientSessions e !! c) as [p|] eqn:E; [|done].
  set (e' := set_sessions _ _ _ e).
  assert (watchers e' = delete c (watchers e)) as Hw.
  { apply map_eq. intros c'. rewrite watchers_lookup. cbn [clientSessions e' set_sessions]. destruct (decide (c' = c)) as [->|Hne].
    - by rewrite !lookup_delete_eq.
    - rewrite !lookup_delete_ne by done. by rewrite watchers_lookup. }
  assert (watchers e !! c = if watching (session_at e p) then Some p else None) as Hc by (rewrite watchers_lookup, E; done).
  pose proof (watchers_size e Hok) as Hsz. split; cbn [clientSessions sessions watchedCount e' set_sessions].
  - intros c' q H. apply lookup_delete_Some in H as [_ H]. eauto.
  - intros c1 c2 q H1 H2. apply lookup_delete_Some in H1 as [_ H1], H2 as [_ H2]. eauto.
  - fold e'. rewrite Hw, map_size_delete, Hc, HC. destruct (watching (session_at e p)) eqn:Hp; unfold id.
    + assert (size (watchers e) <> 0)%nat by (eapply map_size_ne_0_lookup_2; eauto). rewrite int32_id; lia.
    + rewrite int32_id; lia.
  - rewrite map_size_delete_Some by eauto. lia.
Qed.

(** ** Touching watched keys *)

Definition touched (key : bytes) s : ClientSession :=
  if decide (key ∈ WatchedKeys s) then watch (WatchedKeys s) true s else s.

Lemma touch_fold key ps ss q : foldl (touch_one key) ss ps !! q = if decide (q ∈ ps) then touched key <$> ss !! q else ss !! q.
Proof.
  assert (forall s, touched key (touched key s) = touched key s) as Hid.
  { intros s. unfold touched. repeat case_decide; done. }
  revert ss. induction ps as [|p ps IH]; intros ss; cbn [foldl]; [done|]. rewrite IH. unfold touch_one. fold (touched key).
  destruct (decide (p = q)) as [->|Hne].
  - rewrite list_lookup_alter_eq. rewrite (decide_True (P := q ∈ q :: ps)) by left. case_decide; [|done].
    destruct (ss !! q); csimpl; [by rewrite Hid|done].
  - rewrite list_lookup_alter_ne by done. repeat case_decide; try done; set_solver.
Qed.

Lemma touchWatchedKey_at key e c p : 0 < watchedCount e -> clientSessions e !! c = Some p -> (p < length (sessions e))%nat ->
  session_at (touchWatchedKey key e) p = touched key (session_at e p).
Proof.
  intros Hw Hc Hp. unfold touchWatchedKey, session_at. destruct (Z.leb_spec (watchedCount e) 0); [lia|]. cbn [sessions set_sessions].
  rewrite touch_fold, decide_True.
  - apply lookup_lt_is_Some in Hp as [s ->]. done.
  - apply list_elem_of_fmap. exists (c, p). split; [done|]. by apply elem_of_map_to_list.
Qed.

(** Only [TxAborted] of sessions changes. *)
Record marked e e' : Prop := {
  mk_eq : e' = set_sessions (sessions e') (clientSessions e) (watchedCount e) e;
  mk_length : length (sessions e') = length (sessions e);
  mk_session : forall p, exists b, session_at e' p = watch (WatchedKeys (session_at e p)) b (session_at e p)
}.

Lemma marked_refl e : marked e e.
Proof. split; [by destruct e|done|]. intros p. exists (TxAborted (session_at e p)). by destruct (session_at e p). Qed.

Lemma marked_trans e1 e2 e3 : marked e1 e2 -> marked e2 e3 -> marked e1 e3.
Proof.
  intros [E1 L1 S1] [E2 L2 S2]. split.
  - rewrite E2. rewrite E1. done.
  - congruence.
  - intros p. destruct (S1 p) as [b1 H1], (S2 p) as [b2 H2]. exists b2. rewrite H2, H1. done.
Qed.

Lemma touchWatchedKey_marked key e : marked e (touchWatchedKey key e).
Proof.
  unfold touchWatchedKey. destruct (_ <=? 0); [apply marked_refl|]. split; cbn [sessions set_sessions]; [done| |].
  - generalize (snd <$> map_to_list (clientSessions e)). intros ps. generalize (sessions e).
    induction ps as [|p ps IH]; intros ss; cbn [foldl]; [done|]. rewrite IH. apply length_alter.
  - intros p. unfold session_at. cbn [sessions set_sessions]. rewrite touch_fold.
    destruct (sessions e !! p) as [s|]; [|exists false; by case_decide].
    case_decide; csimpl; [|exists (TxAborted s); by destruct s]. unfold touched.
    case_decide; [by exists true|exists (TxAborted s); by destruct s].
Qed.

Lemma marked_ok e e' : sessions_ok e -> marked e e' -> sessions_ok e'.
Proof.
  intros [HR HI HC HS] [E HL HM]. assert (watchers e' = watchers e) as Hw.
  { apply map_eq. intros c. rewrite !watchers_lookup. rewrite E at 1. cbn [clientSessions set_sessions].
    destruct (clientSessions e !! c) as [p|]; [|done]. csimpl. destruct (HM p) as [b ->]. done. }
  split; rewrite ?Hw, ?HL; rewrite E; cbn [clientSessions watchedCount set_sessions]; auto.
Qed.

(** Every registered session that watches one of the keys is aborted. *)
Lemma touch_keys_spec cmd args e e' : sessions_ok e -> touch_keys cmd args e = Ok e' ->
  marked e e' /\
  forall c p, clientSessions e !! c = Some p ->
    (TxAborted (session_at e p) = true -> TxAborted (session_at e' p) = true) /\
    forall K k, extractCommandKeys cmd args = Ok K -> k ∈ K -> k ∈ WatchedKeys (session_at e p) -> TxAborted (session_at e' p) = true.
Proof.
  intros Hok. unfold touch_keys. destruct (Z.ltb_spec 0 (watchedCount e)) as [Hpos|Hpos].
  - destruct (extractCommandKeys cmd args) as [K|]; csimpl; [|done]. intros [= <-].
    assert (forall K e, sessions_ok e -> 0 < watchedCount e -> marked e (foldl (fun e k => touchWatchedKey k e) e K) /\
      forall c p, clientSessions e !! c = Some p ->
        (TxAborted (session_at e p) = true -> TxAborted (session_at (foldl (fun e k => touchWatchedKey k e) e K) p) = true) /\
        forall k, k ∈ K -> k ∈ WatchedKeys (session_at e p) -> TxAborted (session_at (foldl (fun e k => touchWatchedKey k e) e K) p) = true) as HF.
    { clear - VectorIndex. induction K as [|k0 K IH]; intros e Hok Hpos; cbn [foldl].
      - split; [apply marked_refl|]. intros c p Hc. split; [done|]. set_solver.
      - pose proof (touchWatchedKey_marked k0 e) as HM. pose proof (marked_ok _ _ Hok HM) as Hok1. pose proof HM as [HE HL HS].
        destruct (IH (touchWatchedKey k0 e) Hok1) as [HM2 HT]; [rewrite HE; done|]. split; [by eapply marked_trans|].
        intros c p Hc. assert (clientSessions (touchWatchedKey k0 e) !! c = Some p) as Hc1 by (rewrite HE; done).
        destruct (HT c p Hc1) as [HT1 HT2]. pose proof (touchWatchedKey_at k0 e c p Hpos Hc (so_range _ Hok _ _ Hc)) as Hat. rewrite Hat in HT1, HT2.
        split.
        + intros Ha. apply HT1. unfold touched. case_decide; done.
        + intros k Hk HW. apply elem_of_cons in Hk as [->|Hk].
          * apply HT1. unfold touched. by rewrite decide_True.
          * apply (HT2 k Hk). unfold touched. case_decide; done. }
    destruct (HF K e Hok Hpos) as [HM HT]. split; [done|]. intros c p Hc. split; [apply (HT c p Hc)|].
    intros K' k [= <-] Hk HW. by apply (proj2 (HT c p Hc) k).
  - intros [= <-]. split; [apply marked_refl|]. intros c p Hc. split; [done|]. intros K k _ _ HW. exfalso.
    assert (watchers e !! c = Some p) as Hin.
    { rewrite watchers_lookup, Hc. csimpl. unfold watching. rewrite bool_decide_false by set_solver. done. }
    pose proof (so_count _ Hok). assert (size (watchers e) <> 0)%nat by (eapply map_size_ne_0_lookup_2; eauto). lia.
Qed.

End Table.

Section Laws.
Context {VectorIndex : Type}.
Context (ParseFloat : bytes -> option Z) (FormatFloat : Z -> bytes).

Abbreviation Keyspace := (@Keyspace.Keyspace SkipList.SkipList VectorIndex).
Abbreviation Engine := (@Session.Engine VectorIndex).
Abbreviation dispatch := (Session.dispatch (VectorIndex := VectorIndex) ParseFloat FormatFloat).
Abbreviation ExecuteCommand := (Session.ExecuteCommand (VectorIndex := VectorIndex) ParseFloat FormatFloat).
Implicit Types (e : Engine) (s : ClientSession).

(** ** What a command of a session does to the table *)

(** The engine but for its sessions and users. *)
Definition same_rest e e' : Prop :=
  ks e' = ks e /\ Password e' = Password e /\ AOF_ e' = AOF_ e /\ Replication_ e' = Replication_ e /\ Cluster_ e' = Cluster_ e /\
  MaxMemory e' = MaxMemory e /\ EvictionPolicy e' = EvictionPolicy e /\ memCheckCounter e' = memCheckCounter e.

(** Connection [c] may have got a session, whose state is [own] of the one it had;
    the sessions of other connections are as before. *)
Record session_effect (c : bytes) (own : ClientSession -> ClientSession -> Prop) e e' : Prop := {
  se_ok : sessions_ok e';
  se_rest : same_rest e e';
  se_length : (length (sessions e) <= length (sessions e') <= S (length (sessions e)))%nat;
  se_registered : is_Some (clientSessions e !! c) -> length (sessions e') = length (sessions e);
  se_others : forall c' p, c' <> c -> clientSessions e' !! c' = Some p ->
    clientSessions e !! c' = Some p /\ session_at e' p = session_at e p;
  se_keep : forall c' p, c' <> c -> clientSessions e !! c' = Some p -> clientSessions e' !! c' = Some p;
  se_own : forall p, clientSessions e !! c = Some p -> clientSessions e' !! c = Some p /\ own (session_at e p) (session_at e' p);
  se_new : forall p, clientSessions e !! c = None -> clientSessions e' !! c = Some p ->
    exists s0, WatchedKeys s0 = ∅ /\ TxQueue s0 = [] /\ own s0 (session_at e' p)
}.

Lemma effect_refl c (own : ClientSession -> ClientSession -> Prop) e : (forall s, own s s) -> sessions_ok e -> session_effect c own e e.
Proof. intros Hown Hok. split; try done; [lia|]. intros p Hn Hs. congruence. Qed.

Lemma effect_get c (own : ClientSession -> ClientSession -> Prop) e e1 p : (forall s, own s s) -> sessions_ok e ->
  GetClientSession c e = (e1, p) -> session_effect c own e e1 /\ clientSessions e1 !! c = Some p.
Proof.
  intros Hown Hok EG. destruct (GetClientSession_ok c e e1 p Hok EG) as (Hok1 & Hp & Hat & Hoth & Hl & Heq & Hsame).
  split; [|done]. split; try done.
  - rewrite Heq. repeat split.
  - intros [q Hq]. by destruct (Hsame q Hq) as [-> _].
  - intros c' q Hc' Hq. rewrite Hoth in Hq by done. split; [done|]. apply Hat. eapply so_range; [exact Hok|done].
  - intros c' q Hc' Hq. by rewrite Hoth.
  - intros q Hq. destruct (Hsame q Hq) as [-> ->]. done.
  - intros q Hn. rewrite Hp. intros [= <-]. exists (session_at e1 p). split; [|split; [|apply Hown]];
      unfold GetClientSession in EG; rewrite Hn in EG; injection EG as <- <-;
      unfold session_at; cbn [sessions set_sessions]; by rewrite lookup_app_r, Nat.sub_diag by done.
Qed.

Lemma effect_change c (own own' : ClientSession -> ClientSession -> Prop) f d e e1 p : session_effect c own e e1 ->
  clientSessions e1 !! c = Some p -> Z.of_nat (length (sessions e1)) < 2 ^ 31 ->
  (forall s s', own s s' -> own' s (f s')) -> d = watch_change (session_at e1 p) (f (session_at e1 p)) ->
  session_effect c own' e (change p f d e1).
Proof.
  intros [Hok1 HR Hl Hg Ho Hk Hs Hn] Hp Hlen Hown Hd. pose proof (so_range _ Hok1 _ _ Hp) as Hr.
  assert (forall q c', c' <> c -> clientSessions e1 !! c' = Some q -> q <> p) as Hne.
  { intros q c' Hc' Hq ->. apply Hc'. by apply (so_inj _ Hok1 _ _ p). }
  split; cbn [clientSessions change set_sessions].
  - by eapply change_ok.
  - done.
  - cbn [sessions change set_sessions]. by rewrite length_alter.
  - cbn [sessions change set_sessions]. by rewrite length_alter.
  - intros c' q Hc' Hq. destruct (Ho c' q Hc' Hq). split; [done|].
    fold (change p f d e1). rewrite session_at_change, decide_False; [done|by apply (Hne q c')|done].
  - done.
  - intros q Hq. destruct (Hs q Hq) as [H1 H2]. split; [done|]. assert (q = p) as -> by congruence.
    fold (change p f d e1). rewrite session_at_change, decide_True by done. by apply Hown.
  - intros q Hq. rewrite Hp. intros [= <-]. fold (change p f d e1). rewrite session_at_change, decide_True by done.
    destruct (Hn p Hq Hp) as (s0 & H1 & H2 & H3). exists s0. split; [done|]. split; [done|]. by apply Hown.
Qed.

Lemma effect_acl c own e e' a : session_effect c own e e' -> session_effect c own e (set_acl a e').
Proof. intros [[? ? ? ?] ? ? ? ? ? ? ?]. by split; [split|..]. Qed.

Lemma effect_from_acl c own e e' a : session_effect c own (set_acl a e) e' -> session_effect c own e e'.
Proof. intros [[? ? ? ?] ? ? ? ? ? ? ?]. by split; [split|..]. Qed.

(** What a command may do to the session of its own connection. *)
Definition own_effect (cmd : bytes) s s' : Prop :=
  (cmd <> str "UNWATCH" -> WatchedKeys s ⊆ WatchedKeys s' /\ TxAborted s' = TxAborted s) /\
  (TxQueue s' = TxQueue s \/ TxQueue s' = []).

Lemma own_refl cmd s : own_effect cmd s s.
Proof. split; [done|by left]. Qed.

Ltac own_step := intros ? ? [Ho Hq]; split; [intros Hcmd; specialize (Ho Hcmd); cbn; set_solver|cbn; tauto].

Lemma cmd_auth_effect c args e : sessions_ok e -> Z.of_nat (length (sessions e)) < 2 ^ 31 - 1 ->
  session_effect c (own_effect (str "AUTH")) e (cmd_auth c args e).1 /\ (cmd_auth c args e).2.2 = false.
Proof.
  intros Hok Hlen. unfold cmd_auth. destruct args as [|a args]; [split; [by apply effect_refl; [apply own_refl|]|done]|].
  destruct (match args with [] => (default_name, a) | b :: _ => (a, b) end) as [username password].
  assert (exists acl, sync_default username e = set_acl acl e) as [acl ->].
  { unfold sync_default. assert (e = set_acl (ACL e) e) by by destruct e. repeat case_match; eauto. }
  assert (sessions_ok (set_acl acl e)) as Hok1 by by destruct Hok.
  assert (forall user, let '(e1, r) := let '(e1, p) := GetClientSession c (set_acl acl e) in (change p (logged_in user) 0 e1, reads OK) in
    session_effect c (own_effect (str "AUTH")) (set_acl acl e) e1 /\ r.2 = false) as Hlog.
  { intros user. destruct (GetClientSession c (set_acl acl e)) as [e1 p] eqn:EG. split; [|done].
    destruct (effect_get c (own_effect (str "AUTH")) _ _ _ (own_refl _) Hok1 EG) as [HE Hp]. pose proof (se_length _ _ _ _ HE) as Hl.
    eapply (effect_change _ _ _ _ _ _ _ _ HE Hp); [cbn [sessions set_acl] in Hl; lia|own_step|by rewrite watch_change_0]. }
  assert (session_effect c (own_effect (str "AUTH")) (set_acl acl e) (set_acl acl e)) as Hid by (apply effect_refl; [apply own_refl|done]).
  assert (forall x : Engine * (Resp.Value * bool), session_effect c (own_effect (str "AUTH")) (set_acl acl e) x.1 /\ x.2.2 = false ->
    session_effect c (own_effect (str "AUTH")) e x.1 /\ x.2.2 = false) as Hpre.
  { intros x [H1 H2]. split; [by eapply effect_from_acl|done]. }
  apply Hpre. repeat case_match; try done; subst.
  all: match goal with |- context [logged_in ?u] => pose proof (Hlog u) as HL end;
    destruct (GetClientSession c (set_acl acl e)); exact HL.
Qed.

Lemma cmd_acl_effect order c args e : sessions_ok e ->
  session_effect c (own_effect (str "ACL")) e (cmd_acl order c args e).1 /\ (cmd_acl order c args e).2.2 = false.
Proof.
  intros Hok. assert (forall u args acl, (handleACLCommand order u args acl).2.2 = false) as Hr.
  { intros u args' acl. unfold handleACLCommand, acl_subcommand. repeat case_match; simplify_eq; done. }
  assert (session_effect c (own_effect (str "ACL")) e e) as Hid by (apply effect_refl; [apply own_refl|done]).
  unfold cmd_acl. destruct args as [|a args]; [done|]. destruct (ACL e) eqn:EA; [|split; [done|apply Hr]].
  destruct (GetClientSession c e) as [e1 p] eqn:EG. destruct (effect_get c (own_effect (str "ACL")) _ _ _ (own_refl _) Hok EG) as [HE Hp].
  pose proof (Hr (SessionUser (session_at e1 p)) (a :: args) (ACL e1)) as H. destruct (handleACLCommand _ _ _ _) as [acl r]. split; [by apply effect_acl|done].
Qed.

Lemma cmd_multi_effect c e : sessions_ok e -> Z.of_nat (length (sessions e)) < 2 ^ 31 - 1 ->
  session_effect c (own_effect (str "MULTI")) e (cmd_multi c e).1 /\ (cmd_multi c e).2.2 = false.
Proof.
  intros Hok Hlen. unfold cmd_multi. destruct (GetClientSession c e) as [e1 p] eqn:EG. split; [|done].
  destruct (effect_get c (own_effect (str "MULTI")) _ _ _ (own_refl _) Hok EG) as [HE Hp]. pose proof (se_length _ _ _ _ HE).
  eapply (effect_change _ _ _ _ _ _ _ _ HE Hp); [lia|own_step|by rewrite watch_change_0].
Qed.

Lemma cmd_watch_effect c args e : sessions_ok e -> Z.of_nat (length (sessions e)) < 2 ^ 31 - 1 ->
  session_effect c (own_effect (str "WATCH")) e (cmd_watch c args e).1 /\ (cmd_watch c args e).2.2 = false.
Proof.
  intros Hok Hlen. unfold cmd_watch. destruct (GetClientSession c e) as [e1 p] eqn:EG.
  destruct (effect_get c (own_effect (str "WATCH")) _ _ _ (own_refl _) Hok EG) as [HE Hp]. pose proof (se_length _ _ _ _ HE).
  destruct (InMulti _); [done|]. destruct args as [|a args]; [done|]. split; [|done].
  eapply (effect_change _ _ _ _ _ _ _ _ HE Hp); [lia|own_step|]. unfold watch_change, watching. cbn [WatchedKeys watch].
  rewrite (bool_decide_false (_ ∪ _ = ∅)) by set_solver. case_bool_decide; done.
Qed.

Lemma unwatch_change s : watch_change s (watch ∅ false s) = if watching s then -1 else 0.
Proof. unfold watch_change. destruct (watching s); done. Qed.

Lemma cmd_unwatch_effect c e : sessions_ok e -> Z.of_nat (length (sessions e)) < 2 ^ 31 - 1 ->
  session_effect c (own_effect (str "UNWATCH")) e (cmd_unwatch c e).1 /\ (cmd_unwatch c e).2.2 = false.
Proof.
  intros Hok Hlen. unfold cmd_unwatch, unwatch. destruct (GetClientSession c e) as [e1 p] eqn:EG. split; [|done].
  destruct (effect_get c (own_effect (str "UNWATCH")) _ _ _ (own_refl _) Hok EG) as [HE Hp]. pose proof (se_length _ _ _ _ HE).
  eapply (effect_change _ _ _ _ _ _ _ _ HE Hp); [lia| |by rewrite unwatch_change]. intros ? ? [Ho Hq]. split; [done|exact Hq].
Qed.

(** A command that ends changes either the table of sessions or the keyspace. *)
Lemma dispatch_effect v c cmd args e e' a w : sessions_ok e -> Z.of_nat (length (sessions e)) < 2 ^ 31 - 1 ->
  dispatch v c cmd args e = ret (e', (a, w)) ->
  (session_effect c (own_effect cmd) e e' /\ w = false) \/
  (exists k, Commands.dispatch ParseFloat FormatFloat (rand v) (clk v) cmd args (ks e) = Some (Ok (k, (a, w))) /\ e' = set_ks k e).
Proof.
  intros Hok Hlen. unfold Session.dispatch.
  assert (Forall (fun p => p.1 = cmd -> session_effect c (own_effect cmd) e (p.2 e).1 /\ (p.2 e).2.2 = false)
    (session_cases (VectorIndex := VectorIndex) v c args)) as HA.
  { assert (forall r, session_effect c (own_effect cmd) e (e, reads r).1 /\ (e, reads r).2.2 = false) as Hid.
    { intros r. split; [apply effect_refl; [apply own_refl|done]|done]. }
    unfold session_cases. repeat (apply Forall_cons; split; [cbn [fst snd]; intros <-|]); try apply Forall_nil_2; first
      [apply Hid | by apply cmd_auth_effect | by apply cmd_acl_effect | by apply cmd_multi_effect | by apply cmd_watch_effect | by apply cmd_unwatch_effect]. }
  destruct (list_find _ _) as [[i p]|] eqn:E.
  - intros [= Hp]. apply list_find_Some in E as (Hi & Hc & _). rewrite Forall_forall in HA.
    specialize (HA p (list_elem_of_lookup_2 _ _ _ Hi) Hc). rewrite Hp in HA. by left.
  - destruct (Commands.dispatch _ _ _ _ _ _ _) as [[[k [a' w']]|]|]; csimpl; [|done|].
    + intros [= <- <- <-]. right. by exists k.
    + case_decide; [done|]. intros [= <- <- <-]. left. split; [|done]. apply effect_refl; [apply own_refl|done].
Qed.

(** ** Optimistic locking *)

(** Under [k] there is what there was, unless it has expired. *)
Definition unchanged (ks0 ks1 : Keyspace) (k : bytes) : Prop :=
  option_Forall2 same_entry (look ks0 k) (look ks1 k) \/ exists ent, look ks0 k = Some ent /\ 0 < ExpiresAt ent /\ look ks1 k = None.

(** Commands that WATCH can see: not FLUSHDB and FLUSHALL, for which no key is
    reported, and not ZADD with a score that does not parse, which is not a write. *)
Definition visible_cmd (cmd : bytes) (args : list bytes) : Prop :=
  cmd <> str "FLUSHDB" /\ cmd <> str "FLUSHALL" /\ (cmd = str "ZADD" -> scores_ok ParseFloat (drop 1 args)).

(** Under both spellings the engine compares. *)
Definition visible (argv : list bytes) : Prop :=
  match argv with [] => True | name :: args => visible_cmd (ToUpperFast name) args /\ visible_cmd (ToUpper name) args end.

Lemma unchanged_refl ks0 k : unchanged ks0 ks0 k.
Proof. left. destruct (look ks0 k); by constructor. Qed.

Lemma unchanged_faded t ks0 ks1 ks2 k : unchanged ks0 ks1 k -> faded t ks1 ks2 -> unchanged ks0 ks2 k.
Proof.
  intros HU [_ HF _]. specialize (HF k). destruct HU as [H|(e & H0 & Hx & H1)].
  - destruct HF as [H'|(e & H1 & Hx & H2)].
    + left. destruct H as [e1 e2 (A1 & A2 & A3)|]; inversion H' as [? e3 (B1 & B2 & B3)|]; subst; constructor. by repeat split; etransitivity.
    + rewrite H1 in H. inversion H as [e0 ? (_ & _ & Hs)|]; subst. right. exists e0. split; [done|]. split; [|done]. rewrite Hs.
      unfold IsExpired in Hx. apply andb_true_iff in Hx as [Hx _]. lia.
  - right. exists e. split; [done|]. split; [done|]. destruct HF as [H'|(e' & H' & _)]; [|congruence]. rewrite H1 in H'. by inversion H'.
Qed.

Section watch.
Context (w : bytes) (p : nat) (W : gset bytes) (ks0 : Keyspace).

(** The state between WATCH and EXEC of connection [w]. *)
Record watch_inv e : Prop := {
  wi_ok : sessions_ok e;
  wi_wf : wf (ks e);
  wi_memory : MaxMemory e <= 0;
  wi_registered : clientSessions e !! w = Some p;
  wi_keys : W ⊆ WatchedKeys (session_at e p);
  wi_queues : forall c q, clientSessions e !! c = Some q -> Forall visible (TxQueue (session_at e q));
  wi_unchanged : TxAborted (session_at e p) = false -> forall k, k ∈ W -> unchanged ks0 (ks e) k
}.

(** A change of sessions by connection [c] keeps it, if it does not end the watch. *)
Lemma watch_inv_effect c own e e' : watch_inv e -> session_effect c own e e' ->
  (forall s s', own s s' -> TxQueue s' = TxQueue s \/ TxQueue s' = [] \/ exists argv, visible argv /\ TxQueue s' = TxQueue s ++ [argv]) ->
  (c = w -> forall s s', own s s' -> WatchedKeys s ⊆ WatchedKeys s' /\ TxAborted s' = TxAborted s) ->
  watch_inv e'.
Proof using.
  intros [I1 I2 I3 I4 I5 I6 I7] [S1 (R1 & R2 & R3 & R4 & R5 & R6 & R7 & R8) S3 _ S4 S5 S6 S7] Hq Hw.
  assert (clientSessions e' !! w = Some p /\ WatchedKeys (session_at e p) ⊆ WatchedKeys (session_at e' p) /\
    TxAborted (session_at e' p) = TxAborted (session_at e p)) as (H1 & H2 & H3).
  { destruct (decide (c = w)) as [->|Hne].
    - destruct (S6 p I4) as [H1 H2]. split; [done|]. by apply (Hw eq_refl).
    - pose proof (S5 w p ltac:(done) I4) as H1. destruct (S4 w p ltac:(done) H1) as [_ ->]. done. }
  split; rewrite ?R1, ?R6; try done.
  - set_solver.
  - intros c' q Hc'. destruct (decide (c' = c)) as [->|Hne].
    + destruct (clientSessions e !! c) as [q'|] eqn:E.
      * destruct (S6 q' eq_refl) as [H4 H5]. assert (q' = q) as -> by congruence. specialize (I6 c q E).
        destruct (Hq _ _ H5) as [->|[->|(argv & Hv & ->)]]; [done|constructor|]. apply Forall_app. split; [done|]. by constructor.
      * destruct (S7 q eq_refl Hc') as (s0 & _ & Hs0 & H5). destruct (Hq _ _ H5) as [->|[->|(argv & Hv & ->)]]; rewrite ?Hs0; repeat constructor; done.
    + destruct (S4 c' q Hne Hc') as [H4 ->]. by eapply I6.
  - rewrite H3. done.
Qed.

(** A data command, with the touching of its keys when it is a write. *)
Lemma watch_inv_data v cmd args e k a (isWrite : bool) e1 e2 : watch_inv e -> visible_cmd cmd args ->
  Commands.dispatch ParseFloat FormatFloat (rand v) (clk v) cmd args (ks e) = Some (Ok (k, (a, isWrite))) ->
  ks e1 = k -> sessions e1 = sessions e -> clientSessions e1 = clientSessions e -> watchedCount e1 = watchedCount e -> MaxMemory e1 = MaxMemory e ->
  (if isWrite then touch_keys cmd args e1 else Ok e1) = Ok e2 -> watch_inv e2.
Proof using.
  intros [I1 I2 I3 I4 I5 I6 I7] (V1 & V2 & V3) HD E1 E2 E3 E4 E5 HT.
  assert (forall q, session_at e1 q = session_at e q) as Hat by (intros q; unfold session_at; by rewrite E2).
  assert (sessions_ok e1) as Hok1.
  { destruct I1 as [A B C D]. assert (watchers e1 = watchers e) as Hw.
    { apply map_eq. intros c. rewrite !watchers_lookup, E3. destruct (clientSessions e !! c); [|done]. csimpl. by rewrite Hat. }
    split; rewrite ?Hw, ?E2, ?E3, ?E4; done. }
  destruct isWrite.
  - destruct (touch_keys_spec cmd args e1 e2 Hok1 HT) as [HM HA]. pose proof HM as [ME ML MS].
    destruct (extractCommandKeys cmd args) as [K|] eqn:HK.
    2:{ unfold extractCommandKeys in HK. destruct args as [|? ?]; [done|]. repeat case_decide; try done.
        destruct H0 as [-> | ->]; vm_compute in HD; discriminate HD. }
    assert (wf k /\ frame K (ks e) k) as [Hwf Hfr].
    { pose proof (dispatch_local ParseFloat FormatFloat (rand v) (clk v) cmd args K (ks e) (ks e) I2 I2) as HL. rewrite HD in HL.
      destruct HL as [_ [? _ _ ? _]]; [| |done|done]; [|done].
      intros Hin. apply elem_of_cons in Hin as [->|Hin]; [vm_compute in HD; discriminate HD|]. set_solver. }
    assert (ks e2 = k /\ clientSessions e2 = clientSessions e /\ MaxMemory e2 = MaxMemory e) as (F1 & F2 & F3) by (by rewrite ME).
    split; rewrite ?F1, ?F2, ?F3; try done.
    + by eapply marked_ok.
    + destruct (MS p) as [b ->]. cbn [WatchedKeys watch]. by rewrite Hat.
    + intros c q Hc. destruct (MS q) as [b ->]. cbn [TxQueue watch]. rewrite Hat. by eapply I6.
    + intros Hna k0 Hk0.
      destruct (HA w p ltac:(by rewrite E3)) as [HA1 HA2]. rewrite Hat in HA1, HA2.
      assert (TxAborted (session_at e p) = false) as Hna0 by (destruct (TxAborted (session_at e p)); [rewrite HA1 in Hna by done; done|done]).
      destruct (decide (k0 ∈ K)) as [Hin|Hout].
      * rewrite (HA2 K k0) in Hna by (done || set_solver). done.
      * pose proof (I7 Hna0 k0 Hk0) as HU. unfold unchanged in *. by rewrite (Hfr k0 Hout).
  - injection HT as <-. pose proof (dispatch_reads ParseFloat FormatFloat (clk v) (ks e) I2 (rand v) cmd args _ V3 HD _ _ eq_refl) as HF.
    split; rewrite ?E1, ?E3, ?E5, ?Hat; try done.
    + apply HF.
    + intros c q Hc. rewrite Hat. by eapply I6.
    + intros Hna k0 Hk0. eapply unchanged_faded; [|exact HF]. by apply I7.
Qed.

Definition small e : Prop := Z.of_nat (length (sessions e)) < 2 ^ 31 - 1.

(** One command of connection [c], before it is logged. *)
Lemma watch_inv_dispatch v c cmd args e e1 a (isWrite : bool) e2 : watch_inv e -> small e -> visible_cmd cmd args ->
  (c = w -> cmd <> str "UNWATCH") -> dispatch v c cmd args e = ret (e1, (a, isWrite)) ->
  forall e1', ks e1' = ks e1 -> sessions e1' = sessions e1 -> clientSessions e1' = clientSessions e1 -> watchedCount e1' = watchedCount e1 ->
  MaxMemory e1' = MaxMemory e1 -> (if isWrite then touch_keys cmd args e1' else Ok e1') = Ok e2 ->
  watch_inv e2 /\ (is_Some (clientSessions e !! c) -> length (sessions e2) = length (sessions e) /\ is_Some (clientSessions e2 !! c)).
Proof using.
  intros HI Hsm Hv Hcw HD e1' E1 E2 E3 E4 E5 HT.
  destruct (dispatch_effect v c cmd args e e1 a isWrite (wi_ok _ HI) Hsm HD) as [[HE ->]|(k & HD' & ->)].
  - injection HT as <-. assert (watch_inv e1) as HI1.
    { eapply (watch_inv_effect c (own_effect cmd)); [done|done| |].
      - intros s s' [_ [H|H]]; auto.
      - intros Hc s s' [H _]. by apply H, Hcw. }
    split.
    + destruct HI1 as [[A B C D] I2 I3 I4 I5 I6 I7].
      assert (forall q, session_at e1' q = session_at e1 q) as Hat by (intros q; unfold session_at; by rewrite E2).
      assert (watchers e1' = watchers e1) as Hw.
      { apply map_eq. intros c'. rewrite !watchers_lookup, E3. destruct (clientSessions e1 !! c'); [|done]. csimpl. by rewrite Hat. }
      split; rewrite ?E1, ?E3, ?E5, ?Hat; try done; [split; rewrite ?Hw, ?E2, ?E3, ?E4; done|].
      intros c' q Hc'. rewrite Hat. by eapply I6.
    + intros Hc. rewrite E2, E3. split; [by apply (se_registered _ _ _ _ HE)|]. destruct Hc as [q Hq]. exists q. by apply (se_own _ _ _ _ HE).
  - split; [by eapply (watch_inv_data v cmd args e k a isWrite e1' e2)|]. intros Hc.
    assert (length (sessions e2) = length (sessions e1') /\ clientSessions e2 = clientSessions e1') as [-> ->]; [|split; [by rewrite E2|by rewrite E3]].
    destruct isWrite; [|by injection HT as <-]. unfold touch_keys in HT. destruct (0 <? _); [|by injection HT as <-].
    destruct (extractCommandKeys cmd args) as [K|]; csimpl in HT; [|done]. injection HT as <-. clear - VectorIndex. revert e1'.
    induction K as [|k K IH]; intros e1'; cbn [foldl]; [done|]. destruct (IH (touchWatchedKey k e1')) as [-> ->].
    destruct (touchWatchedKey_marked k e1') as [ME ML _]. split; [done|]. by rewrite ME.
Qed.

Lemma exec_queue_inv vs c queue : c <> w -> forall i e e' rs, watch_inv e -> small e -> is_Some (clientSessions e !! c) -> Forall visible queue ->
  exec_queue ParseFloat FormatFloat vs i c queue e = ret (e', rs) -> watch_inv e' /\ length (sessions e') = length (sessions e).
Proof using.
  intros Hc. induction queue as [|[|name args] queue IH]; intros i e e' rs HI Hsm Hreg HV; cbn [exec_queue].
  - by intros [= <- <-].
  - inversion HV; subst. destruct (exec_queue _ _ vs (S i) c queue e) as [[[e1 rs1]|]|] eqn:E; cbn [andThen]; try done. intros [= <- _]. by eapply IH.
  - apply Forall_cons in HV as [HV1 HV2]. unfold visible in HV1. destruct HV1 as [_ HV1].
    destruct (Session.dispatch _ _ (vs i) c (ToUpper name) args e) as [[[e1 [val isWrite]]|]|] eqn:ED; cbn [andThen]; try done.
    destruct (if isWrite then touch_keys (ToUpper name) args (log_write c (name :: args) e1) else Ok e1) as [e2|] eqn:ET; cbn [andThen]; [|done].
    destruct (exec_queue _ _ vs (S i) c queue e2) as [[[e3 rs3]|]|] eqn:E3; cbn [andThen]; try done. intros [= <- _].
    assert (watch_inv e2 /\ (is_Some (clientSessions e !! c) -> length (sessions e2) = length (sessions e) /\ is_Some (clientSessions e2 !! c))) as [HI2 HL2].
    { eapply (watch_inv_dispatch (vs i) c (ToUpper name) args e e1 val isWrite e2 HI Hsm HV1 ltac:(done) ED
        (if isWrite then log_write c (name :: args) e1 else e1)); destruct isWrite; done. }
    destruct (HL2 Hreg) as [HL3 HR3]. destruct (IH (S i) e2 e3 rs3) as [H1 H2]; try done; [unfold small; rewrite HL3; done|].
    split; [done|]. by rewrite H2.
Qed.

Lemma leave_multi_effect c q e : sessions_ok e -> small e -> clientSessions e !! c = Some q ->
  session_effect c (fun s s' => TxQueue s' = []) e (unwatch q (change q (in_multi false []) 0 e)).
Proof using.
  intros Hok Hsm Hq. unfold small in Hsm. pose proof (effect_refl c (fun _ _ => True) e ltac:(done) Hok) as H0.
  pose proof (effect_change c _ (fun s s' => TxQueue s' = []) (in_multi false []) 0 e e q H0 Hq ltac:(lia) ltac:(done)
    ltac:(by rewrite watch_change_0)) as H1.
  eapply (effect_change c _ _ (watch ∅ false) _ e _ q H1); [done| |done|by rewrite unwatch_change].
  cbn [sessions change set_sessions]. rewrite length_alter. lia.
Qed.

Lemma queue_command_inv vs c cmd argv q e e' r : watch_inv e -> small e -> clientSessions e !! c = Some q -> visible argv ->
  (c = w -> cmd <> str "EXEC" /\ cmd <> str "DISCARD") ->
  queue_command ParseFloat FormatFloat vs c cmd argv q e = ret (e', r) -> watch_inv e' /\ length (sessions e') = length (sessions e).
Proof using.
  intros HI Hsm Hq HV Hcw. pose proof (wi_ok _ HI) as Hok.
  pose proof (leave_multi_effect c q e Hok Hsm Hq) as HE. set (e1 := unwatch q (change q (in_multi false []) 0 e)) in *.
  assert (c <> w -> watch_inv e1) as HI1 by (intros Hc; eapply watch_inv_effect; [done|exact HE|by auto|done]).
  assert (length (sessions e1) = length (sessions e)) as HL by (apply (se_registered _ _ _ _ HE); eauto).
  unfold queue_command. case_decide as D1; [|case_decide as D2; [|case_decide as D3]].
  - assert (c <> w) as Hc by (intros ->; by destruct (Hcw eq_refl)). unfold executeTransaction. fold e1.
    destruct (TxAborted _); [intros [= <- _]; auto|].
    destruct (exec_queue _ _ vs 0 c _ e1) as [[[e2 rs]|]|] eqn:E; cbn [andThen]; try done. intros [= <- _].
    destruct (exec_queue_inv vs c _ Hc _ _ _ _ (HI1 Hc) ltac:(unfold small; rewrite HL; done)
      ltac:(eexists; by apply (se_own _ _ _ _ HE)) (wi_queues _ HI c q Hq) E) as [H1 H2]. split; [done|]. by rewrite H2.
  - assert (c <> w) as Hc by (intros ->; by destruct (Hcw eq_refl)). intros [= <- _]. auto.
  - by intros [= <- _].
  - intros [= <- _]. split; [|cbn [sessions change set_sessions]; by rewrite length_alter]. unfold small in Hsm.
    eapply (watch_inv_effect c (fun s s' => s' = in_multi (InMulti s) (TxQueue s ++ [argv]) s)); [done| | |].
    + eapply (effect_change c eq); [by apply effect_refl|done|lia|by intros s s' ->|by rewrite watch_change_0].
    + intros s s' ->. right. right. by exists argv.
    + by intros _ s s' ->.
Qed.

Lemma run_command_inv v c name args e e' r : watch_inv e -> small e -> is_Some (clientSessions e !! c) -> visible (name :: args) ->
  (c = w -> ToUpperFast name <> str "UNWATCH") ->
  run_command ParseFloat FormatFloat v c (ToUpperFast name) (name :: args) e = ret (e', r) -> watch_inv e' /\ length (sessions e') = length (sessions e).
Proof using.
  intros HI Hsm Hreg [HV _] Hcw. unfold run_command. cbn [tail].
  destruct (Session.dispatch _ _ v c _ args e) as [[[e1 [val isWrite]]|]|] eqn:ED; cbn [andThen]; try done.
  pose proof (watch_inv_dispatch v c (ToUpperFast name) args e e1 val isWrite) as HD.
  destruct isWrite.
  - destruct (touch_keys _ args e1) as [e2|] eqn:ET; cbn [andThen]; [|done].
    destruct (HD e2 HI Hsm HV Hcw ED e1 eq_refl eq_refl eq_refl eq_refl eq_refl ET) as [HI2 HL2].
    unfold check_memory. pose proof (wi_memory _ HI2). destruct (Z.leb_spec (MaxMemory e2) 0); [|lia]. intros [= <- _].
    split; [|by apply HL2]. destruct HI2 as [[? ? ? ?] ? ? ? ? ? ?]. by split; [split|..].
  - intros [= <- _]. destruct (HD e1 HI Hsm HV Hcw ED e1 eq_refl eq_refl eq_refl eq_refl eq_refl eq_refl) as [HI2 HL2]. split; [done|by apply HL2].
Qed.

(** The commands of [w] itself that end the watch. *)
Definition ends_watch (argv : list bytes) : Prop :=
  match argv with [] => False | name :: _ => ToUpperFast name ∈ [str "EXEC"; str "DISCARD"; str "UNWATCH"] end.

Lemma ExecuteCommand_inv vs c argv e e' r : watch_inv e -> Z.of_nat (length (sessions e)) < 2 ^ 31 - 2 -> visible argv -> (c = w -> ~ ends_watch argv) ->
  ExecuteCommand vs c argv e = ret (e', r) -> watch_inv e' /\ (length (sessions e') <= S (length (sessions e)))%nat.
Proof using.
  intros HI Hsm HV Hcw. unfold Session.ExecuteCommand. destruct (GetClientSession c e) as [e1 q] eqn:EG.
  destruct (effect_get c eq e e1 q ltac:(done) (wi_ok _ HI) EG) as [HE Hq]. pose proof (se_length _ _ _ _ HE) as HL.
  assert (watch_inv e1) as HI1.
  { eapply watch_inv_effect; [exact HI|exact HE| |]; [intros s s' <-; by left|by intros _ s s' <-]. }
  unfold ExecuteCommandWithSession. destruct argv as [|name args]; [intros [= <- _]; split; [done|lia]|].
  destruct (guards _ _ _ _ _) as [[refused|]|]; cbn [andThen]; [intros [= <- _]; split; [done|lia]| |done].
  assert (small e1) as Hsm1 by (unfold small; lia). destruct (InMulti _).
  - intros E. destruct (queue_command_inv vs c (ToUpperFast name) (name :: args) q e1 e' r HI1 Hsm1 Hq HV) as [H1 H2]; [|exact E|split; [done|lia]].
    intros Hc. specialize (Hcw Hc). cbn [ends_watch] in Hcw. split; intros Hn; apply Hcw; rewrite Hn; set_solver.
  - intros E. destruct (run_command_inv (vs 0%nat) c name args e1 e' r HI1 Hsm1 ltac:(eauto) HV) as [H1 H2]; [|exact E|split; [done|lia]].
    intros Hc Hn. apply (Hcw Hc). cbn [ends_watch]. rewrite Hn. set_solver.
Qed.

(** ** Histories of several clients *)

Inductive client_op := Client (c : bytes) (vs : nat -> env) (argv : list bytes) | Disconnect (c : bytes).

Definition client_step (op : client_op) e : option (res fault Engine) :=
  match op with
  | Client c vs argv => andThen (ExecuteCommand vs c argv e) (fun r => ret r.1)
  | Disconnect c => ret (ClearClientSession c e)
  end.

Fixpoint clients (ops : list client_op) e : option (res fault Engine) :=
  match ops with
  | [] => ret e
  | op :: ops' => andThen (client_step op e) (clients ops')
  end.

(** The connection [w] stays, does not end its watch, and all commands are ones
    WATCH can see. *)
Definition watch_goes_on (op : client_op) : Prop :=
  match op with
  | Client c _ argv => visible argv /\ (c = w -> ~ ends_watch argv)
  | Disconnect c => c <> w
  end.

Lemma clients_inv ops : forall e e', watch_inv e -> Z.of_nat (length (sessions e) + length ops) < 2 ^ 31 - 2 ->
  Forall watch_goes_on ops -> clients ops e = ret e' -> watch_inv e'.
Proof using.
  induction ops as [|[c vs argv|c] ops IH]; intros e e' HI Hlen HV; cbn [clients client_step].
  - by intros [= <-].
  - apply Forall_cons in HV as [[HV1 HV2] HV3]. cbn [length] in Hlen.
    destruct (Session.ExecuteCommand _ _ vs c argv e) as [[[e1 r]|]|] eqn:E; cbn [andThen fst]; try done.
    destruct (ExecuteCommand_inv vs c argv e e1 r HI ltac:(lia) HV1 HV2 E) as [HI1 HL]. apply IH; [done|lia|done].
  - apply Forall_cons in HV as [HV1 HV2]. cbn [length] in Hlen. cbn [andThen ret]. apply IH; [|unfold ClearClientSession; case_match; cbn; lia|done].
    cbn [watch_goes_on] in HV1. pose proof (ClearClientSession_ok c e (wi_ok _ HI) ltac:(lia)) as Hok. destruct HI as [I1 I2 I3 I4 I5 I6 I7].
    unfold ClearClientSession in *. destruct (clientSessions e !! c) as [q|] eqn:Eq; [|by split].
    split; try done.
    + cbn [clientSessions set_sessions]. by rewrite lookup_delete_ne.
    + intros c' q' H. cbn [clientSessions set_sessions] in H. apply lookup_delete_Some in H as [_ H]. by apply (I6 c' q').
Qed.

End watch.

(** The replies of the guards are errors. *)
Lemma guards_error c cmd args s e r : guards c cmd args s e = Ok (Some r) -> exists t, r = Error t.
Proof.
  unfold guards, auth_guard, acl_guard, replica_guard, cluster_guard, route.
  destruct (decide _); [intros [= <-]; eauto|].
  repeat (case_match; csimpl); try done; intros; simplify_eq; eauto;
    destruct (extractCommandKeys cmd args); csimpl in *; repeat case_match; simplify_eq; eauto.
Qed.

Record engine_ok e : Prop := {
  eo_sessions : sessions_ok e;
  eo_wf : wf (ks e);
  eo_memory : MaxMemory e <= 0;
  eo_queues : forall c q, clientSessions e !! c = Some q -> Forall visible (TxQueue (session_at e q))
}.

Lemma watch_started vs w keys e0 e1 : engine_ok e0 -> Z.of_nat (length (sessions e0)) < 2 ^ 31 - 2 ->
  ExecuteCommand vs w (str "WATCH" :: keys) e0 = ret (e1, OK) ->
  exists p, watch_inv w p (list_to_set keys) (ks e0) e1 /\ (length (sessions e1) <= S (length (sessions e0)))%nat.
Proof.
  intros [H1 H2 H3 H4] Hlen. unfold Session.ExecuteCommand. destruct (GetClientSession w e0) as [e p] eqn:EG.
  destruct (effect_get w eq e0 e p ltac:(done) H1 EG) as [HE Hp]. pose proof (se_length _ _ _ _ HE) as HL.
  assert (watch_inv w p ∅ (ks e0) e) as HI.
  { destruct HE as [S1 (R1 & R2 & R3 & R4 & R5 & R6 & R7 & R8) S3 _ S4 S5 S6 S7].
    split; rewrite ?R1, ?R6; try done.
    intros c q Hq. destruct (decide (c = w)) as [->|Hne].
    - destruct (clientSessions e0 !! w) as [q'|] eqn:E0.
      + destruct (S6 q' eq_refl) as [A B]. assert (q' = q) as -> by congruence. rewrite <- B. by eapply H4.
      + destruct (S7 q eq_refl Hq) as (s0 & _ & B & <-). by rewrite B.
    - destruct (S4 c q Hne Hq) as [A ->]. by eapply H4. }
  unfold ExecuteCommandWithSession. change (ToUpperFast (str "WATCH")) with (str "WATCH").
  destruct (guards _ _ _ _ _) as [[refused|]|] eqn:EGd; cbn [andThen]; [|clear EGd|done].
  { intros [= _ ->]. apply guards_error in EGd as [t Ht]. discriminate Ht. }
  destruct (InMulti (session_at e p)) eqn:EM.
  { unfold queue_command. rewrite !decide_False by done. intros [=]. }
  unfold run_command. cbn [tail]. unfold Session.dispatch.
  change (list_find (fun p0 => p0.1 = str "WATCH") (session_cases (vs 0%nat) w keys)) with
    (Some (5%nat, (str "WATCH", cmd_watch (VectorIndex := VectorIndex) w keys))). cbn [snd].
  destruct (cmd_watch_effect w keys e (wi_ok _ _ _ _ _ HI) ltac:(lia)) as [HW HF]. revert HW HF. unfold cmd_watch.
  assert (GetClientSession w e = (e, p)) as -> by (unfold GetClientSession; by rewrite Hp). rewrite EM.
  destruct keys as [|k0 keys0]; [intros _ _ [=]|]. cbn [fst snd reads andThen ret]. intros HW _ [= <-].
  exists p. split; [|cbn [sessions change set_sessions]; rewrite length_alter; lia].
  assert (watch_inv w p ∅ (ks e0) (change p (fun s => watch (WatchedKeys s ∪ list_to_set (k0 :: keys0)) (TxAborted s) s) (if watching (session_at e p) then 0 else 1) e)) as HI2.
  { eapply watch_inv_effect; [exact HI|exact HW| |].
    - intros s s' [_ [Hq|Hq]]; auto.
    - intros _ s s' [Hq _]. by apply Hq. }
  destruct HI2 as [I1 I2 I3 I4 I5 I6 I7]. split; try done.
  - rewrite session_at_change, decide_True by (done || by eapply so_range; [apply HI|]). cbn [WatchedKeys watch]. set_solver.
  - intros _ k _. cbn [ks change set_sessions]. destruct HE as [_ (-> & _) _ _ _ _ _ _]. apply unchanged_refl.
Qed.

(** An aborted transaction changes nothing. *)
Lemma aborted_exec vs w p e e' r : clientSessions e !! w = Some p -> TxAborted (session_at e p) = true ->
  ExecuteCommand vs w [str "EXEC"] e = ret (e', r) ->
  ks e' = ks e /\ AOF_ e' = AOF_ e /\ Replication_ e' = Replication_ e /\ (r = Null \/ exists t, r = Error t).
Proof.
  intros Hp Ha. unfold Session.ExecuteCommand. assert (GetClientSession w e = (e, p)) as -> by (unfold GetClientSession; by rewrite Hp).
  unfold ExecuteCommandWithSession. change (ToUpperFast (str "EXEC")) with (str "EXEC").
  destruct (guards _ _ _ _ _) as [[refused|]|] eqn:EGd; cbn [andThen]; [|clear EGd|done].
  { intros [= <- <-]. repeat split. right. by eapply guards_error. }
  destruct (InMulti (session_at e p)).
  - unfold queue_command. rewrite decide_True by done. unfold executeTransaction. rewrite Ha. intros [= <- <-]. repeat split. by left.
  - unfold run_command. cbn [tail]. unfold Session.dispatch.
    change (list_find (fun p0 => p0.1 = str "EXEC") (session_cases (vs 0%nat) w [])) with
      (Some (3%nat, (str "EXEC", fun e : Engine => (e, reads (Error (str "ERR EXEC without MULTI")))))). cbn [snd reads andThen ret].
    intros [= <- <-]. repeat split. right. eauto.
Qed.

(** C2: between a WATCH and the EXEC of a client, however other clients
    interleave commands, transactions and disconnects: when what is stored under
    a watched key (type, value or expiry time) differs at EXEC from what it was
    at WATCH, EXEC executes none of the queued commands: it replies nil or an
    error, and keyspace, log and replicas get nothing. Conditions: no memory
    limit is set (so nothing is evicted); none of the commands in between or
    queued by others is FLUSHDB, FLUSHALL or a ZADD with a score that does not
    parse, and all are within the session model; the client itself does not end
    its watch before; the disappearance of a key that had an expiry time does
    not count as a difference; fewer than 2^31 sessions and operations. *)
Theorem watch_protects vs w keys ops e0 e1 e2 vs' e3 r k : engine_ok e0 -> Z.of_nat (length (sessions e0) + length ops) < 2 ^ 31 - 3 ->
  ExecuteCommand vs w (str "WATCH" :: keys) e0 = ret (e1, OK) -> Forall (watch_goes_on w) ops -> clients ops e1 = ret e2 ->
  k ∈ keys -> ~ unchanged (ks e0) (ks e2) k -> ExecuteCommand vs' w [str "EXEC"] e2 = ret (e3, r) ->
  ks e3 = ks e2 /\ AOF_ e3 = AOF_ e2 /\ Replication_ e3 = Replication_ e2 /\ (r = Null \/ exists t, r = Error t).
Proof.
  intros Hok Hlen EW HV Hops Hk Hch. destruct (watch_started vs w keys e0 e1 Hok ltac:(lia) EW) as (p & HI & HL).
  pose proof (clients_inv w p _ _ ops e1 e2 HI ltac:(lia) HV Hops) as HI2. apply (aborted_exec vs' w p); [apply HI2|].
  destruct (TxAborted (session_at e2 p)) eqn:Ha; [done|]. destruct Hch. apply (wi_unchanged _ _ _ _ _ HI2 Ha). set_solver.
Qed.

End Laws.

(** ** The theorems on a concrete engine *)

Definition sample_env : nat -> env := fun _ => mkEnv (mkClock 5 5 5) (fun _ => flat) [str "default"] (fun _ => 0) (fun _ _ => []).

(** A new engine with the password [pass] and the log. *)
Definition new_engine (pass : bytes) : @Session.Engine unit :=
  mkEng NewKeyspace (Some (NewACLManager pass)) pass [] ∅ 0 (Some (OpenAOF [] FsyncAlways)) (Some (mkReplication false [])) None 0 (str "allkeys-lru") 0.

Lemma new_sessions_ok pass : sessions_ok (new_engine pass).
Proof. split; cbn; try done. Qed.

Definition sample_ops : list client_op :=
  [Client (str "b") sample_env [str "MULTI"]; Client (str "b") sample_env [str "set"; str "k"; str "1"]; Client (str "a") sample_env [str "MULTI"];
   Client (str "b") sample_env [str "EXEC"]; Disconnect (str "b"); Client (str "a") sample_env [str "SET"; str "k"; str "2"]].

Abbreviation sample_execute := (Session.ExecuteCommand (VectorIndex := unit) sample_float sample_text sample_env).

(** The engine after a command of the sample. *)
Definition after {A} (m : option (res fault (@Session.Engine unit * A))) : @Session.Engine unit :=
  match m with Some (Ok (e, _)) => e | _ => new_engine [] end.

Definition watched_engine : @Session.Engine unit := after (sample_execute (str "a") [str "WATCH"; str "k"] (new_engine [])).
Definition busy_engine : @Session.Engine unit :=
  match clients sample_float sample_text sample_ops watched_engine with Some (Ok e) => e | _ => new_engine [] end.
Definition exec_engine : @Session.Engine unit := after (sample_execute (str "a") [str "EXEC"] busy_engine).

Lemma new_engine_ok : engine_ok sample_float (new_engine []).
Proof. split; [apply new_sessions_ok|apply NewKeyspace_wf|done|]. intros c q H. cbn in H. by rewrite lookup_empty in H. Qed.

Lemma sample_goes_on : Forall (watch_goes_on sample_float (str "a")) sample_ops.
Proof.
  repeat (apply Forall_cons_2 || apply Forall_nil_2); cbn [watch_goes_on visible]; unfold visible_cmd;
    repeat match goal with |- _ /\ _ => split end.
  all: try (intros H; vm_compute in H; discriminate H).
  all: intros _ Hin; revert Hin; apply (bool_decide_eq_true_1 _); vm_compute; reflexivity.
Qed.

Lemma watch_protects_witness :
  sample_execute (str "a") [str "EXEC"] busy_engine = ret (exec_engine, Null) /\
  ks exec_engine = ks busy_engine /\ AOF_ exec_engine = AOF_ busy_engine.
Proof.
  assert (sample_execute (str "a") [str "EXEC"] busy_engine = ret (exec_engine, Null)) as E by (vm_compute; reflexivity).
  split; [exact E|].
  destruct (watch_protects (VectorIndex := unit) sample_float sample_text sample_env (str "a") [str "k"] sample_ops (new_engine [])
    watched_engine busy_engine sample_env exec_engine Null (str "k") new_engine_ok) as (H1 & H2 & _).
  - vm_compute. reflexivity.
  - vm_compute. reflexivity.
  - exact sample_goes_on.
  - vm_compute. reflexivity.
  - apply list_elem_of_singleton. reflexivity.
  - intros [H|(ent & H & _)]; vm_compute in H; [inversion H|discriminate H].
  - exact E.
  - exact (conj H1 H2).
Defined.
