(* ===== verification/Access.v ===== *)
(** * Who may do what (internal/engine/engine.go, internal/engine/acl.go)

    Authentication and access control as the engine enforces them: a client
    without the password changes and learns nothing, and a user with a key pattern
    is confined to the keys that match it. *)

From S2P Require Import Prelude Glob Resp SkipList Keyspace Commands CommandLaws Acl Session Scope SessionLaws Aof.

(** ** Patterns *)

Lemma TrimSuffix_star lit : TrimSuffix (lit ++ str "*") (str "*") = lit /\ HasSuffix (lit ++ str "*") (str "*") = true.
Proof.
  assert (HasSuffix (lit ++ str "*") (str "*") = true) as H.
  { unfold HasSuffix. rewrite length_app. cbn [length str].
    rewrite (proj2 (Nat.leb_le _ _)) by (cbn; lia). rewrite drop_app_length' by (cbn; lia). by apply bool_decide_eq_true. }
  split; [|done]. unfold TrimSuffix. rewrite H. apply take_app_length'. rewrite length_app. cbn. lia.
Qed.

(** A prefix pattern allows exactly the keys with that prefix. *)
Lemma matches_prefix lit key : Forall plain_char lit -> lit <> [] -> head lit <> Some "~"%byte ->
  matches_pattern key (lit ++ str "*") = HasPrefix key lit.
Proof.
  intros HF Hne Ht. unfold matches_pattern. destruct lit as [|c lit]; [done|]. inversion HF as [|? ? (H1 & _) _]; subst.
  rewrite decide_False by (intros [E|E]; cbn in E; [injection E as ->; by destruct lit|injection E as ->; by destruct Ht]).
  assert (TrimPrefix ((c :: lit) ++ str "*") (str "~") = (c :: lit) ++ str "*") as ->.
  { unfold TrimPrefix, HasPrefix. cbn [length str app take]. rewrite bool_decide_false; [done|]. cbn. rewrite take_0. intros [= ->]. by destruct Ht. }
  destruct (TrimSuffix_star (c :: lit)) as [-> ->]. rewrite Match_prefix by done. cbn [andb].
  destruct (HasPrefix key (c :: lit)); cbn [andb]; [|done]. by case_match.
Qed.

Section Access.
Context {VectorIndex : Type}.
Context (ParseFloat : bytes -> option Z) (FormatFloat : Z -> bytes).

Abbreviation Keyspace := (@Keyspace.Keyspace SkipList.SkipList VectorIndex).
Abbreviation Engine := (@Session.Engine VectorIndex).
Abbreviation ExecuteCommand := (Session.ExecuteCommand (VectorIndex := VectorIndex) ParseFloat FormatFloat).
Implicit Types (e : Engine) (s : ClientSession).

(** ** Without the password *)

(** AUTH with credentials that the table of users rejects. *)
Definition rejected (m : ACLManager) (argv : list bytes) : Prop :=
  match argv with
  | name :: a :: args => ToUpperFast name = str "AUTH" ->
      Authenticate m (match args with [] => default_name | _ => a end) (match args with [] => a | b :: _ => b end) = None
  | _ => True
  end.

(** The engine of a client that is not logged in. *)
Record locked_out (c : bytes) (m : ACLManager) e : Prop := {
  lo_password : Password e <> [];
  lo_acl : ACL e = Some m;
  lo_default : forall u, m !! default_name = Some u -> UserPassword u = Password e;
  lo_external : internal c = false;
  lo_session : exists p, clientSessions e !! c = Some p /\ Authenticated (session_at e p) = false /\ InMulti (session_at e p) = false
}.

Lemma locked_out_step vs c m argv e : locked_out c m e -> rejected m argv ->
  exists t, ExecuteCommand vs c argv e = ret (e, Error t).
Proof.
  intros [HP HA Hd Hc (p & Hp & Hna & HM)] Hr. unfold Session.ExecuteCommand, GetClientSession. rewrite Hp.
  unfold ExecuteCommandWithSession. destruct argv as [|name args]; [by eexists|]. unfold guards, auth_guard.
  destruct (decide (_ /\ _)) as [_|Hn]; [by eexists|].
  assert (ToUpperFast name = str "AUTH" \/ ToUpperFast name = str "QUIT") as Hname.
  { destruct (decide (ToUpperFast name = str "AUTH")), (decide (ToUpperFast name = str "QUIT")); auto. by destruct Hn. }
  assert (acl_guard c (ToUpperFast name) args (session_at e p) e = Ok None) as ->.
  { unfold acl_guard. rewrite HA, decide_False; [done|]. rewrite Hna. by intros [? _]. }
  assert (replica_guard c (ToUpperFast name) e = None) as ->.
  { unfold replica_guard. destruct (Replication_ e) as [rep|]; [|done]. replace (isWriteCommand (ToUpperFast name)) with false; [by rewrite andb_false_r|].
    destruct Hname as [-> | ->]; reflexivity. }
  assert (cluster_guard c (ToUpperFast name) args e = Ok None) as ->.
  { unfold cluster_guard. destruct (Cluster_ e) as [cl|]; [|done]. case_match; [|done].
    assert (extractCommandKeys (ToUpperFast name) args = Ok []) as -> by (destruct Hname as [-> | ->], args; reflexivity). done. }
  csimpl. cbn [andThen]. rewrite HM. unfold run_command. cbn [tail]. destruct Hname as [Hname|Hname]; rewrite Hname.
  - unfold Session.dispatch. change (list_find (fun p0 => p0.1 = str "AUTH") (session_cases (vs 0%nat) c args)) with
      (Some (0%nat, (str "AUTH", cmd_auth (VectorIndex := VectorIndex) c args))). cbn [snd]. unfold cmd_auth.
    destruct args as [|a args]; [by eexists|]. specialize (Hr Hname).
    assert (forall u, sync_default u e = e) as Hs.
    { intros u. unfold sync_default. rewrite HA. case_decide; [|done]. unfold GetUser. destruct (m !! default_name) as [d|] eqn:E; [|done].
      by rewrite decide_True by by apply Hd. }
    destruct args as [|b args]; rewrite Hs, HA, Hr; by eexists.
  - by eexists.
Qed.

(** One client, command after command: the engine and the replies. *)
Fixpoint talk (c : bytes) (cmds : list ((nat -> env) * list bytes)) e : option (res fault (Engine * list Resp.Value)) :=
  match cmds with
  | [] => ret (e, [])
  | (vs, argv) :: cmds' =>
      andThen (ExecuteCommand vs c argv e) (fun '(e, r) =>
      andThen (talk c cmds' e) (fun '(e, rs) => ret (e, r :: rs)))
  end.

(** Whatever commands a client sends to an engine with a password, as long as
    it never presents credentials of an enabled user, every reply is an error and
    the engine stays exactly as it is: keyspace, users, sessions, log and replicas. *)
Theorem no_password_no_access c m cmds e : locked_out c m e -> Forall (fun cmd => rejected m cmd.2) cmds ->
  exists rs, talk c cmds e = ret (e, rs) /\ Forall (fun r => exists t, r = Error t) rs.
Proof.
  intros HL. induction 1 as [|[vs argv] cmds Hr _ IH]; cbn [talk]; [by exists []|].
  destruct (locked_out_step vs c m argv e HL Hr) as [t ->]. cbn [andThen ret]. destruct IH as (rs & -> & HF). cbn [andThen ret].
  eexists. split; [done|]. constructor; [by eexists|done].
Qed.

(** ** Within a namespace *)

(** The commands on sessions do not look at the keyspace. *)
Lemma session_cases_ks v c args k e : Forall (fun p => p.2 (set_ks k e) = (set_ks k (p.2 e).1, (p.2 e).2))
  (session_cases (VectorIndex := VectorIndex) v c args).
Proof.
  assert (forall c e, GetClientSession c (set_ks k e) = (set_ks k (GetClientSession c e).1, (GetClientSession c e).2)) as HG.
  { intros c' e'. unfold GetClientSession. cbn [clientSessions set_ks]. by case_match. }
  unfold session_cases. repeat (apply Forall_cons; split; [cbn [fst snd]|]); try apply Forall_nil_2; try reflexivity.
  - unfold cmd_auth. destruct args as [|a args]; [done|]. destruct (match args with [] => _ | _ => _ end) as [u pw].
    assert (sync_default u (set_ks k e) = set_ks k (sync_default u e)) as ->.
    { unfold sync_default. cbn [ACL Password set_ks]. repeat case_match; done. }
    generalize (sync_default u e). clear e. intros e. cbn [ACL Password set_ks]. rewrite HG. destruct (GetClientSession c e). repeat case_match; done.
  - unfold cmd_acl. cbn [ACL set_ks]. rewrite HG. destruct (GetClientSession c e) as [e1 p]. cbn [fst snd ACL set_ks]. destruct args; [done|].
    destruct (ACL e); [|done]. change (session_at (set_ks k e1) p) with (session_at e1 p). by destruct (handleACLCommand _ _ _ _).
  - unfold cmd_multi. rewrite HG. by destruct (GetClientSession c e).
  - unfold cmd_watch. rewrite HG. destruct (GetClientSession c e) as [e1 p]. cbn [fst snd]. change (session_at (set_ks k e1) p) with (session_at e1 p).
    destruct (InMulti _); [done|]. by destruct args.
  - unfold cmd_unwatch. rewrite HG. by destruct (GetClientSession c e).
Qed.

Lemma touch_keys_ks cmd args k e : touch_keys cmd args (set_ks k e) = e' ← touch_keys cmd args e; Ok (set_ks k e').
Proof.
  unfold touch_keys. cbn [watchedCount set_ks]. destruct (0 <? watchedCount e); [|done]. destruct (extractCommandKeys cmd args) as [K|]; csimpl; [|done].
  f_equal. revert e. induction K as [|x K IH]; intros e; cbn [foldl]; [done|].
  assert (touchWatchedKey x (set_ks k e) = set_ks k (touchWatchedKey x e)) as ->; [|apply IH]. unfold touchWatchedKey. cbn. by case_match.
Qed.

Lemma session_cases_memory v c args e : Forall (fun p => MaxMemory (p.2 e).1 = MaxMemory e) (session_cases (VectorIndex := VectorIndex) v c args).
Proof.
  assert (forall c e, MaxMemory (GetClientSession (VectorIndex := VectorIndex) c e).1 = MaxMemory e) as HG.
  { intros c' e'. unfold GetClientSession. by case_match. }
  unfold session_cases. repeat (apply Forall_cons; split; [cbn [fst snd]|]); try apply Forall_nil_2; try reflexivity.
  - unfold cmd_auth. destruct args as [|a args]; [done|]. destruct (match args with [] => _ | _ => _ end) as [u pw].
    assert (MaxMemory (sync_default u e) = MaxMemory e) as <- by (unfold sync_default; repeat case_match; done).
    generalize (sync_default u e). clear e. intros e. pose proof (HG c e). destruct (GetClientSession c e). repeat case_match; done.
  - unfold cmd_acl. pose proof (HG c e). destruct (GetClientSession c e) as [e1 p]. destruct args; [done|]. destruct (ACL e); [|done].
    by destruct (handleACLCommand _ _ _ _).
  - unfold cmd_multi. pose proof (HG c e). by destruct (GetClientSession c e).
  - unfold cmd_watch. pose proof (HG c e). destruct (GetClientSession c e) as [e1 p]. destruct (InMulti _); [done|]. by destruct args.
  - unfold cmd_unwatch. pose proof (HG c e). by destruct (GetClientSession c e).
Qed.

Lemma touch_keys_rest cmd args e e' : touch_keys cmd args e = Ok e' -> e' = set_sessions (sessions e') (clientSessions e) (watchedCount e) e.
Proof.
  unfold touch_keys. assert (marked e e -> e = set_sessions (sessions e) (clientSessions e) (watchedCount e) e) as Hid by by intros [].
  destruct (0 <? watchedCount e); [|intros [= <-]; apply Hid, marked_refl]. destruct (extractCommandKeys cmd args) as [K|]; csimpl; [|done].
  intros [= <-]. cut (marked e (foldl (fun e k => touchWatchedKey k e) e K)); [by intros []|]. clear Hid. revert e.
  induction K as [|k K IH]; intros e; cbn [foldl]; [apply marked_refl|]. eapply marked_trans; [apply touchWatchedKey_marked|apply IH].
Qed.

Section confined.
Context (P : bytes -> Prop).

(** Two engines that differ in entries outside [P] only. *)
Record twins (e1 e2 : Engine) : Prop := {
  tw_rest : e2 = set_ks (ks e2) e1;
  tw_wf1 : wf (ks e1);
  tw_wf2 : wf (ks e2);
  tw_same : forall k, P k -> look (ks e1) k = look (ks e2) k
}.

(** What happened to the keys outside [P]. *)
Definition outside_kept e e' : Prop := forall k, ~ P k -> look (ks e') k = look (ks e) k.

Lemma dispatch_twins v c cmd args K e1 e2 : twins e1 e2 -> cmd ∉ global_commands -> extractCommandKeys cmd args = Ok K -> Forall P K ->
  match Session.dispatch ParseFloat FormatFloat v c cmd args e1, Session.dispatch ParseFloat FormatFloat v c cmd args e2 with
  | Some (Ok (e1', a1)), Some (Ok (e2', a2)) => a1 = a2 /\ twins e1' e2' /\ outside_kept e1 e1' /\ outside_kept e2 e2'
  | Some (Err x), Some (Err y) => x = y
  | None, None => True
  | _, _ => False
  end.
Proof using.
  intros [HE W1 W2 HS] Hg HK HP. unfold Session.dispatch.
  pose proof (session_cases_ks v c args (ks e2) e1) as HA. rewrite <- HE in HA.
  assert (Forall (fun p => ks (p.2 e1).1 = ks e1) (session_cases (VectorIndex := VectorIndex) v c args)) as HB.
  { pose proof (session_cases_ks v c args (ks e1) e1) as HC. eapply Forall_impl; [exact HC|]. intros p Hp.
    replace (set_ks (ks e1) e1) with e1 in Hp by by destruct e1. rewrite Hp. done. }
  destruct (list_find _ _) as [[i p]|] eqn:Ef.
  - apply list_find_Some in Ef as (Hi & _ & _). rewrite Forall_forall in HA, HB. specialize (HA p (list_elem_of_lookup_2 _ _ _ Hi)).
    specialize (HB p (list_elem_of_lookup_2 _ _ _ Hi)). rewrite HA. destruct (p.2 e1) as [e1' a]. cbn [fst snd] in *. cbn [ret].
    split; [done|]. split; [split; rewrite ?HB; try done|]. split; intros k Hk; by rewrite ?HB.
  - pose proof (dispatch_local ParseFloat FormatFloat (rand v) (clk v) cmd args K (ks e1) (ks e2) W1 W2 Hg HK) as HL.
    assert (same_on K (ks e1) (ks e2)) as HSK by (intros k Hk; apply HS; by eapply (proj1 (Forall_forall _ _) HP)). specialize (HL HSK).
    destruct (Commands.dispatch _ _ _ _ _ _ (ks e1)) as [[[k1 a1]|]|], (Commands.dispatch _ _ _ _ _ _ (ks e2)) as [[[k2 a2]|]|]; csimpl; try done.
    + destruct HL as [-> [V1 V2 VS F1 F2]]. split; [done|]. assert (forall k, ~ P k -> k ∉ K) as Hout.
      { intros k Hk Hin. apply Hk. by eapply (proj1 (Forall_forall _ _) HP). }
      split; [|split; intros k Hk; [by apply F1, Hout|by apply F2, Hout]].
      split; try done; [by rewrite HE|]. intros k Hk. cbn [ks set_ks].
      destruct (decide (k ∈ K)) as [Hin|Hn]; [by apply VS|]. rewrite (F1 k Hn), (F2 k Hn). by apply HS.
    + case_decide; [done|]. cbn [ret]. by split; [|split].
Qed.

Lemma run_command_twins v c cmd argv K e1 e2 e1' r : twins e1 e2 -> MaxMemory e1 <= 0 -> cmd ∉ global_commands ->
  extractCommandKeys cmd (tail argv) = Ok K -> Forall P K ->
  run_command ParseFloat FormatFloat v c cmd argv e1 = ret (e1', r) ->
  exists e2', run_command ParseFloat FormatFloat v c cmd argv e2 = ret (e2', r) /\ twins e1' e2' /\ outside_kept e1 e1' /\ outside_kept e2 e2'.
Proof using.
  intros HT Hmem Hg HK HP. unfold run_command. pose proof (dispatch_twins v c cmd (tail argv) K e1 e2 HT Hg HK HP) as HD.
  assert (forall e e' a, Session.dispatch ParseFloat FormatFloat v c cmd (tail argv) e = ret (e', a) -> MaxMemory e' = MaxMemory e) as HMM.
  { intros e e' a. pose proof (session_cases_memory v c (tail argv) e) as HS. unfold Session.dispatch.
    destruct (list_find _ _) as [[i p]|] eqn:Ef.
    - intros [= Hp]. apply list_find_Some in Ef as (Hi & _ & _). rewrite Forall_forall in HS. specialize (HS p (list_elem_of_lookup_2 _ _ _ Hi)). by rewrite Hp in HS.
    - destruct (Commands.dispatch _ _ _ _ _ _ _) as [[[? ?]|]|]; csimpl; [by intros [= <- _]|done|]. case_decide; [done|]. by intros [= <- _]. }
  destruct (Session.dispatch _ _ v c cmd _ e1) as [[[d1 [val w]]|]|] eqn:E1; cbn [andThen]; try done.
  destruct (Session.dispatch _ _ v c cmd _ e2) as [[[d2 [val2 w2]]|]|]; try done. destruct HD as ([= <- <-] & [HE W1 W2 HS] & O1 & O2). cbn [andThen].
  destruct w; [|intros [= <- <-]; by exists d2]. rewrite HE, touch_keys_ks.
  pose proof (touch_keys_rest cmd (tail argv) d1) as HR. destruct (touch_keys cmd (tail argv) d1) as [t1|]; csimpl; cbn [andThen]; [|done].
  specialize (HR t1 eq_refl). assert (MaxMemory t1 <= 0) as Ht by (rewrite HR; cbn; rewrite (HMM _ _ _ E1); done).
  unfold check_memory. cbn [MaxMemory set_ks]. destruct (Z.leb_spec (MaxMemory t1) 0); [|lia]. intros [= <- <-].
  eexists. split; [done|]. assert (ks t1 = ks d1) as Hk by by rewrite HR.
  split; [split; cbn [ks set_ks log_write set_logs]; rewrite ?Hk; try done|]. split; intros k Hk'; cbn [ks set_ks log_write set_logs]; rewrite ?Hk; auto.
Qed.

End confined.

(** The connection [c] is logged in as [u], who may use the keys that begin with
    [lit]. *)
Record confined_to (lit c u : bytes) e : Prop := {
  cf_session : exists p, clientSessions e !! c = Some p /\ Authenticated (session_at e p) = true /\ SessionUser (session_at e p) = u /\
    InMulti (session_at e p) = false;
  cf_user : exists m user, ACL e = Some m /\ m !! u = Some user /\ KeyPatterns user = [lit ++ str "*"];
  cf_name : u <> [];
  cf_external : internal c = false;
  cf_pattern : Forall plain_char lit /\ lit <> [] /\ head lit <> Some "~"%byte
}.

Lemma allowed_keys lit m u user cmd keys : Forall plain_char lit -> lit <> [] -> head lit <> Some "~"%byte -> u <> [] ->
  m !! u = Some user -> KeyPatterns user = [lit ++ str "*"] -> CanExecute m u cmd keys = Ok () ->
  Forall (fun k => HasPrefix k lit = true) keys.
Proof.
  intros HF Hne Ht Hu Hm HP. unfold CanExecute, named_user. rewrite decide_False, Hm by done. repeat case_match; try done. intros _.
  apply Forall_forall. intros k Hk. match goal with H : list_find _ _ = None |- _ => eapply list_find_None, Forall_forall in H; [|exact Hk] end.
  destruct (HasPrefix k lit) eqn:E; [done|]. exfalso. match goal with H : ~ _ |- _ => apply H end.
  rewrite HP. unfold matchesAnyPattern. cbn [existsb]. by rewrite matches_prefix, E.
Qed.

(** C3: a logged-in user of the ACL table whose only key pattern is a literal
    prefix and a star is confined to that prefix for every modelled command
    executed by the engine (ExecuteCommand) other than DBSIZE, FLUSHDB and
    FLUSHALL, outside a transaction and without a memory limit: the reply and
    what is left under the keys with the prefix are the same whatever the other
    keys hold, and no other key changes. Not covered: the fast paths of the
    reactor, which skip the ACL, stream, vector and other commands outside the
    session model, and users without a key pattern. *)
Theorem namespace_confinement lit vs c u name args e1 k2 e1' r : confined_to lit c u e1 -> MaxMemory e1 <= 0 ->
  ToUpperFast name ∉ global_commands -> wf (ks e1) -> wf k2 ->
  (forall k, HasPrefix k lit = true -> look (ks e1) k = look k2 k) ->
  ExecuteCommand vs c (name :: args) e1 = ret (e1', r) ->
  exists e2', ExecuteCommand vs c (name :: args) (set_ks k2 e1) = ret (e2', r) /\
    (forall k, HasPrefix k lit = true -> look (ks e1') k = look (ks e2') k) /\
    (forall k, HasPrefix k lit = false -> look (ks e1') k = look (ks e1) k /\ look (ks e2') k = look k2 k).
Proof.
  intros [(p & Hp & Hauth & Hu & HM) (m & user & HA & Hm & HP) Hne Hc (HF & Hlit & Ht)] Hmem Hg W1 W2 HS.
  assert (twins (fun k => HasPrefix k lit = true) e1 (set_ks k2 e1)) as HT by by split.
  unfold Session.ExecuteCommand, GetClientSession. cbn [clientSessions set_ks]. rewrite Hp. unfold ExecuteCommandWithSession.
  change (session_at (set_ks k2 e1) p) with (session_at e1 p).
  change (guards c (ToUpperFast name) args (session_at e1 p) (set_ks k2 e1)) with (guards c (ToUpperFast name) args (session_at e1 p) e1).
  destruct (guards c (ToUpperFast name) args (session_at e1 p) e1) as [[refused|]|] eqn:EG; cbn [andThen]; [|rewrite HM|done].
  { intros [= <- <-]. eexists. split; [done|]. split; [done|]. intros k Hk. done. }
  assert (exists K, extractCommandKeys (ToUpperFast name) args = Ok K /\ Forall (fun k => HasPrefix k lit = true) K) as (K & HK & HPK).
  { unfold guards in EG. destruct (auth_guard _ _ _ _); [done|]. unfold acl_guard in EG. rewrite HA in EG. case_decide as HD; csimpl in EG.
    - destruct (extractCommandKeys _ args) as [K|] eqn:EK; csimpl in EG; [|done]. exists K. split; [done|]. rewrite Hu in EG.
      destruct (CanExecute m u _ K) as [[]|] eqn:ECE; [|done]. eapply (allowed_keys lit m u user); done.
    - exists []. split; [|done]. destruct (decide (ToUpperFast name = str "AUTH")) as [->|]; [by destruct args|].
      destruct (decide (ToUpperFast name = str "QUIT")) as [->|]; [by destruct args|]. by destruct HD. }
  intros E. destruct (run_command_twins (fun k => HasPrefix k lit = true) (vs 0%nat) c (ToUpperFast name) (name :: args) K e1 (set_ks k2 e1) e1' r
    HT Hmem Hg HK HPK E) as (e2' & E2 & [_ _ _ HS'] & O1 & O2).
  exists e2'. split; [done|]. split; [done|]. intros k Hk. split; [apply O1|apply O2]; by rewrite Hk.
Qed.

End Access.

(** ** The theorems on concrete engines *)

(** A connection to an engine with a password. *)
Definition guest_engine : @Session.Engine unit := (GetClientSession (str "x") (new_engine (str "pw"))).1.

Definition guest_talk : list ((nat -> env) * list bytes) :=
  [(sample_env, [str "get"; str "k"]); (sample_env, [str "AUTH"; str "guess"]); (sample_env, [str "auth"; str "root"; []]);
   (sample_env, [str "FLUSHALL"]); (sample_env, [str "QUIT"])].

Lemma no_password_no_access_witness : exists rs,
  talk sample_float sample_text (str "x") guest_talk guest_engine = ret (guest_engine, rs) /\ Forall (fun r => exists t, r = Error t) rs.
Proof.
  apply (no_password_no_access sample_float sample_text (str "x") (NewACLManager (str "pw")) guest_talk guest_engine).
  - split; [discriminate|reflexivity| |reflexivity|exists 0%nat; split; [vm_compute; reflexivity|split; vm_compute; reflexivity]].
    intros u. unfold NewACLManager. rewrite lookup_singleton_eq. intros [= <-]. reflexivity.
  - repeat (apply Forall_cons_2 || apply Forall_nil_2); cbn [rejected snd]; try exact I; intros H; vm_compute in H; try discriminate H; vm_compute; reflexivity.
Defined.

(** An administrator makes a user for the keys of a cache, who logs in. *)
Definition step_engine (c : bytes) (argv : list bytes) (e : @Session.Engine unit) : @Session.Engine unit := after (sample_execute c argv e).

Definition tenant_engine : @Session.Engine unit :=
  step_engine (str "b") [str "AUTH"; str "bob"; str "secret"]
    (step_engine (str "a") [str "ACL"; str "SETUSER"; str "bob"; str ">secret"; str "~cache:*"] (new_engine [])).

Definition other_keys : @Keyspace.Keyspace SkipList unit := store NewKeyspace (str "other") (set_string (str "7") 0).

Lemma tenant_confined : confined_to (str "cache:") (str "b") (str "bob") tenant_engine.
Proof.
  assert ((m ← ACL tenant_engine; m !! str "bob") = Some (mkUser (str "bob") (str "secret") true false RoleReadWrite [str "cache:*"] false)) as HU
    by (vm_compute; reflexivity).
  destruct (ACL tenant_engine) as [m|] eqn:HA; [csimpl in HU|discriminate HU].
  assert (clientSessions tenant_engine !! str "b" = Some 1%nat) as HC by (vm_compute; reflexivity).
  assert (session_at tenant_engine 1 = mkSession true (str "bob") false [] ∅ false) as HS by (vm_compute; reflexivity).
  split; [exists 1%nat; rewrite HS; auto|eexists m, _; split; [exact HA|split; [exact HU|reflexivity]]|discriminate|reflexivity|].
  split; [|split; discriminate]. repeat (apply Forall_cons_2 || apply Forall_nil_2); repeat split; discriminate.
Qed.

Lemma namespace_confinement_witness : exists e2',
  sample_execute (str "b") [str "APPEND"; str "cache:x"; str "1"] (set_ks other_keys tenant_engine) = ret (e2', Integer 1) /\
  look (ks e2') (str "other") = Some (set_string (str "7") 0).
Proof.
  destruct (namespace_confinement (VectorIndex := unit) sample_float sample_text (str "cache:") sample_env (str "b") (str "bob") (str "APPEND")
    [str "cache:x"; str "1"] tenant_engine other_keys (step_engine (str "b") [str "APPEND"; str "cache:x"; str "1"] tenant_engine) (Integer 1)
    tenant_confined) as (e2' & E & _ & H).
  - vm_compute. discriminate.
  - apply (bool_decide_eq_true_1 _). vm_compute. reflexivity.
  - apply NewKeyspace_wf.
  - apply store_wf, NewKeyspace_wf.
  - intros k Hk. unfold other_keys. rewrite look_store by apply NewKeyspace_wf. rewrite decide_False; [reflexivity|]. intros ->. vm_compute in Hk. discriminate Hk.
  - vm_compute. reflexivity.
  - exists e2'. split; [exact E|]. destruct (H (str "other") ltac:(vm_compute; reflexivity)) as [_ ->]. vm_compute. reflexivity.
Defined.

(** ** Deviations *)

(** In a transaction the name of a command is compared after [strings.ToUpper],
    but its keys were checked under the name [ToUpperFast] gives, which leaves a
    long s alone: the user of the cache writes another key. *)
Definition long_s_mset : list bytes := [[x4d; xc5; xbf; x45; x54]; str "cache:x"; str "1"; str "other"; str "2"].

Theorem long_s_escapes_pattern :
  let e := step_engine (str "b") [str "EXEC"] (step_engine (str "b") long_s_mset (step_engine (str "b") [str "MULTI"] tenant_engine)) in
  look (ks tenant_engine) (str "other") = None /\ look (ks e) (str "other") = Some (mkE TypeString (VString (str "2")) 0 5 5).
Proof. split; vm_compute; reflexivity. Qed.

(** The number of keys of EVAL overflows in the test of the access control. *)
Theorem eval_keys_panic : sample_execute (str "a") [str "EVAL"; str "return 1"; str "9223372036854775807"] (new_engine []) = Some (Err (Fault PanicBounds)).
Proof. vm_compute. reflexivity. Qed.

(** FLUSHALL deletes a watched key without aborting the transaction. *)
Definition flushed_engine : @Session.Engine unit :=
  foldl (fun e '(c, argv) => step_engine c argv e) (new_engine [])
    [(str "b", [str "SET"; str "k"; str "1"]); (str "a", [str "WATCH"; str "k"]); (str "a", [str "MULTI"]);
     (str "a", [str "SET"; str "k"; str "2"]); (str "b", [str "FLUSHALL"])].

Theorem flushall_unnoticed :
  look (ks flushed_engine) (str "k") = None /\
  look (ks (step_engine (str "a") [str "EXEC"] flushed_engine)) (str "k") = Some (mkE TypeString (VString (str "2")) 0 5 5).
Proof. split; vm_compute; reflexivity. Qed.

(** A write that is answered with an out-of-memory error has been executed, and is
    neither logged nor sent to the replicas. *)
Definition full_engine : @Session.Engine unit :=
  mkEng NewKeyspace (Some (NewACLManager [])) [] [] ∅ 0 (Some (OpenAOF [] FsyncAlways)) (Some (mkReplication false [])) None 100 (str "noeviction") 2047.
Definition full_env : nat -> env := fun _ => mkEnv (mkClock 5 5 5) (fun _ => flat) [] (fun _ => 1000) (fun _ _ => []).

Definition oom_engine : @Session.Engine unit :=
  after (Session.ExecuteCommand sample_float sample_text full_env (str "a") [str "SET"; str "k"; str "1"] full_engine).

Theorem oom_write_executed :
  Session.ExecuteCommand sample_float sample_text full_env (str "a") [str "SET"; str "k"; str "1"] full_engine =
    ret (oom_engine, Error (str "OOM command not allowed when used memory > 'maxmemory'")) /\
  look (ks oom_engine) (str "k") = Some (mkE TypeString (VString (str "1")) 0 5 5) /\
  AOF_ oom_engine = AOF_ full_engine /\ Replication_ oom_engine = Replication_ full_engine.
Proof. split; [vm_compute; reflexivity|]. split; [vm_compute; reflexivity|]. split; vm_compute; reflexivity. Qed.

(** No lock is held between the commands of a transaction: another client's write
    takes effect between two reads of it. *)
Definition sample_dispatch (i : nat) (e : @Session.Engine unit) :=
  Session.dispatch (VectorIndex := unit) sample_float sample_text (sample_env i) (str "a") (str "GET") [str "k"] e.

Definition reply {A B} (m : option (res fault (A * B))) : option B := match m with Some (Ok (_, r)) => Some r | _ => None end.

Theorem transaction_interrupted :
  reply (sample_dispatch 0 (new_engine [])) = Some (reads Null) /\
  reply (sample_dispatch 1 (step_engine (str "b") [str "SET"; str "k"; str "1"] (after (sample_dispatch 0 (new_engine []))))) = Some (reads (BulkString (str "1"))).
Proof. split; vm_compute; reflexivity. Qed.

(** The keys of the stream commands that name their streams after options are not
    looked for: the access list and the cluster router see the first argument. *)
Theorem stream_keys_misread :
  extractCommandKeys (str "XREAD") [str "COUNT"; str "1"; str "STREAMS"; str "other"; str "0"] = Ok [str "COUNT"] /\
  extractCommandKeys (str "XGROUP") [str "CREATE"; str "other"; str "g"; str "0"] = Ok [str "CREATE"] /\
  extractCommandKeys (str "XREADGROUP") [str "GROUP"; str "g"; str "c"; str "STREAMS"; str "other"; str ">"] = Ok [str "GROUP"].
Proof. repeat split. Qed.
