(* ===== verification/Transactions.v ===== *)
(** * Transactions and the table of sessions (internal/engine/engine.go)

    EXEC is the queued commands one after the other; and whatever clients do, the
    table of sessions and the counter of watching sessions stay consistent. *)

From S2P Require Import Prelude Resp SkipList Keyspace Commands CommandLaws Acl Session Scope SessionLaws Access Aof.

Section Transactions.
Context {VectorIndex : Type}.
Context (ParseFloat : bytes -> option Z) (FormatFloat : Z -> bytes).

Abbreviation Engine := (@Session.Engine VectorIndex).
Abbreviation dispatch := (Session.dispatch (VectorIndex := VectorIndex) ParseFloat FormatFloat).
Abbreviation ExecuteCommand := (Session.ExecuteCommand (VectorIndex := VectorIndex) ParseFloat FormatFloat).
Abbreviation run_command := (Session.run_command (VectorIndex := VectorIndex) ParseFloat FormatFloat).
Abbreviation clients := (SessionLaws.clients (VectorIndex := VectorIndex) ParseFloat FormatFloat).
Implicit Types (e : Engine) (s : ClientSession).

(** ** EXEC is sequential execution *)







(** ** The table of sessions *)

Lemma sessions_ok_ext e e' : sessions e' = sessions e -> clientSessions e' = clientSessions e -> watchedCount e' = watchedCount e ->
  sessions_ok e -> sessions_ok e'.
Proof.
  intros E1 E2 E3 [A B C D]. assert (watchers e' = watchers e) as Hw.
  { apply map_eq. intros c. rewrite !watchers_lookup, E2. destruct (clientSessions e !! c); [|done]. csimpl. unfold session_at. by rewrite E1. }
  split; rewrite ?Hw, ?E1, ?E2, ?E3; done.
Qed.

(** What one command leaves behind: the table and its size. *)
Definition table_step e e' : Prop :=
  sessions_ok e' /\ length (sessions e') = length (sessions e) /\ clientSessions e' = clientSessions e.

(** A registered connection changes no entry of the table. *)
Lemma effect_table c own e e' : session_effect c own e e' -> is_Some (clientSessions e !! c) -> table_step e e'.
Proof.
  intros HE [q Hq]. split; [apply HE|]. split; [apply (se_registered _ _ _ _ HE); by eexists|]. apply map_eq. intros c'.
  destruct (decide (c' = c)) as [->|Hc]; [by rewrite Hq; apply (se_own _ _ _ _ HE)|].
  destruct (clientSessions e !! c') as [p|] eqn:E; [by apply (se_keep _ _ _ _ HE)|].
  destruct (clientSessions e' !! c') as [p|] eqn:E'; [|done]. apply (se_others _ _ _ _ HE) in E' as [E' _]; [congruence|done].
Qed.

Lemma dispatch_table v c cmd args e e1 a (w : bool) e2 : sessions_ok e -> small e -> is_Some (clientSessions e !! c) ->
  dispatch v c cmd args e = ret (e1, (a, w)) ->
  forall e1', sessions e1' = sessions e1 -> clientSessions e1' = clientSessions e1 -> watchedCount e1' = watchedCount e1 ->
  (if w then touch_keys cmd args e1' else Ok e1') = Ok e2 -> table_step e e2.
Proof.
  intros Hok Hsm Hc HD e1' E1 E2 E3 HT.
  assert (table_step e e1) as (S1 & S2 & S3).
  { destruct (dispatch_effect _ _ v c cmd args e e1 a w Hok Hsm HD) as [[HE _]|(k & _ & ->)].
    - by eapply effect_table.
    - split; [by apply (sessions_ok_ext e)|]. done. }
  assert (sessions_ok e1') as Hok1 by by apply (sessions_ok_ext e1).
  destruct w; [|injection HT as <-; split; [done|]; by rewrite E1, E2].
  destruct (touch_keys_spec cmd args e1' e2 Hok1 HT) as [HM _]. pose proof HM as [ME ML _]. split; [by eapply marked_ok|]. rewrite ML, E1. split; [done|].
  rewrite ME. cbn [clientSessions set_sessions]. by rewrite E2.
Qed.

Lemma exec_queue_table vs c queue : forall i e e' rs, sessions_ok e -> small e -> is_Some (clientSessions e !! c) ->
  exec_queue ParseFloat FormatFloat vs i c queue e = ret (e', rs) -> table_step e e'.
Proof.
  induction queue as [|[|name args] queue IH]; intros i e e' rs Hok Hsm Hreg; cbn [exec_queue].
  - by intros [= <- <-].
  - destruct (exec_queue _ _ vs (S i) c queue e) as [[[e1 rs1]|]|] eqn:E; cbn [andThen]; try done. intros [= <- _]. by eapply IH.
  - destruct (Session.dispatch _ _ (vs i) c (ToUpper name) args e) as [[[e1 [val w]]|]|] eqn:ED; cbn [andThen]; try done.
    destruct (if w then touch_keys (ToUpper name) args (log_write c (name :: args) e1) else Ok e1) as [e2|] eqn:ET; cbn [andThen]; [|done].
    destruct (exec_queue _ _ vs (S i) c queue e2) as [[[e3 rs3]|]|] eqn:E3; cbn [andThen]; try done. intros [= <- _].
    destruct (dispatch_table (vs i) c (ToUpper name) args e e1 val w e2 Hok Hsm Hreg ED (if w then log_write c (name :: args) e1 else e1))
      as (H1 & H2 & H3); [by destruct w..|].
    destruct (IH (S i) e2 e3 rs3) as (H4 & H5 & H6); try done; [unfold small; by rewrite H2|by rewrite H3|]. split; [done|]. by rewrite H5, H6.
Qed.

Lemma check_memory_table v e : sessions (check_memory v e).1 = sessions e /\ clientSessions (check_memory v e).1 = clientSessions e /\
  watchedCount (check_memory v e).1 = watchedCount e.
Proof. unfold check_memory. repeat case_match; done. Qed.

Lemma command_table vs c q name args e e' r : sessions_ok e -> small e -> clientSessions e !! c = Some q ->
  ExecuteCommandWithSession ParseFloat FormatFloat vs (Some q) c (name :: args) e = ret (e', r) -> table_step e e'.
Proof.
  intros Hok Hsm Hq. unfold ExecuteCommandWithSession. assert (table_step e e) as Hid by done.
  destruct (guards _ _ _ _ _) as [[refused|]|]; cbn [andThen]; [by intros [= <- _]| |done].
  pose proof (leave_multi_effect c q e Hok Hsm Hq) as HE. set (e1 := unwatch q (change q (in_multi false []) 0 e)) in *.
  assert (table_step e e1) as H1.
  { eapply effect_table; [done|eauto]. }
  destruct (InMulti _).
  - unfold queue_command. case_decide; [|case_decide; [|case_decide]].
    + unfold executeTransaction. fold e1. destruct (TxAborted _); [by intros [= <- _]|].
      destruct (exec_queue _ _ vs 0 c _ e1) as [[[e2 rs]|]|] eqn:E; cbn [andThen]; try done. intros [= <- _]. destruct H1 as (A1 & A2 & A3).
      destruct (exec_queue_table vs c _ _ _ _ _ A1 ltac:(unfold small; rewrite A2; done) ltac:(rewrite A3; eauto) E) as (B1 & B2 & B3). split; [done|]. by rewrite B2, B3.
    + by intros [= <- _].
    + by intros [= <- _].
    + intros [= <- _]. unfold small in Hsm. split; [eapply (change_ok e c q); [done|lia|done|by rewrite watch_change_0]|].
      split; [cbn [sessions change set_sessions]; by rewrite length_alter|done].
  - unfold Session.run_command. cbn [tail].
    destruct (Session.dispatch _ _ (vs 0%nat) c _ args e) as [[[d [val w]]|]|] eqn:ED; cbn [andThen]; try done.
    pose proof (dispatch_table (vs 0%nat) c (ToUpperFast name) args e d val w) as HD. destruct w.
    + destruct (touch_keys _ args d) as [t|] eqn:ET; cbn [andThen]; [|done].
      destruct (HD t Hok Hsm ltac:(eauto) ED d eq_refl eq_refl eq_refl ET) as (B1 & B2 & B3).
      destruct (check_memory_table (vs 0%nat) t) as (C1 & C2 & C3). destruct (check_memory (vs 0%nat) t) as [t' oom]. cbn [fst] in *.
      destruct oom; intros [= <- _]; (split; [by apply (sessions_ok_ext t)|]); cbn [sessions clientSessions log_write set_logs]; by rewrite C1, C2.
    + intros [= <- _]. by apply (HD d Hok Hsm ltac:(eauto) ED d).
Qed.

(** After any history of clients that come, send commands and go, two
    connections never share a session, and the counter that decides whether writes
    look for watched keys is exactly the number of sessions that watch keys. *)
Theorem session_table_invariant ops : forall e e', sessions_ok e -> Z.of_nat (length (sessions e) + length ops) < 2 ^ 31 - 2 ->
  clients ops e = ret e' ->
  (forall c c' p, clientSessions e' !! c = Some p -> clientSessions e' !! c' = Some p -> c = c') /\
  watchedCount e' = Z.of_nat (size (filter (fun cp => watching (session_at e' cp.2) = true) (clientSessions e'))).
Proof.
  cut (forall e e', sessions_ok e -> Z.of_nat (length (sessions e) + length ops) < 2 ^ 31 - 2 -> clients ops e = ret e' -> sessions_ok e').
  { intros H e e' H1 H2 H3. destruct (H e e' H1 H2 H3) as [_ HI HC _]. done. }
  induction ops as [|[c vs argv|c] ops IH]; intros e e' Hok Hlen; cbn [SessionLaws.clients client_step]; cbn [length] in Hlen.
  - by intros [= <-].
  - unfold Session.ExecuteCommand. destruct (GetClientSession c e) as [e1 q] eqn:EG.
    destruct (effect_get c eq e e1 q ltac:(done) Hok EG) as [HE Hq]. pose proof (se_length _ _ _ _ HE) as HL.
    destruct argv as [|name args]; [cbn [ExecuteCommandWithSession andThen ret fst]; apply IH; [apply HE|lia]|].
    destruct (ExecuteCommandWithSession _ _ vs (Some q) c (name :: args) e1) as [[[e2 r]|]|] eqn:E; cbn [andThen ret fst]; try done.
    destruct (command_table vs c q name args e1 e2 r (se_ok _ _ _ _ HE) ltac:(unfold small; lia) Hq E) as (H1 & H2 & _). apply IH; [done|lia].
  - cbn [andThen ret]. apply IH; [apply ClearClientSession_ok; [done|lia]|]. unfold ClearClientSession. case_match; cbn; lia.
Qed.

End Transactions.

(** ** The theorems on a concrete engine *)



Definition table_ops : list client_op := Client (str "a") sample_env [str "WATCH"; str "k"] :: sample_ops.

Lemma session_table_invariant_witness :
  clients sample_float sample_text table_ops (new_engine []) = ret busy_engine /\ watchedCount busy_engine = 1 /\
  watchedCount busy_engine = Z.of_nat (size (filter (fun cp => watching (session_at busy_engine cp.2) = true) (clientSessions busy_engine))).
Proof.
  assert (clients sample_float sample_text table_ops (new_engine []) = ret busy_engine) as E by (vm_compute; reflexivity).
  split; [exact E|]. split; [vm_compute; reflexivity|].
  refine (proj2 (session_table_invariant sample_float sample_text table_ops (new_engine []) busy_engine (new_sessions_ok []) _ E)).
  vm_compute. reflexivity.
Defined.
