(* ===== verification/StreamCommands.v ===== *)
(** * The stream commands (internal/engine/engine.go)

    XADD, XRANGE, XREVRANGE, XLEN, XDEL, XTRIM, XREAD, XGROUP, XREADGROUP, XACK,
    XPENDING and XINFO: the handlers over the keyspace and the streams it holds.

    A blocked reader polls: it registers with the streams it waits for, sleeps,
    unregisters and reads again.  What the other clients do to the keyspace before it
    registers, while it is registered and after it has unregistered is an argument of
    the model, and so are the clocks; the number of polls is the fuel of the loop, and
    a reader that is still waiting has no reply. *)

From S2P Require Import Prelude Resp Stream SkipList Keyspace Commands.

(** The clocks of a stream command: those of the keyspace, and [time.Now()] in
    nanoseconds at its successive readings. *)
Record stream_clock := mkSC { base : clock; seen_at : Z; nano : Z; nano' : Z }.

(** [err.Error()]: the text of a number error is the standard library's, a
    function of the error and of the identifier given. *)
Definition error_text (NumErrorText : num_error -> bytes -> bytes) (idArg : bytes) (e : stream_error) : bytes :=
  match e with
  | ErrInvalidStreamID => str "ERR The ID specified in XADD is equal or smaller than the target stream top item"
  | ErrGroupExists => str "BUSYGROUP Consumer Group name already exists"
  | ErrGroupNotFound => str "NOGROUP No such consumer group for key name"
  | ErrFormat => str "invalid stream id format"
  | ErrNum n => NumErrorText n idArg
  end.

Definition of_panic {A} (r : res panic A) : res fault A :=
  match r with Ok a => Ok a | Err p => Err (Fault p) end.

(** ** Replies *)

Definition fields_reply (en : StreamEntry) : Resp.Value :=
  Array (concat ((fun f => [BulkString f; BulkString (default [] (Fields en !! f))]) <$> Order en)).
Definition entry_reply (en : StreamEntry) : Resp.Value := Array [BulkString (ID en); fields_reply en].
Definition entries_reply (es : list StreamEntry) : Resp.Value := Array (entry_reply <$> es).

Section StreamCommands.
Context {VectorIndex : Type}.
Context (NumErrorText : num_error -> bytes -> bytes).

Abbreviation Value := (@Keyspace.Value SkipList.SkipList VectorIndex).
Abbreviation Entry := (@Keyspace.Entry SkipList.SkipList VectorIndex).
Abbreviation Keyspace := (@Keyspace.Keyspace SkipList.SkipList VectorIndex).
Abbreviation answer := (Resp.Value * bool)%type.
Abbreviation outcome := (res fault (Keyspace * answer)).

Definition stream_text := error_text NumErrorText.
Definition error (text : bytes) : answer := reads (Error text).
Definition syntax_error : answer := error (str "ERR syntax error").

Definition as_stream (v : Value) : option Stream := match v with VStream s => Some s | _ => None end.

(** [entry, ok := Get(key); if !ok || entry.Type != TypeStream { missing };
    body(entry.Value.( *Stream))]. *)
Definition on_stream (c : clock) (key : bytes) (missing : answer) (body : Stream -> res fault (Stream * answer))
    (ks : Keyspace) : outcome :=
  updating c key TypeStream as_stream VStream missing missing body ks.

Definition view_stream (c : clock) (key : bytes) (missing : answer) (body : Stream -> answer) (ks : Keyspace) : outcome :=
  reading c key TypeStream as_stream missing missing (fun s => Ok (body s)) ks.

(** The key of XADD and XGROUP CREATE: a missing one gets an empty stream. *)
Definition open_stream (c : clock) (key : bytes) (body : Stream -> res fault (Stream * answer)) (ks : Keyspace) : outcome :=
  let '(ks, r) := Keyspace.Get ks (now c) key in
  match r with
  | None =>
      let ks := Keyspace.Set_ ks (now c) key (mkE TypeStream (VStream NewStream) 0 0 0) in
      '(s, a) ← body NewStream;
      Ok (poke ks key (VStream s), a)
  | Some entry =>
      if decide (Type_ entry = TypeStream) then
        s ← conversion (as_stream (Value_ entry));
        '(s, a) ← body s;
        Ok (poke ks key (VStream s), a)
      else Ok (ks, wrong_type)
  end.

(** ** XADD *)

(** [MAXLEN [~] n] before the identifier. *)
Definition xadd_maxlen (args : list bytes) : res answer (Z * list bytes) :=
  match args with
  | a :: rest =>
      if decide (ToUpper a = str "MAXLEN") then
        let rest := match rest with t :: rest' => if decide (t = str "~") then rest' else rest | [] => [] end in
        match rest with
        | [] => Err syntax_error
        | n :: rest' => match ParseInt n with Ok ml => Ok (ml, rest') | Err _ => Err not_integer end
        end
      else Ok (-1, args)
  | [] => Ok (-1, args)
  end.

(** The map of fields and their order. *)
Fixpoint xadd_fields (l : list bytes) (fields : gmap bytes bytes) (order : list bytes) : gmap bytes bytes * list bytes :=
  match l with
  | f :: v :: l' => xadd_fields l' (<[f := v]> fields) (order ++ [f])
  | _ => (fields, order)
  end.

Definition xadd_body (wall maxlen : Z) (idArg : bytes) (fieldsList : list bytes) (s : Stream) : res fault (Stream * answer) :=
  let '(fields, order) := xadd_fields fieldsList ∅ [] in
  '(s, r) ← of_panic (Stream.Add s wall idArg fields order);
  match r with
  | Err e => Ok (s, error (stream_text idArg e))
  | Ok assignedID =>
      let s := if 0 <=? maxlen then (Stream.Trim s maxlen).1 else s in
      Ok (s, writes (BulkString assignedID))
  end.

Definition handleXAdd (c : clock) (args : list bytes) (ks : Keyspace) : outcome :=
  if (length args <? 4)%nat then Ok (ks, wrong_args (str "xadd"))
  else
    match xadd_maxlen (drop 1 args) with
    | Err a => Ok (ks, a)
    | Ok (maxlen, rest) =>
        match rest with
        | [] => Ok (ks, wrong_args (str "xadd"))
        | idArg :: fieldsList =>
            if decide (length fieldsList = 0 \/ length fieldsList mod 2 <> 0)%nat then Ok (ks, wrong_args (str "xadd"))
            else open_stream c (arg args 0) (xadd_body (wall c) maxlen idArg fieldsList) ks
        end
    end.

(** ** XRANGE, XREVRANGE, XLEN, XDEL, XTRIM *)

Definition range_count (opts : list bytes) : Z :=
  match opts with
  | o :: n :: _ => if decide (ToUpper o = str "COUNT") then match ParseInt n with Ok c => c | Err _ => -1 end else -1
  | _ => -1
  end.

Definition handleXRange (c : clock) (args : list bytes) (ks : Keyspace) : outcome :=
  match args with
  | key :: start :: stop :: opts =>
      view_stream c key (reads (Array [])) (fun s => reads (entries_reply (Stream.Range s start stop (range_count opts)))) ks
  | _ => Ok (ks, wrong_args (str "xrange"))
  end.

Definition handleXRevRange (c : clock) (args : list bytes) (ks : Keyspace) : outcome :=
  match args with
  | key :: stop :: start :: opts =>
      view_stream c key (reads (Array [])) (fun s => reads (entries_reply (Stream.RevRange s stop start (range_count opts)))) ks
  | _ => Ok (ks, wrong_args (str "xrevrange"))
  end.

Definition cmd_xlen (c : clock) (args : list bytes) (ks : Keyspace) : outcome :=
  match args with
  | key :: _ => view_stream c key (reads (Integer 0)) (fun s => reads (Integer (Stream.Len s))) ks
  | [] => Ok (ks, wrong_args (str "xlen"))
  end.

Definition handleXDel (c : clock) (args : list bytes) (ks : Keyspace) : outcome :=
  if (length args <? 2)%nat then Ok (ks, wrong_args (str "xdel"))
  else
    on_stream c (arg args 0) (reads (Integer 0))
      (fun s => let '(s, n) := Stream.Delete s (drop 1 args) in Ok (s, writes (Integer n))) ks.

Definition handleXTrim (c : clock) (args : list bytes) (ks : Keyspace) : outcome :=
  match args with
  | key :: m :: n :: rest =>
      if decide (ToUpper m <> str "MAXLEN") then Ok (ks, error (str "ERR syntax error, expected MAXLEN"))
      else
        match (if decide (n = str "~") then head rest else Some n) with
        | None => Ok (ks, syntax_error)
        | Some n =>
            match ParseInt n with
            | Err _ => Ok (ks, not_integer)
            | Ok count =>
                on_stream c key (reads (Integer 0))
                  (fun s => let '(s, evicted) := Stream.Trim s count in Ok (s, writes (Integer evicted))) ks
            end
        end
  | _ => Ok (ks, wrong_args (str "xtrim"))
  end.

(** ** Options of XREAD and XREADGROUP *)

Record read_opts := mkOpts { count : Z; blockMs : Z; noAck : bool }.

(** The option loop: [group] allows NOACK; the arguments after STREAMS. *)
Fixpoint read_options (group : bool) (args : list bytes) (o : read_opts) : option (read_opts * list bytes) :=
  match args with
  | [] => None
  | a :: rest =>
      let upper := ToUpper a in
      match rest with
      | v :: rest' =>
          if decide (upper = str "COUNT") then
            read_options group rest' (match ParseInt v with Ok c => mkOpts c (blockMs o) (noAck o) | Err _ => o end)
          else if decide (upper = str "BLOCK") then
            read_options group rest' (match ParseInt v with Ok b => mkOpts (count o) b (noAck o) | Err _ => o end)
          else if decide (group = true /\ upper = str "NOACK") then read_options group rest (mkOpts (count o) (blockMs o) true)
          else if decide (upper = str "STREAMS") then Some (o, rest)
          else read_options group rest o
      | [] => if decide (upper = str "STREAMS") then Some (o, []) else None
      end
  end.

(** The streams to read and the identifiers to read after. *)
Definition split_streams (remaining : list bytes) : option (list (bytes * bytes)) :=
  if decide (length remaining < 2 \/ length remaining mod 2 <> 0)%nat then None
  else
    let n := (length remaining / 2)%nat in
    Some (zip (take n remaining) (drop n remaining)).

(** ["$"] is the last identifier of the stream when the command starts. *)
Fixpoint actual_ids (c : clock) (streams : list (bytes * bytes)) (ks : Keyspace) : res fault (Keyspace * list (bytes * bytes)) :=
  match streams with
  | [] => Ok (ks, [])
  | (key, id) :: streams' =>
      '(ks, id) ← (if decide (id = str "$") then
                     let '(ks, r) := Keyspace.Get ks (now c) key in
                     match r with
                     | Some entry =>
                         if decide (Type_ entry = TypeStream)
                         then s ← conversion (as_stream (Value_ entry)); Ok (ks, Stream.LastID s)
                         else Ok (ks, str "0-0")
                     | None => Ok (ks, str "0-0")
                     end
                   else Ok (ks, id));
      '(ks, streams') ← actual_ids c streams' ks;
      Ok (ks, (key, id) :: streams')
  end.

(** [readOnce]: [read] gives the entries of one stream.  An error ends it, with
    what the streams before were changed to. *)
Fixpoint read_once (c : clock) (read : bytes -> Stream -> Stream * res stream_error (list StreamEntry))
    (streams : list (bytes * bytes)) (ks : Keyspace) : res fault (Keyspace * res stream_error (list Resp.Value)) :=
  match streams with
  | [] => Ok (ks, Ok [])
  | (key, id) :: streams' =>
      let '(ks, r) := Keyspace.Get ks (now c) key in
      match r with
      | Some entry =>
          if decide (Type_ entry = TypeStream) then
            s ← conversion (as_stream (Value_ entry));
            let '(s, rs) := read id s in
            let ks := poke ks key (VStream s) in
            match rs with
            | Err e => Ok (ks, Err e)
            | Ok es =>
                '(ks, results) ← read_once c read streams' ks;
                Ok (ks, match es with [] => results | _ => rs' ← results; Ok (Array [BulkString key; entries_reply es] :: rs') end)
            end
          else read_once c read streams' ks
      | None => read_once c read streams' ks
      end
  end.

(** ** Waiting *)

(** A blocked reader registers with its streams, ... *)
Fixpoint register_all (c : clock) (keys : list bytes) (ks : Keyspace) : res fault (Keyspace * list (bytes * positive)) :=
  match keys with
  | [] => Ok (ks, [])
  | key :: keys' =>
      let '(ks, r) := Keyspace.Get ks (now c) key in
      match r with
      | Some entry =>
          if decide (Type_ entry = TypeStream) then
            s ← conversion (as_stream (Value_ entry));
            let '(s, ch) := RegisterWaiter s in
            '(ks, chs) ← register_all c keys' (poke ks key (VStream s));
            Ok (ks, (key, ch) :: chs)
          else register_all c keys' ks
      | None => register_all c keys' ks
      end
  end.

(** ... and unregisters.  The closure holds the stream it registered with: when the
    key has lost that stream in the meantime ([gone]) it works on an object that the
    keyspace does not have any more. *)
Definition cancel_one (gone : bytes -> bool) (ks : Keyspace) (w : bytes * positive) : Keyspace :=
  if gone w.1 then ks
  else
    match look ks w.1 with
    | Some entry => match as_stream (Value_ entry) with Some s => poke ks w.1 (VStream (cancel s w.2)) | None => ks end
    | None => ks
    end.

(** When the other clients act during a poll: before the reader registers, while it
    is registered and sleeps, and between [cancel] and [readOnce]. *)
Inductive phase := Idle | Asleep | Awake.

(** What happens outside the reader at its [i]-th poll: the clocks of the read and of
    the registration, what the other clients do to the keyspace in each phase, and
    the keys whose stream they delete or replace during the sleep. *)
Record world := mkWorld {
  tick : nat -> stream_clock;
  arrival : nat -> clock;
  others : nat -> phase -> Keyspace -> Keyspace;
  replaced : nat -> bytes -> bool
}.

(** No other client does anything. *)
Definition quiet (t : nat -> stream_clock) : world :=
  mkWorld t (fun i => base (t i)) (fun _ _ ks => ks) (fun _ _ => false).

(** The answer of [readOnce] as a reply, [None] when there is nothing to read. *)
Definition read_reply (r : res stream_error (list Resp.Value)) : option answer :=
  match r with
  | Err e => Some (error (stream_text [] e))
  | Ok [] => None
  | Ok results => Some (reads (Array results))
  end.

(** The polling loop; [deadline] is [None] for BLOCK 0. *)
Fixpoint block_loop (w : world) (fuel i : nat) (deadline : option Z)
    (read : stream_clock -> bytes -> Stream -> Stream * res stream_error (list StreamEntry))
    (streams : list (bytes * bytes)) (ks : Keyspace) : option outcome :=
  match fuel with
  | O => None
  | S fuel' =>
      let t := tick w i in
      match register_all (arrival w i) (fst <$> streams) (others w i Idle ks) with
      | Err x => Some (Err x)
      | Ok (ks, chs) =>
          let ks := others w i Asleep ks in
          let ks := others w i Awake (foldl (cancel_one (replaced w i)) ks chs) in
          match read_once (base t) (read t) streams ks with
          | Err x => Some (Err x)
          | Ok (ks, r) =>
              match read_reply r with
              | Some a => Some (Ok (ks, a))
              | None =>
                  if match deadline with Some d => d <? nano' t | None => false end then Some (Ok (ks, reads NullArray))
                  else block_loop w fuel' (S i) deadline read streams ks
              end
          end
      end
  end.

(** The common end of XREAD and XREADGROUP; poll 0 is the first, unblocked read.
    [time.Duration(blockMs) * time.Millisecond] wraps. *)
Definition read_streams (w : world) (fuel : nat) (o : read_opts)
    (read : stream_clock -> bytes -> Stream -> Stream * res stream_error (list StreamEntry))
    (streams : list (bytes * bytes)) (ks : Keyspace) : option outcome :=
  let t := tick w 0 in
  match read_once (base t) (read t) streams ks with
  | Err x => Some (Err x)
  | Ok (ks, r) =>
      match read_reply r with
      | Some a => Some (Ok (ks, a))
      | None =>
          if blockMs o <? 0 then Some (Ok (ks, reads NullArray))
          else
            let deadline := if 0 <? blockMs o then Some (nano' t + int64 (blockMs o * 1000000)) else None in
            block_loop w fuel 1 deadline read streams ks
      end
  end.

Definition no_opts : read_opts := mkOpts (-1) (-1) false.

Definition handleXRead (w : world) (fuel : nat) (args : list bytes) (ks : Keyspace) : option outcome :=
  match read_options false args no_opts with
  | None => Some (Ok (ks, error (str "ERR syntax error, missing STREAMS in 'xread'")))
  | Some (o, remaining) =>
      match split_streams remaining with
      | None => Some (Ok (ks, error (str "ERR Unbalanced XREAD list of streams: for each stream key an ID must be specified")))
      | Some streams =>
          match actual_ids (base (tick w 0)) streams ks with
          | Err x => Some (Err x)
          | Ok (ks, streams) => read_streams w fuel o (fun _ id s => (s, Ok (Stream.Read s id (count o)))) streams ks
          end
      end
  end.

Definition handleXReadGroup (w : world) (fuel : nat) (args : list bytes) (ks : Keyspace) : option outcome :=
  match args with
  | g :: group :: consumer :: rest =>
      if decide (length args < 6 \/ ToUpper g <> str "GROUP")%nat then
        Some (Ok (ks, error (str "ERR syntax error, expected XREADGROUP GROUP <group> <consumer> ...")))
      else
        match read_options true rest no_opts with
        | None => Some (Ok (ks, error (str "ERR syntax error, missing STREAMS in 'xreadgroup'")))
        | Some (o, remaining) =>
            match split_streams remaining with
            | None => Some (Ok (ks, error (str "ERR Unbalanced XREADGROUP list of streams")))
            | Some streams =>
                read_streams w fuel o
                  (fun t id s => Stream.ReadGroup s (seen_at t) (nano t) group consumer id (count o) (noAck o)) streams ks
            end
        end
  | _ => Some (Ok (ks, error (str "ERR syntax error, expected XREADGROUP GROUP <group> <consumer> ...")))
  end.

(** ** XGROUP and XACK *)

(** A change of groups that may be refused. *)
Definition group_change (idArg : bytes) (r : Stream * res stream_error unit) : res fault (Stream * answer) :=
  match r with
  | (s, Err e) => Ok (s, error (stream_text idArg e))
  | (s, Ok _) => Ok (s, writes OK)
  end.

Definition no_stream_key : answer :=
  error (str "ERR The XGROUP subcommand requires the key to exist. Note that for CREATE you can specify MKSTREAM to create an empty stream automatically.").

Definition xgroup_create (c : clock) (args : list bytes) (ks : Keyspace) : outcome :=
  match args with
  | key :: group :: id :: opts =>
      let mkstream := match opts with o :: _ => bool_decide (ToUpper o = str "MKSTREAM") | [] => false end in
      let body s := group_change id (Stream.CreateGroup s group id) in
      if mkstream then open_stream c key body ks
      else updating c key TypeStream as_stream VStream no_stream_key wrong_type body ks
  | _ => Ok (ks, wrong_args (str "xgroup create"))
  end.

Definition handleXGroup (c : clock) (args : list bytes) (ks : Keyspace) : outcome :=
  match args with
  | sub :: (_ :: _) as rest =>
      let subCmd := ToUpper sub in
      if decide (subCmd = str "CREATE") then xgroup_create c rest ks
      else if decide (subCmd = str "DESTROY") then
        match rest with
        | key :: group :: _ =>
            on_stream c key (reads (Integer 0))
              (fun s => let '(s, destroyed) := Stream.DestroyGroup s group in
                        Ok (s, if (destroyed : bool) then writes (Integer 1) else reads (Integer 0))) ks
        | _ => Ok (ks, wrong_args (str "xgroup destroy"))
        end
      else if decide (subCmd = str "SETID") then
        match rest with
        | key :: group :: id :: _ =>
            on_stream c key (error (str "ERR no such key")) (fun s => group_change id (Stream.SetGroupID s group id)) ks
        | _ => Ok (ks, wrong_args (str "xgroup setid"))
        end
      else if decide (subCmd = str "DELCONSUMER") then
        match rest with
        | key :: group :: consumer :: _ =>
            on_stream c key (reads (Integer 0))
              (fun s => let '(s, n) := Stream.DeleteConsumer s group consumer in Ok (s, writes (Integer n))) ks
        | _ => Ok (ks, wrong_args (str "xgroup delconsumer"))
        end
      else Ok (ks, error (str "ERR unknown XGROUP subcommand '" ++ subCmd ++ str "'"))
  | _ => Ok (ks, wrong_args (str "xgroup"))
  end.

Definition handleXAck (c : clock) (args : list bytes) (ks : Keyspace) : outcome :=
  match args with
  | key :: group :: (_ :: _) as ids =>
      on_stream c key (reads (Integer 0))
        (fun s => '(s, n) ← of_panic (Stream.Ack s group ids); Ok (s, writes (Integer n))) ks
  | _ => Ok (ks, wrong_args (str "xack"))
  end.

(** ** XPENDING and XINFO *)

Definition pending_summary (group : bytes) (s : Stream) : answer :=
  match Stream.GetPendingSummary s group with
  | Err e => error (stream_text [] e)
  | Ok (total, minID, maxID, counts) =>
      reads (if total =? 0 then Array [Integer 0; Null; Null; Null]
             else Array [Integer total; BulkString minID; BulkString maxID;
                         Array ((fun '(n, k) => Array [BulkString n; Integer k]) <$> map_to_list counts)])
  end.

(** [now.Sub(pe.DeliveryTime).Milliseconds()], at least 0. *)
Definition idle_ms (now : Z) (pe : PendingEntry) : Z := Z.max 0 (Z.quot (time_Sub now (DeliveryTime pe)) 1000000).

(** The options [IDLE ms], [start end count [consumer]]; [minIdle] wraps. *)
Definition pending_options (opts : list bytes) : res answer (Z * bytes * bytes * Z * bytes) :=
  let detail minIdle opts :=
    match opts with
    | start :: stop :: n :: rest =>
        match ParseInt n with
        | Err _ => Err not_integer
        | Ok count => Ok (minIdle, start, stop, count, match rest with f :: _ => f | [] => [] end)
        end
    | _ => Err (error (str "ERR wrong number of arguments for 'xpending' detailed command"))
    end in
  match opts with
  | o :: opts' =>
      if decide (ToUpper o = str "IDLE") then
        match opts' with
        | [] => Err syntax_error
        | ms :: opts'' => match ParseInt ms with Ok n => detail (int64 (n * 1000000)) opts'' | Err _ => Err not_integer end
        end
      else detail 0 opts
  | [] => detail 0 opts
  end.

Definition pending_row (now : Z) (pe : PendingEntry) : Resp.Value :=
  Array [BulkString (peID pe); BulkString (ConsumerName pe); Integer (idle_ms now pe); Integer (DeliveryCount pe)].

Definition pending_detail (t : stream_clock) (group : bytes) (opts : list bytes) (s : Stream) : answer :=
  match pending_options opts with
  | Err a => a
  | Ok (minIdle, start, stop, count, consumerFilter) =>
      match Stream.GetPendingDetailed s (nano t) group start stop count consumerFilter minIdle with
      | Err e => error (stream_text [] e)
      | Ok detailed => reads (Array (pending_row (nano' t) <$> detailed))
      end
  end.

Definition handleXPending (t : stream_clock) (args : list bytes) (ks : Keyspace) : outcome :=
  match args with
  | key :: group :: opts =>
      view_stream (base t) key (error (str "ERR no such key"))
        (fun s => match opts with [] => pending_summary group s | _ => pending_detail t group opts s end) ks
  | _ => Ok (ks, wrong_args (str "xpending"))
  end.

Definition xinfo_stream (s : Stream) : Resp.Value :=
  let firstID := match Stream.Range s (str "-") (str "+") 1 with e :: _ => BulkString (ID e) | [] => Null end in
  let lastID := if 0 <? Stream.Len s then BulkString (Stream.LastID s) else Null in
  Array [BulkString (str "length"); Integer (Stream.Len s);
         BulkString (str "radix-tree-keys"); Integer (Stream.Len s);
         BulkString (str "radix-tree-nodes"); Integer 1;
         BulkString (str "last-generated-id"); lastID;
         BulkString (str "groups"); Integer (Z.of_nat (length (Stream.GetGroupsInfo s)));
         BulkString (str "first-entry"); firstID;
         BulkString (str "last-entry"); lastID].

Definition group_row (g : bytes * Z * Z * bytes) : Resp.Value :=
  let '(name, consumers, pending, last) := g in
  Array [BulkString (str "name"); BulkString name; BulkString (str "consumers"); Integer consumers;
         BulkString (str "pending"); Integer pending; BulkString (str "last-delivered-id"); BulkString last].

Definition consumer_row (c : bytes * Z * Z) : Resp.Value :=
  let '(name, pending, idle) := c in
  Array [BulkString (str "name"); BulkString name; BulkString (str "pending"); Integer pending;
         BulkString (str "idle"); Integer idle].

Definition xinfo_body (t : stream_clock) (subCmd : bytes) (rest : list bytes) (s : Stream) : answer :=
  if decide (subCmd = str "STREAM") then reads (xinfo_stream s)
  else if decide (subCmd = str "GROUPS") then reads (Array (group_row <$> Stream.GetGroupsInfo s))
  else if decide (subCmd = str "CONSUMERS") then
    match rest with
    | [] => wrong_args (str "xinfo consumers")
    | group :: _ =>
        match Stream.GetConsumersInfo s (nano t) group with
        | Err e => error (stream_text [] e)
        | Ok rows => reads (Array (consumer_row <$> rows))
        end
    end
  else error (str "ERR unknown XINFO subcommand '" ++ subCmd ++ str "'").

Definition handleXInfo (t : stream_clock) (args : list bytes) (ks : Keyspace) : outcome :=
  match args with
  | sub :: key :: rest =>
      view_stream (base t) key (error (str "ERR no such key")) (xinfo_body t (ToUpper sub) rest) ks
  | _ => Ok (ks, wrong_args (str "xinfo"))
  end.

(** ** The switch: [None] is a reader that still waits *)

Definition stream_cases (w : world) (fuel : nat) (args : list bytes) : list (bytes * (Keyspace -> option outcome)) :=
  let t := tick w 0 in
  let c := base t in
  [(str "XADD", fun ks => Some (handleXAdd c args ks));
   (str "XRANGE", fun ks => Some (handleXRange c args ks));
   (str "XREVRANGE", fun ks => Some (handleXRevRange c args ks));
   (str "XLEN", fun ks => Some (cmd_xlen c args ks));
   (str "XDEL", fun ks => Some (handleXDel c args ks));
   (str "XTRIM", fun ks => Some (handleXTrim c args ks));
   (str "XREAD", handleXRead w fuel args);
   (str "XGROUP", fun ks => Some (handleXGroup c args ks));
   (str "XREADGROUP", handleXReadGroup w fuel args);
   (str "XACK", fun ks => Some (handleXAck c args ks));
   (str "XPENDING", fun ks => Some (handleXPending t args ks));
   (str "XINFO", fun ks => Some (handleXInfo t args ks))].

(** A stream command; [None] also for a name that is not one. *)
Definition stream_dispatch (w : world) (fuel : nat) (cmd : bytes) (args : list bytes) (ks : Keyspace) : option outcome :=
  p ← list_find (fun p => p.1 = cmd) (stream_cases w fuel args);
  p.2.2 ks.

End StreamCommands.
