(* ===== verification/StreamLaws.v ===== *)
(** * What the stream commands guarantee (internal/engine/engine.go)

    No stream command panics or fails a type assertion, whatever its arguments and
    whatever other clients do while it waits, and it returns unless it was asked to
    block; an entry added is the one a range query finds; a blocked reader is woken
    by an entry added to its stream. *)

From S2P Require Import Prelude Resp Stream SkipList Keyspace Commands CommandLaws StreamCommands.

(** ** Streams on which no operation panics *)

Definition resolved (ps : gmap positive PendingEntry) (g : ConsumerGroup) : Prop :=
  forall id l, gPEL g !! id = Some l -> is_Some (ps !! l).

(** The registered waiters are distinct open channels, and pending locations are
    in the store. *)
Definition alive (s : Stream) : Prop :=
  waiters_wf s /\ forall n g, groups s !! n = Some g -> resolved (pes s) g.

Lemma NewStream_alive : alive NewStream.
Proof. split; [split; constructor|]. intros n g. cbn [groups NewStream]. by rewrite lookup_empty. Qed.

(** A change of one group and of the store. *)
Lemma alive_group s es li n g ps ws chs : alive s -> waiters_wf (mkStream es li (groups s) ws chs ps) ->
  (forall l, is_Some (pes s !! l) -> is_Some (ps !! l)) -> resolved ps g ->
  alive (mkStream es li (<[n := g]> (groups s)) ws chs ps).
Proof.
  intros [_ HG] HW Hps Hg. split; [done|]. intros m g'. cbn [groups pes].
  destruct (decide (m = n)) as [-> |Hne]; [rewrite lookup_insert_eq; intros [= <-]; done|].
  rewrite lookup_insert_ne by done. intros Hm id l Hl. eapply Hps, HG; eauto.
Qed.

Lemma alive_quiet s s' : alive s -> groups s' = groups s -> pes s' = pes s -> waiters_wf s' -> alive s'.
Proof. intros [_ HG] E1 E2 HW. split; [done|]. by rewrite E1, E2. Qed.

Lemma resolved_mono ps ps' g : (forall l, is_Some (ps !! l) -> is_Some (ps' !! l)) -> resolved ps g -> resolved ps' g.
Proof. intros H Hg id l Hl. eapply H, Hg, Hl. Qed.

Lemma deliver_resolved c now noAck e g ps g' ps' : deliver c now noAck e g ps = (g', ps') -> resolved ps g ->
  resolved ps' g' /\ forall l, is_Some (ps !! l) -> is_Some (ps' !! l).
Proof.
  unfold deliver. destruct noAck; intros [= <- <-] Hg; [by split|].
  assert (forall l pe, is_Some (ps !! l) -> is_Some (<[fresh (dom ps) := pe]> ps !! l)) as Hm.
  { intros l pe Hl. destruct (decide (l = fresh (dom ps))) as [->|]; [rewrite lookup_insert_eq; eauto|by rewrite lookup_insert_ne]. }
  split; [|auto]. intros id l. cbn [gPEL]. destruct (decide (id = ID e)) as [->|].
  - rewrite lookup_insert_eq. intros [= <-]. rewrite lookup_insert_eq. eauto.
  - rewrite lookup_insert_ne by done. intros Hl. eapply Hm, Hg, Hl.
Qed.

Lemma read_new_resolved c now count noAck es : forall results g ps results' g' ps',
  read_new c now count noAck es results g ps = (results', g', ps') -> resolved ps g ->
  resolved ps' g' /\ forall l, is_Some (ps !! l) -> is_Some (ps' !! l).
Proof.
  induction es as [|e es IH]; intros results g ps results' g' ps'; cbn [read_new]; [by intros [= <- <- <-]|].
  destruct (_ >? 0); [|apply IH]. destruct (deliver c now noAck e g ps) as [g1 ps1] eqn:E. intros H Hg.
  destruct (deliver_resolved _ _ _ _ _ _ _ _ E Hg) as [Hg1 Hm]. destruct (full _ _); [by simplify_eq|].
  apply IH in H as [? ?]; [|done]. split; [done|]. auto.
Qed.

Lemma read_pending_store now count noAck em pel pids : forall results ps results' ps',
  read_pending now count noAck em pel pids results ps = (results', ps') -> forall l, is_Some (ps !! l) -> is_Some (ps' !! l).
Proof.
  induction pids as [|pid pids IH]; intros results ps results' ps'; cbn [read_pending]; [by intros [= <- <-]|].
  destruct (em !! pid) as [en|]; [|apply IH].
  assert (forall l, is_Some (ps !! l) -> is_Some ((if noAck then ps else match pel !! pid with Some l => alter (redeliver now) l ps | None => ps end) !! l)) as Hm.
  { intros l Hl. destruct noAck; [done|]. destruct (pel !! pid) as [l'|]; [|done].
    destruct (decide (l = l')) as [->|]; [rewrite lookup_alter_eq; by apply fmap_is_Some|by rewrite lookup_alter_ne]. }
  destruct (full _ _); intros H l Hl; [simplify_eq; auto|]. eapply IH; [exact H|auto].
Qed.

Lemma ack_loop_resolved ps ids : forall g n, resolved ps g -> exists g' n', ack_loop ps ids g n = Ok (g', n') /\ resolved ps g'.
Proof.
  induction ids as [|id ids IH]; intros g n Hg; cbn [ack_loop]; [eauto|].
  destruct (gPEL g !! id) as [l|] eqn:El; [|by apply IH]. destruct (Hg id l El) as [pe ->].
  apply IH. intros id' l'. cbn [gPEL]. intros [_ H]%lookup_delete_Some. eauto.
Qed.

Lemma foldl_delete_sub {A} (ids : list bytes) : forall (m : gmap bytes A) id l,
  foldl (fun m id => delete id m) m ids !! id = Some l -> m !! id = Some l.
Proof. induction ids as [|i ids IH]; intros m id l H; [done|]. apply IH in H. by apply lookup_delete_Some in H as [_ ?]. Qed.

(** No operation of a stream panics. *)
Lemma exec_alive s o : alive s -> exists s' rs, Stream.exec s o = Ok (s', rs) /\ alive s'.
Proof.
  intros HA. pose proof HA as [HW HG]. destruct o; cbn [Stream.exec].
  - unfold Add. destruct (choose_id _ _ _) as [sid|]; [|by do 2 eexists].
    destruct (close_all_ok (waiters s) (chans s)) as (chs & -> & _); [apply HW..|]. cbn.
    do 2 eexists. split; [done|]. split; [split; constructor|apply HG].
  - do 2 eexists. split; [done|]. rewrite Delete_entries. by eapply alive_quiet.
  - do 2 eexists. split; [done|]. unfold Trim. case_match; [done|]. by eapply alive_quiet.
  - do 2 eexists. split; [done|]. eapply alive_quiet; [done..|]. by apply RegisterWaiter_waiters.
  - do 2 eexists. split; [done|]. eapply alive_quiet; [done..|]. by apply cancel_waiters.
  - do 2 eexists. split; [done|]. unfold CreateGroup. case_match; [done|]. apply alive_group; [done|done|done|].
    intros id l. cbn [gPEL]. by rewrite lookup_empty.
  - do 2 eexists. split; [done|]. unfold DestroyGroup. case_match; [|done]. split; [done|].
    intros n g. cbn [fst groups set_groups pes]. intros [_ Hd]%lookup_delete_Some. eauto.
  - do 2 eexists. split; [done|]. unfold SetGroupID. case_match eqn:Eg; [|done]. apply alive_group; [done|done|done|]. apply (HG _ _ Eg).
  - do 2 eexists. split; [done|]. unfold DeleteConsumer. case_match eqn:Eg; [|done]. case_match; [|done]. apply alive_group; [done|done|done|].
    intros id l. cbn [gPEL]. intros Hl%foldl_delete_sub. by eapply HG.
  - unfold ReadGroup. destruct (groups s !! group) as [g|] eqn:Eg; [|by do 2 eexists]. destruct (decide _).
    + destruct (read_new _ _ _ _ _ _ _ _) as [[rs g1] ps1] eqn:E. do 2 eexists. split; [done|].
      apply read_new_resolved in E as [? ?]; [|apply (HG _ _ Eg)]. by apply alive_group.
    + destruct (read_pending _ _ _ _ _ _ _ _) as [rs ps1] eqn:E. do 2 eexists. split; [done|].
      pose proof (read_pending_store _ _ _ _ _ _ _ _ _ _ E) as Hm. apply alive_group; [done|done|done|].
      eapply resolved_mono; [done|]. apply (HG _ _ Eg).
  - unfold Ack. destruct (groups s !! group) as [g|] eqn:Eg; [|by do 2 eexists].
    destruct (ack_loop_resolved (pes s) ids g 0 (HG _ _ Eg)) as (g' & n' & -> & Hg'). cbn. do 2 eexists. split; [done|]. by apply alive_group.
Qed.

Lemma op_alive s o s' rs : alive s -> Stream.exec s o = Ok (s', rs) -> alive s'.
Proof. intros HA E. destruct (exec_alive s o HA) as (s1 & rs1 & E1 & H). rewrite E in E1. by injection E1 as -> ->. Qed.

(** [op_alive] for an operation whose result is known. *)
Ltac by_op o := refine (op_alive _ o _ _ _ eq_refl); done.

Section Laws.
Context {VectorIndex : Type}.
Context (NumErrorText : num_error -> bytes -> bytes).

Abbreviation Keyspace := (@Keyspace.Keyspace SkipList.SkipList VectorIndex).
Abbreviation answer := (Resp.Value * bool)%type.
Abbreviation outcome := (res fault (Keyspace * answer)).
Implicit Types (ks : Keyspace) (s : Stream) (c : clock).

(** ** Keyspaces whose streams are sound *)

Definition streams_ok ks : Prop :=
  Keyspace.wf ks /\ forall k e, look ks k = Some e -> Type_ e = TypeStream -> exists s, Value_ e = VStream s /\ alive s.

(** A command that ended. *)
Definition settled (o : outcome) : Prop := exists ks a, o = Ok (ks, a) /\ streams_ok ks.

Lemma settled_same ks a : streams_ok ks -> settled (Ok (ks, a)).
Proof using. intros H. by exists ks, a. Qed.

Lemma streams_ok_store ks k e : streams_ok ks -> (Type_ e = TypeStream -> exists s, Value_ e = VStream s /\ alive s) ->
  streams_ok (store ks k e).
Proof using.
  intros [Hwf H] He. split; [by apply store_wf|]. intros k' e'. rewrite look_store by done.
  destruct (decide (k' = k)); [intros [= <-]; exact He|apply H].
Qed.

Lemma streams_ok_count ks d : streams_ok ks -> streams_ok (addCount ks d).
Proof using. intros [? ?]. split; [by apply addCount_wf|done]. Qed.

Lemma streams_ok_remove ks k : streams_ok ks -> streams_ok (remove ks k).
Proof using.
  intros [Hwf H]. split; [by apply remove_wf|]. intros k' e'. rewrite look_remove by done.
  destruct (decide (k' = k)); [done|apply H].
Qed.

Lemma poke_ok ks k s : streams_ok ks -> alive s -> streams_ok (poke ks k (VStream s)).
Proof using. intros Hok Ha. unfold poke. destruct (look ks k); [|done]. apply streams_ok_store; [done|]. cbn. eauto. Qed.

Lemma Get_ok ks t k : streams_ok ks ->
  streams_ok (Keyspace.Get ks t k).1 /\ look (Keyspace.Get ks t k).1 k = (Keyspace.Get ks t k).2.
Proof using.
  intros Hok. rewrite Get_load_live. unfold load_live. destruct (look ks k) as [e|] eqn:E; [|done].
  destruct (IsExpired e t); [|done]. split; [by apply streams_ok_count, streams_ok_remove|].
  cbn [fst snd]. change (look (remove ks k) k = None). rewrite look_remove by apply Hok. by rewrite decide_True.
Qed.

Lemma new_stream_ok ks t k : streams_ok ks -> streams_ok (Keyspace.Set_ ks t k (mkE TypeStream (VStream NewStream) 0 0 0)).
Proof using.
  intros Hok. unfold Keyspace.Set_. apply streams_ok_store; [|cbn; eauto using NewStream_alive].
  destruct (look ks k); [done|by apply streams_ok_count].
Qed.

Lemma stream_value ks t k e : streams_ok ks -> (Keyspace.Get ks t k).2 = Some e -> Type_ e = TypeStream ->
  exists s, conversion (as_stream (Value_ e)) = Ok s /\ alive s.
Proof using.
  intros Hok E Ht. destruct (Get_ok ks t k Hok) as [[_ H] HL]. rewrite E in HL. destruct (H k e HL Ht) as (s & -> & Ha). by exists s.
Qed.

(** ** The shapes of a command on one stream *)

Definition body_ok (body : Stream -> res fault (Stream * answer)) : Prop :=
  forall s, alive s -> exists s' a, body s = Ok (s', a) /\ alive s'.

Lemma updating_ok c k missing wrong body ks : streams_ok ks -> body_ok body ->
  settled (updating c k TypeStream as_stream VStream missing wrong body ks).
Proof using.
  intros Hok Hb. unfold updating. destruct (Get_ok ks (now c) k Hok) as [Hok' _]. pose proof (stream_value ks (now c) k) as HV.
  destruct (Keyspace.Get ks (now c) k) as [k1 [e|]]; [|by apply settled_same]. cbn [fst snd] in *.
  destruct (decide _) as [Ht|]; [|by apply settled_same]. destruct (HV e Hok eq_refl Ht) as (s & -> & Ha). csimpl.
  destruct (Hb s Ha) as (s' & a & -> & Ha'). csimpl. by apply settled_same, poke_ok.
Qed.

Lemma view_ok c k missing body ks : streams_ok ks -> settled (view_stream c k missing body ks).
Proof using.
  intros Hok. unfold view_stream, reading. destruct (Get_ok ks (now c) k Hok) as [Hok' _]. pose proof (stream_value ks (now c) k) as HV.
  destruct (Keyspace.Get ks (now c) k) as [k1 [e|]]; [|by apply settled_same]. cbn [fst snd] in *.
  destruct (decide _) as [Ht|]; [|by apply settled_same]. destruct (HV e Hok eq_refl Ht) as (s & -> & Ha). csimpl. by apply settled_same.
Qed.

Lemma open_ok c k body ks : streams_ok ks -> body_ok body -> settled (open_stream c k body ks).
Proof using.
  intros Hok Hb. unfold open_stream. destruct (Get_ok ks (now c) k Hok) as [Hok' _]. pose proof (stream_value ks (now c) k) as HV.
  destruct (Keyspace.Get ks (now c) k) as [k1 [e|]]; cbn [fst snd] in *.
  - destruct (decide _) as [Ht|]; [|by apply settled_same]. destruct (HV e Hok eq_refl Ht) as (s & -> & Ha). csimpl.
    destruct (Hb s Ha) as (s' & a & -> & Ha'). csimpl. by apply settled_same, poke_ok.
  - destruct (Hb NewStream NewStream_alive) as (s' & a & -> & Ha'). csimpl. by apply settled_same, poke_ok, Ha'; apply new_stream_ok.
Qed.

(** ** The commands that never wait *)

Lemma xadd_body_ok wall maxlen idArg l : body_ok (xadd_body NumErrorText wall maxlen idArg l).
Proof using.
  intros s Ha. unfold xadd_body. destruct (xadd_fields l ∅ []) as [fields order].
  destruct (exec_alive s (OAdd wall idArg fields order) Ha) as (s' & rs & E & Ha'). cbn [Stream.exec] in E.
  destruct (Add s wall idArg fields order) as [[s1 r]|p]; [|done]. csimpl in E. simplify_eq. csimpl.
  destruct r as [id|e]; [|by do 2 eexists]. do 2 eexists. split; [done|]. destruct (0 <=? maxlen); [|done]. by_op (OTrim maxlen).
Qed.

Lemma group_change_ok idArg f o : (forall s, Stream.exec s o = Ok (fst (f s), [])) -> body_ok (fun s => group_change NumErrorText idArg (f s)).
Proof using.
  intros Ho s Ha. unfold group_change. specialize (Ho s). pose proof (op_alive s o _ _ Ha Ho) as H.
  destruct (f s) as [s' [u|e]]; by do 2 eexists.
Qed.

Ltac settle := first [by apply settled_same | by apply view_ok | apply updating_ok; [done|] | apply open_ok; [done|]].

Lemma handleXAdd_ok c args ks : streams_ok ks -> settled (handleXAdd NumErrorText c args ks).
Proof using.
  intros Hok. unfold handleXAdd. destruct (_ <? 4)%nat; [settle|]. destruct (xadd_maxlen _) as [[ml rest]|]; [|settle].
  destruct rest as [|id l]; [settle|]. destruct (decide _); [settle|]. settle. apply xadd_body_ok.
Qed.

Lemma handleXDel_ok c args ks : streams_ok ks -> settled (handleXDel c args ks).
Proof using.
  intros Hok. unfold handleXDel, on_stream. destruct (_ <? 2)%nat; [settle|]. settle. intros s Ha.
  pose proof (op_alive s (ODelete (drop 1 args)) _ _ Ha eq_refl) as H. destruct (Stream.Delete s _) as [s' n]. by do 2 eexists.
Qed.

Lemma handleXTrim_ok c args ks : streams_ok ks -> settled (handleXTrim c args ks).
Proof using.
  intros Hok. unfold handleXTrim, on_stream. destruct args as [|key [|m [|n rest]]]; [settle..|]. destruct (decide (ToUpper m <> _)); [settle|].
  destruct (if decide (n = str "~") then head rest else Some n) as [n'|]; [|settle]. destruct (ParseInt n') as [z|]; [|settle].
  settle. intros s Ha. pose proof (op_alive s (OTrim z) _ _ Ha eq_refl) as H. destruct (Trim s z) as [s' k]. by do 2 eexists.
Qed.

Lemma handleXGroup_ok c args ks : streams_ok ks -> settled (handleXGroup NumErrorText c args ks).
Proof using.
  intros Hok. unfold handleXGroup, on_stream. destruct args as [|sub [|x rest]]; [settle..|]. destruct (decide _).
  { unfold xgroup_create. destruct rest as [|group [|id opts]]; [settle..|].
    destruct (match opts with o :: _ => bool_decide (ToUpper o = str "MKSTREAM") | [] => false end); settle;
      by apply (group_change_ok id (fun s => CreateGroup s group id) (OCreate group id)). }
  destruct (decide _).
  { destruct rest as [|group rest]; [settle|]. settle. intros s Ha. pose proof (op_alive s (ODestroy group) _ _ Ha eq_refl) as H.
    destruct (DestroyGroup s group) as [s' []]; by do 2 eexists. }
  destruct (decide _).
  { destruct rest as [|group [|id opts]]; [settle..|]. settle. by apply (group_change_ok id (fun s => SetGroupID s group id) (OSetID group id)). }
  destruct (decide _); [|settle].
  destruct rest as [|group [|consumer opts]]; [settle..|]. settle. intros s Ha. pose proof (op_alive s (ODelConsumer group consumer) _ _ Ha eq_refl) as H.
  destruct (DeleteConsumer s group consumer) as [s' gone]. by do 2 eexists.
Qed.

Lemma handleXAck_ok c args ks : streams_ok ks -> settled (handleXAck c args ks).
Proof using.
  intros Hok. unfold handleXAck, on_stream. destruct args as [|key [|group [|id ids]]]; [settle..|]. settle. intros s Ha.
  destruct (exec_alive s (OAck group (id :: ids)) Ha) as (s' & rs & E & Ha'). cbn [Stream.exec] in E.
  destruct (Ack s group (id :: ids)) as [[s1 n]|]; [|done]. csimpl in E. simplify_eq. csimpl. by do 2 eexists.
Qed.

Lemma views_ok t args ks : streams_ok ks ->
  settled (handleXRange (base t) args ks) /\ settled (handleXRevRange (base t) args ks) /\ settled (cmd_xlen (base t) args ks) /\
  settled (handleXPending NumErrorText t args ks) /\ settled (handleXInfo NumErrorText t args ks).
Proof using.
  intros Hok. unfold handleXRange, handleXRevRange, cmd_xlen, handleXPending, handleXInfo.
  repeat match goal with |- _ /\ _ => split end; repeat case_match; settle.
Qed.

(** ** The commands that may wait *)

Definition read_ok (read : bytes -> Stream -> Stream * res stream_error (list StreamEntry)) : Prop :=
  forall id s, alive s -> alive (read id s).1.

Lemma read_once_ok c read streams : read_ok read -> forall ks, streams_ok ks ->
  exists ks' r, read_once c read streams ks = Ok (ks', r) /\ streams_ok ks'.
Proof using.
  intros Hr. induction streams as [|[key id] streams IH]; intros ks Hok; cbn [read_once]; [eauto|].
  destruct (Get_ok ks (now c) key Hok) as [Hok' _]. pose proof (stream_value ks (now c) key) as HV.
  destruct (Keyspace.Get ks (now c) key) as [k1 [e|]]; cbn [fst snd] in *; [|by apply IH].
  destruct (decide _) as [Ht|]; [|by apply IH]. destruct (HV e Hok eq_refl Ht) as (s & -> & Ha). csimpl.
  specialize (Hr id s Ha). destruct (read id s) as [s' [es|x]]; cbn [fst] in Hr; pose proof (poke_ok k1 key s' Hok' Hr) as Hp; [|eauto].
  destruct (IH _ Hp) as (k2 & r & -> & Hok2). csimpl. eauto.
Qed.

Lemma actual_ids_ok c streams : forall ks, streams_ok ks -> exists ks' l, actual_ids c streams ks = Ok (ks', l) /\ streams_ok ks'.
Proof using.
  induction streams as [|[key id] streams IH]; intros ks Hok; cbn [actual_ids]; [eauto|].
  assert (forall k1 i, streams_ok k1 -> exists ks' l, ('(ks, id) ← Ok (k1, i); '(ks, streams') ← actual_ids c streams ks; Ok (ks, (key, id) :: streams')) = Ok (ks', l) /\ streams_ok ks') as Hgo.
  { intros k1 i H1. csimpl. destruct (IH k1 H1) as (k2 & l & -> & H2). csimpl. eauto. }
  destruct (decide _) as [Hid|]; [|by apply Hgo]. destruct (Get_ok ks (now c) key Hok) as [Hok' _]. pose proof (stream_value ks (now c) key) as HV.
  destruct (Keyspace.Get ks (now c) key) as [k1 [e|]]; cbn [fst snd] in *; [|by apply Hgo].
  destruct (decide _) as [Ht|]; [|by apply Hgo]. destruct (HV e Hok eq_refl Ht) as (s & -> & Ha). by apply Hgo.
Qed.

Lemma register_all_ok c keys : forall ks, streams_ok ks -> exists ks' chs, register_all c keys ks = Ok (ks', chs) /\ streams_ok ks'.
Proof using.
  induction keys as [|key keys IH]; intros ks Hok; cbn [register_all]; [eauto|].
  destruct (Get_ok ks (now c) key Hok) as [Hok' _]. pose proof (stream_value ks (now c) key) as HV.
  destruct (Keyspace.Get ks (now c) key) as [k1 [e|]]; cbn [fst snd] in *; [|by apply IH].
  destruct (decide _) as [Ht|]; [|by apply IH]. destruct (HV e Hok eq_refl Ht) as (s & -> & Ha). cbn [mbind res_bind].
  pose proof (op_alive s ORegister _ _ Ha eq_refl) as Hr. destruct (RegisterWaiter s) as [s' ch]. cbn [fst] in Hr.
  destruct (IH _ (poke_ok k1 key s' Hok' Hr)) as (k2 & l & -> & H2). csimpl. eauto.
Qed.

Lemma cancel_ok gone chs : forall ks, streams_ok ks -> streams_ok (foldl (cancel_one gone) ks chs).
Proof using.
  induction chs as [|[key ch] chs IH]; intros ks Hok; [done|]. cbn [foldl]. apply IH. unfold cancel_one. cbn [fst snd]. destruct (gone key); [done|].
  destruct (look ks key) as [e|] eqn:E; [|done]. destruct (Value_ e) as [| | | | | |s] eqn:Ev; cbn [as_stream]; try done.
  unfold poke. rewrite E. apply streams_ok_store; [done|]. cbn [Type_ Value_]. intros Ht.
  destruct Hok as [_ H]. destruct (H key e E Ht) as (s' & Ev' & Ha). exists (cancel s ch). split; [done|].
  assert (s' = s) as -> by congruence. by_op (OCancel ch).
Qed.

Definition others_ok (w : world) : Prop := forall i ph ks, streams_ok ks -> streams_ok (others w i ph ks).

(** The deadline has not passed at any of the polls. *)
Definition in_time (w : world) (deadline : option Z) (i fuel : nat) : Prop :=
  match deadline with
  | Some d => forall j, (i <= j < i + fuel)%nat -> nano' (tick (VectorIndex := VectorIndex) w j) <= d
  | None => True
  end.

Lemma block_loop_ok w deadline read streams : others_ok w -> (forall t, read_ok (read t)) -> forall fuel i ks, streams_ok ks ->
  match block_loop NumErrorText w fuel i deadline read streams ks with
  | Some o => settled o
  | None => in_time w deadline i fuel
  end.
Proof using.
  intros Ho Hr. induction fuel as [|fuel IH]; intros i ks Hok; cbn [block_loop].
  { destruct deadline; [|done]. intros j Hj. lia. }
  destruct (register_all_ok (arrival w i) (fst <$> streams) (others w i Idle ks) (Ho _ _ _ Hok)) as (k1 & chs & -> & Hok1).
  destruct (read_once_ok (base (tick w i)) (read (tick w i)) streams (Hr _)
    (others w i Awake (foldl (cancel_one (replaced w i)) (others w i Asleep k1) chs))) as (k2 & r & -> & Hok2); [by apply Ho, cancel_ok, Ho|].
  destruct (read_reply NumErrorText r) as [a|]; [by apply settled_same|].
  destruct deadline as [d|].
  - destruct (Z.ltb_spec d (nano' (tick w i))) as [|Hd]; [by apply settled_same|].
    specialize (IH (S i) k2 Hok2). destruct (block_loop _ _ _ _ _ _ _ _) as [o|]; [done|]. intros j Hj.
    destruct (decide (j = i)) as [->|]; [done|]. apply IH. lia.
  - apply (IH (S i) k2 Hok2).
Qed.

(** The options of a command that was asked to wait, with a deadline that has not
    passed at any poll. *)
Definition waiting (w : world) (fuel : nat) (o : read_opts) : Prop :=
  0 <= blockMs o /\ in_time w (if 0 <? blockMs o then Some (nano' (tick w 0) + int64 (blockMs o * 1000000)) else None) 1 fuel.

Lemma read_streams_ok w fuel o read streams ks : others_ok w -> (forall t, read_ok (read t)) -> streams_ok ks ->
  match read_streams NumErrorText w fuel o read streams ks with Some r => settled r | None => waiting w fuel o end.
Proof using.
  intros Ho Hr Hok. unfold read_streams.
  destruct (read_once_ok (base (tick w 0)) (read (tick w 0)) streams (Hr _) ks Hok) as (k1 & r & -> & Hok1).
  destruct (read_reply NumErrorText r); [by apply settled_same|]. destruct (Z.ltb_spec (blockMs o) 0); [by apply settled_same|].
  pose proof (block_loop_ok w (if 0 <? blockMs o then Some (nano' (tick w 0) + int64 (blockMs o * 1000000)) else None) read streams Ho Hr fuel 1 k1 Hok1) as HB.
  destruct (block_loop _ _ _ _ _ _ _ _); done.
Qed.

Definition stream_names : list bytes :=
  str <$> ["XADD"; "XRANGE"; "XREVRANGE"; "XLEN"; "XDEL"; "XTRIM"; "XREAD"; "XGROUP"; "XREADGROUP"; "XACK"; "XPENDING"; "XINFO"]%string.

(** The options of a command that can wait. *)
Definition wait_opts (cmd : bytes) (args : list bytes) : option read_opts :=
  if decide (cmd = str "XREAD") then fst <$> read_options false args no_opts
  else if decide (cmd = str "XREADGROUP") then fst <$> read_options true (drop 3 args) no_opts
  else None.

Lemma handleXRead_ok w fuel args ks : others_ok w -> streams_ok ks ->
  match handleXRead NumErrorText w fuel args ks with
  | Some r => settled r
  | None => exists o, wait_opts (str "XREAD") args = Some o /\ waiting w fuel o
  end.
Proof using.
  intros Ho Hok. unfold handleXRead. change (wait_opts (str "XREAD") args) with (fst <$> read_options false args no_opts).
  destruct (read_options false args no_opts) as [[o rem]|]; [|by apply settled_same].
  destruct (split_streams rem) as [streams|]; [|by apply settled_same].
  destruct (actual_ids_ok (base (tick w 0)) streams ks Hok) as (k1 & l & -> & Hok1).
  pose proof (read_streams_ok w fuel o (fun _ id s => (s, Ok (Stream.Read s id (count o)))) l k1 Ho ltac:(by intros t id s) Hok1) as HR.
  destruct (read_streams _ _ _ _ _ _ _); [done|]. by exists o.
Qed.

Lemma ReadGroup_alive group consumer o t : read_ok (fun id s => ReadGroup s (seen_at t) (nano t) group consumer id (count o) (noAck o)).
Proof using.
  intros id s Ha. destruct (exec_alive s (ORead (seen_at t) (nano t) group consumer id (count o) (noAck o)) Ha) as (s' & rs & E & Ha').
  cbn [Stream.exec] in E. destruct (ReadGroup _ _ _ _ _ _ _ _) as [s1 [r|x]]; by simplify_eq.
Qed.

Lemma handleXReadGroup_ok w fuel args ks : others_ok w -> streams_ok ks ->
  match handleXReadGroup NumErrorText w fuel args ks with
  | Some r => settled r
  | None => exists o, wait_opts (str "XREADGROUP") args = Some o /\ waiting w fuel o
  end.
Proof using.
  intros Ho Hok. unfold handleXReadGroup. destruct args as [|g [|group [|consumer rest]]]; [by apply settled_same..|].
  destruct (decide _); [by apply settled_same|]. change (wait_opts (str "XREADGROUP") (g :: group :: consumer :: rest)) with (fst <$> read_options true rest no_opts).
  destruct (read_options true rest no_opts) as [[o rem]|]; [|by apply settled_same].
  destruct (split_streams rem) as [streams|]; [|by apply settled_same].
  pose proof (read_streams_ok w fuel o (fun t id s => ReadGroup s (seen_at t) (nano t) group consumer id (count o) (noAck o)) streams ks Ho
    (ReadGroup_alive group consumer o) Hok) as HR.
  destruct (read_streams _ _ _ _ _ _ _); [done|]. by exists o.
Qed.

(** C38: on a keyspace whose streams are sound, no stream command panics, fails
    a type assertion or makes a stream unsound, whatever its arguments and
    whatever other clients do before, while and after it is registered as a
    waiter, as long as they keep streams sound; and every one returns unless it
    was asked to BLOCK and its deadline, if it has one, has not passed. *)
Theorem stream_commands_safe w fuel cmd args ks : streams_ok ks -> others_ok w -> cmd ∈ stream_names ->
  match stream_dispatch NumErrorText w fuel cmd args ks with
  | Some (Ok (ks', _)) => streams_ok ks'
  | Some (Err _) => False
  | None => exists o, wait_opts cmd args = Some o /\ waiting w fuel o
  end.
Proof using.
  intros Hok Ho Hcmd. assert (match stream_dispatch NumErrorText w fuel cmd args ks with Some r => settled r
    | None => exists o, wait_opts cmd args = Some o /\ waiting w fuel o end) as H.
  { unfold stream_names in Hcmd. apply list_elem_of_fmap in Hcmd as (name & -> & Hname). pose proof (views_ok (tick w 0) args ks Hok) as (?&?&?&?&?).
    repeat (apply elem_of_cons in Hname as [-> |Hname]); [..|by apply not_elem_of_nil in Hname].
    1: by apply handleXAdd_ok. 4: by apply handleXDel_ok. 4: by apply handleXTrim_ok. 4: by apply handleXRead_ok.
    4: by apply handleXGroup_ok. 4: by apply handleXReadGroup_ok. 4: by apply handleXAck_ok. all: done. }
  destruct (stream_dispatch _ _ _ _ _ _) as [r|]; [|done]. destruct H as (ks' & a & -> & ?). done.
Qed.

End Laws.

(** ** What XADD adds *)

(** The names of a list of fields and values. *)
Fixpoint names (l : list bytes) : list bytes :=
  match l with f :: _ :: l' => f :: names l' | _ => [] end.

Lemma xadd_fields_spec l : forall m o,
  let '(m', o') := xadd_fields l m o in
  o' = o ++ names l /\ (forall f, f ∉ names l -> m' !! f = m !! f) /\
  (NoDup (names l) -> (length l mod 2 = 0)%nat ->
   concat ((fun f => [BulkString f; BulkString (default [] (m' !! f))]) <$> names l) = BulkString <$> l).
Proof.
  induction l as [|f|f v l IH] using list_pair_ind; intros m o; cbn [xadd_fields names].
  - split; [by rewrite app_nil_r|]. by split.
  - split; [by rewrite app_nil_r|]. split; [done|]. intros _ H. discriminate H.
  - specialize (IH (<[f := v]> m) (o ++ [f])). destruct (xadd_fields l (<[f := v]> m) (o ++ [f])) as [m' o'].
    destruct IH as (-> & H1 & H2). split; [by rewrite <- app_assoc|]. split.
    + intros g [Hg1 Hg2]%not_elem_of_cons. rewrite H1 by done. by rewrite lookup_insert_ne.
    + intros [Hn HN]%NoDup_cons HL. csimpl. rewrite (H1 f Hn), lookup_insert_eq. cbn [default]. do 2 f_equal. apply H2; [done|].
      cbn [length] in HL. replace (S (S (length l))) with (length l + 1 * 2)%nat in HL by lia. by rewrite Nat.Div0.mod_add in HL.
Qed.

(** The entry XADD appends is above all others. *)
Lemma Add_appends s wall idArg fields order s' id : Stream.wf s -> Seq (lastID s) < maxUint64 ->
  Add s wall idArg fields order = Ok (s', Ok id) ->
  exists sid, valid_id sid /\ id = ID_String sid /\ entries s' = entries s ++ [mkEntry id fields order] /\ Stream.wf s' /\
    Forall (fun e => exists a, carries e a /\ id_lt a sid /\ id_le a (lastID s)) (entries s) /\ (entries s <> [] -> id_lt (lastID s) sid).
Proof.
  intros Hwf Hmax E. pose proof Hwf as [[sids HL] HW].
  assert (increasing s (OAdd wall idArg fields order)) as Hinc by (intros sid Hs Hne; eapply choose_id_lt; eauto; apply HL).
  assert (Stream.wf s') as Hwf' by (eapply exec_wf; [exact Hwf|exact Hinc|]; cbn [Stream.exec]; by rewrite E).
  pose proof (Add_spec s sids wall idArg fields order HL HW) as HA. cbn [increasing] in Hinc.
  destruct (choose_id s wall idArg) as [sid|x]; [|by rewrite HA in E]. destruct HA as (Hv & chs & HA & _). rewrite HA in E.
  injection E as <- <-. exists sid. split; [done|]. split; [done|]. split; [done|]. split; [done|]. specialize (Hinc sid eq_refl). split; [|done].
  destruct (log_ids_carries s sids HL) as [HC _]. destruct HL as (_ & _ & _ & Hle & _).
  apply Forall_forall. intros e He. apply list_elem_of_lookup in He as [n Hn].
  destruct (Forall2_lookup_l _ _ _ _ _ HC Hn) as (a & Ha & Hc). exists a. split; [done|].
  assert (id_le a (lastID s)) as Hal. { rewrite Forall_forall in Hle. apply Hle. by eapply list_elem_of_lookup_2. }
  split; [|done]. assert (id_lt (lastID s) sid) by (apply Hinc; by intros E; rewrite E in Hn). id_lia.
Qed.

Lemma filter_last {A} (P : A -> Prop) `{!forall x, Decision (P x)} l x : Forall (fun y => ~ P y) l -> P x -> filter P (l ++ [x]) = [x].
Proof. intros Hl Hx. rewrite filter_app, filter_none by done. by rewrite filter_cons_True. Qed.

Lemma carries_compare e a x b : carries e a -> ParseStreamID x = Ok b -> CompareStreamIDs (ID e) x = id_compare a b.
Proof. intros [Ha ->] Hb. by apply Compare_numeric. Qed.

Lemma Range_new s wall idArg fields order s' id : Stream.wf s -> Seq (lastID s) < maxUint64 ->
  Add s wall idArg fields order = Ok (s', Ok id) -> Stream.Range s' id id (-1) = [mkEntry id fields order].
Proof.
  intros Hwf Hmax E. destruct (Add_appends _ _ _ _ _ _ _ Hwf Hmax E) as (sid & Hv & -> & He & Hwf' & Hall & _).
  assert (bound (ID_String sid)) as Hb by (do 3 right; exists sid; by apply ParseStreamID_String).
  rewrite (Range_filter s' _ _ (-1) Hwf' Hb Hb). unfold limit. cbn [Z.ltb Z.compare]. rewrite He.
  destruct (ID_String_not_special sid Hv) as [N1 N2]. apply filter_last.
  - eapply Forall_impl; [exact Hall|]. intros e (a & Hc & Hlt & _) [Hbef _]. unfold Stream.before in Hbef.
    rewrite (carries_compare e a _ sid Hc) in Hbef by (by apply ParseStreamID_String).
    rewrite bool_decide_eq_false_2 in Hbef by done. rewrite bool_decide_eq_false_2 in Hbef by (unfold ID_String; by destruct (FormatUint (Millis sid))).
    destruct (id_compare_spec a sid) as [[Hx ?]|[[Hx ?]|[Hx ?]]]; [by rewrite Hx in Hbef|id_lia|id_lia].
  - assert (CompareStreamIDs (ID_String sid) (ID_String sid) = 0) as Hz by (unfold CompareStreamIDs; by rewrite decide_True).
    unfold in_range, Stream.before, Stream.after. cbn [ID]. rewrite Hz, !andb_false_r. done.
Qed.

Lemma StronglySorted_all {A} (R : A -> A -> Prop) l : (forall x y, R x y) -> StronglySorted R l.
Proof. intros H. induction l; constructor; [done|]. apply Forall_forall. auto. Qed.

Lemma Read_new s wall idArg fields order s' id count : Stream.wf s -> Seq (lastID s) < maxUint64 -> entries s <> [] ->
  Add s wall idArg fields order = Ok (s', Ok id) -> Stream.Read s' (LastID s) count = [mkEntry id fields order].
Proof.
  intros Hwf Hmax Hne E. destruct (Add_appends _ _ _ _ _ _ _ Hwf Hmax E) as (sid & Hv & -> & He & _ & Hall & Hlt). specialize (Hlt Hne).
  assert (ParseStreamID (LastID s) = Ok (lastID s)) as HP.
  { unfold LastID. destruct (entries s); [done|]. apply ParseStreamID_String. destruct Hwf as [(? & _ & _ & _ & _ & ?) _]. done. }
  unfold Stream.Read. rewrite scan_filter; [|by apply StronglySorted_all|apply full_nil]. cbn [app]. rewrite He, filter_last.
  - unfold limit. destruct (Z.ltb_spec 0 count); [|done]. by rewrite take_ge by (cbn; lia).
  - eapply Forall_impl; [exact Hall|]. intros e (a & Hc & _ & Hle) [Hs _]. rewrite (carries_compare e a _ _ Hc HP) in Hs.
    destruct (id_compare_spec a (lastID s)) as [[Hx ?]|[[Hx ?]|[Hx ?]]]; [by rewrite Hx in Hs|id_lia|by rewrite Hx in Hs].
  - split; [|done]. cbn [ID]. rewrite (Compare_numeric sid _ _ Hv HP).
    destruct (id_compare_spec sid (lastID s)) as [[Hx ?]|[[Hx ?]|[Hx ?]]]; [id_lia|by rewrite Hx|id_lia].
Qed.

(** ** Adding and reading back *)

Section Reading.
Context {VectorIndex : Type}.
Context (NumErrorText : num_error -> bytes -> bytes).

Abbreviation Keyspace := (@Keyspace.Keyspace SkipList.SkipList VectorIndex).
Implicit Types (ks : Keyspace) (s : Stream) (c : clock).

(** [key] holds the stream [s] and does not expire. *)
Definition holds ks (key : bytes) (s : Stream) : Prop :=
  Keyspace.wf ks /\ exists e, look ks key = Some e /\ Type_ e = TypeStream /\ Value_ e = VStream s /\ ExpiresAt e = 0.

Lemma holds_Get ks key s t : holds ks key s ->
  exists e, Keyspace.Get ks t key = (ks, Some e) /\ Type_ e = TypeStream /\ Value_ e = VStream s.
Proof using. intros (_ & e & E & Ht & Hv & Hx). exists e. split; [|done]. unfold Get. rewrite E, Hx. done. Qed.

Lemma holds_poke ks key s s' : holds ks key s -> holds (poke ks key (VStream s')) key s'.
Proof using.
  intros (Hwf & e & E & Ht & Hv & Hx). unfold poke. rewrite E. split; [by apply store_wf|].
  eexists. rewrite look_store by done. rewrite decide_True by done. split; [reflexivity|]. done.
Qed.

(** The shapes of a command on a stream that is there. *)
Lemma view_holds c key missing body ks s : holds ks key s -> view_stream c key missing body ks = Ok (ks, body s).
Proof using.
  intros H. unfold view_stream, reading. destruct (holds_Get ks key s (now c) H) as (e & -> & Ht & Hv).
  rewrite decide_True by done. by rewrite Hv.
Qed.

Lemma open_holds c key body ks s : holds ks key s ->
  open_stream c key body ks = '(s', a) ← body s; Ok (poke ks key (VStream s'), a).
Proof using.
  intros H. unfold open_stream. destruct (holds_Get ks key s (now c) H) as (e & -> & Ht & Hv).
  rewrite decide_True by done. by rewrite Hv.
Qed.

(** XADD without MAXLEN on a stream that is there. *)
Lemma handleXAdd_holds c key idArg fv ks s : holds ks key s -> ToUpper idArg <> str "MAXLEN" ->
  (length fv <> 0 /\ length fv mod 2 = 0)%nat ->
  handleXAdd NumErrorText c (key :: idArg :: fv) ks =
    '(s', a) ← xadd_body NumErrorText (wall c) (-1) idArg fv s; Ok (poke ks key (VStream s'), a).
Proof using.
  intros H Hid [H0 H2]. unfold handleXAdd.
  assert (length (key :: idArg :: fv) <? 4 = false)%nat as ->.
  { apply Nat.ltb_ge. cbn [length]. destruct fv as [|a [|b fv]]; [done|done|cbn [length]; lia]. }
  cbn [drop xadd_maxlen]. rewrite decide_False by done. rewrite decide_False by (intros [?|?]; done). by apply open_holds.
Qed.

(** What XADD leaves in the stream. *)
Lemma xadd_body_added wall idArg fv s sid : Stream.wf s -> choose_id s wall idArg = Ok sid ->
  exists s', xadd_body NumErrorText wall (-1) idArg fv s = Ok (s', writes (BulkString (ID_String sid))) /\
    Add s wall idArg (xadd_fields fv ∅ []).1 (xadd_fields fv ∅ []).2 = Ok (s', Ok (ID_String sid)).
Proof using.
  intros [[sids HL] HW] Hc. unfold xadd_body. destruct (xadd_fields fv ∅ []) as [fields order].
  pose proof (Add_spec s sids wall idArg fields order HL HW) as HA. rewrite Hc in HA. destruct HA as (_ & chs & E & _).
  rewrite E. eexists. split; [reflexivity|]. exact E.
Qed.

Lemma entry_reply_fields fv id : NoDup (names fv) -> (length fv mod 2 = 0)%nat ->
  entry_reply (mkEntry id (xadd_fields fv ∅ []).1 (xadd_fields fv ∅ []).2) = Array [BulkString id; Array (BulkString <$> fv)].
Proof using.
  intros HN HL. pose proof (xadd_fields_spec fv ∅ []) as H. destruct (xadd_fields fv ∅ []) as [m o]. destruct H as (-> & _ & H).
  unfold entry_reply, fields_reply. cbn [Order ID Fields fst snd app]. by rewrite H.
Qed.

(** An entry that XADD accepted is what XRANGE finds under the identifier it
    replied: exactly one entry, with the fields and values as they were given. *)
Theorem xadd_then_xrange ks key s c c' idArg fv sid :
  holds ks key s -> Stream.wf s -> Seq (lastID s) < maxUint64 -> ToUpper idArg <> str "MAXLEN" ->
  (length fv <> 0 /\ length fv mod 2 = 0)%nat -> NoDup (names fv) -> choose_id s (wall c) idArg = Ok sid ->
  exists ks' ks'', handleXAdd NumErrorText c (key :: idArg :: fv) ks = Ok (ks', writes (BulkString (ID_String sid))) /\
    handleXRange c' [key; ID_String sid; ID_String sid] ks' =
      Ok (ks'', reads (Array [Array [BulkString (ID_String sid); Array (BulkString <$> fv)]])).
Proof using.
  intros H Hwf Hmax Hid Hl HN Hc. destruct (xadd_body_added (wall c) idArg fv s sid Hwf Hc) as (s' & HB & HA).
  exists (poke ks key (VStream s')), (poke ks key (VStream s')). split; [by rewrite (handleXAdd_holds _ _ _ _ _ s), HB|].
  unfold handleXRange. rewrite (view_holds _ _ _ _ _ s') by (by eapply holds_poke). change (range_count []) with (-1).
  rewrite (Range_new s (wall c) idArg _ _ s' _ Hwf Hmax HA). unfold entries_reply. cbn [fmap list_fmap]. rewrite entry_reply_fields; [done|done|apply Hl].
Qed.

(** ** A reader that waits *)

(** A stream with the same log; waiters and groups may differ. *)
Definition same_log s s' : Prop := entries s' = entries s /\ lastID s' = lastID s /\ Stream.wf s'.

Lemma same_log_trans s s' s'' : same_log s s' -> same_log s' s'' -> same_log s s''.
Proof using. intros (E1 & E2 & _) (E3 & E4 & ?). split; [congruence|]. split; [congruence|done]. Qed.

Lemma register_holds c key ks s : holds ks key s -> Stream.wf s ->
  exists ks' ch s', register_all c [key] ks = Ok (ks', [(key, ch)]) /\ holds ks' key s' /\ same_log s s'.
Proof using.
  intros H Hwf. cbn [register_all]. destruct (holds_Get ks key s (now c) H) as (e & -> & Ht & Hv).
  rewrite decide_True by done. rewrite Hv. cbn [as_stream conversion mbind res_bind].
  pose proof (RegisterWaiter_wf s Hwf) as Hr. destruct (RegisterWaiter s) as [s' ch] eqn:E. cbn [mbind res_bind].
  exists (poke ks key (VStream s')), ch, s'. split; [done|]. split; [by eapply holds_poke|].
  unfold RegisterWaiter in E. injection E as <- _. done.
Qed.

Lemma cancel_holds gone key ch ks s : holds ks key s -> Stream.wf s ->
  exists s', holds (foldl (cancel_one gone) ks [(key, ch)]) key s' /\ same_log s s'.
Proof using.
  intros H Hwf. cbn [foldl]. unfold cancel_one. cbn [fst snd]. destruct (gone key); [by exists s|]. pose proof H as (_ & e & E & _ & Hv & _). rewrite E, Hv. cbn [as_stream].
  exists (cancel s ch). split; [by eapply holds_poke|]. split; [done|]. split; [done|by apply cancel_wf].
Qed.

Lemma read_once_holds c (f : bytes -> Stream -> list StreamEntry) key id ks s : holds ks key s ->
  read_once c (fun id s => (s, Ok (f id s))) [(key, id)] ks =
    Ok (poke ks key (VStream s), Ok (match f id s with [] => [] | es => [Array [BulkString key; entries_reply es]] end)).
Proof using.
  intros H. cbn [read_once]. destruct (holds_Get ks key s (now c) H) as (e & -> & Ht & Hv).
  rewrite decide_True by done. rewrite Hv. cbn [as_stream conversion mbind res_bind]. by destruct (f id s).
Qed.

Lemma Read_nothing s count : Stream.wf s -> Stream.Read s (LastID s) count = [].
Proof using.
  intros [[sids HL] _]. unfold Stream.Read. rewrite scan_filter; [|by apply StronglySorted_all|apply full_nil]. cbn [app].
  rewrite filter_none; [unfold limit; case_match; [apply take_nil|done]|]. destruct (log_ids_carries s sids HL) as [HC _].
  destruct HL as (_ & _ & _ & Hle & Hv). apply Forall_forall. intros e He. apply list_elem_of_lookup in He as [n Hn].
  destruct (Forall2_lookup_l _ _ _ _ _ HC Hn) as (a & Ha & Hc). rewrite Forall_forall in Hle.
  specialize (Hle a ltac:(by eapply list_elem_of_lookup_2)).
  assert (LastID s = ID_String (lastID s)) as ->.
  { assert (entries s <> []) as Hnn by (intros E0; by rewrite E0 in Hn). unfold LastID. by destruct (entries s). }
  rewrite (carries_compare e a _ (lastID s) Hc) by (by apply ParseStreamID_String). intros [Hs _].
  destruct (id_compare_spec a (lastID s)) as [[Hx ?]|[[Hx ?]|[Hx ?]]]; [by rewrite Hx in Hs|id_lia|by rewrite Hx in Hs].
Qed.

Lemma LastID_same s s' : same_log s s' -> LastID s' = LastID s.
Proof using. unfold LastID. by intros (-> & -> & _). Qed.

(** Another client's XADD, as what happens to the keyspace. *)
Definition xadd_by (c : clock) (key idArg : bytes) (fv : list bytes) ks : Keyspace :=
  match handleXAdd NumErrorText c (key :: idArg :: fv) ks with Ok (ks', _) => ks' | Err _ => ks end.

Section woken.
Context (s : Stream) (key idArg : bytes) (fv : list bytes) (sid : StreamID) (c : clock) (n : nat) (w : world (VectorIndex := VectorIndex)) (count : Z).
Context (Hmax : Seq (lastID s) < maxUint64) (Hne : entries s <> []) (Hid : ToUpper idArg <> str "MAXLEN").
Context (Hl : (length fv <> 0 /\ length fv mod 2 = 0)%nat) (HN : NoDup (names fv)) (Hc : choose_id s (wall c) idArg = Ok sid).
Context (Hidle : forall i ph ks, (i < n)%nat \/ (i = n /\ ph <> Asleep) -> others w i ph ks = ks) (Hadd : forall ks, others w n Asleep ks = xadd_by c key idArg fv ks).

Definition new_entry_reply : Resp.Value :=
  Array [Array [BulkString key; Array [Array [BulkString (ID_String sid); Array (BulkString <$> fv)]]]].

Lemma woken_now ks s' ch : holds ks key s' -> same_log s s' ->
  exists ks', read_once (base (tick w n)) (fun id s => (s, Ok (Stream.Read s id count))) [(key, LastID s)]
      (foldl (cancel_one (replaced w n)) (others w n Asleep ks) [(key, ch)]) =
    Ok (ks', Ok [Array [BulkString key; Array [Array [BulkString (ID_String sid); Array (BulkString <$> fv)]]]]).
Proof using Hmax Hne Hid Hl HN Hc Hadd.
  intros H HS. pose proof HS as (E1 & E2 & Hwf). assert (choose_id s' (wall c) idArg = Ok sid) as Hc' by (unfold choose_id; rewrite E1, E2; apply Hc).
  destruct (xadd_body_added (wall c) idArg fv s' sid Hwf Hc') as (s2 & HB & HA). rewrite Hadd. unfold xadd_by.
  rewrite (handleXAdd_holds _ _ _ _ _ s'), HB by done. cbn [mbind res_bind].
  assert (Stream.wf s2) as Hw2.
  { destruct (Add_monotone s' (wall c) idArg (xadd_fields fv ∅ []).1 (xadd_fields fv ∅ []).2 Hwf) as (? & ? & E & ? & _); [by rewrite E2|].
    rewrite HA in E. by injection E as <- _. }
  destruct (cancel_holds (replaced w n) key ch (poke ks key (VStream s2)) s2) as (s3 & H3 & (E3 & _)); [by eapply holds_poke|done|].
  eexists. rewrite (read_once_holds _ (fun id s => Stream.Read s id count) _ _ _ s3 H3).
  assert (Stream.Read s3 (LastID s) count = Stream.Read s2 (LastID s) count) as -> by (unfold Stream.Read; by rewrite E3).
  rewrite <- (LastID_same s s' HS). rewrite (Read_new s' (wall c) idArg _ _ s2 _ count Hwf ltac:(by rewrite E2) ltac:(by rewrite E1) HA).
  unfold entries_reply. cbn [fmap list_fmap]. rewrite entry_reply_fields; [done|done|apply Hl].
Qed.

Lemma woken_later fuel : forall i ks s', (1 <= i <= n)%nat -> (n < i + fuel)%nat -> holds ks key s' -> same_log s s' ->
  exists ks', block_loop NumErrorText w fuel i None (fun _ id s => (s, Ok (Stream.Read s id count))) [(key, LastID s)] ks =
    Some (Ok (ks', reads new_entry_reply)).
Proof using Hmax Hne Hid Hl HN Hc Hadd Hidle.
  induction fuel as [|fuel IH]; intros i ks s' Hi Hf H HS; [lia|]. cbn [block_loop fmap list_fmap fst].
  rewrite (Hidle i Idle) by (destruct (decide (i = n)); [by right|left; lia]).
  destruct (register_holds (arrival w i) key ks s' H ltac:(apply HS)) as (k1 & ch & s1 & -> & H1 & HS1). cbv zeta.
  rewrite (Hidle i Awake) by (destruct (decide (i = n)); [by right|left; lia]).
  assert (same_log s s1) as HS1' by eauto using same_log_trans. destruct (decide (i = n)) as [->|Hin].
  - destruct (woken_now _ s1 ch H1 HS1') as (k2 & E). rewrite E. cbn [read_reply]. by eexists.
  - rewrite (Hidle i Asleep) by (left; lia).
    destruct (cancel_holds (replaced w i) key ch k1 s1 H1 ltac:(apply HS1)) as (s2 & H2 & HS2).
    assert (same_log s s2) as HS' by eauto using same_log_trans. rewrite (read_once_holds _ (fun id s => Stream.Read s id count) _ _ _ s2 H2).
    rewrite <- (LastID_same s s2 HS'), Read_nothing by apply HS'. cbn [read_reply].
    rewrite (LastID_same s s2 HS'). apply (IH _ _ s2); [lia|lia|by eapply holds_poke|done].
Qed.

End woken.

(** A reader blocked on the last entry of a stream is woken by the next one:
    when another client's XADD is accepted during the sleep of some later poll, while
    the reader is registered, XREAD BLOCK 0 returns exactly the entry it added. *)
Theorem xread_woken_by_xadd ks key s idArg fv sid c n w fuel :
  holds ks key s -> Stream.wf s -> Seq (lastID s) < maxUint64 -> entries s <> [] -> ToUpper idArg <> str "MAXLEN" ->
  (length fv <> 0 /\ length fv mod 2 = 0)%nat -> NoDup (names fv) -> choose_id s (wall c) idArg = Ok sid ->
  (1 <= n <= fuel)%nat -> (forall i ph ks, (i < n)%nat \/ (i = n /\ ph <> Asleep) -> others w i ph ks = ks) ->
  (forall ks, others w n Asleep ks = xadd_by c key idArg fv ks) ->
  exists ks', handleXRead NumErrorText w fuel [str "BLOCK"; str "0"; str "STREAMS"; key; str "$"] ks =
    Some (Ok (ks', reads (new_entry_reply key fv sid))).
Proof using.
  intros H Hwf Hmax Hne Hid Hl HN Hc Hn Hidle Hadd. unfold handleXRead.
  change (read_options false _ no_opts) with (Some (mkOpts (-1) 0 false, [key; str "$"])). cbv iota beta.
  change (split_streams [key; str "$"]) with (Some [(key, str "$")]). cbv iota beta.
  cbn [actual_ids]. rewrite decide_True by done. destruct (holds_Get ks key s (now (base (tick w 0))) H) as (e & -> & Ht & Hv).
  rewrite decide_True by done. rewrite Hv. cbn [as_stream conversion mbind res_bind count].
  unfold read_streams. rewrite (read_once_holds _ (fun id s => Stream.Read s id (-1)) _ _ _ s H), Read_nothing by done.
  cbn [read_reply blockMs Z.ltb Z.compare].
  eapply (woken_later s key idArg fv sid c n w (-1)); eauto; [lia|lia|by eapply holds_poke|done].
Qed.

End Reading.

(** ** Instances *)

Definition sample_errors (_ : num_error) (_ : bytes) : bytes := str "strconv.ParseUint: invalid syntax".
Definition sample_tick (i : nat) : stream_clock := mkSC (mkClock 7 7 7) (Z.of_nat i) (Z.of_nat i) (Z.of_nat i).

Definition stream_ks : @Keyspace.Keyspace SkipList unit := store NewKeyspace (str "s") (mkE TypeStream (VStream stream_5_1) 0 0 0).

Lemma stream_5_1_wf : Stream.wf stream_5_1.
Proof.
  split; [exists [mkID 5 1]|split; constructor].
  split; [reflexivity|]. split; [repeat constructor; cbn; lia|].
  split; [repeat constructor|]. split; [|repeat constructor; cbn; lia].
  constructor; [|constructor]. right. cbn. lia.
Qed.

Lemma stream_ks_holds : holds stream_ks (str "s") stream_5_1.
Proof.
  split; [apply store_wf, NewKeyspace_wf|]. eexists. unfold stream_ks. rewrite look_store by apply NewKeyspace_wf.
  rewrite decide_True by done. split; [reflexivity|]. done.
Qed.

Lemma stream_ks_ok : streams_ok stream_ks.
Proof.
  apply streams_ok_store.
  - split; [apply NewKeyspace_wf|]. intros k e. rewrite <- abs_lookup by apply NewKeyspace_wf. by rewrite NewKeyspace_abs, lookup_empty.
  - intros _. exists stream_5_1. split; [done|]. split; [apply stream_5_1_wf|]. intros n g. cbn [groups stream_5_1]. by rewrite lookup_empty.
Qed.

(** The other client adds an entry during the sleep of the third poll. *)
Definition sample_world : @world unit :=
  mkWorld sample_tick (fun i => base (sample_tick i))
    (fun i ph ks => match ph with Asleep => if decide (i = 3)%nat then xadd_by sample_errors (mkClock 8 8 8) (str "s") (str "*") [str "f"; str "v"] ks else ks | _ => ks end)
    (fun _ _ => false).

Lemma sample_fields : NoDup (names [str "f"; str "v"]).
Proof. apply NoDup_singleton. Qed.

Lemma stream_commands_safe_witness :
  match stream_dispatch sample_errors (quiet sample_tick) 10 (str "XREAD") [str "BLOCK"; str "0"; str "STREAMS"; str "s"; str "$"] stream_ks with
  | None => exists o, wait_opts (str "XREAD") [str "BLOCK"; str "0"; str "STREAMS"; str "s"; str "$"] = Some o /\
      waiting (VectorIndex := unit) (quiet sample_tick) 10 o
  | _ => False
  end.
Proof.
  pose proof (stream_commands_safe sample_errors (quiet sample_tick) 10 (str "XREAD")
    [str "BLOCK"; str "0"; str "STREAMS"; str "s"; str "$"] stream_ks stream_ks_ok) as H.
  assert (stream_dispatch sample_errors (quiet sample_tick) 10 (str "XREAD")
    [str "BLOCK"; str "0"; str "STREAMS"; str "s"; str "$"] stream_ks = None) as E by (vm_compute; reflexivity).
  rewrite E in H |- *. apply H.
  - intros i ph ks Hks. exact Hks.
  - apply (bool_decide_eq_true_1 _). vm_compute. reflexivity.
Defined.

Lemma xadd_then_xrange_witness : exists ks' ks'',
  handleXAdd sample_errors (mkClock 8 8 8) (str "s" :: str "*" :: [str "f"; str "v"]) stream_ks = Ok (ks', writes (BulkString (str "8-0"))) /\
  handleXRange (mkClock 9 9 9) [str "s"; str "8-0"; str "8-0"] ks' =
    Ok (ks'', reads (Array [Array [BulkString (str "8-0"); Array (BulkString <$> [str "f"; str "v"])]])).
Proof.
  apply (xadd_then_xrange sample_errors stream_ks (str "s") stream_5_1 (mkClock 8 8 8) (mkClock 9 9 9) (str "*") [str "f"; str "v"] (mkID 8 0)).
  - apply stream_ks_holds.
  - apply stream_5_1_wf.
  - reflexivity.
  - discriminate.
  - split; [discriminate|reflexivity].
  - apply sample_fields.
  - reflexivity.
Defined.

Lemma xread_woken_by_xadd_witness : exists ks',
  handleXRead sample_errors sample_world 5 [str "BLOCK"; str "0"; str "STREAMS"; str "s"; str "$"] stream_ks =
    Some (Ok (ks', reads (new_entry_reply (str "s") [str "f"; str "v"] (mkID 8 0)))).
Proof.
  apply (xread_woken_by_xadd sample_errors stream_ks (str "s") stream_5_1 (str "*") [str "f"; str "v"] (mkID 8 0) (mkClock 8 8 8) 3 sample_world 5).
  - apply stream_ks_holds.
  - apply stream_5_1_wf.
  - reflexivity.
  - discriminate.
  - discriminate.
  - split; [discriminate|reflexivity].
  - apply sample_fields.
  - reflexivity.
  - lia.
  - intros i ph ks Hi. cbn [others sample_world]. destruct ph; [reflexivity| |reflexivity]. destruct Hi as [Hi|[_ []]]; [|done]. rewrite decide_False by lia. reflexivity.
  - intros ks. reflexivity.
Defined.

(** ** Deviations *)

(** An XADD with a refused identifier creates the key all the same, and does not
    count as a write: neither the log nor a replica learns of the key. *)
Theorem refused_xadd_creates_key :
  match handleXAdd (VectorIndex := unit) sample_errors (mkClock 8 8 8) [str "k"; str "x"; str "f"; str "v"] NewKeyspace with
  | Ok (ks, (_, isWrite)) => isWrite = false /\ TotalKeys ks = 1
  | Err _ => False
  end.
Proof. vm_compute. split; reflexivity. Qed.

(** Of a field that is given twice only the last value is kept, under both. *)
Theorem repeated_field_loses_value :
  match handleXAdd (VectorIndex := unit) sample_errors (mkClock 8 8 8) [str "k"; str "1-1"; str "f"; str "a"; str "f"; str "b"] NewKeyspace with
  | Ok (ks, _) => snd <$> (match handleXRange (mkClock 8 8 8) [str "k"; str "-"; str "+"] ks with Ok r => Some r | Err _ => None end) =
      Some (reads (Array [Array [BulkString (str "1-1"); bulks [str "f"; str "b"; str "f"; str "b"]]]))
  | Err _ => False
  end.
Proof. vm_compute. reflexivity. Qed.

(** A group's deliveries do not count as a write: XREADGROUP changes the group and
    replies with an entry, and is neither logged nor sent to replicas, which will
    deliver the entry again. *)
Theorem delivery_not_logged :
  let w := quiet sample_tick in
  match handleXGroup sample_errors (mkClock 8 8 8) [str "CREATE"; str "s"; str "g"; str "0"] stream_ks with
  | Ok (ks, (_, w1)) =>
      w1 = true /\
      match handleXReadGroup sample_errors w 1 [str "GROUP"; str "g"; str "c"; str "STREAMS"; str "s"; str ">"] ks with
      | Some (Ok (ks', (r, w2))) =>
          w2 = false /\ r <> NullArray /\
          match handleXReadGroup sample_errors w 1 [str "GROUP"; str "g"; str "c"; str "STREAMS"; str "s"; str ">"] ks' with
          | Some (Ok (_, (r', _))) => r' = NullArray
          | _ => False
          end
      | _ => False
      end
  | Err _ => False
  end.
Proof. vm_compute. split; [reflexivity|]. split; [reflexivity|]. split; [discriminate|reflexivity]. Qed.

(** The number of milliseconds of BLOCK is multiplied in 64 bits: the longest wait
    is over at the first poll. *)
Theorem long_block_returns_at_once :
  match handleXRead sample_errors (quiet sample_tick) 1 [str "BLOCK"; str "9223372036854775807"; str "STREAMS"; str "s"; str "$"] stream_ks with
  | Some (Ok (_, (r, _))) => r = NullArray
  | _ => False
  end.
Proof. vm_compute. reflexivity. Qed.

