(* ===== verification/VectorCommands.v ===== *)
(** * The vector commands (internal/engine/engine.go)

    VADD, VDEL, VSEARCH, VSIM and VINFO on the keyspace.  Reading and printing
    decimal floats are arguments, as for the other commands. *)

From S2P Require Import Prelude Resp SetDs HashDs ListDs Stream SkipList Keyspace Commands Float Heap Hnsw HnswLaws Vector VectorExact.

(** ** [strings.ToLower]

    ASCII letters, and the two other characters whose lower case is ASCII (the Kelvin
    sign and I with a dot).  Other non-ASCII text is left alone: a metric is only
    compared with ASCII words, and shown by VINFO. *)

Definition lower_byte (c : byte) : byte :=
  if (65 <=? b2z c) && (b2z c <=? 90) then z2b (b2z c + 32) else c.

Fixpoint ToLower (s : bytes) : bytes :=
  match s with
  | xe2 :: x84 :: xaa :: s' => "k"%byte :: ToLower s'
  | xc4 :: xb0 :: s' => "i"%byte :: ToLower s'
  | c :: s' => lower_byte c :: ToLower s'
  | [] => []
  end.

Example ToLower_l2 : ToLower (str "L2") = str "l2". Proof. reflexivity. Qed.

Section VectorCommands.
Context (sorts : forall A : Type, (A -> A -> bool) -> list A -> list A).
Context (order : gmap bytes HNSWNode -> list bytes) (iter : gmap bytes (list float32) -> list (bytes * list float32)).
Context (ParseFloat32 : bytes -> option float32) (FormatScore : float64 -> bytes).

Abbreviation Value := (@Keyspace.Value SkipList.SkipList VectorIndex).
Abbreviation Entry := (@Keyspace.Entry SkipList.SkipList VectorIndex).
Abbreviation Keyspace := (@Keyspace.Keyspace SkipList.SkipList VectorIndex).
Abbreviation answer := (Resp.Value * bool)%type.
Abbreviation outcome := (res fault (Keyspace * answer)).
Implicit Types (ks : Keyspace) (e : Entry) (c : clock) (args : list bytes).

Definition as_vector (v : Value) : option VectorIndex := match v with VVector vi => Some vi | _ => None end.
Definition refusal (text : string) : answer := reads (Error (str text)).
Definition mismatch : answer := refusal "ERR vector dimension mismatch".

(** The components, or the position of the first that is not a number. *)
Fixpoint parse_floats (pos : Z) (fs : list bytes) : res Z (list float32) :=
  match fs with
  | [] => Ok []
  | f :: fs' => match ParseFloat32 f with None => Err pos | Some x => xs ← parse_floats (pos + 1) fs'; Ok (x :: xs) end
  end.

Definition handleVAdd (c : clock) (lvl : Z) args ks : outcome :=
  match args with
  | key :: id :: f :: fs =>
      let dim := Z.of_nat (length (f :: fs)) in
      match parse_floats 1 (f :: fs) with
      | Err pos => Ok (ks, reads (Error (str "ERR invalid float in vector at position " ++ FormatInt pos)))
      | Ok floats =>
          let '(ks, r) := Keyspace.Get ks (now c) key in
          let found :=
            match r with
            | None => let vi := NewVectorIndex dim in Ok (inl (Keyspace.Set_ ks (now c) key (mkE TypeVector (VVector vi) 0 0 0), vi))
            | Some entry => if decide (Type_ entry = TypeVector) then vi ← conversion (as_vector (Value_ entry)); Ok (inl (ks, vi)) else Ok (inr wrong_type)
            end in
          r ← found;
          match r with
          | inr a => Ok (ks, a)
          | inl (ks, vi) =>
              '(vi, err) ← Add sorts id floats lvl vi;
              Ok (poke ks key (VVector vi), match err with Some _ => mismatch | None => writes OK end)
          end
      end
  | _ => Ok (ks, refusal "ERR wrong number of arguments for 'vadd' command: VADD key id f1 f2 ...")
  end.

Fixpoint vdel_loop (ids : list bytes) (vi : VectorIndex) (deleted : Z) : res fault (VectorIndex * Z) :=
  match ids with
  | [] => Ok (vi, deleted)
  | id :: ids' => '(vi, b) ← Vector.Delete order id vi; vdel_loop ids' vi (if b : bool then deleted + 1 else deleted)
  end.

Definition handleVDel (c : clock) args ks : outcome :=
  match args with
  | key :: id :: ids =>
      updating c key TypeVector as_vector (fun vi => VVector vi) (reads (Integer 0)) (reads (Integer 0))
        (fun vi => '(vi, n) ← vdel_loop (id :: ids) vi 0; Ok (vi, writes (Integer n))) ks
  | _ => Ok (ks, wrong_args (str "vdel"))
  end.

Definition handleVInfo (c : clock) args ks : outcome :=
  match args with
  | key :: _ =>
      let absent := refusal "ERR no such vector index or key is not vector" in
      reading c key TypeVector as_vector absent absent
        (fun vi => Ok (reads (bulks (flat_map (fun kv => [kv.1; kv.2]) (Info vi))))) ks
  | [] => Ok (ks, wrong_args (str "vinfo"))
  end.

(** The option [EF count] at the end, and the components before it. *)
Definition ef_option (rest : list bytes) : Z * list bytes :=
  match rev rest with
  | n :: ef :: front =>
      if decide (ToUpper ef = str "EF") then
        match ParseInt n with Ok v => if 0 <? v then (v, rev front) else (0, rest) | Err _ => (0, rest) end
      else (0, rest)
  | _ => (0, rest)
  end.

Definition handleVSearch (c : clock) args ks : outcome :=
  match args with
  | key :: k :: m :: f :: fs =>
      match ParseInt k with
      | Err _ => Ok (ks, refusal "ERR invalid top_k")
      | Ok topK =>
          if topK <=? 0 then Ok (ks, refusal "ERR invalid top_k")
          else
            let metric := ToLower m in
            let '(efSearch, comps) := ef_option (f :: fs) in
            match parse_floats 1 comps with
            | Err pos => Ok (ks, reads (Error (str "ERR invalid float in query vector at position " ++ FormatInt pos)))
            | Ok query =>
                let empty := reads (Array []) in
                updating c key TypeVector as_vector (fun vi => VVector vi) empty empty
                  (fun vi =>
                     '(vi, r) ← Vector.Search sorts iter query topK metric efSearch vi;
                     Ok (vi, match r with
                             | inr _ => mismatch
                             | inl rs => reads (Array ((fun r => Array [BulkString (r_ID r); BulkString (FormatScore (Score r))]) <$> rs))
                             end)) ks
            end
      end
  | _ => Ok (ks, refusal "ERR wrong number of arguments for 'vsearch': VSEARCH key top_k metric f1 f2 ... [EF count]")
  end.

Definition handleVSim (c : clock) args ks : outcome :=
  match args with
  | key :: id1 :: id2 :: opts =>
      let metric := match opts with m :: _ => ToLower m | [] => str "cosine" end in
      reading c key TypeVector as_vector (reads Null) (reads Null)
        (fun vi =>
           match Vector.Get id1 vi, Vector.Get id2 vi with
           | Some v1, Some v2 =>
               score ← (if is_l2 metric then EuclideanDistance v1 v2 else CosineSimilarity v1 v2);
               Ok (reads (BulkString (FormatScore score)))
           | _, _ => Ok (refusal "ERR one or both vectors not found")
           end) ks
  | _ => Ok (ks, refusal "ERR wrong number of arguments for 'vsim': VSIM key id1 id2 [metric]")
  end.

Definition vector_cases (c : clock) (lvl : Z) args : list (bytes * (Keyspace -> outcome)) :=
  [(str "VADD", handleVAdd c lvl args); (str "VDEL", handleVDel c args); (str "VSEARCH", handleVSearch c args);
   (str "VSIM", handleVSim c args); (str "VINFO", handleVInfo c args)].

Definition vdispatch (c : clock) (lvl : Z) (cmd : bytes) args ks : option outcome :=
  (fun r => r.2.2 ks) <$> list_find (fun p => p.1 = cmd) (vector_cases c lvl args).

(** ** The contract of the commands *)

Context (sort_perm : forall A less (l : list A), sorts A less l ≡ₚ l).
Context (sort_sorted : forall q, Forall (fun it => isNaN (Dist it) = false) q -> StronglySorted (fun x y => fless (Dist y) (Dist x) = false) (sorts DistItem MinLess q)).
Context (order_all : forall m x, x ∈ order m <-> is_Some (m !! x)) (iter_empty : iter ∅ = []).

(** Every entry of a vector index holds one that is in order. *)
Definition entry_sound (e : Entry) : Prop := Type_ e = TypeVector -> exists vi, Value_ e = VVector vi /\ index_ok vi.
Definition vectors_ok ks : Prop := wf ks /\ forall k e, abs ks !! k = Some e -> entry_sound e.

(** The vectors of a key that has not expired; none for another type. *)
Definition vectors_of (o : option Entry) : gmap bytes (list float32) :=
  match o with Some e => match Value_ e with VVector vi => if decide (Type_ e = TypeVector) then v_Vectors vi else ∅ | _ => ∅ end | None => ∅ end.
Definition contents (now : Z) (key : bytes) ks : gmap bytes (list float32) := vectors_of (live now (abs ks) key).

(** The effect of a command on the vectors of its key. *)
Inductive vcmd_spec (m : gmap bytes (list float32)) : bytes -> list bytes -> answer -> gmap bytes (list float32) -> Prop :=
| vs_add key id fs vec : parse_floats 1 fs = Ok vec -> vcmd_spec m (str "VADD") (key :: id :: fs) (writes OK) (<[id := vec]> m)
| vs_del key ids m' : m' = foldl (fun m id => delete id m) m ids -> vcmd_spec m (str "VDEL") (key :: ids) (writes (Integer (Z.of_nat (size m) - Z.of_nat (size m')))) m'
| vs_other cmd args v : vcmd_spec m cmd args (reads v) m.

(** What a command on [key] does to the keyspace. *)
Definition serves (c : clock) (cmd : bytes) args ks (o : outcome) : Prop :=
  exists ks' a, o = Ok (ks', a) /\ vectors_ok ks' /\
    (forall k, Some k <> head args -> abs ks' !! k = abs ks !! k) /\
    forall key, head args = Some key -> vcmd_spec (contents (now c) key ks) cmd args a (contents (now c) key ks').

Lemma Get_sound c key ks : vectors_ok ks -> exists ks1, Keyspace.Get ks (now c) key = (ks1, live (now c) (abs ks) key) /\ vectors_ok ks1 /\ look ks1 key = live (now c) (abs ks) key /\
  (forall k, k <> key -> abs ks1 !! k = abs ks !! k) /\ contents (now c) key ks1 = contents (now c) key ks.
Proof.
  intros [Hwf HV]. rewrite Get_load_live. pose proof (load_live_spec ks (now c) key Hwf) as H. destruct (load_live ks (now c) key) as [ks1 r]. destruct H as (Hwf1 & Habs & -> & Hlook).
  exists ks1. split; [done|]. assert (forall k, k <> key -> abs ks1 !! k = abs ks !! k) as Hother.
  { intros k Hk. rewrite Habs. unfold purge. repeat case_match; [by rewrite lookup_delete_ne|done..]. }
  assert (abs ks1 !! key = live (now c) (abs ks) key) as Hkey by (by rewrite abs_lookup).
  split; [split; [done|]|split; [done|split; [done|]]].
  - intros k e He. destruct (decide (k = key)) as [->|Hk]; [|rewrite Hother in He by done; by apply (HV k)]. rewrite Hkey in He. unfold live in He. destruct (abs ks !! key) as [e0|] eqn:E0; [|done].
    destruct (IsExpired e0 (now c)); [done|]. injection He as <-. by apply (HV key).
  - unfold contents. f_equal. unfold live at 1. rewrite Hkey. unfold live. destruct (abs ks !! key) as [e0|]; [|done]. destruct (IsExpired e0 (now c)) eqn:E; [done|]. by rewrite E.
Qed.

Lemma serves_same c cmd args ks a : vectors_ok ks -> a.2 = false -> serves c cmd args ks (Ok (ks, a)).
Proof. intros H Ha. exists ks, a. split; [done|]. split; [done|]. split; [done|]. intros key _. destruct a as [v w]. cbn in Ha. subst w. apply vs_other. Qed.

(** The entry of a vector index after a change through its pointer. *)
Lemma poke_sound key vi' e ks : vectors_ok ks -> look ks key = Some e -> Type_ e = TypeVector -> index_ok vi' ->
  vectors_ok (poke ks key (VVector vi')) /\ (forall k, k <> key -> abs (poke ks key (VVector vi')) !! k = abs ks !! k) /\
  forall t, IsExpired e t = false -> contents t key (poke ks key (VVector vi')) = v_Vectors vi'.
Proof.
  intros [Hwf HV] He Ht Hi. unfold poke. rewrite He. set (e' := mkE _ _ _ _ _). assert (abs (store ks key e') = <[key := e']> (abs ks)) as Ha by (by apply abs_store).
  split; [split; [by apply store_wf|]|split].
  - intros k x. rewrite Ha. destruct (decide (k = key)) as [->|Hk]; [rewrite lookup_insert_eq; intros [= <-] _; by exists vi'|rewrite lookup_insert_ne by done; apply HV].
  - intros k Hk. rewrite Ha. by rewrite lookup_insert_ne.
  - intros t Hx. unfold contents, live. rewrite Ha, lookup_insert_eq. change (IsExpired e' t) with (IsExpired e t). rewrite Hx. cbn. by rewrite decide_True.
Qed.

Lemma live_sound c key ks e : vectors_ok ks -> live (now c) (abs ks) key = Some e -> Type_ e = TypeVector ->
  IsExpired e (now c) = false /\ exists vi, Value_ e = VVector vi /\ index_ok vi /\ contents (now c) key ks = v_Vectors vi.
Proof.
  intros [_ HV] Hl Ht. assert (abs ks !! key = Some e /\ IsExpired e (now c) = false) as [Ha Hx].
  { unfold live in Hl. destruct (abs ks !! key) as [e0|]; [|done]. destruct (IsExpired e0 (now c)) eqn:E; [done|]. by injection Hl as ->. }
  split; [done|]. destruct (HV key e Ha Ht) as (vi & Hv & Hi). exists vi. split; [done|]. split; [done|]. unfold contents. rewrite Hl. cbn. by rewrite Hv, decide_True.
Qed.

Lemma serves_read c cmd args key ks ks1 a : vectors_ok ks1 -> head args = Some key -> (forall k, k <> key -> abs ks1 !! k = abs ks !! k) -> contents (now c) key ks1 = contents (now c) key ks -> a.2 = false ->
  serves c cmd args ks (Ok (ks1, a)).
Proof.
  intros H1 Hh Hother Hc Ha. exists ks1, a. split; [done|]. split; [done|]. split; [intros k Hk; apply Hother; congruence|]. intros key' Hk. rewrite Hh in Hk. injection Hk as <-. rewrite Hc.
  destruct a as [v w]. cbn in Ha. subst w. apply vs_other.
Qed.

Lemma updating_serves c cmd args key absent wrong body ks : vectors_ok ks -> head args = Some key -> absent.2 = false -> wrong.2 = false ->
  (forall vi, index_ok vi -> exists vi' a, body vi = Ok (vi', a) /\ index_ok vi' /\ vcmd_spec (v_Vectors vi) cmd args a (v_Vectors vi')) ->
  serves c cmd args ks (updating c key TypeVector as_vector (fun vi => VVector vi) absent wrong body ks).
Proof.
  intros HV Hh Ha Hw Hbody. unfold updating. destruct (Get_sound c key ks HV) as (ks1 & -> & HV1 & Hlook & Hother & Hcont).
  destruct (live (now c) (abs ks) key) as [e|] eqn:Hl; [|by eapply serves_read]. case_decide as Ht; [|by eapply serves_read].
  destruct (live_sound c key ks e HV Hl Ht) as (Hx & vi & Hv & Hi & Hc). rewrite Hv. cbn [as_vector conversion mbind res_bind].
  destruct (Hbody vi Hi) as (vi' & a & -> & Hi' & Hs). cbn [mbind res_bind]. destruct (poke_sound key vi' e ks1 HV1 Hlook Ht Hi') as (HV2 & Hother2 & Hc2).
  exists (poke ks1 key (VVector vi')), a. split; [done|]. split; [done|]. split; [intros k Hk; rewrite Hother2, Hother by congruence; done|].
  intros key' Hk. rewrite Hh in Hk. injection Hk as <-. by rewrite Hc, Hc2.
Qed.

Lemma reading_serves c cmd args key absent wrong body ks : vectors_ok ks -> head args = Some key -> absent.2 = false -> wrong.2 = false ->
  (forall vi, index_ok vi -> exists a, body vi = Ok a /\ a.2 = false) -> serves c cmd args ks (reading c key TypeVector as_vector absent wrong body ks).
Proof.
  intros HV Hh Ha Hw Hbody. unfold reading. destruct (Get_sound c key ks HV) as (ks1 & -> & HV1 & Hlook & Hother & Hcont).
  destruct (live (now c) (abs ks) key) as [e|] eqn:Hl; [|by eapply serves_read]. case_decide as Ht; [|by eapply serves_read].
  destruct (live_sound c key ks e HV Hl Ht) as (_ & vi & Hv & Hi & _). rewrite Hv. cbn [as_vector conversion mbind res_bind]. destruct (Hbody vi Hi) as (a & -> & Hf). cbn [mbind res_bind]. by eapply serves_read.
Qed.

Lemma vdel_loop_ok ids : forall vi n, index_ok vi -> exists vi', vdel_loop ids vi n = Ok (vi', n + (Z.of_nat (size (v_Vectors vi)) - Z.of_nat (size (v_Vectors vi')))) /\ index_ok vi' /\
  v_Vectors vi' = foldl (fun m id => delete id m) (v_Vectors vi) ids.
Proof using order_all.
  induction ids as [|id ids IH]; intros vi n Hi; cbn [vdel_loop foldl]; [exists vi; split; [do 2 f_equal; lia|done]|].
  destruct (Delete_index_ok order order_all id vi Hi) as (vi1 & b & -> & Hi1 & Hs). cbn [mbind res_bind]. inversion Hs as [| |id' b' Hb E1 E2 E3 E4| |]; subst.
  destruct (IH vi1 (if b then n + 1 else n) Hi1) as (vi2 & -> & Hi2 & E). exists vi2. split; [|split; [done|]]; [|by rewrite E; match goal with H : _ = v_Vectors vi1 |- _ => rewrite <- H end].
  do 2 f_equal. match goal with H : _ = v_Vectors vi1 |- _ => rewrite <- H end. destruct (v_Vectors vi !! id) as [v|] eqn:Hv.
  - rewrite map_size_delete_Some by done. assert (b = true) as -> by (by apply Hb). assert (size (v_Vectors vi) <> 0)%nat by (apply map_size_non_empty_iff; intros E0; rewrite E0 in Hv; done). lia.
  - rewrite map_size_delete_None by done. destruct b; [destruct (proj1 Hb eq_refl); done|]. lia.
Qed.

Lemma parse_floats_length fs : forall pos vec, parse_floats pos fs = Ok vec -> length vec = length fs.
Proof.
  induction fs as [|f fs IH]; intros pos vec; cbn [parse_floats]; [by intros [= <-]|]. destruct (ParseFloat32 f) as [x|]; [|done]. destruct (parse_floats (pos + 1) fs) as [xs|] eqn:E; cbn [mbind res_bind]; [|done].
  intros [= <-]. cbn [length]. f_equal. by eapply IH.
Qed.

(** A new, empty index under a key that has no entry. *)
Lemma create_sound c key dim ks : vectors_ok ks -> 0 <= dim -> look ks key = None ->
  let ks2 := Keyspace.Set_ ks (now c) key (mkE TypeVector (VVector (NewVectorIndex dim)) 0 0 0) in
  vectors_ok ks2 /\ (exists e, look ks2 key = Some e /\ Type_ e = TypeVector /\ IsExpired e (now c) = false) /\ forall k, k <> key -> abs ks2 !! k = abs ks !! k.
Proof.
  intros [Hwf HV] Hd Hk ks2. subst ks2. unfold Keyspace.Set_. rewrite Hk. set (e := touch _ _). assert (wf (addCount ks 1)) as Hw by (by apply addCount_wf).
  assert (abs (store (addCount ks 1) key e) = <[key := e]> (abs ks)) as Ha by (rewrite abs_store by done; by rewrite abs_addCount). split; [split; [by apply store_wf|]|split].
  - intros k x. rewrite Ha. destruct (decide (k = key)) as [->|Hne]; [rewrite lookup_insert_eq; intros [= <-] _; eexists; split; [done|by apply new_index_ok]|rewrite lookup_insert_ne by done; apply HV].
  - exists e. split; [rewrite look_store by done; by rewrite decide_True|done].
  - intros k Hne. rewrite Ha. by rewrite lookup_insert_ne.
Qed.

Lemma vadd_body c lvl key id fs vec ks ks2 vi e : vectors_ok ks2 -> look ks2 key = Some e -> Type_ e = TypeVector -> IsExpired e (now c) = false -> index_ok vi -> id <> [] -> vec <> [] -> 0 <= lvl ->
  parse_floats 1 fs = Ok vec -> contents (now c) key ks = v_Vectors vi -> (forall k, k <> key -> abs ks2 !! k = abs ks !! k) ->
  serves c (str "VADD") (key :: id :: fs) ks ('(vi, err) ← Add sorts id vec lvl vi; Ok (poke ks2 key (VVector vi), match err with Some _ => mismatch | None => writes OK end)).
Proof using sort_perm.
  intros HV Hl Ht Hx Hi Hid Hvec Hlvl Hp Hc Hother. destruct (Add_ok sorts sort_perm id vec lvl vi Hi Hid Hvec Hlvl) as (vi' & err & -> & Hi' & Hs). cbn [mbind res_bind].
  destruct (poke_sound key vi' e ks2 HV Hl Ht Hi') as (HV2 & Hother2 & Hc2). eexists _, _. split; [done|]. split; [done|]. split; [intros k Hk; cbn [head] in Hk; rewrite Hother2, Hother by congruence; done|].
  intros key' [= <-]. rewrite Hc2, Hc by done. inversion Hs; subst; [by apply vs_add|apply vs_other].
Qed.

Lemma vadd_serves c lvl args ks : vectors_ok ks -> args !! 1%nat <> Some [] -> 0 <= lvl -> serves c (str "VADD") args ks (handleVAdd c lvl args ks).
Proof using sort_perm.
  intros HV Hname Hlvl. unfold handleVAdd. destruct args as [|key [|id [|f fs]]]; try (by apply serves_same). assert (id <> []) as Hid by (intros ->; by apply Hname).
  cbv zeta. destruct (parse_floats 1 (f :: fs)) as [vec|pos] eqn:Hp; [|by apply serves_same]. assert (vec <> []) as Hvec by (apply parse_floats_length in Hp; by intros ->).
  destruct (Get_sound c key ks HV) as (ks1 & -> & HV1 & Hlook & Hother & Hcont). destruct (live (now c) (abs ks) key) as [e|] eqn:Hl.
  - destruct (decide (Type_ e = TypeVector)) as [Ht|Ht]; cbn [mbind res_bind]; [|by eapply serves_read].
    destruct (live_sound c key ks e HV Hl Ht) as (Hx & vi & Hv & Hi & Hc). rewrite Hv. cbn [as_vector conversion mbind res_bind]. by eapply vadd_body.
  - cbn [mbind res_bind]. destruct (create_sound c key (Z.of_nat (length (f :: fs))) ks1 HV1 ltac:(lia) Hlook) as (HV2 & (e & Hl2 & Ht & Hx) & Hother2).
    eapply vadd_body; try done; [apply new_index_ok; lia|unfold contents; by rewrite Hl|]. intros k Hk. by rewrite Hother2, Hother.
Qed.

Lemma vsearch_serves c args ks : vectors_ok ks -> serves c (str "VSEARCH") args ks (handleVSearch c args ks).
Proof using sort_perm sort_sorted iter_empty.
  intros HV. unfold handleVSearch. destruct args as [|key [|k [|m [|f fs]]]]; try (by apply serves_same). destruct (ParseInt k) as [topK|]; [|by apply serves_same].
  destruct (topK <=? 0); [by apply serves_same|]. cbv zeta. destruct (ef_option (f :: fs)) as [ef comps]. destruct (parse_floats 1 comps) as [q|]; [|by apply serves_same].
  apply updating_serves; [done..|]. intros vi Hi. destruct (Search_index_ok sorts iter sort_perm sort_sorted iter_empty q topK (ToLower m) ef vi Hi) as (vi' & r & -> & Hi' & Hs). cbn [mbind res_bind].
  eexists _, _. split; [done|]. split; [done|]. assert (v_Vectors vi' = v_Vectors vi) as -> by (by inversion Hs). destruct r; apply vs_other.
Qed.

Lemma vsim_scores v1 v2 : (exists d, EuclideanDistance v1 v2 = Ok d) /\ exists d, CosineSimilarity v1 v2 = Ok d.
Proof.
  split.
  - unfold EuclideanDistance. case_decide; [eauto|]. destruct (l2_sum_total v1 v2 fzero) as [d ->]; [lia|]. cbn. eauto.
  - unfold CosineSimilarity. case_decide as H; [eauto|]. destruct (cosine_sums_total v1 v2 fzero fzero fzero) as [[[d n1] n2] ->]; [destruct (decide (length v1 = length v2)); [lia|by destruct H; left]|].
    cbn [mbind res_bind]. case_match; eauto.
Qed.

Lemma vector_command_serves c lvl cmd args ks o : vectors_ok ks -> (cmd = str "VADD" -> args !! 1%nat <> Some []) -> 0 <= lvl -> vdispatch c lvl cmd args ks = Some o -> serves c cmd args ks o.
Proof using sort_perm sort_sorted order_all iter_empty.
  intros HV Hname Hlvl. unfold vdispatch. destruct (list_find _ _) as [[i p]|] eqn:E; [|done]. apply list_find_Some in E as (Hi & Hcmd & _). intros [= <-]. cbn [snd].
  apply list_elem_of_lookup_2 in Hi. unfold vector_cases in Hi. rewrite !elem_of_cons in Hi. destruct Hi as [->|[->|[->|[->|[->|Hi]]]]]; cbn [fst snd] in *; [..|by apply not_elem_of_nil in Hi]; subst cmd.
  - by apply vadd_serves; [|apply Hname|].
  - unfold handleVDel. destruct args as [|key [|id ids]]; try (by apply serves_same). apply updating_serves; [done..|]. intros vi Hvi.
    destruct (vdel_loop_ok (id :: ids) vi 0 Hvi) as (vi' & -> & Hi' & EV). cbn [mbind res_bind]. eexists _, _. split; [done|]. split; [done|]. by apply vs_del.
  - by apply vsearch_serves.
  - unfold handleVSim. destruct args as [|key [|a [|b opts]]]; try (by apply serves_same). cbv zeta. apply reading_serves; [done..|]. intros vi _.
    destruct (Vector.Get a vi) as [v1|]; [destruct (Vector.Get b vi) as [v2|]|]; try (eexists; split; [done|done]). destruct (vsim_scores v1 v2) as [[d1 H1] [d2 H2]]. destruct (is_l2 _); [rewrite H1|rewrite H2]; cbn [mbind res_bind]; eauto.
  - unfold handleVInfo. destruct args as [|key rest]; [by apply serves_same|]. apply reading_serves; [done..|]. intros vi _. eauto.
Qed.

(** ** Sequences of vector commands *)

(** A command with the clock and the level it draws. *)
Record vcmd := mkVCmd { vc_clock : clock; vc_level : Z; vc_name : bytes; vc_args : list bytes }.
Definition vcmd_ok (v : vcmd) : Prop :=
  vc_name v ∈ [str "VADD"; str "VDEL"; str "VSEARCH"; str "VSIM"; str "VINFO"] /\ (vc_name v = str "VADD" -> vc_args v !! 1%nat <> Some []) /\ 0 <= vc_level v.

Fixpoint vcmds (ks : Keyspace) (cmds : list vcmd) : option (res fault (Keyspace * list answer)) :=
  match cmds with
  | [] => Some (Ok (ks, []))
  | v :: cmds' =>
      o ← vdispatch (vc_clock v) (vc_level v) (vc_name v) (vc_args v) ks;
      match o with
      | Err e => Some (Err e)
      | Ok (ks, a) => r ← vcmds ks cmds'; Some ('(ks, answers) ← r; Ok (ks, a :: answers))
      end
  end.

Lemma known_command v ks : vcmd_ok v -> exists o, vdispatch (vc_clock v) (vc_level v) (vc_name v) (vc_args v) ks = Some o.
Proof.
  intros [Hin _]. unfold vdispatch. destruct (list_find _ _) as [[i p]|] eqn:E; [by eexists|]. exfalso. apply list_find_None in E. rewrite list.Forall_forall in E.
  rewrite !elem_of_cons in Hin. destruct Hin as [H|[H|[H|[H|[H|H]]]]]; [..|by apply not_elem_of_nil in H];
    [apply (E (str "VADD", handleVAdd (vc_clock v) (vc_level v) (vc_args v)))|apply (E (str "VDEL", handleVDel (vc_clock v) (vc_args v)))|apply (E (str "VSEARCH", handleVSearch (vc_clock v) (vc_args v)))
    |apply (E (str "VSIM", handleVSim (vc_clock v) (vc_args v)))|apply (E (str "VINFO", handleVInfo (vc_clock v) (vc_args v)))]; first [done | unfold vector_cases; rewrite !elem_of_cons; tauto].
Qed.

(** C18: VADD with a name that is not empty, VDEL, VSEARCH, VSIM and VINFO, on a
    keyspace built by such commands from one whose indexes are in order (the
    empty one is): each returns without panic or endless loop whatever its other
    arguments, changes no other key, stores or removes exactly the vectors it
    answers for, and leaves them alone when it answers an error. VADD with an
    empty name and what follows it on that key are not covered (a finding). *)
Theorem vector_commands_sound cmds ks : vectors_ok ks -> Forall vcmd_ok cmds ->
  exists ks' answers, vcmds ks cmds = Some (Ok (ks', answers)) /\ vectors_ok ks' /\
    forall v o, vcmd_ok v -> vdispatch (vc_clock v) (vc_level v) (vc_name v) (vc_args v) ks' = Some o -> serves (vc_clock v) (vc_name v) (vc_args v) ks' o.
Proof using sort_perm sort_sorted order_all iter_empty.
  intros HV Hcmds. revert ks HV. induction Hcmds as [|v cmds (Hk & Hn & Hl) _ IH]; intros ks HV; cbn [vcmds].
  - exists ks, []. split; [done|]. split; [done|]. intros v o (_ & Hn & Hl) E. by eapply vector_command_serves.
  - destruct (known_command v ks (conj Hk (conj Hn Hl))) as [o E]. rewrite E. cbn [mbind option_bind].
    destruct (vector_command_serves _ _ _ _ ks o HV Hn Hl E) as (ks1 & a & -> & HV1 & _). destruct (IH ks1 HV1) as (ks2 & answers & -> & HV2 & Hlast). cbn [mbind option_bind res_bind].
    exists ks2, (a :: answers). split; [done|]. by split.
Qed.
End VectorCommands.

(** ** Two vectors under a key *)

Definition unit_float (b : bytes) : option float32 := if decide (b = str "1") then Some 1065353216 else if decide (b = str "0") then Some 0 else None.
Definition no_score (d : float64) : bytes := [].
Definition at_time (t : Z) : clock := mkClock t t t.
Definition two_vectors : list vcmd :=
  [mkVCmd (at_time 1) 0 (str "VADD") [str "k"; str "e"; str "1"; str "0"]; mkVCmd (at_time 2) 1 (str "VADD") [str "k"; str "n"; str "0"; str "1"];
   mkVCmd (at_time 3) 0 (str "VADD") [str "k"; str "x"; str "1"]; mkVCmd (at_time 4) 0 (str "VSEARCH") [str "k"; str "1"; str "L2"; str "1"; str "0"]].

Definition empty_keyspace : @Keyspace.Keyspace SkipList.SkipList VectorIndex := NewKeyspace.

Lemma empty_vectors_ok : vectors_ok empty_keyspace.
Proof. split; [apply NewKeyspace_wf|]. intros k e. rewrite abs_lookup by apply NewKeyspace_wf. unfold empty_keyspace. rewrite NewKeyspace_look. done. Qed.

Lemma vector_commands_sound_witness : exists ks' answers,
  vcmds insertion map_order map_items unit_float no_score empty_keyspace two_vectors = Some (Ok (ks', answers)) /\ vectors_ok ks' /\
  answers = [writes OK; writes OK; mismatch; reads (Array [Array [BulkString (str "e"); BulkString []]])].
Proof.
  destruct (vector_commands_sound insertion map_order map_items unit_float no_score insertion_perm insertion_sorted map_order_all map_items_empty two_vectors empty_keyspace) as (ks' & answers & E & HV & _).
  - exact empty_vectors_ok.
  - repeat constructor; first [lia | done | apply (bool_decide_unpack _); by vm_compute].
  - exists ks', answers. split; [exact E|]. split; [exact HV|].
    assert (match vcmds insertion map_order map_items unit_float no_score empty_keyspace two_vectors with
            | Some (Ok (_, l)) => l | _ => [] end = [writes OK; writes OK; mismatch; reads (Array [Array [BulkString (str "e"); BulkString []]])]) as H by (vm_compute; reflexivity).
    rewrite E in H. exact H.
Defined.

(** VSIM knows two measures: under the name of any other metric it answers the cosine
    similarity. *)
Theorem vsim_ignores_dot FormatScore c key a b ks : handleVSim FormatScore c [key; a; b; str "dot"] ks = handleVSim FormatScore c [key; a; b] ks.
Proof. reflexivity. Qed.
