(* ===== verification/VectorSnapshot.v ===== *)
(** * Vector indexes in snapshots (internal/engine/engine.go)

    A snapshot has the dimension and the vectors of an index, not its graph: loading
    one builds a new graph, with new levels and in the order of a range over the map. *)

From S2P Require Import Prelude Float Heap SkipList Hnsw HnswLaws Vector Rdb.

Section VectorSnapshot.
Context (sorts : forall A : Type, (A -> A -> bool) -> list A -> list A).
Context (iter : gmap bytes (list float32) -> list (bytes * list float32)) (level : nat -> Z).

Definition vector_item (vi : VectorIndex) : VectorItem := mkVectorItem (v_Dimension vi) (GetAll vi).

(** [for id, vec := range vItem.Vectors { _ = vi.Add(id, vec) }]. *)
Fixpoint add_vectors (kvs : list (bytes * list float32)) (vi : VectorIndex) : res fault VectorIndex :=
  match kvs with
  | [] => Ok vi
  | (id, vec) :: kvs' => '(vi, _) ← Add sorts id vec (level (length kvs')) vi; add_vectors kvs' vi
  end.

Definition vector_index (item : VectorItem) : res fault VectorIndex := add_vectors (iter (Vectors item)) (NewVectorIndex (Dim item)).

Context (sort_perm : forall A less (l : list A), sorts A less l ≡ₚ l) (iter_perm : forall m, iter m ≡ₚ map_to_list m) (level_pos : forall n, 0 <= level n).

(** The vectors an index holds are named and of its dimension. *)
Lemma index_vectors vi id v : index_ok vi -> v_Vectors vi !! id = Some v -> id <> [] /\ v <> [] /\ Z.of_nat (length v) = v_Dimension vi.
Proof.
  intros (g & _ & Hok & Hdim & Hvec) Hv. rewrite <- Hvec in Hv. unfold vectors in Hv. rewrite lookup_fmap in Hv. destruct (Nodes g !! id) as [n|] eqn:Hn; [|done]. injection Hv as <-.
  destruct (g_nodes g Hok id n Hn) as (_ & Hl & _). split; [intros ->; by rewrite (g_named g Hok) in Hn|]. split; [|congruence]. intros E. rewrite E in Hl. cbn in Hl.
  destruct (g_dim g Hok) as [_ He]. rewrite (He (eq_sym Hl)) in Hn. done.
Qed.

Lemma add_vectors_ok dim kvs : forall vi, index_ok vi -> v_Dimension vi = dim -> Forall (fun kv => kv.1 <> [] /\ kv.2 <> [] /\ Z.of_nat (length kv.2) = dim) kvs ->
  exists vi', add_vectors kvs vi = Ok vi' /\ index_ok vi' /\ v_Dimension vi' = dim /\ v_Vectors vi' = foldl (fun m kv => <[kv.1 := kv.2]> m) (v_Vectors vi) kvs.
Proof using sort_perm level_pos.
  induction kvs as [|[id vec] kvs IH]; intros vi Hi Hd HF; cbn [add_vectors foldl]; [by exists vi|]. apply Forall_cons in HF as [(H1 & H2 & H3) HF]. cbn [fst snd] in *.
  destruct (Add_ok sorts sort_perm id vec (level (length kvs)) vi Hi H1 H2 (level_pos _)) as (vi1 & e & -> & Hi1 & Hs). cbn [mbind res_bind].
  assert (v_Dimension vi1 = dim /\ v_Vectors vi1 = <[id := vec]> (v_Vectors vi)) as [Hd1 Hv1] by (inversion Hs as [? ? ? Ha|? ? ? Ha| | |]; [split; congruence|]; destruct Ha; right; congruence).
  destruct (IH vi1 Hi1 Hd1 HF) as (vi2 & -> & Hi2 & Hd2 & Hv2). exists vi2. by rewrite Hv2, Hv1.
Qed.

(** A vector index survives a snapshot: what is loaded from its item has the same
    dimension and vectors, in an index in order, whatever levels are drawn and in
    whatever order the map is read. *)
Theorem vectors_restored vi : index_ok vi -> exists vi', vector_index (vector_item vi) = Ok vi' /\ index_ok vi' /\ v_Dimension vi' = v_Dimension vi /\ v_Vectors vi' = v_Vectors vi.
Proof using sort_perm iter_perm level_pos.
  intros Hi. pose proof Hi as (g & _ & Hok & Hdim & _). destruct (g_dim g Hok) as [Hpos _]. unfold vector_index, vector_item. cbn [Dim Vectors].
  destruct (add_vectors_ok (v_Dimension vi) (iter (GetAll vi)) (NewVectorIndex (v_Dimension vi))) as (vi' & -> & Hi' & Hd' & Hv'); [apply new_index_ok; lia|done| |].
  - rewrite list.Forall_forall. intros [id v] Hin. rewrite iter_perm in Hin. apply elem_of_map_to_list in Hin. by apply (index_vectors vi).
  - exists vi'. split; [done|]. split; [done|]. split; [done|]. rewrite Hv'. exact (assign_all_map (v_Vectors vi) (iter (GetAll vi)) (iter_perm _)).
Qed.
End VectorSnapshot.

Lemma vectors_restored_witness : exists vi vi', Add insertion (str "e") east 0 (NewVectorIndex 2) = Ok (vi, None) /\
  vector_index insertion map_items (fun n => Z.of_nat n) (vector_item vi) = Ok vi' /\ v_Vectors vi' = {[str "e" := east]}.
Proof.
  destruct (Add_ok insertion insertion_perm (str "e") east 0 (NewVectorIndex 2)) as (vi & e & E & Hi & Hs); [by apply new_index_ok|done|done|lia|].
  destruct (vectors_restored insertion map_items (fun n => Z.of_nat n) insertion_perm (fun m => reflexivity _) (fun n => Nat2Z.is_nonneg n) vi Hi) as (vi' & E' & _ & _ & Hv).
  assert (e = None /\ v_Vectors vi = {[str "e" := east]}) as [-> Hv0] by (inversion Hs as [? ? ? Ha|? ? ? Ha| | |]; [split; [done|]; subst; done|]; exfalso; apply Ha; by right).
  exists vi, vi'. split; [exact E|]. split; [exact E'|]. by rewrite Hv.
Defined.
