(* ===== verification/FullSync.v ===== *)
(** * Full resynchronisation of a replica (internal/engine/keyspace.go, engine.go)

    [DumpAllCommands] turns the keyspace into write commands; a replica runs them
    like the commands that follow, on the connection "replica_stream".  The theorem
    says what the dump rebuilds on an empty replica.  As in [Snapshot], the order
    of a Go map range is the argument [iter] and vector indexes have no model: the
    commands of a vector are the argument [vector_commands]. *)

From stdpp Require Import sorting.
From S2P Require Import Prelude Resp SetDs HashDs ListDs Stream SkipList Keyspace Commands CommandLaws Crc Rdb Snapshot Acl Session Access StreamCommands.

Section FullSync.
Context {VectorIndex : Type}.
Context (iter : forall V, gmap bytes V -> list (bytes * V)) (vector_commands : bytes -> VectorIndex -> list (list bytes)).
Context (ParseFloat : bytes -> option Z) (FormatFloat : Z -> bytes) (NumErrorText : num_error -> bytes -> bytes).

Abbreviation Entry := (@Keyspace.Entry SkipList.SkipList VectorIndex).
Abbreviation Keyspace := (@Keyspace.Keyspace SkipList.SkipList VectorIndex).
Abbreviation answer := (Resp.Value * bool)%type.
Abbreviation outcome := (res fault (Keyspace * answer)).
Implicit Types (ks : Keyspace) (e : Entry) (c : clock).

(** ** The dump *)

Definition flatten_pairs (kvs : list (bytes * bytes)) : list bytes := concat ((fun kv => [kv.1; kv.2]) <$> kvs).

(** No command for a container without elements. *)
Definition unless_empty (cmd k : bytes) (args : list bytes) : list (list bytes) :=
  match args with [] => [] | _ => [cmd :: k :: args] end.

Definition dump_entry (k : bytes) (e : Entry) : res fault (list (list bytes)) :=
  match Keyspace.Type_ e, Keyspace.Value_ e with
  | TypeString, Keyspace.VString s => Ok [[str "SET"; k; s]]
  | TypeHash, Keyspace.VHash h => Ok (unless_empty (str "HSET") k (flatten_pairs (iter _ (GetAll h))))
  | TypeList, Keyspace.VList l => Ok (unless_empty (str "RPUSH") k (ListDs.Range l 0 (-1)))
  | TypeSet, Keyspace.VSet s => Ok (unless_empty (str "SADD") k (Members s))
  | TypeZSet, Keyspace.VZSet z =>
      items ← SkipList.Range 0 (-1) false z;
      Ok (unless_empty (str "ZADD") k (flatten_pairs ((fun it => (FormatFloat (Score it), Member it)) <$> items)))
  | TypeVector, Keyspace.VVector v => Ok (vector_commands k v)
  | TypeStream, Keyspace.VStream s =>
      Ok ((fun item => str "XADD" :: k :: Stream.ID item :: flatten_pairs (iter _ (Fields item))) <$> Stream.Range s (str "-") (str "+") 0)
  | _, _ => Ok []
  end.

Definition dump_expiry (k : bytes) (e : Entry) : list (list bytes) :=
  if 0 <? Keyspace.ExpiresAt e then [[str "PEXPIREAT"; k; FormatInt (Keyspace.ExpiresAt e)]] else [].

Fixpoint dump_entries (now : Z) (kvs : list (bytes * Entry)) : res fault (list (list bytes)) :=
  match kvs with
  | [] => Ok []
  | (k, e) :: kvs' =>
      if Keyspace.IsExpired e now then dump_entries now kvs'
      else
        cmds ← dump_entry k e;
        rest ← dump_entries now kvs';
        Ok (cmds ++ dump_expiry k e ++ rest)
  end.

Fixpoint dump_all (now : Z) (shs : list (gmap bytes Entry)) : res fault (list (list bytes)) :=
  match shs with
  | [] => Ok []
  | m :: shs' => cmds ← dump_entries now (iter _ m); rest ← dump_all now shs'; Ok (cmds ++ rest)
  end.

Definition DumpAllCommands (now : Z) (ks : Keyspace) : res fault (list (list bytes)) := dump_all now (shards ks).

(** ** The commands of the link on the replica *)

(** The circumstances of a command: the draws of the skip lists, what a stream
    command sees, and the bound on its polls. *)
Record moment := mkMoment { draws : nat -> nat -> Z; around : world (VectorIndex := VectorIndex); polls : nat }.

(** The commands of the switch that do not touch the keyspace. *)
Definition session_names : list bytes :=
  str <$> ["AUTH"; "ACL"; "MULTI"; "EXEC"; "DISCARD"; "WATCH"; "UNWATCH"; "BGREWRITEAOF"; "COMMAND"; "CLIENT"; "SELECT"; "REPLCONF"]%string.

(** [eng.ExecuteCommand("replica_stream", args)] on the keyspace: the data and the
    stream commands, and the reply to an unknown name; [None] is a command of
    another part of the switch, or a read that waits longer than its bound. *)
Definition applyCmd (m : moment) (argv : list bytes) (ks : Keyspace) : option outcome :=
  match argv with
  | [] => Some (Ok (ks, reads (Error (str "ERR empty command"))))
  | name :: args =>
      let cmd := ToUpperFast name in
      match Commands.dispatch ParseFloat FormatFloat (draws m) (base (tick (around m) 0)) cmd args ks with
      | Some o => Some o
      | None =>
          match list_find (fun p => p.1 = cmd) (stream_cases NumErrorText (around m) (polls m) args) with
          | Some (_, p) => p.2 ks
          | None =>
              if decide (cmd ∈ session_names ++ other_cases) then None
              else Some (Ok (ks, reads (Error (str "ERR unknown command '" ++ cmd ++ str "'"))))
          end
      end
  end.

(** The commands one after the other, the [i]-th at the moment [ms i]. *)
Fixpoint apply_from (ms : nat -> moment) (i : nat) (cmds : list (list bytes)) (ks : Keyspace) : option (res fault Keyspace) :=
  match cmds with
  | [] => Some (Ok ks)
  | argv :: cmds' =>
      o ← applyCmd (ms i) argv ks;
      match o with
      | Err x => Some (Err x)
      | Ok (ks, _) => apply_from ms (S i) cmds' ks
      end
  end.

Lemma apply_from_app ms cmds1 cmds2 : forall i ks ks', apply_from ms i cmds1 ks = Some (Ok ks') ->
  apply_from ms i (cmds1 ++ cmds2) ks = apply_from ms (i + length cmds1) cmds2 ks'.
Proof using.
  induction cmds1 as [|a cmds1 IH]; intros i ks ks'; cbn [apply_from app length]; [intros [= ->]; by rewrite Nat.add_0_r|].
  destruct (applyCmd _ _ _) as [[[k1 r]|x]|]; cbn [mbind option_bind]; [|done|done]. intros H. rewrite (IH _ _ _ H).
  f_equal. lia.
Qed.

(** ** The connection of the link *)

(** The keys of a data command are found without a fault. *)
Lemma data_command_keys rng c cmd args ks o : Commands.dispatch ParseFloat FormatFloat rng c cmd args ks = Some o ->
  exists keys, extractCommandKeys cmd args = Ok keys.
Proof using.
  intros H. unfold extractCommandKeys. destruct args as [|a args]; [by eexists|]. destruct (decide (cmd ∈ keyless_commands)); [by eexists|].
  destruct (decide (cmd = str "EVAL" \/ cmd = str "EVALSHA")) as [[-> | ->]|]; [by vm_compute in H..|]. repeat case_decide; by eexists.
Qed.

(** On "replica_stream" no guard refuses a command, whatever the engine: outside a
    transaction and without a memory limit the engine runs it as [applyCmd] does,
    and sends it to no other replica. *)
Lemma replica_stream_runs vs m argv (e : Engine) :
  (forall p, clientSessions e !! str "replica_stream" = Some p -> InMulti (session_at e p) = false) -> MaxMemory e <= 0 ->
  draws m = rand (vs 0%nat) -> base (tick (around m) 0) = clk (vs 0%nat) -> on_command (fun cmd _ => cmd ∉ session_names ++ other_cases) argv ->
  match applyCmd m argv (Session.ks e) with
  | Some (Ok (k, (r, _))) => exists e' : Engine, Session.ExecuteCommand ParseFloat FormatFloat vs (str "replica_stream") argv e = ret (e', r) /\
      Session.ks e' = k /\ Replication_ e' = Replication_ e
  | Some (Err x) => Session.ExecuteCommand ParseFloat FormatFloat vs (str "replica_stream") argv e = Some (Err x)
  | None => False
  end.
Proof using.
  intros HM Hmem Hd Hb Hn. unfold Session.ExecuteCommand.
  assert (exists (e1 : Engine) p, GetClientSession (str "replica_stream") e = (e1, p) /\ InMulti (session_at e1 p) = false /\
    Session.ks e1 = Session.ks e /\ Replication_ e1 = Replication_ e /\ MaxMemory e1 = MaxMemory e) as (e1 & p & -> & Hp & Hks & HR & HMm).
  { unfold GetClientSession. destruct (clientSessions e !! _) as [p|] eqn:Ep; [eexists _, p; split; [done|]; split; [by apply HM|done]|]. eexists _, _. split; [done|].
    split; [|done]. unfold session_at. cbn [sessions set_sessions]. by rewrite lookup_app_r, Nat.sub_diag by lia. }
  destruct argv as [|name args]; [by exists e1|]. cbn [on_command] in Hn. cbn [applyCmd ExecuteCommandWithSession].
  assert (guards (str "replica_stream") (ToUpperFast name) args (session_at e1 p) e1 = Ok None) as ->.
  { unfold guards, auth_guard, acl_guard, replica_guard, cluster_guard. change (internal (str "replica_stream")) with true.
    rewrite decide_False by (intros (_ & _ & H & _); discriminate). destruct (ACL e1); [rewrite decide_False by (intros (_ & _ & _ & H); discriminate)|]; cbn [mbind res_bind];
      (destruct (Replication_ e1) as [r|]; [destruct (ReadOnly r); cbn|]; (destruct (Cluster_ e1) as [[[] ?]|]; done)). }
  cbn [andThen]. rewrite Hp. unfold run_command, Session.dispatch. rewrite Hd, Hb, Hks.
  assert (list_find (fun p => p.1 = ToUpperFast name) (session_cases (vs 0%nat) (str "replica_stream") args) = None :> option (nat * (bytes * (Engine -> Engine * answer)))) as ->.
  { apply list_find_None. unfold session_cases. repeat (apply Forall_cons; split; [cbn [fst]; intros E; apply Hn; rewrite <- E; apply (bool_decide_unpack _); vm_compute; exact I|]). done. }
  cbn [tail]. destruct (Commands.dispatch _ _ _ _ _ _ _) as [[[k [r w]]|x]|] eqn:Ed; cbn [mbind res_bind andThen].
  - destruct w; [|by exists (set_ks k e1)].
    destruct (data_command_keys _ _ _ _ _ _ Ed) as [keys Ek]. destruct (touch_keys (ToUpperFast name) args (set_ks k e1)) as [e2|] eqn:Et.
    2: { unfold touch_keys in Et. rewrite Ek in Et. by destruct (0 <? _). }
    pose proof (touch_keys_rest _ _ _ _ Et) as ->. cbn [andThen]. unfold check_memory. cbn [MaxMemory set_sessions set_ks].
    rewrite HMm, (proj2 (Z.leb_le _ _)) by done. eexists. split; [done|]. split; [done|]. cbn. by rewrite HR.
  - done.
  - assert (list_find (fun p => p.1 = ToUpperFast name) (stream_cases NumErrorText (around m) (polls m) args) = None) as ->.
    { apply list_find_None. unfold stream_cases. repeat (apply Forall_cons; split; [cbn [fst]; intros E; apply Hn; rewrite <- E; apply (bool_decide_unpack _); vm_compute; exact I|]). done. }
    rewrite decide_False by done. rewrite decide_False by (intros H; apply Hn, elem_of_app; by right). cbn [andThen].
    exists e1. done.
Qed.

(** ** One entry *)

(** A key that came to hold [v], without an expiry time; the rest is as it was. *)
Definition gains (k : bytes) (t : EntryType) (v : @Keyspace.Value SkipList.SkipList VectorIndex) (ks ks' : Keyspace) : Prop :=
  Keyspace.wf ks' /\ (counted ks -> room ks -> counted ks') /\
  exists u a, forall k', look ks' k' = if decide (k' = k) then Some (mkE t v 0 u a) else look ks k'.

Lemma gains_poke k t v v' ks ks' : gains k t v ks ks' -> gains k t v' ks (poke ks' k v').
Proof using.
  intros (Hwf & Hc & u & a & Hl). assert (look ks' k = Some (mkE t v 0 u a)) as Hk by (rewrite Hl; by rewrite decide_True).
  unfold poke. rewrite Hk. split; [by apply store_wf|]. split; [intros H1 H2; apply counted_old; [done|by rewrite Hk|auto]|].
  exists u, a. intros k'. rewrite look_store by done. destruct (decide (k' = k)); [done|]. rewrite Hl. by rewrite decide_False.
Qed.

Lemma gains_new k t v u a ks : Keyspace.wf ks -> look ks k = None -> gains k t v ks (addCount (store ks k (mkE t v 0 u a)) 1).
Proof using.
  intros Hwf Hk. split; [by apply addCount_wf, store_wf|]. split; [intros H1 H2; by apply counted_new|].
  exists u, a. intros k'. change (look (addCount (store ks k (mkE t v 0 u a)) 1) k') with (look (store ks k (mkE t v 0 u a)) k'). by apply look_store.
Qed.

(** A command that creates its key. *)
Lemma creating_gains {T} c k t conv wrap (new : T) body ks x ans : Keyspace.wf ks -> look ks k = None ->
  conv (wrap new) = Some new -> body new = Ok (x, ans) ->
  exists ks', creating (VectorIndex := VectorIndex) c k t conv wrap new body ks = Ok (ks', ans) /\ gains k t (wrap x) ks ks'.
Proof using.
  intros Hwf Hk Hconv Hbody. unfold creating, GetOrCreate, load_live. rewrite Hk. cbn [Keyspace.Type_ Keyspace.Value_].
  rewrite decide_True by done. rewrite Hconv. cbn [conversion mbind res_bind]. rewrite Hbody. cbn [mbind res_bind].
  eexists. split; [done|]. eapply gains_poke. by apply gains_new.
Qed.

Lemma set_gains t now k v ks : Keyspace.wf ks -> look ks k = None -> gains k t v ks (Keyspace.Set_ ks now k (mkE t v 0 0 0)).
Proof using. intros Hwf Hk. unfold Keyspace.Set_. rewrite Hk. exact (gains_new k t v now now ks Hwf Hk). Qed.

Lemma flatten_length kvs : length (flatten_pairs kvs) = (2 * length kvs)%nat.
Proof using. unfold flatten_pairs. induction kvs as [|[f v] kvs IH]; csimpl; [done|]. rewrite IH. lia. Qed.

(** What the loop of HSET does with the fields. *)
Lemma hset_flatten kvs : forall h n, (hset_loop (flatten_pairs kvs) h n).1 = foldl (fun h kv => (HashDs.Set_ h kv.1 kv.2).1) h kvs.
Proof using.
  unfold flatten_pairs. induction kvs as [|[f v] kvs IH]; intros h n; csimpl; [done|]. cbn [hset_loop]. destruct (HashDs.Set_ h f v) as [h' d]. apply IH.
Qed.

(** Two arguments or more in pairs. *)
Lemma pairs_even (k : bytes) kvs : kvs <> [] -> ~ (length (k :: flatten_pairs kvs) < 3 \/ (length (k :: flatten_pairs kvs) - 1) mod 2 <> 0)%nat.
Proof using.
  intros Hne. cbn [length]. rewrite flatten_length. destruct kvs as [|kv kvs]; [done|]. cbn [length]. intros [H|H]; [lia|]. apply H.
  replace (S (2 * S (length kvs)) - 1)%nat with (0 + S (length kvs) * 2)%nat by lia. by rewrite Nat.Div0.mod_add.
Qed.

Context (iter_perm : forall V (m : gmap bytes V), iter V m ≡ₚ map_to_list m).
Context (float_roundtrip : forall s, is_nan s = false -> ParseFloat (FormatFloat s) = Some s).

Lemma sorted_set_app_l es1 es2 : sorted_set (es1 ++ es2) -> sorted_set es1.
Proof using.
  intros [H1 H2 H3]. split; [by eapply StronglySorted_app_1_l|by apply Forall_app in H2 as [? _]|]. rewrite fmap_app in H3.
  by apply NoDup_app in H3 as [? _].
Qed.

Lemma Add_list l : forall s n, (foldl add_one (s, n) l).1 = foldl (fun s i => (SetDs.Add s [i]).1) s l.
Proof using.
  induction l as [|x l IH]; intros s n; cbn [foldl]; [done|]. unfold SetDs.Add. cbn [foldl]. unfold add_one at 2 4.
  destruct (decide (x ∈ members s)); apply IH.
Qed.

(** ZADD with the scores of a sorted set, in order. *)
Lemma zadd_flatten rng es : forall i es0 z ps n, repr z ps es0 -> sorted_set (es0 ++ es) -> Z.of_nat (length (es0 ++ es)) < 2 ^ 63 - 1 ->
  exists z' ps' ans, zadd_loop ParseFloat rng i (flatten_pairs ((fun it => (FormatFloat (Score it), Member it)) <$> es)) z n = Ok (z', ans) /\
    repr z' ps' (es0 ++ es).
Proof using float_roundtrip.
  induction es as [|e es IH]; intros i es0 z ps n Hr Hs Hb.
  { rewrite app_nil_r. do 3 eexists. split; [done|exact Hr]. }
  destruct (restore_zset_spec (fun _ => rng i) [e] 0 es0 z ps Hr) as (z1 & ps1 & E & Hr1).
  { replace (es0 ++ e :: es) with ((es0 ++ [e]) ++ es) in Hs by by rewrite <- app_assoc. by eapply sorted_set_app_l. }
  { rewrite length_app in *. cbn [length] in *. lia. }
  assert (is_nan (Score e) = false) as Hnan by (destruct Hs as [_ H _]; apply Forall_app in H as [_ H]; by inversion H).
  unfold flatten_pairs. csimpl. cbn [zadd_loop]. rewrite float_roundtrip by done.
  cbn [fmap list_fmap restore_zset zScore zMember] in E. destruct (SkipList.Insert (rng i) (Score e) (Member e) z) as [z'|]; [|done].
  cbn [mbind res_bind] in *. injection E as ->. edestruct (IH (S i) (es0 ++ [e]) z1 ps1) as (z2 & ps2 & ans & E2 & Hr2); [done|..].
  { by rewrite <- app_assoc. } { by rewrite <- app_assoc. }
  rewrite <- app_assoc in Hr2. exists z2, ps2, ans. split; [exact E2|exact Hr2].
Qed.

(** *** Streams *)

(** The key of a stream under construction: missing, or holding [st]. *)
Definition building (k : bytes) (st : Stream) (ks0 ks : Keyspace) : Prop :=
  (ks = ks0 /\ st = NewStream) \/ gains k TypeStream (Keyspace.VStream st) ks0 ks.

Lemma open_stream_building c k body ks0 ks st st' ans : Keyspace.wf ks0 -> look ks0 k = None -> building k st ks0 ks ->
  body st = Ok (st', ans) ->
  exists ks', open_stream c k body ks = Ok (ks', ans) /\ gains k TypeStream (Keyspace.VStream st') ks0 ks'.
Proof using.
  intros Hwf Hk HB Hb. unfold open_stream, Keyspace.Get. destruct HB as [[-> ->]|HG].
  - rewrite Hk, Hb. cbn [mbind res_bind]. eexists. split; [done|]. eapply gains_poke. by apply set_gains.
  - pose proof HG as (_ & _ & u & a & Hl). rewrite Hl, decide_True by done. cbn [Keyspace.ExpiresAt Keyspace.Type_ Keyspace.Value_ Z.ltb Z.compare].
    rewrite decide_True by done. cbn [as_stream conversion mbind res_bind]. rewrite Hb. cbn [mbind res_bind].
    eexists. split; [done|]. by eapply gains_poke.
Qed.

Lemma xadd_flatten kvs : forall m o, (xadd_fields (flatten_pairs kvs) m o).1 = foldl (fun m kv => <[kv.1 := kv.2]> m) m kvs.
Proof using. unfold flatten_pairs. induction kvs as [|[f v] kvs IH]; intros m o; csimpl; [done|]. cbn [xadd_fields]. apply IH. Qed.

Lemma fields_copy m : foldl (fun m kv => <[kv.1 := kv.2]> m) ∅ (iter bytes m) = m.
Proof using iter_perm. change (assign_all (iter bytes m) = m). apply assign_all_map. apply iter_perm. Qed.

Lemma id_not_maxlen a : valid_id a -> ToUpper (ID_String a) <> str "MAXLEN".
Proof using.
  intros [[Hm _] _]. unfold ID_String. destruct (FormatUint (Millis a)) as [|b s] eqn:Es; [discriminate|].
  assert (b <> "m"%byte /\ b <> "M"%byte) as [H1 H2].
  { split; intros ->; eapply (FormatUint_no_byte (Millis a)); [| |rewrite Es; left| | |rewrite Es; left]; done. }
  cbn [app ToUpper]. destruct b; try discriminate; try done; destruct (s ++ _) as [|[]]; discriminate.
Qed.

(** The commands of a stream append its entries. *)
Lemma xadd_all ms k ks0 es : Keyspace.wf ks0 -> look ks0 k = None -> Forall (fun it => Fields it <> ∅) es ->
  forall i sids st ks, building k st ks0 ks -> Stream.waiters st = [] -> Forall2 carries es sids -> StronglySorted id_lt sids ->
  (Stream.entries st <> [] -> Forall (fun a => id_lt (lastID st) a) sids) ->
  exists ks' st', apply_from ms i ((fun item => str "XADD" :: k :: Stream.ID item :: flatten_pairs (iter _ (Fields item))) <$> es) ks = Some (Ok ks') /\
    building k st' ks0 ks' /\ (fun it => (Stream.ID it, Fields it)) <$> Stream.entries st' = (fun it => (Stream.ID it, Fields it)) <$> (Stream.entries st ++ es).
Proof using iter_perm.
  intros Hwf Hk. induction es as [|e es IH]; intros HF i sids st ks HB Hw HC HS Hlt; cbn [fmap list_fmap apply_from].
  { exists ks, st. by rewrite app_nil_r. }
  apply Forall_cons in HF as [Hne HF]. inversion HC as [|? a ? sids' [Hv Hid] HC']; subst. apply StronglySorted_inv in HS as [HS Ha].
  set (fv := flatten_pairs (iter _ (Fields e))).
  assert (applyCmd (ms i) (str "XADD" :: k :: Stream.ID e :: fv) ks =
    Some (handleXAdd NumErrorText (base (tick (around (ms i)) 0)) (k :: Stream.ID e :: fv) ks)) as -> by reflexivity.
  cbn [mbind option_bind]. assert (fv <> [] /\ length fv mod 2 = 0)%nat as [Hfv Hmod].
  { subst fv. split.
    - intros E%(f_equal length). rewrite flatten_length, iter_perm, length_map_to_list in E.
      apply Hne, map_size_empty_inv. cbn [length] in E. lia.
    - rewrite flatten_length, Nat.mul_comm. apply Nat.Div0.mod_mul. }
  unfold handleXAdd. destruct (Nat.ltb_spec (length (k :: Stream.ID e :: fv)) 4) as [Hl|_].
  { exfalso. destruct fv as [|x [|y fv']]; [done|discriminate Hmod|]. cbn [length] in Hl. lia. }
  change (drop 1 (k :: Stream.ID e :: fv)) with (Stream.ID e :: fv). unfold xadd_maxlen. rewrite Hid, decide_False by by apply id_not_maxlen.
  rewrite decide_False by (intros [H|H]; [by destruct fv|done]).
  assert (exists order, xadd_body NumErrorText (wall (base (tick (around (ms i)) 0))) (-1) (ID_String a) fv st =
    Ok (mkStream (Stream.entries st ++ [Stream.mkEntry (ID_String a) (Fields e) order]) a (groups st) [] (chans st) (pes st), writes (BulkString (ID_String a)))) as [order Hb].
  { pose proof (xadd_flatten (iter _ (Fields e)) ∅ []) as Hx. rewrite fields_copy in Hx. fold fv in Hx. unfold xadd_body.
    destruct (xadd_fields fv ∅ []) as [m order]. cbn [fst] in Hx. subst m. exists order.
    rewrite Add_given by (done || intros Hn; specialize (Hlt Hn); by inversion Hlt). done. }
  destruct (open_stream_building (base (tick (around (ms i)) 0)) k _ ks0 ks st _ _ Hwf Hk HB Hb) as (ks1 & E1 & HG).
  change (arg (k :: ID_String a :: fv) 0) with k. rewrite E1.
  destruct (IH HF (S i) sids' _ ks1 (or_intror HG) eq_refl HC' HS) as (ks2 & st2 & E2 & HB2 & He); [done|].
  exists ks2, st2. split; [exact E2|]. split; [done|]. rewrite He. cbn [Stream.entries]. rewrite <- app_assoc, !fmap_app. csimpl. by rewrite Hid.
Qed.

(** *** Any type *)

(** A container that has lost its last element; its key stays. *)
Definition vacant (e : Entry) : bool :=
  match Keyspace.Value_ e with
  | Keyspace.VHash h => HashDs.Len h =? 0
  | Keyspace.VList l => ListDs.Len l =? 0
  | Keyspace.VSet s => SetDs.Card s =? 0
  | Keyspace.VZSet z => SkipList.Len z =? 0
  | Keyspace.VStream s => Stream.Len s =? 0
  | Keyspace.VString _ | Keyspace.VVector _ => false
  end.

(** An entry the dump can carry: one that a snapshot can, without an entry of a
    stream that has no fields. *)
Definition transferable (e : Entry) : Prop :=
  dumpable e /\ match Keyspace.Value_ e with Keyspace.VStream s => Forall (fun it => Fields it <> ∅) (Stream.entries s) | _ => True end.

(** The replica got the entry, unless it is vacant. *)
Definition received (k : bytes) (e : Entry) (ks ks' : Keyspace) : Prop :=
  if vacant e then ks' = ks else exists v, same_value (Keyspace.Value_ e) v /\ gains k (Keyspace.Type_ e) v ks ks'.

(** The commands of an entry. *)
Definition carried (ms : nat -> moment) (k : bytes) (e : Entry) (ks : Keyspace) (r : res fault (list (list bytes))) : Prop :=
  exists cmds, r = Ok cmds /\ forall i, exists ks', apply_from ms i cmds ks = Some (Ok ks') /\ received k e ks ks'.

(** One command, or none. *)
Lemma carried_one ms k e ks cmd args : vacant e = bool_decide (args = []) ->
  (args <> [] -> forall m, exists ks' ans v, applyCmd m (cmd :: k :: args) ks = Some (Ok (ks', ans)) /\
     same_value (Keyspace.Value_ e) v /\ gains k (Keyspace.Type_ e) v ks ks') ->
  carried ms k e ks (Ok (unless_empty cmd k args)).
Proof using.
  intros Hv H. eexists. split; [done|]. intros i. unfold received. rewrite Hv. destruct args as [|x args]; cbn [unless_empty].
  - exists ks. by rewrite bool_decide_true.
  - destruct (H ltac:(done) (ms i)) as (ks' & ans & v & E & Hs & HG). exists ks'. cbn [apply_from]. rewrite E. cbn [mbind option_bind].
    split; [done|]. rewrite bool_decide_false by done. by exists v.
Qed.

Lemma flatten_nil kvs : bool_decide (flatten_pairs kvs = []) = bool_decide (kvs = []).
Proof using. by destruct kvs as [|[]]. Qed.

(** The shape of all commands that create their key. *)
Lemma created {T} m cmd (e : Entry) k args c t conv wrap (new : T) body ks x ans :
  applyCmd m (cmd :: k :: args) ks = Some (creating c k t conv wrap new body ks) ->
  Keyspace.wf ks -> look ks k = None -> conv (wrap new) = Some new -> body new = Ok (x, ans) ->
  Keyspace.Type_ e = t -> same_value (Keyspace.Value_ e) (wrap x) ->
  exists ks' ans v, applyCmd m (cmd :: k :: args) ks = Some (Ok (ks', ans)) /\
     same_value (Keyspace.Value_ e) v /\ gains k (Keyspace.Type_ e) v ks ks'.
Proof using.
  intros -> Hwf Hk Hc Hb -> Hs. destruct (creating_gains c k t conv wrap new body ks x ans Hwf Hk Hc Hb) as (ks' & E & HG).
  rewrite E. by exists ks', ans, (wrap x).
Qed.

Section Entry.
Context (ms : nat -> moment) (k : bytes) (e : Entry) (ks : Keyspace).
Context (Hwf : Keyspace.wf ks) (Hk : look ks k = None).

Lemma string_carried s : Keyspace.Type_ e = TypeString -> Keyspace.Value_ e = Keyspace.VString s ->
  carried ms k e ks (Ok [[str "SET"; k; s]]).
Proof using Hwf Hk.
  intros Ht Hv. eexists. split; [done|]. intros i. eexists. split; [reflexivity|]. unfold received, vacant. rewrite Hv, Ht.
  exists (Keyspace.VString s). split; [done|]. by apply set_gains.
Qed.

Lemma hash_carried h : Keyspace.Type_ e = TypeHash -> Keyspace.Value_ e = Keyspace.VHash h ->
  carried ms k e ks (Ok (unless_empty (str "HSET") k (flatten_pairs (iter _ (GetAll h))))).
Proof using Hwf Hk iter_perm.
  intros Ht Hv. destruct h as [m]. apply carried_one.
  - unfold vacant. rewrite Hv, flatten_nil. unfold HashDs.Len. cbn [fields]. apply eq_true_iff_eq.
    rewrite Z.eqb_eq, bool_decide_eq_true. rewrite <- (hash_copy iter iter_perm m) at 1. split.
    + intros H. apply length_zero_iff_nil. rewrite iter_perm, length_map_to_list. rewrite hash_copy in H by done.
      unfold GetAll. cbn [fields]. change (foldl _ ∅ (map_to_list m)) with (assign_all (map_to_list m)). rewrite (assign_all_map m) by done. lia.
    + intros ->. cbn [foldl]. by rewrite map_size_empty.
  - intros Hne m'. eapply (created m' (str "HSET") e k _ (base (tick (around m') 0)) TypeHash as_hash Keyspace.VHash NewHash _ ks); try done.
    + transitivity (Some (handleHSet (base (tick (around m') 0)) (k :: flatten_pairs (iter _ (GetAll (mkHash m)))) ks)); [reflexivity|].
      unfold handleHSet. rewrite decide_False; [reflexivity|]. apply pairs_even. intros E. by rewrite E in Hne.
    + cbn [drop]. rewrite (surjective_pairing (hset_loop _ _ _)). reflexivity.
    + rewrite Hv. cbn [same_value]. rewrite drop_0, hset_flatten. unfold NewHash. by rewrite restore_hash, hash_copy.
Qed.

Lemma list_carried l : Keyspace.Type_ e = TypeList -> Keyspace.Value_ e = Keyspace.VList l -> Z.of_nat (length (items l)) < 2 ^ 63 ->
  carried ms k e ks (Ok (unless_empty (str "RPUSH") k (ListDs.Range l 0 (-1)))).
Proof using Hwf Hk.
  intros Ht Hv Hb. rewrite whole_list by done. apply carried_one.
  - unfold vacant. rewrite Hv. unfold ListDs.Len. by destruct (items l).
  - intros Hne m. destruct l as [[|x l]]; [done|].
    eapply (created m (str "RPUSH") e k _ (base (tick (around m) 0)) TypeList as_list Keyspace.VList NewList _ ks); try done.
    by rewrite Hv.
Qed.

Lemma set_carried s : Keyspace.Type_ e = TypeSet -> Keyspace.Value_ e = Keyspace.VSet s ->
  carried ms k e ks (Ok (unless_empty (str "SADD") k (Members s))).
Proof using Hwf Hk.
  intros Ht Hv. destruct s as [M]. apply carried_one.
  - unfold vacant. rewrite Hv. unfold SetDs.Card, Members. cbn [members]. unfold size, set_size. cbn. by destruct (elements M).
  - intros Hne m. destruct (Members (mkSet M)) as [|x l] eqn:EM; [done|].
    eapply (created m (str "SADD") e k _ (base (tick (around m) 0)) TypeSet as_set Keyspace.VSet NewSet _ ks); try done.
    + cbn [drop]. rewrite (surjective_pairing (SetDs.Add _ _)). reflexivity.
    + rewrite Hv. cbn [same_value]. rewrite <- EM. unfold SetDs.Add at 1. rewrite Add_list. unfold NewSet. rewrite restore_set. f_equal. unfold Members. cbn [members]. by rewrite list_to_set_elements_L, union_empty_l_L.
Qed.

Lemma zset_carried z : Keyspace.Type_ e = TypeZSet -> Keyspace.Value_ e = Keyspace.VZSet z ->
  (exists ps es, repr z ps es /\ Z.of_nat (length es) < 2 ^ 63 - 1) -> carried ms k e ks (dump_entry k e).
Proof using Hwf Hk float_roundtrip.
  intros Ht Hv (ps & es & Hr & Hb). unfold dump_entry. rewrite Ht, Hv, (Range_spec z ps es 0 (-1) false Hr) by (unfold is_int64; lia).
  assert (slice_of 0 (-1) es = es) as -> by apply slice_whole. cbn [mbind res_bind]. apply carried_one.
  - unfold vacant. rewrite Hv, flatten_nil. unfold SkipList.Len. rewrite (r_length _ _ _ Hr). by destruct es.
  - intros Hne m. destruct (zadd_flatten (draws m) es 0 [] NewSkipList [] 0 repr_new) as (z' & ps' & ans & E & Hr'); [apply Hr|done|].
    eapply (created m (str "ZADD") e k _ (base (tick (around m) 0)) TypeZSet as_zset Keyspace.VZSet NewSkipList _ ks); try done.
    + transitivity (Some (handleZAdd ParseFloat (draws m) (base (tick (around m) 0)) (k :: flatten_pairs ((fun it => (FormatFloat (Score it), Member it)) <$> es)) ks)); [reflexivity|].
      unfold handleZAdd. rewrite decide_False; [reflexivity|]. apply pairs_even. intros E'. by rewrite E' in Hne.
    + cbn [drop]. rewrite drop_0. exact E.
    + rewrite Hv. by exists ps, ps', es.
Qed.

Lemma stream_carried s : Keyspace.Type_ e = TypeStream -> Keyspace.Value_ e = Keyspace.VStream s -> Stream.wf s ->
  Forall (fun it => Fields it <> ∅) (Stream.entries s) -> carried ms k e ks (dump_entry k e).
Proof using Hwf Hk iter_perm.
  intros Ht Hv Hs HF. unfold dump_entry. rewrite Ht, Hv, whole_stream by done. destruct Hs as [[sids HL] _].
  destruct (log_ids_carries s sids HL) as [HC HS]. eexists. split; [done|]. intros i.
  destruct (xadd_all ms k ks (Stream.entries s) Hwf Hk HF i sids NewStream ks (or_introl (conj eq_refl eq_refl)) eq_refl HC HS) as (ks' & st' & E & HB & He); [done|].
  exists ks'. split; [exact E|]. unfold received, vacant. rewrite Hv, Ht. unfold Stream.Len. cbn [Stream.entries NewStream app] in He.
  destruct HB as [[-> ->]|HG].
  - symmetry in He. apply fmap_nil_inv in He. by rewrite He.
  - destruct (Stream.entries s) as [|x es] eqn:Es; [by injection E as ->|]. cbn [length]. rewrite (proj2 (Z.eqb_neq _ _)) by lia.
    exists (Keyspace.VStream st'). split; [|done]. cbn [same_value]. by rewrite Es, He.
Qed.

(** Every entry is rebuilt by its commands. *)
Lemma entry_carried : transferable e -> carried ms k e ks (dump_entry k e).
Proof using Hwf Hk iter_perm float_roundtrip.
  intros [[Ht Hd] HF]. destruct (Keyspace.Value_ e) as [s|h|l|s|z|v|s] eqn:Ev; cbn [type_of] in Ht.
  - unfold dump_entry. rewrite Ht, Ev. by apply string_carried.
  - unfold dump_entry. rewrite Ht, Ev. by apply hash_carried.
  - unfold dump_entry. rewrite Ht, Ev. by apply list_carried.
  - unfold dump_entry. rewrite Ht, Ev. by apply set_carried.
  - by eapply zset_carried.
  - done.
  - by eapply stream_carried.
Qed.

End Entry.

(** ** All entries *)

(** What the replica holds for an entry: its type and value, and no expiry time. *)
Definition copied (e e' : Entry) : Prop :=
  Keyspace.Type_ e' = Keyspace.Type_ e /\ same_value (Keyspace.Value_ e) (Keyspace.Value_ e') /\ Keyspace.ExpiresAt e' = 0.

Definition sent (t : Z) (e : Entry) : bool := negb (Keyspace.IsExpired e t) && negb (vacant e).

Lemma gains_size k t v ks ks' : Keyspace.wf ks -> gains k t v ks ks' -> (size (abs ks') <= S (size (abs ks)))%nat.
Proof using.
  intros Hwf (Hwf' & _ & u & a & Hl). assert (abs ks' = <[k := mkE t v 0 u a]> (abs ks)) as ->.
  { apply map_eq. intros k'. rewrite abs_lookup, Hl by done. destruct (decide (k' = k)) as [->|]; [by rewrite lookup_insert_eq|].
    by rewrite lookup_insert_ne, abs_lookup by done. }
  rewrite map_size_insert. case_match; unfold id; lia.
Qed.

Lemma received_spec k e ks ks' : Keyspace.wf ks -> look ks k = None -> received k e ks ks' ->
  Keyspace.wf ks' /\ (size (abs ks') <= S (size (abs ks)))%nat /\ (counted ks -> room ks -> counted ks') /\
  (forall k', k' <> k -> look ks' k' = look ks k') /\
  (if vacant e then look ks' k = None else exists e', look ks' k = Some e' /\ copied e e').
Proof using.
  intros Hwf Hk. unfold received. destruct (vacant e); [intros ->; by auto|]. intros (v & Hs & HG).
  pose proof (gains_size _ _ _ _ _ Hwf HG). destruct HG as (? & ? & u & a & Hl). split; [done|]. split; [done|]. split; [done|].
  split; [intros k' Hne; rewrite Hl; by rewrite decide_False|]. eexists. rewrite Hl, decide_True by done. by repeat split.
Qed.

(** PEXPIREAT is not a command: the replica replies with an error. *)
Lemma expiry_lost ms i k e ks : apply_from ms i (dump_expiry k e) ks = Some (Ok ks).
Proof using. unfold dump_expiry. destruct (0 <? _); reflexivity. Qed.

(** The commands of a shard, or of several, on a replica without the keys. *)
Lemma dump_entries_spec ms t kvs : Forall (fun kv => transferable kv.2) kvs -> NoDup kvs.*1 ->
  exists cmds, dump_entries t kvs = Ok cmds /\
    forall i ks, Keyspace.wf ks -> (forall k, k ∈ kvs.*1 -> look ks k = None) ->
    exists ks', apply_from ms i cmds ks = Some (Ok ks') /\ Keyspace.wf ks' /\
      (counted ks -> Z.of_nat (size (abs ks) + length kvs) < 2 ^ 63 - 1 -> counted ks') /\
      (forall k, k ∉ kvs.*1 -> look ks' k = look ks k) /\
      (forall k e, (k, e) ∈ kvs -> if sent t e then exists e', look ks' k = Some e' /\ copied e e' else look ks' k = None).
Proof using iter_perm float_roundtrip.
  induction kvs as [|[k e] kvs IH]; intros HT HN.
  { exists []. split; [done|]. intros i ks Hwf _. exists ks. split; [done|]. split; [done|]. split; [done|]. split; [done|]. intros k e []%elem_of_nil. }
  apply Forall_cons in HT as [He HT]. csimpl in HN. apply NoDup_cons in HN as [Hnk HN]. destruct (IH HT HN) as (rest & Er & Hrest).
  cbn [dump_entries]. unfold sent at 1. destruct (IsExpired e t) eqn:Ex.
  - exists rest. split; [done|]. intros i ks Hwf Hno. destruct (Hrest i ks Hwf) as (ks' & E & Hwf' & Hc & Hout & Hin).
    { intros k' Hk'. apply Hno. csimpl. by right. }
    exists ks'. split; [done|]. split; [done|]. split; [intros H1 H2; apply Hc; [done|cbn [length] in H2; lia]|]. split.
    + intros k' Hk'. csimpl in Hk'. apply not_elem_of_cons in Hk' as [_ Hk']. by apply Hout.
    + intros k' e' [[= -> ->]|H]%elem_of_cons; [|by apply Hin]. unfold sent. rewrite Ex. cbn [negb andb]. rewrite Hout by done. apply Hno. csimpl. by left.
  - destruct (entry_carried ms k e NewKeyspace NewKeyspace_wf) as (cmds & Ed & _); [by apply NewKeyspace_look|done|].
    rewrite Ed, Er. cbn [mbind res_bind]. eexists. split; [done|]. intros i ks Hwf Hno.
    assert (look ks k = None) as Hk by (apply Hno; csimpl; by left).
    destruct (entry_carried ms k e ks Hwf Hk He) as (cmds' & Ed' & Hc1). rewrite Ed in Ed'. injection Ed' as <-.
    destruct (Hc1 i) as (ks1 & E1 & Hr). destruct (received_spec k e ks ks1 Hwf Hk Hr) as (Hwf1 & Hsz & Hcnt & Hout1 & Hin1).
    destruct (Hrest (i + length cmds + length (dump_expiry k e))%nat ks1 Hwf1) as (ks' & E & Hwf' & Hc & Hout & Hin).
    { intros k' Hk'. rewrite Hout1 by (intros ->; done). apply Hno. csimpl. by right. }
    exists ks'. rewrite (apply_from_app ms cmds _ i ks ks1 E1), (apply_from_app ms _ _ _ ks1 ks1 (expiry_lost _ _ _ _ _)).
    split; [done|]. split; [done|]. cbn [length]. split; [intros H1 H2; apply Hc; [apply Hcnt; [done|unfold room; lia]|lia]|]. split.
    + intros k' Hk'. csimpl in Hk'. apply not_elem_of_cons in Hk' as [Hne Hk']. rewrite Hout, Hout1 by done. done.
    + intros k' e' [[= -> ->]|H]%elem_of_cons; [|by apply Hin]. unfold sent. rewrite Ex, Hout by done. cbn [negb andb]. by destruct (vacant e).
Qed.

Lemma dump_entries_app t l1 l2 :
  dump_entries t (l1 ++ l2) = (r1 ← dump_entries t l1; r2 ← dump_entries t l2; Ok (r1 ++ r2)).
Proof using.
  induction l1 as [|[k e] l1 IH]; cbn [dump_entries app mbind res_bind]; [by destruct (dump_entries t l2)|].
  destruct (IsExpired e t); [done|]. destruct (dump_entry k e) as [d|]; cbn [mbind res_bind]; [|done]. rewrite IH.
  destruct (dump_entries t l1), (dump_entries t l2); cbn [mbind res_bind]; rewrite <- ?app_assoc; done.
Qed.

Lemma dump_all_entries t shs : dump_all t shs = dump_entries t (concat (iter _ <$> shs)).
Proof using.
  induction shs as [|m shs IH]; [done|]. cbn [dump_all fmap list_fmap concat]. by rewrite dump_entries_app, IH.
Qed.

(** A full resynchronisation. *)
Lemma resync t ks : Keyspace.wf ks -> (forall k e, look ks k = Some e -> transferable e) ->
  exists cmds, DumpAllCommands t ks = Ok cmds /\ forall ms i, exists rep, apply_from ms i cmds NewKeyspace = Some (Ok rep) /\ Keyspace.wf rep /\
    (Z.of_nat (size (abs ks)) < 2 ^ 63 - 1 -> counted rep) /\
    forall k, match look ks k with
              | Some e => if sent t e then exists e', look rep k = Some e' /\ copied e e' else look rep k = None
              | None => look rep k = None
              end.
Proof using iter_perm float_roundtrip.
  intros Hwf HT. destruct (all_entries_spec iter iter_perm ks Hwf) as [Hin HN]. unfold DumpAllCommands. rewrite dump_all_entries.
  fold (all_entries iter ks).
  assert (Forall (fun kv => transferable kv.2) (all_entries iter ks)) as HTall by (apply Forall_forall; intros [k e] H; apply Hin in H; by eapply HT).
  assert (length (all_entries iter ks) = size (abs ks)) as Hlen.
  { rewrite <- length_map_to_list. apply Permutation_length, NoDup_Permutation; [by eapply NoDup_fmap_1|apply NoDup_map_to_list|].
    intros [k e]. rewrite Hin, elem_of_map_to_list. by rewrite abs_lookup. }
  destruct (dump_entries_spec (fun _ => mkMoment (fun _ _ => 0) (quiet (fun _ => mkSC (mkClock 0 0 0) 0 0 0)) 0) t _ HTall HN) as (cmds & E & _).
  exists cmds. split; [done|]. intros ms i. destruct (dump_entries_spec ms t _ HTall HN) as (cmds' & E' & HA).
  rewrite E in E'. injection E' as <-. destruct (HA i NewKeyspace NewKeyspace_wf) as (rep & Ea & Hwf' & Hc & Hout & Hke); [intros; apply NewKeyspace_look|].
  exists rep. split; [done|]. split; [done|]. split.
  { intros Hb. apply Hc; [unfold counted|]; rewrite NewKeyspace_abs, map_size_empty; [done|lia]. }
  intros k. destruct (look ks k) as [e|] eqn:Ek; [apply Hke, Hin, Ek|]. rewrite Hout; [apply NewKeyspace_look|].
  intros ([k' e] & -> & H)%list_elem_of_fmap. apply Hin in H. cbn [fst] in Ek. congruence.
Qed.

(** C20: for a keyspace without vector keys whose other values are sound (stream
    entries with at least one field): the commands of DumpAllCommands, executed
    on an empty replica at any time, rebuild every unexpired, non-empty key with
    its type and value and no other key. Streams are compared by the identifiers
    and fields of their entries, so consumer groups, last identifiers and field
    order are not claimed; expiry times are not copied; and the commands are
    handed over as they are, not through the reader of the link, which refuses
    more than 1048576 arguments. *)
Theorem full_resync t ks : Keyspace.wf ks -> (forall k e, look ks k = Some e -> transferable e) ->
  exists cmds, DumpAllCommands t ks = Ok cmds /\ forall ms, exists rep, apply_from ms 0 cmds NewKeyspace = Some (Ok rep) /\ Keyspace.wf rep /\
    forall k, match look ks k with
              | Some e => if sent t e then exists e', look rep k = Some e' /\ copied e e' else look rep k = None
              | None => look rep k = None
              end.
Proof using iter_perm float_roundtrip.
  intros Hwf HT. destruct (resync t ks Hwf HT) as (cmds & E & H). exists cmds. split; [done|]. intros ms.
  destruct (H ms 0%nat) as (rep & Ea & Hw & _ & Hl). by exists rep.
Qed.
End FullSync.

(** ** The theorem on a concrete keyspace *)

Fixpoint pos_text (p : positive) : bytes :=
  match p with xH => [] | xO p => "0"%byte :: pos_text p | xI p => "1"%byte :: pos_text p end.
Fixpoint text_pos (s : bytes) : positive :=
  match s with [] => xH | "0"%byte :: s => xO (text_pos s) | _ :: s => xI (text_pos s) end.

(** A text for every bit pattern, in place of the decimal notation. *)
Definition sample_format (z : Z) : bytes :=
  match z with Z0 => [] | Zpos p => "+"%byte :: pos_text p | Zneg p => "-"%byte :: pos_text p end.
Definition sample_parse (s : bytes) : option Z :=
  match s with [] => Some 0 | "+"%byte :: s => Some (Zpos (text_pos s)) | _ :: s => Some (Zneg (text_pos s)) end.

Lemma sample_text p : text_pos (pos_text p) = p.
Proof. induction p as [p IH|p IH|]; cbn; by rewrite ?IH. Qed.

Lemma sample_floats s : is_nan s = false -> sample_parse (sample_format s) = Some s.
Proof. intros _. destruct s; cbn; by rewrite ?sample_text. Qed.

Definition by_key : forall V, gmap bytes V -> list (bytes * V) := fun V m => map_to_list m.
Definition no_vectors : bytes -> unit -> list (list bytes) := fun _ _ => [].

(** A master with a string that expires, a list, and a set that has become empty. *)
Definition entry_a : @Keyspace.Entry SkipList.SkipList unit := mkE TypeString (Keyspace.VString (str "x")) 90 0 0.
Definition entry_l : @Keyspace.Entry SkipList.SkipList unit := mkE TypeList (Keyspace.VList (mkList [str "1"; str "2"])) 0 0 0.
Definition entry_s : @Keyspace.Entry SkipList.SkipList unit := mkE TypeSet (Keyspace.VSet NewSet) 0 0 0.
Definition sample_master : @Keyspace.Keyspace SkipList.SkipList unit :=
  Keyspace.Set_ (Keyspace.Set_ (Keyspace.Set_ NewKeyspace 1 (str "a") entry_a) 1 (str "l") entry_l) 1 (str "s") entry_s.

Lemma Set_transferable (ks : @Keyspace.Keyspace SkipList.SkipList unit) now k e : Keyspace.wf ks ->
  (forall k e, look ks k = Some e -> transferable e) -> transferable e ->
  Keyspace.wf (Keyspace.Set_ ks now k e) /\ forall k' e', look (Keyspace.Set_ ks now k e) k' = Some e' -> transferable e'.
Proof.
  intros Hwf HT He. unfold Keyspace.Set_. assert (Keyspace.wf (match look ks k with Some _ => ks | None => addCount ks 1 end)) as Hw.
  { destruct (look ks k); [done|by apply addCount_wf]. }
  split; [by apply store_wf|]. intros k' e'. rewrite look_store by done. destruct (decide (k' = k)); [intros [= <-]; exact He|].
  destruct (look ks k); apply HT.
Qed.

Lemma sample_master_ok : Keyspace.wf sample_master /\ forall k e, look sample_master k = Some e -> transferable e.
Proof.
  assert (transferable entry_a /\ transferable entry_l /\ transferable entry_s) as (Ha & Hl & Hs) by by vm_compute.
  destruct (Set_transferable NewKeyspace 1 (str "a") entry_a NewKeyspace_wf) as [W1 T1]; [intros k e; by rewrite NewKeyspace_look|done|].
  destruct (Set_transferable _ 1 (str "l") entry_l W1 T1 Hl) as [W2 T2]. exact (Set_transferable _ 1 (str "s") entry_s W2 T2 Hs).
Qed.

Lemma full_resync_witness : exists cmds, DumpAllCommands by_key no_vectors sample_format 5 sample_master = Ok cmds /\
  forall ms, exists rep, apply_from sample_parse sample_format (fun _ s => s) ms 0 cmds NewKeyspace = Some (Ok rep) /\ Keyspace.wf rep /\
    forall k, match look sample_master k with
              | Some e => if sent 5 e then exists e', look rep k = Some e' /\ copied e e' else look rep k = None
              | None => look rep k = None
              end.
Proof.
  apply (full_resync by_key no_vectors sample_parse sample_format (fun _ s => s)).
  - intros V m. reflexivity.
  - exact sample_floats.
  - apply sample_master_ok.
  - apply sample_master_ok.
Defined.

(** ** Deviations *)

(** The replica never learns when a key expires: PEXPIREAT, with which the dump
    ends the commands of a key with an expiry time, is not a command. *)
Theorem resync_loses_expiry : forall m,
  DumpAllCommands (VectorIndex := unit) by_key no_vectors sample_format 5
    (Keyspace.Set_ NewKeyspace 1 (str "a") entry_a) =
    Ok [[str "SET"; str "a"; str "x"]; [str "PEXPIREAT"; str "a"; str "90"]] /\
  (forall ks, applyCmd (VectorIndex := unit) sample_parse sample_format (fun _ s => s) m [str "PEXPIREAT"; str "a"; str "90"] ks =
    Some (Ok (ks, reads (Error (str "ERR unknown command 'PEXPIREAT'"))))).
Proof. intros m. split; [by vm_compute|]. intros ks. reflexivity. Qed.

(** A replica that resynchronises does not clear what it had: the dump of a list
    is appended to the list of the last time. *)
Theorem resync_appends_lists : forall ms,
  let dump := [[str "RPUSH"; str "l"; str "1"; str "2"]] in
  DumpAllCommands (VectorIndex := unit) by_key no_vectors sample_format 5
    (Keyspace.Set_ NewKeyspace 1 (str "l") entry_l) = Ok dump /\
  exists rep e, apply_from (VectorIndex := unit) sample_parse sample_format (fun _ s => s) ms 0 (dump ++ dump) NewKeyspace = Some (Ok rep) /\
    look rep (str "l") = Some e /\ Keyspace.Value_ e = Keyspace.VList (mkList (str <$> ["1"; "2"; "1"; "2"]%string)).
Proof. intros ms. split; [by vm_compute|]. eexists _, _. split; [reflexivity|]. by vm_compute. Qed.
