(* ===== verification/Replication.v ===== *)
(** * Replication (internal/replication/replication.go)

    The manager of replication on the master and on the replica.  The handler of
    PSYNC runs beside the commands of other clients, so it is a process whose steps
    interleave with [Broadcast]: the sections under the lock, the writes to the
    connection and the receives from the channel of the replica.  What is written
    to a connection is a list of bytes; a connection that breaks ends the list.

    The dump and its commands are those of [FullSync]; the random identifiers and
    the clocks are arguments. *)

From stdpp Require Import gmap.
From S2P Require Import Prelude Resp SetDs HashDs ListDs Stream SkipList Keyspace Commands CommandLaws Snapshot Session StreamCommands FullSync.

(** ** State *)

Inductive Role := RoleMaster | RoleReplica.

#[global] Instance Role_eq_dec : EqDecision Role.
Proof. solve_decision. Defined.

Definition Role_text (r : Role) : bytes := match r with RoleMaster => str "master" | RoleReplica => str "slave" end.

(** The buffered channel of a replica is the list of the payloads in it. *)
Record ReplicaClient := mkReplica {
  RemoteAddr : bytes;
  ClientPort : Z;
  State : bytes;
  CmdChan : list bytes;
  Offset : Z;
  ConnectedAt : Z
}.

Definition chan_capacity : nat := 1000.

(** [stops] and [conns] are the channels and connections made so far, with whether
    they are closed; [stopReplica] and [masterConn] are indices into them. *)
Record ReplicationManager := mkRM {
  Role_ : Role;
  MasterReplID : bytes;
  MasterOffset : Z;
  MasterHost : bytes;
  MasterPort : Z;
  MasterAuth : bytes;
  ReadOnly : bool;
  ListeningPort : Z;
  replicas : gmap bytes ReplicaClient;
  replicaCounter : Z;
  masterConn : option nat;
  stopReplica : option nat;
  syncState : bytes;
  lastMasterPing : option Z;
  stops : list bool;
  conns : list bool
}.

Implicit Types rm : ReplicationManager.

Definition NewReplicationManager (replID : bytes) (listeningPort : Z) : ReplicationManager :=
  mkRM RoleMaster replID 0 [] 0 [] false listeningPort ∅ 0 None None (str "disconnected") None [] [].

Definition set_replicas (r : gmap bytes ReplicaClient) (counter offset : Z) rm : ReplicationManager :=
  mkRM (Role_ rm) (MasterReplID rm) offset (MasterHost rm) (MasterPort rm) (MasterAuth rm) (ReadOnly rm) (ListeningPort rm)
    r counter (masterConn rm) (stopReplica rm) (syncState rm) (lastMasterPing rm) (stops rm) (conns rm).
Definition set_role (r : Role) (readOnly : bool) (host : bytes) (port : Z) (auth : bytes) rm : ReplicationManager :=
  mkRM r (MasterReplID rm) (MasterOffset rm) host port auth readOnly (ListeningPort rm)
    (replicas rm) (replicaCounter rm) (masterConn rm) (stopReplica rm) (syncState rm) (lastMasterPing rm) (stops rm) (conns rm).
Definition set_link (conn : option nat) (state : bytes) (ping : option Z) (cs : list bool) rm : ReplicationManager :=
  mkRM (Role_ rm) (MasterReplID rm) (MasterOffset rm) (MasterHost rm) (MasterPort rm) (MasterAuth rm) (ReadOnly rm) (ListeningPort rm)
    (replicas rm) (replicaCounter rm) conn (stopReplica rm) state ping (stops rm) cs.
Definition set_stop (stop : option nat) (ss : list bool) rm : ReplicationManager :=
  mkRM (Role_ rm) (MasterReplID rm) (MasterOffset rm) (MasterHost rm) (MasterPort rm) (MasterAuth rm) (ReadOnly rm) (ListeningPort rm)
    (replicas rm) (replicaCounter rm) (masterConn rm) stop (syncState rm) (lastMasterPing rm) ss (conns rm).
Definition set_history (replID : bytes) (offset : Z) rm : ReplicationManager :=
  mkRM (Role_ rm) replID offset (MasterHost rm) (MasterPort rm) (MasterAuth rm) (ReadOnly rm) (ListeningPort rm)
    (replicas rm) (replicaCounter rm) (masterConn rm) (stopReplica rm) (syncState rm) (lastMasterPing rm) (stops rm) (conns rm).

(** ** The master *)

(** The payload of a command on the link. *)
Definition payload (args : list bytes) : bytes := WriteStringArray (Some args).

(** [select { case rep.CmdChan <- payload: default: }]. *)
Definition offer (p : bytes) (r : ReplicaClient) : ReplicaClient :=
  if (length (CmdChan r) <? chan_capacity)%nat
  then mkReplica (RemoteAddr r) (ClientPort r) (State r) (CmdChan r ++ [p]) (Offset r) (ConnectedAt r) else r.

Definition Broadcast (args : list bytes) rm : ReplicationManager :=
  if decide (Role_ rm <> RoleMaster \/ replicas rm = ∅) then rm
  else
    let p := payload args in
    set_replicas (offer p <$> replicas rm) (replicaCounter rm) (int64 (MasterOffset rm + Z.of_nat (length p))) rm.

(** [HandlePSync] between its critical sections: what it will write next, and what
    it has written to the connection. *)
Inductive psync_phase := Header (replID : bytes) (offset : Z) | Dumping | Streaming | Closed.
Record psync := mkPsync { repID : bytes; phase : psync_phase; written : bytes }.

(** The first critical section. *)
Definition psync_register (remoteAddr : bytes) (listeningPort now : Z) rm : ReplicationManager * psync :=
  let counter := int64 (replicaCounter rm + 1) in
  let id := str "replica_" ++ FormatInt counter in
  let rep := mkReplica remoteAddr listeningPort (str "syncing") [] 0 now in
  (set_replicas (<[id := rep]> (replicas rm)) counter (MasterOffset rm) rm,
   mkPsync id (Header (MasterReplID rm) (MasterOffset rm)) []).

(** What happens next on the connection: the header is written; the dump is
    written and the replica marked online; a payload is received and written; the
    timer fires and a PING is written; or a write fails and the handler returns. *)
Inductive psync_event := WriteHeader | WriteDump (cmds : list (list bytes)) | Receive | Heartbeat | Break.

Definition set_state (s : bytes) (r : ReplicaClient) : ReplicaClient :=
  mkReplica (RemoteAddr r) (ClientPort r) s (CmdChan r) (Offset r) (ConnectedAt r).
Definition set_chan (ch : list bytes) (r : ReplicaClient) : ReplicaClient :=
  mkReplica (RemoteAddr r) (ClientPort r) (State r) ch (Offset r) (ConnectedAt r).

Definition header_text (replID : bytes) (offset : Z) : bytes :=
  str "FULLRESYNC " ++ replID ++ str " " ++ FormatInt offset.

(** A step of the handler; [None]: it cannot happen now. *)
Definition HandlePSync (ev : psync_event) (st : ReplicationManager * psync) : option (ReplicationManager * psync) :=
  let '(rm, p) := st in
  match ev, phase p with
  | WriteHeader, Header replID offset =>
      Some (rm, mkPsync (repID p) Dumping (written p ++ WriteSimpleString (header_text replID offset)))
  | WriteDump cmds, Dumping =>
      Some (set_replicas (alter (set_state (str "online")) (repID p) (replicas rm)) (replicaCounter rm) (MasterOffset rm) rm,
            mkPsync (repID p) Streaming (written p ++ concat (payload <$> cmds)))
  | Receive, Streaming =>
      r ← replicas rm !! repID p;
      match CmdChan r with
      | x :: ch =>
          Some (set_replicas (alter (set_chan ch) (repID p) (replicas rm)) (replicaCounter rm) (MasterOffset rm) rm,
                mkPsync (repID p) Streaming (written p ++ x))
      | [] => None
      end
  | Heartbeat, Streaming => Some (rm, mkPsync (repID p) Streaming (written p ++ payload [str "PING"]))
  | Break, Closed => None
  | Break, _ =>
      Some (set_replicas (delete (repID p) (replicas rm)) (replicaCounter rm) (MasterOffset rm) rm, mkPsync (repID p) Closed (written p))
  | _, _ => None
  end.

(** ** The replica *)

(** [close(ch)]. *)
Definition close_stop (c : nat) (ss : list bool) : res fault (list bool) :=
  match ss !! c with Some false => Ok (<[c := true]> ss) | _ => Err (Fault PanicClose) end.

(** The new manager, and the channel of the loop that is started. *)
Definition ConnectToMaster (host : bytes) (port : Z) (auth : bytes) rm : res fault (ReplicationManager * nat) :=
  ss ← match stopReplica rm with Some c => close_stop c (stops rm) | None => Ok (stops rm) end;
  let rm := set_role RoleReplica true host port auth rm in
  let rm := set_link (masterConn rm) (str "connecting") (lastMasterPing rm) (conns rm) rm in
  Ok (set_stop (Some (length ss)) (ss ++ [false]) rm, length ss).

Definition PromoteToMaster (newID : bytes) rm : res fault ReplicationManager :=
  if decide (Role_ rm = RoleMaster) then Ok rm
  else
    ss ← match stopReplica rm with Some c => close_stop c (stops rm) | None => Ok (stops rm) end;
    let cs := match masterConn rm with Some c => <[c := true]> (conns rm) | None => conns rm end in
    let rm := set_stop None ss rm in
    let rm := set_role RoleMaster false [] 0 [] rm in
    let rm := set_link None (str "disconnected") (lastMasterPing rm) cs rm in
    Ok (set_history newID (MasterOffset rm) rm).

(** [replicaLoop]: the section after a connection was made, and the one after it
    ended.  The loop dials again until its channel is closed. *)
Definition replica_connected rm : ReplicationManager :=
  set_link (Some (length (conns rm))) (str "handshake") (lastMasterPing rm) (conns rm ++ [false]) rm.
Definition replica_disconnected (conn : nat) rm : ReplicationManager :=
  set_link (masterConn rm) (str "disconnected") (lastMasterPing rm) (<[conn := true]> (conns rm)) rm.

(** The pause before the next attempt, in seconds: doubled after each failure. *)
Definition next_backoff (backoff : Z) : Z := if backoff <? 10 then backoff * 2 else backoff.

Inductive link_error :=
| LinkRead (e : rerr)
| LinkAuth (text : bytes)
| LinkPing
| LinkPort
| LinkCapa
| LinkPsync
| LinkUnexpected (text : bytes).

(** The course of [performHandshakeAndSync]: the manager after it, what it wrote,
    the commands it gave to [applyCmdFunc], and the error it returned. *)
Record link_log := mkLog { manager : ReplicationManager; sent_bytes : bytes; applied : list (list bytes); outcome : res link_error unit }.

(** Send a request and read the reply; the error comes with what has been sent. *)
Definition request (sent : bytes) (args : list bytes) (failed : rerr -> link_error) (check : Resp.Value -> option link_error) (inp : bytes)
    : res (bytes * link_error) (bytes * bytes * Resp.Value) :=
  let sent := sent ++ payload args in
  match ReadValue inp with
  | Err e => Err (sent, failed e)
  | Ok (v, inp) => match check v with Some x => Err (sent, x) | None => Ok (sent, inp, v) end
  end.

Definition unless (b : bool) (x : link_error) : option link_error := if b then None else Some x.

Definition authenticate (auth inp : bytes) : res (bytes * link_error) (bytes * bytes) :=
  if decide (auth = []) then Ok ([], inp)
  else
    '(sent, inp, _) ← request [] [str "AUTH"; auth] LinkRead
      (fun v => if decide (vType v = ErrorPrefix) then Some (LinkAuth (vStr v)) else None) inp;
    Ok (sent, inp).

Definition handshake (auth : bytes) rm (inp : bytes) : res (bytes * link_error) (bytes * bytes * Resp.Value) :=
  '(sent, inp) ← authenticate auth inp;
  '(sent, inp, _) ← request sent [str "PING"] (fun _ => LinkPing)
    (fun v => unless (bool_decide (vStr v = str "PONG") || bool_decide (vType v = SimpleStringPrefix)) LinkPing) inp;
  let portStr := if ListeningPort rm <=? 0 then str "7379" else FormatInt (ListeningPort rm) in
  '(sent, inp, _) ← request sent [str "REPLCONF"; str "listening-port"; portStr] (fun _ => LinkPort)
    (fun v => unless (bool_decide (vStr v = str "OK")) LinkPort) inp;
  '(sent, inp, _) ← request sent [str "REPLCONF"; str "capa"; str "psync2"] (fun _ => LinkCapa)
    (fun v => unless (bool_decide (vStr v = str "OK")) LinkCapa) inp;
  request sent [str "PSYNC"; str "?"; str "-1"] (fun _ => LinkPsync)
    (fun v => unless (HasPrefix (vStr v) (str "FULLRESYNC")) (LinkUnexpected (vStr v))) inp.

(** The fields of the reply to PSYNC. *)
Definition synchronised (now : Z) (reply : bytes) rm : ReplicationManager :=
  match Prelude.Fields reply with
  | _ :: replID :: off :: _ =>
      let rm := set_history replID (match ParseInt off with Ok o => o | Err _ => MasterOffset rm end) rm in
      set_link (masterConn rm) (str "online") (Some now) (conns rm) rm
  | _ => rm
  end.

(** The streaming loop: [stopped i] tells whether the channel is closed at the
    [i]-th test of it, [at_ i] is the time of the [i]-th command. *)
Fixpoint stream_loop (fuel : nat) (stopped : nat -> bool) (at_ : nat -> Z) (i : nat) (inp : bytes) rm (done : list (list bytes))
    : ReplicationManager * list (list bytes) * res link_error unit :=
  match fuel with
  | O => (rm, done, Err (LinkRead Resp.OutOfFuel))
  | S fuel' =>
      if stopped i then (rm, done, Ok tt)
      else
        match ReadCommand inp with
        | Err e => (rm, done, Err (LinkRead e))
        | Ok (cmdArgs, inp) =>
            match cmdArgs with
            | [] => stream_loop fuel' stopped at_ (S i) inp rm done
            | name :: _ =>
                if decide (ToUpper name = str "PING")
                then stream_loop fuel' stopped at_ (S i) inp (set_link (masterConn rm) (syncState rm) (Some (at_ i)) (conns rm) rm) done
                else stream_loop fuel' stopped at_ (S i) inp rm (done ++ [cmdArgs])
            end
        end
  end.

(** Each command takes at least one byte. *)
Definition performHandshakeAndSync (auth : bytes) (stopped : nat -> bool) (now : Z) (at_ : nat -> Z) (inp : bytes) rm : link_log :=
  match handshake auth rm inp with
  | Err (sent, x) => mkLog rm sent [] (Err x)
  | Ok (sent, inp, v) =>
      let '(rm, done, r) := stream_loop (S (length inp)) stopped at_ 0 inp (synchronised now (vStr v) rm) [] in
      mkLog rm sent done r
  end.

(** ** The commands REPLICAOF and ROLE (internal/engine/engine.go)

    [pass] is the password of the engine, with which it authenticates to its
    master; [newID] is the identifier a promotion draws. *)

Definition cmd_replicaof (newID pass : bytes) (args : list bytes) (repl : option ReplicationManager)
    : res fault (option ReplicationManager * (Resp.Value * bool)) :=
  match args with
  | host :: port :: _ =>
      if decide (ToUpper host = str "NO" /\ ToUpper port = str "ONE") then
        match repl with
        | Some rm => rm ← PromoteToMaster newID rm; Ok (Some rm, reads OK)
        | None => Ok (None, reads OK)
        end
      else
        match ParseInt port with
        | Err _ => Ok (repl, reads (Error (str "ERR invalid port")))
        | Ok p =>
            match repl with
            | Some rm => '(rm, _) ← ConnectToMaster host p pass rm; Ok (Some rm, reads OK)
            | None => Ok (None, reads OK)
            end
        end
  | _ => Ok (repl, reads (Error (str "ERR wrong number of arguments for 'replicaof' command")))
  end.

Definition cmd_role (repl : option ReplicationManager) : Resp.Value * bool :=
  match repl with
  | Some rm =>
      match Role_ rm with
      | RoleMaster => reads (Array [BulkString (str "master"); Integer (MasterOffset rm); Array []])
      | RoleReplica =>
          reads (Array [BulkString (str "slave"); BulkString (MasterHost rm); Integer (MasterPort rm); BulkString (str "up"); Integer (MasterOffset rm)])
      end
  | None => reads (Array [BulkString (str "master"); Integer 0; Array []])
  end.

(** ** The flags of the server (cmd/vortex-server/main.go) *)

Definition set_config (port : Z) (readOnly : bool) rm : ReplicationManager :=
  mkRM (Role_ rm) (MasterReplID rm) (MasterOffset rm) (MasterHost rm) (MasterPort rm) (MasterAuth rm) readOnly port
    (replicas rm) (replicaCounter rm) (masterConn rm) (stopReplica rm) (syncState rm) (lastMasterPing rm) (stops rm) (conns rm).

(** The address in [-replicaof]: [strings.ReplaceAll] of ":", [strings.Fields] and
    [strconv.Atoi]. *)
Definition master_address (replicaof : bytes) : option (bytes * Z) :=
  match Prelude.Fields ((fun b => if decide (b = ":"%byte) then " "%byte else b) <$> replicaof) with
  | host :: port :: _ => match ParseInt port with Ok p => Some (host, p) | Err _ => None end
  | _ => None
  end.

(** The flags [-port], [-replicaof], [-replica-read-only] and [-masterauth], and the
    environment variable that replaces an empty [-masterauth]. *)
Definition configure (port : Z) (replicaof : bytes) (replicaReadOnly : bool) (masterauth env : bytes) rm : res fault ReplicationManager :=
  if decide (replicaof = []) then Ok (set_config port false rm)
  else
    let rm := set_config port replicaReadOnly rm in
    match master_address replicaof with
    | Some (host, p) => '(rm, _) ← ConnectToMaster host p (if decide (masterauth = []) then env else masterauth) rm; Ok rm
    | None => Ok rm
    end.

(** ** Reports *)

Definition GetConnectedReplicasCount rm : Z := Z.of_nat (size (replicas rm)).
Definition GetSyncState rm : bytes := syncState rm.

Definition line (key value : bytes) : bytes := key ++ str ":" ++ value ++ CRLF.

Definition slave_line (idx : nat) (r : ReplicaClient) : bytes :=
  str "slave" ++ FormatInt (Z.of_nat idx) ++ str ":ip=" ++ RemoteAddr r ++ str ",port=" ++ FormatInt (ClientPort r) ++
  str ",state=" ++ State r ++ str ",offset=" ++ FormatInt (Offset r) ++ str ",lag=0" ++ CRLF.

(** [order]: the range over the map of replicas; [idle]: the seconds since the last
    sign of the master. *)
Definition GenerateReplicationInfo (order : list ReplicaClient) (idle : Z) rm : bytes :=
  str "# Replication" ++ CRLF ++ line (str "role") (Role_text (Role_ rm)) ++
  match Role_ rm with
  | RoleMaster =>
      line (str "connected_slaves") (FormatInt (Z.of_nat (size (replicas rm)))) ++
      concat (imap slave_line order) ++
      line (str "master_replid") (MasterReplID rm) ++
      line (str "master_repl_offset") (FormatInt (MasterOffset rm)) ++
      line (str "second_repl_offset") (str "-1") ++
      line (str "repl_backlog_active") (str "1") ++
      line (str "repl_backlog_size") (str "1048576") ++
      line (str "repl_backlog_histlen") (FormatInt (MasterOffset rm))
  | RoleReplica =>
      line (str "master_host") (MasterHost rm) ++
      line (str "master_port") (FormatInt (MasterPort rm)) ++
      line (str "master_link_status") (if decide (syncState rm = str "online") then str "up" else str "down") ++
      line (str "master_last_io_seconds_ago") (FormatInt idle) ++
      line (str "master_sync_in_progress") (str "0") ++
      line (str "slave_read_only") (if ReadOnly rm then str "1" else str "0") ++
      line (str "slave_repl_offset") (FormatInt (MasterOffset rm))
  end.

(** The lag of a replica and the state of the link in [GetStatus]. *)
Definition replica_lag rm (r : ReplicaClient) : Z := Z.max 0 (int64 (MasterOffset rm - Offset r)).
Definition link_status rm : bytes :=
  if decide (Role_ rm = RoleReplica /\ syncState rm <> str "online") then str "down" else str "up".

(** ** The state of the manager *)

Inductive rm_op :=
| OpBroadcast (args : list bytes)
| OpRegister (addr : bytes) (port now : Z)
| OpPSync (ev : psync_event) (p : psync)
| OpConnect (host : bytes) (port : Z) (auth : bytes)
| OpConnected
| OpHandshake (auth : bytes) (stopped : nat -> bool) (now : Z) (at_ : nat -> Z) (inp : bytes)
| OpDisconnected (conn : nat)
| OpPromote (newID : bytes)
| OpReplicaOf (newID pass : bytes) (args : list bytes).

Definition rm_step (o : rm_op) rm : res fault ReplicationManager :=
  match o with
  | OpBroadcast args => Ok (Broadcast args rm)
  | OpRegister addr port now => Ok (psync_register addr port now rm).1
  | OpPSync ev p => Ok (match HandlePSync ev (rm, p) with Some (rm', _) => rm' | None => rm end)
  | OpConnect host port auth => '(rm, _) ← ConnectToMaster host port auth rm; Ok rm
  | OpConnected => Ok (replica_connected rm)
  | OpHandshake auth stopped now at_ inp => Ok (manager (performHandshakeAndSync auth stopped now at_ inp rm))
  | OpDisconnected conn => Ok (replica_disconnected conn rm)
  | OpPromote newID => PromoteToMaster newID rm
  | OpReplicaOf newID pass args => '(r, _) ← cmd_replicaof newID pass args (Some rm); Ok (default rm r)
  end.

Fixpoint rm_run (ops : list rm_op) rm : res fault ReplicationManager :=
  match ops with [] => Ok rm | o :: ops' => rm ← rm_step o rm; rm_run ops' rm end.

Definition replica_ok (r : ReplicaClient) : Prop := (length (CmdChan r) <= chan_capacity)%nat /\ Offset r = 0.

(** A replica refuses writes and has one loop to stop, whose channel is the only
    open one; a master has none, and refuses writes at most when [locked]. *)
Record rm_ok (locked : bool) rm : Prop := {
  ok_role : match Role_ rm with
            | RoleMaster => (ReadOnly rm = true -> locked = true) /\ stopReplica rm = None
            | RoleReplica => ReadOnly rm = true /\ is_Some (stopReplica rm)
            end;
  ok_open : forall c, stops rm !! c = Some false <-> stopReplica rm = Some c;
  ok_replicas : map_Forall (fun _ r => replica_ok r) (replicas rm)
}.

Lemma rm_ok_new b replID port : rm_ok b (NewReplicationManager replID port).
Proof. split; [done| |apply map_Forall_empty]. intros c. cbn. by split. Qed.

(** Changes of the table of replicas, and of what does not concern the role. *)
Lemma rm_ok_replicas b r counter offset rm : rm_ok b rm -> map_Forall (fun _ r => replica_ok r) r -> rm_ok b (set_replicas r counter offset rm).
Proof. by intros [H1 H2 _] H3; split. Qed.

Lemma rm_ok_link b conn state ping cs rm : rm_ok b rm -> rm_ok b (set_link conn state ping cs rm).
Proof. by intros [H1 H2 H3]; split. Qed.

Lemma rm_ok_history b id offset rm : rm_ok b rm -> rm_ok b (set_history id offset rm).
Proof. by intros [H1 H2 H3]; split. Qed.

Lemma offer_ok p r : replica_ok r -> replica_ok (offer p r).
Proof.
  intros [H1 H2]. unfold offer. destruct (Nat.ltb_spec (length (CmdChan r)) chan_capacity); [|done].
  split; [|done]. cbn [CmdChan]. rewrite length_app. cbn [length]. lia.
Qed.

Lemma alter_ok (f : ReplicaClient -> ReplicaClient) (k : bytes) (m : gmap bytes ReplicaClient) : (forall r, replica_ok r -> replica_ok (f r)) ->
  map_Forall (fun _ r => replica_ok r) m -> map_Forall (fun _ r => replica_ok r) (alter f k m).
Proof.
  intros Hf Hm k' r H. destruct (decide (k' = k)) as [->|Hne].
  - rewrite lookup_alter_eq in H. apply fmap_Some in H as (r' & Hr & ->). by apply Hf, (Hm k).
  - rewrite lookup_alter_ne in H by done. by eapply Hm.
Qed.

Lemma HandlePSync_ok b ev p rm rm' p' : rm_ok b rm -> HandlePSync ev (rm, p) = Some (rm', p') -> rm_ok b rm'.
Proof.
  intros Hok. destruct ev, p as [id [| | |] w]; cbn [HandlePSync phase repID written]; try done; try (intros [= <- _]; try done).
  all: try (apply rm_ok_replicas; [done|]).
  - apply alter_ok; [|apply Hok]. intros r []. by split.
  - destruct (replicas rm !! id) as [r|] eqn:Er; cbn [mbind option_bind]; [|done]. destruct (CmdChan r) as [|x ch] eqn:Ec; [done|]. intros [= <- _].
    apply rm_ok_replicas; [done|]. intros k' r' H. destruct (decide (k' = id)) as [->|Hne].
    + rewrite lookup_alter_eq, Er in H. injection H as <-. destruct (ok_replicas _ _ Hok id r Er) as [H1 H2]. rewrite Ec in H1.
      split; [|done]. cbn [set_chan CmdChan length] in *. lia.
    + rewrite lookup_alter_ne in H by done. by apply (ok_replicas _ _ Hok k').
  - by apply map_Forall_delete, Hok.
  - by apply map_Forall_delete, Hok.
  - by apply map_Forall_delete, Hok.
Qed.

Lemma stream_loop_ok b stopped at_ fuel : forall i inp rm done, rm_ok b rm -> rm_ok b (stream_loop fuel stopped at_ i inp rm done).1.1.
Proof.
  induction fuel as [|fuel IH]; intros i inp rm dn Hok; cbn [stream_loop]; [done|]. destruct (stopped i); [done|].
  destruct (ReadCommand inp) as [[[|name args] inp']|]; [by apply IH| |done]. destruct (decide _); apply IH; [by apply rm_ok_link|done].
Qed.

Lemma handshake_ok b auth stopped now at_ inp rm : rm_ok b rm -> rm_ok b (manager (performHandshakeAndSync auth stopped now at_ inp rm)).
Proof.
  intros Hok. unfold performHandshakeAndSync. destruct (handshake auth rm inp) as [[[s inp'] v]|[]]; [|done].
  assert (rm_ok b (synchronised now (vStr v) rm)) as Hs.
  { unfold synchronised. destruct (Prelude.Fields _) as [|? [|id [|off ?]]]; try done. by apply rm_ok_link, rm_ok_history. }
  pose proof (stream_loop_ok b stopped at_ (S (length inp')) 0 inp' _ [] Hs) as H. by destruct (stream_loop _ _ _ _ _ _ _) as [[? ?] ?].
Qed.

(** Closing the channel of the running loop leaves no open one. *)
Lemma close_current b rm : rm_ok b rm ->
  exists ss, (match stopReplica rm with Some c => close_stop c (stops rm) | None => Ok (stops rm) end) = Ok ss /\ forall c, ss !! c <> Some false.
Proof.
  intros [_ H _]. destruct (stopReplica rm) as [c|] eqn:Es.
  - unfold close_stop. rewrite (proj2 (H c) eq_refl). eexists. split; [done|]. intros c' Hc'.
    destruct (decide (c' = c)) as [->|Hne]; [rewrite list_lookup_insert_eq in Hc'; [done|by eapply lookup_lt_Some, (proj2 (H c))]|].
    rewrite list_lookup_insert_ne in Hc' by done. apply H in Hc'. congruence.
  - exists (stops rm). split; [done|]. intros c Hc. apply H in Hc. done.
Qed.

Lemma ConnectToMaster_ok b host port auth rm : rm_ok b rm -> exists rm' c, ConnectToMaster host port auth rm = Ok (rm', c) /\ rm_ok b rm'.
Proof.
  intros Hok. unfold ConnectToMaster. destruct (close_current b rm Hok) as (ss & -> & Hss). do 2 eexists. split; [reflexivity|].
  split; [split; [done|by eexists]| |apply Hok]. intros c. cbn [stops stopReplica set_stop]. rewrite lookup_app_Some. split.
  - intros [H|[Hl H]]; [by apply Hss in H|]. destruct (c - length ss)%nat as [|] eqn:E; [|done]. f_equal. lia.
  - intros [= <-]. right. by rewrite Nat.sub_diag.
Qed.

Lemma PromoteToMaster_ok b newID rm : rm_ok b rm -> exists rm', PromoteToMaster newID rm = Ok rm' /\ rm_ok b rm'.
Proof.
  intros Hok. unfold PromoteToMaster. destruct (decide (Role_ rm = RoleMaster)); [by eauto|]. destruct (close_current b rm Hok) as (ss & -> & Hss).
  eexists. split; [reflexivity|]. split; [done| |apply Hok]. intros c. cbn [stops stopReplica set_stop set_role set_link set_history].
  split; [intros H; by apply Hss in H|done].
Qed.

Lemma rm_step_ok b o rm : rm_ok b rm -> exists rm', rm_step o rm = Ok rm' /\ rm_ok b rm'.
Proof.
  intros Hok. destruct o; cbn [rm_step].
  - eexists. split; [done|]. unfold Broadcast. destruct (decide _); [done|]. apply rm_ok_replicas; [done|].
    apply map_Forall_fmap. intros k r Hr. by apply offer_ok, (ok_replicas _ _ Hok k).
  - eexists. split; [done|]. apply rm_ok_replicas; [done|]. apply map_Forall_insert_2; [|apply Hok]. split; [cbn; unfold chan_capacity; lia|done].
  - destruct (HandlePSync ev (rm, p)) as [[rm' p']|] eqn:E; [|by eauto]. eexists. split; [done|]. by eapply HandlePSync_ok.
  - destruct (ConnectToMaster_ok b host port auth rm Hok) as (rm' & c & -> & H). by exists rm'.
  - eexists. split; [done|]. by apply rm_ok_link.
  - eexists. split; [done|]. by apply handshake_ok.
  - eexists. split; [done|]. by apply rm_ok_link.
  - by apply PromoteToMaster_ok.
  - unfold cmd_replicaof. destruct args as [|host [|port rest]]; [by exists rm|by exists rm|]. destruct (decide _).
    + destruct (PromoteToMaster_ok b newID rm Hok) as (rm' & -> & H). by exists rm'.
    + destruct (ParseInt port) as [p|]; [|by exists rm]. destruct (ConnectToMaster_ok b host p pass rm Hok) as (rm' & c & -> & H). by exists rm'.
Qed.

(** The address of [-replicaof] does not parse: the node stays a master, and refuses
    writes. *)
Definition misconfigured (replicaof : bytes) (replicaReadOnly : bool) : bool :=
  bool_decide (replicaof <> []) && replicaReadOnly && bool_decide (master_address replicaof = None).

Lemma configure_ok port replicaof readOnly auth env replID port0 :
  exists rm, configure port replicaof readOnly auth env (NewReplicationManager replID port0) = Ok rm /\ rm_ok (misconfigured replicaof readOnly) rm.
Proof.
  unfold configure, misconfigured. destruct (decide (replicaof = [])) as [->|Hne].
  { eexists. split; [done|]. split; [done|intros c; cbn; by split|apply map_Forall_empty]. }
  rewrite (bool_decide_eq_true_2 (replicaof <> [])) by done. cbn [andb]. destruct (master_address replicaof) as [[host p]|].
  - unfold ConnectToMaster. cbn. eexists. split; [done|]. split; [by split; [|eexists]| |apply map_Forall_empty].
    intros c. cbn. by destruct c as [|c].
  - eexists. split; [done|]. split; [|intros c; cbn; by split|apply map_Forall_empty]. cbn. rewrite andb_true_r. done.
Qed.

(** C33: from the start of the server with any flags, whatever happens on a node and
    its links, in any order: commands, PSYNC handlers, REPLICAOF, promotions,
    connections and whatever the other side sends.  No channel is closed twice (a
    panic); a replica refuses writes, whatever [-replica-read-only] says, and a master
    accepts them, unless it was started with a [-replicaof] that does not parse; at
    most one loop of a replica has not been told to stop, and none on a master; and no
    more than 1000 commands wait for a replica. *)
Theorem manager_invariant replID port0 port replicaof readOnly auth env ops : exists rm0 rm,
  configure port replicaof readOnly auth env (NewReplicationManager replID port0) = Ok rm0 /\ rm_run ops rm0 = Ok rm /\
  rm_ok (misconfigured replicaof readOnly) rm.
Proof.
  destruct (configure_ok port replicaof readOnly auth env replID port0) as (rm0 & E & H0). generalize dependent rm0. intros rm0 E H0. exists rm0.
  enough (exists rm, rm_run ops rm0 = Ok rm /\ rm_ok (misconfigured replicaof readOnly) rm) as (rm & ? & ?) by by exists rm.
  clear E. revert rm0 H0. induction ops as [|o ops IH]; intros rm Hok; cbn [rm_run]; [by eauto|]. destruct (rm_step_ok _ o rm Hok) as (rm1 & -> & H1). by apply IH.
Qed.

(** ** What goes over the link *)

(** One replica of a master: commands of clients, and steps of its handler. *)
Inductive link_op := LCommand (args : list bytes) | LStep (ev : psync_event).

#[global] Instance psync_event_eq_dec : EqDecision psync_event.
Proof. solve_decision. Defined.
#[global] Instance link_op_eq_dec : EqDecision link_op.
Proof. solve_decision. Defined.

Definition link_step (o : link_op) (st : ReplicationManager * psync) : option (ReplicationManager * psync) :=
  match o with
  | LCommand args => Some (Broadcast args st.1, st.2)
  | LStep ev => HandlePSync ev st
  end.

Fixpoint link_run (ops : list link_op) (st : ReplicationManager * psync) : option (ReplicationManager * psync) :=
  match ops with [] => Some st | o :: ops' => st ← link_step o st; link_run ops' st end.




Definition is_ping (args : list bytes) : bool := match args with name :: _ => bool_decide (ToUpper name = str "PING") | [] => false end.
Definition not_ping (args : list bytes) : Prop := is_ping args = false.
#[local] Instance not_ping_dec args : Decision (not_ping args).
Proof. unfold not_ping. apply _. Defined.






(** ** What the replica makes of it *)


Lemma payload_serialized args : payload args = SerializeCommand args.
Proof.
  unfold payload, WriteStringArray, SerializeCommand, WriteArrayHeader. cbn [app]. rewrite <- app_assoc. reflexivity.
Qed.


(** The replies of a master to the requests before PSYNC. *)
Definition greetings (auth : bytes) : bytes := (if decide (auth = []) then [] else respOK) ++ respPONG ++ respOK ++ respOK.













(** ** The replica follows the master *)

Section Following.
Context {VectorIndex : Type}.
Context (iter : forall V, gmap bytes V -> list (bytes * V)) (vector_commands : bytes -> VectorIndex -> list (list bytes)).
Context (ParseFloat : bytes -> option Z) (FormatFloat : Z -> bytes) (NumErrorText : num_error -> bytes -> bytes).
Context (iter_perm : forall V (m : gmap bytes V), iter V m ≡ₚ map_to_list m).
Context (float_roundtrip : forall s, is_nan s = false -> ParseFloat (FormatFloat s) = Some s).

Abbreviation Entry := (@Keyspace.Entry SkipList.SkipList VectorIndex).
Abbreviation Keyspace := (@Keyspace.Keyspace SkipList.SkipList VectorIndex).
Abbreviation run := (CommandLaws.run ParseFloat FormatFloat).
Abbreviation apply_from := (apply_from (VectorIndex := VectorIndex) ParseFloat FormatFloat NumErrorText).
Implicit Types (ks rep : Keyspace) (e : Entry).










End Following.

(** ** The theorem on a concrete pair *)

Definition sample_id : bytes := str "0123456789abcdef".
Definition sample_rm : ReplicationManager := NewReplicationManager sample_id 7379.
Definition sample_moment : moment (VectorIndex := unit) := mkMoment (fun _ _ => 0) (quiet (fun _ => mkSC (mkClock 9 9 9) 9 9 9)) 0.








(** ** Deviations *)

(** A command that finds the channel of a replica full is dropped: the offset of
    the master moves on, the replica is not disconnected and never gets it. *)
Theorem full_channel_drops args rm id r : Role_ rm = RoleMaster -> replicas rm !! id = Some r -> (chan_capacity <= length (CmdChan r))%nat ->
  replicas (Broadcast args rm) !! id = Some r /\
  MasterOffset (Broadcast args rm) = int64 (MasterOffset rm + Z.of_nat (length (payload args))).
Proof.
  intros Hm Hr Hl. unfold Broadcast. rewrite decide_False by (intros [H|H]; [done|rewrite H, lookup_empty in Hr; done]).
  split; [|done]. cbn [replicas set_replicas]. rewrite lookup_fmap, Hr. cbn. f_equal. unfold offer. by rewrite (proj2 (Nat.ltb_ge _ _)).
Qed.

(** A command between the registration of a replica and its dump is in both the
    dump and the stream: the replica runs an INCR twice. *)
Theorem command_during_sync_runs_twice :
  match link_run [LCommand [str "INCR"; str "n"]; LStep WriteHeader; LStep (WriteDump [[str "SET"; str "n"; str "42"]]); LStep Receive]
          (psync_register (str "10.0.0.2") 7379 2 sample_rm) with
  | Some st =>
      let link := performHandshakeAndSync [] (fun _ => false) 7 (fun _ => 8) (greetings [] ++ written st.2) sample_rm in
      match apply_from sample_parse sample_format (fun _ s => s) (fun _ => sample_moment) 0 (applied link) NewKeyspace with
      | Some (Ok rep) => Keyspace.Value_ <$> look rep (str "n") = Some (Keyspace.VString (str "43"))
      | _ => False
      end
  | None => False
  end.
Proof. by vm_compute. Qed.

(** A server started with [-replica-read-only=false] is a replica that refuses
    writes all the same: [ConnectToMaster] sets the flag again. *)
Theorem replica_never_writable auth env replID port0 :
  match configure 7380 (str "10.0.0.1:7379") false auth env (NewReplicationManager replID port0) with
  | Ok rm => Role_ rm = RoleReplica /\ ReadOnly rm = true
  | Err _ => False
  end.
Proof. by vm_compute. Qed.

(** A server started with an address that does not parse stays a master and refuses
    every write; REPLICAOF NO ONE does not help, since the node is a master. *)
Theorem bad_address_locks_master auth env replID port0 newID pass :
  match configure 7380 (str "10.0.0.1") true auth env (NewReplicationManager replID port0) with
  | Ok rm => Role_ rm = RoleMaster /\ ReadOnly rm = true /\
      cmd_replicaof newID pass [str "NO"; str "ONE"] (Some rm) = Ok (Some rm, reads OK)
  | Err _ => False
  end.
Proof. by vm_compute. Qed.

(** A node promoted while its loop is still connecting takes over the identifier
    and offset of the old master: the loop tests its channel only after the
    handshake. *)
Theorem promotion_overtaken :
  match ConnectToMaster (str "10.0.0.1") 7379 [] sample_rm with
  | Ok (rm1, c) =>
      match PromoteToMaster (str "fresh") rm1 with
      | Ok rm2 =>
          let link := performHandshakeAndSync [] (fun _ => true) 7 (fun _ => 8) (greetings [] ++ WriteSimpleString (header_text (str "old") 99)) (replica_connected rm2) in
          stops rm2 !! c = Some true /\ MasterReplID rm2 = str "fresh" /\
          Role_ (manager link) = RoleMaster /\ MasterReplID (manager link) = str "old" /\ MasterOffset (manager link) = 99
      | Err _ => False
      end
  | Err _ => False
  end.
Proof. by vm_compute. Qed.

(** The dump of a collection is one command, however large; one with more
    arguments than the reader of the replica accepts ends the link, each time. *)
Theorem large_dump_refused args rest : MaxArrayLength < Z.of_nat (length args) < 2 ^ 63 ->
  ReadCommand (payload args ++ rest) = Err ErrMultibulkTooLarge.
Proof. intros Hl. rewrite payload_serialized. by apply ReadCommand_oversized. Qed.

(** A loop that was told to stop while it waits for a command runs that command
    first, even when the node is already a replica of another master. *)
Theorem stopped_loop_runs_one_more :
  stream_loop 99 (fun i => (0 <? i)%nat) (fun _ => 8) 0 (payload [str "SET"; str "k"; str "old"] ++ payload [str "SET"; str "k"; str "older"]) sample_rm [] =
    (sample_rm, [[str "SET"; str "k"; str "old"]], Ok tt).
Proof. by vm_compute. Qed.
