(* ===== verification/ReactorServer.v ===== *)
(** * Reactor connections on the engine (internal/reactor/reactor_linux.go)

    Accepting and closing connections, the fast paths of [executeCommand] beside
    the engine's own path, and the writing of replies to a socket that may take
    only a part of them.  ([reactor_darwin.go] has the same functions.) *)

From S2P Require Import Prelude Resp RingBuffer ReactorParser Reactor SkipList Keyspace Commands CommandLaws Acl Session Scope SessionLaws Access Aof.

(** ** Writing replies *)

(** What [write(2)] returns: the number of bytes taken, "try again", an error. *)
Inductive wres := Wrote (n : nat) | Again | Failed.

Inductive flush_result :=
| Flushed (sent rest : bytes)   (** [OutBuf] is [rest], the connection is open *)
| Broken (sent : bytes)         (** the connection is closed *)
| Waiting                       (** a call of [write(2)] has not returned *).

(** [flushWrite]: [sock] is what the calls of [write(2)] return, [retries] is
    [None] in the outer loop and the number of attempts left in the retry loop. *)
Fixpoint flush_loop (sock : list wres) (retries : option nat) (sent buf : bytes) : flush_result :=
  match retries with
  | None =>
      match buf with
      | [] => Flushed sent []
      | _ =>
          match sock with
          | [] => Waiting
          | Wrote n :: sock' => flush_loop sock' None (sent ++ take n buf) (drop n buf)
          | Again :: sock' => flush_loop sock' (Some 50%nat) sent buf
          | Failed :: _ => Broken sent
          end
      end
  | Some O => Flushed sent buf
  | Some (S m) =>
      match sock with
      | [] => Waiting
      | Wrote n :: _ => Flushed (sent ++ take n buf) (drop n buf)
      | Again :: sock' => flush_loop sock' (Some m) sent buf
      | Failed :: _ => Broken sent
      end
  end.

Definition flushWrite (sock : list wres) (OutBuf : bytes) : flush_result := flush_loop sock None [] OutBuf.

Lemma flush_loop_spec sock : forall retries sent buf,
  match flush_loop sock retries sent buf with
  | Flushed sent' rest => sent' ++ rest = sent ++ buf
  | Broken sent' => sent' `prefix_of` sent ++ buf
  | Waiting => True
  end.
Proof.
  induction sock as [|[n| |] sock IH]; intros [[|m]|] sent buf; cbn [flush_loop]; try done.
  - destruct buf; [by rewrite !app_nil_r|done].
  - by rewrite <- app_assoc, take_drop.
  - destruct buf as [|b buf]; [by rewrite !app_nil_r|]. specialize (IH None (sent ++ take n (b :: buf)) (drop n (b :: buf))).
    by rewrite <- app_assoc, take_drop in IH.
  - apply IH.
  - destruct buf; [by rewrite !app_nil_r|]. apply IH.
  - by apply prefix_app_r.
  - destruct buf; [by rewrite !app_nil_r|]. by apply prefix_app_r.
Qed.

(** How many answers of the socket a flush needs. *)
Lemma flush_loop_ends sock : Forall (fun r => r <> Wrote 0) sock -> forall retries sent buf,
  flush_loop sock retries sent buf = Waiting -> (length sock < match retries with None => length buf + 51 | Some m => m end)%nat.
Proof.
  induction 1 as [|r sock Hr _ IH]; intros [[|m]|] sent buf; cbn [flush_loop length]; try done.
  - lia.
  - lia.
  - destruct r as [n| |]; try done. intros H. apply IH in H. lia.
  - destruct buf as [|b buf]; [done|]. destruct r as [n| |]; try done; intros H; apply IH in H.
    + rewrite length_drop in H. destruct n; [done|]. cbn [length] in *. lia.
    + cbn [length]. lia.
Qed.

(** The replies of a connection: after each one [flushWrite] is called. *)
Fixpoint flush_all (replies : list (bytes * list wres)) (sent out : bytes) : flush_result :=
  match replies with
  | [] => Flushed sent out
  | (r, sock) :: replies' =>
      match flushWrite sock (out ++ r) with
      | Flushed s rest => flush_all replies' (sent ++ s) rest
      | Broken s => Broken (sent ++ s)
      | Waiting => Waiting
      end
  end.

(** C35: whatever parts of the replies the socket takes, what was sent followed
    by what is still in the write buffer is the replies in order, without loss
    or repetition; after a socket failure what was sent is a prefix of them.
    Each flush ends within the length of its buffer and 51 calls of write(2) if
    none of them returns 0. It is not claimed that the buffered rest is ever
    sent: it may wait for the next event (a finding). *)
Theorem replies_in_order replies sent out :
  match flush_all replies sent out with
  | Flushed sent' rest => sent' ++ rest = sent ++ out ++ concat (fst <$> replies)
  | Broken sent' => sent' `prefix_of` sent ++ out ++ concat (fst <$> replies)
  | Waiting => exists r sock buf, (r, sock) ∈ replies /\ flushWrite sock (buf ++ r) = Waiting /\
      (Forall (fun w => w <> Wrote 0) sock -> length sock < length (buf ++ r) + 51)%nat
  end.
Proof.
  revert sent out. induction replies as [|[r sock] replies IH]; intros sent out; cbn [flush_all fmap list_fmap concat fst]; [by rewrite app_nil_r|].
  pose proof (flush_loop_spec sock None [] (out ++ r)) as H. fold (flushWrite sock (out ++ r)) in H.
  destruct (flushWrite sock (out ++ r)) as [s rest|s|] eqn:E.
  - specialize (IH (sent ++ s) rest). destruct (flush_all replies (sent ++ s) rest) as [s' rest'|s'|].
    + rewrite IH, <- !app_assoc. f_equal. rewrite (app_assoc s), H. cbn [app]. by rewrite <- app_assoc.
    + rewrite <- !app_assoc in IH. rewrite (app_assoc s), H in IH. cbn [app] in IH. by rewrite <- app_assoc in IH.
    + destruct IH as (r' & sock' & buf & ? & ?). exists r', sock', buf. split; [by right|done].
  - apply prefix_app. cbn in H. rewrite (app_assoc out). by apply prefix_app_r.
  - exists r, sock, out. split; [by left|]. split; [done|]. intros HF. by eapply flush_loop_ends in E.
Qed.

(** ** Command names *)

Lemma lower_range b : 0 <= Reactor.lower b < 256.
Proof. unfold Reactor.lower. destruct b; vm_compute; split; (discriminate || reflexivity). Qed.

Lemma AsCmd3_sum a b c : AsCmd3 [a; b; c] = Reactor.lower a + Reactor.lower b * 2 ^ 8 + Reactor.lower c * 2 ^ 16.
Proof.
  unfold AsCmd3. pose proof (lower_range a). pose proof (lower_range b). pose proof (lower_range c).
  rewrite !lor_shiftl by (rewrite ?lor_shiftl by lia; lia). done.
Qed.

Lemma AsCmd4_sum a b c d : AsCmd4 [a; b; c; d] = Reactor.lower a + Reactor.lower b * 2 ^ 8 + Reactor.lower c * 2 ^ 16 + Reactor.lower d * 2 ^ 24.
Proof.
  unfold AsCmd4. pose proof (lower_range a). pose proof (lower_range b). pose proof (lower_range c). pose proof (lower_range d).
  rewrite !lor_shiftl by (rewrite ?lor_shiftl by (rewrite ?lor_shiftl by lia; lia); lia). done.
Qed.

Lemma AsCmd3_letters name x y z : AsCmd3 name = b2z x + b2z y * 2 ^ 8 + b2z z * 2 ^ 16 -> AsCmd3 name <> 0 ->
  Reactor.lower <$> name = b2z <$> [x; y; z].
Proof.
  destruct name as [|a [|b [|c [|]]]]; try done. rewrite AsCmd3_sum. intros H _.
  pose proof (lower_range a). pose proof (lower_range b). pose proof (lower_range c).
  pose proof (b2z_range x). pose proof (b2z_range y). pose proof (b2z_range z). csimpl. repeat f_equal; lia.
Qed.

Lemma AsCmd4_letters name x y z w : AsCmd4 name = b2z x + b2z y * 2 ^ 8 + b2z z * 2 ^ 16 + b2z w * 2 ^ 24 -> AsCmd4 name <> 0 ->
  Reactor.lower <$> name = b2z <$> [x; y; z; w].
Proof.
  destruct name as [|a [|b [|c [|d [|]]]]]; try done. rewrite AsCmd4_sum. intros H _.
  pose proof (lower_range a). pose proof (lower_range b). pose proof (lower_range c). pose proof (lower_range d).
  pose proof (b2z_range x). pose proof (b2z_range y). pose proof (b2z_range z). pose proof (b2z_range w). csimpl. repeat f_equal; lia.
Qed.

Definition is_letter (b : byte) : bool := (97 <=? b2z b) && (b2z b <=? 122).

Lemma lower_letter b l : is_letter l = true -> Reactor.lower b = b2z l -> b = l \/ b = z2b (b2z l - 32).
Proof.
  unfold is_letter. intros Hl H. assert (b = z2b (Reactor.lower b) \/ b = z2b (Reactor.lower b - 32) \/ ~ 97 <= Reactor.lower b <= 122) as HC.
  { clear. unfold Reactor.lower. destruct b; vm_compute; (by left) || (right; (by left) || (right; intros [? ?]; congruence)). }
  rewrite H, z2b_b2z in HC. destruct HC as [?|[?|?]]; auto. exfalso. lia.
Qed.

(** The engine reads the name of a fast command as the same command. *)
Lemma ToUpperFast_letters name w : forallb is_letter w = true -> Reactor.lower <$> name = b2z <$> w ->
  ToUpperFast name = (fun b => z2b (b2z b - 32)) <$> w.
Proof.
  intros Hw H. unfold ToUpperFast. fold is_letter.
  assert (ToUpper name = (fun b => z2b (b2z b - 32)) <$> w) as HU.
  { revert w Hw H. induction name as [|b name IH]; intros [|l w] Hw [=]; [done|]. cbn [forallb] in Hw. apply andb_prop in Hw as [Hl Hw].
    assert (ToUpper (b :: name) = upper_byte b :: ToUpper name /\ upper_byte b = z2b (b2z l - 32)) as [-> ->]; [|csimpl; f_equal; eauto].
    destruct (lower_letter b l Hl) as [-> | ->]; [congruence| |];
      clear -Hl; destruct l; vm_compute in Hl; try discriminate Hl; split; reflexivity. }
  destruct (existsb is_letter name) eqn:E; [done|]. rewrite <- HU. clear HU.
  revert w Hw H E. induction name as [|b name IH]; intros [|l w] Hw [=] E; [done|]. cbn [forallb existsb] in *.
  apply andb_prop in Hw as [Hl Hw]. apply orb_false_elim in E as [Eb E].
  destruct (lower_letter b l Hl) as [-> | ->]; [congruence|congruence|].
  transitivity (z2b (b2z l - 32) :: ToUpper name); [f_equal; eauto|].
  clear -Hl. destruct l; vm_compute in Hl; try discriminate Hl; reflexivity.
Qed.

Lemma cmd_code_cons x s : 0 <= cmd_code s -> cmd_code (x :: s) = b2z x + cmd_code s * 2 ^ 8.
Proof. intros H. unfold cmd_code. cbn [foldr]. apply lor_shiftl; [lia|apply b2z_range|exact H]. Qed.

Lemma cmd_code_nonneg s : 0 <= cmd_code s.
Proof. induction s as [|x s IH]; [done|]. rewrite cmd_code_cons by done. pose proof (b2z_range x). lia. Qed.

Lemma fast3_name name x y z : forallb is_letter [x; y; z] = true ->
  (if (length name =? 3)%nat then AsCmd3 name else 0) =? cmd_code [x; y; z] = true ->
  ToUpperFast name = (fun b => z2b (b2z b - 32)) <$> [x; y; z].
Proof.
  intros Hl H%Z.eqb_eq. pose proof Hl as Hl'. unfold is_letter in Hl'. cbn [forallb] in Hl'. rewrite !cmd_code_cons in H by apply cmd_code_nonneg. change (cmd_code []) with 0 in H.
  destruct (length name =? 3)%nat; [|lia]. apply ToUpperFast_letters; [done|]. apply AsCmd3_letters; lia.
Qed.

Lemma fast4_name name x y z w : forallb is_letter [x; y; z; w] = true ->
  (if (length name =? 4)%nat then AsCmd4 name else 0) =? cmd_code [x; y; z; w] = true ->
  ToUpperFast name = (fun b => z2b (b2z b - 32)) <$> [x; y; z; w].
Proof.
  intros Hl H%Z.eqb_eq. pose proof Hl as Hl'. unfold is_letter in Hl'. cbn [forallb] in Hl'. rewrite !cmd_code_cons in H by apply cmd_code_nonneg. change (cmd_code []) with 0 in H.
  destruct (length name =? 4)%nat; [|lia]. apply ToUpperFast_letters; [done|]. apply AsCmd4_letters; lia.
Qed.

(** ** The fast paths *)

Section Server.
Context {VectorIndex : Type}.
Context (ParseFloat : bytes -> option Z) (FormatFloat : Z -> bytes).

Abbreviation Engine := (@Session.Engine VectorIndex).
Abbreviation ExecuteCommandWithSession := (Session.ExecuteCommandWithSession (VectorIndex := VectorIndex) ParseFloat FormatFloat).
Implicit Types (e : Engine).

Definition is_none {A} (o : option A) : bool := match o with None => true | Some _ => false end.

Definition isSimpleSession (p : nat) e : bool :=
  negb (InMulti (session_at e p)) && negb (watching (session_at e p)) && bool_decide (Password e = []) &&
  match Cluster_ e with None => true | Some c => negb (ClusterEnabled c) end &&
  match Replication_ e with None => true | Some r => negb (ReadOnly r) end.

(** No log, no replicas, no memory limit, no watching client. *)
Definition unobserved e : bool :=
  is_none (AOF_ e) && is_none (Replication_ e) && (watchedCount e =? 0).

(** [executeCommand]: the engine, [OutBuf] and whether the connection was closed.
    [t] is the clock of the fast paths. *)
Definition executeCommand (vs : nat -> env) (t : Z) (connID : bytes) (p : nat) (args : list bytes) (out : bytes) e
    : option (res fault (Engine * bytes * bool)) :=
  let full e := andThen (ExecuteCommandWithSession vs (Some p) connID args e) (fun '(e, v) => ret (e, AppendValue v out, false)) in
  match args with
  | [] => ret (e, out, false)
  | name :: rest =>
      let simple := isSimpleSession p e in
      let code3 := if (length name =? 3)%nat then AsCmd3 name else 0 in
      let code4 := if (length name =? 4)%nat then AsCmd4 name else 0 in
      let incr d key :=
        let '(k, r) := Keyspace.IncrBy (ks e) t key d in
        match r with
        | Ok val => ret (set_ks k e, out ++ [":"%byte] ++ FormatInt val ++ CRLF, false)
        | Err _ => full (set_ks k e)
        end in
      match rest with
      | [] =>
          if code4 =? CmdPing then ret (e, out ++ respPONG, false)
          else if code4 =? CmdQuit then ret (e, out ++ respOK, true)
          else full e
      | [key] =>
          if (code3 =? CmdGet) && simple then
            let '(k, r) := Keyspace.Get (ks e) t key in
            let e := set_ks k e in
            match r with
            | None => ret (e, out ++ respNull, false)
            | Some ent =>
                if decide (Type_ ent = TypeString) then
                  match Value_ ent with VString s => ret (e, AppendBulkString out s, false) | _ => full e end
                else full e
            end
          else if (code3 =? CmdDel) && simple && unobserved e then
            let '(k, n) := Keyspace.Delete (ks e) [key] in
            ret (set_ks k e, out ++ (if 0 <? n then str ":1" else str ":0") ++ CRLF, false)
          else if code4 =? CmdPing then ret (e, AppendBulkString out key, false)
          else if (code4 =? CmdIncr) && simple && unobserved e && (MaxMemory e =? 0) then incr 1 key
          else if (code4 =? CmdDecr) && simple && unobserved e && (MaxMemory e =? 0) then incr (-1) key
          else if code4 =? CmdQuit then ret (e, out ++ respOK, true)
          else full e
      | [key; val] =>
          if (code3 =? CmdSet) && simple && unobserved e && (MaxMemory e =? 0) then
            ret (set_ks (Keyspace.SetString (ks e) t key val) e, out ++ respOK, false)
          else if code4 =? CmdQuit then ret (e, out ++ respOK, true)
          else full e
      | _ => if code4 =? CmdQuit then ret (e, out ++ respOK, true) else full e
      end
  end.


(** ** A fast path answers as the engine does *)

Definition is_ping (name : bytes) : bool := AsCmd4 name =? CmdPing.

Lemma set_ks_same e : set_ks (ks e) e = e.
Proof using. by destruct e. Qed.

Lemma set_logs_same e : set_logs (AOF_ e) (Replication_ e) e = e.
Proof using. by destruct e. Qed.

Lemma unobserved_spec e : unobserved e = true -> AOF_ e = None /\ Replication_ e = None /\ watchedCount e = 0.
Proof using.
  unfold unobserved. destruct (AOF_ e), (Replication_ e); cbn [is_none andb]; try done. intros H%Z.eqb_eq. done.
Qed.

(** The engine's own path for an admitted data command. *)
Lemma admitted_run vs c p name rest e :
  guards c (ToUpperFast name) rest (session_at e p) e = Ok None -> InMulti (session_at e p) = false ->
  ExecuteCommandWithSession vs (Some p) c (name :: rest) e =
  run_command ParseFloat FormatFloat (vs 0%nat) c (ToUpperFast name) (name :: rest) e.
Proof using. intros HG HM. unfold Session.ExecuteCommandWithSession. rewrite HG. cbn [andThen]. by rewrite HM. Qed.

Lemma run_quiet v c name argv e k r w :
  Session.dispatch ParseFloat FormatFloat v c name (tail argv) e = ret (set_ks k e, (r, w)) ->
  w = false \/ unobserved e = true /\ MaxMemory e <= 0 ->
  run_command ParseFloat FormatFloat v c name argv e = ret (set_ks k e, r).
Proof using.
  intros HD Hw. unfold run_command. rewrite HD. cbn [andThen ret]. destruct w; [|done].
  destruct Hw as [?|[(Ha & Hr & Hc)%unobserved_spec HM]]; [done|].
  unfold touch_keys. cbn [watchedCount set_ks]. rewrite Hc. cbn [Z.ltb Z.compare andThen].
  unfold check_memory. cbn [MaxMemory set_ks]. rewrite (proj2 (Z.leb_le _ _) HM).
  unfold log_write. cbn [AOF_ Replication_ set_ks]. rewrite Ha, Hr. cbn [fmap option_fmap option_map].
  destruct e; cbn in *; subst. by destruct (decide _).
Qed.

(** What the client and the other clients see of two engines. *)
Definition same_view e1 e2 : Prop := e1 = set_ks (ks e1) e2 /\ forall k, look (ks e1) k = look (ks e2) k.

Lemma same_view_refl e : same_view e e.
Proof using. split; [by rewrite set_ks_same|done]. Qed.

Lemma AppendValue_bulk_string s out : AppendValue (BulkString s) out = AppendBulkString out s.
Proof using.
  rewrite AppendValue_bulk. destruct (decide _); [done|]. destruct s; [done|]. cbn [length] in *. lia.
Qed.

Lemma SetString_look kk t k v k' : wf kk -> look (Keyspace.SetString kk t k v) k' = look (Keyspace.Set_ (VectorIndex := VectorIndex) kk t k (set_string v 0)) k'.
Proof using.
  intros Hwf. unfold SetString, Set_. destruct (look kk k) as [ent|] eqn:E.
  - destruct (decide _) as [HT|]; [by rewrite HT|]. done.
  - by rewrite <- !(abs_lookup _ k'), ?abs_addCount, !abs_store, ?abs_addCount by auto using store_wf, addCount_wf.
Qed.

(** The fast paths of a client whose command the engine admits. *)
Lemma fast_run vs c p name rest e cmd k r w :
  ToUpperFast name = cmd -> guards c (ToUpperFast name) rest (session_at e p) e = Ok None -> InMulti (session_at e p) = false ->
  Session.dispatch ParseFloat FormatFloat (vs 0%nat) c cmd rest e = ret (set_ks k e, (r, w)) ->
  w = false \/ unobserved e = true /\ MaxMemory e <= 0 ->
  ExecuteCommandWithSession vs (Some p) c (name :: rest) e = ret (set_ks k e, r).
Proof using. intros <- HG HM HD Hw. rewrite admitted_run by done. by eapply run_quiet. Qed.

(** [fast], which appends to [out], gives what [slow] answers. *)
Definition agrees (out : bytes) (slow : option (res fault (Engine * Resp.Value))) (fast : option (res fault (Engine * bytes * bool))) : Prop :=
  match slow with
  | Some (Ok (e2, v)) => exists e1, fast = ret (e1, AppendValue v out, false) /\ same_view e1 e2
  | Some (Err x) => fast = Some (Err x)
  | None => fast = None
  end.

Lemma agrees_full out slow : agrees out slow (andThen slow (fun '(e, v) => ret (e, AppendValue v out, false))).
Proof using. destruct slow as [[[e v]|]|]; cbn; [|done..]. exists e. split; [done|apply same_view_refl]. Qed.

Lemma agrees_fast out slow e1 e2 v b : slow = ret (e2, v) -> same_view e1 e2 -> AppendValue v out = b ->
  agrees out slow (ret (e1, b, false)).
Proof using. intros -> ? <-. exists e1. done. Qed.

Lemma Get_unchanged kk t key k ent : Keyspace.Get (VectorIndex := VectorIndex) (SkipList := SkipList) kk t key = (k, Some ent) -> k = kk.
Proof using. unfold Get. destruct (look kk key) as [en|]; [|done]. repeat case_match; intros [= <- _] || intros [=]; done. Qed.

Lemma IncrBy_unchanged kk t key d k x : Keyspace.IncrBy (VectorIndex := VectorIndex) (SkipList := SkipList) kk t key d = (k, Err x) -> k = kk.
Proof using. unfold IncrBy, load_live. repeat case_match; intros [= <- _] || intros [=]; simplify_eq; done. Qed.

Lemma incr_agrees vs c p name cmd key d out e :
  ToUpperFast name = cmd -> guards c (ToUpperFast name) [key] (session_at e p) e = Ok None -> InMulti (session_at e p) = false ->
  Session.dispatch ParseFloat FormatFloat (vs 0%nat) c cmd [key] e =
    Some ('(k, a) ← handleIncrBy (clk (vs 0%nat)) [key] d (ks e); Ok (set_ks k e, a)) ->
  unobserved e = true -> MaxMemory e <= 0 ->
  agrees out (ExecuteCommandWithSession vs (Some p) c [name; key] e)
    (let '(k, r) := Keyspace.IncrBy (ks e) (now (clk (vs 0%nat))) key d in
     match r with
     | Ok val => ret (set_ks k e, out ++ [":"%byte] ++ FormatInt val ++ CRLF, false)
     | Err _ => andThen (ExecuteCommandWithSession vs (Some p) c [name; key] (set_ks k e)) (fun '(e, v) => ret (e, AppendValue v out, false))
     end).
Proof using.
  intros Hn HG HI HD Hu HM. unfold handleIncrBy in HD. destruct (IncrBy _ _ _ _) as [k [n|x]] eqn:E; cbn [of_ks] in HD.
  - eapply agrees_fast; [|apply same_view_refl|].
    + eapply fast_run; eauto.
    + rewrite AppendValue_integer_serialized, SerializeValue_integer. done.
  - apply IncrBy_unchanged in E as ->. rewrite set_ks_same. apply agrees_full.
Qed.

Lemma get_agrees vs c p name key out e :
  ToUpperFast name = str "GET" -> guards c (ToUpperFast name) [key] (session_at e p) e = Ok None -> InMulti (session_at e p) = false ->
  agrees out (ExecuteCommandWithSession vs (Some p) c [name; key] e)
    (let '(k, r) := Keyspace.Get (ks e) (now (clk (vs 0%nat))) key in
     let e := set_ks k e in
     let full e := andThen (ExecuteCommandWithSession vs (Some p) c [name; key] e) (fun '(e, v) => ret (e, AppendValue v out, false)) in
     match r with
     | None => ret (e, out ++ respNull, false)
     | Some ent => if decide (Type_ ent = TypeString)
                   then match Value_ ent with VString s => ret (e, AppendBulkString out s, false) | _ => full e end else full e
     end).
Proof using.
  intros Hn HG HI.
  assert (Session.dispatch ParseFloat FormatFloat (vs 0%nat) c (str "GET") [key] e =
    Some ('(k, a) ← cmd_get (clk (vs 0%nat)) [key] (ks e); Ok (set_ks k e, a))) as HD by reflexivity.
  unfold cmd_get, reading in HD. destruct (Get _ _ _) as [k [ent|]] eqn:E; cbn [mbind res_bind] in HD.
  - pose proof E as E'. apply Get_unchanged in E' as ->. rewrite set_ks_same.
    destruct (decide _); [|apply agrees_full]. destruct (Value_ ent) as [s| | | | | |]; try apply agrees_full.
    eapply agrees_fast; [|apply same_view_refl|apply AppendValue_bulk_string]. rewrite <- (set_ks_same e) at 2. eapply (fast_run _ _ _ _ _ _ _ _ _ false); eauto.
  - eapply agrees_fast; [eapply (fast_run _ _ _ _ _ _ _ _ _ false); eauto|apply same_view_refl|reflexivity].
Qed.

Lemma del_agrees vs c p name key out e :
  ToUpperFast name = str "DEL" -> guards c (ToUpperFast name) [key] (session_at e p) e = Ok None -> InMulti (session_at e p) = false ->
  unobserved e = true -> MaxMemory e <= 0 ->
  agrees out (ExecuteCommandWithSession vs (Some p) c [name; key] e)
    (let '(k, n) := Keyspace.Delete (ks e) [key] in
     ret (set_ks k e, out ++ (if 0 <? n then str ":1" else str ":0") ++ CRLF, false)).
Proof using.
  intros Hn HG HI Hu HM.
  assert (Session.dispatch ParseFloat FormatFloat (vs 0%nat) c (str "DEL") [key] e =
    Some ('(k, a) ← cmd_del [key] (ks e); Ok (set_ks k e, a))) as HD by reflexivity.
  unfold cmd_del in HD. assert (((Delete (ks e) [key]).2 = 0) \/ ((Delete (ks e) [key]).2 = 1)) as Hn01.
  { unfold Delete. cbn [foldl delete_one]. destruct (look _ _); auto. }
  destruct (Delete _ _) as [k n]. eapply agrees_fast; [eapply fast_run; eauto|apply same_view_refl|].
  cbn [snd] in Hn01. destruct Hn01 as [-> | ->]; reflexivity.
Qed.

(** C5: for a command other than QUIT, of a client that the guards of the engine
    admit and that is not in MULTI, on an engine without a memory limit: what
    the reactor does (the fast paths for GET, SET, DEL, INCR, DECR and PING, the
    engine otherwise) appends the encoding of the reply the engine itself would
    give at the same time, faults when it would fault, and leaves an engine with
    the same entries and sessions, which may differ only in the counter of keys.
    (Where the guards refuse, the fast paths do differ; that is a finding.) *)
Theorem fast_paths_agree vs c p name rest out e
    (Hwf : wf (ks e)) (HM : MaxMemory e <= 0) (Hq : is_quit (name :: rest) = false)
    (Hg : isSimpleSession p e = true \/ is_ping name = true ->
          guards c (ToUpperFast name) rest (session_at e p) e = Ok None /\ InMulti (session_at e p) = false) :
  agrees out (ExecuteCommandWithSession vs (Some p) c (name :: rest) e)
    (executeCommand vs (now (clk (vs 0%nat))) c p (name :: rest) out e).
Proof using.
  unfold executeCommand. cbn [is_quit] in Hq.
  set (code3 := if (length name =? 3)%nat then AsCmd3 name else 0).
  set (code4 := if (length name =? 4)%nat then AsCmd4 name else 0).
  assert (code4 =? CmdQuit = false) as -> by (subst code4; destruct (length name =? 4)%nat; [exact Hq|reflexivity]).
  assert (code4 =? CmdPing = true -> is_ping name = true) as Hp by (subst code4; unfold is_ping; destruct (length name =? 4)%nat; [done|discriminate]).
  destruct rest as [|key [|val [|x rest]]]; [| | |apply agrees_full].
  - destruct (code4 =? CmdPing) eqn:E4; [|apply agrees_full].
    destruct Hg as [HG HI]; [auto|]. apply fast4_name in E4; [|reflexivity].
    eapply (agrees_fast _ _ _ _ (SimpleString (str "PONG"))); [|apply (same_view_refl e)|reflexivity]. rewrite <- (set_ks_same e) at 2. eapply (fast_run _ _ _ _ _ _ _ _ _ false); eauto; reflexivity.
  - destruct (isSimpleSession p e) eqn:ES; rewrite ?andb_true_r, ?andb_false_r; cbn [andb].
    2: { destruct (code4 =? CmdPing) eqn:E4; [|apply agrees_full].
         destruct Hg as [HG HI]; [auto|]. apply fast4_name in E4; [|reflexivity].
         eapply agrees_fast; [|apply (same_view_refl e)|apply AppendValue_bulk_string]. rewrite <- (set_ks_same e) at 2. eapply (fast_run _ _ _ _ _ _ _ _ _ false); eauto; reflexivity. }
    destruct Hg as [HG HI]; [auto|].
    destruct (code3 =? CmdGet) eqn:E3; [apply get_agrees; auto; by apply fast3_name in E3|].
    destruct ((code3 =? CmdDel) && unobserved e) eqn:Ed.
    { apply andb_prop in Ed as [Ed Hu]. apply fast3_name in Ed; [|reflexivity]. by apply del_agrees. }
    destruct (code4 =? CmdPing) eqn:E4.
    { apply fast4_name in E4; [|reflexivity].
      eapply agrees_fast; [|apply (same_view_refl e)|apply AppendValue_bulk_string]. rewrite <- (set_ks_same e) at 2. eapply (fast_run _ _ _ _ _ _ _ _ _ false); eauto; reflexivity. }
    destruct ((code4 =? CmdIncr) && unobserved e && (MaxMemory e =? 0)) eqn:Ei.
    { apply andb_prop in Ei as [[Ei Hu]%andb_prop _]. apply fast4_name in Ei; [|reflexivity]. eapply incr_agrees; eauto. }
    destruct ((code4 =? CmdDecr) && unobserved e && (MaxMemory e =? 0)) eqn:Ej; [|apply agrees_full].
    apply andb_prop in Ej as [[Ej Hu]%andb_prop _]. apply fast4_name in Ej; [|reflexivity]. eapply incr_agrees; eauto.
  - destruct (_ && (MaxMemory e =? 0)) eqn:Es; [|apply agrees_full].
    apply andb_prop in Es as [[[Es Hs]%andb_prop Hu]%andb_prop _]. apply fast3_name in Es; [|reflexivity].
    destruct Hg as [HG HI]; [auto|]. eapply (agrees_fast _ _ _ _ OK); [eapply (fast_run _ _ _ _ _ _ _ _ _ true); eauto; reflexivity| |reflexivity].
    split; [done|]. intros k. by apply SetString_look.
Qed.

End Server.

(** ** Accepting and closing connections *)

Section Accept.
Context {VectorIndex : Type}.

Record Client := mkClient { Fd : Z; ConnID : bytes; Session_ : nat }.

Record Server := mkServer {
  engine : @Session.Engine VectorIndex;
  conns : list Client;      (** the connections of all workers, by descriptor *)
  connCount : Z
}.

(** [acceptLoop] for one descriptor the system gave; the reply to a client that
    was turned away. *)
Definition accept_one (MaxClients fd : Z) (s : Server) : Server * bytes :=
  if (0 <? MaxClients) && (MaxClients <=? connCount s) then (s, str "-ERR max number of clients reached" ++ CRLF)
  else
    let n := int64 (connCount s + 1) in
    let id := str "conn-" ++ FormatInt n in
    let '(e, p) := GetClientSession id (engine s) in
    (mkServer e (mkClient fd id p :: filter (fun c => Fd c <> fd) (conns s)) n, []).

Definition lookup_fd (fd : Z) (s : Server) : option Client := snd <$> list_find (fun c => Fd c = fd) (conns s).

(** [closeConn] of the open connection with descriptor [fd]. *)
Definition close_one (fd : Z) (s : Server) : Server :=
  match lookup_fd fd s with
  | None => s
  | Some c => mkServer (ClearClientSession (ConnID c) (engine s)) (filter (fun c => Fd c <> fd) (conns s)) (int64 (connCount s - 1))
  end.

Inductive conn_event := Accept (fd : Z) | Close (fd : Z).

Definition on_event (MaxClients : Z) (s : Server) (ev : conn_event) : Server :=
  match ev with Accept fd => (accept_one MaxClients fd s).1 | Close fd => close_one fd s end.

(** A descriptor the system gives is not open. *)
Fixpoint fresh_fds (MaxClients : Z) (evs : list conn_event) (s : Server) : Prop :=
  match evs with
  | [] => True
  | ev :: evs' =>
      match ev with Accept fd => fd ∉ (Fd <$> conns s) | Close _ => True end /\
      fresh_fds MaxClients evs' (on_event MaxClients s ev)
  end.

Definition count_ok (MaxClients : Z) (s : Server) : Prop :=
  NoDup (Fd <$> conns s) /\ connCount s = Z.of_nat (length (conns s)) /\ (0 < MaxClients -> connCount s <= MaxClients).

Lemma filter_fresh fd (l : list Client) : fd ∉ (Fd <$> l) -> filter (fun c => Fd c <> fd) l = l.
Proof using.
  induction l as [|c l IH]; [done|]. csimpl. intros [? ?]%not_elem_of_cons. rewrite filter_cons_True by congruence. f_equal. auto.
Qed.

Lemma filter_fds fd (l : list Client) x : x ∈ (Fd <$> filter (fun c => Fd c <> fd) l) -> x ∈ (Fd <$> l).
Proof using. intros (c & -> & [_ H]%list_elem_of_filter)%list_elem_of_fmap. apply list_elem_of_fmap. eauto. Qed.

Lemma filter_fds_NoDup fd (l : list Client) : NoDup (Fd <$> l) -> NoDup (Fd <$> filter (fun c => Fd c <> fd) l).
Proof using.
  induction l as [|c l IH]; [done|]. csimpl. intros [? ?]%NoDup_cons. rewrite filter_cons. destruct (decide _); [|auto].
  csimpl. apply NoDup_cons. split; [|auto]. intros ?%filter_fds. done.
Qed.

Lemma filter_fd_length fd (l : list Client) c : NoDup (Fd <$> l) -> snd <$> list_find (fun c => Fd c = fd) l = Some c ->
  Z.of_nat (length (filter (fun c => Fd c <> fd) l)) = Z.of_nat (length l) - 1.
Proof using.
  induction l as [|c' l IH]; [done|]. csimpl. intros [Hn ?]%NoDup_cons. destruct (decide (Fd c' = fd)) as [<-|].
  - intros _. rewrite filter_cons_False by (intros H1; by apply H1). rewrite filter_fresh by done. lia.
  - intros H1. rewrite filter_cons_True by done. cbn [length]. rewrite Nat2Z.inj_succ, IH; [lia|done|].
    by destruct (list_find _ l) as [[]|].
Qed.

Lemma count_ok_step MaxClients ev s :
  count_ok MaxClients s -> Z.of_nat (length (conns s)) < 2 ^ 63 - 1 ->
  (match ev with Accept fd => fd ∉ (Fd <$> conns s) | Close _ => True end) ->
  count_ok MaxClients (on_event MaxClients s ev) /\ (length (conns (on_event MaxClients s ev)) <= S (length (conns s)))%nat.
Proof using.
  intros (HN & HC & HM) Hlt Hf. destruct ev as [fd|fd]; cbn [on_event].
  - unfold accept_one. destruct (_ && _) eqn:E; [cbn [fst]; split; [done|lia]|].
    destruct (GetClientSession _ _) as [e p]. cbn [fst conns connCount]. rewrite filter_fresh by done.
    split; [|cbn [length]; lia]. split; [csimpl; by apply NoDup_cons|]. cbn [conns connCount length].
    rewrite int64_id by (unfold is_int64; lia). split; [lia|]. intros ?. lia.
  - unfold close_one. destruct (lookup_fd fd s) as [c|] eqn:E; [|split; [done|lia]]. cbn [conns].
    pose proof (filter_fd_length fd (conns s) c HN E) as HL. unfold count_ok. cbn [conns connCount].
    rewrite int64_id by (unfold is_int64; lia). split; [|lia]. split; [by apply filter_fds_NoDup|]. split; [lia|]. intros ?. lia.
Qed.

(** The reactor never holds more connections than [MaxClients] when it is
    set, and its counter is their number, through any sequence of accepted and
    closed connections. *)
Theorem max_clients_respected MaxClients evs : forall s,
  count_ok MaxClients s -> Z.of_nat (length (conns s) + length evs) < 2 ^ 63 - 1 -> fresh_fds MaxClients evs s ->
  count_ok MaxClients (foldl (on_event MaxClients) s evs).
Proof using.
  induction evs as [|ev evs IH]; intros s HC Hlt HF; [done|]. cbn [foldl fresh_fds length] in *. destruct HF as [Hf HF].
  destruct (count_ok_step MaxClients ev s HC ltac:(lia) Hf) as [HC' HL]. apply IH; [done|lia|done].
Qed.

End Accept.

Definition sample_server (pass : bytes) : @Server unit := mkServer (new_engine pass) [] 0.

Lemma max_clients_respected_witness :
  count_ok 2 (foldl (on_event 2) (sample_server []) [Accept 7; Accept 8; Accept 9; Close 7; Accept 9]).
Proof.
  apply max_clients_respected.
  - split; [apply NoDup_nil_2|]. split; [reflexivity|]. vm_compute. discriminate.
  - reflexivity.
  - split; [apply not_elem_of_nil|]. split; [apply (bool_decide_unpack _); vm_compute; exact I|].
    split; [apply (bool_decide_unpack _); vm_compute; exact I|]. split; [exact I|].
    split; [apply (bool_decide_unpack _); vm_compute; exact I|]. exact I.
Defined.

(** The connection after which a client logged in. *)
Definition logged_in_server : @Server unit :=
  let s := foldl (on_event 0) (sample_server (str "pw")) [Accept 7; Accept 8] in
  mkServer (after (sample_execute (str "conn-2") [str "AUTH"; str "pw"] (engine s))) (conns s) (connCount s).

(** A connection accepted after another one was closed gets the name and with it
    the session of an open connection: it is logged in without a password. *)
Theorem connection_id_reused :
  let s := foldl (on_event 0) logged_in_server [Close 7; Accept 9] in
  map (fun c => (Fd c, ConnID c, Session_ c)) (conns s) = [(9, str "conn-2", 1%nat); (8, str "conn-2", 1%nat)] /\
  Authenticated (session_at (engine s) 1) = true.
Proof. split; vm_compute; reflexivity. Qed.

(** ** The fast paths at work *)

Definition fast_engine : @Session.Engine unit := (GetClientSession (str "c1") (new_engine [])).1.

Lemma fast_paths_agree_witness :
  agrees [] (Session.ExecuteCommandWithSession sample_float sample_text sample_env (Some 0%nat) (str "c1") [str "incr"; str "k"] fast_engine)
    (executeCommand sample_float sample_text sample_env 5 (str "c1") 0 [str "incr"; str "k"] [] fast_engine) /\
  (match executeCommand sample_float sample_text sample_env 5 (str "c1") 0 [str "incr"; str "k"] [] fast_engine with
   | Some (Ok (_, b, false)) => b = str ":1" ++ CRLF | _ => False end).
Proof.
  split; [|vm_compute; reflexivity].
  apply (fast_paths_agree sample_float sample_text sample_env (str "c1") 0 (str "incr") [str "k"] [] fast_engine).
  - apply NewKeyspace_wf.
  - vm_compute. discriminate.
  - reflexivity.
  - intros _. split; vm_compute; reflexivity.
Defined.

(** The fast GET asks no access list: a client confined to the keys of a pattern
    reads any string key, where the engine refuses it. *)
Theorem fast_get_ignores_acl :
  let e := set_ks other_keys tenant_engine in
  option_map (fun r => match r with Ok (_, b, _) => b | Err _ => [] end)
    (executeCommand sample_float sample_text sample_env 5 (str "b") 1 [str "get"; str "other"] [] e) = Some (SerializeArg (str "7")) /\
  reply (Session.ExecuteCommandWithSession sample_float sample_text sample_env (Some 1%nat) (str "b") [str "get"; str "other"] e) <>
    Some (BulkString (str "7")).
Proof. split; [vm_compute; reflexivity|]. vm_compute. discriminate. Qed.

(** The fast PING is answered before the client has given the password, and
    inside a transaction instead of being queued. *)
Theorem fast_ping_ignores_session :
  let answer e := option_map (fun r => match r with Ok (_, b, _) => b | Err _ => [] end)
    (executeCommand sample_float sample_text sample_env 5 (str "x") 0 [str "PING"] [] e) in
  let queued := after (sample_execute (str "x") [str "MULTI"] (new_engine [])) in
  answer guest_engine = Some respPONG /\ answer queued = Some respPONG /\
  reply (Session.ExecuteCommandWithSession sample_float sample_text sample_env (Some 0%nat) (str "x") [str "PING"] guest_engine) =
    Some (Error (str "NOAUTH Authentication required.")) /\
  reply (Session.ExecuteCommandWithSession sample_float sample_text sample_env (Some 0%nat) (str "x") [str "PING"] queued) =
    Some (SimpleString (str "QUEUED")).
Proof. repeat split; vm_compute; reflexivity. Qed.
