(* ===== verification/PubSub.v ===== *)
(** * Publish and subscribe (internal/pubsub/broker.go)

    The broker's table of subscribers, its operations, and the broker as a system
    of goroutines: [Publish] only holds the read lock, so publications run side by
    side with one another and with the subscribers that empty their queues. *)

From S2P Require Import Prelude Resp.

(** ** Data *)

(** A [Subscriber] is a Go channel with a buffer: [sub] is the identity of the
    channel, the store [queues] holds what is in it. *)
Abbreviation Subscriber := nat.

Record Queue := mkQueue { cap : nat; buf : list bytes }.

Abbreviation Queues := (gmap Subscriber Queue).
Abbreviation Broker := (gmap bytes (gset Subscriber)).

Definition NewBroker : Broker := ∅.

(** ** Operations *)

Definition Subscribe (channel : bytes) (sub : Subscriber) (b : Broker) : Broker :=
  let b := match b !! channel with Some _ => b | None => <[channel := ∅]> b end in
  <[channel := {[sub]} ∪ default ∅ (b !! channel)]> b.

Definition Unsubscribe (channel : bytes) (sub : Subscriber) (b : Broker) : Broker :=
  match b !! channel with
  | Some subs =>
      let subs := subs ∖ {[sub]} in
      if decide (subs = ∅) then delete channel b else <[channel := subs]> b
  | None => b
  end.

(** [for channel, subs := range b.subscribers]: [order] is the order in which the
    channels are visited. *)
Definition UnsubscribeAll (order : list bytes) (sub : Subscriber) (b : Broker) : Broker :=
  foldl (fun b channel => Unsubscribe channel sub b) b order.

(** [select { case sub <- message: delivered++ default: }]. *)
Definition send (message : bytes) (sub : Subscriber) (qs : Queues) : Queues * bool :=
  match qs !! sub with
  | Some q =>
      if (length (buf q) <? cap q)%nat then (<[sub := mkQueue (cap q) (buf q ++ [message])]> qs, true) else (qs, false)
  | None => (qs, false)
  end.

Fixpoint publish_loop (message : bytes) (subs : list Subscriber) (qs : Queues) (delivered : Z) : Queues * Z :=
  match subs with
  | [] => (qs, delivered)
  | sub :: subs =>
      let '(qs, ok) := send message sub qs in
      publish_loop message subs qs (if (ok : bool) then int64 (delivered + 1) else delivered)
  end.

(** [order] is the order in which the subscribers of a channel are visited. *)
Definition Publish (order : gset Subscriber -> list Subscriber) (channel message : bytes) (b : Broker) (qs : Queues) : Queues * Z :=
  match b !! channel with
  | None => (qs, 0)
  | Some subs => publish_loop message (order subs) qs 0
  end.

Definition ActiveChannels (order : Broker -> list bytes) (b : Broker) : list bytes := order b.

Definition NumSubscribers (channel : bytes) (b : Broker) : Z :=
  match b !! channel with Some subs => int64 (Z.of_nat (size subs)) | None => 0 end.

(** PUBLISH of the engine; the event that is sent to the dashboard is left out. *)
Definition cmd_publish (order : gset Subscriber -> list Subscriber) (args : list bytes) (b : Broker) (qs : Queues)
    : Queues * Resp.Value :=
  match args with
  | channel :: message :: _ =>
      let '(qs, delivered) := Publish order channel message b qs in (qs, Integer delivered)
  | _ => (qs, Error (str "ERR wrong number of arguments for 'publish' command"))
  end.

(** ** The table of subscribers *)

Implicit Types (b : Broker) (qs : Queues) (c channel : bytes) (sub q : Subscriber) (m message : bytes).

(** [sub] receives what is published on [c]. *)
Definition subscribers b c : gset Subscriber := default ∅ (b !! c).
Definition subscribed b c sub : Prop := sub ∈ subscribers b c.

(** No channel has an empty set of subscribers: a channel is in the table as long
    as somebody listens. *)
Definition broker_ok b : Prop := forall c subs, b !! c = Some subs -> subs <> ∅.

Lemma NewBroker_ok : broker_ok NewBroker.
Proof. intros c subs. unfold NewBroker. by rewrite lookup_empty. Qed.

Lemma Subscribe_insert c sub b : Subscribe c sub b = <[c := {[sub]} ∪ default ∅ (b !! c)]> b.
Proof. unfold Subscribe. destruct (b !! c) eqn:E; cbn zeta; [by rewrite E|]. by rewrite lookup_insert_eq, insert_insert_eq. Qed.

Lemma Subscribe_ok c sub b : broker_ok b -> broker_ok (Subscribe c sub b).
Proof.
  rewrite Subscribe_insert. intros Hb c' subs. rewrite lookup_insert_Some. intros [[<- <-]|[_ H]]; [set_solver|by eapply Hb].
Qed.

Lemma Subscribe_spec c sub b c' sub' : subscribed (Subscribe c sub b) c' sub' <-> (c' = c /\ sub' = sub) \/ subscribed b c' sub'.
Proof.
  rewrite Subscribe_insert. unfold subscribed, subscribers. destruct (decide (c' = c)) as [->|Hc].
  - rewrite lookup_insert_eq. set_solver.
  - rewrite lookup_insert_ne by done. set_solver.
Qed.

Lemma Unsubscribe_ok c sub b : broker_ok b -> broker_ok (Unsubscribe c sub b).
Proof.
  unfold Unsubscribe. intros Hb. destruct (b !! c) as [subs|] eqn:E; [|done]. case_decide as Hs; intros c' subs'.
  - rewrite lookup_delete_Some. intros [_ H]. by eapply Hb.
  - rewrite lookup_insert_Some. intros [[_ <-]|[_ H]]; [done|by eapply Hb].
Qed.

Lemma Unsubscribe_lookup c sub b :
  Unsubscribe c sub b !! c = subs ← b !! c; if decide (subs ∖ {[sub]} = ∅) then None else Some (subs ∖ {[sub]}).
Proof.
  unfold Unsubscribe. destruct (b !! c) as [subs|] eqn:E; [|done]. cbn [mbind option_bind].
  case_decide; [by rewrite lookup_delete_eq|by rewrite lookup_insert_eq].
Qed.

Lemma Unsubscribe_ne c sub b c' : c' <> c -> Unsubscribe c sub b !! c' = b !! c'.
Proof.
  unfold Unsubscribe. intros Hc. destruct (b !! c) as [subs|]; [|done]. case_decide; [by rewrite lookup_delete_ne|by rewrite lookup_insert_ne].
Qed.

Lemma Unsubscribe_spec c sub b c' sub' : subscribed (Unsubscribe c sub b) c' sub' <-> subscribed b c' sub' /\ ~ (c' = c /\ sub' = sub).
Proof.
  unfold subscribed, subscribers. destruct (decide (c' = c)) as [->|Hc].
  - rewrite Unsubscribe_lookup. destruct (b !! c) as [subs|]; [|set_solver]. cbn [mbind option_bind]. case_decide as Hs; set_solver.
  - rewrite Unsubscribe_ne by done. set_solver.
Qed.

Lemma UnsubscribeAll_ok order sub b : broker_ok b -> broker_ok (UnsubscribeAll order sub b).
Proof.
  revert b. induction order as [|c order IH]; intros b Hb; [done|]. apply IH. by apply Unsubscribe_ok.
Qed.

Lemma UnsubscribeAll_spec order sub b c' sub' :
  subscribed (UnsubscribeAll order sub b) c' sub' <-> subscribed b c' sub' /\ ~ (c' ∈ order /\ sub' = sub).
Proof.
  revert b. induction order as [|c order IH]; intros b; [set_solver|].
  change (UnsubscribeAll (c :: order) sub b) with (UnsubscribeAll order sub (Unsubscribe c sub b)).
  rewrite IH, Unsubscribe_spec, elem_of_cons. tauto.
Qed.

(** ** One publication on its own *)

Definition has_room qs sub : bool := match qs !! sub with Some q => (length (buf q) <? cap q)%nat | None => false end.

Definition push m (x : Queue) : Queue := mkQueue (cap x) (buf x ++ [m]).

Lemma send_spec m sub qs : send m sub qs = if has_room qs sub then (alter (push m) sub qs, true) else (qs, false).
Proof.
  unfold send, has_room. destruct (qs !! sub) as [x|] eqn:E; [|done]. destruct (_ <? _)%nat; [|done].
  f_equal. apply map_eq. intros i. destruct (decide (i = sub)) as [->|Hi]; [by rewrite lookup_insert_eq, lookup_alter_eq, E|by rewrite lookup_insert_ne, lookup_alter_ne].
Qed.

(** What a publication does to the queues. *)
Definition deliver m (subs : gset Subscriber) qs : Queues :=
  map_imap (fun q x => Some (if decide (q ∈ subs) then if has_room qs q then push m x else x else x)) qs.

Definition receivers (subs : gset Subscriber) qs : gset Subscriber := filter (fun q => has_room qs q = true) subs.

Lemma send_other m sub qs q : q <> sub -> (send m sub qs).1 !! q = qs !! q.
Proof. intros H. rewrite send_spec. destruct (has_room qs sub); [|done]. cbn [fst]. by rewrite lookup_alter_ne. Qed.

Lemma has_room_lookup qs qs' q : qs !! q = qs' !! q -> has_room qs q = has_room qs' q.
Proof. unfold has_room. by intros ->. Qed.

Lemma publish_loop_lookup m l : forall qs d q, NoDup l ->
  (publish_loop m l qs d).1 !! q = if decide (q ∈ l) then (send m q qs).1 !! q else qs !! q.
Proof.
  induction l as [|sub l IH]; intros qs d q Hl; cbn [publish_loop]; [by destruct (decide (q ∈ [])) as [H|]; [inversion H|]|].
  apply NoDup_cons in Hl as [Hsub Hl]. pose proof (send_other m sub qs q) as Ho. destruct (send m sub qs) as [qs1 ok] eqn:E. cbn [fst] in Ho.
  rewrite IH by done. destruct (decide (q = sub)) as [->|Hq].
  - rewrite decide_False by done. rewrite decide_True by (by left). by rewrite E.
  - specialize (Ho Hq). destruct (decide (q ∈ l)).
    + rewrite decide_True by (by right). rewrite !send_spec, (has_room_lookup qs1 qs) by done.
      destruct (has_room qs q); cbn [fst]; [|done]. by rewrite !lookup_alter_eq, Ho.
    + rewrite decide_False by (rewrite elem_of_cons; tauto). done.
Qed.

Lemma int64_add d k : int64 (int64 d + k) = int64 (d + k).
Proof.
  unfold int64. f_equal. replace ((d + 2 ^ 63) mod 2 ^ 64 - 2 ^ 63 + k + 2 ^ 63) with ((d + 2 ^ 63) mod 2 ^ 64 + k) by lia.
  rewrite Zplus_mod_idemp_l. f_equal. lia.
Qed.

Lemma publish_loop_count m l : forall qs d, is_int64 d -> NoDup l ->
  (publish_loop m l qs d).2 = int64 (d + Z.of_nat (length (List.filter (has_room qs) l))).
Proof.
  induction l as [|sub l IH]; intros qs d Hd Hl; cbn [publish_loop].
  - cbn [snd List.filter length]. by rewrite Z.add_0_r, int64_id.
  - apply NoDup_cons in Hl as [Hsub Hl].
    assert (List.filter (has_room (send m sub qs).1) l = List.filter (has_room qs) l) as HF.
    { apply List.filter_ext_in. intros q Hq%list_elem_of_In. apply has_room_lookup, send_other. by intros ->. }
    rewrite send_spec in *. cbn [List.filter]. destruct (has_room qs sub); cbn [fst] in HF; [|by apply IH].
    rewrite IH, HF by (done || apply int64_range). cbn [length]. rewrite int64_add. f_equal. lia.
Qed.

Section Publication.
Context (order : gset Subscriber -> list Subscriber) (Horder : forall s, order s ≡ₚ elements s).

Lemma order_NoDup s : NoDup (order s).
Proof using Horder. rewrite Horder. apply NoDup_elements. Qed.

Lemma order_elem s q : q ∈ order s <-> q ∈ s.
Proof using Horder. rewrite Horder. apply elem_of_elements. Qed.

(** A publication puts the message into the queue of every subscriber that has
    room, changes no other queue, and returns their number, in whatever order it
    visits them. *)
Lemma Publish_spec c m b qs :
  Publish order c m b qs = (deliver m (subscribers b c) qs, int64 (Z.of_nat (size (receivers (subscribers b c) qs)))).
Proof using Horder.
  unfold Publish, subscribers. destruct (b !! c) as [subs|]; cbn [default from_option id].
  - rewrite (surjective_pairing (publish_loop _ _ _ _)). f_equal.
    + apply map_eq. intros q. rewrite publish_loop_lookup by apply order_NoDup. unfold deliver. rewrite map_lookup_imap.
      destruct (decide (q ∈ order subs)) as [Hq|Hq]; rewrite order_elem in Hq.
      * rewrite send_spec. destruct (qs !! q) as [x|] eqn:E; cbn [mbind option_bind].
        -- rewrite decide_True by done. destruct (has_room qs q); cbn [fst]; [by rewrite lookup_alter_eq, E|done].
        -- unfold has_room. by rewrite E.
      * destruct (qs !! q); [|done]. cbn [mbind option_bind]. by rewrite decide_False.
    + rewrite publish_loop_count by (done || apply order_NoDup). rewrite Z.add_0_l. f_equal. f_equal.
      transitivity (size (list_to_set (C := gset nat) (List.filter (has_room qs) (order subs)))).
      * symmetry. apply size_list_to_set. apply NoDup_ListNoDup, List.NoDup_filter, NoDup_ListNoDup, order_NoDup.
      * f_equal. apply set_eq. intros q. unfold receivers. rewrite elem_of_list_to_set, elem_of_filter, list_elem_of_In, List.filter_In, <- list_elem_of_In, order_elem. tauto.
  - f_equal. apply map_eq. intros q. unfold deliver. rewrite map_lookup_imap. destruct (qs !! q); [|done]. cbn [mbind option_bind]. by rewrite decide_False by set_solver.
Qed.

End Publication.

(** ** The broker among goroutines

    [Publish] holds the read lock from the lookup of the subscribers to its return,
    the operations that change the table hold the write lock: they wait until no
    publication is under way.  Between two sends of a publication any other
    publication and any receiver may run. *)

(** A call of [Publish] that has not returned: the subscribers still to be visited
    and the count so far. *)
Record Publication := mkPublication { pub_channel : bytes; pub_message : bytes; todo : gset Subscriber; delivered : Z }.

(** What happened, the oldest event first. *)
Inductive event :=
| Started (i : nat) (channel : bytes) (subs : gset Subscriber)
| Sent (i : nat) (sub : Subscriber) (message : bytes) (ok : bool)
| Received (sub : Subscriber) (message : bytes)
| Returned (i : nat) (n : Z).

Record system := mkSystem { table : Broker; queues : Queues; active : gmap nat Publication; history : list event }.

Definition id_of (ev : event) : option nat :=
  match ev with Started i _ _ | Sent i _ _ _ | Returned i _ => Some i | Received _ _ => None end.

Definition fresh_id (i : nat) (h : list event) : Prop := Some i ∉ (id_of <$> h).

Inductive step : system -> system -> Prop :=
| step_make b qs act h sub n :
    qs !! sub = None -> step (mkSystem b qs act h) (mkSystem b (<[sub := mkQueue n []]> qs) act h)
| step_subscribe b qs h c sub : is_Some (qs !! sub) ->
    step (mkSystem b qs ∅ h) (mkSystem (Subscribe c sub b) qs ∅ h)
| step_unsubscribe b qs h c sub :
    step (mkSystem b qs ∅ h) (mkSystem (Unsubscribe c sub b) qs ∅ h)
| step_unsubscribe_all b qs h order sub :
    order ≡ₚ (map_to_list b).*1 -> step (mkSystem b qs ∅ h) (mkSystem (UnsubscribeAll order sub b) qs ∅ h)
| step_start b qs act h i c m :
    fresh_id i h ->
    step (mkSystem b qs act h) (mkSystem b qs (<[i := mkPublication c m (subscribers b c) 0]> act) (h ++ [Started i c (subscribers b c)]))
| step_send b qs act h i c m subs d sub qs' ok :
    act !! i = Some (mkPublication c m subs d) -> sub ∈ subs -> send m sub qs = (qs', ok) ->
    step (mkSystem b qs act h)
      (mkSystem b qs' (<[i := mkPublication c m (subs ∖ {[sub]}) (if (ok : bool) then int64 (d + 1) else d)]> act) (h ++ [Sent i sub m ok]))
| step_return b qs act h i c m d :
    act !! i = Some (mkPublication c m ∅ d) ->
    step (mkSystem b qs act h) (mkSystem b qs (delete i act) (h ++ [Returned i d]))
| step_receive b qs act h sub n m ms :
    qs !! sub = Some (mkQueue n (m :: ms)) ->
    step (mkSystem b qs act h) (mkSystem b (<[sub := mkQueue n ms]> qs) act (h ++ [Received sub m])).

Definition start : system := mkSystem NewBroker ∅ ∅ [].

(** *** Readings of the history *)

(** The messages that were put into the queue of [sub], and those taken out. *)
Definition put sub (h : list event) : list bytes :=
  omap (fun ev => match ev with Sent _ s m true => if decide (s = sub) then Some m else None | _ => None end) h.
Definition taken sub (h : list event) : list bytes :=
  omap (fun ev => match ev with Received s m => if decide (s = sub) then Some m else None | _ => None end) h.

(** The subscribers the publication [i] has visited, and those that took the message. *)
Definition visited (i : nat) (h : list event) : list Subscriber :=
  omap (fun ev => match ev with Sent j s _ _ => if decide (j = i) then Some s else None | _ => None end) h.
Definition took (i : nat) (h : list event) : list Subscriber :=
  omap (fun ev => match ev with Sent j s _ true => if decide (j = i) then Some s else None | _ => None end) h.

(** *** The invariant *)

Record pub_ok (s : system) (i : nat) (p : Publication) : Prop := {
  po_started : Started i (pub_channel p) (subscribers (table s) (pub_channel p)) ∈ history s;
  po_split : list_to_set (visited i (history s)) ∪ todo p = subscribers (table s) (pub_channel p);
  po_once : NoDup (visited i (history s));
  po_apart : list_to_set (visited i (history s)) ## todo p;
  po_count : delivered p = int64 (Z.of_nat (length (took i (history s))))
}.

(** A publication that has returned has visited each subscriber of its channel
    exactly once and returned the number of those that took the message. *)
Definition ret_ok (h : list event) (i : nat) (n : Z) : Prop :=
  exists c subs, Started i c subs ∈ h /\ visited i h ≡ₚ elements subs /\ n = int64 (Z.of_nat (length (took i h))).

Record system_ok (s : system) : Prop := {
  so_table : broker_ok (table s);
  so_made : forall c sub, subscribed (table s) c sub -> is_Some (queues s !! sub);
  so_fifo : forall sub x, queues s !! sub = Some x -> put sub (history s) = taken sub (history s) ++ buf x;
  so_idle : forall sub, queues s !! sub = None -> put sub (history s) = [] /\ taken sub (history s) = [];
  so_cap : forall sub x, queues s !! sub = Some x -> (length (buf x) <= cap x)%nat;
  so_active : forall i p, active s !! i = Some p -> pub_ok s i p;
  so_returned : forall i n, Returned i n ∈ history s -> active s !! i = None /\ ret_ok (history s) i n
}.

(** *** The invariant holds *)

Implicit Types (h : list event) (i j : nat) (ev : event) (act : gmap nat Publication).

Lemma put_app sub h h' : put sub (h ++ h') = put sub h ++ put sub h'.
Proof. apply omap_app. Qed.
Lemma taken_app sub h h' : taken sub (h ++ h') = taken sub h ++ taken sub h'.
Proof. apply omap_app. Qed.
Lemma visited_app i h h' : visited i (h ++ h') = visited i h ++ visited i h'.
Proof. apply omap_app. Qed.
Lemma took_app i h h' : took i (h ++ h') = took i h ++ took i h'.
Proof. apply omap_app. Qed.

Lemma visited_other i h ev : (forall sub m ok, ev <> Sent i sub m ok) -> visited i (h ++ [ev]) = visited i h /\ took i (h ++ [ev]) = took i h.
Proof.
  intros Hev. rewrite visited_app, took_app. destruct ev as [|j s m ok| |]; rewrite ?app_nil_r; try done.
  assert (j <> i) as Hj by (intros ->; by eapply Hev). cbn. destruct ok; rewrite ?decide_False by done; by rewrite !app_nil_r.
Qed.

Lemma unknown_visited i h : fresh_id i h -> visited i h = [] /\ took i h = [].
Proof.
  unfold fresh_id. induction h as [|ev h IH]; [done|]. rewrite fmap_cons, not_elem_of_cons. intros [Hev Hh].
  change (ev :: h) with ([ev] ++ h). rewrite visited_app, took_app. destruct (IH Hh) as [-> ->].
  destruct ev as [|j s m ok| |]; try done. cbn in *. assert (j <> i) by congruence. destruct ok; by rewrite ?decide_False.
Qed.

Lemma known_id i h ev : ev ∈ h -> id_of ev = Some i -> ~ fresh_id i h.
Proof. intros Hin Hid Hf. apply Hf. rewrite <- Hid. by apply list_elem_of_fmap_2. Qed.

Lemma pub_ok_app b qs act h i p b' qs' act' ev : b' = b ->
  (forall sub m ok, ev <> Sent i sub m ok) -> pub_ok (mkSystem b qs act h) i p -> pub_ok (mkSystem b' qs' act' (h ++ [ev])) i p.
Proof.
  intros -> Hev [H1 H2 H3 H4 H5]. destruct (visited_other i h ev Hev) as [Ev Et]. split; cbn [history table] in *; rewrite ?Ev, ?Et; try done.
  apply elem_of_app. by left.
Qed.

Lemma pub_ok_same b qs act h i p qs' act' : pub_ok (mkSystem b qs act h) i p -> pub_ok (mkSystem b qs' act' h) i p.
Proof. by intros [H1 H2 H3 H4 H5]. Qed.

Lemma ret_ok_app h i n ev : (forall sub m ok, ev <> Sent i sub m ok) -> ret_ok h i n -> ret_ok (h ++ [ev]) i n.
Proof.
  intros Hev (c & subs & H1 & H2 & H3). destruct (visited_other i h ev Hev) as [Ev Et]. exists c, subs. rewrite Ev, Et.
  split_and!; [apply elem_of_app; by left|done..].
Qed.

(** The table changes while no publication is under way. *)
Lemma table_ok b b' qs h : system_ok (mkSystem b qs ∅ h) -> broker_ok b' ->
  (forall c sub, subscribed b' c sub -> subscribed b c sub \/ is_Some (qs !! sub)) -> system_ok (mkSystem b' qs ∅ h).
Proof.
  intros [H1 H2 H3 H4 H5 H6 H7] Hb Hs. split; try done.
  intros c sub [H|H]%Hs; [by eapply H2|done].
Qed.

Lemma start_system_ok : system_ok start.
Proof.
  split; cbn [start table queues active history]; try (intros ?? H; by rewrite lookup_empty in H); try done.
  intros c sub. unfold subscribed, subscribers, NewBroker. rewrite lookup_empty. set_solver.
Qed.

Lemma elem_of_snoc {A} (x y : A) (l : list A) : x ∈ l ++ [y] <-> x ∈ l \/ x = y.
Proof. rewrite elem_of_app, list_elem_of_singleton. done. Qed.

(** An event other than a send leaves what the history says of the sends alone. *)
Lemma returned_app b qs act h ev qs' act' : system_ok (mkSystem b qs act h) ->
  (forall i sub m ok, ev = Sent i sub m ok -> is_Some (act !! i)) -> (forall i n, ev <> Returned i n) ->
  (forall i n, Returned i n ∈ h -> act !! i = None -> act' !! i = None) ->
  forall i n, Returned i n ∈ h ++ [ev] -> act' !! i = None /\ ret_ok (h ++ [ev]) i n.
Proof.
  intros HS Hsent Hret Hact i n [H|H]%elem_of_snoc; [|by edestruct Hret].
  destruct (so_returned _ HS i n H) as [Ha Hr]. cbn [active history] in *. split; [by eapply Hact|].
  apply ret_ok_app; [|done]. intros sub m ok Hev. destruct (Hsent _ _ _ _ Hev). congruence.
Qed.

Lemma start_step_ok b qs act h i c m : fresh_id i h -> system_ok (mkSystem b qs act h) ->
  system_ok (mkSystem b qs (<[i := mkPublication c m (subscribers b c) 0]> act) (h ++ [Started i c (subscribers b c)])).
Proof.
  intros Hi HS. pose proof HS as [H1 H2 H3 H4 H5 H6 H7]. cbn [table queues active history] in *. split; cbn [table queues active history]; try done.
  - intros sub x Hx. rewrite put_app, taken_app, !app_nil_r. by apply H3.
  - intros sub Hx. rewrite put_app, taken_app, !app_nil_r. by apply H4.
  - intros j p. rewrite lookup_insert_Some. intros [[<- <-]|[Hj Hp]].
    + destruct (unknown_visited i h Hi) as [Ev Et]. destruct (visited_other i h (Started i c (subscribers b c))) as [Ev' Et']; [done|].
      split; cbn [table history pub_channel todo delivered]; rewrite ?Ev', ?Et', ?Ev, ?Et; [apply elem_of_snoc; by right|set_solver|constructor|set_solver|done].
    + by apply (pub_ok_app b qs act); [| |apply H6].
  - apply (returned_app b qs act); try done. intros j n Hj Ha. rewrite lookup_insert_ne; [done|]. intros <-. by eapply known_id in Hi.
Qed.

Lemma return_step_ok b qs act h i c m d : act !! i = Some (mkPublication c m ∅ d) -> system_ok (mkSystem b qs act h) ->
  system_ok (mkSystem b qs (delete i act) (h ++ [Returned i d])).
Proof.
  intros Hi HS. pose proof HS as [H1 H2 H3 H4 H5 H6 H7]. cbn [table queues active history] in *. split; cbn [table queues active history]; try done.
  - intros sub x Hx. rewrite put_app, taken_app, !app_nil_r. by apply H3.
  - intros sub Hx. rewrite put_app, taken_app, !app_nil_r. by apply H4.
  - intros j p. rewrite lookup_delete_Some. intros [Hj Hp]. by apply (pub_ok_app b qs act); [| |apply H6].
  - intros j n [H|H]%elem_of_snoc.
    + destruct (H7 j n H) as [Ha Hr]. split; [by rewrite lookup_delete_None; right|by apply ret_ok_app].
    + injection H as -> ->. split; [apply lookup_delete_eq|]. apply ret_ok_app; [done|].
      destruct (H6 _ _ Hi) as [P1 P2 P3 _ P5]. cbn [table history pub_channel todo delivered] in *. exists c, (subscribers b c). split_and!; [done| |done].
      apply NoDup_Permutation; [done|apply NoDup_elements|]. intros q. rewrite elem_of_elements, <- P2. set_solver.
Qed.

Lemma receive_step_ok b qs act h sub n m ms : qs !! sub = Some (mkQueue n (m :: ms)) -> system_ok (mkSystem b qs act h) ->
  system_ok (mkSystem b (<[sub := mkQueue n ms]> qs) act (h ++ [Received sub m])).
Proof.
  intros Hq HS. pose proof HS as [H1 H2 H3 H4 H5 H6 H7]. cbn [table queues active history] in *. split; cbn [table queues active history]; try done.
  - intros c q Hc. rewrite lookup_insert_is_Some'. right. by eapply H2.
  - intros q x. rewrite put_app, taken_app, app_nil_r, lookup_insert_Some. cbn. intros [[<- <-]|[Hne Hx]].
    + rewrite decide_True by done. cbn [buf]. rewrite <- app_assoc. by apply (H3 _ _ Hq).
    + rewrite decide_False by done. rewrite app_nil_r. by apply H3.
  - intros q [Hx Hne]%lookup_insert_None. rewrite put_app, taken_app. cbn. rewrite decide_False by done. rewrite !app_nil_r. by apply H4.
  - intros q x. rewrite lookup_insert_Some. intros [[<- <-]|[Hne Hx]]; [|by eapply H5]. apply H5 in Hq. cbn in *. lia.
  - intros j p Hp. by apply (pub_ok_app b qs act); [| |apply H6].
  - by apply (returned_app b qs act).
Qed.

(** The publication that sends: one more subscriber is visited. *)
Lemma pub_ok_sent b qs act h i c m subs d sub qs' act' ok : sub ∈ subs ->
  pub_ok (mkSystem b qs act h) i (mkPublication c m subs d) ->
  pub_ok (mkSystem b qs' act' (h ++ [Sent i sub m ok])) i (mkPublication c m (subs ∖ {[sub]}) (if (ok : bool) then int64 (d + 1) else d)).
Proof.
  intros Hsub [P1 P2 P3 P4 P5]. cbn [table history pub_channel todo delivered] in *.
  assert (visited i [Sent i sub m ok] = [sub]) as Ev by (cbn; by rewrite decide_True).
  split; cbn [table history pub_channel todo delivered]; rewrite ?visited_app, ?Ev.
  - apply elem_of_snoc. by left.
  - rewrite <- P2, list_to_set_app_L. cbn. apply set_eq. intros q. destruct (decide (q = sub)); set_solver.
  - apply NoDup_app. split_and!; [done| |apply NoDup_singleton]. intros q Hq ->%list_elem_of_singleton. set_solver.
  - rewrite list_to_set_app_L. set_solver.
  - rewrite took_app, length_app. destruct ok; cbn.
    + rewrite decide_True by done. rewrite P5. cbn [length]. rewrite (int64_add _ 1). f_equal. lia.
    + rewrite P5. f_equal. lia.
Qed.

Lemma send_step_ok b qs act h i c m subs d sub qs' ok :
  act !! i = Some (mkPublication c m subs d) -> sub ∈ subs -> send m sub qs = (qs', ok) -> system_ok (mkSystem b qs act h) ->
  system_ok (mkSystem b qs' (<[i := mkPublication c m (subs ∖ {[sub]}) (if (ok : bool) then int64 (d + 1) else d)]> act) (h ++ [Sent i sub m ok])).
Proof.
  intros Hi Hsub Hsend HS. pose proof HS as [H1 H2 H3 H4 H5 H6 H7]. cbn [table queues active history] in *.
  rewrite send_spec in Hsend. unfold has_room in Hsend.
  assert (forall q, put q [Sent i sub m ok] = if ok then if decide (sub = q) then [m] else [] else []) as Eput.
  { intros q. cbn. destruct ok; [|done]. by destruct (decide (sub = q)). }
  assert (forall q x, qs' !! q = Some x -> exists y, qs !! q = Some y /\ cap x = cap y /\ buf x = buf y ++ put q [Sent i sub m ok] /\ (length (buf x) <= cap x)%nat) as Hq.
  { intros q x. rewrite Eput. destruct (qs !! sub) as [y|] eqn:E; [destruct (_ <? _)%nat eqn:Er|]; injection Hsend as <- <-.
    - rewrite lookup_alter_Some. intros [(<- & y' & Hy & ->)|[Hne Hx]].
      + rewrite decide_True by done. exists y'. cbn. rewrite length_app. simplify_eq. apply Nat.ltb_lt in Er. cbn. split_and!; (done || lia).
      + rewrite decide_False by done. exists x. rewrite app_nil_r. split_and!; try done. by eapply H5.
    - intros Hx. exists x. rewrite app_nil_r. split_and!; try done. by eapply H5.
    - intros Hx. exists x. rewrite app_nil_r. split_and!; try done. by eapply H5. }
  assert (forall q, qs' !! q = None -> qs !! q = None /\ put q [Sent i sub m ok] = []) as Hn.
  { intros q. rewrite Eput. destruct (qs !! sub) as [y|] eqn:E; [destruct (_ <? _)%nat eqn:Er|]; injection Hsend as <- <-; [|done..].
    rewrite lookup_alter_None. intros Hx. split; [done|]. rewrite decide_False; [done|]. intros <-. congruence. }
  clear Hsend Eput. split; cbn [table queues active history]; try done.
  - intros c' q Hc. destruct (H2 c' q Hc) as [y Hy]. destruct (qs' !! q) eqn:E; [done|]. apply Hn in E as [E _]. congruence.
  - intros q x Hx. destruct (Hq q x Hx) as (y & Hy & _ & -> & _). rewrite put_app, taken_app, app_nil_r, (H3 q y Hy). by rewrite app_assoc.
  - intros q Hx. destruct (Hn q Hx) as [Hy E]. rewrite put_app, taken_app, E, !app_nil_r. by apply H4.
  - intros q x Hx. by destruct (Hq q x Hx) as (y & _ & _ & _ & ?).
  - intros j p. rewrite lookup_insert_Some. intros [[<- <-]|[Hj Hp]].
    + by apply (pub_ok_sent b qs act), H6.
    + apply (pub_ok_app b qs act); [done| |by apply H6]. intros ??? [= ? ? ? ?]. congruence.
  - apply (returned_app b qs act); try done.
    + intros ???? [= <- ? ? ?]. by eexists.
    + intros j n _ Hj. rewrite lookup_insert_ne; [done|]. intros <-. congruence.
Qed.

Lemma step_ok s s' : step s s' -> system_ok s -> system_ok s'.
Proof.
  destruct 1 as [b qs act h sub n Hq|b qs h c sub Hq|b qs h c sub|b qs h order sub Ho|b qs act h i c m Hi|b qs act h i c m subs d sub qs' ok Hi Hs Hsend|b qs act h i c m d Hi|b qs act h sub n m ms Hq].
  - intros [H1 H2 H3 H4 H5 H6 H7]. cbn [table queues active history] in *. split; cbn [table queues active history]; try done.
    + intros c q Hc. rewrite lookup_insert_is_Some'. right. by eapply H2.
    + intros q x. rewrite lookup_insert_Some. intros [[<- <-]|[_ Hx]]; [|by apply H3]. by destruct (H4 sub Hq) as [-> ->].
    + intros q [Hx _]%lookup_insert_None. by apply H4.
    + intros q x. rewrite lookup_insert_Some. intros [[<- <-]|[_ Hx]]; [cbn; lia|by eapply H5].
    + intros i p Hp. by eapply pub_ok_same, H6.
  - intros HS. apply (table_ok b); [done|apply Subscribe_ok, HS|]. intros c' q [[-> ->]|H]%Subscribe_spec; [by right|by left].
  - intros HS. apply (table_ok b); [done|apply Unsubscribe_ok, HS|]. intros c' q [H _]%Unsubscribe_spec. by left.
  - intros HS. apply (table_ok b); [done|apply UnsubscribeAll_ok, HS|]. intros c' q [H _]%UnsubscribeAll_spec. by left.
  - by apply start_step_ok.
  - by eapply send_step_ok.
  - by eapply return_step_ok.
  - by apply receive_step_ok.
Qed.

Lemma steps_ok s s' : rtc step s s' -> system_ok s -> system_ok s'.
Proof. induction 1 as [|x y z Hxy _ IH]; [done|]. intros Hx. by eapply IH, step_ok. Qed.

(** A publication under way returns without the help of anybody else, full queues
    or not: the steps are its own. *)
Lemma publication_returns b qs act h i c m subs d : act !! i = Some (mkPublication c m subs d) ->
  exists qs' sends n, nsteps step (size subs + 1) (mkSystem b qs act h) (mkSystem b qs' (delete i act) (h ++ sends ++ [Returned i n])) /\
    Forall (fun ev => exists sub ok, ev = Sent i sub m ok) sends.
Proof.
  remember (size subs) as k eqn:Hk. revert qs act h subs d Hk. induction k as [|k IH]; intros qs act h subs d Hk Hi.
  - symmetry in Hk. apply size_empty_inv in Hk. fold_leibniz. subst subs. exists qs, [], d. split; [|constructor].
    apply nsteps_once. by eapply step_return.
  - destruct (size_pos_elem_of subs) as [sub Hsub]; [lia|]. destruct (send m sub qs) as [qs1 ok] eqn:Es.
    destruct (IH qs1 (<[i := mkPublication c m (subs ∖ {[sub]}) (if ok then int64 (d + 1) else d)]> act) (h ++ [Sent i sub m ok])
      (subs ∖ {[sub]}) (if ok then int64 (d + 1) else d)) as (qs' & sends & n & Hn & Hs).
    { rewrite size_difference, size_singleton by set_solver. lia. }
    { apply lookup_insert_eq. }
    rewrite delete_insert_eq in Hn. exists qs', (Sent i sub m ok :: sends), n. split; [|constructor; [by eexists _, _|done]].
    eapply nsteps_l; [by eapply step_send|]. by rewrite <- app_assoc in Hn.
Qed.

(** C12: in every run of the broker, with publications, subscriptions and receivers
    interleaved as the locks allow: each subscriber receives the messages that were
    put into its queue, in that order, without loss or repetition, and a queue never
    exceeds its capacity; a publication that returned has visited every subscriber its
    channel had when it started exactly once, and its answer is the number of those
    that took the message; and a publication under way can always run to its return
    by its own steps, one for each subscriber still to be visited and one more. *)
Theorem broker_delivers s : rtc step start s ->
  (forall sub x, queues s !! sub = Some x ->
     put sub (history s) = taken sub (history s) ++ buf x /\ (length (buf x) <= cap x)%nat) /\
  (forall i n, Returned i n ∈ history s -> exists c subs, Started i c subs ∈ history s /\
     visited i (history s) ≡ₚ elements subs /\ n = int64 (Z.of_nat (length (took i (history s))))) /\
  (forall i p, active s !! i = Some p -> exists s' sends n, nsteps step (size (todo p) + 1) s s' /\
     history s' = history s ++ sends ++ [Returned i n] /\ active s' !! i = None).
Proof.
  intros H. apply steps_ok in H; [|apply start_system_ok]. split_and!.
  - intros sub x Hx. split; [by apply H|by eapply H].
  - intros i n Hi. by apply H in Hi as [_ ?].
  - intros i [c m subs d] Hi. destruct s as [b qs act h]. cbn [active history todo] in *.
    destruct (publication_returns b qs act h i c m subs d Hi) as (qs' & sends & n & Hn & _).
    eexists _, sends, n. split; [exact Hn|]. split; [done|]. apply lookup_delete_eq.
Qed.

(** One subscriber with room for one message, two publications that run side by
    side, and the receiver between them. *)
Definition news : bytes := str "news".
Definition one_subscriber : Broker := Subscribe news 7%nat NewBroker.

Lemma one_subscriber_news : subscribers one_subscriber news = {[7%nat]}.
Proof. apply (bool_decide_unpack _). vm_compute. exact I. Qed.

Lemma two_publications : exists s, rtc step start s /\
  history s = [Started 0 news {[7%nat]}; Started 1 news {[7%nat]}; Sent 1 7 (str "b") true; Sent 0 7 (str "a") false;
    Received 7 (str "b"); Returned 0 0] /\ is_Some (active s !! 1%nat).
Proof.
  eexists. split; [|split].
  - eapply rtc_l; [apply (step_make _ _ _ _ 7 1); apply lookup_empty|].
    eapply rtc_l; [apply (step_subscribe _ _ _ news 7); rewrite lookup_insert_eq; by eexists|]. fold one_subscriber.
    eapply rtc_l; [apply (step_start _ _ _ _ 0 news (str "a")); unfold fresh_id; cbn; set_solver|]. rewrite one_subscriber_news.
    eapply rtc_l; [apply (step_start _ _ _ _ 1 news (str "b")); unfold fresh_id; cbn; set_solver|]. rewrite one_subscriber_news.
    eapply rtc_l; [eapply (step_send _ _ _ _ 1 news (str "b") _ _ 7); [apply lookup_insert_eq|set_solver|unfold send; rewrite lookup_insert_eq; reflexivity]|].
    eapply rtc_l; [eapply (step_send _ _ _ _ 0 news (str "a") _ _ 7); [rewrite !lookup_insert_ne by done; apply lookup_insert_eq|set_solver|unfold send; rewrite lookup_insert_eq; reflexivity]|].
    eapply rtc_l; [eapply (step_receive _ _ _ _ 7 1 (str "b") []); apply lookup_insert_eq|].
    eapply rtc_l; [eapply (step_return _ _ _ _ 0 news (str "a") 0); rewrite lookup_insert_eq; do 2 f_equal; set_solver|].
    apply rtc_refl.
  - cbn [history app]. reflexivity.
  - cbn [active]. rewrite lookup_delete_ne, lookup_insert_ne, lookup_insert_eq by done. by eexists.
Qed.

Lemma broker_delivers_witness : exists s, rtc step start s /\ put 7%nat (history s) = [str "b"] /\
  (forall x, queues s !! 7%nat = Some x -> put 7%nat (history s) = taken 7%nat (history s) ++ buf x /\ (length (buf x) <= cap x)%nat) /\
  (exists c subs, Started 0 c subs ∈ history s /\ visited 0 (history s) ≡ₚ elements subs) /\
  exists s' sends n, rtc step s s' /\ history s' = history s ++ sends ++ [Returned 1 n].
Proof.
  destruct two_publications as (s & Hs & Hh & [p Hp]). exists s. destruct (broker_delivers s Hs) as (H1 & H2 & H3). split_and!.
  - exact Hs.
  - rewrite Hh. vm_compute. reflexivity.
  - apply H1.
  - destruct (H2 0%nat 0) as (c & subs & Hc & Hv & _); [rewrite Hh; set_solver|]. by exists c, subs.
  - destruct (H3 1%nat p Hp) as (s' & sends & n & Hn & Hh' & _). exists s', sends, n. split; [apply rtc_nsteps; by eexists|done].
Defined.
