(* ===== verification/TcpServer.v ===== *)
(** * The connection server (internal/server/tcp.go)

    The accept loop, the loop that serves a connection command by command on the
    buffered reader and writer, the loop of a connection that has subscribed, and
    the clean-up when a connection ends. *)

From S2P Require Import Prelude Resp SkipList Keyspace Commands CommandLaws Acl Session SessionLaws Access Transactions VectorCommands PubSub.

(** ** The buffered reader *)

(** [buffered] is what has been read from the socket and not yet consumed, [coming]
    is what the next reads of the socket return, each of at least one byte; after
    them the socket is at its end. *)
Record reader := mkReader { buffered : bytes; coming : list bytes }.

Definition unread (r : reader) : bytes := buffered r ++ concat (coming r).

(** The socket is read only while the [n] bytes that are asked for are not there. *)
Fixpoint fill (n : nat) (b : bytes) (chunks : list bytes) : reader :=
  match chunks with
  | c :: chunks' => if (n <=? length b)%nat then mkReader b chunks else fill n (b ++ c) chunks'
  | [] => mkReader b []
  end.

Definition consume (n : nat) (r : reader) : reader :=
  let r := fill n (buffered r) (coming r) in mkReader (drop n (buffered r)) (coming r).

Definition next_command (r : reader) : res rerr (list bytes * reader) :=
  '(args, rest) ← Resp.ReadCommand (unread r);
  Ok (args, consume (length (unread r) - length rest) r).

(** ** The buffered writer *)

(** [sent] is what the socket has taken and [pending] what the buffer holds;
    [limit] is the number of bytes after which the socket fails, if it does, and
    [broken] the error the writer keeps from then on. *)
Record writer := mkWriter { sent : bytes; pending : bytes; limit : option nat; broken : bool }.

Definition writeBufSize : nat := 65536.

(** [d] is handed to the socket. *)
Definition forward (d : bytes) (keep : bytes) (w : writer) : writer :=
  match limit w with
  | Some n =>
      if (length (sent w ++ d) <=? n)%nat then mkWriter (sent w ++ d) keep (limit w) false
      else mkWriter (take n (sent w ++ d)) keep (limit w) true
  | None => mkWriter (sent w ++ d) keep (limit w) false
  end.

Definition Flush (w : writer) : writer :=
  if broken w then w else match pending w with [] => w | _ => forward (pending w) [] w end.

(** How much of [n] buffered and new bytes stays in the buffer.  A string is copied
    through the buffer piece by piece; a slice that is larger than the buffer, once
    it is empty, is handed to the socket as it is. *)
Definition kept_string (n : nat) : nat := S ((n - 1) mod writeBufSize).
Definition kept_slice (old n : nat) : nat :=
  match old with
  | O => 0
  | _ => if (n - writeBufSize <=? writeBufSize)%nat then n - writeBufSize else 0
  end.

Inductive piece := Str (s : bytes) | Slice (b : bytes).

Definition piece_bytes (p : piece) : bytes := match p with Str s => s | Slice b => b end.

Definition write_piece (w : writer) (p : piece) : writer :=
  if broken w then w
  else
    let all := pending w ++ piece_bytes p in
    if (length all <=? writeBufSize)%nat then mkWriter (sent w) all (limit w) false
    else
      let keep := match p with Str _ => kept_string (length all) | Slice _ => kept_slice (length (pending w)) (length all) end in
      let n := (length all - keep)%nat in
      forward (take n all) (drop n all) w.

Definition write (ps : list piece) (w : writer) : writer := foldl write_piece w ps.

(** *** The writes of [resp.Writer] *)

Definition w_simple (s : bytes) : list piece :=
  if decide (s = str "OK") then [Slice respOK]
  else if decide (s = str "PONG") then [Slice respPONG]
  else [Str [SimpleStringPrefix]; Str s; Slice CRLF].

Definition w_error (msg : bytes) : list piece := [Str [ErrorPrefix]; Str msg; Slice CRLF].

Definition w_integer (n : Z) : list piece :=
  if n =? 0 then [Slice respZeroInt]
  else if n =? 1 then [Slice respOneInt]
  else [Str [IntegerPrefix]; Str (FormatInt n); Slice CRLF].

Definition w_bulk_string (s : bytes) : list piece :=
  [Str [BulkStringPrefix]; Str (Itoa (length s)); Slice CRLF; Str s; Slice CRLF].

Definition w_bulk_bytes (b : option bytes) : list piece :=
  match b with
  | None => [Slice respNull]
  | Some b => [Str [BulkStringPrefix]; Str (Itoa (length b)); Slice CRLF; Slice b; Slice CRLF]
  end.

Definition w_array_header (n : nat) : list piece := [Str [ArrayPrefix]; Str (Itoa n); Slice CRLF].

Fixpoint w_value (v : Resp.Value) : list piece :=
  match v with
  | MkValue t s n b a bo nul =>
      if decide (t = SimpleStringPrefix) then w_simple s
      else if decide (t = ErrorPrefix) then w_error s
      else if decide (t = IntegerPrefix) then w_integer n
      else if decide (t = BulkStringPrefix) then if nul then [Slice respNull] else w_bulk_bytes b
      else if decide (t = ArrayPrefix) then
        if nul then [Slice respNullArray] else w_array_header (length a) ++ concat (map w_value a)
      else w_bulk_string (Value_String v)
  end.

(** *** What the reader and the writer promise *)

Implicit Types (r : reader) (w : writer) (n : nat) (ps : list piece).

Lemma fill_unread n chunks : forall b, (n <= length (b ++ concat chunks))%nat ->
  unread (fill n b chunks) = b ++ concat chunks /\ (n <= length (buffered (fill n b chunks)))%nat.
Proof.
  unfold unread. induction chunks as [|c chunks IH]; intros b Hn; cbn [fill concat] in *; [by rewrite app_nil_r in Hn|].
  destruct (Nat.leb_spec n (length b)); [done|]. rewrite app_assoc in *. by apply IH.
Qed.

Lemma consume_spec n r : (n <= length (unread r))%nat -> unread (consume n r) = drop n (unread r).
Proof.
  intros Hn. destruct (fill_unread n (coming r) (buffered r) Hn) as [H1 H2]. unfold consume, unread in *. cbn [buffered coming].
  rewrite <- H1, drop_app. by replace (n - length (buffered (fill n (buffered r) (coming r))))%nat with 0%nat by lia.
Qed.

Lemma next_command_spec r args rest : Resp.ReadCommand (unread r) = Ok (args, rest) -> rest `suffix_of` unread r ->
  exists r', next_command r = Ok (args, r') /\ unread r' = rest.
Proof.
  intros E [pre Hpre]. unfold next_command. rewrite E. cbn. eexists. split; [done|]. rewrite consume_spec by lia.
  rewrite Hpre, length_app. replace (length pre + length rest - length rest)%nat with (length pre) by lia. apply drop_app_length.
Qed.

(** [total] was written: all of it is with the socket or in the buffer, or the socket
    has failed after a prefix. *)
Definition carries w (total : bytes) : Prop :=
  if broken w then sent w `prefix_of` total else sent w ++ pending w = total.

Lemma forward_carries d keep w total : sent w ++ d ++ keep = total -> carries (forward d keep w) total.
Proof.
  unfold forward, carries. intros <-. destruct (limit w) as [n|]; [destruct (_ <=? _)%nat|]; cbn [broken sent pending].
  - by rewrite app_assoc.
  - rewrite app_assoc. apply prefix_app_r. exists (drop n (sent w ++ d)). by rewrite take_drop.
  - by rewrite app_assoc.
Qed.

Lemma forward_limit d keep w : limit (forward d keep w) = limit w /\ (limit w = None -> broken (forward d keep w) = false).
Proof. unfold forward. by destruct (limit w) as [n|]; [destruct (_ <=? _)%nat|]. Qed.

Lemma write_piece_carries w p total : carries w total -> carries (write_piece w p) (total ++ piece_bytes p).
Proof.
  intros H. unfold write_piece. destruct (broken w) eqn:Eb; unfold carries in H; rewrite Eb in H.
  - unfold carries. rewrite Eb. by apply prefix_app_r.
  - subst total. rewrite <- app_assoc. set (all := pending w ++ piece_bytes p). destruct (_ <=? _)%nat; [done|].
    apply forward_carries. by rewrite take_drop.
Qed.

Lemma write_piece_limit w p : limit (write_piece w p) = limit w /\ (limit w = None -> broken w = false -> broken (write_piece w p) = false).
Proof.
  unfold write_piece. destruct (broken w) eqn:Eb; [by rewrite Eb|]. destruct (_ <=? _)%nat; [done|].
  match goal with |- context [forward ?d ?keep w] => destruct (forward_limit d keep w) as [-> H] end. auto.
Qed.

Lemma write_spec ps : forall w total, carries w total ->
  carries (write ps w) (total ++ concat (piece_bytes <$> ps)) /\ limit (write ps w) = limit w /\
  (limit w = None -> broken w = false -> broken (write ps w) = false).
Proof.
  unfold write. induction ps as [|p ps IH]; intros w total H; cbn [foldl fmap list_fmap concat]; [by rewrite app_nil_r|].
  destruct (IH (write_piece w p) (total ++ piece_bytes p)) as (H1 & H2 & H3); [by apply write_piece_carries|].
  rewrite <- app_assoc in H1. destruct (write_piece_limit w p) as [L1 L2]. rewrite L1 in *. split_and!; [done|done|]. auto.
Qed.

Lemma Flush_spec w total : carries w total -> carries (Flush w) total /\ limit (Flush w) = limit w /\
  (broken (Flush w) = false -> pending (Flush w) = []) /\ (limit w = None -> broken w = false -> broken (Flush w) = false).
Proof.
  intros H. unfold Flush. destruct (broken w) eqn:Eb; [by rewrite Eb|]. unfold carries in H. rewrite Eb in H.
  destruct (pending w) as [|x l] eqn:Ep; [unfold carries; by rewrite Eb, Ep|]. rewrite <- Ep in *.
  destruct (forward_limit (pending w) [] w) as [L1 L2]. rewrite L1. split_and!; [|done| |auto].
  - apply forward_carries. by rewrite app_nil_r.
  - unfold forward. by destruct (limit w) as [k|]; [destruct (_ <=? _)%nat|].
Qed.

(** The pieces of a reply are its encoding. *)
Lemma w_value_bytes : forall v, concat (piece_bytes <$> w_value v) = WriteValue v.
Proof.
  fix IH 1. intros [t s n b a bo nul]. cbn [w_value WriteValue].
  destruct (decide (t = SimpleStringPrefix)); [unfold w_simple, WriteSimpleString; repeat case_decide; reflexivity|].
  destruct (decide (t = ErrorPrefix)); [reflexivity|].
  destruct (decide (t = IntegerPrefix)); [unfold w_integer, WriteInteger; repeat (destruct (_ =? _)); reflexivity|].
  destruct (decide (t = BulkStringPrefix)); [destruct nul, b; reflexivity|].
  destruct (decide (t = ArrayPrefix)); [|reflexivity]. destruct nul; [reflexivity|].
  rewrite fmap_app, concat_app. f_equal. induction a as [|v a IHa]; [reflexivity|]. cbn [map concat]. rewrite fmap_app, concat_app. f_equal; [apply IH|apply IHa].
Qed.

(** ** A connection *)

Section Server.
Context {VectorIndex : Type}.
Context (ParseFloat : bytes -> option Z) (FormatFloat : Z -> bytes).

Abbreviation Engine := (@Session.Engine VectorIndex).
Abbreviation ExecuteCommandWithSession := (@Session.ExecuteCommandWithSession VectorIndex ParseFloat FormatFloat).

(** What the connections share. *)
Record world := mkWorld { eng : Engine; Broker_ : Broker; chans : Queues }.

(** The local variables of [handleConnection]. *)
Record conn := mkConn { rd : reader; wr : writer; listeningPort : Z; subQueue : option Subscriber; subChans : list bytes }.

(** What the runtime decides during one step: the clocks and random numbers of the
    engine, the order in which [Publish] and [UnsubscribeAll] visit their maps. *)
Record runtime := mkRuntime { envs : nat -> env; sub_order : gset Subscriber -> list Subscriber; chan_order : Broker -> list bytes }.

Definition with_reader (r : reader) (c : conn) : conn := mkConn r (wr c) (listeningPort c) (subQueue c) (subChans c).
Definition with_writer (w : writer) (c : conn) : conn := mkConn (rd c) w (listeningPort c) (subQueue c) (subChans c).
Definition reply (ps : list piece) (c : conn) : conn := with_writer (write ps (wr c)) c.
Definition flushed (c : conn) : conn := with_writer (Flush (wr c)) c.

(** The command of a client; PUBLISH is the case of [dispatch] that needs the broker. *)
Definition execute (rt : runtime) (p : nat) (connID : bytes) (argv : list bytes) (w : world) : option (res fault (world * Resp.Value)) :=
  let s := session_at (eng w) p in
  let run := andThen (ExecuteCommandWithSession (envs rt) (Some p) connID argv (eng w)) (fun '(e, v) => ret (mkWorld e (Broker_ w) (chans w), v)) in
  match argv with
  | name :: args =>
      if decide (ToUpperFast name = str "PUBLISH") then
        match guards connID (ToUpperFast name) args s (eng w) with
        | Ok None =>
            if InMulti s then run
            else let '(qs, v) := cmd_publish (sub_order rt) args (Broker_ w) (chans w) in ret (mkWorld (eng w) (Broker_ w) qs, v)
        | _ => run
        end
      else run
  | [] => run
  end.

(** [REPLCONF listening-port]. *)
Definition note_port (cmdUpper : bytes) (args : list bytes) (c : conn) : conn :=
  match args with
  | _ :: option :: port :: _ =>
      if decide (cmdUpper = str "REPLCONF" /\ ToLower option = str "listening-port") then
        match ParseInt port with Ok z => mkConn (rd c) (wr c) z (subQueue c) (subChans c) | Err _ => c end
      else c
  | _ => c
  end.

(** [s.engine.Password != "" && !session.Authenticated]. *)
Definition locked (p : nat) (w : world) : bool :=
  negb (bool_decide (Password (eng w) = [])) && negb (Authenticated (session_at (eng w) p)).

Definition noauth : list piece := w_error (str "NOAUTH Authentication required.").

(** The loop over the channels of a SUBSCRIBE. *)
Definition subscribe_one (q : Subscriber) (st : world * conn) (ch : bytes) : world * conn :=
  let '(w, c) := st in
  let names := subChans c ++ [ch] in
  (mkWorld (eng w) (Subscribe ch q (Broker_ w)) (chans w),
   mkConn (rd c) (write (w_array_header 3 ++ w_bulk_string (str "subscribe") ++ w_bulk_string ch ++ w_integer (Z.of_nat (length names))) (wr c))
     (listeningPort c) (subQueue c) names).

(** [if subQueue == nil { subQueue = make(pubsub.Subscriber, 256) }]. *)
Definition make_queue (w : world) (c : conn) : world * conn * Subscriber :=
  match subQueue c with
  | Some q => (w, c, q)
  | None =>
      let q := fresh (dom (chans w)) in
      (mkWorld (eng w) (Broker_ w) (<[q := mkQueue 256 []]> (chans w)), mkConn (rd c) (wr c) (listeningPort c) (Some q) (subChans c), q)
  end.

Inductive outcome :=
| Goes_on            (** the next iteration *)
| Ends               (** [return] *)
| To_replication     (** [Replication.HandlePSync] has the connection, then [return] *)
| To_pump (q : Subscriber)  (** [handleSubscribedClient], then [return] *).

(** One iteration of the loop of [handleConnection]. *)
Definition serve (rt : runtime) (p : nat) (connID : bytes) (w : world) (c : conn) : option (res fault (world * conn * outcome)) :=
  match next_command (rd c) with
  | Err _ => ret (w, c, Ends)
  | Ok ([], r) => ret (w, with_reader r c, Goes_on)
  | Ok (name :: args, r) =>
      let c := with_reader r c in
      let cmdUpper := ToUpperFast name in
      if decide (cmdUpper = str "QUIT") then ret (w, flushed (reply [Slice respOK] c), Ends)
      else
        let c := note_port cmdUpper (name :: args) c in
        let psync := bool_decide (cmdUpper = str "PSYNC" \/ cmdUpper = str "SYNC") in
        if psync && locked p w then ret (w, flushed (reply noauth c), Goes_on)
        else if psync && match Replication_ (eng w) with Some _ => true | None => false end then ret (w, c, To_replication)
        else if decide (cmdUpper = str "SUBSCRIBE") then
          if locked p w then ret (w, flushed (reply noauth c), Goes_on)
          else match args with
               | [] => ret (w, flushed (reply (w_error (str "ERR wrong number of arguments for 'subscribe'")) c), Goes_on)
               | _ =>
                   let '(w, c, q) := make_queue w c in
                   let '(w, c) := foldl (subscribe_one q) (w, c) args in
                   ret (w, flushed c, To_pump q)
               end
        else
          andThen (execute rt p connID (name :: args) w) (fun '(w, v) =>
          let c := reply (w_value v) c in
          if broken (wr c) then ret (w, c, Ends)
          else
            let c := if (length (buffered (rd c)) =? 0)%nat then flushed c else c in
            ret (w, c, if broken (wr c) then Ends else Goes_on))
  end.

(** *** A connection that has subscribed *)

(** [cmds] is [clientCmdChan], [failed] tells that [clientErrChan] holds an error:
    the goroutine that reads commands has ended. *)
Record pump := mkPump { pc : conn; cmds : list (list bytes); failed : bool }.

(** What runs next: the goroutine that reads, or one of the cases of the [select]. *)
Inductive pump_event := Fetch | Take_message | Take_command | Take_error.

Definition message_frame (m : bytes) : list piece :=
  w_array_header 3 ++ w_bulk_string (str "message") ++ w_bulk_string (str "channel") ++ w_bulk_bytes (Some m).

Definition unsubscribe_frame : list piece :=
  w_array_header 3 ++ w_bulk_string (str "unsubscribe") ++ w_bulk_string (str "all") ++ w_integer 0.

Definition pong_frame : list piece := w_array_header 2 ++ w_bulk_string (str "pong") ++ w_bulk_string [].

(** A command of a subscribed client; [true]: [return]. *)
Definition pump_command (q : Subscriber) (cmd : list bytes) (w : world) (c : conn) : world * conn * bool :=
  match cmd with
  | [] => (w, c, false)
  | name :: args =>
      let cmdUpper := ToUpper name in
      if decide (cmdUpper = str "SUBSCRIBE") then
        let '(w, c) := foldl (subscribe_one q) (w, c) args in (w, flushed c, false)
      else if decide (cmdUpper = str "UNSUBSCRIBE") then (w, flushed (reply unsubscribe_frame c), false)
      else if decide (cmdUpper = str "PING") then (w, flushed (reply pong_frame c), false)
      else if decide (cmdUpper = str "QUIT") then (w, c, true)
      else (w, flushed (reply (w_error (str "ERR only (P)SUBSCRIBE / (P)UNSUBSCRIBE / PING / QUIT are allowed in this context")) c), false)
  end.

(** [None]: the event cannot happen now. *)
Definition pump_step (q : Subscriber) (ev : pump_event) (w : world) (pm : pump) : option (world * pump * bool) :=
  match ev with
  | Fetch =>
      if failed pm then None
      else match next_command (rd (pc pm)) with
           | Err _ => Some (w, mkPump (pc pm) (cmds pm) true, false)
           | Ok (cmd, r) =>
               if (length (cmds pm) <? 10)%nat then Some (w, mkPump (with_reader r (pc pm)) (cmds pm ++ [cmd]) false, false) else None
           end
  | Take_message =>
      x ← chans w !! q;
      match buf x with
      | m :: ms =>
          Some (mkWorld (eng w) (Broker_ w) (<[q := mkQueue (cap x) ms]> (chans w)),
                mkPump (flushed (reply (message_frame m) (pc pm))) (cmds pm) (failed pm), false)
      | [] => None
      end
  | Take_command =>
      match cmds pm with
      | cmd :: cs =>
          let '(w, c, over) := pump_command q cmd w (pc pm) in Some (w, mkPump c cs (failed pm), over)
      | [] => None
      end
  | Take_error => if failed pm then Some (w, pm, true) else None
  end.

(** *** The end of a connection: the deferred functions *)

Definition cleanupPubSub (rt : runtime) (c : conn) (w : world) : world :=
  match subQueue c with
  | Some q => mkWorld (eng w) (UnsubscribeAll (chan_order rt (Broker_ w)) q (Broker_ w)) (chans w)
  | None => w
  end.

Definition finish (rt : runtime) (connID : bytes) (c : conn) (w : world) : world :=
  let w := cleanupPubSub rt c w in
  mkWorld (ClearClientSession connID (eng w)) (Broker_ w) (chans w).

(** ** The server *)

Inductive phase :=
| Opening (c : conn)                       (** the goroutine has been started *)
| Serving (p : nat) (c : conn)             (** in the loop of [handleConnection] *)
| Pumping (p : nat) (q : Subscriber) (pm : pump)  (** in [handleSubscribedClient] *)
| Replicating (p : nat) (c : conn)         (** in [HandlePSync] *)
| Over.

(** [clients] holds every connection that was accepted, with its identifier. *)
Record server := mkServer { wld : world; clients : list (bytes * phase); connCount : Z; ActiveConnections : Z }.

(** [fmt.Sprintf("client-%d", n)]. *)
Definition conn_name (n : Z) : bytes := str "client-" ++ FormatInt n.

Inductive server_event :=
| Connect (chunks : list bytes) (lim : option nat)   (** [Accept] returns a connection *)
| Turn (i : nat) (rt : runtime)                      (** an iteration of [handleConnection] *)
| Pump (i : nat) (rt : runtime) (ev : pump_event)    (** a step of [handleSubscribedClient] *)
| Released (i : nat) (rt : runtime)                  (** [HandlePSync] returns *).

Definition new_conn (chunks : list bytes) (lim : option nat) : conn :=
  mkConn (mkReader [] chunks) (mkWriter [] [] lim false) 0 None [].

(** [acceptLoop]: [true] tells that the connection was refused. *)
Definition accept (MaxClients : Z) (chunks : list bytes) (lim : option nat) (s : server) : server * bool :=
  if (0 <? MaxClients) && (MaxClients <=? ActiveConnections s) then (s, true)
  else
    let n := int64 (connCount s + 1) in
    (mkServer (wld s) (clients s ++ [(conn_name n, Opening (new_conn chunks lim))]) n (int64 (ActiveConnections s + 1)), false).

Definition set_client (i : nat) (connID : bytes) (ph : phase) (w : world) (s : server) : server :=
  mkServer w (<[i := (connID, ph)]> (clients s)) (connCount s) (ActiveConnections s).

(** The connection [i] returns from [handleConnection]. *)
Definition end_client (i : nat) (connID : bytes) (rt : runtime) (c : conn) (w : world) (s : server) : server :=
  mkServer (finish rt connID c w) (<[i := (connID, Over)]> (clients s)) (connCount s) (int64 (ActiveConnections s - 1)).

Definition after_serve (i : nat) (connID : bytes) (p : nat) (rt : runtime) (w : world) (c : conn) (o : outcome) (s : server) : server :=
  match o with
  | Goes_on => set_client i connID (Serving p c) w s
  | Ends => end_client i connID rt c w s
  | To_replication => set_client i connID (Replicating p c) w s
  | To_pump q => set_client i connID (Pumping p q (mkPump c [] false)) w s
  end.

(** [None]: the event cannot happen, or the command is outside the model. *)
Definition on_event (MaxClients : Z) (ev : server_event) (s : server) : option (res fault server) :=
  match ev with
  | Connect chunks lim => ret (accept MaxClients chunks lim s).1
  | Turn i rt =>
      match clients s !! i with
      | Some (connID, Opening c) =>
          let '(e, p) := GetClientSession connID (eng (wld s)) in
          ret (set_client i connID (Serving p c) (mkWorld e (Broker_ (wld s)) (chans (wld s))) s)
      | Some (connID, Serving p c) =>
          andThen (serve rt p connID (wld s) c) (fun '(w, c, o) => ret (after_serve i connID p rt w c o s))
      | _ => None
      end
  | Pump i rt ev =>
      match clients s !! i with
      | Some (connID, Pumping p q pm) =>
          '(w, pm, over) ← pump_step q ev (wld s) pm;
          if (over : bool) then ret (end_client i connID rt (pc pm) w s) else ret (set_client i connID (Pumping p q pm) w s)
      | _ => None
      end
  | Released i rt =>
      match clients s !! i with
      | Some (connID, Replicating p c) => ret (end_client i connID rt c (wld s) s)
      | _ => None
      end
  end.

Fixpoint on_events (MaxClients : Z) (evs : list server_event) (s : server) : option (res fault server) :=
  match evs with
  | [] => ret s
  | ev :: evs' => andThen (on_event MaxClients ev s) (on_events MaxClients evs')
  end.

(** ** Pipelines of commands *)

Implicit Types (W : world) (c : conn) (rt : runtime) (connID : bytes) (p : nat).

(** Iterations of [handleConnection], one for each of [rts], until one returns. *)
Fixpoint serve_loop (rts : list runtime) p connID W c : option (res fault (world * conn * outcome)) :=
  match rts with
  | [] => ret (W, c, Goes_on)
  | rt :: rts' =>
      andThen (serve rt p connID W c) (fun '(W, c, o) =>
      match o with Goes_on => serve_loop rts' p connID W c | _ => ret (W, c, o) end)
  end.

(** The specification: the commands one after the other, and their replies. *)
Fixpoint run_commands p connID (cs : list (runtime * list bytes)) W : option (res fault (world * list Resp.Value)) :=
  match cs with
  | [] => ret (W, [])
  | (rt, argv) :: cs' =>
      andThen (execute rt p connID argv W) (fun '(W, v) =>
      andThen (run_commands p connID cs' W) (fun '(W, vs) => ret (W, v :: vs)))
  end.

(** A command that [handleConnection] leaves to the engine, within the limits of the
    protocol. *)
Definition ordinary (argv : list bytes) : Prop :=
  match argv with
  | name :: _ => ToUpperFast name ∉ (str <$> ["QUIT"; "PSYNC"; "SYNC"; "SUBSCRIBE"]%string)
  | [] => False
  end /\ Z.of_nat (length argv) <= MaxArrayLength /\ Forall (fun a => Z.of_nat (length a) <= MaxBulkLength) argv.

Lemma note_port_rest cmd args c : rd (note_port cmd args c) = rd c /\ wr (note_port cmd args c) = wr c.
Proof. unfold note_port. repeat case_match; done. Qed.

(** One ordinary command. *)
Lemma serve_ordinary rt p connID W c argv rest W' v total : ordinary argv ->
  unread (rd c) = SerializeCommand argv ++ rest -> execute rt p connID argv W = ret (W', v) ->
  carries (wr c) total -> broken (wr c) = false ->
  exists c', serve rt p connID W c = ret (W', c', if broken (wr c') then Ends else Goes_on) /\
    unread (rd c') = rest /\ carries (wr c') (total ++ WriteValue v) /\ limit (wr c') = limit (wr c) /\
    (limit (wr c) = None -> broken (wr c') = false) /\ (rest = [] -> broken (wr c') = false -> pending (wr c') = []).
Proof.
  intros (Hname & Hlen & Hargs) Hin Hex Hcar Hbr.
  destruct (next_command_spec (rd c) argv rest) as (r & Hr & Hrest).
  { rewrite Hin. by apply ReadCommand_serialized. } { rewrite Hin. by eexists. }
  unfold serve. rewrite Hr. destruct argv as [|name args]; [done|].
  rewrite !fmap_cons, !not_elem_of_cons in Hname. destruct Hname as (N1 & N2 & N3 & N4 & _).
  rewrite decide_False by done. rewrite bool_decide_false by (by intros [?|?]). cbn [andb]. rewrite decide_False by done.
  rewrite Hex. cbn [andThen ret]. set (c1 := note_port _ _ _).
  assert (rd c1 = r /\ wr c1 = wr c) as [E1 E2] by apply (note_port_rest _ _ (with_reader r c)). clearbody c1.
  destruct (write_spec (w_value v) (wr c) total Hcar) as (A1 & A2 & A3). rewrite w_value_bytes in A1.
  unfold reply, flushed, with_writer. cbn [wr rd]. rewrite E1, E2. set (w1 := write (w_value v) (wr c)) in *.
  destruct (broken w1) eqn:Eb.
  - exists (mkConn r w1 (listeningPort c1) (subQueue c1) (subChans c1)). cbn [rd wr]. rewrite Eb. by split_and!; auto.
  - destruct (Flush_spec w1 _ A1) as (F1 & F2 & F3 & F4). destruct (Nat.eqb_spec (length (buffered r)) 0) as [H0|H0]; cbn [wr rd].
    + exists (mkConn r (Flush w1) (listeningPort c1) (subQueue c1) (subChans c1)). cbn [rd wr]. rewrite F2, A2.
      split_and!; auto. intros HL. apply F4; [by rewrite A2|done].
    + exists (mkConn r w1 (listeningPort c1) (subQueue c1) (subChans c1)). cbn [rd wr]. rewrite Eb. split_and!; auto. intros ->.
      apply app_nil in Hrest as [E _]. by rewrite E in H0.
Qed.

(** C9: a client that sends commands in a pipeline, cut into whatever pieces the
    network makes of it, gets the replies of executing the commands one after the
    other, in that order, byte for byte, and the world is what those commands make
    of it; when the last command has been read no reply is left in the buffer.  If
    the socket fails, some first commands were executed, and the client has received
    a prefix of their replies. *)
Theorem pipeline_answered cs p connID W c W' vs :
  unread (rd c) = concat (SerializeCommand <$> cs.*2) -> Forall ordinary cs.*2 ->
  broken (wr c) = false -> pending (wr c) = [] -> run_commands p connID cs W = ret (W', vs) ->
  exists n W1 vs1 c1 o, run_commands p connID (take n cs) W = ret (W1, vs1) /\
    serve_loop cs.*1 p connID W c = ret (W1, c1, o) /\
    sent (wr c1) `prefix_of` sent (wr c) ++ concat (WriteValue <$> vs1) /\
    (limit (wr c) = None -> W1 = W' /\ vs1 = vs /\ o = Goes_on /\ unread (rd c1) = [] /\
       sent (wr c1) = sent (wr c) ++ concat (WriteValue <$> vs)).
Proof.
  intros Hin HF Hbr Hpe Hrun.
  cut (exists n W1 vs1 c1 o, run_commands p connID (take n cs) W = ret (W1, vs1) /\ serve_loop cs.*1 p connID W c = ret (W1, c1, o) /\
    carries (wr c1) (sent (wr c) ++ concat (WriteValue <$> vs1)) /\
    (limit (wr c) = None -> W1 = W' /\ vs1 = vs /\ o = Goes_on /\ unread (rd c1) = [] /\ broken (wr c1) = false /\ pending (wr c1) = [])).
  { intros (n & W1 & vs1 & c1 & o & H1 & H2 & H3 & H4). exists n, W1, vs1, c1, o. split_and!; [done|done| |].
    - unfold carries in H3. destruct (broken (wr c1)); [done|]. rewrite <- H3. by eexists.
    - intros HL. destruct (H4 HL) as (-> & -> & -> & E & Eb & Ep). unfold carries in H3. rewrite Eb, Ep, app_nil_r in H3. done. }
  assert (carries (wr c) (sent (wr c))) as Hcar by (unfold carries; by rewrite Hbr, Hpe, app_nil_r).
  assert (unread (rd c) = [] -> pending (wr c) = []) as Hq by done. clear Hpe.
  revert Hcar Hq. generalize (sent (wr c)) as total. revert W c Hin HF Hbr vs Hrun.
  induction cs as [|[rt argv] cs IH]; intros W c Hin HF Hbr vs Hrun total Hcar Hq.
  - injection Hrun as <- <-. exists 0%nat, W, [], c, Goes_on. cbn [fmap list_fmap concat]. rewrite app_nil_r.
    split_and!; [done..|]. intros _. split_and!; auto.
  - cbn [fmap list_fmap concat snd] in Hin, HF. apply Forall_cons in HF as [Ho HF]. cbn [run_commands] in Hrun.
    destruct (execute rt p connID argv W) as [[[W1 v]|]|] eqn:Eex; cbn [andThen] in Hrun; try done.
    destruct (run_commands p connID cs W1) as [[[W2 vs2]|]|] eqn:Er; cbn [andThen] in Hrun; try done. injection Hrun as <- <-.
    destruct (serve_ordinary rt p connID W c argv _ W1 v total Ho Hin Eex Hcar Hbr) as (c1 & S1 & S2 & S3 & S4 & S5 & S6).
    cbn [fmap list_fmap fst serve_loop]. rewrite S1. cbn [andThen]. destruct (broken (wr c1)) eqn:Eb.
    + exists 1%nat, W1, [v], c1, Ends. cbn [take run_commands fmap list_fmap concat]. rewrite Eex, app_nil_r. split_and!; try done.
      intros HL. by specialize (S5 HL).
    + destruct (IH W1 c1 S2 HF Eb vs2 Er (total ++ WriteValue v) S3) as (n & W3 & vs3 & c3 & o & R1 & R2 & R3 & R4).
      { rewrite S2. auto. }
      exists (S n), W3, (v :: vs3), c3, o. cbn [take run_commands fmap list_fmap concat]. rewrite Eex. cbn [andThen]. rewrite R1. split_and!; try done.
      * by rewrite app_assoc.
      * rewrite S4 in R4. intros HL. destruct (R4 HL) as (-> & -> & ?). done.
Qed.

(** ** A client without the password *)

(** None of the next [k] commands presents credentials of a user. *)
Fixpoint never_logs_in (m : ACLManager) (k : nat) (r : reader) : Prop :=
  match k with
  | O => True
  | S k' =>
      match next_command r with
      | Ok (argv, r') => rejected m argv /\ never_logs_in m k' r'
      | Err _ => True
      end
  end.

(** The bytes of a refusal, and of the answer to QUIT. *)
Definition refusal (b : bytes) : Prop := (exists t, b = WriteError t) \/ b = respOK.

Lemma locked_execute m rt p connID argv W : locked_out connID m (eng W) -> clientSessions (eng W) !! connID = Some p -> rejected m argv ->
  exists t, execute rt p connID argv W = ret (W, Error t).
Proof.
  intros HL Hp Hr. destruct (locked_out_step ParseFloat FormatFloat (envs rt) connID m argv (eng W) HL Hr) as [t Ht].
  unfold Session.ExecuteCommand, GetClientSession in Ht. rewrite Hp in Ht.
  assert (execute rt p connID argv W = andThen (ExecuteCommandWithSession (envs rt) (Some p) connID argv (eng W)) (fun '(e, v) => ret (mkWorld e (Broker_ W) (chans W), v))) as ->.
  { unfold execute. destruct argv as [|name args]; [done|]. case_decide as Hn; [|done].
    destruct HL as [HP _ _ Hc (p' & Hp' & Hna & _)]. rewrite Hp in Hp'. injection Hp' as <-.
    unfold guards, auth_guard. rewrite decide_True; [done|]. rewrite Hn. split_and!; (done || by vm_compute). }
  exists t. rewrite Ht. cbn [andThen ret]. by destruct W.
Qed.

(** The result [res] of an iteration leaves the world alone and tells the client
    nothing but refusals. *)
Definition refused W c total (res : option (Prelude.res fault (world * conn * outcome))) : Prop :=
  exists c' o rs, res = ret (W, c', o) /\ (o = Goes_on \/ o = Ends) /\ carries (wr c') (total ++ concat rs) /\ Forall refusal rs /\
    (o = Goes_on -> exists argv, next_command (rd c) = Ok (argv, rd c')).

Lemma refused_reply W c total argv r c1 ps o : next_command (rd c) = Ok (argv, r) -> rd c1 = r -> wr c1 = wr c -> carries (wr c) total ->
  refusal (concat (piece_bytes <$> ps)) -> o = Goes_on \/ o = Ends ->
  refused W c total (ret (W, reply ps c1, o)) /\ refused W c total (ret (W, flushed (reply ps c1), o)).
Proof.
  intros En E1 E2 Hcar Hb Ho. destruct (write_spec ps (wr c1) total) as (A & _ & _); [by rewrite E2|]. destruct (Flush_spec _ _ A) as (F & _).
  split; eexists _, o, [concat (piece_bytes <$> ps)]; (split_and!; [reflexivity|done|cbn [concat]; by rewrite app_nil_r|by apply Forall_singleton|]);
    intros _; exists argv; by rewrite En, <- E1.
Qed.

Lemma locked_serve m rt p connID W c total : locked_out connID m (eng W) -> clientSessions (eng W) !! connID = Some p ->
  match next_command (rd c) with Ok (argv, _) => rejected m argv | Err _ => True end -> carries (wr c) total ->
  refused W c total (serve rt p connID W c).
Proof.
  intros HL Hp Hr Hcar. unfold serve. destruct (next_command (rd c)) as [[argv r]|] eqn:En.
  2: { exists c, Ends, []. rewrite app_nil_r. by split_and!; auto. }
  destruct argv as [|name args]; [exists (with_reader r c), Goes_on, []; rewrite app_nil_r; split_and!; auto; intros _; by exists []|].
  case_decide as HQ; [eapply (refused_reply _ _ _ _ r); [exact En|done..| |by right]; by right|].
  set (c1 := note_port _ _ _). assert (rd c1 = r /\ wr c1 = wr c) as [E1 E2] by apply (note_port_rest _ _ (with_reader r c)). clearbody c1.
  assert (locked p W = true) as ->.
  { unfold locked. destruct HL as [HP _ _ _ (p' & Hp' & Hna & _)]. rewrite Hp in Hp'. injection Hp' as <-. by rewrite bool_decide_false, Hna. }
  assert (refused W c total (ret (W, flushed (reply noauth c1), Goes_on))) as Hno.
  { eapply (refused_reply _ _ _ _ r); [exact En|done..| |by left]. left. by exists (str "NOAUTH Authentication required."). }
  destruct (bool_decide _); cbn [andb]; [exact Hno|]. case_decide; [exact Hno|]. clear Hno.
  destruct (locked_execute m rt p connID (name :: args) W HL Hp Hr) as [t ->]. cbn [andThen ret].
  assert (forall o, o = Goes_on \/ o = Ends -> refused W c total (ret (W, reply (w_value (Error t)) c1, o)) /\
    refused W c total (ret (W, flushed (reply (w_value (Error t)) c1), o))) as HR.
  { intros o Ho. eapply (refused_reply _ _ _ _ r); [exact En|done..| |done]. left. exists t. by rewrite w_value_bytes. }
  destruct (broken _); [apply HR; by right|]. destruct (_ =? _)%nat; apply HR; destruct (broken _); auto.
Qed.

(** C10: on a server with a password, as long as the default user of the ACL
    table, if there is one, has the password of the engine, a connection that is
    not logged in and sends no AUTH that the ACL table accepts gets nothing,
    whatever else it sends (PSYNC, SUBSCRIBE and PUBLISH included): engine,
    subscriptions and queues stay as they are, the connection never becomes a
    subscriber or a replica, and it receives only errors and the answer to QUIT. *)
Theorem stranger_gets_nothing m rts p connID W : locked_out connID m (eng W) -> clientSessions (eng W) !! connID = Some p ->
  forall c total, never_logs_in m (length rts) (rd c) -> carries (wr c) total ->
  exists c' o rs, serve_loop rts p connID W c = ret (W, c', o) /\ (o = Goes_on \/ o = Ends) /\
    carries (wr c') (total ++ concat rs) /\ Forall refusal rs.
Proof.
  intros HL Hp. induction rts as [|rt rts IH]; intros c total HN Hcar; cbn [serve_loop].
  - exists c, Goes_on, []. rewrite app_nil_r. by split_and!; auto.
  - cbn [length never_logs_in] in HN. 
    assert (refused W c total (serve rt p connID W c)) as (c1 & o & rs & -> & Ho & H1 & H2 & H3).
    { apply (locked_serve m); try done. by destruct (next_command (rd c)) as [[argv r]|]; [destruct HN|]. }
    cbn [andThen ret]. destruct Ho as [-> | ->]; [|by exists c1, Ends, rs; split_and!; auto].
    destruct (H3 eq_refl) as [argv Hn]. rewrite Hn in HN. destruct HN as [_ HN].
    destruct (IH c1 (total ++ concat rs) HN H1) as (c2 & o & rs2 & -> & Ho & H4 & H5). exists c2, o, (rs ++ rs2).
    rewrite concat_app, app_assoc. split_and!; try done. by apply Forall_app.
Qed.

End Server.
