(* ===== verification/TcpInvariant.v ===== *)
(** * What connections leave behind (internal/server/tcp.go)

    The invariant of the connection server: how many connections there are, which
    sessions and subscriptions exist, and that a connection that has ended leaves
    none of them. *)

From S2P Require Import Prelude Resp SkipList Keyspace Commands CommandLaws Acl Session SessionLaws Access Transactions VectorCommands PubSub TcpServer.

(** The order of the runtime visits every channel of the table. *)
Definition runtime_ok (rt : runtime) : Prop := forall b, chan_order rt b ≡ₚ (map_to_list b).*1.

Lemma conn_name_inj n m : is_int64 n -> is_int64 m -> conn_name n = conn_name m -> n = m.
Proof.
  intros Hn Hm H%app_inv_head. apply ParseInt_FormatInt in Hn, Hm. rewrite H in Hn. congruence.
Qed.

Definition live (ph : phase) : bool := match ph with Over => false | _ => true end.

Definition phase_session (ph : phase) : option nat :=
  match ph with Serving p _ | Pumping p _ _ | Replicating p _ => Some p | Opening _ | Over => None end.

Definition phase_queue (ph : phase) : option Subscriber :=
  match ph with
  | Opening c | Serving _ c | Replicating _ c => subQueue c
  | Pumping _ _ pm => subQueue (pc pm)
  | Over => None
  end.

(** The number of connections that have not ended. *)
Fixpoint live_count (cs : list (bytes * phase)) : Z :=
  match cs with [] => 0 | (_, ph) :: cs' => (if live ph then 1 else 0) + live_count cs' end.

Lemma live_count_app cs cs' : live_count (cs ++ cs') = live_count cs + live_count cs'.
Proof. induction cs as [|[id ph] cs IH]; [done|]. cbn [app live_count]. lia. Qed.

Lemma live_count_insert cs i id ph id' ph' : cs !! i = Some (id, ph) ->
  live_count (<[i := (id', ph')]> cs) = live_count cs - (if live ph then 1 else 0) + (if live ph' then 1 else 0).
Proof.
  revert i. induction cs as [|[id0 ph0] cs IH]; intros [|i]; cbn [lookup list_lookup]; try done.
  - intros [= -> ->]. cbn [insert list_insert live_count]. lia.
  - intros H. change (<[S i := (id', ph')]> ((id0, ph0) :: cs)) with ((id0, ph0) :: <[i := (id', ph')]> cs). cbn [live_count]. rewrite (IH i H). lia.
Qed.

Lemma live_count_range cs : 0 <= live_count cs <= Z.of_nat (length cs).
Proof. induction cs as [|[id ph] cs IH]; [done|]. cbn [live_count length]. destruct (live ph); lia. Qed.

Section Invariant.
Context {VectorIndex : Type}.
Context (ParseFloat : bytes -> option Z) (FormatFloat : Z -> bytes).

Abbreviation world := (@TcpServer.world VectorIndex).
Abbreviation server := (@TcpServer.server VectorIndex).

Implicit Types (W : world) (s : server) (c : conn) (rt : runtime) (connID id ch : bytes) (p i : nat) (q : Subscriber) (ph : phase).

(** ** One step of one connection *)

(** The effect on the world of a step of a connection with the queue [q0] before
    and [q1] after it. *)
Record client_effect (q0 : option Subscriber) W W' (q1 : option Subscriber) : Prop := {
  ce_table : table_step (eng W) (eng W');
  ce_broker : broker_ok (Broker_ W) -> broker_ok (Broker_ W');
  ce_subs : forall ch q, subscribed (Broker_ W') ch q -> subscribed (Broker_ W) ch q \/ q1 = Some q;
  ce_chans : dom (chans W) ⊆ dom (chans W');
  ce_queue : q1 = q0 \/ q0 = None /\ exists q, q1 = Some q /\ q ∉ dom (chans W) /\ q ∈ dom (chans W')
}.

Lemma effect_engine o W e : table_step (eng W) e -> client_effect o W (mkWorld e (Broker_ W) (chans W)) o.
Proof. intros HT. split; cbn; auto. Qed.

Lemma effect_id o W : sessions_ok (eng W) -> client_effect o W W o.
Proof. intros H. destruct W. by apply effect_engine. Qed.

Lemma send_dom m q qs : dom (send m q qs).1 = dom qs.
Proof. rewrite send_spec. destruct (has_room qs q); [apply dom_alter_L|done]. Qed.

Lemma publish_loop_dom m l : forall qs d, dom (publish_loop m l qs d).1 = dom qs.
Proof.
  induction l as [|q l IH]; intros qs d; cbn [publish_loop]; [done|]. pose proof (send_dom m q qs) as H.
  destruct (send m q qs) as [qs1 ok]. cbn [fst] in H. by rewrite IH, H.
Qed.

Lemma cmd_publish_dom order args b qs : dom (cmd_publish order args b qs).1 = dom qs.
Proof.
  unfold cmd_publish, Publish. destruct args as [|a [|m args]]; [done..|]. destruct (b !! a) as [subs|]; [|done].
  pose proof (publish_loop_dom m (order subs) qs 0) as H. by destruct (publish_loop _ _ _ _).
Qed.

Lemma execute_effect o rt p connID argv W W' v : sessions_ok (eng W) -> small (eng W) -> clientSessions (eng W) !! connID = Some p -> argv <> [] ->
  execute ParseFloat FormatFloat rt p connID argv W = ret (W', v) -> client_effect o W W' o.
Proof.
  intros Hok Hsm Hp Hne. unfold execute. destruct argv as [|name args]; [done|].
  assert (andThen (ExecuteCommandWithSession ParseFloat FormatFloat (envs rt) (Some p) connID (name :: args) (eng W))
    (fun '(e, v) => ret (mkWorld e (Broker_ W) (chans W), v)) = ret (W', v) -> client_effect o W W' o) as Hrun.
  { destruct (ExecuteCommandWithSession _ _ _ _ _ _ _) as [[[e v']|]|] eqn:E; cbn [andThen]; try done. intros [= <- _].
    apply effect_engine. by eapply command_table. }
  case_decide; [|exact Hrun]. destruct (guards _ _ _ _ _) as [[|]|]; [exact Hrun| |exact Hrun]. destruct (InMulti _); [exact Hrun|].
  pose proof (cmd_publish_dom (sub_order rt) args (Broker_ W) (chans W)) as HD. destruct (cmd_publish _ _ _ _) as [qs v']. intros [= <- _].
  cbn [fst] in HD. split; cbn [eng Broker_ chans]; auto; [done|by rewrite HD].
Qed.

(** *** SUBSCRIBE *)

Lemma subscribe_loop q args : forall W c W' c', foldl (subscribe_one q) (W, c) args = (W', c') ->
  eng W' = eng W /\ chans W' = chans W /\ subQueue c' = subQueue c /\
  (broker_ok (Broker_ W) -> broker_ok (Broker_ W')) /\
  forall ch q', subscribed (Broker_ W') ch q' -> subscribed (Broker_ W) ch q' \/ q' = q.
Proof.
  induction args as [|a args IH]; intros W c W' c'; cbn [foldl]; intros H; [injection H as <- <-; by split_and!; auto|].
  destruct (IH _ _ _ _ H) as (H1 & H2 & H3 & H4 & H5). cbn [eng chans subQueue Broker_] in *. split_and!; [done..| |].
  - intros Hb. by apply H4, Subscribe_ok.
  - intros ch q' [H'|H']%H5; [|by right]. apply Subscribe_spec in H' as [[_ ->]|H']; auto.
Qed.

Lemma subscribe_effect q W c args W' c' : subQueue c = Some q -> sessions_ok (eng W) ->
  foldl (subscribe_one q) (W, c) args = (W', c') -> client_effect (Some q) W W' (subQueue c').
Proof.
  intros Hq Hok H. destruct (subscribe_loop q args W c W' c' H) as (H1 & H2 & H3 & H4 & H5). rewrite H3, Hq.
  split; rewrite ?H1, ?H2; auto; [done|]. intros ch q' [H'| ->]%H5; auto.
Qed.

Lemma make_queue_effect W c W1 c1 q : sessions_ok (eng W) -> make_queue W c = (W1, c1, q) ->
  client_effect (subQueue c) W W1 (Some q) /\ subQueue c1 = Some q.
Proof.
  intros Hok. unfold make_queue. destruct (subQueue c) as [q0|] eqn:Eq.
  - intros [= <- <- <-]. split; [by apply effect_id|done].
  - intros [= <- <- <-]. split; [|done]. split; cbn [eng Broker_ chans]; auto; [done|rewrite dom_insert; set_solver|].
    right. split; [done|]. eexists. split; [done|]. rewrite dom_insert. split; [apply is_fresh|set_solver].
Qed.

Lemma effect_trans o0 o1 o2 W W1 W2 : client_effect o0 W W1 o1 -> client_effect o1 W1 W2 o2 -> o2 = o1 -> client_effect o0 W W2 o2.
Proof.
  intros [T1 B1 S1 C1 Q1] [T2 B2 S2 C2 Q2] ->. destruct T1 as (T11 & T12 & T13), T2 as (T21 & T22 & T23). split.
  - split; [done|]. by rewrite T22, T23.
  - auto.
  - intros ch q H. apply S2 in H as [H|H]; auto.
  - by transitivity (dom (chans W1)).
  - destruct Q1 as [->|(-> & q & -> & Hq1 & Hq2)]; [by left|]. right. split; [done|]. exists q. split_and!; [done|done|]. by apply C2.
Qed.

Lemma note_port_queue cmd args c : subQueue (note_port cmd args c) = subQueue c.
Proof. unfold note_port. repeat case_match; done. Qed.

Lemma serve_effect rt p connID W c W' c' o : sessions_ok (eng W) -> small (eng W) -> clientSessions (eng W) !! connID = Some p ->
  serve ParseFloat FormatFloat rt p connID W c = ret (W', c', o) ->
  client_effect (subQueue c) W W' (subQueue c') /\ match o with To_pump q => subQueue c' = Some q | _ => True end.
Proof.
  intros Hok Hsm Hp. pose proof (effect_id (subQueue c) W Hok) as Hid. unfold serve.
  destruct (next_command (rd c)) as [[[|name args] r]|]; [by intros [= <- <- <-]| |by intros [= <- <- <-]].
  case_decide; [by intros [= <- <- <-]|]. pose proof (note_port_queue (ToUpperFast name) (name :: args) (with_reader r c)) as E.
  cbn [subQueue with_reader] in E. rewrite <- E in Hid |- *. set (c1 := note_port _ _ _) in *. clearbody c1. clear E.
  destruct (_ && _); [by intros [= <- <- <-]|]. destruct (_ && _); [by intros [= <- <- <-]|]. case_decide.
  - destruct (locked p W); [by intros [= <- <- <-]|]. destruct args as [|a args]; [by intros [= <- <- <-]|].
    destruct (make_queue W c1) as [[W1 c2] q] eqn:Em. destruct (make_queue_effect W c1 W1 c2 q Hok Em) as [H1 H2].
    destruct (foldl (subscribe_one q) (W1, c2) (a :: args)) as [W2 c3] eqn:Es. intros [= <- <- <-].
    assert (sessions_ok (eng W1)) as Hok1 by apply (ce_table _ _ _ _ H1).
    pose proof (subscribe_effect q W1 c2 (a :: args) W2 c3 H2 Hok1 Es) as H3.
    destruct (subscribe_loop q (a :: args) W1 c2 W2 c3 Es) as (_ & _ & E3 & _). rewrite H2 in E3.
    cbn [flushed with_writer subQueue]. rewrite E3 in H3 |- *. split; [|done]. by eapply effect_trans.
  - destruct (execute _ _ rt p connID (name :: args) W) as [[[W1 v]|]|] eqn:Ee; cbn [andThen]; try done.
    pose proof (execute_effect (subQueue c1) rt p connID (name :: args) W W1 v Hok Hsm Hp ltac:(done) Ee) as HE.
    destruct (broken _); [by intros [= <- <- <-]|]. destruct (_ =? _)%nat; intros [= <- <- <-]; (split; [done|]); by destruct (broken _).
Qed.

Lemma pump_effect q ev W pm W' pm' over : sessions_ok (eng W) -> subQueue (pc pm) = Some q -> pump_step q ev W pm = Some (W', pm', over) ->
  client_effect (Some q) W W' (Some q) /\ subQueue (pc pm') = Some q.
Proof.
  intros Hok Hq. pose proof (effect_id (Some q) W Hok) as Hid. destruct ev; cbn [pump_step].
  - destruct (failed pm); [done|]. destruct (next_command _) as [[cmd r]|]; [|by intros [= <- <- <-]]. destruct (_ <? _)%nat; [by intros [= <- <- <-]|done].
  - destruct (chans W !! q) as [x|] eqn:Ex; [|done]. cbn [mbind option_bind]. destruct (buf x) as [|m ms]; [done|]. intros [= <- <- <-]. split; [|done].
    split; cbn [eng Broker_ chans]; auto; [done|]. rewrite dom_insert. set_solver.
  - destruct (cmds pm) as [|cmd cs]; [done|]. destruct (pump_command q cmd W (pc pm)) as [[W1 c1] o1] eqn:Ec. intros [= <- <- <-]. cbn [pc].
    revert Ec. unfold pump_command. destruct cmd as [|name args]; [by intros [= <- <- <-]|]. case_decide.
    + destruct (foldl (subscribe_one q) (W, pc pm) args) as [W2 c2] eqn:Es. intros [= <- <- <-].
      pose proof (subscribe_effect q W (pc pm) args W2 c2 Hq Hok Es) as H3. destruct (subscribe_loop q args W (pc pm) W2 c2 Es) as (_ & _ & E3 & _).
      rewrite E3, Hq in H3. cbn [flushed with_writer subQueue]. by rewrite E3.
    + repeat (case_decide; [by intros [= <- <- <-]|]). by intros [= <- <- <-].
  - destruct (failed pm); [by intros [= <- <- <-]|done].
Qed.

(** ** The invariant *)

Record server_ok (MaxClients : Z) s : Prop := {
  sv_count : connCount s = Z.of_nat (length (clients s));
  sv_names : forall i id ph, clients s !! i = Some (id, ph) -> id = conn_name (Z.of_nat i + 1);
  sv_active : ActiveConnections s = live_count (clients s);
  sv_max : 0 < MaxClients -> ActiveConnections s <= MaxClients;
  sv_sessions : sessions_ok (eng (wld s));
  sv_own : forall i id ph, clients s !! i = Some (id, ph) -> clientSessions (eng (wld s)) !! id = phase_session ph;
  sv_future : forall n, Z.of_nat (length (clients s)) < n -> is_int64 n -> clientSessions (eng (wld s)) !! conn_name n = None;
  sv_broker : broker_ok (Broker_ (wld s));
  sv_subs : forall ch q, subscribed (Broker_ (wld s)) ch q -> exists i id ph, clients s !! i = Some (id, ph) /\ phase_queue ph = Some q;
  sv_chans : forall i id ph q, clients s !! i = Some (id, ph) -> phase_queue ph = Some q -> q ∈ dom (chans (wld s));
  sv_queues : forall i j id id' ph ph' q, clients s !! i = Some (id, ph) -> clients s !! j = Some (id', ph') ->
    phase_queue ph = Some q -> phase_queue ph' = Some q -> i = j;
  sv_pump : forall i id p q pm, clients s !! i = Some (id, Pumping p q pm) -> subQueue (pc pm) = Some q
}.

(** What a lookup says after a change at [i]. *)
Lemma insert_cases {A} (l : list A) i x j y : <[i := x]> l !! j = Some y -> (j = i /\ y = x) \/ (j <> i /\ l !! j = Some y).
Proof. rewrite list_lookup_insert_Some. naive_solver. Qed.

(** The queue of a client after its step is its old one or a new one. *)
Lemma effect_queues MaxClients s i id ph ph' W' : server_ok MaxClients s -> clients s !! i = Some (id, ph) ->
  client_effect (phase_queue ph) (wld s) W' (phase_queue ph') ->
  forall q, phase_queue ph' = Some q -> q ∈ dom (chans W') /\
    forall j id' ph'', clients s !! j = Some (id', ph'') -> phase_queue ph'' = Some q -> j = i.
Proof.
  intros HS Hi HE q Hq. destruct (ce_queue _ _ _ _ HE) as [E|(_ & q' & E & Hn & Hd)].
  - rewrite E in Hq. split; [apply (ce_chans _ _ _ _ HE); by eapply (sv_chans _ _ HS)|]. intros j id' ph'' Hj Hq'. by eapply (sv_queues _ _ HS).
  - assert (q' = q) as -> by congruence. split; [done|]. intros j id' ph'' Hj Hq'. destruct Hn. by eapply (sv_chans _ _ HS).
Qed.

Lemma server_ok_set MaxClients s i id ph ph' W' : server_ok MaxClients s -> clients s !! i = Some (id, ph) -> live ph = true -> live ph' = true ->
  phase_session ph' = phase_session ph -> client_effect (phase_queue ph) (wld s) W' (phase_queue ph') ->
  (forall p q pm, ph' = Pumping p q pm -> subQueue (pc pm) = Some q) -> server_ok MaxClients (set_client i id ph' W' s).
Proof.
  intros HS Hi Hl Hl' Hse HE Hpm. pose proof (effect_queues _ _ _ _ _ _ _ HS Hi HE) as HQ. pose proof HE as [(T1 & T2 & T3) HB Hsubs Hch _].
  pose proof HS as [S1 S2 S3 S4 S5 S6 S7 S8 S9 S10 S11 S12].
  split; cbn [set_client wld clients connCount ActiveConnections]; rewrite ?length_insert, ?T3; auto.
  - intros j id' ph'' [[-> [= -> ->]]|[_ H]]%insert_cases; by eapply S2.
  - rewrite (live_count_insert _ _ _ _ _ _ Hi), Hl, Hl'. lia.
  - intros j id' ph'' [[-> [= -> ->]]|[_ H]]%insert_cases; [rewrite Hse|]; by eapply S6.
  - intros ch q [H|H]%Hsubs.
    + destruct (S9 ch q H) as (j & id' & ph'' & Hj & Hq). destruct (decide (j = i)) as [->|Hne].
      * exists i, id, ph'. rewrite list_lookup_insert_eq by by eapply lookup_lt_Some. split; [done|]. rewrite Hi in Hj. injection Hj as <- <-.
        destruct (ce_queue _ _ _ _ HE) as [->|(E & _)]; [done|congruence].
      * exists j, id', ph''. by rewrite list_lookup_insert_ne.
    + exists i, id, ph'. by rewrite list_lookup_insert_eq by by eapply lookup_lt_Some.
  - intros j id' ph'' q [[-> [= -> ->]]|[_ H]]%insert_cases Hq; [by apply HQ|]. apply Hch. by eapply S10.
  - intros j k id' id'' pj pk q [[-> [= -> ->]]|[Nj Hj]]%insert_cases [[-> [= -> ->]]|[Nk Hk]]%insert_cases Q1 Q2; [done| | |by eapply S11].
    + destruct (HQ q Q1) as [_ HQ']. destruct Nk. by eapply HQ'.
    + destruct (HQ q Q2) as [_ HQ']. by eapply HQ'.
  - intros j id' p q pm [[-> [= -> <-]]|[_ H]]%insert_cases; [by eapply Hpm|by eapply S12].
Qed.

Lemma clear_sessions id (e : @Session.Engine VectorIndex) : clientSessions (ClearClientSession id e) = delete id (clientSessions e) /\ length (sessions (ClearClientSession id e)) = length (sessions e).
Proof. unfold ClearClientSession. destruct (_ !! _) eqn:E; [done|]. by rewrite delete_id. Qed.

Lemma cleanup_spec rt c W : runtime_ok rt -> eng (cleanupPubSub rt c W) = eng W /\ chans (cleanupPubSub rt c W) = chans W /\
  (broker_ok (Broker_ W) -> broker_ok (Broker_ (cleanupPubSub rt c W))) /\
  forall ch q, subscribed (Broker_ (cleanupPubSub rt c W)) ch q -> subscribed (Broker_ W) ch q /\ subQueue c <> Some q.
Proof.
  intros Hrt. unfold cleanupPubSub. destruct (subQueue c) as [q0|]; [|done]. cbn [eng chans Broker_]. split_and!; [done|done| |].
  - intros Hb. by apply UnsubscribeAll_ok.
  - intros ch q [H Hn]%UnsubscribeAll_spec. split; [done|]. intros [= ->]. apply Hn. split; [|done]. rewrite (Hrt (Broker_ W)).
    unfold subscribed, subscribers in H. destruct (Broker_ W !! ch) as [subs|] eqn:E; [|set_solver].
    apply list_elem_of_fmap. exists (ch, subs). split; [done|]. by apply elem_of_map_to_list.
Qed.

Lemma server_ok_end MaxClients s i id ph c rt : server_ok MaxClients s -> small (eng (wld s)) -> Z.of_nat (length (clients s)) < 2 ^ 63 - 1 ->
  runtime_ok rt -> clients s !! i = Some (id, ph) -> live ph = true -> phase_queue ph = subQueue c ->
  server_ok MaxClients (end_client i id rt c (wld s) s).
Proof.
  intros HS Hsm Hlen Hrt Hi Hl Hq. pose proof HS as [S1 S2 S3 S4 S5 S6 S7 S8 S9 S10 S11 S12]. unfold small in Hsm.
  destruct (cleanup_spec rt c (wld s) Hrt) as (C1 & C2 & C3 & C4). destruct (clear_sessions id (eng (wld s))) as [D1 _].
  pose proof (live_count_range (clients s)) as HR. pose proof (live_count_insert _ _ _ _ id Over Hi) as HC. rewrite Hl in HC.
  pose proof (live_count_range (<[i := (id, Over)]> (clients s))) as HR'. cbn [live] in HC.
  assert (int64 (ActiveConnections s - 1) = live_count (clients s) - 1) as EA.
  { rewrite S3. apply int64_id. unfold is_int64. lia. }
  split; cbn [end_client finish wld clients connCount ActiveConnections eng Broker_ chans]; rewrite ?length_insert, ?C1, ?C2, ?EA, ?D1; auto.
  - intros j id' ph'' [[-> [= -> ->]]|[_ H]]%insert_cases; by eapply S2.
  - lia.
  - intros HM. specialize (S4 HM). lia.
  - apply ClearClientSession_ok; [done|lia].
  - intros j id' ph'' [[-> [= -> ->]]|[Hne H]]%insert_cases; [by rewrite lookup_delete_eq|]. rewrite lookup_delete_ne; [by eapply S6|].
    intros E. apply Hne. pose proof (S2 _ _ _ Hi) as N1. pose proof (S2 _ _ _ H) as N2. apply lookup_lt_Some in Hi, H.
    rewrite N1, N2 in E. apply conn_name_inj in E; [lia|unfold is_int64; lia..].
  - intros n Hn Hin. rewrite lookup_delete_None. right. by apply S7.
  - intros ch q [H Hn]%C4. destruct (S9 ch q H) as (j & id' & ph'' & Hj & Hq'). exists j, id', ph''. split; [|done].
    rewrite list_lookup_insert_ne; [done|]. intros <-. rewrite Hi in Hj. injection Hj as <- <-. congruence.
  - intros j id' ph'' q [[-> [= -> ->]]|[_ H]]%insert_cases Hq'; [done|by eapply S10].
  - intros j k id' id'' pj pk q [[-> [= -> ->]]|[Nj Hj]]%insert_cases [[-> [= -> ->]]|[Nk Hk]]%insert_cases Q1 Q2; try done. by eapply S11.
  - intros j id' p q pm [[-> [=]]|[_ H]]%insert_cases. by eapply S12.
Qed.

Lemma server_ok_accept MaxClients chunks lim s : server_ok MaxClients s -> Z.of_nat (length (clients s)) < 2 ^ 63 - 1 ->
  server_ok MaxClients (accept MaxClients chunks lim s).1.
Proof.
  intros HS Hlen. pose proof HS as [S1 S2 S3 S4 S5 S6 S7 S8 S9 S10 S11 S12]. unfold accept. destruct (_ && _) eqn:Ef; [done|]. cbn [fst].
  pose proof (live_count_range (clients s)) as HR.
  assert (int64 (connCount s + 1) = Z.of_nat (length (clients s)) + 1) as -> by (rewrite S1; apply int64_id; unfold is_int64; lia).
  assert (int64 (ActiveConnections s + 1) = live_count (clients s) + 1) as EA by (rewrite S3; apply int64_id; unfold is_int64; lia).
  split; cbn [wld clients connCount ActiveConnections]; rewrite ?length_app, ?EA; cbn [length]; auto.
  - lia.
  - intros i id ph [[_ H]|[-> [= <- <-]]]%lookup_snoc_Some; [by eapply S2|done].
  - rewrite live_count_app. cbn [live_count live]. lia.
  - intros HM. apply andb_false_iff in Ef as [Ef|Ef]; lia.
  - intros i id ph [[_ H]|[-> [= <- <-]]]%lookup_snoc_Some; [by eapply S6|]. apply S7; [lia|unfold is_int64; lia].
  - intros n Hn Hin. apply S7; [lia|done].
  - intros ch q H. destruct (S9 ch q H) as (i & id & ph & Hi & Hq). exists i, id, ph. split; [by apply lookup_app_l_Some|done].
  - intros i id ph q [[_ H]|[-> [= <- <-]]]%lookup_snoc_Some Hq; [by eapply S10|done].
  - intros i j id id' ph ph' q [[_ Hi]|[-> [= <- <-]]]%lookup_snoc_Some [[_ Hj]|[-> [= <- <-]]]%lookup_snoc_Some Q1 Q2; try done. by eapply S11.
  - intros i id p q pm [[_ H]|[-> [=]]]%lookup_snoc_Some. by eapply S12.
Qed.

Lemma server_ok_open MaxClients s i id c e p : server_ok MaxClients s -> Z.of_nat (length (clients s)) < 2 ^ 63 - 1 ->
  clients s !! i = Some (id, Opening c) -> GetClientSession id (eng (wld s)) = (e, p) ->
  server_ok MaxClients (set_client i id (Serving p c) (mkWorld e (Broker_ (wld s)) (chans (wld s))) s).
Proof.
  intros HS Hlen Hi HG. pose proof HS as [S1 S2 S3 S4 S5 S6 S7 S8 S9 S10 S11 S12].
  destruct (GetClientSession_ok id (eng (wld s)) e p S5 HG) as (G1 & G2 & _ & G4 & _).
  pose proof (lookup_lt_Some _ _ _ Hi) as Hlt.
  assert (forall j, (j < length (clients s))%nat -> j <> i -> conn_name (Z.of_nat j + 1) <> id) as Hne.
  { intros j Hj Hn E. rewrite (S2 _ _ _ Hi) in E. apply conn_name_inj in E; [lia|unfold is_int64; lia..]. }
  split; cbn [set_client wld clients connCount ActiveConnections eng Broker_ chans]; rewrite ?length_insert; auto.
  - intros j id' ph'' [[-> [= -> ->]]|[_ H]]%insert_cases; by eapply S2.
  - rewrite (live_count_insert _ _ _ _ _ _ Hi). cbn [live]. lia.
  - intros j id' ph'' [[-> [= -> ->]]|[Hj H]]%insert_cases; [done|]. rewrite G4; [by eapply S6|].
    rewrite (S2 _ _ _ H). apply Hne; [by eapply lookup_lt_Some|done].
  - intros n Hn Hin. rewrite G4; [by apply S7|]. rewrite (S2 _ _ _ Hi). intros E. apply conn_name_inj in E; [lia|done|unfold is_int64; lia].
  - intros ch q H. destruct (S9 ch q H) as (j & id' & ph & Hj & Hq). destruct (decide (j = i)) as [->|Hn].
    + rewrite Hi in Hj. injection Hj as <- <-. exists i, id, (Serving p c). by rewrite list_lookup_insert_eq.
    + exists j, id', ph. by rewrite list_lookup_insert_ne.
  - intros j id' ph'' q [[-> [= -> ->]]|[_ H]]%insert_cases Hq; [by eapply (S10 i id (Opening c))|by eapply S10].
  - intros j k id' id'' pj pk q [[-> [= -> ->]]|[Nj Hj]]%insert_cases [[-> [= -> ->]]|[Nk Hk]]%insert_cases Q1 Q2; [done| | |by eapply S11].
    + by eapply (S11 i k id id'' (Opening c)).
    + by eapply (S11 j i id' id pj (Opening c)).
  - intros j id' p' q pm [[-> [=]]|[_ H]]%insert_cases. by eapply S12.
Qed.

(** A connection whose last step left the world [W'] and the variables [c'] ends. *)
Lemma server_ok_last MaxClients s i id ph p c' W' rt : server_ok MaxClients s -> small (eng W') -> Z.of_nat (length (clients s)) < 2 ^ 63 - 1 ->
  runtime_ok rt -> clients s !! i = Some (id, ph) -> live ph = true -> phase_session ph = Some p ->
  client_effect (phase_queue ph) (wld s) W' (subQueue c') -> server_ok MaxClients (end_client i id rt c' W' s).
Proof.
  intros HS Hsm Hlen Hrt Hi Hl Hse HE.
  assert (server_ok MaxClients (set_client i id (Serving p c') W' s)) as HS1 by (eapply server_ok_set; done).
  assert (end_client i id rt c' W' s = end_client i id rt c' (wld (set_client i id (Serving p c') W' s)) (set_client i id (Serving p c') W' s)) as ->.
  { unfold end_client, set_client. cbn [wld clients connCount ActiveConnections]. by rewrite list_insert_insert_eq. }
  eapply (server_ok_end _ _ _ _ (Serving p c')); try done.
  - cbn. by rewrite length_insert.
  - cbn. apply list_lookup_insert_eq. by eapply lookup_lt_Some.
Qed.

Lemma on_event_ok MaxClients ev s s' : server_ok MaxClients s -> small (eng (wld s)) -> Z.of_nat (length (clients s)) < 2 ^ 63 - 1 ->
  match ev with Turn _ rt | Pump _ rt _ | Released _ rt => runtime_ok rt | Connect _ _ => True end ->
  on_event ParseFloat FormatFloat MaxClients ev s = ret s' ->
  server_ok MaxClients s' /\ (length (sessions (eng (wld s'))) <= S (length (sessions (eng (wld s)))))%nat /\
  (length (clients s') <= S (length (clients s)))%nat.
Proof.
  intros HS Hsm Hlen Hrt. pose proof (sv_sessions _ _ HS) as Hok. destruct ev as [chunks lim|i rt|i rt ev|i rt]; cbn [on_event].
  - intros [= <-]. split; [by apply server_ok_accept|]. unfold accept. destruct (_ && _); cbn; [lia|]. rewrite length_app. cbn. lia.
  - destruct (clients s !! i) as [[id [c|p c| | |]]|] eqn:Ei; try done.
    + destruct (GetClientSession id (eng (wld s))) as [e p] eqn:EG. intros [= <-]. split; [by eapply server_ok_open|].
      destruct (GetClientSession_ok id (eng (wld s)) e p Hok EG) as (_ & _ & _ & _ & H & _). cbn. rewrite length_insert. lia.
    + destruct (serve _ _ rt p id (wld s) c) as [[[[W' c'] o]|]|] eqn:Es; cbn [andThen]; try done. intros [= <-].
      destruct (serve_effect rt p id (wld s) c W' c' o Hok Hsm) as [HE Ho]; [by rewrite (sv_own _ _ HS _ _ _ Ei)|done|].
      destruct (ce_table _ _ _ _ HE) as (_ & TL & _). assert (small (eng W')) as Hsm' by (unfold small; by rewrite TL).
      destruct o as [| | |q]; cbn [after_serve]; split.
      * by eapply (server_ok_set _ _ _ _ (Serving p c)).
      * cbn. rewrite length_insert, TL. lia.
      * by eapply (server_ok_last _ _ _ _ (Serving p c)).
      * cbn [end_client finish wld eng clients]. rewrite length_insert. destruct (cleanup_spec rt c' W' Hrt) as (-> & _). rewrite (proj2 (clear_sessions _ _)), TL. lia.
      * by eapply (server_ok_set _ _ _ _ (Serving p c)).
      * cbn. rewrite length_insert, TL. lia.
      * eapply (server_ok_set _ _ _ _ (Serving p c)); try done. by intros ??? [= <- <- <-].
      * cbn. rewrite length_insert, TL. lia.
  - destruct (clients s !! i) as [[id [| |p q pm| |]]|] eqn:Ei; try done. pose proof (sv_pump _ _ HS _ _ _ _ _ Ei) as Hq.
    destruct (pump_step q ev (wld s) pm) as [[[W' pm'] over]|] eqn:Es; cbn [mbind option_bind]; [|done].
    destruct (pump_effect q ev (wld s) pm W' pm' over Hok Hq Es) as [HE Hq'].
    destruct (ce_table _ _ _ _ HE) as (_ & TL & _). assert (small (eng W')) as Hsm' by (unfold small; by rewrite TL).
    rewrite <- Hq in HE at 1. rewrite <- Hq' in HE. destruct over; intros [= <-]; split.
    + by eapply (server_ok_last _ _ _ _ (Pumping p q pm)).
    + cbn [end_client finish wld eng clients]. rewrite length_insert. destruct (cleanup_spec rt (pc pm') W' Hrt) as (-> & _). rewrite (proj2 (clear_sessions _ _)), TL. lia.
    + eapply (server_ok_set _ _ _ _ (Pumping p q pm)); try done. by intros ??? [= <- <- <-].
    + cbn. rewrite length_insert, TL. lia.
  - destruct (clients s !! i) as [[id [| | |p c|]]|] eqn:Ei; try done. intros [= <-]. split.
    + by eapply (server_ok_end _ _ _ _ (Replicating p c)).
    + cbn [end_client finish wld eng clients]. rewrite length_insert. destruct (cleanup_spec rt c (wld s) Hrt) as (-> & _). rewrite (proj2 (clear_sessions _ _)). lia.
Qed.

Definition event_ok (ev : server_event) : Prop :=
  match ev with Turn _ rt | Pump _ rt _ | Released _ rt => runtime_ok rt | Connect _ _ => True end.

Lemma on_events_ok MaxClients evs : forall s s', server_ok MaxClients s ->
  Z.of_nat (length (sessions (eng (wld s))) + length evs) < 2 ^ 31 - 1 -> Z.of_nat (length (clients s) + length evs) < 2 ^ 63 - 1 ->
  Forall event_ok evs -> on_events ParseFloat FormatFloat MaxClients evs s = ret s' ->
  server_ok MaxClients s' /\ (length (clients s') <= length (clients s) + length evs)%nat.
Proof.
  induction evs as [|ev evs IH]; intros s s' HS H1 H2 HF; cbn [on_events length] in *; [intros [= <-]; split; [done|lia]|].
  apply Forall_cons in HF as [Hev HF]. destruct (on_event _ _ MaxClients ev s) as [[s1|]|] eqn:E; cbn [andThen]; try done. intros Hs.
  destruct (on_event_ok MaxClients ev s s1 HS) as (A & B & C); [unfold small; lia|lia|done|done|].
  destruct (IH s1 s' A) as [D F]; [lia|lia|done|done|]. split; [done|lia].
Qed.

Definition start_server (e : @Session.Engine VectorIndex) : server := mkServer (mkWorld e NewBroker ∅) [] 0 0.

Lemma start_server_ok MaxClients e : sessions_ok e -> (forall n, is_int64 n -> clientSessions e !! conn_name n = None) -> server_ok MaxClients (start_server e).
Proof.
  intros Hok Hn. split; cbn [start_server wld clients connCount ActiveConnections eng Broker_ chans live_count length]; try done; try (intros; lia); auto.
Qed.

(** C11: through any history of connections that come, send commands, subscribe,
    become replicas and go, and any interleaving of them: the counter of connections
    is their number and never exceeds [MaxClients] when that is set; connections that
    are served have sessions of their own; and a connection that has ended has left
    nothing behind: no session, and no subscription, since every queue the broker
    delivers to belongs to exactly one connection that is still there. *)
Theorem connections_leave_nothing MaxClients evs e s' :
  sessions_ok e -> (forall n, is_int64 n -> clientSessions e !! conn_name n = None) -> Z.of_nat (length (sessions e) + length evs) < 2 ^ 31 - 1 ->
  Forall event_ok evs -> on_events ParseFloat FormatFloat MaxClients evs (start_server e) = ret s' ->
  ActiveConnections s' = live_count (clients s') /\ (0 < MaxClients -> live_count (clients s') <= MaxClients) /\
  (forall i id, clients s' !! i = Some (id, Over) -> clientSessions (eng (wld s')) !! id = None) /\
  (forall i j id id' ph ph' p, clients s' !! i = Some (id, ph) -> clients s' !! j = Some (id', ph') ->
     phase_session ph = Some p -> phase_session ph' = Some p -> i = j) /\
  (forall ch q, subscribed (Broker_ (wld s')) ch q -> exists i id ph, clients s' !! i = Some (id, ph) /\ phase_queue ph = Some q /\ live ph = true /\
     forall j id' ph', clients s' !! j = Some (id', ph') -> phase_queue ph' = Some q -> j = i).
Proof.
  intros Hok Hn Hlen HF Hrun.
  destruct (on_events_ok MaxClients evs (start_server e) s') as [[S1 S2 S3 S4 S5 S6 S7 S8 S9 S10 S11 S12] HL]; [by apply start_server_ok|done|cbn; lia|done|done|].
  cbn [start_server clients length] in HL. split_and!; [done|by rewrite <- S3|by intros i id Hi; apply S6 in Hi| |].
  - intros i j id id' ph ph' p Hi Hj Hp Hp'. rewrite <- (S6 _ _ _ Hi) in Hp. rewrite <- (S6 _ _ _ Hj) in Hp'.
    pose proof (so_inj _ S5 _ _ _ Hp Hp') as E. rewrite (S2 _ _ _ Hi), (S2 _ _ _ Hj) in E. apply lookup_lt_Some in Hi, Hj.
    apply conn_name_inj in E; [lia|unfold is_int64; lia..].
  - intros ch q H. destruct (S9 ch q H) as (i & id & ph & Hi & Hq). exists i, id, ph. split_and!; [done|done|by destruct ph|].
    intros j id' ph' Hj Hq'. by eapply S11.
Qed.

End Invariant.

(** ** The theorems on concrete connections *)

Definition sample_rt : runtime := mkRuntime sample_env elements (fun b => (map_to_list b).*1).

Lemma sample_rt_ok : runtime_ok sample_rt.
Proof. by intros b. Qed.

Definition sample_world (pass : bytes) : @world unit := mkWorld (GetClientSession (conn_name 1) (new_engine pass)).1 NewBroker ∅.

(** A pipeline of three commands, split by the network inside the second one. *)
Definition three_commands : list (runtime * list bytes) :=
  (fun argv => (sample_rt, argv)) <$> [[str "SET"; str "k"; str "5"]; [str "incr"; str "k"]; [str "PUBLISH"; str "news"; str "x"]].

Definition three_bytes : bytes := concat (SerializeCommand <$> three_commands.*2).

Definition cut_conn (lim : option nat) : conn := new_conn [take 40 three_bytes; drop 40 three_bytes] lim.

Definition results {A B} (m : option (res fault (A * B))) : option B := match m with Some (Ok (_, b)) => Some b | _ => None end.

Lemma three_ordinary : Forall ordinary three_commands.*2.
Proof.
  repeat (apply Forall_cons_2 || apply Forall_nil_2); (split_and!; [apply (bool_decide_unpack _); vm_compute; exact I|vm_compute; discriminate|]);
    repeat (apply Forall_cons_2 || apply Forall_nil_2); vm_compute; discriminate.
Qed.

Lemma pipeline_answered_witness : exists W' vs c1, run_commands sample_float sample_text 0 (conn_name 1) three_commands (sample_world []) = ret (W', vs) /\
  vs = [OK; Integer 6; Integer 0] /\
  serve_loop sample_float sample_text three_commands.*1 0 (conn_name 1) (sample_world []) (cut_conn None) = ret (W', c1, Goes_on) /\
  sent (wr c1) = str "+OK" ++ CRLF ++ str ":6" ++ CRLF ++ str ":0" ++ CRLF.
Proof.
  assert (results (run_commands sample_float sample_text 0 (conn_name 1) three_commands (sample_world [])) = Some [OK; Integer 6; Integer 0]) as Hr
    by (vm_compute; reflexivity).
  destruct (run_commands sample_float sample_text 0 (conn_name 1) three_commands (sample_world [])) as [[[W' vs]|]|] eqn:Er; try discriminate Hr.
  injection Hr as ->.
  destruct (pipeline_answered sample_float sample_text three_commands 0 (conn_name 1) (sample_world []) (cut_conn None) W' [OK; Integer 6; Integer 0])
    as (n & W1 & vs1 & c1 & o & _ & H2 & _ & H4).
  - reflexivity.
  - exact three_ordinary.
  - reflexivity.
  - reflexivity.
  - exact Er.
  - destruct (H4 eq_refl) as (-> & -> & -> & _ & Hs). exists W', [OK; Integer 6; Integer 0], c1. split; [reflexivity|]. split; [reflexivity|].
    split; [exact H2|]. rewrite Hs. vm_compute. reflexivity.
Defined.

Lemma never_logs_in_cons m k r argv r' : next_command r = Ok (argv, r') -> rejected m argv -> never_logs_in m k r' -> never_logs_in m (S k) r.
Proof. cbn [never_logs_in]. by intros ->. Qed.

(** A stranger tries commands, a wrong password, PSYNC and SUBSCRIBE. *)
Definition stranger_bytes : bytes :=
  concat (SerializeCommand <$> [[str "PUBLISH"; str "news"; str "x"]; [str "AUTH"; str "guess"]; [str "PSYNC"; str "?"; str "-1"]; [str "SUBSCRIBE"; str "news"]; [str "QUIT"]]).

Definition stranger_conn : conn := new_conn [stranger_bytes] None.

Lemma stranger_gets_nothing_witness : exists c' o rs,
  serve_loop sample_float sample_text (replicate 5 sample_rt) 0 (conn_name 1) (sample_world (str "pw")) stranger_conn = ret (sample_world (str "pw"), c', o) /\
  sent (wr c') ++ pending (wr c') = concat rs /\ Forall refusal rs /\ o = Ends.
Proof.
  destruct (stranger_gets_nothing sample_float sample_text (NewACLManager (str "pw")) (replicate 5 sample_rt) 0 (conn_name 1) (sample_world (str "pw")))
    with (c := stranger_conn) (total := @nil byte) as (c' & o & rs & H1 & H2 & H3 & H4).
  - split; [discriminate|reflexivity| |reflexivity|exists 0%nat; split; [vm_compute; reflexivity|split; vm_compute; reflexivity]].
    intros u. unfold NewACLManager. rewrite lookup_singleton_eq. intros [= <-]. reflexivity.
  - vm_compute. reflexivity.
  - do 5 (eapply never_logs_in_cons; [vm_compute; reflexivity|cbn [rejected]; try exact I; intros H; vm_compute in H; try discriminate H; vm_compute; reflexivity|]).
    exact I.
  - reflexivity.
  - exists c', o, rs. split; [exact H1|].
    assert (match serve_loop sample_float sample_text (replicate 5 sample_rt) 0 (conn_name 1) (sample_world (str "pw")) stranger_conn with
      Some (Ok (_, c', o)) => negb (broken (wr c')) && match o with Ends => true | _ => false end | _ => false end = true) as E by (vm_compute; reflexivity).
    rewrite H1 in E. apply andb_prop in E as [E1 E2]. apply negb_true_iff in E1. unfold carries in H3. rewrite E1 in H3.
    split; [exact H3|]. split; [exact H4|]. destruct o; (discriminate E2 || reflexivity).
Defined.

(** Two places: one client subscribes, one publishes and quits, a third is refused
    while both are there; the subscriber receives the message and hangs up. *)
Definition busy_evening : list server_event :=
  [Connect [SerializeCommand [str "SUBSCRIBE"; str "news"]] None;
   Connect [SerializeCommand [str "PUBLISH"; str "news"; str "hello"]; SerializeCommand [str "QUIT"]] None;
   Connect [] None;
   Turn 0 sample_rt; Turn 0 sample_rt; Turn 1 sample_rt; Turn 1 sample_rt; Pump 0 sample_rt Take_message; Turn 1 sample_rt;
   Connect [] None; Pump 0 sample_rt Fetch].

Definition evening_end : list server_event := [Pump 0 sample_rt Take_error; Turn 2 sample_rt].

Definition server_of (m : option (res fault (@server unit))) : @server unit := match m with Some (Ok s) => s | _ => start_server (new_engine []) end.

Definition phase_code (ph : phase) : nat := match ph with Opening _ => 0 | Serving _ _ => 1 | Pumping _ _ _ => 2 | Replicating _ _ => 3 | Over => 4 end.

Lemma evening_runs : exists s, on_events sample_float sample_text 2 (busy_evening ++ evening_end) (start_server (new_engine [])) = ret s /\
  map (fun cp => phase_code cp.2) (clients s) = [4; 4; 1]%nat.
Proof.
  assert (match on_events sample_float sample_text 2 (busy_evening ++ evening_end) (start_server (new_engine [])) with
    | Some (Ok s) => map (fun cp => phase_code cp.2) (clients s) | _ => [] end = [4; 4; 1]%nat) as E by (vm_compute; reflexivity).
  destruct (on_events _ _ _ _ _) as [[s|]|]; try discriminate E. by exists s.
Qed.

Lemma connections_leave_nothing_witness : exists s, on_events sample_float sample_text 2 (busy_evening ++ evening_end) (start_server (new_engine [])) = ret s /\
  ActiveConnections s = 1 /\ live_count (clients s) <= 2 /\ (forall i id, clients s !! i = Some (id, Over) -> clientSessions (eng (wld s)) !! id = None) /\
  (exists id, clients s !! 0%nat = Some (id, Over)) /\ forall ch, ~ subscribed (Broker_ (wld s)) ch 0%nat.
Proof.
  destruct evening_runs as (s & Hs & Hc).
  destruct (connections_leave_nothing sample_float sample_text 2 (busy_evening ++ evening_end) (new_engine []) s) as (H1 & H2 & H3 & _ & H5).
  - apply new_sessions_ok.
  - intros n _. reflexivity.
  - vm_compute. reflexivity.
  - repeat (apply Forall_cons_2 || apply Forall_nil_2); (exact I || exact sample_rt_ok).
  - exact Hs.
  - exists s. destruct (clients s) as [|[id0 p0] [|[id1 p1] [|[id2 p2] [|]]]] eqn:Ec; try discriminate Hc.
    destruct p0; try discriminate Hc. destruct p1; try discriminate Hc. destruct p2 as [|p c| | |]; try discriminate Hc.
    split; [exact Hs|]. split; [exact H1|]. split; [apply H2; reflexivity|]. split; [exact H3|]. split; [by exists id0|].
    intros ch Hsub. destruct (H5 ch 0%nat Hsub) as (i & id & ph & Hi & Hq & _).
    assert (match on_events sample_float sample_text 2 (busy_evening ++ evening_end) (start_server (new_engine [])) with
      | Some (Ok s) => forallb (fun cp => bool_decide (phase_queue cp.2 = None)) (clients s) | _ => false end = true) as E by (vm_compute; reflexivity).
    rewrite Hs in E. change (forallb (fun cp => bool_decide (phase_queue cp.2 = None)) (clients s) = true) in E. rewrite Ec, forallb_forall in E. apply list_elem_of_lookup_2, list_elem_of_In, E in Hi. apply bool_decide_eq_true in Hi.
    cbn [snd] in Hi. rewrite Hq in Hi. discriminate Hi.
Defined.

(** ** What the connection loop does not do *)

(** A user whose pattern allows only the keys of a cache sends PSYNC: the connection
    becomes a replica and receives the whole keyspace. *)
Definition tenant_world : @world unit := mkWorld tenant_engine NewBroker ∅.

Definition outcome_of (m : option (res fault (@world unit * conn * outcome))) : option outcome := match m with Some (Ok (_, _, o)) => Some o | _ => None end.

Theorem tenant_becomes_replica : confined_to (str "cache:") (str "b") (str "bob") (eng tenant_world) /\
  exists p, clientSessions (eng tenant_world) !! str "b" = Some p /\
    outcome_of (serve sample_float sample_text sample_rt p (str "b") tenant_world (new_conn [SerializeCommand [str "PSYNC"; str "?"; str "-1"]] None)) = Some To_replication.
Proof.
  split; [exact tenant_confined|].
  assert (match clientSessions (eng tenant_world) !! str "b" with
    | Some p => match outcome_of (serve sample_float sample_text sample_rt p (str "b") tenant_world (new_conn [SerializeCommand [str "PSYNC"; str "?"; str "-1"]] None)) with
                | Some To_replication => true | _ => false end
    | None => false end = true) as E by (vm_compute; reflexivity).
  destruct (clientSessions (eng tenant_world) !! str "b") as [p|]; [|discriminate E]. exists p. split; [reflexivity|].
  destruct (outcome_of _) as [[]|]; (discriminate E || reflexivity).
Qed.

(** A command followed by an empty array in the same packet: the reply stays in the
    buffer while the server waits for the next command. *)
Definition ping_and_empty : bytes := SerializeCommand [str "PING"] ++ SerializeCommand [].

Theorem reply_withheld :
  match serve_loop sample_float sample_text [sample_rt; sample_rt] 0 (conn_name 1) (sample_world []) (new_conn [ping_and_empty] None) with
  | Some (Ok (_, c, Goes_on)) => unread (rd c) = [] /\ sent (wr c) = [] /\ pending (wr c) = respPONG
  | _ => False
  end.
Proof. vm_compute. repeat split. Qed.

(** UNSUBSCRIBE answers that no channel is left and leaves the subscriptions as they
    are; a message does not tell on which channel it was published. *)
Theorem unsubscribe_keeps_channels q channels (W : @world unit) c :
  pump_command q (str "UNSUBSCRIBE" :: channels) W c = (W, flushed (reply unsubscribe_frame c), false) /\
  forall W' p, chans W !! q = Some (mkQueue 256 [str "hello"]) -> pump_step q Take_message W (mkPump c [] false) = Some (W', p, false) ->
    wr (pc p) = Flush (write (message_frame (str "hello")) (wr c)).
Proof. split; [reflexivity|]. intros W' p Hq. cbn [pump_step]. rewrite Hq. cbn. by intros [= <- <-]. Qed.
