(* ===== verification/WebSocket.v ===== *)
(** * WebSocket frames (internal/web/websocket.go)

    The frames of the dashboard's connection: the writer of text frames and the
    reader, which also takes the masked frames of a browser. *)

From S2P Require Import Prelude Resp.

Definition maxWSFrameSize : Z := 16 * 1024 * 1024.

(** The length field of [WriteText]. *)
Definition ws_length (length : Z) : bytes :=
  if length <=? 125 then [z2b length]
  else if length <=? 65535 then [z2b 126; z2b (Z.shiftr length 8); z2b (Z.land length 0xFF)]
  else [z2b 127; z2b (Z.shiftr length 56); z2b (Z.shiftr length 48); z2b (Z.shiftr length 40); z2b (Z.shiftr length 32);
        z2b (Z.shiftr length 24); z2b (Z.shiftr length 16); z2b (Z.shiftr length 8); z2b (Z.land length 0xFF)].

(** The bytes [WriteText] hands to the connection. *)
Definition WriteText (msg : bytes) : bytes := z2b 0x81 :: ws_length (Z.of_nat (length msg)) ++ msg.

Inductive ws_error := WsRead (e : rerr) | WsTooLarge.

Definition ws_read {A} (r : res rerr A) : res ws_error A := match r with Ok a => Ok a | Err e => Err (WsRead e) end.

Definition ReadByte (inp : bytes) : res rerr (byte * bytes) := match inp with b :: rest => Ok (b, rest) | [] => Err EOF end.

(** [payload[i] ^= mask[i%4]]. *)
Definition unmask (mask payload : bytes) : bytes :=
  imap (fun i b => z2b (Z.lxor (b2z b) (b2z (nth (i mod 4) mask x00)))) payload.

(** The extended length after the second byte. *)
Definition ws_payloadLen (b1 : byte) (inp : bytes) : res ws_error (Z * bytes) :=
  let n := Z.land (b2z b1) 0x7F in
  if n =? 126 then
    '(lenBuf, inp) ← ws_read (ReadFull 2 inp);
    Ok (Z.lor (Z.shiftl (b2z (nth 0 lenBuf x00)) 8) (b2z (nth 1 lenBuf x00)), inp)
  else if n =? 127 then
    '(lenBuf, inp) ← ws_read (ReadFull 8 inp);
    Ok (Z.lor (Z.lor (Z.lor (Z.shiftl (b2z (nth 4 lenBuf x00)) 24) (Z.shiftl (b2z (nth 5 lenBuf x00)) 16))
                 (Z.shiftl (b2z (nth 6 lenBuf x00)) 8)) (b2z (nth 7 lenBuf x00)), inp)
  else Ok (n, inp).

Definition ReadMessage (inp : bytes) : res ws_error (bytes * bytes) :=
  '(b0, inp) ← ws_read (ReadByte inp);
  if Z.land (b2z b0) 0x0F =? 0x08 then Err (WsRead EOF)
  else
    '(b1, inp) ← ws_read (ReadByte inp);
    let masked := negb (Z.land (b2z b1) 0x80 =? 0) in
    '(payloadLen, inp) ← ws_payloadLen b1 inp;
    if (payloadLen <? 0) || (maxWSFrameSize <? payloadLen) then Err WsTooLarge
    else
      '(mask, inp) ← (if masked then ws_read (ReadFull 4 inp) else Ok ([], inp));
      '(payload, inp) ← ws_read (ReadFull payloadLen inp);
      Ok (if masked then unmask mask payload else payload, inp).

(** ** The frames of a browser *)

(** The masking of RFC 6455: the key is repeated along the message. *)
Definition mask_message (mask msg : bytes) : bytes :=
  zip_with (fun b k => z2b (Z.lxor (b2z b) (b2z k))) msg (concat (replicate (length msg) mask)).

(** A masked text frame, as RFC 6455 describes it. *)
Definition client_frame (mask msg : bytes) : bytes :=
  match ws_length (Z.of_nat (length msg)) with
  | b1 :: more => z2b 0x81 :: z2b (b2z b1 + 0x80) :: more ++ mask ++ mask_message mask msg
  | [] => []
  end.

(** ** Reading back what was written *)

Lemma shiftl_lor a b k : 0 <= k -> 0 <= b < 2 ^ k -> 0 <= a -> Z.lor (Z.shiftl a k) b = a * 2 ^ k + b.
Proof. intros Hk Hb Ha. rewrite Z.lor_comm, lor_shiftl by done. lia. Qed.

(** Two bytes at the positions [k + 8] and [k]. *)
Lemma shiftl_join a b k : 0 <= k -> 0 <= a -> 0 <= b < 256 -> Z.lor (Z.shiftl a (k + 8)) (Z.shiftl b k) = Z.shiftl (a * 256 + b) k.
Proof.
  intros Hk Ha Hb. rewrite (Z.add_comm k 8), <- Z.shiftl_shiftl, <- Z.shiftl_lor by lia. f_equal. by apply (shiftl_lor a b 8).
Qed.

Lemma word4 a b c d : 0 <= a -> 0 <= b < 256 -> 0 <= c < 256 -> 0 <= d < 256 ->
  Z.lor (Z.lor (Z.lor (Z.shiftl a 24) (Z.shiftl b 16)) (Z.shiftl c 8)) d = ((a * 256 + b) * 256 + c) * 256 + d.
Proof.
  intros Ha Hb Hc Hd. change 24 with (16 + 8) at 1. rewrite (shiftl_join a b 16) by lia. change 16 with (8 + 8) at 1.
  rewrite (shiftl_join _ c 8) by lia. apply (shiftl_lor _ d 8); lia.
Qed.

Lemma byte_of n k : 0 <= k -> Z.shiftr n k mod 256 = n / 2 ^ k mod 256.
Proof. intros Hk. by rewrite Z.shiftr_div_pow2. Qed.

Lemma ReadFull_n n (a rest : bytes) : n = Z.of_nat (length a) -> ReadFull n (a ++ rest) = Ok (a, rest).
Proof. intros ->. apply ReadFull_app. Qed.

(** The reader takes the length that the writer wrote, with the bit of the mask or
    without it. *)
Lemma length_roundtrip n (m : bool) rest : 0 <= n <= maxWSFrameSize ->
  exists b1 more, ws_length n = b1 :: more /\
    ws_payloadLen (if m then z2b (b2z b1 + 0x80) else b1) (more ++ rest) = Ok (n, rest) /\
    negb (Z.land (b2z (if m then z2b (b2z b1 + 0x80) else b1)) 0x80 =? 0) = m.
Proof.
  unfold maxWSFrameSize. intros Hn.
  assert (forall x, 0 <= x < 128 -> Z.land (b2z (if m then z2b (b2z (z2b x) + 0x80) else z2b x)) 0x7F = x /\
    negb (Z.land (b2z (if m then z2b (b2z (z2b x) + 0x80) else z2b x)) 0x80 =? 0) = m) as Hb.
  { intros x Hx. assert (b2z (z2b x) = x) as E by (rewrite b2z_z2b; apply Z.mod_small; lia). destruct m; rewrite E.
    - rewrite b2z_z2b, (Z.mod_small (x + 128)) by lia. rewrite (Z.land_ones _ 7) by lia. split.
      + change (2 ^ 7) with 128. rewrite <- (Z.mul_1_l 128) at 1. rewrite Z.mod_add by done. by apply Z.mod_small.
      + replace (x + 128) with (Z.lor x (Z.shiftl 1 7)) by (rewrite lor_shiftl; lia). rewrite Z.land_lor_distr_l.
        replace (Z.land x 128) with 0; [done|]. symmetry. change 128 with (Z.shiftl 1 7). rewrite <- (Z.mod_small x (2 ^ 7)) by lia.
        rewrite <- Z.land_ones, <- Z.land_assoc by lia. apply Z.land_0_r.
    - rewrite (Z.land_ones _ 7) by lia. split; [apply Z.mod_small; lia|].
      replace (Z.land x 128) with 0; [done|]. symmetry. rewrite <- (Z.mod_small x (2 ^ 7)) by lia.
      rewrite <- Z.land_ones, <- Z.land_assoc by lia. apply Z.land_0_r. }
  unfold ws_length, ws_payloadLen. destruct (Z.leb_spec n 125); [|destruct (Z.leb_spec n 65535)].
  - exists (z2b n), []. destruct (Hb n) as [-> ->]; [lia|]. destruct (Z.eqb_spec n 126); [lia|]. destruct (Z.eqb_spec n 127); [lia|]. done.
  - eexists _, _. split; [done|]. destruct (Hb 126) as [-> ->]; [lia|]. split; [|done]. cbn [Z.eqb Pos.eqb].
    rewrite ReadFull_n by done. cbn [ws_read mbind res_bind nth]. rewrite !b2z_z2b, byte_of, (Z.land_ones _ 8), Z.mod_mod by lia.
    rewrite (shiftl_lor _ _ 8) by (lia || apply Z.mod_pos_bound; lia). do 2 f_equal. change (2 ^ 8) with 256. Z.div_mod_to_equations. lia.
  - eexists _, _. split; [done|]. destruct (Hb 127) as [-> ->]; [lia|]. split; [|done]. cbn [Z.eqb Pos.eqb].
    rewrite ReadFull_n by done. cbn [ws_read mbind res_bind nth]. rewrite !b2z_z2b, !byte_of, (Z.land_ones _ 8), Z.mod_mod by lia.
    rewrite word4 by (apply Z.mod_pos_bound; lia). do 2 f_equal.
    change (2 ^ 8) with 256. change (2 ^ 16) with 65536. change (2 ^ 24) with 16777216. Z.div_mod_to_equations. lia.
Qed.

Lemma lxor_byte x y : b2z (z2b (Z.lxor (b2z x) (b2z y))) = Z.lxor (b2z x) (b2z y).
Proof.
  rewrite b2z_z2b. apply Z.mod_small. pose proof (b2z_range x). pose proof (b2z_range y). split; [apply Z.lxor_nonneg; lia|].
  apply Z.log2_lt_cancel. eapply Z.le_lt_trans; [apply Z.log2_lxor; lia|]. change (Z.log2 256) with 8.
  apply Z.max_lub_lt; (destruct (Z.eq_dec (b2z x) 0) as [E|]; destruct (Z.eq_dec (b2z y) 0) as [E'|]; rewrite ?E, ?E'; try (cbn; lia); apply Z.log2_lt_pow2; lia).
Qed.

Lemma repeated_lookup (mask : bytes) n i : length mask = 4%nat -> (i < 4 * n)%nat ->
  concat (replicate n mask) !! i = Some (nth (i mod 4) mask x00).
Proof.
  intros Hm. revert i. induction n as [|n IH]; intros i Hi; [lia|]. cbn [replicate concat]. destruct (decide (i < 4)%nat) as [H|H].
  - rewrite lookup_app_l by lia. rewrite Nat.mod_small by lia. destruct (lookup_lt_is_Some_2 mask i) as [b Hb]; [lia|].
    rewrite Hb. f_equal. symmetry. by apply nth_lookup_Some.
  - rewrite lookup_app_r, Hm, IH by lia. do 2 f_equal. replace i with (i - 4 + 1 * 4)%nat at 2 by lia. by rewrite Nat.Div0.mod_add.
Qed.

(** The reader takes the mask away. *)
Lemma unmask_message mask msg : length mask = 4%nat -> unmask mask (mask_message mask msg) = msg /\ length (mask_message mask msg) = length msg.
Proof.
  intros Hm. unfold unmask, mask_message. split.
  - apply list_eq. intros i. rewrite list_lookup_imap, lookup_zip_with. destruct (msg !! i) as [b|] eqn:E; [|done]. cbn [mbind option_bind].
    pose proof (lookup_lt_Some _ _ _ E). rewrite repeated_lookup by (done || lia). cbn [mbind option_bind fmap option_fmap option_map].
    f_equal. apply b2z_inj. rewrite lxor_byte, lxor_byte, Z.lxor_assoc, Z.lxor_nilpotent. apply Z.lxor_0_r.
  - rewrite length_zip_with, Nat.min_l; [done|]. induction (length msg) as [|n IH]; [done|]. cbn [replicate concat]. rewrite length_app. lia.
Qed.

(** A text frame of the server, or of a browser with its mask. *)
Definition frame (mask : option bytes) (msg : bytes) : bytes := match mask with None => WriteText msg | Some k => client_frame k msg end.

Definition frame_ok (f : option bytes * bytes) : Prop :=
  Z.of_nat (length f.2) <= maxWSFrameSize /\ match f.1 with Some k => length k = 4%nat | None => True end.

Lemma ReadMessage_frame f rest : frame_ok f -> ReadMessage (frame f.1 f.2 ++ rest) = Ok (f.2, rest).
Proof.
  destruct f as [mask msg]. cbn [fst snd]. intros [Hlen Hmask]. cbn [fst snd] in *. unfold frame, WriteText, client_frame.
  destruct mask as [k|].
  - destruct (length_roundtrip (Z.of_nat (length msg)) true (k ++ mask_message k msg ++ rest)) as (b1 & more & E & H1 & H2); [lia|]. rewrite E.
    destruct (unmask_message k msg Hmask) as [U1 U2].
    unfold ReadMessage. cbn [app ReadByte ws_read mbind res_bind]. change (Z.land (b2z (z2b 0x81)) 0x0F =? 0x08) with false. cbn [app ReadByte ws_read mbind res_bind].
    rewrite H2, <- !app_assoc, H1. cbn [mbind res_bind]. destruct (_ || _) eqn:Eb; [lia|]. rewrite ReadFull_n by (by rewrite Hmask).
    cbn [ws_read mbind res_bind]. rewrite ReadFull_n by (by rewrite U2). cbn [ws_read mbind res_bind]. by rewrite U1.
  - destruct (length_roundtrip (Z.of_nat (length msg)) false (msg ++ rest)) as (b1 & more & E & H1 & H2); [lia|]. rewrite E.
    unfold ReadMessage. cbn [app ReadByte ws_read mbind res_bind]. change (Z.land (b2z (z2b 0x81)) 0x0F =? 0x08) with false. cbn [app ReadByte ws_read mbind res_bind].
    rewrite H2, <- !app_assoc, H1. cbn [mbind res_bind]. destruct (_ || _) eqn:Eb; [lia|]. cbn [ws_read mbind res_bind].
    rewrite ReadFull_n by done. done.
Qed.

(** [n] calls of [ReadMessage]. *)
Fixpoint read_messages (n : nat) (inp : bytes) : res ws_error (list bytes * bytes) :=
  match n with
  | O => Ok ([], inp)
  | S n' => '(m, inp) ← ReadMessage inp; '(ms, inp) ← read_messages n' inp; Ok (m :: ms, inp)
  end.

(** C32: any sequence of text frames, of the server or masked by a browser, of any
    lengths up to the limit, is read back as exactly their messages, in order, up to
    the byte after the last frame. *)
Theorem frames_roundtrip fs rest : Forall frame_ok fs ->
  read_messages (length fs) (concat ((fun f => frame f.1 f.2) <$> fs) ++ rest) = Ok (fs.*2, rest).
Proof.
  induction 1 as [|f fs Hf _ IH]; cbn [length read_messages fmap list_fmap concat]; [done|].
  rewrite <- app_assoc, ReadMessage_frame by done. cbn [mbind res_bind]. by rewrite IH.
Qed.

Lemma frames_roundtrip_witness :
  read_messages 2 (frame (Some [x01; x02; x03; x04]) (str "hello") ++ frame None (replicate 200 x61) ++ str "rest") =
  Ok ([str "hello"; replicate 200 x61], str "rest").
Proof.
  pose proof (frames_roundtrip [(Some [x01; x02; x03; x04], str "hello"); (None, replicate 200 x61)] (str "rest")) as H.
  cbn [length fmap list_fmap concat fst snd] in H. rewrite app_nil_r, <- app_assoc in H. apply H.
  apply Forall_cons_2; [|apply Forall_cons_2; [|apply Forall_nil_2]]; (split; [vm_compute; discriminate|vm_compute; try reflexivity; exact I]).
Defined.

(** ** What the reader does not check *)

(** Only the lower half of a 64-bit length is read: a frame that announces 2^32 + 5
    bytes is taken for one of 5 bytes, and its contents for further frames. *)
Theorem long_length_truncated rest :
  ReadMessage ([x81; x7f; x00; x00; x00; x01; x00; x00; x00; x05] ++ str "hello" ++ rest) = Ok (str "hello", rest).
Proof.
  unfold ReadMessage. cbn [app ReadByte ws_read mbind res_bind]. change (Z.land (b2z x81) 0x0F =? 0x08) with false. cbn [ReadByte ws_read mbind res_bind].
  assert (forall l, ws_payloadLen x7f ([x00; x00; x00; x01; x00; x00; x00; x05] ++ l) = Ok (5, l)) as E.
  { intros l. unfold ws_payloadLen. change (Z.land (b2z x7f) 127 =? 126) with false. change (Z.land (b2z x7f) 127 =? 127) with true.
    rewrite (ReadFull_n 8) by reflexivity. reflexivity. }
  match goal with |- context [ws_payloadLen x7f ?l] => change l with ([x00; x00; x00; x01; x00; x00; x00; x05] ++ (str "hello" ++ rest)) end.
  rewrite E. cbn [mbind res_bind]. change (Z.land (b2z x7f) 0x80 =? 0) with true.
  change ((5 <? 0) || (maxWSFrameSize <? 5)) with false. cbn [negb mbind res_bind]. rewrite (ReadFull_n 5 (str "hello")) by reflexivity. reflexivity.
Qed.

(** A ping is handed over like a message. *)
Theorem ping_is_a_message : ReadMessage ([x89; x02] ++ str "hi") = Ok (str "hi", []).
Proof. vm_compute. reflexivity. Qed.
