(* ===== verification/Operator.v ===== *)
(** * The Kubernetes operator (internal/operator/controller.go, types.go)

    The partition of the slots over the masters, the plan of a new cluster, the plan
    of a scale-out, which is the rebalancer's, and the manifests. *)

From S2P Require Import Prelude Rebalance.

(** ** Data *)

Record VortexClusterSpec := mkSpec {
  Masters : Z;
  ReplicasPerMaster : Z;
  Image : bytes;
  RequirePass : bytes;
  MaxMemory : bytes;
  StorageSize : bytes
}.

(** [Name] is [Metadata.Name]. *)
Record VortexCluster := mkCluster { Name : bytes; Spec : VortexClusterSpec }.

Record NodeRoleAssignment := mkAssignment {
  PodIndex : Z;
  PodName : bytes;
  Role : bytes;
  MasterPod : bytes;
  Slots : list Z;
  SlotRanges : bytes
}.

Record BootstrapPlan := mkBootstrap {
  ClusterName : bytes;
  TotalPods : Z;
  pMasters : list NodeRoleAssignment;
  pReplicas : list NodeRoleAssignment
}.

Record Controller := mkController { Namespace : bytes }.

Definition NewController (namespace : bytes) : Controller :=
  mkController (if decide (namespace = []) then str "default" else namespace).

(** ** Planning *)

Definition CalculateTotalPods (spec : VortexClusterSpec) : Z :=
  int64 (Masters spec * int64 (1 + ReplicasPerMaster spec)).

(** [for j := 0; j < count; j++ { slots[j] = currentSlot; currentSlot++ }]. *)
Fixpoint take_slots (count : nat) (currentSlot : Z) : list Z * Z :=
  match count with
  | O => ([], currentSlot)
  | S k => let '(slots, cur) := take_slots k (uint16 (currentSlot + 1)) in (currentSlot :: slots, cur)
  end.

Fixpoint partition_loop (k : nat) (i base remainder currentSlot : Z) : list (list Z) :=
  match k with
  | O => []
  | S k' =>
      let count := if i <? remainder then base + 1 else base in
      let '(slots, cur) := take_slots (Z.to_nat count) currentSlot in
      slots :: partition_loop k' (i + 1) base remainder cur
  end.

(** [nil] is the empty list. *)
Definition PartitionSlots (mastersCount : Z) : list (list Z) :=
  if mastersCount <=? 0 then []
  else partition_loop (Z.to_nat mastersCount) 0 (Z.quot 16384 mastersCount) (Z.rem 16384 mastersCount) 0.

(** [fmt.Sprintf("%s-%d", name, i)]. *)
Definition pod_name (name : bytes) (i : Z) : bytes := name ++ str "-" ++ FormatInt i.

Definition slot_range (slots : list Z) : bytes :=
  match slots with
  | first :: _ => FormatInt first ++ str "-" ++ FormatInt (List.last slots first)
  | [] => []
  end.

Fixpoint plan_masters (name : bytes) (partitions : list (list Z)) (k : nat) (i : Z) : res panic (list NodeRoleAssignment) :=
  match k with
  | O => Ok []
  | S k' =>
      match partitions with
      | slots :: rest =>
          ms ← plan_masters name rest k' (i + 1);
          Ok (mkAssignment i (pod_name name i) (str "master") [] slots (slot_range slots) :: ms)
      | [] => Err PanicBounds
      end
  end.

Fixpoint plan_replicas (name : bytes) (ms : list NodeRoleAssignment) (masters : Z) (k : nat) (i replicaIdx : Z) : res panic (list NodeRoleAssignment) :=
  match k with
  | O => Ok []
  | S k' =>
      match ms !! Z.to_nat (replicaIdx mod masters) with
      | Some m =>
          rs ← plan_replicas name ms masters k' (i + 1) (replicaIdx + 1);
          Ok (mkAssignment i (pod_name name i) (str "slave") (PodName m) [] [] :: rs)
      | None => Err PanicBounds
      end
  end.

(** [make] panics when a length or a capacity is negative. *)
Definition PlanBootstrap (vc : VortexCluster) : res panic BootstrapPlan :=
  let totalPods := CalculateTotalPods (Spec vc) in
  let masters := Masters (Spec vc) in
  let slotPartitions := PartitionSlots masters in
  if (masters <? 0) || (int64 (totalPods - masters) <? 0) then Err PanicMakeSlice
  else
    ms ← plan_masters (Name vc) slotPartitions (Z.to_nat masters) 0;
    rs ← plan_replicas (Name vc) ms masters (Z.to_nat (totalPods - masters)) masters 0;
    Ok (mkBootstrap (Name vc) totalPods ms rs).

Inductive scale_error := ErrNotMore (desired current : Z) | ErrPlan (e : rebalance_error).

Definition new_master (i : nat) : MasterNodeInfo := mkMaster (str "new_master_" ++ FormatInt (Z.of_nat i)) [] 0 0 [] 0.

Definition ReconcileScaleOut (currentMasters : list MasterNodeInfo) (desiredMastersCount : Z) : res scale_error RebalancePlan :=
  if desiredMastersCount <=? Z.of_nat (length currentMasters) then Err (ErrNotMore desiredMastersCount (Z.of_nat (length currentMasters)))
  else
    let n := length currentMasters in
    let allMasters := currentMasters ++ (new_master <$> seq n (Z.to_nat desiredMastersCount - n)) in
    match ComputeRebalancePlan allMasters with Ok p => Ok p | Err e => Err (ErrPlan e) end.

(** ** Manifests *)

Definition text (ls : list bytes) : bytes := concat ((fun l => l ++ [x0a]) <$> ls).

Lemma text_app ls ls' : text (ls ++ ls') = text ls ++ text ls'.
Proof. unfold text. by rewrite fmap_app, concat_app. Qed.

Lemma text_cons l ls : text (l :: ls) = (l ++ [x0a]) ++ text ls.
Proof. done. Qed.

Definition or_default (s d : bytes) : bytes := if decide (s = []) then d else s.

Definition quote (s : bytes) : bytes := [x22] ++ s ++ [x22].

Definition auth_lines (pass : bytes) : bytes :=
  if decide (pass = []) then [] else text [str "          - -requirepass"; str "          - " ++ pass].

(** The lines before and after the arguments that depend on the cluster. *)
Definition manifest_head (c : Controller) (vc : VortexCluster) : list bytes :=
  let name := Name vc in
  [str "apiVersion: apps/v1"; str "kind: StatefulSet"; str "metadata:"; str "  name: " ++ name; str "  namespace: " ++ Namespace c;
    str "  labels:"; str "    app.kubernetes.io/name: vortexkv"; str "    app.kubernetes.io/instance: " ++ name;
    str "spec:"; str "  serviceName: " ++ name ++ str "-headless"; str "  replicas: " ++ FormatInt (CalculateTotalPods (Spec vc));
    str "  selector:"; str "    matchLabels:"; str "      app.kubernetes.io/name: vortexkv"; str "      app.kubernetes.io/instance: " ++ name;
    str "  template:"; str "    metadata:"; str "      labels:"; str "        app.kubernetes.io/name: vortexkv"; str "        app.kubernetes.io/instance: " ++ name;
    str "    spec:"; str "      containers:"; str "        - name: vortexkv"; str "          image: " ++ or_default (Image (Spec vc)) (str "ianshugarg/vortexkv:latest");
    str "          ports:"; str "            - name: client"; str "              containerPort: 7379"; str "            - name: web"; str "              containerPort: 7380";
    str "            - name: bus"; str "              containerPort: 17379"; str "          command:"; str "            - ./bin/vortex-server"; str "          args:";
    str "            - -cluster-enabled"; str "            - -cluster-config-file"; str "            - /data/nodes.conf"; str "            - -maxmemory"].

Definition manifest_tail (vc : VortexCluster) : list bytes :=
  [str "            - /data/dump.rdb"; str "            - -aof"; str "            - /data/vortex.aof";
    str "          volumeMounts:"; str "            - name: data"; str "              mountPath: /data"; str "  volumeClaimTemplates:"; str "    - metadata:"; str "        name: data";
    str "      spec:"; str "        accessModes: [ " ++ quote (str "ReadWriteOnce") ++ str " ]"; str "        resources:"; str "          requests:";
    str "            storage: " ++ or_default (StorageSize (Spec vc)) (str "10Gi")].

Definition GenerateStatefulSetManifest (c : Controller) (vc : VortexCluster) : bytes :=
  text (manifest_head c vc ++ [str "            - " ++ or_default (MaxMemory (Spec vc)) (str "1gb")]) ++
  auth_lines (RequirePass (Spec vc)) ++
  text (str "            - -rdb" :: manifest_tail vc).

Definition GenerateHeadlessServiceManifest (c : Controller) (vc : VortexCluster) : bytes :=
  let name := Name vc in
  text [str "apiVersion: v1"; str "kind: Service"; str "metadata:"; str "  name: " ++ name ++ str "-headless"; str "  namespace: " ++ Namespace c;
    str "  labels:"; str "    app.kubernetes.io/name: vortexkv"; str "    app.kubernetes.io/instance: " ++ name;
    str "spec:"; str "  clusterIP: None"; str "  ports:"; str "    - name: client"; str "      port: 7379"; str "    - name: bus"; str "      port: 17379";
    str "    - name: web"; str "      port: 7380"; str "  selector:"; str "    app.kubernetes.io/name: vortexkv"; str "    app.kubernetes.io/instance: " ++ name].

(** ** The partition of the slots *)

Lemma uint16_id z : 0 <= z < 2 ^ 16 -> uint16 z = z.
Proof. apply Z.mod_small. Qed.

Lemma take_slots_seq count : forall cur, 0 <= cur -> cur + Z.of_nat count < 2 ^ 16 ->
  take_slots count cur = (seqZ cur (Z.of_nat count), cur + Z.of_nat count).
Proof.
  induction count as [|k IH]; intros cur H0 Hlt; cbn [take_slots]; [f_equal; lia|].
  rewrite uint16_id, IH by lia. rewrite (seqZ_cons cur) by lia. f_equal; [|lia]. f_equal. f_equal; lia.
Qed.

(** The first slot of the master [i]. *)
Definition offset (base remainder i : Z) : Z := i * base + Z.min i remainder.

Definition share (base remainder i : Z) : list Z := seqZ (offset base remainder i) (offset base remainder (i + 1) - offset base remainder i).

Lemma partition_loop_spec base remainder k : forall i, 0 <= i -> 0 <= base -> 0 <= remainder -> offset base remainder (i + Z.of_nat k) < 2 ^ 16 ->
  partition_loop k i base remainder (offset base remainder i) = share base remainder <$> seqZ i (Z.of_nat k).
Proof.
  unfold share, offset. induction k as [|k IH]; intros i Hi Hb Hr Hlt; [done|]. cbn [partition_loop]. rewrite (seqZ_cons i) by lia. rewrite fmap_cons.
  rewrite take_slots_seq; [|nia|destruct (Z.ltb_spec i remainder); nia].
  assert (forall c, c = (if i <? remainder then base + 1 else base) -> Z.of_nat (Z.to_nat c) = (i + 1) * base + Z.min (i + 1) remainder - (i * base + Z.min i remainder)) as Hc.
  { intros c ->. destruct (Z.ltb_spec i remainder); lia. }
  rewrite (Hc _ eq_refl). f_equal. replace (Z.pred (Z.of_nat (S k))) with (Z.of_nat k) by lia.
  replace (i * base + Z.min i remainder + ((i + 1) * base + Z.min (i + 1) remainder - (i * base + Z.min i remainder))) with ((i + 1) * base + Z.min (i + 1) remainder) by lia.
  rewrite IH by (lia || (replace (i + 1 + Z.of_nat k) with (i + Z.of_nat (S k)) by lia; lia)). by rewrite Z.add_1_r.
Qed.

Lemma offset_mono base remainder i j : 0 <= base -> 0 <= i <= j -> offset base remainder i <= offset base remainder j.
Proof. unfold offset. intros. nia. Qed.

Lemma concat_shares base remainder k : forall i, 0 <= i -> 0 <= base ->
  concat (share base remainder <$> seqZ i (Z.of_nat k)) = seqZ (offset base remainder i) (offset base remainder (i + Z.of_nat k) - offset base remainder i).
Proof.
  induction k as [|k IH]; intros i Hi Hb; [rewrite Z.add_0_r, Z.sub_diag; done|].
  rewrite (seqZ_cons i) by lia. rewrite fmap_cons. cbn [concat]. replace (Z.pred (Z.of_nat (S k))) with (Z.of_nat k) by lia. rewrite <- Z.add_1_r, IH by lia.
  pose proof (offset_mono base remainder i (i + 1) Hb). pose proof (offset_mono base remainder (i + 1) (i + Z.of_nat (S k)) Hb).
  unfold share. replace (i + 1 + Z.of_nat k) with (i + Z.of_nat (S k)) by lia.
  replace (offset base remainder (i + Z.of_nat (S k)) - offset base remainder i) with
    (offset base remainder (i + 1) - offset base remainder i + (offset base remainder (i + Z.of_nat (S k)) - offset base remainder (i + 1))) by lia.
  rewrite seqZ_app by lia. f_equal. f_equal. lia.
Qed.

(** The slots 0 to 16383 in order, in contiguous shares that differ by at most one. *)
Lemma PartitionSlots_spec n : 0 < n ->
  length (PartitionSlots n) = Z.to_nat n /\ concat (PartitionSlots n) = seqZ 0 slot_total /\
  forall i slots, PartitionSlots n !! i = Some slots -> slot_total / n <= Z.of_nat (length slots) <= slot_total / n + 1.
Proof.
  intros Hn. unfold PartitionSlots. rewrite (proj2 (Z.leb_gt _ _)) by lia. rewrite Z.quot_div_nonneg, Z.rem_mod_nonneg by lia.
  pose proof (Z.mod_pos_bound 16384 n Hn) as Hr. pose proof (Z.div_mod 16384 n ltac:(lia)) as Hd. pose proof (Z.div_pos 16384 n ltac:(lia) Hn) as Hb.
  set (base := 16384 / n) in *. set (r := 16384 mod n) in *.
  assert (offset base r n = 16384) as Ho by (unfold offset; lia).
  replace (partition_loop (Z.to_nat n) 0 base r 0) with (share base r <$> seqZ 0 n).
  2: { rewrite <- (Z2Nat.id n) at 1 by lia. rewrite <- partition_loop_spec; [unfold offset; f_equal; lia|lia..|]. rewrite Z2Nat.id by lia. rewrite Z.add_0_l, Ho. lia. }
  split_and!.
  - by rewrite length_fmap, length_seqZ.
  - rewrite <- (Z2Nat.id n) by lia. rewrite concat_shares by lia. rewrite Z2Nat.id, Z.add_0_l, Ho by lia. unfold offset. rewrite Z.mul_0_l. f_equal; unfold slot_total; lia.
  - intros i slots. rewrite list_lookup_fmap_Some. intros (j & -> & Hj). apply lookup_seqZ in Hj as [-> Hj].
    unfold share. rewrite length_seqZ. unfold offset, slot_total. change (16384 / n) with base. lia.
Qed.

(** ** The plan of a new cluster *)

Definition master_of (name : bytes) (i : Z) (slots : list Z) : NodeRoleAssignment :=
  mkAssignment i (pod_name name i) (str "master") [] slots (slot_range slots).

Definition replica_of (name : bytes) (masters i idx : Z) : NodeRoleAssignment :=
  mkAssignment i (pod_name name i) (str "slave") (pod_name name (idx mod masters)) [] [].

Lemma plan_masters_spec name parts : forall i, plan_masters name parts (length parts) i = Ok (imap (fun j => master_of name (i + Z.of_nat j)) parts).
Proof.
  induction parts as [|slots parts IH]; intros i; [done|]. cbn [length plan_masters]. rewrite IH. cbn [mbind res_bind]. rewrite imap_cons.
  f_equal. f_equal; [unfold master_of; by rewrite Z.add_0_r|]. apply imap_ext. intros j x _. cbn [compose]. f_equal. lia.
Qed.

Lemma plan_replicas_spec name ms masters k : 0 < masters ->
  (forall t, 0 <= t < masters -> exists m, ms !! Z.to_nat t = Some m /\ PodName m = pod_name name t) -> forall i idx,
  plan_replicas name ms masters k i idx = Ok ((fun j => replica_of name masters (i + j) (idx + j)) <$> seqZ 0 (Z.of_nat k)).
Proof.
  intros Hm Hms. induction k as [|k IH]; intros i idx; [done|]. cbn [plan_replicas].
  destruct (Hms (idx mod masters)) as (m & -> & Em); [by apply Z.mod_pos_bound|]. rewrite IH. cbn [mbind res_bind].
  rewrite (seqZ_cons 0 (Z.of_nat (S k))), fmap_cons by lia. unfold replica_of at 2. rewrite !Z.add_0_r, Em. f_equal. f_equal.
  replace (Z.pred (Z.of_nat (S k))) with (Z.of_nat k) by lia. rewrite <- (fmap_add_seqZ 1 0), <- list_fmap_compose.
  apply list_fmap_ext. intros j x _. cbn [compose]. f_equal; lia.
Qed.

Lemma pod_name_inj name i j : is_int64 i -> is_int64 j -> pod_name name i = pod_name name j -> i = j.
Proof.
  intros Hi Hj H%app_inv_head. apply app_inv_head in H. apply ParseInt_FormatInt in Hi, Hj. rewrite H in Hi. congruence.
Qed.

(** Among [n] consecutive numbers one is [t] modulo [n]. *)
Lemma count_once n t : 0 <= t < n -> count (fun s => s = t) (seqZ 0 n) = 1.
Proof.
  intros Ht. replace n with (t + (1 + (n - t - 1))) by lia. rewrite seqZ_app, count_app by lia. rewrite (seqZ_cons (0 + t)) by lia.
  rewrite count_cons, decide_True by lia.
  assert (forall l, Forall (fun s => s <> t) l -> count (fun s => s = t) l = 0) as H0.
  { induction 1 as [|s l Hs _ IH]; [done|]. by rewrite count_cons, decide_False, IH. }
  rewrite !H0; [lia|..]; apply list.Forall_forall; intros s Hs%elem_of_seqZ; lia.
Qed.

Lemma count_ext {A} (P Q : A -> Prop) `{!forall x, Decision (P x)} `{!forall x, Decision (Q x)} l :
  (forall x, x ∈ l -> P x <-> Q x) -> count P l = count Q l.
Proof.
  induction l as [|x l IH]; intros HPQ; [done|]. rewrite !count_cons, IH by (intros y Hy; apply HPQ; by right).
  f_equal. apply decide_ext, HPQ. by left.
Qed.

Lemma count_mod n t R : 0 <= t < n -> 0 <= R -> count (fun j => j mod n = t) (seqZ 0 (n * R)) = R.
Proof.
  intros Ht HR. pattern R. apply natlike_ind; [by rewrite Z.mul_0_r| |done]. clear R HR. intros R HR IH.
  replace (n * Z.succ R) with (n * R + n) by lia. rewrite seqZ_app, count_app, IH by nia.
  replace (seqZ (0 + n * R) n) with (Z.add (n * R) <$> seqZ 0 n) by (rewrite fmap_add_seqZ; f_equal; lia).
  rewrite <- (count_fmap _ _ _), (count_ext _ (fun s => s = t)), count_once by (done || (intros s Hs%elem_of_seqZ; rewrite (Z.mul_comm n R), Z.add_comm, Z.mod_add, Z.mod_small by lia; done)).
  lia.
Qed.

(** A plan that [PlanBootstrap] makes. *)
Definition bootstrap_of (name : bytes) (n R : Z) : BootstrapPlan :=
  mkBootstrap name (n * (1 + R)) (imap (fun j => master_of name (Z.of_nat j)) (PartitionSlots n))
    ((fun j => replica_of name n (n + j) j) <$> seqZ 0 (n * R)).

Lemma PlanBootstrap_eq vc : let n := Masters (Spec vc) in let R := ReplicasPerMaster (Spec vc) in
  0 < n -> 0 <= R -> n * (1 + R) < 2 ^ 63 -> PlanBootstrap vc = Ok (bootstrap_of (Name vc) n R).
Proof.
  intros n R Hn HR Hmax. destruct (PartitionSlots_spec n Hn) as (HL & _ & _). unfold PlanBootstrap. fold n.
  assert (CalculateTotalPods (Spec vc) = n * (1 + R)) as ->.
  { unfold CalculateTotalPods. fold n R. rewrite (int64_id (1 + R)) by (unfold is_int64; nia). apply int64_id. unfold is_int64. nia. }
  rewrite int64_id by (unfold is_int64; nia). destruct (_ || _) eqn:E; [nia|]. clear E.
  rewrite <- HL, plan_masters_spec. cbn [mbind res_bind]. rewrite (plan_replicas_spec (Name vc) _ n); [|done|].
  - cbn [mbind res_bind]. unfold bootstrap_of. replace (n * (1 + R) - n) with (n * R) by lia. rewrite Z2Nat.id by nia. reflexivity.
  - intros t Ht. destruct (lookup_lt_is_Some_2 (PartitionSlots n) (Z.to_nat t)) as [slots Hs]; [lia|].
    exists (master_of (Name vc) t slots). split; [|done]. rewrite list_lookup_imap, Hs. cbn. by rewrite Z2Nat.id by lia.
Qed.

Lemma imap_fmap {A B C} (f : nat -> A -> B) (g : B -> C) (l : list A) : g <$> imap f l = imap (fun i x => g (f i x)) l.
Proof. revert f. induction l as [|x l IH]; intros f; [done|]. rewrite !imap_cons, fmap_cons. f_equal. apply IH. Qed.

Lemma imap_id {A} (l : list A) : imap (fun _ x => x) l = l.
Proof. induction l as [|x l IH]; [done|]. rewrite imap_cons. f_equal. exact IH. Qed.

Lemma master_slots name (parts : list (list Z)) : Slots <$> imap (fun j => master_of name (Z.of_nat j)) parts = parts.
Proof. rewrite imap_fmap. apply imap_id. Qed.

Lemma master_pods name (parts : list (list Z)) : PodName <$> imap (fun j => master_of name (Z.of_nat j)) parts = pod_name name <$> seqZ 0 (Z.of_nat (length parts)).
Proof.
  apply list_eq. intros i. rewrite !list_lookup_fmap, list_lookup_imap. destruct (decide (i < length parts)%nat) as [Hi|Hi].
  - destruct (lookup_lt_is_Some_2 parts i Hi) as [x ->]. rewrite lookup_seqZ_lt by lia. cbn. by rewrite Z.add_0_l.
  - rewrite (lookup_ge_None_2 parts) by lia. rewrite lookup_seqZ_ge by lia. done.
Qed.

Lemma all_pods name n R : 0 < n -> 0 <= R ->
  PodName <$> (pMasters (bootstrap_of name n R) ++ pReplicas (bootstrap_of name n R)) = pod_name name <$> seqZ 0 (n * (1 + R)).
Proof.
  intros Hn HR. destruct (PartitionSlots_spec n Hn) as (HL & _ & _). cbn [pMasters pReplicas bootstrap_of].
  rewrite fmap_app, master_pods, HL, Z2Nat.id by lia. replace (n * (1 + R)) with (n + n * R) by lia. rewrite seqZ_app, fmap_app by nia. f_equal.
  replace (seqZ (0 + n) (n * R)) with (Z.add n <$> seqZ 0 (n * R)) by (rewrite fmap_add_seqZ; f_equal; lia). by rewrite <- !list_fmap_compose.
Qed.

(** The masters of the running cluster and the new ones of a scale-out. *)
Definition scaled (current : list MasterNodeInfo) (desired : Z) : list MasterNodeInfo :=
  current ++ (new_master <$> seq (length current) (Z.to_nat desired - length current)).

(** A master that runs does not have the placeholder name of a new one. *)
Definition real_names (current : list MasterNodeInfo) : Prop :=
  NoDup (mID <$> current) /\ forall m i, m ∈ current -> mID m <> mID (new_master i).

Lemma scaled_names current desired : real_names current -> desired < 2 ^ 63 -> NoDup (mID <$> scaled current desired).
Proof.
  intros [H1 H2] Hd. unfold scaled. rewrite fmap_app. apply NoDup_app. split_and!; [done| |].
  - intros x Hx Hy. apply list_elem_of_fmap in Hx as (m & -> & Hm). apply list_elem_of_fmap in Hy as (m' & E & Hm').
    apply list_elem_of_fmap in Hm' as (i & -> & _). by eapply H2.
  - rewrite <- list_fmap_compose. apply NoDup_fmap_2_strong; [|apply NoDup_seq]. intros i j Hi Hj E.
    apply elem_of_seq in Hi, Hj. cbn [compose new_master mID] in E. apply app_inv_head in E.
    assert (is_int64 (Z.of_nat i)) as Pi by (unfold is_int64; lia). assert (is_int64 (Z.of_nat j)) as Pj by (unfold is_int64; lia).
    apply ParseInt_FormatInt in Pi, Pj. rewrite E in Pi. rewrite Pi in Pj. injection Pj. lia.
Qed.

Lemma scaled_slots current desired : concat (mSlots <$> scaled current desired) = concat (mSlots <$> current).
Proof.
  unfold scaled. rewrite fmap_app, concat_app, <- list_fmap_compose.
  assert (forall l, concat ((mSlots ∘ new_master) <$> l) = []) as -> by (induction l as [|x l IH]; [done|exact IH]). apply app_nil_r.
Qed.

(** C31: for a cluster of [n] masters with [R] replicas each, the operator's plan
    gives every one of the 16384 slots to exactly one master, in contiguous shares
    that differ by at most one, gives each pod its own name, and each master exactly
    [R] replicas; and when the masters of such a cluster are scaled out, the plan of
    the rebalancer ends with even shares for all masters, old and new, moves no slot
    twice, and takes each one from the master that owns it. *)
Theorem operator_plans_sound vc current desired : let n := Masters (Spec vc) in let R := ReplicasPerMaster (Spec vc) in
  0 < n -> 0 <= R -> n * (1 + R) < 2 ^ 63 ->
  exists plan, PlanBootstrap vc = Ok plan /\
    concat (Slots <$> pMasters plan) = seqZ 0 slot_total /\
    (forall m, m ∈ pMasters plan -> slot_total / n <= Z.of_nat (length (Slots m)) <= slot_total / n + 1) /\
    NoDup (PodName <$> (pMasters plan ++ pReplicas plan)) /\ Z.of_nat (length (pMasters plan ++ pReplicas plan)) = TotalPods plan /\
    (forall m, m ∈ pMasters plan -> count (fun r => MasterPod r = PodName m) (pReplicas plan) = R) /\
    (mSlots <$> current = Slots <$> pMasters plan -> real_names current -> Z.of_nat (length current) < desired < 2 ^ 63 ->
     exists moves, ReconcileScaleOut current desired = Ok moves /\ NoDup (Slot <$> Moves moves) /\
       (forall m, m ∈ scaled current desired -> exists c, FinalCounts moves !! mID m = Some c /\ slot_total / desired <= c <= slot_total / desired + 1) /\
       forall mv, mv ∈ Moves moves -> exists d, d ∈ current /\ Slot mv ∈ mSlots d /\ FromNodeID mv = mID d).
Proof.
  intros n R Hn HR Hmax. destruct (PartitionSlots_spec n Hn) as (HL & HC & HS). exists (bootstrap_of (Name vc) n R). split; [by apply PlanBootstrap_eq|].
  pose proof (all_pods (Name vc) n R Hn HR) as HP. split_and!.
  - cbn [pMasters bootstrap_of]. by rewrite master_slots.
  - intros m Hm. cbn [pMasters bootstrap_of] in Hm. apply list_elem_of_lookup in Hm as [i Hi]. rewrite list_lookup_imap in Hi.
    destruct (PartitionSlots n !! i) as [slots|] eqn:E; [|done]. injection Hi as <-. cbn [master_of Slots]. by eapply HS.
  - rewrite HP. apply NoDup_fmap_2_strong; [|apply NoDup_seqZ]. intros i j Hi%elem_of_seqZ Hj%elem_of_seqZ.
    apply pod_name_inj; unfold is_int64; lia.
  - rewrite <- (length_fmap PodName), HP, length_fmap, length_seqZ. cbn [TotalPods bootstrap_of]. lia.
  - intros m Hm. cbn [pMasters pReplicas bootstrap_of] in *. apply list_elem_of_lookup in Hm as [i Hi]. pose proof (lookup_lt_Some _ _ _ Hi) as Hlt.
    rewrite length_imap, HL in Hlt. rewrite list_lookup_imap in Hi. destruct (PartitionSlots n !! i) as [slots|]; [|done]. injection Hi as <-.
    cbn [master_of PodName]. rewrite <- (count_fmap _ _ _), (count_ext _ (fun j => j mod n = Z.of_nat i)); [apply count_mod; lia|].
    intros j _. cbn [replica_of MasterPod]. pose proof (Z.mod_pos_bound j n Hn) as Hj. split; [|by intros ->]. apply pod_name_inj; unfold is_int64; nia.
  - intros Hslots Hreal Hd. cbn [pMasters bootstrap_of] in Hslots. rewrite master_slots in Hslots.
    assert (length current = Z.to_nat n) as Hlen by (rewrite <- HL, <- Hslots; by rewrite length_fmap).
    assert (length (scaled current desired) = Z.to_nat desired) as Hls by (unfold scaled; rewrite length_app, length_fmap, length_seq; lia).
    destruct (ComputeRebalancePlan_balanced (scaled current desired)) as (moves & E & _ & B1 & B2 & B3 & _).
    + lia.
    + apply scaled_names; [done|lia].
    + rewrite scaled_slots, Hslots, HC. apply NoDup_seqZ.
    + rewrite scaled_slots, Hslots, HC, length_seqZ. done.
    + exists moves. split_and!; [|done| |].
      * unfold ReconcileScaleOut. rewrite (proj2 (Z.leb_gt _ _)) by lia. fold (scaled current desired). by rewrite E.
      * intros m Hm. destruct (B1 m Hm) as (c & Hc & Hb & _). exists c. split; [done|]. rewrite Hls, Z2Nat.id in Hb by lia. done.
      * intros mv Hmv. destruct (B3 mv Hmv) as (d & _ & Hd1 & _ & Hs & Hf & _). exists d. split; [|done].
        unfold scaled in Hd1. apply elem_of_app in Hd1 as [?|Hd1]; [done|]. apply list_elem_of_fmap in Hd1 as (i & -> & _). cbn in Hs. by apply not_elem_of_nil in Hs.
Qed.

(** Three masters with a replica each, and a fourth master. *)
Definition three_plus_three : VortexCluster := mkCluster (str "db") (mkSpec 3 1 [] [] [] []).

Definition running_masters : list MasterNodeInfo :=
  imap (fun i slots => mkMaster (pod_name (str "db") (Z.of_nat i)) (str "10.0.0.1") 7379 17379 slots (Z.of_nat (length slots))) (PartitionSlots 3).

Lemma running_ids : mID <$> running_masters = [str "db-0"; str "db-1"; str "db-2"].
Proof. vm_compute. reflexivity. Qed.

Lemma operator_plans_sound_witness : exists plan moves, PlanBootstrap three_plus_three = Ok plan /\
  concat (Slots <$> pMasters plan) = seqZ 0 slot_total /\ NoDup (PodName <$> (pMasters plan ++ pReplicas plan)) /\
  ReconcileScaleOut running_masters 4 = Ok moves /\ NoDup (Slot <$> Moves moves) /\ exists c, FinalCounts moves !! str "new_master_3" = Some c /\ slot_total / 4 <= c <= slot_total / 4 + 1.
Proof.
  destruct (operator_plans_sound three_plus_three running_masters 4) as (plan & E & H1 & _ & H3 & _ & _ & H6).
  - reflexivity.
  - vm_compute. discriminate.
  - reflexivity.
  - destruct H6 as (moves & M1 & M2 & M3 & _).
    + assert (PlanBootstrap three_plus_three = Ok (bootstrap_of (str "db") 3 1)) as Ep
        by (apply (PlanBootstrap_eq three_plus_three); [reflexivity|vm_compute; discriminate|reflexivity]).
      rewrite E in Ep. injection Ep as ->. cbn [pMasters bootstrap_of]. rewrite master_slots. unfold running_masters. rewrite imap_fmap. apply imap_id.
    + split; [rewrite running_ids; apply (bool_decide_unpack _); vm_compute; exact I|]. intros m i Hm Em.
      apply (list_elem_of_fmap_2 mID) in Hm. rewrite running_ids, Em in Hm. cbn [new_master mID] in Hm.
      repeat (apply elem_of_cons in Hm as [Hm|Hm]; [discriminate Hm|]). by apply not_elem_of_nil in Hm.
    + vm_compute. split; reflexivity.
    + exists plan, moves. split; [exact E|]. split; [exact H1|]. split; [exact H3|]. split; [exact M1|]. split; [exact M2|].
      apply (M3 (new_master 3)). unfold scaled. apply elem_of_app. right. apply list_elem_of_fmap_2, elem_of_seq.
      assert (length running_masters = 3%nat) as -> by (vm_compute; reflexivity). cbn. lia.
Defined.

(** ** What the operator does not do *)

(** The moves of a scale-out name a new master [new_master_i] at the address ":0". *)
Theorem scale_out_without_address i : mID (new_master i) = str "new_master_" ++ FormatInt (Z.of_nat i) /\ addr (new_master i) = str ":0".
Proof. split; reflexivity. Qed.

(** With a password the arguments of the container are indented by twelve spaces,
    then by ten, then by twelve again: not a list any more. *)
Theorem password_breaks_manifest c name pass : pass <> [] -> exists before after,
  GenerateStatefulSetManifest c (mkCluster name (mkSpec 1 0 [] pass [] [])) =
  before ++ text [str "            - 1gb"; str "          - -requirepass"; str "          - " ++ pass; str "            - -rdb"] ++ after.
Proof.
  intros Hp. exists (text (manifest_head c (mkCluster name (mkSpec 1 0 [] pass [] [])))), (text (manifest_tail (mkCluster name (mkSpec 1 0 [] pass [] [])))).
  unfold GenerateStatefulSetManifest, auth_lines. cbn [RequirePass MaxMemory Spec]. rewrite decide_False by done.
  change (or_default [] (str "1gb")) with (str "1gb"). rewrite (text_cons (str "            - -rdb")), text_app, <- app_assoc. f_equal.
  set (T := text (manifest_tail _)). clearbody T. rewrite !text_cons. cbn [text fmap list_fmap concat]. by rewrite !app_nil_r, <- !app_assoc.
Qed.
