(* ===== verification/Telemetry.v ===== *)
(** * Telemetry (internal/telemetry/metrics.go, prometheus.go)

    The counters of the server, the sampled latencies, the log of slow commands,
    the channels of the dashboard, and the texts made of them: INFO, the Prometheus
    exposition and SLOWLOG. *)

From S2P Require Import Prelude Resp Float SkipList Commands Session VectorCommands Replication.

(** ** Data *)

Record SlowLogEntry := mkSlow { sl_ID : Z; sl_Timestamp : Z; sl_Duration : Z; sl_Command : list bytes }.

(** An event of the dashboard: a slow command, or the fields of another one. *)
Inductive dash_event := SlowEvent (e : SlowLogEntry) | OtherEvent (fields : list (bytes * bytes)).

(** A Go channel with a buffer. *)
Record Chan (A : Type) := mkChan { room : nat; items : list A; closed : bool }.
Arguments mkChan {A}.
Arguments room {A}.
Arguments items {A}.
Arguments closed {A}.

Record MetricsSnapshot := mkSnapshot {
  UptimeSeconds : Z;
  TotalConnections : Z;
  ActiveConns : Z;
  TotalCommands : Z;
  OpsPerSecond : Z;
  AvgLatencyMicro : float64;
  P99LatencyMicro : float64;
  AllocatedBytes : Z;
  TotalKeys_ : Z;
  CommandsByType : gmap bytes Z;
  RecentSlowLogs : list SlowLogEntry
}.

Record Telemetry := mkTelemetry {
  totalConnections : Z;
  activeConnections : Z;
  totalCommands : Z;
  lastSecondCommands : Z;
  opsPerSecond : Z;
  latencySamples : list Z;
  latencyIdx : Z;
  cmdCounters : gmap bytes Z;
  slowLogs : list SlowLogEntry;
  slowLogCounter : Z;
  slowThresholdMicro : Z;
  snapChans : gmap nat (Chan MetricsSnapshot);
  listeners : gset nat;
  eventChans : gmap nat (Chan dash_event);
  eventListeners : gset nat;
  eventListenerCount : Z
}.

Definition latencySamplesCount : nat := 1024.
Definition maxSlowLogs : nat := 128.

Definition NewTelemetry : Telemetry :=
  mkTelemetry 0 0 0 0 0 (replicate latencySamplesCount 0) 0 ∅ [] 0 10000 ∅ ∅ ∅ ∅ 0.

(** ** Counters *)

Implicit Types t : Telemetry.

Definition set_conns (total active : Z) t : Telemetry :=
  mkTelemetry total active (totalCommands t) (lastSecondCommands t) (opsPerSecond t) (latencySamples t) (latencyIdx t) (cmdCounters t)
    (slowLogs t) (slowLogCounter t) (slowThresholdMicro t) (snapChans t) (listeners t) (eventChans t) (eventListeners t) (eventListenerCount t).
Definition set_commands (total last ops : Z) t : Telemetry :=
  mkTelemetry (totalConnections t) (activeConnections t) total last ops (latencySamples t) (latencyIdx t) (cmdCounters t)
    (slowLogs t) (slowLogCounter t) (slowThresholdMicro t) (snapChans t) (listeners t) (eventChans t) (eventListeners t) (eventListenerCount t).
Definition set_latency (samples : list Z) (idx : Z) t : Telemetry :=
  mkTelemetry (totalConnections t) (activeConnections t) (totalCommands t) (lastSecondCommands t) (opsPerSecond t) samples idx (cmdCounters t)
    (slowLogs t) (slowLogCounter t) (slowThresholdMicro t) (snapChans t) (listeners t) (eventChans t) (eventListeners t) (eventListenerCount t).
Definition set_counters (c : gmap bytes Z) t : Telemetry :=
  mkTelemetry (totalConnections t) (activeConnections t) (totalCommands t) (lastSecondCommands t) (opsPerSecond t) (latencySamples t) (latencyIdx t) c
    (slowLogs t) (slowLogCounter t) (slowThresholdMicro t) (snapChans t) (listeners t) (eventChans t) (eventListeners t) (eventListenerCount t).
Definition set_slow (logs : list SlowLogEntry) (counter : Z) t : Telemetry :=
  mkTelemetry (totalConnections t) (activeConnections t) (totalCommands t) (lastSecondCommands t) (opsPerSecond t) (latencySamples t) (latencyIdx t) (cmdCounters t)
    logs counter (slowThresholdMicro t) (snapChans t) (listeners t) (eventChans t) (eventListeners t) (eventListenerCount t).
Definition set_events (ch : gmap nat (Chan dash_event)) (ls : gset nat) (n : Z) t : Telemetry :=
  mkTelemetry (totalConnections t) (activeConnections t) (totalCommands t) (lastSecondCommands t) (opsPerSecond t) (latencySamples t) (latencyIdx t) (cmdCounters t)
    (slowLogs t) (slowLogCounter t) (slowThresholdMicro t) (snapChans t) (listeners t) ch ls n.
Definition set_snaps (ch : gmap nat (Chan MetricsSnapshot)) (ls : gset nat) t : Telemetry :=
  mkTelemetry (totalConnections t) (activeConnections t) (totalCommands t) (lastSecondCommands t) (opsPerSecond t) (latencySamples t) (latencyIdx t) (cmdCounters t)
    (slowLogs t) (slowLogCounter t) (slowThresholdMicro t) ch ls (eventChans t) (eventListeners t) (eventListenerCount t).

Definition IncrConnections t : Telemetry := set_conns (int64 (totalConnections t + 1)) (int64 (activeConnections t + 1)) t.
Definition DecrConnections t : Telemetry := set_conns (totalConnections t) (int64 (activeConnections t - 1)) t.

Definition AddTotalCommands (n : Z) t : Telemetry :=
  if n <=? 0 then t else set_commands (int64 (totalCommands t + n)) (lastSecondCommands t) (opsPerSecond t) t.

(** ** Channels of the dashboard *)

(** A non-blocking send; a send on a closed channel panics. *)
Definition offer_item {A} (x : A) (c : Chan A) : res panic (Chan A) :=
  if closed c then Err PanicClose
  else Ok (if (length (items c) <? room c)%nat then mkChan (room c) (items c ++ [x]) false else c).

(** [for ch := range listeners { select { case ch <- x: default: } }]. *)
Fixpoint offer_all {A} (x : A) (ls : list nat) (chs : gmap nat (Chan A)) : res panic (gmap nat (Chan A)) :=
  match ls with
  | [] => Ok chs
  | l :: ls' =>
      match chs !! l with
      | Some c => c ← offer_item x c; offer_all x ls' (<[l := c]> chs)
      | None => offer_all x ls' chs
      end
  end.

Definition HasEventListeners t : bool := 0 <? eventListenerCount t.

Definition BroadcastEvent (ev : dash_event) t : res panic Telemetry :=
  if eventListenerCount t =? 0 then Ok t
  else chs ← offer_all ev (elements (eventListeners t)) (eventChans t); Ok (set_events chs (eventListeners t) (eventListenerCount t) t).

Definition SubscribeEvents t : Telemetry * nat :=
  let ch := fresh (dom (eventChans t)) in
  (set_events (<[ch := mkChan 100 [] false]> (eventChans t)) ({[ch]} ∪ eventListeners t) (int32 (eventListenerCount t + 1)) t, ch).

Definition close_chan {A} (c : Chan A) : res panic (Chan A) := if closed c then Err PanicClose else Ok (mkChan (room c) (items c) true).

Definition UnsubscribeEvents (ch : nat) t : res panic Telemetry :=
  if decide (ch ∈ eventListeners t) then
    match eventChans t !! ch with
    | Some c => c ← close_chan c; Ok (set_events (<[ch := c]> (eventChans t)) (eventListeners t ∖ {[ch]}) (int32 (eventListenerCount t - 1)) t)
    | None => Err PanicNil
    end
  else Ok t.

Definition broadcastSnapshot (snap : MetricsSnapshot) t : res panic Telemetry :=
  chs ← offer_all snap (elements (listeners t)) (snapChans t); Ok (set_snaps chs (listeners t) t).

Definition SubscribeSnapshots t : Telemetry * nat :=
  let ch := fresh (dom (snapChans t)) in
  (set_snaps (<[ch := mkChan 10 [] false]> (snapChans t)) ({[ch]} ∪ listeners t) t, ch).

(** The channel is closed whether it was registered or not. *)
Definition UnsubscribeSnapshots (ch : nat) t : res panic Telemetry :=
  match snapChans t !! ch with
  | Some c => c ← close_chan c; Ok (set_snaps (<[ch := c]> (snapChans t)) (listeners t ∖ {[ch]}) t)
  | None => Err PanicNil
  end.

(** ** Recording a command *)

Definition redacted : bytes := str "[REDACTED]".

Definition safeArgs (cmdName : bytes) (args : list bytes) : list bytes :=
  if decide (cmdName = str "AUTH") then match args with a :: rest => a :: ((fun _ => redacted) <$> rest) | [] => [] end else args.

(** [now] is the time in seconds. *)
Definition record_slow (now durationMicro : Z) (cmdName : bytes) (args : list bytes) t : res panic Telemetry :=
  let n := int64 (slowLogCounter t + 1) in
  let entry := mkSlow n now durationMicro (safeArgs cmdName args) in
  let logs := if (maxSlowLogs <=? length (slowLogs t))%nat then tail (slowLogs t) else slowLogs t in
  BroadcastEvent (SlowEvent entry) (set_slow (logs ++ [entry]) n t).

Definition sample_latency (durationMicro : Z) t : Telemetry :=
  if Z.land (totalCommands t) 31 =? 0 then
    let idx := uint64 (latencyIdx t + 1) in
    set_latency (<[Z.to_nat (idx mod 1024) := durationMicro]> (latencySamples t)) idx t
  else t.

Definition count_command (cmdName : bytes) t : Telemetry :=
  set_counters (<[cmdName := match cmdCounters t !! cmdName with Some n => int64 (n + 1) | None => 1 end]> (cmdCounters t)) t.

Definition RecordCommand (now : Z) (cmdName : bytes) (durationMicro : Z) (args : list bytes) t : res panic Telemetry :=
  let t := set_commands (int64 (totalCommands t + 1)) (lastSecondCommands t) (opsPerSecond t) t in
  let t := count_command cmdName (sample_latency durationMicro t) in
  if slowThresholdMicro t <=? durationMicro then record_slow now durationMicro cmdName args t else Ok t.

(** ** Snapshots *)

(** [float64(z)]. *)
Definition of_int (z : Z) : float64 := SpecFloat.binary_normalize 53 1024 z 0 false.

(** [int(x)] of a float that is not negative and in range. *)
Definition to_int (x : float64) : Z :=
  match x with SpecFloat.S754_finite s m e => (if s then -1 else 1) * Z.shiftl (Zpos m) e | _ => 0 end.

(** The literal 0.99: the division is rounded like the literal. *)
Definition ninety_nine : float64 := fdiv (of_int 99) (of_int 100).

Definition p99Idx (n : nat) : Z := to_int (fmul (of_int (Z.of_nat n - 1)) ninety_nine).

(** The average and the 99th percentile of the samples. *)
Definition latencies t : res panic (float64 * float64) :=
  let sorted := sort_slice Z.ltb (filter (fun v => 0 < v) (latencySamples t)) in
  match sorted with
  | [] => Ok (fzero, fzero)
  | _ =>
      let sum := foldl (fun s v => int64 (s + v)) 0 sorted in
      match sorted !! Z.to_nat (p99Idx (length sorted)) with
      | Some v => Ok (fdiv (of_int sum) (of_int (Z.of_nat (length sorted))), of_int v)
      | None => Err PanicBounds
      end
  end.

(** [uptime] and [alloc] are what the runtime says. *)
Definition GetSnapshot (uptime alloc totalKeys : Z) t : res panic MetricsSnapshot :=
  '(avg, p99) ← latencies t;
  Ok (mkSnapshot uptime (totalConnections t) (activeConnections t) (totalCommands t) (opsPerSecond t) avg p99 alloc totalKeys (cmdCounters t) (slowLogs t)).

(** A tick of [rateCalculatorLoop]. *)
Definition rate_tick (uptime alloc : Z) t : res panic Telemetry :=
  let diff := int64 (totalCommands t - lastSecondCommands t) in
  let t := set_commands (totalCommands t) (totalCommands t) (if diff <? 0 then 0 else diff) t in
  snap ← GetSnapshot uptime alloc 0 t;
  broadcastSnapshot snap t.

(** ** Texts *)

Section Texts.
(** [fmt2] is the verb [%.2f], [os] and [arch] are [runtime.GOOS] and [GOARCH]. *)
Context (fmt2 : float64 -> bytes) (os arch : bytes).

Definition crlf_lines (ls : list bytes) : bytes := concat ((fun l => l ++ CRLF) <$> ls).

Definition GenerateRedisInfo (uptime alloc totalKeys : Z) t : res panic bytes :=
  snap ← GetSnapshot uptime alloc totalKeys t;
  Ok (crlf_lines
    [str "# Server"; str "redis_version:7.2.0-vortex-1.0.0"; str "vortexkv_version:1.0.0-PROD"; str "os:" ++ os; str "arch:" ++ arch;
     str "uptime_in_seconds:" ++ FormatInt (UptimeSeconds snap); str "# Clients"; str "connected_clients:" ++ FormatInt (ActiveConns snap);
     str "# Memory"; str "used_memory:" ++ FormatInt (AllocatedBytes snap);
     str "used_memory_human:" ++ fmt2 (fdiv (of_int (AllocatedBytes snap)) (of_int (1024 * 1024))) ++ str "M";
     str "# Stats"; str "total_connections_received:" ++ FormatInt (TotalConnections snap); str "total_commands_processed:" ++ FormatInt (TotalCommands snap);
     str "instantaneous_ops_per_sec:" ++ FormatInt (OpsPerSecond snap);
     str "# Keyspace"; str "db0:keys=" ++ FormatInt totalKeys ++ str ",expires=0,avg_ttl=0"]).

Definition lf (s : bytes) : bytes := s ++ [x0a].

(** One metric: its two comment lines, its value and an empty line. *)
Definition metric (name help kind value : bytes) : bytes :=
  lf (str "# HELP " ++ name ++ str " " ++ help) ++ lf (str "# TYPE " ++ name ++ str " " ++ kind) ++ lf (name ++ str " " ++ value) ++ [x0a].

Definition command_line (cmd : bytes) (n : Z) : bytes :=
  lf (str "vortex_commands_by_type_total{command=" ++ [x22] ++ cmd ++ [x22] ++ str "} " ++ FormatInt n).

Definition commands_by_type (counts : gmap bytes Z) : bytes :=
  if decide (counts = ∅) then []
  else
    let cmds := sort_slice bytes_ltb (map_to_list counts).*1 in
    lf (str "# HELP vortex_commands_by_type_total Total command executions partitioned by command name") ++
    lf (str "# TYPE vortex_commands_by_type_total counter") ++
    concat ((fun cmd => command_line cmd (default 0 (counts !! cmd))) <$> cmds) ++ [x0a].

Definition PrometheusMetrics (uptime alloc totalKeys : Z) (replRole : bytes) (connectedReplicas replOffset : Z) t : res panic bytes :=
  snap ← GetSnapshot uptime alloc totalKeys t;
  let roleVal := if decide (replRole = str "slave" \/ replRole = str "replica") then 0 else 1 in
  Ok (metric (str "vortex_up") (str "Whether the VortexKV server is operational") (str "gauge") (str "1") ++
    metric (str "vortex_uptime_seconds") (str "Total uptime of the VortexKV engine in seconds") (str "counter") (FormatInt (UptimeSeconds snap)) ++
    metric (str "vortex_replication_role") (str "Cluster role (1 for master, 0 for replica)") (str "gauge") (FormatInt roleVal) ++
    metric (str "vortex_connected_replicas") (str "Number of connected replica nodes") (str "gauge") (FormatInt connectedReplicas) ++
    metric (str "vortex_master_repl_offset") (str "Current replication offset in bytes") (str "counter") (FormatInt replOffset) ++
    metric (str "vortex_connected_clients") (str "Current number of active client connections") (str "gauge") (FormatInt (ActiveConns snap)) ++
    metric (str "vortex_total_connections_received_total") (str "Total client connections accepted") (str "counter") (FormatInt (TotalConnections snap)) ++
    metric (str "vortex_commands_processed_total") (str "Total commands processed by the engine") (str "counter") (FormatInt (TotalCommands snap)) ++
    metric (str "vortex_instantaneous_ops_per_sec") (str "Current commands processed per second") (str "gauge") (FormatInt (OpsPerSecond snap)) ++
    metric (str "vortex_memory_allocated_bytes") (str "Current bytes allocated by the in-memory engine") (str "gauge") (FormatInt (AllocatedBytes snap)) ++
    metric (str "vortex_keys_total") (str "Total number of active keys stored in the keyspace") (str "gauge") (FormatInt (TotalKeys_ snap)) ++
    metric (str "vortex_command_duration_microseconds_avg") (str "Average command execution latency in microseconds") (str "gauge") (fmt2 (AvgLatencyMicro snap)) ++
    metric (str "vortex_command_duration_microseconds_p99") (str "99th percentile command execution latency in microseconds") (str "gauge") (fmt2 (P99LatencyMicro snap)) ++
    commands_by_type (CommandsByType snap)).

(** ** The commands of the engine that report *)

(** INFO; [repl] is the replication section, when the engine replicates. *)
Definition cmd_info (uptime alloc totalKeys : Z) (repl : option bytes) (args : list bytes) t : res panic Resp.Value :=
  infoText ← GenerateRedisInfo uptime alloc totalKeys t;
  match repl with
  | Some r =>
      match args with
      | a :: _ => if decide (ToLower a = str "replication") then Ok (BulkString r) else Ok (BulkString (infoText ++ CRLF ++ r))
      | [] => Ok (BulkString (infoText ++ CRLF ++ r))
      end
  | None => Ok (BulkString infoText)
  end.

End Texts.

Definition slow_value (l : SlowLogEntry) : Resp.Value :=
  Array [Integer (sl_ID l); Integer (sl_Timestamp l); Integer (sl_Duration l); Array (BulkString <$> sl_Command l)].

Definition cmd_slowlog (uptime alloc : Z) (args : list bytes) t : res panic Resp.Value :=
  let get := snap ← GetSnapshot uptime alloc 0 t; Ok (Array (slow_value <$> RecentSlowLogs snap)) in
  match args with
  | a :: _ =>
      if decide (ToUpper a = str "LEN") then
        snap ← GetSnapshot uptime alloc 0 t; Ok (Integer (Z.of_nat (length (RecentSlowLogs snap))))
      else if decide (ToUpper a = str "RESET") then Ok OK
      else get
  | [] => get
  end.

(** TIME at the time [seconds] and [nanoseconds]. *)
Definition cmd_time (seconds nanoseconds : Z) : Resp.Value :=
  Array [BulkString (FormatInt seconds); BulkString (FormatInt (Z.quot nanoseconds 1000))].

Definition cmd_config (args : list bytes) : Resp.Value :=
  match args with
  | a :: b :: _ =>
      if decide (ToUpper a = str "GET") then
        let param := ToLower b in
        if decide (param = str "save" \/ param = str "*") then Array [BulkString (str "save"); BulkString []] else Array [BulkString param; BulkString []]
      else if decide (ToUpper a = str "SET") then OK
      else if decide (ToUpper a = str "RESETSTAT") then OK
      else Array []
  | [a] => if decide (ToUpper a = str "RESETSTAT") then OK else Array []
  | [] => Array []
  end.

(** ** What telemetry keeps *)

Definition open {A} (chs : gmap nat (Chan A)) (l : nat) : Prop := exists c, chs !! l = Some c /\ closed c = false.

Lemma offer_all_ok {A} (x : A) ls : forall chs, (forall l, l ∈ ls -> open chs l) ->
  exists chs', offer_all x ls chs = Ok chs' /\ forall l, open chs l -> open chs' l.
Proof.
  induction ls as [|l ls IH]; intros chs Hl; cbn [offer_all]; [by exists chs|].
  destruct (Hl l) as (c & Hc & Ho); [by left|]. rewrite Hc. unfold offer_item. rewrite Ho. cbn [mbind res_bind].
  set (c' := if (length (items c) <? room c)%nat then _ else c).
  assert (closed c' = false) as Ho' by (subst c'; by destruct (_ <? _)%nat). clearbody c'.
  assert (forall k, open chs k -> open (<[l := c']> chs) k) as Hk.
  { intros k (d & Hd & Hdo). destruct (decide (k = l)) as [->|Hne]; [exists c'; by rewrite lookup_insert_eq|exists d; by rewrite lookup_insert_ne]. }
  destruct (IH (<[l := c']> chs)) as (chs' & -> & Hopen); [intros k Hk'; apply Hk, Hl; by right|]. exists chs'. split; [done|]. auto.
Qed.

Definition hidden (e : SlowLogEntry) : Prop :=
  match sl_Command e with name :: rest => ToUpperFast name = str "AUTH" -> Forall (eq redacted) rest | [] => True end.

Record telemetry_ok t : Prop := {
  tk_samples : length (latencySamples t) = latencySamplesCount;
  tk_logs : (length (slowLogs t) <= maxSlowLogs)%nat;
  tk_ids : sl_ID <$> slowLogs t = seqZ (slowLogCounter t - Z.of_nat (length (slowLogs t)) + 1) (Z.of_nat (length (slowLogs t)));
  tk_hidden : Forall hidden (slowLogs t);
  tk_events : forall l, l ∈ eventListeners t -> open (eventChans t) l;
  tk_count : eventListenerCount t = Z.of_nat (size (eventListeners t));
  tk_snaps : forall l, l ∈ listeners t -> open (snapChans t) l
}.

(** How far the counters that are bounded by a type can have come. *)
Definition small_counts (n : Z) t : Prop := 0 <= slowLogCounter t <= n /\ Z.of_nat (size (eventListeners t)) <= n.

Lemma p99_in_range n : (0 < n <= latencySamplesCount)%nat -> 0 <= p99Idx n < Z.of_nat n.
Proof.
  intros Hn. assert (forallb (fun n => (0 <=? p99Idx n) && (p99Idx n <? Z.of_nat n)) (seq 1 latencySamplesCount) = true) as H by (vm_compute; reflexivity).
  rewrite forallb_forall in H. specialize (H n). rewrite List.in_seq in H. specialize (H ltac:(lia)). lia.
Qed.

Lemma latencies_ok t : telemetry_ok t -> exists p, latencies t = Ok p.
Proof.
  intros HT. unfold latencies. set (l := sort_slice _ _). assert (length l <= latencySamplesCount)%nat as Hl.
  { subst l. rewrite sort_slice_perm, <- (tk_samples _ HT). apply length_filter. }
  destruct l as [|x l']; [by eexists|]. destruct (p99_in_range (length (x :: l'))) as [P1 P2]; [cbn [length] in *; lia|].
  destruct ((x :: l') !! Z.to_nat (p99Idx (length (x :: l')))) eqn:E; [by eexists|]. apply lookup_ge_None in E. lia.
Qed.

Lemma GetSnapshot_ok uptime alloc keys t : telemetry_ok t -> exists s, GetSnapshot uptime alloc keys t = Ok s.
Proof. intros HT. unfold GetSnapshot. destruct (latencies_ok t HT) as [[a p] ->]. by eexists. Qed.

Lemma broadcast_ok ev t : telemetry_ok t -> exists t', BroadcastEvent ev t = Ok t' /\ telemetry_ok t' /\
  slowLogCounter t' = slowLogCounter t /\ eventListeners t' = eventListeners t.
Proof.
  intros HT. pose proof HT as [A B C D E F G]. unfold BroadcastEvent. destruct (_ =? 0); [by exists t|].
  destruct (offer_all_ok ev (elements (eventListeners t)) (eventChans t)) as (chs & -> & Ho); [intros l Hl%elem_of_elements; by apply E|].
  eexists. split; [done|]. split; [|done]. split; try done. intros l Hl. by apply Ho, E.
Qed.

Lemma safeArgs_hidden now d n args : hidden (mkSlow n now d (safeArgs (match args with a :: _ => ToUpperFast a | [] => [] end) args)).
Proof.
  unfold hidden, safeArgs. cbn [sl_Command]. destruct args as [|a rest]; [by case_decide|]. case_decide as H; cbn.
  - intros _. apply list.Forall_forall. intros x Hx. by apply list_elem_of_fmap in Hx as (y & -> & _).
  - intros H'. by rewrite H' in H.
Qed.

Lemma seqZ_tail m n : 0 < n -> tail (seqZ m n) = seqZ (m + 1) (n - 1).
Proof. intros Hn. rewrite seqZ_cons by done. cbn [tail]. f_equal; lia. Qed.

Lemma seqZ_snoc m n x m' n' : 0 <= n -> x = m + n -> m' = m -> n' = n + 1 -> seqZ m n ++ [x] = seqZ m' n'.
Proof. intros Hn -> -> ->. by rewrite seqZ_app by lia. Qed.

Lemma record_slow_ok now d args t n : telemetry_ok t -> small_counts n t -> n < 2 ^ 63 - 1 ->
  exists t', record_slow now d (match args with a :: _ => ToUpperFast a | [] => [] end) args t = Ok t' /\ telemetry_ok t' /\ small_counts (n + 1) t'.
Proof.
  intros HT [Hc Hs] Hn. pose proof HT as [A B C D E F G]. unfold record_slow. rewrite int64_id by (unfold is_int64; lia).
  set (entry := mkSlow _ _ _ _). set (logs := if (maxSlowLogs <=? length (slowLogs t))%nat then tail (slowLogs t) else slowLogs t).
  assert (telemetry_ok (set_slow (logs ++ [entry]) (slowLogCounter t + 1) t)) as HT'.
  { split; cbn [set_slow latencySamples slowLogs slowLogCounter eventListeners eventChans eventListenerCount listeners snapChans]; try done.
    - rewrite length_app. subst logs. unfold maxSlowLogs in *. destruct (Nat.leb_spec 128 (length (slowLogs t))); cbn [length]; [destruct (slowLogs t); cbn [tail length] in *|]; lia.
    - rewrite fmap_app, length_app. cbn [length fmap list_fmap sl_ID entry]. subst logs. unfold maxSlowLogs in *.
      destruct (Nat.leb_spec 128 (length (slowLogs t))) as [HL|HL].
      + destruct (slowLogs t) as [|x l] eqn:El; [cbn [length] in HL; lia|]. cbn [tail length] in *. assert (length l = 127%nat) as HE by lia. rewrite HE in *.
        rewrite fmap_cons in C. apply (f_equal tail) in C. cbn [tail] in C. rewrite seqZ_tail in C by lia. rewrite C.
        apply seqZ_snoc; lia.
      + rewrite C. apply seqZ_snoc; lia.
    - apply Forall_app. split; [|apply Forall_singleton, safeArgs_hidden]. subst logs. destruct (_ <=? _)%nat; [|done]. destruct (slowLogs t); [done|]. by inversion D. }
  destruct (broadcast_ok (SlowEvent entry) _ HT') as (t' & -> & H1 & H2 & H3). exists t'. split; [done|]. split; [done|].
  unfold small_counts. rewrite H2, H3. cbn [set_slow slowLogCounter eventListeners]. lia.
Qed.

(** *** Operations *)

Inductive t_op :=
| TIncr | TDecr | TAdd (n : Z)
| TRecord (now duration : Z) (args : list bytes)   (** a command [args] of a client *)
| TTick (uptime alloc : Z)
| TEvent (ev : dash_event)
| TSubEvents | TUnsubEvents (ch : nat)
| TSubSnapshots | TUnsubSnapshots (ch : nat).

Definition t_step (op : t_op) t : res panic Telemetry :=
  match op with
  | TIncr => Ok (IncrConnections t)
  | TDecr => Ok (DecrConnections t)
  | TAdd n => Ok (AddTotalCommands n t)
  | TRecord now d args => RecordCommand now (match args with a :: _ => ToUpperFast a | [] => [] end) d args t
  | TTick uptime alloc => rate_tick uptime alloc t
  | TEvent ev => BroadcastEvent ev t
  | TSubEvents => Ok (SubscribeEvents t).1
  | TUnsubEvents ch => UnsubscribeEvents ch t
  | TSubSnapshots => Ok (SubscribeSnapshots t).1
  | TUnsubSnapshots ch => UnsubscribeSnapshots ch t
  end.

(** A channel of snapshots is given back once. *)
Definition op_ok (op : t_op) t : Prop := match op with TUnsubSnapshots ch => ch ∈ listeners t | _ => True end.

Lemma telemetry_same t t' : latencySamples t' = latencySamples t -> slowLogs t' = slowLogs t -> slowLogCounter t' = slowLogCounter t ->
  eventChans t' = eventChans t -> eventListeners t' = eventListeners t -> eventListenerCount t' = eventListenerCount t ->
  listeners t' = listeners t -> snapChans t' = snapChans t -> telemetry_ok t -> telemetry_ok t'.
Proof. intros E1 E2 E3 E4 E5 E6 E7 E8 [A B C D E F G]. by split; rewrite ?E1, ?E2, ?E3, ?E4, ?E5, ?E6, ?E7, ?E8. Qed.

Lemma sampled_ok cmd d t : telemetry_ok t -> telemetry_ok (count_command cmd (sample_latency d t)).
Proof.
  intros HT. apply (telemetry_same (sample_latency d t)); try done. unfold sample_latency. destruct (_ =? 0); [|done].
  destruct HT as [A B C D E F G]. split; try done. cbn [set_latency latencySamples]. by rewrite length_insert.
Qed.

Lemma t_step_ok op t n : telemetry_ok t -> small_counts n t -> 0 <= n < 2 ^ 31 - 1 -> op_ok op t ->
  exists t', t_step op t = Ok t' /\ telemetry_ok t' /\ small_counts (n + 1) t'.
Proof.
  intros HT Hs Hn Hop. pose proof HT as [A B C D E F G]. assert (forall t', slowLogCounter t' = slowLogCounter t -> eventListeners t' = eventListeners t -> small_counts (n + 1) t') as Hsame.
  { intros t' E1 E2. unfold small_counts in *. rewrite E1, E2. lia. }
  destruct op as [| |k|now d args|up al|ev| |ch| |ch]; cbn [t_step op_ok] in *.
  - eexists. split; [done|]. split; [by apply (telemetry_same t)|by apply Hsame].
  - eexists. split; [done|]. split; [by apply (telemetry_same t)|by apply Hsame].
  - eexists. split; [done|]. unfold AddTotalCommands. destruct (_ <=? 0); (split; [by apply (telemetry_same t)|by apply Hsame]).
  - unfold RecordCommand. set (t0 := set_commands _ _ _ t). assert (telemetry_ok t0) as HT0 by by apply (telemetry_same t).
    pose proof (sampled_ok (match args with a :: _ => ToUpperFast a | [] => [] end) d t0 HT0) as HT1.
    set (t1 := count_command _ _) in *. assert (slowLogCounter t1 = slowLogCounter t /\ eventListeners t1 = eventListeners t) as [E1 E2].
    { subst t1 t0. unfold sample_latency. by destruct (_ =? 0). }
    destruct (_ <=? _); [|eexists; split; [done|]; split; [done|by apply Hsame]].
    apply (record_slow_ok now d args t1 n); [done| |lia]. unfold small_counts in *. by rewrite E1, E2.
  - unfold rate_tick. set (t0 := set_commands _ _ _ t). assert (telemetry_ok t0) as HT0 by by apply (telemetry_same t).
    destruct (GetSnapshot_ok up al 0 t0 HT0) as [s ->]. cbn [mbind res_bind]. unfold broadcastSnapshot.
    destruct (offer_all_ok s (elements (listeners t0)) (snapChans t0)) as (chs & -> & Ho); [intros l Hl%elem_of_elements; by apply G|].
    cbn [mbind res_bind]. eexists. split; [done|]. split; [|by apply Hsame]. split; try done. intros l Hl. by apply Ho, G.
  - destruct (broadcast_ok ev t HT) as (t' & E' & H1 & H2 & H3). exists t'. split; [done|]. split; [done|]. by apply Hsame.
  - eexists. split; [done|]. unfold SubscribeEvents. cbn [fst]. set (ch := fresh _).
    assert (ch ∉ eventListeners t) as Hf.
    { intros Hl. destruct (E ch Hl) as (c & Hc & _). apply (is_fresh (dom (eventChans t))). fold ch. by apply elem_of_dom. }
    destruct Hs as [Hs1 Hs2]. assert (Z.of_nat (size ({[ch]} ∪ eventListeners t)) = Z.of_nat (size (eventListeners t)) + 1) as Hsz.
    { rewrite size_union by set_solver. rewrite size_singleton. lia. }
    split; [|unfold small_counts; cbn [set_events eventListeners slowLogCounter]; rewrite Hsz; lia].
    split; cbn [set_events latencySamples slowLogs slowLogCounter eventListeners eventChans eventListenerCount listeners snapChans]; try done.
    + intros l [->%elem_of_singleton|Hl]%elem_of_union; [eexists; by rewrite lookup_insert_eq|]. destruct (E l Hl) as (c & Hc & Ho).
      exists c. rewrite lookup_insert_ne; [done|]. by intros <-.
    + rewrite Hsz, F. unfold int32. rewrite Z.mod_small; lia.
  - unfold UnsubscribeEvents. destruct (decide _) as [Hin|]; [|exists t; split; [done|]; split; [done|by apply Hsame]].
    destruct (E ch Hin) as (c & -> & Ho). unfold close_chan. rewrite Ho. cbn [mbind res_bind]. eexists. split; [done|].
    destruct Hs as [Hs1 Hs2]. assert (Z.of_nat (size (eventListeners t ∖ {[ch]})) = Z.of_nat (size (eventListeners t)) - 1) as Hsz.
    { rewrite size_difference, size_singleton by set_solver. assert (size (eventListeners t) <> 0)%nat; [|lia].
      intros H0%size_empty_inv. set_solver. }
    split; [|unfold small_counts; cbn [set_events eventListeners slowLogCounter]; rewrite Hsz; lia].
    split; cbn [set_events latencySamples slowLogs slowLogCounter eventListeners eventChans eventListenerCount listeners snapChans]; try done.
    + intros l [Hl Hne]%elem_of_difference. destruct (E l Hl) as (c' & Hc' & Ho'). exists c'. rewrite lookup_insert_ne; [done|]. set_solver.
    + rewrite Hsz, F. unfold int32. rewrite Z.mod_small; lia.
  - eexists. split; [done|]. unfold SubscribeSnapshots. cbn [fst]. split; [|by apply Hsame]. split; try done. cbn [set_snaps listeners snapChans].
    intros l Hl. destruct (decide (l = fresh (dom (snapChans t)))) as [->|Hne]; [eexists; by rewrite lookup_insert_eq|].
    destruct (G l) as (c & Hc & Ho); [set_solver|]. exists c. by rewrite lookup_insert_ne.
  - unfold UnsubscribeSnapshots. destruct (G ch Hop) as (c & -> & Ho). unfold close_chan. rewrite Ho. cbn [mbind res_bind]. eexists. split; [done|].
    split; [|by apply Hsame]. split; try done. cbn [set_snaps listeners snapChans]. intros l [Hl Hne]%elem_of_difference.
    destruct (G l Hl) as (c' & Hc' & Ho'). exists c'. rewrite lookup_insert_ne; [done|]. set_solver.
Qed.

Fixpoint t_run (ops : list t_op) t : res panic Telemetry :=
  match ops with [] => Ok t | op :: ops' => t ← t_step op t; t_run ops' t end.

Fixpoint ops_ok (ops : list t_op) t : Prop :=
  match ops with [] => True | op :: ops' => op_ok op t /\ forall t', t_step op t = Ok t' -> ops_ok ops' t' end.

Lemma t_run_ok ops : forall t n, telemetry_ok t -> small_counts n t -> 0 <= n -> n + Z.of_nat (length ops) < 2 ^ 31 - 1 -> ops_ok ops t ->
  exists t', t_run ops t = Ok t' /\ telemetry_ok t'.
Proof.
  induction ops as [|op ops IH]; intros t n HT Hs Hn Hlen Hops; cbn [t_run ops_ok length] in *; [by exists t|]. destruct Hops as [Hop Hops].
  destruct (t_step_ok op t n HT Hs ltac:(lia) Hop) as (t1 & E & H1 & H2). rewrite E. cbn [mbind res_bind].
  apply (IH t1 (n + 1)); [done|done|lia|lia|by apply Hops].
Qed.

Lemma NewTelemetry_ok : telemetry_ok NewTelemetry.
Proof. split; cbn; try done; try (unfold maxSlowLogs; lia); set_solver. Qed.

(** Whatever commands are recorded and whoever listens, telemetry never panics: the
    percentile index stays within the samples and no closed channel is written; the
    slow log keeps the last 128 entries at most, numbered without gaps, and never the
    arguments of AUTH; and the counter that switches events off is the number of
    listeners. *)
Theorem telemetry_safe ops : Z.of_nat (length ops) < 2 ^ 31 - 1 -> ops_ok ops NewTelemetry ->
  exists t, t_run ops NewTelemetry = Ok t /\ (length (slowLogs t) <= 128)%nat /\
    sl_ID <$> slowLogs t = seqZ (slowLogCounter t - Z.of_nat (length (slowLogs t)) + 1) (Z.of_nat (length (slowLogs t))) /\
    Forall hidden (slowLogs t) /\ eventListenerCount t = Z.of_nat (size (eventListeners t)) /\ exists s, GetSnapshot 0 0 0 t = Ok s.
Proof.
  intros Hlen Hops. destruct (t_run_ok ops NewTelemetry 0 NewTelemetry_ok) as (t & E & HT); [by split|done|lia|done|].
  exists t. split; [done|]. pose proof (GetSnapshot_ok 0 0 0 t HT) as HG. by destruct HT.
Qed.

(** ** What telemetry does not do *)

(** The password of ACL SETUSER stays in the slow log. *)
Theorem acl_password_in_slowlog :
  match t_run [TRecord 1 20000 [str "ACL"; str "SETUSER"; str "bob"; str ">secret"]] NewTelemetry with
  | Ok t => (fun e => sl_Command e) <$> slowLogs t = [[str "ACL"; str "SETUSER"; str "bob"; str ">secret"]]
  | Err _ => False
  end.
Proof. vm_compute. reflexivity. Qed.

Lemma count_command_size name t : cmdCounters t !! name = None -> size (cmdCounters (count_command name t)) = S (size (cmdCounters t)).
Proof. intros H. unfold count_command. cbn [set_counters cmdCounters]. by rewrite map_size_insert_None. Qed.

(** Every name of a command makes a counter, also a name that is no command: the
    counters grow with what clients send. *)
Theorem counters_grow names : forall t, NoDup names -> (forall n, n ∈ names -> ToUpperFast n = n /\ cmdCounters t !! n = None) -> 0 < slowThresholdMicro t ->
  exists t', t_run ((fun n => TRecord 0 0 [n]) <$> names) t = Ok t' /\ size (cmdCounters t') = (size (cmdCounters t) + length names)%nat.
Proof.
  induction names as [|n names IH]; intros t HN Hfree Hth; cbn [fmap list_fmap t_run length]; [exists t; split; [done|lia]|].
  apply NoDup_cons in HN as [Hn HN]. destruct (Hfree n) as [Hup Hnone]; [by left|]. cbn [t_step]. unfold RecordCommand. rewrite Hup.
  set (t0 := set_commands _ _ _ t). assert (slowThresholdMicro (count_command n (sample_latency 0 t0)) = slowThresholdMicro t /\
    cmdCounters (sample_latency 0 t0) = cmdCounters t) as [E1 E2] by (unfold sample_latency; by destruct (_ =? 0)).
  rewrite E1, (proj2 (Z.leb_gt _ _)) by done. cbn [mbind res_bind].
  destruct (IH (count_command n (sample_latency 0 t0))) as (t' & -> & Hsz); [done| |by rewrite E1|].
  - intros m Hm. destruct (Hfree m) as [? Hm']; [by right|]. split; [done|]. cbn [count_command set_counters cmdCounters]. rewrite E2, lookup_insert_ne; [done|]. by intros ->.
  - exists t'. split; [done|]. rewrite Hsz, count_command_size by (by rewrite E2). rewrite E2. lia.
Qed.

(** SLOWLOG RESET answers OK and keeps the log; a count after GET is ignored. *)
Theorem slowlog_reset_keeps t : cmd_slowlog 0 0 [str "RESET"] t = Ok OK /\ cmd_slowlog 0 0 [str "GET"; str "1"] t = cmd_slowlog 0 0 [] t.
Proof. split; reflexivity. Qed.

(** A channel of snapshots that is given back twice closes a closed channel. *)
Theorem snapshots_closed_twice : t_run [TSubSnapshots; TUnsubSnapshots 0; TUnsubSnapshots 0] NewTelemetry = Err PanicClose.
Proof. vm_compute. reflexivity. Qed.
