(* ===== verification/FallbackReactor.v ===== *)
(** * The blocking reactor (internal/reactor/reactor_fallback.go)

    The server for systems without an event interface: a goroutine per connection
    reads into the ring buffer, runs every command that is complete, and writes the
    replies of a read at once. *)

From S2P Require Import Prelude Resp RingBuffer ReactorParser Reactor SkipList Commands.

Section Fallback.
Context {St : Type} (exec : St -> list bytes -> St * bytes).

(** The engine, the ring buffer and [outBuf] of a connection, what was written to
    it, and whether [handleConnection] is still running. *)
Record FConn := mkFConn { f_ring : RingBuffer; f_st : St; outBuf : bytes; f_sent : bytes; f_status : conn_status }.

Definition f_end (out : bytes) (c : FConn) : FConn := mkFConn (f_ring c) (f_st c) (outBuf c) (f_sent c ++ out) Closed.

Definition protocol_error : bytes := str "-ERR protocol error" ++ CRLF.

(** The inner loop, over the commands in the ring buffer.  An empty [args] that is
    not nil panics at [args[0]]. *)
Fixpoint f_drain (fuel : nat) (c : FConn) : FConn :=
  let data := readable (f_ring c) in
  match fuel, data with
  | _, [] => c
  | O, _ => c
  | S f, _ =>
      match ParseCommand data with
      | ErrProtocol => f_end protocol_error c
      | Parsed (Some args) consumed =>
          if consumed =? 0 then c
          else
            let c := mkFConn (AdvanceRead (f_ring c) consumed) (f_st c) (outBuf c) (f_sent c) (f_status c) in
            match args with
            | [] => mkFConn (f_ring c) (f_st c) (outBuf c) (f_sent c) Crashed
            | name :: _ =>
                if decide (ToUpperFast name = str "QUIT") then f_end respOK c
                else
                  let '(s, res) := exec (f_st c) args in
                  f_drain f (mkFConn (f_ring c) s (outBuf c ++ res) (f_sent c) (f_status c))
            end
      | Panic => mkFConn (f_ring c) (f_st c) (outBuf c) (f_sent c) Crashed
      | _ => c
      end
  end.

(** One iteration of [handleConnection]: a read of [chunk], then the replies. *)
Definition f_read (c : FConn) (chunk : bytes) : FConn :=
  match chunk with
  | [] => c
  | _ =>
      let c := mkFConn (Write (f_ring c) chunk).1 (f_st c) (outBuf c) (f_sent c) (f_status c) in
      let c := f_drain (RingBuffer.Len (f_ring c)) c in
      match f_status c with
      | Open => mkFConn (f_ring c) (f_st c) [] (f_sent c ++ outBuf c) Open
      | _ => c
      end
  end.

Fixpoint f_serve (chunks : list bytes) (c : FConn) : FConn :=
  match chunks with
  | [] => c
  | chunk :: chunks' => match f_status c with Open => f_serve chunks' (f_read c chunk) | _ => c end
  end.

(** ** Serving a stream of commands *)

(** The commands one after the other, and their replies. *)
Fixpoint f_run (s : St) (cmds : list (list bytes)) : St * bytes :=
  match cmds with
  | [] => (s, [])
  | a :: cmds' => let '(s, r) := exec s a in let '(s, rs) := f_run s cmds' in (s, r ++ rs)
  end.

Definition servable (a : list bytes) : Prop :=
  match a with name :: _ => ToUpperFast name <> str "QUIT" | [] => False end /\ Z.of_nat (length a) <= maxStrings.

Abbreviation stream := (fun cmds => concat (map SerializeCommand cmds)).

Lemma f_run_app s cmds cmds' : f_run s (cmds ++ cmds') = let '(s1, r1) := f_run s cmds in let '(s2, r2) := f_run s1 cmds' in (s2, r1 ++ r2).
Proof.
  revert s. induction cmds as [|a cmds IH]; intros s; cbn [app f_run]; [by destruct (f_run s cmds')|].
  destruct (exec s a) as [s1 r]. rewrite IH. destruct (f_run s1 cmds) as [s2 r2]. destruct (f_run s2 cmds') as [s3 r3]. by rewrite app_assoc.
Qed.

(** What the inner loop makes of a part [data] of a stream: it runs the commands that
    are complete and keeps the rest. *)
Lemma ring_advance b n d rest : wf b -> (0 < length d)%nat -> content b = d ++ rest -> n = Z.of_nat (length d) -> go_len (d ++ rest) -> wf (AdvanceRead b n) /\ content (AdvanceRead b n) = rest.
Proof.
  intros Hwf Hpos Hc -> Hg. pose proof (length_content _ Hwf) as Hl. rewrite Hc, length_app in Hl. unfold go_len in Hg. rewrite length_app in Hg.
  rewrite AdvanceRead_seek by (done || lia). rewrite Nat2Z.id, Nat.min_r by lia.
  destruct (seek_spec b (length d) Hwf) as [H1 H2]; [lia|]. split; [done|]. by rewrite H2, Hc, drop_app_length.
Qed.

Lemma f_drain_spec cmds : forall fuel data more c, Forall servable cmds -> go_len (stream cmds) -> data ++ more = stream cmds ->
  wf (f_ring c) -> content (f_ring c) = data -> (length data <= fuel)%nat -> f_status c = Open ->
  exists k rest, rest ++ more = stream (drop k cmds) /\ (forall a l, drop k cmds = a :: l -> length rest < length (SerializeCommand a))%nat /\
    let c' := f_drain fuel c in
    wf (f_ring c') /\ content (f_ring c') = rest /\ f_status c' = Open /\ f_sent c' = f_sent c /\
    (f_st c', outBuf c') = (let '(s, r) := f_run (f_st c) (take k cmds) in (s, outBuf c ++ r)).
Proof.
  assert (forall fuel c, content (f_ring c) = [] -> wf (f_ring c) -> f_drain fuel c = c) as Hnil.
  { intros fuel c H Hw. destruct fuel; cbn [f_drain]; by rewrite readable_content, H. }
  induction cmds as [|a cmds IH]; intros fuel data more c HF Hg Hd Hwf Hc Hf Ho; cbn [map concat] in *.
  { apply app_nil in Hd as [-> ->]. exists 0%nat, []. cbv zeta. rewrite Hnil by done.
    cbn [take f_run drop]. rewrite (app_nil_r (outBuf c)). split; [done|]. split; [by intros ? ? [=]|]. by split_and!. }
  apply list.Forall_cons in HF as [Ha HF]. destruct a as [|name args]; [by destruct Ha|]. destruct Ha as [Hq Hmax].
  pose proof (go_len_app_l _ _ Hg) as Hga. destruct (decide (length data < length (SerializeCommand (name :: args)))%nat) as [Hlt|Hge].
  - exists 0%nat, data. cbv zeta. split; [done|]. split; [by intros ? ? [= <- <-]|].
    assert (f_drain fuel c = c) as ->; [|cbn [take f_run]; rewrite (app_nil_r (outBuf c)); by split_and!].
    destruct data as [|b data]; [by apply Hnil|]. destruct fuel as [|f]; [cbn [length] in Hf; lia|]. cbn [f_drain]. rewrite readable_content, Hc by done.
    unfold ParseCommand. rewrite (ParseCommandInto_prefix (name :: args) None (b :: data) (drop (length (b :: data)) (SerializeCommand (name :: args)))); try done.
    + rewrite <- (take_drop (length (b :: data)) (SerializeCommand (name :: args))) at 1. f_equal. apply (f_equal (take (length (b :: data)))) in Hd.
      rewrite take_app_length, take_app_le in Hd by lia. done.
    + intros E. apply (f_equal length) in E. rewrite length_drop in E. cbn [length] in *. lia.
  - assert (exists data', data = SerializeCommand (name :: args) ++ data' /\ data' ++ more = stream cmds) as (data' & -> & Hd').
    { exists (drop (length (SerializeCommand (name :: args))) data). pose proof Hd as Hd2. apply (f_equal (take (length (SerializeCommand (name :: args))))) in Hd.
      rewrite take_app_le, take_app_length in Hd by lia. split; [by rewrite <- Hd at 1; rewrite take_drop|].
      apply (f_equal (drop (length (SerializeCommand (name :: args))))) in Hd2. by rewrite drop_app_le, drop_app_length in Hd2 by lia. }
    rewrite <- Hd', app_assoc in Hg. pose proof (go_len_app_l _ _ Hg) as Hg1. rewrite length_app in Hf.
    pose proof (ParseCommandInto_serialized (name :: args) data' None ltac:(done) Hg1 Hmax) as HP.
    assert (0 < length (SerializeCommand (name :: args)))%nat as Hpos by (cbn; lia).
    destruct fuel as [|f]; [lia|]. cbn [f_drain]. rewrite readable_content, Hc by done.
    destruct (SerializeCommand (name :: args) ++ data') as [|b0 d0] eqn:E0; [apply (f_equal length) in E0; rewrite length_app in E0; cbn [length] in E0; lia|].
    rewrite <- E0 in *. unfold ParseCommand. rewrite HP. rewrite (proj2 (Z.eqb_neq _ _)) by lia. cbv zeta. cbn [f_ring f_st outBuf f_sent f_status].
    rewrite decide_False by done. destruct (exec (f_st c) (name :: args)) as [s r] eqn:Ex.
    destruct (ring_advance (f_ring c) _ (SerializeCommand (name :: args)) data' Hwf Hpos Hc eq_refl Hg1) as [Hw1 Hc1].
    set (c1 := mkFConn _ s _ _ _).
    destruct (IH f data' more c1 HF) as (k & rest & H1 & H2 & H3 & H4 & H5 & H6 & H7); try done.
    + rewrite <- Hd'. unfold go_len in *. rewrite !length_app in *. lia.
    + lia.
    + exists (S k), rest. split_and!; try done. rewrite H7. cbn [take f_run]. subst c1. cbn [f_st outBuf]. rewrite Ex.
      destruct (f_run s (take k cmds)) as [s2 r2]. by rewrite app_assoc.
Qed.

Lemma f_read_spec cmds chunk more c : Forall servable cmds -> go_len (stream cmds) -> wf (f_ring c) -> f_status c = Open -> outBuf c = [] -> chunk <> [] ->
  content (f_ring c) ++ chunk ++ more = stream cmds ->
  exists k, let c' := f_read c chunk in
    content (f_ring c') ++ more = stream (drop k cmds) /\ (forall a l, drop k cmds = a :: l -> length (content (f_ring c')) < length (SerializeCommand a))%nat /\
    wf (f_ring c') /\ f_status c' = Open /\ outBuf c' = [] /\
    (f_st c', f_sent c') = (let '(s, r) := f_run (f_st c) (take k cmds) in (s, f_sent c ++ r)).
Proof.
  intros HF Hg Hwf Ho Hout Hne Hd. unfold f_read. destruct chunk as [|b chunk]; [done|]. cbv zeta. set (c1 := mkFConn _ _ _ _ _).
  destruct (Write_spec (f_ring c) (b :: chunk) Hwf) as (Hw & Hc & _).
  destruct (f_drain_spec cmds (RingBuffer.Len (f_ring c1)) (content (f_ring c) ++ b :: chunk) more c1) as (k & rest & H1 & H2 & H3 & H4 & H5 & H6 & H7); try done.
  - by rewrite <- app_assoc.
  - rewrite <- Hc. cbn [f_ring c1]. by rewrite length_content.
  - exists k. rewrite H5. cbn [f_ring f_st outBuf f_sent f_status]. rewrite H4. split_and!; try done.
    change (f_st c1) with (f_st c) in H7. change (outBuf c1) with (outBuf c) in H7. rewrite Hout in H7.
    destruct (f_run (f_st c) (take k cmds)) as [s r]. apply pair_eq in H7 as [H7a H7b]. by rewrite H6, H7a, H7b.
Qed.

(** Whatever pieces the network makes of a stream of commands, the blocking reactor
    runs exactly those commands, in order, and the client receives exactly their
    replies. *)
Theorem fallback_serves chunks : forall cmds c, Forall servable cmds -> go_len (stream cmds) -> wf (f_ring c) -> f_status c = Open -> outBuf c = [] ->
  Forall (fun ch => ch <> []) chunks -> content (f_ring c) ++ concat chunks = stream cmds ->
  (forall a l, cmds = a :: l -> length (content (f_ring c)) < length (SerializeCommand a))%nat ->
  let c' := f_serve chunks c in
  f_status c' = Open /\ content (f_ring c') = [] /\ (f_st c', f_sent c') = (let '(s, r) := f_run (f_st c) cmds in (s, f_sent c ++ r)).
Proof.
  induction chunks as [|ch chunks IH]; intros cmds c HF Hg Hwf Ho Hout Hne Hd Hshort; cbn [f_serve concat] in *; cbv zeta.
  - rewrite app_nil_r in Hd. destruct cmds as [|a cmds].
    + cbn [map concat f_run] in *. by rewrite (app_nil_r (f_sent c)).
    + specialize (Hshort a cmds eq_refl). rewrite Hd in Hshort. cbn [map concat] in Hshort. rewrite length_app in Hshort. lia.
  - apply list.Forall_cons in Hne as [Hch Hne]. rewrite Ho.
    destruct (f_read_spec cmds ch (concat chunks) c HF Hg Hwf Ho Hout Hch Hd) as (k & R1 & R2 & R3 & R4 & R5 & R6).
    destruct (IH (drop k cmds) (f_read c ch)) as (I1 & I2 & I3); try done.
    + by apply Forall_drop.
    + unfold go_len in *. rewrite <- (take_drop k cmds), map_app, concat_app, length_app in Hg. lia.
    + split_and!; [done|done|]. rewrite I3. rewrite <- (take_drop k cmds) at 2. rewrite f_run_app.
      destruct (f_run (f_st c) (take k cmds)) as [s1 r1]. injection R6 as -> ->. destruct (f_run s1 (drop k cmds)) as [s2 r2]. by rewrite app_assoc.
Qed.

End Fallback.

(** ** What the blocking reactor does not do *)

Definition counting (n : nat) (args : list bytes) : nat * bytes := (S n, respOK).

(** An empty array is parsed as nil, which the loop takes for missing data: the
    commands behind it are never run. *)
Theorem empty_array_stalls :
  let c := f_serve counting [SerializeCommand [] ++ SerializeCommand [str "PING"]; SerializeCommand [str "PING"]] (mkFConn (NewRingBuffer 64) 0%nat [] [] Open) in
  f_st c = 0%nat /\ f_sent c = [] /\ f_status c = Open.
Proof. vm_compute. repeat split. Qed.
